(* ===== verification/_CoqProject ===== *)
-Q . S2P
Prelude.v
Text.v
Serde.v
Contract.v
Scope.v
Address.v
Metadata.v
Delivery.v
Message.v
Identity.v
Response.v
Query.v
Cycles.v
Series.v
Envelope.v
Store.v
NatsConfig.v
NatsWire.v
Receipt.v
Proposal.v
Outcome.v
OutcomeFacts.v
NatsAuthority.v
Memory.v
MemoryFacts.v
NatsWireFacts.v
MemoryInvariant.v
MemorySafety.v
MemoryRefinement.v
History.v
NatsHistory.v
NatsHistoryFacts.v
NatsRoundtrip.v
NatsAppend.v
NatsAppendFacts.v
NatsReceipt.v
NatsReceiptFacts.v
NatsOutcomes.v
NatsTransaction.v
NatsTransactionFacts.v
NatsSamples.v
Aggregate.v
DomainEvent.v
Execution.v
Executor.v
ExecutorSafety.v
CommandMessage.v
CommandBus.v
CommandBusFacts.v
CommandProcessor.v
CommandProcessorFacts.v
IntegrationBus.v
IntegrationFacts.v
InMemoryMessaging.v
QueryBus.v
Materialize.v
MaterializeFacts.v
BusSamples.v
MaterializeSamples.v
NatsTopology.v
NatsPublish.v
NatsResponses.v
NatsConsumer.v
NatsConsumerFacts.v
NatsRouting.v
NatsResponseLog.v
NatsCommandHandler.v
NatsDomainEvents.v
NatsEventFacts.v
NatsQueries.v
NatsQuarantine.v
TransportSamples.v
TracerGraph.v
TracerObserved.v
TracerCompare.v
TracerMatching.v
TracerSteps.v
TracerHub.v
TracerHubFacts.v
TracerSamples.v
