(* ===== verification/Prelude.v ===== *)
(** * Rostfrei: a verification of its command core, event stores, message runtime and transport

    Rostfrei runs commands against event-sourced aggregates. A command handler
    loads aggregates, raises events on them and decides; the executor persists
    the decision, and at most one decision per operation, through an execution
    store; an execution store keeps streams of events, the receipts of
    transactions and the outcomes of completed commands. The runtime carries
    commands, queries and public events as messages to that core, over one
    process or over NATS, and keeps read models from its events; its tracer
    compares the messages a command caused with those a test expects. This
    development translates those parts of the Rust sources into executable definitions and
    proves what they promise each other. File and function names below are those
    under src/crates/.

    ** Parts and files

    - Prelude, Text, Serde: Rust's [Result] and [?], checked integers, early
      returning loops, byte frames, UTF-8 text, the interface of serde_json, JSON
      values and their canonical text.
    - Contract, Scope, Address, Metadata, Delivery, Cycles, Series
      (rostfrei-messaging-core/src/error.rs, value.rs, actor.rs, execution_failure.rs,
      scope.rs, address.rs, metadata.rs, consume.rs, message_series.rs): validated
      names, addresses, metadata, consumer configuration, technical failures, and the
      causal graph of a message series.
    - Message, Response, Query (envelope.rs, publish.rs, command_response.rs,
      query.rs, quarantine.rs there): the documents of commands, events, responses
      and queries, each with the checks of its constructor and of its reader.
    - Identity, Envelope, Store, Receipt, Proposal, Outcome with OutcomeFacts
      (rostfrei-core/src/identity.rs, envelope.rs, store.rs, completed_outcome.rs,
      receipt_validation.rs, proposal.rs, outcome.rs, execution_store.rs): the data
      executor and stores exchange - identities and their derivation, batches and
      recorded events, transactions and receipts, the proposal digest, and the
      permanent marker of an outcome with its detached details.
    - Memory, with MemoryFacts, MemoryInvariant, MemorySafety and
      MemoryRefinement (memory.rs): the in-memory store. Its state is one record;
      every critical section of its mutex is one function of that state, and an
      operation that locks twice takes the state it finds the second time.
    - Aggregate, Execution, Executor, ExecutorSafety, History,
      DomainEvent (aggregate.rs, codecs.rs, executor.rs, conflict_retry.rs,
      domain_event.rs): live aggregates and their journals, the retry loop with its
      reconciliation of winners, the validation of a history before it is applied,
      and the dispatch of committed events. The executor is proved over a record of
      store operations (Executor), then over Memory with an environment that may
      take any store step between two of its own (ExecutorSafety).
    - NatsConfig, NatsAuthority (rostfrei-nats/src/event_store_config.rs,
      stream_policy.rs): subjects and stream policies, and which pair of JetStream
      streams a store accepts as its own.
    - NatsWire, NatsHistory, NatsAppend, NatsReceipt, NatsTransaction, each with its
      Facts file, NatsOutcomes and NatsRoundtrip
      (rostfrei-nats/src/event_store.rs, event_store/outcomes.rs): the wire format, the
      histories built from stored messages, direct appends, the permanent receipts of
      transactions, the last-value state of split outcomes, and transactions. The
      server is not modelled: what it answers to each request is an argument, so
      the safety theorems hold for every server, also one that loses
      acknowledgements, and the liveness theorem names the answers it needs.
    - CommandMessage, CommandBus, CommandProcessor (rostfrei-runtime/src/command_bus.rs,
      command_bus/processing.rs, command_service.rs): a command as a message - its
      canonical payload, fingerprint and derived identities - its admission and
      dispatch through an adapter, and its processing: validation, lookup of a
      completed outcome, execution through Executor, projection to a response, with
      authorization and audit. CommandBusFacts and CommandProcessorFacts hold the
      theorems.
    - IntegrationBus with IntegrationFacts (integration_event_bus.rs,
      integration_event.rs): public events, from a committed event to the command a
      subscriber makes of it. InMemoryMessaging (in_memory_messaging.rs,
      command_rejection_codec.rs): the adapter of one process, its per-command
      gates a step relation. QueryBus (query_bus.rs): queries and their handlers.
    - Materialize with MaterializeFacts (rostfrei-core/src/read_model.rs,
      rostfrei-runtime/src/read_model/mod.rs, runtime.rs, integration.rs): read models
      kept from domain and integration events, over any store that compares
      revisions; between two accesses of a materialization the environment takes any
      steps.
    - NatsTopology, NatsRouting (rostfrei-nats/src/messaging_config.rs,
      provisioning.rs): the streams and durable consumers of an application, how they
      are provisioned, and to which of them a message goes.
    - NatsPublish, NatsResponses, NatsResponseLog (publish.rs,
      response_publication.rs, command_response.rs there): confirmed publication, and
      command responses as compare-and-set snapshots of a subject. The subject with
      all its publishers is a step relation in NatsResponseLog.
    - NatsConsumer with NatsConsumerFacts (consumer.rs): a stored message as a
      delivery, its handling with progress signals, its settlement and quarantine.
    - NatsCommandHandler (messaging_adapter.rs): a command published and awaited by
      its caller, and handled by a worker. NatsQueries (query.rs): queries over
      request and reply. NatsQuarantine (quarantine.rs): the pages of the quarantine.
    - NatsDomainEvents with NatsEventFacts (domain_event_consumer.rs): the ordered
      consumer of committed events; the workers that share it are a step relation.
    - TracerGraph, TracerObserved, TracerCompare (rostfrei-tracer/src/message_series.rs,
      and the timeouts, outcomes and payload subsets of behavioral.rs): definitions of
      expected causal graphs with their validation, series of observed messages, and
      the comparison of both. TracerMatching has the theory of its search - maximum
      matchings of siblings within an embedding of trees - and TracerSteps counts
      its steps and holds the theorem.
    - TracerHub with TracerHubFacts (rostfrei-tracer/src/correlation.rs): the
      correlations of the tracer, their bounded event logs and subscriptions. Records
      are shared by reference, so the hub has a heap of them; one critical section is
      one step.
    - OutcomeFacts, NatsSamples, BusSamples, MaterializeSamples, TransportSamples and
      TracerSamples also hold concrete instances of every interface below, and the inputs at
      which the theorems are applied.

    ** What is proved

    - Executor: a returned outcome is the stored winner and its receipt is in the
      streams; a completed command is answered from its winner and never evaluated
      again; a returned decision and its evidence are those decoded from the stored
      winner; bounded retries terminate; an evaluation that lost a handle persists
      nothing, whether its handler accepted or rejected; a simulation predicts its
      evaluation.
    - In-memory store: an invariant of all reachable states; transactions are
      atomic; one proposal wins an operation; no update is lost; history only grows;
      expiry is permanent ([no_lost_update], [memory_history_append_only],
      [expiry_is_permanent]); the store refines an abstract journal (MemoryRefinement).
    - NATS store: published batches are read back; every accepted history consists
      of whole derived commits that the executor accepts; an append or transaction
      reported as appended was sent as one conditioned batch and read back in what the
      server answered to the later lookup, and a replay is that very content; a receipt
      covers exactly its commits; subjects of different stores, authority epochs,
      contexts and streams differ; and a verified authority is the pair of streams
      connected to.
    - Commands as messages: what the bus encodes the processor admits, for a payload
      the JSON reader reads back; a message
      identity names its content; a response belongs to its command; a caller without
      access learns nothing and writes nothing.
    - Events and queries: an acknowledged event is decided; every message is recorded once under any interleaving; a query is
      answered by its registered handler.
    - Read models: every stored value is made of exactly the committed records of
      its key, in order and once, whatever is redelivered, reordered or raced.
    - Transport: every message is stored in exactly one stream of its application
      and delivered as it was published, its header values trimmed as the text of a
      NATS header is; a message is settled only when it was handled or recorded in the quarantine, whose pages list every record once; a
      published response is retained and a final one never replaced; a command is
      acknowledged only when the answer of the shared authority reached the response
      log, and a caller publishes only a consistent, authorized command, at most three
      times; committed events are acknowledged only after their whole transaction was
      dispatched, whichever workers share the consumer and however they are
      interrupted; a query is answered by the handler it was asked of.
    - Tests of causal graphs: a graph definition is accepted exactly when it is a tree
      of valid messages below a command; the parts of an observed series are accepted
      exactly when insertions build it; a comparison passes exactly when the expected
      graph embeds into what was observed, covers it, and every link, outcome and time
      is sound; a correlation keeps its bounds, and its subscriber misses no event.
    - Data: digests and derived identities separate what they are computed from up
      to a collision of SHA-256, manifests and details restore what was prepared,
      receipt validation and the item limit are exact, topology reports are exact.

    ** Conventions and bounds

    Machine integers are [N] with the source's checked operations ([checked_add],
    [try_from] and the widths of Prelude; [usize] is 64 bits); a signed time is [Z];
    a string is its UTF-8 bytes; hash maps are [gmap] where no order is observable.
    Loops of the source are structural folds. Where a loop has fuel, it is enough: n + 1
    evaluations of the executor suffice under a policy that allows n retries
    ([bounded_execution_terminates]); the walk of the cycle detection has two steps
    more than there are nodes and never runs out ([find_cycles_spec]); a page of the
    quarantine reads at most as many records as it has room for, as the source does.
    The search of a comparison recurses as deep as a graph may be, and an augmenting
    path visits every candidate at most once, so 65 levels and one turn more than
    there are candidates suffice ([subtree_decides], [augment_spec]); the limit of
    100,000 steps is the source's own.

    ** Interfaces

    Third-party code is a class with the laws its documentation gives: [Sha256] (32
    bytes; injectivity is never assumed, theorems that need it say up to a
    collision), [JsonCodec] (what serde_json does with a type, without laws), [Json]
    and [OutcomeJson] (decoding inverts encoding, for the plain data of wire records
    and markers only), [CommandText] (a command document is read back when its payload
    is [readable]: integers only, keys in order, and at most 125 levels deep, within
    the recursion limit of the reader), [Base64] and
    [Base64Url] (likewise), [HeaderMapApi] and [HeaderMapIter] (a map of names to
    values), [AtomicHeaderNames], [ErrorCodes] and [PublishErrorCodes] (constants of
    the client), [PublishMessageApi] (what the client adds to a published message),
    [SubjectMatching] (which subjects a filter selects), [AckJson] (the decoder of
    acknowledgements, without laws), [JsonText] (numbers and the text of a value),
    [ToValue] (conversion to a value, without laws), [ValueJson] (conversion to and
    from values), [ValueEq] (equality of values), [ResponseJson] (a response without
    rejection details is read back, and unknown members are refused), [TupleText] (an injective text of a tuple), [HashMapOrder] (a hash map
    lists each entry once), [DocumentJson] and [CorrelationJson] (the documents of a
    diagnostic and of a correlation, without laws). [Wire] maps a type to its
    serde form. [ReadModelStoreLaws] states what materialization relies on in a
    store: a write succeeds only over the revision that was read. The sample files
    instantiate all of them.

    ** Not modelled

    The text of JSON documents and of third-party errors; the JetStream protocol
    and its timing; creation and update of streams, the listing of streams, the
    audit of whole histories and legacy imports of the NATS store; the settings of
    NATS connections, the gates that let one process handle one delivery of a command
    at a time, and the NATS storage and workers of read models; the builder that
    wires read models (read_model/builder.rs); the service, continuous
    observation and HTTP interface of the tracer, the watch channels that wake its
    subscribers, its definition files and JSON schemas; the HTTP,
    structure, macro and test crates, which wire, generate, display or exercise the
    code above. *)

From Stdlib Require Export NArith Lia Ascii Strings.Byte DecimalString DecimalN.
From Stdlib Require Export String.
From stdpp Require Export base tactics option list strings countable gmap.

#[global] Open Scope N_scope.
#[global] Open Scope list_scope.

(** ** Fallible computations: Rust's [Result] *)

Inductive result (A E : Type) : Type :=
| Ok (a : A)
| Err (e : E).
Arguments Ok {A E} a.
Arguments Err {A E} e.

Definition rbind {A B E} (m : result A E) (k : A → result B E) : result B E :=
  match m with Ok a => k a | Err e => Err e end.

Declare Scope rust_scope.
Delimit Scope rust_scope with rust.
#[global] Open Scope rust_scope.

(** The [?] operator: [let? x := e in k] is [let x = e?; k]. *)
Notation "'let?' x ':=' c 'in' k" := (rbind c (fun x => k))
  (at level 10, x pattern, c at level 200, k at level 200) : rust_scope.
(** An early [return Err(e)] taken when [c] holds. *)
Notation "'fail!' c 'with' e ';' k" := (if c then Err e else k)
  (at level 10, c at level 200, e at level 200, k at level 200) : rust_scope.

Definition rmap {A B E} (f : A → B) (m : result A E) : result B E :=
  match m with Ok a => Ok (f a) | Err e => Err e end.
Definition map_err {A E F} (f : E → F) (m : result A E) : result A F :=
  match m with Ok a => Ok a | Err e => Err (f e) end.
Definition ok_or {A E} (o : option A) (e : E) : result A E :=
  match o with Some a => Ok a | None => Err e end.
Definition is_ok {A E} (m : result A E) : bool :=
  match m with Ok _ => true | Err _ => false end.
Definition is_err {A E} (m : result A E) : bool := negb (is_ok m).
(** [Option::transpose] *)
Definition transpose {A E} (o : option (result A E)) : result (option A) E :=
  match o with
  | None => Ok None
  | Some (Ok a) => Ok (Some a)
  | Some (Err e) => Err e
  end.
(** [iter.map(f).collect::<Result<Vec<_>, _>>()] *)
Fixpoint try_map {A B E} (f : A → result B E) (l : list A) : result (list B) E :=
  match l with
  | [] => Ok []
  | x :: r => let? y := f x in let? ys := try_map f r in Ok (y :: ys)
  end.
(** A [for] loop whose body may return early with an error. *)
Fixpoint try_fold {A S E} (f : S → A → result S E) (s : S) (l : list A) : result S E :=
  match l with
  | [] => Ok s
  | x :: r => let? s' := f s x in try_fold f s' r
  end.
(** [iter.enumerate()], counting from [i]. *)
Fixpoint enumerate_from {A} (i : N) (l : list A) : list (N * A) :=
  match l with [] => [] | x :: r => (i, x) :: enumerate_from (i + 1) r end.
Definition enumerate {A} (l : list A) : list (N * A) := enumerate_from 0 l.

(** ** Machine integers: values of [N] with the width's bound written out *)

Definition u16_max : N := 65535.
Definition u32_max : N := 4294967295.
Definition u64_max : N := 18446744073709551615.
(** The targets are 64-bit: [usize] is [u64]. *)
Definition usize_max : N := u64_max.

Definition checked_add (max a b : N) : option N :=
  if a + b <=? max then Some (a + b) else None.
Definition checked_sub (a b : N) : option N :=
  if b <=? a then Some (a - b) else None.
Definition saturating_add (max a b : N) : N := N.min max (a + b).
(** [uN::try_from(value)] *)
Definition try_from (max v : N) : option N := if v <=? max then Some v else None.

(** One [iter.next()]: the element and the iterator after it. *)
Definition next {A} (l : list A) : option A * list A := (head l, tail l).
(** [option.is_some_and(p)] and [option.is_none_or(p)] *)
Definition is_some_and {A} (p : A → bool) (o : option A) : bool :=
  match o with Some a => p a | None => false end.
Definition is_none_or {A} (p : A → bool) (o : option A) : bool :=
  match o with Some a => p a | None => true end.
Definition is_some {A} (o : option A) : bool := match o with Some _ => true | None => false end.
Definition is_none {A} (o : option A) : bool := negb (is_some o).

(** [slice.len()] *)
Definition len {A} (l : list A) : N := N.of_nat (length l).


(** ** Lemmas on results *)

Lemma rbind_Ok {A B E} (m : result A E) (k : A → result B E) b :
  rbind m k = Ok b ↔ ∃ a, m = Ok a ∧ k a = Ok b.
Proof. destruct m; cbn; naive_solver. Qed.

Lemma rbind_Err {A B E} (m : result A E) (k : A → result B E) e :
  rbind m k = Err e ↔ m = Err e ∨ ∃ a, m = Ok a ∧ k a = Err e.
Proof. destruct m; cbn; naive_solver. Qed.

Lemma rmap_Ok {A B E} (f : A → B) (m : result A E) b :
  rmap f m = Ok b ↔ ∃ a, m = Ok a ∧ f a = b.
Proof. destruct m; cbn; naive_solver. Qed.

Lemma map_err_Ok {A E F} (f : E → F) (m : result A E) a :
  map_err f m = Ok a ↔ m = Ok a.
Proof. destruct m; cbn; naive_solver. Qed.

Lemma map_err_Err {A E F} (f : E → F) (m : result A E) e :
  map_err f m = Err e ↔ ∃ e', m = Err e' ∧ f e' = e.
Proof. destruct m; cbn; naive_solver. Qed.

Lemma ok_or_Ok {A E} (o : option A) (e : E) a : ok_or o e = Ok a ↔ o = Some a.
Proof. destruct o; cbn; naive_solver. Qed.

Lemma ok_or_Err {A E} (o : option A) (e e' : E) : ok_or o e = Err e' ↔ o = None ∧ e = e'.
Proof. destruct o; cbn; naive_solver. Qed.

Lemma check_Ok {A E} (b : bool) (e : E) (x y : A) :
  (if b then Err e else Ok x) = Ok y ↔ b = false ∧ x = y.
Proof. destruct b; naive_solver. Qed.

Lemma transpose_Ok {A E} (o : option (result A E)) r :
  transpose o = Ok r ↔
  (o = None ∧ r = None) ∨ ∃ a, o = Some (Ok a) ∧ r = Some a.
Proof. destruct o as [[]|]; cbn; naive_solver. Qed.

Lemma is_ok_true {A E} (m : result A E) : is_ok m = true ↔ ∃ a, m = Ok a.
Proof. destruct m; cbn; naive_solver. Qed.

Lemma is_err_false {A E} (m : result A E) : is_err m = false ↔ ∃ a, m = Ok a.
Proof. destruct m; cbn; naive_solver. Qed.

Lemma try_map_Ok {A B E} (f : A → result B E) l ys :
  try_map f l = Ok ys ↔ Forall2 (λ x y, f x = Ok y) l ys.
Proof.
  revert ys; induction l as [|x l IH]; intros ys; cbn.
  - split; [intros [= <-]; constructor | by inversion 1].
  - rewrite rbind_Ok. setoid_rewrite rbind_Ok. setoid_rewrite IH. split.
    + intros (y & Hy & zs & Hzs & [= <-]). by constructor.
    + inversion 1; subst; eauto.
Qed.

(** A loop of checks over two lists in step. *)
Lemma try_map_zip_unit {A B E} (f : A * B → result unit E) l k :
  length l = length k →
  is_ok (try_map f (zip l k)) = true ↔ Forall2 (λ x y, f (x, y) = Ok tt) l k.
Proof.
  revert k; induction l as [|x l IH]; intros [|y k]; cbn; try done.
  intros [= Hl]. specialize (IH k Hl). destruct (f (x, y)) as [[]|] eqn:Ef; cbn.
  - destruct (try_map f (zip l k)); cbn in *; split; try done.
    + intros _. constructor; [done|by apply IH].
    + inversion 1; subst. by apply IH.
  - split; [done|]. inversion 1; congruence.
Qed.

Lemma try_fold_app {A S E} (f : S → A → result S E) s l1 l2 :
  try_fold f s (l1 ++ l2) = rbind (try_fold f s l1) (λ s', try_fold f s' l2).
Proof. revert s; induction l1 as [|x l IH]; intros s; cbn; [done|]. destruct (f s x); cbn; auto. Qed.

(** An invariant of the accumulator of an early-returning loop. *)
Lemma try_fold_inv {A S E} (P : S → list A → Prop) (f : S → A → result S E) l :
  (∀ s done x rest s', l = done ++ x :: rest → P s done → f s x = Ok s' → P s' (done ++ [x])) →
  ∀ s0 s1, P s0 [] → try_fold f s0 l = Ok s1 → P s1 l.
Proof.
  intros Hstep s0 s1 H0.
  enough (∀ rest done s, l = done ++ rest → P s done → try_fold f s rest = Ok s1 → P s1 l)
    by (intros; eapply (H l []); eauto).
  induction rest as [|x rest IH]; intros done s Heq HP; cbn.
  - intros [= <-]. rewrite app_nil_r in Heq. by subst.
  - rewrite rbind_Ok. intros (s' & Hs' & Hr).
    eapply (IH (done ++ [x])); eauto. by rewrite <- app_assoc.
Qed.

(** Decomposes hypotheses that say a computation returned [Ok]. *)
Ltac ok_step :=
  match goal with
  | H : rbind ?m _ = Ok _ |- _ =>
      let a := fresh "v" in let E := fresh "E" in
      apply rbind_Ok in H; destruct H as (a & E & H)
  | H : rmap _ _ = Ok _ |- _ =>
      let a := fresh "v" in let E := fresh "E" in
      apply rmap_Ok in H; destruct H as (a & E & H)
  | H : map_err _ _ = Ok _ |- _ => apply map_err_Ok in H
  | H : ok_or _ _ = Ok _ |- _ => apply ok_or_Ok in H
  | H : (if ?c then Err _ else _) = Ok _ |- _ =>
      let E := fresh "G" in destruct c eqn:E; [discriminate H|]
  | H : (if ?c then _ else Err _) = Ok _ |- _ =>
      let E := fresh "G" in destruct c eqn:E; [|discriminate H]
  | H : Err _ = Ok _ |- _ => discriminate H
  | H : Ok ?a = Ok ?b |- _ => injection H as H; try subst a; try subst b
  end.
Ltac inv_ok := repeat (ok_step; cbn beta iota in * ).

(** Splits boolean guards into their atoms. *)
Ltac bool_step :=
  match goal with
  | H : _ || _ = false |- _ => apply orb_false_iff in H; destruct H
  | H : _ && _ = true |- _ => apply andb_true_iff in H; destruct H
  | H : negb _ = false |- _ => apply negb_false_iff in H
  | H : negb _ = true |- _ => apply negb_true_iff in H
  | H : bool_decide _ = true |- _ => apply bool_decide_eq_true in H
  | H : bool_decide _ = false |- _ => apply bool_decide_eq_false in H
  | H : (_ <=? _) = true |- _ => apply N.leb_le in H
  | H : (_ <=? _) = false |- _ => apply N.leb_gt in H
  | H : (_ <? _) = true |- _ => apply N.ltb_lt in H
  | H : (_ <? _) = false |- _ => apply N.ltb_ge in H
  | H : (_ =? _) = true |- _ => apply N.eqb_eq in H
  | H : (_ =? _) = false |- _ => apply N.eqb_neq in H
  | H : (_ =? _)%string = true |- _ => apply String.eqb_eq in H
  | H : (_ =? _)%string = false |- _ => apply String.eqb_neq in H
  end.
Ltac guards := repeat (bool_step || ok_step; cbn beta iota in * ).

(** ** Lemmas on enumerations *)

Lemma length_enumerate_from {A} i (l : list A) : length (enumerate_from i l) = length l.
Proof. revert i; induction l; cbn; auto. Qed.

Lemma enumerate_from_lookup {A} i (l : list A) k :
  enumerate_from i l !! k = (λ x, (i + N.of_nat k, x)) <$> l !! k.
Proof.
  revert i k; induction l as [|x l IH]; intros i [|k]; cbn; try done.
  - by rewrite N.add_0_r.
  - rewrite IH. destruct (l !! k); cbn; [|done]. do 2 f_equal. lia.
Qed.

Lemma enumerate_lookup {A} (l : list A) k :
  enumerate l !! k = (λ x, (N.of_nat k, x)) <$> l !! k.
Proof. unfold enumerate. rewrite enumerate_from_lookup. by destruct (l !! k). Qed.

Lemma enumerate_from_app {A} i (l1 l2 : list A) :
  enumerate_from i (l1 ++ l2) = enumerate_from i l1 ++ enumerate_from (i + len l1) l2.
Proof.
  revert i; induction l1 as [|x l1 IH]; intros i; cbn.
  - unfold len; cbn. by rewrite N.add_0_r.
  - rewrite IH. do 3 f_equal. unfold len; cbn. lia.
Qed.

Lemma cons_inv {A} (x y : A) l k : x :: l = y :: k → x = y ∧ l = k.
Proof. by intros [=]. Qed.

Lemma next_Some {A} l (x : A) r : next l = (Some x, r) → l = x :: r.
Proof. unfold next. destruct l; naive_solver. Qed.

Lemma is_some_true {A} (o : option A) : is_some o = true ↔ ∃ a, o = Some a.
Proof. destruct o; cbn; naive_solver. Qed.
Lemma is_none_true {A} (o : option A) : is_none o = true ↔ o = None.
Proof. destruct o; cbn; naive_solver. Qed.
Lemma is_none_false {A} (o : option A) : is_none o = false ↔ ∃ a, o = Some a.
Proof. destruct o; cbn; naive_solver. Qed.

Lemma len_app {A} (l1 l2 : list A) : len (l1 ++ l2) = len l1 + len l2.
Proof. unfold len. rewrite length_app. lia. Qed.
Lemma len_nil {A} : len (@nil A) = 0.
Proof. done. Qed.
Lemma len_cons {A} (x : A) l : len (x :: l) = len l + 1.
Proof. unfold len; cbn; lia. Qed.
Lemma len_0 {A} (l : list A) : len l = 0 ↔ l = [].
Proof. unfold len. destruct l; cbn; split; intros; try done; lia. Qed.
#[export] Hint Rewrite @len_app @len_nil @len_cons : len.

Lemma checked_add_Some max a b c :
  checked_add max a b = Some c ↔ c = a + b ∧ a + b <= max.
Proof. unfold checked_add. destruct (a + b <=? max) eqn:E; bool_step; split; naive_solver lia. Qed.
Lemma checked_sub_Some a b c : checked_sub a b = Some c ↔ c = a - b ∧ b <= a.
Proof. unfold checked_sub. destruct (b <=? a) eqn:E; bool_step; split; naive_solver lia. Qed.
Lemma try_from_Some max v w : try_from max v = Some w ↔ w = v ∧ v <= max.
Proof. unfold try_from. destruct (v <=? max) eqn:E; bool_step; split; naive_solver lia. Qed.

(** A loop that collects the keys it has seen and refuses a repeated one. *)
Lemma try_fold_distinct {A K E} `{Countable K} (key : A → K)
    (f : gset K → A → result (gset K) E) (P : A → Prop) l :
  (∀ seen x seen', x ∈ l →
     f seen x = Ok seen' ↔ seen' = {[ key x ]} ∪ seen ∧ key x ∉ seen ∧ P x) →
  ∀ seen seen', try_fold f seen l = Ok seen' ↔
    seen' = list_to_set (key <$> l) ∪ seen
    ∧ NoDup (key <$> l) ∧ (∀ x, x ∈ l → key x ∉ seen) ∧ Forall P l.
Proof.
  induction l as [|x l IH]; intros Hf seen seen'; cbn [try_fold].
  - cbn. rewrite (left_id_L ∅ (∪)). split; [intros [= <-]|naive_solver].
    split_and!; [done|constructor|set_solver|done].
  - rewrite rbind_Ok. setoid_rewrite (Hf seen x); [|by left].
    cbn [fmap list_fmap list_to_set]. rewrite NoDup_cons, Forall_cons.
    assert (∀ seen0 y seen1, y ∈ l → f seen0 y = Ok seen1 ↔
      seen1 = {[ key y ]} ∪ seen0 ∧ key y ∉ seen0 ∧ P y) as Hf' by (intros; apply Hf; by right).
    specialize (IH Hf'). split.
    + intros (seen1 & (-> & Hn & Hs) & (-> & Hnd & Hnew & Hall)%IH). split_and!; try done.
      * set_solver.
      * intros (y & Ey & Hy)%list_elem_of_fmap. eapply Hnew; [done|]. set_solver.
      * intros y [->|Hy]%elem_of_cons; [done|]. specialize (Hnew y Hy). set_solver.
    + intros (-> & [Hni Hnd] & Hnew & Hs & Hall). eexists. split.
      { split; [done|]. split; [apply Hnew; left|done]. }
      apply IH. split_and!; try done; [set_solver|].
      intros y Hy. apply not_elem_of_union; split; [|apply Hnew; by right].
      rewrite elem_of_singleton. intros Ey. apply Hni. rewrite <- Ey. by apply list_elem_of_fmap_2.
Qed.

(** A list has no duplicates when its set is as large as it. *)
Lemma size_list_to_set_NoDup {K} `{Countable K} (l : list K) :
  size (list_to_set l : gset K) = length l ↔ NoDup l.
Proof.
  split; [|by intros; apply size_list_to_set].
  induction l as [|x l IH]; [constructor|]. cbn. intros Hl.
  assert (size (list_to_set l : gset K) <= length l)%nat as Hle.
  { clear. induction l as [|y l IH]; [done|]. cbn. rewrite size_union_alt, size_singleton.
    assert (size (list_to_set l ∖ {[y]} : gset K) <= size (list_to_set l : gset K))%nat
      by (apply subseteq_size; set_solver). lia. }
  destruct (decide (x ∈ l)) as [Hin|Hin].
  - exfalso. rewrite (subseteq_union_1_L {[x]}) in Hl by set_solver. lia.
  - constructor; [done|]. apply IH. rewrite size_union in Hl by set_solver.
    rewrite size_singleton in Hl. lia.
Qed.

Lemma existsb_false {A} (f : A → bool) l x : existsb f l = false → In x l → f x = false.
Proof.
  intros H Hx. apply not_true_is_false. intros Ht. apply not_true_iff_false in H. apply H, existsb_exists. eauto.
Qed.

Lemma filter_agree {A} (P Q : A → Prop) `{!∀ x, Decision (P x)} `{!∀ x, Decision (Q x)} (l : list A) :
  (∀ x, x ∈ l → P x ↔ Q x) → filter P l = filter Q l.
Proof.
  induction l as [|x l IH]; intros Hext; [done|]. rewrite !filter_cons, IH by (intros y Hy; apply Hext; by right).
  apply decide_ext, Hext. left.
Qed.

Lemma find_split {A} (f : A → bool) l x :
  List.find f l = Some x → ∃ pre post, l = pre ++ x :: post ∧ (∀ y, y ∈ pre → f y = false) ∧ f x = true.
Proof.
  induction l as [|y l IH]; cbn; [done|]. destruct (f y) eqn:E.
  - intros [= <-]. exists [], l. split_and!; [done|by intros ? ?%elem_of_nil|done].
  - intros (pre & post & -> & Hpre & Hx)%IH. exists (y :: pre), post. split_and!; [done| |done].
    by intros z [->|Hz]%elem_of_cons; [|apply Hpre].
Qed.
