(* ===== verification/Text.v ===== *)
(** * Text: byte strings, big-endian integers and length-prefixed frames, and the
    string operations of the Rust standard library that the validators and
    parsers use, over UTF-8 byte strings. *)

From stdpp Require Export sorting.
From S2P Require Export Prelude.

(** * Byte strings, big-endian integers, hexadecimal digits and the length-prefixed frames
    that every digest of the code is computed over ([hash_part] in crates/rostfrei-
    core/src/identity.rs). *)

#[global] Instance byte_eq_dec : EqDecision byte := Byte.byte_eq_dec.

#[global] Instance byte_countable : Countable byte.
Proof.
  refine (inj_countable Byte.to_N Byte.of_N _).
  intros b. apply Byte.of_to_N.
Defined.

Definition byte_of (n : N) : byte :=
  match Byte.of_N (n mod 256) with Some b => b | None => x00 end.

(** [n.to_be_bytes()] of a [k]-byte integer *)
Fixpoint be_bytes (k : nat) (n : N) : list byte :=
  match k with
  | O => []
  | S k' => be_bytes k' (n / 256) ++ [byte_of n]
  end.
(** [uN::from_be_bytes] *)
Definition be_value (bs : list byte) : N :=
  fold_left (fun acc b => acc * 256 + Byte.to_N b) bs 0.

#[global] Arguments be_value : simpl never.
#[global] Arguments byte_of : simpl never.
#[global] Arguments be_bytes : simpl nomatch.

(** [str::len] and [str::as_bytes] *)
Definition str_len (s : string) : N := N.of_nat (String.length s).
Definition as_bytes (s : string) : list byte := list_byte_of_string s.

(** [slice.split_at_checked(mid)] *)
Definition split_at_checked {A} (mid : N) (l : list A) : option (list A * list A) :=
  if mid <=? len l then Some (take (N.to_nat mid) l, drop (N.to_nat mid) l) else None.

(** Two lower-case hexadecimal digits per byte *)
Definition hex_digit (nibble : N) : ascii :=
  ascii_of_N (if nibble <? 10 then 48 + nibble else 97 + (nibble - 10)).
Fixpoint hex_of_bytes (bs : list byte) : string :=
  match bs with
  | [] => ""
  | b :: r =>
    String (hex_digit (N.shiftr (Byte.to_N b) 4))
      (String (hex_digit (N.land (Byte.to_N b) 15)) (hex_of_bytes r))
  end%string.


(** One length-prefixed part, as [hash_part] feeds it to the hasher: the
    length as eight big-endian bytes, then the bytes themselves. *)
Definition frame (part : list byte) : list byte := be_bytes 8 (len part) ++ part.
Definition frames (parts : list (list byte)) : list byte := concat (map frame parts).

(** ** Lemmas on big-endian integers *)

Lemma to_N_byte_of n : Byte.to_N (byte_of n) = n mod 256.
Proof.
  unfold byte_of. destruct (Byte.of_N (n mod 256)) as [b|] eqn:E.
  - by apply Byte.to_of_N.
  - exfalso. apply Byte.of_N_None_iff in E. pose proof (N.mod_lt n 256). lia.
Qed.

Lemma to_N_bound b : Byte.to_N b < 256.
Proof. pose proof (Byte.to_N_bounded b). lia. Qed.

Lemma byte_of_to_N b : byte_of (Byte.to_N b) = b.
Proof.
  unfold byte_of. rewrite N.mod_small by apply to_N_bound. by rewrite Byte.of_to_N.
Qed.

Lemma length_be_bytes k n : length (be_bytes k n) = k.
Proof. revert n; induction k as [|k IH]; intros n; cbn; [done|]. rewrite length_app, IH. cbn; lia. Qed.

Lemma be_value_app bs b : be_value (bs ++ [b]) = be_value bs * 256 + Byte.to_N b.
Proof. unfold be_value. by rewrite fold_left_app. Qed.

Lemma be_value_be_bytes k n : n < 256 ^ N.of_nat k → be_value (be_bytes k n) = n.
Proof.
  revert n; induction k as [|k IH]; intros n Hn; cbn.
  - cbn in Hn. unfold be_value; cbn. lia.
  - rewrite be_value_app, IH.
    + rewrite to_N_byte_of. pose proof (N.div_mod n 256). lia.
    + apply N.Div0.div_lt_upper_bound.
      replace (N.of_nat (S k)) with (N.succ (N.of_nat k)) in Hn by lia.
      by rewrite N.pow_succ_r' in Hn.
Qed.

Lemma be_bytes_be_value bs : be_bytes (length bs) (be_value bs) = bs.
Proof.
  induction bs as [|b bs IH] using rev_ind; [done|].
  rewrite length_app, Nat.add_comm. cbn [Nat.add length be_bytes]. rewrite be_value_app.
  pose proof (to_N_bound b).
  replace ((be_value bs * 256 + Byte.to_N b) / 256) with (be_value bs)
    by (rewrite N.div_add_l by lia; rewrite N.div_small by lia; lia).
  rewrite IH. f_equal. unfold byte_of.
  rewrite N.add_comm, N.Div0.mod_add, N.mod_small by lia. by rewrite Byte.of_to_N.
Qed.

Lemma be_bytes_inj k n m :
  n < 256 ^ N.of_nat k → m < 256 ^ N.of_nat k → be_bytes k n = be_bytes k m → n = m.
Proof. intros Hn Hm E. apply (f_equal be_value) in E. by rewrite !be_value_be_bytes in E. Qed.

(** ** Lemmas on frames *)

(** A part that a 64-bit length describes. Every Rust slice is one. *)
Definition framable (part : list byte) : Prop := len part <= u64_max.

Lemma framable_all ps : forallb (λ p, len p <=? u64_max) ps = true → Forall framable ps.
Proof.
  intros H. apply Forall_forall. intros p Hp%list_elem_of_In. rewrite forallb_forall in H.
  by apply N.leb_le, H.
Qed.

Lemma frame_app_inj p q x y :
  framable p → framable q → frame p ++ x = frame q ++ y → p = q ∧ x = y.
Proof.
  intros Hp Hq E. unfold frame in E. rewrite <- !app_assoc in E.
  apply app_inj_1 in E as [El E]; [|by rewrite !length_be_bytes].
  apply be_bytes_inj in El; [|unfold framable, u64_max in *; cbn; lia..].
  apply app_inj_1 in E; [done|]. unfold len in El. lia.
Qed.

Lemma frame_nonempty p : frame p ≠ [].
Proof.
  intros E. apply (f_equal length) in E. unfold frame in E.
  rewrite length_app, length_be_bytes in E. cbn in E. lia.
Qed.

Lemma frames_app p q : frames (p ++ q) = frames p ++ frames q.
Proof. unfold frames. by rewrite map_app, concat_app. Qed.

Lemma frames_cons p ps : frames (p :: ps) = frame p ++ frames ps.
Proof. done. Qed.

Lemma frames_nil_inv ps : frames ps = [] → ps = [].
Proof.
  destruct ps as [|p ps]; [done|]. rewrite frames_cons. intros E.
  apply app_eq_nil in E as [E _]. by apply frame_nonempty in E.
Qed.

(** The frames determine the parts: no two part lists hash the same bytes. *)
Lemma frames_inj ps qs :
  Forall framable ps → Forall framable qs → frames ps = frames qs → ps = qs.
Proof.
  intros Hp; revert qs; induction Hp as [|p ps Hp Hps IH]; intros qs Hq E.
  - symmetry in E. by apply frames_nil_inv in E.
  - destruct Hq as [|q qs Hq Hqs]; [by apply frames_nil_inv in E|].
    rewrite !frames_cons in E. apply frame_app_inj in E as [-> E]; [|done..].
    f_equal. by apply IH.
Qed.

(** ** Lemmas on strings as bytes *)

Lemma as_bytes_inj s t : as_bytes s = as_bytes t → s = t.
Proof.
  intros E. unfold as_bytes in E.
  rewrite <- (string_of_list_byte_of_string s), <- (string_of_list_byte_of_string t). by rewrite E.
Qed.

Lemma length_as_bytes s : length (as_bytes s) = String.length s.
Proof. induction s as [|c s IH]; cbn; [done|]. by rewrite <- IH. Qed.

Lemma len_as_bytes s : len (as_bytes s) = str_len s.
Proof. unfold len, str_len. by rewrite length_as_bytes. Qed.

Lemma split_at_checked_Some {A} mid (l a b : list A) :
  split_at_checked mid l = Some (a, b) ↔ l = a ++ b ∧ len a = mid.
Proof.
  unfold split_at_checked, len. split.
  - destruct (mid <=? _) eqn:E; [|done]. bool_step. intros [= <- <-].
    rewrite take_drop, length_take. split; [done|]. lia.
  - intros [-> <-]. rewrite length_app, Nat2N.inj_add.
    destruct (_ <=? _) eqn:E; bool_step; [|lia].
    rewrite Nat2N.id, take_app_length, drop_app_length. done.
Qed.

#[export] Hint Resolve length_be_bytes to_N_bound : bytes.
#[export] Hint Rewrite @len_as_bytes : len.

(** * The string operations of the Rust standard library that the validators and parsers use,
    over UTF-8 byte strings. *)

(** ** Strings: UTF-8 byte strings, with the [char] view the source uses *)

Definition utf8_cont (b : N) : N := N.land b 63.

(** [str::chars]: the code points of a UTF-8 string. Rust strings are valid
    UTF-8; on other byte sequences the function returns the bytes it cannot
    decode as they are. *)
Fixpoint decode_utf8 (bs : list N) : list N :=
  match bs with
  | [] => []
  | b0 :: r0 =>
    if b0 <? 128 then b0 :: decode_utf8 r0
    else match r0 with
    | [] => [b0]
    | b1 :: r1 =>
      if b0 <? 224
      then N.lor (N.shiftl (N.land b0 31) 6) (utf8_cont b1) :: decode_utf8 r1
      else match r1 with
      | [] => [b0; b1]
      | b2 :: r2 =>
        if b0 <? 240
        then N.lor (N.shiftl (N.land b0 15) 12)
               (N.lor (N.shiftl (utf8_cont b1) 6) (utf8_cont b2)) :: decode_utf8 r2
        else match r2 with
        | [] => [b0; b1; b2]
        | b3 :: r3 =>
          N.lor (N.shiftl (N.land b0 7) 18)
            (N.lor (N.shiftl (utf8_cont b1) 12)
               (N.lor (N.shiftl (utf8_cont b2) 6) (utf8_cont b3))) :: decode_utf8 r3
        end
      end
    end
  end.

Definition encode_char (c : N) : list N :=
  if c <? 128 then [c]
  else if c <? 2048 then [N.lor 192 (N.shiftr c 6); N.lor 128 (N.land c 63)]
  else if c <? 65536
  then [N.lor 224 (N.shiftr c 12); N.lor 128 (N.land (N.shiftr c 6) 63);
        N.lor 128 (N.land c 63)]
  else [N.lor 240 (N.shiftr c 18); N.lor 128 (N.land (N.shiftr c 12) 63);
        N.lor 128 (N.land (N.shiftr c 6) 63); N.lor 128 (N.land c 63)].

Definition str_codes (s : string) : list N := map N_of_ascii (list_ascii_of_string s).
Definition of_codes (l : list N) : string := string_of_list_ascii (map ascii_of_N l).
Definition chars (s : string) : list N := decode_utf8 (str_codes s).
Definition of_chars (l : list N) : string := of_codes (flat_map encode_char l).

(** [char::is_control]: general category Cc *)
Definition is_control (c : N) : bool := (c <? 32) || ((127 <=? c) && (c <=? 159)).
(** [char::is_whitespace]: the White_Space property *)
Definition is_whitespace (c : N) : bool :=
  ((9 <=? c) && (c <=? 13)) || (c =? 32) || (c =? 133) || (c =? 160) || (c =? 5760)
  || ((8192 <=? c) && (c <=? 8202)) || (c =? 8232) || (c =? 8233) || (c =? 8239)
  || (c =? 8287) || (c =? 12288).

Fixpoint drop_while {A} (p : A → bool) (l : list A) : list A :=
  match l with [] => [] | x :: r => if p x then drop_while p r else l end.
Definition trim_chars (l : list N) : list N :=
  reverse (drop_while is_whitespace (reverse (drop_while is_whitespace l))).
(** [str::trim] *)
Definition trim (s : string) : string := of_chars (trim_chars (chars s)).
(** [value.chars().any(char::is_control)] *)
Definition any_control (s : string) : bool := existsb is_control (chars s).

(** ASCII classes of bytes *)
Definition is_lower (c : N) : bool := (97 <=? c) && (c <=? 122).
Definition is_upper (c : N) : bool := (65 <=? c) && (c <=? 90).
Definition is_digit (c : N) : bool := (48 <=? c) && (c <=? 57).
Definition is_alphanumeric (c : N) : bool := is_lower c || is_upper c || is_digit c.
Definition is_graphic (c : N) : bool := (33 <=? c) && (c <=? 126).
Definition is_ascii_byte (c : N) : bool := c <? 128.
(** [value.bytes().all(p)] *)
Definition bytes_all (p : N → bool) (s : string) : bool := forallb p (str_codes s).
(** [value.is_ascii()] *)
Definition is_ascii (s : string) : bool := bytes_all is_ascii_byte s.
Definition to_lower_byte (c : N) : N := if is_upper c then c + 32 else c.
(** [to_ascii_lowercase] and [make_ascii_lowercase] *)
Definition to_ascii_lowercase (s : string) : string := of_codes (map to_lower_byte (str_codes s)).

Definition starts_with (p s : string) : bool := String.prefix p s.
Fixpoint last_char (s : string) : option ascii :=
  match s with
  | EmptyString => None
  | String c EmptyString => Some c
  | String _ r => last_char r
  end.
(** [value.ends_with(c)] for an ASCII character *)
Definition ends_with_char (c : ascii) (s : string) : bool :=
  match last_char s with Some d => Ascii.eqb c d | None => false end.
(** [value.contains(pattern)] *)
Fixpoint contains (p s : string) : bool :=
  String.prefix p s || match s with EmptyString => false | String _ r => contains p r end.
(** [value.strip_prefix(c)] *)
Definition strip_prefix_char (c : ascii) (s : string) : option string :=
  match s with
  | String d r => if Ascii.eqb c d then Some r else None
  | EmptyString => None
  end.

Definition cons_head (c : ascii) (l : list string) : list string :=
  match l with [] => [String c EmptyString] | s :: r => String c s :: r end.
(** [value.split(pattern)] for a non-empty pattern: matches are taken from the
    left and do not overlap. [skip] counts the bytes of a match still to pass. *)
Fixpoint split_from (p : string) (skip : nat) (s : string) : list string :=
  match s with
  | EmptyString => [EmptyString]
  | String c r =>
    match skip with
    | S k => split_from p k r
    | O =>
      if String.prefix p s then EmptyString :: split_from p (String.length p - 1) r
      else cons_head c (split_from p 0 r)
    end
  end.
Definition split (p s : string) : list string := split_from p 0 s.
(** [value.split_once(c)] *)
Fixpoint split_once (c : ascii) (s : string) : option (string * string) :=
  match s with
  | EmptyString => None
  | String d r =>
    if Ascii.eqb c d then Some (EmptyString, r)
    else match split_once c r with
         | Some (a, b) => Some (String d a, b)
         | None => None
         end
  end.
(** [iter.nth(i)] and [unwrap_or_default()] on string slices *)
Definition nth_or_empty (l : list string) (i : N) : string :=
  default EmptyString (l !! N.to_nat i).

(** Decimal printing and parsing of integers *)
Definition n_to_string (n : N) : string := NilZero.string_of_uint (N.to_uint n).
(** [str::parse::<uN>()]: an optional plus sign, then one or more digits, with
    the value in range. *)
Definition parse_n (max : N) (s : string) : option N :=
  let digits := match s with String "+"%char r => r | _ => s end in
  match NilZero.uint_of_string digits with
  | Some d => if N.of_uint d <=? max then Some (N.of_uint d) else None
  | None => None
  end.


(** The entries of a [BTreeMap<String, _>] in iteration order: ascending keys,
    compared byte by byte. *)
Definition key_le {A} (p q : string * A) : Prop := String.leb p.1 q.1 = true.
#[global] Instance key_le_dec {A} (p q : string * A) : Decision (key_le p q).
Proof. unfold key_le. apply _. Defined.
Definition btree_iter {A} (m : gmap string A) : list (string * A) :=
  merge_sort key_le (map_to_list m).

(** No match of [p] begins inside [a] when [p] follows it: [a] ends at the
    first match of [a ++ p ++ rest]. *)
Fixpoint no_match (p a : string) : bool :=
  match a with
  | EmptyString => true
  | String _ r => negb (String.prefix p (a +:+ p)) && no_match p r
  end.

#[global] Arguments split : simpl never.
#[global] Arguments String.append !_ _ : simpl nomatch.

(** ** Lemmas on prefixes and splitting *)

Lemma str_app_assoc (a b c : string) : (a +:+ b) +:+ c = a +:+ (b +:+ c).
Proof. induction a as [|x a IH]; cbn; [done|]. by rewrite IH. Qed.

Lemma str_app_nil_r (a : string) : a +:+ "" = a.
Proof. induction a as [|x a IH]; cbn; [done|]. by rewrite IH. Qed.

Lemma str_app_inv_head (a b c : string) : a +:+ b = a +:+ c → b = c.
Proof. induction a as [|x a IH]; cbn; [done|]. intros [= E]. auto. Qed.

Lemma length_str_app (a b : string) :
  String.length (a +:+ b) = (String.length a + String.length b)%nat.
Proof. induction a as [|x a IH]; cbn; [done|]. by rewrite IH. Qed.

Lemma str_len_app (a b : string) : str_len (a +:+ b) = str_len a + str_len b.
Proof. unfold str_len. rewrite length_str_app. lia. Qed.

Lemma str_len_0 (a : string) : str_len a = 0 ↔ a = "".
Proof. unfold str_len. destruct a; cbn; split; intros; try done; lia. Qed.

Lemma prefix_app (p r : string) : String.prefix p (p +:+ r) = true.
Proof. induction p as [|c p IH]; cbn; [by destruct r|]. destruct (ascii_dec c c); done. Qed.

Lemma prefix_char c d s : String.prefix (String c "") (String d s) = Ascii.eqb c d.
Proof.
  cbn [String.prefix]. destruct (ascii_dec c d) as [->|Hne]; [by destruct s; rewrite Ascii.eqb_refl|].
  symmetry. by apply Ascii.eqb_neq.
Qed.

Lemma prefix_extend (p s r : string) :
  (String.length p ≤ String.length s)%nat → String.prefix p (s +:+ r) = String.prefix p s.
Proof.
  revert s; induction p as [|c p IH]; intros s Hl; [by destruct s, r|].
  destruct s as [|d s]; cbn in *; [lia|]. destruct (ascii_dec c d); [|done]. apply IH; lia.
Qed.

Lemma prefix_true (p s : string) : String.prefix p s = true ↔ ∃ r, s = p +:+ r.
Proof.
  revert s; induction p as [|c p IH]; intros s; cbn.
  - split; [eauto|]. by destruct s.
  - destruct s as [|d s]; cbn; [split; [done|by intros (r & [=])]|].
    destruct (ascii_dec c d) as [->|Hne].
    + rewrite IH. split; intros (r & E); exists r; congruence.
    + split; [done|]. intros (r & [= ? ?]). by subst.
Qed.

Lemma split_from_skip (p x s : string) :
  split_from p (String.length x) (x +:+ s) = split_from p 0 s.
Proof. induction x as [|c x IH]; cbn; [done|]. exact IH. Qed.

(** A segment without a match is cut exactly at the separator after it. *)
Lemma split_segment (p a rest : string) :
  p ≠ "" → no_match p a = true → split p (a +:+ p +:+ rest) = a :: split p rest.
Proof.
  intros Hp. unfold split. induction a as [|c a IH]; intros Hn.
  - destruct p as [|q p]; [done|]. cbn [String.append split_from].
    change (String q (p +:+ rest)) with (String q p +:+ rest). rewrite prefix_app.
    cbn [String.length Nat.sub]. rewrite Nat.sub_0_r. by rewrite split_from_skip.
  - cbn [no_match] in Hn. guards. cbn [String.append split_from].
    replace (String c (a +:+ p +:+ rest)) with ((String c a +:+ p) +:+ rest)
      by (cbn; by rewrite str_app_assoc).
    rewrite prefix_extend by (cbn; rewrite length_str_app; lia).
    rewrite H. rewrite IH by done. done.
Qed.

Lemma split_last (p a : string) : contains p a = false → split p a = [a].
Proof.
  unfold split. induction a as [|c a IH]; cbn [contains split_from]; intros Hc; [done|].
  guards. rewrite H. by rewrite IH.
Qed.

Lemma contains_no_match (p a : string) :
  p ≠ "" → no_match p a = true → contains p a = false.
Proof.
  intros Hp. induction a as [|c a IH]; cbn [contains no_match]; intros Hn.
  - destruct p; [done|]. done.
  - guards. rewrite IH by done. rewrite orb_false_r.
    destruct (String.prefix p (String c a)) eqn:E; [|done].
    apply prefix_true in E as (r & E).
    rewrite E, str_app_assoc, prefix_app in H. done.
Qed.

Lemma split_from_nonempty p k s : split_from p k s ≠ [].
Proof.
  revert k; induction s as [|c s IH]; intros k; [done|]. cbn [split_from].
  destruct k as [|k]; [|apply IH]. destruct (String.prefix p (String c s)); [done|].
  by destruct (split_from p 0 s).
Qed.

Lemma concat_cons_head p c l :
  l ≠ [] → String.concat p (cons_head c l) = String c (String.concat p l).
Proof. destruct l as [|s [|t l]]; done. Qed.

Lemma concat_empty_head p l : l ≠ [] → String.concat p ("" :: l) = p +:+ String.concat p l.
Proof. by destruct l. Qed.

(** Splitting loses nothing: joining the segments gives the text back. *)
Lemma concat_split (p s : string) : p ≠ "" → String.concat p (split p s) = s.
Proof.
  intros Hp. unfold split. induction s as [s IH] using (induction_ltof1 _ String.length).
  unfold ltof in IH. destruct s as [|c s]; [done|]. cbn [split_from].
  destruct (String.prefix p (String c s)) eqn:E.
  - apply prefix_true in E as (r & E). destruct p as [|q p]; [done|].
    injection E as -> ->. cbn [String.length]. rewrite Nat.sub_succ, Nat.sub_0_r.
    rewrite concat_empty_head by apply split_from_nonempty.
    rewrite split_from_skip, IH by (cbn; rewrite length_str_app; lia). done.
  - rewrite concat_cons_head by apply split_from_nonempty.
    rewrite IH by (cbn; lia). done.
Qed.

(** ** Lemmas on bytes and characters *)

Lemma str_codes_cons c s : str_codes (String c s) = N_of_ascii c :: str_codes s.
Proof. done. Qed.

Lemma str_codes_app a b : str_codes (a +:+ b) = str_codes a ++ str_codes b.
Proof. induction a as [|c a IH]; [done|]. cbn. unfold str_codes in *. cbn. by rewrite IH. Qed.

Lemma bytes_all_app p a b : bytes_all p (a +:+ b) = bytes_all p a && bytes_all p b.
Proof. unfold bytes_all. by rewrite str_codes_app, forallb_app. Qed.

Lemma bytes_all_cons p c a : bytes_all p (String c a) = p (N_of_ascii c) && bytes_all p a.
Proof. done. Qed.

Lemma bytes_all_impl (p q : N → bool) s :
  (∀ c, p c = true → q c = true) → bytes_all p s = true → bytes_all q s = true.
Proof.
  intros Hpq. induction s as [|c s IH]; [done|]. rewrite !bytes_all_cons.
  intros H. guards. apply andb_true_iff. auto.
Qed.

Lemma decode_ascii l : forallb is_ascii_byte l = true → decode_utf8 l = l.
Proof.
  induction l as [|c l IH]; cbn [forallb]; [done|]. intros H. guards.
  cbn [decode_utf8]. unfold is_ascii_byte in H. rewrite H. by rewrite IH.
Qed.

Lemma chars_ascii s : is_ascii s = true → chars s = str_codes s.
Proof. intros H. apply decode_ascii, H. Qed.

Lemma encode_ascii l : forallb is_ascii_byte l = true → flat_map encode_char l = l.
Proof.
  induction l as [|c l IH]; cbn [forallb]; [done|]. intros H. guards.
  cbn [flat_map]. rewrite IH by done. unfold encode_char, is_ascii_byte in *. by rewrite H.
Qed.

Lemma of_codes_str_codes s : of_codes (str_codes s) = s.
Proof.
  unfold of_codes, str_codes. rewrite map_map.
  rewrite map_ext with (g := λ x, x) by apply ascii_N_embedding.
  rewrite map_id. apply string_of_list_ascii_of_string.
Qed.

Lemma length_str_codes s : length (str_codes s) = String.length s.
Proof. unfold str_codes. rewrite length_map. induction s; cbn; auto. Qed.

Lemma any_control_ascii s :
  is_ascii s = true → any_control s = existsb is_control (str_codes s).
Proof. intros H. unfold any_control. by rewrite chars_ascii. Qed.

(** A byte class that excludes control characters excludes them as [char]s. *)
Lemma bytes_all_no_control (p : N → bool) s :
  (∀ c, p c = true → is_ascii_byte c = true ∧ is_control c = false) →
  bytes_all p s = true → any_control s = false.
Proof.
  intros Hp Hs.
  rewrite any_control_ascii by (eapply bytes_all_impl; [|exact Hs]; intros; by apply Hp).
  induction s as [|c s IH]; [done|]. rewrite bytes_all_cons in Hs. guards.
  change (is_control (N_of_ascii c) || existsb is_control (str_codes s) = false).
  rewrite IH by done. by rewrite (proj2 (Hp _ H)).
Qed.

Lemma graphic_no_control s : bytes_all is_graphic s = true → any_control s = false.
Proof.
  apply bytes_all_no_control. unfold is_graphic, is_ascii_byte, is_control. intros c Hc. guards.
  rewrite orb_false_iff, andb_false_iff, N.ltb_lt, N.ltb_ge, !N.leb_gt. lia.
Qed.

Lemma trim_chars_id l :
  (∀ c, head l = Some c → is_whitespace c = false) →
  (∀ c, last l = Some c → is_whitespace c = false) → trim_chars l = l.
Proof.
  intros Hh Hl. unfold trim_chars.
  assert (drop_while is_whitespace l = l) as ->.
  { destruct l as [|c l]; cbn in *; [done|]. by rewrite Hh. }
  assert (drop_while is_whitespace (reverse l) = reverse l) as ->.
  { destruct l as [|c l _] using rev_ind; [done|].
    rewrite reverse_app. cbn. rewrite last_snoc in Hl. by rewrite Hl. }
  apply reverse_involutive.
Qed.

(** A string of visible ASCII characters has nothing to trim. *)
Lemma trim_graphic s : bytes_all is_graphic s = true → trim s = s.
Proof.
  intros H. assert (is_ascii s = true) as Ha.
  { eapply bytes_all_impl; [|exact H]. unfold is_graphic, is_ascii_byte. intros. guards. apply N.ltb_lt. lia. }
  unfold trim. rewrite chars_ascii by done.
  assert (∀ c, c ∈ str_codes s → is_whitespace c = false) as Hw.
  { intros c Hc. unfold bytes_all in H. rewrite forallb_forall in H.
    apply list_elem_of_In in Hc. specialize (H c Hc). unfold is_graphic in H. guards.
    unfold is_whitespace.
    rewrite !orb_false_iff, !andb_false_iff, !N.leb_gt, !N.eqb_neq. lia. }
  rewrite trim_chars_id.
  - unfold of_chars. rewrite encode_ascii by exact Ha. apply of_codes_str_codes.
  - intros c Hc. apply Hw. destruct (str_codes s); [done|]. cbn in Hc. injection Hc as ->. left.
  - intros c Hc. apply Hw. apply last_Some in Hc as (l & ->). set_solver.
Qed.

(** ** Lemmas on ASCII case *)

Lemma to_lower_byte_idemp c : to_lower_byte (to_lower_byte c) = to_lower_byte c.
Proof.
  unfold to_lower_byte. destruct (is_upper c) eqn:E; [|by rewrite E].
  unfold is_upper in *. guards.
  assert ((65 <=? c + 32) && (c + 32 <=? 90) = false) as ->; [|done].
  rewrite andb_false_iff, !N.leb_gt. lia.
Qed.

Lemma str_codes_bound s : Forall (λ c, c < 256) (str_codes s).
Proof.
  unfold str_codes. induction s as [|c s IH]; cbn; constructor; [apply N_ascii_bounded|done].
Qed.

Lemma str_codes_of_codes l : Forall (λ c, c < 256) l → str_codes (of_codes l) = l.
Proof.
  intros H. unfold str_codes, of_codes. rewrite list_ascii_of_string_of_list_ascii, map_map.
  induction H as [|c l Hc Hl IH]; cbn; [done|]. by rewrite N_ascii_embedding, IH.
Qed.

Lemma str_codes_lowercase s : str_codes (to_ascii_lowercase s) = map to_lower_byte (str_codes s).
Proof.
  apply str_codes_of_codes. apply Forall_map. eapply Forall_impl; [apply str_codes_bound|].
  cbn. intros c Hc. unfold to_lower_byte, is_upper. destruct (_ && _) eqn:E; guards; lia.
Qed.

Lemma to_ascii_lowercase_idemp s : to_ascii_lowercase (to_ascii_lowercase s) = to_ascii_lowercase s.
Proof.
  unfold to_ascii_lowercase at 1. rewrite str_codes_lowercase, map_map.
  unfold to_ascii_lowercase. f_equal. apply map_ext. apply to_lower_byte_idemp.
Qed.

Lemma str_len_lowercase s : str_len (to_ascii_lowercase s) = str_len s.
Proof. unfold str_len. by rewrite <- !length_str_codes, str_codes_lowercase, length_map. Qed.

Lemma bytes_all_lowercase p s :
  (∀ c, p c = true → p (to_lower_byte c) = true) →
  bytes_all p s = true → bytes_all p (to_ascii_lowercase s) = true.
Proof.
  intros Hp. unfold bytes_all. rewrite str_codes_lowercase, !forallb_forall.
  intros H c (d & <- & Hd)%in_map_iff. auto.
Qed.

Lemma btree_iter_Permutation {A} (m : gmap string A) : btree_iter m ≡ₚ map_to_list m.
Proof. apply merge_sort_Permutation. Qed.

Lemma elem_of_btree_iter {A} (m : gmap string A) k x : (k, x) ∈ btree_iter m ↔ m !! k = Some x.
Proof. rewrite btree_iter_Permutation. apply elem_of_map_to_list. Qed.

(** ** Lemmas on decimal numbers *)

Lemma to_uint_nonnil n : N.to_uint n ≠ Decimal.Nil.
Proof. destruct n; [done|]. apply DecimalPos.Unsigned.to_uint_nonnil. Qed.

Lemma string_of_uint_digits d : bytes_all is_digit (NilEmpty.string_of_uint d) = true.
Proof. induction d; cbn; rewrite ?bytes_all_cons; try done; cbn; apply IHd. Qed.

Lemma n_to_string_digits n : bytes_all is_digit (n_to_string n) = true.
Proof.
  unfold n_to_string. pose proof (to_uint_nonnil n).
  destruct (N.to_uint n) eqn:E; [done|..]; cbn -[NilEmpty.string_of_uint];
    apply string_of_uint_digits.
Qed.

Lemma parse_n_to_string max n : n <= max → parse_n max (n_to_string n) = Some n.
Proof.
  intros Hn. unfold parse_n.
  assert ((match n_to_string n with String "+" r => r | _ => n_to_string n end)
          = n_to_string n) as ->.
  { pose proof (n_to_string_digits n) as Hd. destruct (n_to_string n) as [|c r]; [done|].
    rewrite bytes_all_cons in Hd. guards.
    destruct c as [[] [] [] [] [] [] [] []]; try done. }
  unfold n_to_string. rewrite NilZero.usu by apply to_uint_nonnil.
  rewrite DecimalN.Unsigned.of_to. destruct (n <=? max) eqn:E; [done|]. bool_step. lia.
Qed.

Lemma n_to_string_inj n m : n_to_string n = n_to_string m → n = m.
Proof.
  intros E. apply (f_equal (parse_n (N.max n m))) in E.
  rewrite !parse_n_to_string in E by lia. congruence.
Qed.

#[export] Hint Resolve split_from_nonempty n_to_string_digits : text.
#[export] Hint Rewrite str_app_assoc str_app_nil_r : text.
