(* ===== verification/Serde.v ===== *)
(** * Serde: the interface of the [serde_json] crate the code relies on, and a
    concrete instance of it to evaluate witnesses with; and JSON values with their
    canonical text.

    [JsonCodec] is what the crate does with a type, and promises nothing. [Json]
    adds, for a plain data type, that the encoding of a value decodes to that value;
    documents that hold an arbitrary JSON value have no such law, because the crate
    refuses deep documents and rounds floats. The formats themselves are the crate's. *)

From S2P Require Export Text.

Class JsonCodec (A : Type) := {
  to_vec : A → result (list byte) string;
  from_slice : list byte → result A string;
}.
Class Json (A : Type) := {
  json_codec :: JsonCodec A;
  json_roundtrip : ∀ x bytes, to_vec x = Ok bytes → from_slice bytes = Ok x;
}.

Lemma to_vec_inj `{Json A} (x y : A) bytes : to_vec x = Ok bytes → to_vec y = Ok bytes → x = y.
Proof. intros Hx%json_roundtrip Hy%json_roundtrip. congruence. Qed.

(** ** A concrete instance: any countable type, encoded through its index *)

Fixpoint positive_bytes (p : positive) : list byte :=
  match p with
  | xH => []
  | xO q => x00 :: positive_bytes q
  | xI q => x01 :: positive_bytes q
  end.
Fixpoint bytes_positive (bs : list byte) : positive :=
  match bs with
  | [] => xH
  | x00 :: r => xO (bytes_positive r)
  | _ :: r => xI (bytes_positive r)
  end.

Lemma bytes_positive_bytes p : bytes_positive (positive_bytes p) = p.
Proof. induction p as [p IH|p IH|]; cbn; by rewrite ?IH. Qed.

Definition index_json (A : Type) `{Countable A} : Json A.
Proof.
  refine {| json_codec := {| to_vec := λ x, Ok (positive_bytes (encode x));
                             from_slice := λ bs, ok_or (decode (bytes_positive bs)) "malformed" |} |}.
  intros x bytes [= <-]. cbn. by rewrite bytes_positive_bytes, decode_encode.
Defined.

(** ** Records, field by field

    Each byte of a field is marked, each field is ended: the encoding of a
    field list is decoded without lengths. *)

Fixpoint join_fields (fields : list (list byte)) : list byte :=
  match fields with
  | [] => []
  | f :: r => concat (map (λ b, [x01; b]) f) ++ x00 :: join_fields r
  end.
Fixpoint split_fields (field : list byte) (bs : list byte) : option (list (list byte)) :=
  match bs with
  | [] => match field with [] => Some [] | _ => None end
  | x00 :: r => cons (reverse field) <$> split_fields [] r
  | x01 :: r => match r with b :: r' => split_fields (b :: field) r' | [] => None end
  | _ => None
  end.

Lemma split_join_field f acc rest :
  split_fields acc (concat (map (λ b, [x01; b]) f) ++ rest) = split_fields (reverse f ++ acc) rest.
Proof.
  revert acc; induction f as [|b f IH]; intros acc; [done|].
  cbn [map concat app split_fields]. rewrite IH.
  by rewrite reverse_cons, <- app_assoc.
Qed.

Lemma split_join fields : split_fields [] (join_fields fields) = Some fields.
Proof.
  induction fields as [|f fields IH]; [done|]. cbn [join_fields]. rewrite split_join_field.
  cbn [split_fields]. rewrite IH. cbn. by rewrite app_nil_r, reverse_involutive.
Qed.

Definition field `{Countable A} (x : A) : list byte := positive_bytes (encode x).
Definition unfield `{Countable A} (bs : list byte) : option A := decode (bytes_positive bs).
Lemma unfield_field `{Countable A} (x : A) : unfield (field x) = Some x.
Proof. unfold unfield, field. by rewrite bytes_positive_bytes, decode_encode. Qed.

Definition fields_json {A} (to : A → list (list byte)) (from : list (list byte) → option A)
    (law : ∀ x, from (to x) = Some x) : Json A.
Proof.
  refine {| json_codec := {| to_vec := λ x, Ok (join_fields (to x));
                             from_slice := λ bs, ok_or (split_fields [] bs ≫= from) "malformed" |} |}.
  intros x bytes [= <-]. cbn. by rewrite split_join; cbn; rewrite law.
Defined.

(** * JSON values and their canonical text (crates/rostfrei-runtime/src/command_bus.rs,
    [canonical_json_bytes] and [canonical_serialize]). The text of scalars and of
    strings is serde_json's. The canonical text sorts the members of every object, so it
    does not depend on their order. *)

Inductive Value (Number : Type) :=
| VNull
| VBool (b : bool)
| VNumber (n : Number)
| VString (s : string)
| VArray (values : list (Value Number))
| VObject (values : list (string * Value Number)).
Arguments VNull {Number}.
Arguments VBool {Number} b.
Arguments VNumber {Number} n.
Arguments VString {Number} s.
Arguments VArray {Number} values.
Arguments VObject {Number} values.

(** [serde_json::Number] with its [is_f64], and [serde_json::to_writer]; an
    object's entries are those of a [serde_json::Map] in its iteration order. *)
Class JsonText := {
  Number : Type;
  is_f64 : Number → bool;
  to_writer : Value Number → result (list byte) string;
}.

Notation JValue := (Value Number).

Definition comma : byte := x2c.
Definition colon : byte := x3a.

Fixpoint separated (parts : list (list byte)) : list byte :=
  match parts with
  | [] => []
  | [part] => part
  | part :: rest => part ++ comma :: separated rest
  end.

(** ** The order of keys *)

Lemma ascii_compare_lt a b : Ascii.compare a b = Lt ↔ N_of_ascii a < N_of_ascii b.
Proof. apply N.compare_lt_iff. Qed.

Lemma string_le_trans (a b c : string) :
  String.leb a b = true → String.leb b c = true → String.leb a c = true.
Proof.
  unfold String.leb. revert b c; induction a as [|x a IH]; intros [|y b] [|z c]; cbn; try done.
  destruct (Ascii.compare x y) eqn:Exy; [|intros _|done].
  - apply Ascii.compare_eq_iff in Exy as ->. destruct (Ascii.compare y z); [apply IH|done|done].
  - apply ascii_compare_lt in Exy. destruct (Ascii.compare y z) eqn:Eyz; [intros _|intros _|done].
    + apply Ascii.compare_eq_iff in Eyz as <-. by rewrite (proj2 (ascii_compare_lt x y)).
    + apply ascii_compare_lt in Eyz. by rewrite (proj2 (ascii_compare_lt x z) (N.lt_trans _ _ _ Exy Eyz)).
Qed.

#[global] Instance key_le_trans {A} : Transitive (@key_le A).
Proof. intros x y z. apply string_le_trans. Qed.
#[global] Instance key_le_total {A} : Total (@key_le A).
Proof. intros x y. apply String.leb_total. Qed.

Lemma sorted_entries_unique {A} (l k : list (string * A)) :
  NoDup l.*1 → l ≡ₚ k → merge_sort key_le l = merge_sort key_le k.
Proof.
  intros Hn Hp. apply (StronglySorted_unique_strong key_le).
  - intros x y Hx Hy Hxy Hyx. rewrite merge_sort_Permutation in Hx.
    rewrite merge_sort_Permutation, <- Hp in Hy.
    assert (x.1 = y.1) as E by (by apply String.leb_antisym).
    destruct x as [a x], y as [b y]; cbn in E; subst b.
    apply list_elem_of_lookup in Hx as (i & Hi). apply list_elem_of_lookup in Hy as (j & Hj).
    assert (i = j) as ->; [|congruence].
    apply (NoDup_lookup l.*1 i j a Hn); by rewrite list_lookup_fmap, ?Hi, ?Hj.
  - apply StronglySorted_merge_sort; apply _.
  - apply StronglySorted_merge_sort; apply _.
  - by rewrite !merge_sort_Permutation.
Qed.

Section Canonical.
Context `{JT : JsonText}.

Definition write_entry (entry : string * result (list byte) string)
  : result (list byte) string :=
  let? key := to_writer (VString entry.1) in
  let? value := entry.2 in
  Ok (key ++ colon :: value).

(** [write_value]: the members of an object are written in the order of their keys *)
Fixpoint write_value (value : JValue) : result (list byte) string :=
  match value with
  | VArray values =>
    let? parts := try_map id (map write_value values) in
    Ok (x5b :: separated parts ++ [x5d])
  | VObject values =>
    let entries := map (λ '(key, value), (key, write_value value)) values in
    let? parts := try_map write_entry (merge_sort key_le entries) in
    Ok (x7b :: separated parts ++ [x7d])
  | value => to_writer value
  end.

(** ** Values that differ in the order of their members *)

Inductive same_value : JValue → JValue → Prop :=
| same_scalar v : same_value v v
| same_array l l' : Forall2 same_value l l' → same_value (VArray l) (VArray l')
| same_object m p m' :
    NoDup m.*1 → m ≡ₚ p → Forall2 (λ x y, x.1 = y.1 ∧ same_value x.2 y.2) p m' →
    same_value (VObject m) (VObject m').

Lemma write_values_same l l' :
  Forall2 (λ v w, write_value v = write_value w) l l' → map write_value l = map write_value l'.
Proof. induction 1 as [|v w l l' E _ IH]; cbn; [done|]. by rewrite E, IH. Qed.

Lemma write_entries_same (m m' : list (string * JValue)) :
  Forall2 (λ x y, x.1 = y.1 ∧ write_value x.2 = write_value y.2) m m' →
  map (λ '(key, value), (key, write_value value)) m = map (λ '(key, value), (key, write_value value)) m'.
Proof.
  induction 1 as [|[k v] [k' w] m m' [E1 E2] _ IH]; cbn; [done|]. cbn in E1, E2. by rewrite E1, E2, IH.
Qed.

Lemma written_keys (m : list (string * JValue)) :
  (map (λ '(key, value), (key, write_value value)) m).*1 = m.*1.
Proof. induction m as [|[k v] m IH]; cbn; [done|]. by rewrite <- IH. Qed.

(** The canonical text of a command payload is a function of
    its meaning: two values that differ only in the order of the members of
    their objects, at any depth, are written as the same bytes, so a retry that
    was built with another member order keeps its fingerprint. *)
Theorem canonical_text_ignores_member_order v w : same_value v w → write_value v = write_value w.
Proof.
  revert v w. fix IH 3. intros v w H. destruct H as [v|l l' H|m p m' Hn Hp H]; [done| |].
  - cbn. rewrite (write_values_same l l'); [done|].
    induction H as [|a b l l' Hab H IHl]; constructor; [by apply IH|done].
  - cbn. rewrite <- (write_entries_same p m').
    + rewrite (sorted_entries_unique _ (map (λ '(key, value), (key, write_value value)) p)); [done| |].
      * by rewrite written_keys.
      * by apply Permutation_map.
    + clear Hp Hn. induction H as [|a b p m' [Ha Hab] H IHl]; constructor; [split; [done|by apply IH]|done].
Qed.

End Canonical.

(** ** Serialization through a value *)

(** [serde_json::to_value] of a type *)
Class ToValue (A : Type) `{JT : JsonText} := { to_value : A → result JValue string }.

(** ** Values that survive their text

    What the documentation of serde_json says is read back exactly: integers (a
    float is read back exactly only with the [float_roundtrip] feature, which the
    workspace does not enable), at most 127 nested arrays and objects (the recursion
    limit), and a [Map], which iterates in the order of its keys. [depth] is what is
    left of the limit where the value stands. *)

Fixpoint keys_increase (keys : list string) : bool :=
  match keys with
  | a :: (b :: _) as rest => String.ltb a b && keys_increase rest
  | _ => true
  end.

Fixpoint readable `{JT : JsonText} (depth : nat) (value : JValue) : bool :=
  match value, depth with
  | VNumber n, _ => negb (is_f64 n)
  | VArray values, S depth => forallb (readable depth) values
  | VObject values, S depth =>
    keys_increase (map fst values) && forallb (λ member, readable depth (snd member)) values
  | (VArray _ | VObject _), O => false
  | _, _ => true
  end.
