(* ===== verification/Contract.v ===== *)
(** * Contract: contract errors, wire identifiers, schema versions, timestamps,
    actor references and technical execution failures
    (crates/rostfrei-messaging-core/src/error.rs, value.rs, actor.rs and
    execution_failure.rs). *)

From S2P Require Export Text.

(** ** error.rs *)

Inductive ContractErrorKind :=
| Empty
| TooLong
| InvalidFormat
| WrongAddressKind
| Wildcard
| ControlCharacter
| Reserved
| TooManyEntries
| OutOfRange
| ContractIdentityConflict.

Definition ContractErrorKind_display (k : ContractErrorKind) : string :=
  match k with
  | Empty => "must not be empty"
  | TooLong => "is too long"
  | InvalidFormat => "has an invalid format"
  | WrongAddressKind => "has the wrong address kind"
  | Wildcard => "contains a wildcard"
  | ControlCharacter => "contains a control character"
  | Reserved => "is reserved for the transport adapter"
  | TooManyEntries => "contains too many entries"
  | OutOfRange => "is outside the supported range"
  | ContractIdentityConflict => "conflicts with an existing identity"
  end.

Record ContractError := mkContractError {
  ce_kind : ContractErrorKind;
  ce_field : string;
  ce_actual : option N;
  ce_maximum : option N;
}.

(** [ContractError::new] *)
Definition contract_error (kind : ContractErrorKind) (field : string) : ContractError :=
  {| ce_kind := kind; ce_field := field; ce_actual := None; ce_maximum := None |}.

(** [ContractError::bounded] *)
Definition contract_bounded (kind : ContractErrorKind) (field : string) (actual maximum : N)
  : ContractError :=
  {| ce_kind := kind; ce_field := field;
     ce_actual := Some actual; ce_maximum := Some maximum |}.

(** [#[error("{field} {kind}")]] *)
Definition ContractError_display (e : ContractError) : string :=
  ce_field e +:+ " " +:+ ContractErrorKind_display (ce_kind e).

Inductive MessageBuildErrorKind := Serialization | PayloadTooLarge | InvalidMaximum.

Record MessageBuildError := mkMessageBuildError {
  mbe_kind : MessageBuildErrorKind;
  mbe_actual : option N;
  mbe_maximum : option N;
}.

Definition MessageBuildError_serialization : MessageBuildError :=
  {| mbe_kind := Serialization; mbe_actual := None; mbe_maximum := None |}.
Definition MessageBuildError_payload_too_large (actual maximum : N) : MessageBuildError :=
  {| mbe_kind := PayloadTooLarge; mbe_actual := Some actual; mbe_maximum := Some maximum |}.
Definition MessageBuildError_invalid_maximum (maximum : N) : MessageBuildError :=
  {| mbe_kind := InvalidMaximum; mbe_actual := None; mbe_maximum := Some maximum |}.

(** ** value.rs *)

Definition MAX_IDENTIFIER_BYTES : N := 256.
Definition MAX_UNIX_TIMESTAMP_MILLISECONDS : N := 253402300799999.

Definition validate_identifier (value field : string) : result string ContractError :=
  fail! String.eqb value "" with contract_error Empty field;
  fail! MAX_IDENTIFIER_BYTES <? str_len value
    with contract_bounded TooLong field (str_len value) MAX_IDENTIFIER_BYTES;
  fail! any_control value with contract_error ControlCharacter field;
  fail! negb (bytes_all is_graphic value) with contract_error InvalidFormat field;
  Ok value.

(** The four identifier newtypes share one shape; the kind keeps them apart. *)
Inductive identifier_kind := KMessageId | KMsgOperationId | KCorrelationId | KCausationId.

Record identifier (k : identifier_kind) := Identifier { id_str : string }.
Arguments Identifier {k} id_str.
Arguments id_str {k} i.

Notation MessageId := (identifier KMessageId).
Notation MsgOperationId := (identifier KMsgOperationId).
Notation CorrelationId := (identifier KCorrelationId).
Notation CausationId := (identifier KCausationId).

Definition identifier_field (k : identifier_kind) : string :=
  match k with
  | KMessageId => "message_id"
  | KMsgOperationId => "operation_id"
  | KCorrelationId => "correlation_id"
  | KCausationId => "causation_id"
  end.

Definition identifier_new (k : identifier_kind) (value : string)
  : result (identifier k) ContractError :=
  rmap Identifier (validate_identifier value (identifier_field k)).

Definition MessageId_new : string → result MessageId ContractError := identifier_new KMessageId.
Definition MsgOperationId_new : string → result MsgOperationId ContractError :=
  identifier_new KMsgOperationId.
Definition CorrelationId_new : string → result CorrelationId ContractError :=
  identifier_new KCorrelationId.
Definition CausationId_new : string → result CausationId ContractError :=
  identifier_new KCausationId.

(** The wire form is the string itself; reading it back revalidates. *)
Definition identifier_serialize {k} (x : identifier k) : string := id_str x.
Definition identifier_deserialize (k : identifier_kind) (wire : string)
  : result (identifier k) string :=
  map_err ContractError_display (identifier_new k wire).

Definition MessageId_deserialize := identifier_deserialize KMessageId.
Definition MsgOperationId_deserialize := identifier_deserialize KMsgOperationId.
Definition CorrelationId_deserialize := identifier_deserialize KCorrelationId.
Definition CausationId_deserialize := identifier_deserialize KCausationId.

(** [From<OperationId> for MessageId] and [From<MessageId> for CausationId] *)
Definition MessageId_from_operation (x : MsgOperationId) : MessageId := Identifier (id_str x).
Definition CausationId_from_message (x : MessageId) : CausationId := Identifier (id_str x).

Record SchemaVersion := mkSchemaVersion { schema_get : N }.

Definition SchemaVersion_new (value : N) : result SchemaVersion ContractError :=
  fail! value =? 0 with contract_error OutOfRange "schema_version";
  Ok (mkSchemaVersion value).

Definition SchemaVersion_deserialize (wire : N) : result SchemaVersion string :=
  map_err ContractError_display (SchemaVersion_new wire).

Record MessageTimestamp := mkMessageTimestamp { unix_milliseconds : N }.

Definition from_unix_milliseconds (value : N) : result MessageTimestamp ContractError :=
  fail! MAX_UNIX_TIMESTAMP_MILLISECONDS <? value with contract_error OutOfRange "timestamp";
  Ok (mkMessageTimestamp value).

Definition MessageTimestamp_deserialize (wire : N) : result MessageTimestamp string :=
  map_err ContractError_display (from_unix_milliseconds wire).

(** ** actor.rs *)

Definition MAX_ACTOR_NAMESPACE_BYTES : N := 128.
Definition MAX_ACTOR_ID_BYTES : N := 256.

Record ActorRef := mkActorRef { actor_namespace : string; actor_id : string }.

Definition validate_actor_part (value field : string) (maximum : N) : result unit ContractError :=
  fail! String.eqb value "" with contract_error Empty field;
  fail! maximum <? str_len value with contract_bounded TooLong field (str_len value) maximum;
  fail! any_control value with contract_error ControlCharacter field;
  fail! negb (String.eqb (trim value) value) with contract_error InvalidFormat field;
  Ok tt.

Definition ActorRef_new (namespace id : string) : result ActorRef ContractError :=
  let? _ := validate_actor_part namespace "actor namespace" MAX_ACTOR_NAMESPACE_BYTES in
  let? _ := validate_actor_part id "actor id" MAX_ACTOR_ID_BYTES in
  Ok (mkActorRef namespace id).

(** The wire form keeps the two components; [try_from] revalidates them. *)
Record ActorWire := mkActorWire { wire_namespace : string; wire_id : string }.
Definition ActorWire_of (a : ActorRef) : ActorWire :=
  mkActorWire (actor_namespace a) (actor_id a).
Definition ActorRef_try_from (w : ActorWire) : result ActorRef ContractError :=
  ActorRef_new (wire_namespace w) (wire_id w).

(** ** Decidable equality and countability *)

#[global] Instance ContractErrorKind_eq_dec : EqDecision ContractErrorKind.
Proof. solve_decision. Defined.
#[global] Instance ContractError_eq_dec : EqDecision ContractError.
Proof. solve_decision. Defined.
#[global] Instance identifier_eq_dec k : EqDecision (identifier k).
Proof. solve_decision. Defined.
#[global] Instance identifier_countable k : Countable (identifier k).
Proof. by refine (inj_countable' id_str Identifier _); intros []. Defined.
#[global] Instance SchemaVersion_eq_dec : EqDecision SchemaVersion.
Proof. solve_decision. Defined.
#[global] Instance MessageTimestamp_eq_dec : EqDecision MessageTimestamp.
Proof. solve_decision. Defined.
#[global] Instance ActorRef_eq_dec : EqDecision ActorRef.
Proof. solve_decision. Defined.
#[global] Instance ActorRef_countable : Countable ActorRef.
Proof.
  by refine (inj_countable' (λ a, (actor_namespace a, actor_id a)) (λ p, mkActorRef p.1 p.2) _);
    intros [].
Defined.

(** ** What the validators establish *)

(** A value the type's constructor accepts; Rust's privacy makes every value
    of the newtype one of these. *)
Definition identifier_ok {k} (x : identifier k) : Prop := identifier_new k (id_str x) = Ok x.
Definition actor_ok (a : ActorRef) : Prop := ActorRef_new (actor_namespace a) (actor_id a) = Ok a.

Lemma validate_identifier_Ok value field v :
  validate_identifier value field = Ok v ↔
  v = value ∧ value ≠ "" ∧ str_len value <= MAX_IDENTIFIER_BYTES
  ∧ bytes_all is_graphic value = true.
Proof.
  unfold validate_identifier. split.
  - intros H. guards. done.
  - intros (-> & Hne & Hl & Hg).
    rewrite (proj2 (String.eqb_neq _ _)) by done.
    rewrite (proj2 (N.ltb_ge _ _)) by done.
    by rewrite graphic_no_control, Hg.
Qed.

Lemma identifier_new_Ok k value x :
  identifier_new k value = Ok x ↔
  x = Identifier value ∧ value ≠ "" ∧ str_len value <= MAX_IDENTIFIER_BYTES
  ∧ bytes_all is_graphic value = true.
Proof.
  unfold identifier_new. rewrite rmap_Ok. setoid_rewrite validate_identifier_Ok. naive_solver.
Qed.

Lemma identifier_new_ok k value x : identifier_new k value = Ok x → identifier_ok x ∧ id_str x = value.
Proof. intros H. pose proof H as [-> _]%identifier_new_Ok. done. Qed.

Lemma identifier_ok_bound {k} (x : identifier k) : identifier_ok x → str_len (id_str x) <= 256.
Proof. intros (? & ? & ? & ?)%identifier_new_Ok. done. Qed.

Lemma actor_ok_bounds a :
  actor_ok a → str_len (actor_namespace a) <= 128 ∧ str_len (actor_id a) <= 256.
Proof. unfold actor_ok, ActorRef_new, validate_actor_part. intros H. guards. split; assumption. Qed.

#[export] Hint Resolve identifier_ok_bound : contract.

(** * Technical execution failures and their recovery policy (crates/rostfrei-messaging-
    core/src/execution_failure.rs). *)

Inductive ProcessorFailureKind := InvalidConfiguration.
Inductive StoreFailureKind :=
| FailCorruptHistory | FailCapacityExhausted | FailConfigurationMismatch | FailConflict | FailUnavailable.
Inductive CodecFailureKind :=
| FailUnknownEventType | FailUnsupportedSchemaVersion | FailMalformedPayload | FailConversionFailed
| FailInvalidEnvelope | FailEncodingFailed.
Inductive ExecutionFailure :=
| FailureStore (kind : StoreFailureKind)
| FailureCodec (kind : CodecFailureKind)
| FailureProcessor (kind : ProcessorFailureKind).
Inductive ExecutionRecovery := Retry | Blocked.

#[global] Instance ProcessorFailureKind_eq_dec : EqDecision ProcessorFailureKind.
Proof. solve_decision. Defined.
#[global] Instance StoreFailureKind_eq_dec : EqDecision StoreFailureKind.
Proof. solve_decision. Defined.
#[global] Instance CodecFailureKind_eq_dec : EqDecision CodecFailureKind.
Proof. solve_decision. Defined.
#[global] Instance ExecutionFailure_eq_dec : EqDecision ExecutionFailure.
Proof. solve_decision. Defined.
#[global] Instance ExecutionRecovery_eq_dec : EqDecision ExecutionRecovery.
Proof. solve_decision. Defined.

(** [ExecutionFailure::recovery] and [is_retryable] *)
Definition recovery (f : ExecutionFailure) : ExecutionRecovery :=
  match f with
  | FailureStore (FailConflict | FailUnavailable) => Retry
  | FailureStore (FailCorruptHistory | FailCapacityExhausted | FailConfigurationMismatch)
  | FailureCodec _ | FailureProcessor _ => Blocked
  end.
Definition is_retryable (f : ExecutionFailure) : bool := bool_decide (recovery f = Retry).
