(* ===== verification/Scope.v ===== *)
(** * Scope: traffic scopes, application and bounded-context names
    (crates/rostfrei-messaging-core/src/scope.rs). The address and delivery-name
    constructors of [BoundedContext] are in Address and Delivery. *)

From S2P Require Export Contract.

Definition MAX_SCOPE_NAME_BYTES : N := 64.

Inductive TrafficScope := Normal | Test.

Definition subject_segment (t : TrafficScope) : option string :=
  match t with Normal => None | Test => Some "test" end.

(** The byte class of lower-case kebab-case names *)
Definition is_kebab (c : N) : bool := is_lower c || is_digit c || (c =? 45).

(** The last guard of [validate_scope_name] and of [validate_address_name] *)
Definition kebab_shape (value : string) : bool :=
  negb (starts_with "-" value || ends_with_char "-" value || contains "--" value
        || negb (bytes_all is_kebab value)).

Definition validate_scope_name (value field : string) : result string ContractError :=
  fail! String.eqb value "" with contract_error Empty field;
  fail! MAX_SCOPE_NAME_BYTES <? str_len value
    with contract_bounded TooLong field (str_len value) MAX_SCOPE_NAME_BYTES;
  fail! contains "*" value || contains ">" value with contract_error Wildcard field;
  fail! any_control value with contract_error ControlCharacter field;
  fail! negb (kebab_shape value) with contract_error InvalidFormat field;
  Ok value.

Definition validate_scope_segment (value field : string) : result unit ContractError :=
  rmap (λ _, tt) (validate_scope_name value field).

Record ApplicationName := mkApplicationName { application_str : string }.
Definition ApplicationName_new (value : string) : result ApplicationName ContractError :=
  rmap mkApplicationName (validate_scope_name value "application name").

Record BoundedContextName := mkBoundedContextName { context_str : string }.
Definition BoundedContextName_new (value : string) : result BoundedContextName ContractError :=
  rmap mkBoundedContextName (validate_scope_name value "bounded context name").

Record BoundedContext := mkBoundedContext {
  bc_application : ApplicationName;
  bc_traffic_scope : TrafficScope;
  bc_name : BoundedContextName;
}.

Definition BoundedContext_new (application : ApplicationName) (name : BoundedContextName)
  : BoundedContext := mkBoundedContext application Normal name.

Definition bounded_context_in_scope (application : ApplicationName) (t : TrafficScope)
    (name : string) : result BoundedContext ContractError :=
  let? n := BoundedContextName_new name in Ok (mkBoundedContext application t n).
Definition bounded_context (application : ApplicationName) (name : string)
  : result BoundedContext ContractError := bounded_context_in_scope application Normal name.
Definition test_bounded_context (application : ApplicationName) (name : string)
  : result BoundedContext ContractError := bounded_context_in_scope application Test name.

#[global] Instance TrafficScope_eq_dec : EqDecision TrafficScope.
Proof. solve_decision. Defined.
#[global] Instance ApplicationName_eq_dec : EqDecision ApplicationName.
Proof. solve_decision. Defined.
#[global] Instance BoundedContextName_eq_dec : EqDecision BoundedContextName.
Proof. solve_decision. Defined.
#[global] Instance BoundedContextName_countable : Countable BoundedContextName.
Proof. by refine (inj_countable' context_str mkBoundedContextName _); intros []. Defined.

(** ** What a scope name is *)

(** The names the validator accepts, as a decidable shape. *)
Definition scope_name (s : string) : bool :=
  negb (String.eqb s "") && (str_len s <=? MAX_SCOPE_NAME_BYTES) && kebab_shape s.

Definition context_ok (c : BoundedContextName) : Prop := scope_name (context_str c) = true.

Lemma bytes_all_not_contains (p : N → bool) (c : ascii) s :
  p (N_of_ascii c) = false → bytes_all p s = true → contains (String c "") s = false.
Proof.
  intros Hc. induction s as [|d s IH]; [done|]. rewrite bytes_all_cons. intros H. guards.
  cbn [contains]. rewrite IH by done. rewrite orb_false_r. cbn.
  destruct (ascii_dec c d) as [->|]; [congruence|done].
Qed.

Lemma kebab_no_control s : bytes_all is_kebab s = true → any_control s = false.
Proof.
  apply bytes_all_no_control.
  unfold is_kebab, is_lower, is_digit, is_ascii_byte, is_control. intros c Hc.
  rewrite !orb_true_iff, !andb_true_iff, !N.leb_le, N.eqb_eq in Hc.
  rewrite orb_false_iff, andb_false_iff, N.ltb_lt, N.ltb_ge, !N.leb_gt. lia.
Qed.

Lemma kebab_shape_bytes s : kebab_shape s = true → bytes_all is_kebab s = true.
Proof. unfold kebab_shape. intros H. guards. done. Qed.

Lemma validate_scope_name_Ok value field v :
  validate_scope_name value field = Ok v ↔ v = value ∧ scope_name value = true.
Proof.
  unfold validate_scope_name, scope_name. split.
  - intros H. guards. split; [done|]. rewrite !andb_true_iff, N.leb_le.
    by split_and!.
  - intros [-> H]. guards. rewrite (proj2 (String.eqb_neq _ _)) by done.
    rewrite (proj2 (N.ltb_ge _ _)) by done.
    pose proof (kebab_shape_bytes _ H0) as Hb.
    rewrite !(bytes_all_not_contains is_kebab) by done.
    by rewrite kebab_no_control, H0.
Qed.

Lemma validate_scope_segment_Ok value field :
  validate_scope_segment value field = Ok tt ↔ scope_name value = true.
Proof.
  unfold validate_scope_segment. rewrite rmap_Ok. setoid_rewrite validate_scope_name_Ok.
  naive_solver.
Qed.

Lemma validate_scope_segment_unit value field u :
  validate_scope_segment value field = Ok u → scope_name value = true.
Proof. destruct u. apply validate_scope_segment_Ok. Qed.

Lemma scope_name_len s : scope_name s = true → str_len s <= 64.
Proof. unfold scope_name. intros H. guards. done. Qed.

Lemma scope_name_kebab s : scope_name s = true → bytes_all is_kebab s = true.
Proof. unfold scope_name. intros H. guards. by apply kebab_shape_bytes. Qed.

Lemma bytes_all_no_match_char (p : N → bool) (c : ascii) s :
  p (N_of_ascii c) = false → bytes_all p s = true → no_match (String c "") s = true.
Proof.
  intros Hc. induction s as [|d s IH]; [done|]. rewrite bytes_all_cons. intros H. guards.
  cbn [no_match]. rewrite IH by done. cbn.
  destruct (ascii_dec c d) as [->|]; [congruence|done].
Qed.

Lemma ends_with_char_cons c d s : s ≠ "" → ends_with_char c (String d s) = ends_with_char c s.
Proof. by destruct s. Qed.

Lemma no_double_dash s :
  ends_with_char "-" s = false → contains "--" s = false → no_match "--" s = true.
Proof.
  induction s as [|c s IH]; [done|]. intros He Hc. cbn [contains] in Hc. guards.
  cbn [no_match]. destruct s as [|d s].
  - change (Ascii.eqb "-" c = false) in He. apply Ascii.eqb_neq in He. cbn [String.append String.prefix no_match].
    by destruct (ascii_dec "-" c).
  - rewrite IH; [|by rewrite ends_with_char_cons in He|done].
    rewrite andb_true_r, prefix_extend by (cbn; lia). by rewrite H.
Qed.

(** A scope name ends at a following dot or double dash. *)
Lemma scope_name_no_match s :
  scope_name s = true → no_match "." s = true ∧ no_match "--" s = true.
Proof.
  intros H. split.
  - apply (bytes_all_no_match_char is_kebab); [done|by apply scope_name_kebab].
  - unfold scope_name, kebab_shape in H. guards. by apply no_double_dash.
Qed.

Lemma scope_name_dot s : scope_name s = true → no_match "." s = true.
Proof. apply scope_name_no_match. Qed.
Lemma scope_name_dash s : scope_name s = true → no_match "--" s = true.
Proof. apply scope_name_no_match. Qed.
Lemma scope_name_no_dot s : scope_name s = true → contains "." s = false.
Proof. intros H. apply contains_no_match; [done|by apply scope_name_dot]. Qed.

#[export] Hint Resolve scope_name_dot scope_name_dash scope_name_no_dot : scope.
