(* ===== verification/Address.v ===== *)
(** * Address: message addresses, [<application>[.test].<kind>.<context>.<name>]
    (crates/rostfrei-messaging-core/src/address.rs). *)

From S2P Require Export Scope.

Definition MAX_ADDRESS_BYTES : N := 256.
Definition MAX_ADDRESS_SEGMENT_BYTES : N := 64.

Inductive AddressKind := Command | CommandResponse | IntegrationEvent | Query.

#[global] Instance AddressKind_eq_dec : EqDecision AddressKind.
Proof. solve_decision. Defined.

Definition kind_segment (k : AddressKind) : string :=
  match k with
  | Command => "command"
  | CommandResponse => "command-response"
  | IntegrationEvent => "integration"
  | Query => "query"
  end.

Definition validate_address_name (value : string) : result unit ContractError :=
  let field := "address name" in
  fail! String.eqb value "" with contract_error Empty field;
  fail! MAX_ADDRESS_SEGMENT_BYTES <? str_len value
    with contract_bounded TooLong field (str_len value) MAX_ADDRESS_SEGMENT_BYTES;
  fail! contains "*" value || contains ">" value with contract_error Wildcard field;
  fail! any_control value with contract_error ControlCharacter field;
  fail! negb (kebab_shape value) with contract_error InvalidFormat field;
  Ok tt.

(** [format!("{application}.{scope}.{kind}.{context}.{name}")], without the
    scope segment for normal traffic *)
Definition address_text (kind : AddressKind) (application : string) (t : TrafficScope)
    (context name : string) : string :=
  match subject_segment t with
  | None => application +:+ "." +:+ kind_segment kind +:+ "." +:+ context +:+ "." +:+ name
  | Some scope =>
    application +:+ "." +:+ scope +:+ "." +:+ kind_segment kind +:+ "." +:+ context
      +:+ "." +:+ name
  end.

Definition build_address (kind : AddressKind) (application : string) (t : TrafficScope)
    (context name : string) : result string ContractError :=
  let? _ := validate_scope_segment application "address application" in
  let? _ := validate_scope_segment context "address context" in
  let? _ := validate_address_name name in
  let value := address_text kind application t context name in
  fail! MAX_ADDRESS_BYTES <? str_len value
    with contract_bounded TooLong "address" (str_len value) MAX_ADDRESS_BYTES;
  Ok value.

Definition kind_of_segment (s : string) : option AddressKind :=
  if String.eqb s "command" then Some Command
  else if String.eqb s "command-response" then Some CommandResponse
  else if String.eqb s "integration" then Some IntegrationEvent
  else if String.eqb s "query" then Some Query
  else None.

Definition parse_address_parts (value : string) : result AddressKind ContractError :=
  fail! String.eqb value "" with contract_error Empty "address";
  fail! MAX_ADDRESS_BYTES <? str_len value
    with contract_bounded TooLong "address" (str_len value) MAX_ADDRESS_BYTES;
  fail! contains "*" value || contains ">" value with contract_error Wildcard "address";
  fail! any_control value with contract_error ControlCharacter "address";
  let (first, segments) := next (split "." value) in
  let? application := ok_or first (contract_error InvalidFormat "address") in
  let (opt_second, segments) := next segments in
  let? second := ok_or opt_second (contract_error InvalidFormat "address") in
  let (kind, segments) :=
    if String.eqb second "test" then next segments else (Some second, segments) in
  let (context, segments) := next segments in
  let (name, segments) := next segments in
  fail! bool_decide (is_Some (fst (next segments))) || bool_decide (kind = None)
        || bool_decide (context = None) || bool_decide (name = None)
    with contract_error InvalidFormat "address";
  let? kind := ok_or (kind_of_segment (default "" kind))
                 (contract_error WrongAddressKind "address") in
  let? _ := validate_scope_segment application "address application" in
  let? _ := validate_scope_segment (default "" context) "address context" in
  let? _ := validate_address_name (default "" name) in
  Ok kind.

Definition parse_address (value : string) (expected : AddressKind) : result string ContractError :=
  let? kind := parse_address_parts value in
  fail! negb (bool_decide (kind = expected)) with contract_error WrongAddressKind "address";
  Ok value.

Definition segment (value : string) (index : N) : string := nth_or_empty (split "." value) index.

Definition address_traffic_scope (value : string) : TrafficScope :=
  if String.eqb (segment value 1) "test" then Test else Normal.

Definition address_segment (value : string) (normal_index : N) : string :=
  let index :=
    if bool_decide (address_traffic_scope value = Test) && (0 <? normal_index)
    then saturating_add usize_max normal_index 1 else normal_index in
  segment value index.

(** The four address newtypes share one implementation; the kind keeps them
    apart as the newtypes do. *)
Record address (k : AddressKind) := Address { addr_str : string }.
Arguments Address {k} addr_str.
Arguments addr_str {k} a.

Notation CommandAddress := (address Command).
Notation CommandResponseAddress := (address CommandResponse).
Notation IntegrationEventAddress := (address IntegrationEvent).
Notation QueryAddress := (address Query).

#[global] Instance address_eq_dec k : EqDecision (address k).
Proof. solve_decision. Defined.

Definition address_new_in_scope (k : AddressKind) (application : string) (t : TrafficScope)
    (context name : string) : result (address k) ContractError :=
  rmap Address (build_address k application t context name).
Definition address_parse (k : AddressKind) (value : string) : result (address k) ContractError :=
  rmap Address (parse_address value k).

(** [application()], [traffic_scope()], [context()] and [name()] of an address *)
Definition address_application {k} (a : address k) : string := segment (addr_str a) 0.
Definition address_scope {k} (a : address k) : TrafficScope := address_traffic_scope (addr_str a).
Definition address_context {k} (a : address k) : string := address_segment (addr_str a) 2.
Definition address_name {k} (a : address k) : string := address_segment (addr_str a) 3.

Definition CommandAddress_new_in_scope := address_new_in_scope Command.
Definition CommandAddress_new (application context name : string) :=
  CommandAddress_new_in_scope application Normal context name.
Definition CommandAddress_parse := address_parse Command.
Definition CommandResponseAddress_new_in_scope := address_new_in_scope CommandResponse.
Definition CommandResponseAddress_new (application context name : string) :=
  CommandResponseAddress_new_in_scope application Normal context name.
Definition CommandResponseAddress_parse := address_parse CommandResponse.
Definition IntegrationEventAddress_new_in_scope := address_new_in_scope IntegrationEvent.
Definition IntegrationEventAddress_new (application context name : string) :=
  IntegrationEventAddress_new_in_scope application Normal context name.
Definition IntegrationEventAddress_parse := address_parse IntegrationEvent.
Definition QueryAddress_new_in_scope := address_new_in_scope Query.
Definition QueryAddress_new (application context name : string) :=
  QueryAddress_new_in_scope application Normal context name.
Definition QueryAddress_parse := address_parse Query.

(** The wire form is the text; [FromStr] and [Deserialize] parse it again. *)
Definition address_serialize {k} (a : address k) : string := addr_str a.
Definition address_deserialize (k : AddressKind) (wire : string) : result (address k) string :=
  map_err ContractError_display (address_parse k wire).
Definition CommandAddress_deserialize := address_deserialize Command.
Definition CommandResponseAddress_deserialize := address_deserialize CommandResponse.
Definition IntegrationEventAddress_deserialize := address_deserialize IntegrationEvent.
Definition QueryAddress_deserialize := address_deserialize Query.

(** The constructors bound to a [BoundedContext] (scope.rs) *)
Definition bc_address (k : AddressKind) (c : BoundedContext) (name : string)
  : result (address k) ContractError :=
  address_new_in_scope k (application_str (bc_application c)) (bc_traffic_scope c)
    (context_str (bc_name c)) name.
Definition bc_command_address := bc_address Command.
Definition bc_integration_event_address := bc_address IntegrationEvent.
Definition bc_command_response_address := bc_address CommandResponse.
Definition bc_query_address := bc_address Query.

Inductive MessageAddress :=
| MACommand (a : CommandAddress)
| MACommandResponse (a : CommandResponseAddress)
| MAIntegrationEvent (a : IntegrationEventAddress)
| MAQuery (a : QueryAddress).

Definition MessageAddress_parse (value : string) : result MessageAddress ContractError :=
  let? kind := parse_address_parts value in
  Ok match kind with
     | Command => MACommand (Address value)
     | CommandResponse => MACommandResponse (Address value)
     | IntegrationEvent => MAIntegrationEvent (Address value)
     | Query => MAQuery (Address value)
     end.

Definition MessageAddress_kind (m : MessageAddress) : AddressKind :=
  match m with
  | MACommand _ => Command
  | MACommandResponse _ => CommandResponse
  | MAIntegrationEvent _ => IntegrationEvent
  | MAQuery _ => Query
  end.
Definition MessageAddress_as_str (m : MessageAddress) : string :=
  match m with
  | MACommand a => addr_str a
  | MACommandResponse a => addr_str a
  | MAIntegrationEvent a => addr_str a
  | MAQuery a => addr_str a
  end.
Definition MessageAddress_application (m : MessageAddress) : string :=
  match m with
  | MACommand a => address_application a
  | MACommandResponse a => address_application a
  | MAIntegrationEvent a => address_application a
  | MAQuery a => address_application a
  end.
Definition MessageAddress_context (m : MessageAddress) : string :=
  match m with
  | MACommand a => address_context a
  | MACommandResponse a => address_context a
  | MAIntegrationEvent a => address_context a
  | MAQuery a => address_context a
  end.
Definition MessageAddress_name (m : MessageAddress) : string :=
  match m with
  | MACommand a => address_name a
  | MACommandResponse a => address_name a
  | MAIntegrationEvent a => address_name a
  | MAQuery a => address_name a
  end.
Definition MessageAddress_traffic_scope (m : MessageAddress) : TrafficScope :=
  match m with
  | MACommand a => address_scope a
  | MACommandResponse a => address_scope a
  | MAIntegrationEvent a => address_scope a
  | MAQuery a => address_scope a
  end.

Definition MessageAddress_deserialize (wire : string) : result MessageAddress string :=
  map_err ContractError_display (MessageAddress_parse wire).

(** ** The segments of an address *)

Lemma validate_address_name_Ok value u :
  validate_address_name value = Ok u ↔ scope_name value = true.
Proof.
  unfold validate_address_name, scope_name. destruct u. split.
  - intros H. guards. rewrite !andb_true_iff, N.leb_le. by split_and!.
  - intros H. guards. rewrite (proj2 (String.eqb_neq _ _)) by done.
    rewrite (proj2 (N.ltb_ge _ _)) by done.
    pose proof (kebab_shape_bytes _ H0) as Hb.
    rewrite !(bytes_all_not_contains is_kebab) by done.
    by rewrite kebab_no_control, H0.
Qed.

(** The parts a caller may build an address of. *)
Definition address_parts_ok (application context name : string) : Prop :=
  scope_name application = true ∧ scope_name context = true ∧ scope_name name = true.

Lemma build_address_Ok kind application t context name v :
  build_address kind application t context name = Ok v ↔
  v = address_text kind application t context name
  ∧ address_parts_ok application context name ∧ str_len v <= MAX_ADDRESS_BYTES.
Proof.
  unfold build_address, address_parts_ok. split.
  - intros H. guards.
    apply validate_scope_segment_unit in E, E0. apply validate_address_name_Ok in E1. done.
  - intros (-> & (Ha & Hc & Hn) & Hl).
    rewrite (proj2 (validate_scope_segment_Ok _ _) Ha), (proj2 (validate_scope_segment_Ok _ _) Hc).
    rewrite (proj2 (validate_address_name_Ok _ tt) Hn). cbn [rbind].
    by rewrite (proj2 (N.ltb_ge _ _)).
Qed.

Lemma kind_segment_no_match k : no_match "." (kind_segment k) = true.
Proof. by destruct k. Qed.
Lemma kind_of_kind_segment k : kind_of_segment (kind_segment k) = Some k.
Proof. by destruct k. Qed.
Lemma kind_of_segment_Some s k : kind_of_segment s = Some k → s = kind_segment k.
Proof.
  unfold kind_of_segment. intros H.
  repeat match type of H with (if ?c then _ else _) = _ => destruct c eqn:?; guards end; naive_solver.
Qed.
Lemma kind_segment_not_test k : String.eqb (kind_segment k) "test" = false.
Proof. by destruct k. Qed.

#[export] Hint Resolve kind_segment_no_match : scope.

Lemma split_address_text kind application t context name :
  address_parts_ok application context name →
  split "." (address_text kind application t context name) =
  match t with
  | Normal => [application; kind_segment kind; context; name]
  | Test => [application; "test"; kind_segment kind; context; name]
  end.
Proof.
  intros (Ha & Hc & Hn). unfold address_text. destruct t; cbn [subject_segment];
    rewrite !split_segment by (done || auto with scope);
    by rewrite split_last by auto with scope.
Qed.

(** Every byte of an address is of the kebab class or a dot. *)
Definition is_address_byte (c : N) : bool := is_kebab c || (c =? 46).

Lemma address_text_bytes kind application t context name :
  address_parts_ok application context name →
  bytes_all is_address_byte (address_text kind application t context name) = true.
Proof.
  intros (Ha & Hc & Hn).
  assert (∀ s, scope_name s = true → bytes_all is_address_byte s = true) as Hk.
  { intros s Hs. eapply bytes_all_impl; [|by apply scope_name_kebab].
    intros c Hkc. unfold is_address_byte. by rewrite Hkc. }
  unfold address_text. destruct t, kind; cbn [subject_segment kind_segment];
    by rewrite !bytes_all_app, (Hk _ Ha), (Hk _ Hc), (Hk _ Hn).
Qed.

Lemma address_bytes_clean s :
  bytes_all is_address_byte s = true →
  contains "*" s = false ∧ contains ">" s = false ∧ any_control s = false.
Proof.
  intros H. split_and!; try by apply (bytes_all_not_contains is_address_byte).
  revert H. apply bytes_all_no_control.
  unfold is_address_byte, is_kebab, is_lower, is_digit, is_ascii_byte, is_control. intros c Hc.
  rewrite !orb_true_iff, !andb_true_iff, !N.leb_le, !N.eqb_eq in Hc.
  rewrite orb_false_iff, andb_false_iff, N.ltb_lt, N.ltb_ge, !N.leb_gt. lia.
Qed.

Lemma address_text_nonempty kind application t context name :
  address_parts_ok application context name →
  String.eqb (address_text kind application t context name) "" = false.
Proof. intros (Ha & _ & _). unfold address_text. by destruct application, t. Qed.

(** ** Round trips *)

(** The parser accepts exactly the built addresses, and reads their kind. *)
Lemma parse_address_parts_build kind application t context name v :
  build_address kind application t context name = Ok v →
  parse_address_parts v = Ok kind.
Proof.
  intros (-> & Hp & Hl)%build_address_Ok. pose proof Hp as (Ha & Hc & Hn).
  unfold parse_address_parts.
  rewrite address_text_nonempty by done. rewrite (proj2 (N.ltb_ge _ _)) by done.
  destruct (address_bytes_clean _ (address_text_bytes kind _ t _ _ Hp)) as (-> & -> & ->).
  rewrite split_address_text by done.
  destruct t; cbn [orb next head tail hd_error tl ok_or rbind];
    rewrite ?kind_segment_not_test; cbn [orb String.eqb Ascii.eqb Bool.eqb next head tail
      hd_error tl ok_or rbind default from_option id];
    rewrite kind_of_kind_segment; cbn [ok_or rbind];
    rewrite (proj2 (validate_scope_segment_Ok _ _) Ha),
      (proj2 (validate_scope_segment_Ok _ _) Hc), (proj2 (validate_address_name_Ok _ tt) Hn); done.
Qed.

Lemma address_text_segments kind application t context name :
  address_parts_ok application context name →
  let v := address_text kind application t context name in
  segment v 0 = application ∧ address_traffic_scope v = t
  ∧ address_segment v 2 = context ∧ address_segment v 3 = name.
Proof.
  intros Hp v. unfold address_segment, address_traffic_scope, segment, v.
  rewrite !split_address_text by done.
  by destruct t, kind.
Qed.

(** Building an address and parsing it back yields the same
    text and kind, and the accessors return exactly the application, traffic
    scope, context and name it was built from. *)
Lemma address_build_parse k application t context name a :
  address_new_in_scope k application t context name = Ok a →
  address_parse k (addr_str a) = Ok a
  ∧ address_application a = application ∧ address_scope a = t
  ∧ address_context a = context ∧ address_name a = name.
Proof.
  intros (v & Hb & <-)%rmap_Ok. cbn [addr_str]. split.
  - unfold address_parse, parse_address. rewrite (parse_address_parts_build _ _ _ _ _ _ Hb).
    cbn [rbind]. by rewrite bool_decide_eq_true_2.
  - apply build_address_Ok in Hb as (-> & Hp & _).
    exact (address_text_segments k application t context name Hp).
Qed.

Ltac address_facts := repeat match goal with
  | H : kind_of_segment _ = Some _ |- _ => apply kind_of_segment_Some in H
  | H : validate_scope_segment _ _ = Ok _ |- _ => apply validate_scope_segment_unit in H
  | H : validate_address_name _ = Ok _ |- _ => apply validate_address_name_Ok in H
  end.

(** The segments of an accepted address. *)
Lemma parse_address_parts_inv v k :
  parse_address_parts v = Ok k →
  ∃ application t context name,
    address_parts_ok application context name
    ∧ v = address_text k application t context name ∧ str_len v <= MAX_ADDRESS_BYTES.
Proof.
  unfold parse_address_parts. intros H. guards.
  destruct (next (split "." v)) as [first segs1] eqn:E1. guards.
  destruct (next segs1) as [second segs2] eqn:E2. guards. subst first second.
  apply next_Some in E1, E2. subst segs1.
  assert (v = String.concat "." (split "." v)) as Hv by (by rewrite concat_split).
  destruct (String.eqb v1 "test") eqn:Et.
  - apply String.eqb_eq in Et as ->.
    destruct segs2 as [|kd [|ctx [|nm [|]]]]; cbn in H; guards; address_facts; try done.
    exists v0, Test, ctx, nm. rewrite E1 in Hv. by subst.
  - destruct segs2 as [|ctx [|nm [|]]]; cbn in H; guards; address_facts; try done.
    exists v0, Normal, ctx, nm. rewrite E1 in Hv. by subst.
Qed.

(** Parsing accepts nothing but built addresses: an accepted
    text is the one the constructor produces from the parsed address's own
    application, traffic scope, context and name. *)
Lemma address_parse_build k v a :
  address_parse k v = Ok a →
  addr_str a = v
  ∧ address_new_in_scope k (address_application a) (address_scope a) (address_context a)
      (address_name a) = Ok a.
Proof.
  intros (w & (k' & H & Hk)%rbind_Ok & <-)%rmap_Ok. guards. subst k'.
  destruct (parse_address_parts_inv _ _ H) as (app & t & ctx & nm & Hp & -> & Hl).
  destruct (address_text_segments k _ t _ _ Hp) as (H1 & H2 & H3 & H4).
  split; [done|]. unfold address_application, address_scope, address_context, address_name.
  cbn [addr_str]. rewrite H1, H2, H3, H4. unfold address_new_in_scope.
  by rewrite (proj2 (build_address_Ok k app t ctx nm _)) by (split_and!; done || apply Hp).
Qed.

(** Routing is unambiguous: two built addresses with the same
    text have the same kind, application, traffic scope, context and name, so
    isolated test traffic never shares a subject with normal traffic. *)
Theorem address_build_injective k1 k2 app1 app2 t1 t2 ctx1 ctx2 name1 name2 v :
  build_address k1 app1 t1 ctx1 name1 = Ok v →
  build_address k2 app2 t2 ctx2 name2 = Ok v →
  k1 = k2 ∧ app1 = app2 ∧ t1 = t2 ∧ ctx1 = ctx2 ∧ name1 = name2.
Proof.
  intros H1 H2. pose proof (parse_address_parts_build _ _ _ _ _ _ H1) as K1.
  rewrite (parse_address_parts_build _ _ _ _ _ _ H2) in K1. injection K1 as <-.
  apply build_address_Ok in H1 as (-> & P1 & _), H2 as (E & P2 & _).
  destruct (address_text_segments k2 _ t1 _ _ P1) as (A1 & B1 & C1 & D1).
  destruct (address_text_segments k2 _ t2 _ _ P2) as (A2 & B2 & C2 & D2).
  rewrite E in A1, B1, C1, D1. split_and!; congruence.
Qed.

(** ** Witnesses *)

Lemma address_build_parse_witness :
  address_parse Command "acme.test.command.orders.place-order"
  = Ok (Address "acme.test.command.orders.place-order")
  ∧ address_scope (Address (k := Command) "acme.test.command.orders.place-order") = Test.
Proof.
  destruct (address_build_parse Command "acme" Test "orders" "place-order"
    (Address "acme.test.command.orders.place-order")) as (H1 & _ & H2 & _); [by vm_compute|].
  exact (conj H1 H2).
Defined.

Lemma address_parse_build_witness :
  address_new_in_scope Query "acme" Normal "orders" "find-order"
  = Ok (Address "acme.query.orders.find-order").
Proof.
  exact (proj2 (address_parse_build Query "acme.query.orders.find-order"
    (Address "acme.query.orders.find-order") ltac:(by vm_compute))).
Defined.

Lemma address_build_injective_witness : "orders" = "orders" ∧ "place" = "place".
Proof.
  destruct (address_build_injective Command Command "acme" "acme" Normal Normal "orders" "orders"
    "place" "place" "acme.command.orders.place") as (_ & _ & _ & H1 & H2);
    [by vm_compute|by vm_compute|]. exact (conj H1 H2).
Defined.
