(* ===== verification/Metadata.v ===== *)
(** * Metadata: caller metadata and the W3C trace context that travel with a
    message (crates/rostfrei-messaging-core/src/metadata.rs). *)

From S2P Require Export Contract.

Definition MAX_METADATA_ENTRIES : N := 32.
Definition MAX_METADATA_NAME_BYTES : N := 64.
Definition MAX_METADATA_VALUE_BYTES : N := 1024.
Definition MAX_METADATA_BYTES : N := 8192.
Definition MAX_TRACE_STATE_BYTES : N := 512.

Definition RESERVED_NAMES : list string :=
  ["content-type"; "reply"; "reply-to"; "reply-subject"; "traceparent"; "tracestate"].

(** ** Caller metadata *)

Definition is_metadata_name_byte (c : N) : bool := is_alphanumeric c || (c =? 45).
Definition reserved_name (name : string) : bool :=
  starts_with "nats-" name || starts_with "rostfrei-control-" name
  || bool_decide (name ∈ RESERVED_NAMES).

(** [validate_name] *)
Definition validate_metadata_name (name : string) : result string ContractError :=
  let field := "metadata name" in
  fail! String.eqb name "" with contract_error Empty field;
  fail! MAX_METADATA_NAME_BYTES <? str_len name
    with contract_bounded TooLong field (str_len name) MAX_METADATA_NAME_BYTES;
  fail! any_control name with contract_error ControlCharacter field;
  fail! negb (bytes_all is_metadata_name_byte name) || starts_with "-" name
        || ends_with_char "-" name
    with contract_error InvalidFormat field;
  let name := to_ascii_lowercase name in
  fail! reserved_name name with contract_error Reserved field;
  Ok name.

(** [validate_value] *)
Definition validate_metadata_value (value : string) : result string ContractError :=
  let field := "metadata value" in
  fail! MAX_METADATA_VALUE_BYTES <? str_len value
    with contract_bounded TooLong field (str_len value) MAX_METADATA_VALUE_BYTES;
  fail! any_control value with contract_error ControlCharacter field;
  fail! negb (is_ascii value) with contract_error InvalidFormat field;
  Ok value.

Record CallerMetadata := mkCallerMetadata { entries : gmap string string }.

#[global] Instance CallerMetadata_eq_dec : EqDecision CallerMetadata.
Proof. solve_decision. Defined.

Definition CallerMetadata_new : CallerMetadata := mkCallerMetadata ∅.

Definition too_many_metadata_entries : ContractError :=
  contract_error TooManyEntries "caller metadata".
Definition caller_metadata_too_long : ContractError := contract_error TooLong "caller metadata".

Definition entry_bytes (entry : string * string) : N := str_len entry.1 + str_len entry.2.

(** [total_bytes] *)
Definition total_bytes (m : CallerMetadata) : N :=
  foldr (λ e n, entry_bytes e + n) 0 (btree_iter (entries m)).

(** [checked_total_bytes] *)
Definition checked_total_bytes (m : CallerMetadata) : result N ContractError :=
  try_fold (λ total entry,
    ok_or (checked_add usize_max total (str_len entry.1)
             ≫= λ bytes, checked_add usize_max bytes (str_len entry.2))
      caller_metadata_too_long) 0 (btree_iter (entries m)).

(** [CallerMetadata::insert]: the replaced value and the updated metadata. An
    error leaves the metadata as it was. *)
Definition metadata_insert (m : CallerMetadata) (name value : string)
  : result (option string * CallerMetadata) ContractError :=
  let? name := validate_metadata_name name in
  let? value := validate_metadata_value value in
  let existing := entries m !! name in
  let? _ :=
    match existing with
    | None =>
      let? projected := ok_or (checked_add usize_max (N.of_nat (size (entries m))) 1)
                          too_many_metadata_entries in
      fail! MAX_METADATA_ENTRIES <? projected
        with contract_bounded TooManyEntries "caller metadata" projected MAX_METADATA_ENTRIES;
      Ok tt
    | Some _ => Ok tt
    end in
  let? current := checked_total_bytes m in
  let? replaced :=
    match existing with
    | None => Ok 0
    | Some old => ok_or (checked_add usize_max (str_len name) (str_len old))
                    caller_metadata_too_long
    end in
  let? projected :=
    ok_or (checked_sub current replaced
             ≫= λ bytes, checked_add usize_max bytes (str_len name)
             ≫= λ bytes, checked_add usize_max bytes (str_len value))
      caller_metadata_too_long in
  fail! MAX_METADATA_BYTES <? projected
    with contract_bounded TooLong "caller metadata" projected MAX_METADATA_BYTES;
  Ok (existing, mkCallerMetadata (<[name := value]> (entries m))).

Definition try_from_entries (l : list (string * string)) : result CallerMetadata ContractError :=
  try_fold (λ m e, rmap snd (metadata_insert m e.1 e.2)) CallerMetadata_new l.

Definition metadata_get (m : CallerMetadata) (name : string) : option string :=
  entries m !! to_ascii_lowercase name.

(** [CallerMetadata::remove]: the removed value and the metadata after it *)
Definition metadata_remove (m : CallerMetadata) (name : string) : option string * CallerMetadata :=
  let name := to_ascii_lowercase name in
  (entries m !! name, mkCallerMetadata (delete name (entries m))).

Definition metadata_iter (m : CallerMetadata) : list (string * string) := btree_iter (entries m).
Definition metadata_len (m : CallerMetadata) : N := N.of_nat (size (entries m)).
Definition metadata_is_empty (m : CallerMetadata) : bool := metadata_len m =? 0.

(** The wire form is the map itself; reading it back revalidates each entry. *)
Definition metadata_serialize (m : CallerMetadata) : gmap string string := entries m.
Definition metadata_deserialize (wire : gmap string string) : result CallerMetadata string :=
  map_err ContractError_display (try_from_entries (btree_iter wire)).

(** ** Trace context *)

Record TraceContext := mkTraceContext { trace_parent : string; trace_state : option string }.

#[global] Instance TraceContext_eq_dec : EqDecision TraceContext.
Proof. solve_decision. Defined.

Definition is_lower_hex (c : N) : bool := is_digit c || ((97 <=? c) && (c <=? 102)).
Definition valid_lower_hex (value : string) (length : N) : bool :=
  (str_len value =? length) && bytes_all is_lower_hex value.
Definition all_zero (value : string) : bool := bytes_all (λ c, c =? 48) value.

Definition validate_trace_parent (value : string) : result unit ContractError :=
  let (version, parts) := next (split "-" value) in
  let (trace_id, parts) := next parts in
  let (parent_id, parts) := next parts in
  let (flags, parts) := next parts in
  let exact_shape :=
    is_none (next parts).1
    && bool_decide (version = Some "00")
    && is_some_and (λ part, valid_lower_hex part 32 && negb (all_zero part)) trace_id
    && is_some_and (λ part, valid_lower_hex part 16 && negb (all_zero part)) parent_id
    && is_some_and (λ part, valid_lower_hex part 2) flags in
  fail! negb exact_shape with contract_error InvalidFormat "traceparent";
  Ok tt.

Definition is_trace_key_byte (c : N) : bool :=
  is_lower c || is_digit c || (c =? 95) || (c =? 45) || (c =? 42) || (c =? 47) || (c =? 64).

(** The rejection test of one [tracestate] member *)
Definition invalid_trace_member (member : string) : bool :=
  match split_once "=" (trim member) with
  | None => true
  | Some (key, member_value) =>
    String.eqb key "" || String.eqb member_value "" || negb (bytes_all is_trace_key_byte key)
  end.

Definition validate_trace_state (value : string) : result unit ContractError :=
  let field := "tracestate" in
  fail! String.eqb value "" || (MAX_TRACE_STATE_BYTES <? str_len value)
    with contract_bounded (if String.eqb value "" then Empty else TooLong) field
           (str_len value) MAX_TRACE_STATE_BYTES;
  fail! any_control value with contract_error ControlCharacter field;
  fail! negb (is_ascii value) with contract_error InvalidFormat field;
  let members := split "," value in
  fail! (32 <? len members) || existsb invalid_trace_member members
    with contract_error InvalidFormat field;
  Ok tt.

(** [TraceContext::from_parts] *)
Definition TraceContext_from_parts (parent : string) (state : option string)
  : result TraceContext ContractError :=
  let? _ := validate_trace_parent parent in
  let? _ :=
    match state with Some value => validate_trace_state value | None => Ok tt end in
  Ok (mkTraceContext parent state).
Definition TraceContext_new (parent : string) : result TraceContext ContractError :=
  TraceContext_from_parts parent None.

(** [TraceContextWire] and the revalidating [Deserialize] *)
Record TraceContextWire := mkTraceContextWire {
  wire_trace_parent : string;
  wire_trace_state : option string;
}.
Definition TraceContext_serialize (t : TraceContext) : TraceContextWire :=
  mkTraceContextWire (trace_parent t) (trace_state t).
Definition TraceContext_deserialize (w : TraceContextWire) : result TraceContext string :=
  map_err ContractError_display
    (TraceContext_from_parts (wire_trace_parent w) (wire_trace_state w)).

(** ** Byte accounting *)

Definition sum_bytes (l : list (string * string)) : N := foldr (λ e n, entry_bytes e + n) 0 l.

#[global] Instance sum_bytes_proper : Proper ((≡ₚ) ==> (=)) sum_bytes.
Proof. intros l1 l2 H. unfold sum_bytes. induction H; cbn; lia. Qed.

Lemma total_bytes_list m : total_bytes m = sum_bytes (map_to_list (entries m)).
Proof. unfold total_bytes. fold (sum_bytes (btree_iter (entries m))). by rewrite btree_iter_Permutation. Qed.

Lemma total_bytes_insert_new e k v :
  e !! k = None →
  total_bytes (mkCallerMetadata (<[k := v]> e))
  = entry_bytes (k, v) + total_bytes (mkCallerMetadata e).
Proof. intros H. rewrite !total_bytes_list. cbn [entries]. by rewrite map_to_list_insert. Qed.

Lemma total_bytes_insert_old e k v old :
  e !! k = Some old →
  total_bytes (mkCallerMetadata (<[k := v]> e)) + entry_bytes (k, old)
  = total_bytes (mkCallerMetadata e) + entry_bytes (k, v).
Proof.
  intros H. rewrite <- (insert_delete_id e k old H) at 2.
  rewrite <- (insert_delete_eq e k v), !total_bytes_insert_new by apply lookup_delete_eq. lia.
Qed.

Lemma checked_total_fold l n0 :
  n0 + sum_bytes l <= usize_max →
  try_fold (λ total entry,
    ok_or (checked_add usize_max total (str_len entry.1)
             ≫= λ bytes, checked_add usize_max bytes (str_len entry.2))
      caller_metadata_too_long) n0 l
  = Ok (n0 + sum_bytes l).
Proof.
  revert n0; induction l as [|[k v] l IH]; intros n0; cbn [try_fold].
  - cbn. by rewrite N.add_0_r.
  - change (sum_bytes ((k, v) :: l)) with (str_len k + str_len v + sum_bytes l). intros H.
    cbn [fst snd]. rewrite (proj2 (checked_add_Some _ _ _ (n0 + str_len k))) by lia.
    cbn [mbind option_bind]. rewrite (proj2 (checked_add_Some _ _ _ (n0 + str_len k + str_len v))) by lia.
    cbn [ok_or rbind]. rewrite IH by lia. f_equal. lia.
Qed.

Lemma checked_total_bytes_Ok m :
  total_bytes m <= usize_max → checked_total_bytes m = Ok (total_bytes m).
Proof. apply (checked_total_fold (btree_iter (entries m)) 0). Qed.

(** ** Names and values *)

Lemma last_char_lowercase s :
  last_char (to_ascii_lowercase s) = (λ c, ascii_of_N (to_lower_byte (N_of_ascii c))) <$> last_char s.
Proof.
  unfold to_ascii_lowercase, str_codes, of_codes.
  induction s as [|c [|d s] IH]; [done|done|]. cbn in *. exact IH.
Qed.

Lemma lower_dash c : ascii_of_N (to_lower_byte (N_of_ascii c)) = "-"%char → c = "-"%char.
Proof. by destruct c as [[] [] [] [] [] [] [] []]. Qed.

Lemma starts_with_dash_lowercase s :
  starts_with "-" s = false → starts_with "-" (to_ascii_lowercase s) = false.
Proof.
  unfold starts_with. destruct s as [|c s]; [done|].
  change (to_ascii_lowercase (String c s))
    with (String (ascii_of_N (to_lower_byte (N_of_ascii c))) (to_ascii_lowercase s)).
  rewrite !prefix_char, !Ascii.eqb_neq. intros H E. symmetry in E.
  apply lower_dash in E. congruence.
Qed.

Lemma ends_with_dash_lowercase s :
  ends_with_char "-" s = false → ends_with_char "-" (to_ascii_lowercase s) = false.
Proof.
  unfold ends_with_char. rewrite last_char_lowercase. destruct (last_char s) as [c|]; [|done].
  cbn [fmap option_fmap option_map]. rewrite !Ascii.eqb_neq. intros H E. symmetry in E.
  apply lower_dash in E. congruence.
Qed.

Lemma metadata_name_byte_no_control s :
  bytes_all is_metadata_name_byte s = true → any_control s = false.
Proof.
  apply bytes_all_no_control.
  unfold is_metadata_name_byte, is_alphanumeric, is_lower, is_upper, is_digit, is_ascii_byte,
    is_control. intros c Hc.
  rewrite !orb_true_iff, !andb_true_iff, !N.leb_le, N.eqb_eq in Hc.
  rewrite orb_false_iff, andb_false_iff, N.ltb_lt, N.ltb_ge, !N.leb_gt. lia.
Qed.

Lemma metadata_name_byte_lower c :
  is_metadata_name_byte c = true → is_metadata_name_byte (to_lower_byte c) = true.
Proof.
  unfold is_metadata_name_byte, is_alphanumeric, to_lower_byte. destruct (is_upper c) eqn:E; [|by rewrite E].
  intros _. unfold is_upper, is_lower, is_digit in *. guards.
  assert ((97 <=? c + 32) && (c + 32 <=? 122) = true) as ->; [|done].
  rewrite andb_true_iff, !N.leb_le. lia.
Qed.

(** An accepted name is lower-case, not reserved, and accepted as it is. *)
Lemma validate_metadata_name_fix name n :
  validate_metadata_name name = Ok n →
  n = to_ascii_lowercase name ∧ validate_metadata_name n = Ok n ∧ reserved_name n = false
  ∧ str_len n <= MAX_METADATA_NAME_BYTES.
Proof.
  unfold validate_metadata_name. intros H. guards.
  set (l := to_ascii_lowercase name) in *.
  assert (str_len l = str_len name) as El by apply str_len_lowercase.
  rewrite (proj2 (String.eqb_neq _ _)); cycle 1.
  { intros E. rewrite <- str_len_0, El, str_len_0 in E. done. }
  rewrite (proj2 (N.ltb_ge _ _)) by lia.
  assert (bytes_all is_metadata_name_byte l = true) as Hb
    by (apply bytes_all_lowercase; [apply metadata_name_byte_lower|done]).
  rewrite metadata_name_byte_no_control, Hb by done.
  assert (starts_with "-" l = false) as -> by by apply starts_with_dash_lowercase.
  assert (ends_with_char "-" l = false) as -> by by apply ends_with_dash_lowercase.
  cbn [negb orb]. fold l. rewrite (to_ascii_lowercase_idemp name : to_ascii_lowercase l = l).
  split_and!; try done; [|lia].
  by match goal with Hr : reserved_name l = false |- _ => rewrite Hr end.
Qed.

Lemma validate_metadata_value_fix value v : validate_metadata_value value = Ok v → v = value.
Proof. unfold validate_metadata_value. intros H. guards. done. Qed.

(** ** The invariant of caller metadata *)

Definition metadata_entry_ok (name value : string) : Prop :=
  validate_metadata_name name = Ok name ∧ validate_metadata_value value = Ok value.

Record metadata_ok (m : CallerMetadata) : Prop := {
  mo_entries : metadata_len m <= MAX_METADATA_ENTRIES;
  mo_bytes : total_bytes m <= MAX_METADATA_BYTES;
  mo_valid : map_Forall metadata_entry_ok (entries m);
}.

Lemma metadata_ok_new : metadata_ok CallerMetadata_new.
Proof. split; [done|done|apply map_Forall_empty]. Qed.

(** The byte accounting of [insert] does not overflow: each step is in range. *)
Ltac sum_ok :=
  unfold checked_add, checked_sub, usize_max, u64_max in *;
  repeat (rewrite !(proj2 (N.leb_le _ _)) by lia; cbn [ok_or rbind mbind option_bind]).
Ltac insert_cases Ht :=
  match goal with |- context [8192 <? ?p] =>
    let E := fresh in destruct (8192 <? p) eqn:E; bool_step end;
  [ split; [done|]; intros (? & [= <-] & _ & _ & -> & _ & ?); lia
  | split;
    [ intros [= <- <-]; eexists; split_and!; try done; cbn [entries]; lia
    | intros (? & [= <-] & _ & -> & -> & _ & _); cbn [entries]; congruence ] ].

(** What an accepted insertion does and requires. *)
Lemma metadata_insert_Ok m name value old m' :
  total_bytes m <= MAX_METADATA_BYTES → metadata_len m <= MAX_METADATA_ENTRIES →
  metadata_insert m name value = Ok (old, m') ↔
  ∃ n, validate_metadata_name name = Ok n ∧ validate_metadata_value value = Ok value
    ∧ old = entries m !! n ∧ m' = mkCallerMetadata (<[n := value]> (entries m))
    ∧ metadata_len m' <= MAX_METADATA_ENTRIES ∧ total_bytes m' <= MAX_METADATA_BYTES.
Proof.
  intros Hb Hl. unfold metadata_insert. destruct m as [e]; cbn [entries] in *.
  assert (total_bytes (mkCallerMetadata e) <= usize_max) as Hu by (unfold usize_max, u64_max, MAX_METADATA_BYTES in *; lia).
  destruct (validate_metadata_name name) as [n|] eqn:En; cbn [rbind]; [|naive_solver].
  apply validate_metadata_name_fix in En as (_ & _ & _ & Hn).
  destruct (validate_metadata_value value) as [v|] eqn:Ev; cbn [rbind]; [|naive_solver].
  pose proof (validate_metadata_value_fix _ _ Ev) as ->.
  assert (str_len value <= MAX_METADATA_VALUE_BYTES) as Hv
    by (unfold validate_metadata_value in Ev; guards; done).
  rewrite checked_total_bytes_Ok by done.
  unfold metadata_len, MAX_METADATA_ENTRIES, MAX_METADATA_BYTES, MAX_METADATA_NAME_BYTES,
    MAX_METADATA_VALUE_BYTES in *; cbn [entries] in *.
  destruct (e !! n) as [o|] eqn:Eo; cbn [rbind].
  - pose proof (total_bytes_insert_old e n value o Eo) as Ht. unfold entry_bytes in Ht; cbn in Ht.
    assert (size (<[n:=value]> e) = size e) as Hsz by (apply map_size_insert_Some; eauto).
    assert (entry_bytes (n, o) <= total_bytes (mkCallerMetadata e)) as Ho.
    { rewrite <- (insert_delete_id e n o Eo), total_bytes_insert_new by apply lookup_delete_eq. lia. }
    unfold entry_bytes in Ho; cbn in Ho. sum_ok. insert_cases Ht.
  - pose proof (total_bytes_insert_new e n value Eo) as Ht. unfold entry_bytes in Ht; cbn in Ht.
    assert (size (<[n:=value]> e) = S (size e)) as Hsz by (by apply map_size_insert_None).
    unfold checked_add, checked_sub, usize_max, u64_max in *.
    rewrite (proj2 (N.leb_le _ _)) by lia. cbn [ok_or rbind mbind option_bind].
    destruct (32 <? N.of_nat (size e) + 1) eqn:Es; bool_step; cbn [rbind].
    { split; [done|]. intros (n' & [= <-] & _ & _ & -> & Hs & _). cbn [entries] in Hs. lia. }
    sum_ok. insert_cases Ht.
Qed.

(** Reading valid entries with new names inserts every one of them, as long
    as the bounds hold for all of them together. *)
Lemma try_fold_insert l m0 :
  NoDup l.*1 → (∀ k, k ∈ l.*1 → entries m0 !! k = None) →
  metadata_len m0 + len l <= MAX_METADATA_ENTRIES →
  total_bytes m0 + sum_bytes l <= MAX_METADATA_BYTES →
  Forall (λ x, metadata_entry_ok x.1 x.2) l →
  try_fold (λ m x, rmap snd (metadata_insert m x.1 x.2)) m0 l
  = Ok (mkCallerMetadata (list_to_map l ∪ entries m0)).
Proof.
  revert m0; induction l as [|[k v] l IH]; intros m0 Hnd Hnew Hlen Hbytes Hok; cbn [try_fold].
  - cbn. rewrite (left_id_L ∅ (∪)). by destruct m0.
  - inversion Hnd as [|? ? Hk Hnd']; subst. inversion Hok as [|? ? [Hn Hv] Hok']; subst.
    cbn [fst snd] in *. rewrite len_cons in Hlen.
    change (sum_bytes ((k, v) :: l)) with (entry_bytes (k, v) + sum_bytes l) in Hbytes.
    assert (entries m0 !! k = None) as Hm by (apply Hnew; left).
    destruct m0 as [e]. set (m1 := mkCallerMetadata (<[k := v]> e)). cbn [entries] in Hm.
    assert (metadata_len m1 = metadata_len (mkCallerMetadata e) + 1) as Hl1
      by (unfold metadata_len, m1; cbn [entries]; rewrite map_size_insert_None by done; lia).
    assert (total_bytes m1 = entry_bytes (k, v) + total_bytes (mkCallerMetadata e)) as Hb1
      by by apply total_bytes_insert_new.
    rewrite (proj2 (metadata_insert_Ok (mkCallerMetadata e) k v None m1 ltac:(lia) ltac:(lia)))
      by (exists k; split_and!; done || lia).
    cbn [rmap snd rbind]. rewrite IH; [|done|..|lia|lia|done].
    + unfold m1; cbn. rewrite <- insert_union_l, insert_union_r; [done|].
      by apply not_elem_of_list_to_map_1.
    + intros k' Hk'. unfold m1; cbn [entries]. rewrite lookup_insert_ne by set_solver.
      apply (Hnew k'). by right.
Qed.

(** Well-formed metadata is built from its entries in any order. *)
Lemma try_fold_entries m l :
  metadata_ok m → l ≡ₚ map_to_list (entries m) →
  try_fold (λ m x, rmap snd (metadata_insert m x.1 x.2)) CallerMetadata_new l = Ok m.
Proof.
  intros [Hl Hb Hv] Hp. assert (NoDup l.*1) as Hnd by (rewrite Hp; apply NoDup_fst_map_to_list).
  rewrite try_fold_insert; try done.
  - cbn. rewrite (right_id_L ∅ (∪)). destruct m as [e]. cbn [entries] in *. do 2 f_equal.
    rewrite <- (list_to_map_to_list e). by apply list_to_map_proper.
  - unfold len. rewrite Hp.
    change (metadata_len CallerMetadata_new) with 0. by rewrite length_map_to_list.
  - by rewrite Hp, <- total_bytes_list.
  - apply Forall_forall. intros [k v] Hk. rewrite Hp, elem_of_map_to_list in Hk. exact (Hv _ _ Hk).
Qed.

Lemma try_from_entries_self m :
  metadata_ok m → try_from_entries (btree_iter (entries m)) = Ok m.
Proof. intros H. apply try_fold_entries; [done|apply btree_iter_Permutation]. Qed.

(** Insertion keeps caller metadata well-formed: at most 32
    entries and 8192 bytes, and every stored name lower-case, unreserved and
    valid, every value valid; afterwards the case-insensitive lookup of the
    inserted name finds the value, and every other name is as before. *)
Theorem metadata_insert_invariant m name value old m' :
  metadata_ok m → metadata_insert m name value = Ok (old, m') →
  metadata_ok m' ∧ metadata_get m name = old ∧ metadata_get m' name = Some value
  ∧ (∀ other, to_ascii_lowercase other ≠ to_ascii_lowercase name →
       metadata_get m' other = metadata_get m other).
Proof.
  intros [Hl Hb Hv] (n & Hn & Hval & -> & -> & Hl' & Hb')%metadata_insert_Ok; [|done..].
  pose proof (validate_metadata_name_fix _ _ Hn) as (-> & Hfix & _).
  split; [split; try done|unfold metadata_get; cbn [entries]; split_and!].
  - cbn. by apply map_Forall_insert_2.
  - done.
  - apply lookup_insert_eq.
  - intros other Hne. by rewrite lookup_insert_ne.
Qed.


(** Well-formed metadata survives its wire form: the entries
    it serializes to are read back, through every bound and validator of
    [insert], to the same metadata. *)
Theorem metadata_roundtrip m :
  metadata_ok m → metadata_deserialize (metadata_serialize m) = Ok m.
Proof.
  intros H. unfold metadata_deserialize, metadata_serialize. by rewrite try_from_entries_self.
Qed.

(** ** Trace contexts *)

Lemma validate_trace_parent_Ok value u :
  validate_trace_parent value = Ok u →
  ∃ trace_id parent_id flags, value = "00-" +:+ trace_id +:+ "-" +:+ parent_id +:+ "-" +:+ flags
    ∧ str_len trace_id = 32 ∧ str_len parent_id = 16 ∧ str_len flags = 2
    ∧ all_zero trace_id = false ∧ all_zero parent_id = false.
Proof.
  unfold validate_trace_parent. intros H.
  pose proof (concat_split "-" value ltac:(done)) as Hv.
  destruct (split "-" value) as [|v [|t [|p [|f [|]]]]]; cbn [next head tail hd_error tl fst] in H;
    guards; try done.
  subst. unfold is_some_and, valid_lower_hex in *. guards. simplify_eq.
  exists t, p, f. by split_and!.
Qed.

(** A trace context built from its parts is read back from
    its wire form; its [traceparent] is the fixed 55-byte version-00 layout
    with a non-zero trace and parent identifier. *)
Theorem trace_context_roundtrip parent state t :
  TraceContext_from_parts parent state = Ok t →
  TraceContext_deserialize (TraceContext_serialize t) = Ok t
  ∧ str_len (trace_parent t) = 55
  ∧ ∃ trace_id parent_id flags,
      trace_parent t = "00-" +:+ trace_id +:+ "-" +:+ parent_id +:+ "-" +:+ flags
      ∧ all_zero trace_id = false ∧ all_zero parent_id = false.
Proof.
  unfold TraceContext_deserialize. intros H.
  assert (t = mkTraceContext parent state) as -> by (unfold TraceContext_from_parts in H; guards; done).
  cbn [TraceContext_serialize wire_trace_parent wire_trace_state trace_parent trace_state].
  rewrite H. unfold TraceContext_from_parts in H. guards.
  match goal with E : validate_trace_parent _ = _ |- _ =>
    apply validate_trace_parent_Ok in E as (ti & pi & fl & -> & Ht & Hp & Hf & Hz1 & Hz2) end.
  rewrite !str_len_app, Ht, Hp, Hf. split_and!; [done..|]. eauto 10.
Qed.

(** ** Witnesses *)

Lemma metadata_insert_invariant_witness :
  metadata_get (mkCallerMetadata {[ "tenant" := "b" ]}) "Tenant" = Some "b".
Proof.
  refine (proj1 (proj2 (proj2 (metadata_insert_invariant
    (mkCallerMetadata {[ "tenant" := "a" ]}) "TENANT" "b" (Some "a")
    (mkCallerMetadata {[ "tenant" := "b" ]}) _ _)))).
  - split; [by vm_compute|by vm_compute|]. apply map_Forall_singleton. by vm_compute.
  - by vm_compute.
Defined.

Lemma metadata_roundtrip_witness :
  metadata_deserialize
    (metadata_serialize (mkCallerMetadata {[ "region" := "eu"; "tenant" := "a" ]}))
  = Ok (mkCallerMetadata {[ "region" := "eu"; "tenant" := "a" ]}).
Proof.
  apply (metadata_roundtrip (mkCallerMetadata {[ "region" := "eu"; "tenant" := "a" ]})).
  split; [by vm_compute|by vm_compute|].
  apply map_Forall_insert_2; [by vm_compute|]. apply map_Forall_singleton. by vm_compute.
Defined.

Lemma trace_context_roundtrip_witness :
  TraceContext_deserialize (TraceContext_serialize
    (mkTraceContext "00-4bf92f3577b34da6a3ce929d0e0e4736-00f067aa0ba902b7-01" (Some "k=v")))
  = Ok (mkTraceContext "00-4bf92f3577b34da6a3ce929d0e0e4736-00f067aa0ba902b7-01" (Some "k=v")).
Proof.
  exact (proj1 (trace_context_roundtrip
    "00-4bf92f3577b34da6a3ce929d0e0e4736-00f067aa0ba902b7-01" (Some "k=v") _ ltac:(by vm_compute))).
Defined.
