(* ===== verification/Delivery.v ===== *)
(** * Delivery: consumer and durable names, consumer configuration, deliveries
    and their disposition (crates/rostfrei-messaging-core/src/consume.rs), and
    the [PublishableAddress] interface they are generic in (address.rs).

    A [Duration] is its number of nanoseconds. *)

From S2P Require Export Address Metadata.

Definition MAX_CONSUMER_NAME_BYTES : N := 256.
Definition MAX_CONCURRENCY : N := 1024.
Definition MAX_DELIVERY_ATTEMPTS : N := 1000.
Definition nanos_per_hour : N := 3600000000000.
Definition MAX_PROCESSING_TIMEOUT : N := 24 * nanos_per_hour.
Definition MAX_RETRY_DELAY : N := 24 * nanos_per_hour.
Definition MAX_QUARANTINE_REASON_BYTES : N := 512.
(** publish.rs *)
Definition MAX_MESSAGE_PAYLOAD_BYTES : N := 1024 * 1024.

(** ** Delivery names *)

(** [format!("{application}[--{scope}]--{context}--{purpose}--v{major}")] *)
Definition delivery_text (application : string) (t : TrafficScope) (context purpose : string)
    (major_version : N) : string :=
  match subject_segment t with
  | None => application +:+ "--" +:+ context +:+ "--" +:+ purpose +:+ "--"
      +:+ "v" +:+ n_to_string major_version
  | Some scope => application +:+ "--" +:+ scope +:+ "--" +:+ context +:+ "--" +:+ purpose
      +:+ "--" +:+ "v" +:+ n_to_string major_version
  end.

Definition build_delivery_name (application : string) (t : TrafficScope) (context purpose : string)
    (major_version : N) (field : string) : result string ContractError :=
  let? _ := validate_scope_segment application field in
  let? _ := validate_scope_segment context field in
  let? _ := validate_scope_segment purpose field in
  let value := delivery_text application t context purpose major_version in
  fail! MAX_CONSUMER_NAME_BYTES <? str_len value
    with contract_bounded TooLong field (str_len value) MAX_CONSUMER_NAME_BYTES;
  Ok value.

Definition parse_delivery_name (value field : string) : result string ContractError :=
  let malformed := contract_error InvalidFormat field in
  fail! String.eqb value "" with contract_error Empty field;
  fail! MAX_CONSUMER_NAME_BYTES <? str_len value
    with contract_bounded TooLong field (str_len value) MAX_CONSUMER_NAME_BYTES;
  fail! any_control value with contract_error ControlCharacter field;
  let segment_count := len (split "--" value) in
  let (first, segments) := next (split "--" value) in
  let? application := ok_or first malformed in
  let (opt_second, segments) := next segments in
  let? second := ok_or opt_second malformed in
  let? scoped :=
    if segment_count =? 4 then Ok (Normal, Some second, segments)
    else if (segment_count =? 5) && String.eqb second "test"
    then let (context, segments) := next segments in Ok (Test, context, segments)
    else Err malformed in
  let '(t, context, segments) := scoped in
  let (purpose, segments) := next segments in
  let (version, segments) := next segments in
  fail! is_some (next segments).1 || is_none context || is_none purpose || is_none version
    with malformed;
  let context := default "" context in
  let purpose := default "" purpose in
  let? version := ok_or (strip_prefix_char "v" (default "" version)) malformed in
  let? major_version := ok_or (parse_n u32_max version) malformed in
  fail! negb (String.eqb version (n_to_string major_version)) with malformed;
  let? _ := build_delivery_name application t context purpose major_version field in
  Ok value.

Definition delivery_name_segment (value : string) (index : N) : string :=
  nth_or_empty (split "--" value) index.

Definition delivery_name_traffic_scope (value : string) : TrafficScope :=
  if (len (split "--" value) =? 5) && String.eqb (delivery_name_segment value 1) "test"
  then Test else Normal.

Definition scoped_delivery_name_segment (value : string) (normal_index : N) : string :=
  let index :=
    if bool_decide (delivery_name_traffic_scope value = Test) && (0 <? normal_index)
    then saturating_add usize_max normal_index 1 else normal_index in
  delivery_name_segment value index.

(** [ConsumerName] and [DurableName] share one implementation. *)
Inductive delivery_name_kind := KConsumer | KDurable.
Record delivery_name (k : delivery_name_kind) := DeliveryName { delivery_str : string }.
Arguments DeliveryName {k} delivery_str.
Arguments delivery_str {k} d.
Notation ConsumerName := (delivery_name KConsumer).
Notation DurableName := (delivery_name KDurable).

#[global] Instance delivery_name_eq_dec k : EqDecision (delivery_name k).
Proof. solve_decision. Defined.

Definition delivery_field (k : delivery_name_kind) : string :=
  match k with KConsumer => "consumer name" | KDurable => "durable name" end.

Definition delivery_new_in_scope (k : delivery_name_kind) (application : string)
    (t : TrafficScope) (context purpose : string) (major_version : N)
  : result (delivery_name k) ContractError :=
  rmap DeliveryName
    (build_delivery_name application t context purpose major_version (delivery_field k)).
Definition delivery_parse (k : delivery_name_kind) (value : string)
  : result (delivery_name k) ContractError :=
  rmap DeliveryName (parse_delivery_name value (delivery_field k)).
Definition delivery_application {k} (n : delivery_name k) : string :=
  delivery_name_segment (delivery_str n) 0.
Definition delivery_scope {k} (n : delivery_name k) : TrafficScope :=
  delivery_name_traffic_scope (delivery_str n).
Definition delivery_context {k} (n : delivery_name k) : string :=
  scoped_delivery_name_segment (delivery_str n) 1.

Definition ConsumerName_new_in_scope := delivery_new_in_scope KConsumer.
Definition ConsumerName_new (application context purpose : string) (major_version : N) :=
  ConsumerName_new_in_scope application Normal context purpose major_version.
Definition ConsumerName_parse := delivery_parse KConsumer.
Definition DurableName_new_in_scope := delivery_new_in_scope KDurable.
Definition DurableName_new (application context purpose : string) (major_version : N) :=
  DurableName_new_in_scope application Normal context purpose major_version.
Definition DurableName_parse := delivery_parse KDurable.

(** [Deserialize] reparses the wire string. *)
Definition delivery_deserialize (k : delivery_name_kind) (wire : string)
  : result (delivery_name k) string := map_err ContractError_display (delivery_parse k wire).

(** [BoundedContext::consumer_name] and [durable_name] (scope.rs) *)
Definition bc_delivery_name (k : delivery_name_kind) (c : BoundedContext) (purpose : string)
    (major_version : N) : result (delivery_name k) ContractError :=
  delivery_new_in_scope k (application_str (bc_application c)) (bc_traffic_scope c)
    (context_str (bc_name c)) purpose major_version.
Definition bc_consumer_name := bc_delivery_name KConsumer.
Definition bc_durable_name := bc_delivery_name KDurable.

(** ** Publishable addresses (address.rs) *)

Class PublishableAddress (A : Type) := {
  pa_as_str : A → string;
  pa_application : A → string;
  pa_traffic_scope : A → TrafficScope;
  pa_context : A → string;
  pa_kind : A → AddressKind;
}.

#[global] Instance CommandAddress_publishable : PublishableAddress CommandAddress :=
  {| pa_as_str := addr_str; pa_application := address_application;
     pa_traffic_scope := address_scope; pa_context := address_context;
     pa_kind := λ _, Command |}.
#[global] Instance CommandResponseAddress_publishable : PublishableAddress CommandResponseAddress :=
  {| pa_as_str := addr_str; pa_application := address_application;
     pa_traffic_scope := address_scope; pa_context := address_context;
     pa_kind := λ _, CommandResponse |}.
#[global] Instance IntegrationEventAddress_publishable : PublishableAddress IntegrationEventAddress :=
  {| pa_as_str := addr_str; pa_application := address_application;
     pa_traffic_scope := address_scope; pa_context := address_context;
     pa_kind := λ _, IntegrationEvent |}.

(** ** Consumer configuration *)

Record ConsumerConfig (A : Type) := mkConsumerConfig {
  cc_name : ConsumerName;
  cc_durable_name : DurableName;
  cc_address : A;
  cc_ack_wait : N;
  cc_processing_timeout : N;
  cc_concurrency : N;
  cc_shared_pending_limit : N;
  cc_maximum_delivery_attempts : N;
}.
Arguments mkConsumerConfig {A}.
Arguments cc_name {A}. Arguments cc_durable_name {A}. Arguments cc_address {A}.
Arguments cc_ack_wait {A}. Arguments cc_processing_timeout {A}. Arguments cc_concurrency {A}.
Arguments cc_shared_pending_limit {A}. Arguments cc_maximum_delivery_attempts {A}.

(** [matches!(kind, Command | CommandResponse)] *)
Definition is_command_kind (k : AddressKind) : bool :=
  match k with Command | CommandResponse => true | _ => false end.

Definition ConsumerConfig_new {A} `{PublishableAddress A} (name : ConsumerName)
    (durable_name : DurableName) (address : A) (ack_wait processing_timeout concurrency
    maximum_delivery_attempts : N) : result (ConsumerConfig A) ContractError :=
  fail! negb (String.eqb (delivery_application name) (pa_application address))
        || negb (String.eqb (delivery_application durable_name) (pa_application address))
        || negb (bool_decide (delivery_scope name = pa_traffic_scope address))
        || negb (bool_decide (delivery_scope durable_name = pa_traffic_scope address))
    with contract_error InvalidFormat "consumer application scope";
  fail! negb (String.eqb (delivery_context name) (delivery_context durable_name))
        || (is_command_kind (pa_kind address)
            && negb (String.eqb (delivery_context name) (pa_context address)))
    with contract_error InvalidFormat "consumer bounded-context scope";
  fail! (processing_timeout =? 0) || (MAX_PROCESSING_TIMEOUT <? processing_timeout)
    with contract_error OutOfRange "processing timeout";
  fail! (ack_wait <=? processing_timeout) || (MAX_PROCESSING_TIMEOUT <? ack_wait)
    with contract_error OutOfRange "ack wait";
  fail! (concurrency =? 0) || (MAX_CONCURRENCY <? concurrency)
    with contract_bounded OutOfRange "consumer concurrency" concurrency MAX_CONCURRENCY;
  fail! (maximum_delivery_attempts =? 0) || (MAX_DELIVERY_ATTEMPTS <? maximum_delivery_attempts)
    with contract_error OutOfRange "maximum delivery attempts";
  Ok {| cc_name := name; cc_durable_name := durable_name; cc_address := address;
        cc_ack_wait := ack_wait; cc_processing_timeout := processing_timeout;
        cc_concurrency := concurrency; cc_shared_pending_limit := concurrency;
        cc_maximum_delivery_attempts := maximum_delivery_attempts |}.

Definition with_shared_pending_limit {A} (c : ConsumerConfig A) (limit : N)
  : result (ConsumerConfig A) ContractError :=
  fail! limit <? cc_concurrency c
    with contract_error OutOfRange "shared pending limit must cover worker concurrency";
  Ok {| cc_name := cc_name c; cc_durable_name := cc_durable_name c; cc_address := cc_address c;
        cc_ack_wait := cc_ack_wait c; cc_processing_timeout := cc_processing_timeout c;
        cc_concurrency := cc_concurrency c; cc_shared_pending_limit := limit;
        cc_maximum_delivery_attempts := cc_maximum_delivery_attempts c |}.

(** ** Deliveries *)

Record DeliveryInfo := mkDeliveryInfo {
  di_attempt : N;
  di_pending : N;
  di_source_sequence : N;
  di_consumer_sequence : N;
}.

Definition DeliveryInfo_new (attempt pending source_sequence consumer_sequence : N)
  : result DeliveryInfo ContractError :=
  fail! attempt =? 0 with contract_error OutOfRange "delivery attempt";
  fail! (source_sequence =? 0) || (consumer_sequence =? 0)
    with contract_error OutOfRange "delivery sequence";
  Ok (mkDeliveryInfo attempt pending source_sequence consumer_sequence).

Record MessageDelivery (A : Type) := mkMessageDelivery {
  md_address : A;
  md_message_id : MessageId;
  md_payload : list byte;
  md_metadata : CallerMetadata;
  md_correlation_id : option CorrelationId;
  md_trace_context : option TraceContext;
  md_info : DeliveryInfo;
}.
Arguments mkMessageDelivery {A}. Arguments md_payload {A}.
Arguments md_info {A}. Arguments md_address {A}. Arguments md_message_id {A}. Arguments md_correlation_id {A}.

Definition new_with_transport_context {A} (address : A) (message_id : MessageId)
    (payload : list byte) (metadata : CallerMetadata) (correlation_id : option CorrelationId)
    (trace_context : option TraceContext) (info : DeliveryInfo)
  : result (MessageDelivery A) MessageBuildError :=
  fail! MAX_MESSAGE_PAYLOAD_BYTES <? len payload
    with MessageBuildError_payload_too_large (len payload) MAX_MESSAGE_PAYLOAD_BYTES;
  Ok (mkMessageDelivery address message_id payload metadata correlation_id trace_context info).
Definition MessageDelivery_new_with_trace_context {A} (address : A) (message_id : MessageId)
    (payload : list byte) (metadata : CallerMetadata) (trace_context : option TraceContext)
    (info : DeliveryInfo) : result (MessageDelivery A) MessageBuildError :=
  new_with_transport_context address message_id payload metadata None trace_context info.
Definition MessageDelivery_new {A} (address : A) (message_id : MessageId) (payload : list byte)
    (metadata : CallerMetadata) (info : DeliveryInfo)
  : result (MessageDelivery A) MessageBuildError :=
  new_with_transport_context address message_id payload metadata None None info.

Record RetryDelay := mkRetryDelay { retry_delay : N }.
Definition RetryDelay_new (value : N) : result RetryDelay ContractError :=
  fail! (value =? 0) || (MAX_RETRY_DELAY <? value) with contract_error OutOfRange "retry delay";
  Ok (mkRetryDelay value).

Record QuarantineReason := mkQuarantineReason { quarantine_reason : string }.
Definition QuarantineReason_new (value : string) : result QuarantineReason ContractError :=
  let field := "quarantine reason" in
  fail! String.eqb value "" with contract_error Empty field;
  fail! MAX_QUARANTINE_REASON_BYTES <? str_len value
    with contract_bounded TooLong field (str_len value) MAX_QUARANTINE_REASON_BYTES;
  fail! any_control value with contract_error ControlCharacter field;
  Ok (mkQuarantineReason value).

Inductive DeliveryDisposition :=
| Acknowledge
| RetryAfter (delay : RetryDelay)
| Quarantine (reason : QuarantineReason)
| Terminate.

(** ** The segments of a delivery name *)

Definition delivery_parts_ok (application context purpose : string) : Prop :=
  scope_name application = true ∧ scope_name context = true ∧ scope_name purpose = true.

Lemma build_delivery_name_Ok application t context purpose major field v :
  build_delivery_name application t context purpose major field = Ok v ↔
  v = delivery_text application t context purpose major
  ∧ delivery_parts_ok application context purpose ∧ str_len v <= MAX_CONSUMER_NAME_BYTES.
Proof.
  unfold build_delivery_name, delivery_parts_ok. split.
  - intros H. guards. repeat match goal with H : validate_scope_segment _ _ = Ok _ |- _ =>
      apply validate_scope_segment_unit in H end. done.
  - intros (-> & (Ha & Hc & Hp) & Hl).
    rewrite (proj2 (validate_scope_segment_Ok application _) Ha),
      (proj2 (validate_scope_segment_Ok context _) Hc),
      (proj2 (validate_scope_segment_Ok purpose _) Hp). cbn [rbind].
    by rewrite (proj2 (N.ltb_ge _ _)).
Qed.

Lemma version_no_dash n : contains "--" ("v" +:+ n_to_string n) = false.
Proof.
  apply contains_no_match; [done|]. cbn [String.append].
  assert (∀ s, bytes_all (λ c, is_digit c || (c =? 118)) s = true → no_match "--" s = true) as Hn.
  { induction s as [|c s IH]; [done|]. rewrite bytes_all_cons. intros H. guards.
    cbn [no_match]. rewrite IH, andb_true_r by done. apply negb_true_iff.
    cbn [String.append String.prefix].
    destruct (ascii_dec "-" c) as [<-|]; [done|done]. }
  apply Hn. rewrite bytes_all_cons. cbn.
  eapply bytes_all_impl; [|apply n_to_string_digits]. intros c ->. done.
Qed.

#[export] Hint Resolve version_no_dash : scope.

Lemma split_delivery_text application t context purpose major :
  delivery_parts_ok application context purpose →
  split "--" (delivery_text application t context purpose major) =
  match t with
  | Normal => [application; context; purpose; "v" +:+ n_to_string major]
  | Test => [application; "test"; context; purpose; "v" +:+ n_to_string major]
  end.
Proof.
  intros (Ha & Hc & Hp). unfold delivery_text. destruct t; cbn [subject_segment];
    rewrite !split_segment by (done || auto with scope);
    by rewrite split_last by auto with scope.
Qed.

Definition is_delivery_byte (c : N) : bool := is_kebab c.

Lemma delivery_text_no_control application t context purpose major :
  delivery_parts_ok application context purpose →
  any_control (delivery_text application t context purpose major) = false.
Proof.
  intros (Ha & Hc & Hp). apply kebab_no_control.
  assert (bytes_all is_kebab (n_to_string major) = true) as Hn.
  { eapply bytes_all_impl; [|apply n_to_string_digits]. intros c H. unfold is_kebab.
    by rewrite H, orb_true_r. }
  unfold delivery_text. destruct t; cbn [subject_segment];
    by rewrite !bytes_all_app, (scope_name_kebab _ Ha), (scope_name_kebab _ Hc),
      (scope_name_kebab _ Hp), Hn.
Qed.

Lemma delivery_text_nonempty application t context purpose major :
  delivery_parts_ok application context purpose →
  String.eqb (delivery_text application t context purpose major) "" = false.
Proof. intros (Ha & _ & _). unfold delivery_text. by destruct application, t. Qed.

(** Evaluates the parser on a known list of segments. *)
Ltac delivery_cbn :=
  cbn -[n_to_string parse_n delivery_text build_delivery_name u32_max];
  repeat match goal with
  | |- context [N.of_nat ?k =? ?n] =>
      let b := eval vm_compute in (N.of_nat k =? n) in change (N.of_nat k =? n) with b
  | H : context [N.of_nat ?k =? ?n] |- _ =>
      let b := eval vm_compute in (N.of_nat k =? n) in change (N.of_nat k =? n) with b in H
  end;
  cbn -[n_to_string parse_n delivery_text build_delivery_name u32_max] in *.

Lemma parse_delivery_name_build application t context purpose major field v :
  major <= u32_max →
  build_delivery_name application t context purpose major field = Ok v →
  parse_delivery_name v field = Ok v.
Proof.
  intros Hm Hb. pose proof Hb as (-> & Hp & Hl)%build_delivery_name_Ok.
  unfold parse_delivery_name.
  rewrite delivery_text_nonempty by done. rewrite (proj2 (N.ltb_ge _ _)) by done.
  rewrite delivery_text_no_control, split_delivery_text by done.
  unfold len. destruct t; delivery_cbn; rewrite parse_n_to_string by done; delivery_cbn;
    by rewrite String.eqb_refl, Hb.
Qed.

Lemma delivery_text_segments application t context purpose major :
  delivery_parts_ok application context purpose →
  let v := delivery_text application t context purpose major in
  delivery_name_segment v 0 = application ∧ delivery_name_traffic_scope v = t
  ∧ scoped_delivery_name_segment v 1 = context.
Proof.
  intros Hp v.
  unfold scoped_delivery_name_segment, delivery_name_traffic_scope, delivery_name_segment, v.
  rewrite !split_delivery_text by done. by destruct t.
Qed.

Lemma strip_prefix_char_Some c s r : strip_prefix_char c s = Some r → s = String c r.
Proof.
  destruct s as [|d s]; cbn; [done|]. destruct (Ascii.eqb c d) eqn:E; [|done].
  apply Ascii.eqb_eq in E as ->. by intros [= ->].
Qed.

Lemma parse_n_bound max s n : parse_n max s = Some n → n <= max.
Proof.
  unfold parse_n. destruct (NilZero.uint_of_string _) as [d|]; [|done].
  destruct (_ <=? max) eqn:E; [|done]. bool_step. by intros [= <-].
Qed.

Lemma parse_delivery_name_Ok v field w :
  parse_delivery_name v field = Ok w →
  w = v ∧ ∃ application t context purpose major,
    major <= u32_max ∧ build_delivery_name application t context purpose major field = Ok v.
Proof.
  unfold parse_delivery_name. intros H. guards.
  pose proof (concat_split "--" v ltac:(done)) as Hv. unfold len in H.
  destruct (split "--" v) as [|a [|b [|c [|d [|e [|x l]]]]]] eqn:Es;
    [..|cbn -[N.eqb] in H; rewrite !(proj2 (N.eqb_neq (N.of_nat _) _)) in H by lia; done];
    cbn -[n_to_string parse_n build_delivery_name u32_max] in H; delivery_cbn; guards; try done.
  all: match goal with H : strip_prefix_char _ _ = _ |- _ =>
    apply strip_prefix_char_Some in H; cbn in H; subst end.
  all: match goal with H : build_delivery_name ?a ?t ?c ?p ?m _ = Ok ?w |- _ =>
    pose proof H as Hw; apply build_delivery_name_Ok in Hw as (-> & _ & _); split; [done|];
    exists a, t, c, p, m; split; [by eapply parse_n_bound|exact H] end.
Qed.

(** ** Round trips *)

(** A built consumer or durable name parses back to itself,
    and its accessors return the application, traffic scope and context. *)
Theorem delivery_build_parse k application t context purpose major n :
  major <= u32_max →
  delivery_new_in_scope k application t context purpose major = Ok n →
  delivery_parse k (delivery_str n) = Ok n
  ∧ delivery_application n = application ∧ delivery_scope n = t ∧ delivery_context n = context.
Proof.
  intros Hm (v & Hb & <-)%rmap_Ok. cbn [delivery_str]. split.
  - unfold delivery_parse. by rewrite (parse_delivery_name_build _ _ _ _ _ _ _ Hm Hb).
  - apply build_delivery_name_Ok in Hb as (-> & Hp & _).
    exact (delivery_text_segments application t context purpose major Hp).
Qed.

(** The parser accepts nothing but built names: leading
    zeros, a sign, an out-of-range version or a foreign segment are refused. *)
Lemma delivery_parse_build k v n :
  delivery_parse k v = Ok n →
  delivery_str n = v ∧ ∃ purpose major, major <= u32_max
    ∧ delivery_new_in_scope k (delivery_application n) (delivery_scope n) (delivery_context n)
        purpose major = Ok n.
Proof.
  unfold delivery_parse. intros (w & H & <-)%rmap_Ok.
  apply parse_delivery_name_Ok in H as (-> & app & t & ctx & purpose & major & Hm & Hb).
  split; [done|]. exists purpose, major. split; [done|].
  pose proof Hb as (-> & Hp & _)%build_delivery_name_Ok.
  destruct (delivery_text_segments app t ctx purpose major Hp) as (H1 & H2 & H3).
  unfold delivery_application, delivery_scope, delivery_context; cbn [delivery_str].
  rewrite H1, H2, H3. unfold delivery_new_in_scope. by rewrite Hb.
Qed.

(** ** Consumer configuration *)

Lemma delivery_new_segments k application t context purpose major n :
  delivery_new_in_scope k application t context purpose major = Ok n →
  delivery_application n = application ∧ delivery_scope n = t ∧ delivery_context n = context.
Proof.
  intros (v & (-> & Hp & _)%build_delivery_name_Ok & <-)%rmap_Ok.
  exact (delivery_text_segments application t context purpose major Hp).
Qed.

Lemma address_new_segments k application t context name a :
  address_new_in_scope k application t context name = Ok a →
  address_application a = application ∧ address_scope a = t ∧ address_context a = context.
Proof.
  intros (v & (-> & Hp & _)%build_address_Ok & <-)%rmap_Ok.
  by destruct (address_text_segments k application t context name Hp) as (? & ? & ? & ?).
Qed.

(** The numeric limits of a configuration *)
Definition consumer_limits_ok (ack_wait processing_timeout concurrency attempts : N) : Prop :=
  0 < processing_timeout /\ processing_timeout < ack_wait /\ ack_wait <= MAX_PROCESSING_TIMEOUT
  /\ 0 < concurrency <= MAX_CONCURRENCY /\ 0 < attempts <= MAX_DELIVERY_ATTEMPTS.

(** A command consumer is accepted exactly when its two names
    and its address agree on application, traffic scope and bounded context
    and the limits are in range; a worker bound to test traffic can therefore
    never be configured on a normal durable or address. *)
Theorem consumer_config_accepts name durable address app1 app2 app3 t1 t2 t3 ctx1 ctx2 ctx3
    purpose1 purpose2 major1 major2 command ack timeout conc attempts :
  ConsumerName_new_in_scope app1 t1 ctx1 purpose1 major1 = Ok name →
  DurableName_new_in_scope app2 t2 ctx2 purpose2 major2 = Ok durable →
  CommandAddress_new_in_scope app3 t3 ctx3 command = Ok address →
  is_ok (ConsumerConfig_new name durable address ack timeout conc attempts) = true ↔
  app1 = app3 ∧ app2 = app3 ∧ t1 = t3 ∧ t2 = t3 ∧ ctx1 = ctx3 ∧ ctx2 = ctx3
  ∧ consumer_limits_ok ack timeout conc attempts.
Proof.
  intros (Ha1 & Ht1 & Hc1)%delivery_new_segments (Ha2 & Ht2 & Hc2)%delivery_new_segments
    (Ha3 & Ht3 & Hc3)%address_new_segments.
  unfold ConsumerConfig_new, consumer_limits_ok.
  cbn [pa_application pa_traffic_scope pa_context pa_kind CommandAddress_publishable is_command_kind].
  rewrite Ha1, Ha2, Ha3, Ht1, Ht2, Ht3, Hc1, Hc2, Hc3. rewrite is_ok_true. split.
  - intros [cfg H]. cbn [andb] in H. guards. split_and!; try done; try congruence; lia.
  - intros (-> & -> & -> & -> & -> & -> & ? & ? & ? & [? ?] & [? ?]).
    rewrite !String.eqb_refl, !bool_decide_eq_true_2 by done. cbn [negb orb andb].
    rewrite !(proj2 (N.eqb_neq _ _)), !(proj2 (N.leb_gt _ _)), !(proj2 (N.ltb_ge _ _)) by lia.
    by eexists.
Qed.

(** ** Witnesses *)

Lemma delivery_build_parse_witness :
  delivery_parse KDurable "shop--test--orders--commands--v12"
  = Ok (DeliveryName "shop--test--orders--commands--v12").
Proof.
  exact (proj1 (delivery_build_parse KDurable "shop" Test "orders" "commands" 12
    (DeliveryName "shop--test--orders--commands--v12") ltac:(done) ltac:(by vm_compute))).
Defined.

Lemma delivery_parse_build_witness :
  delivery_str (DeliveryName (k := KConsumer) "shop--orders--commands--v1")
  = "shop--orders--commands--v1".
Proof.
  exact (proj1 (delivery_parse_build KConsumer "shop--orders--commands--v1"
    (DeliveryName "shop--orders--commands--v1") ltac:(by vm_compute))).
Defined.

Lemma consumer_config_accepts_witness :
  is_ok (ConsumerConfig_new (DeliveryName "shop--orders--commands--v1")
    (DeliveryName "shop--orders--commands--v1") (Address (k := Command) "shop.command.orders.place")
    45000000000 30000000000 16 5) = true.
Proof.
  apply (consumer_config_accepts _ _ _ "shop" "shop" "shop" Normal Normal Normal "orders" "orders"
    "orders" "commands" "commands" 1 1 "place" 45000000000 30000000000 16 5);
    [by vm_compute|by vm_compute|by vm_compute|].
  unfold consumer_limits_ok, MAX_PROCESSING_TIMEOUT, nanos_per_hour, MAX_CONCURRENCY,
    MAX_DELIVERY_ATTEMPTS. split_and!; done || lia.
Defined.
