(* ===== verification/Message.v ===== *)
(** * Message: message envelopes and outbound messages
    (crates/rostfrei-messaging-core/src/envelope.rs and publish.rs).

    A payload type has a wire form ([Wire]); an envelope's wire form is a record
    of the wire forms of its fields, and reading it back runs the constructors
    the source runs. Which of several errors a malformed document reports
    depends on the order of its members and is not modelled. *)

From S2P Require Export Serde Contract Address Metadata Delivery.

(** The [Serialize] and [Deserialize] implementations of a type: to its wire
    form, and back with the checks of its constructors *)
Class Wire (T W : Type) := {
  to_wire : T → W;
  of_wire : W → result T string;
}.

Definition plain_wire (T : Type) : Wire T T := {| to_wire := id; of_wire := Ok |}.

Definition MessageBuildErrorKind_display (k : MessageBuildErrorKind) : string :=
  match k with
  | Serialization => "message serialization failed"
  | PayloadTooLarge => "message payload is too large"
  | InvalidMaximum => "message payload maximum is invalid"
  end.

(** [#[error("{kind}")]] *)
Definition MessageBuildError_display (e : MessageBuildError) : string :=
  MessageBuildErrorKind_display (mbe_kind e).

(** ** Envelopes (envelope.rs) *)

Definition MAX_ENVELOPE_BYTES : N := 1024 * 1024.

Record EnvelopeContext := EnvelopeContext_new {
  ctx_message_id : MessageId;
  ctx_schema_version : SchemaVersion;
  ctx_correlation_id : CorrelationId;
  ctx_causation_id : option CausationId;
}.

Definition validate_serialized_size `{JsonCodec A} (value : A) : result unit MessageBuildError :=
  let? bytes := map_err (λ _, MessageBuildError_serialization) (to_vec value) in
  fail! MAX_ENVELOPE_BYTES <? len bytes
    with MessageBuildError_payload_too_large (len bytes) MAX_ENVELOPE_BYTES;
  Ok tt.

(** [checked_actor] *)
Definition checked_actor (version : option N) (actor : option ActorRef)
  : result (option ActorRef) string :=
  match version, actor with
  | None, None | Some 1, None => Ok None
  | Some 2, Some actor => Ok (Some actor)
  | _, _ => Err "unsupported or inconsistent envelope actor metadata"
  end.

(** [Deserialize] of an optional field *)
Definition of_optional {A B} (f : A → result B string) (o : option A) : result (option B) string :=
  transpose (f <$> o).

Definition ActorRef_deserialize (w : ActorWire) : result ActorRef string :=
  map_err ContractError_display (ActorRef_try_from w).

Record CommandEnvelope (T : Type) := mkCommandEnvelope {
  cmd_message_id : MessageId;
  cmd_operation_id : MsgOperationId;
  cmd_schema_version : SchemaVersion;
  cmd_created_at : MessageTimestamp;
  cmd_correlation_id : CorrelationId;
  cmd_causation_id : option CausationId;
  cmd_payload : T;
  cmd_metadata_version : option N;
  cmd_actor : option ActorRef;
}.
Arguments mkCommandEnvelope {T}.
Arguments cmd_message_id {T}.
Arguments cmd_operation_id {T}.
Arguments cmd_schema_version {T}.
Arguments cmd_created_at {T}.
Arguments cmd_correlation_id {T}.
Arguments cmd_causation_id {T}.
Arguments cmd_payload {T}.
Arguments cmd_metadata_version {T}.
Arguments cmd_actor {T}.

(** Its document; [metadata_version] and [actor] are absent when [None]. *)
Record CommandEnvelopeWire (W : Type) := mkCommandEnvelopeWire {
  cew_message_id : string;
  cew_operation_id : string;
  cew_schema_version : N;
  cew_created_at : N;
  cew_correlation_id : string;
  cew_causation_id : option string;
  cew_payload : W;
  cew_metadata_version : option N;
  cew_actor : option ActorWire;
}.
Arguments mkCommandEnvelopeWire {W}.
Arguments cew_message_id {W}.
Arguments cew_operation_id {W}.
Arguments cew_schema_version {W}.
Arguments cew_created_at {W}.
Arguments cew_correlation_id {W}.
Arguments cew_causation_id {W}.
Arguments cew_payload {W}.
Arguments cew_metadata_version {W}.
Arguments cew_actor {W}.

Record IntegrationEventEnvelope (T : Type) := mkIntegrationEventEnvelope {
  iev_message_id : MessageId;
  iev_schema_version : SchemaVersion;
  iev_occurred_at : MessageTimestamp;
  iev_correlation_id : CorrelationId;
  iev_causation_id : option CausationId;
  iev_payload : T;
  iev_metadata_version : option N;
  iev_actor : option ActorRef;
}.
Arguments mkIntegrationEventEnvelope {T}.
Arguments iev_message_id {T}.
Arguments iev_schema_version {T}.
Arguments iev_occurred_at {T}.
Arguments iev_correlation_id {T}.
Arguments iev_causation_id {T}.
Arguments iev_payload {T}.
Arguments iev_metadata_version {T}.
Arguments iev_actor {T}.

Record IntegrationEventEnvelopeWire (W : Type) := mkIntegrationEventEnvelopeWire {
  iew_message_id : string;
  iew_schema_version : N;
  iew_occurred_at : N;
  iew_correlation_id : string;
  iew_causation_id : option string;
  iew_payload : W;
  iew_metadata_version : option N;
  iew_actor : option ActorWire;
}.
Arguments mkIntegrationEventEnvelopeWire {W}.
Arguments iew_message_id {W}.
Arguments iew_schema_version {W}.
Arguments iew_occurred_at {W}.
Arguments iew_correlation_id {W}.
Arguments iew_causation_id {W}.
Arguments iew_payload {W}.
Arguments iew_metadata_version {W}.
Arguments iew_actor {W}.

Section CommandEnvelopes.
Context {T W : Type} `{WT : Wire T W} `{CEJ : JsonCodec (CommandEnvelopeWire W)}.

(** The derived [Serialize] *)
Definition CommandEnvelope_serialize (e : CommandEnvelope T) : CommandEnvelopeWire W :=
  mkCommandEnvelopeWire (id_str (cmd_message_id e)) (id_str (cmd_operation_id e))
    (schema_get (cmd_schema_version e)) (unix_milliseconds (cmd_created_at e))
    (id_str (cmd_correlation_id e)) (id_str <$> cmd_causation_id e) (to_wire (cmd_payload e))
    (cmd_metadata_version e) (ActorWire_of <$> cmd_actor e).

Definition CommandEnvelope_validate (e : CommandEnvelope T) : result unit MessageBuildError :=
  validate_serialized_size (CommandEnvelope_serialize e).

Definition CommandEnvelope_new (context : EnvelopeContext) (operation_id : MsgOperationId)
    (created_at : MessageTimestamp) (payload : T) : result (CommandEnvelope T) MessageBuildError :=
  let envelope := mkCommandEnvelope (ctx_message_id context) operation_id
    (ctx_schema_version context) created_at (ctx_correlation_id context)
    (ctx_causation_id context) payload None None in
  let? _ := CommandEnvelope_validate envelope in
  Ok envelope.

Definition CommandEnvelope_with_actor (e : CommandEnvelope T) (actor : ActorRef)
  : result (CommandEnvelope T) MessageBuildError :=
  let envelope := mkCommandEnvelope (cmd_message_id e) (cmd_operation_id e)
    (cmd_schema_version e) (cmd_created_at e) (cmd_correlation_id e) (cmd_causation_id e)
    (cmd_payload e) (Some 2) (Some actor) in
  let? _ := CommandEnvelope_validate envelope in
  Ok envelope.

Definition CommandEnvelope_deserialize (wire : CommandEnvelopeWire W)
  : result (CommandEnvelope T) string :=
  let? message_id := MessageId_deserialize (cew_message_id wire) in
  let? operation_id := MsgOperationId_deserialize (cew_operation_id wire) in
  let? schema_version := SchemaVersion_deserialize (cew_schema_version wire) in
  let? created_at := MessageTimestamp_deserialize (cew_created_at wire) in
  let? correlation_id := CorrelationId_deserialize (cew_correlation_id wire) in
  let? causation_id := of_optional CausationId_deserialize (cew_causation_id wire) in
  let? payload := of_wire (cew_payload wire) in
  let? actor := of_optional ActorRef_deserialize (cew_actor wire) in
  let? actor := checked_actor (cew_metadata_version wire) actor in
  let? envelope := map_err MessageBuildError_display
    (CommandEnvelope_new (EnvelopeContext_new message_id schema_version correlation_id causation_id)
       operation_id created_at payload) in
  match actor with
  | Some actor => map_err MessageBuildError_display (CommandEnvelope_with_actor envelope actor)
  | None => Ok envelope
  end.

(** [serde_json::from_slice::<CommandEnvelope<T>>] *)
Definition read_command_envelope (bytes : list byte) : result (CommandEnvelope T) string :=
  let? wire := from_slice bytes in CommandEnvelope_deserialize wire.

End CommandEnvelopes.

Section IntegrationEventEnvelopes.
Context {T W : Type} `{WT : Wire T W} `{IEJ : JsonCodec (IntegrationEventEnvelopeWire W)}.

(** The derived [Serialize] *)
Definition IntegrationEventEnvelope_serialize (e : IntegrationEventEnvelope T)
  : IntegrationEventEnvelopeWire W :=
  mkIntegrationEventEnvelopeWire (id_str (iev_message_id e)) (schema_get (iev_schema_version e))
    (unix_milliseconds (iev_occurred_at e)) (id_str (iev_correlation_id e))
    (id_str <$> iev_causation_id e) (to_wire (iev_payload e)) (iev_metadata_version e)
    (ActorWire_of <$> iev_actor e).

Definition IntegrationEventEnvelope_validate (e : IntegrationEventEnvelope T)
  : result unit MessageBuildError :=
  validate_serialized_size (IntegrationEventEnvelope_serialize e).

Definition IntegrationEventEnvelope_new (context : EnvelopeContext) (occurred_at : MessageTimestamp)
    (payload : T) : result (IntegrationEventEnvelope T) MessageBuildError :=
  let envelope := mkIntegrationEventEnvelope (ctx_message_id context) (ctx_schema_version context)
    occurred_at (ctx_correlation_id context) (ctx_causation_id context) payload None None in
  let? _ := IntegrationEventEnvelope_validate envelope in
  Ok envelope.

Definition IntegrationEventEnvelope_with_actor (e : IntegrationEventEnvelope T) (actor : ActorRef)
  : result (IntegrationEventEnvelope T) MessageBuildError :=
  let envelope := mkIntegrationEventEnvelope (iev_message_id e) (iev_schema_version e)
    (iev_occurred_at e) (iev_correlation_id e) (iev_causation_id e) (iev_payload e)
    (Some 2) (Some actor) in
  let? _ := IntegrationEventEnvelope_validate envelope in
  Ok envelope.

Definition IntegrationEventEnvelope_deserialize (wire : IntegrationEventEnvelopeWire W)
  : result (IntegrationEventEnvelope T) string :=
  let? message_id := MessageId_deserialize (iew_message_id wire) in
  let? schema_version := SchemaVersion_deserialize (iew_schema_version wire) in
  let? occurred_at := MessageTimestamp_deserialize (iew_occurred_at wire) in
  let? correlation_id := CorrelationId_deserialize (iew_correlation_id wire) in
  let? causation_id := of_optional CausationId_deserialize (iew_causation_id wire) in
  let? payload := of_wire (iew_payload wire) in
  let? actor := of_optional ActorRef_deserialize (iew_actor wire) in
  let? actor := checked_actor (iew_metadata_version wire) actor in
  let? envelope := map_err MessageBuildError_display
    (IntegrationEventEnvelope_new
       (EnvelopeContext_new message_id schema_version correlation_id causation_id)
       occurred_at payload) in
  match actor with
  | Some actor => map_err MessageBuildError_display (IntegrationEventEnvelope_with_actor envelope actor)
  | None => Ok envelope
  end.

(** [serde_json::from_slice::<IntegrationEventEnvelope<T>>] *)
Definition read_integration_envelope (bytes : list byte)
  : result (IntegrationEventEnvelope T) string :=
  let? wire := from_slice bytes in IntegrationEventEnvelope_deserialize wire.

End IntegrationEventEnvelopes.

(** ** Outbound messages (publish.rs) *)

Record OutboundMessage (A : Type) := mkOutboundMessage {
  om_address : A;
  om_message_id : MessageId;
  om_payload : list byte;
  om_metadata : CallerMetadata;
  om_correlation_id : option CorrelationId;
  om_trace_context : option TraceContext;
}.
Arguments mkOutboundMessage {A}.
Arguments om_address {A}.
Arguments om_message_id {A}.
Arguments om_payload {A}.
Arguments om_metadata {A}.
Arguments om_correlation_id {A}.
Arguments om_trace_context {A}.

#[global] Instance OutboundMessage_eq_dec {A} `{EqDecision A} : EqDecision (OutboundMessage A).
Proof. solve_decision. Defined.

Definition validate_payload_size (actual maximum : N) : result unit MessageBuildError :=
  fail! (maximum =? 0) || (MAX_MESSAGE_PAYLOAD_BYTES <? maximum)
    with MessageBuildError_invalid_maximum maximum;
  fail! maximum <? actual with MessageBuildError_payload_too_large actual maximum;
  Ok tt.

Section Outbound.
Context {A : Type} `{PublishableAddress A}.

Definition OutboundMessage_new_with_maximum_payload_bytes (address : A) (message_id : MessageId)
    (payload : list byte) (maximum : N) : result (OutboundMessage A) MessageBuildError :=
  let? _ := validate_payload_size (len payload) maximum in
  Ok (mkOutboundMessage address message_id payload CallerMetadata_new None None).

Definition OutboundMessage_new (address : A) (message_id : MessageId) (payload : list byte)
  : result (OutboundMessage A) MessageBuildError :=
  OutboundMessage_new_with_maximum_payload_bytes address message_id payload MAX_MESSAGE_PAYLOAD_BYTES.

Definition OutboundMessage_json_with_maximum_payload_bytes `{JsonCodec T} (address : A)
    (message_id : MessageId) (payload : T) (maximum : N)
  : result (OutboundMessage A) MessageBuildError :=
  fail! (maximum =? 0) || (MAX_MESSAGE_PAYLOAD_BYTES <? maximum)
    with MessageBuildError_invalid_maximum maximum;
  let? payload := map_err (λ _, MessageBuildError_serialization) (to_vec payload) in
  OutboundMessage_new_with_maximum_payload_bytes address message_id payload maximum.

Definition OutboundMessage_json `{JsonCodec T} (address : A) (message_id : MessageId) (payload : T)
  : result (OutboundMessage A) MessageBuildError :=
  OutboundMessage_json_with_maximum_payload_bytes address message_id payload MAX_MESSAGE_PAYLOAD_BYTES.

Definition om_with_metadata (m : OutboundMessage A) (metadata : CallerMetadata) :=
  mkOutboundMessage (om_address m) (om_message_id m) (om_payload m) metadata
    (om_correlation_id m) (om_trace_context m).
Definition om_with_correlation_id (m : OutboundMessage A) (correlation_id : CorrelationId) :=
  mkOutboundMessage (om_address m) (om_message_id m) (om_payload m) (om_metadata m)
    (Some correlation_id) (om_trace_context m).
Definition om_with_trace_context (m : OutboundMessage A) (trace_context : TraceContext) :=
  mkOutboundMessage (om_address m) (om_message_id m) (om_payload m) (om_metadata m)
    (om_correlation_id m) (Some trace_context).

End Outbound.

(** [PublishReceipt] *)
Record PublishReceipt := PublishReceipt_new { publish_duplicate : bool }.

(** ** What the envelope constructors and readers establish *)

Lemma identifier_deserialize_ok {k} (x : identifier k) :
  identifier_ok x → identifier_deserialize k (id_str x) = Ok x.
Proof. unfold identifier_ok, identifier_deserialize. by intros ->. Qed.

Lemma identifier_deserialize_Ok k value x :
  identifier_deserialize k value = Ok x → identifier_ok x ∧ id_str x = value.
Proof. unfold identifier_deserialize. rewrite map_err_Ok. apply identifier_new_ok. Qed.

Lemma of_optional_roundtrip {A B} (f : A → result B string) (g : B → A) (o : option B) :
  (∀ x, o = Some x → f (g x) = Ok x) → of_optional f (g <$> o) = Ok o.
Proof. unfold of_optional. destruct o as [x|]; cbn; [|done]. intros H. by rewrite H. Qed.

Lemma of_optional_Ok {A B} (f : A → result B string) o r x :
  of_optional f o = Ok r → r = Some x → ∃ y, o = Some y ∧ f y = Ok x.
Proof.
  unfold of_optional. destruct o as [y|]; cbn; [|intros [= <-]; discriminate].
  destruct (f y) as [z|] eqn:E; cbn; [|discriminate]. intros [= <-] [= ->]. by exists y.
Qed.

Definition schema_ok (v : SchemaVersion) : Prop := SchemaVersion_new (schema_get v) = Ok v.
Definition timestamp_ok (t : MessageTimestamp) : Prop :=
  from_unix_milliseconds (unix_milliseconds t) = Ok t.
Definition optional_ok {A} (P : A → Prop) (o : option A) : Prop := ∀ x, o = Some x → P x.

Lemma schema_deserialize_Ok n v : SchemaVersion_deserialize n = Ok v → schema_ok v ∧ schema_get v = n.
Proof.
  unfold SchemaVersion_deserialize, schema_ok. rewrite map_err_Ok. intros H. pose proof H as H'.
  unfold SchemaVersion_new in H'. guards. by split.
Qed.

Lemma timestamp_deserialize_Ok n t :
  MessageTimestamp_deserialize n = Ok t → timestamp_ok t ∧ unix_milliseconds t = n.
Proof.
  unfold MessageTimestamp_deserialize, timestamp_ok. rewrite map_err_Ok. intros H. pose proof H as H'.
  unfold from_unix_milliseconds in H'. guards. by split.
Qed.

Lemma actor_wire_roundtrip a : actor_ok a → ActorRef_deserialize (ActorWire_of a) = Ok a.
Proof.
  unfold ActorRef_deserialize, ActorRef_try_from, actor_ok. cbn. by intros ->.
Qed.

Lemma actor_deserialize_Ok w a : ActorRef_deserialize w = Ok a → actor_ok a ∧ ActorWire_of a = w.
Proof.
  unfold ActorRef_deserialize, ActorRef_try_from, actor_ok. rewrite map_err_Ok. intros H.
  pose proof H as H'. unfold ActorRef_new in H'. guards. split; [exact H|by destruct w].
Qed.

Record context_valid (c : EnvelopeContext) : Prop := mkContextValid {
  cv_message : identifier_ok (ctx_message_id c);
  cv_schema : schema_ok (ctx_schema_version c);
  cv_correlation : identifier_ok (ctx_correlation_id c);
  cv_causation : optional_ok identifier_ok (ctx_causation_id c);
}.

(** The version that announces attribution is present exactly with an actor. *)
Definition actor_versioned (version : option N) (actor : option ActorRef) : Prop :=
  version = ((λ _, 2) <$> actor) ∧ optional_ok actor_ok actor.

Lemma validate_serialized_size_Ok `{JsonCodec A} (x : A) u :
  validate_serialized_size x = Ok u → ∃ bytes, to_vec x = Ok bytes ∧ len bytes <= MAX_ENVELOPE_BYTES.
Proof.
  unfold validate_serialized_size. intros H0. apply rbind_Ok in H0 as (bytes & Hb & H0).
  apply map_err_Ok in Hb. exists bytes. guards. done.
Qed.

Section CommandEnvelopeFacts.
Context {T W : Type} `{WT : Wire T W} `{CEJ : JsonCodec (CommandEnvelopeWire W)}.

(** [CommandEnvelope::new], then [with_actor] when there is an actor *)
Definition attributed_envelope (e : CommandEnvelope T) (actor : option ActorRef)
  : result (CommandEnvelope T) MessageBuildError :=
  from_option (CommandEnvelope_with_actor e) (Ok e) actor.

Lemma command_envelope_new_Ok context operation created payload e :
  CommandEnvelope_new context operation created payload = Ok e →
  e = mkCommandEnvelope (ctx_message_id context) operation (ctx_schema_version context) created
        (ctx_correlation_id context) (ctx_causation_id context) payload None None.
Proof. unfold CommandEnvelope_new. intros H. by apply rbind_Ok in H as (? & _ & [= <-]). Qed.

Lemma command_envelope_with_actor_Ok e actor e' :
  CommandEnvelope_with_actor e actor = Ok e' →
  e' = mkCommandEnvelope (cmd_message_id e) (cmd_operation_id e) (cmd_schema_version e)
         (cmd_created_at e) (cmd_correlation_id e) (cmd_causation_id e) (cmd_payload e)
         (Some 2) (Some actor).
Proof. unfold CommandEnvelope_with_actor. intros H. by apply rbind_Ok in H as (? & _ & [= <-]). Qed.

Lemma attributed_envelope_Ok e actor e' context operation created payload :
  CommandEnvelope_new context operation created payload = Ok e →
  attributed_envelope e actor = Ok e' →
  e' = mkCommandEnvelope (ctx_message_id context) operation (ctx_schema_version context) created
         (ctx_correlation_id context) (ctx_causation_id context) payload ((λ _, 2) <$> actor) actor.
Proof.
  intros ->%command_envelope_new_Ok. unfold attributed_envelope. destruct actor as [a|]; cbn [from_option].
  - by intros ->%command_envelope_with_actor_Ok.
  - by intros [= <-].
Qed.

(** A document that parses to the wire form of a constructed envelope is read
    back as that envelope. *)
Lemma read_constructed_envelope context operation created payload actor e e' bytes :
  context_valid context → identifier_ok operation → timestamp_ok created →
  of_wire (to_wire payload) = Ok payload → optional_ok actor_ok actor →
  CommandEnvelope_new context operation created payload = Ok e →
  attributed_envelope e actor = Ok e' →
  from_slice bytes = Ok (CommandEnvelope_serialize e') →
  read_command_envelope bytes = Ok e'.
Proof.
  intros [Hm Hs Hc Hca] Ho Ht Hp Ha He He' Hb. pose proof (attributed_envelope_Ok _ _ _ _ _ _ _ He He') as E.
  unfold read_command_envelope. rewrite Hb. cbn [rbind]. rewrite E. unfold CommandEnvelope_deserialize, CommandEnvelope_serialize.
  cbn [cew_message_id cew_operation_id cew_schema_version cew_created_at cew_correlation_id
       cew_causation_id cew_payload cew_metadata_version cew_actor cmd_message_id cmd_operation_id
       cmd_schema_version cmd_created_at cmd_correlation_id cmd_causation_id cmd_payload
       cmd_metadata_version cmd_actor].
  unfold MessageId_deserialize, MsgOperationId_deserialize, CorrelationId_deserialize.
  rewrite !identifier_deserialize_ok by done. cbn [rbind].
  unfold SchemaVersion_deserialize, MessageTimestamp_deserialize. rewrite Hs, Ht. cbn [map_err rbind].
  rewrite of_optional_roundtrip by (intros; apply identifier_deserialize_ok; by apply Hca). cbn [rbind].
  rewrite Hp. cbn [rbind].
  rewrite of_optional_roundtrip by (intros; apply actor_wire_roundtrip; by apply Ha). cbn [rbind].
  destruct context as [mid sv cid ca]; cbn [ctx_message_id ctx_schema_version ctx_correlation_id ctx_causation_id] in *.
  assert (checked_actor ((λ _, 2) <$> actor) actor = Ok actor) as -> by (by destruct actor). cbn [rbind].
  rewrite He. cbn [map_err rbind]. rewrite <- E. unfold attributed_envelope in He'.
  destruct actor as [a|]; cbn [from_option] in He'; [by rewrite He'|by injection He' as <-].
Qed.

Record envelope_valid (e : CommandEnvelope T) : Prop := mkEnvelopeValid {
  ev_message : identifier_ok (cmd_message_id e);
  ev_operation : identifier_ok (cmd_operation_id e);
  ev_schema : schema_ok (cmd_schema_version e);
  ev_created : timestamp_ok (cmd_created_at e);
  ev_correlation : identifier_ok (cmd_correlation_id e);
  ev_causation : optional_ok identifier_ok (cmd_causation_id e);
  ev_actor : actor_versioned (cmd_metadata_version e) (cmd_actor e);
  ev_size : ∃ bytes, to_vec (CommandEnvelope_serialize e) = Ok bytes ∧ len bytes <= MAX_ENVELOPE_BYTES;
}.

Lemma checked_actor_Ok v a r : checked_actor v a = Ok r → r = a.
Proof.
  unfold checked_actor. intros H.
  repeat match type of H with context [match ?x with _ => _ end] => destruct x; try discriminate H end;
    by injection H as <-.
Qed.

(** What a document that is read satisfies, whoever wrote it *)
Lemma read_envelope_valid bytes e : read_command_envelope bytes = Ok e → envelope_valid e.
Proof.
  unfold read_command_envelope. intros H. apply rbind_Ok in H as (w & _ & H).
  unfold CommandEnvelope_deserialize in H.
  apply rbind_Ok in H as (m & Hm & H). apply rbind_Ok in H as (o & Ho & H).
  apply rbind_Ok in H as (s & Hs & H). apply rbind_Ok in H as (t & Ht & H).
  apply rbind_Ok in H as (c & Hc & H). apply rbind_Ok in H as (ca & Hca & H).
  apply rbind_Ok in H as (p & Hp & H). apply rbind_Ok in H as (a & Ha & H).
  apply rbind_Ok in H as (a' & Ha' & H). apply checked_actor_Ok in Ha' as ->.
  apply rbind_Ok in H as (e0 & He0%map_err_Ok & H).
  assert (optional_ok actor_ok a) as Hactor.
  { intros x Hx. destruct (of_optional_Ok _ _ _ _ Ha Hx) as (y & _ & [? _]%actor_deserialize_Ok). done. }
  assert (attributed_envelope e0 a = Ok e) as Hat.
  { unfold attributed_envelope. destruct a; cbn [from_option]; [by apply map_err_Ok in H|by injection H as <-]. }
  pose proof (attributed_envelope_Ok _ _ _ _ _ _ _ He0 Hat) as E.
  assert (∃ u, CommandEnvelope_validate e = Ok u) as (u & Hu).
  { unfold attributed_envelope in Hat. destruct a as [a|]; cbn [from_option] in Hat.
    - pose proof (command_envelope_with_actor_Ok _ _ _ Hat) as ->.
      unfold CommandEnvelope_with_actor in Hat. apply rbind_Ok in Hat as (u & Hu & _). by exists u.
    - injection Hat as <-. pose proof (command_envelope_new_Ok _ _ _ _ _ He0) as ->.
      unfold CommandEnvelope_new in He0. apply rbind_Ok in He0 as (u & Hu & _). by exists u. }
  apply validate_serialized_size_Ok in Hu. subst e.
  split; cbn [cmd_message_id cmd_operation_id cmd_schema_version cmd_created_at cmd_correlation_id
              cmd_causation_id cmd_metadata_version cmd_actor ctx_message_id ctx_schema_version
              ctx_correlation_id ctx_causation_id].
  - by apply identifier_deserialize_Ok in Hm as [? _].
  - by apply identifier_deserialize_Ok in Ho as [? _].
  - by apply schema_deserialize_Ok in Hs as [? _].
  - by apply timestamp_deserialize_Ok in Ht as [? _].
  - by apply identifier_deserialize_Ok in Hc as [? _].
  - intros x Hx. destruct (of_optional_Ok _ _ _ _ Hca Hx) as (y & _ & [? _]%identifier_deserialize_Ok). done.
  - by split.
  - exact Hu.
Qed.

End CommandEnvelopeFacts.
