(* ===== verification/Identity.v ===== *)
(** * Identity: validated identities, content fingerprints, the execution
    metadata of a command and the derived commit and event identities
    (crates/rostfrei-core/src/identity.rs), with the command evidence record
    they carry (completed_outcome.rs).

    SHA-256 is a third-party crate: [Sha256] is the interface of it the code
    relies on. *)

From S2P Require Export Contract Scope.

(** The [sha2] crate: a digest of 32 bytes of any content. *)
Class Sha256 := {
  sha256 : list byte → list byte;
  sha256_length : ∀ content, length (sha256 content) = 32%nat;
}.

Definition MAX_AGGREGATE_TYPE_LEN : N := 128.
Definition MAX_AGGREGATE_ID_LEN : N := 256.
Definition MAX_ID_LEN : N := 128.

Inductive IdentityError :=
| IdentityEmpty (kind : string)
| IdentityTooLong (kind : string) (maximum : N)
| SurroundingWhitespace (kind : string)
| IdentityControlCharacter (kind : string)
| InvalidFingerprint.

#[global] Instance IdentityError_eq_dec : EqDecision IdentityError.
Proof. solve_decision. Defined.

Definition IdentityError_display (e : IdentityError) : string :=
  match e with
  | IdentityEmpty kind => kind +:+ " must not be empty"
  | IdentityTooLong kind maximum =>
    kind +:+ " exceeds its " +:+ n_to_string maximum +:+ "-byte limit"
  | SurroundingWhitespace kind => kind +:+ " must not have leading or trailing whitespace"
  | IdentityControlCharacter kind => kind +:+ " must not contain control characters"
  | InvalidFingerprint => "content fingerprint must be exactly 64 hexadecimal characters"
  end.

(** [validate] *)
Definition validate_identity_text (value kind : string) (maximum : N)
  : result unit IdentityError :=
  fail! String.eqb value "" with IdentityEmpty kind;
  fail! maximum <? str_len value with IdentityTooLong kind maximum;
  fail! negb (String.eqb (trim value) value) with SurroundingWhitespace kind;
  fail! any_control value with IdentityControlCharacter kind;
  Ok tt.

(** [string_identity!]: six newtypes of one shape *)
Inductive ident_kind := KAggregateType | KAggregateId | KEventId | KCommitId | KOperationId
  | KSecurityScope.

Definition ident_label (k : ident_kind) : string :=
  match k with
  | KAggregateType => "aggregate type"
  | KAggregateId => "aggregate id"
  | KEventId => "event id"
  | KCommitId => "commit id"
  | KOperationId => "operation id"
  | KSecurityScope => "security scope"
  end.
Definition ident_maximum (k : ident_kind) : N :=
  match k with
  | KAggregateType => MAX_AGGREGATE_TYPE_LEN
  | KAggregateId => MAX_AGGREGATE_ID_LEN
  | KEventId | KCommitId | KOperationId => MAX_ID_LEN
  | KSecurityScope => 256
  end.

Record ident (k : ident_kind) := Ident { ident_str : string }.
Arguments Ident {k} ident_str.
Arguments ident_str {k} i.
Notation AggregateType := (ident KAggregateType).
Notation AggregateId := (ident KAggregateId).
Notation EventId := (ident KEventId).
Notation CommitId := (ident KCommitId).
Notation OperationId := (ident KOperationId).
Notation SecurityScope := (ident KSecurityScope).

#[global] Instance ident_eq_dec k : EqDecision (ident k).
Proof. solve_decision. Defined.
#[global] Instance ident_countable k : Countable (ident k).
Proof. by refine (inj_countable' ident_str Ident _); intros []. Defined.

Definition ident_new (k : ident_kind) (value : string) : result (ident k) IdentityError :=
  let? _ := validate_identity_text value (ident_label k) (ident_maximum k) in
  Ok (Ident value).

Record StreamId := mkStreamId { aggregate_type : AggregateType; aggregate_id : AggregateId }.

#[global] Instance StreamId_eq_dec : EqDecision StreamId.
Proof. solve_decision. Defined.
#[global] Instance StreamId_countable : Countable StreamId.
Proof.
  by refine (inj_countable' (λ s, (aggregate_type s, aggregate_id s))
               (λ p, mkStreamId p.1 p.2) _); intros [].
Defined.

(** [Display] *)
Definition StreamId_display (s : StreamId) : string :=
  ident_str (aggregate_type s) +:+ ":" +:+ ident_str (aggregate_id s).

(** ** Content fingerprints *)

(** [[u8; 32]]; [fingerprint_ok] is the length the array type fixes. *)
Record ContentFingerprint := from_bytes { fingerprint_bytes : list byte }.
Definition fingerprint_ok (f : ContentFingerprint) : Prop := length (fingerprint_bytes f) = 32%nat.

#[global] Instance ContentFingerprint_eq_dec : EqDecision ContentFingerprint.
Proof. solve_decision. Defined.
#[global] Instance ContentFingerprint_countable : Countable ContentFingerprint.
Proof. by refine (inj_countable' fingerprint_bytes from_bytes _); intros []. Defined.

Definition digest `{Sha256} (content : list byte) : ContentFingerprint := from_bytes (sha256 content).

Definition checked_hex_offset (value base : N) : option N :=
  checked_sub value base ≫= λ offset, checked_add 255 offset 10.

Definition decode_hex (value : N) : option N :=
  if (48 <=? value) && (value <=? 57) then checked_sub value 48
  else if (97 <=? value) && (value <=? 102) then checked_hex_offset value 97
  else if (65 <=? value) && (value <=? 70) then checked_hex_offset value 65
  else None.

(** [as_chunks::<2>()]: the pairs, and whether a byte remains *)
Fixpoint chunks2 (l : list N) : list (N * N) * list N :=
  match l with
  | high :: low :: r => let (pairs, remainder) := chunks2 r in ((high, low) :: pairs, remainder)
  | _ => ([], l)
  end.

Definition decode_pair (p : N * N) : result byte IdentityError :=
  let? high := ok_or (decode_hex p.1) InvalidFingerprint in
  let? low := ok_or (decode_hex p.2) InvalidFingerprint in
  Ok (byte_of (N.lor (N.shiftl high 4) low)).

(** The array starts zeroed and takes one byte per pair. *)
Definition from_hex (value : string) : result ContentFingerprint IdentityError :=
  fail! negb (str_len value =? 64) with InvalidFingerprint;
  let (pairs, remainder) := chunks2 (str_codes value) in
  fail! negb (len remainder =? 0) with InvalidFingerprint;
  let? bytes := try_map decode_pair (take 32 pairs) in
  Ok (from_bytes (bytes ++ drop (length bytes) (replicate 32 x00))).

Definition to_hex (f : ContentFingerprint) : string := hex_of_bytes (fingerprint_bytes f).

(** ** Command evidence (completed_outcome.rs) *)

Record OutcomeEvidence := mkOutcomeEvidence {
  authority_scope : option string;
  created_at_millis : option N;
  fingerprint_version : N;
  command_type : string;
  command_schema : N;
  events_caused_by_command : bool;
  original_causation : option string;
}.

#[global] Instance OutcomeEvidence_eq_dec : EqDecision OutcomeEvidence.
Proof. solve_decision. Defined.
#[global] Instance OutcomeEvidence_countable : Countable OutcomeEvidence.
Proof.
  by refine (inj_countable'
    (λ e, (authority_scope e, created_at_millis e, fingerprint_version e, command_type e,
           command_schema e, events_caused_by_command e, original_causation e))
    (λ '(a, b, c, d, e, f, g), mkOutcomeEvidence a b c d e f g) _); intros [].
Defined.

(** ** Command execution metadata *)

Record CommandExecutionMetadata := mkMetadata {
  cem_actor : option ActorRef;
  cem_security_scope : option SecurityScope;
  cem_outcome_evidence : option OutcomeEvidence;
  cem_bounded_context : option BoundedContextName;
  cem_operation_id : OperationId;
  cem_operation_fingerprint : ContentFingerprint;
  cem_correlation_id : option CorrelationId;
  cem_causation_id : option CausationId;
}.

#[global] Instance CommandExecutionMetadata_eq_dec : EqDecision CommandExecutionMetadata.
Proof. solve_decision. Defined.

Definition CommandExecutionMetadata_new (operation_id : OperationId)
    (operation_fingerprint : ContentFingerprint) : CommandExecutionMetadata :=
  {| cem_actor := None; cem_security_scope := None; cem_outcome_evidence := None;
     cem_bounded_context := None; cem_operation_id := operation_id;
     cem_operation_fingerprint := operation_fingerprint; cem_correlation_id := None;
     cem_causation_id := None |}.

Definition with_actor (m : CommandExecutionMetadata) (a : ActorRef) :=
  mkMetadata (Some a) (cem_security_scope m) (cem_outcome_evidence m) (cem_bounded_context m)
    (cem_operation_id m) (cem_operation_fingerprint m) (cem_correlation_id m) (cem_causation_id m).
Definition with_bounded_context (m : CommandExecutionMetadata) (c : BoundedContextName) :=
  mkMetadata (cem_actor m) (cem_security_scope m) (cem_outcome_evidence m) (Some c)
    (cem_operation_id m) (cem_operation_fingerprint m) (cem_correlation_id m) (cem_causation_id m).
Definition with_correlation_id (m : CommandExecutionMetadata) (c : CorrelationId) :=
  mkMetadata (cem_actor m) (cem_security_scope m) (cem_outcome_evidence m)
    (cem_bounded_context m) (cem_operation_id m) (cem_operation_fingerprint m) (Some c)
    (cem_causation_id m).
Definition with_causation_id (m : CommandExecutionMetadata) (c : CausationId) :=
  mkMetadata (cem_actor m) (cem_security_scope m) (cem_outcome_evidence m)
    (cem_bounded_context m) (cem_operation_id m) (cem_operation_fingerprint m)
    (cem_correlation_id m) (Some c).
Definition with_security_scope (m : CommandExecutionMetadata) (s : SecurityScope) :=
  mkMetadata (cem_actor m) (Some s) (cem_outcome_evidence m) (cem_bounded_context m)
    (cem_operation_id m) (cem_operation_fingerprint m) (cem_correlation_id m) (cem_causation_id m).
Definition with_outcome_evidence (m : CommandExecutionMetadata) (e : OutcomeEvidence) :=
  mkMetadata (cem_actor m) (cem_security_scope m) (Some e) (cem_bounded_context m)
    (cem_operation_id m) (cem_operation_fingerprint m) (cem_correlation_id m) (cem_causation_id m).

(** [type_name] is the compiler's name of the command type. *)
Definition with_default_outcome_evidence (type_name : string) (m : CommandExecutionMetadata) :=
  match cem_outcome_evidence m with
  | Some _ => m
  | None =>
    with_outcome_evidence m
      {| authority_scope := None; created_at_millis := None; fingerprint_version := 1;
         command_type := "rust:" +:+ type_name; command_schema := 1;
         events_caused_by_command := false;
         original_causation := id_str <$> cem_causation_id m |}
  end.

Definition effective_correlation_id (m : CommandExecutionMetadata)
  : result CorrelationId ContractError :=
  match cem_correlation_id m with
  | None => CorrelationId_new (ident_str (cem_operation_id m))
  | Some c => Ok c
  end.

Definition normalized (m : CommandExecutionMetadata)
  : result CommandExecutionMetadata ContractError :=
  let? c := effective_correlation_id m in Ok (with_correlation_id m c).

(** ** Derived identities *)


(** The bytes a hasher has taken after a sequence of [hash_part] calls are the
    frames of the parts; [finalize] digests them. *)
Definition commit_preimage (s : StreamId) (operation : OperationId) : list (list byte) :=
  [as_bytes "rostfrei:commit:v1"; as_bytes (ident_str (aggregate_type s));
   as_bytes (ident_str (aggregate_id s)); as_bytes (ident_str operation)].
Definition derive_commit_id `{Sha256} (s : StreamId) (operation : OperationId) : CommitId :=
  Ident ("commit:" +:+ hex_of_bytes (sha256 (frames (commit_preimage s operation)))).

Definition event_preimage (commit : CommitId) (ordinal : N) : list (list byte) :=
  [as_bytes "rostfrei:event:v1"; as_bytes (ident_str commit); be_bytes 4 ordinal].
Definition derive_event_id `{Sha256} (commit : CommitId) (ordinal : N) : EventId :=
  Ident ("event:" +:+ hex_of_bytes (sha256 (frames (event_preimage commit ordinal)))).

(** ** What the constructors accept *)

(** A value [ident_new] accepts: Rust's privacy makes every identity one. *)
Definition ident_ok {k} (x : ident k) : Prop := ident_new k (ident_str x) = Ok x.
Definition stream_ok (s : StreamId) : Prop := ident_ok (aggregate_type s) ∧ ident_ok (aggregate_id s).

Lemma ident_ok_len {k} (x : ident k) : ident_ok x → 0 < str_len (ident_str x) <= 256.
Proof.
  unfold ident_ok, ident_new, validate_identity_text. intros H. guards.
  assert (ident_maximum k <= 256) by (by destruct k).
  split; [|lia]. apply N.neq_0_lt_0. by rewrite str_len_0.
Qed.

Lemma ident_ok_framable {k} (x : ident k) : ident_ok x → framable (as_bytes (ident_str x)).
Proof. intros H%ident_ok_len. unfold framable, u64_max. rewrite len_as_bytes. lia. Qed.

#[export] Hint Resolve ident_ok_framable : identity.

(** A graphic ASCII value within the limit is accepted. *)
Lemma ident_graphic_ok {k} (x : ident k) :
  ident_str x ≠ "" → str_len (ident_str x) <= ident_maximum k →
  bytes_all is_graphic (ident_str x) = true → ident_ok x.
Proof.
  intros Hne Hl Hg. unfold ident_ok, ident_new, validate_identity_text.
  rewrite (proj2 (String.eqb_neq _ _)), (proj2 (N.ltb_ge _ _)) by done.
  rewrite trim_graphic, String.eqb_refl, graphic_no_control by done. by destruct x.
Qed.

(** ** Hexadecimal *)

Lemma length_hex_of_bytes bs : String.length (hex_of_bytes bs) = (2 * length bs)%nat.
Proof. induction bs as [|b bs IH]; cbn [hex_of_bytes String.length length]; [done|]. lia. Qed.

Lemma hex_digit_cases n : n < 16 → ∃ c, N_of_ascii (hex_digit n) = c
  ∧ decode_hex c = Some n ∧ is_graphic c = true ∧ to_lower_byte c = c.
Proof.
  intros Hn. assert (n ∈ [0;1;2;3;4;5;6;7;8;9;10;11;12;13;14;15]) as Hin.
  { rewrite !elem_of_cons. lia. }
  rewrite !elem_of_cons, elem_of_nil in Hin.
  destruct_or?; subst; try done; eexists; split_and!; by vm_compute.
Qed.

Lemma nibbles b : Byte.to_N b = N.lor (N.shiftl (N.shiftr (Byte.to_N b) 4) 4) (N.land (Byte.to_N b) 15)
  ∧ N.shiftr (Byte.to_N b) 4 < 16 ∧ N.land (Byte.to_N b) 15 < 16.
Proof. destruct b; by vm_compute. Qed.

Lemma hex_graphic bs : bytes_all is_graphic (hex_of_bytes bs) = true.
Proof.
  induction bs as [|b bs IH]; [done|]. cbn [hex_of_bytes]. rewrite !bytes_all_cons.
  destruct (nibbles b) as (_ & H1 & H2).
  destruct (hex_digit_cases _ H1) as (? & -> & _ & -> & _).
  destruct (hex_digit_cases _ H2) as (? & -> & _ & -> & _). done.
Qed.

Lemma chunks2_hex bs :
  chunks2 (str_codes (hex_of_bytes bs))
  = (map (λ b, (N_of_ascii (hex_digit (N.shiftr (Byte.to_N b) 4)),
                N_of_ascii (hex_digit (N.land (Byte.to_N b) 15)))) bs, []).
Proof.
  induction bs as [|b bs IH]; [done|]. cbn [hex_of_bytes map].
  rewrite !str_codes_cons. cbn [chunks2]. by rewrite IH.
Qed.

Lemma decode_pair_hex b :
  decode_pair (N_of_ascii (hex_digit (N.shiftr (Byte.to_N b) 4)),
               N_of_ascii (hex_digit (N.land (Byte.to_N b) 15))) = Ok b.
Proof.
  unfold decode_pair; cbn [fst snd]. destruct (nibbles b) as (Hb & H1 & H2).
  destruct (hex_digit_cases _ H1) as (? & -> & -> & _).
  destruct (hex_digit_cases _ H2) as (? & -> & -> & _). cbn [ok_or rbind].
  by rewrite <- Hb, byte_of_to_N.
Qed.

Lemma hex_of_bytes_inj a b : hex_of_bytes a = hex_of_bytes b → a = b.
Proof.
  intros E. apply (f_equal (λ s, chunks2 (str_codes s))) in E. rewrite !chunks2_hex in E.
  injection E as E. revert b E; induction a as [|x a IH]; intros [|y b]; cbn; try done.
  intros E. injection E as E1 E2 E3. f_equal; [|by apply IH].
  pose proof (decode_pair_hex x) as Hx. rewrite E1, E2, decode_pair_hex in Hx. congruence.
Qed.

Lemma from_hex_to_hex f : fingerprint_ok f → from_hex (to_hex f) = Ok f.
Proof.
  unfold fingerprint_ok, from_hex, to_hex. destruct f as [bs]; cbn [fingerprint_bytes]. intros Hl.
  assert (str_len (hex_of_bytes bs) = 64) as -> by (unfold str_len; rewrite length_hex_of_bytes; lia).
  rewrite N.eqb_refl, chunks2_hex. cbn [negb len length N.of_nat N.eqb].
  rewrite take_ge by (rewrite length_map; lia).
  rewrite (proj2 (try_map_Ok decode_pair _ bs)).
  - cbn [rbind]. rewrite drop_ge by (rewrite length_replicate; lia). by rewrite app_nil_r.
  - clear Hl. induction bs as [|b bs IH]; constructor; [apply decode_pair_hex|done].
Qed.

(** The 64 hexadecimal digits a fingerprint is displayed as
    are read back to the same 32 bytes. *)
Theorem fingerprint_hex_roundtrip f :
  fingerprint_ok f → from_hex (to_hex f) = Ok f.
Proof. apply from_hex_to_hex. Qed.

(** ** Derived identities *)

Section Derived.
Context `{Sha256}.

(** SHA-256 collision resistance, for the two contents in question. *)
Definition no_collision (x y : list byte) : Prop := sha256 x = sha256 y → x = y.

Lemma commit_preimage_framable s o :
  stream_ok s → ident_ok o → Forall framable (commit_preimage s o).
Proof.
  intros [Ht Hi] Ho. unfold commit_preimage. repeat constructor; auto with identity; done.
Qed.

Lemma event_preimage_framable c n :
  str_len (ident_str c) <= 256 → Forall framable (event_preimage c n).
Proof.
  intros Hc. unfold event_preimage, framable, u64_max.
  repeat constructor; [done| |].
  - rewrite len_as_bytes. lia.
  - unfold len. rewrite length_be_bytes. done.
Qed.

Lemma derive_commit_id_inj s1 s2 o1 o2 :
  stream_ok s1 → stream_ok s2 → ident_ok o1 → ident_ok o2 →
  no_collision (frames (commit_preimage s1 o1)) (frames (commit_preimage s2 o2)) →
  derive_commit_id s1 o1 = derive_commit_id s2 o2 → s1 = s2 ∧ o1 = o2.
Proof.
  intros Hs1 Hs2 Ho1 Ho2 Hnc [= E%hex_of_bytes_inj%Hnc].
  apply frames_inj in E; [|by apply commit_preimage_framable..].
  injection E as E1%as_bytes_inj E2%as_bytes_inj E3%as_bytes_inj.
  destruct s1 as [[] []], s2 as [[] []], o1, o2; cbn in *. by subst.
Qed.

Lemma derived_commit_len s o : str_len (ident_str (derive_commit_id s o)) = 71.
Proof.
  unfold derive_commit_id; cbn [ident_str]. rewrite str_len_app. unfold str_len at 2.
  by rewrite length_hex_of_bytes, sha256_length.
Qed.
Lemma derived_event_len c n : str_len (ident_str (derive_event_id c n)) = 70.
Proof.
  unfold derive_event_id; cbn [ident_str]. rewrite str_len_app. unfold str_len at 2.
  by rewrite length_hex_of_bytes, sha256_length.
Qed.

Lemma derive_event_id_inj c1 c2 n1 n2 :
  str_len (ident_str c1) <= 256 → str_len (ident_str c2) <= 256 →
  n1 <= u32_max → n2 <= u32_max →
  no_collision (frames (event_preimage c1 n1)) (frames (event_preimage c2 n2)) →
  derive_event_id c1 n1 = derive_event_id c2 n2 → c1 = c2 ∧ n1 = n2.
Proof.
  intros Hc1 Hc2 Hn1 Hn2 Hnc [= E%hex_of_bytes_inj%Hnc].
  apply frames_inj in E; [|by apply event_preimage_framable..].
  pose proof (f_equal (λ l, nth 1 l []) E) as E1. pose proof (f_equal (λ l, nth 2 l []) E) as E2.
  cbn [nth event_preimage] in E1, E2.
  apply as_bytes_inj in E1. split; [destruct c1, c2; cbn in *; by subst|].
  apply (be_bytes_inj 4) in E2; [done|unfold u32_max in *; cbn; lia..].
Qed.

Lemma derive_commit_id_ok s o : ident_ok (derive_commit_id s o).
Proof.
  apply ident_graphic_ok.
  - done.
  - rewrite derived_commit_len. done.
  - unfold derive_commit_id; cbn [ident_str]. by rewrite bytes_all_app, hex_graphic.
Qed.
Lemma derive_event_id_ok c n : ident_ok (derive_event_id c n).
Proof.
  apply ident_graphic_ok.
  - done.
  - rewrite derived_event_len. done.
  - unfold derive_event_id; cbn [ident_str]. by rewrite bytes_all_app, hex_graphic.
Qed.

(** Derived identities, built past the validating constructors,
    are still valid ones, and unless SHA-256 collides on the two preimages
    the event identity determines its stream, its operation and its ordinal. *)
Theorem derived_identity_unique s1 s2 o1 o2 n1 n2 :
  stream_ok s1 → stream_ok s2 → ident_ok o1 → ident_ok o2 → n1 <= u32_max → n2 <= u32_max →
  no_collision (frames (commit_preimage s1 o1)) (frames (commit_preimage s2 o2)) →
  no_collision (frames (event_preimage (derive_commit_id s1 o1) n1))
    (frames (event_preimage (derive_commit_id s2 o2) n2)) →
  ident_ok (derive_commit_id s1 o1) ∧ ident_ok (derive_event_id (derive_commit_id s1 o1) n1)
  ∧ (derive_event_id (derive_commit_id s1 o1) n1 = derive_event_id (derive_commit_id s2 o2) n2 →
     s1 = s2 ∧ o1 = o2 ∧ n1 = n2).
Proof.
  intros Hs1 Hs2 Ho1 Ho2 Hn1 Hn2 Hc He.
  split_and!; [apply derive_commit_id_ok|apply derive_event_id_ok|].
  intros [Ec ->]%derive_event_id_inj; try done; [|rewrite derived_commit_len; lia..].
  by apply derive_commit_id_inj in Ec as [-> ->].
Qed.
End Derived.

(** ** Correlation *)

(** Normalisation fixes the correlation of an execution: an
    explicit one is kept, an omitted one becomes the operation identity, and
    nothing else changes; it is idempotent, and it fails only where the
    operation identity cannot be a correlation identity. *)
Lemma normalized_spec m :
  ident_ok (cem_operation_id m) →
  match normalized m with
  | Ok m' =>
    cem_correlation_id m' = Some (default (Identifier (ident_str (cem_operation_id m)))
                                    (cem_correlation_id m))
    ∧ normalized m' = Ok m' ∧ m' = with_correlation_id m
        (default (Identifier (ident_str (cem_operation_id m))) (cem_correlation_id m))
  | Err _ => cem_correlation_id m = None
             ∧ bytes_all is_graphic (ident_str (cem_operation_id m)) = false
  end.
Proof.
  intros Ho. unfold normalized, effective_correlation_id.
  destruct (cem_correlation_id m) as [c|] eqn:Ec; cbn [rbind]; [done|].
  pose proof (ident_ok_len _ Ho) as Hl.
  destruct (CorrelationId_new _) as [c|e] eqn:E; cbn [rbind].
  - apply identifier_new_Ok in E as (-> & _). done.
  - split; [done|]. destruct (bytes_all _ _) eqn:Eg; [|done]. exfalso.
    unfold CorrelationId_new in E.
    rewrite (proj2 (identifier_new_Ok KCorrelationId _ (Identifier (ident_str (cem_operation_id m))))) in E; [done|].
    split_and!; try done; [|unfold MAX_IDENTIFIER_BYTES; lia].
    intros E0. rewrite E0 in Hl. change (str_len "") with 0 in Hl. lia.
Qed.

(** ** Witnesses *)

(** A digest to evaluate with: the last 32 bytes of the content, padded. *)
Definition tail_digest : Sha256.
Proof.
  refine {| sha256 := λ x, take 32 (reverse x ++ replicate 32 x00) |}.
  intros x. rewrite length_take, length_app, length_replicate. lia.
Defined.

Lemma derived_identity_unique_witness :
  let H := tail_digest in
  ident_ok (derive_event_id (derive_commit_id (mkStreamId (Ident "order") (Ident "1")) (Ident "a")) 0).
Proof.
  refine (let H := tail_digest in _).
  refine (proj1 (proj2 (derived_identity_unique (mkStreamId (Ident "order") (Ident "1"))
    (mkStreamId (Ident "order") (Ident "2")) (Ident "a") (Ident "b") 0 1 _ _ _ _ _ _ _ _)));
    first [done | by vm_compute | by split; vm_compute | intros E; exfalso; revert E; by vm_compute].
Defined.

Lemma fingerprint_hex_roundtrip_witness :
  from_hex (to_hex (from_bytes (replicate 32 xab))) = Ok (from_bytes (replicate 32 xab)).
Proof. apply fingerprint_hex_roundtrip. done. Defined.

Lemma normalized_spec_witness :
  normalized (CommandExecutionMetadata_new (Ident "op-1") (from_bytes (replicate 32 x00)))
  = Ok (with_correlation_id (CommandExecutionMetadata_new (Ident "op-1")
          (from_bytes (replicate 32 x00))) (Identifier "op-1")).
Proof.
  exact (proj1 (proj2 (normalized_spec (with_correlation_id (CommandExecutionMetadata_new
    (Ident "op-1") (from_bytes (replicate 32 x00))) (Identifier "op-1")) ltac:(by vm_compute)))).
Defined.
