(* ===== verification/Response.v ===== *)
(** * Response: durable command responses and their addresses
    (crates/rostfrei-messaging-core/src/command_response.rs), with the
    application error codes they share with queries (query.rs). *)

From S2P Require Export Serde Message Contract Identity.

(** ** Application error codes (query.rs) *)

Definition MAX_APPLICATION_ERROR_CODE_BYTES : N := 128.

Record ApplicationErrorCode := mkApplicationErrorCode { error_code_str : string }.

Definition is_error_code_byte (c : N) : bool :=
  is_alphanumeric c || (c =? 46) || (c =? 95) || (c =? 45).

Definition ApplicationErrorCode_new (value : string) : result ApplicationErrorCode ContractError :=
  let field := "application error code" in
  fail! String.eqb value "" with contract_error Empty field;
  fail! MAX_APPLICATION_ERROR_CODE_BYTES <? str_len value
    with contract_bounded TooLong field (str_len value) MAX_APPLICATION_ERROR_CODE_BYTES;
  let starts_and_ends_with_alphanumeric :=
    is_some_and is_alphanumeric (head (str_codes value))
    && is_some_and is_alphanumeric (last (str_codes value)) in
  fail! negb starts_and_ends_with_alphanumeric || negb (bytes_all is_error_code_byte value)
    with contract_error InvalidFormat field;
  Ok (mkApplicationErrorCode value).

Definition ApplicationErrorCode_deserialize (wire : string) : result ApplicationErrorCode string :=
  map_err ContractError_display (ApplicationErrorCode_new wire).

(** ** Rejections *)

Definition MAX_COMMAND_REJECTION_MESSAGE_BYTES : N := 1024.
Definition nanos_per_second : N := 1000000000.
Definition MAX_COMMAND_RESPONSE_TIMEOUT : N := 24 * nanos_per_hour.
Definition COMMAND_RESPONSE_SCHEMA_VERSION : N := 1.
Definition TECHNICAL_RESPONSE_SCHEMA_VERSION : N := 2.
Definition RESPONSE_ADDRESS_HASH_DOMAIN : string := "rostfrei.command-response-address.v1".

Inductive CommandRejectionClassification :=
| RejectInvalidRequest | RejectUnauthorized | RejectForbidden | RejectNotFound | RejectConflict
| RejectRateLimited | RejectUnavailable | RejectInternal.

#[global] Instance CommandRejectionClassification_eq_dec : EqDecision CommandRejectionClassification.
Proof. solve_decision. Defined.

Definition validate_rejection_message (message : string) : result unit ContractError :=
  let field := "command rejection message" in
  fail! String.eqb message "" with contract_error Empty field;
  fail! MAX_COMMAND_REJECTION_MESSAGE_BYTES <? str_len message
    with contract_bounded TooLong field (str_len message) MAX_COMMAND_REJECTION_MESSAGE_BYTES;
  fail! any_control message with contract_error ControlCharacter field;
  Ok tt.

Section Responses.
Context `{JT : JsonText}.

Record CommandRejection := mkCommandRejection {
  rej_classification : CommandRejectionClassification;
  rej_code : ApplicationErrorCode;
  rej_message : string;
  rej_details : option JValue;
}.

Definition CommandRejection_new (classification : CommandRejectionClassification)
    (code : ApplicationErrorCode) (message : string) (details : option JValue)
  : result CommandRejection ContractError :=
  let? _ := validate_rejection_message message in
  Ok (mkCommandRejection classification code message details).

Record CommandRejectionWire := mkCommandRejectionWire {
  rjw_classification : CommandRejectionClassification;
  rjw_code : string;
  rjw_message : string;
  rjw_details : option JValue;
}.

Definition CommandRejection_serialize (r : CommandRejection) : CommandRejectionWire :=
  mkCommandRejectionWire (rej_classification r) (error_code_str (rej_code r)) (rej_message r)
    (rej_details r).
Definition CommandRejection_deserialize (w : CommandRejectionWire) : result CommandRejection string :=
  let? code := ApplicationErrorCode_deserialize (rjw_code w) in
  map_err ContractError_display
    (CommandRejection_new (rjw_classification w) code (rjw_message w) (rjw_details w)).

(** ** Outcomes and responses *)

Inductive CommandResponseOutcome :=
| ResponseAccepted
| ResponseRejected (rejection : CommandRejection)
| ResponseExecutionFailed (failure : ExecutionFailure).

Inductive CommandResponseOutcomeWire :=
| WireAccepted
| WireRejected (rejection : CommandRejectionWire)
| WireExecutionFailed (failure : ExecutionFailure).

Definition outcome_serialize (o : CommandResponseOutcome) : CommandResponseOutcomeWire :=
  match o with
  | ResponseAccepted => WireAccepted
  | ResponseRejected rejection => WireRejected (CommandRejection_serialize rejection)
  | ResponseExecutionFailed failure => WireExecutionFailed failure
  end.
Definition outcome_deserialize (w : CommandResponseOutcomeWire) : result CommandResponseOutcome string :=
  match w with
  | WireAccepted => Ok ResponseAccepted
  | WireRejected rejection => rmap ResponseRejected (CommandRejection_deserialize rejection)
  | WireExecutionFailed failure => Ok (ResponseExecutionFailed failure)
  end.

Record CommandResponse := mkCommandResponse {
  rsp_message_id : MessageId;
  rsp_command_message_id : MessageId;
  rsp_command_address : CommandAddress;
  rsp_operation_id : MsgOperationId;
  rsp_schema_version : SchemaVersion;
  rsp_correlation_id : CorrelationId;
  rsp_outcome : CommandResponseOutcome;
}.

(** The fields of the document *)
Record CommandResponseWire := mkCommandResponseWire {
  rsw_message_id : string;
  rsw_command_message_id : string;
  rsw_command_address : string;
  rsw_operation_id : string;
  rsw_schema_version : N;
  rsw_correlation_id : string;
  rsw_outcome : CommandResponseOutcomeWire;
}.

(** [ResponseExtensions] of the response and of its outcome: whether the
    document has members the protocol does not name. *)
Record ResponseExtensions := mkExtensions { response_extended : bool; outcome_extended : bool }.

(** A response without a JSON value of the domain in it: its text is plain data.
    [details] of a rejection are read back as absent when they are [null], and
    only within the limits of [readable]. *)
Definition without_details (w : CommandResponseWire) : bool :=
  match rsw_outcome w with
  | WireRejected rejection => is_none (rjw_details rejection)
  | _ => true
  end.

(** serde_json over responses: plain data is read back, and what is written has no
    unknown members. *)
Class ResponseJson := {
  response_to_vec : CommandResponseWire → result (list byte) string;
  response_from_slice : list byte → result (CommandResponseWire * ResponseExtensions) string;
  response_json_roundtrip : ∀ w bytes, without_details w = true →
    response_to_vec w = Ok bytes → response_from_slice bytes = Ok (w, mkExtensions false false);
}.
Context `{RSJ : ResponseJson}.

Definition CommandResponse_serialize (r : CommandResponse) : CommandResponseWire :=
  mkCommandResponseWire (id_str (rsp_message_id r)) (id_str (rsp_command_message_id r))
    (addr_str (rsp_command_address r)) (id_str (rsp_operation_id r))
    (schema_get (rsp_schema_version r)) (id_str (rsp_correlation_id r))
    (outcome_serialize (rsp_outcome r)).

Definition CommandResponse_validate (r : CommandResponse) : result unit MessageBuildError :=
  let? bytes := map_err (λ _, MessageBuildError_serialization)
    (response_to_vec (CommandResponse_serialize r)) in
  fail! MAX_ENVELOPE_BYTES <? len bytes
    with MessageBuildError_payload_too_large (len bytes) MAX_ENVELOPE_BYTES;
  Ok tt.

Definition expected_schema_version (outcome : CommandResponseOutcome) : N :=
  match outcome with
  | ResponseExecutionFailed _ => TECHNICAL_RESPONSE_SCHEMA_VERSION
  | _ => COMMAND_RESPONSE_SCHEMA_VERSION
  end.

Definition CommandResponse_new (message_id command_message_id : MessageId)
    (command_address : CommandAddress) (operation_id : MsgOperationId)
    (schema_version : SchemaVersion) (correlation_id : CorrelationId)
    (outcome : CommandResponseOutcome) : result CommandResponse MessageBuildError :=
  fail! negb (schema_get schema_version =? expected_schema_version outcome)
    with MessageBuildError_serialization;
  let response := mkCommandResponse message_id command_message_id command_address operation_id
    schema_version correlation_id outcome in
  let? _ := CommandResponse_validate response in
  Ok response.

Definition command_response_schema_version : result SchemaVersion MessageBuildError :=
  map_err (λ _, MessageBuildError_serialization) (SchemaVersion_new COMMAND_RESPONSE_SCHEMA_VERSION).

Definition CommandResponse_execution_failed (message_id command_message_id : MessageId)
    (command_address : CommandAddress) (operation_id : MsgOperationId)
    (correlation_id : CorrelationId) (failure : ExecutionFailure)
  : result CommandResponse MessageBuildError :=
  let? version := map_err (λ _, MessageBuildError_serialization)
    (SchemaVersion_new TECHNICAL_RESPONSE_SCHEMA_VERSION) in
  CommandResponse_new message_id command_message_id command_address operation_id version
    correlation_id (ResponseExecutionFailed failure).

Definition CommandResponse_accepted (message_id command_message_id : MessageId)
    (command_address : CommandAddress) (operation_id : MsgOperationId)
    (correlation_id : CorrelationId) : result CommandResponse MessageBuildError :=
  let? version := command_response_schema_version in
  CommandResponse_new message_id command_message_id command_address operation_id version
    correlation_id ResponseAccepted.

Definition CommandResponse_rejected (message_id command_message_id : MessageId)
    (command_address : CommandAddress) (operation_id : MsgOperationId)
    (correlation_id : CorrelationId) (rejection : CommandRejection)
  : result CommandResponse MessageBuildError :=
  let? version := command_response_schema_version in
  CommandResponse_new message_id command_message_id command_address operation_id version
    correlation_id (ResponseRejected rejection).

Definition CommandResponse_deserialize (wire : CommandResponseWire * ResponseExtensions)
  : result CommandResponse string :=
  let (wire, extensions) := wire in
  let? message_id := MessageId_deserialize (rsw_message_id wire) in
  let? command_message_id := MessageId_deserialize (rsw_command_message_id wire) in
  let? command_address := CommandAddress_deserialize (rsw_command_address wire) in
  let? operation_id := MsgOperationId_deserialize (rsw_operation_id wire) in
  let? schema_version := SchemaVersion_deserialize (rsw_schema_version wire) in
  let? correlation_id := CorrelationId_deserialize (rsw_correlation_id wire) in
  let? outcome := outcome_deserialize (rsw_outcome wire) in
  fail! (schema_get schema_version =? TECHNICAL_RESPONSE_SCHEMA_VERSION)
        && (response_extended extensions || outcome_extended extensions)
    with "unknown technical response field";
  map_err MessageBuildError_display
    (CommandResponse_new message_id command_message_id command_address operation_id schema_version
       correlation_id outcome).

(** [serde_json::from_slice::<CommandResponse>] *)
Definition read_command_response (bytes : list byte) : result CommandResponse string :=
  let? wire := response_from_slice bytes in CommandResponse_deserialize wire.

End Responses.
Arguments CommandRejection {JT}.
Arguments CommandRejectionWire {JT}.
Arguments CommandResponseOutcome {JT}.
Arguments CommandResponse {JT}.
Arguments CommandResponseWire {JT}.
Arguments ResponseJson {JT}.

(** ** The address of a response *)

Section ResponseAddress.
Context `{SHA : Sha256}.

Definition response_address_frames (command_address : CommandAddress) (operation_id : MsgOperationId)
    (command_message_id : MessageId) : list (list byte) :=
  [as_bytes RESPONSE_ADDRESS_HASH_DOMAIN; as_bytes (addr_str command_address);
   as_bytes (id_str operation_id); as_bytes (id_str command_message_id)].

Definition derive_command_response_address (command_address : CommandAddress)
    (operation_id : MsgOperationId) (command_message_id : MessageId)
  : result CommandResponseAddress ContractError :=
  let name := hex_of_bytes
    (sha256 (frames (response_address_frames command_address operation_id command_message_id))) in
  CommandResponseAddress_new_in_scope (address_application command_address)
    (address_scope command_address) (address_context command_address) name.

End ResponseAddress.

(** ** Reading responses *)

Inductive CommandResponseReadErrorKind :=
| ReadTimeout | ReadUnavailable | ReadInvalidResponse | ReadIdentityConflict | ReadInvalidConfiguration.

#[global] Instance CommandResponseReadErrorKind_eq_dec : EqDecision CommandResponseReadErrorKind.
Proof. solve_decision. Defined.

(** [CommandResponseReader::find_command_response] over what
    [read_command_response] answered *)
Definition find_command_response {R} (answer : result R CommandResponseReadErrorKind)
  : result (option R) CommandResponseReadErrorKind :=
  match answer with
  | Ok response => Ok (Some response)
  | Err ReadTimeout => Ok None
  | Err error => Err error
  end.

(** ** What is read back *)

Lemma error_code_new_Ok value code :
  ApplicationErrorCode_new value = Ok code → error_code_str code = value.
Proof. unfold ApplicationErrorCode_new. intros H. by guards. Qed.

Definition address_ok {k} (a : address k) : Prop := address_parse k (addr_str a) = Ok a.

Lemma address_deserialize_ok {k} (a : address k) :
  address_ok a → address_deserialize k (addr_str a) = Ok a.
Proof. unfold address_ok, address_deserialize. by intros ->. Qed.

Lemma address_deserialize_Ok k v (a : address k) :
  address_deserialize k v = Ok a → address_ok a ∧ addr_str a = v.
Proof.
  unfold address_deserialize, address_ok. rewrite map_err_Ok. intros H.
  pose proof (address_parse_build _ _ _ H) as [<- _]. by rewrite H.
Qed.

Lemma address_ok_parts {k} (a : address k) :
  address_ok a →
  address_parts_ok (address_application a) (address_context a) (address_name a)
  ∧ str_len (addr_str a) <= MAX_ADDRESS_BYTES
  ∧ addr_str a = address_text k (address_application a) (address_scope a) (address_context a)
                   (address_name a).
Proof.
  intros [_ Hb]%address_parse_build. apply rmap_Ok in Hb as (v & (Hv & Hp & Hl)%build_address_Ok & <-).
  by split_and!; try apply Hp.
Qed.

Section ResponseFacts.
Context `{JT : JsonText} `{RSJ : !ResponseJson}.

Definition rejection_ok (r : CommandRejection) : Prop :=
  CommandRejection_deserialize (CommandRejection_serialize r) = Ok r.
Definition outcome_ok (o : CommandResponseOutcome) : Prop :=
  match o with ResponseRejected r => rejection_ok r | _ => True end.

Record response_valid (r : CommandResponse) : Prop := mkResponseValid {
  rv_message : identifier_ok (rsp_message_id r);
  rv_command : identifier_ok (rsp_command_message_id r);
  rv_address : address_ok (rsp_command_address r);
  rv_operation : identifier_ok (rsp_operation_id r);
  rv_correlation : identifier_ok (rsp_correlation_id r);
  rv_outcome : outcome_ok (rsp_outcome r);
  rv_version : schema_get (rsp_schema_version r) = expected_schema_version (rsp_outcome r);
  rv_size : ∃ bytes, response_to_vec (CommandResponse_serialize r) = Ok bytes
                     ∧ len bytes <= MAX_ENVELOPE_BYTES;
}.

Lemma response_new_Ok m c a o v k out r :
  CommandResponse_new m c a o v k out = Ok r ↔
  r = mkCommandResponse m c a o v k out ∧ schema_get v = expected_schema_version out
  ∧ ∃ bytes, response_to_vec (CommandResponse_serialize r) = Ok bytes ∧ len bytes <= MAX_ENVELOPE_BYTES.
Proof.
  unfold CommandResponse_new, CommandResponse_validate. split.
  - intros H. destruct (negb _) eqn:Ev in H; [done|]. apply rbind_Ok in H as (u & H & [= <-]).
    apply rbind_Ok in H as (bytes & Hb%map_err_Ok & H). destruct (_ <? _) eqn:El in H; [done|].
    apply negb_false_iff, N.eqb_eq in Ev. apply N.ltb_ge in El. by eauto 6.
  - intros (-> & Hv & bytes & Hb & Hl). rewrite Hv, N.eqb_refl. cbn [negb].
    rewrite Hb. cbn [map_err rbind]. by rewrite (proj2 (N.ltb_ge _ _)).
Qed.

Lemma expected_version_ok out v :
  schema_get v = expected_schema_version out → schema_ok v.
Proof. destruct v as [v]; cbn. intros ->. by destruct out. Qed.

Lemma outcome_roundtrip o : outcome_ok o → outcome_deserialize (outcome_serialize o) = Ok o.
Proof. destruct o as [|r|f]; cbn; [done| |done]. by intros ->. Qed.

Lemma rejection_deserialize_ok w r : CommandRejection_deserialize w = Ok r → rejection_ok r.
Proof.
  unfold rejection_ok. intros H. pose proof H as H'. unfold CommandRejection_deserialize in H'.
  apply rbind_Ok in H' as (code & Hc%map_err_Ok & H'). apply map_err_Ok in H'.
  unfold CommandRejection_new in H'. apply rbind_Ok in H' as (u & Hu & [= <-]).
  apply error_code_new_Ok in Hc. unfold CommandRejection_serialize. cbn. rewrite Hc. destruct w; exact H.
Qed.

Lemma outcome_deserialize_ok w o : outcome_deserialize w = Ok o → outcome_ok o.
Proof.
  destruct w; cbn; [by intros [= <-]| |by intros [= <-]].
  intros (r & Hr & <-)%rmap_Ok. by eapply rejection_deserialize_ok.
Qed.

(** Command responses survive storage: the bytes of a valid response without
    rejection details are read back as that response, and whatever document is
    accepted is a valid response - its identifiers and address parse, its
    schema version is the one of its outcome (2 exactly for technical
    diagnostics), a diagnostic carries no member the protocol does not name, and
    it fits the envelope limit. *)
Theorem response_documents_are_strict bytes r :
  (response_valid r → without_details (CommandResponse_serialize r) = true →
   response_to_vec (CommandResponse_serialize r) = Ok bytes →
   read_command_response bytes = Ok r)
  ∧ (read_command_response bytes = Ok r →
     response_valid r
     ∧ ∃ w x, response_from_slice bytes = Ok (w, x)
       ∧ (∀ f, rsp_outcome r = ResponseExecutionFailed f → x = mkExtensions false false)).
Proof.
  unfold read_command_response. split.
  - intros [Hm Hc Ha Ho Hk Hout Hv Hs] Hd Hb. rewrite (response_json_roundtrip _ _ Hd Hb). cbn [rbind].
    unfold CommandResponse_deserialize, MessageId_deserialize, MsgOperationId_deserialize,
      CorrelationId_deserialize, CommandAddress_deserialize, SchemaVersion_deserialize.
    destruct r as [m c a o v k out]. cbn in Hm, Hc, Ha, Ho, Hk, Hout, Hv.
    cbn -[response_to_vec CommandResponse_new identifier_deserialize address_deserialize].
    rewrite !identifier_deserialize_ok, address_deserialize_ok by done. cbn [rbind].
    rewrite (expected_version_ok out v Hv : SchemaVersion_new _ = _), (outcome_roundtrip _ Hout).
    cbn [map_err rbind]. rewrite andb_false_r.
    by rewrite (proj2 (response_new_Ok m c a o v k out _) (conj eq_refl (conj Hv Hs))).
  - intros H. apply rbind_Ok in H as ([w x] & Hw & H). unfold CommandResponse_deserialize in H.
    apply rbind_Ok in H as (m & [Hm _]%identifier_deserialize_Ok & H).
    apply rbind_Ok in H as (c & [Hc _]%identifier_deserialize_Ok & H).
    apply rbind_Ok in H as (a & [Ha _]%address_deserialize_Ok & H).
    apply rbind_Ok in H as (o & [Ho _]%identifier_deserialize_Ok & H).
    apply rbind_Ok in H as (v & _ & H).
    apply rbind_Ok in H as (k & [Hk _]%identifier_deserialize_Ok & H).
    apply rbind_Ok in H as (out & Hout%outcome_deserialize_ok & H).
    destruct (_ && _) eqn:Ex in H; [done|]. apply map_err_Ok in H. apply response_new_Ok in H as (-> & Hv & Hs).
    split; [by split|]. exists w, x. split; [done|]. cbn. intros f ->.
    rewrite Hv in Ex. cbn in Ex. destruct x as [[] []]; done.
Qed.

End ResponseFacts.

(** ** One address per command *)

Section AddressFacts.
Context `{SHA : Sha256}.

Lemma response_frames_framable (a : CommandAddress) (o : MsgOperationId) (m : MessageId) :
  address_ok a → identifier_ok o → identifier_ok m → Forall framable (response_address_frames a o m).
Proof.
  intros (_ & Ha & _)%address_ok_parts Ho%identifier_ok_bound Hm%identifier_ok_bound.
  unfold MAX_ADDRESS_BYTES in Ha. unfold framable, u64_max.
  repeat constructor; rewrite len_as_bytes; (done || lia).
Qed.

End AddressFacts.

(** ** Hexadecimal names *)

Definition is_name_byte (c : N) : bool := is_lower c || is_digit c.

Lemma hex_name_bytes bs : bytes_all is_name_byte (hex_of_bytes bs) = true.
Proof.
  assert (∀ n, n < 16 → is_name_byte (N_of_ascii (hex_digit n)) = true) as Hd.
  { intros n Hn.
    assert (n ∈ [0;1;2;3;4;5;6;7;8;9;10;11;12;13;14;15]) as Hin by (rewrite !elem_of_cons; lia).
    rewrite !elem_of_cons, elem_of_nil in Hin. destruct_or?; subst; by vm_compute. }
  induction bs as [|b bs IH]; [done|]. cbn [hex_of_bytes]. rewrite !bytes_all_cons.
  destruct (nibbles b) as (_ & H1 & H2). by rewrite !Hd, IH.
Qed.

Lemma no_dash_cons c s : contains "-" (String c s) = false → c ≠ "-"%char ∧ contains "-" s = false.
Proof.
  cbn [contains]. rewrite prefix_char. intros [H%Ascii.eqb_neq Hs]%orb_false_iff. by split.
Qed.

Lemma contains_dashes s : contains "-" s = false → contains "--" s = false.
Proof.
  induction s as [|c s IH]; [done|]. intros [Hc Hs]%no_dash_cons. cbn [contains String.prefix].
  destruct (ascii_dec "-" c); [done|]. by apply IH.
Qed.

Lemma no_dash_ends s : contains "-" s = false → ends_with_char "-" s = false.
Proof.
  induction s as [|c s IH]; [done|]. intros [Hc Hs]%no_dash_cons. destruct s as [|d s].
  - unfold ends_with_char. cbn [last_char]. by apply Ascii.eqb_neq.
  - rewrite ends_with_char_cons by done. by apply IH.
Qed.

Lemma name_bytes_kebab s : bytes_all is_name_byte s = true → bytes_all is_kebab s = true.
Proof.
  induction s as [|c s IH]; [done|]. rewrite !bytes_all_cons, !andb_true_iff. intros [Hc Hs].
  split; [|by apply IH]. unfold is_kebab. unfold is_name_byte in Hc. by rewrite Hc.
Qed.

Lemma name_bytes_scope s :
  bytes_all is_name_byte s = true → 0 < str_len s <= 64 → scope_name s = true.
Proof.
  intros Hs Hl. pose proof (bytes_all_not_contains is_name_byte "-"%char s eq_refl Hs) as Hd.
  unfold scope_name, kebab_shape. rewrite (name_bytes_kebab _ Hs), (contains_dashes _ Hd), (no_dash_ends _ Hd).
  destruct s as [|c s]; [by destruct Hl as [[=] _]|]. rewrite (proj2 (N.leb_le _ _)) by apply Hl.
  apply no_dash_cons in Hd as [Hc _]. unfold starts_with. rewrite prefix_char.
  by rewrite (proj2 (Ascii.eqb_neq _ _)).
Qed.

Lemma digest_name `{Sha256} content : scope_name (hex_of_bytes (sha256 content)) = true.
Proof.
  apply name_bytes_scope; [apply hex_name_bytes|]. unfold str_len.
  rewrite length_hex_of_bytes, sha256_length. done.
Qed.

Section AddressClaims.
Context `{SHA : Sha256}.

Lemma derived_address_Ok (a : CommandAddress) (o : MsgOperationId) (m : MessageId) :
  address_ok a →
  derive_command_response_address a o m
  = Ok (Address (address_text Address.CommandResponse (address_application a) (address_scope a)
          (address_context a) (hex_of_bytes (sha256 (frames (response_address_frames a o m)))))).
Proof.
  intros (Hp & _ & _)%address_ok_parts. unfold derive_command_response_address.
  unfold CommandResponseAddress_new_in_scope, address_new_in_scope.
  destruct Hp as (Ha & Hc & _). pose proof (digest_name (frames (response_address_frames a o m))) as Hn.
  erewrite (proj2 (build_address_Ok _ _ _ _ _ _)); [done|]. split_and!; [done..|].
  apply scope_name_len in Ha, Hc, Hn. unfold address_text, MAX_ADDRESS_BYTES.
  destruct (address_scope a); cbn [subject_segment kind_segment]; rewrite !str_len_app;
    change (str_len ".") with 1; change (str_len "test") with 4;
    change (str_len "command-response") with 16; lia.
Qed.

(** Every valid command has a response address, in its own
    application, traffic scope and context, and two commands that share one are
    the same submission - the same address, operation and message - unless
    SHA-256 collides on what identifies them. *)
Theorem response_address_identifies_command (a1 a2 : CommandAddress) (o1 o2 : MsgOperationId)
    (m1 m2 : MessageId) :
  address_ok a1 → address_ok a2 → identifier_ok o1 → identifier_ok o2 →
  identifier_ok m1 → identifier_ok m2 →
  ∃ r1 r2, derive_command_response_address a1 o1 m1 = Ok r1
    ∧ derive_command_response_address a2 o2 m2 = Ok r2
    ∧ address_ok r1 ∧ address_application r1 = address_application a1
    ∧ address_scope r1 = address_scope a1 ∧ address_context r1 = address_context a1
    ∧ (r1 = r2 →
       no_collision (frames (response_address_frames a1 o1 m1)) (frames (response_address_frames a2 o2 m2)) →
       a1 = a2 ∧ o1 = o2 ∧ m1 = m2).
Proof.
  intros Ha1 Ha2 Ho1 Ho2 Hm1 Hm2.
  pose proof (derived_address_Ok a1 o1 m1 Ha1) as D1. pose proof (derived_address_Ok a2 o2 m2 Ha2) as D2.
  eexists _, _. split; [exact D1|]. split; [exact D2|].
  unfold derive_command_response_address, CommandResponseAddress_new_in_scope in D1, D2.
  destruct (address_build_parse _ _ _ _ _ _ D1) as (P1 & A1 & S1 & C1 & N1).
  destruct (address_build_parse _ _ _ _ _ _ D2) as (_ & _ & _ & _ & N2).
  split_and!; [done..|]. intros E Hnc. rewrite E in N1. rewrite N1 in N2.
  apply hex_of_bytes_inj, Hnc, frames_inj in N2; [|by apply response_frames_framable..].
  injection N2 as E1%as_bytes_inj E2%as_bytes_inj E3%as_bytes_inj.
  destruct a1, a2, o1, o2, m1, m2; cbn in *. by subst.
Qed.

End AddressClaims.
