(* ===== verification/Query.v ===== *)
(** * Query: query requests, responses and options, and the vocabulary of
    quarantine inspection (crates/rostfrei-messaging-core/src/query.rs and
    quarantine.rs). *)

From S2P Require Export Response.

(** ** Errors a query handler answers with *)

Definition MAX_QUERY_ERROR_MESSAGE_BYTES : N := 1024.
Definition MAX_QUERY_TIMEOUT : N := 5 * 60 * nanos_per_second.
Definition DEFAULT_QUERY_TIMEOUT : N := 30 * nanos_per_second.
Definition DEFAULT_MAXIMUM_QUERY_RESPONSE_BYTES : N := MAX_ENVELOPE_BYTES.

Inductive QueryErrorClassification :=
| QueryInvalidRequest | QueryUnauthorized | QueryForbidden | QueryNotFound | QueryConflict
| QueryRateLimited | QueryUnavailable | QueryTimeout | QueryInternal.

#[global] Instance QueryErrorClassification_eq_dec : EqDecision QueryErrorClassification.
Proof. solve_decision. Defined.

Record QueryErrorPayload := mkQueryErrorPayload {
  qe_classification : QueryErrorClassification;
  qe_code : ApplicationErrorCode;
  qe_message : string;
}.

Definition QueryErrorPayload_new (classification : QueryErrorClassification)
    (code : ApplicationErrorCode) (message : string) : result QueryErrorPayload ContractError :=
  let field := "query error message" in
  fail! String.eqb message "" with contract_error Empty field;
  fail! MAX_QUERY_ERROR_MESSAGE_BYTES <? str_len message
    with contract_bounded TooLong field (str_len message) MAX_QUERY_ERROR_MESSAGE_BYTES;
  fail! any_control message with contract_error ControlCharacter field;
  Ok (mkQueryErrorPayload classification code message).

Definition QueryErrorPayload_internal_error : QueryErrorPayload :=
  mkQueryErrorPayload QueryInternal (mkApplicationErrorCode "rostfrei.query.internal")
    "The query could not be completed.".

Record QueryErrorPayloadWire := mkQueryErrorPayloadWire {
  qew_classification : QueryErrorClassification;
  qew_code : string;
  qew_message : string;
}.
Definition QueryErrorPayload_serialize (e : QueryErrorPayload) : QueryErrorPayloadWire :=
  mkQueryErrorPayloadWire (qe_classification e) (error_code_str (qe_code e)) (qe_message e).
Definition QueryErrorPayload_deserialize (w : QueryErrorPayloadWire)
  : result QueryErrorPayload string :=
  let? code := ApplicationErrorCode_deserialize (qew_code w) in
  map_err ContractError_display (QueryErrorPayload_new (qew_classification w) code (qew_message w)).

(** [QueryRequestErrorKind] (error.rs); a [QueryRequestError] is its kind. *)
Inductive QueryRequestError :=
| QreSerialization | QreResponseTooLarge | QreTimeout | QreUnavailable | QreRejected
| QreInvalidResponse.

Definition QueryRequestError_display (e : QueryRequestError) : string :=
  match e with
  | QreSerialization => "query request serialization failed"
  | QreResponseTooLarge => "query response is too large"
  | QreTimeout => "query request timed out"
  | QreUnavailable => "query requester is unavailable"
  | QreRejected => "query request was rejected"
  | QreInvalidResponse => "query response is invalid"
  end.

(** ** Requests *)

Record QueryRequest (T : Type) := mkQueryRequest {
  qr_message_id : MessageId;
  qr_schema_version : SchemaVersion;
  qr_created_at : MessageTimestamp;
  qr_correlation_id : CorrelationId;
  qr_causation_id : option CausationId;
  qr_metadata : CallerMetadata;
  qr_trace_context : option TraceContext;
  qr_payload : T;
}.
Arguments mkQueryRequest {T}.
Arguments qr_message_id {T}.
Arguments qr_schema_version {T}.
Arguments qr_created_at {T}.
Arguments qr_correlation_id {T}.
Arguments qr_causation_id {T}.
Arguments qr_metadata {T}.
Arguments qr_trace_context {T}.
Arguments qr_payload {T}.

Record QueryRequestWire (W : Type) := mkQueryRequestWire {
  qrw_message_id : string;
  qrw_schema_version : N;
  qrw_created_at : N;
  qrw_correlation_id : string;
  qrw_causation_id : option string;
  qrw_metadata : gmap string string;
  qrw_trace_context : option TraceContextWire;
  qrw_payload : W;
}.
Arguments mkQueryRequestWire {W}.
Arguments qrw_message_id {W}.
Arguments qrw_schema_version {W}.
Arguments qrw_created_at {W}.
Arguments qrw_correlation_id {W}.
Arguments qrw_causation_id {W}.
Arguments qrw_metadata {W}.
Arguments qrw_trace_context {W}.
Arguments qrw_payload {W}.

Section QueryRequests.
Context {T W : Type} `{WT : Wire T W} `{QRJ : JsonCodec (QueryRequestWire W)}.

Definition QueryRequest_serialize (r : QueryRequest T) : QueryRequestWire W :=
  mkQueryRequestWire (id_str (qr_message_id r)) (schema_get (qr_schema_version r))
    (unix_milliseconds (qr_created_at r)) (id_str (qr_correlation_id r))
    (id_str <$> qr_causation_id r) (metadata_serialize (qr_metadata r))
    (TraceContext_serialize <$> qr_trace_context r) (to_wire (qr_payload r)).

Definition QueryRequest_validate (r : QueryRequest T) : result unit MessageBuildError :=
  validate_serialized_size (QueryRequest_serialize r).

Definition QueryRequest_new (context : EnvelopeContext) (created_at : MessageTimestamp)
    (metadata : CallerMetadata) (trace_context : option TraceContext) (payload : T)
  : result (QueryRequest T) MessageBuildError :=
  let request := mkQueryRequest (ctx_message_id context) (ctx_schema_version context) created_at
    (ctx_correlation_id context) (ctx_causation_id context) metadata trace_context payload in
  let? _ := QueryRequest_validate request in
  Ok request.

Definition QueryRequest_deserialize (wire : QueryRequestWire W) : result (QueryRequest T) string :=
  let? message_id := MessageId_deserialize (qrw_message_id wire) in
  let? schema_version := SchemaVersion_deserialize (qrw_schema_version wire) in
  let? created_at := MessageTimestamp_deserialize (qrw_created_at wire) in
  let? correlation_id := CorrelationId_deserialize (qrw_correlation_id wire) in
  let? causation_id := of_optional CausationId_deserialize (qrw_causation_id wire) in
  let? metadata := metadata_deserialize (qrw_metadata wire) in
  let? trace_context := of_optional TraceContext_deserialize (qrw_trace_context wire) in
  let? payload := of_wire (qrw_payload wire) in
  map_err MessageBuildError_display
    (QueryRequest_new (EnvelopeContext_new message_id schema_version correlation_id causation_id)
       created_at metadata trace_context payload).

(** [serde_json::from_slice::<QueryRequest<T>>] *)
Definition read_query_request (bytes : list byte) : result (QueryRequest T) string :=
  let? wire := from_slice bytes in QueryRequest_deserialize wire.

End QueryRequests.

(** ** Responses *)

Inductive QueryOutcome (T : Type) :=
| QuerySuccess (payload : T)
| QueryError (error : QueryErrorPayload).
Arguments QuerySuccess {T} payload.
Arguments QueryError {T} error.

Inductive QueryOutcomeWire (W : Type) :=
| WireSuccess (payload : W)
| WireError (error : QueryErrorPayloadWire).
Arguments WireSuccess {W} payload.
Arguments WireError {W} error.

Record QueryResponse (T : Type) := mkQueryResponse {
  qs_request_id : MessageId;
  qs_schema_version : SchemaVersion;
  qs_responded_at : MessageTimestamp;
  qs_correlation_id : CorrelationId;
  qs_trace_context : option TraceContext;
  qs_outcome : QueryOutcome T;
}.
Arguments mkQueryResponse {T}.
Arguments qs_request_id {T}.
Arguments qs_schema_version {T}.
Arguments qs_responded_at {T}.
Arguments qs_correlation_id {T}.
Arguments qs_trace_context {T}.
Arguments qs_outcome {T}.

Record QueryResponseWire (W : Type) := mkQueryResponseWire {
  qsw_request_id : string;
  qsw_schema_version : N;
  qsw_responded_at : N;
  qsw_correlation_id : string;
  qsw_trace_context : option TraceContextWire;
  qsw_outcome : QueryOutcomeWire W;
}.
Arguments mkQueryResponseWire {W}.
Arguments qsw_request_id {W}.
Arguments qsw_schema_version {W}.
Arguments qsw_responded_at {W}.
Arguments qsw_correlation_id {W}.
Arguments qsw_trace_context {W}.
Arguments qsw_outcome {W}.

Section QueryResponses.
Context {T W : Type} `{WT : Wire T W} `{QSJ : JsonCodec (QueryResponseWire W)}.

Definition query_outcome_serialize (o : QueryOutcome T) : QueryOutcomeWire W :=
  match o with
  | QuerySuccess payload => WireSuccess (to_wire payload)
  | QueryError error => WireError (QueryErrorPayload_serialize error)
  end.
Definition query_outcome_deserialize (w : QueryOutcomeWire W) : result (QueryOutcome T) string :=
  match w with
  | WireSuccess payload => rmap QuerySuccess (of_wire payload)
  | WireError error => rmap QueryError (QueryErrorPayload_deserialize error)
  end.

Definition QueryResponse_serialize (r : QueryResponse T) : QueryResponseWire W :=
  mkQueryResponseWire (id_str (qs_request_id r)) (schema_get (qs_schema_version r))
    (unix_milliseconds (qs_responded_at r)) (id_str (qs_correlation_id r))
    (TraceContext_serialize <$> qs_trace_context r) (query_outcome_serialize (qs_outcome r)).

Definition QueryResponse_validate (r : QueryResponse T) : result unit MessageBuildError :=
  validate_serialized_size (QueryResponse_serialize r).

Definition QueryResponse_new (request_id : MessageId) (schema_version : SchemaVersion)
    (responded_at : MessageTimestamp) (correlation_id : CorrelationId)
    (trace_context : option TraceContext) (outcome : QueryOutcome T)
  : result (QueryResponse T) MessageBuildError :=
  let response := mkQueryResponse request_id schema_version responded_at correlation_id
    trace_context outcome in
  let? _ := QueryResponse_validate response in
  Ok response.

Definition QueryResponse_success (request_id : MessageId) (schema_version : SchemaVersion)
    (responded_at : MessageTimestamp) (correlation_id : CorrelationId)
    (trace_context : option TraceContext) (payload : T) :=
  QueryResponse_new request_id schema_version responded_at correlation_id trace_context
    (QuerySuccess payload).

Definition QueryResponse_error (request_id : MessageId) (schema_version : SchemaVersion)
    (responded_at : MessageTimestamp) (correlation_id : CorrelationId)
    (trace_context : option TraceContext) (error : QueryErrorPayload) :=
  QueryResponse_new request_id schema_version responded_at correlation_id trace_context
    (QueryError error).

Definition QueryResponse_deserialize (wire : QueryResponseWire W) : result (QueryResponse T) string :=
  let? request_id := MessageId_deserialize (qsw_request_id wire) in
  let? schema_version := SchemaVersion_deserialize (qsw_schema_version wire) in
  let? responded_at := MessageTimestamp_deserialize (qsw_responded_at wire) in
  let? correlation_id := CorrelationId_deserialize (qsw_correlation_id wire) in
  let? trace_context := of_optional TraceContext_deserialize (qsw_trace_context wire) in
  let? outcome := query_outcome_deserialize (qsw_outcome wire) in
  map_err MessageBuildError_display
    (QueryResponse_new request_id schema_version responded_at correlation_id trace_context outcome).

(** [serde_json::from_slice::<QueryResponse<T>>] *)
Definition read_query_response (bytes : list byte) : result (QueryResponse T) string :=
  let? wire := from_slice bytes in QueryResponse_deserialize wire.

End QueryResponses.

(** ** Options *)

(** The timeout is a [Duration], in nanoseconds. *)
Record QueryOptions := mkQueryOptions { qo_timeout : N; qo_maximum_response_bytes : N }.

Definition QueryOptions_new (timeout maximum_response_bytes : N) : result QueryOptions ContractError :=
  fail! (timeout =? 0) || (MAX_QUERY_TIMEOUT <? timeout)
    with contract_error OutOfRange "query timeout";
  fail! (maximum_response_bytes =? 0) || (MAX_ENVELOPE_BYTES <? maximum_response_bytes)
    with contract_bounded OutOfRange "maximum query response bytes" maximum_response_bytes
           MAX_ENVELOPE_BYTES;
  Ok (mkQueryOptions timeout maximum_response_bytes).

Definition QueryOptions_default : QueryOptions :=
  mkQueryOptions DEFAULT_QUERY_TIMEOUT DEFAULT_MAXIMUM_QUERY_RESPONSE_BYTES.

(** ** Quarantine inspection (quarantine.rs) *)

Definition DEFAULT_QUARANTINE_PAGE_SIZE : N := 25.
Definition MAX_QUARANTINE_PAGE_SIZE : N := 100.

Inductive QuarantineMessageKind := QuarantinedCommand | QuarantinedResponse | QuarantinedIntegration.

#[global] Instance QuarantineMessageKind_eq_dec : EqDecision QuarantineMessageKind.
Proof. solve_decision. Defined.

Definition quarantine_subject_segment (k : QuarantineMessageKind) : string :=
  match k with
  | QuarantinedCommand => "command"
  | QuarantinedResponse => "command-response"
  | QuarantinedIntegration => "integration"
  end.

Inductive QuarantineFailureKind :=
| InvalidSourceMessage | DeliveryAttemptsExhausted | HandlerFailure.

Record QuarantineFilter := mkQuarantineFilter {
  qf_kind : option QuarantineMessageKind;
  qf_context : option string;
  qf_name : option string;
}.
Definition QuarantineFilter_default : QuarantineFilter := mkQuarantineFilter None None None.

Record QuarantineQuery := mkQuarantineQuery {
  qq_filter : QuarantineFilter;
  qq_limit : N;
  qq_cursor : option string;
}.
Definition QuarantineQuery_default : QuarantineQuery :=
  mkQuarantineQuery QuarantineFilter_default DEFAULT_QUARANTINE_PAGE_SIZE None.

Inductive QuarantineDiagnostic :=
| InvalidRecord | RecordTooLarge | InvalidSourceAddress | InvalidPayloadEncoding | PayloadTruncated.

Record QuarantinedMessage := mkQuarantinedMessage {
  qm_message_id : string;
  qm_address : string;
  qm_payload_base64 : string;
  qm_payload_size : option N;
  qm_payload_sha256 : option string;
  qm_payload_truncated : bool;
  qm_metadata : CallerMetadata;
  qm_trace_context : option TraceContext;
  qm_correlation_id : option CorrelationId;
  qm_reason : string;
  qm_failure_kind : option QuarantineFailureKind;
  qm_attempt : N;
  qm_pending : N;
  qm_source_sequence : N;
  qm_consumer_sequence : N;
  qm_source_stream : string;
  qm_source_consumer : string;
}.

Record QuarantineEntry := mkQuarantineEntry {
  qn_id : string;
  qn_stored_at : string;
  qn_subject : string;
  qn_message : option QuarantinedMessage;
  qn_diagnostics : list QuarantineDiagnostic;
  qn_invalid_record_base64 : option string;
  qn_invalid_record_truncated : bool;
}.

Record QuarantinePage := mkQuarantinePage {
  qp_items : list QuarantineEntry;
  qp_next_cursor : option string;
  qp_retained_messages : N;
  qp_snapshot_sequence : N;
}.

Inductive QuarantineReadError :=
| QuarantineInvalidQuery | QuarantineInvalidId | QuarantineInvalidCursor | QuarantineStaleGeneration
| QuarantineNotFound | QuarantineUnavailable | QuarantineTimeout | QuarantineInvalidTopology.

(** ** The fixed texts satisfy the constructors they bypass *)

(** [internal_error] builds its payload without [new]; it is one [new] accepts,
    so every reader accepts the fallback answer. *)
Lemma internal_error_is_readable :
  QueryErrorPayload_deserialize (QueryErrorPayload_serialize QueryErrorPayload_internal_error)
  = Ok QueryErrorPayload_internal_error.
Proof. by vm_compute. Qed.

Lemma default_query_options_valid :
  QueryOptions_new (qo_timeout QueryOptions_default) (qo_maximum_response_bytes QueryOptions_default)
  = Ok QueryOptions_default.
Proof. by vm_compute. Qed.
