(* ===== verification/Cycles.v ===== *)
(** * Cycles: the cycle detection of message series and its exactness
    (crates/rostfrei-messaging-core/src/message_series.rs, [find_cycles]). *)

From S2P Require Export Prelude.
From stdpp Require Import sorting.

#[local] Open Scope nat_scope.

(** ** Cycles of a parent relation between indexes *)

Definition UNVISITED : N := 0.
Definition VISITING : N := 1.
Definition VISITED : N := 2.

(** [iter().position(|candidate| *candidate == index)] *)
Fixpoint position (index : nat) (l : list nat) : option nat :=
  match l with
  | [] => None
  | x :: r => if Nat.eqb x index then Some 0 else Datatypes.S <$> position index r
  end.

(** [enumerate().min_by_key(...)]: the place of the first least element *)
Fixpoint earliest (l : list nat) : option nat :=
  match l with
  | [] => None
  | x :: r =>
    match earliest r with
    | Some k => match r !! k with
                | Some y => if Nat.leb x y then Some 0 else Some (Datatypes.S k)
                | None => Some 0
                end
    | None => Some 0
    end
  end.

Definition rotate_left {A} (k : nat) (l : list A) : list A := drop k l ++ take k l.

(** The cycle closed by reaching [index] again on [path] *)
Definition closed_cycle (path : list nat) (index : nat) : option (list nat) :=
  cycle_start ← position index path;
  let cycle := drop cycle_start path in
  Some match earliest cycle with Some k => rotate_left k cycle | None => cycle end.

(** The [while let] loop: the states, the path and the cycles when it stops;
    [None] when out of fuel. *)
Fixpoint walk (fuel : nat) (parent_indexes : list (option nat)) (states : list N)
    (path : list nat) (cycles : list (list nat)) (current : option nat)
  : option (list N * list nat * list (list nat)) :=
  match fuel with
  | 0 => None
  | Datatypes.S fuel =>
    match current with
    | None => Some (states, path, cycles)
    | Some index =>
      match states !! index with
      | None => Some (states, path, cycles)
      | Some state =>
        if N.eqb state UNVISITED
        then walk fuel parent_indexes (<[index := VISITING]> states) (path ++ [index]) cycles
               (mjoin (parent_indexes !! index))
        else if N.eqb state VISITING
        then Some (states, path,
                   match closed_cycle path index with
                   | Some cycle => cycles ++ [cycle]
                   | None => cycles
                   end)
        else Some (states, path, cycles)
      end
    end
  end.

(** One iteration of the loop over the starts *)
Definition visit (parent_indexes : list (option nat)) (acc : option (list N * list (list nat)))
    (start : nat) : option (list N * list (list nat)) :=
  '(states, cycles) ← acc;
  if bool_decide (states !! start = Some UNVISITED)
  then
    '(states, path, cycles) ←
      walk (length parent_indexes + 2) parent_indexes states [] cycles (Some start);
    Some (foldl (λ states index, <[index := VISITED]> states) states path, cycles)
  else Some (states, cycles).

(** [cycle.first().copied().unwrap_or(usize::MAX)]; no cycle is empty. *)
Definition cycle_key (c : list nat) : option nat := head c.
Definition cycle_le (a b : list nat) : Prop :=
  match cycle_key a, cycle_key b with
  | Some x, Some y => x <= y
  | None, Some _ => False
  | _, None => True
  end.
#[global] Instance cycle_le_dec : RelDecision cycle_le.
Proof. intros a b. unfold cycle_le. destruct (cycle_key a), (cycle_key b); apply _. Defined.

Definition find_cycles (parent_indexes : list (option nat)) : option (list (list nat)) :=
  '(_, cycles) ← foldl (visit parent_indexes)
                   (Some (replicate (length parent_indexes) UNVISITED, []))
                   (seq 0 (length parent_indexes));
  Some (merge_sort cycle_le cycles).

Example two_cycles :
  find_cycles [Some 2; Some 2; Some 1; Some 4; Some 5; Some 3; None]
  = Some [[1; 2]; [3; 4; 5]].
Proof. by vm_compute. Qed.

(** ** Cycles, abstractly *)

Section Cycles.
Context (parents : list (option nat)).

Definition parent (i : nat) : option nat := mjoin (parents !! i).

(** Each element is followed by its parent. *)
Fixpoint linked (l : list nat) : Prop :=
  match l with
  | i :: ((j :: _) as r) => parent i = Some j ∧ linked r
  | _ => True
  end.

(** A cycle of distinct indexes, each followed by its parent, the last one by
    the first *)
Definition is_cycle (c : list nat) : Prop :=
  ∃ h t, c = h :: t ∧ NoDup c ∧ linked (c ++ [h]).

(** A cycle written from its least index *)
Definition reported (c : list nat) : Prop :=
  is_cycle c ∧ ∃ h, head c = Some h ∧ ∀ i, i ∈ c → h <= i.

Lemma parent_lt i j : parent i = Some j → i < length parents.
Proof. unfold parent. intros H. destruct (parents !! i) eqn:E; [|done]. by apply lookup_lt_Some in E. Qed.

Lemma linked_app l x r : linked (l ++ x :: r) ↔ linked (l ++ [x]) ∧ linked (x :: r).
Proof.
  induction l as [|i [|j l] IH]; [split; [intros H; split; [exact I|exact H]|intros [_ H]; exact H]|cbn; tauto|].
  cbn [app linked]. cbn [app] in IH. rewrite IH. tauto.
Qed.

Lemma linked_prefix l r : linked (l ++ r) → linked l.
Proof.
  induction l as [|i [|j l] IH]; [done..|]. cbn [app linked]. cbn [app] in IH.
  intros [Hij H]. split; [done|]. by apply IH.
Qed.

Lemma is_cycle_rotate a b : is_cycle (a ++ b) → is_cycle (b ++ a).
Proof.
  intros (h & t & E & Hnd & Hl). destruct a as [|h0 a]; [rewrite app_nil_r; by exists h, t|].
  destruct b as [|h' b]; [rewrite app_nil_r in *; by exists h, t|].
  cbn in E. injection E as -> <-. exists h', (b ++ h :: a). split_and!; [done|..].
  - revert Hnd. change (NoDup ((h :: a) ++ h' :: b) → NoDup ((h' :: b) ++ h :: a)).
    by rewrite (Permutation_app_comm (h :: a)).
  - change (linked (((h :: a) ++ h' :: b) ++ [h])) in Hl. rewrite <- app_assoc in Hl.
    apply linked_app in Hl as [H1 H2].
    change (linked (((h' :: b) ++ h :: a) ++ [h'])). rewrite <- app_assoc.
    by apply (linked_app (h' :: b) h (a ++ [h'])).
Qed.

(** A cycle read from any of its elements *)
Lemma is_cycle_from c i :
  is_cycle c → i ∈ c → ∃ r, is_cycle (i :: r) ∧ i :: r ≡ₚ c.
Proof.
  intros Hc (a & b & ->)%list_elem_of_split. exists (b ++ a). split.
  - by apply is_cycle_rotate in Hc.
  - rewrite (Permutation_app_comm a). done.
Qed.

Lemma is_cycle_parent c i : is_cycle c → i ∈ c → ∃ j, parent i = Some j ∧ j ∈ c.
Proof.
  intros Hc Hi. destruct (is_cycle_from c i Hc Hi) as (r & (h & t & [= -> ->] & _ & Hl) & Hp).
  destruct t as [|j t]; cbn in Hl; destruct Hl as [Hij _].
  - exists h. done.
  - exists j. split; [done|]. rewrite <- Hp. set_solver.
Qed.

Lemma linked_same h x t u :
  linked (x :: t ++ [h]) → linked (x :: u ++ [h]) → h ∉ t → h ∉ u → t = u.
Proof.
  revert x u; induction t as [|y t IH]; intros x [|z u] Ht Hu Nt Nu; [done|..];
    cbn in Ht, Hu; destruct Ht as [Et Ht], Hu as [Eu Hu]; rewrite Et in Eu; injection Eu as ->.
  - set_solver.
  - set_solver.
  - f_equal. apply (IH z); [done|done|set_solver..].
Qed.

Lemma is_cycle_same h t u : is_cycle (h :: t) → is_cycle (h :: u) → t = u.
Proof.
  intros (? & ? & [= <- <-] & Nt & Ht) (? & ? & [= <- <-] & Nu & Hu).
  apply NoDup_cons in Nt as [Nt _], Nu as [Nu _]. by eapply linked_same.
Qed.

(** Reported cycles are disjoint. *)
Lemma reported_unique c d i : reported c → reported d → i ∈ c → i ∈ d → c = d.
Proof.
  intros (Hc & h & Eh & Hh) (Hd & k & Ek & Hk) Hic Hid.
  destruct (is_cycle_from c i Hc Hic) as (r & Hr & Pr).
  destruct (is_cycle_from d i Hd Hid) as (s & Hs & Ps).
  rewrite (is_cycle_same _ _ _ Hr Hs) in Pr.
  assert (c ≡ₚ d) as Hp by (by rewrite <- Pr, Ps).
  destruct c as [|? c]; [done|]. destruct d as [|? d]; [done|]. cbn in *. simplify_eq.
  assert (h = k) as ->. { apply Nat.le_antisymm; [apply Hh; rewrite Hp|apply Hk; rewrite <- Hp]; set_solver. }
  f_equal. by eapply is_cycle_same.
Qed.

(** A property that parents inherit holds of a whole cycle or of none of it. *)
Lemma is_cycle_forall (P : nat → Prop) c i :
  is_cycle c → i ∈ c → P i → (∀ x y, x ∈ c → P x → parent x = Some y → y ∈ c → P y) → Forall P c.
Proof.
  intros Hc Hi Pi Hstep. destruct (is_cycle_from c i Hc Hi) as (r & (h & t & [= -> ->] & _ & Hl) & Hp).
  rewrite <- Hp. setoid_rewrite <- Hp in Hstep. clear Hp Hi Hc.
  apply linked_prefix in Hl.
  assert (∀ x l, linked (x :: l) → x ∈ h :: t → l ⊆ h :: t → P x → Forall P (x :: l)) as H.
  { intros x l. revert x. induction l as [|y l IH]; intros x Hxl Hx Hsub Px; [by constructor|].
    destruct Hxl as [Hxy Hxl]. constructor; [done|]. apply IH; [done|set_solver|set_solver|].
    apply (Hstep x y); [done..|set_solver]. }
  apply H; [done|set_solver|set_solver|done].
Qed.

(** ** The cycle closed by a path *)

Lemma position_Some index l s :
  position index l = Some s → ∃ a b, l = a ++ index :: b ∧ length a = s.
Proof.
  revert s; induction l as [|x l IH]; intros s; cbn; [done|].
  destruct (Nat.eqb_spec x index) as [->|]; [intros [= <-]; by exists [], l|].
  intros (s' & Hs & ->)%fmap_Some. destruct (IH _ Hs) as (a & b & -> & <-). by exists (x :: a), b.
Qed.

Lemma position_elem index l : index ∈ l → is_Some (position index l).
Proof.
  induction l as [|x l IH]; cbn; [set_solver|]. intros Hi.
  destruct (Nat.eqb_spec x index) as [->|]; [done|]. apply fmap_is_Some, IH. set_solver.
Qed.

Lemma earliest_Some l :
  l ≠ [] → ∃ k x, earliest l = Some k ∧ l !! k = Some x ∧ ∀ y, y ∈ l → x <= y.
Proof.
  induction l as [|x l IH]; [done|]. intros _. cbn.
  destruct l as [|z l]; [exists 0, x; set_solver|].
  destruct IH as (k & y & -> & Hk & Hy); [done|]. rewrite Hk.
  destruct (Nat.leb_spec x y).
  - exists 0, x. split_and!; [done..|]. intros w [->|Hw]%elem_of_cons; [done|]. specialize (Hy w Hw). lia.
  - exists (Datatypes.S k), y. split_and!; [done..|]. intros w [->|Hw]%elem_of_cons; [lia|auto].
Qed.

Lemma closed_cycle_reported path index :
  NoDup path → linked (path ++ [index]) → index ∈ path →
  ∃ c, closed_cycle path index = Some c ∧ reported c ∧ index ∈ c ∧ c ⊆ path.
Proof.
  intros Hnd Hl (s & Hs)%position_elem. unfold closed_cycle. rewrite Hs. cbn.
  apply position_Some in Hs as (a & b & -> & <-). rewrite drop_app_length.
  destruct (earliest_Some (index :: b)) as (k & x & -> & Hk & Hx); [done|].
  assert (is_cycle (index :: b)) as Hc.
  { exists index, b. split_and!; [done|by apply NoDup_app in Hnd as (_ & _ & ?)|].
    rewrite <- app_assoc in Hl. by apply (linked_app a index (b ++ [index])) in Hl as [_ ?]. }
  assert (rotate_left k (index :: b) ≡ₚ index :: b) as Hp.
  { unfold rotate_left. by rewrite Permutation_app_comm, take_drop. }
  eexists. split; [done|]. split_and!.
  - split.
    + unfold rotate_left. apply is_cycle_rotate. by rewrite take_drop.
    + exists x. split; [|intros i Hi; apply Hx; by rewrite <- Hp].
      unfold rotate_left. rewrite (drop_S _ _ _ Hk). done.
  - rewrite Hp. set_solver.
  - rewrite Hp. set_solver.
Qed.

(** ** The walk from one start *)

(** What the states record: the path being visited and the indexes visited
    before *)
Definition marked (seen : gset nat) (path : list nat) (states : list N) : Prop :=
  length states = length parents
  ∧ ∀ i s, states !! i = Some s →
      s = (if decide (i ∈ path) then VISITING else if decide (i ∈ seen) then VISITED else UNVISITED).

(** The visited indexes are closed under parents in range. *)
Definition closed (seen : gset nat) : Prop :=
  ∀ i j, i ∈ seen → parent i = Some j → j < length parents → j ∈ seen.

Definition joined (path : list nat) (current : option nat) : list nat :=
  path ++ match current with Some i => [i] | None => [] end.

(** The cycles recorded so far are the reported ones among the visited. *)
Definition collected (seen : gset nat) (cycles : list (list nat)) : Prop :=
  NoDup cycles ∧ ∀ c, c ∈ cycles ↔ reported c ∧ ∃ i, i ∈ c ∧ i ∈ seen.

(** A path on which the walk is *)
Record on_path (seen : gset nat) (path : list nat) (current : option nat) : Prop := {
  op_distinct : NoDup path;
  op_linked : linked (joined path current);
  op_fresh : ∀ i, i ∈ path → i ∉ seen;
  op_range : ∀ i, i ∈ path → i < length parents;
  op_next : ∀ i, last path = Some i → parent i = current;
}.

(** A reported cycle that meets the path contains every later index of it, and
    the one the path leads to. *)
Lemma linked_into_cycle c l j :
  is_cycle c → linked (l ++ [j]) → (∃ i, i ∈ l ∧ i ∈ c) → j ∈ c.
Proof.
  intros Hc. induction l as [|i l IH]; intros Hl (x & Hx & Hxc); [set_solver|].
  assert (i ∈ c → j ∈ c ∨ ∃ y, y ∈ l ∧ y ∈ c) as Hstep.
  { intros Hi. destruct (is_cycle_parent c i Hc Hi) as (y & Hy & Hyc).
    destruct l as [|z l]; cbn in Hl; destruct Hl as [Hz _]; rewrite Hz in Hy; injection Hy as ->.
    - by left.
    - right. exists y. set_solver. }
  assert (linked (l ++ [j])) as Hl'.
  { destruct l as [|z l]; [done|]. by destruct Hl. }
  apply elem_of_cons in Hx as [->|Hx].
  - destruct (Hstep Hxc) as [|Hy]; [done|]. by apply IH.
  - apply IH; [done|]. by exists x.
Qed.

Lemma is_cycle_range c i : is_cycle c → i ∈ c → i < length parents.
Proof. intros Hc Hi. destruct (is_cycle_parent c i Hc Hi) as (j & Hj & _). by eapply parent_lt. Qed.

(** A cycle that meets a closed set lies in it. *)
Lemma is_cycle_closed seen c i : closed seen → is_cycle c → i ∈ c → i ∈ seen → ∀ j, j ∈ c → j ∈ seen.
Proof.
  intros Hs Hc Hi Hin. apply Forall_forall, (is_cycle_forall (.∈ seen) c i); [done..|].
  intros x y _ Hx Hxy Hy. eapply Hs; [done..|]. by eapply is_cycle_range.
Qed.

Lemma on_path_next seen path current x y :
  on_path seen path current → x ∈ path → parent x = Some y → y ∈ path ∨ current = Some y.
Proof.
  intros H (a & b & ->)%list_elem_of_split Hxy. destruct b as [|z b].
  - right. rewrite <- Hxy. symmetry. apply (op_next _ _ _ H). by rewrite last_snoc.
  - left. pose proof (op_linked _ _ _ H) as Hl. unfold joined in Hl. rewrite <- app_assoc in Hl.
    cbn [app] in Hl. apply linked_app in Hl as [_ [Hz _]]. simplify_eq. set_solver.
Qed.

Lemma on_path_length seen path current : on_path seen path current → length path <= length parents.
Proof.
  intros H. rewrite <- (length_seq (length parents) 0).
  apply submseteq_length, NoDup_submseteq; [apply H|].
  intros i Hi. apply elem_of_seq. split; [lia|]. by apply H.
Qed.

(** A cycle through the path goes through where the path leads. *)
Lemma on_path_cycle seen path current c i :
  on_path seen path current → is_cycle c → i ∈ path → i ∈ c → ∃ j, current = Some j ∧ j ∈ c.
Proof.
  intros H Hc Hi Hic. pose proof (op_linked _ _ _ H) as Hl. unfold joined in Hl.
  destruct current as [j|]; [exists j; split; [done|]; apply (linked_into_cycle c path); eauto|].
  rewrite app_nil_r in Hl. destruct path as [|k path _] using rev_ind; [set_solver|]. exfalso.
  assert (k ∈ c) as Hk.
  { apply elem_of_app in Hi as [Hi|Hi%list_elem_of_singleton]; [|by subst].
    apply (linked_into_cycle c path); eauto. }
  destruct (is_cycle_parent c k Hc Hk) as (y & Hy & _).
  rewrite (op_next _ _ _ H k) in Hy; [done|]. by rewrite last_snoc.
Qed.

(** The walk stops where there is no way on: at a root, outside, or at an
    index visited before. *)
Lemma stop_without_cycle seen path current cycles :
  closed seen → collected seen cycles → on_path seen path current →
  (∀ i, current = Some i → i < length parents → i ∈ seen) →
  closed (seen ∪ list_to_set path) ∧ collected (seen ∪ list_to_set path) cycles.
Proof.
  intros Hs [Hnd Hcs] Hp Hout. split; [|split; [done|]].
  - intros x y Hx Hxy Hy. apply elem_of_union in Hx as [Hx|Hx%elem_of_list_to_set].
    + apply elem_of_union_l. by eapply Hs.
    + destruct (on_path_next _ _ _ x y Hp Hx Hxy) as [|Hcur]; [set_solver|].
      apply elem_of_union_l. by apply Hout.
  - intros c. rewrite Hcs. split; intros (Hc & i & Hi & Hin); (split; [done|]).
    + exists i. set_solver.
    + apply elem_of_union in Hin as [Hin|Hin%elem_of_list_to_set]; [eauto|].
      destruct (on_path_cycle _ _ _ c i Hp (proj1 Hc) Hin Hi) as (j & Hj & Hjc).
      exists j. split; [done|]. apply Hout; [done|]. eapply is_cycle_range; [apply Hc|done].
Qed.

(** The walk stops at an index of its own path: one new cycle. *)
Lemma stop_with_cycle seen path index cycles :
  closed seen → collected seen cycles → on_path seen path (Some index) → index ∈ path →
  ∃ c, closed_cycle path index = Some c
    ∧ closed (seen ∪ list_to_set path) ∧ collected (seen ∪ list_to_set path) (cycles ++ [c]).
Proof.
  intros Hs [Hnd Hcs] Hp Hin.
  destruct (closed_cycle_reported path index) as (c & Ec & Hrc & Hic & Hsub);
    [apply Hp|apply Hp|done|]. exists c. split_and!; [done| |split].
  - intros x y Hx Hxy Hy. apply elem_of_union in Hx as [Hx|Hx%elem_of_list_to_set].
    + apply elem_of_union_l. by eapply Hs.
    + destruct (on_path_next _ _ _ x y Hp Hx Hxy) as [|[= <-]]; set_solver.
  - apply NoDup_app. split_and!; [done| |apply NoDup_singleton].
    intros d [_ (i & Hi & Hseen)]%Hcs ->%list_elem_of_singleton.
    apply (op_fresh _ _ _ Hp index); [done|].
    by apply (is_cycle_closed seen c i Hs (proj1 Hrc) Hi Hseen).
  - intros d. rewrite elem_of_app, Hcs, list_elem_of_singleton. split.
    + intros [(Hd & i & ? & ?)| ->]; (split; [done|]); [exists i|exists index]; set_solver.
    + intros (Hd & i & Hi & Hin'). apply elem_of_union in Hin' as [Hin'|Hin'%elem_of_list_to_set]; [eauto|].
      right. destruct (on_path_cycle _ _ _ d i Hp (proj1 Hd) Hin' Hi) as (j & [= <-] & Hjd).
      by apply (reported_unique d c index).
Qed.

Lemma marked_lookup seen path states i :
  marked seen path states → i < length parents →
  states !! i = Some (if decide (i ∈ path) then VISITING else if decide (i ∈ seen) then VISITED else UNVISITED).
Proof.
  intros [Hl Hm] Hi. destruct (lookup_lt_is_Some_2 states i) as [s Hs]; [lia|].
  by rewrite Hs, (Hm _ _ Hs).
Qed.

Lemma marked_visit seen path states index :
  marked seen path states → marked seen (path ++ [index]) (<[index := VISITING]> states).
Proof.
  intros [Hl Hm]. split; [by rewrite length_insert|]. intros i s.
  rewrite list_lookup_insert_Some. intros [(<- & <- & _)|(Hne & Hs)].
  - rewrite decide_True; [done|set_solver].
  - rewrite (Hm _ _ Hs). destruct (decide (i ∈ path)), (decide (i ∈ path ++ [index])); set_solver.
Qed.

Lemma on_path_extend seen path index :
  on_path seen path (Some index) → index < length parents → index ∉ path → index ∉ seen →
  on_path seen (path ++ [index]) (parent index).
Proof.
  intros H Hr Hn Hs. split.
  - apply NoDup_app. split_and!; [apply H|set_solver|apply NoDup_singleton].
  - pose proof (op_linked _ _ _ H) as Hl. unfold joined in *.
    destruct (parent index) as [j|] eqn:Ej; [|by rewrite app_nil_r].
    rewrite <- app_assoc. apply (linked_app path index [j]). split; [done|]. by cbn.
  - intros i [Hi|Hi%list_elem_of_singleton]%elem_of_app; [by apply H|by subst].
  - intros i [Hi|Hi%list_elem_of_singleton]%elem_of_app; [by apply H|by subst].
  - intros i. rewrite last_snoc. by intros [= <-].
Qed.

Lemma walk_spec fuel seen path states cycles current :
  marked seen path states → closed seen → collected seen cycles → on_path seen path current →
  length parents < fuel + length path →
  ∃ states' path' cycles', walk fuel parents states path cycles current = Some (states', path', cycles')
    ∧ marked seen path' states' ∧ path ⊆ path'
    ∧ (∀ i, current = Some i → i < length parents → i ∈ seen ∪ list_to_set path')
    ∧ closed (seen ∪ list_to_set path') ∧ collected (seen ∪ list_to_set path') cycles'.
Proof.
  revert path states current. induction fuel as [|fuel IH]; intros path states current Hm Hs Hc Hp Hf.
  { apply on_path_length in Hp. lia. }
  cbn [walk]. destruct current as [index|].
  2:{ destruct (stop_without_cycle _ _ _ _ Hs Hc Hp) as [? ?]; [done|]. by eexists _, _, _. }
  destruct (decide (index < length parents)) as [Hr|Hr].
  2:{ destruct (stop_without_cycle _ _ _ _ Hs Hc Hp) as [? ?]; [by intros i [= <-]|].
      rewrite lookup_ge_None_2 by (destruct Hm; lia). eexists _, _, _. split_and!; try done.
      by intros i [= <-]. }
  rewrite (marked_lookup _ _ _ _ Hm Hr). destruct (decide (index ∈ path)) as [Hin|Hin]; [cbn [N.eqb UNVISITED VISITING]|].
  { destruct (stop_with_cycle _ _ _ _ Hs Hc Hp Hin) as (c & Ec & ? & ?). cbn. rewrite Ec.
    eexists _, _, _. split_and!; try done. intros i [= <-]. set_solver. }
  destruct (decide (index ∈ seen)) as [Hseen|Hseen]; cbn.
  { destruct (stop_without_cycle _ _ _ _ Hs Hc Hp) as [? ?]; [by intros i [= <-]|].
    eexists _, _, _. split_and!; try done. intros i [= <-]. set_solver. }
  destruct (IH (path ++ [index]) (<[index := VISITING]> states) (parent index))
    as (states' & path' & cycles' & E & Hm' & Hsub & _ & Hs' & Hc').
  - by apply marked_visit.
  - done.
  - done.
  - by apply on_path_extend.
  - rewrite length_app. cbn. lia.
  - exists states', path', cycles'. split_and!; try done; [set_solver|].
    intros i [= <-] _. set_solver.
Qed.

Lemma foldl_visited l states i :
  (foldl (λ states index, <[index := VISITED]> states) states l : list N) !! i
  = if decide (i ∈ l) then (λ _, VISITED) <$> states !! i else states !! i.
Proof.
  revert states; induction l as [|x l IH]; intros states; cbn [foldl]; [by rewrite decide_False by set_solver|].
  rewrite IH. destruct (decide (i = x)) as [->|Hne].
  - rewrite (decide_True (P := x ∈ x :: l)) by set_solver.
    destruct (decide (x < length states)).
    + rewrite list_lookup_insert_eq by done. destruct (lookup_lt_is_Some_2 states x) as [s ->]; [done|].
      by destruct (decide (x ∈ l)).
    + rewrite !lookup_ge_None_2 by (rewrite ?length_insert; lia). by destruct (decide (x ∈ l)).
  - rewrite list_lookup_insert_ne by done.
    destruct (decide (i ∈ l)), (decide (i ∈ x :: l)); set_solver.
Qed.

Lemma marked_finish seen path states :
  marked seen path states →
  marked (seen ∪ list_to_set path) [] (foldl (λ states index, <[index := VISITED]> states) states path).
Proof.
  intros [Hl Hm]. split.
  - rewrite <- Hl. clear. revert states; induction path as [|x path IH]; intros states; cbn; [done|].
    by rewrite IH, length_insert.
  - intros i s. rewrite foldl_visited, (decide_False (P := i ∈ [])) by set_solver.
    destruct (decide (i ∈ path)) as [Hi|Hi].
    + intros (? & _ & ->)%fmap_Some. by rewrite decide_True by set_solver.
    + intros Hs. rewrite (Hm _ _ Hs), decide_False by done.
      destruct (decide (i ∈ seen)), (decide (i ∈ seen ∪ list_to_set path)); set_solver.
Qed.

Lemma visit_spec seen states cycles start :
  marked seen [] states → closed seen → collected seen cycles → start < length parents →
  ∃ seen' states' cycles', visit parents (Some (states, cycles)) start = Some (states', cycles')
    ∧ seen ⊆ seen' ∧ start ∈ seen'
    ∧ marked seen' [] states' ∧ closed seen' ∧ collected seen' cycles'.
Proof.
  intros Hm Hs Hc Hr. cbn. rewrite (marked_lookup _ _ _ _ Hm Hr), decide_False by set_solver.
  destruct (decide (start ∈ seen)) as [Hseen|Hseen].
  { rewrite bool_decide_eq_false_2 by done. exists seen, states, cycles. by split_and!. }
  rewrite bool_decide_eq_true_2 by done.
  destruct (walk_spec (length parents + 2) seen [] states cycles (Some start))
    as (states' & path' & cycles' & -> & Hm' & _ & Hin & Hs' & Hc'); try done.
  { split; try done; [constructor|set_solver..]. }
  { cbn. lia. }
  cbn. exists (seen ∪ list_to_set path'). eexists _, _. split_and!; try done; [set_solver|auto|by apply marked_finish].
Qed.

Lemma visits_spec starts seen states cycles :
  marked seen [] states → closed seen → collected seen cycles →
  (∀ i, i ∈ starts → i < length parents) →
  ∃ seen' states' cycles', foldl (visit parents) (Some (states, cycles)) starts = Some (states', cycles')
    ∧ seen ⊆ seen' ∧ (∀ i, i ∈ starts → i ∈ seen') ∧ collected seen' cycles'.
Proof.
  revert seen states cycles; induction starts as [|start starts IH]; intros seen states cycles Hm Hs Hc Hr.
  { exists seen, states, cycles. split_and!; try done. set_solver. }
  destruct (visit_spec seen states cycles start) as (seen1 & states1 & cycles1 & E & H1 & H2 & H3 & H4 & H5);
    [done..|set_solver|].
  destruct (IH seen1 states1 cycles1) as (seen2 & states2 & cycles2 & E2 & H6 & H7 & H8); [done..|set_solver|].
  exists seen2, states2, cycles2. cbn [foldl]. rewrite E, E2. split_and!; [done|set_solver|set_solver|done].
Qed.

Lemma cycle_le_total a b : cycle_le a b ∨ cycle_le b a.
Proof. unfold cycle_le. destruct (cycle_key a), (cycle_key b); auto. lia. Qed.
#[local] Instance cycle_le_Total : Total cycle_le := cycle_le_total.
#[local] Instance cycle_le_Transitive : Transitive cycle_le.
Proof.
  intros a b c. unfold cycle_le.
  destruct (cycle_key a), (cycle_key b), (cycle_key c); try done. lia.
Qed.

Lemma reported_nonempty c : reported c → ∃ h, head c = Some h ∧ h ∈ c.
Proof. intros [(h & t & -> & _) _]. exists h. split; [done|set_solver]. Qed.

(** Sorted by their first indexes, disjoint cycles are strictly sorted. *)
Definition before (a b : list nat) : Prop :=
  ∃ x y, head a = Some x ∧ head b = Some y ∧ x < y.

Lemma reported_before a b : reported a → reported b → a ≠ b → cycle_le a b → before a b.
Proof.
  intros Ha Hb Hne. destruct (reported_nonempty a Ha) as (x & Ex & Hx).
  destruct (reported_nonempty b Hb) as (y & Ey & Hy). unfold cycle_le, cycle_key. rewrite Ex, Ey.
  intros Hle. exists x, y. split_and!; [done..|].
  destruct (decide (x = y)) as [->|]; [|lia]. exfalso. apply Hne. by apply (reported_unique a b y).
Qed.

(** Cycle detection is exact: it terminates, it finds every
    causal cycle and nothing else, each once and written from its earliest
    index, ordered by those; indexes on the way into a cycle, roots and links
    out of range report nothing. *)
Theorem find_cycles_spec :
  ∃ cycles, find_cycles parents = Some cycles
    ∧ (∀ c, c ∈ cycles ↔ reported c) ∧ StronglySorted before cycles.
Proof.
  destruct (visits_spec (seq 0 (length parents)) ∅ (replicate (length parents) UNVISITED) [])
    as (seen & states & cycles & E & _ & Hall & Hnd & Hc).
  - split; [apply length_replicate|]. intros i s [-> _]%lookup_replicate. done.
  - by intros i j Hi%elem_of_empty.
  - split; [constructor|]. intros c.
    split; [by intros ?%elem_of_nil|by intros (_ & i & _ & ?%elem_of_empty)].
  - intros i Hi%elem_of_seq. lia.
  - exists (merge_sort cycle_le cycles). unfold find_cycles. rewrite E.
    assert (∀ c, c ∈ merge_sort cycle_le cycles ↔ reported c) as Hel.
    { intros c. rewrite (merge_sort_Permutation cycle_le cycles), Hc.
      split; [by intros []|]. intros Hr. split; [done|].
      destruct (reported_nonempty c Hr) as (i & _ & Hi). exists i. split; [done|].
      apply Hall, elem_of_seq. split; [lia|]. eapply is_cycle_range; [apply Hr|done]. }
    split_and!; [done..|].
    assert (NoDup (merge_sort cycle_le cycles)) as Hnd' by (by rewrite (merge_sort_Permutation cycle_le cycles)).
    pose proof (StronglySorted_merge_sort cycle_le cycles) as Hss. revert Hel Hnd' Hss.
    generalize (merge_sort cycle_le cycles) as l. clear.
    intros l Hel Hnd Hss. assert (∀ c, c ∈ l → reported c) as Hr by (intros c; apply Hel). clear Hel.
    induction Hss as [|a l Hss IH Ha]; constructor.
    + apply NoDup_cons in Hnd as [_ Hnd]. apply IH; [done|]. intros c Hc. apply Hr. set_solver.
    + apply NoDup_cons in Hnd as [Hn Hnd]. rewrite Forall_forall in *. intros b Hb.
      apply reported_before; [apply Hr; set_solver..| |by apply Ha]. by intros ->.
Qed.

End Cycles.
