(* ===== verification/Series.v ===== *)
(** * Series: insertion-ordered causal graphs of messages and their topology
    issues (crates/rostfrei-messaging-core/src/message_series.rs). *)

From S2P Require Export Contract Cycles.

#[local] Open Scope nat_scope.

(** ** The series *)

(** The [MessageSeriesNode] trait *)
Class MessageSeriesNode (Node : Type) := {
  node_eq_dec :: EqDecision Node;
  NodeMessageId : Type;
  node_id_eq_dec :: EqDecision NodeMessageId;
  node_id_countable :: Countable NodeMessageId;
  NodeCorrelationId : Type;
  node_correlation_eq_dec :: EqDecision NodeCorrelationId;
  node_message_id : Node → NodeMessageId;
  node_correlation_id : Node → NodeCorrelationId;
  node_causation_id : Node → option NodeMessageId;
}.

Inductive MessageSeriesInsertOutcome := Inserted | Duplicate.
Definition is_duplicate (o : MessageSeriesInsertOutcome) : bool :=
  match o with Duplicate => true | Inserted => false end.

Definition MAX_MESSAGE_SERIES_NODES : nat := 4096.

Section Series.
Context `{MSN : MessageSeriesNode Node}.

Inductive MessageSeriesTopologyIssue :=
| UnresolvedParent (child : Node)
| CrossCorrelation (child parent : Node)
| Cycle (nodes : list Node).

Record MessageSeries := mkSeries { series_nodes : list Node }.
Definition MessageSeries_new : MessageSeries := mkSeries [].

(** [get]: the first node of the identity *)
Definition series_get (s : MessageSeries) (id : NodeMessageId) : option Node :=
  List.find (λ node, bool_decide (node_message_id node = id)) (series_nodes s).

Definition series_insert (s : MessageSeries) (node : Node)
  : result (MessageSeriesInsertOutcome * MessageSeries) ContractError :=
  match series_get s (node_message_id node) with
  | Some existing =>
    if bool_decide (existing = node) then Ok (Duplicate, s)
    else Err (contract_error ContractIdentityConflict "message series node")
  | None =>
    fail! Nat.eqb (length (series_nodes s)) MAX_MESSAGE_SERIES_NODES
      with contract_bounded TooManyEntries "message series"
             (N.of_nat MAX_MESSAGE_SERIES_NODES + 1) (N.of_nat MAX_MESSAGE_SERIES_NODES);
    Ok (Inserted, mkSeries (series_nodes s ++ [node]))
  end.

(** [try_from_nodes], which is also what deserialization does with the nodes
    of the array *)
Definition series_try_from_nodes (nodes : list Node) : result MessageSeries ContractError :=
  try_fold (λ s node, rmap snd (series_insert s node)) MessageSeries_new nodes.

Definition series_roots (s : MessageSeries) : list Node :=
  filter (λ node, node_causation_id node = None) (series_nodes s).
Definition direct_children (s : MessageSeries) (id : NodeMessageId) : list Node :=
  filter (λ node, node_causation_id node = Some id) (series_nodes s).
Definition unresolved_nodes (s : MessageSeries) : list Node :=
  let identities : gset NodeMessageId := list_to_set (node_message_id <$> series_nodes s) in
  filter (λ node, is_some_and (λ id, bool_decide (id ∉ identities)) (node_causation_id node) = true)
    (series_nodes s).

(** [node_indexes]: a later node of an identity replaces an earlier one. *)
Definition node_indexes (nodes : list Node) : gmap NodeMessageId nat :=
  foldl (λ indexes p, <[node_message_id p.2 := p.1]> indexes) ∅ (zip (seq 0 (length nodes)) nodes).

(** The closure of [topology_issues] over one child: its parent's index and
    the issues of the edge *)
Definition parent_edge (nodes : list Node) (indexes : gmap NodeMessageId nat) (child : Node)
  : option nat * list MessageSeriesTopologyIssue :=
  match node_causation_id child with
  | None => (None, [])
  | Some id =>
    match indexes !! id with
    | None => (None, [UnresolvedParent child])
    | Some parent_index =>
      match nodes !! parent_index with
      | None => (None, [])
      | Some parent =>
        (Some parent_index,
         if bool_decide (node_correlation_id child = node_correlation_id parent) then []
         else [CrossCorrelation child parent])
      end
    end
  end.

Definition topology_issues (s : MessageSeries) : option (list MessageSeriesTopologyIssue) :=
  let nodes := series_nodes s in
  let edges := map (parent_edge nodes (node_indexes nodes)) nodes in
  cycles ← find_cycles (map fst edges);
  Some (concat (map snd edges)
        ++ map (λ cycle, Cycle (omap (λ index, nodes !! index) cycle)) cycles).

(** ** Facts *)

(** Distinct identities, within the limit *)
Definition series_ok (s : MessageSeries) : Prop :=
  NoDup (node_message_id <$> series_nodes s) ∧ length (series_nodes s) <= MAX_MESSAGE_SERIES_NODES.

Lemma series_get_Some s id node :
  series_get s id = Some node → node ∈ series_nodes s ∧ node_message_id node = id.
Proof.
  unfold series_get. intros [Hin Hb]%List.find_some. split; [by apply list_elem_of_In|].
  by apply bool_decide_eq_true in Hb.
Qed.

Lemma series_get_None s id :
  series_get s id = None ↔ id ∉ node_message_id <$> series_nodes s.
Proof.
  unfold series_get. split.
  - intros Hf (node & -> & Hin)%list_elem_of_fmap. apply list_elem_of_In in Hin.
    pose proof (List.find_none _ _ Hf node Hin) as Hb. by apply bool_decide_eq_false in Hb.
  - intros Hn. destruct (List.find _ _) as [node|] eqn:E; [|done].
    apply series_get_Some in E as [Hin <-]. exfalso. apply Hn. by apply list_elem_of_fmap_2.
Qed.

Lemma series_get_elem s node :
  series_ok s → node ∈ series_nodes s → series_get s (node_message_id node) = Some node.
Proof.
  intros [Hnd _] Hin. destruct (series_get s _) as [other|] eqn:E.
  - apply series_get_Some in E as [Ho E]. f_equal.
    apply list_elem_of_lookup in Hin as [i Hi], Ho as [j Hj].
    assert (j = i) as ->; [|congruence].
    eapply NoDup_lookup; [exact Hnd| |]; rewrite list_lookup_fmap.
    + by rewrite Hj.
    + rewrite Hi. cbn. by rewrite E.
  - apply series_get_None in E. exfalso. apply E. by apply list_elem_of_fmap_2.
Qed.

(** Insertion keeps identities distinct and the series within
    its limit, and is idempotent: a new identity is appended while there is
    room, the same node again changes nothing - also in a full series - and
    another node under a known identity is a conflict that changes nothing. *)
Theorem series_insert_spec s node :
  series_ok s →
  match series_insert s node with
  | Ok (Inserted, s') =>
      node_message_id node ∉ node_message_id <$> series_nodes s
      ∧ series_nodes s' = series_nodes s ++ [node] ∧ series_ok s'
      ∧ series_insert s' node = Ok (Duplicate, s')
  | Ok (Duplicate, s') => s' = s ∧ node ∈ series_nodes s
  | Err e =>
      ce_kind e = ContractIdentityConflict
        ∧ (∃ other, other ∈ series_nodes s ∧ node_message_id other = node_message_id node ∧ other ≠ node)
      ∨ ce_kind e = TooManyEntries ∧ node_message_id node ∉ node_message_id <$> series_nodes s
        ∧ length (series_nodes s) = MAX_MESSAGE_SERIES_NODES
  end.
Proof.
  intros Hok. unfold series_insert at 1. destruct (series_get s _) as [existing|] eqn:E.
  - apply series_get_Some in E as [Hin E]. case_bool_decide as Hd; [by subst|]. left. eauto.
  - apply series_get_None in E. destruct (Nat.eqb_spec (length (series_nodes s)) MAX_MESSAGE_SERIES_NODES) as [El|El].
    { right. done. }
    assert (series_ok (mkSeries (series_nodes s ++ [node]))) as Hok'.
    { destruct Hok as [Hnd Hl]. split; cbn [series_nodes]; [|rewrite length_app; cbn; lia].
      rewrite fmap_app. apply NoDup_app. split_and!; [done| |apply NoDup_singleton].
      intros id Hid ->%list_elem_of_singleton. done. }
    split_and!; [done..|]. unfold series_insert.
    rewrite (series_get_elem _ node Hok') by (cbn; set_solver). by rewrite bool_decide_eq_true_2.
Qed.

(** The nodes a series was built from are read back from its array. *)
Lemma series_from_nodes s : series_ok s → series_try_from_nodes (series_nodes s) = Ok s.
Proof.
  destruct s as [nodes]. intros Hok. unfold series_try_from_nodes, MessageSeries_new. cbn [series_nodes].
  assert (∀ done rest, series_ok (mkSeries (done ++ rest)) →
    try_fold (λ s node, rmap snd (series_insert s node)) (mkSeries done) rest = Ok (mkSeries (done ++ rest)))
    as Hgo; [|by apply (Hgo [])].
  clear Hok nodes. intros done rest. revert done. induction rest as [|node rest IH]; intros done Hok.
  { by rewrite app_nil_r. }
  cbn [try_fold]. unfold series_insert. destruct Hok as [Hnd Hl]. cbn [series_nodes] in *.
  rewrite length_app in Hl. cbn [length] in Hl.
  assert (node_message_id node ∉ node_message_id <$> done) as Hn.
  { rewrite fmap_app, fmap_cons in Hnd. apply NoDup_app in Hnd as (_ & Hd & _).
    intros Hin. apply (Hd _ Hin). set_solver. }
  rewrite (proj2 (series_get_None (mkSeries done) _) Hn). cbn [series_nodes].
  destruct (Nat.eqb_spec (length done) MAX_MESSAGE_SERIES_NODES); [lia|]. cbn.
  rewrite IH; [by rewrite <- app_assoc|]. rewrite <- app_assoc. split; [done|].
  cbn [series_nodes]. rewrite length_app. cbn. lia.
Qed.

Lemma node_indexes_from b nodes (m : gmap NodeMessageId nat) id j :
  NoDup (node_message_id <$> nodes) →
  foldl (λ indexes p, <[node_message_id p.2 := p.1]> indexes) m (zip (seq b (length nodes)) nodes) !! id = Some j
  ↔ (∃ k node, nodes !! k = Some node ∧ node_message_id node = id ∧ j = b + k)
    ∨ id ∉ node_message_id <$> nodes ∧ m !! id = Some j.
Proof.
  revert b m; induction nodes as [|x nodes IH]; intros b m Hnd; cbn [length seq zip zip_with foldl].
  { split; [right; split; [set_solver|done]|]. by intros [(k & n & ? & _)|[_ ?]]. }
  rewrite fmap_cons in Hnd. apply NoDup_cons in Hnd as [Hx Hnd]. rewrite IH by done. cbn [fst snd]. split.
  - intros [(k & n & Hk & <- & ->)|[Hid Hm]]; [left; exists (Datatypes.S k), n; split_and!; [done..|lia]|].
    apply lookup_insert_Some in Hm as [[<- <-]|[Hne Hm]]; [left; exists 0, x; split_and!; [done..|lia]|].
    right. split; [|done]. rewrite fmap_cons. set_solver.
  - intros [([|k] & n & Hk & <- & ->)|[Hid Hm]].
    + cbn in Hk. injection Hk as ->. right. split; [done|]. rewrite lookup_insert_eq. f_equal. lia.
    + left. exists k, n. split_and!; [done..|lia].
    + rewrite fmap_cons in Hid. right. split; [set_solver|]. rewrite lookup_insert_ne; [done|set_solver].
Qed.

Lemma node_indexes_Some nodes id j :
  NoDup (node_message_id <$> nodes) →
  node_indexes nodes !! id = Some j ↔ ∃ node, nodes !! j = Some node ∧ node_message_id node = id.
Proof.
  intros Hnd. unfold node_indexes. rewrite node_indexes_from by done. split.
  - intros [(k & n & Hk & <- & ->)|[_ ?]]; [|by rewrite lookup_empty in *]. by exists n.
  - intros (n & Hn & <-). left. by exists j, n.
Qed.

Section Topology.
Context (s : MessageSeries) (Hok : series_ok s).

Definition parents_of : list (option nat) :=
  map fst (map (parent_edge (series_nodes s) (node_indexes (series_nodes s))) (series_nodes s)).

(** A parent link is a causation. *)
Lemma parents_of_Some i j x y :
  series_nodes s !! i = Some x → series_nodes s !! j = Some y →
  parent parents_of i = Some j ↔ node_causation_id x = Some (node_message_id y).
Proof.
  intros Hi Hj. unfold parent, parents_of. rewrite map_map, list_lookup_fmap, Hi. cbn.
  unfold parent_edge. destruct (node_causation_id x) as [id|]; [|done].
  destruct (node_indexes (series_nodes s) !! id) as [k|] eqn:E.
  - pose proof E as E'. apply node_indexes_Some in E' as (z & Hz & Ez); [|apply Hok].
    rewrite Hz. cbn. split; intros Ekj; injection Ekj as ->; [congruence|].
    assert (node_indexes (series_nodes s) !! node_message_id y = Some j) as E2
      by (apply node_indexes_Some; [apply Hok|]; by exists y).
    congruence.
  - cbn. split; [done|]. intros [= ->]. exfalso.
    assert (node_indexes (series_nodes s) !! node_message_id y = Some j) as E2
      by (apply node_indexes_Some; [apply Hok|]; by exists y).
    congruence.
Qed.

Lemma length_parents_of : length parents_of = length (series_nodes s).
Proof. unfold parents_of. by rewrite !length_map. Qed.

(** Each node was caused by the next one. *)
Fixpoint caused (ns : list Node) : Prop :=
  match ns with
  | x :: ((y :: _) as r) => node_causation_id x = Some (node_message_id y) ∧ caused r
  | _ => True
  end.

(** A causal cycle of nodes of the series, written from the one observed first *)
Definition causal_cycle (ns : list Node) : Prop :=
  ∃ h t, ns = h :: t ∧ NoDup ns ∧ caused (ns ++ [h])
    ∧ ∀ n, n ∈ ns → ∃ i j, series_nodes s !! i = Some h ∧ series_nodes s !! j = Some n ∧ i <= j.

Definition at_indexes : list nat → list Node → Prop :=
  Forall2 (λ i n, series_nodes s !! i = Some n).

Lemma series_nodes_inj i j n :
  series_nodes s !! i = Some n → series_nodes s !! j = Some n → i = j.
Proof.
  intros Hi Hj. eapply NoDup_lookup; [apply Hok|..]; rewrite list_lookup_fmap.
  - by rewrite Hi.
  - by rewrite Hj.
Qed.

Lemma linked_caused c ns : at_indexes c ns → linked parents_of c ↔ caused ns.
Proof.
  induction 1 as [|i x c ns Hi Hc IH]; [done|]. destruct Hc as [|j y c ns Hj Hc]; [done|].
  cbn [linked caused] in *. by rewrite IH, (parents_of_Some i j x y).
Qed.

Lemma at_indexes_NoDup c ns : at_indexes c ns → NoDup c ↔ NoDup ns.
Proof.
  induction 1 as [|i n c ns Hi Hc IH]; [split; constructor|]. rewrite !NoDup_cons, IH.
  assert (i ∈ c ↔ n ∈ ns) as ->; [|done]. clear IH.
  induction Hc as [|j m c ns Hj _ IH]; [set_solver|]. rewrite !elem_of_cons, IH. split.
  - intros [->|?]; [left; congruence|by right].
  - intros [->|?]; [left; by eapply series_nodes_inj|by right].
Qed.

Lemma reported_causal c ns : at_indexes c ns → reported parents_of c ↔ causal_cycle ns.
Proof.
  intros H. unfold reported, is_cycle, causal_cycle. destruct H as [|h x c ns Hh H].
  { split; [by intros ((h & t & [=] & _) & _)|by intros (h & t & [=] & _)]. }
  assert (at_indexes (h :: c) (x :: ns)) as Hall by by constructor.
  assert (at_indexes ((h :: c) ++ [h]) ((x :: ns) ++ [x])) as Hloop.
  { apply Forall2_app; [done|]. by repeat constructor. }
  split.
  - intros ((h' & t & [= <- <-] & Hnd & Hl) & k & [= <-] & Hle). exists x, ns. split_and!; [done|..].
    + by apply (at_indexes_NoDup (h :: c)).
    + by apply (linked_caused ((h :: c) ++ [h])).
    + intros n [l Hn]%list_elem_of_lookup. destruct (Forall2_lookup_r _ _ _ _ _ Hall Hn) as (i & Hli & Hi).
      exists h, i. split_and!; [done..|]. apply Hle. by eapply list_elem_of_lookup_2.
  - intros (x' & t & [= <- <-] & Hnd & Hl & Hle). split.
    + exists h, c. split_and!; [done| |].
      * by apply (at_indexes_NoDup _ (x :: ns)).
      * by apply (linked_caused _ ((x :: ns) ++ [x])).
    + exists h. split; [done|]. intros i [l Hi]%list_elem_of_lookup.
      destruct (Forall2_lookup_l _ _ _ _ _ Hall Hi) as (n & Hln & Hn).
      destruct (Hle n) as (i' & j' & Hi' & Hj' & Hij); [by eapply list_elem_of_lookup_2|].
      by rewrite (series_nodes_inj _ _ _ Hh Hi'), (series_nodes_inj _ _ _ Hn Hj').
Qed.

Lemma at_indexes_omap c ns :
  at_indexes c ns → omap (λ index, series_nodes s !! index) c = ns.
Proof. induction 1 as [|i n c ns Hi _ IH]; [done|]. cbn. by rewrite Hi, IH. Qed.

Lemma at_indexes_total c :
  (∀ i, i ∈ c → i < length (series_nodes s)) → ∃ ns, at_indexes c ns.
Proof.
  induction c as [|i c IH]; intros Hc; [by exists []; constructor|].
  destruct IH as [ns Hns]; [set_solver|].
  destruct (lookup_lt_is_Some_2 (series_nodes s) i) as [n Hn]; [set_solver|]. exists (n :: ns). by constructor.
Qed.

Lemma at_indexes_nodes ns :
  (∀ n, n ∈ ns → n ∈ series_nodes s) → ∃ c, at_indexes c ns.
Proof.
  induction ns as [|n ns IH]; intros Hc; [by exists []; constructor|].
  destruct IH as [c Hns]; [set_solver|].
  destruct (proj1 (list_elem_of_lookup (series_nodes s) n)) as [i Hi]; [set_solver|].
  exists (i :: c). by constructor.
Qed.

Lemma causal_cycle_nodes ns n : causal_cycle ns → n ∈ ns → n ∈ series_nodes s.
Proof. intros (h & t & _ & _ & _ & Hle) Hn. destruct (Hle n Hn) as (_ & j & _ & Hj & _). by eapply list_elem_of_lookup_2. Qed.

(** The cycle issues are the causal cycles. *)
Lemma cycles_causal cycles :
  (∀ c, c ∈ cycles ↔ reported parents_of c) →
  ∀ ns, ns ∈ map (omap (λ index, series_nodes s !! index)) cycles ↔ causal_cycle ns.
Proof.
  intros Hc ns. rewrite list_elem_of_fmap. split.
  - intros (c & -> & Hr%Hc). destruct (at_indexes_total c) as [ns Hns].
    { intros i Hi. rewrite <- length_parents_of. eapply is_cycle_range; [apply Hr|done]. }
    rewrite (at_indexes_omap _ _ Hns). by apply (reported_causal c).
  - intros Hcc. destruct (at_indexes_nodes ns) as [c Hns]; [by intros; eapply causal_cycle_nodes|].
    exists c. split; [by rewrite (at_indexes_omap _ _ Hns)|]. by apply Hc, (reported_causal c ns).
Qed.

(** A chain of causes that comes back to one of its nodes contains a causal
    cycle. *)
Lemma closed_chain_cycle path n :
  NoDup path → (∀ m, m ∈ path → m ∈ series_nodes s) → caused (path ++ [n]) → n ∈ path →
  ∃ ns, causal_cycle ns.
Proof.
  intros Hnd Hin Hl Hn. destruct (at_indexes_nodes path Hin) as [c Hc].
  apply list_elem_of_lookup in Hn as [k Hk]. destruct (Forall2_lookup_r _ _ _ _ _ Hc Hk) as (i & Hi & Hsi).
  destruct (closed_cycle_reported parents_of c i) as (d & _ & Hr & _ & Hd).
  - by apply (at_indexes_NoDup c path).
  - apply (linked_caused (c ++ [i]) (path ++ [n])); [|done]. apply Forall2_app; [done|]. by repeat constructor.
  - by eapply list_elem_of_lookup_2.
  - destruct (at_indexes_total d) as [ns Hns].
    { intros j Hj. rewrite <- length_parents_of. eapply is_cycle_range; [apply Hr|done]. }
    exists ns. by apply (reported_causal d).
Qed.

(** The edge issues of one child *)
Lemma parent_edge_issues child issue :
  child ∈ series_nodes s →
  issue ∈ snd (parent_edge (series_nodes s) (node_indexes (series_nodes s)) child) ↔
  match issue with
  | UnresolvedParent c => c = child ∧ ∃ id, node_causation_id child = Some id ∧ series_get s id = None
  | CrossCorrelation c p =>
      c = child ∧ p ∈ series_nodes s ∧ node_causation_id child = Some (node_message_id p)
      ∧ node_correlation_id child ≠ node_correlation_id p
  | Cycle _ => False
  end.
Proof.
  intros Hin. unfold parent_edge. destruct (node_causation_id child) as [id|].
  2:{ cbn. rewrite elem_of_nil. destruct issue; naive_solver. }
  destruct (node_indexes (series_nodes s) !! id) as [k|] eqn:E.
  - apply node_indexes_Some in E as (p & Hp & <-); [|apply Hok]. rewrite Hp.
    assert (series_get s (node_message_id p) = Some p) as Hg.
    { apply series_get_elem; [done|]. by eapply list_elem_of_lookup_2. }
    cbn. case_bool_decide as Hcor.
    + rewrite elem_of_nil. destruct issue as [|c p'|]; [naive_solver| |done].
      split; [done|]. intros (_ & Hp' & [= Hid] & Hne).
      apply series_get_elem in Hp'; [|done]. congruence.
    + rewrite list_elem_of_singleton. destruct issue as [|c p'|]; [naive_solver| |done]. split.
      * intros [= -> ->]. split_and!; [done| |done..]. by eapply list_elem_of_lookup_2.
      * intros (-> & Hp' & [= Hid] & Hne). apply series_get_elem in Hp'; [|done]. congruence.
  - assert (series_get s id = None) as Hg.
    { apply series_get_None. intros (n & -> & Hn)%list_elem_of_fmap.
      apply list_elem_of_lookup in Hn as [j Hj].
      assert (node_indexes (series_nodes s) !! node_message_id n = Some j); [|congruence].
      apply node_indexes_Some; [apply Hok|]. by exists n. }
    cbn. rewrite list_elem_of_singleton. destruct issue as [|c p|]; [naive_solver| |done].
    split; [done|]. intros (_ & Hp & [= ->] & _). apply series_get_elem in Hp; [|done]. congruence.
Qed.

End Topology.

(** C39 (functional). Topology reporting is exact: it always returns, a child is
    unresolved when its cause is not in the series, an edge crosses correlations
    when cause and effect have different ones, and the cycles reported are all
    causal cycles of the series, each from the node observed first. *)
Theorem topology_issues_spec s :
  series_ok s →
  ∃ issues, topology_issues s = Some issues
    ∧ (∀ child, UnresolvedParent child ∈ issues ↔
         child ∈ series_nodes s ∧ ∃ id, node_causation_id child = Some id ∧ series_get s id = None)
    ∧ (∀ child p, CrossCorrelation child p ∈ issues ↔
         child ∈ series_nodes s ∧ p ∈ series_nodes s
         ∧ node_causation_id child = Some (node_message_id p)
         ∧ node_correlation_id child ≠ node_correlation_id p)
    ∧ (∀ ns, Cycle ns ∈ issues ↔ causal_cycle s ns).
Proof.
  intros Hok. destruct (find_cycles_spec (parents_of s)) as (cycles & E & Hc & _).
  exists (concat (map snd (map (parent_edge (series_nodes s) (node_indexes (series_nodes s))) (series_nodes s)))
          ++ map (λ cycle, Cycle (omap (λ index, series_nodes s !! index) cycle)) cycles).
  split; [by unfold topology_issues; fold (parents_of s); rewrite E|].
  assert (∀ issue, issue ∈ concat (map snd (map (parent_edge (series_nodes s) (node_indexes (series_nodes s))) (series_nodes s)))
    ↔ ∃ child, child ∈ series_nodes s
        ∧ issue ∈ snd (parent_edge (series_nodes s) (node_indexes (series_nodes s)) child)) as Hedge.
  { intros issue. rewrite map_map, list_elem_of_In, in_concat. split.
    - intros (l & (child & <- & Hch)%in_map_iff & Hl). exists child. by rewrite !list_elem_of_In.
    - intros (child & Hch & Hl). eexists. split; [|by apply list_elem_of_In].
      apply in_map_iff. exists child. split; [done|]. by apply list_elem_of_In. }
  assert (∀ issue, issue ∈ map (λ cycle, Cycle (omap (λ index, series_nodes s !! index) cycle)) cycles
    ↔ ∃ ns, issue = Cycle ns ∧ causal_cycle s ns) as Hcyc.
  { intros issue. setoid_rewrite <- (cycles_causal s Hok cycles Hc).
    rewrite list_elem_of_fmap. setoid_rewrite list_elem_of_fmap. naive_solver. }
  split_and!.
  - intros child. rewrite elem_of_app, Hedge, Hcyc. split; [|intros [Hch Hid]; left; exists child; split; [done|]].
    + intros [(c & Hch & (-> & ?)%parent_edge_issues)|(? & ? & _)]; done.
    + by apply parent_edge_issues.
  - intros child p. rewrite elem_of_app, Hedge, Hcyc. split; [|intros [Hch Hp]; left; exists child; split; [done|]].
    + intros [(c & Hch & (-> & ?)%parent_edge_issues)|(? & ? & _)]; done.
    + by apply parent_edge_issues.
  - intros ns. rewrite elem_of_app, Hedge, Hcyc. split; [|eauto].
    intros [(c & Hch & []%parent_edge_issues)|(? & [= <-] & ?)]; done.
Qed.

End Series.

(** ** Witnesses *)

(** Nodes of (message, correlation, causation) *)
Definition sample_node : Type := nat * nat * option nat.
Definition sample_series_node : MessageSeriesNode sample_node :=
  {| NodeMessageId := nat; NodeCorrelationId := nat; node_message_id := λ n, n.1.1;
     node_correlation_id := λ n, n.1.2; node_causation_id := λ n, n.2 |}.

Section Witnesses.
#[local] Existing Instance sample_series_node.

(** A cycle of two correlations and a child of an absent parent *)
Definition sample_series : MessageSeries :=
  mkSeries [(1, 7, Some 2); (2, 8, Some 1); (3, 7, Some 9)].

Lemma sample_series_ok : series_ok sample_series.
Proof. split; [by apply (bool_decide_unpack _); vm_compute|by apply Nat.leb_le; vm_compute]. Qed.

Lemma series_insert_spec_witness :
  ∃ s', series_insert sample_series (9, 7, None) = Ok (Inserted, s') ∧ series_ok s'.
Proof.
  destruct (series_insert sample_series (9, 7, None)) as [[[] s']|] eqn:E;
    try by (exfalso; revert E; vm_compute).
  exists s'. split; [done|].
  pose proof (series_insert_spec sample_series (9, 7, None) sample_series_ok) as H.
  rewrite E in H. apply H.
Defined.

Lemma topology_issues_spec_witness :
  ∃ issues, topology_issues sample_series = Some issues
    ∧ UnresolvedParent (3, 7, Some 9) ∈ issues
    ∧ Cycle [(1, 7, Some 2); (2, 8, Some 1)] ∈ issues.
Proof.
  destruct (topology_issues_spec sample_series sample_series_ok) as (issues & E & Hu & _ & Hc).
  exists issues. split_and!; [done|apply Hu|apply Hc].
  - split; [set_solver|]. exists 9. by split.
  - eexists _, _. split_and!; [done|by apply (bool_decide_unpack _); vm_compute|by repeat split|].
    intros n [->|[->|[]%elem_of_nil]%elem_of_cons]%elem_of_cons;
      [exists 0, 0|exists 0, 1]; by repeat split; auto.
Defined.
End Witnesses.
