(* ===== verification/Envelope.v ===== *)
(** * Envelope: event codec errors, new events, commit batches and recorded
    events (crates/rostfrei-core/src/envelope.rs and the error types of
    aggregate.rs). *)

From S2P Require Export Identity.

(** ** Codec errors (aggregate.rs) *)

Inductive EventCodecErrorKind :=
| UnknownEventType
| UnsupportedSchemaVersion
| MalformedPayload
| ConversionFailed
| InvalidEnvelope
| EncodingFailed.

#[global] Instance EventCodecErrorKind_eq_dec : EqDecision EventCodecErrorKind.
Proof. solve_decision. Defined.

Definition EventCodecErrorKind_debug (k : EventCodecErrorKind) : string :=
  match k with
  | UnknownEventType => "UnknownEventType"
  | UnsupportedSchemaVersion => "UnsupportedSchemaVersion"
  | MalformedPayload => "MalformedPayload"
  | ConversionFailed => "ConversionFailed"
  | InvalidEnvelope => "InvalidEnvelope"
  | EncodingFailed => "EncodingFailed"
  end.

Record EventCodecError := mkCodecError {
  codec_kind : EventCodecErrorKind;
  codec_message : string;
}.

#[global] Instance EventCodecError_eq_dec : EqDecision EventCodecError.
Proof. solve_decision. Defined.

(** [#[error("{kind:?}: {message}")]] *)
Definition EventCodecError_display (e : EventCodecError) : string :=
  EventCodecErrorKind_debug (codec_kind e) +:+ ": " +:+ codec_message e.

(** ** Limits *)

Definition MAX_EVENT_TYPE_LEN : N := 128.
Definition MAX_EVENT_PAYLOAD_LEN : N := 1024 * 1024.
Definition MAX_BATCH_PAYLOAD_LEN : N := 1024 * 1024.
Definition MAX_EVENTS_PER_BATCH : N := 100.

(** ** Stream versions *)

Record StreamVersion := mkStreamVersion { version_value : N }.

#[global] Instance StreamVersion_eq_dec : EqDecision StreamVersion.
Proof. solve_decision. Defined.

Definition version_zero : StreamVersion := mkStreamVersion 0.
Definition version_next (v : StreamVersion) : option StreamVersion :=
  mkStreamVersion <$> checked_add u64_max (version_value v) 1.

Inductive ExpectedVersion := NoStream | Exact (version : StreamVersion).

#[global] Instance ExpectedVersion_eq_dec : EqDecision ExpectedVersion.
Proof. solve_decision. Defined.

Inductive EnvelopeError :=
| EmptyEventType
| EventTypeTooLong (maximum : N)
| InvalidEventType
| InvalidSchemaVersion
| EventPayloadTooLarge (maximum : N)
| EmptyBatch
| BatchTooLarge (actual maximum : N)
| BatchPayloadTooLarge (maximum : N)
| DuplicateEventId
| ZeroRecordedVersion
| InvalidCommitCoordinates.

Definition EnvelopeError_display (e : EnvelopeError) : string :=
  match e with
  | EmptyEventType => "event type must not be empty"
  | EventTypeTooLong m => "event type exceeds its " +:+ n_to_string m +:+ "-byte limit"
  | InvalidEventType =>
    "event type must not have leading or trailing whitespace or control characters"
  | InvalidSchemaVersion => "schema version must be greater than zero"
  | EventPayloadTooLarge m => "event payload exceeds its " +:+ n_to_string m +:+ "-byte limit"
  | EmptyBatch => "an event batch must contain at least one event"
  | BatchTooLarge actual m =>
    "event batch contains " +:+ n_to_string actual +:+ " domain events, exceeding the "
      +:+ n_to_string m +:+ "-event atomic commit limit; split the work across commands"
  | BatchPayloadTooLarge m =>
    "an event batch payload exceeds its " +:+ n_to_string m +:+ "-byte limit"
  | DuplicateEventId => "an event batch must not contain duplicate event identities"
  | ZeroRecordedVersion => "a recorded event must have a non-zero stream version"
  | InvalidCommitCoordinates => "a recorded event has invalid commit coordinates"
  end.

Definition validate_event_type (event_type : string) : result unit EnvelopeError :=
  fail! String.eqb event_type "" with EmptyEventType;
  fail! MAX_EVENT_TYPE_LEN <? str_len event_type with EventTypeTooLong MAX_EVENT_TYPE_LEN;
  fail! negb (String.eqb (trim event_type) event_type) || any_control event_type
    with InvalidEventType;
  Ok tt.

(** ** New events and batches *)

Record NewEvent := mkNewEvent {
  ne_event_id : EventId;
  ne_event_type : string;
  ne_schema_version : N;
  ne_payload : list byte;
}.

#[global] Instance NewEvent_eq_dec : EqDecision NewEvent.
Proof. solve_decision. Defined.

Definition NewEvent_new (event_id : EventId) (event_type : string) (schema_version : N)
    (payload : list byte) : result NewEvent EnvelopeError :=
  let? _ := validate_event_type event_type in
  fail! schema_version =? 0 with InvalidSchemaVersion;
  fail! MAX_EVENT_PAYLOAD_LEN <? len payload with EventPayloadTooLarge MAX_EVENT_PAYLOAD_LEN;
  Ok (mkNewEvent event_id event_type schema_version payload).

Record EventBatch := mkEventBatch {
  eb_actor : option ActorRef;
  eb_commit_id : CommitId;
  eb_operation_id : OperationId;
  eb_operation_fingerprint : ContentFingerprint;
  eb_events : list NewEvent;
  eb_correlation_id : option CorrelationId;
  eb_causation_id : option CausationId;
}.

#[global] Instance EventBatch_eq_dec : EqDecision EventBatch.
Proof. solve_decision. Defined.

(** The payload total, [None] on overflow *)
Definition payload_total (events : list NewEvent) : option N :=
  foldl (λ total event, total ≫= λ t, checked_add usize_max t (len (ne_payload event)))
    (Some 0) events.

Definition EventBatch_new (commit_id : CommitId) (operation_id : OperationId)
    (operation_fingerprint : ContentFingerprint) (events : list NewEvent)
  : result EventBatch EnvelopeError :=
  fail! len events =? 0 with EmptyBatch;
  fail! MAX_EVENTS_PER_BATCH <? len events with BatchTooLarge (len events) MAX_EVENTS_PER_BATCH;
  fail! is_none_or (λ total, MAX_BATCH_PAYLOAD_LEN <? total) (payload_total events)
    with BatchPayloadTooLarge MAX_BATCH_PAYLOAD_LEN;
  let unique_ids : gset EventId := list_to_set (ne_event_id <$> events) in
  fail! negb (N.of_nat (size unique_ids) =? len events) with DuplicateEventId;
  Ok {| eb_actor := None; eb_commit_id := commit_id; eb_operation_id := operation_id;
        eb_operation_fingerprint := operation_fingerprint; eb_events := events;
        eb_correlation_id := None; eb_causation_id := None |}.

Definition batch_with_actor (b : EventBatch) (a : ActorRef) : EventBatch :=
  mkEventBatch (Some a) (eb_commit_id b) (eb_operation_id b) (eb_operation_fingerprint b)
    (eb_events b) (eb_correlation_id b) (eb_causation_id b).
Definition batch_with_correlation_id (b : EventBatch) (c : CorrelationId) : EventBatch :=
  mkEventBatch (eb_actor b) (eb_commit_id b) (eb_operation_id b) (eb_operation_fingerprint b)
    (eb_events b) (Some c) (eb_causation_id b).
Definition batch_with_causation_id (b : EventBatch) (c : CausationId) : EventBatch :=
  mkEventBatch (eb_actor b) (eb_commit_id b) (eb_operation_id b) (eb_operation_fingerprint b)
    (eb_events b) (eb_correlation_id b) (Some c).

(** ** Recorded events *)

Record RecordedEvent := mkRecordedEvent {
  re_actor : option ActorRef;
  re_stream_id : StreamId;
  re_stream_version : StreamVersion;
  re_event_id : EventId;
  re_commit_id : CommitId;
  re_operation_id : OperationId;
  re_operation_fingerprint : ContentFingerprint;
  re_commit_event_ordinal : N;
  re_commit_event_count : N;
  re_correlation_id : option CorrelationId;
  re_causation_id : option CausationId;
  re_event_type : string;
  re_schema_version : N;
  re_payload : list byte;
}.

#[global] Instance RecordedEvent_eq_dec : EqDecision RecordedEvent.
Proof. solve_decision. Defined.

Definition new_in_commit (stream_id : StreamId) (stream_version : StreamVersion)
    (event_id : EventId) (commit_id : CommitId) (operation_id : OperationId)
    (operation_fingerprint : ContentFingerprint) (commit_event_ordinal commit_event_count : N)
    (event_type : string) (schema_version : N) (payload : list byte)
  : result RecordedEvent EnvelopeError :=
  fail! bool_decide (stream_version = version_zero) with ZeroRecordedVersion;
  fail! (commit_event_count =? 0)
        || is_some_and (λ maximum, maximum <? commit_event_count)
             (try_from u32_max MAX_EVENTS_PER_BATCH)
        || (commit_event_count <=? commit_event_ordinal)
    with InvalidCommitCoordinates;
  let? _ := validate_event_type event_type in
  fail! schema_version =? 0 with InvalidSchemaVersion;
  fail! MAX_EVENT_PAYLOAD_LEN <? len payload with EventPayloadTooLarge MAX_EVENT_PAYLOAD_LEN;
  Ok {| re_actor := None; re_stream_id := stream_id; re_stream_version := stream_version;
        re_event_id := event_id; re_commit_id := commit_id; re_operation_id := operation_id;
        re_operation_fingerprint := operation_fingerprint;
        re_commit_event_ordinal := commit_event_ordinal;
        re_commit_event_count := commit_event_count; re_correlation_id := None;
        re_causation_id := None; re_event_type := event_type;
        re_schema_version := schema_version; re_payload := payload |}.

Definition RecordedEvent_new (stream_id : StreamId) (stream_version : StreamVersion)
    (event_id : EventId) (commit_id : CommitId) (operation_id : OperationId)
    (operation_fingerprint : ContentFingerprint) (event_type : string) (schema_version : N)
    (payload : list byte) : result RecordedEvent EnvelopeError :=
  new_in_commit stream_id stream_version event_id commit_id operation_id operation_fingerprint
    0 1 event_type schema_version payload.

Definition recorded_with_actor (e : RecordedEvent) (a : ActorRef) : RecordedEvent :=
  mkRecordedEvent (Some a) (re_stream_id e) (re_stream_version e) (re_event_id e)
    (re_commit_id e) (re_operation_id e) (re_operation_fingerprint e)
    (re_commit_event_ordinal e) (re_commit_event_count e) (re_correlation_id e)
    (re_causation_id e) (re_event_type e) (re_schema_version e) (re_payload e).
Definition recorded_with_correlation_id (e : RecordedEvent) (c : CorrelationId) : RecordedEvent :=
  mkRecordedEvent (re_actor e) (re_stream_id e) (re_stream_version e) (re_event_id e)
    (re_commit_id e) (re_operation_id e) (re_operation_fingerprint e)
    (re_commit_event_ordinal e) (re_commit_event_count e) (Some c)
    (re_causation_id e) (re_event_type e) (re_schema_version e) (re_payload e).
Definition recorded_with_causation_id (e : RecordedEvent) (c : CausationId) : RecordedEvent :=
  mkRecordedEvent (re_actor e) (re_stream_id e) (re_stream_version e) (re_event_id e)
    (re_commit_id e) (re_operation_id e) (re_operation_fingerprint e)
    (re_commit_event_ordinal e) (re_commit_event_count e) (re_correlation_id e)
    (Some c) (re_event_type e) (re_schema_version e) (re_payload e).

(** [RecordedEvent::from_new] *)
Definition from_new (stream_id : StreamId) (stream_version : StreamVersion) (batch : EventBatch)
    (commit_event_ordinal commit_event_count : N) (event : NewEvent) : RecordedEvent :=
  {| re_actor := eb_actor batch; re_stream_id := stream_id; re_stream_version := stream_version;
     re_event_id := ne_event_id event; re_commit_id := eb_commit_id batch;
     re_operation_id := eb_operation_id batch;
     re_operation_fingerprint := eb_operation_fingerprint batch;
     re_commit_event_ordinal := commit_event_ordinal;
     re_commit_event_count := commit_event_count;
     re_correlation_id := eb_correlation_id batch; re_causation_id := eb_causation_id batch;
     re_event_type := ne_event_type event; re_schema_version := ne_schema_version event;
     re_payload := ne_payload event |}.

(** ** What the constructors accept *)

Definition payload_sum (events : list NewEvent) : N :=
  foldr (λ e n, len (ne_payload e) + n) 0 events.

Lemma payload_total_sum events :
  payload_sum events <= usize_max → payload_total events = Some (payload_sum events).
Proof.
  unfold payload_total.
  enough (∀ t, t + payload_sum events <= usize_max →
    foldl (λ total event, total ≫= λ t, checked_add usize_max t (len (ne_payload event)))
      (Some t) events = Some (t + payload_sum events)) as H by (intros Hs; by rewrite H).
  induction events as [|e events IH]; intros t; cbn; [by rewrite N.add_0_r|].
  fold (payload_sum events). intros H.
  rewrite (proj2 (checked_add_Some _ _ _ (t + len (ne_payload e)))) by lia.
  rewrite IH by lia. f_equal. lia.
Qed.

Lemma payload_total_Some events total : payload_total events = Some total → total = payload_sum events.
Proof.
  unfold payload_total.
  enough (∀ t, foldl (λ total event, total ≫= λ t, checked_add usize_max t (len (ne_payload event)))
      t events = Some total → ∃ s, t = Some s ∧ total = s + payload_sum events) as H
    by (intros Hs; destruct (H _ Hs) as (s & [= <-] & ->); done).
  induction events as [|e events IH]; intros t; cbn.
  - intros ->. eexists. split; [done|]. lia.
  - fold (payload_sum events). intros (s & Hs & ->)%IH. destruct t as [t|]; [|done].
    apply checked_add_Some in Hs as [-> _]. eexists; split; [done|]. lia.
Qed.

(** What a batch is: the invariant of the type. *)
Record batch_ok (b : EventBatch) : Prop := {
  bo_count : 0 < len (eb_events b) <= MAX_EVENTS_PER_BATCH;
  bo_payload : payload_sum (eb_events b) <= MAX_BATCH_PAYLOAD_LEN;
  bo_ids : NoDup (ne_event_id <$> eb_events b);
}.

Lemma EventBatch_new_Ok commit op fp events b :
  EventBatch_new commit op fp events = Ok b ↔
  b = mkEventBatch None commit op fp events None None ∧ batch_ok b.
Proof.
  unfold EventBatch_new. split.
  - intros H. guards. split; [done|].
    match goal with H : is_none_or _ _ = false |- _ => rename H into Hp end.
    destruct (payload_total events) as [total|] eqn:Et; [|done]. cbn in Hp. bool_step.
    apply payload_total_Some in Et as ->.
    split; cbn [eb_events]; [lia|done|]. apply size_list_to_set_NoDup.
    rewrite length_fmap. unfold len in *. lia.
  - intros [-> [Hc Hp Hi]]; cbn [eb_events] in *.
    rewrite (proj2 (N.eqb_neq _ _)), (proj2 (N.ltb_ge _ _)) by lia.
    rewrite payload_total_sum by (unfold MAX_BATCH_PAYLOAD_LEN, usize_max, u64_max in *; lia).
    cbn [is_none_or]. rewrite (proj2 (N.ltb_ge _ _)) by lia.
    rewrite (proj2 (size_list_to_set_NoDup _)) by done. rewrite length_fmap.
    by rewrite N.eqb_refl.
Qed.

(** A batch is accepted exactly when it holds between 1 and
    100 events with distinct identities and at most one mebibyte of payload in
    total; an accepted batch keeps its events in order, without provenance. *)
Lemma event_batch_new_spec commit op fp events :
  EventBatch_new commit op fp events
  = (if len events =? 0 then Err EmptyBatch
     else if MAX_EVENTS_PER_BATCH <? len events
     then Err (BatchTooLarge (len events) MAX_EVENTS_PER_BATCH)
     else if MAX_BATCH_PAYLOAD_LEN <? payload_sum events
     then Err (BatchPayloadTooLarge MAX_BATCH_PAYLOAD_LEN)
     else if bool_decide (NoDup (ne_event_id <$> events))
     then Ok (mkEventBatch None commit op fp events None None)
     else Err DuplicateEventId).
Proof.
  unfold EventBatch_new. destruct (len events =? 0); [done|].
  destruct (MAX_EVENTS_PER_BATCH <? len events); [done|].
  destruct (MAX_BATCH_PAYLOAD_LEN <? payload_sum events) eqn:Ep; bool_step.
  - destruct (payload_total events) as [t|] eqn:Et; [|done]. apply payload_total_Some in Et as ->.
    cbn. by rewrite (proj2 (N.ltb_lt _ _)).
  - rewrite payload_total_sum by (unfold MAX_BATCH_PAYLOAD_LEN, usize_max, u64_max in *; lia).
    cbn [is_none_or]. rewrite (proj2 (N.ltb_ge _ _)) by lia.
    case_bool_decide as Hn.
    + rewrite (proj2 (size_list_to_set_NoDup _)) by done. rewrite length_fmap.
      by rewrite N.eqb_refl.
    + destruct (N.of_nat _ =? len events) eqn:E; [|done]. exfalso. apply Hn.
      apply size_list_to_set_NoDup. rewrite length_fmap. bool_step. unfold len in E. lia.
Qed.
