(* ===== verification/Store.v ===== *)
(** * Store: the data the event stores exchange - errors, transactions,
    receipts and completed command decisions - with their validators
    (crates/rostfrei-core/src/store.rs and completed_outcome.rs). *)

From S2P Require Export Serde Envelope.

(** ** Store errors *)

Inductive EventStoreErrorKind :=
| InvalidRequest
| Conflict
| IdentityConflict
| CorruptHistory
| CapacityExhausted
| ConfigurationMismatch
| Unavailable
| DetailForbidden
| CompletedDetailsExpired
| CompletedDetailsUnavailable.

#[global] Instance EventStoreErrorKind_eq_dec : EqDecision EventStoreErrorKind.
Proof. solve_decision. Defined.

Definition EventStoreErrorKind_display (k : EventStoreErrorKind) : string :=
  match k with
  | InvalidRequest => "InvalidRequest"
  | Conflict => "Conflict"
  | IdentityConflict => "IdentityConflict"
  | CorruptHistory => "CorruptHistory"
  | CapacityExhausted => "CapacityExhausted"
  | ConfigurationMismatch => "ConfigurationMismatch"
  | Unavailable => "Unavailable"
  | DetailForbidden => "DetailForbidden"
  | CompletedDetailsExpired => "CompletedDetailsExpired"
  | CompletedDetailsUnavailable => "CompletedDetailsUnavailable"
  end.

Inductive EventStoreErrorOrigin := Backend | OutcomeRecovery.

#[global] Instance EventStoreErrorOrigin_eq_dec : EqDecision EventStoreErrorOrigin.
Proof. solve_decision. Defined.

Record EventStoreError := mkStoreError {
  se_kind : EventStoreErrorKind;
  se_message : string;
  se_origin : EventStoreErrorOrigin;
}.

#[global] Instance EventStoreError_eq_dec : EqDecision EventStoreError.
Proof. solve_decision. Defined.

(** [EventStoreError::new] *)
Definition store_error (kind : EventStoreErrorKind) (message : string) : EventStoreError :=
  mkStoreError kind message Backend.
Definition in_outcome_recovery (e : EventStoreError) : EventStoreError :=
  mkStoreError (se_kind e) (se_message e) OutcomeRecovery.
Definition EventStoreError_display (e : EventStoreError) : string :=
  EventStoreErrorKind_display (se_kind e) +:+ ": " +:+ se_message e.

(** The error helpers [corrupt], [invalid] and [identity_conflict] of
    receipt_validation.rs, outcome.rs and memory.rs *)
Definition corrupt (message : string) : EventStoreError := store_error CorruptHistory message.
Definition invalid (message : string) : EventStoreError := store_error InvalidRequest message.
Definition identity_conflict (message : string) : EventStoreError :=
  store_error IdentityConflict message.

(** ** Completed decisions (completed_outcome.rs) *)

Definition MAX_REJECTION_BYTES : N := 64 * 1024.

Definition same_identity (a b : OutcomeEvidence) : bool :=
  bool_decide (authority_scope a = authority_scope b)
  && (fingerprint_version a =? fingerprint_version b)
  && String.eqb (command_type a) (command_type b)
  && (command_schema a =? command_schema b)
  && Bool.eqb (events_caused_by_command a) (events_caused_by_command b)
  && bool_decide (original_causation a = original_causation b).

(** [OutcomeEvidence::validate] *)
Definition evidence_validate (e : OutcomeEvidence) : result unit EventCodecError :=
  fail! (fingerprint_version e =? 0)
        || (command_schema e =? 0)
        || String.eqb (command_type e) ""
        || (256 <? str_len (command_type e))
        || any_control (command_type e)
        || is_some_and (λ id, is_err (CausationId_new id)) (original_causation e)
        || is_some_and (λ timestamp, is_err (from_unix_milliseconds timestamp))
             (created_at_millis e)
        || is_some_and (λ scope,
             String.eqb scope "" || (256 <? str_len scope) || any_control scope)
             (authority_scope e)
    with mkCodecError InvalidEnvelope "invalid completed command evidence";
  Ok tt.

Record EncodedRejection := mkEncodedRejection {
  codec_id : string;
  codec_version : N;
  rejection_bytes : list byte;
}.

#[global] Instance EncodedRejection_eq_dec : EqDecision EncodedRejection.
Proof. solve_decision. Defined.
#[global] Instance EncodedRejection_countable : Countable EncodedRejection.
Proof.
  by refine (inj_countable' (λ r, (codec_id r, codec_version r, rejection_bytes r))
    (λ '(a, b, c), mkEncodedRejection a b c) _); intros [].
Defined.

(** [EncodedRejection::validate] *)
Definition rejection_validate (r : EncodedRejection) : result unit EventCodecError :=
  fail! String.eqb (codec_id r) ""
        || (128 <? str_len (codec_id r))
        || any_control (codec_id r)
        || (codec_version r =? 0)
        || (MAX_REJECTION_BYTES <? len (rejection_bytes r))
    with mkCodecError InvalidEnvelope "invalid or oversized encoded rejection";
  Ok tt.

Record CommandCompletion := mkCommandCompletion {
  completion_version : N;
  completion_evidence : option OutcomeEvidence;
  completion_rejection : option EncodedRejection;
}.

#[global] Instance CommandCompletion_eq_dec : EqDecision CommandCompletion.
Proof. solve_decision. Defined.
#[global] Instance CommandCompletion_countable : Countable CommandCompletion.
Proof.
  by refine (inj_countable'
    (λ c, (completion_version c, completion_evidence c, completion_rejection c))
    (λ '(a, b, c), mkCommandCompletion a b c) _); intros [].
Defined.

Definition CommandCompletion_new (evidence : option OutcomeEvidence)
    (rejection : option EncodedRejection) : CommandCompletion :=
  mkCommandCompletion 1 evidence rejection.

(** [CommandCompletion::validate] *)
Definition completion_validate (c : CommandCompletion) : result unit EventCodecError :=
  fail! negb (completion_version c =? 1)
    with mkCodecError UnsupportedSchemaVersion "unsupported completed outcome version";
  let? evidence := ok_or (completion_evidence c)
    (mkCodecError InvalidEnvelope
       "completed decision requires command type/schema/fingerprint evidence") in
  let? _ := evidence_validate evidence in
  match completion_rejection c with
  | Some rejection => rejection_validate rejection
  | None => Ok tt
  end.

(** ** Transactions (store.rs) *)

Definition MAX_TRANSACTION_ITEMS : N := 100.
Definition TRANSACTION_RECEIPT_ITEMS : N := 1.

Inductive AppendOutcome :=
| Appended (events : list RecordedEvent)
| ExactReplay (events : list RecordedEvent).

Record TransactionParticipant := mkParticipant {
  tp_stream_id : StreamId;
  tp_expected_version : ExpectedVersion;
  tp_batch : option EventBatch;
}.

#[global] Instance TransactionParticipant_eq_dec : EqDecision TransactionParticipant.
Proof. solve_decision. Defined.

Record EventTransaction := mkTransaction {
  tx_actor : option ActorRef;
  tx_security_scope : option SecurityScope;
  tx_completion : option CommandCompletion;
  tx_bounded_context : option BoundedContextName;
  tx_operation_id : OperationId;
  tx_operation_fingerprint : ContentFingerprint;
  tx_correlation_id : option CorrelationId;
  tx_causation_id : option CausationId;
  tx_participants : list TransactionParticipant;
}.

#[global] Instance EventTransaction_eq_dec : EqDecision EventTransaction.
Proof. solve_decision. Defined.

Definition EventTransaction_new (operation_id : OperationId) (fp : ContentFingerprint)
    (participants : list TransactionParticipant) : EventTransaction :=
  {| tx_actor := None; tx_security_scope := None; tx_completion := None;
     tx_bounded_context := None; tx_operation_id := operation_id;
     tx_operation_fingerprint := fp; tx_correlation_id := None; tx_causation_id := None;
     tx_participants := participants |}.

Definition tx_with_actor (t : EventTransaction) (a : ActorRef) : EventTransaction :=
  mkTransaction (Some a) (tx_security_scope t) (tx_completion t) (tx_bounded_context t)
    (tx_operation_id t) (tx_operation_fingerprint t) (tx_correlation_id t) (tx_causation_id t)
    (tx_participants t).
Definition tx_with_security_scope (t : EventTransaction) (s : SecurityScope) : EventTransaction :=
  mkTransaction (tx_actor t) (Some s) (tx_completion t) (tx_bounded_context t)
    (tx_operation_id t) (tx_operation_fingerprint t) (tx_correlation_id t) (tx_causation_id t)
    (tx_participants t).
Definition tx_with_completion (t : EventTransaction) (c : CommandCompletion) : EventTransaction :=
  mkTransaction (tx_actor t) (tx_security_scope t) (Some c) (tx_bounded_context t)
    (tx_operation_id t) (tx_operation_fingerprint t) (tx_correlation_id t) (tx_causation_id t)
    (tx_participants t).
Definition tx_with_bounded_context (t : EventTransaction) (c : BoundedContextName)
  : EventTransaction :=
  mkTransaction (tx_actor t) (tx_security_scope t) (tx_completion t) (Some c)
    (tx_operation_id t) (tx_operation_fingerprint t) (tx_correlation_id t) (tx_causation_id t)
    (tx_participants t).
Definition tx_with_correlation_id (t : EventTransaction) (c : CorrelationId) : EventTransaction :=
  mkTransaction (tx_actor t) (tx_security_scope t) (tx_completion t) (tx_bounded_context t)
    (tx_operation_id t) (tx_operation_fingerprint t) (Some c) (tx_causation_id t)
    (tx_participants t).
Definition tx_with_causation_id (t : EventTransaction) (c : CausationId) : EventTransaction :=
  mkTransaction (tx_actor t) (tx_security_scope t) (tx_completion t) (tx_bounded_context t)
    (tx_operation_id t) (tx_operation_fingerprint t) (tx_correlation_id t) (Some c)
    (tx_participants t).

(** The batches of the participants, in order *)
Definition tx_batches (t : EventTransaction) : list EventBatch := omap tp_batch (tx_participants t).

Definition item_limit_message (item_count : N) : string :=
  "event transaction contains " +:+ n_to_string item_count +:+ " atomic items, exceeding the "
    +:+ n_to_string MAX_TRANSACTION_ITEMS
    +:+ "-item limit; reduce its domain events or read guards, or split the work across commands".

Definition validate_transaction_item_limit (t : EventTransaction) : result N EventStoreError :=
  let? domain_event_count :=
    ok_or (foldl (λ total batch, total ≫= λ n, checked_add usize_max n (len (eb_events batch)))
             (Some 0) (tx_batches t))
      (invalid "transaction event count overflowed") in
  let read_guard_count := len (filter (λ p, tp_batch p = None) (tx_participants t)) in
  let? item_count :=
    ok_or (checked_add usize_max domain_event_count read_guard_count
             ≫= λ count, checked_add usize_max count TRANSACTION_RECEIPT_ITEMS)
      (invalid "transaction item count overflowed") in
  fail! MAX_TRANSACTION_ITEMS <? item_count with invalid (item_limit_message item_count);
  Ok domain_event_count.

(** ** Receipts *)

Record TransactionStreamReceipt := mkStreamReceipt {
  sr_stream_id : StreamId;
  sr_base_version : StreamVersion;
  sr_events : list RecordedEvent;
}.

#[global] Instance TransactionStreamReceipt_eq_dec : EqDecision TransactionStreamReceipt.
Proof. solve_decision. Defined.

Record TransactionReceipt := mkReceipt {
  tr_actor : option ActorRef;
  tr_security_scope : option SecurityScope;
  tr_completion : option CommandCompletion;
  tr_bounded_context : option BoundedContextName;
  tr_operation_id : OperationId;
  tr_operation_fingerprint : ContentFingerprint;
  tr_correlation_id : option CorrelationId;
  tr_causation_id : option CausationId;
  tr_streams : list TransactionStreamReceipt;
}.

#[global] Instance TransactionReceipt_eq_dec : EqDecision TransactionReceipt.
Proof. solve_decision. Defined.

Definition TransactionReceipt_new (operation_id : OperationId) (fp : ContentFingerprint)
    (streams : list TransactionStreamReceipt) : TransactionReceipt :=
  {| tr_actor := None; tr_security_scope := None; tr_completion := None;
     tr_bounded_context := None; tr_operation_id := operation_id;
     tr_operation_fingerprint := fp; tr_correlation_id := None; tr_causation_id := None;
     tr_streams := streams |}.

Definition tr_with_actor (r : TransactionReceipt) (a : ActorRef) : TransactionReceipt :=
  mkReceipt (Some a) (tr_security_scope r) (tr_completion r) (tr_bounded_context r)
    (tr_operation_id r) (tr_operation_fingerprint r) (tr_correlation_id r) (tr_causation_id r)
    (tr_streams r).
Definition tr_with_security_scope (r : TransactionReceipt) (s : SecurityScope)
  : TransactionReceipt :=
  mkReceipt (tr_actor r) (Some s) (tr_completion r) (tr_bounded_context r)
    (tr_operation_id r) (tr_operation_fingerprint r) (tr_correlation_id r) (tr_causation_id r)
    (tr_streams r).
Definition tr_with_completion (r : TransactionReceipt) (c : CommandCompletion)
  : TransactionReceipt :=
  mkReceipt (tr_actor r) (tr_security_scope r) (Some c) (tr_bounded_context r)
    (tr_operation_id r) (tr_operation_fingerprint r) (tr_correlation_id r) (tr_causation_id r)
    (tr_streams r).
Definition without_completion (r : TransactionReceipt) : TransactionReceipt :=
  mkReceipt (tr_actor r) (tr_security_scope r) None (tr_bounded_context r)
    (tr_operation_id r) (tr_operation_fingerprint r) (tr_correlation_id r) (tr_causation_id r)
    (tr_streams r).
Definition tr_with_bounded_context (r : TransactionReceipt) (c : BoundedContextName)
  : TransactionReceipt :=
  mkReceipt (tr_actor r) (tr_security_scope r) (tr_completion r) (Some c)
    (tr_operation_id r) (tr_operation_fingerprint r) (tr_correlation_id r) (tr_causation_id r)
    (tr_streams r).
Definition tr_with_correlation_id (r : TransactionReceipt) (c : CorrelationId)
  : TransactionReceipt :=
  mkReceipt (tr_actor r) (tr_security_scope r) (tr_completion r) (tr_bounded_context r)
    (tr_operation_id r) (tr_operation_fingerprint r) (Some c) (tr_causation_id r)
    (tr_streams r).
Definition tr_with_causation_id (r : TransactionReceipt) (c : CausationId) : TransactionReceipt :=
  mkReceipt (tr_actor r) (tr_security_scope r) (tr_completion r) (tr_bounded_context r)
    (tr_operation_id r) (tr_operation_fingerprint r) (tr_correlation_id r) (Some c)
    (tr_streams r).

(** [TransactionReceipt::events] *)
Definition receipt_events (r : TransactionReceipt) : list RecordedEvent :=
  concat (map sr_events (tr_streams r)).

Definition require_acceptance (r : TransactionReceipt) : result TransactionReceipt EventStoreError :=
  fail! is_some_and (λ c, is_some (completion_rejection c)) (tr_completion r)
    with identity_conflict "operation has a completed rejection, not acceptance";
  Ok r.

Inductive TransactionAppendOutcome :=
| TxAppended (receipt : TransactionReceipt)
| TxExactReplay (receipt : TransactionReceipt).
Definition tao_receipt (o : TransactionAppendOutcome) : TransactionReceipt :=
  match o with TxAppended r | TxExactReplay r => r end.
Definition tao_is_exact_replay (o : TransactionAppendOutcome) : bool :=
  match o with TxExactReplay _ => true | TxAppended _ => false end.

Definition append_outcome_events (o : AppendOutcome) : list RecordedEvent :=
  match o with Appended events | ExactReplay events => events end.
Definition append_is_exact_replay (o : AppendOutcome) : bool :=
  match o with ExactReplay _ => true | Appended _ => false end.

(** [InlineCompletedOutcome] *)
Record InlineCompletedOutcome := mkInline { inline_record : TransactionReceipt }.
Definition inline_rejection (o : InlineCompletedOutcome) : option EncodedRejection :=
  tr_completion (inline_record o) ≫= completion_rejection.
Definition inline_acceptance (o : InlineCompletedOutcome) : option TransactionReceipt :=
  if is_none (inline_rejection o) then Some (inline_record o) else None.

Inductive CompletedAppendOutcome :=
| CompletedAppended (o : InlineCompletedOutcome)
| CompletedExactReplay (o : InlineCompletedOutcome).

Record StreamSummary := mkStreamSummary {
  ss_stream_id : StreamId;
  ss_stream_version : StreamVersion;
}.

#[global] Instance StreamSummary_eq_dec : EqDecision StreamSummary.
Proof. solve_decision. Defined.

(** [validate_completed_transaction] *)
Definition validate_completed_transaction (t : EventTransaction) : result unit EventStoreError :=
  match tx_completion t with
  | None =>
    Err (invalid "commit_outcome requires an explicit completed decision; use append_transaction for legacy acceptance")
  | Some completion =>
    let? _ := map_err (λ e, invalid (EventCodecError_display e)) (completion_validate completion) in
    fail! is_none (tx_bounded_context t)
          || (is_some (completion_rejection completion)
              && existsb (λ p, is_some (tp_batch p)) (tx_participants t))
      with invalid "completed rejection requires context and read guards only";
    Ok tt
  end.

(** ** Rejection codecs (completed_outcome.rs) *)

(** The [RejectionCodec] trait *)
Class RejectionCodec (R : Type) := {
  rc_encode : R → result EncodedRejection EventCodecError;
  rc_decode : EncodedRejection → result R EventCodecError;
}.

Definition json_rejection_encode `{JsonCodec R} (id : string) (version : N) (rejection : R)
  : result EncodedRejection EventCodecError :=
  let? bytes := map_err (mkCodecError EncodingFailed) (to_vec rejection) in
  let encoded := mkEncodedRejection id version bytes in
  let? _ := rejection_validate encoded in
  Ok encoded.
Definition json_rejection_decode `{JsonCodec R} (id : string) (version : N)
    (rejection : EncodedRejection) : result R EventCodecError :=
  let? _ := rejection_validate rejection in
  fail! negb (String.eqb (codec_id rejection) id) || negb (codec_version rejection =? version)
    with mkCodecError UnsupportedSchemaVersion "unsupported rejection codec identity/version";
  map_err (mkCodecError MalformedPayload) (from_slice (rejection_bytes rejection)).

(** [JsonRejectionCodec] and [UnconfiguredRejectionCodec] *)
Definition JsonRejectionCodec `{JsonCodec R} (id : string) (version : N) : RejectionCodec R :=
  {| rc_encode := json_rejection_encode id version;
     rc_decode := json_rejection_decode id version |}.
Definition UnconfiguredRejectionCodec (R : Type) : RejectionCodec R :=
  {| rc_encode := λ _, Err (mkCodecError EncodingFailed
       "configure an explicit durable rejection codec with execute_with_rejection_codec");
     rc_decode := λ _, Err (mkCodecError UnsupportedSchemaVersion
       "no rejection replay codec configured") |}.

(** ** The item limit *)

Definition event_total (bs : list EventBatch) : N := foldr (λ b n, len (eb_events b) + n) 0 bs.
Definition read_guards (ps : list TransactionParticipant) : N :=
  len (filter (λ p, tp_batch p = None) ps).

Lemma batch_fold_None bs :
  foldl (λ total batch, total ≫= λ n, checked_add usize_max n (len (eb_events batch))) None bs = None.
Proof. by induction bs. Qed.

Lemma batch_fold bs t :
  foldl (λ total batch, total ≫= λ n, checked_add usize_max n (len (eb_events batch)))
    (Some t) bs
  = if decide (bs = [] ∨ t + event_total bs <= usize_max) then Some (t + event_total bs) else None.
Proof.
  revert t; induction bs as [|b bs IH]; intros t; cbn -[N.add].
  - rewrite N.add_0_r. by rewrite decide_True by (by left).
  - fold (event_total bs). unfold checked_add.
    destruct (t + len (eb_events b) <=? usize_max) eqn:E; bool_step.
    + rewrite IH. repeat case_decide; try f_equal; try lia; naive_solver lia.
    + rewrite batch_fold_None. case_decide as H; [|done]. destruct H; [done|lia].
Qed.

Lemma item_limit_Ok t n :
  validate_transaction_item_limit t = Ok n ↔
  n = event_total (tx_batches t)
  ∧ event_total (tx_batches t) + read_guards (tx_participants t) + 1 <= MAX_TRANSACTION_ITEMS.
Proof.
  unfold validate_transaction_item_limit. rewrite batch_fold. fold (read_guards (tx_participants t)).
  unfold MAX_TRANSACTION_ITEMS, TRANSACTION_RECEIPT_ITEMS, usize_max, u64_max.
  rewrite N.add_0_l. split.
  - intros H. guards.
    match goal with H : (if decide _ then _ else _) = _ |- _ => case_decide; [|done]; injection H as <- end.
    match goal with H : _ ≫= _ = Some _ |- _ => apply bind_Some in H as (c & Hc & Hi) end.
    apply checked_add_Some in Hc as [-> _], Hi as [-> _]. split; [done|lia].
  - intros [-> Hl]. rewrite decide_True by (right; lia). cbn [ok_or rbind].
    rewrite (proj2 (checked_add_Some _ _ _ _)) by (split; [done|lia]).
    cbn [mbind option_bind]. rewrite (proj2 (checked_add_Some _ _ _ _)) by (split; [done|lia]).
    cbn [ok_or rbind]. by rewrite (proj2 (N.ltb_ge _ _)) by lia.
Qed.

(** The item limit admits a transaction exactly when its domain
    events, its read guards and the receipt are at most 100 items together,
    returns the event count then, and reports an invalid request otherwise; no
    participant list overflows the count into acceptance. *)
Theorem item_limit_spec t :
  let items := event_total (tx_batches t) + read_guards (tx_participants t) + 1 in
  match validate_transaction_item_limit t with
  | Ok n => n = event_total (tx_batches t) ∧ items <= MAX_TRANSACTION_ITEMS
  | Err e => se_kind e = InvalidRequest ∧ MAX_TRANSACTION_ITEMS < items
  end.
Proof.
  destruct (validate_transaction_item_limit t) as [n|e] eqn:E.
  - by apply item_limit_Ok in E.
  - split.
    + unfold validate_transaction_item_limit in E.
      repeat match type of E with rbind ?m _ = _ =>
        destruct m eqn:Em; cbn [rbind] in E;
          [|injection E as <-; apply ok_or_Err in Em as [_ <-]; done]; clear Em end.
      destruct (_ <? _); [|done]. by injection E as <-.
    + apply N.nle_gt. intros Hle. rewrite (proj2 (item_limit_Ok t _) (conj eq_refl Hle)) in E. done.
Qed.

(** ** Completed decisions *)

(** A rejection the JSON codec encoded is decoded to the same
    domain rejection by a codec of the same identity and version, and by no
    codec of another identity or version. *)
Theorem json_rejection_roundtrip `{Json R} id version id' version' (rejection : R) encoded :
  json_rejection_encode id version rejection = Ok encoded →
  json_rejection_decode id version encoded = Ok rejection
  ∧ ((id', version') ≠ (id, version) → is_err (json_rejection_decode (R := R) id' version' encoded) = true).
Proof.
  unfold json_rejection_encode, json_rejection_decode. intros He. guards. subst.
  match goal with H : rejection_validate _ = Ok ?u |- _ => rewrite H end.
  cbn [rbind codec_id codec_version rejection_bytes]. split.
  - rewrite String.eqb_refl, N.eqb_refl. cbn [negb orb].
    match goal with H : to_vec _ = Ok _ |- _ => by rewrite (json_roundtrip _ _ H) end.
  - intros Hne. destruct (String.eqb id id') eqn:E1, (version =? version') eqn:E2;
      try done. bool_step. bool_step. by subst.
Qed.

Lemma completed_transaction_Ok t u :
  validate_completed_transaction t = Ok u →
  ∃ c context, tx_completion t = Some c ∧ completion_validate c = Ok tt
    ∧ tx_bounded_context t = Some context
    ∧ (completion_rejection c ≠ None → Forall (λ p, tp_batch p = None) (tx_participants t)).
Proof.
  unfold validate_completed_transaction. destruct (tx_completion t) as [c|]; [|done].
  intros H. guards. destruct v.
  destruct (tx_bounded_context t) as [context|] eqn:Ec; [|done].
  exists c, context. split_and!; try done. intros Hr.
  destruct (completion_rejection c) as [r|]; [|done]. cbn [is_some andb] in *.
  apply Forall_forall. intros p Hp.
  match goal with H : existsb _ _ = false |- _ => apply not_true_iff_false in H; rename H into Hx end.
  destruct (tp_batch p) eqn:Eb; [|done]. exfalso. apply Hx, existsb_exists. exists p.
  split; [by apply list_elem_of_In|]. by rewrite Eb.
Qed.

(** ** Witnesses *)

Lemma json_rejection_roundtrip_witness :
  let H := index_json string in
  json_rejection_decode "orders" 1 (mkEncodedRejection "orders" 1 (positive_bytes (encode "sold out")))
  = Ok "sold out".
Proof.
  refine (let H := index_json string in _).
  exact (proj1 (json_rejection_roundtrip "orders" 1 "" 0 "sold out" _ ltac:(by vm_compute))).
Defined.
