(* ===== verification/NatsConfig.v ===== *)
(** * NatsConfig: the configuration of a NATS event store and the subjects it
    derives (crates/rostfrei-nats/src/event_store_config.rs, hex.rs).

    A [Duration] is its number of nanoseconds; [i32] and [i64] are [Z]. *)

From Stdlib Require Import ZifyBool.
From S2P Require Export Store.

Definition MAX_STREAM_NAME_LEN : N := 255.
Definition MAX_SUPPORTED_EVENT_BYTES : N := 64 * 1024 * 1024.
Definition MAX_ATOMIC_HEADER_BYTES : N := 4 * 1024.
Definition DUPLICATE_WINDOW : N := 120 * 1000000000.
Definition DEFAULT_EVENT_STORE_MAX_STREAM_BYTES : Z := 10 * 1024 * 1024 * 1024.
Definition DEFAULT_EVENT_STORE_MAX_EVENT_BYTES : N := 512 * 1024.
Definition DEFAULT_EVENT_STORE_REPLICAS : N := 1.
Definition DEFAULT_EVENT_STORE_PUBACK_TIMEOUT : N := 5 * 1000000000.

Definition i32_max : N := 2147483647.
Definition i64_max : N := 9223372036854775807.

(** ** Byte limits *)

Record EventByteLimit := mkEventByteLimit {
  limit_value : N;
  limit_wire_value : N;
  limit_nats_value : Z;
  limit_comparison_value : Z;
}.
Definition EventByteLimit_DEFAULT : EventByteLimit :=
  {| limit_value := DEFAULT_EVENT_STORE_MAX_EVENT_BYTES; limit_wire_value := 516 * 1024;
     limit_nats_value := 516 * 1024; limit_comparison_value := 516 * 1024 |}.

Definition EventByteLimit_new (value : N) : result EventByteLimit EventStoreError :=
  fail! (value =? 0) || (MAX_SUPPORTED_EVENT_BYTES <? value)
    with invalid ("maximum event bytes must be between 1 and " +:+ n_to_string MAX_SUPPORTED_EVENT_BYTES);
  let? wire_value := ok_or (checked_add usize_max value MAX_ATOMIC_HEADER_BYTES)
    (invalid "maximum wire message bytes overflowed") in
  let? nats_value := ok_or (Z.of_N <$> try_from i32_max wire_value)
    (invalid "maximum wire message bytes cannot be represented by JetStream") in
  let? comparison_value := ok_or (Z.of_N <$> try_from i64_max wire_value)
    (invalid "maximum wire message bytes cannot be represented by JetStream") in
  Ok (mkEventByteLimit value wire_value nats_value comparison_value).

(** ** Names and subjects *)

Definition is_ascii_whitespace (c : N) : bool :=
  (c =? 32) || (c =? 9) || (c =? 10) || (c =? 12) || (c =? 13).
Definition is_ascii_control (c : N) : bool := (c <? 32) || (c =? 127).

Definition valid_stream_name (value : string) : bool :=
  negb (String.eqb value "") && (str_len value <=? MAX_STREAM_NAME_LEN)
  && bytes_all (λ c, negb (is_ascii_whitespace c) && negb (is_ascii_control c)
                     && negb ((c =? 46) || (c =? 42) || (c =? 62))) value.

(** Dashes become underscores, letters upper case. *)
Definition token_byte (c : N) : N := if c =? 45 then 95 else if is_lower c then c - 32 else c.
Definition stream_token (value : string) : string := of_chars (map token_byte (str_codes value)).

Definition scoped_subject_prefix (application : string) (t : TrafficScope) : string :=
  match subject_segment t with
  | None => application
  | Some scope => application +:+ "." +:+ scope
  end.
Definition scoped_stream_prefix (application : string) (t : TrafficScope) : string :=
  let application := stream_token application in
  match t with Normal => application | Test => application +:+ "__TEST" end.
Definition domain_event_stream_name (c : BoundedContext) : string :=
  scoped_stream_prefix (application_str (bc_application c)) (bc_traffic_scope c)
  +:+ "__" +:+ stream_token (context_str (bc_name c)) +:+ "_DOMAIN_EVENTS".

(** [digest_parts]: each part under its length of eight bytes *)
Definition digest_parts `{Sha256} (parts : list (list byte)) : string :=
  hex_of_bytes (sha256 (frames parts)).

(** ** The configuration *)

Record NatsEventStoreConfig := mkNatsConfig {
  nc_completed_outcome_epoch : option string;
  nc_split_outcomes : bool;
  nc_explicit_detail_expiry : bool;
  nc_read_only_outcomes : bool;
  nc_legacy_security_scope : option SecurityScope;
  nc_outcome_state_stream_name : string;
  nc_application : ApplicationName;
  nc_traffic_scope : TrafficScope;
  nc_bounded_context : BoundedContextName;
  nc_stream_name : string;
  nc_subject_prefix : string;
  nc_max_stream_bytes : Z;
  nc_max_event_bytes : EventByteLimit;
  nc_replicas : N;
  nc_puback_timeout : N;
}.

Definition validate_config (c : NatsEventStoreConfig) : result unit EventStoreError :=
  fail! negb (valid_stream_name (nc_stream_name c)) with invalid "invalid JetStream stream name";
  fail! (nc_max_stream_bytes c <=? 0)%Z
    with invalid "maximum stream bytes must be finite and positive";
  fail! (nc_max_stream_bytes c <? limit_comparison_value (nc_max_event_bytes c))%Z
    with invalid "maximum stream bytes must be at least maximum wire message bytes";
  fail! negb ((1 <=? nc_replicas c) && (nc_replicas c <=? 5))
    with invalid "replicas must be between 1 and 5";
  fail! nc_puback_timeout c =? 0 with invalid "PubAck timeout must be greater than zero";
  Ok tt.

Definition NatsEventStoreConfig_new (context : BoundedContext) (stream_name : string)
  : result NatsEventStoreConfig EventStoreError :=
  let subject_prefix :=
    scoped_subject_prefix (application_str (bc_application context)) (bc_traffic_scope context)
    +:+ ".domain." +:+ context_str (bc_name context) in
  let config :=
    {| nc_completed_outcome_epoch := None; nc_split_outcomes := false;
       nc_explicit_detail_expiry := false; nc_read_only_outcomes := false;
       nc_legacy_security_scope := None; nc_outcome_state_stream_name := "";
       nc_application := bc_application context; nc_traffic_scope := bc_traffic_scope context;
       nc_bounded_context := bc_name context; nc_stream_name := stream_name;
       nc_subject_prefix := subject_prefix;
       nc_max_stream_bytes := DEFAULT_EVENT_STORE_MAX_STREAM_BYTES;
       nc_max_event_bytes := EventByteLimit_DEFAULT;
       nc_replicas := DEFAULT_EVENT_STORE_REPLICAS;
       nc_puback_timeout := DEFAULT_EVENT_STORE_PUBACK_TIMEOUT |} in
  let? _ := validate_config config in
  Ok config.

Definition for_bounded_context (context : BoundedContext)
  : result NatsEventStoreConfig EventStoreError :=
  NatsEventStoreConfig_new context (domain_event_stream_name context).

(** The fields of a configuration the [with_*] methods replace *)
Definition set_limits (c : NatsEventStoreConfig) (max_stream_bytes : Z)
    (max_event_bytes : EventByteLimit) (replicas puback_timeout : N) : NatsEventStoreConfig :=
  mkNatsConfig (nc_completed_outcome_epoch c) (nc_split_outcomes c) (nc_explicit_detail_expiry c)
    (nc_read_only_outcomes c) (nc_legacy_security_scope c) (nc_outcome_state_stream_name c)
    (nc_application c) (nc_traffic_scope c) (nc_bounded_context c) (nc_stream_name c)
    (nc_subject_prefix c) max_stream_bytes max_event_bytes replicas puback_timeout.
Definition set_outcomes (c : NatsEventStoreConfig) (epoch : option string) (split expiry read_only : bool)
    (scope : option SecurityScope) (state_stream stream prefix : string) : NatsEventStoreConfig :=
  mkNatsConfig epoch split expiry read_only scope state_stream
    (nc_application c) (nc_traffic_scope c) (nc_bounded_context c) stream prefix
    (nc_max_stream_bytes c) (nc_max_event_bytes c) (nc_replicas c) (nc_puback_timeout c).

Definition with_storage_limits (c : NatsEventStoreConfig) (max_stream_bytes : Z) (max_event_bytes : N)
  : result NatsEventStoreConfig EventStoreError :=
  let? limit := EventByteLimit_new max_event_bytes in
  let c := set_limits c max_stream_bytes limit (nc_replicas c) (nc_puback_timeout c) in
  let? _ := validate_config c in
  Ok c.
Definition with_replicas (c : NatsEventStoreConfig) (replicas : N)
  : result NatsEventStoreConfig EventStoreError :=
  let c := set_limits c (nc_max_stream_bytes c) (nc_max_event_bytes c) replicas (nc_puback_timeout c) in
  let? _ := validate_config c in
  Ok c.
Definition with_puback_timeout (c : NatsEventStoreConfig) (puback_timeout : N)
  : result NatsEventStoreConfig EventStoreError :=
  let c := set_limits c (nc_max_stream_bytes c) (nc_max_event_bytes c) (nc_replicas c) puback_timeout in
  let? _ := validate_config c in
  Ok c.

Definition is_epoch_byte (c : N) : bool := is_alphanumeric c || (c =? 45) || (c =? 95).

Definition with_fresh_completed_outcome_epoch (c : NatsEventStoreConfig) (epoch : string)
  : result NatsEventStoreConfig EventStoreError :=
  fail! String.eqb epoch "" || (128 <? str_len epoch) || negb (bytes_all is_epoch_byte epoch)
    with invalid "invalid completed outcome identity epoch";
  Ok (set_outcomes c (Some epoch) (nc_split_outcomes c) (nc_explicit_detail_expiry c)
        (nc_read_only_outcomes c) (nc_legacy_security_scope c) (nc_outcome_state_stream_name c)
        (nc_stream_name c) (nc_subject_prefix c)).

Definition with_fresh_split_outcome_epoch `{Sha256} (c : NatsEventStoreConfig) (epoch : string)
  : result NatsEventStoreConfig EventStoreError :=
  fail! nc_split_outcomes c with invalid "split authority already selected";
  let? c := with_fresh_completed_outcome_epoch c epoch in
  let? epoch := ok_or (nc_completed_outcome_epoch c) (invalid "missing epoch") in
  let token := digest_parts [as_bytes epoch] in
  let stream_name := nc_stream_name c +:+ "__SPLIT_" +:+ token in
  let c := set_outcomes c (nc_completed_outcome_epoch c) true (nc_explicit_detail_expiry c)
             (nc_read_only_outcomes c) (nc_legacy_security_scope c) (stream_name +:+ "_STATE")
             stream_name (nc_subject_prefix c +:+ ".split." +:+ token) in
  let? _ := validate_config c in
  fail! negb (valid_stream_name (nc_outcome_state_stream_name c))
    with invalid "state stream name is too long";
  Ok c.

Definition with_explicit_detail_expiry (c : NatsEventStoreConfig) (enabled : bool)
  : result NatsEventStoreConfig EventStoreError :=
  fail! enabled && negb (nc_split_outcomes c) with invalid "inline outcomes do not support expiry";
  Ok (set_outcomes c (nc_completed_outcome_epoch c) (nc_split_outcomes c) enabled
        (nc_read_only_outcomes c) (nc_legacy_security_scope c) (nc_outcome_state_stream_name c)
        (nc_stream_name c) (nc_subject_prefix c)).
Definition with_legacy_security_scope (c : NatsEventStoreConfig) (scope : SecurityScope)
  : NatsEventStoreConfig :=
  set_outcomes c (nc_completed_outcome_epoch c) (nc_split_outcomes c) (nc_explicit_detail_expiry c)
    (nc_read_only_outcomes c) (Some scope) (nc_outcome_state_stream_name c) (nc_stream_name c)
    (nc_subject_prefix c).
Definition with_read_only_outcomes (c : NatsEventStoreConfig) : NatsEventStoreConfig :=
  set_outcomes c (nc_completed_outcome_epoch c) (nc_split_outcomes c) (nc_explicit_detail_expiry c)
    true (nc_legacy_security_scope c) (nc_outcome_state_stream_name c) (nc_stream_name c)
    (nc_subject_prefix c).

(** ** Subjects *)

Section Subjects.
Context `{SHA : Sha256} (c : NatsEventStoreConfig).

Definition aggregate_subject (aggregate_type aggregate_id : string) : string :=
  nc_subject_prefix c +:+ ".aggregate." +:+ digest_parts [as_bytes aggregate_type; as_bytes aggregate_id].
Definition aggregate_subject_filter : string := nc_subject_prefix c +:+ ".aggregate.*".
Definition transaction_subject (operation_id : string) : string :=
  nc_subject_prefix c +:+ ".transaction." +:+ digest_parts [as_bytes operation_id].
Definition transaction_guard_subject (operation_id : string) (ordinal : N) : string :=
  transaction_subject operation_id +:+ ".guard." +:+ n_to_string ordinal.
Definition legacy_primary_transaction_subject (primary : StreamId) (operation_id : string) : string :=
  nc_subject_prefix c +:+ ".transaction." +:+
    digest_parts [as_bytes (ident_str (aggregate_type primary));
                  as_bytes (ident_str (aggregate_id primary)); as_bytes operation_id].
Definition legacy_primary_transaction_guard_subject (primary : StreamId) (operation_id : string)
    (ordinal : N) : string :=
  legacy_primary_transaction_subject primary operation_id +:+ ".guard." +:+ n_to_string ordinal.
Definition transaction_subject_filter : string := nc_subject_prefix c +:+ ".transaction.>".
Definition outcome_state_subject (manifest : list byte) : string :=
  nc_subject_prefix c +:+ ".outcome." +:+ digest_parts [manifest].
End Subjects.

(** ** The JetStream configuration: the fields of the client's [Config] the
    code sets *)

Inductive RetentionPolicy := Limits | Interest | WorkQueue.
Inductive StorageType := File | MemoryStorage.
Inductive DiscardPolicy := DiscardOld | DiscardNew.

Record StreamConfig := mkStreamConfig {
  sc_name : string;
  sc_subjects : list string;
  sc_retention : RetentionPolicy;
  sc_storage : StorageType;
  sc_discard : DiscardPolicy;
  sc_max_age : N;
  sc_max_messages : Z;
  sc_max_messages_per_subject : Z;
  sc_max_bytes : Z;
  sc_max_message_size : Z;
  sc_max_consumers : Z;
  sc_no_ack : bool;
  sc_duplicate_window : N;
  sc_num_replicas : N;
  sc_deny_delete : bool;
  sc_deny_purge : bool;
  sc_allow_rollup : bool;
  sc_allow_atomic_publish : bool;
  sc_discard_new_per_subject : bool;
  sc_description : option string;
  sc_metadata : gmap string string;
}.

Definition stream_config (c : NatsEventStoreConfig) : StreamConfig :=
  {| sc_name := nc_stream_name c;
     sc_subjects := [aggregate_subject_filter c; transaction_subject_filter c];
     sc_retention := Limits; sc_storage := File; sc_discard := DiscardNew; sc_max_age := 0;
     sc_max_messages := -1; sc_max_messages_per_subject := -1;
     sc_max_bytes := nc_max_stream_bytes c;
     sc_max_message_size := limit_nats_value (nc_max_event_bytes c);
     sc_max_consumers := -1; sc_no_ack := false; sc_duplicate_window := DUPLICATE_WINDOW;
     sc_num_replicas := nc_replicas c; sc_deny_delete := true; sc_deny_purge := true;
     sc_allow_rollup := false; sc_allow_atomic_publish := true;
     sc_discard_new_per_subject := false; sc_description := None;
     sc_metadata :=
       match nc_completed_outcome_epoch c with
       | Some epoch =>
         <["rostfrei.completed-outcomes.epoch" := epoch]>
           (<["rostfrei.completed-outcomes.version" := if nc_split_outcomes c then "2" else "1"]> ∅)
       | None => ∅
       end |}.

Definition outcome_state_config (c : NatsEventStoreConfig) : StreamConfig :=
  let config := stream_config c in
  {| sc_name := nc_outcome_state_stream_name c;
     sc_subjects := [nc_subject_prefix c +:+ ".outcome.*"];
     sc_retention := sc_retention config; sc_storage := sc_storage config;
     sc_discard := sc_discard config; sc_max_age := sc_max_age config;
     sc_max_messages := sc_max_messages config; sc_max_messages_per_subject := 1;
     sc_max_bytes := sc_max_bytes config; sc_max_message_size := sc_max_message_size config;
     sc_max_consumers := sc_max_consumers config; sc_no_ack := sc_no_ack config;
     sc_duplicate_window := sc_duplicate_window config; sc_num_replicas := sc_num_replicas config;
     sc_deny_delete := sc_deny_delete config; sc_deny_purge := sc_deny_purge config;
     sc_allow_rollup := sc_allow_rollup config; sc_allow_atomic_publish := false;
     sc_discard_new_per_subject := false; sc_description := None;
     sc_metadata := <["rostfrei.outcome-state.version" := "1"]> (sc_metadata config) |}.

(** ** What a configuration is *)

Definition limit_ok (l : EventByteLimit) : Prop :=
  0 < limit_value l <= MAX_SUPPORTED_EVENT_BYTES
  ∧ limit_wire_value l = limit_value l + MAX_ATOMIC_HEADER_BYTES
  ∧ limit_nats_value l = Z.of_N (limit_wire_value l)
  ∧ limit_comparison_value l = Z.of_N (limit_wire_value l).

(** The dot-separated segments of the subject prefix *)
Definition context_segments (c : NatsEventStoreConfig) : list string :=
  application_str (nc_application c)
  :: match subject_segment (nc_traffic_scope c) with Some s => [s] | None => [] end
  ++ ["domain"; context_str (nc_bounded_context c)].

Definition is_hex (s : string) : Prop := ∃ bs, s = hex_of_bytes bs.

Definition prefix_segments (c : NatsEventStoreConfig) (segments : list string) : Prop :=
  if nc_split_outcomes c
  then ∃ token, is_hex token ∧ segments = context_segments c ++ ["split"; token]
  else segments = context_segments c.

Record config_ok (c : NatsEventStoreConfig) : Prop := {
  co_stream : valid_stream_name (nc_stream_name c) = true;
  co_limit : limit_ok (nc_max_event_bytes c);
  co_bytes : (limit_comparison_value (nc_max_event_bytes c) <= nc_max_stream_bytes c)%Z;
  co_replicas : 1 <= nc_replicas c <= 5;
  co_timeout : 0 < nc_puback_timeout c;
  co_application : scope_name (application_str (nc_application c)) = true;
  co_context : context_ok (nc_bounded_context c);
  co_prefix : ∃ segments, prefix_segments c segments ∧ nc_subject_prefix c = String.concat "." segments;
  co_epoch : ∀ epoch, nc_completed_outcome_epoch c = Some epoch →
    0 < str_len epoch <= 128 ∧ bytes_all is_epoch_byte epoch = true;
  co_split : if nc_split_outcomes c
             then is_some (nc_completed_outcome_epoch c) = true
                  ∧ nc_outcome_state_stream_name c = nc_stream_name c +:+ "_STATE"
                  ∧ valid_stream_name (nc_outcome_state_stream_name c) = true
             else nc_explicit_detail_expiry c = false ∧ nc_outcome_state_stream_name c = "";
}.

(** Every way to make a configuration *)
Inductive configured `{Sha256} : NatsEventStoreConfig → Prop :=
| cfg_new context stream_name c :
    scope_name (application_str (bc_application context)) = true → context_ok (bc_name context) →
    NatsEventStoreConfig_new context stream_name = Ok c → configured c
| cfg_storage c bytes event_bytes c' :
    configured c → with_storage_limits c bytes event_bytes = Ok c' → configured c'
| cfg_replicas c n c' : configured c → with_replicas c n = Ok c' → configured c'
| cfg_timeout c n c' : configured c → with_puback_timeout c n = Ok c' → configured c'
| cfg_epoch c e c' : configured c → with_fresh_completed_outcome_epoch c e = Ok c' → configured c'
| cfg_split c e c' : configured c → with_fresh_split_outcome_epoch c e = Ok c' → configured c'
| cfg_expiry c b c' : configured c → with_explicit_detail_expiry c b = Ok c' → configured c'
| cfg_scope c scope : configured c → configured (with_legacy_security_scope c scope)
| cfg_read_only c : configured c → configured (with_read_only_outcomes c).

(** Every way to make a configuration, with the authority it writes under: the
    epoch its split outcomes were selected with, if they were. The epoch a
    configuration is bound to may be replaced afterwards; its subjects stay. *)
Inductive configured_for `{Sha256} : option string → NatsEventStoreConfig → Prop :=
| for_new context stream_name c :
    scope_name (application_str (bc_application context)) = true → context_ok (bc_name context) →
    NatsEventStoreConfig_new context stream_name = Ok c → configured_for None c
| for_storage a c bytes event_bytes c' :
    configured_for a c → with_storage_limits c bytes event_bytes = Ok c' → configured_for a c'
| for_replicas a c n c' : configured_for a c → with_replicas c n = Ok c' → configured_for a c'
| for_timeout a c n c' : configured_for a c → with_puback_timeout c n = Ok c' → configured_for a c'
| for_epoch a c e c' :
    configured_for a c → with_fresh_completed_outcome_epoch c e = Ok c' → configured_for a c'
| for_split a c e c' :
    configured_for a c → with_fresh_split_outcome_epoch c e = Ok c' → configured_for (Some e) c'
| for_expiry a c b c' : configured_for a c → with_explicit_detail_expiry c b = Ok c' → configured_for a c'
| for_scope a c scope : configured_for a c → configured_for a (with_legacy_security_scope c scope)
| for_read_only a c : configured_for a c → configured_for a (with_read_only_outcomes c).

Lemma configured_for_configured `{Sha256} a c : configured_for a c → configured c.
Proof.
  induction 1; [eapply cfg_new|eapply cfg_storage|eapply cfg_replicas|eapply cfg_timeout|eapply cfg_epoch
    |eapply cfg_split|eapply cfg_expiry|apply cfg_scope|apply cfg_read_only]; eassumption.
Qed.

Lemma EventByteLimit_new_ok v l : EventByteLimit_new v = Ok l → limit_ok l.
Proof.
  unfold EventByteLimit_new. intros H. guards.
  repeat match goal with
  | H : _ <$> _ = Some _ |- _ => apply fmap_Some in H as (? & [-> ?]%try_from_Some & ->)
  | H : checked_add _ _ _ = Some _ |- _ => apply checked_add_Some in H as [-> _]
  end.
  split_and!; cbn; try done; lia.
Qed.

Lemma validate_config_Ok c u :
  validate_config c = Ok u →
  valid_stream_name (nc_stream_name c) = true
  ∧ (limit_comparison_value (nc_max_event_bytes c) <= nc_max_stream_bytes c)%Z
  ∧ 1 <= nc_replicas c <= 5 ∧ 0 < nc_puback_timeout c.
Proof.
  unfold validate_config. intros H. guards.
  repeat match goal with
  | H : (_ <=? _)%Z = false |- _ => apply Z.leb_gt in H
  | H : (_ <? _)%Z = false |- _ => apply Z.ltb_ge in H
  end. split_and!; try done; lia.
Qed.

Lemma str_concat_app p (a b : list string) :
  a ≠ [] → b ≠ [] → String.concat p (a ++ b) = String.concat p a +:+ p +:+ String.concat p b.
Proof.
  intros Ha Hb. induction a as [|x a IH]; [done|]. destruct a as [|y a].
  - cbn. by destruct b.
  - change ((x :: y :: a) ++ b) with (x :: (y :: a) ++ b).
    change (String.concat p (x :: (y :: a) ++ b)) with (x +:+ p +:+ String.concat p ((y :: a) ++ b)).
    rewrite IH by done. change (String.concat p (x :: y :: a)) with (x +:+ p +:+ String.concat p (y :: a)).
    by rewrite !str_app_assoc.
Qed.

Lemma context_prefix context :
  scoped_subject_prefix (application_str (bc_application context)) (bc_traffic_scope context)
    +:+ ".domain." +:+ context_str (bc_name context)
  = String.concat "." (application_str (bc_application context)
      :: match subject_segment (bc_traffic_scope context) with Some s => [s] | None => [] end
      ++ ["domain"; context_str (bc_name context)]).
Proof. unfold scoped_subject_prefix. destruct (bc_traffic_scope context); cbn; by rewrite ?str_app_assoc. Qed.

Lemma configured_config_ok `{Sha256} c : configured c → config_ok c.
Proof.
  induction 1 as [context name c Ha Hc H0|c bytes ev c' _ IH H0|c n c' _ IH H0|c n c' _ IH H0
    |c e c' _ IH H0|c e c' _ IH H0|c b c' _ IH H0|c scope _ IH|c _ IH].
  - unfold NatsEventStoreConfig_new in H0. guards.
    match goal with H : validate_config _ = Ok _ |- _ => apply validate_config_Ok in H as (? & ? & ? & ?) end.
    split; cbn; try done. eexists. split; [done|]. apply context_prefix.
  - unfold with_storage_limits in H0. guards.
    match goal with H : validate_config _ = Ok _ |- _ => apply validate_config_Ok in H as (? & ? & ? & ?) end.
    destruct IH. split; try done. by eapply EventByteLimit_new_ok.
  - unfold with_replicas in H0. guards.
    match goal with H : validate_config _ = Ok _ |- _ => apply validate_config_Ok in H as (? & ? & ? & ?) end.
    by destruct IH.
  - unfold with_puback_timeout in H0. guards.
    match goal with H : validate_config _ = Ok _ |- _ => apply validate_config_Ok in H as (? & ? & ? & ?) end.
    by destruct IH.
  - unfold with_fresh_completed_outcome_epoch in H0. guards. destruct IH. split; try done.
    + intros epoch [= <-]. split; [|done].
      pose proof (str_len_0 e). destruct (decide (str_len e = 0)); [tauto|lia].
    + cbn. destruct (nc_split_outcomes c); [|done]. naive_solver.
  - unfold with_fresh_split_outcome_epoch, with_fresh_completed_outcome_epoch in H0. guards. cbn in *. guards.
    match goal with H : validate_config _ = Ok _ |- _ => apply validate_config_Ok in H as (? & ? & ? & ?) end.
    match goal with H : Some _ = Some _ |- _ => injection H as <- end.
    destruct IH as [? ? ? ? ? ? ? (segments & Hs & Hp) ? ?]. unfold prefix_segments in Hs.
    rewrite G in Hs. subst segments. split; try done.
    + exists (context_segments c ++ ["split"; digest_parts [as_bytes e]]). split.
      * cbn. exists (digest_parts [as_bytes e]). split; [by eexists|done].
      * cbn [set_outcomes nc_subject_prefix]. rewrite Hp, str_concat_app by done. by cbn.
    + intros epoch [= <-]. split; [|done].
      pose proof (str_len_0 e). destruct (decide (str_len e = 0)); [tauto|lia].
  - unfold with_explicit_detail_expiry in H0. guards. destruct IH as [? ? ? ? ? ? ? ? ? Hsp]. split; try done. cbn.
    destruct (nc_split_outcomes c); [done|]. destruct b; [done|]. by split; [|apply Hsp].
  - by destruct IH.
  - by destruct IH.
Qed.

(** Every configuration that can be made is well formed: stream
    names are valid JetStream names, the limits are positive, consistent and
    representable, the subject prefix is that of its application, traffic scope
    and context (with the token of the split authority), and detail expiry and
    a state stream exist exactly where outcomes are split. *)
Theorem configured_ok `{Sha256} c : configured c → config_ok c.
Proof. apply configured_config_ok. Qed.

Lemma configured_ok_witness :
  let H := tail_digest in
  ∃ c, configured c ∧ nc_split_outcomes c = true ∧ config_ok c.
Proof.
  refine (let H := tail_digest in _).
  refine (let b := mkBoundedContext (mkApplicationName "shop") Test (mkBoundedContextName "orders") in _).
  destruct (for_bounded_context b) as [c|e] eqn:E; [|exfalso; revert E; by vm_compute].
  destruct (with_fresh_split_outcome_epoch c "e1") as [c'|e] eqn:E';
    [|exfalso; revert E'; vm_compute in E; injection E as <-; by vm_compute].
  assert (configured c') as Hc'.
  { eapply cfg_split; [|done]. by eapply (cfg_new b). }
  exists c'. split_and!; [done| |by apply configured_ok].
  revert E'; vm_compute in E; injection E as <-. vm_compute. by intros [= <-].
Defined.

(** ** Isolation of authorities *)

Lemma split_concat p segments :
  p ≠ "" → segments ≠ [] → Forall (λ s, no_match p s = true) segments →
  split p (String.concat p segments) = segments.
Proof.
  intros Hp Hn H. induction H as [|x l Hx _ IH]; [done|].
  destruct l as [|y l]; [by apply split_last, contains_no_match|].
  change (String.concat p (x :: y :: l)) with (x +:+ p +:+ String.concat p (y :: l)).
  by rewrite split_segment, IH.
Qed.

Lemma concat_inj p l k :
  p ≠ "" → l ≠ [] → k ≠ [] → Forall (λ s, no_match p s = true) l →
  Forall (λ s, no_match p s = true) k → String.concat p l = String.concat p k → l = k.
Proof.
  intros Hp Hl Hk Fl Fk E. apply (f_equal (split p)) in E. by rewrite !split_concat in E.
Qed.

Lemma hex_no_dot bs : no_match "." (hex_of_bytes bs) = true.
Proof.
  apply (bytes_all_no_match_char (λ c, negb (c =? 46))); [done|].
  induction bs as [|b bs IH]; [done|]. cbn [hex_of_bytes]. rewrite !bytes_all_cons.
  destruct (nibbles b) as (_ & H1 & H2).
  assert (∀ n, n < 16 → negb (N_of_ascii (hex_digit n) =? 46) = true) as Hd.
  { intros n Hn. destruct (hex_digit_cases n Hn) as (c & -> & Hc & _).
    destruct (N.eqb_spec c 46) as [->|]; [by vm_compute in Hc|done]. }
  by rewrite !Hd, IH.
Qed.

Section Isolation.
Context `{SHA : Sha256}.

Lemma prefix_segments_no_dot c segments :
  config_ok c → prefix_segments c segments → Forall (λ s, no_match "." s = true) segments.
Proof.
  intros Hc. pose proof (co_application c Hc) as Ha. pose proof (co_context c Hc) as Hx.
  assert (Forall (λ s, no_match "." s = true) (context_segments c)) as F.
  { unfold context_segments. repeat constructor; [auto with scope|].
    apply Forall_app. split; [by destruct (nc_traffic_scope c); repeat constructor|].
    repeat constructor. apply scope_name_dot, Hx. }
  unfold prefix_segments. destruct (nc_split_outcomes c); [|by intros ->].
  intros (t & [bs ->] & ->). apply Forall_app. split; [done|].
  repeat constructor. apply hex_no_dot.
Qed.

Lemma context_segments_inj c1 c2 s1 s2 :
  prefix_segments c1 s1 → prefix_segments c2 s2 → s1 = s2 →
  nc_application c1 = nc_application c2 ∧ nc_traffic_scope c1 = nc_traffic_scope c2
  ∧ nc_bounded_context c1 = nc_bounded_context c2 ∧ nc_split_outcomes c1 = nc_split_outcomes c2.
Proof.
  unfold prefix_segments, context_segments. intros H1 H2 <-.
  destruct (nc_application c1), (nc_application c2), (nc_bounded_context c1), (nc_bounded_context c2).
  cbn in *.
  destruct (nc_split_outcomes c1), (nc_split_outcomes c2), (nc_traffic_scope c1), (nc_traffic_scope c2);
    cbn in *; naive_solver.
Qed.

(** The dot-separated segments of a subject: the prefix, a role and what the
    role adds. *)
Definition subject_of (c : NatsEventStoreConfig) (l : list string) (subject : string) : Prop :=
  ∃ segments, prefix_segments c segments ∧ subject = String.concat "." (segments ++ l)
    ∧ Forall (λ s, no_match "." s = true) (segments ++ l).

Lemma subject_of_intro c l :
  config_ok c → l ≠ [] → Forall (λ s, no_match "." s = true) l →
  subject_of c l (nc_subject_prefix c +:+ "." +:+ String.concat "." l).
Proof.
  intros Hc Hl Fl. destruct (co_prefix c Hc) as (segments & Hs & ->). exists segments.
  assert (segments ≠ []) as Hn.
  { unfold prefix_segments in Hs. destruct (nc_split_outcomes c); [|by subst].
    by destruct Hs as (? & _ & ->). }
  split_and!; [done|by rewrite str_concat_app|].
  apply Forall_app. split; [by eapply prefix_segments_no_dot|done].
Qed.

Lemma aggregate_subject_of c t i :
  config_ok c →
  subject_of c ["aggregate"; digest_parts [as_bytes t; as_bytes i]] (aggregate_subject c t i).
Proof. intros Hc. apply subject_of_intro; try done. repeat constructor. apply hex_no_dot. Qed.
Lemma transaction_subject_of c o :
  config_ok c → subject_of c ["transaction"; digest_parts [as_bytes o]] (transaction_subject c o).
Proof. intros Hc. apply subject_of_intro; try done. repeat constructor. apply hex_no_dot. Qed.
Lemma guard_subject_of c o n :
  config_ok c →
  subject_of c (["transaction"; digest_parts [as_bytes o]] ++ ["guard"; n_to_string n])
    (transaction_guard_subject c o n).
Proof.
  intros Hc. unfold transaction_guard_subject, transaction_subject. rewrite !str_app_assoc.
  apply subject_of_intro; try done. repeat constructor; [apply hex_no_dot|].
  apply (bytes_all_no_match_char is_digit); [done|apply n_to_string_digits].
Qed.

Lemma subject_of_eq c1 c2 l1 l2 s :
  l1 ≠ [] → l2 ≠ [] → subject_of c1 l1 s → subject_of c2 l2 s →
  ∃ s1 s2, prefix_segments c1 s1 ∧ prefix_segments c2 s2 ∧ s1 ++ l1 = s2 ++ l2.
Proof.
  intros H1 H2 (s1 & P1 & -> & F1) (s2 & P2 & E & F2). exists s1, s2. split_and!; [done..|].
  apply (concat_inj "."); try done; intros N; by apply app_eq_nil in N as [_ ?].
Qed.

(** The same role in two stores' subjects is the same authority. *)
Lemma subject_of_inj c1 c2 l1 l2 s :
  config_ok c1 → config_ok c2 → subject_of c1 l1 s → subject_of c2 l2 s →
  l1 ≠ [] → length l1 = length l2 →
  nc_application c1 = nc_application c2 ∧ nc_traffic_scope c1 = nc_traffic_scope c2
  ∧ nc_bounded_context c1 = nc_bounded_context c2 ∧ nc_split_outcomes c1 = nc_split_outcomes c2
  ∧ l1 = l2.
Proof.
  intros H1 H2 S1 S2 Hn Hl. assert (l2 ≠ []) by (by intros ->; destruct l1).
  edestruct subject_of_eq as (s1 & s2 & P1 & P2 & E); [exact Hn| |exact S1|exact S2|]; [done|].
  apply app_inj_2 in E as [E ->]; [|done].
  destruct (context_segments_inj c1 c2 s1 s2 P1 P2 E) as (? & ? & ? & ?). by split_and!.
Qed.

Lemma digest_parts_inj ps qs :
  Forall framable ps → Forall framable qs → no_collision (frames ps) (frames qs) →
  digest_parts ps = digest_parts qs → ps = qs.
Proof. intros Hp Hq Hc E%hex_of_bytes_inj%Hc. by apply frames_inj. Qed.

(** The segments of the subject prefix a configuration got with its authority *)
Definition authority_segments (c : NatsEventStoreConfig) (a : option string) : list string :=
  context_segments c ++ match a with Some e => ["split"; digest_parts [as_bytes e]] | None => [] end.

Lemma configured_for_prefix a c :
  configured_for a c →
  nc_subject_prefix c = String.concat "." (authority_segments c a)
  ∧ nc_split_outcomes c = is_some a ∧ (∀ e, a = Some e → framable (as_bytes e)).
Proof.
  unfold authority_segments.
  induction 1 as [context name c Ha Hc H0|a c bytes ev c' _ IH H0|a c n c' _ IH H0|a c n c' _ IH H0
    |a c e c' _ IH H0|a c e c' _ IH H0|a c b c' _ IH H0|a c scope _ IH|a c _ IH].
  - unfold NatsEventStoreConfig_new in H0. guards. split_and!; [|done..].
    rewrite app_nil_r. apply context_prefix.
  - unfold with_storage_limits in H0. by guards.
  - unfold with_replicas in H0. by guards.
  - unfold with_puback_timeout in H0. by guards.
  - unfold with_fresh_completed_outcome_epoch in H0. by guards.
  - destruct IH as (Hp & Hs & _). unfold with_fresh_split_outcome_epoch, with_fresh_completed_outcome_epoch in H0.
    guards. cbn in * |-. guards. match goal with H : Some _ = Some _ |- _ => injection H as <- end.
    destruct a as [a|]; [by rewrite Hs in *|]. rewrite app_nil_r in Hp. split_and!; [|done|].
    + cbn [set_outcomes nc_subject_prefix].
      change (context_segments (set_outcomes _ _ _ _ _ _ _ _ _)) with (context_segments c).
      rewrite str_concat_app by done. by rewrite Hp.
    + intros x [= <-]. unfold framable. rewrite len_as_bytes. unfold u64_max. lia.
  - unfold with_explicit_detail_expiry in H0. by guards.
  - by destruct IH.
  - by destruct IH.
Qed.

Lemma authority_segments_prefix a c : configured_for a c → prefix_segments c (authority_segments c a).
Proof.
  intros (_ & Hs & _)%configured_for_prefix. unfold prefix_segments, authority_segments. rewrite Hs.
  destruct a as [e|]; [|apply app_nil_r]. eexists. split; [by eexists|done].
Qed.

(** An aggregate subject, segment by segment *)
Lemma aggregate_subject_segments a c t i :
  configured_for a c →
  aggregate_subject c t i
  = String.concat "." (authority_segments c a ++ ["aggregate"; digest_parts [as_bytes t; as_bytes i]])
  ∧ Forall (λ s, no_match "." s = true)
      (authority_segments c a ++ ["aggregate"; digest_parts [as_bytes t; as_bytes i]]).
Proof.
  intros H. destruct (configured_for_prefix _ _ H) as (Hp & _). split.
  - rewrite str_concat_app by done. unfold aggregate_subject. by rewrite Hp.
  - apply Forall_app. split; [|repeat constructor; apply hex_no_dot].
    eapply prefix_segments_no_dot, authority_segments_prefix, H.
    by eapply configured_config_ok, configured_for_configured.
Qed.

(** The segments name the context and the authority. *)
Lemma authority_segments_inj a1 a2 c1 c2 :
  configured_for a1 c1 → configured_for a2 c2 →
  (∀ e1 e2, a1 = Some e1 → a2 = Some e2 → no_collision (frames [as_bytes e1]) (frames [as_bytes e2])) →
  authority_segments c1 a1 = authority_segments c2 a2 →
  nc_application c1 = nc_application c2 ∧ nc_traffic_scope c1 = nc_traffic_scope c2
  ∧ nc_bounded_context c1 = nc_bounded_context c2 ∧ a1 = a2.
Proof.
  intros H1 H2 Hc E.
  destruct (context_segments_inj c1 c2 _ _ (authority_segments_prefix _ _ H1) (authority_segments_prefix _ _ H2) E)
    as (Ea & Et & Eb & _).
  split_and!; [done..|]. unfold authority_segments, context_segments in E. rewrite Ea, Et, Eb in E.
  apply app_inv_head in E. destruct (configured_for_prefix _ _ H1) as (_ & _ & F1).
  destruct (configured_for_prefix _ _ H2) as (_ & _ & F2).
  destruct a1 as [e1|], a2 as [e2|]; [|done..]. injection E as E.
  apply digest_parts_inj in E; [|repeat constructor; auto..|by apply Hc].
  injection E as ->%as_bytes_inj. done.
Qed.

(** C35 (safety). Two stores configured in any way write an aggregate under one
    subject only if they serve the same application, traffic scope and bounded
    context under the same authority - both inline, or split under the same epoch -
    and for the same stream, unless SHA-256 collides; no aggregate subject is a
    transaction or a guard subject, so the two roles never share a subject
    sequence. *)
Theorem subjects_are_isolated a1 a2 c1 c2 (s1 s2 : StreamId) :
  configured_for a1 c1 → configured_for a2 c2 → stream_ok s1 → stream_ok s2 →
  let parts s := [as_bytes (ident_str (aggregate_type s)); as_bytes (ident_str (aggregate_id s))] in
  let subject c s := aggregate_subject c (ident_str (aggregate_type s)) (ident_str (aggregate_id s)) in
  no_collision (frames (parts s1)) (frames (parts s2)) →
  (∀ e1 e2, a1 = Some e1 → a2 = Some e2 → no_collision (frames [as_bytes e1]) (frames [as_bytes e2])) →
  (subject c1 s1 = subject c2 s2 →
    nc_application c1 = nc_application c2 ∧ nc_traffic_scope c1 = nc_traffic_scope c2
    ∧ nc_bounded_context c1 = nc_bounded_context c2 ∧ a1 = a2
    ∧ nc_split_outcomes c1 = nc_split_outcomes c2 ∧ nc_subject_prefix c1 = nc_subject_prefix c2 ∧ s1 = s2)
  ∧ (∀ o, subject c1 s1 ≠ transaction_subject c2 o)
  ∧ (∀ o n, subject c1 s1 ≠ transaction_guard_subject c2 o n).
Proof.
  intros A1 A2 [Ht1 Hi1] [Ht2 Hi2] parts subject Hc Hce.
  pose proof (configured_config_ok _ (configured_for_configured _ _ A1)) as H1.
  pose proof (configured_config_ok _ (configured_for_configured _ _ A2)) as H2.
  pose proof (aggregate_subject_of c1 (ident_str (aggregate_type s1)) (ident_str (aggregate_id s1)) H1) as S1.
  split_and!.
  - destruct (aggregate_subject_segments a1 c1 (ident_str (aggregate_type s1)) (ident_str (aggregate_id s1)) A1) as [G1 F1].
    destruct (aggregate_subject_segments a2 c2 (ident_str (aggregate_type s2)) (ident_str (aggregate_id s2)) A2) as [G2 F2].
    unfold subject. rewrite G1, G2. intros E%concat_inj; [|done..].
    apply app_inj_2 in E as [E [= E']]; [|done].
    destruct (authority_segments_inj _ _ _ _ A1 A2 Hce E) as (? & ? & ? & ->).
    destruct (configured_for_prefix _ _ A1) as (P1 & O1 & _), (configured_for_prefix _ _ A2) as (P2 & O2 & _).
    apply digest_parts_inj in E'; [|repeat constructor; auto with identity..|done].
    injection E' as Et%as_bytes_inj Ei%as_bytes_inj. split_and!; try done; try congruence.
    destruct s1 as [[] []], s2 as [[] []]; cbn in *. by subst.
  - intros o E. pose proof (transaction_subject_of c2 o H2) as S2. unfold subject in E. rewrite <- E in S2.
    destruct (subject_of_inj _ _ _ _ _ H1 H2 S1 S2 ltac:(done) eq_refl) as (? & ? & ? & ? & E').
    done.
  - intros o n E. pose proof (guard_subject_of c2 o n H2) as S2. unfold subject in E. rewrite <- E in S2.
    edestruct subject_of_eq as (p1 & p2 & _ & _ & E'); [| |exact S1|exact S2|]; [done..|].
    rewrite (app_assoc p2) in E'. by apply app_inj_2 in E' as [_ ?].
Qed.
End Isolation.

Lemma subjects_are_isolated_witness :
  let H := tail_digest in
  let s1 := mkStreamId (Ident "order") (Ident "1") in
  ∃ c1 c2, configured_for (Some "e1") c1 ∧ configured_for (Some "e2") c2
    ∧ aggregate_subject c1 "order" "1" ≠ aggregate_subject c2 "order" "1".
Proof.
  intros H s1. cbn zeta.
  refine (let b := mkBoundedContext (mkApplicationName "shop") Test (mkBoundedContextName "orders") in _).
  destruct (for_bounded_context b) as [c|e] eqn:E; [|exfalso; revert E; by vm_compute].
  assert (configured_for None c) as Hc by (by eapply (for_new b)).
  destruct (with_fresh_split_outcome_epoch c "e1") as [c1|] eqn:E1; [|exfalso; revert E1; injection E as <-; by vm_compute].
  destruct (with_fresh_split_outcome_epoch c "e2") as [c2|] eqn:E2; [|exfalso; revert E2; injection E as <-; by vm_compute].
  pose proof (for_split _ _ _ _ Hc E1) as H1. pose proof (for_split _ _ _ _ Hc E2) as H2.
  exists c1, c2. split_and!; [done..|]. intros Es.
  destruct (proj1 (subjects_are_isolated _ _ c1 c2 s1 s1 H1 H2 ltac:(by split; vm_compute) ltac:(by split; vm_compute)
    ltac:(done) ltac:(intros ? ? [= <-] [= <-]; vm_compute; congruence)) Es) as (_ & _ & _ & [=] & _).
Defined.

(** ** Stream names *)

Lemma token_byte_inj a b :
  is_kebab a = true → is_kebab b = true → token_byte a = token_byte b → a = b.
Proof.
  unfold is_kebab, token_byte, is_lower, is_digit. intros Ha Hb.
  repeat case_match; lia.
Qed.

Lemma token_byte_ascii a : is_kebab a = true → token_byte a < 128.
Proof.
  unfold is_kebab, token_byte, is_lower, is_digit. intros Ha. repeat case_match; lia.
Qed.

Lemma stream_token_codes s :
  bytes_all is_kebab s = true → str_codes (stream_token s) = map token_byte (str_codes s).
Proof.
  intros H. assert (Forall (λ c, c < 128) (map token_byte (str_codes s))) as F.
  { unfold bytes_all in H. apply List.Forall_map, Forall_forall. intros c Hc.
    rewrite forallb_forall in H. apply token_byte_ascii, H. by apply list_elem_of_In. }
  unfold stream_token, of_chars. rewrite encode_ascii.
  - apply str_codes_of_codes. eapply Forall_impl; [exact F|]. cbn. lia.
  - apply forallb_forall. intros c Hc%list_elem_of_In. rewrite Forall_forall in F.
    unfold is_ascii_byte. apply N.ltb_lt. by apply F.
Qed.

Lemma str_codes_inj s t : str_codes s = str_codes t → s = t.
Proof. intros E. by rewrite <- (of_codes_str_codes s), E, of_codes_str_codes. Qed.

Lemma stream_token_app s t :
  bytes_all is_kebab s = true → bytes_all is_kebab t = true →
  stream_token (s +:+ t) = stream_token s +:+ stream_token t.
Proof.
  intros Hs Ht. apply str_codes_inj.
  by rewrite stream_token_codes, !str_codes_app, !stream_token_codes, map_app
    by (rewrite ?bytes_all_app, ?Hs, ?Ht; done).
Qed.

Lemma stream_token_inj s t :
  bytes_all is_kebab s = true → bytes_all is_kebab t = true →
  stream_token s = stream_token t → s = t.
Proof.
  intros Hs Ht E. apply (f_equal str_codes) in E. rewrite !stream_token_codes in E by done.
  apply str_codes_inj. revert E. unfold bytes_all in Hs, Ht.
  generalize dependent (str_codes t). generalize dependent (str_codes s).
  induction l as [|a l IH]; intros Hs [|b k] Ht; cbn in *; try done.
  intros [= E1 E2]. guards. f_equal; [by apply token_byte_inj|by apply IH].
Qed.

(** The text whose token the stream name is *)
Definition stream_text (c : BoundedContext) : string :=
  application_str (bc_application c) +:+ "--"
  +:+ match bc_traffic_scope c with
      | Normal => context_str (bc_name c)
      | Test => "test" +:+ "--" +:+ context_str (bc_name c)
      end.

Definition bounded_context_ok (c : BoundedContext) : Prop :=
  scope_name (application_str (bc_application c)) = true ∧ scope_name (context_str (bc_name c)) = true.

Lemma stream_text_kebab c : bounded_context_ok c → bytes_all is_kebab (stream_text c) = true.
Proof.
  intros [Ha%scope_name_kebab Hc%scope_name_kebab]. unfold stream_text.
  destruct (bc_traffic_scope c); by rewrite !bytes_all_app, Ha, ?bytes_all_app, Hc.
Qed.

Lemma stream_name_token c :
  bounded_context_ok c →
  domain_event_stream_name c = stream_token (stream_text c +:+ "-domain-events").
Proof.
  intros Hc. rewrite stream_token_app by (done || by apply stream_text_kebab).
  destruct Hc as [Ha%scope_name_kebab Hc%scope_name_kebab].
  unfold domain_event_stream_name, scoped_stream_prefix, stream_text.
  destruct (bc_traffic_scope c);
    rewrite !stream_token_app by (rewrite ?bytes_all_app, ?Ha, ?Hc; done);
    by rewrite !str_app_assoc.
Qed.

(** The stream name derived for a bounded context determines its
    application, traffic scope and name: two contexts never share a stream,
    and a test context never the stream of a normal one. *)
Theorem stream_name_unique c1 c2 :
  bounded_context_ok c1 → bounded_context_ok c2 →
  domain_event_stream_name c1 = domain_event_stream_name c2 → c1 = c2.
Proof.
  intros H1 H2. rewrite !stream_name_token by done. intros E.
  apply stream_token_inj in E; [|by rewrite bytes_all_app, stream_text_kebab..].
  apply (f_equal str_codes) in E. rewrite !str_codes_app in E.
  apply app_inv_tail, str_codes_inj in E. apply (f_equal (split "--")) in E.
  destruct H1 as [Ha1%scope_name_dash Hc1%scope_name_dash], H2 as [Ha2%scope_name_dash Hc2%scope_name_dash].
  destruct c1 as [[a1] t1 [n1]], c2 as [[a2] t2 [n2]]. unfold stream_text in E.
  cbn [bc_application bc_traffic_scope bc_name application_str context_str] in *.
  destruct t1, t2; rewrite !split_segment in E by done;
    rewrite !split_last in E by (by apply contains_no_match); congruence.
Qed.

Lemma stream_name_unique_witness :
  let c t := mkBoundedContext (mkApplicationName "shop") t (mkBoundedContextName "order-desk") in
  domain_event_stream_name (c Test) = "SHOP__TEST__ORDER_DESK_DOMAIN_EVENTS"
  ∧ domain_event_stream_name (c Normal) ≠ domain_event_stream_name (c Test).
Proof.
  intros c. split; [by vm_compute|]. intros E.
  assert (c Normal = c Test); [|done]. apply stream_name_unique; [by split; vm_compute..|done].
Defined.
