(* ===== verification/NatsWire.v ===== *)
(** * NatsWire: the wire format of events in a NATS event store
    (encode_events, decode_event, publish_atomic_messages and their helpers in
    crates/rostfrei-nats/src/event_store.rs).

    The header map and the header names of async_nats, the base64 alphabet and
    JSON text are parameters with their documented laws. *)

From S2P Require Export NatsConfig Serde.

(** ** Third-party interfaces *)

(** [async_nats::HeaderMap]: inserting replaces the values of one name. *)
Class HeaderMapApi := {
  HeaderMap : Type;
  headers_new : HeaderMap;
  headers_insert : string → string → HeaderMap → HeaderMap;
  headers_get_all : HeaderMap → string → list string;
  get_all_new name : headers_get_all headers_new name = [];
  get_all_insert name value h : headers_get_all (headers_insert name value h) name = [value];
  get_all_insert_other name other value h : name ≠ other →
    headers_get_all (headers_insert name value h) other = headers_get_all h other;
}.

(** [async_nats::header]: the names JetStream documents *)
Class AtomicHeaderNames := {
  NATS_BATCH_COMMIT : string;
  NATS_BATCH_COMMIT_FINAL : string;
  NATS_BATCH_ID : string;
  NATS_BATCH_SEQUENCE : string;
  NATS_EXPECTED_LAST_SUBJECT_SEQUENCE : string;
  NATS_EXPECTED_STREAM : string;
  NATS_REQUIRED_API_LEVEL : string;
  batch_commit_name : NATS_BATCH_COMMIT = "Nats-Batch-Commit";
  batch_id_name : NATS_BATCH_ID = "Nats-Batch-Id";
  batch_sequence_name : NATS_BATCH_SEQUENCE = "Nats-Batch-Sequence";
  expected_sequence_name : NATS_EXPECTED_LAST_SUBJECT_SEQUENCE = "Nats-Expected-Last-Subject-Sequence";
  expected_stream_name : NATS_EXPECTED_STREAM = "Nats-Expected-Stream";
  api_level_name : NATS_REQUIRED_API_LEVEL = "Nats-Required-Api-Level";
}.

(** [base64::engine::general_purpose::STANDARD] *)
Class Base64 := {
  base64_encode : list byte → string;
  base64_decode : string → result (list byte) string;
  base64_roundtrip bs : base64_decode (base64_encode bs) = Ok bs;
}.

(** ** Wire values *)

Definition LEGACY_EVENT_SCHEMA_VERSION : N := 1.
Definition CORRELATION_EVENT_SCHEMA_VERSION : N := 2.
Definition EVENT_SCHEMA_VERSION : N := 3.
Definition TRANSACTION_EVENT_SCHEMA_VERSION : N := 4.
Definition ACTOR_EVENT_SCHEMA_VERSION : N := 5.
Definition ACTOR_TRANSACTION_EVENT_SCHEMA_VERSION : N := 6.
Definition ATOMIC_BATCH_API_LEVEL : string := "2".
Definition NATS_EXPECTED_LAST_SUBJECT_SEQUENCE_SUBJECT : string :=
  "Nats-Expected-Last-Subject-Sequence-Subject".
Definition CORRELATION_ID_HEADER : string := "rostfrei-Control-Correlation-Id".

Record StreamIdentityWire := mkStreamIdentityWire {
  siw_aggregate_type : string;
  siw_aggregate_id : string;
}.

Record StoredEventContentWire := mkEventContent {
  sec_event_store_stream : string;
  sec_application : option string;
  sec_bounded_context : option string;
  sec_stream : StreamIdentityWire;
  sec_stream_version : N;
  sec_commit_id : string;
  sec_operation_id : string;
  sec_operation_fingerprint : string;
  sec_correlation_id : option string;
  sec_causation_id : option string;
  sec_actor : option ActorRef;
  sec_commit_event_ordinal : N;
  sec_commit_event_count : N;
  sec_transaction_event_ordinal : option N;
  sec_transaction_event_count : option N;
  sec_event_id : string;
  sec_event_type : string;
  sec_event_schema_version : N;
  sec_payload_base64 : string;
}.

Record StoredEventWire := mkEventWire {
  sew_schema_version : N;
  sew_checksum : string;
  sew_event : StoredEventContentWire;
}.

(** [ChecksumInput]: what [event_checksum] serialises *)
Record ChecksumInput := mkChecksumInput {
  ci_schema_version : N;
  ci_event : StoredEventContentWire;
}.

Definition transactional_event_schema (version : N) : bool :=
  (version =? TRANSACTION_EVENT_SCHEMA_VERSION) || (version =? ACTOR_TRANSACTION_EVENT_SCHEMA_VERSION).
Definition actor_event_schema (version : N) : bool :=
  (version =? ACTOR_EVENT_SCHEMA_VERSION) || (version =? ACTOR_TRANSACTION_EVENT_SCHEMA_VERSION).
Definition supported_event_schema (version : N) : bool :=
  (version =? LEGACY_EVENT_SCHEMA_VERSION) || (version =? CORRELATION_EVENT_SCHEMA_VERSION)
  || (version =? EVENT_SCHEMA_VERSION) || (version =? TRANSACTION_EVENT_SCHEMA_VERSION)
  || (version =? ACTOR_EVENT_SCHEMA_VERSION) || (version =? ACTOR_TRANSACTION_EVENT_SCHEMA_VERSION).

(** The fields of [DecodedStoredEvent] and of the [DecodedEvent] it wraps *)
Record DecodedEvent := mkDecodedEvent {
  de_batch_id : string;
  de_commit_id : CommitId;
  de_operation_id : OperationId;
  de_operation_fingerprint : ContentFingerprint;
  de_event_ordinal : N;
  de_event_count : N;
  de_transaction_event_ordinal : N;
  de_transaction_event_count : N;
  de_is_transactional : bool;
  de_recorded : RecordedEvent;
}.
Record DecodedStoredEvent := mkDecodedStoredEvent {
  dse_decoded : DecodedEvent;
  dse_global_stream_sequence : N;
  dse_is_transactional : bool;
}.

Section Wire.
Context `{SHA : Sha256} `{WJ : Json StoredEventWire} `{CJ : Json ChecksumInput} `{B64 : Base64}.
Context (config : NatsEventStoreConfig).

(** ** Encoding *)

Definition event_checksum (schema_version : N) (event : StoredEventContentWire)
  : result string string :=
  let? input := to_vec (mkChecksumInput schema_version event) in
  Ok (hex_of_bytes (sha256 input)).

(** The content of the event at an index of its batch *)
Definition event_content (stream_id : StreamId) (batch : EventBatch) (ordinal event_count : N)
    (transaction_event_ordinal transaction_event_count : option N) (event : RecordedEvent)
  : StoredEventContentWire :=
  {| sec_event_store_stream := nc_stream_name config;
     sec_application := Some (application_str (nc_application config));
     sec_bounded_context := Some (context_str (nc_bounded_context config));
     sec_stream := mkStreamIdentityWire (ident_str (aggregate_type stream_id))
                     (ident_str (aggregate_id stream_id));
     sec_stream_version := version_value (re_stream_version event);
     sec_commit_id := ident_str (eb_commit_id batch);
     sec_operation_id := ident_str (eb_operation_id batch);
     sec_operation_fingerprint := to_hex (eb_operation_fingerprint batch);
     sec_correlation_id := id_str <$> eb_correlation_id batch;
     sec_causation_id := id_str <$> eb_causation_id batch;
     sec_actor := eb_actor batch;
     sec_commit_event_ordinal := ordinal; sec_commit_event_count := event_count;
     sec_transaction_event_ordinal := transaction_event_ordinal;
     sec_transaction_event_count := transaction_event_count;
     sec_event_id := ident_str (re_event_id event); sec_event_type := re_event_type event;
     sec_event_schema_version := re_schema_version event;
     sec_payload_base64 := base64_encode (re_payload event) |}.

Definition event_schema (transactional attributed : bool) : N :=
  match transactional, attributed with
  | true, true => ACTOR_TRANSACTION_EVENT_SCHEMA_VERSION
  | false, true => ACTOR_EVENT_SCHEMA_VERSION
  | true, false => TRANSACTION_EVENT_SCHEMA_VERSION
  | false, false => EVENT_SCHEMA_VERSION
  end.

(** One iteration of [encode_events_inner] *)
Definition encode_event (stream_id : StreamId) (batch : EventBatch) (event_count : N)
    (transaction : option (N * N)) (item : N * RecordedEvent) : result (list byte) EventStoreError :=
  let (index, event) := item in
  let? ordinal := ok_or (try_from u32_max index)
    (invalid "event batch ordinal cannot be represented") in
  let? transaction_event_ordinal :=
    transpose ((λ t, ok_or (checked_add u32_max t.1 ordinal)
                       (invalid "transaction event ordinal overflowed")) <$> transaction) in
  let content := event_content stream_id batch ordinal event_count transaction_event_ordinal
                   (snd <$> transaction) event in
  let schema_version := event_schema (is_some transaction) (is_some (eb_actor batch)) in
  let? checksum := map_err (λ error, invalid ("failed to checksum event: " +:+ error))
    (event_checksum schema_version content) in
  map_err (λ error, invalid ("failed to encode event: " +:+ error))
    (to_vec (mkEventWire schema_version checksum content)).

Definition encode_events_inner (stream_id : StreamId) (batch : EventBatch)
    (recorded : list RecordedEvent) (transaction : option (N * N))
  : result (list (list byte)) EventStoreError :=
  fail! negb (len recorded =? len (eb_events batch))
    with invalid "recorded event count does not match its batch";
  let? event_count := ok_or (try_from u32_max (len recorded))
    (invalid "event batch count cannot be represented") in
  try_map (encode_event stream_id batch event_count transaction) (enumerate recorded).

Definition encode_events (stream_id : StreamId) (batch : EventBatch) (recorded : list RecordedEvent) :=
  encode_events_inner stream_id batch recorded None.
Definition encode_transaction_events (stream_id : StreamId) (batch : EventBatch)
    (recorded : list RecordedEvent) (transaction_offset transaction_event_count : N) :=
  encode_events_inner stream_id batch recorded (Some (transaction_offset, transaction_event_count)).

(** ** Publishing *)

Context `{HM : HeaderMapApi} `{HN : AtomicHeaderNames}.

Record AtomicPublishMessage := mkAtomicPublishMessage {
  apm_subject : string;
  apm_message_id : option string;
  apm_payload : list byte;
  apm_expected_last_subject_sequence : option N;
  apm_expectation_subject : option string;
}.

(** [if let Some(value) = ... { headers.insert(name, value); }] *)
Definition insert_some (name : string) (value : option string) (h : HeaderMap) : HeaderMap :=
  match value with Some v => headers_insert name v h | None => h end.

(** The headers [publish_atomic_messages] gives the message at [index] *)
Definition atomic_headers (batch_id : string) (correlation_id : option string)
    (message_count index : N) (atomic : AtomicPublishMessage) : HeaderMap :=
  let one_based_sequence := index + 1 in
  let h := headers_insert "Content-Type" "application/json" headers_new in
  let h := headers_insert NATS_REQUIRED_API_LEVEL ATOMIC_BATCH_API_LEVEL h in
  let h := headers_insert NATS_BATCH_ID batch_id h in
  let h := headers_insert NATS_BATCH_SEQUENCE (n_to_string one_based_sequence) h in
  let h := insert_some CORRELATION_ID_HEADER correlation_id h in
  let h := insert_some "Nats-Msg-Id" (apm_message_id atomic) h in
  let h := if index =? 0 then headers_insert NATS_EXPECTED_STREAM (nc_stream_name config) h else h in
  let h := insert_some NATS_EXPECTED_LAST_SUBJECT_SEQUENCE
             (n_to_string <$> apm_expected_last_subject_sequence atomic) h in
  let h := insert_some NATS_EXPECTED_LAST_SUBJECT_SEQUENCE_SUBJECT (apm_expectation_subject atomic) h in
  if one_based_sequence =? message_count
  then headers_insert NATS_BATCH_COMMIT NATS_BATCH_COMMIT_FINAL h else h.

(** [publish_atomic_batch]: the messages of a direct append *)
Definition atomic_batch_messages (subject : string) (expected_last_subject_sequence : N)
    (events : list (string * list byte)) : list AtomicPublishMessage :=
  map (λ '(index, (message_id, payload)),
         {| apm_subject := subject; apm_message_id := Some message_id; apm_payload := payload;
            apm_expected_last_subject_sequence :=
              if index =? 0 then Some expected_last_subject_sequence else None;
            apm_expectation_subject := None |}) (enumerate events).

(** ** Header validation *)

Definition optional_single_header (headers : HeaderMap) (name : string)
  : result (option string) EventStoreError :=
  let values := headers_get_all headers name in
  fail! 2 <=? len values with corrupt ("stored event repeats " +:+ name);
  Ok (head values).

Definition required_single_header (headers : HeaderMap) (name : string)
  : result string EventStoreError :=
  let? value := optional_single_header headers name in
  ok_or value (corrupt ("stored event is missing " +:+ name)).

Definition validate_aggregate_sequence_expectation (stored_sequence : option string)
    (expected_sequence : option N) : result unit EventStoreError :=
  let? text := ok_or stored_sequence (corrupt "stored commit has no aggregate sequence expectation") in
  let? sequence := ok_or (parse_n u64_max text)
    (corrupt "stored commit has an invalid aggregate sequence expectation") in
  fail! is_some_and (λ expected, negb (sequence =? expected)) expected_sequence
    with corrupt "stored commit has an incompatible aggregate sequence expectation";
  Ok tt.

(** The [Nats-Batch-Commit] header must be on the last event of a commit, and
    never on a transactional one. *)
Definition validate_commit_header (commit : option string) (schema_version commit_event_ordinal
    commit_event_count : N) : result unit EventStoreError :=
  if transactional_event_schema schema_version then
    fail! is_some commit with corrupt "transactional domain event finalized before its receipt";
    Ok tt
  else if is_some_and (λ ordinal, ordinal =? commit_event_count)
            (checked_add usize_max commit_event_ordinal 1) then
    fail! negb (bool_decide (commit = Some NATS_BATCH_COMMIT_FINAL))
      with corrupt "stored commit has no atomic final event";
    Ok tt
  else
    fail! is_some commit with corrupt "stored commit was finalized before its last event";
    Ok tt.

Definition validate_atomic_headers (stream_name : string) (headers : HeaderMap)
    (schema_version commit_event_ordinal commit_event_count transaction_event_ordinal : N)
    (expected_last_subject_sequence : option N) : result string EventStoreError :=
  let? content_type := required_single_header headers "Content-Type" in
  fail! negb (String.eqb content_type "application/json")
    with corrupt "stored event has the wrong content type";
  let? batch_id := required_single_header headers "Nats-Batch-Id" in
  fail! String.eqb batch_id "" || (64 <? str_len batch_id)
    with corrupt "stored event has an invalid atomic batch identity";
  let? text := required_single_header headers "Nats-Batch-Sequence" in
  let? batch_sequence := ok_or (parse_n usize_max text)
    (corrupt "stored event has an invalid atomic batch sequence") in
  let? one_based_sequence := ok_or (checked_add usize_max transaction_event_ordinal 1)
    (corrupt "stored event has an invalid atomic batch sequence") in
  fail! negb (batch_sequence =? one_based_sequence)
    with corrupt "stored event atomic batch sequence does not match its transaction ordinal";
  let? expected_stream := optional_single_header headers "Nats-Expected-Stream" in
  let? expected_sequence := optional_single_header headers "Nats-Expected-Last-Subject-Sequence" in
  let? _ :=
    if commit_event_ordinal =? 0 then
      fail! (transaction_event_ordinal =? 0) && negb (bool_decide (expected_stream = Some stream_name))
        with corrupt "stored commit has an incompatible expected stream";
      fail! negb (transaction_event_ordinal =? 0) && is_some expected_stream
        with corrupt "stored transaction repeats its expected stream";
      validate_aggregate_sequence_expectation expected_sequence expected_last_subject_sequence
    else
      fail! is_some expected_stream || is_some expected_sequence
        with corrupt "stored commit repeats its aggregate sequence expectation";
      Ok tt in
  let? commit := optional_single_header headers "Nats-Batch-Commit" in
  let? _ := validate_commit_header commit schema_version commit_event_ordinal commit_event_count in
  Ok batch_id.

(** ** Decoding *)

(** The checks of [decode_event_inner] on the schema of the wire value *)
Definition validate_event_schema (wire : StoredEventWire) : result unit EventStoreError :=
  let version := sew_schema_version wire in
  let event := sew_event wire in
  fail! negb (supported_event_schema version)
    with corrupt "stored event has an unsupported schema version";
  fail! negb (Bool.eqb (actor_event_schema version) (is_some (sec_actor event)))
    with corrupt "stored event actor/schema mismatch";
  fail! (version =? LEGACY_EVENT_SCHEMA_VERSION)
        && (is_some (sec_correlation_id event) || is_some (sec_causation_id event))
    with corrupt "legacy stored events cannot contain correlation or causation metadata";
  fail! (version <? EVENT_SCHEMA_VERSION)
        && (is_some (sec_application event) || is_some (sec_bounded_context event))
    with corrupt "legacy stored events cannot contain application scope metadata";
  fail! negb (transactional_event_schema version)
        && (is_some (sec_transaction_event_ordinal event) || is_some (sec_transaction_event_count event))
    with corrupt "legacy stored events cannot contain transaction coordinates";
  Ok tt.

(** The checks on the checksum and on where the event belongs *)
Definition validate_event_origin (wire : StoredEventWire) : result unit EventStoreError :=
  let event := sew_event wire in
  let? expected_checksum :=
    map_err (λ error, corrupt ("stored event cannot be checksummed: " +:+ error))
      (event_checksum (sew_schema_version wire) event) in
  fail! negb (String.eqb (sew_checksum wire) expected_checksum)
    with corrupt "stored event checksum does not match its content";
  fail! negb (String.eqb (sec_event_store_stream event) (nc_stream_name config))
    with corrupt "stored event belongs to a different event-store stream";
  fail! (EVENT_SCHEMA_VERSION <=? sew_schema_version wire)
        && (negb (bool_decide (sec_application event = Some (application_str (nc_application config))))
            || negb (bool_decide
                       (sec_bounded_context event = Some (context_str (nc_bounded_context config)))))
    with corrupt "stored event belongs to a different application or bounded context";
  Ok tt.

Definition stored_identity (what : string) {A} (r : result A IdentityError) : result A EventStoreError :=
  map_err (λ error, corrupt ("invalid stored " +:+ what +:+ ": " +:+ IdentityError_display error)) r.

(** The stream the event belongs to *)
Definition decode_stream (subject : string) (expected_stream_id : option StreamId)
    (event : StoredEventContentWire) : result StreamId EventStoreError :=
  let? aggregate_type := stored_identity "aggregate type"
    (ident_new KAggregateType (siw_aggregate_type (sec_stream event))) in
  let? aggregate_id := stored_identity "aggregate id"
    (ident_new KAggregateId (siw_aggregate_id (sec_stream event))) in
  let stream_id := mkStreamId aggregate_type aggregate_id in
  fail! is_some_and (λ expected, negb (bool_decide (stream_id = expected))) expected_stream_id
    with corrupt "stored event belongs to a different aggregate stream";
  fail! negb (String.eqb (aggregate_subject config (ident_str aggregate_type) (ident_str aggregate_id))
                subject)
    with corrupt "stored event is on the wrong aggregate subject";
  Ok stream_id.

(** The coordinates of the event in its commit and in its transaction *)
Definition decode_coordinates (wire : StoredEventWire) : result (N * N * N * N) EventStoreError :=
  let event := sew_event wire in
  let? event_count := ok_or (try_from usize_max (sec_commit_event_count event))
    (corrupt "stored event has invalid commit coordinates") in
  let? event_ordinal := ok_or (try_from usize_max (sec_commit_event_ordinal event))
    (corrupt "stored event has invalid commit coordinates") in
  fail! (event_count =? 0) || (MAX_EVENTS_PER_BATCH <? event_count) || (event_count <=? event_ordinal)
    with corrupt "stored event has invalid commit coordinates";
  if transactional_event_schema (sew_schema_version wire) then
    let? ordinal := ok_or (sec_transaction_event_ordinal event)
      (corrupt "transactional event has no transaction ordinal") in
    let? count := ok_or (sec_transaction_event_count event)
      (corrupt "transactional event has no transaction event count") in
    let? count := ok_or (try_from usize_max count)
      (corrupt "transactional event has invalid transaction coordinates") in
    let? ordinal := ok_or (try_from usize_max ordinal)
      (corrupt "transactional event has invalid transaction coordinates") in
    fail! (count =? 0) || (MAX_EVENTS_PER_BATCH <? count) || (count <=? ordinal)
      with corrupt "transactional event has invalid transaction coordinates";
    Ok (event_ordinal, event_count, ordinal, count)
  else Ok (event_ordinal, event_count, event_ordinal, event_count).

Definition stored_contract (what : string) {A} (r : result A ContractError) : result A EventStoreError :=
  map_err (λ error, corrupt ("invalid stored " +:+ what +:+ ": " +:+ ContractError_display error)) r.

(** The recorded event of a checked wire value *)
Definition decode_recorded (stream_id : StreamId) (event : StoredEventContentWire)
  : result RecordedEvent EventStoreError :=
  fail! sec_stream_version event =? 0 with corrupt "stored event has aggregate version zero";
  let? commit_id := stored_identity "commit identity" (ident_new KCommitId (sec_commit_id event)) in
  let? operation_id :=
    stored_identity "operation identity" (ident_new KOperationId (sec_operation_id event)) in
  let? operation_fingerprint :=
    stored_identity "operation fingerprint" (from_hex (sec_operation_fingerprint event)) in
  let? correlation_id := stored_contract "correlation identity"
    (transpose (CorrelationId_new <$> sec_correlation_id event)) in
  let? causation_id := stored_contract "causation identity"
    (transpose (CausationId_new <$> sec_causation_id event)) in
  let? event_id := stored_identity "event identity" (ident_new KEventId (sec_event_id event)) in
  let? payload := map_err (λ error, corrupt ("invalid stored event payload: " +:+ error))
    (base64_decode (sec_payload_base64 event)) in
  let expected_commit_id := derive_commit_id stream_id operation_id in
  fail! negb (bool_decide (expected_commit_id = commit_id))
        || negb (bool_decide (derive_event_id expected_commit_id (sec_commit_event_ordinal event) = event_id))
    with corrupt "stored event has incompatible derived identities";
  let? recorded :=
    map_err (λ error, corrupt ("invalid recorded event: " +:+ EnvelopeError_display error))
      (new_in_commit stream_id (mkStreamVersion (sec_stream_version event)) event_id commit_id
         operation_id operation_fingerprint (sec_commit_event_ordinal event)
         (sec_commit_event_count event) (sec_event_type event) (sec_event_schema_version event)
         payload) in
  let recorded := match correlation_id with
                  | Some c => recorded_with_correlation_id recorded c | None => recorded end in
  let recorded := match causation_id with
                  | Some c => recorded_with_causation_id recorded c | None => recorded end in
  let recorded := match sec_actor event with
                  | Some a => recorded_with_actor recorded a | None => recorded end in
  Ok recorded.

Definition decode_event_inner (subject : string) (expected_stream_id : option StreamId)
    (expected_last_subject_sequence : option N) (headers : HeaderMap) (payload : list byte)
  : result DecodedStoredEvent EventStoreError :=
  fail! MAX_SUPPORTED_EVENT_BYTES <? len payload
    with corrupt "stored event exceeds the supported byte limit";
  let? wire := map_err (λ error, corrupt ("stored event is not valid wire JSON: " +:+ error))
    (from_slice payload) in
  let? _ := validate_event_schema wire in
  let? _ := validate_event_origin wire in
  let event := sew_event wire in
  let? stream_id := decode_stream subject expected_stream_id event in
  let? (event_ordinal, event_count, transaction_event_ordinal, transaction_event_count) :=
    decode_coordinates wire in
  let? recorded := decode_recorded stream_id event in
  let? batch_id := validate_atomic_headers (nc_stream_name config) headers (sew_schema_version wire)
    event_ordinal event_count transaction_event_ordinal expected_last_subject_sequence in
  let transactional := transactional_event_schema (sew_schema_version wire) in
  Ok {| dse_decoded :=
          {| de_batch_id := batch_id; de_commit_id := re_commit_id recorded;
             de_operation_id := re_operation_id recorded;
             de_operation_fingerprint := re_operation_fingerprint recorded;
             de_event_ordinal := event_ordinal; de_event_count := event_count;
             de_transaction_event_ordinal := transaction_event_ordinal;
             de_transaction_event_count := transaction_event_count;
             de_is_transactional := transactional; de_recorded := recorded |};
        dse_global_stream_sequence := 0; dse_is_transactional := transactional |}.

Definition decode_event (subject : string) (expected_stream_id : StreamId)
    (expected_last_subject_sequence : option N) (global_stream_sequence : N) (headers : HeaderMap)
    (payload : list byte) : result DecodedStoredEvent EventStoreError :=
  let? stored := decode_event_inner subject (Some expected_stream_id) expected_last_subject_sequence
    headers payload in
  Ok (mkDecodedStoredEvent (dse_decoded stored) global_stream_sequence (dse_is_transactional stored)).

Definition decode_consumed_event (subject : string) (headers : HeaderMap) (payload : list byte)
  : result DecodedEvent EventStoreError :=
  rmap dse_decoded (decode_event_inner subject None None headers payload).

End Wire.
