(* ===== verification/Receipt.v ===== *)
(** * Receipt: the checked receipt boundaries shared by preparation and by the
    consumers of recovered results (crates/rostfrei-core/src/receipt_validation.rs). *)

From S2P Require Export Store.

Section Receipts.
Context `{SHA : Sha256}.

(** The disjunction of [validate_integrity]: the event is not the one of its
    participant, position and receipt. *)
Definition event_differs (r : TransactionReceipt) (s : TransactionStreamReceipt)
    (commit : CommitId) (count : N) (version : StreamVersion) (ordinal : N)
    (event : RecordedEvent) : bool :=
  negb (bool_decide (re_stream_id event = sr_stream_id s))
  || negb (bool_decide (re_stream_version event = version))
  || negb (bool_decide (re_commit_id event = commit))
  || negb (bool_decide (re_event_id event = derive_event_id commit ordinal))
  || negb (bool_decide (re_operation_id event = tr_operation_id r))
  || negb (bool_decide (re_operation_fingerprint event = tr_operation_fingerprint r))
  || negb (bool_decide (re_correlation_id event = tr_correlation_id r))
  || negb (bool_decide (re_causation_id event = tr_causation_id r))
  || negb (bool_decide (re_actor event = tr_actor r))
  || negb (re_commit_event_ordinal event =? ordinal)
  || negb (re_commit_event_count event =? count).

(** One iteration of the event loop: the version after the event *)
Definition integrity_event (r : TransactionReceipt) (s : TransactionStreamReceipt)
    (commit : CommitId) (count : N) (version : StreamVersion) (item : N * RecordedEvent)
  : result StreamVersion EventStoreError :=
  let? version := ok_or (version_next version) (corrupt "receipt stream version overflow") in
  let? ordinal := ok_or (try_from u32_max item.1) (corrupt "receipt ordinal overflow") in
  fail! event_differs r s commit count version ordinal item.2
    with corrupt "receipt event coordinates or provenance differ from its participant";
  Ok version.

(** One iteration of the participant loop: the streams seen after it *)
Definition integrity_stream (r : TransactionReceipt) (streams : gset StreamId)
    (s : TransactionStreamReceipt) : result (gset StreamId) EventStoreError :=
  fail! bool_decide (sr_stream_id s ∈ streams) with corrupt "duplicate receipt participant";
  let commit := derive_commit_id (sr_stream_id s) (tr_operation_id r) in
  let? count := ok_or (try_from u32_max (len (sr_events s)))
    (corrupt "receipt event count overflow") in
  let? _ := try_fold (integrity_event r s commit count) (sr_base_version s)
              (enumerate (sr_events s)) in
  Ok ({[ sr_stream_id s ]} ∪ streams).

Definition validate_integrity (r : TransactionReceipt) : result unit EventStoreError :=
  let? _ := try_fold (integrity_stream r) ∅ (tr_streams r) in
  match tr_completion r with
  | Some completion =>
    let? _ := map_err (λ e, corrupt (EventCodecError_display e)) (completion_validate completion) in
    fail! is_some (completion_rejection completion)
          && existsb (λ s, negb (len (sr_events s) =? 0)) (tr_streams r)
      with corrupt "rejected receipt contains events";
    Ok tt
  | None => Ok tt
  end.

(** The two events of one position differ in content. *)
Definition content_differs (new : NewEvent) (recorded : RecordedEvent) : bool :=
  negb (bool_decide (ne_event_id new = re_event_id recorded))
  || negb (String.eqb (ne_event_type new) (re_event_type recorded))
  || negb (ne_schema_version new =? re_schema_version recorded)
  || negb (bool_decide (ne_payload new = re_payload recorded)).

Definition batch_differs (r : TransactionReceipt) (s : TransactionStreamReceipt)
    (batch : EventBatch) : bool :=
  negb (bool_decide (eb_operation_id batch = tr_operation_id r))
  || negb (bool_decide (eb_operation_fingerprint batch = tr_operation_fingerprint r))
  || negb (bool_decide (eb_correlation_id batch = tr_correlation_id r))
  || negb (bool_decide (eb_causation_id batch = tr_causation_id r))
  || negb (bool_decide (eb_actor batch = tr_actor r))
  || negb (bool_decide (eb_commit_id batch = derive_commit_id (sr_stream_id s) (tr_operation_id r)))
  || negb (len (eb_events batch) =? len (sr_events s)).

(** The base version an expected version promises *)
Definition expected_base (expected : ExpectedVersion) : result StreamVersion EventStoreError :=
  match expected with
  | NoStream => Ok version_zero
  | Exact version =>
    if negb (bool_decide (version = version_zero)) then Ok version
    else Err (invalid "Exact requires a nonzero base version")
  end.

(** One iteration of the zipped loop of [validate_proposal] *)
Definition proposal_pair (r : TransactionReceipt)
    (pair : TransactionStreamReceipt * TransactionParticipant) : result unit EventStoreError :=
  let (s, p) := pair in
  let? base := expected_base (tp_expected_version p) in
  fail! negb (bool_decide (sr_stream_id s = tp_stream_id p))
        || negb (bool_decide (sr_base_version s = base))
    with invalid "receipt participant order, identity or base version differs from proposal";
  match tp_batch p with
  | None =>
    fail! negb (len (sr_events s) =? 0) with invalid "read guard receipt contains events";
    Ok tt
  | Some batch =>
    fail! batch_differs r s batch
      with invalid "receipt batch metadata or cardinality differs from proposal";
    fail! existsb (λ c, content_differs c.1 c.2) (zip (eb_events batch) (sr_events s))
      with invalid "receipt event content differs from proposal";
    Ok tt
  end.

Definition header_differs (r : TransactionReceipt) (proposal : EventTransaction) : bool :=
  negb (bool_decide (tr_bounded_context r = tx_bounded_context proposal))
  || negb (bool_decide (tr_operation_id r = tx_operation_id proposal))
  || negb (bool_decide (tr_operation_fingerprint r = tx_operation_fingerprint proposal))
  || negb (bool_decide (tr_correlation_id r = tx_correlation_id proposal))
  || negb (bool_decide (tr_causation_id r = tx_causation_id proposal))
  || negb (bool_decide (tr_actor r = tx_actor proposal))
  || negb (bool_decide (tr_security_scope r = tx_security_scope proposal))
  || is_some_and (λ c, negb (bool_decide (Some c = tx_completion proposal))) (tr_completion r)
  || negb (len (tr_streams r) =? len (tx_participants proposal)).

Definition validate_proposal (r : TransactionReceipt) (proposal : EventTransaction)
  : result unit EventStoreError :=
  let? _ := if is_some (tx_completion proposal) then validate_completed_transaction proposal
            else Ok tt in
  let? _ := validate_transaction_item_limit proposal in
  let? _ := map_err (λ e, invalid (EventStoreError_display e)) (validate_integrity r) in
  fail! header_differs r proposal
    with invalid "outcome integrity receipt does not match its proposal";
  let? _ := try_map (proposal_pair r) (zip (tr_streams r) (tx_participants proposal)) in
  Ok tt.

(** ** What an integral receipt is *)

(** The recorded event at position [i] of a participant of the receipt *)
Record stamped (r : TransactionReceipt) (s : TransactionStreamReceipt) (i : nat)
    (e : RecordedEvent) : Prop := {
  st_stream : re_stream_id e = sr_stream_id s;
  st_version : re_stream_version e
               = mkStreamVersion (version_value (sr_base_version s) + N.of_nat i + 1);
  st_commit : re_commit_id e = derive_commit_id (sr_stream_id s) (tr_operation_id r);
  st_event : re_event_id e = derive_event_id (re_commit_id e) (N.of_nat i);
  st_operation : re_operation_id e = tr_operation_id r;
  st_fingerprint : re_operation_fingerprint e = tr_operation_fingerprint r;
  st_correlation : re_correlation_id e = tr_correlation_id r;
  st_causation : re_causation_id e = tr_causation_id r;
  st_actor : re_actor e = tr_actor r;
  st_ordinal : re_commit_event_ordinal e = N.of_nat i;
  st_count : re_commit_event_count e = len (sr_events s);
}.

(** The events of one participant: the count and the versions fit their
    machine integers, and every event carries its coordinates. *)
Record stream_receipt_ok (r : TransactionReceipt) (s : TransactionStreamReceipt) : Prop := {
  sro_count : len (sr_events s) <= u32_max;
  sro_space : sr_events s = [] ∨ version_value (sr_base_version s) + len (sr_events s) <= u64_max;
  sro_events : ∀ i e, sr_events s !! i = Some e → stamped r s i e;
}.

Record integrity_ok (r : TransactionReceipt) : Prop := {
  io_streams : NoDup (sr_stream_id <$> tr_streams r);
  io_events : Forall (stream_receipt_ok r) (tr_streams r);
  io_completion : ∀ c, tr_completion r = Some c →
    completion_validate c = Ok tt
    ∧ (completion_rejection c ≠ None → Forall (λ s, sr_events s = []) (tr_streams r));
}.

Lemma event_differs_false r s i e version :
  version = mkStreamVersion (version_value (sr_base_version s) + N.of_nat i + 1) →
  event_differs r s (derive_commit_id (sr_stream_id s) (tr_operation_id r)) (len (sr_events s))
    version (N.of_nat i) e = false ↔ stamped r s i e.
Proof.
  intros ->. unfold event_differs. split.
  - intros Hd. guards. split; congruence.
  - intros []. rewrite !bool_decide_eq_true_2 by congruence.
    by rewrite !(proj2 (N.eqb_eq _ _)) by done.
Qed.

Lemma version_next_Some v w :
  version_next v = Some w ↔ w = mkStreamVersion (version_value v + 1) ∧ version_value v + 1 <= u64_max.
Proof.
  unfold version_next. rewrite fmap_Some. setoid_rewrite checked_add_Some. naive_solver.
Qed.

(** The event loop, from position [i] on. *)
Lemma integrity_events_Ok r s i v l :
  len (sr_events s) <= u32_max → drop i (sr_events s) = l →
  v = mkStreamVersion (version_value (sr_base_version s) + N.of_nat i) →
  is_ok (try_fold (integrity_event r s (derive_commit_id (sr_stream_id s) (tr_operation_id r))
           (len (sr_events s))) v (enumerate_from (N.of_nat i) l)) = true
  ↔ (l = [] ∨ version_value (sr_base_version s) + len (sr_events s) <= u64_max)
    ∧ (∀ j e, l !! j = Some e → stamped r s (i + j) e).
Proof.
  intros Hlen. revert i v. induction l as [|e l IH]; intros i v Hd Hv.
  - cbn. split; [|done]. intros _. split; [by left|done].
  - assert (drop (S i) (sr_events s) = l) as Hd'.
    { replace (S i) with (i + 1)%nat by lia. rewrite <- drop_drop, Hd. done. }
    assert (i < length (sr_events s))%nat as Hi.
    { apply (f_equal length) in Hd. rewrite length_drop in Hd. cbn in Hd. lia. }
    cbn [enumerate_from try_fold]. unfold integrity_event at 1; cbn [fst snd].
    destruct (version_next v) as [w|] eqn:Ew; cbn [ok_or rbind]; cycle 1.
    { split; [done|]. intros [[?|Hs] _]; [done|]. exfalso.
      rewrite (proj2 (version_next_Some v (mkStreamVersion (version_value v + 1)))) in Ew; [done|].
      split; [done|]. subst v; cbn [version_value]. unfold len in Hs. lia. }
    apply version_next_Some in Ew as [-> Hw].
    rewrite (proj2 (try_from_Some _ _ (N.of_nat i))) by (unfold len in Hlen; split; [done|lia]).
    cbn [ok_or rbind]. subst v; cbn [version_value] in *.
    destruct (event_differs _ _ _ _ _ _ _) eqn:Edf; cbn [rbind].
    { split; [done|]. intros [_ Hst]. apply not_false_iff_true in Edf. exfalso. apply Edf.
      apply event_differs_false; [done|]. specialize (Hst 0%nat e eq_refl). by rewrite Nat.add_0_r in Hst. }
    apply event_differs_false in Edf; [|done].
    replace (N.of_nat i + 1) with (N.of_nat (S i)) by lia.
    rewrite IH; [|done|f_equal; lia]. split.
    + intros [Hs Hst]. split.
      * right. destruct Hs as [->|]; [|done].
        apply (f_equal length) in Hd. rewrite length_drop in Hd. cbn in Hd. unfold len. lia.
      * intros [|j] e'; cbn; [intros [= <-]; by rewrite Nat.add_0_r|].
        intros Hj. replace (i + S j)%nat with (S i + j)%nat by lia. by apply Hst.
    + intros [Hs Hst]. split; [destruct Hs; [done|by right]|].
      intros j e' Hj. replace (S i + j)%nat with (i + S j)%nat by lia. by apply Hst.
Qed.

Lemma integrity_stream_Ok r seen s seen' :
  integrity_stream r seen s = Ok seen' ↔
  seen' = {[ sr_stream_id s ]} ∪ seen ∧ sr_stream_id s ∉ seen ∧ stream_receipt_ok r s.
Proof.
  unfold integrity_stream. case_bool_decide as Hin; [split; [done|by intros (_ & ? & _)]|].
  destruct (try_from u32_max (len (sr_events s))) as [count|] eqn:Ec; cbn [ok_or rbind]; cycle 1.
  { split; [done|]. intros (_ & _ & [Hc _ _]).
    rewrite (proj2 (try_from_Some _ _ (len (sr_events s)))) in Ec; done. }
  apply try_from_Some in Ec as [-> Hc].
  pose proof (integrity_events_Ok r s 0 (sr_base_version s) (sr_events s) Hc eq_refl) as Hev.
  rewrite N.add_0_r in Hev. specialize (Hev ltac:(by destruct (sr_base_version s))).
  change (enumerate (sr_events s)) with (enumerate_from (N.of_nat 0) (sr_events s)).
  destruct (try_fold _ _ _) as [v|]; cbn [is_ok rbind] in *.
  - destruct Hev as [[Hs Hst] _]; [done|]. split.
    + intros [= <-]. split; [done|split; [done|by split]].
    + by intros (-> & _).
  - split; [done|]. intros (_ & _ & [_ Hs Hst]). exfalso.
    by assert (false = true) by (apply Hev; done).
Qed.

Lemma integrity_streams_Ok r seen l seen' :
  try_fold (integrity_stream r) seen l = Ok seen' ↔
  seen' = list_to_set (sr_stream_id <$> l) ∪ seen
  ∧ NoDup (sr_stream_id <$> l) ∧ (∀ s, s ∈ l → sr_stream_id s ∉ seen)
  ∧ Forall (stream_receipt_ok r) l.
Proof.
  apply (try_fold_distinct sr_stream_id (integrity_stream r) (stream_receipt_ok r)).
  intros. apply integrity_stream_Ok.
Qed.

(** The validator decides [integrity_ok]. *)
Lemma validate_integrity_Ok r : validate_integrity r = Ok tt ↔ integrity_ok r.
Proof.
  unfold validate_integrity. rewrite rbind_Ok. setoid_rewrite integrity_streams_Ok.
  split.
  - intros (a & (_ & Hnd & _ & Hall) & Hc). split; [done..|].
    intros c Ec. rewrite Ec in Hc. guards. destruct v. split; [done|]. intros Hr.
    destruct (completion_rejection c); [|done]. cbn [is_some andb] in *.
    apply Forall_forall. intros s Hs.
    match goal with H : existsb _ _ = false |- _ => apply not_true_iff_false in H; rename H into Hx end.
    destruct (sr_events s) eqn:Es; [done|]. exfalso. apply Hx, existsb_exists. exists s.
    split; [by apply list_elem_of_In|]. rewrite Es, len_cons.
    destruct (_ =? 0) eqn:E0; [bool_step; lia|done].
  - intros [Hnd Hall Hc]. eexists. split; [split_and!; try done; set_solver|].
    destruct (tr_completion r) as [c|]; [|done]. destruct (Hc c eq_refl) as [-> Hr]. cbn [map_err rbind].
    destruct (completion_rejection c); [|done]. cbn [is_some andb].
    assert (existsb (λ s, negb (len (sr_events s) =? 0)) (tr_streams r) = false) as ->; [|done].
    apply not_true_iff_false. rewrite existsb_exists. intros (s & Hs%list_elem_of_In & He).
    rewrite Forall_forall in Hr. rewrite (Hr ltac:(done) s Hs) in He. done.
Qed.

(** ** What a receipt that matches its proposal is *)

Record same_content (new : NewEvent) (recorded : RecordedEvent) : Prop := {
  sc_id : ne_event_id new = re_event_id recorded;
  sc_type : ne_event_type new = re_event_type recorded;
  sc_schema : ne_schema_version new = re_schema_version recorded;
  sc_payload : ne_payload new = re_payload recorded;
}.

Record same_batch (r : TransactionReceipt) (s : TransactionStreamReceipt) (b : EventBatch)
  : Prop := {
  sb_operation : eb_operation_id b = tr_operation_id r;
  sb_fingerprint : eb_operation_fingerprint b = tr_operation_fingerprint r;
  sb_correlation : eb_correlation_id b = tr_correlation_id r;
  sb_causation : eb_causation_id b = tr_causation_id r;
  sb_actor : eb_actor b = tr_actor r;
  sb_commit : eb_commit_id b = derive_commit_id (sr_stream_id s) (tr_operation_id r);
  sb_events : Forall2 same_content (eb_events b) (sr_events s);
}.

(** The participant of the proposal at the same place: the same stream, at the
    base version it expects, with exactly its events. *)
Record same_participant (r : TransactionReceipt) (s : TransactionStreamReceipt)
    (p : TransactionParticipant) : Prop := {
  sp_stream : sr_stream_id s = tp_stream_id p;
  sp_base : expected_base (tp_expected_version p) = Ok (sr_base_version s);
  sp_events : match tp_batch p with
              | None => sr_events s = []
              | Some b => same_batch r s b
              end;
}.

Record same_header (r : TransactionReceipt) (t : EventTransaction) : Prop := {
  sh_context : tr_bounded_context r = tx_bounded_context t;
  sh_operation : tr_operation_id r = tx_operation_id t;
  sh_fingerprint : tr_operation_fingerprint r = tx_operation_fingerprint t;
  sh_correlation : tr_correlation_id r = tx_correlation_id t;
  sh_causation : tr_causation_id r = tx_causation_id t;
  sh_actor : tr_actor r = tx_actor t;
  sh_scope : tr_security_scope r = tx_security_scope t;
  sh_completion : tr_completion r = None ∨ tr_completion r = tx_completion t;
}.

Record proposal_ok (r : TransactionReceipt) (t : EventTransaction) : Prop := {
  po_completed : is_some (tx_completion t) = true → validate_completed_transaction t = Ok tt;
  po_items : is_ok (validate_transaction_item_limit t) = true;
  po_integrity : integrity_ok r;
  po_header : same_header r t;
  po_participants : Forall2 (same_participant r) (tr_streams r) (tx_participants t);
}.

Lemma content_differs_false n e : content_differs n e = false ↔ same_content n e.
Proof.
  unfold content_differs. split.
  - intros H. guards. by split.
  - intros []. rewrite !bool_decide_eq_true_2 by done.
    by rewrite (proj2 (String.eqb_eq _ _)), (proj2 (N.eqb_eq _ _)) by done.
Qed.

Lemma existsb_zip_false {A B} (f : A * B → bool) l k :
  length l = length k → existsb f (zip l k) = false ↔ Forall2 (λ x y, f (x, y) = false) l k.
Proof.
  revert k; induction l as [|x l IH]; intros [|y k]; cbn; try done.
  intros [= Hl]. rewrite orb_false_iff, IH by done. split; [naive_solver|].
  by inversion 1.
Qed.

Lemma batch_content_Ok r s b :
  batch_differs r s b = false
    ∧ existsb (λ c, content_differs c.1 c.2) (zip (eb_events b) (sr_events s)) = false
  ↔ same_batch r s b.
Proof.
  unfold batch_differs. split.
  - intros [Hd Hc]. guards. unfold len in *. rewrite existsb_zip_false in Hc by lia.
    split; try done. eapply Forall2_impl; [exact Hc|]. intros n e. apply content_differs_false.
  - intros [? ? ? ? ? ? Hev]. rewrite !bool_decide_eq_true_2 by done. cbn [negb orb].
    pose proof (Forall2_length _ _ _ Hev) as Hl. unfold len. rewrite Hl, N.eqb_refl. split; [done|].
    apply existsb_zip_false; [done|]. eapply Forall2_impl; [exact Hev|].
    intros n e. apply content_differs_false.
Qed.

Lemma proposal_pair_Ok r s p u : proposal_pair r (s, p) = Ok u ↔ same_participant r s p.
Proof.
  destruct u. unfold proposal_pair. split.
  - intros H. guards. split; [done|congruence|].
    destruct (tp_batch p); guards.
    + apply batch_content_Ok. done.
    + by apply len_0.
  - intros [Hs Hb He]. rewrite Hb. cbn [rbind]. rewrite !bool_decide_eq_true_2 by done. cbn [negb orb].
    destruct (tp_batch p).
    + apply batch_content_Ok in He as [-> ->]. done.
    + by rewrite He.
Qed.

Lemma header_differs_false r t :
  header_differs r t = false ↔
  same_header r t ∧ length (tr_streams r) = length (tx_participants t).
Proof.
  unfold header_differs, len. split.
  - intros H. guards. split; [|lia]. split; try done.
    destruct (tr_completion r); [right|by left]. cbn in *. by guards.
  - intros [[? ? ? ? ? ? ? Hc] Hl]. rewrite !bool_decide_eq_true_2 by done. cbn [negb orb].
    rewrite Hl, N.eqb_refl. destruct (tr_completion r) as [c|]; [|done]. cbn.
    destruct Hc as [|<-]; [done|]. by rewrite bool_decide_eq_true_2.
Qed.

(** The validator decides [proposal_ok]. *)
Lemma validate_proposal_Ok r t : validate_proposal r t = Ok tt ↔ proposal_ok r t.
Proof.
  unfold validate_proposal. split.
  - intros H. guards.
    match goal with H : validate_integrity r = Ok ?u |- _ =>
      destruct u; apply validate_integrity_Ok in H end.
    match goal with H : header_differs _ _ = false |- _ =>
      apply header_differs_false in H as [Hh Hl] end.
    split; [..|done|done|].
    + destruct (is_some (tx_completion t)); [intros _|done]. by destruct v.
    + apply is_ok_true. eauto.
    + eapply Forall2_impl; [|intros s p; apply (proposal_pair_Ok r s p tt)].
      apply try_map_zip_unit; [done|]. apply is_ok_true. eauto.
  - intros [Hc Hi Hint Hh Hp]. apply is_ok_true in Hi as [n Hn].
    rewrite Hn, (proj2 (validate_integrity_Ok r) Hint). cbn [map_err rbind].
    pose proof (Forall2_length _ _ _ Hp) as Hl.
    rewrite (proj2 (header_differs_false r t)) by done.
    assert ((if is_some (tx_completion t) then validate_completed_transaction t else Ok tt) = Ok tt)
      as -> by (destruct (is_some _); auto).
    cbn [rbind].
    assert (is_ok (try_map (proposal_pair r) (zip (tr_streams r) (tx_participants t))) = true)
      as [us ->]%is_ok_true; [|done].
    apply try_map_zip_unit; [done|]. eapply Forall2_impl; [exact Hp|].
    intros s p. apply proposal_pair_Ok.
Qed.

(** The two receipt validators decide the stated properties:
    a receipt is integral exactly when its streams are distinct, every event
    carries the stream, version, ordinal, derived identities and provenance of
    its place, and a rejection has no events; and it matches a proposal exactly
    when in addition the header agrees and every participant, in order, has the
    proposed base version and events. *)
Theorem receipt_validators_spec r t :
  (validate_integrity r = Ok tt ↔ integrity_ok r) ∧ (validate_proposal r t = Ok tt ↔ proposal_ok r t).
Proof. split; [apply validate_integrity_Ok|apply validate_proposal_Ok]. Qed.

End Receipts.
