(* ===== verification/Proposal.v ===== *)
(** * Proposal: the digest of a transaction that decides whether a retry is
    the exact proposal that won (crates/rostfrei-core/src/proposal.rs). *)

From S2P Require Export Store.

Record ProposalDigest := mkProposalDigest {
  pd_version : N;
  pd_digest : ContentFingerprint;
}.

#[global] Instance ProposalDigest_eq_dec : EqDecision ProposalDigest.
Proof. solve_decision. Defined.

(** [ProposalDigest::restore] *)
Definition proposal_restore (version : N) (digest : ContentFingerprint)
  : result ProposalDigest EventStoreError :=
  fail! negb ((version =? 1) || (version =? 2)) with corrupt "unsupported proposal digest version";
  Ok (mkProposalDigest version digest).

(** The [hash_part] calls of [optional] and of [actor], in order *)
Definition optional_parts (value : option string) : list (list byte) :=
  match value with
  | Some v => [as_bytes "some"; as_bytes v]
  | None => [as_bytes "none"]
  end.
Definition actor_parts (value : option ActorRef) : list (list byte) :=
  match value with
  | Some a => [as_bytes "some"; as_bytes (actor_namespace a); as_bytes (actor_id a)]
  | None => [as_bytes "none"]
  end.

Definition event_parts (e : NewEvent) : list (list byte) :=
  [as_bytes "event"; as_bytes (ident_str (ne_event_id e)); as_bytes (ne_event_type e);
   be_bytes 4 (ne_schema_version e); ne_payload e].

Definition batch_parts (attributed : bool) (b : EventBatch) : list (list byte) :=
  [as_bytes "batch"; as_bytes (ident_str (eb_commit_id b));
   as_bytes (ident_str (eb_operation_id b)); fingerprint_bytes (eb_operation_fingerprint b)]
  ++ optional_parts (id_str <$> eb_correlation_id b)
  ++ optional_parts (id_str <$> eb_causation_id b)
  ++ (if attributed then actor_parts (eb_actor b) else [])
  ++ concat (map event_parts (eb_events b))
  ++ [as_bytes "end-batch"].

Definition participant_parts (attributed : bool) (p : TransactionParticipant) : list (list byte) :=
  [as_bytes "participant"; as_bytes (ident_str (aggregate_type (tp_stream_id p)));
   as_bytes (ident_str (aggregate_id (tp_stream_id p)))]
  ++ match tp_batch p with
     | Some batch => batch_parts attributed batch
     | None => [as_bytes "guard"]
     end.

Definition attributed (t : EventTransaction) : bool := is_some (tx_actor t).

(** Every part the hasher takes, given the encoded completion *)
Definition proposal_parts (t : EventTransaction) (completion : list byte) : list (list byte) :=
  [if attributed t then as_bytes "rostfrei:proposal:v2" else as_bytes "rostfrei:proposal:v1"]
  ++ optional_parts (context_str <$> tx_bounded_context t)
  ++ [as_bytes (ident_str (tx_operation_id t)); fingerprint_bytes (tx_operation_fingerprint t)]
  ++ optional_parts (id_str <$> tx_correlation_id t)
  ++ optional_parts (id_str <$> tx_causation_id t)
  ++ optional_parts (ident_str <$> tx_security_scope t)
  ++ (if attributed t then actor_parts (tx_actor t) else [])
  ++ [completion]
  ++ concat (map (participant_parts (attributed t)) (tx_participants t))
  ++ [as_bytes "end-proposal"].

(** [ProposalDigest::of] *)
Definition proposal_of `{Sha256} `{Json (option CommandCompletion)} (t : EventTransaction)
  : result ProposalDigest EventStoreError :=
  fail! existsb (λ batch, negb (bool_decide (eb_actor batch = tx_actor t))) (tx_batches t)
    with invalid "participant actor differs from transaction actor";
  let? completion := map_err invalid (to_vec (tx_completion t)) in
  Ok (mkProposalDigest (if attributed t then 2 else 1)
        (from_bytes (sha256 (frames (proposal_parts t completion))))).

(** ** What the digest determines *)

(** The transaction without the expected versions, which the digest excludes. *)
Definition erase_participant (p : TransactionParticipant) : TransactionParticipant :=
  mkParticipant (tp_stream_id p) NoStream (tp_batch p).
Definition erase_versions (t : EventTransaction) : EventTransaction :=
  mkTransaction (tx_actor t) (tx_security_scope t) (tx_completion t) (tx_bounded_context t)
    (tx_operation_id t) (tx_operation_fingerprint t) (tx_correlation_id t) (tx_causation_id t)
    (erase_participant <$> tx_participants t).
Definition same_proposal (t1 t2 : EventTransaction) : Prop := erase_versions t1 = erase_versions t2.

#[global] Instance same_proposal_equivalence : Equivalence same_proposal.
Proof. unfold same_proposal. split; [done|by intros ? ?|]. intros a b c E1 E2. congruence. Qed.

(** The schema versions are 32-bit, as their type says. *)
Definition schema_widths (t : EventTransaction) : Prop :=
  Forall (λ b, Forall (λ e, ne_schema_version e <= u32_max) (eb_events b)) (tx_batches t).

Lemma optional_parts_inj v w k k' :
  optional_parts v ++ k = optional_parts w ++ k' → v = w ∧ k = k'.
Proof. destruct v, w; cbn; intros [=]; try done. split; [|done]. f_equal. by apply as_bytes_inj. Qed.

Lemma optional_map_inj {A} (f : A → string) (a b : option A) k k' :
  (∀ x y, f x = f y → x = y) →
  optional_parts (f <$> a) ++ k = optional_parts (f <$> b) ++ k' → a = b ∧ k = k'.
Proof.
  intros Hf [E ->]%optional_parts_inj. split; [|done].
  destruct a, b; cbn in E; try done. injection E as E. f_equal. auto.
Qed.

Lemma actor_parts_inj a b k k' : actor_parts a ++ k = actor_parts b ++ k' → a = b ∧ k = k'.
Proof.
  destruct a as [[]|], b as [[]|]; cbn; intros [=]; try done. split; [|done].
  do 2 f_equal; by apply as_bytes_inj.
Qed.

Lemma ident_str_inj k (x y : ident k) : ident_str x = ident_str y → x = y.
Proof. destruct x, y; cbn. by intros ->. Qed.
Lemma id_str_inj k (x y : identifier k) : id_str x = id_str y → x = y.
Proof. destruct x, y; cbn. by intros ->. Qed.
Lemma context_str_inj (x y : BoundedContextName) : context_str x = context_str y → x = y.
Proof. destruct x, y; cbn. by intros ->. Qed.
Lemma fingerprint_inj f g : fingerprint_bytes f = fingerprint_bytes g → f = g.
Proof. destruct f, g; cbn. by intros ->. Qed.

(** Cuts an equation of part lists along the framing. *)
Ltac cut_parts :=
  repeat match goal with
  | E : _ :: _ = _ :: _ |- _ => apply cons_inv in E; destruct E as [? E]
  | E : optional_parts (id_str <$> _) ++ _ = _ |- _ =>
      apply (optional_map_inj id_str) in E; [destruct E as [? E]|apply id_str_inj]
  | E : optional_parts (ident_str <$> _) ++ _ = _ |- _ =>
      apply (optional_map_inj ident_str) in E; [destruct E as [? E]|apply ident_str_inj]
  | E : optional_parts (context_str <$> _) ++ _ = _ |- _ =>
      apply (optional_map_inj context_str) in E; [destruct E as [? E]|apply context_str_inj]
  | E : actor_parts _ ++ _ = _ |- _ => apply actor_parts_inj in E; destruct E as [? E]
  | E : as_bytes _ = as_bytes _ |- _ => apply as_bytes_inj in E
  | E : ident_str _ = ident_str _ |- _ => apply ident_str_inj in E
  | E : fingerprint_bytes _ = fingerprint_bytes _ |- _ => apply fingerprint_inj in E
  end.

Lemma event_parts_inj e1 e2 k k' :
  ne_schema_version e1 <= u32_max → ne_schema_version e2 <= u32_max →
  event_parts e1 ++ k = event_parts e2 ++ k' → e1 = e2 ∧ k = k'.
Proof.
  intros H1 H2 E. unfold event_parts in E. cbn [app] in E. cut_parts.
  match goal with H : be_bytes 4 _ = _ |- _ =>
    apply be_bytes_inj in H; [|unfold u32_max in *; cbn; lia..] end.
  destruct e1, e2; cbn in *. by subst.
Qed.

Lemma events_parts_inj es1 es2 k k' :
  Forall (λ e, ne_schema_version e <= u32_max) es1 →
  Forall (λ e, ne_schema_version e <= u32_max) es2 →
  concat (map event_parts es1) ++ as_bytes "end-batch" :: k
  = concat (map event_parts es2) ++ as_bytes "end-batch" :: k' →
  es1 = es2 ∧ k = k'.
Proof.
  intros H1; revert es2; induction H1 as [|e1 es1 He1 H1 IH]; intros es2 H2 E.
  - destruct H2; [by apply cons_inv in E as [_ ->]|done].
  - destruct H2 as [|e2 es2 He2 H2]; [done|]. cbn [map concat] in E.
    rewrite <- !app_assoc in E. apply event_parts_inj in E as [-> E]; [|done..].
    by apply IH in E as [-> ->].
Qed.

Lemma batch_parts_inj at_ b1 b2 k k' :
  Forall (λ e, ne_schema_version e <= u32_max) (eb_events b1) →
  Forall (λ e, ne_schema_version e <= u32_max) (eb_events b2) →
  (at_ = false → eb_actor b1 = eb_actor b2) →
  batch_parts at_ b1 ++ k = batch_parts at_ b2 ++ k' → b1 = b2 ∧ k = k'.
Proof.
  intros H1 H2 Ha E. unfold batch_parts in E. rewrite <- !app_assoc in E. cbn [app] in E. cut_parts.
  assert (eb_actor b1 = eb_actor b2 ∧
    concat (map event_parts (eb_events b1)) ++ as_bytes "end-batch" :: k
    = concat (map event_parts (eb_events b2)) ++ as_bytes "end-batch" :: k') as [Hact E'].
  { destruct at_; [cut_parts; done|]. split; [by apply Ha|done]. }
  apply events_parts_inj in E' as [Hev ->]; [|done..]. split; [|done].
  destruct b1, b2; cbn in *. by subst.
Qed.

Lemma participant_parts_inj at_ p1 p2 k k' :
  (∀ b, tp_batch p1 = Some b → Forall (λ e, ne_schema_version e <= u32_max) (eb_events b)) →
  (∀ b, tp_batch p2 = Some b → Forall (λ e, ne_schema_version e <= u32_max) (eb_events b)) →
  (at_ = false → ∀ b1 b2, tp_batch p1 = Some b1 → tp_batch p2 = Some b2 → eb_actor b1 = eb_actor b2) →
  participant_parts at_ p1 ++ k = participant_parts at_ p2 ++ k' →
  erase_participant p1 = erase_participant p2 ∧ k = k'.
Proof.
  intros H1 H2 Ha E. unfold participant_parts in E. rewrite <- !app_assoc in E. cbn [app] in E.
  cut_parts. unfold erase_participant.
  assert (tp_batch p1 = tp_batch p2 ∧ k = k') as [-> ->].
  { destruct (tp_batch p1) as [b1|], (tp_batch p2) as [b2|]; try (by unfold batch_parts in E).
    - apply batch_parts_inj in E as [-> ->]; auto.
    - cbn [app] in E. by cut_parts. }
  split; [|done]. f_equal. destruct (tp_stream_id p1), (tp_stream_id p2); cbn in *. by subst.
Qed.

Definition participant_widths (p : TransactionParticipant) : Prop :=
  ∀ b, tp_batch p = Some b → Forall (λ e, ne_schema_version e <= u32_max) (eb_events b).

Lemma participants_parts_inj at_ a ps1 ps2 k k' :
  Forall participant_widths ps1 → Forall participant_widths ps2 →
  (at_ = false → ∀ p b, p ∈ ps1 ++ ps2 → tp_batch p = Some b → eb_actor b = a) →
  concat (map (participant_parts at_) ps1) ++ as_bytes "end-proposal" :: k
  = concat (map (participant_parts at_) ps2) ++ as_bytes "end-proposal" :: k' →
  erase_participant <$> ps1 = erase_participant <$> ps2.
Proof.
  intros H1; revert ps2; induction H1 as [|p1 ps1 Hp1 H1 IH]; intros ps2 H2 Ha E.
  - by destruct H2.
  - destruct H2 as [|p2 ps2 Hp2 H2]; [done|]. cbn [map concat] in E.
    rewrite <- !app_assoc in E. apply participant_parts_inj in E as [Hp E]; [|done..|].
    + cbn. f_equal; [done|]. apply IH; [done| |done].
      intros Hat p b Hin. apply (Ha Hat). set_solver.
    + intros Hat b1 b2 Hb1 Hb2. rewrite (Ha Hat p1 b1), (Ha Hat p2 b2); set_solver.
Qed.

Lemma schema_widths_participants t :
  schema_widths t → Forall participant_widths (tx_participants t).
Proof.
  unfold schema_widths, tx_batches. rewrite !Forall_forall. intros H p Hp b Hb. apply H.
  apply list_elem_of_omap. eauto.
Qed.

Lemma actors_consistent t :
  existsb (λ batch, negb (bool_decide (eb_actor batch = tx_actor t))) (tx_batches t) = false →
  ∀ p b, p ∈ tx_participants t → tp_batch p = Some b → eb_actor b = tx_actor t.
Proof.
  intros H p b Hp Hb. apply not_true_iff_false in H. destruct (decide (eb_actor b = tx_actor t)) as [|Hn]; [done|].
  exfalso. apply H, existsb_exists. exists b. split.
  - apply list_elem_of_In, list_elem_of_omap. eauto.
  - by rewrite bool_decide_eq_false_2.
Qed.

(** Equal parts come from equal proposals. *)
Lemma proposal_parts_inj t1 t2 c1 c2 :
  schema_widths t1 → schema_widths t2 →
  (∀ p b, p ∈ tx_participants t1 → tp_batch p = Some b → eb_actor b = tx_actor t1) →
  (∀ p b, p ∈ tx_participants t2 → tp_batch p = Some b → eb_actor b = tx_actor t2) →
  (c1 = c2 → tx_completion t1 = tx_completion t2) →
  proposal_parts t1 c1 = proposal_parts t2 c2 → same_proposal t1 t2.
Proof.
  intros W1 W2 A1 A2 Hc E. unfold proposal_parts in E. cbn [app] in E. cut_parts.
  assert (attributed t1 = attributed t2) as Hat
    by (destruct (attributed t1), (attributed t2); done).
  rewrite Hat in *.
  assert (tx_actor t1 = tx_actor t2 ∧
    c1 :: concat (map (participant_parts (attributed t2)) (tx_participants t1)) ++ [as_bytes "end-proposal"]
    = c2 :: concat (map (participant_parts (attributed t2)) (tx_participants t2)) ++ [as_bytes "end-proposal"])
    as [Hact E'].
  { unfold attributed in *. destruct (tx_actor t1), (tx_actor t2); try done; cbn [is_some app] in *; cut_parts; split; congruence. }
  cut_parts. apply (participants_parts_inj _ (tx_actor t2)) in E';
    [|by apply schema_widths_participants..|].
  - unfold same_proposal, erase_versions. rewrite E', Hc by done.
    destruct t1, t2; cbn in *. by subst.
  - intros _ p b [Hp|Hp]%elem_of_app; [rewrite <- Hact|]; eauto.
Qed.

Section Digest.
Context `{SHA : Sha256} `{JC : Json (option CommandCompletion)}.

Lemma proposal_of_Ok t d :
  proposal_of t = Ok d ↔
  ∃ completion, to_vec (tx_completion t) = Ok completion
    ∧ (∀ p b, p ∈ tx_participants t → tp_batch p = Some b → eb_actor b = tx_actor t)
    ∧ d = mkProposalDigest (if attributed t then 2 else 1)
            (from_bytes (sha256 (frames (proposal_parts t completion)))).
Proof.
  unfold proposal_of. split.
  - intros H. guards. eexists. split_and!; [done|by apply actors_consistent|done].
  - intros (completion & Hc & Ha & ->).
    assert (existsb (λ batch, negb (bool_decide (eb_actor batch = tx_actor t))) (tx_batches t) = false) as ->.
    { apply not_true_iff_false. rewrite existsb_exists. intros (b & Hb%list_elem_of_In & Hn).
      apply list_elem_of_omap in Hb as (p & Hp & Hb). by rewrite bool_decide_eq_true_2 in Hn by eauto. }
    by rewrite Hc.
Qed.

(** The digest ignores the expected versions. *)
Lemma proposal_of_same t1 t2 : same_proposal t1 t2 → proposal_of t1 = proposal_of t2.
Proof.
  intros E. destruct t1 as [a1 s1 c1 b1 o1 f1 co1 ca1 ps1], t2 as [a2 s2 c2 b2 o2 f2 co2 ca2 ps2].
  unfold same_proposal, erase_versions in E; cbn in E. injection E as -> -> -> -> -> -> -> -> E.
  assert (∀ at_, map (participant_parts at_) ps1 = map (participant_parts at_) ps2) as Hparts.
  { intros at_. revert ps2 E; induction ps1 as [|p1 ps1 IH]; intros [|p2 ps2] E; try done.
    injection E as E1 E2 E. cbn. f_equal; [|by apply IH]. unfold participant_parts. by rewrite E1, E2. }
  assert (omap tp_batch ps1 = omap tp_batch ps2) as Hb.
  { clear Hparts. revert ps2 E; induction ps1 as [|p1 ps1 IH]; intros [|p2 ps2] E; try done.
    injection E as E1 E2 E. cbn. rewrite E2. by rewrite (IH ps2 E). }
  unfold proposal_of, tx_batches, proposal_parts, attributed; cbn [tx_actor tx_participants tx_completion
    tx_bounded_context tx_operation_id tx_operation_fingerprint tx_correlation_id tx_causation_id
    tx_security_scope]. rewrite Hb. destruct (existsb _ _); [done|].
  destruct (to_vec c2); cbn; [|done]. by rewrite Hparts.
Qed.

(** C40 (equivalence). Exact-retry equality: proposals that differ only in
    their expected versions have one digest, and two proposals of one digest
    differ in nothing else, unless SHA-256 collides on their framed parts. *)
Theorem proposal_digest_spec t1 t2 c1 c2 :
  schema_widths t1 → schema_widths t2 →
  to_vec (tx_completion t1) = Ok c1 → to_vec (tx_completion t2) = Ok c2 →
  Forall framable (proposal_parts t1 c1) → Forall framable (proposal_parts t2 c2) →
  no_collision (frames (proposal_parts t1 c1)) (frames (proposal_parts t2 c2)) →
  is_ok (proposal_of t1) = true →
  proposal_of t1 = proposal_of t2 ↔ same_proposal t1 t2.
Proof.
  intros W1 W2 H1 H2 F1 F2 Hnc [d1 Hd1]%is_ok_true. split; [|apply proposal_of_same].
  intros E. rewrite Hd1 in E. symmetry in E.
  apply proposal_of_Ok in Hd1 as (c1' & Hc1 & A1 & ->), E as (c2' & Hc2 & A2 & E).
  assert (c1' = c1) as -> by congruence. assert (c2' = c2) as -> by congruence.
  injection E as _ E%Hnc%frames_inj; [|done..].
  eapply proposal_parts_inj; try done. intros ->. by eapply to_vec_inj.
Qed.

End Digest.

(** ** Witness *)

Definition sample_fingerprint : ContentFingerprint := from_bytes (replicate 32 x11).
Definition sample_transaction (ps : list TransactionParticipant) : EventTransaction :=
  EventTransaction_new (Ident "op-1") sample_fingerprint ps.

Lemma proposal_digest_spec_witness :
  let H := tail_digest in let J := index_json (option CommandCompletion) in
  proposal_of (sample_transaction []) = proposal_of
    (sample_transaction [mkParticipant (mkStreamId (Ident "order") (Ident "1")) NoStream None])
  ↔ same_proposal (sample_transaction [])
      (sample_transaction [mkParticipant (mkStreamId (Ident "order") (Ident "1")) NoStream None]).
Proof.
  refine (let H := tail_digest in let J := index_json (option CommandCompletion) in _).
  apply (proposal_digest_spec (sample_transaction []) (sample_transaction
    [mkParticipant (mkStreamId (Ident "order") (Ident "1")) NoStream None])
    (positive_bytes (encode (@None CommandCompletion))) (positive_bytes (encode (@None CommandCompletion))));
    [| | | | | | |].
  - constructor.
  - constructor.
  - by vm_compute.
  - by vm_compute.
  - apply framable_all. by vm_compute.
  - apply framable_all. by vm_compute.
  - intros E. exfalso. revert E. by vm_compute.
  - by vm_compute.
Defined.
