(* ===== verification/Outcome.v ===== *)
(** * Outcome: the permanent evidence of a completed command and its separately
    recoverable details (crates/rostfrei-core/src/outcome.rs and the key, commit
    and lifecycle types of execution_store.rs). *)

From S2P Require Export Receipt Proposal.

(** ** Keys (execution_store.rs) *)

Record CommandAuthority := mkAuthority { authority_str : string }.

#[global] Instance CommandAuthority_eq_dec : EqDecision CommandAuthority.
Proof. solve_decision. Defined.
#[global] Instance CommandAuthority_countable : Countable CommandAuthority.
Proof. by refine (inj_countable' authority_str mkAuthority _); intros []. Defined.

Definition CommandAuthority_new (value : string) : result CommandAuthority IdentityError :=
  let? _ := validate_identity_text value "command authority" 256 in
  Ok (mkAuthority value).
(** [memory]: the process identifier comes from the operating system. *)
Definition CommandAuthority_memory (process incarnation : N) : CommandAuthority :=
  mkAuthority ("memory:" +:+ n_to_string process +:+ ":" +:+ n_to_string incarnation).

Record OutcomeKey := mkOutcomeKey {
  key_authority : CommandAuthority;
  key_context : BoundedContextName;
  key_operation : OperationId;
}.

#[global] Instance OutcomeKey_eq_dec : EqDecision OutcomeKey.
Proof. solve_decision. Defined.
#[global] Instance OutcomeKey_countable : Countable OutcomeKey.
Proof.
  by refine (inj_countable' (λ k, (key_authority k, key_context k, key_operation k))
    (λ '(a, b, c), mkOutcomeKey a b c) _); intros [].
Defined.

Record OutcomeRevision := mkRevision { revision_fingerprint : ContentFingerprint }.

#[global] Instance OutcomeRevision_eq_dec : EqDecision OutcomeRevision.
Proof. solve_decision. Defined.

Inductive ReclamationStatus := ReclamationPending | Reclaimed.

Record OutcomeExpiry := mkOutcomeExpiry {
  expiry_revision : OutcomeRevision;
  expiry_reclamation : ReclamationStatus;
}.

Inductive OutcomeLifecycleError :=
| LifecycleMissing
| RevisionMismatch
| LifecycleUnsupported
| LifecycleStore (e : EventStoreError).

(** ** References and markers *)

Inductive OutcomeDecision := Accepted | Rejected.

#[global] Instance OutcomeDecision_eq_dec : EqDecision OutcomeDecision.
Proof. solve_decision. Defined.
#[global] Instance OutcomeDecision_countable : Countable OutcomeDecision.
Proof.
  by refine (inj_countable' (λ d, match d with Accepted => false | Rejected => true end)
    (λ b, if b then Rejected else Accepted) _); intros [].
Defined.

Record OutcomeDetailReference := mkReference {
  ref_key : OutcomeKey;
  ref_security_scope : option SecurityScope;
  ref_actor : option ActorRef;
  ref_decision : OutcomeDecision;
  ref_format : N;
  ref_length : N;
  ref_digest : ContentFingerprint;
}.

#[global] Instance OutcomeDetailReference_eq_dec : EqDecision OutcomeDetailReference.
Proof. solve_decision. Defined.
#[global] Instance OutcomeDetailReference_countable : Countable OutcomeDetailReference.
Proof.
  by refine (inj_countable'
    (λ r, (ref_key r, ref_security_scope r, ref_actor r, ref_decision r, ref_format r,
           ref_length r, ref_digest r))
    (λ '(a, b, c, d, e, f, g), mkReference a b c d e f g) _); intros [].
Defined.

Record OutcomeMarker := mkMarker {
  mk_reference : OutcomeDetailReference;
  mk_revision : OutcomeRevision;
  mk_proposal : ProposalDigest;
  mk_evidence : option OutcomeEvidence;
  mk_integrity : TransactionReceipt;
}.

#[global] Instance OutcomeMarker_eq_dec : EqDecision OutcomeMarker.
Proof. solve_decision. Defined.

Definition marker_decision (m : OutcomeMarker) : OutcomeDecision := ref_decision (mk_reference m).
Definition marker_actor (m : OutcomeMarker) : option ActorRef := ref_actor (mk_reference m).

(** ** What is serialized *)

(** The tuple [encode] writes without and with an actor *)
Definition ReferenceTuple : Type :=
  N * string * string * string * option string * bool * N * N * string.
Definition AttributedReferenceTuple : Type :=
  N * string * string * string * option string * ActorWire * bool * N * N * string.

Record MarkerManifest := mkManifest {
  mf_version : N;
  mf_authority : string;
  mf_context : string;
  mf_operation : string;
  mf_scope : option string;
  mf_actor : option ActorWire;
  mf_rejected : bool;
  mf_format : N;
  mf_length : N;
  mf_digest : string;
  mf_proposal_version : N;
  mf_proposal : string;
  mf_revision : string;
  mf_integrity : string;
  mf_evidence : option OutcomeEvidence;
}.

Record DetailHeader := mkDetailHeader {
  dh_version : N;
  dh_authority : string;
  dh_context : string;
  dh_operation : string;
  dh_security_scope : option string;
  dh_actor : option ActorWire;
  dh_completion : option CommandCompletion;
}.

(** [serde_json::Value] *)
Inductive jvalue :=
| JNull
| JStr (s : string)
| JNum (n : N)
| JArr (l : list jvalue)
| JObj (fields : list (string * jvalue)).

Class OutcomeJson := {
  oj_completion :: Json (option CommandCompletion);
  oj_reference :: Json ReferenceTuple;
  oj_attributed_reference :: Json AttributedReferenceTuple;
  oj_manifest :: Json MarkerManifest;
  oj_header :: Json DetailHeader;
  oj_evidence :: Json (option OutcomeEvidence);
  oj_value : jvalue → result (list byte) string;
}.

(** [json!] of strings, optional strings and optional actors *)
Definition json_opt (o : option string) : jvalue :=
  match o with Some s => JStr s | None => JNull end.
Definition json_actor (o : option ActorRef) : jvalue :=
  match o with
  | Some a => JObj [("namespace", JStr (actor_namespace a)); ("id", JStr (actor_id a))]
  | None => JNull
  end.

Section Outcome.
Context `{SHA : Sha256} `{OJ : OutcomeJson}.

(** [OutcomeDetailReference::encode] *)
Definition reference_encode (r : OutcomeDetailReference) : result (list byte) EventStoreError :=
  let key := ref_key r in
  match ref_actor r with
  | Some a =>
    map_err corrupt (to_vec (A := AttributedReferenceTuple)
      (2, authority_str (key_authority key), context_str (key_context key),
       ident_str (key_operation key), ident_str <$> ref_security_scope r, ActorWire_of a,
       bool_decide (ref_decision r = Rejected), ref_format r, ref_length r,
       to_hex (ref_digest r)))
  | None =>
    map_err corrupt (to_vec (A := ReferenceTuple)
      (1, authority_str (key_authority key), context_str (key_context key),
       ident_str (key_operation key), ident_str <$> ref_security_scope r,
       bool_decide (ref_decision r = Rejected), ref_format r, ref_length r,
       to_hex (ref_digest r)))
  end.

Definition actor_format (actor : option ActorRef) : N := if is_some actor then 2 else 1.

Definition integrity_event_row (r : TransactionReceipt) (e : RecordedEvent) : jvalue :=
  JArr ([JStr (ident_str (re_event_id e)); JStr (ident_str (re_commit_id e));
         JNum (version_value (re_stream_version e)); JNum (re_commit_event_ordinal e);
         JNum (re_commit_event_count e); JStr (re_event_type e); JNum (re_schema_version e);
         JStr (to_hex (digest (re_payload e)))]
        ++ (if is_some (tr_actor r) then [json_actor (re_actor e)] else [])).
Definition integrity_stream_row (r : TransactionReceipt) (s : TransactionStreamReceipt) : jvalue :=
  JArr [JStr (ident_str (aggregate_type (sr_stream_id s)));
        JStr (ident_str (aggregate_id (sr_stream_id s)));
        JNum (version_value (sr_base_version s));
        JArr (map (integrity_event_row r) (sr_events s))].
Definition integrity_value (r : TransactionReceipt) : jvalue :=
  JArr ([JStr (if is_some (tr_actor r) then "rostfrei:outcome-integrity:v2"
               else "rostfrei:outcome-integrity:v1");
         json_opt (context_str <$> tr_bounded_context r);
         JStr (ident_str (tr_operation_id r)); JStr (to_hex (tr_operation_fingerprint r));
         json_opt (id_str <$> tr_correlation_id r); json_opt (id_str <$> tr_causation_id r);
         json_opt (ident_str <$> tr_security_scope r)]
        ++ (if is_some (tr_actor r) then [json_actor (tr_actor r)] else [])
        ++ [JArr (map (integrity_stream_row r) (tr_streams r))]).
Definition integrity_digest (r : TransactionReceipt) : result ContentFingerprint EventStoreError :=
  let? bytes := map_err corrupt (oj_value (integrity_value r)) in
  Ok (digest bytes).

Definition revision_parts (r : OutcomeDetailReference) (reference : list byte)
    (proposal : ProposalDigest) (evidence : list byte) (integrity : ContentFingerprint)
  : list (list byte) :=
  [if is_some (ref_actor r) then as_bytes "rostfrei:outcome-revision:v3"
   else as_bytes "rostfrei:outcome-revision:v2";
   reference; be_bytes 2 (pd_version proposal); fingerprint_bytes (pd_digest proposal);
   evidence; fingerprint_bytes integrity].
Definition marker_revision (r : OutcomeDetailReference) (proposal : ProposalDigest)
    (evidence : option OutcomeEvidence) (integrity : TransactionReceipt)
  : result OutcomeRevision EventStoreError :=
  let? reference := reference_encode r in
  let? evidence := map_err corrupt (to_vec evidence) in
  let? integrity := integrity_digest integrity in
  Ok (mkRevision (from_bytes (sha256 (frames
        (revision_parts r reference proposal evidence integrity))))).

(** ** Details *)

Record EncodedOutcomeDetails := mkDetails {
  ed_reference : OutcomeDetailReference;
  ed_completion : option CommandCompletion;
}.

#[global] Instance EncodedOutcomeDetails_eq_dec : EqDecision EncodedOutcomeDetails.
Proof. solve_decision. Defined.

Definition details_rejection (d : EncodedOutcomeDetails) : option EncodedRejection :=
  ed_completion d ≫= completion_rejection.

Definition set_rejection_bytes (bytes : list byte) (c : CommandCompletion) : CommandCompletion :=
  mkCommandCompletion (completion_version c) (completion_evidence c)
    ((λ r, mkEncodedRejection (codec_id r) (codec_version r) bytes) <$> completion_rejection c).
Definition completion_payload (c : option CommandCompletion) : list byte :=
  from_option rejection_bytes [] (c ≫= completion_rejection).

(** [EncodedOutcomeDetails::encode]: the rejection's bytes are taken out of the
    completion and follow the header. *)
Definition details_encode (completion : option CommandCompletion) (key : OutcomeKey)
    (scope : option SecurityScope) (actor : option ActorRef)
  : result (list byte) EventStoreError :=
  let payload := completion_payload completion in
  let header :=
    {| dh_version := actor_format actor; dh_authority := authority_str (key_authority key);
       dh_context := context_str (key_context key);
       dh_operation := ident_str (key_operation key);
       dh_security_scope := ident_str <$> scope; dh_actor := ActorWire_of <$> actor;
       dh_completion := set_rejection_bytes [] <$> completion |} in
  let? header := map_err corrupt (to_vec header) in
  let? length := ok_or (try_from u32_max (len header))
    (corrupt "out of range integral type conversion attempted") in
  Ok (be_bytes 4 length ++ header ++ payload).

(** Reading an actor back revalidates it ([present_actor]). *)
Definition actor_from_wire (w : option ActorWire) : result (option ActorRef) EventStoreError :=
  map_err (λ e, corrupt (ContractError_display e)) (transpose (ActorRef_try_from <$> w)).

(** [EncodedOutcomeDetails::decode] *)
Definition details_decode (r : OutcomeDetailReference) (bytes : list byte)
  : result EncodedOutcomeDetails EventStoreError :=
  fail! negb (ref_format r =? actor_format (ref_actor r))
        || negb (len bytes =? ref_length r)
        || negb (bool_decide (digest bytes = ref_digest r))
    with corrupt "outcome detail format, length or digest mismatch";
  let? (length, body) := ok_or (split_at_checked 4 bytes) (corrupt "truncated detail header") in
  let length := be_value length in
  let? (header, payload) := ok_or (split_at_checked length body) (corrupt "truncated detail body") in
  let? header := map_err corrupt (from_slice (A := DetailHeader) header) in
  let? actor := actor_from_wire (dh_actor header) in
  fail! negb (dh_version header =? ref_format r)
        || negb (bool_decide (actor = ref_actor r))
        || negb (String.eqb (dh_authority header) (authority_str (key_authority (ref_key r))))
        || negb (String.eqb (dh_context header) (context_str (key_context (ref_key r))))
        || negb (String.eqb (dh_operation header) (ident_str (key_operation (ref_key r))))
        || negb (bool_decide (dh_security_scope header = ident_str <$> ref_security_scope r))
    with corrupt "outcome detail identity mismatch";
  let? completion :=
    match dh_completion header ≫= completion_rejection with
    | Some rejection =>
      fail! negb (len (rejection_bytes rejection) =? 0)
        with corrupt "inline rejection in detail header";
      Ok (set_rejection_bytes payload <$> dh_completion header)
    | None =>
      fail! negb (len payload =? 0) with corrupt "unexpected accepted detail payload";
      Ok (dh_completion header)
    end in
  let? _ :=
    match completion with
    | Some c => map_err (λ e, corrupt (EventCodecError_display e)) (completion_validate c)
    | None => Ok tt
    end in
  let details := mkDetails r completion in
  fail! negb (Bool.eqb (is_some (details_rejection details)) (bool_decide (ref_decision r = Rejected)))
    with corrupt "outcome detail decision mismatch";
  Ok details.

(** ** Preparation and restoration of markers *)

Definition decision_of (completion : option CommandCompletion) : OutcomeDecision :=
  if is_some_and (λ c, is_some (completion_rejection c)) completion then Rejected else Accepted.

(** The first timestamp is retainable detail, not command identity. *)
Definition without_timestamp (e : OutcomeEvidence) : OutcomeEvidence :=
  mkOutcomeEvidence (authority_scope e) None (fingerprint_version e) (command_type e)
    (command_schema e) (events_caused_by_command e) (original_causation e).

Definition prepare (authority : CommandAuthority) (proposal : EventTransaction)
    (receipt : TransactionReceipt) : result (OutcomeMarker * list byte) EventStoreError :=
  let? _ := validate_proposal receipt proposal in
  let? context := ok_or (tx_bounded_context proposal) (invalid "outcome requires context") in
  let key := mkOutcomeKey authority context (tx_operation_id proposal) in
  let completion := tx_completion proposal in
  let? bytes := details_encode completion key (tx_security_scope proposal) (tx_actor proposal) in
  let reference :=
    {| ref_key := key; ref_security_scope := tx_security_scope proposal;
       ref_actor := tx_actor proposal; ref_decision := decision_of completion;
       ref_format := actor_format (tx_actor proposal); ref_length := len bytes;
       ref_digest := digest bytes |} in
  let? proposal := proposal_of proposal in
  let evidence := without_timestamp <$> (completion ≫= completion_evidence) in
  let integrity := without_completion receipt in
  let? revision := marker_revision reference proposal evidence integrity in
  Ok (mkMarker reference revision proposal evidence integrity, bytes).

Definition encode_manifest (m : OutcomeMarker) : result (list byte) EventStoreError :=
  let r := mk_reference m in
  let? integrity := integrity_digest (mk_integrity m) in
  map_err corrupt (to_vec
    {| mf_version := ref_format r; mf_authority := authority_str (key_authority (ref_key r));
       mf_context := context_str (key_context (ref_key r));
       mf_operation := ident_str (key_operation (ref_key r));
       mf_scope := ident_str <$> ref_security_scope r;
       mf_actor := ActorWire_of <$> marker_actor m;
       mf_rejected := bool_decide (marker_decision m = Rejected);
       mf_format := ref_format r; mf_length := ref_length r; mf_digest := to_hex (ref_digest r);
       mf_proposal_version := pd_version (mk_proposal m);
       mf_proposal := to_hex (pd_digest (mk_proposal m));
       mf_revision := to_hex (revision_fingerprint (mk_revision m));
       mf_integrity := to_hex integrity; mf_evidence := mk_evidence m |}).

Definition manifest_fingerprint (value : string) : result ContentFingerprint EventStoreError :=
  map_err (λ e, corrupt (IdentityError_display e)) (from_hex value).

(** The binding test of [restore_manifest] *)
Definition manifest_unbound (expected : OutcomeKey) (w : MarkerManifest) (actor : option ActorRef)
    (integrity : TransactionReceipt) : bool :=
  negb (mf_version w =? actor_format actor)
  || negb (mf_format w =? mf_version w)
  || negb (mf_proposal_version w =? mf_version w)
  || negb (bool_decide (actor = tr_actor integrity))
  || (mf_length w <? 4)
  || negb (String.eqb (mf_authority w) (authority_str (key_authority expected)))
  || negb (String.eqb (mf_context w) (context_str (key_context expected)))
  || negb (String.eqb (mf_operation w) (ident_str (key_operation expected)))
  || negb (bool_decide (tr_bounded_context integrity = Some (key_context expected)))
  || negb (bool_decide (tr_operation_id integrity = key_operation expected))
  || negb (bool_decide (ident_str <$> tr_security_scope integrity = mf_scope w))
  || is_some (tr_completion integrity)
  || (mf_rejected w && existsb (λ s, negb (len (sr_events s) =? 0)) (tr_streams integrity)).

Definition restore_manifest (expected : OutcomeKey) (bytes : list byte)
    (integrity : TransactionReceipt) : result OutcomeMarker EventStoreError :=
  let? wire := map_err corrupt (from_slice (A := MarkerManifest) bytes) in
  let? actor := actor_from_wire (mf_actor wire) in
  let? _ := validate_integrity integrity in
  let? integrity_fp := integrity_digest integrity in
  fail! negb (String.eqb (mf_integrity wire) (to_hex integrity_fp))
    with corrupt "manifest event-integrity digest mismatch";
  fail! manifest_unbound expected wire actor integrity
    with corrupt "manifest key, format, scope or integrity binding mismatch";
  let? _ :=
    match mf_evidence wire with
    | Some evidence =>
      let? _ := map_err (λ e, corrupt (EventCodecError_display e))
        (completion_validate (CommandCompletion_new (Some evidence) None)) in
      fail! is_some (created_at_millis evidence)
        with corrupt "retainable timestamp in permanent manifest";
      Ok tt
    | None => Ok tt
    end in
  let? proposal_fp := manifest_fingerprint (mf_proposal wire) in
  let? proposal := proposal_restore (mf_proposal_version wire) proposal_fp in
  let? detail_fp := manifest_fingerprint (mf_digest wire) in
  let reference :=
    {| ref_key := expected; ref_security_scope := tr_security_scope integrity;
       ref_actor := tr_actor integrity;
       ref_decision := if mf_rejected wire then Rejected else Accepted;
       ref_format := mf_format wire; ref_length := mf_length wire; ref_digest := detail_fp |} in
  let? revision := marker_revision reference proposal (mf_evidence wire) integrity in
  let? expected_revision := manifest_fingerprint (mf_revision wire) in
  fail! negb (bool_decide (revision_fingerprint revision = expected_revision))
    with corrupt "manifest revision mismatch";
  Ok (mkMarker reference revision proposal (mf_evidence wire) integrity).

(** ** Checks of a recovered marker *)

Definition validate_key (m : OutcomeMarker) (expected : OutcomeKey) : result unit EventStoreError :=
  fail! negb (bool_decide (ref_key (mk_reference m) = expected))
    with corrupt "completed outcome reference key differs from requested authority/context/operation";
  Ok tt.

Definition evidence_matches (stored requested : option OutcomeEvidence) : bool :=
  match stored, requested with
  | Some a, Some b => same_identity a b
  | None, _ => true
  | Some _, None => false
  end.

Definition validate_identity (m : OutcomeMarker) (metadata : CommandExecutionMetadata)
  : result unit EventStoreError :=
  let r := mk_integrity m in
  fail! negb (bool_decide (tr_bounded_context r = cem_bounded_context metadata))
        || negb (bool_decide (tr_operation_id r = cem_operation_id metadata))
        || negb (bool_decide (tr_operation_fingerprint r = cem_operation_fingerprint metadata))
        || negb (bool_decide (tr_correlation_id r = cem_correlation_id metadata))
        || negb (bool_decide (tr_causation_id r = cem_causation_id metadata))
        || negb (bool_decide (marker_actor m = cem_actor metadata))
        || negb (bool_decide (ref_security_scope (mk_reference m) = cem_security_scope metadata))
        || negb (evidence_matches (mk_evidence m) (cem_outcome_evidence metadata))
    with store_error IdentityConflict "completed command identity differs";
  Ok tt.

(** ** Completed outcomes *)

Record ArchiveReference := mkArchive { archive_str : string }.

#[global] Instance ArchiveReference_eq_dec : EqDecision ArchiveReference.
Proof. solve_decision. Defined.

Definition ArchiveReference_new (value : string) : result ArchiveReference IdentityError :=
  let? _ := validate_identity_text value "archive reference" 1024 in
  Ok (mkArchive value).

Inductive DetailUnavailableReason := MissingDetails | BackendUnavailable.

#[global] Instance DetailUnavailableReason_eq_dec : EqDecision DetailUnavailableReason.
Proof. solve_decision. Defined.

Inductive OutcomeDetails (T : Type) :=
| Available (value : T)
| Expired
| Archived (reference : ArchiveReference)
| DetailsUnavailable (reason : DetailUnavailableReason).
#[global] Arguments Available {T} value.
#[global] Arguments Expired {T}.
#[global] Arguments Archived {T} reference.
#[global] Arguments DetailsUnavailable {T} reason.

#[global] Instance OutcomeDetails_eq_dec T `{EqDecision T} : EqDecision (OutcomeDetails T).
Proof. solve_decision. Defined.

Inductive OutcomeRecoveryError :=
| IntegrityMismatch
| RecoveryExpired
| RecoveryArchived (reference : ArchiveReference)
| RecoveryUnavailable (reason : DetailUnavailableReason).

(** [OutcomeDetails::available] *)
Definition available {T} (d : OutcomeDetails T) : result T OutcomeRecoveryError :=
  match d with
  | Available value => Ok value
  | Expired => Err RecoveryExpired
  | Archived reference => Err (RecoveryArchived reference)
  | DetailsUnavailable reason => Err (RecoveryUnavailable reason)
  end.

Record CompletedOutcome (T : Type) := mkCompleted {
  co_marker : OutcomeMarker;
  co_details : OutcomeDetails T;
}.
#[global] Arguments mkCompleted {T}.
#[global] Arguments co_marker {T}.
#[global] Arguments co_details {T}.

#[global] Instance CompletedOutcome_eq_dec T `{EqDecision T} : EqDecision (CompletedOutcome T).
Proof. solve_decision. Defined.

(** [downcast_ref::<EncodedOutcomeDetails>()] of a value of a type: the value
    itself at the one concrete type, nothing at every other. *)
Class Downcast (T : Type) := downcast_encoded : T → option EncodedOutcomeDetails.
#[global] Instance downcast_details : Downcast EncodedOutcomeDetails := Some.

Definition validate_detail_binding {T} `{Downcast T} (marker : OutcomeMarker)
    (details : OutcomeDetails T) : result unit OutcomeRecoveryError :=
  match details with
  | Available value =>
    match downcast_encoded value with
    | Some encoded =>
      fail! negb (bool_decide (ed_reference encoded = mk_reference marker)) with IntegrityMismatch;
      Ok tt
    | None => Ok tt
    end
  | _ => Ok tt
  end.

(** [CompletedOutcome::new] *)
Definition CompletedOutcome_new {T} `{Downcast T} (marker : OutcomeMarker)
    (details : OutcomeDetails T) : result (CompletedOutcome T) OutcomeRecoveryError :=
  let? _ := validate_detail_binding marker details in
  Ok (mkCompleted marker details).

(** [CompletedOutcome::try_map]; [lift] is the error type's [From]. *)
Definition completed_try_map {T U E} `{Downcast T} `{Downcast U} (lift : OutcomeRecoveryError → E)
    (o : CompletedOutcome T) (map : T → result U E) : result (CompletedOutcome U) E :=
  let? _ := map_err lift (validate_detail_binding (co_marker o) (co_details o)) in
  let? details :=
    match co_details o with
    | Available value => rmap Available (map value)
    | Expired => Ok Expired
    | Archived reference => Ok (Archived reference)
    | DetailsUnavailable reason => Ok (DetailsUnavailable reason)
    end in
  map_err lift (CompletedOutcome_new (co_marker o) details).

(** [CompletedOutcome::validate_for] *)
Definition validate_for (o : CompletedOutcome EncodedOutcomeDetails) (key : OutcomeKey)
    (metadata : CommandExecutionMetadata) : result unit EventStoreError :=
  let? _ := validate_key (co_marker o) key in
  let? _ := validate_identity (co_marker o) metadata in
  let? _ := validate_integrity (mk_integrity (co_marker o)) in
  map_err (λ _, corrupt "completed outcome details do not match the immutable winning reference")
    (validate_detail_binding (co_marker o) (co_details o)).

(** [CompletedOutcome::to_inline] *)
Definition to_inline (o : CompletedOutcome EncodedOutcomeDetails)
  : result InlineCompletedOutcome OutcomeRecoveryError :=
  let? _ := validate_detail_binding (co_marker o) (co_details o) in
  let? details := available (co_details o) in
  let receipt := mk_integrity (co_marker o) in
  Ok (mkInline match ed_completion details with
               | Some completion => tr_with_completion receipt completion
               | None => receipt
               end).

(** ** Detail readers *)

Inductive DetailRead :=
| Found (bytes : list byte)
| AbsentHere
| ReadArchived (reference : ArchiveReference).

Inductive DetailReadError :=
| ReadUnavailable
| ReadForbidden
| ReadCorrupt
| ReadConfigurationMismatch.

Definition DetailReadError_display (e : DetailReadError) : string :=
  match e with
  | ReadUnavailable => "detail backend unavailable"
  | ReadForbidden => "detail read forbidden"
  | ReadCorrupt => "detail integrity failure"
  | ReadConfigurationMismatch => "detail backend configuration mismatch"
  end.

(** The [OutcomeDetailReader] trait: what one [get] answers *)
Definition DetailReader : Type := OutcomeDetailReference → result DetailRead DetailReadError.

Definition read_error (e : DetailReadError) : EventStoreError :=
  store_error
    match e with
    | ReadForbidden => DetailForbidden
    | ReadConfigurationMismatch => ConfigurationMismatch
    | ReadCorrupt => CorruptHistory
    | ReadUnavailable => Unavailable
    end (DetailReadError_display e).

(** The loop of [resolve_details]: [unavailable] and [archive] are its locals. *)
Fixpoint resolve_loop (r : OutcomeDetailReference) (readers : list DetailReader)
    (unavailable : bool) (archive : option ArchiveReference)
  : result (OutcomeDetails EncodedOutcomeDetails) EventStoreError :=
  match readers with
  | reader :: rest =>
    match reader r with
    | Ok (Found bytes) => rmap Available (details_decode r bytes)
    | Ok AbsentHere => resolve_loop r rest unavailable archive
    | Ok (ReadArchived reference) => resolve_loop r rest unavailable (Some reference)
    | Err ReadUnavailable => resolve_loop r rest true archive
    | Err e => Err (read_error e)
    end
  | [] =>
    Ok (if unavailable then DetailsUnavailable BackendUnavailable
        else match archive with
             | Some reference => Archived reference
             | None => DetailsUnavailable MissingDetails
             end)
  end.

(** [resolve_details]: the hot reader, then the cold one if there is one *)
Definition resolve_details (r : OutcomeDetailReference) (hot : DetailReader)
    (cold : option DetailReader) : result (OutcomeDetails EncodedOutcomeDetails) EventStoreError :=
  resolve_loop r (hot :: option_list cold) false None.

(** ** Lookups and commits (execution_store.rs) *)

Inductive OutcomeLookup (T : Type) := Missing | Completed (outcome : CompletedOutcome T).
#[global] Arguments Missing {T}.
#[global] Arguments Completed {T} outcome.

Inductive CompletedCommit :=
| CommitAppended (outcome : CompletedOutcome EncodedOutcomeDetails)
| CommitExactReplay (outcome : CompletedOutcome EncodedOutcomeDetails).

Definition commit_outcome_of (c : CompletedCommit) : CompletedOutcome EncodedOutcomeDetails :=
  match c with CommitAppended o | CommitExactReplay o => o end.
Definition commit_is_exact_replay (c : CompletedCommit) : bool :=
  match c with CommitExactReplay _ => true | CommitAppended _ => false end.

End Outcome.
