(* ===== verification/OutcomeFacts.v ===== *)
(** * OutcomeFacts: concrete instances of the interfaces of the core, and what the
    markers and details of Outcome guarantee - recovery of prepared details,
    restoration of manifests, identity reconciliation and the order of the
    detail readers. *)

From S2P Require Export Outcome.

(** * Concrete instances of the third-party interfaces and sample values, for the witnesses to
    evaluate with. *)

#[global] Instance ActorWire_eq_dec : EqDecision ActorWire.
Proof. solve_decision. Defined.
#[global] Instance ActorWire_countable : Countable ActorWire.
Proof.
  by refine (inj_countable' (λ a, (wire_namespace a, wire_id a)) (λ p, mkActorWire p.1 p.2) _);
    intros [].
Defined.

Definition sample_reference_json : Json ReferenceTuple.
Proof.
  refine (fields_json
    (λ '(a, b, c, d, e, f, g, h, i),
      [field a; field b; field c; field d; field e; field f; field g; field h; field i])
    (λ l, match l with
          | [a; b; c; d; e; f; g; h; i] =>
            a ← unfield a; b ← unfield b; c ← unfield c; d ← unfield d; e ← unfield e;
            f ← unfield f; g ← unfield g; h ← unfield h; i ← unfield i;
            Some (a, b, c, d, e, f, g, h, i)
          | _ => None
          end) _).
  intros [[[[[[[[a b] c] d] e] f] g] h] i]. by rewrite !unfield_field.
Defined.

Definition sample_attributed_json : Json AttributedReferenceTuple.
Proof.
  refine (fields_json
    (λ '(a, b, c, d, e, w, f, g, h, i),
      [field a; field b; field c; field d; field e; field w; field f; field g; field h; field i])
    (λ l, match l with
          | [a; b; c; d; e; w; f; g; h; i] =>
            a ← unfield a; b ← unfield b; c ← unfield c; d ← unfield d; e ← unfield e;
            w ← unfield w; f ← unfield f; g ← unfield g; h ← unfield h; i ← unfield i;
            Some (a, b, c, d, e, w, f, g, h, i)
          | _ => None
          end) _).
  intros [[[[[[[[[a b] c] d] e] w] f] g] h] i]. by rewrite !unfield_field.
Defined.

Definition sample_manifest_json : Json MarkerManifest.
Proof.
  refine (fields_json
    (λ m, [field (mf_version m); field (mf_authority m); field (mf_context m);
           field (mf_operation m); field (mf_scope m); field (mf_actor m); field (mf_rejected m);
           field (mf_format m); field (mf_length m); field (mf_digest m);
           field (mf_proposal_version m); field (mf_proposal m); field (mf_revision m);
           field (mf_integrity m); field (mf_evidence m)])
    (λ l, match l with
          | [a; b; c; d; e; f; g; h; i; j; k; n; o; p; q] =>
            a ← unfield a; b ← unfield b; c ← unfield c; d ← unfield d; e ← unfield e;
            f ← unfield f; g ← unfield g; h ← unfield h; i ← unfield i; j ← unfield j;
            k ← unfield k; n ← unfield n; o ← unfield o; p ← unfield p; q ← unfield q;
            Some (mkManifest a b c d e f g h i j k n o p q)
          | _ => None
          end) _).
  intros []. cbn -[field unfield]. by rewrite !unfield_field.
Defined.

Definition sample_header_json : Json DetailHeader.
Proof.
  refine (fields_json
    (λ h, [field (dh_version h); field (dh_authority h); field (dh_context h);
           field (dh_operation h); field (dh_security_scope h); field (dh_actor h);
           field (dh_completion h)])
    (λ l, match l with
          | [a; b; c; d; e; f; g] =>
            a ← unfield a; b ← unfield b; c ← unfield c; d ← unfield d; e ← unfield e;
            f ← unfield f; g ← unfield g; Some (mkDetailHeader a b c d e f g)
          | _ => None
          end) _).
  intros []. cbn -[field unfield]. by rewrite !unfield_field.
Defined.

Fixpoint sample_value (v : jvalue) : list byte :=
  match v with
  | JNull => as_bytes "null"
  | JStr s => frame (as_bytes s)
  | JNum n => frame (as_bytes (n_to_string n))
  | JArr l => frames (map sample_value l)
  | JObj fs => frames (map (λ p, frame (as_bytes p.1) ++ sample_value p.2) fs)
  end.

Definition sample_json : OutcomeJson :=
  {| oj_completion := index_json (option CommandCompletion);
     oj_reference := sample_reference_json;
     oj_attributed_reference := sample_attributed_json;
     oj_manifest := sample_manifest_json;
     oj_header := sample_header_json;
     oj_evidence := index_json (option OutcomeEvidence);
     oj_value := λ v, Ok (sample_value v) |}.

(** ** Sample values *)

Definition sample_stream : StreamId := mkStreamId (Ident "order") (Ident "o-1").
Definition sample_operation : OperationId := Ident "op-1".
Definition sample_context : BoundedContextName := mkBoundedContextName "orders".
Definition sample_authority : CommandAuthority := CommandAuthority_memory 7 0.
Definition sample_evidence : OutcomeEvidence :=
  {| authority_scope := None; created_at_millis := Some 5; fingerprint_version := 1;
     command_type := "Place"; command_schema := 1; events_caused_by_command := false;
     original_causation := None |}.
Definition sample_completion : CommandCompletion := CommandCompletion_new (Some sample_evidence) None.
Definition sample_rejection : CommandCompletion :=
  CommandCompletion_new (Some sample_evidence) (Some (mkEncodedRejection "orders" 1 [x2a; x2b])).

Definition sample_event `{Sha256} (o : OperationId) (n : N) : NewEvent :=
  mkNewEvent (derive_event_id (derive_commit_id sample_stream o) n) "placed" 1 [x01].
Definition sample_batch `{Sha256} (o : OperationId) : EventBatch :=
  mkEventBatch None (derive_commit_id sample_stream o) o sample_fingerprint
    [sample_event o 0; sample_event o 1] None None.

(** A scoped transaction with a completed decision. *)
Definition sample_decision (o : OperationId) (c : CommandCompletion)
    (ps : list TransactionParticipant) : EventTransaction :=
  tx_with_completion (tx_with_bounded_context (EventTransaction_new o sample_fingerprint ps)
    sample_context) c.
Definition sample_guard (e : ExpectedVersion) : TransactionParticipant :=
  mkParticipant sample_stream e None.
Definition sample_write `{Sha256} (o : OperationId) (e : ExpectedVersion) : TransactionParticipant :=
  mkParticipant sample_stream e (Some (sample_batch o)).

(** * What the markers and details of Outcome guarantee - recovery of prepared details,
    restoration of manifests, identity reconciliation and the order of the detail
    readers. *)

(** Every [ActorRef] value passed its constructor. *)
Definition actor_opt_ok (a : option ActorRef) : Prop := ∀ x, a = Some x → actor_ok x.

Section Facts.
Context `{SHA : Sha256} `{OJ : OutcomeJson}.

Lemma actor_from_wire_of a : actor_opt_ok a → actor_from_wire (ActorWire_of <$> a) = Ok a.
Proof.
  intros H. destruct a as [a|]; [|done]. unfold actor_from_wire. cbn.
  specialize (H a eq_refl). unfold actor_ok in H. unfold ActorRef_try_from; cbn. by rewrite H.
Qed.

Lemma digest_ok bytes : fingerprint_ok (digest bytes).
Proof. apply sha256_length. Qed.

Lemma manifest_fingerprint_hex f : fingerprint_ok f → manifest_fingerprint (to_hex f) = Ok f.
Proof.
  intros H. unfold manifest_fingerprint. by rewrite from_hex_to_hex.
Qed.

(** ** Details *)

Lemma set_rejection_bytes_take c :
  set_rejection_bytes (completion_payload (Some c)) (set_rejection_bytes [] c) = c.
Proof. by destruct c as [v e [[]|]]. Qed.

Lemma set_rejection_bytes_rejection bytes c :
  completion_rejection (set_rejection_bytes bytes c)
  = (λ r, mkEncodedRejection (codec_id r) (codec_version r) bytes) <$> completion_rejection c.
Proof. done. Qed.

Definition completion_ok (c : option CommandCompletion) : Prop :=
  ∀ x, c = Some x → completion_validate x = Ok tt.

Lemma decision_of_rejected c :
  bool_decide (decision_of c = Rejected) = is_some (c ≫= completion_rejection).
Proof. unfold decision_of. destruct c as [[v e [r|]]|]; done. Qed.

Lemma details_decode_encode completion key scope actor bytes :
  actor_opt_ok actor → completion_ok completion →
  details_encode completion key scope actor = Ok bytes →
  let r := mkReference key scope actor (decision_of completion) (actor_format actor)
             (len bytes) (digest bytes) in
  details_decode r bytes = Ok (mkDetails r completion).
Proof.
  intros Ha Hc He r. unfold details_encode in He. guards.
  match goal with H : to_vec _ = Ok ?h |- _ => rename h into header; rename H into Hjson end.
  match goal with H : try_from _ _ = Some _ |- _ => apply try_from_Some in H as [-> Hl] end.
  unfold details_decode, r; cbn [ref_format ref_actor ref_length ref_digest].
  rewrite !N.eqb_refl, bool_decide_eq_true_2 by done. cbn [negb orb].
  rewrite (proj2 (split_at_checked_Some 4 _ (be_bytes 4 (len header)) (header ++ completion_payload completion)))
    by (split; [done|unfold len; by rewrite length_be_bytes]).
  cbn [ok_or rbind]. rewrite be_value_be_bytes by (unfold u32_max in *; cbn; lia).
  rewrite (proj2 (split_at_checked_Some _ _ header (completion_payload completion))) by done.
  cbn [ok_or rbind]. rewrite (json_roundtrip _ _ Hjson).
  cbn [map_err rbind dh_actor dh_version dh_authority dh_context dh_operation dh_security_scope dh_completion].
  rewrite actor_from_wire_of by done. cbn [rbind ref_key ref_security_scope].
  rewrite !N.eqb_refl, !String.eqb_refl, !bool_decide_eq_true_2 by done. cbn [negb orb].
  unfold details_rejection; cbn [ed_completion ref_decision]. rewrite decision_of_rejected.
  destruct completion as [c|]; cbn [fmap option_fmap option_map mbind option_bind].
  - rewrite set_rejection_bytes_rejection.
    destruct (completion_rejection c) as [rej|] eqn:Er; cbn [fmap option_fmap option_map rejection_bytes].
    + rewrite len_nil, N.eqb_refl. cbn [negb rbind]. rewrite set_rejection_bytes_take.
      rewrite (Hc c eq_refl). cbn [map_err rbind ed_completion mbind option_bind]. by rewrite Er.
    + unfold completion_payload; cbn [mbind option_bind]. rewrite Er. cbn [from_option].
      assert (set_rejection_bytes [] c = c) as -> by (destruct c; cbn in *; by subst).
      rewrite len_nil, N.eqb_refl. cbn [negb rbind]. rewrite (Hc c eq_refl). cbn [map_err rbind ed_completion mbind option_bind].
      by rewrite Er.
  - done.
Qed.

(** ** Prepared markers *)

(** The reference [prepare] binds the encoded details to. *)
Definition prepared_reference (authority : CommandAuthority) (context : BoundedContextName)
    (t : EventTransaction) (bytes : list byte) : OutcomeDetailReference :=
  mkReference (mkOutcomeKey authority context (tx_operation_id t)) (tx_security_scope t)
    (tx_actor t) (decision_of (tx_completion t)) (actor_format (tx_actor t)) (len bytes)
    (digest bytes).

Record prepared (authority : CommandAuthority) (t : EventTransaction) (r : TransactionReceipt)
    (m : OutcomeMarker) (bytes : list byte) : Prop := {
  pr_receipt : proposal_ok r t;
  pr_context : ∃ context, tx_bounded_context t = Some context
    ∧ mk_reference m = prepared_reference authority context t bytes
    ∧ details_encode (tx_completion t) (mkOutcomeKey authority context (tx_operation_id t))
        (tx_security_scope t) (tx_actor t) = Ok bytes;
  pr_proposal : proposal_of t = Ok (mk_proposal m);
  pr_evidence : mk_evidence m = without_timestamp <$> (tx_completion t ≫= completion_evidence);
  pr_integrity : mk_integrity m = without_completion r;
  pr_revision : marker_revision (mk_reference m) (mk_proposal m) (mk_evidence m) (mk_integrity m)
                = Ok (mk_revision m);
}.

Lemma prepare_Ok authority t r m bytes :
  prepare authority t r = Ok (m, bytes) ↔ prepared authority t r m bytes.
Proof.
  unfold prepare. split.
  - intros H. guards.
    match goal with H : validate_proposal r t = Ok ?u |- _ =>
      destruct u; apply validate_proposal_Ok in H end.
    simplify_eq. split; try done. eexists. split_and!; done.
  - intros [Hr (context & Hc & Hm & He) Hp Hev Hi Hv].
    rewrite (proj2 (validate_proposal_Ok r t) Hr). cbn [rbind]. rewrite Hc. cbn [ok_or rbind].
    rewrite He. cbn [rbind]. rewrite Hp. cbn [rbind]. unfold prepared_reference in Hm.
    rewrite <- Hm, <- Hev, <- Hi, Hv. cbn [rbind]. by destruct m.
Qed.

Lemma prepared_completion_ok authority t r m bytes :
  prepared authority t r m bytes → completion_ok (tx_completion t).
Proof.
  intros [[Hc _ _ _ _] _ _ _ _ _] c Ec. rewrite Ec in Hc.
  destruct (completed_transaction_Ok t tt (Hc eq_refl)) as (c' & ? & E & ? & _). congruence.
Qed.

Lemma prepared_details authority t r m bytes :
  actor_opt_ok (tx_actor t) → prepared authority t r m bytes →
  details_decode (mk_reference m) bytes = Ok (mkDetails (mk_reference m) (tx_completion t)).
Proof.
  intros Ha Hp. pose proof (prepared_completion_ok _ _ _ _ _ Hp) as Hc.
  destruct Hp as [_ (context & _ & -> & He) _ _ _ _].
  exact (details_decode_encode _ _ _ _ _ Ha Hc He).
Qed.

(** Nothing of a decision is lost by splitting it into a
    permanent marker and withdrawable details: decoding the prepared bytes
    against the marker's reference returns the completed decision, and
    materialising both gives the receipt with that decision. *)
Theorem prepared_outcome_recovers authority t r m bytes :
  actor_opt_ok (tx_actor t) → prepare authority t r = Ok (m, bytes) →
  details_decode (mk_reference m) bytes = Ok (mkDetails (mk_reference m) (tx_completion t))
  ∧ (rbind (CompletedOutcome_new m (Available (mkDetails (mk_reference m) (tx_completion t)))) to_inline
     = Ok (mkInline (match tx_completion t with
                     | Some c => tr_with_completion (without_completion r) c
                     | None => without_completion r
                     end))).
Proof.
  intros Ha H%prepare_Ok. split; [by eapply prepared_details|].
  unfold CompletedOutcome_new, validate_detail_binding, downcast_encoded, downcast_details.
  cbn [ed_reference]. rewrite bool_decide_eq_true_2 by done. cbn [negb rbind].
  unfold to_inline, validate_detail_binding, downcast_encoded, downcast_details.
  cbn [co_details co_marker ed_reference]. rewrite bool_decide_eq_true_2 by done.
  cbn [negb rbind available ed_completion]. by rewrite (pr_integrity _ _ _ _ _ H).
Qed.

(** ** Manifests *)

Lemma validate_integrity_without_completion r :
  integrity_ok r → integrity_ok (without_completion r).
Proof.
  intros [Hs He _]. split; [done| |done]. eapply Forall_impl; [exact He|].
  intros s [Hc Hsp Hev]. split; [done..|]. intros i e Hi. by destruct (Hev i e Hi).
Qed.

Lemma evidence_without_timestamp e :
  evidence_validate e = Ok tt → evidence_validate (without_timestamp e) = Ok tt.
Proof.
  unfold evidence_validate, without_timestamp;
    cbn [fingerprint_version command_schema command_type original_causation created_at_millis
         authority_scope is_some_and]. rewrite !check_Ok, !orb_false_iff. tauto.
Qed.

Lemma prepared_evidence authority t r m bytes e :
  prepared authority t r m bytes → mk_evidence m = Some e →
  completion_validate (CommandCompletion_new (Some e) None) = Ok tt ∧ created_at_millis e = None.
Proof.
  intros Hp He. pose proof (prepared_completion_ok _ _ _ _ _ Hp) as Hc.
  rewrite (pr_evidence _ _ _ _ _ Hp) in He.
  destruct (tx_completion t) as [c|]; [|done]. cbn [mbind option_bind] in He.
  destruct (completion_evidence c) as [ev|] eqn:Ev; [|done]. cbn in He. injection He as <-.
  specialize (Hc c eq_refl). unfold completion_validate in *. rewrite Ev in Hc. guards. simplify_eq.
  cbn [CommandCompletion_new completion_version completion_evidence completion_rejection].
  rewrite N.eqb_refl. cbn [negb ok_or rbind].
  match goal with H : evidence_validate _ = Ok ?u |- _ => destruct u; apply evidence_without_timestamp in H as -> end.
  done.
Qed.

(** A rejected decision was prepared from read guards only. *)
Lemma prepared_rejected authority t r m bytes :
  prepared authority t r m bytes → marker_decision m = Rejected →
  existsb (λ s, negb (len (sr_events s) =? 0)) (tr_streams r) = false.
Proof.
  intros [[Hc _ _ _ Hp] (context & _ & Hm & _) _ _ _ _] Hd.
  unfold marker_decision in Hd. rewrite Hm in Hd. cbn in Hd. unfold decision_of in Hd.
  destruct (tx_completion t) as [c|] eqn:Ec; [|done]. cbn in Hd.
  destruct (completed_transaction_Ok t tt (Hc eq_refl)) as (c' & context' & E & _ & _ & Hb).
  assert (c' = c) as -> by congruence.
  assert (Forall (λ p, tp_batch p = None) (tx_participants t)) as Hg
    by (apply Hb; by destruct (completion_rejection c)).
  clear -Hp Hg. induction Hp as [|s p ss ps Hsp Hp IH]; [done|]. inversion Hg; subst.
  cbn [existsb]. rewrite IH by done. destruct Hsp as [_ _ He].
  match goal with H : tp_batch p = None |- _ => rewrite H in He end. by rewrite He.
Qed.

Lemma encode_details_length completion key scope actor bytes :
  details_encode completion key scope actor = Ok bytes → 4 <= len bytes.
Proof. unfold details_encode. intros H. guards. rewrite !len_cons. lia. Qed.

Lemma proposal_of_version t d :
  proposal_of t = Ok d → pd_version d = actor_format (tx_actor t) ∧ fingerprint_ok (pd_digest d).
Proof. intros (c & _ & _ & ->)%proposal_of_Ok. split; [done|]. apply sha256_length. Qed.

Lemma marker_revision_ok ref p ev i v :
  marker_revision ref p ev i = Ok v → fingerprint_ok (revision_fingerprint v).
Proof. unfold marker_revision. intros H. guards. apply sha256_length. Qed.

Lemma manifest_bound authority t r m bytes w :
  prepared authority t r m bytes →
  mf_version w = ref_format (mk_reference m) → mf_format w = ref_format (mk_reference m) →
  mf_proposal_version w = pd_version (mk_proposal m) → mf_length w = ref_length (mk_reference m) →
  mf_authority w = authority_str (key_authority (ref_key (mk_reference m))) →
  mf_context w = context_str (key_context (ref_key (mk_reference m))) →
  mf_operation w = ident_str (key_operation (ref_key (mk_reference m))) →
  mf_scope w = ident_str <$> ref_security_scope (mk_reference m) →
  mf_rejected w = bool_decide (marker_decision m = Rejected) →
  manifest_unbound (ref_key (mk_reference m)) w (marker_actor m) (mk_integrity m) = false.
Proof.
  intros Hp Hv Hf Hpv Hl Ha Hc Ho Hs Hr.
  pose proof (prepared_rejected _ _ _ _ _ Hp) as Hrej.
  destruct Hp as [[_ _ _ Hh _] (context & Hctx & Hm & He) Hpr _ Hi _].
  apply proposal_of_version in Hpr as [Hver _]. apply encode_details_length in He.
  unfold manifest_unbound. rewrite Hv, Hf, Hpv, Hl, Ha, Hc, Ho, Hs, Hr, Hver, Hi.
  unfold marker_actor. rewrite Hm. cbn [prepared_reference ref_format ref_length ref_actor ref_key
    ref_security_scope key_authority key_context key_operation without_completion tr_actor
    tr_bounded_context tr_operation_id tr_security_scope tr_completion tr_streams].
  destruct Hh as [Hb Hop _ _ _ Hact Hsc _].
  rewrite !N.eqb_refl, !String.eqb_refl, Hb, Hop, Hact, Hsc, Hctx, !bool_decide_eq_true_2 by done.
  rewrite (proj2 (N.ltb_ge _ _)) by done. cbn [negb orb is_some].
  case_bool_decide; [by rewrite Hrej|done].
Qed.

(** The reference [restore_manifest] rebuilds *)
Lemma restored_reference authority t r m bytes w :
  prepared authority t r m bytes →
  mf_format w = ref_format (mk_reference m) → mf_length w = ref_length (mk_reference m) →
  mf_rejected w = bool_decide (marker_decision m = Rejected) →
  mkReference (ref_key (mk_reference m)) (tr_security_scope (mk_integrity m))
    (tr_actor (mk_integrity m)) (if mf_rejected w then Rejected else Accepted) (mf_format w)
    (mf_length w) (ref_digest (mk_reference m)) = mk_reference m.
Proof.
  intros Hp -> -> ->. unfold marker_decision.
  destruct Hp as [[_ _ _ Hh _] (context & _ & Hm & _) _ _ Hi _]. rewrite Hi.
  cbn [without_completion tr_security_scope tr_actor].
  rewrite (sh_scope _ _ Hh), (sh_actor _ _ Hh), Hm. unfold prepared_reference; cbn [ref_decision ref_key
    ref_format ref_length ref_digest]. f_equal.
  destruct (decision_of _); [by rewrite bool_decide_eq_false_2|by rewrite bool_decide_eq_true_2].
Qed.

Lemma restored_proposal t d :
  proposal_of t = Ok d → proposal_restore (pd_version d) (pd_digest d) = Ok d.
Proof.
  intros [Hver _]%proposal_of_version. unfold proposal_restore. rewrite Hver at 1 2. unfold actor_format.
  destruct (is_some _); by destruct d.
Qed.

(** The evidence of a prepared marker passes the check of a restored one. *)
Lemma restored_evidence authority t r m bytes :
  prepared authority t r m bytes →
  match mk_evidence m with
  | Some evidence =>
    rbind (map_err (λ e, corrupt (EventCodecError_display e))
             (completion_validate (CommandCompletion_new (Some evidence) None)))
      (λ _, if is_some (created_at_millis evidence)
            then Err (corrupt "retainable timestamp in permanent manifest") else Ok tt)
  | None => Ok tt
  end = Ok tt.
Proof.
  intros H. destruct (mk_evidence m) as [e|] eqn:Ee; [|done].
  by destruct (prepared_evidence _ _ _ _ _ _ H Ee) as [-> ->].
Qed.

(** The permanent manifest of a prepared marker restores it,
    against the event-integrity receipt rebuilt from the journal: every digest,
    the key, the scope, the actor, the decision and the revision agree. *)
Theorem manifest_restores authority t r m bytes manifest :
  actor_opt_ok (tx_actor t) → prepare authority t r = Ok (m, bytes) →
  encode_manifest m = Ok manifest →
  restore_manifest (ref_key (mk_reference m)) manifest (mk_integrity m) = Ok m.
Proof.
  intros Ha H%prepare_Ok He. unfold encode_manifest in He. guards.
  match goal with H : to_vec ?w = Ok _ |- _ => rename H into Hjson; set (wire := w) in * end.
  match goal with H : integrity_digest _ = Ok _ |- _ => rename H into Hint end.
  unfold restore_manifest. rewrite (json_roundtrip _ _ Hjson). cbn [map_err rbind].
  assert (mf_actor wire = ActorWire_of <$> marker_actor m) as -> by done.
  assert (actor_opt_ok (marker_actor m)) as Hact.
  { destruct (pr_context _ _ _ _ _ H) as (context & _ & Hm & _).
    unfold marker_actor. by rewrite Hm. }
  rewrite actor_from_wire_of by done. cbn [rbind].
  assert (validate_integrity (mk_integrity m) = Ok tt) as ->.
  { apply validate_integrity_Ok. rewrite (pr_integrity _ _ _ _ _ H).
    apply validate_integrity_without_completion, (po_integrity _ _ (pr_receipt _ _ _ _ _ H)). }
  cbn [rbind]. rewrite Hint. cbn [rbind].
  assert (mf_integrity wire = to_hex v) as -> by done. rewrite String.eqb_refl. cbn [negb].
  rewrite (manifest_bound _ _ _ _ _ wire H) by
    (done || by destruct (proposal_of_version _ _ (pr_proposal _ _ _ _ _ H))).
  assert (mf_evidence wire = mk_evidence m) as -> by done.
  rewrite (restored_evidence _ _ _ _ _ H).
  cbn [rbind]. destruct (proposal_of_version _ _ (pr_proposal _ _ _ _ _ H)) as [Hver Hpd].
  assert (mf_proposal wire = to_hex (pd_digest (mk_proposal m))) as -> by done.
  rewrite manifest_fingerprint_hex by done. cbn [rbind].
  assert (mf_proposal_version wire = pd_version (mk_proposal m)) as -> by done.
  rewrite (restored_proposal _ _ (pr_proposal _ _ _ _ _ H)).
  cbn [rbind].
  assert (mf_digest wire = to_hex (ref_digest (mk_reference m))) as -> by done.
  assert (fingerprint_ok (ref_digest (mk_reference m))) as Hd.
  { destruct (pr_context _ _ _ _ _ H) as (context & _ & -> & _). apply digest_ok. }
  rewrite manifest_fingerprint_hex by done. cbn [rbind].
  rewrite (restored_reference _ _ _ _ _ wire H) by done.
  rewrite (pr_revision _ _ _ _ _ H). cbn [rbind].
  assert (mf_revision wire = to_hex (revision_fingerprint (mk_revision m))) as -> by done.
  rewrite manifest_fingerprint_hex
    by (eapply marker_revision_ok, (pr_revision _ _ _ _ _ H)).
  cbn [rbind]. rewrite bool_decide_eq_true_2 by done. by destruct m.
Qed.

(** A manifest is accepted only for the key it was asked for and
    the receipt it was checked against: the restored marker is bound to both,
    its receipt is integral and carries no completion, a rejection has no
    events, and its revision is the one recomputed from all of it. *)
Theorem restored_manifest_bound key manifest integrity m :
  restore_manifest key manifest integrity = Ok m →
  ref_key (mk_reference m) = key ∧ mk_integrity m = integrity ∧ integrity_ok integrity
  ∧ tr_completion integrity = None
  ∧ tr_bounded_context integrity = Some (key_context key)
  ∧ tr_operation_id integrity = key_operation key
  ∧ marker_actor m = tr_actor integrity
  ∧ ref_security_scope (mk_reference m) = tr_security_scope integrity
  ∧ (marker_decision m = Rejected → Forall (λ s, sr_events s = []) (tr_streams integrity))
  ∧ marker_revision (mk_reference m) (mk_proposal m) (mk_evidence m) integrity = Ok (mk_revision m).
Proof.
  unfold restore_manifest. intros H. guards.
  match goal with H : validate_integrity _ = Ok ?u |- _ => destruct u; apply validate_integrity_Ok in H end.
  match goal with H : manifest_unbound _ _ _ _ = false |- _ => unfold manifest_unbound in H; guards end.
  cbn [mk_reference mk_integrity mk_proposal mk_evidence mk_revision ref_key ref_security_scope].
  split_and!; try done.
  - by destruct (tr_completion integrity).
  - unfold marker_decision; cbn [mk_reference ref_decision]. destruct (mf_rejected _); [|done].
    intros _. cbn [andb] in *. apply Forall_forall. intros s Hs.
    match goal with H : existsb _ _ = false |- _ => apply not_true_iff_false in H; rename H into Hx end.
    destruct (sr_events s) eqn:Es; [done|]. exfalso. apply Hx, existsb_exists. exists s.
    split; [by apply list_elem_of_In|]. rewrite Es, len_cons. apply negb_true_iff, N.eqb_neq. lia.
Qed.

(** ** Identity reconciliation *)

Definition evidence_identity (e : OutcomeEvidence) :=
  (authority_scope e, fingerprint_version e, command_type e, command_schema e,
   events_caused_by_command e, original_causation e).

Lemma same_identity_spec a b :
  same_identity a b = true ↔ evidence_identity a = evidence_identity b.
Proof.
  unfold same_identity, evidence_identity.
  rewrite !andb_true_iff, !bool_decide_eq_true, !N.eqb_eq, String.eqb_eq, Bool.eqb_true_iff.
  split; [intros [[[[[? ?] ?] ?] ?] ?]; congruence|]. intros [= -> -> -> -> -> ->]. tauto.
Qed.

(** Reconciling a winner with a command compares exactly the
    command identity - context, operation, fingerprint, correlation, causation,
    actor, scope and the evidence without its timestamp - so a retry made later
    is still the same command, and nothing about the proposal is compared. *)
Lemma validate_identity_spec m metadata :
  validate_identity m metadata = Ok tt ↔
  (tr_bounded_context (mk_integrity m), tr_operation_id (mk_integrity m),
   tr_operation_fingerprint (mk_integrity m), tr_correlation_id (mk_integrity m),
   tr_causation_id (mk_integrity m), marker_actor m, ref_security_scope (mk_reference m))
  = (cem_bounded_context metadata, cem_operation_id metadata, cem_operation_fingerprint metadata,
     cem_correlation_id metadata, cem_causation_id metadata, cem_actor metadata,
     cem_security_scope metadata)
  ∧ (mk_evidence m = None ∨
     evidence_identity <$> mk_evidence m = evidence_identity <$> cem_outcome_evidence metadata).
Proof.
  unfold validate_identity. split.
  - intros H. guards. split; [congruence|].
    unfold evidence_matches in *. destruct (mk_evidence m) as [a|], (cem_outcome_evidence metadata) as [b|];
      try done; auto. right. cbn. f_equal. by apply same_identity_spec.
  - intros [Heq Hev]. injection Heq as -> -> -> -> -> -> ->.
    rewrite !bool_decide_eq_true_2 by done. cbn [negb orb].
    assert (evidence_matches (mk_evidence m) (cem_outcome_evidence metadata) = true) as ->; [|done].
    unfold evidence_matches. destruct Hev as [->|Hev]; [done|].
    destruct (mk_evidence m) as [a|], (cem_outcome_evidence metadata) as [b|]; try done.
    apply same_identity_spec. cbn [fmap option_fmap option_map] in Hev. congruence.
Qed.

(** ** Detail readers *)

(** Any answer of the cold reader that is not decisive is the outcome of the
    two sides together. *)
Definition undecided (hot cold : result DetailRead DetailReadError) : OutcomeDetails EncodedOutcomeDetails :=
  match hot, cold with
  | Err _, _ | _, Err _ => DetailsUnavailable BackendUnavailable
  | _, Ok (ReadArchived reference) => Archived reference
  | Ok (ReadArchived reference), _ => Archived reference
  | _, _ => DetailsUnavailable MissingDetails
  end.

(** Details are resolved from the hot reader first and from
    the cold one only when the hot one has no bytes: found bytes always go
    through the checked decoder, a forbidden, corrupt or misconfigured reader
    stops the search with its error, and a missing answer is never reported
    while a reader was unavailable. *)
Lemma resolve_details_spec r hot cold :
  resolve_details r hot (Some cold)
  = match hot r with
    | Ok (Found bytes) => rmap Available (details_decode r bytes)
    | Err ReadUnavailable | Ok AbsentHere | Ok (ReadArchived _) =>
      match cold r with
      | Ok (Found bytes) => rmap Available (details_decode r bytes)
      | Err ReadUnavailable | Ok AbsentHere | Ok (ReadArchived _) => Ok (undecided (hot r) (cold r))
      | Err e => Err (read_error e)
      end
    | Err e => Err (read_error e)
    end.
Proof.
  unfold resolve_details. change (hot :: option_list (Some cold)) with [hot; cold]. cbn [resolve_loop].
  destruct (hot r) as [[]|[]]; try done; destruct (cold r) as [[]|[]]; done.
Qed.

Lemma binding_Ok {T} `{Downcast T} m (d : OutcomeDetails T) u :
  validate_detail_binding m d = Ok u ↔
  ∀ x e, d = Available x → downcast_encoded x = Some e → ed_reference e = mk_reference m.
Proof.
  destruct u. unfold validate_detail_binding. destruct d as [x| | |]; try (split; [done|]; done).
  destruct (downcast_encoded x) as [e|] eqn:Ed.
  - rewrite check_Ok, negb_false_iff, bool_decide_eq_true. split; [|naive_solver].
    intros [? _] x' e' [= <-]. congruence.
  - split; [|done]. intros _ x' e' [= <-]. congruence.
Qed.

(** A projection of completed details keeps the winner: the marker
    is unchanged, withdrawn, archived and unavailable details stay so, and a
    projection to encoded details is accepted only if they are bound to the
    marker's own reference. *)
Theorem projection_keeps_winner {T U E} `{Downcast T} `{Downcast U} (lift : OutcomeRecoveryError → E)
    (o : CompletedOutcome T) (f : T → result U E) o' :
  completed_try_map lift o f = Ok o' →
  co_marker o' = co_marker o
  ∧ match co_details o with
    | Available x => ∃ y, f x = Ok y ∧ co_details o' = Available y
        ∧ (∀ e, downcast_encoded y = Some e → ed_reference e = mk_reference (co_marker o))
    | Expired => co_details o' = Expired
    | Archived a => co_details o' = Archived a
    | DetailsUnavailable reason => co_details o' = DetailsUnavailable reason
    end.
Proof.
  unfold completed_try_map, CompletedOutcome_new. intros Hm. guards. cbn [co_marker co_details].
  split; [done|]. destruct (co_details o); guards; try done; try congruence.
  eexists. split_and!; [done..|]. intros e He.
  repeat match goal with H : validate_detail_binding _ _ = Ok _ |- _ =>
    rewrite binding_Ok in H end. eauto.
Qed.

End Facts.

(** ** Witnesses *)

Section Witnesses.
#[local] Existing Instances tail_digest sample_json.

(** A rejection prepared from one read guard of an absent stream. *)
Definition sample_guard_receipt : TransactionReceipt :=
  tr_with_bounded_context (TransactionReceipt_new sample_operation sample_fingerprint
    [mkStreamReceipt sample_stream version_zero []]) sample_context.
Definition sample_guarded : EventTransaction :=
  sample_decision sample_operation sample_rejection [sample_guard NoStream].
Definition sample_prepared : result (OutcomeMarker * list byte) EventStoreError :=
  prepare sample_authority sample_guarded sample_guard_receipt.
Definition sample_marker : OutcomeMarker :=
  match sample_prepared with
  | Ok (m, _) => m
  | Err _ => mkMarker (mkReference (mkOutcomeKey sample_authority sample_context sample_operation)
      None None Accepted 0 0 (from_bytes [])) (mkRevision (from_bytes [])) (mkProposalDigest 0 (from_bytes []))
      None sample_guard_receipt
  end.
Definition sample_detail_bytes : list byte :=
  match sample_prepared with Ok (_, bytes) => bytes | Err _ => [] end.

Lemma sample_prepared_ok : sample_prepared = Ok (sample_marker, sample_detail_bytes).
Proof. by vm_compute. Qed.

Lemma prepared_outcome_recovers_witness :
  details_decode (mk_reference sample_marker) sample_detail_bytes
  = Ok (mkDetails (mk_reference sample_marker) (Some sample_rejection)).
Proof.
  exact (proj1 (prepared_outcome_recovers sample_authority sample_guarded sample_guard_receipt
    sample_marker sample_detail_bytes ltac:(done) sample_prepared_ok)).
Defined.

Lemma manifest_restores_witness :
  ∃ manifest, restore_manifest (mkOutcomeKey sample_authority sample_context sample_operation)
    manifest (without_completion sample_guard_receipt) = Ok sample_marker.
Proof.
  destruct (encode_manifest sample_marker) as [manifest|] eqn:E; [|exfalso; revert E; by vm_compute].
  exists manifest.
  exact (manifest_restores sample_authority sample_guarded sample_guard_receipt sample_marker
    sample_detail_bytes manifest ltac:(done) sample_prepared_ok E).
Defined.

Definition sample_manifest : list byte :=
  match encode_manifest sample_marker with Ok bytes => bytes | Err _ => [] end.

Lemma restored_manifest_bound_witness :
  integrity_ok (without_completion sample_guard_receipt).
Proof.
  refine (proj1 (proj2 (proj2 (restored_manifest_bound
    (mkOutcomeKey sample_authority sample_context sample_operation) sample_manifest
    (without_completion sample_guard_receipt) sample_marker _)))).
  by vm_compute.
Defined.

Lemma projection_keeps_winner_witness :
  co_marker (mkCompleted (T := EncodedOutcomeDetails) sample_marker Expired) = sample_marker.
Proof.
  exact (proj1 (projection_keeps_winner (λ e, e)
    (mkCompleted (T := EncodedOutcomeDetails) sample_marker Expired)
    (λ d, Ok d) (mkCompleted (T := EncodedOutcomeDetails) sample_marker Expired) eq_refl)).
Defined.

End Witnesses.
