(* ===== verification/NatsAuthority.v ===== *)
(** * NatsAuthority: which streams a NATS event store accepts as its own - the
    stream policy, the binding of the journal to the outcome state and the
    identity of the authority (crates/rostfrei-nats/src/stream_policy.rs, and
    connect, verify_stream_config, verify_authority and the write guards in
    event_store.rs and event_store/outcomes.rs).

    What the server answers to a request for a stream is an argument. *)

From S2P Require Export NatsConfig Outcome.

(** ** Streams as the server describes them *)

#[global] Instance RetentionPolicy_eq_dec : EqDecision RetentionPolicy.
Proof. solve_decision. Defined.
#[global] Instance StorageType_eq_dec : EqDecision StorageType.
Proof. solve_decision. Defined.
#[global] Instance DiscardPolicy_eq_dec : EqDecision DiscardPolicy.
Proof. solve_decision. Defined.

(** The configuration of a stream on the server: the fields the code sets, and
    of the others, by name, whether they differ from [Config::default] (for
    [compression], whether there is one). *)
Record ServerConfig := mkServerConfig {
  vc_config : StreamConfig;
  vc_differs : string → bool;
}.

Record StreamInfo := mkStreamInfo {
  si_config : ServerConfig;
  si_created : string;
}.
Definition si_metadata (s : StreamInfo) : gmap string string := sc_metadata (vc_config (si_config s)).

(** What [get_stream] answers *)
Inductive GetStream :=
| StreamFound (info : StreamInfo)
| StreamNotFound (error : string)
| StreamFailed (error : string).

Definition configuration (message : string) : EventStoreError := store_error ConfigurationMismatch message.

(** ** The stream policy (stream_policy.rs) *)

Definition is_server_metadata (key : string) : bool := starts_with "_nats." key.

Definition metadata_within (a b : gmap string string) : Prop :=
  map_Forall (λ key value, is_server_metadata key = true ∨ b !! key = Some value) a.
Definition metadata_matches (expected actual : gmap string string) : bool :=
  bool_decide (metadata_within expected actual) && bool_decide (metadata_within actual expected).

(** One field of [compare!] *)
Definition compare_field {A} `{EqDecision A} (name : string) (actual expected : A) : list string :=
  if bool_decide (actual = expected) then [] else [name].
Definition compare_default (actual : ServerConfig) (name : string) : list string :=
  if vc_differs actual name then [name] else [].

Definition stream_config_mismatches (expected : StreamConfig) (actual : ServerConfig) : list string :=
  let a := vc_config actual in
  compare_field "name" (sc_name a) (sc_name expected)
  ++ compare_field "max_bytes" (sc_max_bytes a) (sc_max_bytes expected)
  ++ compare_field "max_messages" (sc_max_messages a) (sc_max_messages expected)
  ++ compare_field "max_messages_per_subject" (sc_max_messages_per_subject a) (sc_max_messages_per_subject expected)
  ++ compare_field "discard" (sc_discard a) (sc_discard expected)
  ++ compare_field "discard_new_per_subject" (sc_discard_new_per_subject a) (sc_discard_new_per_subject expected)
  ++ compare_field "subjects" (sc_subjects a) (sc_subjects expected)
  ++ compare_field "retention" (sc_retention a) (sc_retention expected)
  ++ compare_field "max_consumers" (sc_max_consumers a) (sc_max_consumers expected)
  ++ compare_field "max_age" (sc_max_age a) (sc_max_age expected)
  ++ compare_field "max_message_size" (sc_max_message_size a) (sc_max_message_size expected)
  ++ compare_field "storage" (sc_storage a) (sc_storage expected)
  ++ compare_field "num_replicas" (sc_num_replicas a) (sc_num_replicas expected)
  ++ compare_field "no_ack" (sc_no_ack a) (sc_no_ack expected)
  ++ compare_field "duplicate_window" (sc_duplicate_window a) (sc_duplicate_window expected)
  ++ concat (compare_default actual <$> ["template_owner"; "sealed"])
  ++ compare_field "description" (sc_description a) (sc_description expected)
  ++ compare_field "allow_rollup" (sc_allow_rollup a) (sc_allow_rollup expected)
  ++ compare_field "deny_delete" (sc_deny_delete a) (sc_deny_delete expected)
  ++ compare_field "deny_purge" (sc_deny_purge a) (sc_deny_purge expected)
  ++ concat (compare_default actual <$> ["republish"; "allow_direct"; "mirror_direct"; "mirror"; "sources"])
  ++ (if metadata_matches (sc_metadata expected) (sc_metadata a) then [] else ["metadata"])
  ++ concat (compare_default actual <$>
       ["subject_transform"; "compression"; "consumer_limits"; "first_sequence"; "placement"; "persist_mode";
        "pause_until"; "allow_message_ttl"; "subject_delete_marker_ttl"])
  ++ compare_field "allow_atomic_publish" (sc_allow_atomic_publish a) (sc_allow_atomic_publish expected)
  ++ concat (compare_default actual <$>
       ["allow_message_schedules"; "allow_message_counter"; "allow_batch_publish"]).

(** ** Accepting a stream *)

Definition JOURNAL_BINDING : string := "rostfrei.split.journal-incarnation".
Definition STATE_BINDING : string := "rostfrei.split.state-incarnation".

Definition set_metadata (c : StreamConfig) (metadata : gmap string string) : StreamConfig :=
  mkStreamConfig (sc_name c) (sc_subjects c) (sc_retention c) (sc_storage c) (sc_discard c) (sc_max_age c)
    (sc_max_messages c) (sc_max_messages_per_subject c) (sc_max_bytes c) (sc_max_message_size c)
    (sc_max_consumers c) (sc_no_ack c) (sc_duplicate_window c) (sc_num_replicas c) (sc_deny_delete c)
    (sc_deny_purge c) (sc_allow_rollup c) (sc_allow_atomic_publish c) (sc_discard_new_per_subject c)
    (sc_description c) metadata.
Definition set_max_message_size (c : StreamConfig) (size : Z) : StreamConfig :=
  mkStreamConfig (sc_name c) (sc_subjects c) (sc_retention c) (sc_storage c) (sc_discard c) (sc_max_age c)
    (sc_max_messages c) (sc_max_messages_per_subject c) (sc_max_bytes c) size
    (sc_max_consumers c) (sc_no_ack c) (sc_duplicate_window c) (sc_num_replicas c) (sc_deny_delete c)
    (sc_deny_purge c) (sc_allow_rollup c) (sc_allow_atomic_publish c) (sc_discard_new_per_subject c)
    (sc_description c) (sc_metadata c).

(** The bindings the stream carries, added to what is expected of it *)
Definition adopt_binding (actual metadata : gmap string string) (key : string) : gmap string string :=
  match actual !! key with Some value => <[key := value]> metadata | None => metadata end.

(** The expected configuration, relaxed by what [verify_stream_config] tolerates *)
Definition compatible_config (expected : StreamConfig) (actual : ServerConfig) : StreamConfig :=
  let metadata := sc_metadata (vc_config actual) in
  let compatible :=
    if bool_decide (sc_metadata expected = ∅) then metadata
    else adopt_binding metadata (adopt_binding metadata (sc_metadata expected) JOURNAL_BINDING) STATE_BINDING in
  let size := sc_max_message_size (vc_config actual) in
  let c := set_metadata expected compatible in
  if bool_decide (size = (-1)%Z) || (sc_max_message_size expected <? size)%Z
  then set_max_message_size c size else c.

Definition verify_stream_config (expected : StreamConfig) (actual : ServerConfig)
  : result unit EventStoreError :=
  fail! negb (bool_decide (map_Forall (λ key value, sc_metadata (vc_config actual) !! key = Some value)
                             (sc_metadata expected)))
    with configuration "existing stream does not carry the requested completed outcome epoch; legacy activation is forbidden";
  let mismatches := stream_config_mismatches (compatible_config expected actual) actual in
  fail! negb (len mismatches =? 0)
    with configuration ("existing JetStream configuration differs in: " +:+ String.concat ", " mismatches);
  Ok tt.

(** ** The authority (outcomes.rs) *)

(** The client's view of the server *)
Record ServerInfo := mkServerInfo {
  sv_compatible : N * N * N → bool;
  sv_max_payload : N;
}.

Definition MINIMUM_ATOMIC_BATCH_SERVER_VERSION : N * N * N := (2, 12, 1).

Definition validate_server_compatibility (server : ServerInfo) : result unit EventStoreError :=
  fail! negb (sv_compatible server MINIMUM_ATOMIC_BATCH_SERVER_VERSION)
    with configuration "NATS Server 2.12.1 or newer is required for cross-subject atomic event batches";
  Ok tt.

Definition validate_server_payload_capacity (server : ServerInfo) (config : NatsEventStoreConfig)
  : result unit EventStoreError :=
  let required := limit_wire_value (nc_max_event_bytes config) in
  fail! sv_max_payload server <? required
    with configuration ("NATS max_payload is " +:+ n_to_string (sv_max_payload server)
           +:+ " bytes, but the configured event-store message limit requires "
           +:+ n_to_string required +:+ " bytes");
  Ok tt.

Section Authority.
Context `{SHA : Sha256}.

(** [outcomes::authority]: [split] is the incarnation of the outcome state. *)
Definition authority_preimage (config : NatsEventStoreConfig) (journal : string) (split : option string)
  : list byte :=
  frames (map as_bytes
    [nc_stream_name config; nc_subject_prefix config; default "legacy" (nc_completed_outcome_epoch config);
     journal; default "inline" split]).
Definition nats_authority (config : NatsEventStoreConfig) (journal : string) (split : option string)
  : result CommandAuthority EventStoreError :=
  map_err (λ error, invalid (IdentityError_display error))
    (CommandAuthority_new ("nats:" +:+ hex_of_bytes (sha256 (authority_preimage config journal split)))).

(** [inspect_split_state]: [state] is the stream of the outcome state. *)
Definition inspect_split_state (config : NatsEventStoreConfig) (journal : StreamInfo) (state : GetStream)
  : result (option StreamInfo) EventStoreError :=
  if negb (nc_split_outcomes config) then Ok None
  else
    let? state := match state with
                  | StreamFound info => Ok info
                  | StreamNotFound _ => Err (configuration "outcome state authority is missing")
                  | StreamFailed error => Err (store_error Unavailable error)
                  end in
    let expected := outcome_state_config config in
    let expected := set_metadata expected (adopt_binding (si_metadata state) (sc_metadata expected) JOURNAL_BINDING) in
    let mismatches := stream_config_mismatches expected (si_config state) in
    fail! negb (len mismatches =? 0)
      with configuration ("outcome state configuration differs: " +:+ String.concat ", " mismatches);
    fail! negb (bool_decide (si_metadata journal !! STATE_BINDING = Some (si_created state)))
          || negb (bool_decide (si_metadata state !! JOURNAL_BINDING = Some (si_created journal)))
      with configuration "journal/state incarnation binding differs; authority cannot be reopened";
    Ok (Some state).

(** [connect_split]: the incarnation of the outcome state *)
Definition connect_split (config : NatsEventStoreConfig) (journal : StreamInfo) (state : GetStream)
  : result (option string) EventStoreError :=
  rmap (fmap (M := option) si_created) (inspect_split_state config journal state).

(** A connected store: what it captured of the streams *)
Record NatsEventStore := mkNatsEventStore {
  ns_config : NatsEventStoreConfig;
  ns_history_auditing : bool;
  ns_authority : CommandAuthority;
  ns_journal_incarnation : string;
  ns_split : option string;
  ns_detail_readers : option (DetailReader * option DetailReader);
}.

Definition connect (server : ServerInfo) (config : NatsEventStoreConfig) (journal state : GetStream)
  : result NatsEventStore EventStoreError :=
  let? _ := validate_server_compatibility server in
  let? _ := validate_server_payload_capacity server config in
  let? stream := match journal with
                 | StreamFound info => Ok info
                 | StreamNotFound error | StreamFailed error =>
                   Err (store_error Unavailable ("failed to get event-store stream: " +:+ error))
                 end in
  let? _ := verify_stream_config (stream_config config) (si_config stream) in
  let journal_incarnation := si_created stream in
  let? split := connect_split config stream state in
  let? authority := nats_authority config journal_incarnation split in
  Ok (mkNatsEventStore config false authority journal_incarnation split None).

(** [NatsEventStore::verify_journal] *)
Definition verify_journal (s : NatsEventStore) (journal : GetStream) : result StreamInfo EventStoreError :=
  let? stream := match journal with
                 | StreamFound info => Ok info
                 | StreamNotFound _ => Err (configuration "journal authority is missing")
                 | StreamFailed error => Err (store_error Unavailable error)
                 end in
  let? _ := verify_stream_config (stream_config (ns_config s)) (si_config stream) in
  fail! negb (String.eqb (si_created stream) (ns_journal_incarnation s))
    with configuration "journal authority was recreated";
  Ok stream.

(** [NatsEventStore::verify_authority]: the stream of the outcome state, where
    there is one *)
Definition verify_authority (s : NatsEventStore) (journal state : GetStream)
  : result (option StreamInfo) EventStoreError :=
  let? stream := verify_journal s journal in
  let? state := inspect_split_state (ns_config s) stream state in
  fail! negb (bool_decide (si_created <$> state = ns_split s))
    with configuration "outcome state authority was recreated";
  Ok state.

Definition validate_outcome_key (s : NatsEventStore) (key : OutcomeKey) : result unit EventStoreError :=
  fail! negb (bool_decide (key_authority key = ns_authority s))
        || negb (bool_decide (key_context key = nc_bounded_context (ns_config s)))
    with configuration "outcome key belongs to another configured authority";
  Ok tt.

(** ** Write guards *)

Definition require_writable_handle (s : NatsEventStore) : result unit EventStoreError :=
  fail! nc_read_only_outcomes (ns_config s)
    with configuration "event-store handle is configured replay-only";
  Ok tt.

(** The stream for a write guard *)
Definition guard_stream (what : string) (stream : GetStream) : result StreamInfo EventStoreError :=
  match stream with
  | StreamFound info => Ok info
  | StreamNotFound error | StreamFailed error => Err (store_error Unavailable (what +:+ ": " +:+ error))
  end.

Definition require_completed_outcome_writer (s : NatsEventStore) (journal state : GetStream)
  : result unit EventStoreError :=
  let? _ := require_writable_handle s in
  if nc_split_outcomes (ns_config s) then rmap (λ _, tt) (verify_authority s journal state)
  else
    let? epoch := ok_or (nc_completed_outcome_epoch (ns_config s))
      (configuration "legacy/read-only outcome namespace: import original evidence or use a fresh fenced identity epoch") in
    let? stream := guard_stream "failed to verify completed outcome epoch" journal in
    fail! negb (bool_decide (si_metadata stream !! "rostfrei.completed-outcomes.epoch" = Some epoch))
          || negb (bool_decide (si_metadata stream !! "rostfrei.completed-outcomes.version" = Some "1"))
      with configuration "durable completed outcome epoch/version differs";
    Ok tt.

(** [journal] answers the inspection, [journal'] the check that may follow. *)
Definition require_mutable_namespace (s : NatsEventStore) (journal journal' state : GetStream)
  : result unit EventStoreError :=
  let? _ := require_writable_handle s in
  if is_some (nc_completed_outcome_epoch (ns_config s)) then require_completed_outcome_writer s journal state
  else
    let? stream := guard_stream "failed to inspect write namespace" journal in
    if is_some (si_metadata stream !! "rostfrei.completed-outcomes.epoch")
    then require_completed_outcome_writer s journal' state
    else Ok tt.

Definition validate_completed_scope (s : NatsEventStore) (t : EventTransaction) : result unit EventStoreError :=
  let expected := application_str (nc_application (ns_config s)) +:+ ":"
                  +:+ default "normal" (subject_segment (nc_traffic_scope (ns_config s))) in
  fail! is_some_and (λ scope, negb (String.eqb scope expected))
          ((tx_completion t ≫= completion_evidence) ≫= authority_scope)
    with configuration "completed evidence belongs to another application/traffic authority";
  Ok tt.
End Authority.

(** ** What a verified stream is *)

Lemma compare_field_nil {A} `{EqDecision A} name (a b : A) : compare_field name a b = [] ↔ a = b.
Proof. unfold compare_field. case_bool_decide; naive_solver. Qed.

Lemma compare_default_nil actual names :
  concat (compare_default actual <$> names) = [] ↔ Forall (λ name, vc_differs actual name = false) names.
Proof.
  induction names as [|n names IH]; [by split|]. cbn [fmap list_fmap concat]. rewrite app_nil, IH, Forall_cons.
  unfold compare_default. destruct (vc_differs actual n); naive_solver.
Qed.

Definition default_fields : list string :=
  ["template_owner"; "sealed"; "republish"; "allow_direct"; "mirror_direct"; "mirror"; "sources";
   "subject_transform"; "compression"; "consumer_limits"; "first_sequence"; "placement"; "persist_mode";
   "pause_until"; "allow_message_ttl"; "subject_delete_marker_ttl"; "allow_message_schedules";
   "allow_message_counter"; "allow_batch_publish"].

(** Every field as expected, the metadata up to what the server adds *)
Record same_policy (expected : StreamConfig) (actual : ServerConfig) : Prop := {
  sp_fields : vc_config actual = set_metadata expected (sc_metadata (vc_config actual));
  sp_metadata : metadata_within (sc_metadata expected) (sc_metadata (vc_config actual))
    ∧ metadata_within (sc_metadata (vc_config actual)) (sc_metadata expected);
  sp_default : Forall (λ name, vc_differs actual name = false) default_fields;
}.

Lemma metadata_matches_true a b : metadata_matches a b = true ↔ metadata_within a b ∧ metadata_within b a.
Proof. unfold metadata_matches. by rewrite andb_true_iff, !bool_decide_eq_true. Qed.

Lemma stream_config_mismatches_nil expected actual :
  stream_config_mismatches expected actual = [] ↔ same_policy expected actual.
Proof.
  unfold stream_config_mismatches. rewrite !app_nil, !compare_field_nil, !compare_default_nil.
  assert ((if metadata_matches (sc_metadata expected) (sc_metadata (vc_config actual)) then [] else ["metadata"]) = []
    ↔ metadata_matches (sc_metadata expected) (sc_metadata (vc_config actual)) = true) as ->
    by (destruct (metadata_matches _ _); naive_solver).
  rewrite metadata_matches_true. destruct actual as [[] differs], expected; cbn. split.
  - intros H. split; cbn; [|tauto|unfold default_fields; rewrite !Forall_cons in *; tauto].
    destruct H as (? & ? & ? & ? & ? & ? & ? & ? & ? & ? & ? & ? & ? & ? & ? & _ & ? & ? & ? & ? & _ & _ & _ & ? & _).
    unfold set_metadata; cbn. f_equal; assumption.
  - intros [[= -> -> -> -> -> -> -> -> -> -> -> -> -> -> -> -> -> -> -> ->] Hm Hd]. cbn in *.
    unfold default_fields in Hd. rewrite !Forall_cons in *. split_and!; first [done|tauto].
Qed.

(** A stream [verify_stream_config] accepts: the expected policy, where a larger
    message limit is tolerated, metadata beyond the server's and the bindings
    only where none is expected *)
Record stream_accepted (expected : StreamConfig) (actual : ServerConfig) : Prop := {
  sa_fields : vc_config actual
    = set_max_message_size (set_metadata expected (sc_metadata (vc_config actual)))
        (sc_max_message_size (vc_config actual));
  sa_size : sc_max_message_size (vc_config actual) = (-1)%Z
    ∨ (sc_max_message_size expected <= sc_max_message_size (vc_config actual))%Z;
  sa_metadata : sc_metadata expected ⊆ sc_metadata (vc_config actual);
  sa_extra : sc_metadata expected ≠ ∅ → ∀ key value, sc_metadata (vc_config actual) !! key = Some value →
    is_server_metadata key = true ∨ key = JOURNAL_BINDING ∨ key = STATE_BINDING
    ∨ sc_metadata expected !! key = Some value;
  sa_default : Forall (λ name, vc_differs actual name = false) default_fields;
}.

Lemma adopt_binding_lookup actual m key k :
  adopt_binding actual m key !! k
  = if decide (k = key) then match actual !! key with Some v => Some v | None => m !! k end else m !! k.
Proof.
  unfold adopt_binding. case_decide as E.
  - subst. destruct (actual !! key) as [v|]; [apply lookup_insert_eq|done].
  - destruct (actual !! key); [by rewrite lookup_insert_ne|done].
Qed.

Lemma adopt_subseteq actual m key : m ⊆ actual → adopt_binding actual m key ⊆ actual.
Proof.
  intros H. apply map_subseteq_spec. intros k v. rewrite adopt_binding_lookup. case_decide as E.
  - subst. destruct (actual !! key) eqn:Ea; [done|]. intros Hk. by apply (lookup_weaken _ _ _ _ Hk) in H; congruence.
  - intros Hk. by eapply lookup_weaken.
Qed.

Lemma adopted_within (expected actual : gmap string string) :
  expected ⊆ actual →
  let m := adopt_binding actual (adopt_binding actual expected JOURNAL_BINDING) STATE_BINDING in
  metadata_within m actual
  ∧ (metadata_within actual m ↔ ∀ key value, actual !! key = Some value →
       is_server_metadata key = true ∨ key = JOURNAL_BINDING ∨ key = STATE_BINDING
       ∨ expected !! key = Some value).
Proof.
  intros Hs m. unfold metadata_within, map_Forall. split.
  - intros k v H. right. eapply lookup_weaken; [exact H|]. by apply adopt_subseteq, adopt_subseteq.
  - split.
    + intros H k v Hk. destruct (H k v Hk) as [?|Hm]; [by left|]. unfold m in Hm.
      rewrite !adopt_binding_lookup in Hm. repeat case_decide; subst; auto.
    + intros H k v Hk. destruct (H k v Hk) as [?|[->|[->|He]]]; [by left|right..]; unfold m;
        rewrite !adopt_binding_lookup; repeat case_decide; subst; rewrite ?Hk; try done.
Qed.

Lemma len_nil_bool {A} (l : list A) : negb (len l =? 0) = false ↔ l = [].
Proof. rewrite negb_false_iff, N.eqb_eq. apply len_0. Qed.

Lemma compatible_metadata expected actual :
  sc_metadata expected ⊆ sc_metadata (vc_config actual) →
  (metadata_within (sc_metadata (compatible_config expected actual)) (sc_metadata (vc_config actual))
   ∧ metadata_within (sc_metadata (vc_config actual)) (sc_metadata (compatible_config expected actual)))
  ↔ (sc_metadata expected ≠ ∅ → ∀ key value, sc_metadata (vc_config actual) !! key = Some value →
    is_server_metadata key = true ∨ key = JOURNAL_BINDING ∨ key = STATE_BINDING
    ∨ sc_metadata expected !! key = Some value).
Proof.
  intros Hs. destruct (adopted_within _ _ Hs) as [H1 H2].
  assert (sc_metadata (compatible_config expected actual)
    = if bool_decide (sc_metadata expected = ∅) then sc_metadata (vc_config actual)
      else adopt_binding (sc_metadata (vc_config actual))
        (adopt_binding (sc_metadata (vc_config actual)) (sc_metadata expected) JOURNAL_BINDING) STATE_BINDING) as ->.
  { unfold compatible_config. by destruct (_ || _). }
  case_bool_decide as E; [|by rewrite H2; naive_solver].
  split; [by intros _ ?|]. intros _. split; intros k v Hk; by right.
Qed.

Lemma compatible_fields expected actual :
  vc_config actual = set_metadata (compatible_config expected actual) (sc_metadata (vc_config actual))
  ↔ vc_config actual
      = set_max_message_size (set_metadata expected (sc_metadata (vc_config actual)))
          (sc_max_message_size (vc_config actual))
    ∧ (sc_max_message_size (vc_config actual) = (-1)%Z
       ∨ (sc_max_message_size expected <= sc_max_message_size (vc_config actual))%Z).
Proof.
  unfold compatible_config. set (m := if bool_decide _ then _ else _). clearbody m.
  destruct (bool_decide (sc_max_message_size (vc_config actual) = (-1)%Z)
            || (sc_max_message_size expected <? sc_max_message_size (vc_config actual))%Z) eqn:Et.
  - assert (set_metadata (set_max_message_size (set_metadata expected m) (sc_max_message_size (vc_config actual)))
      (sc_metadata (vc_config actual)) = set_max_message_size (set_metadata expected (sc_metadata (vc_config actual)))
          (sc_max_message_size (vc_config actual))) as -> by (by destruct expected).
    split; [|by intros []]. intros H. split; [done|].
    apply orb_true_iff in Et as [Et|Et]; [left; by apply bool_decide_eq_true in Et|right; lia].
  - apply orb_false_iff in Et as [Ene%bool_decide_eq_false Et].
    assert (set_metadata (set_metadata expected m) (sc_metadata (vc_config actual))
      = set_metadata expected (sc_metadata (vc_config actual))) as -> by (by destruct expected).
    destruct actual as [c d], c, expected. cbn in *. unfold set_metadata, set_max_message_size; cbn. split.
    + intros [= -> -> -> -> -> -> -> -> -> -> -> -> -> -> -> -> -> -> -> ->]. split; [done|right; lia].
    + intros [[= -> -> -> -> -> -> -> -> -> -> -> -> -> -> -> -> -> -> ->] [?|?]]; [done|]. f_equal. lia.
Qed.

Lemma verify_stream_config_accepted expected actual :
  verify_stream_config expected actual = Ok tt ↔ stream_accepted expected actual.
Proof.
  unfold verify_stream_config.
  assert (map_Forall (λ key value, sc_metadata (vc_config actual) !! key = Some value) (sc_metadata expected)
    ↔ sc_metadata expected ⊆ sc_metadata (vc_config actual)) as Hsub by (symmetry; apply map_subseteq_spec).
  case_bool_decide as Hm; rewrite Hsub in Hm; cbn [negb]; [|split; [done|by intros []]].
  rewrite check_Ok, len_nil_bool, stream_config_mismatches_nil. split.
  - intros [[Hf Hmd Hd] _]. apply compatible_fields in Hf as [Hf Hz]. pose proof (proj1 (compatible_metadata _ _ Hm) Hmd) as Hx. by split.
  - intros [Hf Hz _ Hx Hd]. split; [|done]. split; [by apply compatible_fields|by apply compatible_metadata|done].
Qed.

(** A stream is accepted as the event store's exactly when its
    policy is the configured one in every field - retention, storage, limits,
    subjects, deletion and purging denied, atomic publishing allowed - but for a
    larger message limit, its metadata carries the configured outcome epoch, and
    where an epoch is configured it carries nothing else of its own but the
    bindings. *)
Theorem verify_stream_config_spec expected actual :
  verify_stream_config expected actual = Ok tt ↔ stream_accepted expected actual.
Proof.
  apply verify_stream_config_accepted.
Qed.

(** ** The authority of a store *)

Section Identity.
Context `{SHA : Sha256}.

(** The authority determines the journal it names: two stores share
    one only if they have the same stream, subjects, outcome epoch and stream
    incarnations, unless SHA-256 collides on their descriptions. *)
Theorem authority_unique c1 j1 s1 c2 j2 s2 a :
  let parts c j s := [nc_stream_name c; nc_subject_prefix c; default "legacy" (nc_completed_outcome_epoch c);
                      j; default "inline" s] in
  Forall (λ p, str_len p <= u64_max) (parts c1 j1 s1) → Forall (λ p, str_len p <= u64_max) (parts c2 j2 s2) →
  no_collision (authority_preimage c1 j1 s1) (authority_preimage c2 j2 s2) →
  nats_authority c1 j1 s1 = Ok a → nats_authority c2 j2 s2 = Ok a →
  parts c1 j1 s1 = parts c2 j2 s2.
Proof.
  intros parts F1 F2 Hc H1 H2. apply map_err_Ok in H1, H2. unfold CommandAuthority_new in H1, H2.
  apply rbind_Ok in H1 as (? & _ & [= <-]), H2 as (? & _ & [= E]).
  apply hex_of_bytes_inj in E. symmetry in E. apply Hc in E. unfold authority_preimage in E.
  apply frames_inj in E.
  - change (as_bytes <$> parts c1 j1 s1 = as_bytes <$> parts c2 j2 s2) in E.
    unfold parts in E |- *. cbn [fmap list_fmap] in E.
    injection E as E1%as_bytes_inj E2%as_bytes_inj E3%as_bytes_inj E4%as_bytes_inj E5%as_bytes_inj. by rewrite E1, E2, E3, E4, E5.
  - eapply Forall_fmap, Forall_impl; [exact F1|]. intros p. unfold compose, framable. by rewrite len_as_bytes.
  - eapply Forall_fmap, Forall_impl; [exact F2|]. intros p. unfold compose, framable. by rewrite len_as_bytes.
Qed.

(** The outcome state a split store is bound to *)
Record bound_state (config : NatsEventStoreConfig) (journal state : StreamInfo) : Prop := {
  bs_policy : same_policy
    (set_metadata (outcome_state_config config)
       (adopt_binding (si_metadata state) (sc_metadata (outcome_state_config config)) JOURNAL_BINDING))
    (si_config state);
  bs_state : si_metadata journal !! STATE_BINDING = Some (si_created state);
  bs_journal : si_metadata state !! JOURNAL_BINDING = Some (si_created journal);
}.

Lemma inspect_split_state_Ok config journal state r :
  inspect_split_state config journal state = Ok r →
  match r with
  | Some info => nc_split_outcomes config = true ∧ state = StreamFound info ∧ bound_state config journal info
  | None => nc_split_outcomes config = false
  end.
Proof.
  unfold inspect_split_state. destruct (nc_split_outcomes config); cbn [negb]; [|by intros [= <-]].
  destruct state as [info|?|?]; cbn [rbind]; [|done..].
  destruct (negb (len _ =? 0)) eqn:El; [done|]. apply len_nil_bool, stream_config_mismatches_nil in El.
  destruct (_ || _) eqn:Eb; [done|]. intros [= <-].
  apply orb_false_iff in Eb as [E1%negb_false_iff%bool_decide_eq_true E2%negb_false_iff%bool_decide_eq_true].
  split_and!; [done..|]. by split.
Qed.

(** A connected store stays with the streams it was connected to:
    whenever its authority is verified, the journal is the very incarnation the
    connection found, still with the accepted policy, and a split store's
    outcome state is the incarnation it found, bound to that journal in both
    directions. A recreated stream is never verified. *)
Theorem verified_authority_is_connected server config journal state s journal' state' r :
  connect server config journal state = Ok s →
  verify_authority s journal' state' = Ok r →
  ∃ found info, journal = StreamFound found ∧ journal' = StreamFound info ∧ si_created info = si_created found
    ∧ stream_accepted (stream_config config) (si_config info)
    ∧ match r with
      | Some st => nc_split_outcomes config = true ∧ state' = StreamFound st ∧ bound_state config info st
          ∧ ∃ st0, state = StreamFound st0 ∧ si_created st = si_created st0
      | None => nc_split_outcomes config = false
      end.
Proof.
  unfold connect, verify_authority, verify_journal. intros Hc Hv.
  apply rbind_Ok in Hc as (? & _ & Hc). apply rbind_Ok in Hc as (? & _ & Hc).
  apply rbind_Ok in Hc as (found & Hj & Hc). apply rbind_Ok in Hc as ([] & _ & Hc).
  apply rbind_Ok in Hc as (split & Hs & Hc). apply rbind_Ok in Hc as (a & _ & [= <-]).
  cbn [ns_config ns_journal_incarnation ns_split] in Hv.
  apply rbind_Ok in Hv as (info & Hv & Hr). apply rbind_Ok in Hv as (info' & Hj' & Hv).
  apply rbind_Ok in Hv as ([] & Hpol & Hv). apply verify_stream_config_accepted in Hpol.
  destruct (String.eqb_spec (si_created info') (si_created found)) as [Hcr|]; [|done]. injection Hv as <-.
  destruct journal as [i|?|?]; [|done..]. injection Hj as <-. destruct journal' as [i'|?|?]; [|done..]. injection Hj' as <-.
  apply rbind_Ok in Hr as (st & Hi & Hr). apply inspect_split_state_Ok in Hi.
  destruct (bool_decide (si_created <$> st = split)) eqn:Hx; [|done]. apply bool_decide_eq_true in Hx. injection Hr as <-.
  exists i, i'. split_and!; try done. destruct st as [st|]; [|done]. destruct Hi as (Hsp & Hst & Hb). split_and!; try done.
  unfold connect_split in Hs. apply rmap_Ok in Hs as (st0 & Hi0 & Es). apply inspect_split_state_Ok in Hi0.
  subst split. destruct st0 as [st0|]; [|done]. destruct Hi0 as (_ & -> & _). exists st0. split; [done|]. by injection Hx.
Qed.
End Identity.
