(* ===== verification/Memory.v ===== *)
(** * Memory: the in-memory event store - journal, transactions, permanent
    markers, detail lifecycle - as operations on an explicit state
    (crates/rostfrei-core/src/memory.rs).

    Every critical section of the shared [Mutex<State>] is one function of the
    state. An operation that locks several times takes one state per lock, so
    the states other callers leave in between are arguments of it. *)

From S2P Require Export OutcomeFacts.

(** ** State *)

Inductive AppendProvenance := Direct | ByTransaction.

#[global] Instance AppendProvenance_eq_dec : EqDecision AppendProvenance.
Proof. solve_decision. Defined.

Record StoredAppend := mkStoredAppend {
  sa_batch : EventBatch;
  sa_events : list RecordedEvent;
  sa_provenance : AppendProvenance;
}.

Inductive StoredTransaction :=
| Scoped (marker : OutcomeMarker)
| Unscoped (proposal : ProposalDigest) (receipt : TransactionReceipt).

#[global] Instance StoredTransaction_eq_dec : EqDecision StoredTransaction.
Proof. solve_decision. Defined.

Definition stored_proposal (t : StoredTransaction) : ProposalDigest :=
  match t with Scoped marker => mk_proposal marker | Unscoped proposal _ => proposal end.

(** [StoredTransaction::acceptance] *)
Definition acceptance (t : StoredTransaction) : result TransactionReceipt EventStoreError :=
  match t with
  | Scoped marker =>
    if bool_decide (marker_decision marker = Rejected)
    then Err (identity_conflict "operation has a completed rejection, not acceptance")
    else Ok (mk_integrity marker)
  | Unscoped _ receipt => Ok receipt
  end.

Inductive DetailState := Active (bytes : list byte) | DetailExpired.

Record State := mkState {
  streams : gmap StreamId (list RecordedEvent);
  operations : gmap (StreamId * OperationId) StoredAppend;
  commits : gmap (StreamId * CommitId) OperationId;
  event_ids : gset (StreamId * EventId);
  transactions : gmap (option BoundedContextName * OperationId) StoredTransaction;
  details : gmap OutcomeDetailReference DetailState;
  event_count : N;
}.

Definition State_default : State := mkState ∅ ∅ ∅ ∅ ∅ ∅ 0.

(** The store's own fields; the detail readers may read the shared state. *)
Record InMemoryEventStore := mkStore {
  ims_authority : CommandAuthority;
  ims_hot : State → DetailReader;
  ims_cold : option (State → DetailReader);
  ims_maximum_events : N;
  ims_maximum_outcomes : N;
}.

(** [MemoryDetails::get] *)
Definition memory_details (s : State) : DetailReader := λ reference,
  Ok match details s !! reference with
     | Some (Active bytes) => Found bytes
     | Some DetailExpired | None => AbsentHere
     end.

(** [InMemoryEventStore::new]; the counter and the process are the system's. *)
Definition InMemoryEventStore_new (process incarnation : N) : InMemoryEventStore :=
  mkStore (CommandAuthority_memory process incarnation) memory_details None usize_max usize_max.
Definition with_capacity (process incarnation maximum_events : N) : InMemoryEventStore :=
  let st := InMemoryEventStore_new process incarnation in
  mkStore (ims_authority st) (ims_hot st) (ims_cold st) maximum_events (ims_maximum_outcomes st).
Definition with_detail_readers (st : InMemoryEventStore) (hot : State → DetailReader)
    (cold : option (State → DetailReader)) : InMemoryEventStore :=
  mkStore (ims_authority st) hot cold (ims_maximum_events st) (ims_maximum_outcomes st).
Definition with_outcome_capacity (st : InMemoryEventStore) (maximum_outcomes : N)
  : InMemoryEventStore :=
  mkStore (ims_authority st) (ims_hot st) (ims_cold st) (ims_maximum_events st) maximum_outcomes.

(** [EventHistory::load] *)
Definition load (s : State) (stream : StreamId) : list RecordedEvent :=
  default [] (streams s !! stream).

(** [list_streams]: the summaries of one aggregate type, by aggregate id *)
Definition summary_le (a b : StreamSummary) : Prop :=
  String.leb (ident_str (aggregate_id (ss_stream_id a))) (ident_str (aggregate_id (ss_stream_id b)))
  = true.
#[global] Instance summary_le_dec a b : Decision (summary_le a b).
Proof. unfold summary_le. apply _. Defined.
Definition list_streams (s : State) (type : AggregateType) : list StreamSummary :=
  merge_sort summary_le
    (omap (λ p, (λ e, mkStreamSummary p.1 (re_stream_version e)) <$> last p.2)
       (filter (λ p, aggregate_type p.1 = type) (map_to_list (streams s)))).

Definition current_version (s : State) (stream : StreamId) : StreamVersion :=
  from_option re_stream_version version_zero (streams s !! stream ≫= last).

(** [{current_version:?}] *)
Definition StreamVersion_debug (v : StreamVersion) : string :=
  "StreamVersion(" +:+ n_to_string (version_value v) +:+ ")".

Definition validate_expected_version (expected : ExpectedVersion) (current : StreamVersion)
  : result unit EventStoreError :=
  let conflict := store_error Conflict
    ("expected version does not match current version " +:+ StreamVersion_debug current) in
  match expected with
  | NoStream => if bool_decide (current = version_zero) then Ok tt else Err conflict
  | Exact version =>
    if bool_decide (version = version_zero)
    then Err (invalid
      "Exact requires a non-zero stream version; use NoStream for an absent stream")
    else if bool_decide (version = current) then Ok tt else Err conflict
  end.

Section Memory.
Context `{SHA : Sha256} `{OJ : OutcomeJson}.

Definition validate_derived_identities (stream : StreamId) (batch : EventBatch)
  : result unit EventStoreError :=
  fail! negb (bool_decide (eb_commit_id batch = derive_commit_id stream (eb_operation_id batch)))
    with invalid "commit identity was not derived from the stream and operation identity";
  let? _ := try_map (λ p,
      let? ordinal := ok_or (try_from u32_max p.1)
        (invalid "event ordinal exceeds the supported range") in
      fail! negb (bool_decide (ne_event_id p.2 = derive_event_id (eb_commit_id batch) ordinal))
        with invalid "event identity was not derived from its commit identity and ordinal";
      Ok tt) (enumerate (eb_events batch)) in
  Ok tt.

(** [record_batch]: the loop carries the version and the recorded events. *)
Definition record_event (stream : StreamId) (batch : EventBatch) (event_count : N)
    (acc : StreamVersion * list RecordedEvent) (p : N * NewEvent)
  : result (StreamVersion * list RecordedEvent) EventStoreError :=
  let? next_version := ok_or (version_next acc.1)
    (store_error CapacityExhausted "stream version space is exhausted") in
  let? ordinal := ok_or (try_from u32_max p.1)
    (invalid "event ordinal exceeds the supported range") in
  Ok (next_version, acc.2 ++ [from_new stream next_version batch ordinal event_count p.2]).
Definition record_batch (stream : StreamId) (current : StreamVersion) (batch : EventBatch)
  : result (list RecordedEvent) EventStoreError :=
  let? event_count := ok_or (try_from u32_max (len (eb_events batch)))
    (invalid "event count exceeds the supported range") in
  rmap snd (try_fold (record_event stream batch event_count) (current, [])
              (enumerate (eb_events batch))).

(** The new event count, when it fits the capacity *)
Definition reserve_events (st : InMemoryEventStore) (s : State) (added : N)
  : result N EventStoreError :=
  ok_or (checked_add usize_max (event_count s) added
           ≫= λ count, if count <=? ims_maximum_events st then Some count else None)
    (store_error CapacityExhausted "in-memory event capacity would be exceeded").

Definition reused_event_id (s : State) (stream : StreamId) (batch : EventBatch) : bool :=
  existsb (λ e, bool_decide ((stream, ne_event_id e) ∈ event_ids s)) (eb_events batch).

(** The journal writes of one batch: commit, event identities, operation and
    the stream itself *)
Definition write_batch (stream : StreamId) (batch : EventBatch) (events : list RecordedEvent)
    (provenance : AppendProvenance) (s : State) : State :=
  {| streams := <[stream := load s stream ++ events]> (streams s);
     operations := <[(stream, eb_operation_id batch) :=
                       mkStoredAppend batch events provenance]> (operations s);
     commits := <[(stream, eb_commit_id batch) := eb_operation_id batch]> (commits s);
     event_ids := event_ids s ∪ list_to_set ((λ e, (stream, ne_event_id e)) <$> eb_events batch);
     transactions := transactions s; details := details s; event_count := event_count s |}.

Definition set_event_count (n : N) (s : State) : State :=
  mkState (streams s) (operations s) (commits s) (event_ids s) (transactions s) (details s) n.

(** [EventStore::append] *)
Definition append (st : InMemoryEventStore) (s : State) (stream : StreamId)
    (expected : ExpectedVersion) (batch : EventBatch)
  : result (AppendOutcome * State) EventStoreError :=
  match operations s !! (stream, eb_operation_id batch) with
  | Some previous =>
    if bool_decide (sa_provenance previous = Direct) && bool_decide (sa_batch previous = batch)
    then Ok (ExactReplay (sa_events previous), s)
    else if bool_decide (sa_provenance previous = ByTransaction)
    then Err (identity_conflict "operation identity was already used by an event transaction")
    else Err (identity_conflict "operation identity was reused with different content")
  | None =>
    fail! is_some (commits s !! (stream, eb_commit_id batch))
      with identity_conflict "commit identity was reused with different content";
    fail! reused_event_id s stream batch
      with identity_conflict "event identity was reused with different content";
    let? _ := validate_derived_identities stream batch in
    let current := current_version s stream in
    let? _ := validate_expected_version expected current in
    let? new_count := reserve_events st s (len (eb_events batch)) in
    let? recorded := record_batch stream current batch in
    Ok (Appended recorded,
        set_event_count new_count (write_batch stream batch recorded Direct s))
  end.

(** The participant checks of [validate_transaction], with the streams seen *)
Definition validate_participant (s : State) (t : EventTransaction) (seen : gset StreamId)
    (p : TransactionParticipant) : result (gset StreamId) EventStoreError :=
  let stream := tp_stream_id p in
  fail! bool_decide (stream ∈ seen)
    with invalid "an event transaction must not contain duplicate streams";
  let seen := {[ stream ]} ∪ seen in
  match tp_batch p with
  | None => Ok seen
  | Some batch =>
    fail! negb (bool_decide (eb_operation_id batch = tx_operation_id t))
          || negb (bool_decide (eb_operation_fingerprint batch = tx_operation_fingerprint t))
          || negb (bool_decide (eb_correlation_id batch = tx_correlation_id t))
          || negb (bool_decide (eb_causation_id batch = tx_causation_id t))
          || negb (bool_decide (eb_actor batch = tx_actor t))
      with invalid "participant commit metadata does not match its transaction";
    let? _ := validate_derived_identities stream batch in
    match operations s !! (stream, eb_operation_id batch) with
    | Some previous =>
      Err (identity_conflict
        match sa_provenance previous with
        | Direct => "operation identity was already used outside an event transaction"
        | ByTransaction => "operation identity was already used by another event transaction"
        end)
    | None =>
      fail! is_some (commits s !! (stream, eb_commit_id batch))
        with identity_conflict "commit identity was reused with different content";
      fail! reused_event_id s stream batch
        with identity_conflict "event identity was reused with different content";
      Ok seen
    end
  end.

Definition validate_transaction (s : State) (t : EventTransaction) : result unit EventStoreError :=
  let? _ := try_fold (validate_participant s t) ∅ (tx_participants t) in
  let? _ := try_map (λ p, validate_expected_version (tp_expected_version p)
                            (current_version s (tp_stream_id p))) (tx_participants t) in
  Ok tt.

(** A staged participant: its base version and its recorded events *)
Definition Staged : Type := TransactionParticipant * StreamVersion * list RecordedEvent.

Definition stage (s : State) (p : TransactionParticipant) : result Staged EventStoreError :=
  let base := current_version s (tp_stream_id p) in
  let? recorded := transpose (record_batch (tp_stream_id p) base <$> tp_batch p) in
  Ok (p, base, default [] recorded).

Definition staged_receipt (t : EventTransaction) (staged : list Staged) : TransactionReceipt :=
  let receipt := TransactionReceipt_new (tx_operation_id t) (tx_operation_fingerprint t)
    (map (λ '(p, base, events), mkStreamReceipt (tp_stream_id p) base events) staged) in
  let receipt := from_option (tr_with_bounded_context receipt) receipt (tx_bounded_context t) in
  let receipt := from_option (tr_with_correlation_id receipt) receipt (tx_correlation_id t) in
  let receipt := from_option (tr_with_causation_id receipt) receipt (tx_causation_id t) in
  let receipt := from_option (tr_with_security_scope receipt) receipt (tx_security_scope t) in
  from_option (tr_with_actor receipt) receipt (tx_actor t).

Definition write_staged (s : State) (staged : Staged) : State :=
  let '(p, _, events) := staged in
  match tp_batch p with
  | None => s
  | Some batch => write_batch (tp_stream_id p) batch events ByTransaction s
  end.

Definition insert_detail (detail : option (OutcomeDetailReference * DetailState))
    (ds : gmap OutcomeDetailReference DetailState) : gmap OutcomeDetailReference DetailState :=
  match detail with Some (reference, d) => <[reference := d]> ds | None => ds end.

(** What is stored for a receipt: a marker with its details in a context, the
    receipt itself without one *)
Definition store_receipt (st : InMemoryEventStore) (t : EventTransaction)
    (proposal : ProposalDigest) (receipt : TransactionReceipt)
  : result (StoredTransaction * option (OutcomeDetailReference * DetailState)) EventStoreError :=
  match tx_bounded_context t with
  | Some _ =>
    let? (marker, bytes) := prepare (ims_authority st) t receipt in
    Ok (Scoped marker, Some (mk_reference marker, Active bytes))
  | None => Ok (Unscoped proposal receipt, None)
  end.

Definition append_transaction_inner (st : InMemoryEventStore) (s : State) (t : EventTransaction)
  : result (StoredTransaction * bool * State) EventStoreError :=
  let? total_events := validate_transaction_item_limit t in
  let? proposal := proposal_of t in
  let key := (tx_bounded_context t, tx_operation_id t) in
  match transactions s !! key with
  | Some previous =>
    if bool_decide (stored_proposal previous = proposal) then Ok (previous, true, s)
    else Err (identity_conflict "transaction identity was reused with different content")
  | None =>
    fail! ims_maximum_outcomes st <=? N.of_nat (size (transactions s))
      with store_error CapacityExhausted "in-memory completed outcome capacity exhausted";
    let? _ := validate_transaction s t in
    let? new_count := reserve_events st s total_events in
    let? staged := try_map (stage s) (tx_participants t) in
    let? (stored, detail) := store_receipt st t proposal (staged_receipt t staged) in
    let s' := foldl write_staged s staged in
    Ok (stored, false,
        {| streams := streams s'; operations := operations s'; commits := commits s';
           event_ids := event_ids s';
           transactions := <[key := stored]> (transactions s');
           details := insert_detail detail (details s'); event_count := new_count |})
  end.

(** [EventStore::append_transaction]: the state is written before the
    acceptance is read off what was stored. *)
Definition append_transaction (st : InMemoryEventStore) (s : State) (t : EventTransaction)
  : State * result TransactionAppendOutcome EventStoreError :=
  if is_some (tx_completion t)
  then (s, Err (invalid "use commit_outcome for completed decisions"))
  else match append_transaction_inner st s t with
       | Err e => (s, Err e)
       | Ok (stored, replay, s') =>
         (s', let? receipt := acceptance stored in
              Ok (if replay then TxExactReplay receipt else TxAppended receipt))
       end.

(** [load_transaction_receipt] without a context, and in one *)
Definition load_receipt (s : State) (context : option BoundedContextName) (operation : OperationId)
  : result (option TransactionReceipt) EventStoreError :=
  transpose (acceptance <$> transactions s !! (context, operation)).
Definition load_transaction_receipt (s : State) (operation : OperationId) :=
  load_receipt s None operation.
Definition load_transaction_receipt_in_context (s : State) (context : BoundedContextName)
    (operation : OperationId) := load_receipt s (Some context) operation.

(** ** Outcomes *)

Definition validate_authority (st : InMemoryEventStore) (key : OutcomeKey)
  : result unit EventStoreError :=
  fail! negb (bool_decide (key_authority key = ims_authority st))
    with store_error ConfigurationMismatch "outcome key belongs to another authority";
  Ok tt.

(** [Debug] of an archive reference quotes its text with the escapes of the
    standard library's tables, which are a parameter. *)
Context (debug_str : string → string).

Definition OutcomeRecoveryError_display (e : OutcomeRecoveryError) : string :=
  match e with
  | IntegrityMismatch =>
    "completed outcome details do not match the immutable winning reference"
  | RecoveryExpired => "completed outcome details expired"
  | RecoveryArchived reference =>
    "completed outcome is archived at ArchiveReference(" +:+ debug_str (archive_str reference) +:+ ")"
  | RecoveryUnavailable MissingDetails =>
    "completed outcome details unavailable: MissingDetails"
  | RecoveryUnavailable BackendUnavailable =>
    "completed outcome details unavailable: BackendUnavailable"
  end.

Definition recovery_error (e : OutcomeRecoveryError) : EventStoreError :=
  in_outcome_recovery (store_error
    match e with
    | IntegrityMismatch => CorruptHistory
    | RecoveryExpired => CompletedDetailsExpired
    | RecoveryArchived _ | RecoveryUnavailable _ => CompletedDetailsUnavailable
    end (OutcomeRecoveryError_display e)).

(** The states of the three locks of [resolve_marker]: the lifecycle check, the
    hot read and the cold read *)
Record Views := mkViews { v_life : State; v_hot : State; v_cold : State }.
Definition quiet (s : State) : Views := mkViews s s s.

Definition resolve_marker (st : InMemoryEventStore) (v : Views) (marker : OutcomeMarker)
  : result (CompletedOutcome EncodedOutcomeDetails) EventStoreError :=
  match details (v_life v) !! mk_reference marker with
  | None => Err (corrupt "completed outcome lifecycle authority is missing")
  | Some lifecycle =>
    let? resolved :=
      match lifecycle with
      | DetailExpired => Ok Expired
      | Active _ =>
        resolve_details (mk_reference marker) (ims_hot st (v_hot v))
          ((λ cold : State → DetailReader, cold (v_cold v)) <$> ims_cold st)
      end in
    map_err recovery_error (CompletedOutcome_new marker resolved)
  end.

(** [lookup_outcome]: the transaction is read in [s0], the marker resolved after. *)
Definition lookup_outcome (st : InMemoryEventStore) (s0 : State) (v : Views) (key : OutcomeKey)
  : result (OutcomeLookup EncodedOutcomeDetails) EventStoreError :=
  let? _ := validate_authority st key in
  match transactions s0 !! (Some (key_context key), key_operation key) with
  | None => Ok Missing
  | Some (Scoped marker) =>
    rmap Completed (map_err in_outcome_recovery (resolve_marker st v marker))
  | Some (Unscoped _ _) => Err (corrupt "scoped outcome has no marker")
  end.

(** [CommandCommitSession::commit_outcome]: the append is one critical section
    of [s]; [between] is what the other callers leave of the state it writes at
    the later locks. *)
Definition commit_outcome (st : InMemoryEventStore) (between : State → Views) (s : State)
    (proposal : EventTransaction) : State * result CompletedCommit EventStoreError :=
  match validate_completed_transaction proposal with
  | Err e => (s, Err e)
  | Ok _ =>
    match append_transaction_inner st s proposal with
    | Err e => (s, Err e)
    | Ok (Unscoped _ _, _, s') => (s', Err (invalid "completed command requires scoped marker"))
    | Ok (Scoped marker, replay, s') =>
      (s', let? outcome := map_err in_outcome_recovery (resolve_marker st (between s') marker) in
           Ok (if replay then CommitExactReplay outcome else CommitAppended outcome))
    end
  end.

(** [EventStore::commit_outcome] and [load_completed_outcome_in_context] *)
Definition commit_inline (st : InMemoryEventStore) (between : State → Views) (s : State)
    (t : EventTransaction) : State * result CompletedAppendOutcome EventStoreError :=
  let (s', committed) := commit_outcome st between s t in
  (s', let? c := committed in
       let? inline := map_err recovery_error (to_inline (commit_outcome_of c)) in
       Ok (if commit_is_exact_replay c then CompletedExactReplay inline
           else CompletedAppended inline)).
Definition load_completed_outcome_in_context (st : InMemoryEventStore) (s0 : State) (v : Views)
    (context : BoundedContextName) (operation : OperationId)
  : result (option InlineCompletedOutcome) EventStoreError :=
  let? found := lookup_outcome st s0 v (mkOutcomeKey (ims_authority st) context operation) in
  match found with
  | Missing => Ok None
  | Completed outcome => rmap Some (map_err recovery_error (to_inline outcome))
  end.

(** [OutcomeLifecycle::expire_details] *)
Definition expire_details (st : InMemoryEventStore) (s : State) (key : OutcomeKey)
    (expected : OutcomeRevision) : result (OutcomeExpiry * State) OutcomeLifecycleError :=
  let? _ := map_err LifecycleStore (validate_authority st key) in
  match transactions s !! (Some (key_context key), key_operation key) with
  | Some (Scoped marker) =>
    fail! negb (bool_decide (mk_revision marker = expected)) with RevisionMismatch;
    let reference := mk_reference marker in
    match details s !! reference with
    | None => Err (LifecycleStore (corrupt "cannot expire missing lifecycle evidence"))
    | Some _ =>
      Ok (mkOutcomeExpiry expected Reclaimed,
          mkState (streams s) (operations s) (commits s) (event_ids s) (transactions s)
            (<[reference := DetailExpired]> (details s)) (event_count s))
    end
  | _ => Err LifecycleMissing
  end.

End Memory.
