(* ===== verification/MemoryFacts.v ===== *)
(** * MemoryFacts: how the streams of the in-memory store grow, and what its
    operations do - the conditions under which an append or a transaction is
    written, and what it writes. *)

From S2P Require Export Memory.

(** * How the streams of the in-memory store grow - the events a batch records, the invariant
    of every stream and its preservation by the journal writes of Memory. *)

(** The events a batch records after version [v]: consecutive versions, with
    the ordinal and the count of the commit. *)
Definition record_group (stream : StreamId) (v : N) (b : EventBatch) : list RecordedEvent :=
  imap (λ i e, from_new stream (mkStreamVersion (v + N.of_nat i + 1)) b (N.of_nat i)
                 (len (eb_events b)) e) (eb_events b).

(** The events of a whole stream, batch after batch. *)
Fixpoint record_all (stream : StreamId) (v : N) (bs : list EventBatch) : list RecordedEvent :=
  match bs with
  | [] => []
  | b :: r => record_group stream v b ++ record_all stream (v + len (eb_events b)) r
  end.

Section Journal.
Context `{SHA : Sha256} `{OJ : OutcomeJson}.

Lemma length_record_group stream v b : length (record_group stream v b) = length (eb_events b).
Proof. apply length_imap. Qed.
Lemma len_record_group stream v b : len (record_group stream v b) = len (eb_events b).
Proof. unfold len. by rewrite length_record_group. Qed.

Lemma record_group_lookup stream v b i e :
  record_group stream v b !! i = Some e ↔
  ∃ n, eb_events b !! i = Some n
    ∧ e = from_new stream (mkStreamVersion (v + N.of_nat i + 1)) b (N.of_nat i) (len (eb_events b)) n.
Proof. unfold record_group. rewrite list_lookup_imap, fmap_Some. naive_solver. Qed.

(** The recording loop from position [i] on, after the events [acc]. *)
Lemma record_events_Ok stream b count i v acc l out :
  count <= u32_max → N.of_nat (i + length l) <= count →
  try_fold (record_event stream b count) (mkStreamVersion v, acc) (enumerate_from (N.of_nat i) l)
    = Ok out ↔
  (l = [] ∨ v + len l <= u64_max)
  ∧ out = (mkStreamVersion (v + len l),
           acc ++ imap (λ j e, from_new stream (mkStreamVersion (v + N.of_nat j + 1)) b
                                 (N.of_nat (i + j)) count e) l).
Proof.
  intros Hc. revert i v acc. induction l as [|e l IH]; intros i v acc Hl.
  - cbn [enumerate_from try_fold imap]. rewrite app_nil_r, len_nil, N.add_0_r. naive_solver.
  - cbn [enumerate_from try_fold length] in *. unfold record_event at 1; cbn [fst snd].
    rewrite (proj2 (try_from_Some _ _ (N.of_nat i))) by lia.
    destruct (version_next (mkStreamVersion v)) as [w|] eqn:Ew; cbn [ok_or rbind]; cycle 1.
    { split; [done|]. intros [[?|Hs] _]; [done|]. exfalso. rewrite len_cons in Hs.
      rewrite (proj2 (version_next_Some (mkStreamVersion v) (mkStreamVersion (v + 1)))) in Ew; [done|].
      split; [done|]. cbn. lia. }
    apply version_next_Some in Ew as [-> Hw]. cbn [version_value] in *.
    replace (N.of_nat i + 1) with (N.of_nat (S i)) by lia. rewrite IH by lia.
    rewrite len_cons. cbn [imap]. rewrite N.add_0_r, Nat.add_0_r.
    replace (v + 1 + len l) with (v + (len l + 1)) by lia.
    assert (imap (λ j e0, from_new stream (mkStreamVersion (v + 1 + N.of_nat j + 1)) b
              (N.of_nat (S i + j)) count e0) l
      = imap ((λ j e0, from_new stream (mkStreamVersion (v + N.of_nat j + 1)) b
              (N.of_nat (i + j)) count e0) ∘ S) l) as ->.
    { apply imap_ext. intros j x _. cbn. do 2 f_equal; [f_equal|]; lia. }
    rewrite <- app_assoc. cbn [app]. split.
    + intros [Hs ->]. split; [|done]. right. destruct Hs as [->|]; [rewrite len_nil|]; lia.
    + intros [[?|Hs] ->]; [done|]. split; [|done]. right. lia.
Qed.

Lemma record_batch_Ok stream current b evs :
  record_batch stream current b = Ok evs ↔
  len (eb_events b) <= u32_max
  ∧ (eb_events b = [] ∨ version_value current + len (eb_events b) <= u64_max)
  ∧ evs = record_group stream (version_value current) b.
Proof.
  unfold record_batch. rewrite rbind_Ok. setoid_rewrite ok_or_Ok. setoid_rewrite try_from_Some.
  setoid_rewrite rmap_Ok. destruct current as [v]; cbn [version_value].
  assert (∀ out, len (eb_events b) <= u32_max →
    try_fold (record_event stream b (len (eb_events b))) (mkStreamVersion v, [])
      (enumerate (eb_events b)) = Ok out ↔
    (eb_events b = [] ∨ v + len (eb_events b) <= u64_max)
    ∧ out = (mkStreamVersion (v + len (eb_events b)), record_group stream v b)) as Hrec.
  { intros out Hl. apply (record_events_Ok stream b (len (eb_events b)) 0 v []); [done|unfold len; lia]. }
  split.
  - intros (c & [-> Hl] & out & Ho & <-). apply Hrec in Ho as [Hs ->]; done.
  - intros (Hl & Hs & ->). eexists. split; [done|]. eexists. split; [by apply Hrec|]. done.
Qed.

(** ** Streams *)

(** The identities of the batch are the derived ones. *)
Definition derived (stream : StreamId) (b : EventBatch) : Prop :=
  eb_commit_id b = derive_commit_id stream (eb_operation_id b)
  ∧ ∀ i e, eb_events b !! i = Some e → ne_event_id e = derive_event_id (eb_commit_id b) (N.of_nat i).

Lemma validate_derived_Ok stream b u :
  len (eb_events b) <= u32_max →
  validate_derived_identities stream b = Ok u ↔ derived stream b.
Proof.
  intros Hl. destruct u. unfold validate_derived_identities, derived.
  case_bool_decide as Hc; cbn [negb]; [|naive_solver].
  rewrite rbind_Ok. setoid_rewrite try_map_Ok. setoid_rewrite Forall2_same_length_lookup. split.
  - intros (us & [Hlen Hall] & _). split; [done|]. intros i e Hi.
    destruct (us !! i) as [u|] eqn:Eu; cycle 1.
    { apply lookup_ge_None in Eu. apply lookup_lt_Some in Hi. unfold enumerate in Hlen.
      rewrite length_enumerate_from in Hlen. lia. }
    assert (enumerate (eb_events b) !! i = Some (N.of_nat i, e)) as He
      by (rewrite enumerate_lookup, Hi; done).
    specialize (Hall i _ _ He Eu). cbn [fst snd] in Hall. guards.
    match goal with H : try_from _ _ = Some _ |- _ => apply try_from_Some in H as [-> _] end. done.
  - intros [_ Hall]. exists (replicate (length (eb_events b)) tt). split; [|done]. split.
    { unfold enumerate. by rewrite length_enumerate_from, length_replicate. }
    intros i [n e] [] He _. rewrite enumerate_lookup, fmap_Some in He.
    destruct He as (e' & Hi & [= -> ->]). cbn [fst snd].
    rewrite (proj2 (try_from_Some _ _ (N.of_nat i))).
    + cbn [ok_or rbind]. by rewrite bool_decide_eq_true_2 by (by apply Hall).
    + split; [done|]. apply lookup_lt_Some in Hi. unfold len in Hl. lia.
Qed.

(** The invariant of one stream: it is the record of batches with derived
    identities, none of which is repeated, and all of which the indexes know. *)
Record journal_ok (s : State) (stream : StreamId) (bs : list EventBatch) : Prop := {
  jo_events : load s stream = record_all stream 0 bs;
  jo_batches : Forall (λ b, batch_ok b ∧ derived stream b) bs;
  jo_commits : NoDup (eb_commit_id <$> bs);
  jo_operations : NoDup (eb_operation_id <$> bs);
  jo_event_ids : NoDup (concat ((λ b, ne_event_id <$> eb_events b) <$> bs));
  jo_commit_index : Forall (λ b, is_Some (commits s !! (stream, eb_commit_id b))) bs;
  jo_operation_index : Forall (λ b, is_Some (operations s !! (stream, eb_operation_id b))) bs;
  jo_event_index : Forall (λ b, Forall (λ e, (stream, ne_event_id e) ∈ event_ids s) (eb_events b)) bs;
}.

Lemma record_all_app stream v bs cs :
  record_all stream v (bs ++ cs)
  = record_all stream v bs ++ record_all stream (v + len (record_all stream v bs)) cs.
Proof.
  revert v; induction bs as [|b bs IH]; intros v; cbn [app record_all].
  - by rewrite len_nil, N.add_0_r.
  - rewrite IH, <- app_assoc, len_app. do 3 f_equal. unfold len. rewrite length_record_group. lia.
Qed.

(** Versions are positions. *)
Lemma record_all_lookup stream v bs i e :
  record_all stream v bs !! i = Some e →
  re_stream_id e = stream ∧ re_stream_version e = mkStreamVersion (v + N.of_nat i + 1).
Proof.
  revert v i; induction bs as [|b bs IH]; intros v i; cbn [record_all]; [done|].
  rewrite lookup_app. destruct (record_group stream v b !! i) as [e'|] eqn:E.
  - intros [= <-]. apply record_group_lookup in E as (n & _ & ->). done.
  - apply lookup_ge_None in E. rewrite length_record_group in E.
    intros (H1 & H2)%IH. rewrite length_record_group in H2. split; [done|]. rewrite H2. f_equal.
    unfold len. lia.
Qed.

Lemma journal_current_version s stream bs :
  journal_ok s stream bs → current_version s stream = mkStreamVersion (len (load s stream)).
Proof.
  intros Hj. unfold current_version. unfold load in *.
  pose proof (jo_events _ _ _ Hj) as He. unfold load in He.
  destruct (streams s !! stream) as [evs|]; cbn in *; [|done].
  destruct evs as [|e evs _] using rev_ind; [done|]. rewrite last_snoc. cbn.
  assert (record_all stream 0 bs !! length evs = Some e) as Hl
    by (rewrite <- He, lookup_app_r, Nat.sub_diag by lia; done).
  apply record_all_lookup in Hl as [_ ->]. f_equal. unfold len. rewrite length_app. cbn. lia.
Qed.

(** ** Writing a batch *)

(** What the checks before a journal write establish of the state. *)
Record writable (s : State) (stream : StreamId) (b : EventBatch) (evs : list RecordedEvent) : Prop := {
  wr_batch : batch_ok b;
  wr_derived : derived stream b;
  wr_operation : operations s !! (stream, eb_operation_id b) = None;
  wr_commit : commits s !! (stream, eb_commit_id b) = None;
  wr_events : Forall (λ e, (stream, ne_event_id e) ∉ event_ids s) (eb_events b);
  wr_recorded : evs = record_group stream (len (load s stream)) b;
}.

Lemma load_write_batch stream b evs prov s other :
  load (write_batch stream b evs prov s) other
  = if decide (other = stream) then load s stream ++ evs else load s other.
Proof.
  unfold load at 1, write_batch; cbn [streams]. case_decide as E.
  - subst. by rewrite lookup_insert_eq.
  - by rewrite lookup_insert_ne.
Qed.

Lemma journal_ok_extend s stream bs b evs prov :
  journal_ok s stream bs → writable s stream b evs →
  journal_ok (write_batch stream b evs prov s) stream (bs ++ [b]).
Proof.
  intros [He Hb Hc Ho Hi Hci Hoi Hei] [Wb Wd Wo Wc We ->].
  assert (∀ x, x ∈ bs → eb_commit_id x ≠ eb_commit_id b) as Nc.
  { intros x Hx E. rewrite Forall_forall in Hci. destruct (Hci x Hx) as [y Hy]. congruence. }
  assert (∀ x, x ∈ bs → eb_operation_id x ≠ eb_operation_id b) as No.
  { intros x Hx E. rewrite Forall_forall in Hoi. destruct (Hoi x Hx) as [y Hy]. congruence. }
  split.
  - rewrite load_write_batch, decide_True by done. rewrite record_all_app, <- He.
    cbn [record_all]. by rewrite app_nil_r, N.add_0_l.
  - apply Forall_app. split; [done|]. apply Forall_singleton. done.
  - rewrite fmap_app. apply NoDup_app. split_and!; [done| |apply NoDup_singleton].
    intros c (x & Hc' & Hx)%list_elem_of_fmap Hin%list_elem_of_singleton.
    apply (Nc x Hx). congruence.
  - rewrite fmap_app. apply NoDup_app. split_and!; [done| |apply NoDup_singleton].
    intros c (x & Hc' & Hx)%list_elem_of_fmap Hin%list_elem_of_singleton.
    apply (No x Hx). congruence.
  - rewrite fmap_app, concat_app. cbn [fmap list_fmap concat]. rewrite app_nil_r.
    apply NoDup_app. split_and!; [done| |apply Wb].
    intros x Hx (e & -> & Hin)%list_elem_of_fmap. rewrite Forall_forall in We. apply (We e Hin).
    apply list_elem_of_In, in_concat in Hx as (l & Hl & Hx).
    apply list_elem_of_In, list_elem_of_fmap in Hl as (y & -> & Hy).
    apply list_elem_of_In, list_elem_of_fmap in Hx as (e' & -> & He').
    rewrite Forall_forall in Hei. specialize (Hei y Hy). rewrite Forall_forall in Hei. by apply Hei.
  - apply Forall_app. split.
    + eapply Forall_impl; [exact Hci|]. intros x Hx. cbn [write_batch commits].
      rewrite lookup_insert_is_Some'. by right.
    + apply Forall_singleton. cbn [write_batch commits]. by rewrite lookup_insert_eq.
  - apply Forall_app. split.
    + eapply Forall_impl; [exact Hoi|]. intros x Hx. cbn [write_batch operations].
      rewrite lookup_insert_is_Some'. by right.
    + apply Forall_singleton. cbn [write_batch operations]. by rewrite lookup_insert_eq.
  - cbn [write_batch event_ids]. apply Forall_app. split.
    + eapply Forall_impl; [exact Hei|]. intros x Hx. eapply Forall_impl; [exact Hx|]. set_solver.
    + apply Forall_singleton, Forall_forall. intros e Hin. apply elem_of_union_r, elem_of_list_to_set.
      apply list_elem_of_fmap. by exists e.
Qed.

Lemma journal_ok_other s stream other bs b evs prov :
  other ≠ stream → journal_ok s other bs → journal_ok (write_batch stream b evs prov s) other bs.
Proof.
  intros Hne [He Hb Hc Ho Hi Hci Hoi Hei]. split; try done.
  - by rewrite load_write_batch, decide_False.
  - eapply Forall_impl; [exact Hci|]. intros x Hx. cbn [write_batch commits].
    rewrite lookup_insert_is_Some'. by right.
  - eapply Forall_impl; [exact Hoi|]. intros x Hx. cbn [write_batch operations].
    rewrite lookup_insert_is_Some'. by right.
  - eapply Forall_impl; [exact Hei|]. intros x Hx. eapply Forall_impl; [exact Hx|].
    cbn [write_batch event_ids]. set_solver.
Qed.

End Journal.

(** * What the operations of the in-memory store do - the conditions under which an append or
    a transaction is written, what it writes, and the invariant of the reachable states. *)

(** The values a caller can build: every batch passed its constructor, and so
    did the actor. *)
Record transaction_ok (t : EventTransaction) : Prop := {
  to_batches : ∀ p b, p ∈ tx_participants t → tp_batch p = Some b → batch_ok b;
  to_actor : actor_opt_ok (tx_actor t);
}.

Section MemoryFacts.
Context `{SHA : Sha256} `{OJ : OutcomeJson}.

Lemma batch_ok_u32 b : batch_ok b → len (eb_events b) <= u32_max.
Proof. intros [[_ H] _ _]. unfold MAX_EVENTS_PER_BATCH, u32_max in *. lia. Qed.

Lemma batch_nonempty b : batch_ok b → eb_events b ≠ [].
Proof. intros [[H _] _ _] E. rewrite E in H. done. Qed.

(** ** Guards *)

Lemma expected_version_Ok e current u :
  validate_expected_version e current = Ok u ↔ expected_base e = Ok current.
Proof.
  destruct u. unfold validate_expected_version, expected_base.
  destruct e as [|v]; repeat case_bool_decide; cbn [negb]; naive_solver.
Qed.

Lemma expected_version_Err e current err :
  validate_expected_version e current = Err err → se_kind err = Conflict ∨ se_kind err = InvalidRequest.
Proof.
  unfold validate_expected_version. destruct e; repeat case_bool_decide; intros [= <-]; cbn; auto.
Qed.

Lemma reused_event_id_false s stream b :
  reused_event_id s stream b = false ↔
  Forall (λ e, (stream, ne_event_id e) ∉ event_ids s) (eb_events b).
Proof.
  unfold reused_event_id. rewrite <- not_true_iff_false, existsb_exists, Forall_forall. split.
  - intros H e He Hin. apply H. exists e. split; [by apply list_elem_of_In|]. by apply bool_decide_eq_true.
  - intros H (e & He%list_elem_of_In & Hin%bool_decide_eq_true). by apply (H e).
Qed.

Lemma reserve_events_Ok st s added n :
  ims_maximum_events st <= usize_max →
  reserve_events st s added = Ok n ↔ n = event_count s + added ∧ n <= ims_maximum_events st.
Proof.
  intros Hm. unfold reserve_events. rewrite ok_or_Ok, bind_Some. setoid_rewrite checked_add_Some. split.
  - intros (c & [-> Hc] & H). destruct (_ <=? _) eqn:E; [|done]. injection H as <-. bool_step. done.
  - intros [-> Hn]. eexists. split; [split; [done|lia]|]. by rewrite (proj2 (N.leb_le _ _)).
Qed.

(** No index of the journal knows the identities of the batch. *)
Record unused (s : State) (stream : StreamId) (b : EventBatch) : Prop := {
  un_operation : operations s !! (stream, eb_operation_id b) = None;
  un_commit : commits s !! (stream, eb_commit_id b) = None;
  un_events : Forall (λ e, (stream, ne_event_id e) ∉ event_ids s) (eb_events b);
}.

(** The events a participant of the transaction records in [s] *)
Definition participant_events (s : State) (p : TransactionParticipant) : list RecordedEvent :=
  from_option (record_group (tp_stream_id p) (version_value (current_version s (tp_stream_id p)))) []
    (tp_batch p).

(** The versions of the recorded events fit their type. *)
Definition version_room (s : State) (stream : StreamId) (n : N) : Prop :=
  version_value (current_version s stream) + n <= u64_max.

(** ** Direct appends *)

Record append_fresh (st : InMemoryEventStore) (s : State) (stream : StreamId)
    (expected : ExpectedVersion) (b : EventBatch) : Prop := {
  af_unused : unused s stream b;
  af_derived : derived stream b;
  af_version : expected_base expected = Ok (current_version s stream);
  af_capacity : event_count s + len (eb_events b) <= ims_maximum_events st;
  af_room : version_room s stream (len (eb_events b));
}.

Lemma append_fresh_Ok st s stream expected b out s' :
  ims_maximum_events st <= usize_max → batch_ok b →
  operations s !! (stream, eb_operation_id b) = None →
  append st s stream expected b = Ok (out, s') ↔
  append_fresh st s stream expected b
  ∧ let evs := record_group stream (version_value (current_version s stream)) b in
    out = Appended evs
    ∧ s' = set_event_count (event_count s + len (eb_events b)) (write_batch stream b evs Direct s).
Proof.
  intros Hm Hb Ho. pose proof (batch_ok_u32 _ Hb) as Hu. unfold append. rewrite Ho. split.
  - intros H. guards.
    match goal with H : validate_derived_identities _ _ = Ok _ |- _ =>
      apply validate_derived_Ok in H; [|done] end.
    match goal with H : validate_expected_version _ _ = Ok _ |- _ => apply expected_version_Ok in H end.
    match goal with H : reserve_events _ _ _ = Ok _ |- _ => apply reserve_events_Ok in H as [-> Hc]; [|done] end.
    match goal with H : record_batch _ _ _ = Ok _ |- _ => apply record_batch_Ok in H as (_ & Hr & ->) end.
    match goal with H : reused_event_id _ _ _ = false |- _ => apply reused_event_id_false in H end.
    subst. split; [|done]. split; try done.
    + split; try done. by destruct (commits s !! _).
    + destruct Hr as [Hr|Hr]; [by apply batch_nonempty in Hr|done].
  - intros [[[_ Hc He] Hd Hv Hcap Hr] [-> ->]]. rewrite Hc. cbn [is_some].
    rewrite (proj2 (reused_event_id_false _ _ _) He).
    rewrite (proj2 (validate_derived_Ok stream b tt Hu) Hd). cbn [rbind].
    rewrite (proj2 (expected_version_Ok _ _ tt) Hv). cbn [rbind].
    rewrite (proj2 (reserve_events_Ok st s _ _ Hm) (conj eq_refl Hcap)). cbn [rbind].
    by rewrite (proj2 (record_batch_Ok stream (current_version s stream) b _))
      by (split; [done|split; [by right|done]]).
Qed.

(** ** Transactions *)

Record participant_ok (s : State) (t : EventTransaction) (p : TransactionParticipant)
    (b : EventBatch) : Prop := {
  pa_operation : eb_operation_id b = tx_operation_id t;
  pa_fingerprint : eb_operation_fingerprint b = tx_operation_fingerprint t;
  pa_correlation : eb_correlation_id b = tx_correlation_id t;
  pa_causation : eb_causation_id b = tx_causation_id t;
  pa_actor : eb_actor b = tx_actor t;
  pa_derived : derived (tp_stream_id p) b;
  pa_unused : unused s (tp_stream_id p) b;
}.

Lemma validate_participant_Ok s t seen p seen' :
  (∀ b, tp_batch p = Some b → batch_ok b) →
  validate_participant s t seen p = Ok seen' ↔
  seen' = {[ tp_stream_id p ]} ∪ seen ∧ tp_stream_id p ∉ seen
  ∧ (∀ b, tp_batch p = Some b → participant_ok s t p b).
Proof.
  intros Hb. unfold validate_participant. case_bool_decide as Hin; [naive_solver|].
  destruct (tp_batch p) as [b|]; [|naive_solver]. specialize (Hb b eq_refl).
  pose proof (batch_ok_u32 _ Hb) as Hu. split.
  - intros H. guards. destruct (operations s !! _) eqn:Eo; [done|]. guards.
    match goal with H : validate_derived_identities _ _ = Ok _ |- _ =>
      apply validate_derived_Ok in H; [|done] end.
    match goal with H : reused_event_id _ _ _ = false |- _ => apply reused_event_id_false in H end.
    split_and!; [done..|]. intros ? [= <-]. split; try done. split; try done.
    by destruct (commits s !! _).
  - intros (-> & _ & Hp). destruct (Hp b eq_refl) as [? ? ? ? ? Hd [Ho Hc He]].
    rewrite !bool_decide_eq_true_2 by done. cbn [negb orb].
    rewrite (proj2 (validate_derived_Ok _ b tt Hu) Hd). cbn [rbind]. rewrite Ho, Hc. cbn [is_some].
    by rewrite (proj2 (reused_event_id_false _ _ _) He).
Qed.

Record transaction_writable (s : State) (t : EventTransaction) : Prop := {
  tw_streams : NoDup (tp_stream_id <$> tx_participants t);
  tw_participants : Forall (λ p, ∀ b, tp_batch p = Some b → participant_ok s t p b) (tx_participants t);
  tw_versions : Forall (λ p, expected_base (tp_expected_version p)
                             = Ok (current_version s (tp_stream_id p))) (tx_participants t);
}.

Lemma validate_transaction_Ok s t u :
  transaction_ok t → validate_transaction s t = Ok u ↔ transaction_writable s t.
Proof.
  intros [Hb _]. destruct u. unfold validate_transaction. rewrite rbind_Ok.
  setoid_rewrite rbind_Ok. setoid_rewrite try_map_Ok.
  assert (∀ seen', try_fold (validate_participant s t) ∅ (tx_participants t) = Ok seen' ↔
    seen' = list_to_set (tp_stream_id <$> tx_participants t) ∪ ∅
    ∧ NoDup (tp_stream_id <$> tx_participants t)
    ∧ (∀ x, x ∈ tx_participants t → tp_stream_id x ∉ (∅ : gset StreamId))
    ∧ Forall (λ p, ∀ b, tp_batch p = Some b → participant_ok s t p b) (tx_participants t)) as Hf.
  { intros. apply (try_fold_distinct tp_stream_id _ _). intros seen p seen1 Hp.
    apply validate_participant_Ok. eauto. }
  setoid_rewrite Hf. split.
  - intros (seen & (_ & Hnd & _ & Hall) & us & Hv & _). split; [done..|].
    apply Forall_forall. intros p Hp. apply list_elem_of_lookup in Hp as (i & Hi).
    destruct (Forall2_lookup_l _ _ _ _ _ Hv Hi) as (u & _ & Hu). by apply expected_version_Ok in Hu.
  - intros [Hnd Hall Hv]. eexists. split; [split_and!; try done; set_solver|].
    exists (replicate (length (tx_participants t)) tt). split; [|done].
    apply Forall2_same_length_lookup. split; [by rewrite length_replicate|].
    intros i p [] Hi _. apply expected_version_Ok. rewrite Forall_forall in Hv.
    apply Hv. by eapply list_elem_of_lookup_2.
Qed.

(** The participants as they are staged *)
Definition staged_of (s : State) (t : EventTransaction) : list Staged :=
  (λ p, (p, current_version s (tp_stream_id p), participant_events s p)) <$> tx_participants t.

Definition participant_room (s : State) (p : TransactionParticipant) : Prop :=
  ∀ b, tp_batch p = Some b → version_room s (tp_stream_id p) (len (eb_events b)).

Lemma stage_Ok s p x :
  (∀ b, tp_batch p = Some b → batch_ok b) →
  stage s p = Ok x ↔
  participant_room s p ∧ x = (p, current_version s (tp_stream_id p), participant_events s p).
Proof.
  intros Hb. unfold stage, participant_room, participant_events.
  destruct (tp_batch p) as [b|]; cbn [fmap option_fmap option_map from_option transpose].
  2: { cbn. split; [intros [= <-]|intros [_ ->]]; [split|]; done. }
  specialize (Hb b eq_refl). split.
  - destruct (record_batch _ _ _) as [evs|] eqn:Hr; [|done]. cbn. intros [= <-].
    apply record_batch_Ok in Hr as (_ & Hr & ->). split; [|done]. intros ? [= <-].
    destruct Hr as [Hr|Hr]; [by apply batch_nonempty in Hr|done].
  - intros [Hr ->]. erewrite (proj2 (record_batch_Ok _ _ b _)); [done|].
    split; [by apply batch_ok_u32|]. split; [|done]. right. by apply Hr.
Qed.

Lemma stage_all_Ok s t l :
  transaction_ok t →
  try_map (stage s) (tx_participants t) = Ok l ↔
  Forall (participant_room s) (tx_participants t) ∧ l = staged_of s t.
Proof.
  intros [Hb _]. rewrite try_map_Ok. unfold staged_of. revert Hb l.
  induction (tx_participants t) as [|p ps IH]; intros Hb l.
  - split; [by inversion 1|]. by intros [_ ->].
  - assert (∀ b, tp_batch p = Some b → batch_ok b) as Hp by (intros; eapply Hb; [left|done]).
    specialize (IH (λ p' b H, Hb p' b (list_elem_of_further _ _ _ H))).
    cbn [fmap list_fmap]. rewrite Forall_cons. split.
    + inversion 1 as [|? x ? l' Hx Hl]; subst. apply stage_Ok in Hx as [? ->]; [|done].
      apply IH in Hl as [? ->]. done.
    + intros [[H1 H2] ->]. constructor; [by apply stage_Ok|by apply IH].
Qed.

(** ** What a committed transaction writes *)

Definition tx_key (t : EventTransaction) : option BoundedContextName * OperationId :=
  (tx_bounded_context t, tx_operation_id t).

(** The conditions under which a new transaction is written *)
Record commit_fresh (st : InMemoryEventStore) (s : State) (t : EventTransaction) : Prop := {
  cf_key : transactions s !! tx_key t = None;
  cf_slots : N.of_nat (size (transactions s)) < ims_maximum_outcomes st;
  cf_writable : transaction_writable s t;
  cf_capacity : event_count s + event_total (tx_batches t) <= ims_maximum_events st;
  cf_room : Forall (participant_room s) (tx_participants t);
}.

(** The receipt of a transaction written in [s], and the state it leaves *)
Definition commit_receipt (s : State) (t : EventTransaction) : TransactionReceipt :=
  staged_receipt t (staged_of s t).
Definition commit_state (s : State) (t : EventTransaction) (stored : StoredTransaction)
    (detail : option (OutcomeDetailReference * DetailState)) : State :=
  let s' := foldl write_staged s (staged_of s t) in
  {| streams := streams s'; operations := operations s'; commits := commits s';
     event_ids := event_ids s'; transactions := <[tx_key t := stored]> (transactions s');
     details := insert_detail detail (details s');
     event_count := event_count s + event_total (tx_batches t) |}.

Lemma append_inner_fresh st s t r :
  ims_maximum_events st <= usize_max → transaction_ok t → transactions s !! tx_key t = None →
  append_transaction_inner st s t = Ok r ↔
  ∃ n d stored detail,
    validate_transaction_item_limit t = Ok n ∧ proposal_of t = Ok d ∧ commit_fresh st s t
    ∧ store_receipt st t d (commit_receipt s t) = Ok (stored, detail)
    ∧ r = (stored, false, commit_state s t stored detail).
Proof.
  intros Hm Ht Hk. unfold append_transaction_inner. fold (tx_key t). rewrite Hk.
  destruct (validate_transaction_item_limit t) as [n|] eqn:En; cbn [rbind]; [|naive_solver].
  destruct (proposal_of t) as [d|] eqn:Ed; cbn [rbind]; [|naive_solver].
  pose proof (proj1 (item_limit_Ok _ _) En) as [-> _]. split.
  - intros H. guards.
    repeat match goal with H : validate_transaction _ _ = Ok _ |- _ =>
      apply validate_transaction_Ok in H; [|done] end.
    repeat match goal with H : reserve_events _ _ _ = Ok _ |- _ =>
      apply reserve_events_Ok in H as [-> ?]; [|done] end.
    repeat match goal with H : try_map _ _ = Ok _ |- _ =>
      apply stage_all_Ok in H as [? ->]; [|done] end.
    match goal with H : (let (_, _) := ?x in _) = Ok _ |- _ => destruct x as [stored detail] end.
    injection H as <-. eauto 12 using Build_commit_fresh.
  - intros (? & ? & stored & detail & [= <-] & [= <-] & [_ Hs Hw Hc Hr] & Hst & ->).
    rewrite (proj2 (N.leb_gt _ _) Hs).
    rewrite (proj2 (validate_transaction_Ok s t tt Ht) Hw). cbn [rbind].
    rewrite (proj2 (reserve_events_Ok st s _ _ Hm) (conj eq_refl Hc)). cbn [rbind].
    rewrite (proj2 (stage_all_Ok s t _ Ht) (conj Hr eq_refl)). cbn [rbind].
    unfold commit_receipt in Hst. rewrite Hst. done.
Qed.

Lemma append_inner_known st s t d previous :
  transactions s !! tx_key t = Some previous →
  is_ok (validate_transaction_item_limit t) = true → proposal_of t = Ok d →
  append_transaction_inner st s t
  = if bool_decide (stored_proposal previous = d) then Ok (previous, true, s)
    else Err (identity_conflict "transaction identity was reused with different content").
Proof.
  intros Hk [n Hn]%is_ok_true Hd. unfold append_transaction_inner. fold (tx_key t).
  by rewrite Hk, Hn, Hd.
Qed.

(** An accepted call on a known key is a replay of what is stored. *)
Lemma append_inner_replay st s t r previous :
  transactions s !! tx_key t = Some previous →
  append_transaction_inner st s t = Ok r →
  r = (previous, true, s) ∧ proposal_of t = Ok (stored_proposal previous).
Proof.
  intros Hk. unfold append_transaction_inner. fold (tx_key t). rewrite Hk. intros H. guards.
  subst. done.
Qed.

(** ** Receipts of committed transactions *)

Lemma staged_receipt_eq t staged :
  staged_receipt t staged
  = mkReceipt (tx_actor t) (tx_security_scope t) None (tx_bounded_context t) (tx_operation_id t)
      (tx_operation_fingerprint t) (tx_correlation_id t) (tx_causation_id t)
      (map (λ '(p, base, events), mkStreamReceipt (tp_stream_id p) base events) staged).
Proof. by destruct t as [[] [] ? [] ? ? [] [] ?]. Qed.

Definition participant_receipt (s : State) (p : TransactionParticipant) : TransactionStreamReceipt :=
  mkStreamReceipt (tp_stream_id p) (current_version s (tp_stream_id p)) (participant_events s p).

Lemma commit_receipt_streams s t :
  tr_streams (commit_receipt s t) = participant_receipt s <$> tx_participants t.
Proof.
  unfold commit_receipt. rewrite staged_receipt_eq. cbn [tr_streams]. unfold staged_of.
  change (map ?f (?g <$> ?l)) with (f <$> (g <$> l)). by rewrite <- list_fmap_compose.
Qed.

Lemma commit_stream_ok s t p :
  transaction_ok t → transaction_writable s t → participant_room s p → p ∈ tx_participants t →
  stream_receipt_ok (commit_receipt s t) (participant_receipt s p).
Proof.
  intros [Hb _] [_ Hw _] Hr Hp. rewrite Forall_forall in Hw. specialize (Hw p Hp).
  unfold participant_receipt, participant_events, commit_receipt. rewrite staged_receipt_eq.
  destruct (tp_batch p) as [b|] eqn:Ep; cbn [from_option].
  2: { split; cbn [sr_events]; [done|by left|done]. }
  specialize (Hb p b Hp Ep). specialize (Hr b Ep). destruct (Hw b eq_refl) as [Ho Hf Hco Hca Ha [Hc Hd] _].
  assert (len (record_group (tp_stream_id p) (version_value (current_version s (tp_stream_id p))) b)
    = len (eb_events b)) as Hl by (unfold len; by rewrite length_record_group).
  split; cbn [sr_events sr_base_version]; rewrite ?Hl.
  - by apply batch_ok_u32.
  - by right.
  - intros i e (n & Hi & ->)%record_group_lookup.
    split; cbn [sr_events sr_stream_id sr_base_version tr_operation_id tr_operation_fingerprint
      tr_correlation_id tr_causation_id tr_actor from_new re_stream_id re_stream_version re_commit_id
      re_event_id re_operation_id re_operation_fingerprint re_correlation_id re_causation_id re_actor
      re_commit_event_ordinal re_commit_event_count]; rewrite ?Hl; try done; [by rewrite <- Ho|by apply Hd].
Qed.

Lemma commit_integrity_ok s t :
  transaction_ok t → transaction_writable s t → Forall (participant_room s) (tx_participants t) →
  integrity_ok (commit_receipt s t).
Proof.
  intros Ht Hw Hr. split.
  - rewrite commit_receipt_streams, <- list_fmap_compose. apply Hw.
  - rewrite commit_receipt_streams, Forall_fmap, Forall_forall. intros p Hp.
    apply commit_stream_ok; try done. by apply (proj1 (Forall_forall _ _) Hr).
  - unfold commit_receipt. by rewrite staged_receipt_eq.
Qed.

(** The receipt the store builds always passes the proposal validator. *)
Lemma commit_proposal_ok st s t :
  transaction_ok t → commit_fresh st s t → is_ok (validate_transaction_item_limit t) = true →
  (is_some (tx_completion t) = true → validate_completed_transaction t = Ok tt) →
  proposal_ok (commit_receipt s t) t.
Proof.
  intros Ht [_ _ Hw _ Hr] Hi Hc. split; try done.
  - by apply commit_integrity_ok.
  - unfold commit_receipt. rewrite staged_receipt_eq. split; auto.
  - rewrite commit_receipt_streams. apply Forall2_fmap_l, Forall_Forall2_diag, Forall_forall.
    intros p Hp. destruct Hw as [_ Hw Hv]. rewrite Forall_forall in Hw, Hv.
    unfold participant_receipt, participant_events.
    split; cbn [sr_stream_id sr_base_version sr_events]; [done|by apply Hv|].
    destruct (tp_batch p) as [b|] eqn:Ep; [|done]. cbn [from_option].
    destruct (Hw p Hp b Ep) as [Ho Hf Hco Hca Ha [Hcm Hd] _].
    unfold commit_receipt. rewrite staged_receipt_eq. split; try done; cbn [sr_stream_id sr_events tr_operation_id].
    + by rewrite <- Ho.
    + apply Forall2_same_length_lookup. rewrite length_record_group. split; [done|].
      intros i n e Hn (n' & Hn' & ->)%record_group_lookup. by simplify_eq.
Qed.

End MemoryFacts.
