(* ===== verification/NatsWireFacts.v ===== *)
(** * NatsWireFacts: what a decoded event is, and that a published event is
    decoded as it was recorded. *)

From S2P Require Export NatsWire MemoryFacts.

Section Facts.
Context `{SHA : Sha256} `{WJ : Json StoredEventWire} `{CJ : Json ChecksumInput} `{B64 : Base64}.
Context `{HM : HeaderMapApi} `{HN : AtomicHeaderNames}.
Context (config : NatsEventStoreConfig).

(** ** Soundness of decoding *)

(** An event as it can be stored: identities of its stream derived from a
    valid operation, coordinates within its commit, a valid envelope. *)
Record recorded_ok (stream : StreamId) (e : RecordedEvent) : Prop := {
  rk_stream : re_stream_id e = stream;
  rk_version : version_value (re_stream_version e) ≠ 0;
  rk_operation : ident_ok (re_operation_id e);
  rk_commit : re_commit_id e = derive_commit_id stream (re_operation_id e);
  rk_event : re_event_id e = derive_event_id (re_commit_id e) (re_commit_event_ordinal e);
  rk_coordinates : re_commit_event_ordinal e < re_commit_event_count e <= MAX_EVENTS_PER_BATCH;
  rk_envelope : NewEvent_new (re_event_id e) (re_event_type e) (re_schema_version e) (re_payload e)
                = Ok (mkNewEvent (re_event_id e) (re_event_type e) (re_schema_version e) (re_payload e));
}.

(** The coordinates of a decoded event agree with those of its record, and
    those in its transaction are in range; outside a transaction the two are
    the same. *)
Record decoded_ok (stream : StreamId) (d : DecodedStoredEvent) : Prop := {
  dk_recorded : recorded_ok stream (de_recorded (dse_decoded d));
  dk_commit : de_commit_id (dse_decoded d) = re_commit_id (de_recorded (dse_decoded d));
  dk_operation : de_operation_id (dse_decoded d) = re_operation_id (de_recorded (dse_decoded d));
  dk_fingerprint : de_operation_fingerprint (dse_decoded d)
                   = re_operation_fingerprint (de_recorded (dse_decoded d));
  dk_ordinal : de_event_ordinal (dse_decoded d) = re_commit_event_ordinal (de_recorded (dse_decoded d));
  dk_count : de_event_count (dse_decoded d) = re_commit_event_count (de_recorded (dse_decoded d));
  dk_transaction : de_transaction_event_ordinal (dse_decoded d)
                   < de_transaction_event_count (dse_decoded d) <= MAX_EVENTS_PER_BATCH;
  dk_direct : dse_is_transactional d = false →
    de_transaction_event_ordinal (dse_decoded d) = de_event_ordinal (dse_decoded d)
    ∧ de_transaction_event_count (dse_decoded d) = de_event_count (dse_decoded d);
  dk_transactional : dse_is_transactional d = de_is_transactional (dse_decoded d);
  dk_batch : 0 < str_len (de_batch_id (dse_decoded d)) <= 64;
}.

Lemma new_in_commit_Ok stream version event commit op fp ordinal count et sv payload e :
  new_in_commit stream version event commit op fp ordinal count et sv payload = Ok e →
  e = mkRecordedEvent None stream version event commit op fp ordinal count None None et sv payload
  ∧ version ≠ version_zero ∧ ordinal < count <= MAX_EVENTS_PER_BATCH
  ∧ NewEvent_new event et sv payload = Ok (mkNewEvent event et sv payload).
Proof.
  unfold new_in_commit, NewEvent_new. intros H. guards.
  match goal with H : is_some_and _ _ = false |- _ => cbn in H; bool_step end.
  split_and!; [done..|].
  match goal with H : validate_event_type _ = _ |- _ => by rewrite H end.
Qed.

Lemma decode_recorded_ok stream event e :
  decode_recorded stream event = Ok e →
  recorded_ok stream e
  ∧ re_commit_event_ordinal e = sec_commit_event_ordinal event
  ∧ re_commit_event_count e = sec_commit_event_count event.
Proof.
  unfold decode_recorded, stored_identity. intros H. guards.
  match goal with H : new_in_commit _ _ _ _ _ _ _ _ _ _ _ = Ok _ |- _ =>
    apply new_in_commit_Ok in H as (-> & Hv & Hc & Hn) end.
  match goal with H : ident_new KOperationId ?s = Ok ?o |- _ =>
    assert (ident_ok o) by (pose proof H; unfold ident_new in H; guards; done) end.
  repeat match goal with |- context[match ?x with Some _ => _ | None => _ end] => destruct x end;
    cbn [re_commit_event_ordinal re_commit_event_count recorded_with_correlation_id
         recorded_with_causation_id recorded_with_actor];
    (split; [split; cbn; by subst|done]).
Qed.

Lemma decode_coordinates_ok wire o n td tn :
  decode_coordinates wire = Ok (o, n, td, tn) →
  o = sec_commit_event_ordinal (sew_event wire) ∧ n = sec_commit_event_count (sew_event wire)
  ∧ td < tn <= MAX_EVENTS_PER_BATCH
  ∧ (transactional_event_schema (sew_schema_version wire) = false → td = o ∧ tn = n).
Proof.
  unfold decode_coordinates. intros H. guards.
  repeat match goal with H : try_from _ _ = Some _ |- _ => apply try_from_Some in H as [-> _] end.
  destruct (transactional_event_schema _); guards.
  - repeat match goal with H : try_from _ _ = Some _ |- _ => apply try_from_Some in H as [-> _] end.
    simplify_eq. split_and!; [done|done|lia|lia|done].
  - simplify_eq. split_and!; [done|done|lia|lia|done].
Qed.

Lemma validate_atomic_headers_ok name headers version o n t expected batch_id :
  validate_atomic_headers name headers version o n t expected = Ok batch_id →
  0 < str_len batch_id <= 64.
Proof.
  unfold validate_atomic_headers, required_single_header. intros H. guards.
  split; [|done]. apply N.neq_0_lt_0. by rewrite str_len_0.
Qed.

Lemma decode_stream_ok subject expected event stream :
  decode_stream config subject expected event = Ok stream →
  stream_ok stream ∧ (∀ s, expected = Some s → stream = s)
  ∧ subject = aggregate_subject config (ident_str (aggregate_type stream)) (ident_str (aggregate_id stream)).
Proof.
  unfold decode_stream, stored_identity. intros H. guards. split_and!; [|intros s ->|done].
  - repeat match goal with H : ident_new _ _ = Ok ?o |- _ =>
      assert (ident_ok o) by (pose proof H; unfold ident_new in H; guards; done); clear H end.
    done.
  - cbn in *. by guards.
Qed.

Lemma decode_event_inner_ok subject expected last headers payload d :
  decode_event_inner config subject expected last headers payload = Ok d →
  ∃ stream, stream_ok stream ∧ (∀ s, expected = Some s → stream = s)
    ∧ subject = aggregate_subject config (ident_str (aggregate_type stream)) (ident_str (aggregate_id stream))
    ∧ decoded_ok stream d.
Proof.
  unfold decode_event_inner. intros H. guards.
  match goal with H : decode_stream _ _ _ _ = Ok ?s |- _ =>
    exists s; apply decode_stream_ok in H as (? & ? & ?) end.
  split_and!; try done.
  match goal with x : (N * N * N * N)%type |- _ => destruct x as [[[o n] t] tn] end. guards.
  match goal with H : decode_coordinates _ = _ |- _ => apply decode_coordinates_ok in H as (-> & -> & ? & ?) end.
  match goal with H : decode_recorded _ _ = _ |- _ => apply decode_recorded_ok in H as (? & ? & ?) end.
  match goal with H : validate_atomic_headers _ _ _ _ _ _ _ = _ |- _ => apply validate_atomic_headers_ok in H end.
  by split.
Qed.

Lemma decode_event_ok subject stream last seq headers payload d :
  decode_event config subject stream last seq headers payload = Ok d →
  stream_ok stream ∧ decoded_ok stream d ∧ dse_global_stream_sequence d = seq.
Proof.
  unfold decode_event. intros H. guards.
  match goal with H : decode_event_inner _ _ _ _ _ _ = _ |- _ =>
    apply decode_event_inner_ok in H as (s & Hs & He & _ & Hd) end.
  rewrite (He _ eq_refl) in *. split_and!; try done. by destruct Hd.
Qed.

(** ** The published headers *)

Lemma get_all_insert_some_other name other value h :
  name ≠ other → headers_get_all (insert_some name value h) other = headers_get_all h other.
Proof. intros Hn. destruct value; [by apply get_all_insert_other|done]. Qed.

Lemma get_all_insert_some name value h :
  headers_get_all h name = [] →
  headers_get_all (insert_some name value h) name = match value with Some v => [v] | None => [] end.
Proof. intros Hn. destruct value; [by apply get_all_insert|done]. Qed.

Lemma get_all_insert_if (c : bool) name other value h :
  name ≠ other →
  headers_get_all (if c then headers_insert name value h else h) other = headers_get_all h other.
Proof. intros Hn. destruct c; [by apply get_all_insert_other|done]. Qed.

Ltac get_header :=
  repeat first
    [ rewrite get_all_insert | rewrite get_all_insert_other by discriminate
    | rewrite get_all_insert_some_other by discriminate
    | rewrite get_all_insert_if by discriminate | rewrite get_all_new ].

(** What the validation reads of the headers of the message at [index] *)
Lemma atomic_headers_read batch_id corr count index m :
  let h := atomic_headers config batch_id corr count index m in
  headers_get_all h "Content-Type" = ["application/json"]
  ∧ headers_get_all h "Nats-Batch-Id" = [batch_id]
  ∧ headers_get_all h "Nats-Batch-Sequence" = [n_to_string (index + 1)]
  ∧ headers_get_all h "Nats-Expected-Stream" = (if index =? 0 then [nc_stream_name config] else [])
  ∧ headers_get_all h "Nats-Expected-Last-Subject-Sequence"
    = match apm_expected_last_subject_sequence m with Some s => [n_to_string s] | None => [] end
  ∧ headers_get_all h "Nats-Batch-Commit"
    = (if index + 1 =? count then [NATS_BATCH_COMMIT_FINAL] else []).
Proof.
  unfold atomic_headers, CORRELATION_ID_HEADER, NATS_EXPECTED_LAST_SUBJECT_SEQUENCE_SUBJECT.
  rewrite batch_commit_name, batch_id_name, batch_sequence_name, expected_sequence_name,
    expected_stream_name, api_level_name.
  split_and!; get_header; try done.
  - destruct (index =? 0); get_header; done.
  - rewrite get_all_insert_some by (by get_header). by destruct (apm_expected_last_subject_sequence m).
  - destruct (index + 1 =? count); get_header; done.
Qed.

(** A message of a commit is published where its coordinates say: the event
    [ordinal] of [count], at [offset] in a batch of [total] messages, with the
    expected subject sequence on the first event, and last in the batch only
    where it is the last of a direct append. *)
Record published_at (version ordinal count t total : N) (m : AtomicPublishMessage) (last : N) : Prop := {
  pa_ordinal : ordinal < count;
  pa_bound : t < usize_max;
  pa_sequence : last <= u64_max;
  pa_expected : apm_expected_last_subject_sequence m = if ordinal =? 0 then Some last else None;
  pa_direct : transactional_event_schema version = false → t = ordinal ∧ total = count;
  pa_transaction : transactional_event_schema version = true → ordinal <= t ∧ t + 1 < total;
}.

Lemma required_single headers name v :
  headers_get_all headers name = [v] → required_single_header headers name = Ok v.
Proof. unfold required_single_header, optional_single_header. by intros ->. Qed.
Lemma optional_single headers name l :
  headers_get_all headers name = l → len l < 2 → optional_single_header headers name = Ok (head l).
Proof.
  unfold optional_single_header. intros ->. intros H. by rewrite (proj2 (N.leb_gt _ _)).
Qed.

Lemma commit_header_validate version ordinal count t total m last :
  published_at version ordinal count t total m last →
  validate_commit_header (if t + 1 =? total then Some NATS_BATCH_COMMIT_FINAL else None)
    version ordinal count = Ok tt.
Proof.
  intros [Ho Ht _ _ Hd Htr]. unfold validate_commit_header.
  destruct (transactional_event_schema version).
  - rewrite (proj2 (N.eqb_neq _ _)); [done|]. destruct (Htr eq_refl). lia.
  - destruct (Hd eq_refl) as [-> ->].
    rewrite (proj2 (checked_add_Some _ _ _ (ordinal + 1))) by (split; [done|lia]). cbn [is_some_and].
    destruct (ordinal + 1 =? count); [|done]. by rewrite bool_decide_eq_true_2.
Qed.

Lemma expectation_validate version ordinal count t total m last expected :
  published_at version ordinal count t total m last → (∀ s, expected = Some s → s = last) →
  (if ordinal =? 0 then
     fail! (t =? 0) && negb (bool_decide ((if t =? 0 then Some (nc_stream_name config) else None)
                                          = Some (nc_stream_name config)))
       with corrupt "stored commit has an incompatible expected stream";
     fail! negb (t =? 0) && is_some (if t =? 0 then Some (nc_stream_name config) else None)
       with corrupt "stored transaction repeats its expected stream";
     validate_aggregate_sequence_expectation
       (n_to_string <$> apm_expected_last_subject_sequence m) expected
   else
     fail! is_some (if t =? 0 then Some (nc_stream_name config) else None)
           || is_some (n_to_string <$> apm_expected_last_subject_sequence m)
       with corrupt "stored commit repeats its aggregate sequence expectation";
     Ok tt) = Ok tt.
Proof.
  intros [Ho Ht Hl Hx Hd Htr] He. rewrite Hx. destruct (N.eqb_spec ordinal 0) as [->|Hn].
  - assert (validate_aggregate_sequence_expectation (n_to_string <$> Some last) expected = Ok tt) as ->.
    { unfold validate_aggregate_sequence_expectation. cbn [fmap option_fmap option_map ok_or rbind].
      rewrite parse_n_to_string by done. cbn [ok_or rbind].
      destruct expected as [s|]; [|done]. rewrite (He s eq_refl). cbn. by rewrite N.eqb_refl. }
    destruct (t =? 0); cbn; [|done]. by rewrite bool_decide_eq_true_2.
  - assert ((t =? 0) = false) as ->; [|done]. apply N.eqb_neq.
    destruct (transactional_event_schema version); [destruct (Htr eq_refl)|destruct (Hd eq_refl)]; lia.
Qed.

Lemma atomic_headers_validate version ordinal count t total m last batch_id corr expected :
  published_at version ordinal count t total m last → 0 < str_len batch_id <= 64 →
  (∀ s, expected = Some s → s = last) →
  validate_atomic_headers (nc_stream_name config) (atomic_headers config batch_id corr total t m)
    version ordinal count t expected = Ok batch_id.
Proof.
  intros [Ho Ht Hl Hx Hd Htr] Hb He.
  destruct (atomic_headers_read batch_id corr total t m) as (H1 & H2 & H3 & H4 & H5 & H6).
  unfold validate_atomic_headers.
  rewrite (required_single _ _ _ H1); cbn [rbind]. rewrite String.eqb_refl; cbn [negb].
  rewrite (required_single _ _ _ H2); cbn [rbind].
  rewrite (proj2 (String.eqb_neq batch_id "")) by (intros ->; by destruct Hb as [Hb _]; vm_compute in Hb).
  rewrite (proj2 (N.ltb_ge _ _)) by lia. cbn [orb].
  rewrite (required_single _ _ _ H3); cbn [rbind].
  rewrite parse_n_to_string by lia; cbn [ok_or rbind].
  rewrite (proj2 (checked_add_Some _ _ _ (t + 1))) by (split; [done|lia]); cbn [ok_or rbind].
  rewrite N.eqb_refl; cbn [negb].
  rewrite (optional_single _ _ _ H4) by (by destruct (t =? 0)); cbn [rbind].
  rewrite (optional_single _ _ _ H5) by (by destruct (apm_expected_last_subject_sequence m)); cbn [rbind].
  rewrite (optional_single _ _ _ H6) by (by destruct (t + 1 =? total)).
  replace (head (if t =? 0 then [nc_stream_name config] else []))
    with (if t =? 0 then Some (nc_stream_name config) else None) by (by destruct (t =? 0)).
  replace (head (match apm_expected_last_subject_sequence m with Some s => [n_to_string s] | None => [] end))
    with (n_to_string <$> apm_expected_last_subject_sequence m)
    by (by destruct (apm_expected_last_subject_sequence m)).
  replace (head (if t + 1 =? total then [NATS_BATCH_COMMIT_FINAL] else []))
    with (if t + 1 =? total then Some NATS_BATCH_COMMIT_FINAL else None) by (by destruct (t + 1 =? total)).
  erewrite expectation_validate by done. cbn [rbind]. by erewrite commit_header_validate.
Qed.

(** ** The round trip *)

Definition new_event_ok (e : NewEvent) : Prop :=
  NewEvent_new (ne_event_id e) (ne_event_type e) (ne_schema_version e) (ne_payload e) = Ok e.

(** A batch for a stream, as the constructors and the writer's checks leave it *)
Record publishable (stream : StreamId) (b : EventBatch) : Prop := {
  pb_stream : stream_ok stream;
  pb_batch : batch_ok b;
  pb_derived : derived stream b;
  pb_operation : ident_ok (eb_operation_id b);
  pb_fingerprint : fingerprint_ok (eb_operation_fingerprint b);
  pb_correlation : ∀ c, eb_correlation_id b = Some c → identifier_ok c;
  pb_causation : ∀ c, eb_causation_id b = Some c → identifier_ok c;
  pb_events : Forall new_event_ok (eb_events b);
}.

(** The coordinates of the event at [i] in its atomic batch *)
Definition batch_coordinates (transaction : option (N * N)) (i count : N) : N * N :=
  match transaction with Some (offset, total) => (offset + i, total) | None => (i, count) end.

Definition decoded_from (batch_id : string) (transaction : option (N * N)) (e : RecordedEvent) (seq : N)
  : DecodedStoredEvent :=
  let (t, tn) := batch_coordinates transaction (re_commit_event_ordinal e) (re_commit_event_count e) in
  {| dse_decoded :=
       {| de_batch_id := batch_id; de_commit_id := re_commit_id e; de_operation_id := re_operation_id e;
          de_operation_fingerprint := re_operation_fingerprint e;
          de_event_ordinal := re_commit_event_ordinal e; de_event_count := re_commit_event_count e;
          de_transaction_event_ordinal := t; de_transaction_event_count := tn;
          de_is_transactional := is_some transaction; de_recorded := e |};
     dse_global_stream_sequence := seq; dse_is_transactional := is_some transaction |}.

Lemma transpose_identifier {k} (o : option (identifier k)) :
  (∀ c, o = Some c → identifier_ok c) → transpose (identifier_new k <$> (id_str <$> o)) = Ok o.
Proof. intros H. destruct o as [c|]; [|done]. cbn. by rewrite (H c eq_refl). Qed.

Lemma new_in_commit_of_new stream v event commit op fp o n e :
  new_event_ok e → v ≠ 0 → o < n <= MAX_EVENTS_PER_BATCH → event = ne_event_id e →
  new_in_commit stream (mkStreamVersion v) event commit op fp o n (ne_event_type e)
    (ne_schema_version e) (ne_payload e)
  = Ok (mkRecordedEvent None stream (mkStreamVersion v) event commit op fp o n None None
          (ne_event_type e) (ne_schema_version e) (ne_payload e)).
Proof.
  unfold new_event_ok, NewEvent_new, new_in_commit. intros He Hv Ho ->. guards.
  rewrite bool_decide_eq_false_2 by (unfold version_zero; congruence).
  rewrite (proj2 (N.eqb_neq n 0)) by lia. rewrite (proj2 (N.leb_gt n o)) by lia. cbn [orb].
  destruct (is_some_and _ _) eqn:E2; [cbn in E2; bool_step; lia|]. cbn [orb].
  by match goal with H : validate_event_type _ = _ |- _ => rewrite H end.
Qed.

Lemma decode_recorded_content stream b i e v count t tn :
  publishable stream b → eb_events b !! i = Some e → count = len (eb_events b) →
  let r := from_new stream (mkStreamVersion (v + N.of_nat i + 1)) b (N.of_nat i) count e in
  decode_recorded stream (event_content config stream b (N.of_nat i) count t tn r) = Ok r.
Proof.
  intros [Hs Hb [Hdc Hde] Ho Hf Hco Hca Hev] Hi ->. pose proof (lookup_lt_Some _ _ _ Hi) as Hlt.
  pose proof (bo_count _ Hb) as Hn. rewrite Forall_lookup in Hev. specialize (Hev _ _ Hi).
  unfold decode_recorded, event_content, from_new, stored_identity, stored_contract.
  cbn [sec_stream_version sec_commit_id sec_operation_id sec_operation_fingerprint sec_correlation_id
    sec_causation_id sec_event_id sec_payload_base64 sec_commit_event_ordinal sec_commit_event_count
    sec_event_type sec_event_schema_version sec_actor re_stream_version version_value re_event_id
    re_event_type re_schema_version re_payload].
  rewrite (proj2 (N.eqb_neq _ _)) by lia.
  assert (ident_ok (eb_commit_id b)) as -> by (rewrite Hdc; apply derive_commit_id_ok).
  cbn [map_err rbind]. rewrite Ho. cbn [map_err rbind]. rewrite from_hex_to_hex by done. cbn [map_err rbind].
  unfold CorrelationId_new, CausationId_new.
  rewrite !transpose_identifier by done. cbn [map_err rbind].
  assert (ident_ok (ne_event_id e)) as -> by (rewrite (Hde _ _ Hi); apply derive_event_id_ok).
  cbn [map_err rbind]. rewrite base64_roundtrip. cbn [map_err rbind].
  rewrite <- Hdc, <- (Hde _ _ Hi), !bool_decide_eq_true_2 by done. cbn [negb orb].
  rewrite new_in_commit_of_new by (done || unfold len in *; lia). cbn [map_err rbind].
  by destruct (eb_correlation_id b), (eb_causation_id b), (eb_actor b).
Qed.

Lemma event_schema_facts tr at_ :
  transactional_event_schema (event_schema tr at_) = tr ∧ actor_event_schema (event_schema tr at_) = at_
  ∧ supported_event_schema (event_schema tr at_) = true ∧ EVENT_SCHEMA_VERSION <= event_schema tr at_.
Proof. by destruct tr, at_. Qed.

Lemma encode_event_Ok stream b count tr i e payload :
  encode_event config stream b count tr (i, e) = Ok payload →
  let version := event_schema (is_some tr) (is_some (eb_actor b)) in
  let content := event_content config stream b i count ((λ x, x.1 + i) <$> tr) (snd <$> tr) e in
  ∃ checksum, event_checksum version content = Ok checksum
    ∧ from_slice payload = Ok (mkEventWire version checksum content) ∧ i <= u32_max.
Proof.
  unfold encode_event. intros H. guards.
  match goal with H : try_from _ _ = Some _ |- _ => apply try_from_Some in H as [-> ?] end.
  match goal with H : transpose _ = Ok ?o |- _ => assert (o = ((λ x, x.1 + i) <$> tr)) as Et end.
  { destruct tr as [[off n]|]; cbn in *; [|congruence].
    destruct (checked_add u32_max off i) eqn:E2; cbn in *; [|done].
    apply checked_add_Some in E2 as [-> _]. congruence. }
  rewrite Et in *. eexists. split_and!; [done| |done]. by apply json_roundtrip.
Qed.

Lemma validate_event_schema_content stream b i count tr checksum e :
  validate_event_schema (mkEventWire (event_schema (is_some tr) (is_some (eb_actor b))) checksum
    (event_content config stream b i count ((λ x, x.1 + i) <$> tr) (snd <$> tr) e)) = Ok tt.
Proof.
  unfold validate_event_schema; cbn [sew_schema_version sew_event].
  destruct (event_schema_facts (is_some tr) (is_some (eb_actor b))) as (-> & -> & -> & Hv).
  cbn [negb event_content sec_actor sec_correlation_id sec_causation_id sec_application
    sec_bounded_context sec_transaction_event_ordinal sec_transaction_event_count].
  rewrite eqb_reflx. cbn [negb]. unfold EVENT_SCHEMA_VERSION, LEGACY_EVENT_SCHEMA_VERSION in *.
  rewrite (proj2 (N.eqb_neq _ 1)), (proj2 (N.ltb_ge _ 3)) by lia. by destruct tr as [[]|].
Qed.

Lemma decode_coordinates_content stream b i count tr checksum e :
  i < count <= MAX_EVENTS_PER_BATCH →
  (∀ off n, tr = Some (off, n) → off + i < n <= MAX_EVENTS_PER_BATCH) →
  decode_coordinates (mkEventWire (event_schema (is_some tr) (is_some (eb_actor b))) checksum
    (event_content config stream b i count ((λ x, x.1 + i) <$> tr) (snd <$> tr) e))
  = Ok (i, count, (batch_coordinates tr i count).1, (batch_coordinates tr i count).2).
Proof.
  intros Hi Ht. unfold MAX_EVENTS_PER_BATCH in *.
  assert (∀ n, n <= 100 → try_from usize_max n = Some n) as Hf.
  { intros n Hn. apply try_from_Some. split; [done|]. unfold usize_max, u64_max. lia. }
  unfold decode_coordinates; cbn [sew_schema_version sew_event event_content sec_commit_event_count
    sec_commit_event_ordinal sec_transaction_event_ordinal sec_transaction_event_count].
  destruct (event_schema_facts (is_some tr) (is_some (eb_actor b))) as (-> & _).
  rewrite !Hf by lia. cbn [ok_or rbind]. unfold MAX_EVENTS_PER_BATCH.
  rewrite (proj2 (N.eqb_neq _ _)), (proj2 (N.ltb_ge _ _)), (proj2 (N.leb_gt _ _)) by lia. cbn [orb].
  destruct tr as [[off n]|]; cbn [is_some fmap option_fmap option_map fst snd ok_or rbind batch_coordinates];
    [|done].
  specialize (Ht _ _ eq_refl). rewrite !Hf by lia. cbn [ok_or rbind].
  by rewrite (proj2 (N.eqb_neq _ _)), (proj2 (N.ltb_ge _ _)), (proj2 (N.leb_gt _ _)) by lia.
Qed.

Lemma decode_stream_content stream b i count t tn e :
  stream_ok stream →
  decode_stream config
    (aggregate_subject config (ident_str (aggregate_type stream)) (ident_str (aggregate_id stream)))
    (Some stream) (event_content config stream b i count t tn e) = Ok stream.
Proof.
  intros [Ht Hi]. unfold decode_stream, stored_identity; cbn [event_content sec_stream siw_aggregate_type
    siw_aggregate_id]. rewrite Ht, Hi. cbn [map_err rbind is_some_and].
  destruct stream as [a n]. rewrite bool_decide_eq_true_2 by done. by rewrite String.eqb_refl.
Qed.

Lemma validate_event_origin_content stream b i count t tn e version checksum :
  let content := event_content config stream b i count t tn e in
  event_checksum version content = Ok checksum →
  validate_event_origin config (mkEventWire version checksum content) = Ok tt.
Proof.
  intros content Hc. unfold validate_event_origin; cbn [sew_schema_version sew_event sew_checksum].
  rewrite Hc. cbn [map_err rbind]. rewrite !String.eqb_refl. cbn [negb].
  rewrite !bool_decide_eq_true_2 by done. cbn [negb orb]. by rewrite andb_false_r.
Qed.

(** The event at [i] of a publishable batch, encoded and read from the message
    it was published in, is the event that was recorded. *)
Lemma published_decodes stream b i e v tr payload total last batch_id corr expected seq m :
  publishable stream b → eb_events b !! i = Some e →
  (∀ off n, tr = Some (off, n) → off + len (eb_events b) <= n <= MAX_EVENTS_PER_BATCH ∧ n < total) →
  (tr = None → total = len (eb_events b)) →
  let r := from_new stream (mkStreamVersion (v + N.of_nat i + 1)) b (N.of_nat i) (len (eb_events b)) e in
  encode_event config stream b (len (eb_events b)) tr (N.of_nat i, r) = Ok payload →
  len payload <= MAX_SUPPORTED_EVENT_BYTES → 0 < str_len batch_id <= 64 → last <= u64_max →
  apm_expected_last_subject_sequence m = (if N.of_nat i =? 0 then Some last else None) →
  (∀ s, expected = Some s → s = last) →
  decode_event config
    (aggregate_subject config (ident_str (aggregate_type stream)) (ident_str (aggregate_id stream)))
    stream expected seq
    (atomic_headers config batch_id corr total
       (batch_coordinates tr (N.of_nat i) (len (eb_events b))).1 m) payload
  = Ok (decoded_from batch_id tr r seq).
Proof.
  intros Hp Hi Htr Hdir r Henc Hlen Hb Hlast Hm Hx. subst r.
  pose proof (pb_batch _ _ Hp) as Hbo. pose proof (bo_count _ Hbo) as Hn.
  pose proof (lookup_lt_Some _ _ _ Hi) as Hlt.
  assert (N.of_nat i < len (eb_events b)) as Hil by (unfold len; lia).
  apply encode_event_Ok in Henc as (checksum & Hc & Hf & _).
  unfold decode_event, decode_event_inner. rewrite (proj2 (N.ltb_ge _ _)) by done.
  rewrite Hf. cbn [map_err rbind].
  rewrite validate_event_schema_content; cbn [rbind].
  rewrite validate_event_origin_content by done; cbn [rbind sew_event].
  rewrite decode_stream_content by apply Hp; cbn [rbind].
  rewrite decode_coordinates_content; [|lia|intros off n E; destruct (Htr _ _ E); lia]; cbn [rbind].
  rewrite decode_recorded_content by done; cbn [rbind sew_schema_version].
  erewrite atomic_headers_validate; [| |done|exact Hx].
  - cbn [rbind dse_decoded dse_is_transactional].
    destruct (event_schema_facts (is_some tr) (is_some (eb_actor b))) as (-> & _).
    unfold decoded_from. cbn [from_new re_commit_event_ordinal re_commit_event_count].
    by destruct (batch_coordinates tr _ _).
  - destruct (event_schema_facts (is_some tr) (is_some (eb_actor b))) as (Ht & _). split; try done.
    + destruct tr as [[off n]|]; cbn [batch_coordinates fst]; [destruct (Htr _ _ eq_refl)|];
        unfold MAX_EVENTS_PER_BATCH, usize_max, u64_max in *; lia.
    + rewrite Ht. destruct tr as [[off n]|]; [done|]. intros _. by rewrite Hdir.
    + rewrite Ht. destruct tr as [[off n]|]; [|done]. intros _. cbn [batch_coordinates fst].
      destruct (Htr _ _ eq_refl). lia.
Qed.

End Facts.
