(* ===== verification/MemoryInvariant.v ===== *)
(** * MemoryInvariant: the states the in-memory store can reach - how its
    operations extend them, the invariant they keep, and what follows for
    replays, conflicts, concurrent writers and expiry. *)

From S2P Require Export MemoryFacts.

(** ** Growth: what no operation ever takes back *)

Record grows (s s' : State) : Prop := {
  gr_streams : ∀ stream, load s stream `prefix_of` load s' stream;
  gr_operations : operations s ⊆ operations s';
  gr_commits : commits s ⊆ commits s';
  gr_event_ids : event_ids s ⊆ event_ids s';
  gr_transactions : transactions s ⊆ transactions s';
}.

#[global] Instance grows_preorder : PreOrder grows.
Proof.
  split; [by split|]. intros a b c [? ? ? ? ?] [? ? ? ? ?].
  split; [intros stream; by trans (load b stream)|by etrans..].
Qed.

(** The events [evs] of [stream] after version [base] are recorded. *)
Definition slice (s : State) (stream : StreamId) (base : N) (evs : list RecordedEvent) : Prop :=
  ∃ pre post, load s stream = pre ++ evs ++ post ∧ len pre = base.

Lemma slice_grows s s' stream base evs : grows s s' → slice s stream base evs → slice s' stream base evs.
Proof.
  intros Hg (pre & post & He & Hl). destruct (gr_streams _ _ Hg stream) as [k Hk].
  exists pre, (post ++ k). rewrite Hk, He, <- !app_assoc. done.
Qed.

(** The number of events in the streams *)
Definition stored_events (s : State) : N := map_fold (λ _ evs n, len evs + n) 0 (streams s).

Lemma stored_events_insert (m : gmap StreamId (list RecordedEvent)) i evs :
  map_fold (λ _ evs n, len evs + n) 0 (<[i := evs]> m)
  = len evs + map_fold (λ _ evs n, len evs + n) 0 (delete i m).
Proof.
  rewrite <- insert_delete_eq, map_fold_insert_L; [done|intros; lia|apply lookup_delete_eq].
Qed.

Section Invariant.
Context `{SHA : Sha256} `{OJ : OutcomeJson}.

Lemma stored_events_write_batch stream b evs prov s :
  stored_events (write_batch stream b evs prov s) = stored_events s + len evs.
Proof.
  unfold stored_events, write_batch; cbn [streams]. rewrite stored_events_insert. unfold load.
  destruct (streams s !! stream) as [old|] eqn:E; cbn [default from_option].
  - pose proof (stored_events_insert (streams s) stream old) as H. rewrite insert_id in H by done.
    rewrite H, len_app. unfold id. lia.
  - rewrite delete_id by done. rewrite len_app, len_nil. lia.
Qed.

Lemma grows_write_batch stream b evs prov s :
  operations s !! (stream, eb_operation_id b) = None →
  commits s !! (stream, eb_commit_id b) = None → grows s (write_batch stream b evs prov s).
Proof.
  intros Ho Hc. split; cbn [write_batch operations commits event_ids transactions]; try done.
  - intros other. rewrite load_write_batch. case_decide; subst; [by eexists|done].
  - by apply insert_subseteq.
  - by apply insert_subseteq.
  - set_solver.
Qed.

(** ** Journals *)

Definition journals (s : State) : Prop := ∀ stream, ∃ bs, journal_ok s stream bs.

(** The operation index points into the streams. *)
Definition append_ok (s : State) (stream : StreamId) (operation : OperationId) (sa : StoredAppend)
  : Prop :=
  eb_operation_id (sa_batch sa) = operation
  ∧ ∃ base, slice s stream base (sa_events sa)
      ∧ sa_events sa = record_group stream base (sa_batch sa).

Record journal_state (s : State) : Prop := {
  js_journals : journals s;
  js_operations : ∀ stream op sa, operations s !! (stream, op) = Some sa → append_ok s stream op sa;
}.

Lemma append_ok_grows s s' stream op sa : grows s s' → append_ok s stream op sa → append_ok s' stream op sa.
Proof. intros Hg (? & base & Hs & ?). split; [done|]. exists base. split; [by eapply slice_grows|done]. Qed.

Lemma journal_state_write stream b evs prov s :
  journal_state s → writable s stream b evs → journal_state (write_batch stream b evs prov s).
Proof.
  intros [Hj Ho] Hw.
  assert (grows s (write_batch stream b evs prov s)) as Hg by (apply grows_write_batch; apply Hw).
  split.
  - intros other. destruct (Hj other) as [bs Hbs]. destruct (decide (other = stream)) as [->|Hne].
    + eexists. by eapply journal_ok_extend.
    + exists bs. by apply journal_ok_other.
  - intros other op sa. cbn [write_batch operations].
    rewrite lookup_insert_Some. intros [[[= <- <-] <-]|[Hne Hl]].
    + split; [done|]. exists (len (load s stream)). cbn [sa_events sa_batch].
      split; [|apply Hw]. exists (load s stream), []. rewrite load_write_batch, decide_True by done.
      by rewrite app_nil_r.
    + eapply append_ok_grows; [exact Hg|by apply Ho].
Qed.

Lemma writable_other s stream b evs other b' evs' prov :
  stream ≠ other → writable s stream b evs → writable (write_batch other b' evs' prov s) stream b evs.
Proof.
  intros Hne [? ? Ho Hc He Hr]. split; try done; cbn [write_batch operations commits event_ids].
  - rewrite lookup_insert_ne; [done|congruence].
  - rewrite lookup_insert_ne; [done|congruence].
  - eapply Forall_impl; [exact He|]. intros e Hn [Hin|Hin]%elem_of_union; [done|].
    apply elem_of_list_to_set, list_elem_of_fmap in Hin as (? & [= ? _] & _). done.
  - by rewrite load_write_batch, decide_False.
Qed.

(** ** The journal writes of a transaction *)

Definition staged_stream (x : Staged) : StreamId := tp_stream_id x.1.1.

Definition staged_ok (s : State) (x : Staged) : Prop :=
  match tp_batch x.1.1 with
  | Some b => writable s (staged_stream x) b x.2
  | None => x.2 = []
  end.

Lemma write_staged_other s x y :
  staged_stream y ≠ staged_stream x → staged_ok s y → staged_ok (write_staged s x) y.
Proof.
  destruct x as [[p base] evs], y as [[q base'] evs']. unfold staged_ok, staged_stream; cbn [fst snd].
  intros Hne Hy. destruct (tp_batch q); [|done]. unfold write_staged.
  destruct (tp_batch p); [|done]. by apply writable_other.
Qed.

(** What one staged participant does to the state *)
Lemma write_staged_step s x :
  journal_state s → staged_ok s x →
  journal_state (write_staged s x) ∧ grows s (write_staged s x)
  ∧ stored_events (write_staged s x) = stored_events s + len x.2
  ∧ (∀ stream, load (write_staged s x) stream
               = load s stream ++ (if decide (stream = staged_stream x) then x.2 else [])).
Proof.
  destruct x as [[p base] evs]. unfold staged_ok, staged_stream, write_staged; cbn [fst snd].
  intros Hj Hx. destruct (tp_batch p) as [b|]; cycle 1.
  { subst evs. rewrite len_nil, N.add_0_r. split_and!; try done.
    intros stream. case_decide; by rewrite app_nil_r. }
  split_and!.
  - by apply journal_state_write.
  - apply grows_write_batch; apply Hx.
  - apply stored_events_write_batch.
  - intros stream. rewrite load_write_batch. case_decide; [by subst|]. by rewrite app_nil_r.
Qed.

Definition events_for (stream : StreamId) (l : list Staged) : list RecordedEvent :=
  concat ((λ x, if decide (stream = staged_stream x) then x.2 else []) <$> l).

Lemma write_all l s :
  NoDup (staged_stream <$> l) → Forall (staged_ok s) l → journal_state s →
  let s' := foldl write_staged s l in
  journal_state s' ∧ grows s s'
  ∧ stored_events s' = stored_events s + len (concat (snd <$> l))
  ∧ (∀ stream, load s' stream = load s stream ++ events_for stream l).
Proof.
  revert s; induction l as [|x l IH]; intros s Hnd Hall Hj; cbn [foldl].
  - unfold events_for; cbn. rewrite len_nil, N.add_0_r. split_and!; try done.
    intros. by rewrite app_nil_r.
  - rewrite fmap_cons in Hnd. apply NoDup_cons in Hnd as [Hni Hnd].
    apply Forall_cons in Hall as [Hx Hall].
    destruct (write_staged_step s x Hj Hx) as (Hj1 & Hg1 & Hc1 & Hl1).
    destruct (IH (write_staged s x) Hnd) as (Hj2 & Hg2 & Hc2 & Hl2); [|done|].
    { rewrite Forall_forall in *. intros y Hy. apply write_staged_other; [|by apply Hall].
      intros E. apply Hni. rewrite <- E. by apply list_elem_of_fmap_2. }
    split_and!; [done|by etrans| |].
    + rewrite Hc2, Hc1. cbn [fmap list_fmap concat]. rewrite len_app. lia.
    + intros stream. rewrite Hl2, Hl1. unfold events_for. cbn [fmap list_fmap concat].
      by rewrite <- app_assoc.
Qed.

Lemma write_all_frame l s :
  transactions (foldl write_staged s l) = transactions s
  ∧ details (foldl write_staged s l) = details s.
Proof.
  revert s; induction l as [|[[p base] evs] l IH]; intros s; cbn [foldl]; [done|].
  destruct (IH (write_staged s (p, base, evs))) as [-> ->]. unfold write_staged.
  by destruct (tp_batch p).
Qed.

(** ** What a fresh transaction adds to the streams *)

Lemma current_version_load s stream :
  journal_state s → version_value (current_version s stream) = len (load s stream).
Proof. intros [Hj _]. destruct (Hj stream) as [bs Hbs]. by rewrite (journal_current_version _ _ _ Hbs). Qed.

Lemma staged_of_ok s t :
  journal_state s → transaction_ok t → transaction_writable s t → Forall (staged_ok s) (staged_of s t).
Proof.
  intros Hj [Hb _] [_ Hw _]. unfold staged_of. rewrite Forall_fmap, Forall_forall. intros p Hp.
  rewrite Forall_forall in Hw. specialize (Hw p Hp).
  unfold staged_ok, staged_stream, participant_events; cbn [compose fst snd].
  destruct (tp_batch p) as [b|] eqn:Ep; [|done]. cbn [from_option].
  destruct (Hw b eq_refl) as [_ _ _ _ _ Hd [Ho Hc He]]. split; try done; [by eapply Hb|].
  by rewrite current_version_load.
Qed.

Lemma staged_of_streams s t : staged_stream <$> staged_of s t = tp_stream_id <$> tx_participants t.
Proof. unfold staged_of. by rewrite <- list_fmap_compose. Qed.

Lemma staged_of_total s t : len (concat (snd <$> staged_of s t)) = event_total (tx_batches t).
Proof.
  unfold staged_of, tx_batches. induction (tx_participants t) as [|p ps IH]; [done|].
  cbn [fmap list_fmap concat omap list_omap snd]. rewrite len_app, IH. unfold participant_events.
  destruct (tp_batch p) as [b|]; cbn [from_option]; [|rewrite len_nil; lia].
  unfold event_total; cbn [foldr]. f_equal. unfold len. by rewrite length_record_group.
Qed.

Lemma events_for_notin stream l : stream ∉ (staged_stream <$> l) → events_for stream l = [].
Proof.
  induction l as [|x l IH]; [done|]. cbn [fmap list_fmap]. rewrite not_elem_of_cons. intros [Hx Hl].
  unfold events_for; cbn [fmap list_fmap concat]. rewrite decide_False by done. by apply IH.
Qed.

Lemma events_for_in l x : NoDup (staged_stream <$> l) → x ∈ l → events_for (staged_stream x) l = x.2.
Proof.
  induction l as [|y l IH]; intros Hnd Hx; [by apply elem_of_nil in Hx|].
  rewrite fmap_cons in Hnd. apply NoDup_cons in Hnd as [Hni Hnd].
  unfold events_for; cbn [fmap list_fmap concat]. apply elem_of_cons in Hx as [->|Hx].
  - rewrite decide_True by done. change (concat _) with (events_for (staged_stream y) l).
    rewrite events_for_notin by done. apply app_nil_r.
  - rewrite decide_False; [by apply IH|]. intros E. apply Hni. rewrite <- E. by apply list_elem_of_fmap_2.
Qed.

(** The streams after a fresh transaction: each participant's stream has its
    events added, every other stream is as it was. *)
Lemma commit_state_spec st s t stored detail :
  journal_state s → transaction_ok t → commit_fresh st s t →
  let s' := commit_state s t stored detail in
  journal_state s'
  ∧ (∀ stream, load s stream `prefix_of` load s' stream)
  ∧ operations s ⊆ operations s' ∧ commits s ⊆ commits s' ∧ event_ids s ⊆ event_ids s'
  ∧ stored_events s' = stored_events s + event_total (tx_batches t)
  ∧ (∀ p, p ∈ tx_participants t →
       load s' (tp_stream_id p) = load s (tp_stream_id p) ++ participant_events s p)
  ∧ (∀ stream, stream ∉ tp_stream_id <$> tx_participants t → load s' stream = load s stream).
Proof.
  intros Hj Ht [_ _ Hw _ _]. pose proof (tw_streams _ _ Hw) as Hnd.
  rewrite <- (staged_of_streams s) in Hnd.
  destruct (write_all (staged_of s t) s Hnd (staged_of_ok _ _ Hj Ht Hw) Hj) as ([Hj1 Hj2] & Hg & Hc & Hl).
  intros s'.
  assert (∀ stream, load s' stream = load (foldl write_staged s (staged_of s t)) stream) as El by done.
  split_and!.
  - split.
    + intros stream. destruct (Hj1 stream) as [bs [? ? ? ? ? ? ? ?]]. by exists bs.
    + exact Hj2.
  - apply Hg.
  - apply Hg.
  - apply Hg.
  - apply Hg.
  - rewrite <- (staged_of_total s). exact Hc.
  - intros p Hp. rewrite El, Hl. f_equal.
    apply (events_for_in (staged_of s t) (p, current_version s (tp_stream_id p), participant_events s p)); [done|].
    unfold staged_of. apply list_elem_of_fmap. by exists p.
  - intros stream Hn. rewrite El, Hl. rewrite events_for_notin; [apply app_nil_r|].
    by rewrite staged_of_streams.
Qed.

(** ** The invariant *)

(** A receipt of the operation whose events are in the streams, at the base
    versions it names *)
Record recorded (s : State) (operation : OperationId) (r : TransactionReceipt) : Prop := {
  rc_integrity : integrity_ok r;
  rc_operation : tr_operation_id r = operation;
  rc_completion : tr_completion r = None;
  rc_streams : Forall (λ x, slice s (sr_stream_id x) (version_value (sr_base_version x)) (sr_events x))
                 (tr_streams r);
}.

Definition stored_ok (st : InMemoryEventStore) (s : State) (context : option BoundedContextName)
    (operation : OperationId) (x : StoredTransaction) : Prop :=
  match x with
  | Scoped m => ∃ c, context = Some c
      ∧ ref_key (mk_reference m) = mkOutcomeKey (ims_authority st) c operation
      ∧ is_Some (details s !! mk_reference m) ∧ recorded s operation (mk_integrity m)
  | Unscoped _ r => context = None ∧ recorded s operation r
  end.

(** Details belong to a stored marker, and while they are active they decode
    against its reference. *)
Definition detail_ok (s : State) (r : OutcomeDetailReference) (d : DetailState) : Prop :=
  (∃ m, transactions s !! (Some (key_context (ref_key r)), key_operation (ref_key r)) = Some (Scoped m)
        ∧ mk_reference m = r)
  ∧ match d with
    | Active bytes => ∃ c, details_decode r bytes = Ok (mkDetails r c)
    | DetailExpired => True
    end.

Record state_ok (st : InMemoryEventStore) (s : State) : Prop := {
  so_journal : journal_state s;
  so_count : event_count s = stored_events s;
  so_capacity : event_count s <= ims_maximum_events st;
  so_outcomes : N.of_nat (size (transactions s)) <= ims_maximum_outcomes st;
  so_stored : ∀ context operation x,
    transactions s !! (context, operation) = Some x → stored_ok st s context operation x;
  so_details : ∀ r d, details s !! r = Some d → detail_ok s r d;
}.

(** An evolution: growth, and details that stay or are withdrawn *)
Record evolves (s s' : State) : Prop := {
  ev_grows : grows s s';
  ev_details : ∀ r d, details s !! r = Some d →
    details s' !! r = Some d ∨ details s' !! r = Some DetailExpired;
}.

#[export] Instance evolves_preorder : PreOrder evolves.
Proof.
  split; [split; auto; done|]. intros a b c [Hg1 H1] [Hg2 H2]. split; [by etrans|].
  intros r d Hd. destruct (H1 r d Hd) as [Hb|Hb]; [by apply H2|]. destruct (H2 _ _ Hb); auto.
Qed.

Lemma recorded_grows s s' op r : grows s s' → recorded s op r → recorded s' op r.
Proof.
  intros Hg [? ? ? Hs]. split; try done. eapply Forall_impl; [exact Hs|].
  intros x. by apply slice_grows.
Qed.

Lemma stored_ok_evolves st s s' context op x :
  evolves s s' → stored_ok st s context op x → stored_ok st s' context op x.
Proof.
  intros [Hg Hd]. destruct x as [m|d r]; cbn [stored_ok].
  - intros (c & ? & ? & [y Hy] & ?). exists c. split_and!; try done; [|by eapply recorded_grows].
    by destruct (Hd _ _ Hy); eexists.
  - intros [? ?]. split; [done|by eapply recorded_grows].
Qed.

Lemma detail_ok_evolves s s' r d : evolves s s' → detail_ok s r d → detail_ok s' r d.
Proof.
  intros [Hg _] [(m & Hm & ?) ?]. split; [|done]. exists m. split; [|done].
  eapply lookup_weaken; [exact Hm|apply Hg].
Qed.

(** ** The operations keep it *)

Lemma state_ok_default st : state_ok st State_default.
Proof.
  split; try done; [|apply N.le_0_l..]. split; [|done].
  intros stream. exists []. by split; try constructor.
Qed.

(** An invariant of the stored values under a step that leaves the
    transactions and details alone *)
Lemma state_ok_journal st s s' :
  state_ok st s → grows s s' → journal_state s' →
  transactions s' = transactions s → details s' = details s →
  event_count s' = stored_events s' → event_count s' <= ims_maximum_events st → state_ok st s'.
Proof.
  intros [_ _ _ Ho Hst Hde] Hg Hj Et Ed Hc Hcap.
  assert (evolves s s') as Hev by (split; [done|]; rewrite Ed; by left).
  split; [done..|by rewrite Et| |].
  - intros c op x Hx. rewrite Et in Hx. eapply stored_ok_evolves; [exact Hev|by apply Hst].
  - intros r d Hd. rewrite Ed in Hd. eapply detail_ok_evolves; [exact Hev|by apply Hde].
Qed.

Lemma append_step st s stream expected b out s' :
  ims_maximum_events st <= usize_max → batch_ok b → state_ok st s →
  append st s stream expected b = Ok (out, s') → state_ok st s' ∧ evolves s s'.
Proof.
  intros Hm Hb Hs H. destruct (operations s !! (stream, eb_operation_id b)) as [previous|] eqn:Ho.
  { unfold append in H. rewrite Ho in H.
    destruct (bool_decide (sa_provenance previous = Direct) && _); [by injection H as <- <-|].
    by destruct (bool_decide (sa_provenance previous = ByTransaction)). }
  apply append_fresh_Ok in H as [[[_ Hc He] Hd Hv Hcap Hr] [-> ->]]; [|done..].
  set (evs := record_group _ _ _). pose proof (so_journal _ _ Hs) as Hj.
  assert (writable s stream b evs) as Hw.
  { split; try done. unfold evs. by rewrite current_version_load. }
  assert (grows s (set_event_count (event_count s + len (eb_events b)) (write_batch stream b evs Direct s))) as Hg.
  { destruct (grows_write_batch stream b evs Direct s Ho Hc). by split. }
  split; [|split; [done|by left]]. apply (state_ok_journal st s); try done.
  - destruct (journal_state_write stream b evs Direct s Hj Hw) as [Hj1 Hj2].
    split; [|exact Hj2]. intros other. destruct (Hj1 other) as [bs [? ? ? ? ? ? ? ?]]. by exists bs.
  - cbn [set_event_count event_count].
    change (stored_events (set_event_count _ ?x)) with (stored_events x).
    rewrite stored_events_write_batch, (so_count _ _ Hs). f_equal.
    unfold evs, len. by rewrite length_record_group.
Qed.

(** The key of the reference that [prepare] builds *)
Lemma store_receipt_spec st t d r stored detail :
  transaction_ok t → store_receipt st t d r = Ok (stored, detail) →
  (tx_bounded_context t = None ∧ stored = Unscoped d r ∧ detail = None)
  ∨ ∃ context m bytes, tx_bounded_context t = Some context
      ∧ prepared (ims_authority st) t r m bytes ∧ stored = Scoped m
      ∧ detail = Some (mk_reference m, Active bytes)
      ∧ ref_key (mk_reference m) = mkOutcomeKey (ims_authority st) context (tx_operation_id t).
Proof.
  intros [_ Ha]. unfold store_receipt. destruct (tx_bounded_context t) as [context|] eqn:Ec.
  - intros H. guards. match goal with H : (let (_, _) := ?x in _) = Ok _ |- _ => destruct x as [m bytes] end.
    injection H as <- <-. match goal with H : prepare _ _ _ = Ok _ |- _ => apply prepare_Ok in H; rename H into Hp end.
    right. exists context, m, bytes. split_and!; try done.
    destruct (pr_context _ _ _ _ _ Hp) as (c & Hc & -> & _). cbn. congruence.
  - intros [= <- <-]. by left.
Qed.

Lemma commit_recorded st s t stored detail :
  journal_state s → transaction_ok t → commit_fresh st s t →
  recorded (commit_state s t stored detail) (tx_operation_id t) (commit_receipt s t).
Proof.
  intros Hj Ht Hf. destruct (commit_state_spec st s t stored detail Hj Ht Hf) as (_ & _ & _ & _ & _ & _ & Hin & _).
  destruct Hf as [_ _ Hw _ Hr]. split.
  - by apply commit_integrity_ok.
  - unfold commit_receipt. by rewrite staged_receipt_eq.
  - unfold commit_receipt. by rewrite staged_receipt_eq.
  - rewrite commit_receipt_streams, Forall_fmap, Forall_forall. intros p Hp.
    cbn [compose participant_receipt sr_stream_id sr_base_version sr_events].
    exists (load s (tp_stream_id p)), []. rewrite app_nil_r, Hin by done. split; [done|].
    by rewrite current_version_load.
Qed.

Lemma recorded_without_completion s op r : recorded s op r → recorded s op (without_completion r).
Proof. intros [? ? ? ?]. split; try done. by apply validate_integrity_without_completion. Qed.

Lemma commit_evolves st s t stored detail :
  ims_maximum_events st <= usize_max → transaction_ok t → state_ok st s → commit_fresh st s t →
  (∀ r d, detail = Some (r, d) →
     (key_context (ref_key r), key_operation (ref_key r)) = (key_context (ref_key r), tx_operation_id t)
     ∧ tx_bounded_context t = Some (key_context (ref_key r))) →
  evolves s (commit_state s t stored detail).
Proof.
  intros Hm Ht Hs Hf Hd. pose proof (so_journal _ _ Hs) as Hj.
  destruct (commit_state_spec st s t stored detail Hj Ht Hf) as (_ & Hp & Ho & Hc & He & _).
  destruct (write_all_frame (staged_of s t) s) as [Et Ed]. split.
  - split; try done. cbn [commit_state transactions]. rewrite Et.
    apply insert_subseteq. apply Hf.
  - intros r d Hr. left. cbn [commit_state details]. rewrite Ed.
    destruct detail as [[r' d']|]; cbn [insert_detail]; [|done].
    rewrite lookup_insert_ne; [done|]. intros <-.
    destruct (so_details _ _ Hs _ _ Hr) as [(m & Hm' & _) _].
    destruct (Hd r' d' eq_refl) as [[= Eo] Ec]. pose proof (cf_key _ _ _ Hf) as Hk.
    unfold tx_key in Hk. rewrite Ec, <- Eo in Hk. congruence.
Qed.

Lemma commit_step st s t d stored detail :
  ims_maximum_events st <= usize_max → transaction_ok t → state_ok st s → commit_fresh st s t →
  store_receipt st t d (commit_receipt s t) = Ok (stored, detail) →
  state_ok st (commit_state s t stored detail) ∧ evolves s (commit_state s t stored detail).
Proof.
  intros Hm Ht Hs Hf Hst. pose proof (so_journal _ _ Hs) as Hj.
  pose proof (store_receipt_spec _ _ _ _ _ _ Ht Hst) as Hsp.
  pose proof (commit_recorded st s t stored detail Hj Ht Hf) as Hrec.
  assert (evolves s (commit_state s t stored detail)) as Hev.
  { apply (commit_evolves st); try done. intros r x ->.
    destruct Hsp as [(_ & _ & ?)|(c & m & bytes & Hc & _ & _ & [= -> ->] & Hk)]; [done|].
    rewrite Hk. done. }
  destruct (commit_state_spec st s t stored detail Hj Ht Hf) as (Hj' & _ & _ & _ & _ & Hn & _).
  destruct (write_all_frame (staged_of s t) s) as [Et Ed].
  split; [|done]. split; try done.
  - rewrite Hn, <- (so_count _ _ Hs). done.
  - apply Hf.
  - cbn [commit_state transactions]. rewrite Et, map_size_insert_None by apply Hf.
    pose proof (cf_slots _ _ _ Hf). lia.
  - intros c op x Hx. cbn [commit_state transactions] in Hx. rewrite Et in Hx.
    apply lookup_insert_Some in Hx as [[Hkey <-]|[_ Hx]]; cycle 1.
    { eapply stored_ok_evolves; [exact Hev|]. by apply (so_stored _ _ Hs). }
    injection Hkey as <- <-. destruct Hsp as [(Hc & -> & _)|(c' & m & bytes & Hc & Hp & -> & -> & Hk)].
    + by split.
    + exists c'. split_and!; try done.
      * eexists. cbn [commit_state details insert_detail]. apply lookup_insert_eq.
      * rewrite (pr_integrity _ _ _ _ _ Hp). by apply recorded_without_completion.
  - intros r x Hx. cbn [commit_state details] in Hx. rewrite Ed in Hx.
    assert (detail_ok s r x → detail_ok (commit_state s t stored detail) r x) as Hold
      by apply (detail_ok_evolves _ _ _ _ Hev).
    destruct Hsp as [(Hc & -> & ->)|(c' & m & bytes & Hc & Hp & -> & -> & Hk)];
      cbn [insert_detail] in Hx; [by apply Hold, (so_details _ _ Hs)|].
    apply lookup_insert_Some in Hx as [[<- <-]|[_ Hx]]; [|by apply Hold, (so_details _ _ Hs)].
    split.
    + exists m. split; [|done]. rewrite Hk. cbn [key_context key_operation commit_state transactions].
      unfold tx_key. rewrite Hc. apply lookup_insert_eq.
    + eexists. eapply prepared_details; [apply Ht|exact Hp].
Qed.

(** What an accepted transaction does, new or replayed *)
Lemma append_inner_step st s t stored replay s' :
  ims_maximum_events st <= usize_max → transaction_ok t → state_ok st s →
  append_transaction_inner st s t = Ok (stored, replay, s') →
  state_ok st s' ∧ evolves s s' ∧ transactions s' !! tx_key t = Some stored
  ∧ proposal_of t = Ok (stored_proposal stored).
Proof.
  intros Hm Ht Hs H. destruct (transactions s !! tx_key t) as [previous|] eqn:Hk.
  - destruct (append_inner_replay _ _ _ _ _ Hk H) as [[= -> -> ->] Hp]. done.
  - apply append_inner_fresh in H as (n & d & stored' & detail & _ & Hd & Hf & Hst & [= -> -> ->]); [|done..].
    destruct (commit_step _ _ _ _ _ _ Hm Ht Hs Hf Hst) as [H1 H2]. split_and!; try done.
    + cbn [commit_state transactions]. apply lookup_insert_eq.
    + destruct (store_receipt_spec _ _ _ _ _ _ Ht Hst) as [(_ & -> & _)|(c & m & bytes & _ & Hp & -> & _)]; [done|].
      cbn [stored_proposal]. apply (pr_proposal _ _ _ _ _ Hp).
Qed.

Lemma expire_step st s key expected e s' :
  state_ok st s → expire_details st s key expected = Ok (e, s') → state_ok st s' ∧ evolves s s'.
Proof.
  intros Hs H. unfold expire_details in H. guards.
  destruct (transactions s !! _) as [[m|]|] eqn:Et; [|done..]. guards.
  destruct (details s !! mk_reference m) as [old|] eqn:Ed; [|done]. guards. subst.
  set (s1 := mkState _ _ _ _ _ _ _).
  assert (evolves s s1) as Hev.
  { split; [by split|]. intros r x Hd. subst s1; cbn [details].
    destruct (decide (r = mk_reference m)) as [->|Hne].
    - right. apply lookup_insert_eq.
    - left. by rewrite lookup_insert_ne. }
  split; [|done]. destruct Hs as [[Hj1 Hj2] Hc Hcap Ho Hst Hde]. split; try done.
  - split; [|exact Hj2]. intros stream. destruct (Hj1 stream) as [bs [? ? ? ? ? ? ? ?]]. by exists bs.
  - intros c op x Hx. eapply stored_ok_evolves; [exact Hev|by apply Hst].
  - intros r x Hd. subst s1; cbn [details] in Hd. apply lookup_insert_Some in Hd as [[<- <-]|[_ Hd]].
    + split; [|done]. apply (Hde _ _ Ed).
    + eapply detail_ok_evolves; [exact Hev|by apply Hde].
Qed.

End Invariant.
