(* ===== verification/MemorySafety.v ===== *)
(** * MemorySafety: the guarantees of the in-memory store over every sequence of
    its operations - append-only history, atomic transactions, one winner per
    operation, permanent expiry. *)

From S2P Require Export MemoryInvariant.

Section Safety.
Context `{SHA : Sha256} `{OJ : OutcomeJson}.
Context (debug_str : string → string).

(** One operation of the store, whatever its outcome. The later locks of
    [commit_outcome] read the states [between] and write nothing. *)
Inductive mstep (st : InMemoryEventStore) (s : State) : State → Prop :=
| step_append stream expected b out s' :
    batch_ok b → append st s stream expected b = Ok (out, s') → mstep st s s'
| step_append_transaction t :
    transaction_ok t → mstep st s (append_transaction st s t).1
| step_commit_outcome between t :
    transaction_ok t → mstep st s (commit_outcome debug_str st between s t).1
| step_expire_details key expected e s' :
    expire_details st s key expected = Ok (e, s') → mstep st s s'.

Definition reachable (st : InMemoryEventStore) : State → Prop := rtc (mstep st) State_default.

(** The two transactional entry points write what the inner append writes. *)
Lemma append_transaction_state st s t :
  (append_transaction st s t).1 = s
  ∨ ∃ stored, append_transaction_inner st s t = Ok (stored, false, (append_transaction st s t).1).
Proof.
  unfold append_transaction. destruct (is_some _); [by left|].
  destruct (append_transaction_inner st s t) as [[[stored []] s']|] eqn:E; cbn [fst]; [|eauto|by left].
  left. destruct (transactions s !! tx_key t) eqn:Hk.
  - by destruct (append_inner_replay _ _ _ _ _ Hk E) as [[= _ ->] _].
  - unfold append_transaction_inner in E. unfold tx_key in Hk. rewrite Hk in E. guards.
    by match goal with H : (let (_, _) := ?x in _) = Ok _ |- _ => destruct x; guards end.
Qed.

Lemma commit_outcome_state st between s t :
  (commit_outcome debug_str st between s t).1 = s
  ∨ ∃ stored, append_transaction_inner st s t
              = Ok (stored, false, (commit_outcome debug_str st between s t).1).
Proof.
  unfold commit_outcome. destruct (validate_completed_transaction t); [|by left].
  destruct (append_transaction_inner st s t) as [[[stored replay] s']|] eqn:E; [|by left].
  assert (replay = true → s' = s) as Hs.
  { intros ->. destruct (transactions s !! tx_key t) eqn:Hk.
    - by destruct (append_inner_replay _ _ _ _ _ Hk E) as [[= _ ->] _].
    - unfold append_transaction_inner in E. unfold tx_key in Hk. rewrite Hk in E. guards.
      by match goal with H : (let (_, _) := ?x in _) = Ok _ |- _ => destruct x; guards end. }
  destruct replay; [left|right]; destruct stored; cbn [fst]; auto; eauto.
Qed.

Lemma mstep_ok st s s' :
  ims_maximum_events st <= usize_max → state_ok st s → mstep st s s' → state_ok st s' ∧ evolves s s'.
Proof.
  intros Hm Hs H. destruct H as [stream e b out s' Hb H|t Ht|between t Ht|key rev e s' H].
  - by eapply append_step.
  - destruct (append_transaction_state st s t) as [->|[stored H]]; [done|].
    by destruct (append_inner_step _ _ _ _ _ _ Hm Ht Hs H) as (? & ? & _).
  - destruct (commit_outcome_state st between s t) as [->|[stored H]]; [done|].
    by destruct (append_inner_step _ _ _ _ _ _ Hm Ht Hs H) as (? & ? & _).
  - by eapply expire_step.
Qed.

Lemma msteps_ok st s s' :
  ims_maximum_events st <= usize_max → state_ok st s → rtc (mstep st) s s' →
  state_ok st s' ∧ evolves s s'.
Proof.
  intros Hm Hs H. induction H as [s|s s1 s2 H1 _ IH]; [done|].
  destruct (mstep_ok _ _ _ Hm Hs H1) as [Hs1 He]. destruct (IH Hs1) as [? ?].
  split; [done|]. by etrans.
Qed.

Lemma reachable_ok st s : ims_maximum_events st <= usize_max → reachable st s → state_ok st s.
Proof. intros Hm H. by apply (msteps_ok st State_default s Hm (state_ok_default st)). Qed.

(** C10 (invariant). In every reachable state every stream is the record of
    batches with derived identities, in order and without a repeated operation,
    commit or event; the counters are exact and within the capacities; every
    stored receipt is integral and its events are in the streams at the versions
    it names; and every marker has lifecycle evidence, whose active bytes decode
    against its reference. *)
Theorem memory_reachable_invariant st s :
  ims_maximum_events st <= usize_max → reachable st s → state_ok st s.
Proof. apply reachable_ok. Qed.

(** History is append-only: no sequence of operations changes or
    removes a recorded event, an index entry, a completed outcome or a receipt;
    outcome details only ever change from active to expired. *)
Theorem memory_history_append_only st s s' :
  ims_maximum_events st <= usize_max → reachable st s → rtc (mstep st) s s' → evolves s s'.
Proof. intros Hm Hs H. apply (msteps_ok st s s' Hm); [by apply reachable_ok|done]. Qed.

(** ** Direct appends *)

(** A direct append writes exactly when its identities are new
    and derived, the stream is at the expected version and there is room, and
    then adds its events at the next versions of that stream alone; repeated
    with the same batch it changes nothing and returns the events recorded then;
    every other call is refused. *)
Theorem append_spec st s stream expected b :
  ims_maximum_events st <= usize_max → reachable st s → batch_ok b →
  match append st s stream expected b with
  | Ok (Appended evs, s') =>
    append_fresh st s stream expected b
    ∧ evs = record_group stream (len (load s stream)) b
    ∧ load s' stream = load s stream ++ evs
    ∧ (∀ other, other ≠ stream → load s' other = load s other)
  | Ok (ExactReplay evs, s') =>
    s' = s ∧ ∃ base, slice s stream base evs ∧ evs = record_group stream base b
  | Err _ => ¬ append_fresh st s stream expected b
  end.
Proof.
  intros Hm Hr Hb. pose proof (so_journal _ _ (reachable_ok st s Hm Hr)) as Hj.
  destruct (operations s !! (stream, eb_operation_id b)) as [previous|] eqn:Ho.
  - assert (¬ append_fresh st s stream expected b) as Hn by (intros [[Hu _ _] _ _ _ _]; congruence).
    unfold append. rewrite Ho.
    case_bool_decide as Hp; cbn [andb]; [case_bool_decide as Heq|by case_bool_decide].
    + split; [done|]. destruct (js_operations _ Hj _ _ _ Ho) as (_ & base & Hs & He).
      exists base. by rewrite <- Heq.
    + by case_bool_decide.
  - destruct (append st s stream expected b) as [[out s']|] eqn:E.
    + apply append_fresh_Ok in E as [Hf [-> ->]]; [|done..]. rewrite current_version_load by done.
      split_and!; try done.
      * unfold load at 1. cbn [set_event_count streams write_batch]. by rewrite lookup_insert_eq.
      * intros other Hne. unfold load. cbn [set_event_count streams write_batch].
        by rewrite lookup_insert_ne.
    + intros Hf. rewrite (proj2 (append_fresh_Ok st s stream expected b _ _ Hm Hb Ho)
        (conj Hf (conj eq_refl eq_refl))) in E. done.
Qed.

(** No lost update: once an append has been written at an expected
    version, no later append is written at that version - whatever happened in
    between, the only calls that still succeed with it are exact replays. *)
Theorem no_lost_update st s s1 s2 s3 stream expected b b' evs out :
  ims_maximum_events st <= usize_max → reachable st s → batch_ok b → batch_ok b' →
  append st s stream expected b = Ok (Appended evs, s1) →
  rtc (mstep st) s1 s2 → append st s2 stream expected b' = Ok (out, s3) →
  append_is_exact_replay out = true ∧ s3 = s2.
Proof.
  intros Hm Hr Hb Hb' H1 H12 H2. pose proof (reachable_ok st s Hm Hr) as Hs.
  assert (operations s !! (stream, eb_operation_id b) = None) as Ho.
  { destruct (operations s !! _) as [x|] eqn:E; [|done]. unfold append in H1. rewrite E in H1.
    destruct (_ && _); [done|]. by destruct (bool_decide _). }
  destruct (append_step _ _ _ _ _ _ _ Hm Hb Hs H1) as [Hs1 _].
  destruct (msteps_ok _ _ _ Hm Hs1 H12) as [Hs2 He2].
  apply append_fresh_Ok in H1 as [Hf [_ ->]]; [|done..].
  destruct (operations s2 !! (stream, eb_operation_id b')) as [previous|] eqn:Ho2.
  { unfold append in H2. rewrite Ho2 in H2. destruct (_ && _); [by injection H2 as <- <-|].
    by destruct (bool_decide _). }
  exfalso. apply append_fresh_Ok in H2 as [Hf2 _]; [|done..].
  pose proof (af_version _ _ _ _ _ Hf) as V1. rewrite (af_version _ _ _ _ _ Hf2) in V1.
  injection V1 as V1. apply (f_equal version_value) in V1.
  rewrite !current_version_load in V1 by (by apply so_journal with (st := st)).
  destruct (gr_streams _ _ (ev_grows _ _ He2) stream) as [k Hk].
  rewrite Hk in V1. unfold load at 1 in V1. cbn [set_event_count streams write_batch] in V1.
  rewrite lookup_insert_eq in V1. cbn [default from_option] in V1. unfold id in V1.
  rewrite !len_app in V1. unfold len in V1. rewrite length_record_group in V1.
  pose proof (batch_nonempty _ Hb). destruct (eb_events b); [done|]. cbn [length] in V1. lia.
Qed.

(** ** Transactions *)

(** A transaction without a completion is answered with the receipt it wrote. *)
Lemma fresh_acceptance st s t d stored detail :
  transaction_ok t → is_some (tx_completion t) = false →
  store_receipt st t d (commit_receipt s t) = Ok (stored, detail) →
  acceptance stored = Ok (commit_receipt s t).
Proof.
  intros Ht Hc Hst.
  destruct (store_receipt_spec _ _ _ _ _ _ Ht Hst) as [(_ & -> & _)|(c & m & bytes & _ & Hp & -> & _)]; [done|].
  assert (tx_completion t = None) as Hn by (by destruct (tx_completion t)).
  cbn [acceptance]. unfold marker_decision.
  destruct (pr_context _ _ _ _ _ Hp) as (c' & _ & -> & _). cbn [prepared_reference ref_decision].
  rewrite Hn. cbn [decision_of is_some_and]. rewrite (pr_integrity _ _ _ _ _ Hp).
  unfold commit_receipt. by rewrite staged_receipt_eq.
Qed.

(** C9 (safety). A transaction is atomic and serialised by its expected
    versions: it either leaves the state as it was, or every participant - the
    read guards too - was at its expected version, every participant's events
    are added at the next versions of its stream, and no other stream changes;
    and an accepted new transaction returns exactly the events it added. *)
Theorem transaction_atomic st s t :
  ims_maximum_events st <= usize_max → reachable st s → transaction_ok t →
  let (s', r) := append_transaction st s t in
  match r with
  | Ok (TxAppended receipt) =>
    Forall (λ p, expected_base (tp_expected_version p) = Ok (mkStreamVersion (len (load s (tp_stream_id p)))))
      (tx_participants t)
    ∧ Forall2 (λ p x, sr_stream_id x = tp_stream_id p
                 ∧ sr_events x = from_option (record_group (tp_stream_id p) (len (load s (tp_stream_id p)))) [] (tp_batch p)
                 ∧ load s' (tp_stream_id p) = load s (tp_stream_id p) ++ sr_events x)
        (tx_participants t) (tr_streams receipt)
    ∧ (∀ stream, stream ∉ tp_stream_id <$> tx_participants t → load s' stream = load s stream)
  | _ => s' = s
  end.
Proof.
  intros Hm Hr Ht. pose proof (reachable_ok st s Hm Hr) as Hs. pose proof (so_journal _ _ Hs) as Hj.
  unfold append_transaction. destruct (is_some (tx_completion t)) eqn:Hc; [done|].
  destruct (append_transaction_inner st s t) as [[[stored replay] s']|] eqn:E; [|done].
  destruct (transactions s !! tx_key t) as [previous|] eqn:Hk.
  { destruct (append_inner_replay _ _ _ _ _ Hk E) as [[= -> -> ->] _].
    destruct (acceptance previous); done. }
  apply append_inner_fresh in E as (n & d & stored' & detail & _ & _ & Hf & Hst & [= -> -> ->]); [|done..].
  assert (acceptance stored' = Ok (commit_receipt s t)) as Ha by (by eapply fresh_acceptance).
  rewrite Ha. cbn [rbind].
  destruct (commit_state_spec st s t stored' detail Hj Ht Hf) as (_ & _ & _ & _ & _ & _ & Hin & Hout).
  split_and!; [|rewrite commit_receipt_streams|done].
  - eapply Forall_impl; [apply (tw_versions _ _ (cf_writable _ _ _ Hf))|]. intros p ->.
    rewrite <- current_version_load by done. by destruct (current_version s _).
  - apply Forall2_fmap_r, Forall_Forall2_diag, Forall_forall. intros p Hp.
    cbn [participant_receipt sr_stream_id sr_events]. split_and!; [done| |by apply Hin].
    unfold participant_receipt, participant_events. by rewrite current_version_load.
Qed.

Lemma resolve_marker_Ok st v m o : resolve_marker debug_str st v m = Ok o → co_marker o = m.
Proof.
  unfold resolve_marker. destruct (details (v_life v) !! _); [|done]. intros H. guards.
  unfold CompletedOutcome_new in *. guards. subst. done.
Qed.

(** What a successful commit leaves: its marker, under its key *)
Lemma commit_outcome_Ok st between s t s' c :
  ims_maximum_events st <= usize_max → transaction_ok t → state_ok st s →
  commit_outcome debug_str st between s t = (s', Ok c) →
  transactions s' !! tx_key t = Some (Scoped (co_marker (commit_outcome_of c)))
  ∧ proposal_of t = Ok (mk_proposal (co_marker (commit_outcome_of c)))
  ∧ validate_completed_transaction t = Ok tt ∧ is_ok (validate_transaction_item_limit t) = true.
Proof.
  intros Hm Ht Hs H. unfold commit_outcome in H.
  destruct (validate_completed_transaction t) as [[]|]; [|done].
  destruct (append_transaction_inner st s t) as [[[stored replay] s1]|] eqn:E; [|done].
  assert (is_ok (validate_transaction_item_limit t) = true) as Hi.
  { unfold append_transaction_inner in E. by destruct (validate_transaction_item_limit t). }
  destruct (append_inner_step _ _ _ _ _ _ Hm Ht Hs E) as (_ & _ & Hk & Hp).
  destruct stored as [m|]; [|done]. injection H as <- H. guards.
  match goal with H : resolve_marker _ _ _ _ = Ok _ |- _ => apply resolve_marker_Ok in H; subst m end.
  destruct replay; cbn [commit_outcome_of]; done.
Qed.

(** The retry of a transaction, on a state that knows its key *)
Lemma commit_outcome_known st between s t m :
  transactions s !! tx_key t = Some (Scoped m) →
  validate_completed_transaction t = Ok tt → is_ok (validate_transaction_item_limit t) = true →
  proposal_of t = Ok (mk_proposal m) →
  commit_outcome debug_str st between s t
  = (s, rmap CommitExactReplay (map_err in_outcome_recovery (resolve_marker debug_str st (between s) m))).
Proof.
  intros Hk Hv Hi Hp. unfold commit_outcome. rewrite Hv, (append_inner_known st s t _ _ Hk Hi Hp).
  cbn [stored_proposal]. rewrite bool_decide_eq_true_2 by done.
  by destruct (resolve_marker _ _ _ _).
Qed.

Lemma item_limit_same t t' : same_proposal t t' →
  is_ok (validate_transaction_item_limit t) = is_ok (validate_transaction_item_limit t').
Proof.
  intros Hsame. apply (f_equal tx_participants) in Hsame. cbn [erase_versions tx_participants] in Hsame.
  assert (tx_batches t = tx_batches t' ∧ read_guards (tx_participants t) = read_guards (tx_participants t'))
    as [Hb Hg].
  { unfold tx_batches, read_guards. revert Hsame. generalize (tx_participants t') as l'.
    induction (tx_participants t) as [|p l IH]; intros [|p' l'] E; try done.
    cbn [fmap list_fmap] in E. apply cons_inv in E as [[= _ Ep] E]. destruct (IH _ E) as [H1 H2].
    cbn [omap list_omap]. rewrite Ep, H1. split; [done|].
    rewrite !filter_cons, Ep. case_decide; rewrite ?len_cons; by rewrite H2. }
  apply eq_true_iff_eq. rewrite !is_ok_true. setoid_rewrite item_limit_Ok. by rewrite Hb, Hg.
Qed.

Lemma completed_same t t' : same_proposal t t' →
  validate_completed_transaction t = validate_completed_transaction t'.
Proof.
  intros Hsame. unfold validate_completed_transaction.
  pose proof (f_equal tx_completion Hsame) as Hc. pose proof (f_equal tx_bounded_context Hsame) as Hb.
  apply (f_equal tx_participants) in Hsame.
  cbn [erase_versions tx_completion tx_bounded_context tx_participants] in *. rewrite Hc, Hb.
  assert (existsb (λ p, is_some (tp_batch p)) (tx_participants t)
    = existsb (λ p, is_some (tp_batch p)) (tx_participants t')) as ->; [|done].
  revert Hsame. generalize (tx_participants t') as l'.
  induction (tx_participants t) as [|p l IH]; intros [|p' l'] E; try done.
  cbn [fmap list_fmap] in E. apply cons_inv in E as [[= _ Ep] E]. cbn [existsb]. by rewrite Ep, (IH _ E).
Qed.

(** C8 (safety). One winner per operation: after a commit succeeded, at any
    later state a retry of the same proposal - at whatever expected versions -
    writes nothing and replays the winner's marker through the lifecycle of its
    details, and a different proposal under the same operation writes nothing
    and is an identity conflict. *)
Theorem commit_has_one_winner st between between' s t s1 c s2 t' :
  ims_maximum_events st <= usize_max → reachable st s → transaction_ok t →
  commit_outcome debug_str st between s t = (s1, Ok c) → rtc (mstep st) s1 s2 →
  let winner := co_marker (commit_outcome_of c) in
  (same_proposal t t' →
     commit_outcome debug_str st between' s2 t'
     = (s2, rmap CommitExactReplay
              (map_err in_outcome_recovery (resolve_marker debug_str st (between' s2) winner))))
  ∧ (∀ d', tx_key t' = tx_key t → proposal_of t' = Ok d' → d' ≠ mk_proposal winner →
      validate_completed_transaction t' = Ok tt → is_ok (validate_transaction_item_limit t') = true →
      ∃ e, commit_outcome debug_str st between' s2 t' = (s2, Err e) ∧ se_kind e = IdentityConflict).
Proof.
  intros Hm Hr Ht H1 H12 winner. pose proof (reachable_ok st s Hm Hr) as Hs.
  assert (state_ok st s1 ∧ evolves s s1) as [Hs1 _].
  { apply (mstep_ok st s s1 Hm Hs). replace s1 with (commit_outcome debug_str st between s t).1 by (by rewrite H1).
    by constructor. }
  destruct (commit_outcome_Ok _ _ _ _ _ _ Hm Ht Hs H1) as (Hk & Hp & Hv & Hi).
  destruct (msteps_ok _ _ _ Hm Hs1 H12) as [Hs2 [Hg _]].
  assert (transactions s2 !! tx_key t = Some (Scoped winner)) as Hk2
    by (eapply lookup_weaken; [exact Hk|apply Hg]).
  split.
  - intros Hsame. assert (tx_key t' = tx_key t) as Hkey.
    { unfold tx_key. pose proof (f_equal tx_bounded_context Hsame) as E1.
      pose proof (f_equal tx_operation_id Hsame) as E2. cbn in E1, E2. congruence. }
    apply commit_outcome_known.
    + by rewrite Hkey.
    + by rewrite <- (completed_same t).
    + by rewrite <- (item_limit_same t).
    + by rewrite <- (proposal_of_same t).
  - intros d' Hkey Hp' Hne Hv' Hi'. unfold commit_outcome. rewrite Hv'.
    rewrite (append_inner_known st s2 t' d' (Scoped winner)); [|by rewrite Hkey|done..].
    cbn [stored_proposal]. rewrite bool_decide_eq_false_2 by done.
    eexists. split; [done|]. done.
Qed.

(** ** Lookups and expiry *)

(** The answer of a lookup, given the stored marker and its lifecycle *)
Lemma lookup_outcome_stored st s0 v key m :
  state_ok st s0 → transactions s0 !! (Some (key_context key), key_operation key) = Some (Scoped m) →
  key_authority key = ims_authority st →
  lookup_outcome debug_str st s0 v key
  = rmap Completed (map_err in_outcome_recovery (resolve_marker debug_str st v m))
  ∧ ref_key (mk_reference m) = key.
Proof.
  intros Hs Hm Ha. unfold lookup_outcome, validate_authority. rewrite bool_decide_eq_true_2 by done.
  cbn [negb rbind]. rewrite Hm. split; [done|].
  destruct (so_stored _ _ Hs _ _ _ Hm) as (c & [= <-] & -> & _). destruct key; cbn in *. by subst.
Qed.

Lemma resolve_marker_expired st v m :
  details (v_life v) !! mk_reference m = Some DetailExpired →
  resolve_marker debug_str st v m = Ok (mkCompleted m Expired).
Proof. intros H. unfold resolve_marker. by rewrite H. Qed.

(** Expiry is permanent: once the details of an outcome were
    expired, every later lookup answers that the command completed and that its
    details expired - never that it is missing, and never with details - and a
    second expiry of the same revision changes nothing. *)
Theorem expiry_is_permanent st s key revision e s1 s2 s3 :
  ims_maximum_events st <= usize_max → reachable st s →
  expire_details st s key revision = Ok (e, s1) → rtc (mstep st) s1 s2 → rtc (mstep st) s2 s3 →
  (∃ m, mk_revision m = revision ∧ ref_key (mk_reference m) = key
    ∧ ∀ hot cold, lookup_outcome debug_str st s2 (mkViews s3 hot cold) key
                  = Ok (Completed (mkCompleted m Expired)))
  ∧ (∃ s2', expire_details st s2 key revision = Ok (e, s2') ∧ details s2' = details s2
      ∧ streams s2' = streams s2 ∧ transactions s2' = transactions s2).
Proof.
  intros Hm Hr He H12 H23. pose proof (reachable_ok st s Hm Hr) as Hs.
  destruct (expire_step _ _ _ _ _ _ Hs He) as [Hs1 _].
  destruct (msteps_ok _ _ _ Hm Hs1 H12) as [Hs2 [Hg2 Hd2]].
  destruct (msteps_ok _ _ _ Hm Hs2 H23) as [Hs3 [Hg3 Hd3]].
  unfold expire_details, validate_authority in He. guards.
  destruct (transactions s !! _) as [[m|]|] eqn:Et; [|done..]. guards.
  destruct (details s !! mk_reference m) as [old|] eqn:Ed; [|done]. guards. subst.
  set (s1 := mkState _ _ _ _ _ _ _) in *.
  assert (details s1 !! mk_reference m = Some DetailExpired) as X1 by apply lookup_insert_eq.
  assert (details s2 !! mk_reference m = Some DetailExpired) as X2 by (by destruct (Hd2 _ _ X1)).
  assert (details s3 !! mk_reference m = Some DetailExpired) as X3 by (by destruct (Hd3 _ _ X2)).
  assert (transactions s2 !! (Some (key_context key), key_operation key) = Some (Scoped m)) as Hk2
    by (eapply lookup_weaken; [exact Et|apply Hg2]).
  split.
  - exists m. split; [done|].
    destruct (lookup_outcome_stored st s2 (mkViews s3 s3 s3) key m Hs2 Hk2 ltac:(done)) as [_ Href].
    split; [done|]. intros hot cold.
    destruct (lookup_outcome_stored st s2 (mkViews s3 hot cold) key m Hs2 Hk2 ltac:(done)) as [-> _].
    by rewrite resolve_marker_expired.
  - unfold expire_details, validate_authority. rewrite bool_decide_eq_true_2 by done. cbn [negb map_err rbind].
    rewrite Hk2, bool_decide_eq_true_2 by done. cbn [negb]. rewrite X2.
    eexists. split; [done|]. cbn [details streams transactions]. split; [|done].
    by rewrite insert_id.
Qed.

(** With the store's own detail reader, a committed outcome is
    found by every later lookup, with the winning marker and either its
    decoded details or the fact of their expiry, and a missing answer means the
    operation never completed. *)
Theorem committed_outcome_is_found st s0 key :
  ims_maximum_events st <= usize_max → ims_hot st = memory_details → ims_cold st = None →
  reachable st s0 → key_authority key = ims_authority st →
  match lookup_outcome debug_str st s0 (quiet s0) key with
  | Ok (Completed o) =>
    transactions s0 !! (Some (key_context key), key_operation key) = Some (Scoped (co_marker o))
    ∧ ref_key (mk_reference (co_marker o)) = key
    ∧ (co_details o = Expired ∨ ∃ c, co_details o = Available (mkDetails (mk_reference (co_marker o)) c))
  | Ok Missing => transactions s0 !! (Some (key_context key), key_operation key) = None
  | Err _ => False
  end.
Proof.
  intros Hm Hhot Hcold Hr Ha. pose proof (reachable_ok st s0 Hm Hr) as Hs.
  destruct (transactions s0 !! (Some (key_context key), key_operation key)) as [[m|d r]|] eqn:Et.
  - destruct (lookup_outcome_stored st s0 (quiet s0) key m Hs Et Ha) as [-> Hkey].
    destruct (so_stored _ _ Hs _ _ _ Et) as (c & _ & _ & [d Hd] & _).
    destruct (so_details _ _ Hs _ _ Hd) as [_ Hdec].
    unfold resolve_marker, quiet; cbn [v_life v_hot v_cold]. rewrite Hd, Hhot, Hcold.
    destruct d as [bytes|].
    + destruct Hdec as [comp Hdec].
      cbn [fmap option_fmap option_map]. unfold resolve_details. cbn [option_list resolve_loop].
      unfold memory_details at 1. rewrite Hd, Hdec. cbn [rmap rbind].
      unfold CompletedOutcome_new, validate_detail_binding, downcast_encoded, downcast_details.
      cbn [ed_reference]. rewrite bool_decide_eq_true_2 by done. cbn. eauto.
    + cbn. auto.
  - destruct (so_stored _ _ Hs _ _ _ Et) as [? _]. done.
  - unfold lookup_outcome, validate_authority. rewrite bool_decide_eq_true_2 by done. cbn [negb rbind].
    by rewrite Et.
Qed.

End Safety.

(** ** Witnesses *)

Section Witnesses.
#[local] Existing Instances tail_digest sample_json.

Definition sample_store : InMemoryEventStore := InMemoryEventStore_new 7 0.
Definition sample_key : OutcomeKey := mkOutcomeKey (ims_authority sample_store) sample_context sample_operation.
Definition sample_place : EventTransaction :=
  sample_decision sample_operation sample_completion [sample_write sample_operation NoStream].
Definition sample_retry : EventTransaction :=
  sample_decision sample_operation sample_completion
    [sample_write sample_operation (Exact (mkStreamVersion 2))].
Definition sample_other : OperationId := Ident "op-2".
Definition sample_legacy : EventTransaction :=
  EventTransaction_new sample_other sample_fingerprint [sample_write sample_other NoStream].

Definition sample_commit (s : State) (t : EventTransaction) : State * result CompletedCommit EventStoreError :=
  commit_outcome id sample_store quiet s t.
Definition sample_placed : State := (sample_commit State_default sample_place).1.
Definition sample_committed : CompletedCommit :=
  match (sample_commit State_default sample_place).2 with
  | Ok c => c
  | Err _ => CommitAppended (mkCompleted sample_marker Expired)
  end.

Lemma sample_batch_ok o : o = sample_operation ∨ o = sample_other → batch_ok (sample_batch o).
Proof.
  intros [-> | ->]; (split; [done|done|]); apply (bool_decide_unpack _); by vm_compute.
Qed.

Lemma sample_transaction_ok e :
  transaction_ok (sample_decision sample_operation sample_completion [sample_write sample_operation e]).
Proof.
  split; [|done]. intros p b ->%list_elem_of_singleton [= <-]. apply sample_batch_ok. by left.
Qed.

Lemma sample_placed_reachable : reachable id sample_store sample_placed.
Proof. eapply rtc_l; [|apply rtc_refl]. apply step_commit_outcome, sample_transaction_ok. Qed.

Lemma memory_reachable_invariant_witness :
  len (load sample_placed sample_stream) = 2 ∧ state_ok sample_store sample_placed.
Proof.
  split; [by vm_compute|].
  exact (memory_reachable_invariant id sample_store sample_placed ltac:(done) sample_placed_reachable).
Defined.

Lemma memory_history_append_only_witness : evolves State_default sample_placed.
Proof.
  exact (memory_history_append_only id sample_store State_default sample_placed ltac:(done)
    (rtc_refl _ _) sample_placed_reachable).
Defined.

Lemma append_spec_witness :
  is_ok (append sample_store State_default sample_stream NoStream (sample_batch sample_operation)) = true
  ∧ match append sample_store State_default sample_stream NoStream (sample_batch sample_operation) with
    | Ok (Appended evs, s') => load s' sample_stream = load State_default sample_stream ++ evs
    | _ => True
    end.
Proof.
  split; [by vm_compute|].
  pose proof (append_spec id sample_store State_default sample_stream NoStream
    (sample_batch sample_operation) ltac:(done) (rtc_refl _ _)
    (sample_batch_ok _ (or_introl eq_refl))) as H.
  destruct (append _ _ _ _ _) as [[[] ?]|]; [apply H|done..].
Defined.

Definition sample_append (s : State) (o : OperationId) (e : ExpectedVersion)
  : result (AppendOutcome * State) EventStoreError :=
  append sample_store s sample_stream e (sample_batch o).
(** An append, and the same append again *)
Definition sample_twice : result (AppendOutcome * State * (AppendOutcome * State)) EventStoreError :=
  let? first := sample_append State_default sample_operation NoStream in
  let? second := sample_append first.2 sample_operation NoStream in
  Ok (first, second).

Lemma no_lost_update_witness :
  match sample_twice with
  | Ok (Appended _, s1, (out, s2)) =>
    append_is_exact_replay out = true ∧ s2 = s1
    ∧ is_err (sample_append s1 sample_other NoStream) = true
  | _ => False
  end.
Proof.
  assert (match sample_twice with
          | Ok (Appended _, s1, _) => is_err (sample_append s1 sample_other NoStream)
          | _ => false
          end = true) as Hx by (by vm_compute).
  unfold sample_twice in *.
  destruct (sample_append State_default sample_operation NoStream) as [[out1 s1]|] eqn:E1; [|done].
  cbn [rbind snd] in *.
  destruct (sample_append s1 sample_operation NoStream) as [[out2 s2]|] eqn:E2; [|done].
  cbn [rbind] in *. destruct out1 as [evs|]; [|done].
  destruct (no_lost_update id sample_store State_default s1 s1 s2 sample_stream NoStream
    (sample_batch sample_operation) (sample_batch sample_operation) evs out2 ltac:(done) (rtc_refl _ _)
    (sample_batch_ok _ (or_introl eq_refl)) (sample_batch_ok _ (or_introl eq_refl)) E1 (rtc_refl _ _) E2).
  split_and!; done.
Defined.

Lemma transaction_atomic_witness :
  is_ok (append_transaction sample_store State_default sample_legacy).2 = true
  ∧ match (append_transaction sample_store State_default sample_legacy).2 with
    | Ok (TxAppended receipt) =>
      Forall (λ p, expected_base (tp_expected_version p) = Ok version_zero) (tx_participants sample_legacy)
    | _ => True
    end.
Proof.
  split; [by vm_compute|].
  assert (transaction_ok sample_legacy) as Ht.
  { split; [|done]. intros p b ->%list_elem_of_singleton [= <-]. apply sample_batch_ok. by right. }
  pose proof (transaction_atomic id sample_store State_default sample_legacy ltac:(done)
    (rtc_refl _ _) Ht) as H.
  destruct (append_transaction _ _ _) as [s' [[]|]]; [apply H|done..].
Defined.

Lemma sample_commit_eq : sample_commit State_default sample_place = (sample_placed, Ok sample_committed).
Proof.
  assert (is_ok (sample_commit State_default sample_place).2 = true) as H by (by vm_compute).
  unfold sample_placed, sample_committed. by destruct (sample_commit _ _) as [s [c|]].
Qed.

Lemma commit_has_one_winner_witness :
  commit_outcome id sample_store quiet sample_placed sample_retry
  = (sample_placed, rmap CommitExactReplay (map_err in_outcome_recovery
      (resolve_marker id sample_store (quiet sample_placed) (co_marker (commit_outcome_of sample_committed))))).
Proof.
  refine (proj1 (commit_has_one_winner id sample_store quiet quiet State_default sample_place
    sample_placed sample_committed sample_placed sample_retry ltac:(done) (rtc_refl _ _)
    (sample_transaction_ok _) sample_commit_eq (rtc_refl _ _)) ltac:(reflexivity)).
Defined.

Definition sample_revision : OutcomeRevision := mk_revision (co_marker (commit_outcome_of sample_committed)).
Definition sample_expired : State :=
  match expire_details sample_store sample_placed sample_key sample_revision with
  | Ok (_, s) => s
  | Err _ => State_default
  end.

Lemma expiry_is_permanent_witness :
  ∃ m, lookup_outcome id sample_store sample_expired (quiet sample_expired) sample_key
       = Ok (Completed (mkCompleted m Expired)).
Proof.
  assert (is_ok (expire_details sample_store sample_placed sample_key sample_revision) = true) as Hx
    by (by vm_compute).
  unfold sample_expired.
  destruct (expire_details sample_store sample_placed sample_key sample_revision) as [[e s1]|] eqn:E; [|done].
  destruct (proj1 (expiry_is_permanent id sample_store sample_placed sample_key sample_revision
    e s1 s1 s1 ltac:(done) sample_placed_reachable E (rtc_refl _ _) (rtc_refl _ _)))
    as (m & _ & _ & H).
  exists m. exact (H s1 s1).
Defined.

Lemma committed_outcome_is_found_witness :
  match lookup_outcome id sample_store sample_placed (quiet sample_placed) sample_key with
  | Ok (Completed o) => ref_key (mk_reference (co_marker o)) = sample_key
  | _ => False
  end.
Proof.
  pose proof (committed_outcome_is_found id sample_store sample_placed sample_key ltac:(done)
    eq_refl eq_refl sample_placed_reachable eq_refl) as H.
  destruct (lookup_outcome _ _ _ _ _) as [[|o]|] eqn:E; [|apply H|done].
  exfalso. revert E. by vm_compute.
Defined.

End Witnesses.
