(* ===== verification/MemoryRefinement.v ===== *)
(** * MemoryRefinement: the abstract journal an event store implements, and the
    proof that the in-memory store refines it.

    The abstract journal has no versions, indexes, counters or receipts: it is
    the sequence of batches committed to each stream, and its one transition
    commits a set of admitted participants. *)

From S2P Require Export MemorySafety.

(** ** The abstract journal *)

Section Specification.
Context `{SHA : Sha256}.

Definition Journal : Type := StreamId → list EventBatch.
Definition journal_empty : Journal := λ _, [].

Definition journal_events (j : Journal) (stream : StreamId) : list RecordedEvent :=
  record_all stream 0 (j stream).
Definition journal_version (j : Journal) (stream : StreamId) : StreamVersion :=
  mkStreamVersion (len (journal_events j stream)).

(** Nothing of the batch was committed to the stream before. *)
Record unrelated (earlier b : EventBatch) : Prop := {
  ur_operation : eb_operation_id earlier ≠ eb_operation_id b;
  ur_commit : eb_commit_id earlier ≠ eb_commit_id b;
  ur_events : ∀ e n, e ∈ eb_events earlier → n ∈ eb_events b → ne_event_id e ≠ ne_event_id n;
}.

(** A participant the journal admits: it expects the version its stream is at,
    and what it writes is new and carries derived identities. *)
Record admitted (j : Journal) (p : TransactionParticipant) : Prop := {
  ad_version : expected_base (tp_expected_version p) = Ok (journal_version j (tp_stream_id p));
  ad_batch : ∀ b, tp_batch p = Some b →
    batch_ok b ∧ derived (tp_stream_id p) b ∧ Forall (λ x, unrelated x b) (j (tp_stream_id p));
}.

(** The batches the participants write to a stream *)
Definition written_to (stream : StreamId) (ps : list TransactionParticipant) : list EventBatch :=
  omap tp_batch (filter (λ p, tp_stream_id p = stream) ps).

(** The transition: distinct streams, every participant admitted, and every
    participant's batch committed at once; without participants it is idle. *)
Record journal_step (j : Journal) (ps : list TransactionParticipant) (j' : Journal) : Prop := {
  st_streams : NoDup (tp_stream_id <$> ps);
  st_admitted : Forall (admitted j) ps;
  st_written : ∀ stream, j' stream = j stream ++ written_to stream ps;
}.
End Specification.

(** ** The refinement *)

Section Refinement.
Context `{SHA : Sha256} `{OJ : OutcomeJson}.
Context (debug_str : string → string).

Definition refines (st : InMemoryEventStore) (s : State) (j : Journal) : Prop :=
  state_ok st s ∧ ∀ stream, journal_ok s stream (j stream).

(** What an answer of the store says of the journal [j] the call found: the
    participants that were committed, and the events answered for them. *)
Definition append_commits (j : Journal) (stream : StreamId) (expected : ExpectedVersion) (b : EventBatch)
    (out : AppendOutcome) (ps : list TransactionParticipant) : Prop :=
  match out with
  | Appended events => ps = [mkParticipant stream expected (Some b)]
      ∧ events = record_group stream (version_value (journal_version j stream)) b
  | ExactReplay _ => ps = []
  end.

(** The events a participant's receipt lists *)
Definition receipt_lists (j : Journal) (p : TransactionParticipant) (r : TransactionStreamReceipt) : Prop :=
  sr_stream_id r = tp_stream_id p ∧ sr_base_version r = journal_version j (tp_stream_id p)
  ∧ sr_events r = from_option (record_group (tp_stream_id p)
                     (version_value (journal_version j (tp_stream_id p)))) [] (tp_batch p).

Definition transaction_commits (j : Journal) (t : EventTransaction)
    (r : result TransactionAppendOutcome EventStoreError) (ps : list TransactionParticipant) : Prop :=
  match r with
  | Ok (TxAppended receipt) => ps = tx_participants t
      ∧ Forall2 (receipt_lists j) (tx_participants t) (tr_streams receipt)
  | _ => ps = []
  end.

(** A failure to answer may follow the commit: its outcome details are read
    in a later lock. *)
Definition outcome_commits (t : EventTransaction)
    (r : result CompletedCommit EventStoreError)
    (ps : list TransactionParticipant) : Prop :=
  match r with
  | Ok (CommitAppended _) => ps = tx_participants t
  | Ok (CommitExactReplay _) => ps = []
  | Err _ => ps = [] ∨ ps = tx_participants t
  end.

(** A call of the store with its answer *)
Inductive mcall (st : InMemoryEventStore) (s : State)
  : (Journal → list TransactionParticipant → Prop) → State → Prop :=
| call_append stream expected b out s' :
    batch_ok b → append st s stream expected b = Ok (out, s') →
    mcall st s (λ j, append_commits j stream expected b out) s'
| call_append_transaction t s' r :
    transaction_ok t → append_transaction st s t = (s', r) →
    mcall st s (λ j, transaction_commits j t r) s'
| call_commit_outcome between t s' r :
    transaction_ok t → commit_outcome debug_str st between s t = (s', r) →
    mcall st s (λ _, outcome_commits t r) s'
| call_expire_details key expected e s' :
    expire_details st s key expected = Ok (e, s') → mcall st s (λ _ ps, ps = []) s'.

(** ** Preservation *)

Lemma journal_ok_fields s s' stream bs :
  streams s' = streams s → commits s' = commits s → operations s' = operations s →
  event_ids s' = event_ids s → journal_ok s stream bs → journal_ok s' stream bs.
Proof.
  intros E1 E2 E3 E4 [? ? ? ? ? ? ? ?]. split; rewrite ?E2, ?E3, ?E4; try done. unfold load. by rewrite E1.
Qed.

Lemma refines_version st s j stream :
  refines st s j → current_version s stream = journal_version j stream.
Proof.
  intros [_ Hj]. rewrite (journal_current_version _ _ _ (Hj stream)).
  by rewrite (jo_events _ _ _ (Hj stream)).
Qed.

Lemma unused_unrelated s stream bs b :
  journal_ok s stream bs → unused s stream b → Forall (λ x, unrelated x b) bs.
Proof.
  intros [_ _ _ _ _ Hc Ho He] [Uo Uc Ue]. apply Forall_forall. intros x Hx.
  rewrite Forall_forall in Hc, Ho, He. destruct (Hc x Hx) as [y Hy], (Ho x Hx) as [z Hz]. split.
  - congruence.
  - congruence.
  - intros e n Hin Hn E. specialize (He x Hx). rewrite Forall_forall in He, Ue.
    apply (Ue n Hn). rewrite <- E. by apply He.
Qed.

Lemma write_all_journal l s (j : Journal) :
  NoDup (staged_stream <$> l) → Forall (staged_ok s) l → (∀ stream, journal_ok s stream (j stream)) →
  ∀ stream, journal_ok (foldl write_staged s l) stream (j stream ++ written_to stream ((λ x, x.1.1) <$> l)).
Proof.
  revert s j; induction l as [|x l IH]; intros s j Hnd Hall Hj stream; cbn [foldl].
  - cbn. by rewrite app_nil_r.
  - rewrite fmap_cons in Hnd. apply NoDup_cons in Hnd as [Hni Hnd].
    apply Forall_cons in Hall as [Hx Hall].
    set (j1 := λ stream, j stream ++ written_to stream [x.1.1]).
    assert (∀ stream, journal_ok (write_staged s x) stream (j1 stream)) as Hj1.
    { intros other. specialize (Hj other). destruct x as [[p base] evs]. unfold j1, written_to, staged_ok, staged_stream in *.
      cbn [fst snd write_staged] in *. rewrite filter_cons, filter_nil.
      case_decide as E; cbn [omap list_omap]; destruct (tp_batch p) as [b|]; rewrite ?app_nil_r; try done.
      - rewrite E in Hx |- *. by apply journal_ok_extend.
      - apply journal_ok_other; [congruence|done]. }
    assert (Forall (staged_ok (write_staged s x)) l) as Hall1.
    { rewrite Forall_forall in *. intros y Hy. apply write_staged_other; [|by apply Hall].
      intros E. apply Hni. rewrite <- E. by apply list_elem_of_fmap_2. }
    specialize (IH _ _ Hnd Hall1 Hj1 stream). unfold j1 in IH. rewrite <- app_assoc in IH.
    unfold written_to in *. rewrite fmap_cons. cbn [fmap list_fmap] in *. rewrite filter_cons in IH |- *.
    rewrite filter_nil in IH. case_decide; cbn [omap list_omap] in *; [|done].
    by destruct (tp_batch x.1.1).
Qed.

Lemma writable_admitted st s j t :
  refines st s j → transaction_ok t → transaction_writable s t → Forall (admitted j) (tx_participants t).
Proof.
  intros Hr [Hb _] [_ Hw Hv]. rewrite !Forall_forall in *. intros p Hp. split.
  - rewrite (Hv p Hp). f_equal. by eapply refines_version.
  - intros b Hpb. destruct (Hw p Hp b Hpb). split_and!; [by eapply Hb|done|].
    eapply unused_unrelated; [by apply Hr|done].
Qed.

Lemma commit_refines st s j t stored detail :
  refines st s j → transaction_ok t → commit_fresh st s t → state_ok st (commit_state s t stored detail) →
  ∃ j', journal_step j (tx_participants t) j' ∧ refines st (commit_state s t stored detail) j'.
Proof.
  intros Hr Ht Hf Hs'. pose proof (cf_writable _ _ _ Hf) as Hw. pose proof Hr as [Hs Hj].
  pose proof (so_journal _ _ Hs) as Hjs.
  exists (λ stream, j stream ++ written_to stream (tx_participants t)). split.
  - split; [apply Hw| |done]. by eapply writable_admitted.
  - split; [done|]. intros stream.
    eapply (journal_ok_fields (foldl write_staged s (staged_of s t))); [done..|].
    assert ((λ x : Staged, x.1.1) <$> staged_of s t = tx_participants t) as Ep.
    { unfold staged_of. rewrite <- list_fmap_compose. exact (list_fmap_id _). }
    rewrite <- Ep. apply write_all_journal; [|by apply staged_of_ok|done].
    rewrite staged_of_streams. apply Hw.
Qed.

Lemma idle st s j : refines st s j → ∃ j', journal_step j [] j' ∧ refines st s j'.
Proof.
  intros Hr. exists j. split; [|done]. split; [constructor|done|]. intros stream. by rewrite app_nil_r.
Qed.

(** What the inner append of a transaction does to the journal *)
Lemma inner_refines st s j t stored replay s' :
  ims_maximum_events st <= usize_max → transaction_ok t → refines st s j →
  append_transaction_inner st s t = Ok (stored, replay, s') →
  ∃ j', journal_step j (if replay then [] else tx_participants t) j' ∧ refines st s' j'.
Proof.
  intros Hm Ht Hr H. pose proof Hr as [Hs _].
  destruct (append_inner_step _ _ _ _ _ _ Hm Ht Hs H) as (Hs' & _).
  destruct (transactions s !! tx_key t) as [previous|] eqn:Hk.
  - destruct (append_inner_replay _ _ _ _ _ Hk H) as [[= -> -> ->] _]. by apply idle.
  - apply append_inner_fresh in H as (n & d & stored' & detail & _ & _ & Hf & _ & [= -> -> ->]); [|done..].
    by apply commit_refines.
Qed.

Lemma append_refines st s j stream expected b out s' :
  ims_maximum_events st <= usize_max → batch_ok b → refines st s j →
  append st s stream expected b = Ok (out, s') →
  ∃ ps j', append_commits j stream expected b out ps ∧ journal_step j ps j' ∧ refines st s' j'.
Proof.
  intros Hm Hb Hr H. pose proof Hr as [Hs Hj].
  destruct (append_step _ _ _ _ _ _ _ Hm Hb Hs H) as [Hs' _].
  destruct (operations s !! (stream, eb_operation_id b)) as [previous|] eqn:Ho.
  { unfold append in H. rewrite Ho in H.
    destruct (_ && _); [|by destruct (bool_decide _)]. injection H as <- <-.
    destruct (idle st s j Hr) as (j' & ? & ?). exists [], j'. done. }
  apply append_fresh_Ok in H as [Hf [-> ->]]; [|done..]. pose proof Hf as [Hu Hd Hv _ _].
  exists [mkParticipant stream expected (Some b)], (λ other, j other ++ written_to other [mkParticipant stream expected (Some b)]).
  split_and!.
  - cbn. split; [done|]. by rewrite (refines_version st s j).
  - split; [apply NoDup_singleton| |done]. apply Forall_singleton. split; cbn [tp_stream_id tp_batch tp_expected_version].
    + rewrite Hv. f_equal. by eapply refines_version.
    + intros ? [= <-]. split_and!; [done..|]. by eapply unused_unrelated.
  - split; [done|]. intros other. apply (journal_ok_fields (write_batch stream b
      (record_group stream (version_value (current_version s stream)) b) Direct s)); [done..|]. unfold written_to.
    rewrite filter_cons, filter_nil. cbn [tp_stream_id].
    case_decide as E; cbn [omap list_omap tp_batch].
    + subst other. apply journal_ok_extend; [done|]. destruct Hu. split; try done.
      by rewrite current_version_load by apply Hs.
    + rewrite app_nil_r. by apply journal_ok_other.
Qed.

Lemma receipt_refines st s j t :
  refines st s j → Forall2 (receipt_lists j) (tx_participants t) (tr_streams (commit_receipt s t)).
Proof.
  intros Hr. rewrite commit_receipt_streams. apply Forall2_fmap_r, Forall_Forall2_diag, Forall_forall.
  intros p _. unfold receipt_lists, participant_receipt, participant_events; cbn [sr_stream_id sr_base_version sr_events fst snd].
  cbn. rewrite (refines_version st s j (tp_stream_id p) Hr). by split_and!.
Qed.

Lemma transaction_refines st s j t s' r :
  ims_maximum_events st <= usize_max → transaction_ok t → refines st s j →
  append_transaction st s t = (s', r) →
  ∃ ps j', transaction_commits j t r ps ∧ journal_step j ps j' ∧ refines st s' j'.
Proof.
  intros Hm Ht Hr H. assert (s' = s → (∀ x, r ≠ Ok (TxAppended x)) →
    ∃ ps j', transaction_commits j t r ps ∧ journal_step j ps j' ∧ refines st s' j') as Hidle.
  { intros -> Hn. destruct (idle st s j Hr) as (j' & ? & ?). exists [], j'. split; [|done].
    destruct r as [[x|]|]; try done. by destruct (Hn x). }
  unfold append_transaction in H. destruct (is_some (tx_completion t)) eqn:Hc; [injection H as <- <-; by apply Hidle|].
  destruct (append_transaction_inner st s t) as [[[stored replay] s1]|] eqn:E; cycle 1.
  { injection H as <- <-. by apply Hidle. }
  destruct (inner_refines st s j t stored replay s1 Hm Ht Hr E) as (j' & Hstep & Hr').
  injection H as <- <-. destruct replay.
  - exists [], j'. split; [|done]. by destruct (acceptance stored).
  - exists (tx_participants t), j'. split; [|done].
    destruct (transactions s !! tx_key t) as [previous|] eqn:Hk.
    { by destruct (append_inner_replay _ _ _ _ _ Hk E) as [? _]. }
    apply append_inner_fresh in E as (n & d & stored' & detail & _ & _ & _ & Hst & [= -> ->]); [|done..].
    rewrite (fresh_acceptance st s t d stored' detail) by done. cbn [rbind transaction_commits].
    split; [done|]. by eapply receipt_refines.
Qed.

Lemma outcome_refines st between s j t s' r :
  ims_maximum_events st <= usize_max → transaction_ok t → refines st s j →
  commit_outcome debug_str st between s t = (s', r) →
  ∃ ps j', outcome_commits t r ps ∧ journal_step j ps j' ∧ refines st s' j'.
Proof.
  intros Hm Ht Hr H. assert (s' = s → is_err r = true →
    ∃ ps j', outcome_commits t r ps ∧ journal_step j ps j' ∧ refines st s' j') as Hidle.
  { intros -> He. destruct (idle st s j Hr) as (j' & ? & ?). exists [], j'. split; [|done].
    destruct r; [done|]. by left. }
  unfold commit_outcome in H. destruct (validate_completed_transaction t); [|injection H as <- <-; by apply Hidle].
  destruct (append_transaction_inner st s t) as [[[stored replay] s1]|] eqn:E; cycle 1.
  { injection H as <- <-. by apply Hidle. }
  destruct (inner_refines st s j t stored replay s1 Hm Ht Hr E) as (j' & Hstep & Hr').
  exists (if replay then [] else tx_participants t), j'. split; [|destruct stored; by injection H as <- <-].
  destruct stored as [m|? ?]; injection H as <- <-; [|by destruct replay; [left|right]].
  destruct (map_err _ _) as [o|e]; cbn [rbind]; by destruct replay; cbn; [try left|try right].
Qed.

(** C26 (refinement). The in-memory store refines the abstract journal: the
    empty store refines the empty journal, every call - answered or failing -
    is one step of the journal that commits exactly the participants its answer
    says were committed, at the versions and with the events it answers, and the
    loaded events of every stream are those of the journal. *)
Theorem memory_refines_journal st :
  ims_maximum_events st <= usize_max →
  refines st State_default journal_empty
  ∧ (∀ s j answer s', refines st s j → mcall st s answer s' →
       ∃ ps j', answer j ps ∧ journal_step j ps j' ∧ refines st s' j')
  ∧ (∀ s j stream, refines st s j → load s stream = journal_events j stream
       ∧ current_version s stream = journal_version j stream).
Proof.
  intros Hm. split_and!.
  - split; [apply state_ok_default|]. intros stream. by split; try constructor.
  - intros s j answer s' Hr Hc. destruct Hc as [stream expected b out s' Hb H|t s' r Ht H|between t s' r Ht H|key e ex s' H].
    + by eapply append_refines.
    + by eapply transaction_refines.
    + by eapply outcome_refines.
    + pose proof Hr as [Hs Hj]. destruct (expire_step _ _ _ _ _ _ Hs H) as [Hs' _].
      exists [], j. split; [done|]. split; [by destruct (idle st s j Hr) as (? & [] & _); split; [constructor|done|intros; by rewrite app_nil_r]|].
      split; [done|]. intros stream. unfold expire_details in H. guards.
      destruct (transactions s !! _) as [[m|]|]; [|done..]. guards.
      destruct (details s !! _); [|done]. guards. subst. by apply (journal_ok_fields s).
  - intros s j stream Hr. split; [by apply Hr|]. by eapply refines_version.
Qed.
End Refinement.

#[local] Existing Instances tail_digest sample_json.

Lemma new_commit_participants c t ps :
  commit_is_exact_replay c = false → outcome_commits t (Ok c) ps → ps = tx_participants t.
Proof. by destruct c. Qed.

Lemma sample_committed_new : commit_is_exact_replay sample_committed = false.
Proof. vm_compute. reflexivity. Qed.

(** A committed command is a journal step of its participants. *)
Lemma memory_refines_journal_witness :
  ∃ j, journal_step journal_empty (tx_participants sample_place) j
    ∧ journal_events j sample_stream = load sample_placed sample_stream.
Proof.
  destruct (memory_refines_journal id sample_store ltac:(done)) as (H0 & Hstep & Hread).
  destruct (Hstep State_default journal_empty _ sample_placed H0
    (call_commit_outcome id sample_store State_default quiet sample_place sample_placed (Ok sample_committed)
       (sample_transaction_ok NoStream) sample_commit_eq)) as (ps & j & Hps & Hj & Hr).
  exists j. split.
  - rewrite <- (new_commit_participants _ _ _ sample_committed_new Hps). exact Hj.
  - symmetry. apply (Hread _ _ _ Hr).
Defined.
