(* ===== verification/History.v ===== *)
(** * History: the validation of a loaded stream before an aggregate is
    rehydrated from it (validate_history and current_version of
    crates/rostfrei-core/src/executor.rs), and its agreement with what the
    in-memory store records. *)

From S2P Require Export MemorySafety.

(** The locals of [validate_history]: the identities seen, the commits seen,
    the identity each operation was seen with, and the commit being read with
    the next ordinal and the count. *)
Definition OperationIdentity : Type := CommitId * ContentFingerprint * option ActorRef.
Record HistoryCheck := mkHistoryCheck {
  hc_event_ids : gset EventId;
  hc_seen_commits : gset CommitId;
  hc_operations : gmap OperationId OperationIdentity;
  hc_current : option (CommitId * N * N);
}.

Definition history_start : HistoryCheck := mkHistoryCheck ∅ ∅ ∅ None.

Definition operation_identity (e : RecordedEvent) : OperationIdentity :=
  (re_commit_id e, re_operation_fingerprint e, re_actor e).

(** [current_version] *)
Definition history_version (history : list RecordedEvent) : StreamVersion :=
  from_option re_stream_version version_zero (last history).

Section History.
Context `{SHA : Sha256}.

(** The ordinal and count an event must have, and the commits seen after it *)
Definition expected_coordinates (h : HistoryCheck) (e : RecordedEvent)
  : result (N * N * gset CommitId) EventStoreError :=
  match hc_current h with
  | Some (commit_id, expected_ordinal, event_count) =>
    if bool_decide (commit_id = re_commit_id e)
    then Ok (expected_ordinal, event_count, hc_seen_commits h)
    else Err (corrupt "loaded history contains an incomplete commit")
  | None =>
    fail! negb (re_commit_event_ordinal e =? 0) with corrupt "loaded history starts inside a commit";
    fail! bool_decide (re_commit_id e ∈ hc_seen_commits h)
      with corrupt "events for one commit are not contiguous";
    Ok (0, re_commit_event_count e, {[ re_commit_id e ]} ∪ hc_seen_commits h)
  end.

(** One iteration of the loop of [validate_history] *)
Definition check_event (stream_id : StreamId) (h : HistoryCheck) (item : N * RecordedEvent)
  : result HistoryCheck EventStoreError :=
  let (index, e) := item in
  fail! negb (bool_decide (re_stream_id e = stream_id))
    with corrupt "loaded history contains an event from another stream";
  let? expected_position :=
    ok_or (mkStreamVersion <$> (try_from u64_max index ≫= λ v, checked_add u64_max v 1))
      (corrupt "loaded history exceeds the supported version range") in
  fail! negb (bool_decide (re_stream_version e = expected_position))
    with corrupt "loaded history has non-contiguous stream versions";
  fail! bool_decide (re_event_id e ∈ hc_event_ids h)
    with corrupt "loaded history contains a duplicate event identity";
  let event_ids := {[ re_event_id e ]} ∪ hc_event_ids h in
  let? (expected_ordinal, event_count, seen_commits) := expected_coordinates h e in
  fail! negb (re_commit_event_ordinal e =? expected_ordinal)
        || negb (re_commit_event_count e =? event_count)
    with corrupt "loaded history has inconsistent commit coordinates";
  fail! negb (bool_decide (re_commit_id e = derive_commit_id stream_id (re_operation_id e)))
    with corrupt "loaded history contains an invalid commit identity";
  fail! negb (bool_decide (re_event_id e
                           = derive_event_id (re_commit_id e) (re_commit_event_ordinal e)))
    with corrupt "loaded history contains an invalid event identity";
  let? next_ordinal := ok_or (checked_add u32_max (re_commit_event_ordinal e) 1)
    (corrupt "a commit exceeds the supported event ordinal range") in
  let current := if next_ordinal =? event_count then None
                 else Some (re_commit_id e, next_ordinal, event_count) in
  fail! is_some_and (λ previous, negb (bool_decide (previous = operation_identity e)))
          (hc_operations h !! re_operation_id e)
    with corrupt "loaded history reuses an operation identity across different commits";
  Ok (mkHistoryCheck event_ids seen_commits
        (<[re_operation_id e := operation_identity e]> (hc_operations h)) current).

Definition validate_history (stream_id : StreamId) (history : list RecordedEvent)
  : result unit EventStoreError :=
  let? h := try_fold (check_event stream_id) history_start (enumerate history) in
  fail! is_some (hc_current h) with corrupt "loaded history ended inside a commit";
  Ok tt.

(** ** What a valid history is *)

(** The events of one commit, in order and complete up to [count] *)
Definition commit_prefix (commit : CommitId) (count : N) (g : list RecordedEvent) : Prop :=
  ∀ i e, g !! i = Some e →
    re_commit_id e = commit ∧ re_commit_event_ordinal e = N.of_nat i ∧ re_commit_event_count e = count.

(** An event at position [i] of the stream *)
Record placed (stream : StreamId) (i : nat) (e : RecordedEvent) : Prop := {
  pl_stream : re_stream_id e = stream;
  pl_version : re_stream_version e = mkStreamVersion (N.of_nat i + 1);
  pl_commit : re_commit_id e = derive_commit_id stream (re_operation_id e);
  pl_event : re_event_id e = derive_event_id (re_commit_id e) (re_commit_event_ordinal e);
}.

(** The history is a sequence of whole commits of distinct identities, each
    event is at its version with derived identities, no event identity is
    repeated, and an operation is always the same command. *)
Record history_ok (stream : StreamId) (history : list RecordedEvent) : Prop := {
  ho_placed : ∀ i e, history !! i = Some e → placed stream i e;
  ho_event_ids : NoDup (re_event_id <$> history);
  ho_operations : ∀ i j e e', history !! i = Some e → history !! j = Some e' →
    re_operation_id e = re_operation_id e' → operation_identity e = operation_identity e';
  ho_commits : ∃ gs : list (CommitId * list RecordedEvent),
    history = concat gs.*2 ∧ NoDup gs.*1
    ∧ Forall (λ g, commit_prefix g.1 (len g.2) g.2) gs;
}.

(** The loop invariant, after the events [p] *)
Record checked (stream : StreamId) (h : HistoryCheck) (p : list RecordedEvent) : Prop := {
  ck_placed : ∀ i e, p !! i = Some e → placed stream i e;
  ck_ids : ∀ x, x ∈ hc_event_ids h ↔ x ∈ re_event_id <$> p;
  ck_nodup : NoDup (re_event_id <$> p);
  ck_operations : ∀ e, e ∈ p → hc_operations h !! re_operation_id e = Some (operation_identity e);
  ck_operations_only : ∀ o x, hc_operations h !! o = Some x → ∃ e, e ∈ p ∧ re_operation_id e = o;
  ck_commits : ∃ (gs : list (CommitId * list RecordedEvent)) cur,
    p = concat gs.*2 ++ cur
    ∧ Forall (λ g, commit_prefix g.1 (len g.2) g.2) gs
    ∧ match hc_current h with
      | None => cur = [] ∧ NoDup gs.*1 ∧ (∀ c, c ∈ hc_seen_commits h ↔ c ∈ gs.*1)
      | Some (c, next, count) =>
        commit_prefix c count cur ∧ next = len cur
        ∧ NoDup (c :: gs.*1) ∧ (∀ x, x ∈ hc_seen_commits h ↔ x ∈ c :: gs.*1)
      end;
}.

Lemma commit_prefix_snoc c count g e :
  commit_prefix c count g → re_commit_id e = c → re_commit_event_ordinal e = len g →
  re_commit_event_count e = count → commit_prefix c count (g ++ [e]).
Proof.
  intros Hg Hc Ho Hn i x [Hi|[Hi Hx]]%lookup_app_Some; [by apply Hg|].
  destruct (i - length g)%nat eqn:E; [|done]. cbn in Hx. injection Hx as <-.
  split_and!; try done. rewrite Ho. unfold len. f_equal. lia.
Qed.

Lemma NoDup_snoc_id (p : list RecordedEvent) e :
  NoDup (re_event_id <$> p) → re_event_id e ∉ (re_event_id <$> p) → NoDup (re_event_id <$> p ++ [e]).
Proof.
  intros Hp He. rewrite fmap_app. apply NoDup_app. split_and!; [done| |apply NoDup_singleton].
  intros x Hx Hin. cbn in Hin. apply list_elem_of_singleton in Hin as ->. done.
Qed.

(** The commits, one event further *)
Lemma checked_commits_step h p e expected count seen next :
  (∃ (gs : list (CommitId * list RecordedEvent)) cur,
    p = concat gs.*2 ++ cur
    ∧ Forall (λ g, commit_prefix g.1 (len g.2) g.2) gs
    ∧ match hc_current h with
      | None => cur = [] ∧ NoDup gs.*1 ∧ (∀ c, c ∈ hc_seen_commits h ↔ c ∈ gs.*1)
      | Some (c, next, count) =>
        commit_prefix c count cur ∧ next = len cur
        ∧ NoDup (c :: gs.*1) ∧ (∀ x, x ∈ hc_seen_commits h ↔ x ∈ c :: gs.*1)
      end) →
  expected_coordinates h e = Ok (expected, count, seen) →
  re_commit_event_ordinal e = expected → re_commit_event_count e = count →
  next = re_commit_event_ordinal e + 1 →
  ∃ (gs : list (CommitId * list RecordedEvent)) cur,
    p ++ [e] = concat gs.*2 ++ cur
    ∧ Forall (λ g, commit_prefix g.1 (len g.2) g.2) gs
    ∧ match (if next =? count then None else Some (re_commit_id e, next, count)) with
      | None => cur = [] ∧ NoDup gs.*1 ∧ (∀ c, c ∈ seen ↔ c ∈ gs.*1)
      | Some (c, next, count) =>
        commit_prefix c count cur ∧ next = len cur
        ∧ NoDup (c :: gs.*1) ∧ (∀ x, x ∈ seen ↔ x ∈ c :: gs.*1)
      end.
Proof.
  intros (gs & cur & -> & Hgs & Hcur) Hexp Ho Hn ->.
  assert (commit_prefix (re_commit_id e) count (cur ++ [e])
    ∧ re_commit_event_ordinal e = len cur ∧ NoDup (re_commit_id e :: gs.*1)
    ∧ (∀ x, x ∈ seen ↔ x ∈ re_commit_id e :: gs.*1)) as (Hp & Hl & Hnd & Hseen).
  { unfold expected_coordinates in Hexp. destruct (hc_current h) as [[[c next] n]|].
    - case_bool_decide as Hc; [|done]. injection Hexp as <- <- <-. subst c.
      destruct Hcur as (Hp & -> & Hnd & Hseen). split_and!; try done. by apply commit_prefix_snoc.
    - destruct Hcur as (-> & Hnd & Hseen). guards.
      match goal with H : (_, _, _) = _ |- _ => injection H as <- <- <- | _ => idtac end.
      subst. split_and!; try done.
      + apply (commit_prefix_snoc _ _ []); try done.
      + constructor; [|done]. by rewrite <- Hseen.
      + intros x. rewrite elem_of_union, elem_of_singleton, elem_of_cons, Hseen. done. }
  destruct (_ =? count) eqn:E; bool_step.
  - exists (gs ++ [(re_commit_id e, cur ++ [e])]), []. rewrite !fmap_app, concat_app. cbn [fmap list_fmap concat snd fst].
    rewrite !app_nil_r, <- app_assoc. split; [done|]. split.
    + apply Forall_app. split; [done|]. apply Forall_singleton. cbn [fst snd].
      rewrite len_app, <- Hl. change (len [e]) with 1. by rewrite E.
    + split; [done|]. rewrite Permutation_app_comm. cbn [app]. split; [done|].
      intros x. rewrite Hseen, elem_of_app, elem_of_cons, list_elem_of_singleton. tauto.
  - exists gs, (cur ++ [e]). rewrite <- app_assoc. split_and!; try done.
    rewrite len_app, <- Hl. done.
Qed.

Lemma check_event_checked stream h p e h' :
  checked stream h p → check_event stream h (N.of_nat (length p), e) = Ok h' →
  checked stream h' (p ++ [e]).
Proof.
  intros [Hpl Hids Hnd Hop Hoo Hco] H. unfold check_event in H. guards.
  match goal with x : (N * N * gset CommitId)%type |- _ => destruct x as [[expected count] seen] end.
  guards.
  match goal with H : (_ <$> _) = Some _ |- _ => apply fmap_Some in H as (pos & Hpos & ->) end.
  apply bind_Some in Hpos as (index & [-> _]%try_from_Some & [-> _]%checked_add_Some).
  match goal with H : checked_add _ _ _ = Some _ |- _ => apply checked_add_Some in H as [-> _] end.

  assert (re_event_id e ∉ re_event_id <$> p) as Hnew by (by rewrite <- Hids).
  split; cbn [hc_event_ids hc_operations hc_current hc_seen_commits].
  - intros i x [Hi|[Hi Hx]]%lookup_app_Some; [by apply Hpl|].
    destruct (i - length p)%nat eqn:E; [|done]. cbn in Hx. injection Hx as <-.
    split; try done. match goal with H : re_stream_version e = _ |- _ => rewrite H end. do 2 f_equal. lia.
  - intros x. rewrite elem_of_union, elem_of_singleton, Hids, fmap_app, elem_of_app. cbn.
    rewrite list_elem_of_singleton. tauto.
  - by apply NoDup_snoc_id.
  - intros x [Hx| ->%list_elem_of_singleton]%elem_of_app; [|by rewrite lookup_insert_eq].
    destruct (decide (re_operation_id x = re_operation_id e)) as [E|Hne].
    + rewrite E, lookup_insert_eq. specialize (Hop x Hx). rewrite E in Hop.
      match goal with H : is_some_and _ _ = false |- _ => rewrite Hop in H; cbn in H; guards end.
      by f_equal.
    + rewrite lookup_insert_ne by done. by apply Hop.
  - intros o x [[<- _]|[_ Hx]]%lookup_insert_Some; [exists e; set_solver|].
    destruct (Hoo _ _ Hx) as (y & Hy & <-). exists y. set_solver.
  - eapply checked_commits_step; try done.
Qed.

Lemma checked_start stream : checked stream history_start [].
Proof.
  split; cbn [history_start hc_event_ids hc_operations hc_seen_commits hc_current].
  - done.
  - intros x. cbn. set_solver.
  - constructor.
  - intros e He. by apply elem_of_nil in He.
  - intros o x. by rewrite lookup_empty.
  - exists [], []. split_and!; try done; [constructor|]. intros c. cbn. set_solver.
Qed.

Lemma check_events_checked stream l p h h' :
  checked stream h p → try_fold (check_event stream) h (enumerate_from (N.of_nat (length p)) l) = Ok h' →
  checked stream h' (p ++ l).
Proof.
  revert p h; induction l as [|e l IH]; intros p h Hp; cbn [enumerate_from try_fold].
  - intros [= <-]. by rewrite app_nil_r.
  - rewrite rbind_Ok. intros (h1 & H1 & Hl). apply check_event_checked in H1; [|done].
    replace (N.of_nat (length p) + 1) with (N.of_nat (length (p ++ [e]))) in Hl
      by (rewrite length_app; cbn; lia).
    apply IH in Hl; [|done]. by rewrite <- app_assoc in Hl.
Qed.

(** Only well-formed histories are rehydrated: whatever the store
    returned, when validation accepts it, it is a sequence of whole commits of
    distinct identities, every event is at the version of its position with the
    stream, commit and event identities derived from its operation, no event
    identity repeats, and one operation is one command throughout. *)
Theorem validate_history_sound stream history :
  validate_history stream history = Ok tt → history_ok stream history.
Proof.
  unfold validate_history. intros H. guards.
  match goal with H : try_fold _ _ _ = Ok ?x |- _ => rename x into h; rename H into Hf end.
  apply (check_events_checked stream history [] history_start) in Hf; [|apply checked_start].
  destruct Hf as [Hpl _ Hnd Hop _ (gs & cur & Hh & Hgs & Hcur)]. cbn [app] in *.
  destruct (hc_current h); [done|]. destruct Hcur as (-> & Hc & _). rewrite app_nil_r in Hh.
  split; try done; [|by exists gs].
  intros i j e e' Hi Hj E. apply list_elem_of_lookup_2 in Hi, Hj. apply Hop in Hi, Hj. congruence.
Qed.

(** ** What the store records validates *)

Definition batch_identity (b : EventBatch) : OperationIdentity :=
  (eb_commit_id b, eb_operation_fingerprint b, eb_actor b).

(** The loop state after the batches [bs] and the first [k] events of [b] *)
Record reading (h : HistoryCheck) (bs : list EventBatch) (b : EventBatch) (k : nat) : Prop := {
  rd_ids : ∀ x, x ∈ hc_event_ids h ↔
    x ∈ concat ((λ b, ne_event_id <$> eb_events b) <$> bs) ++ (ne_event_id <$> take k (eb_events b));
  rd_seen : ∀ c, c ∈ hc_seen_commits h ↔ c ∈ eb_commit_id <$> bs ∨ k ≠ 0%nat ∧ c = eb_commit_id b;
  rd_operations : ∀ o x, hc_operations h !! o = Some x →
    o ∈ eb_operation_id <$> bs ∨ k ≠ 0%nat ∧ o = eb_operation_id b ∧ x = batch_identity b;
  rd_current : hc_current h = if decide (k = 0%nat ∨ k = length (eb_events b)) then None
                              else Some (eb_commit_id b, N.of_nat k, len (eb_events b));
}.

(** A batch whose identities are derived and not used by the batches before *)
Record next_batch (stream : StreamId) (bs : list EventBatch) (b : EventBatch) : Prop := {
  nb_batch : batch_ok b;
  nb_derived : derived stream b;
  nb_commit : eb_commit_id b ∉ eb_commit_id <$> bs;
  nb_operation : eb_operation_id b ∉ eb_operation_id <$> bs;
  nb_events : NoDup (concat ((λ b, ne_event_id <$> eb_events b) <$> bs) ++ (ne_event_id <$> eb_events b));
}.

Lemma reading_step stream bs b h k pos e :
  next_batch stream bs b → reading h bs b k → eb_events b !! k = Some e → pos + 1 <= u64_max →
  ∃ h', check_event stream h (pos, from_new stream (mkStreamVersion (pos + 1)) b (N.of_nat k)
                                     (len (eb_events b)) e) = Ok h'
        ∧ reading h' bs b (S k).
Proof.
  intros [Hb [Hcd Hed] Hc Ho Hev] [Ri Rs Ro Rc] He Hpos.
  pose proof (lookup_lt_Some _ _ _ He) as Hk.
  pose proof (batch_ok_u32 _ Hb) as Hu. unfold len in Hu.
  unfold check_event; cbn [from_new re_stream_id re_stream_version re_event_id re_commit_id
    re_operation_id re_commit_event_ordinal re_commit_event_count].
  rewrite !bool_decide_eq_true_2 by done.
  rewrite (proj2 (try_from_Some u64_max pos pos)) by (split; [done|lia]). cbn [mbind option_bind].
  rewrite (proj2 (checked_add_Some u64_max pos 1 (pos + 1))) by done.
  cbn [fmap option_fmap option_map ok_or rbind negb].
  rewrite (bool_decide_eq_true_2 (mkStreamVersion _ = mkStreamVersion _)) by done. cbn [negb].
  rewrite (bool_decide_eq_false_2 (_ ∈ hc_event_ids h)); cycle 1.
  { rewrite Ri. rewrite <- (take_drop_middle _ _ _ He), fmap_app, app_assoc in Hev.
    apply NoDup_app in Hev as (_ & Hd & _). intros Hin. apply (Hd _ Hin). left. }
  assert (expected_coordinates h (from_new stream (mkStreamVersion (pos + 1)) b (N.of_nat k)
      (len (eb_events b)) e)
    = Ok (N.of_nat k, len (eb_events b), {[eb_commit_id b]} ∪ hc_seen_commits h)) as Hx.
  { unfold expected_coordinates. rewrite Rc. cbn [from_new re_commit_id re_commit_event_ordinal re_commit_event_count].
    destruct k as [|k]; [rewrite decide_True by auto|rewrite decide_False by lia].
    - cbn [N.of_nat]. rewrite (bool_decide_eq_false_2 (_ ∈ hc_seen_commits h)); [done|].
      rewrite Rs. intros [?|[? _]]; done.
    - rewrite bool_decide_eq_true_2 by done. f_equal. f_equal. apply set_eq. intros c.
      rewrite elem_of_union, elem_of_singleton, Rs. split; [auto|]. intros [->|?]; auto. }
  rewrite Hx. cbn [rbind]. rewrite !N.eqb_refl. cbn [negb orb].
  rewrite (bool_decide_eq_true_2 (eb_commit_id b = _)) by done. cbn [negb].
  rewrite (bool_decide_eq_true_2 (ne_event_id e = _)) by (by apply Hed). cbn [negb].
  rewrite (proj2 (checked_add_Some u32_max (N.of_nat k) 1 (N.of_nat k + 1))) by (split; [done|lia]).
  cbn [ok_or rbind].
  destruct (is_some_and _ _) eqn:Eop.
  { exfalso. destruct (hc_operations h !! eb_operation_id b) as [x|] eqn:Ex; [|done]. cbn in Eop. guards.
    destruct (Ro _ _ Ex) as [?|(_ & _ & ->)]; done. }
  eexists. split; [done|].
  split; cbn [hc_event_ids hc_seen_commits hc_operations hc_current].
  - intros x. rewrite elem_of_union, elem_of_singleton, Ri, (take_S_r _ _ _ He), fmap_app, !elem_of_app.
    cbn. rewrite list_elem_of_singleton. tauto.
  - intros c. rewrite elem_of_union, elem_of_singleton, Rs. split; [|naive_solver lia].
    intros [->|[?|[_ ->]]]; auto.
  - intros o x [[<- <-]|[_ Hx']]%lookup_insert_Some; [auto|]. destruct (Ro _ _ Hx'); naive_solver.
  - destruct (N.of_nat k + 1 =? len (eb_events b)) eqn:E; bool_step; unfold len in E.
    + rewrite decide_True by lia. done.
    + rewrite decide_False by lia. do 2 f_equal. f_equal. lia.
Qed.

Lemma reading_group stream bs b h k pos l :
  next_batch stream bs b → reading h bs b k → drop k (eb_events b) = l → pos + len l <= u64_max →
  ∃ h', try_fold (check_event stream) h
          (enumerate_from pos (imap (λ i e, from_new stream (mkStreamVersion (pos + N.of_nat i + 1)) b
             (N.of_nat (k + i)) (len (eb_events b)) e) l)) = Ok h'
        ∧ reading h' bs b (k + length l).
Proof.
  intros Hb. revert h k pos; induction l as [|e l IH]; intros h k pos Hr Hd Hpos; cbn [imap].
  - exists h. by rewrite Nat.add_0_r.
  - assert (eb_events b !! k = Some e) as He by (by rewrite <- (Nat.add_0_r k), <- lookup_drop, Hd).
    rewrite len_cons in Hpos.
    destruct (reading_step stream bs b h k pos e Hb Hr He) as (h1 & H1 & Hr1); [lia|].
    cbn [enumerate_from try_fold]. rewrite N.add_0_r, Nat.add_0_r, H1. cbn [rbind].
    destruct (IH h1 (S k) (pos + 1) Hr1) as (h2 & H2 & Hr2); [|lia|].
    + rewrite (drop_S _ _ _ He) in Hd. by injection Hd.
    + exists h2. replace (k + length (e :: l))%nat with (S k + length l)%nat by (cbn; lia).
      split; [|done]. rewrite <- H2. do 2 f_equal. apply imap_ext. intros i x _. cbn.
      f_equal; [f_equal|]; lia.
Qed.

(** The batches of a stream, one after the other *)
Lemma reading_start bs h b b' : reading h bs b 0 → reading h bs b' 0.
Proof.
  intros [Ri Rs Ro Rc]. split.
  - intros x. by rewrite Ri.
  - intros c. rewrite Rs. naive_solver.
  - intros o x Hx. destruct (Ro _ _ Hx); naive_solver.
  - rewrite Rc. by rewrite !decide_True by auto.
Qed.

Lemma reading_done bs h b b' :
  eb_events b ≠ [] → reading h bs b (length (eb_events b)) → reading h (bs ++ [b]) b' 0.
Proof.
  intros Hne [Ri Rs Ro Rc].
  assert (length (eb_events b) ≠ 0%nat) as Hl by (by destruct (eb_events b)).
  split.
  - intros x. rewrite Ri, firstn_all, fmap_app, concat_app, take_0. cbn [fmap list_fmap concat].
    by rewrite !app_nil_r.
  - intros c. rewrite Rs, fmap_app, elem_of_app. cbn. rewrite list_elem_of_singleton. naive_solver.
  - intros o x Hx. left. rewrite fmap_app, elem_of_app. cbn. rewrite list_elem_of_singleton.
    destruct (Ro _ _ Hx); naive_solver.
  - rewrite Rc. by rewrite !decide_True by auto.
Qed.

Lemma reading_all stream bs rest h pos b0 :
  Forall (λ b, batch_ok b ∧ derived stream b) rest →
  NoDup (eb_commit_id <$> bs ++ rest) → NoDup (eb_operation_id <$> bs ++ rest) →
  NoDup (concat ((λ b, ne_event_id <$> eb_events b) <$> bs ++ rest)) →
  reading h bs b0 0 → pos + len (record_all stream pos rest) <= u64_max →
  ∃ h', try_fold (check_event stream) h (enumerate_from pos (record_all stream pos rest)) = Ok h'
        ∧ hc_current h' = None.
Proof.
  revert bs h pos b0; induction rest as [|b rest IH]; intros bs h pos b0 Hall Hc Ho He Hr Hpos.
  - exists h. split; [done|]. rewrite (rd_current _ _ _ _ Hr). by rewrite decide_True by auto.
  - apply Forall_cons in Hall as [[Hb Hd] Hall]. cbn [record_all] in *.
    rewrite len_app, len_record_group in Hpos.
    assert (next_batch stream bs b) as Hnb.
    { split; try done.
      - rewrite fmap_app in Hc. cbn [fmap list_fmap] in Hc. intros Hin.
        apply NoDup_app in Hc as (_ & Hn & _). by apply (Hn _ Hin), list_elem_of_here.
      - rewrite fmap_app in Ho. cbn [fmap list_fmap] in Ho. intros Hin.
        apply NoDup_app in Ho as (_ & Hn & _). by apply (Hn _ Hin), list_elem_of_here.
      - rewrite fmap_app, concat_app in He. cbn [fmap list_fmap concat] in He.
        rewrite app_assoc in He. by apply NoDup_app in He as (He & _). }
    destruct (reading_group stream bs b h 0 pos (eb_events b) Hnb) as (h1 & H1 & Hr1); try done.
    { by eapply reading_start. }
    { lia. }
    rewrite enumerate_from_app, try_fold_app. unfold record_group at 1.
    replace (imap _ _) with (imap (λ i e, from_new stream (mkStreamVersion (pos + N.of_nat i + 1)) b
             (N.of_nat (0 + i)) (len (eb_events b)) e) (eb_events b)) by done.
    rewrite H1. cbn [rbind]. rewrite len_record_group.
    apply (IH (bs ++ [b]) h1 (pos + len (eb_events b)) b); rewrite <- ?app_assoc; try done.
    + eapply reading_done; [by apply batch_nonempty|exact Hr1].
    + lia.
Qed.

Lemma journal_validates s stream bs :
  journal_ok s stream bs → len (load s stream) <= u64_max →
  validate_history stream (load s stream) = Ok tt.
Proof.
  intros [He Hb Hc Ho Hi _ _ _] Hl. unfold validate_history, enumerate. rewrite He in *.
  set (b0 := mkEventBatch None (Ident "") (Ident "") (from_bytes []) [] None None).
  destruct (reading_all stream [] bs history_start 0 b0 Hb Hc Ho Hi) as (h & -> & Hcur).
  - split; cbn.
    + intros x. cbn. set_solver.
    + intros c. cbn. set_solver.
    + intros o x. by rewrite lookup_empty.
    + done.
  - by rewrite N.add_0_l.
  - cbn [rbind]. by rewrite Hcur.
Qed.

Lemma load_le_stored s stream : len (load s stream) <= stored_events s.
Proof.
  unfold stored_events, load. destruct (streams s !! stream) as [evs|] eqn:E; cbn [default from_option].
  - unfold id. rewrite <- (insert_id (streams s) stream evs E) at 1. rewrite stored_events_insert. lia.
  - rewrite len_nil. lia.
Qed.

(** The store and the validator agree: every stream of every
    reachable state of the in-memory store is accepted when it is loaded, so a
    corrupt-history error never blames a history the store itself wrote. *)
Theorem recorded_history_validates `{OJ : OutcomeJson} debug_str st s stream :
  ims_maximum_events st <= usize_max → reachable debug_str st s →
  validate_history stream (load s stream) = Ok tt
  ∧ history_version (load s stream) = current_version s stream.
Proof.
  intros Hm Hr. pose proof (reachable_ok debug_str st s Hm Hr) as Hs.
  destruct (js_journals _ (so_journal _ _ Hs) stream) as [bs Hbs]. split.
  - apply (journal_validates s stream bs Hbs). pose proof (load_le_stored s stream).
    pose proof (so_count _ _ Hs). pose proof (so_capacity _ _ Hs).
    unfold usize_max in *. lia.
  - unfold history_version, current_version, load. by destruct (streams s !! stream).
Qed.

End History.

(** ** Witnesses *)

Section Witnesses.
#[local] Existing Instances tail_digest sample_json.

Lemma validate_history_sound_witness :
  len (load sample_placed sample_stream) = 2 ∧ history_ok sample_stream (load sample_placed sample_stream).
Proof. split; [by vm_compute|]. apply validate_history_sound. by vm_compute. Defined.

Lemma recorded_history_validates_witness :
  validate_history sample_stream (load sample_placed sample_stream) = Ok tt.
Proof.
  exact (proj1 (recorded_history_validates id sample_store sample_placed sample_stream ltac:(done)
    sample_placed_reachable)).
Defined.

End Witnesses.
