(* ===== verification/NatsHistory.v ===== *)
(** * NatsHistory: how the history of one aggregate subject is built from its
    stored messages (History, HistoryBuilder, PendingCommit,
    read_history_through, extend_history and resolve_existing in
    crates/rostfrei-nats/src/event_store.rs). *)

From S2P Require Export NatsWireFacts.

(** ** Data *)

Record StoredTransactionProvenance := mkProvenance {
  stp_batch_id : string;
  stp_start : N;
  stp_end : N;
  stp_transaction_event_count : N;
}.
#[global] Instance StoredTransactionProvenance_eq_dec : EqDecision StoredTransactionProvenance.
Proof. solve_decision. Defined.

Record StoredCommit := mkStoredCommit {
  cm_batch : EventBatch;
  cm_events : list RecordedEvent;
  cm_sequences : list N;
  cm_transaction : option StoredTransactionProvenance;
}.

Record History := mkHistory {
  nh_events : list RecordedEvent;
  nh_sequences : list N;
  nh_commits : list StoredCommit;
  nh_last_subject_stream_sequence : N;
}.
Definition History_default : History := mkHistory [] [] [] 0.

Record PendingCommit := mkPendingCommit {
  pc_batch_id : string;
  pc_commit_id : CommitId;
  pc_operation_id : OperationId;
  pc_operation_fingerprint : ContentFingerprint;
  pc_event_count : N;
  pc_events : list RecordedEvent;
  pc_sequences : list N;
  pc_transaction : option StoredTransactionProvenance;
}.

Record HistoryBuilder := mkHistoryBuilder {
  hb_history : History;
  hb_current_version : StreamVersion;
  hb_operation_ids : gset OperationId;
  hb_commit_ids : gset CommitId;
  hb_event_ids : gset EventId;
  hb_pending : option PendingCommit;
}.
Definition HistoryBuilder_default : HistoryBuilder :=
  mkHistoryBuilder History_default version_zero ∅ ∅ ∅ None.

(** The version of the last event *)
Definition nats_current_version (events : list RecordedEvent) : StreamVersion :=
  from_option re_stream_version version_zero (last events).

(** [HistoryBuilder::from_history] *)
Definition from_history (h : History) : HistoryBuilder :=
  {| hb_history := h; hb_current_version := nats_current_version (nh_events h);
     hb_operation_ids := list_to_set ((λ c, eb_operation_id (cm_batch c)) <$> nh_commits h);
     hb_commit_ids := list_to_set ((λ c, eb_commit_id (cm_batch c)) <$> nh_commits h);
     hb_event_ids := list_to_set (re_event_id <$> nh_events h);
     hb_pending := None |}.

(** ** Commits being read *)

Definition transaction_batch_start_sequence (commit : StoredCommit)
    (provenance : StoredTransactionProvenance) : result N EventStoreError :=
  let? first_sequence := ok_or (head (cm_sequences commit))
    (corrupt "transactional commit has no global stream sequence") in
  let? transaction_offset := ok_or (try_from u64_max (stp_start provenance))
    (corrupt "transaction event ordinal cannot be represented") in
  let? batch_start := ok_or (checked_sub first_sequence transaction_offset)
    (corrupt "transaction batch start sequence underflowed") in
  fail! batch_start =? 0 with corrupt "transaction batch has an invalid start sequence";
  Ok batch_start.

(** [PendingCommit::new] *)
Definition PendingCommit_new (d : DecodedEvent) (sequence : N) (transactional : bool)
  : result PendingCommit EventStoreError :=
  let? transaction :=
    if transactional then
      let? last := ok_or (checked_add usize_max (de_transaction_event_ordinal d) (de_event_count d))
        (corrupt "transactional commit ordinal range overflowed") in
      fail! de_transaction_event_count d <? last
        with corrupt "transactional commit exceeds its transaction event range";
      Ok (Some (mkProvenance (de_batch_id d) (de_transaction_event_ordinal d) last
                  (de_transaction_event_count d)))
    else Ok None in
  Ok {| pc_batch_id := de_batch_id d; pc_commit_id := de_commit_id d;
        pc_operation_id := de_operation_id d;
        pc_operation_fingerprint := de_operation_fingerprint d;
        pc_event_count := de_event_count d; pc_events := [de_recorded d];
        pc_sequences := [sequence]; pc_transaction := transaction |}.

(** The transaction coordinates of an event continue those of its commit. *)
Definition transaction_matches (transaction : option StoredTransactionProvenance) (d : DecodedEvent)
    (transactional : bool) : bool :=
  match transaction with
  | None => negb transactional
  | Some t =>
    transactional && String.eqb (de_batch_id d) (stp_batch_id t)
    && (de_transaction_event_count d =? stp_transaction_event_count t)
    && bool_decide (checked_add usize_max (stp_start t) (de_event_ordinal d)
                    = Some (de_transaction_event_ordinal d))
  end.

(** [PendingCommit::push] *)
Definition PendingCommit_push (p : PendingCommit) (d : DecodedEvent) (sequence : N)
    (transactional : bool) : result PendingCommit EventStoreError :=
  let? first := ok_or (head (pc_events p)) (corrupt "stored commit is empty") in
  fail! negb (de_event_ordinal d =? len (pc_events p))
        || negb (de_event_count d =? pc_event_count p)
        || negb (String.eqb (de_batch_id d) (pc_batch_id p))
        || negb (bool_decide (de_commit_id d = pc_commit_id p))
        || negb (bool_decide (de_operation_id d = pc_operation_id p))
        || negb (bool_decide (de_operation_fingerprint d = pc_operation_fingerprint p))
        || negb (bool_decide (re_correlation_id (de_recorded d) = re_correlation_id first))
        || negb (bool_decide (re_causation_id (de_recorded d) = re_causation_id first))
        || negb (bool_decide (re_actor (de_recorded d) = re_actor first))
        || negb (transaction_matches (pc_transaction p) d transactional)
    with corrupt "stored commit metadata is inconsistent";
  Ok {| pc_batch_id := pc_batch_id p; pc_commit_id := pc_commit_id p;
        pc_operation_id := pc_operation_id p;
        pc_operation_fingerprint := pc_operation_fingerprint p;
        pc_event_count := pc_event_count p; pc_events := pc_events p ++ [de_recorded d];
        pc_sequences := pc_sequences p ++ [sequence]; pc_transaction := pc_transaction p |}.

Definition is_complete (p : PendingCommit) : bool := len (pc_events p) =? pc_event_count p.

Definition new_event_of (e : RecordedEvent) : result NewEvent EventStoreError :=
  map_err (λ error, corrupt ("invalid stored event envelope: " +:+ EnvelopeError_display error))
    (NewEvent_new (re_event_id e) (re_event_type e) (re_schema_version e) (re_payload e)).

(** Every sequence is the first one plus its position. *)
Definition contiguous (first_sequence : N) (sequences : list N) : bool :=
  forallb (λ p, bool_decide ((try_from u64_max p.1 ≫= checked_add u64_max first_sequence) = Some p.2))
    (enumerate sequences).

(** The batch takes its provenance from the first event. *)
Definition commit_batch (batch : EventBatch) (first : RecordedEvent) : EventBatch :=
  let batch := match re_correlation_id first with
               | Some c => batch_with_correlation_id batch c | None => batch end in
  let batch := match re_causation_id first with
               | Some c => batch_with_causation_id batch c | None => batch end in
  match re_actor first with Some a => batch_with_actor batch a | None => batch end.

(** [PendingCommit::finish] *)
Definition PendingCommit_finish (p : PendingCommit) : result StoredCommit EventStoreError :=
  let? first := ok_or (head (pc_events p)) (corrupt "stored commit is empty") in
  let? new_events := try_map new_event_of (pc_events p) in
  let? batch := map_err (λ error, corrupt ("invalid stored event batch: " +:+ EnvelopeError_display error))
    (EventBatch_new (pc_commit_id p) (pc_operation_id p) (pc_operation_fingerprint p) new_events) in
  let batch := commit_batch batch first in
  let commit := mkStoredCommit batch (pc_events p) (pc_sequences p) (pc_transaction p) in
  let? first_sequence := ok_or (head (cm_sequences commit))
    (corrupt "stored commit has no global stream sequence") in
  fail! negb (contiguous first_sequence (cm_sequences commit))
    with corrupt "stored commit events are not contiguous in their atomic batch";
  let? _ := match cm_transaction commit with
            | Some provenance => rmap (λ _, tt) (transaction_batch_start_sequence commit provenance)
            | None => Ok tt
            end in
  Ok commit.

(** ** The builder *)

(** The commit an event starts or continues *)
Definition builder_pending (b : HistoryBuilder) (d : DecodedEvent) (sequence : N) (transactional : bool)
  : result (gset OperationId * gset CommitId * PendingCommit) EventStoreError :=
  if de_event_ordinal d =? 0 then
    fail! is_some (hb_pending b) with corrupt "aggregate history contains an incomplete commit";
    fail! bool_decide (de_operation_id d ∈ hb_operation_ids b)
      with corrupt "aggregate history contains a duplicate operation identity";
    fail! bool_decide (de_commit_id d ∈ hb_commit_ids b)
      with corrupt "aggregate history contains a duplicate commit identity";
    let? pending := PendingCommit_new d sequence transactional in
    Ok ({[ de_operation_id d ]} ∪ hb_operation_ids b, {[ de_commit_id d ]} ∪ hb_commit_ids b, pending)
  else
    let? pending := ok_or (hb_pending b) (corrupt "aggregate history starts inside a commit") in
    let? pending := PendingCommit_push pending d sequence transactional in
    Ok (hb_operation_ids b, hb_commit_ids b, pending).

Definition history_push_commit (h : History) (c : StoredCommit) : History :=
  mkHistory (nh_events h ++ cm_events c) (nh_sequences h ++ cm_sequences c) (nh_commits h ++ [c])
    (nh_last_subject_stream_sequence h).

(** [HistoryBuilder::push] *)
Definition builder_push (b : HistoryBuilder) (stored : DecodedStoredEvent)
  : result HistoryBuilder EventStoreError :=
  let d := dse_decoded stored in
  let sequence := dse_global_stream_sequence stored in
  fail! sequence =? 0 with corrupt "stored event has an invalid global stream sequence";
  let? expected_version := ok_or (version_next (hb_current_version b))
    (corrupt "aggregate version space overflowed") in
  fail! negb (bool_decide (re_stream_version (de_recorded d) = expected_version))
    with corrupt "aggregate events are missing, duplicated, or noncontiguous";
  fail! bool_decide (re_event_id (de_recorded d) ∈ hb_event_ids b)
    with corrupt "aggregate history contains a duplicate event identity";
  let event_ids := {[ re_event_id (de_recorded d) ]} ∪ hb_event_ids b in
  let? (operation_ids, commit_ids, pending) :=
    builder_pending b d sequence (dse_is_transactional stored) in
  if is_complete pending then
    let? commit := PendingCommit_finish pending in
    Ok (mkHistoryBuilder (history_push_commit (hb_history b) commit) expected_version operation_ids
          commit_ids event_ids None)
  else
    Ok (mkHistoryBuilder (hb_history b) expected_version operation_ids commit_ids event_ids
          (Some pending)).

(** [HistoryBuilder::finish] *)
Definition builder_finish (b : HistoryBuilder) (last_sequence : N) : result History EventStoreError :=
  fail! is_some (hb_pending b) || bool_decide (hb_current_version b = version_zero)
    with corrupt "aggregate history ended inside a commit";
  let h := hb_history b in
  Ok (mkHistory (nh_events h) (nh_sequences h) (nh_commits h) last_sequence).

(** ** Reading a subject *)

Section Reading.
Context `{SHA : Sha256} `{WJ : Json StoredEventWire} `{CJ : Json ChecksumInput} `{B64 : Base64}.
Context `{HM : HeaderMapApi} `{HN : AtomicHeaderNames}.
Context (config : NatsEventStoreConfig).

(** A message the replay delivers: its sequence (or why its metadata is
    invalid), subject, headers and payload. *)
Record Delivery := mkDelivery {
  dl_sequence : result N string;
  dl_subject : string;
  dl_headers : option HeaderMap;
  dl_payload : list byte;
}.

(** The locals of [read_history_through] *)
Record ReadState := mkReadState {
  rs_history : HistoryBuilder;
  rs_next_stream_sequence : N;
  rs_last_commit_stream_sequence : N;
  rs_last_seen_sequence : N;
}.
Definition read_start : ReadState := mkReadState HistoryBuilder_default 1 0 0.

(** The body of the loop after the snapshot test *)
Definition read_delivery (stream : StreamId) (subject : string) (last_sequence : N) (s : ReadState)
    (sequence : N) (message : Delivery) : result ReadState EventStoreError :=
  fail! negb (String.eqb (dl_subject message) subject)
    with corrupt "aggregate history contains the wrong subject";
  fail! (sequence <? rs_next_stream_sequence s) || (last_sequence <? sequence)
    with corrupt "aggregate history returned an invalid stream sequence";
  let? decoded := decode_event config subject stream (Some (rs_last_commit_stream_sequence s)) sequence
    (default headers_new (dl_headers message)) (dl_payload message) in
  let? next_event_ordinal := ok_or (checked_add usize_max (de_event_ordinal (dse_decoded decoded)) 1)
    (corrupt "stored event has invalid commit coordinates") in
  let last_commit := if next_event_ordinal =? de_event_count (dse_decoded decoded) then sequence
                     else rs_last_commit_stream_sequence s in
  let? history := builder_push (rs_history s) decoded in
  Ok (mkReadState history (rs_next_stream_sequence s) last_commit sequence).

(** The loop over the deliveries of the reader: [next] fails with
    [exhausted] when no further message arrives. *)
Fixpoint read_loop (stream : StreamId) (subject : string) (last_sequence : N)
    (truncated_at_snapshot : bool) (exhausted : EventStoreError)
    (deliveries : list (result Delivery EventStoreError)) (s : ReadState)
  : result ReadState EventStoreError :=
  if rs_next_stream_sequence s <=? last_sequence then
    match deliveries with
    | [] => Err exhausted
    | next :: deliveries =>
      let? message := next in
      let? sequence := map_err (λ error, corrupt ("invalid history delivery metadata: " +:+ error))
        (dl_sequence message) in
      if (last_sequence <? sequence) && truncated_at_snapshot then Ok s
      else
        let? s := read_delivery stream subject last_sequence s sequence message in
        if sequence =? last_sequence then Ok s
        else
          let? next_sequence := ok_or (checked_add u64_max sequence 1)
            (corrupt "JetStream sequence space overflowed") in
          read_loop stream subject last_sequence truncated_at_snapshot exhausted deliveries
            (mkReadState (rs_history s) next_sequence (rs_last_commit_stream_sequence s)
               (rs_last_seen_sequence s))
    end
  else Ok s.

Definition read_history_through (stream : StreamId) (subject : string) (last_sequence : N)
    (truncated_at_snapshot : bool) (exhausted : EventStoreError)
    (deliveries : list (result Delivery EventStoreError)) : result History EventStoreError :=
  let? s := read_loop stream subject last_sequence truncated_at_snapshot exhausted deliveries read_start in
  fail! negb truncated_at_snapshot && negb (rs_last_seen_sequence s =? last_sequence)
    with corrupt "aggregate history ended before its last message";
  if (rs_last_seen_sequence s =? 0) && truncated_at_snapshot then Ok History_default
  else builder_finish (rs_history s) (rs_last_seen_sequence s).

(** [extend_history]: the published commit, read message by message after the
    previous history; [lookup] is the first message of the subject at or after
    a sequence. *)
Record RawMessage := mkRawMessage {
  rm_sequence : N;
  rm_subject : string;
  rm_headers : HeaderMap;
  rm_payload : list byte;
}.

Definition extend_step (stream : StreamId) (subject : string) (previous : History) (last_sequence : N)
    (batch_id : string) (event_count : N) (lookup : N → result RawMessage EventStoreError)
    (s : HistoryBuilder * N) : result (HistoryBuilder * N) EventStoreError :=
  let? next_sequence := ok_or (checked_add u64_max s.2 1) (corrupt "JetStream sequence space overflowed") in
  let? message := lookup next_sequence in
  fail! negb (String.eqb (rm_subject message) subject) || (rm_sequence message <? next_sequence)
        || (last_sequence <? rm_sequence message)
    with corrupt "published history returned an invalid subject or sequence";
  let? decoded := decode_event config subject stream (Some (nh_last_subject_stream_sequence previous))
    (rm_sequence message) (rm_headers message) (rm_payload message) in
  fail! negb (String.eqb (de_batch_id (dse_decoded decoded)) batch_id)
        || negb (de_event_count (dse_decoded decoded) =? event_count)
    with corrupt "published event contains different batch metadata";
  let? builder := builder_push s.1 decoded in
  Ok (builder, rm_sequence message).

Definition extend_history (stream : StreamId) (previous : History) (last_sequence : N)
    (batch_id : string) (event_count : N) (lookup : N → result RawMessage EventStoreError)
  : result History EventStoreError :=
  let subject := aggregate_subject config (ident_str (aggregate_type stream))
                   (ident_str (aggregate_id stream)) in
  let? s := try_fold (λ s _, extend_step stream subject previous last_sequence batch_id event_count lookup s)
    (from_history previous, nh_last_subject_stream_sequence previous)
    (replicate (N.to_nat event_count) tt) in
  fail! (event_count =? 0) || negb (s.2 =? last_sequence)
    with corrupt "PubAck sequence did not identify the published commit";
  builder_finish s.1 last_sequence.

(** [verify_published_commit] *)
Definition verify_published_commit (stream : StreamId) (previous : History) (sequence : N)
    (batch_id : string) (commit_id : CommitId) (expected_events : list RecordedEvent)
    (lookup : N → result RawMessage EventStoreError) : result unit EventStoreError :=
  let? history := extend_history stream previous sequence batch_id (len expected_events) lookup in
  let? stored := ok_or
    (match last (nh_commits history) with
     | Some commit => if bool_decide (eb_commit_id (cm_batch commit) = commit_id) then Some commit else None
     | None => None
     end) (corrupt "published commit was not visible in aggregate history") in
  fail! negb (bool_decide (cm_events stored = expected_events))
    with corrupt "published commit contains different events";
  Ok tt.

(** ** Replays and conflicts *)

Definition nats_same_batch (stored incoming : EventBatch) : bool :=
  bool_decide (eb_commit_id stored = eb_commit_id incoming)
  && bool_decide (eb_operation_id stored = eb_operation_id incoming)
  && bool_decide (eb_operation_fingerprint stored = eb_operation_fingerprint incoming)
  && bool_decide (eb_correlation_id stored = eb_correlation_id incoming)
  && bool_decide (eb_causation_id stored = eb_causation_id incoming)
  && bool_decide (eb_actor stored = eb_actor incoming)
  && bool_decide (eb_events stored = eb_events incoming).

Definition resolve_existing (history : History) (batch : EventBatch)
  : result (option (list RecordedEvent)) EventStoreError :=
  match find (λ c, bool_decide (eb_operation_id (cm_batch c) = eb_operation_id batch)) (nh_commits history) with
  | Some previous =>
    fail! is_some (cm_transaction previous)
      with identity_conflict "operation identity was already used by an event transaction";
    if nats_same_batch (cm_batch previous) batch then Ok (Some (cm_events previous))
    else Err (identity_conflict "operation identity was reused with different content")
  | None =>
    fail! existsb (λ c, bool_decide (eb_commit_id (cm_batch c) = eb_commit_id batch)) (nh_commits history)
      with identity_conflict "commit identity was reused with different content";
    fail! existsb (λ incoming, existsb (λ stored, bool_decide (re_event_id stored = ne_event_id incoming))
                                 (nh_events history)) (eb_events batch)
      with identity_conflict "event identity was reused with different content";
    Ok None
  end.

Definition transaction_participant_has_conflicting_identity (history : History)
    (participant : TransactionParticipant) : result bool EventStoreError :=
  match tp_batch participant with
  | None => Ok false
  | Some batch =>
    match resolve_existing history batch with
    | Ok existing => Ok (is_some existing)
    | Err error => if bool_decide (se_kind error = IdentityConflict) then Ok true else Err error
    end
  end.
End Reading.
