(* ===== verification/NatsHistoryFacts.v ===== *)
(** * NatsHistoryFacts: every history read from an aggregate subject is a
    sequence of whole, derived commits that the executor's validation accepts,
    and reading can be resumed where it ended. *)

From S2P Require Export History NatsHistory.

Section Facts.
Context `{SHA : Sha256}.

(** ** Invariants *)

(** The sequences of a commit: one per event, consecutive and from one on *)
Definition sequences_ok (first : N) (sequences : list N) : Prop :=
  0 < first ∧ ∀ i s, sequences !! i = Some s → s = first + N.of_nat i.

(** The range of a commit in its transaction *)
Definition provenance_ok (events : list RecordedEvent) (first : N) (t : StoredTransactionProvenance) : Prop :=
  stp_end t = stp_start t + len events ∧ stp_end t <= stp_transaction_event_count t
  ∧ stp_transaction_event_count t <= MAX_EVENTS_PER_BATCH ∧ stp_start t < first
  ∧ 0 < str_len (stp_batch_id t) <= 64.

(** A commit after [v] events of its stream *)
Record commit_ok (stream : StreamId) (v : N) (c : StoredCommit) : Prop := {
  co_batch_ok : batch_ok (cm_batch c);
  co_derived : derived stream (cm_batch c);
  co_events : cm_events c = record_group stream v (cm_batch c);
  co_sequences : ∃ first, sequences_ok first (cm_sequences c)
    ∧ length (cm_sequences c) = length (cm_events c)
    ∧ (∀ t, cm_transaction c = Some t → provenance_ok (cm_events c) first t);
}.

Fixpoint commits_ok (stream : StreamId) (v : N) (cs : list StoredCommit) : Prop :=
  match cs with
  | [] => True
  | c :: r => commit_ok stream v c ∧ commits_ok stream (v + len (cm_events c)) r
  end.

Record subject_history_ok (stream : StreamId) (h : History) : Prop := {
  sh_commits : commits_ok stream 0 (nh_commits h);
  sh_events : nh_events h = concat (cm_events <$> nh_commits h);
  sh_sequences : nh_sequences h = concat (cm_sequences <$> nh_commits h);
  sh_operations : NoDup ((λ c, eb_operation_id (cm_batch c)) <$> nh_commits h);
  sh_commit_ids : NoDup ((λ c, eb_commit_id (cm_batch c)) <$> nh_commits h);
  sh_event_ids : NoDup (re_event_id <$> nh_events h);
  sh_bound : len (nh_events h) <= u64_max;
}.

(** The events of a commit being read, after [v] events of the stream *)
Record pending_event (stream : StreamId) (v : N) (p : PendingCommit) (first : RecordedEvent)
    (i : nat) (e : RecordedEvent) : Prop := {
  pe_recorded : recorded_ok stream e;
  pe_version : re_stream_version e = mkStreamVersion (v + N.of_nat i + 1);
  pe_ordinal : re_commit_event_ordinal e = N.of_nat i;
  pe_count : re_commit_event_count e = pc_event_count p;
  pe_commit : re_commit_id e = pc_commit_id p;
  pe_operation : re_operation_id e = pc_operation_id p;
  pe_fingerprint : re_operation_fingerprint e = pc_operation_fingerprint p;
  pe_correlation : re_correlation_id e = re_correlation_id first;
  pe_causation : re_causation_id e = re_causation_id first;
  pe_actor : re_actor e = re_actor first;
}.

Record pending_ok (stream : StreamId) (v : N) (p : PendingCommit) : Prop := {
  po_first : ∃ first, head (pc_events p) = Some first
    ∧ ∀ i e, pc_events p !! i = Some e → pending_event stream v p first i e;
  po_count : len (pc_events p) <= pc_event_count p;
  po_sequences : length (pc_sequences p) = length (pc_events p) ∧ Forall (λ s, 0 < s) (pc_sequences p);
  po_transaction : ∀ t, pc_transaction p = Some t →
    stp_end t = stp_start t + pc_event_count p ∧ stp_end t <= stp_transaction_event_count t
    ∧ stp_transaction_event_count t <= MAX_EVENTS_PER_BATCH ∧ 0 < str_len (stp_batch_id t) <= 64;
}.

Definition pending_events (b : HistoryBuilder) : list RecordedEvent :=
  match hb_pending b with Some p => pc_events p | None => [] end.
Definition pending_sequences (b : HistoryBuilder) : list N :=
  match hb_pending b with Some p => pc_sequences p | None => [] end.

Record builder_ok (stream : StreamId) (b : HistoryBuilder) : Prop := {
  bd_commits : commits_ok stream 0 (nh_commits (hb_history b));
  bd_events : nh_events (hb_history b) = concat (cm_events <$> nh_commits (hb_history b));
  bd_sequences : nh_sequences (hb_history b) = concat (cm_sequences <$> nh_commits (hb_history b));
  bd_version : hb_current_version b
    = mkStreamVersion (len (nh_events (hb_history b)) + len (pending_events b));
  bd_bound : len (nh_events (hb_history b)) + len (pending_events b) <= u64_max;
  bd_operations : hb_operation_ids b
    = list_to_set ((pc_operation_id <$> option_list (hb_pending b))
        ++ ((λ c, eb_operation_id (cm_batch c)) <$> nh_commits (hb_history b)));
  bd_operations_nodup : NoDup ((pc_operation_id <$> option_list (hb_pending b))
        ++ ((λ c, eb_operation_id (cm_batch c)) <$> nh_commits (hb_history b)));
  bd_commit_ids : hb_commit_ids b
    = list_to_set ((pc_commit_id <$> option_list (hb_pending b))
        ++ ((λ c, eb_commit_id (cm_batch c)) <$> nh_commits (hb_history b)));
  bd_commit_ids_nodup : NoDup ((pc_commit_id <$> option_list (hb_pending b))
        ++ ((λ c, eb_commit_id (cm_batch c)) <$> nh_commits (hb_history b)));
  bd_event_ids : hb_event_ids b
    = list_to_set (re_event_id <$> (nh_events (hb_history b) ++ pending_events b));
  bd_event_ids_nodup : NoDup (re_event_id <$> (nh_events (hb_history b) ++ pending_events b));
  bd_pending : ∀ p, hb_pending b = Some p → pending_ok stream (len (nh_events (hb_history b))) p
    ∧ len (pc_events p) < pc_event_count p;
}.

(** ** Commits being read *)

Lemma pending_new stream v d p :
  decoded_ok stream d → de_event_ordinal (dse_decoded d) = 0 →
  re_stream_version (de_recorded (dse_decoded d)) = mkStreamVersion (v + 1) →
  dse_global_stream_sequence d ≠ 0 →
  PendingCommit_new (dse_decoded d) (dse_global_stream_sequence d) (dse_is_transactional d) = Ok p →
  pending_ok stream v p ∧ pc_events p = [de_recorded (dse_decoded d)]
  ∧ pc_sequences p = [dse_global_stream_sequence d]
  ∧ pc_operation_id p = de_operation_id (dse_decoded d) ∧ pc_commit_id p = de_commit_id (dse_decoded d).
Proof.
  intros [Hr Hc Ho Hf Hord Hcnt Ht Hdir Htr Hb] H0 Hv Hs H. unfold PendingCommit_new in H.
  apply rbind_Ok in H as (t & Et & [= <-]). cbn [pc_events pc_sequences pc_operation_id pc_commit_id].
  split_and!; try done. split; cbn [pc_events pc_sequences pc_transaction pc_event_count].
  - eexists. split; [done|]. intros [|i] e; [|done]. intros [= <-]. split; change (N.of_nat 0) with 0; cbn; try done; try congruence. by rewrite N.add_0_r.
  - pose proof (rk_coordinates _ _ Hr). unfold len. cbn. lia.
  - split; [done|]. repeat constructor. lia.
  - intros t' ->. destruct (dse_is_transactional d); [|done]. guards.
    match goal with H : checked_add _ _ _ = Some _ |- _ => apply checked_add_Some in H as [-> _] end.
    subst t'. cbn [stp_end stp_start stp_transaction_event_count stp_batch_id]. split_and!; try done; lia.
Qed.

Lemma pending_event_change stream v p p' first i e :
  pc_event_count p' = pc_event_count p → pc_commit_id p' = pc_commit_id p →
  pc_operation_id p' = pc_operation_id p →
  pc_operation_fingerprint p' = pc_operation_fingerprint p →
  pending_event stream v p first i e → pending_event stream v p' first i e.
Proof. intros E1 E2 E3 E4 []. split; congruence. Qed.

Lemma pending_push stream v p d p' :
  pending_ok stream v p → len (pc_events p) < pc_event_count p → decoded_ok stream d →
  re_stream_version (de_recorded (dse_decoded d)) = mkStreamVersion (v + len (pc_events p) + 1) →
  dse_global_stream_sequence d ≠ 0 →
  PendingCommit_push p (dse_decoded d) (dse_global_stream_sequence d) (dse_is_transactional d) = Ok p' →
  pending_ok stream v p' ∧ pc_events p' = pc_events p ++ [de_recorded (dse_decoded d)]
  ∧ pc_sequences p' = pc_sequences p ++ [dse_global_stream_sequence d]
  ∧ pc_operation_id p' = pc_operation_id p ∧ pc_commit_id p' = pc_commit_id p
  ∧ pc_event_count p' = pc_event_count p.
Proof.
  intros [(first & Hf & He) Hl [Hsl Hs] Ht] Hlt [Hr Hc Ho Hfp Hord Hcnt _ _ _ _] Hv Hseq H.
  unfold PendingCommit_push in H. guards.
  match goal with H : head _ = Some _ |- _ => rewrite Hf in H; injection H as <- end.
  cbn [pc_events pc_sequences pc_operation_id pc_commit_id pc_event_count]. split_and!; try done.
  split; cbn [pc_events pc_sequences pc_transaction pc_event_count].
  - exists first. split; [by destruct (pc_events p)|].
    intros i e [Hi|[Hi Hx]]%lookup_app_Some.
    + eapply pending_event_change; [..|by apply He]; done.
    + destruct (i - length (pc_events p))%nat eqn:Ei; [|done]. injection Hx as <-.
      assert (i = length (pc_events p)) as -> by lia. unfold len in *.
      split; cbn; try congruence.
  - rewrite len_app. unfold len in *. cbn. lia.
  - rewrite !length_app, Hsl. split; [done|]. apply Forall_app. split; [done|]. repeat constructor. lia.
  - done.
Qed.

Lemma contiguous_sequences first s :
  contiguous first s = true → ∀ i x, s !! i = Some x → x = first + N.of_nat i.
Proof.
  unfold contiguous. rewrite forallb_forall. intros H i x Hx.
  assert (enumerate s !! i = Some (N.of_nat i, x)) as He by (by rewrite enumerate_lookup, Hx).
  apply list_elem_of_lookup_2, list_elem_of_In, H in He. cbn in He. bool_step.
  apply bind_Some in He as (k & [-> _]%try_from_Some & [-> _]%checked_add_Some). done.
Qed.

(** The batch a complete commit stands for *)
Definition batch_of (p : PendingCommit) (first : RecordedEvent) : EventBatch :=
  mkEventBatch (re_actor first) (pc_commit_id p) (pc_operation_id p) (pc_operation_fingerprint p)
    ((λ e, mkNewEvent (re_event_id e) (re_event_type e) (re_schema_version e) (re_payload e)) <$> pc_events p)
    (re_correlation_id first) (re_causation_id first).

Lemma new_events_of l news :
  try_map new_event_of l = Ok news →
  news = (λ e, mkNewEvent (re_event_id e) (re_event_type e) (re_schema_version e) (re_payload e)) <$> l.
Proof.
  intros H%try_map_Ok. revert H. induction 1 as [|e n l k He _ IH]; [done|]. cbn.
  unfold new_event_of, NewEvent_new in He. guards. by f_equal.
Qed.

Lemma commit_batch_eq b first :
  eb_actor b = None → eb_correlation_id b = None → eb_causation_id b = None →
  commit_batch b first
  = mkEventBatch (re_actor first) (eb_commit_id b) (eb_operation_id b) (eb_operation_fingerprint b)
      (eb_events b) (re_correlation_id first) (re_causation_id first).
Proof.
  unfold commit_batch. destruct b as [a c o f evs co ca]. cbn. intros -> -> ->.
  by destruct (re_correlation_id first), (re_causation_id first), (re_actor first).
Qed.

Lemma PendingCommit_finish_Ok p c :
  PendingCommit_finish p = Ok c →
  ∃ first s, head (pc_events p) = Some first ∧ head (pc_sequences p) = Some s
  ∧ c = mkStoredCommit (batch_of p first) (pc_events p) (pc_sequences p) (pc_transaction p)
  ∧ batch_ok (batch_of p first)
  ∧ (∀ i x, pc_sequences p !! i = Some x → x = s + N.of_nat i)
  ∧ (∀ t, pc_transaction p = Some t → stp_start t < s).
Proof.
  unfold PendingCommit_finish. intros H. guards. cbn [cm_sequences cm_transaction] in *.
  match goal with H : head (pc_events p) = Some ?f, H' : head (pc_sequences p) = Some ?s |- _ =>
    exists f, s; split; [done|]; split; [done|] end.
  match goal with H : try_map _ _ = Ok _ |- _ => apply new_events_of in H as -> end.
  match goal with H : EventBatch_new _ _ _ _ = Ok _ |- _ => apply EventBatch_new_Ok in H as [-> Hb] end.
  rewrite commit_batch_eq by done. split_and!; [done|by destruct Hb|by apply contiguous_sequences|].
  intros t Et. rewrite Et in *. cbn in *. guards.
  match goal with H : transaction_batch_start_sequence _ _ = Ok _ |- _ =>
    unfold transaction_batch_start_sequence in H; guards end.
  cbn [cm_sequences] in *. simplify_eq.
  match goal with H : try_from _ _ = Some _ |- _ => apply try_from_Some in H as [-> _] end.
  match goal with H : checked_sub _ _ = Some _ |- _ => apply checked_sub_Some in H end. lia.
Qed.

Lemma pending_finish stream v p c :
  pending_ok stream v p → is_complete p = true → PendingCommit_finish p = Ok c →
  commit_ok stream v c ∧ cm_events c = pc_events p ∧ cm_sequences c = pc_sequences p
  ∧ eb_operation_id (cm_batch c) = pc_operation_id p
  ∧ eb_commit_id (cm_batch c) = pc_commit_id p.
Proof.
  intros [(first & Hf & He) _ [Hsl Hs] Ht] Hc%N.eqb_eq H.
  apply PendingCommit_finish_Ok in H as (first' & s & Hf' & Hh & -> & Hb & Hcs & Hst).
  rewrite Hf in Hf'. injection Hf' as <-. cbn [cm_events cm_sequences cm_batch batch_of eb_operation_id eb_commit_id].
  split_and!; try done. split; cbn [cm_batch cm_events cm_sequences cm_transaction]; [done| | |].
  - assert (pc_events p !! 0%nat = Some first) as H0 by (by destruct (pc_events p)).
    destruct (He _ _ H0) as [[_ _ _ Hd _ _ _] _ _ _ Hc' Ho _ _ _ _]. split; cbn.
    + congruence.
    + intros i n Hi. apply list_lookup_fmap_Some in Hi as (e & -> & Hi). cbn.
      destruct (He _ _ Hi) as [[_ _ _ _ Hev _ _] _ Hord _ Hce _ _ _ _ _]. congruence.
  - unfold record_group, batch_of; cbn [eb_events]. rewrite imap_fmap.
    apply list_eq. intros i. rewrite list_lookup_imap.
    destruct (pc_events p !! i) as [e|] eqn:Ei; [|done]. cbn. f_equal.
    destruct (He _ _ Ei) as [[Hst' _ _ _ _ _ _] Hv Hord Hcnt Hce Hoe Hfe Hco Hca Hac].
    unfold from_new; cbn. destruct e; cbn in *. subst.
    f_equal; try done. rewrite <- Hc. unfold len. by rewrite length_fmap.
  - exists s. assert (0 < s) as Hs0 by (destruct (pc_sequences p); [done|]; cbn in Hh; simplify_eq; by inversion Hs).
    split_and!; try done. intros t Et. destruct (Ht _ Et) as (E1 & E2 & E3 & E4). rewrite <- Hc in E1.
    split_and!; try done; [by apply Hst|lia..].
Qed.

(** ** The builder *)

Lemma builder_default_ok stream : builder_ok stream HistoryBuilder_default.
Proof. by split; try constructor. Qed.

Definition commit_operations (b : HistoryBuilder) : list OperationId :=
  (λ c, eb_operation_id (cm_batch c)) <$> nh_commits (hb_history b).
Definition commit_identities (b : HistoryBuilder) : list CommitId :=
  (λ c, eb_commit_id (cm_batch c)) <$> nh_commits (hb_history b).

Lemma builder_pending_ok stream b d ops cids p :
  builder_ok stream b → decoded_ok stream d → dse_global_stream_sequence d ≠ 0 →
  re_stream_version (de_recorded (dse_decoded d))
    = mkStreamVersion (len (nh_events (hb_history b)) + len (pending_events b) + 1) →
  builder_pending b (dse_decoded d) (dse_global_stream_sequence d) (dse_is_transactional d)
    = Ok (ops, cids, p) →
  pending_ok stream (len (nh_events (hb_history b))) p
  ∧ pc_events p = pending_events b ++ [de_recorded (dse_decoded d)]
  ∧ pc_sequences p = pending_sequences b ++ [dse_global_stream_sequence d]
  ∧ ops = list_to_set (pc_operation_id p :: commit_operations b)
  ∧ NoDup (pc_operation_id p :: commit_operations b)
  ∧ cids = list_to_set (pc_commit_id p :: commit_identities b)
  ∧ NoDup (pc_commit_id p :: commit_identities b).
Proof.
  intros [_ _ _ _ _ Ho Hon Hc Hcn _ _ Hp] Hd Hs Hv H. unfold builder_pending in H.
  fold (commit_operations b) in *. fold (commit_identities b) in *.
  unfold pending_events, pending_sequences in *. destruct (hb_pending b) as [q|]; cbn in *.
  - destruct (Hp q eq_refl) as [Hq Hlt]. destruct (de_event_ordinal (dse_decoded d) =? 0); [done|].
    guards. simplify_eq.
    match goal with H : PendingCommit_push _ _ _ _ = Ok _ |- _ =>
      apply (pending_push stream (len (nh_events (hb_history b)))) in H as (? & ? & ? & Eo & Ec & _) end; try done.
    rewrite Eo, Ec. by split_and!.
  - destruct (N.eqb_spec (de_event_ordinal (dse_decoded d)) 0) as [H0|]; [|done]. guards. simplify_eq.
    match goal with H : PendingCommit_new _ _ _ = Ok _ |- _ =>
      apply (pending_new stream (len (nh_events (hb_history b)))) in H as (? & ? & ? & Eo & Ec) end; try done.
    2:{ rewrite Hv. f_equal. change (len []) with 0. lia. }
    rewrite Eo, Ec. rewrite Ho, Hc in *.
    repeat match goal with H : _ ∉ list_to_set _ |- _ => rewrite elem_of_list_to_set in H end.
    split_and!; try done; by constructor.
Qed.

Lemma concat_fmap_snoc {A B} (f : A → list B) l x : concat (f <$> l ++ [x]) = concat (f <$> l) ++ f x.
Proof. rewrite fmap_app, concat_app. cbn. by rewrite app_nil_r. Qed.

Lemma commits_ok_snoc_inv stream v cs c :
  commits_ok stream v (cs ++ [c]) → commit_ok stream (v + len (concat (cm_events <$> cs))) c.
Proof.
  revert v; induction cs as [|x cs IH]; intros v; cbn.
  - intros [Hc _]. change (len []) with 0. by rewrite N.add_0_r.
  - intros [_ Hcs]. apply IH in Hcs. rewrite len_app. by rewrite <- N.add_assoc in Hcs.
Qed.

Lemma commits_ok_snoc stream v cs c :
  commits_ok stream v cs → commit_ok stream (v + len (concat (cm_events <$> cs))) c →
  commits_ok stream v (cs ++ [c]).
Proof.
  revert v; induction cs as [|x cs IH]; intros v; cbn.
  - change (len []) with 0. by rewrite N.add_0_r.
  - intros [Hx Hcs] Hc. split; [done|]. apply IH; [done|]. rewrite len_app in Hc.
    by rewrite <- N.add_assoc.
Qed.

(** A complete commit joins the history. *)
Lemma builder_commit_ok stream h p c v :
  commits_ok stream 0 (nh_commits h) → nh_events h = concat (cm_events <$> nh_commits h) →
  nh_sequences h = concat (cm_sequences <$> nh_commits h) →
  pending_ok stream (len (nh_events h)) p → is_complete p = true → PendingCommit_finish p = Ok c →
  let ops := pc_operation_id p :: ((λ c, eb_operation_id (cm_batch c)) <$> nh_commits h) in
  let cids := pc_commit_id p :: ((λ c, eb_commit_id (cm_batch c)) <$> nh_commits h) in
  let eids := re_event_id <$> (nh_events h ++ pc_events p) in
  NoDup ops → NoDup cids → NoDup eids → v = len (nh_events h) + len (pc_events p) → v <= u64_max →
  builder_ok stream (mkHistoryBuilder (history_push_commit h c) (mkStreamVersion v)
                       (list_to_set ops) (list_to_set cids) (list_to_set eids) None).
Proof.
  intros Hcs He Hs Hp Hc Hf ops cids eids Ho Hci Hei -> Hv.
  apply (pending_finish stream (len (nh_events h))) in Hf as (Hok & Ee & _ & Eo & Ec); [|done..].
  assert (∀ {A} (f : StoredCommit → A), f <$> nh_commits h ++ [c] ≡ₚ f c :: (f <$> nh_commits h)) as Hperm.
  { intros A f. rewrite fmap_app. cbn. by rewrite Permutation_app_comm. }
  split; cbn [hb_history hb_current_version hb_operation_ids hb_commit_ids hb_event_ids hb_pending
    history_push_commit nh_events nh_sequences nh_commits pending_events option_list option_rect fmap
    list_fmap app].
  - apply commits_ok_snoc; [done|]. by rewrite <- He.
  - rewrite concat_fmap_snoc. by rewrite He.
  - rewrite concat_fmap_snoc. by rewrite Hs.
  - rewrite len_app, Ee. change (len []) with 0. by rewrite N.add_0_r.
  - rewrite len_app, Ee. change (len []) with 0. by rewrite N.add_0_r.
  - unfold ops. rewrite <- Eo. apply list_to_set_perm_L. by rewrite (Hperm _ (λ c, eb_operation_id (cm_batch c))).
  - rewrite (Hperm _ (λ c, eb_operation_id (cm_batch c))). by rewrite Eo.
  - unfold cids. rewrite <- Ec. apply list_to_set_perm_L. by rewrite (Hperm _ (λ c, eb_commit_id (cm_batch c))).
  - rewrite (Hperm _ (λ c, eb_commit_id (cm_batch c))). by rewrite Ec.
  - by rewrite app_nil_r, Ee.
  - by rewrite app_nil_r, Ee.
  - done.
Qed.

(** An incomplete one stays pending. *)
Lemma builder_wait_ok stream h p v :
  commits_ok stream 0 (nh_commits h) → nh_events h = concat (cm_events <$> nh_commits h) →
  nh_sequences h = concat (cm_sequences <$> nh_commits h) →
  pending_ok stream (len (nh_events h)) p → is_complete p = false →
  let ops := pc_operation_id p :: ((λ c, eb_operation_id (cm_batch c)) <$> nh_commits h) in
  let cids := pc_commit_id p :: ((λ c, eb_commit_id (cm_batch c)) <$> nh_commits h) in
  let eids := re_event_id <$> (nh_events h ++ pc_events p) in
  NoDup ops → NoDup cids → NoDup eids → v = len (nh_events h) + len (pc_events p) → v <= u64_max →
  builder_ok stream (mkHistoryBuilder h (mkStreamVersion v)
                       (list_to_set ops) (list_to_set cids) (list_to_set eids) (Some p)).
Proof.
  intros Hcs He Hs Hp Hc ops cids eids Ho Hci Hei -> Hv. unfold is_complete in Hc. bool_step.
  split; try done. cbn. intros q [= <-]. split; [done|]. pose proof (po_count _ _ _ Hp). lia.
Qed.

Lemma builder_push_ok stream b d b' :
  builder_ok stream b → decoded_ok stream d → builder_push b d = Ok b' →
  builder_ok stream b'
  ∧ nh_events (hb_history b') ++ pending_events b'
    = (nh_events (hb_history b) ++ pending_events b) ++ [de_recorded (dse_decoded d)]
  ∧ nh_sequences (hb_history b') ++ pending_sequences b'
    = (nh_sequences (hb_history b) ++ pending_sequences b) ++ [dse_global_stream_sequence d]
  ∧ dse_global_stream_sequence d ≠ 0.
Proof.
  intros Hb Hd H. unfold builder_push in H. guards.
  match goal with x : (gset OperationId * gset CommitId * PendingCommit)%type |- _ =>
    destruct x as [[ops cids] p] end.
  match goal with H : version_next _ = Some _ |- _ => apply version_next_Some in H as [-> Hmax] end.
  match goal with H : builder_pending _ _ _ _ = _ |- _ => rename H into Hbp end.
  rewrite (bd_version _ _ Hb) in *. cbn [version_value] in *.
  apply (builder_pending_ok stream) in Hbp as (Hp & Hpe & Hps & -> & Hon & -> & Hcn); try done.
  assert (NoDup (re_event_id <$> (nh_events (hb_history b) ++ pc_events p))) as Hen.
  { rewrite Hpe, app_assoc. apply NoDup_snoc_id; [apply (bd_event_ids_nodup _ _ Hb)|].
    rewrite (bd_event_ids _ _ Hb) in *. by rewrite elem_of_list_to_set in *. }
  assert ({[re_event_id (de_recorded (dse_decoded d))]} ∪ hb_event_ids b
    = list_to_set (re_event_id <$> (nh_events (hb_history b) ++ pc_events p))) as Heq.
  { rewrite (bd_event_ids _ _ Hb), Hpe, app_assoc, (fmap_app _ (_ ++ _)), list_to_set_app_L. cbn.
    set_solver. }
  assert (len (pc_events p) = len (pending_events b) + 1) as Hlen by (rewrite Hpe, len_app; done).
  destruct Hb as [Hcs He Hsq Hv _ _ _ _ _ _ _ _].
  destruct (is_complete p) eqn:Ec; guards; rewrite Heq.
  - match goal with H : PendingCommit_finish p = Ok ?c |- _ => rename c into x; rename H into Hf end.
    split; [eapply builder_commit_ok; try done; lia|].
    apply (pending_finish stream (len (nh_events (hb_history b)))) in Hf as (_ & Ee & Es & _); [|done..].
    unfold pending_events at 1, pending_sequences at 1. cbn.
    by rewrite !app_nil_r, Ee, Es, Hpe, Hps, !app_assoc.
  - split; [eapply builder_wait_ok; try done; lia|]. unfold pending_events at 1, pending_sequences at 1. cbn.
    by rewrite Hpe, Hps, !app_assoc.
Qed.

Lemma finish_ok stream b last h :
  builder_ok stream b → builder_finish b last = Ok h →
  subject_history_ok stream h ∧ nh_last_subject_stream_sequence h = last ∧ hb_pending b = None
  ∧ nh_commits h = nh_commits (hb_history b)
  ∧ nh_events h = nh_events (hb_history b) ∧ nh_sequences h = nh_sequences (hb_history b)
  ∧ nh_events h ≠ [].
Proof.
  intros [Hcs He Hs Hv Hb _ Ho _ Hc _ Hi _] H. unfold builder_finish in H. guards.
  unfold pending_events in *. destruct (hb_pending b); [done|]. cbn in *.
  change (len []) with 0 in *. rewrite N.add_0_r in *. rewrite app_nil_r in *.
  split_and!; try done. intros E. rewrite Hv, E in *. done.
Qed.

(** ** Agreement with the validation of the executor *)

Lemma commits_record_all stream v cs :
  commits_ok stream v cs → concat (cm_events <$> cs) = record_all stream v (cm_batch <$> cs).
Proof.
  revert v; induction cs as [|c cs IH]; intros v; cbn; [done|]. intros [Hc Hcs].
  rewrite (IH _ Hcs). rewrite (co_events _ _ _ Hc) at 1. f_equal. f_equal.
  by rewrite (co_events _ _ _ Hc), len_record_group.
Qed.

Lemma commits_batches stream v cs :
  commits_ok stream v cs → Forall (λ b, batch_ok b ∧ derived stream b) (cm_batch <$> cs).
Proof.
  revert v; induction cs as [|c cs IH]; intros v; cbn; [constructor|]. intros [[] Hcs].
  constructor; [done|by eapply IH].
Qed.

Lemma record_group_event_ids stream v b :
  re_event_id <$> record_group stream v b = ne_event_id <$> eb_events b.
Proof.
  unfold record_group. apply list_eq. intros i. rewrite !list_lookup_fmap, list_lookup_imap.
  by destruct (eb_events b !! i).
Qed.

Lemma record_all_event_ids stream v bs :
  re_event_id <$> record_all stream v bs = concat ((λ b, ne_event_id <$> eb_events b) <$> bs).
Proof.
  revert v; induction bs as [|b bs IH]; intros v; cbn; [done|].
  by rewrite fmap_app, record_group_event_ids, IH.
Qed.

Lemma record_all_validates stream bs :
  Forall (λ b, batch_ok b ∧ derived stream b) bs → NoDup (eb_commit_id <$> bs) →
  NoDup (eb_operation_id <$> bs) → NoDup (re_event_id <$> record_all stream 0 bs) →
  len (record_all stream 0 bs) <= u64_max →
  validate_history stream (record_all stream 0 bs) = Ok tt.
Proof.
  intros Hb Hc Ho Hi Hl. rewrite record_all_event_ids in Hi. unfold validate_history, enumerate.
  set (b0 := mkEventBatch None (Ident "") (Ident "") (from_bytes []) [] None None).
  destruct (reading_all stream [] bs history_start 0 b0 Hb Hc Ho Hi) as (h & -> & Hcur).
  - split; cbn; [intros x|intros c|intros o x|done]; set_solver.
  - by rewrite N.add_0_l.
  - cbn [rbind]. by rewrite Hcur.
Qed.

Lemma subject_history_validates stream h :
  subject_history_ok stream h → validate_history stream (nh_events h) = Ok tt.
Proof.
  intros [Hcs He _ Ho Hc Hi Hb]. rewrite (commits_record_all _ _ _ Hcs) in He. rewrite He in *.
  apply record_all_validates; try done; [by eapply commits_batches|..]; by rewrite <- list_fmap_compose.
Qed.
End Facts.

(** ** Resuming *)

Section Resuming.
Context `{SHA : Sha256}.

Definition with_last (last : N) (b : HistoryBuilder) : HistoryBuilder :=
  let h := hb_history b in
  mkHistoryBuilder (mkHistory (nh_events h) (nh_sequences h) (nh_commits h) last) (hb_current_version b)
    (hb_operation_ids b) (hb_commit_ids b) (hb_event_ids b) (hb_pending b).

Lemma builder_push_with_last last b d :
  builder_push (with_last last b) d = rmap (with_last last) (builder_push b d).
Proof.
  unfold builder_push. cbn [with_last hb_history hb_current_version hb_operation_ids hb_commit_ids
    hb_event_ids hb_pending]. change (builder_pending (with_last last b)) with (builder_pending b).
  destruct (_ =? 0); [done|]. destruct (ok_or _ _) as [v|]; [|done]. cbn [rbind].
  repeat case_match; try done; destruct (builder_pending b _ _ _) as [[[o c] p]|]; cbn [rbind]; try done;
    destruct (is_complete p); try done; by destruct (PendingCommit_finish p).
Qed.

Lemma builder_fold_with_last last l b :
  try_fold builder_push (with_last last b) l = rmap (with_last last) (try_fold builder_push b l).
Proof.
  revert b; induction l as [|d l IH]; intros b; [done|]. cbn [try_fold].
  rewrite builder_push_with_last. destruct (builder_push b d) as [b'|]; [|done]. cbn [rmap rbind]. apply IH.
Qed.

Lemma builder_finish_with_last last b seq : builder_finish (with_last last b) seq = builder_finish b seq.
Proof. done. Qed.

Lemma commits_current_version stream h :
  subject_history_ok stream h → nats_current_version (nh_events h) = mkStreamVersion (len (nh_events h)).
Proof.
  intros [Hcs He _ _ _ _ _]. rewrite (commits_record_all _ _ _ Hcs) in He. unfold nats_current_version.
  destruct (nh_events h) as [|e evs _] using rev_ind; [done|]. rewrite last_snoc. cbn.
  assert (record_all stream 0 (cm_batch <$> nh_commits h) !! length evs = Some e) as Hl
    by (rewrite <- He, lookup_app_r, Nat.sub_diag by lia; done).
  apply record_all_lookup in Hl as [_ ->]. f_equal. unfold len. rewrite length_app. cbn. lia.
Qed.

(** A finished builder is the one its history restarts. *)
Lemma from_history_finish stream b last h :
  builder_ok stream b → builder_finish b last = Ok h → from_history h = with_last last b.
Proof.
  intros Hb H. pose proof (finish_ok _ _ _ _ Hb H) as (Hh & _ & Hp & _).
  unfold builder_finish in H. guards.
  pose proof (commits_current_version _ _ Hh) as Hv. cbn [nh_events] in Hv.
  destruct Hb as [_ _ _ Hcv _ Ho _ Hc _ He _ _]. unfold pending_events in *.
  unfold from_history, with_last. cbn [nh_events nh_sequences nh_commits].
  rewrite Hv, Hcv, Ho, Hc, He, Hp. cbn. change (len []) with 0. by rewrite N.add_0_r, app_nil_r.
Qed.

Lemma from_history_ok stream h :
  subject_history_ok stream h → builder_ok stream (from_history h).
Proof.
  intros Hh. pose proof (commits_current_version _ _ Hh) as Hv. destruct Hh.
  split; cbn [from_history hb_history hb_current_version hb_operation_ids hb_commit_ids hb_event_ids
    hb_pending pending_events]; rewrite ?app_nil_r; try done; rewrite ?Hv; cbn;
    change (len []) with 0; by rewrite N.add_0_r.
Qed.

Lemma builder_fold_ok stream l b b' :
  builder_ok stream b → Forall (decoded_ok stream) l → try_fold builder_push b l = Ok b' →
  builder_ok stream b'
  ∧ nh_events (hb_history b') ++ pending_events b'
    = (nh_events (hb_history b) ++ pending_events b) ++ ((λ d, de_recorded (dse_decoded d)) <$> l).
Proof.
  intros Hb Hl. revert b Hb; induction Hl as [|d l Hd _ IH]; intros b Hb; cbn [try_fold].
  - intros [= <-]. cbn. by rewrite app_nil_r.
  - intros H. apply rbind_Ok in H as (b1 & H1 & H).
    apply (builder_push_ok stream) in H1 as (Hb1 & E1 & _); [|done..].
    apply IH in H as (Hb' & ->); [|done]. split; [done|]. rewrite E1. cbn. by rewrite <- (app_assoc _ [_]).
Qed.

(** Resuming from a finished history is reading everything
    again: pushing the events that follow onto a builder made from the history
    gives the same history, or the same error, as pushing all events of the
    subject onto an empty builder. *)
Theorem resume_is_reread stream l1 l2 last1 last2 h1 :
  Forall (decoded_ok stream) l1 →
  (let? b := try_fold builder_push HistoryBuilder_default l1 in builder_finish b last1) = Ok h1 →
  (let? b := try_fold builder_push (from_history h1) l2 in builder_finish b last2)
  = (let? b := try_fold builder_push HistoryBuilder_default (l1 ++ l2) in builder_finish b last2).
Proof.
  intros Hl H. apply rbind_Ok in H as (b & Hb & Hf).
  pose proof (builder_fold_ok _ _ _ _ (builder_default_ok stream) Hl Hb) as [Hok _].
  rewrite (from_history_finish _ _ _ _ Hok Hf), try_fold_app, Hb. cbn [rbind].
  rewrite builder_fold_with_last. by destruct (try_fold builder_push b l2).
Qed.
End Resuming.

(** ** Reading *)

Section Reading.
Context `{SHA : Sha256} `{WJ : Json StoredEventWire} `{CJ : Json ChecksumInput} `{B64 : Base64}.
Context `{HM : HeaderMapApi} `{HN : AtomicHeaderNames}.
Context (config : NatsEventStoreConfig).

Definition builder_sequences (b : HistoryBuilder) : list N :=
  nh_sequences (hb_history b) ++ pending_sequences b.

Record read_ok (stream : StreamId) (s : ReadState) : Prop := {
  ro_builder : builder_ok stream (rs_history s);
  ro_sorted : StronglySorted N.lt (builder_sequences (rs_history s));
  ro_seen : Forall (λ x, x <= rs_last_seen_sequence s) (builder_sequences (rs_history s));
}.

Lemma read_start_ok stream : read_ok stream read_start.
Proof. split; [apply builder_default_ok|constructor..]. Qed.

Lemma StronglySorted_snoc l x :
  StronglySorted N.lt l → Forall (λ y, y < x) l → StronglySorted N.lt (l ++ [x]).
Proof.
  induction 1 as [|y l Hl IH Hy]; cbn; intros F; [repeat constructor|].
  apply Forall_cons in F as [Hx F]. constructor; [by apply IH|].
  apply Forall_app. split; [done|]. by constructor.
Qed.

Lemma read_delivery_ok stream subject last s sequence message s' :
  read_ok stream s → rs_last_seen_sequence s < rs_next_stream_sequence s →
  read_delivery config stream subject last s sequence message = Ok s' →
  read_ok stream s' ∧ rs_last_seen_sequence s' = sequence
  ∧ rs_last_seen_sequence s < sequence <= last.
Proof.
  intros [Hb Hso Hse] Hn H. unfold read_delivery in H. guards.
  match goal with H : decode_event _ _ _ _ _ _ _ = Ok _ |- _ => apply decode_event_ok in H as (_ & Hd & <-) end.
  match goal with H : builder_push _ _ = Ok _ |- _ =>
    apply (builder_push_ok stream) in H as (Hb' & _ & Es & _); [|done..] end.
  fold (builder_sequences (rs_history s)) in Es. split; [|cbn; split; [done|lia]].
  split; cbn [rs_history rs_last_seen_sequence]; [done|..]; unfold builder_sequences at 1; rewrite Es.
  - apply StronglySorted_snoc; [done|]. eapply Forall_impl; [exact Hse|]. cbn. lia.
  - apply Forall_app. split; [|by repeat constructor]. eapply Forall_impl; [exact Hse|]. cbn. lia.
Qed.

Lemma read_loop_ok stream subject last trunc exhausted deliveries s s' :
  read_ok stream s → rs_last_seen_sequence s < rs_next_stream_sequence s →
  (rs_last_seen_sequence s <= last) →
  read_loop config stream subject last trunc exhausted deliveries s = Ok s' →
  read_ok stream s' ∧ rs_last_seen_sequence s' <= last.
Proof.
  revert s; induction deliveries as [|next deliveries IH]; intros s Hs Hn Hl; cbn [read_loop];
    destruct (rs_next_stream_sequence s <=? last); try (by intros [= <-]).
  intros H. apply rbind_Ok in H as (m & -> & H). apply rbind_Ok in H as (sequence & _ & H).
  destruct ((last <? sequence) && trunc); [by injection H as <-|].
  apply rbind_Ok in H as (s1 & H1 & H). apply read_delivery_ok in H1 as (Hs1 & Hseq & Hlt); [|done..].
  destruct (sequence =? last); [injection H as <-; split; [done|lia]|].
  apply rbind_Ok in H as (n & Hnext & H). apply ok_or_Ok, checked_add_Some in Hnext as [-> _].
  apply IH in H; cbn; [done| |lia..]. by destruct Hs1.
Qed.

(** C34 (safety). Whatever the replay delivers, a history that is accepted is a
    sequence of whole commits with derived, distinct identities, whose events
    are those recorded for their batches at consecutive versions and whose
    stream sequences increase up to the last one read; the executor's own
    validation accepts it, and an untruncated read ends at the cutoff. *)
Theorem read_history_sound stream subject last trunc exhausted deliveries h :
  read_history_through config stream subject last trunc exhausted deliveries = Ok h →
  subject_history_ok stream h ∧ validate_history stream (nh_events h) = Ok tt
  ∧ StronglySorted N.lt (nh_sequences h)
  ∧ Forall (λ x, x <= nh_last_subject_stream_sequence h) (nh_sequences h)
  ∧ nh_last_subject_stream_sequence h <= last
  ∧ (trunc = false → nh_last_subject_stream_sequence h = last).
Proof.
  unfold read_history_through. intros H. apply rbind_Ok in H as (s & Hs & H).
  apply read_loop_ok in Hs as [[Hb Hso Hse] Hl]; [|apply read_start_ok|cbn; lia..].
  guards. destruct ((rs_last_seen_sequence s =? 0) && trunc) eqn:Ez.
  - injection H as <-. bool_step. subst trunc. split_and!; try done; [|constructor..|cbn; lia].
    split; done || by repeat constructor.
  - apply (finish_ok stream) in H as (Hh & -> & Hp & _ & _ & Es & _); [|done].
    unfold builder_sequences, pending_sequences in *. rewrite Hp, app_nil_r in *. rewrite Es.
    split_and!; try done; [by apply subject_history_validates|].
    intros ->. cbn [negb andb] in G. by bool_step; bool_step.
Qed.
End Reading.
