(* ===== verification/NatsRoundtrip.v ===== *)
(** * NatsRoundtrip: what is published is read back - the commits a writer
    publishes on a subject are exactly the history a reader builds. *)

From S2P Require Export NatsHistoryFacts.

Section Publishing.
Context `{SHA : Sha256}.

(** A published commit: its batch, the atomic batch it is in, the offset and
    event count of its transaction, and the sequence of its first event. *)
Record Published := mkPublished {
  pub_batch : EventBatch;
  pub_batch_id : string;
  pub_transaction : option (N * N);
  pub_first : N;
}.

Definition pub_provenance (p : Published) : option StoredTransactionProvenance :=
  (λ t, mkProvenance (pub_batch_id p) t.1 (t.1 + len (eb_events (pub_batch p))) t.2) <$> pub_transaction p.
Definition pub_sequences (p : Published) : list N :=
  imap (λ i _, pub_first p + N.of_nat i) (eb_events (pub_batch p)).
Definition pub_commit (stream : StreamId) (v : N) (p : Published) : StoredCommit :=
  mkStoredCommit (pub_batch p) (record_group stream v (pub_batch p)) (pub_sequences p) (pub_provenance p).

Definition pub_decoded (stream : StreamId) (v : N) (p : Published) : list DecodedStoredEvent :=
  imap (λ i r, decoded_from (pub_batch_id p) (pub_transaction p) r (pub_first p + N.of_nat i))
    (record_group stream v (pub_batch p)).

(** A commit a writer can publish after the events of [b] *)
Record pub_ok (stream : StreamId) (b : HistoryBuilder) (v : N) (p : Published) : Prop := {
  pk_batch : publishable stream (pub_batch p);
  pk_idle : hb_pending b = None;
  pk_version : hb_current_version b = mkStreamVersion v;
  pk_room : v + len (eb_events (pub_batch p)) <= u64_max;
  pk_first : 0 < pub_first p ∧ pub_first p + len (eb_events (pub_batch p)) <= u64_max;
  pk_operation : eb_operation_id (pub_batch p) ∉ hb_operation_ids b;
  pk_commit : eb_commit_id (pub_batch p) ∉ hb_commit_ids b;
  pk_events : ∀ e, e ∈ eb_events (pub_batch p) → ne_event_id e ∉ hb_event_ids b;
  pk_transaction : ∀ off n, pub_transaction p = Some (off, n) →
    off + len (eb_events (pub_batch p)) <= n ∧ n <= MAX_EVENTS_PER_BATCH ∧ off < pub_first p;
}.

(** The builder after the first [k] events of the commit *)
Definition pending_at (stream : StreamId) (v : N) (p : Published) (k : nat) : PendingCommit :=
  let batch := pub_batch p in
  {| pc_batch_id := pub_batch_id p; pc_commit_id := eb_commit_id batch;
     pc_operation_id := eb_operation_id batch;
     pc_operation_fingerprint := eb_operation_fingerprint batch;
     pc_event_count := len (eb_events batch); pc_events := take k (record_group stream v batch);
     pc_sequences := take k (pub_sequences p); pc_transaction := pub_provenance p |}.

Definition reading_at (stream : StreamId) (b : HistoryBuilder) (v : N) (p : Published) (k : nat)
  : HistoryBuilder :=
  if decide (k = 0%nat) then b
  else {| hb_history := if decide (k = length (eb_events (pub_batch p)))
                        then history_push_commit (hb_history b) (pub_commit stream v p)
                        else hb_history b;
          hb_current_version := mkStreamVersion (v + N.of_nat k);
          hb_operation_ids := {[ eb_operation_id (pub_batch p) ]} ∪ hb_operation_ids b;
          hb_commit_ids := {[ eb_commit_id (pub_batch p) ]} ∪ hb_commit_ids b;
          hb_event_ids := list_to_set (re_event_id <$> take k (record_group stream v (pub_batch p)))
                          ∪ hb_event_ids b;
          hb_pending := if decide (k = length (eb_events (pub_batch p))) then None
                        else Some (pending_at stream v p k) |}.

Lemma new_events_of_group stream v b :
  Forall new_event_ok (eb_events b) →
  try_map new_event_of (record_group stream v b) = Ok (eb_events b).
Proof.
  intros H. apply try_map_Ok, Forall2_same_length_lookup. split; [by rewrite length_record_group|].
  intros i r e Hr He. apply record_group_lookup in Hr as (n & Hn & ->).
  rewrite Hn in He. injection He as <-. rewrite Forall_lookup in H. specialize (H _ _ Hn).
  unfold new_event_of; cbn [from_new re_event_id re_event_type re_schema_version re_payload].
  unfold new_event_ok in H. by rewrite H.
Qed.

Lemma contiguous_imap {A} first (l : list A) :
  first + len l <= u64_max → contiguous first (imap (λ i _, first + N.of_nat i) l) = true.
Proof.
  intros Hl. unfold contiguous. apply forallb_forall. intros [i s] Hin.
  apply list_elem_of_In, list_elem_of_lookup in Hin as (k & Hk).
  rewrite enumerate_lookup, list_lookup_imap in Hk. destruct (l !! k) as [x|] eqn:Ex; [|done].
  injection Hk as <- <-. apply lookup_lt_Some in Ex. unfold len in Hl. cbn [fst snd].
  apply bool_decide_eq_true. rewrite (proj2 (try_from_Some _ _ (N.of_nat k))) by (split; [done|lia]).
  cbn [mbind option_bind]. apply checked_add_Some. split; [done|lia].
Qed.

(** The commit that is complete is the one published. *)
Lemma pending_at_finish stream b v p :
  pub_ok stream b v p →
  PendingCommit_finish (pending_at stream v p (length (eb_events (pub_batch p))))
  = Ok (pub_commit stream v p).
Proof.
  intros [Hp _ _ _ [Hf0 Hf] _ _ _ Ht]. destruct p as [batch bid tr first]; cbn [pub_batch pub_batch_id
    pub_transaction pub_first] in *.
  pose proof (pb_batch _ _ Hp) as Hb. pose proof (batch_nonempty _ Hb) as Hne.
  unfold PendingCommit_finish, pending_at, pub_commit; cbn [pc_events pc_sequences pc_commit_id
    pc_operation_id pc_operation_fingerprint pc_transaction pub_batch].
  rewrite !take_ge by (unfold pub_sequences; rewrite ?length_imap, ?length_record_group; done).
  rewrite new_events_of_group by apply Hp. cbn [pub_batch].
  assert (∃ r, head (record_group stream v batch) = Some r ∧ re_actor r = eb_actor batch
    ∧ re_correlation_id r = eb_correlation_id batch ∧ re_causation_id r = eb_causation_id batch)
    as (r & -> & Ha & Hc & Hca).
  { unfold record_group. destruct (eb_events batch) as [|e l]; [done|]. by eexists. }
  assert (head (pub_sequences (mkPublished batch bid tr first)) = Some first) as Hh.
  { unfold pub_sequences; cbn [pub_batch pub_first]. destruct (eb_events batch); [done|]. cbn. f_equal. lia. }
  cbn [ok_or rbind].
  assert (EventBatch_new (eb_commit_id batch) (eb_operation_id batch) (eb_operation_fingerprint batch)
    (eb_events batch) = Ok (mkEventBatch None (eb_commit_id batch) (eb_operation_id batch)
      (eb_operation_fingerprint batch) (eb_events batch) None None)) as ->.
  { apply EventBatch_new_Ok. split; [done|]. by destruct Hb. }
  cbn [map_err rbind]. rewrite commit_batch_eq by done; cbn [eb_commit_id eb_operation_id
    eb_operation_fingerprint eb_events]. rewrite Ha, Hc, Hca.
  replace (mkEventBatch _ _ _ _ _ _ _) with batch by (by destruct batch).
  cbn [cm_sequences cm_transaction]. rewrite Hh. cbn [ok_or rbind].
  unfold pub_sequences at 1; cbn [pub_batch pub_first]. rewrite contiguous_imap by done. cbn [negb].
  unfold pub_provenance; cbn [pub_transaction pub_batch pub_batch_id].
  destruct tr as [[off n]|]; cbn [fmap option_fmap option_map]; [|done].
  destruct (Ht _ _ eq_refl) as (H1 & H2 & H3).
  unfold transaction_batch_start_sequence; cbn [cm_sequences stp_start fst]. rewrite Hh. cbn [ok_or rbind].
  rewrite (proj2 (try_from_Some _ _ off)) by (unfold MAX_EVENTS_PER_BATCH, u64_max in *; split; [done|lia]).
  cbn [ok_or rbind]. rewrite (proj2 (checked_sub_Some first off (first - off))) by (split; [done|lia]).
  cbn [ok_or rbind]. by rewrite (proj2 (N.eqb_neq _ _)) by lia.
Qed.

(** The event at [k], as it is recorded and as it is decoded *)
Definition event_at (stream : StreamId) (v : N) (p : Published) (k : nat) (e : NewEvent) : RecordedEvent :=
  from_new stream (mkStreamVersion (v + N.of_nat k + 1)) (pub_batch p) (N.of_nat k)
    (len (eb_events (pub_batch p))) e.
Definition decoded_at (stream : StreamId) (v : N) (p : Published) (k : nat) (e : NewEvent)
  : DecodedStoredEvent :=
  decoded_from (pub_batch_id p) (pub_transaction p) (event_at stream v p k e) (pub_first p + N.of_nat k).

Lemma group_at stream v p k e :
  eb_events (pub_batch p) !! k = Some e →
  record_group stream v (pub_batch p) !! k = Some (event_at stream v p k e).
Proof. intros H. apply record_group_lookup. by exists e. Qed.

Lemma sequence_at p k e :
  eb_events (pub_batch p) !! k = Some e → pub_sequences p !! k = Some (pub_first p + N.of_nat k).
Proof. intros H. unfold pub_sequences. by rewrite list_lookup_imap, H. Qed.

Lemma pending_at_start stream b v p e :
  pub_ok stream b v p → eb_events (pub_batch p) !! 0%nat = Some e →
  let d := decoded_at stream v p 0 e in
  PendingCommit_new (dse_decoded d) (dse_global_stream_sequence d) (dse_is_transactional d)
  = Ok (pending_at stream v p 1).
Proof.
  intros [Hp _ _ _ [Hf0 Hf] _ _ _ Ht] He d.
  pose proof (group_at stream v p _ _ He) as Hg. pose proof (sequence_at _ _ _ He) as Hs.
  unfold pending_at. rewrite (take_S_r _ _ _ Hg), (take_S_r _ _ _ Hs), !take_0. cbn [app].
  unfold d, decoded_at, decoded_from, PendingCommit_new, pub_provenance, event_at.
  destruct p as [batch bid tr first]; cbn [pub_batch pub_batch_id pub_transaction pub_first] in *.
  cbn [from_new re_commit_event_ordinal re_commit_event_count].
  destruct tr as [[off n]|]; cbn [batch_coordinates is_some dse_decoded dse_global_stream_sequence
    dse_is_transactional de_transaction_event_ordinal de_event_count de_transaction_event_count de_batch_id
    de_commit_id de_operation_id de_operation_fingerprint de_recorded fmap option_fmap option_map fst snd];
    [|done].
  destruct (Ht _ _ eq_refl) as (H1 & H2 & H3). change (N.of_nat 0) with 0. rewrite N.add_0_r.
  rewrite (proj2 (checked_add_Some _ _ _ (off + len (eb_events batch))))
    by (unfold MAX_EVENTS_PER_BATCH, usize_max, u64_max in *; split; [done|lia]).
  cbn [ok_or rbind]. rewrite (proj2 (N.ltb_ge _ _)) by done. done.
Qed.

Lemma pending_at_push stream b v p k e :
  pub_ok stream b v p → k ≠ 0%nat → eb_events (pub_batch p) !! k = Some e →
  let d := decoded_at stream v p k e in
  PendingCommit_push (pending_at stream v p k) (dse_decoded d) (dse_global_stream_sequence d)
    (dse_is_transactional d)
  = Ok (pending_at stream v p (S k)).
Proof.
  intros [Hp _ _ _ [Hf0 Hf] _ _ _ Ht] Hk He d.
  pose proof (group_at stream v p _ _ He) as Hg. pose proof (sequence_at _ _ _ He) as Hs.
  pose proof (lookup_lt_Some _ _ _ He) as Hlt.
  assert (len (take k (record_group stream v (pub_batch p))) = N.of_nat k) as Hlen.
  { unfold len. rewrite length_take, length_record_group. lia. }
  assert (∃ r, head (take k (record_group stream v (pub_batch p))) = Some r ∧ re_actor r = eb_actor (pub_batch p)
    ∧ re_correlation_id r = eb_correlation_id (pub_batch p)
    ∧ re_causation_id r = eb_causation_id (pub_batch p)) as (r & Hr & Ha & Hc & Hca).
  { unfold record_group. destruct (eb_events (pub_batch p)) as [|e0 l]; [done|].
    destruct k; [done|]. by eexists. }
  unfold pending_at at 2. rewrite (take_S_r _ _ _ Hg), (take_S_r _ _ _ Hs).
  unfold PendingCommit_push; cbn [pending_at pc_events pc_event_count pc_batch_id pc_commit_id
    pc_operation_id pc_operation_fingerprint pc_transaction pc_sequences].
  rewrite Hr. cbn [ok_or rbind]. rewrite Hlen, Ha, Hc, Hca.
  unfold d, decoded_at, decoded_from, pub_provenance, event_at.
  destruct p as [batch bid tr first]; cbn [pub_batch pub_batch_id pub_transaction pub_first] in *.
  cbn [from_new re_commit_event_ordinal re_commit_event_count].
  assert (transaction_matches
    ((λ t, mkProvenance bid t.1 (t.1 + len (eb_events batch)) t.2) <$> tr)
    (dse_decoded (decoded_from bid tr (event_at stream v (mkPublished batch bid tr first) k e) 0))
    (is_some tr) = true) as Hm.
  { unfold decoded_from, event_at; cbn [from_new re_commit_event_ordinal re_commit_event_count pub_batch].
    destruct tr as [[off n]|]; [|done]. destruct (Ht _ _ eq_refl) as (H1 & H2 & H3).
    unfold transaction_matches; cbn. rewrite String.eqb_refl, N.eqb_refl. cbn.
    apply bool_decide_eq_true, checked_add_Some. split; [done|].
    unfold MAX_EVENTS_PER_BATCH, usize_max, u64_max, len in *. lia. }
  unfold decoded_from, event_at in Hm; cbn [from_new re_commit_event_ordinal re_commit_event_count pub_batch] in Hm.
  destruct (batch_coordinates tr _ _) as [t tn]; cbn [dse_decoded dse_global_stream_sequence
    dse_is_transactional de_event_ordinal de_event_count de_batch_id de_commit_id de_operation_id
    de_operation_fingerprint de_recorded re_commit_id re_operation_id re_operation_fingerprint
    re_correlation_id re_causation_id re_actor] in *.
  rewrite Hm, !N.eqb_refl, String.eqb_refl, !bool_decide_eq_true_2 by done. done.
Qed.

Lemma reading_at_pending stream b v p k e :
  pub_ok stream b v p → eb_events (pub_batch p) !! k = Some e →
  let d := decoded_at stream v p k e in
  builder_pending (reading_at stream b v p k) (dse_decoded d) (dse_global_stream_sequence d)
    (dse_is_transactional d)
  = Ok ({[ eb_operation_id (pub_batch p) ]} ∪ hb_operation_ids b,
        {[ eb_commit_id (pub_batch p) ]} ∪ hb_commit_ids b, pending_at stream v p (S k)).
Proof.
  intros Hp He d. pose proof (lookup_lt_Some _ _ _ He) as Hlt. unfold builder_pending.
  assert (de_event_ordinal (dse_decoded d) = N.of_nat k ∧ de_operation_id (dse_decoded d)
    = eb_operation_id (pub_batch p) ∧ de_commit_id (dse_decoded d) = eb_commit_id (pub_batch p))
    as (-> & Ho & Hc).
  { unfold d, decoded_at, decoded_from, event_at; cbn [from_new re_commit_event_ordinal
      re_commit_event_count]. by destruct (batch_coordinates _ _ _). }
  destruct k as [|k].
  - unfold reading_at. rewrite decide_True by done. rewrite (pk_idle _ _ _ _ Hp). cbn [is_some].
    rewrite Ho, Hc, !bool_decide_eq_false_2 by (apply Hp).
    unfold d. by rewrite (pending_at_start stream b v p e Hp He).
  - unfold reading_at. rewrite decide_False by done. rewrite (proj2 (N.eqb_neq _ 0)) by lia.
    cbn [hb_pending hb_operation_ids hb_commit_ids]. rewrite decide_False by lia. cbn [ok_or rbind].
    unfold d. by rewrite (pending_at_push stream b v p (S k) e Hp).
Qed.

Lemma reading_at_ids stream b v p k :
  hb_event_ids (reading_at stream b v p k)
  = list_to_set (re_event_id <$> take k (record_group stream v (pub_batch p))) ∪ hb_event_ids b.
Proof. unfold reading_at. case_decide as E; [subst; rewrite take_0; set_solver|done]. Qed.

Lemma reading_at_fresh stream b v p k e :
  pub_ok stream b v p → eb_events (pub_batch p) !! k = Some e →
  ne_event_id e ∉ hb_event_ids (reading_at stream b v p k).
Proof.
  intros Hp He. rewrite reading_at_ids, elem_of_union, elem_of_list_to_set.
  pose proof (bo_ids _ (pb_batch _ _ (pk_batch _ _ _ _ Hp))) as Hn.
  intros [Hin|Hin]; [|by eapply (pk_events _ _ _ _ Hp), Hin; eapply list_elem_of_lookup_2].
  rewrite fmap_take, record_group_event_ids in Hin.
  apply list_elem_of_lookup in Hin as (i & Hi). apply lookup_take_Some in Hi as [Hi Hik].
  assert ((ne_event_id <$> eb_events (pub_batch p)) !! k = Some (ne_event_id e)) as Hk
    by (by rewrite list_lookup_fmap, He).
  pose proof (NoDup_lookup _ _ _ _ Hn Hi Hk). lia.
Qed.

Lemma reading_at_step stream b v p k e :
  pub_ok stream b v p → eb_events (pub_batch p) !! k = Some e →
  builder_push (reading_at stream b v p k) (decoded_at stream v p k e)
  = Ok (reading_at stream b v p (S k)).
Proof.
  intros Hp He. pose proof (lookup_lt_Some _ _ _ He) as Hlt.
  pose proof (reading_at_pending _ _ _ _ _ _ Hp He) as Hpend.
  pose proof (reading_at_fresh _ _ _ _ _ _ Hp He) as Hfresh.
  assert (hb_current_version (reading_at stream b v p k) = mkStreamVersion (v + N.of_nat k)) as Hv.
  { unfold reading_at. case_decide as E; [|done]. rewrite (pk_version _ _ _ _ Hp), E. f_equal. lia. }
  assert (de_recorded (dse_decoded (decoded_at stream v p k e)) = event_at stream v p k e
    ∧ dse_global_stream_sequence (decoded_at stream v p k e) = pub_first p + N.of_nat k) as [Hr Hs].
  { unfold decoded_at, decoded_from. by destruct (batch_coordinates _ _ _). }
  pose proof (pk_room _ _ _ _ Hp) as Hroom. pose proof (pk_first _ _ _ _ Hp) as [Hf0 _].
  unfold builder_push. cbn zeta in Hpend. rewrite Hpend, Hr, Hs, Hv.
  rewrite (proj2 (N.eqb_neq _ 0)) by lia.
  rewrite (proj2 (version_next_Some (mkStreamVersion (v + N.of_nat k)) (mkStreamVersion (v + N.of_nat k + 1))))
    by (split; [done|cbn; unfold len in *; lia]).
  cbn [ok_or rbind event_at from_new re_stream_version re_event_id].
  rewrite bool_decide_eq_true_2 by done. cbn [negb]. rewrite bool_decide_eq_false_2 by done.
  rewrite reading_at_ids.
  assert ({[ne_event_id e]} ∪ (list_to_set (re_event_id <$> take k (record_group stream v (pub_batch p)))
      ∪ hb_event_ids b)
    = list_to_set (re_event_id <$> take (S k) (record_group stream v (pub_batch p))) ∪ hb_event_ids b) as ->.
  { rewrite (take_S_r _ _ _ (group_at stream v _ _ _ He)), fmap_app, list_to_set_app_L. cbn. set_solver. }
  assert (is_complete (pending_at stream v p (S k)) = bool_decide (S k = length (eb_events (pub_batch p)))) as ->.
  { unfold is_complete; cbn [pending_at pc_events pc_event_count]. unfold len.
    rewrite length_take, length_record_group. apply Bool.eq_iff_eq_true.
    rewrite N.eqb_eq, bool_decide_eq_true. lia. }
  unfold reading_at. rewrite (decide_False (P := S k = 0%nat)) by done.
  replace (v + N.of_nat (S k)) with (v + N.of_nat k + 1) by lia.
  assert (hb_history (if decide (k = 0%nat) then b
    else mkHistoryBuilder (if decide (k = length (eb_events (pub_batch p)))
                        then history_push_commit (hb_history b) (pub_commit stream v p)
                        else hb_history b) (mkStreamVersion (v + N.of_nat k))
      ({[ eb_operation_id (pub_batch p) ]} ∪ hb_operation_ids b)
      ({[ eb_commit_id (pub_batch p) ]} ∪ hb_commit_ids b)
      (list_to_set (re_event_id <$> take k (record_group stream v (pub_batch p))) ∪ hb_event_ids b)
      (if decide (k = length (eb_events (pub_batch p))) then None else Some (pending_at stream v p k)))
    = hb_history b) as -> by (case_decide; [done|cbn; by rewrite decide_False by lia]).
  case_bool_decide as Ec; [|by rewrite !decide_False].
  rewrite !decide_True by done. rewrite Ec. by rewrite (pending_at_finish stream b v p Hp).
Qed.

(** Pushing the decoded events of a commit appends the commit. *)
Lemma published_push stream b v p :
  pub_ok stream b v p →
  try_fold builder_push b (pub_decoded stream v p)
  = Ok (reading_at stream b v p (length (eb_events (pub_batch p)))).
Proof.
  intros Hp.
  assert (pub_decoded stream v p = imap (λ i e, decoded_at stream v p i e) (eb_events (pub_batch p))) as ->.
  { apply list_eq. intros i. unfold pub_decoded, record_group. rewrite !list_lookup_imap.
    by destruct (eb_events (pub_batch p) !! i). }
  enough (∀ l k, drop k (eb_events (pub_batch p)) = l → (k <= length (eb_events (pub_batch p)))%nat →
    try_fold builder_push (reading_at stream b v p k) (imap (λ i e, decoded_at stream v p (k + i) e) l)
    = Ok (reading_at stream b v p (length (eb_events (pub_batch p))))) as H.
  { specialize (H _ 0%nat eq_refl). rewrite drop_0 in H. apply H. lia. }
  induction l as [|e l IH]; intros k Hd Hk.
  - cbn. do 2 f_equal. apply (f_equal length) in Hd. rewrite length_drop in Hd. cbn in Hd. lia.
  - assert (eb_events (pub_batch p) !! k = Some e) as He by (by rewrite <- (Nat.add_0_r k), <- lookup_drop, Hd).
    pose proof (lookup_lt_Some _ _ _ He) as Hlt. cbn [imap try_fold]. rewrite Nat.add_0_r.
    rewrite (reading_at_step _ _ _ _ _ _ Hp He). cbn [rbind].
    rewrite (imap_ext _ (λ i e, decoded_at stream v p (S k + i) e)) by (intros i x _; cbn; f_equal; lia).
    apply IH; [|lia]. rewrite (drop_S _ _ _ He) in Hd. by injection Hd.
Qed.
End Publishing.

Section Log.
Context `{SHA : Sha256} `{WJ : Json StoredEventWire} `{CJ : Json ChecksumInput} `{B64 : Base64}.
Context `{HM : HeaderMapApi} `{HN : AtomicHeaderNames}.
Context (config : NatsEventStoreConfig) (stream : StreamId).

Definition stream_subject : string :=
  aggregate_subject config (ident_str (aggregate_type stream)) (ident_str (aggregate_id stream)).

(** A commit as it lies on its subject: what was published, the number of
    messages of its atomic batch, the correlation header and the payloads. *)
Record PublishedWire := mkPublishedWire {
  pw_published : Published;
  pw_total : N;
  pw_correlation : option string;
  pw_payloads : list (list byte);
}.

(** The message of the event at [i], published when [last] was the last
    sequence of the subject *)
Definition wire_message (w : PublishedWire) (last : N) (i : nat) (payload : list byte)
  : AtomicPublishMessage :=
  {| apm_subject := stream_subject;
     apm_message_id := ident_str ∘ ne_event_id <$> eb_events (pub_batch (pw_published w)) !! i;
     apm_payload := payload;
     apm_expected_last_subject_sequence := if N.of_nat i =? 0 then Some last else None;
     apm_expectation_subject := None |}.

Definition wire_headers (w : PublishedWire) (last : N) (i : nat) (payload : list byte) : HeaderMap :=
  let p := pw_published w in
  atomic_headers config (pub_batch_id p) (pw_correlation w) (pw_total w)
    (batch_coordinates (pub_transaction p) (N.of_nat i) (len (eb_events (pub_batch p)))).1
    (wire_message w last i payload).

Definition wire_deliveries (w : PublishedWire) (last : N) : list (result Delivery EventStoreError) :=
  imap (λ i payload, Ok (mkDelivery (Ok (pub_first (pw_published w) + N.of_nat i)) stream_subject
                           (Some (wire_headers w last i payload)) payload)) (pw_payloads w).

(** A commit that can follow [v] events of the stream, the last of which is at
    the sequence [last] *)
Record wire_ok (v last : N) (w : PublishedWire) : Prop := {
  wo_batch : publishable stream (pub_batch (pw_published w));
  wo_room : v + len (eb_events (pub_batch (pw_published w))) <= u64_max;
  wo_first : last < pub_first (pw_published w)
    ∧ pub_first (pw_published w) + len (eb_events (pub_batch (pw_published w))) <= u64_max;
  wo_direct : pub_transaction (pw_published w) = None →
    pw_total w = len (eb_events (pub_batch (pw_published w)));
  wo_transaction : ∀ off n, pub_transaction (pw_published w) = Some (off, n) →
    off + len (eb_events (pub_batch (pw_published w))) <= n ∧ n <= MAX_EVENTS_PER_BATCH
    ∧ off < pub_first (pw_published w) ∧ n < pw_total w;
  wo_batch_id : 0 < str_len (pub_batch_id (pw_published w)) <= 64;
  wo_payloads : encode_events_inner config stream (pub_batch (pw_published w))
    (record_group stream v (pub_batch (pw_published w))) (pub_transaction (pw_published w))
    = Ok (pw_payloads w);
  wo_sizes : Forall (λ payload, len payload <= MAX_SUPPORTED_EVENT_BYTES) (pw_payloads w);
}.

Lemma encode_events_inner_lookup batch recorded tr payloads i payload :
  encode_events_inner config stream batch recorded tr = Ok payloads → payloads !! i = Some payload →
  ∃ e, recorded !! i = Some e
    ∧ encode_event config stream batch (len recorded) tr (N.of_nat i, e) = Ok payload
    ∧ len recorded = len (eb_events batch).
Proof.
  unfold encode_events_inner. intros H Hi. guards.
  match goal with H : try_from _ _ = Some _ |- _ => apply try_from_Some in H as [-> _] end.
  match goal with H : try_map _ _ = Ok _ |- _ => apply try_map_Ok in H; rename H into F end.
  apply (Forall2_lookup_r _ _ _ _ _ F) in Hi as ([n e] & He & Hx).
  rewrite enumerate_lookup in He. apply fmap_Some in He as (e' & He & [= -> ->]). by exists e'.
Qed.

Lemma wire_payloads_length v last w :
  wire_ok v last w → length (pw_payloads w) = length (eb_events (pub_batch (pw_published w))).
Proof.
  intros Hw. pose proof (wo_payloads _ _ _ Hw) as H. unfold encode_events_inner in H. guards.
  match goal with H : try_map _ _ = Ok _ |- _ => apply try_map_Ok, Forall2_length in H; rename H into F end.
  unfold enumerate in F. by rewrite length_enumerate_from, length_record_group in F.
Qed.

(** Each message decodes to the event it was made from. *)
Lemma wire_decodes v last w i payload e expected :
  wire_ok v last w → pw_payloads w !! i = Some payload →
  eb_events (pub_batch (pw_published w)) !! i = Some e →
  (∀ s, expected = Some s → s = last) →
  decode_event config stream_subject stream expected (pub_first (pw_published w) + N.of_nat i)
    (wire_headers w last i payload) payload
  = Ok (decoded_at stream v (pw_published w) i e).
Proof.
  intros [Hb Hr [Hf0 Hf] Hd Ht Hid Hp Hs] Hi He Hx.
  destruct (encode_events_inner_lookup _ _ _ _ _ _ Hp Hi) as (r & Hr' & Henc & Hlen).
  rewrite (group_at stream v _ _ _ He) in Hr'. injection Hr' as <-. rewrite Hlen in Henc.
  rewrite Forall_lookup in Hs. specialize (Hs _ _ Hi).
  unfold wire_headers, decoded_at, stream_subject.
  apply (published_decodes config stream (pub_batch (pw_published w)) i e v _ _ _ last); try done.
  - intros off n E. destruct (Ht _ _ E) as (? & ? & _ & ?). by split_and!.
  - unfold u64_max in *. lia.
Qed.

(** One delivery of a commit *)
Lemma read_wire_step v last w b s i payload e cutoff :
  wire_ok v last w → pub_ok stream b v (pw_published w) → pw_payloads w !! i = Some payload →
  eb_events (pub_batch (pw_published w)) !! i = Some e →
  rs_history s = reading_at stream b v (pw_published w) i → rs_last_commit_stream_sequence s = last →
  rs_next_stream_sequence s <= pub_first (pw_published w) + N.of_nat i <= cutoff →
  let sequence := pub_first (pw_published w) + N.of_nat i in
  read_delivery config stream stream_subject cutoff s sequence
    (mkDelivery (Ok sequence) stream_subject (Some (wire_headers w last i payload)) payload)
  = Ok (mkReadState (reading_at stream b v (pw_published w) (S i)) (rs_next_stream_sequence s)
          (if N.of_nat i + 1 =? len (eb_events (pub_batch (pw_published w))) then sequence else last) sequence).
Proof.
  intros Hw Hp Hi He Hh Hl Hn sequence. unfold read_delivery; cbn [dl_subject dl_headers dl_payload].
  rewrite String.eqb_refl. cbn [negb].
  rewrite (proj2 (N.ltb_ge sequence _)), (proj2 (N.ltb_ge cutoff _)) by (unfold sequence; lia). cbn [orb default].
  unfold sequence at 1. unfold default, from_option, id.
  rewrite (wire_decodes v last w i payload e) by (done || intros ? [= <-]; done). cbn [rbind].
  rewrite Hh, (reading_at_step _ _ _ _ _ _ Hp He), Hl.
  assert (de_event_ordinal (dse_decoded (decoded_at stream v (pw_published w) i e)) = N.of_nat i
    ∧ de_event_count (dse_decoded (decoded_at stream v (pw_published w) i e))
      = len (eb_events (pub_batch (pw_published w)))) as [-> ->].
  { unfold decoded_at, decoded_from. by destruct (batch_coordinates _ _ _). }
  apply lookup_lt_Some in He. pose proof (bo_count _ (pb_batch _ _ (wo_batch _ _ _ Hw))) as Hc.
  rewrite (proj2 (checked_add_Some _ _ _ (N.of_nat i + 1)))
    by (unfold len, MAX_EVENTS_PER_BATCH, usize_max, u64_max in *; split; [done|lia]).
  done.
Qed.

(** The deliveries from the [k]th event of a commit on, up to its end *)
Lemma read_wire_from v last w b cutoff exhausted rest l :
  wire_ok v last w → pub_ok stream b v (pw_published w) →
  let p := pw_published w in
  let n := length (eb_events (pub_batch p)) in
  let final := pub_first p + N.of_nat n - 1 in
  final <= cutoff →
  ∀ k s, (k < n)%nat → drop k (pw_payloads w) = l →
  rs_history s = reading_at stream b v p k → rs_last_commit_stream_sequence s = last →
  rs_next_stream_sequence s <= pub_first p + N.of_nat k →
  ∃ s', rs_history s' = reading_at stream b v p n ∧ rs_last_commit_stream_sequence s' = final
    ∧ rs_last_seen_sequence s' = final ∧ (final < cutoff → rs_next_stream_sequence s' = final + 1)
    ∧ read_loop config stream stream_subject cutoff false exhausted
        (imap (λ i payload, Ok (mkDelivery (Ok (pub_first p + N.of_nat (k + i))) stream_subject
                 (Some (wire_headers w last (k + i) payload)) payload)) l ++ rest) s
      = if final =? cutoff then Ok s'
        else read_loop config stream stream_subject cutoff false exhausted rest s'.
Proof.
  intros Hw Hp p n final Hcut. subst p. induction l as [|payload l IH]; intros k s Hk Hd Hh Hl Hn.
  { apply (f_equal length) in Hd. rewrite length_drop, (wire_payloads_length v last) in Hd by done.
    cbn in Hd. unfold n in *. lia. }
  assert (pw_payloads w !! k = Some payload) as Hi by (by rewrite <- (Nat.add_0_r k), <- lookup_drop, Hd).
  assert (is_Some (eb_events (pub_batch (pw_published w)) !! k)) as [e He] by (by apply lookup_lt_is_Some).
  pose proof (wo_first _ _ _ Hw) as [_ Hf]. unfold len in Hf.
  assert (len (eb_events (pub_batch (pw_published w))) = N.of_nat n) as Hlen by done.
  cbn [imap app read_loop]. rewrite Nat.add_0_r.
  rewrite (proj2 (N.leb_le (rs_next_stream_sequence s) cutoff)) by (unfold final in Hcut; lia).
  cbn [rbind dl_sequence map_err]. rewrite andb_false_r.
  rewrite (read_wire_step v last w b s k payload e cutoff) by (done || unfold final in Hcut; lia).
  rewrite Hlen. cbn [rbind].
  destruct (decide (S k = n)) as [Hend|Hmore].
  - assert (l = []) as ->.
    { apply (f_equal length) in Hd. rewrite length_drop, (wire_payloads_length v last) in Hd by done.
      cbn in Hd. destruct l; [done|]. cbn in Hd. unfold n in *. lia. }
    assert (pub_first (pw_published w) + N.of_nat k = final) as -> by (unfold final; lia).
    rewrite (proj2 (N.eqb_eq (N.of_nat k + 1) _)) by lia. rewrite Hend.
    destruct (N.eqb_spec final cutoff) as [|Hne].
    + eexists. split_and!; [| | | |done]; cbn; done || lia.
    + rewrite (proj2 (checked_add_Some _ _ _ (final + 1))) by (split; [done|unfold final; lia]).
      cbn [ok_or rbind imap app rs_history rs_last_commit_stream_sequence rs_last_seen_sequence].
      eexists. split_and!; [| | | |done]; done.
  - rewrite (proj2 (N.eqb_neq (N.of_nat k + 1) _)) by lia.
    rewrite (proj2 (N.eqb_neq _ cutoff)) by (unfold final in Hcut; lia).
    rewrite (proj2 (checked_add_Some _ _ _ (pub_first (pw_published w) + N.of_nat k + 1))) by (split; [done|lia]).
    cbn [ok_or rbind rs_history rs_last_commit_stream_sequence rs_last_seen_sequence].
    rewrite (imap_ext _ (λ i payload, Ok (mkDelivery (Ok (pub_first (pw_published w) + N.of_nat (S k + i))) stream_subject
                 (Some (wire_headers w last (S k + i) payload)) payload)))
      by (intros i x _; cbn; by rewrite Nat.add_succ_r).
    apply IH; cbn; try done; [lia| |lia].
    rewrite (drop_S _ _ _ Hi) in Hd. by injection Hd.
Qed.

(** ** Whole subjects *)

Definition wire_batch (w : PublishedWire) : EventBatch := pub_batch (pw_published w).
Definition wire_events (w : PublishedWire) : N := len (eb_events (wire_batch w)).
(** The sequence of the last event of a commit *)
Definition wire_last (w : PublishedWire) : N := pub_first (pw_published w) + wire_events w - 1.

Fixpoint log_ok (v last : N) (ws : list PublishedWire) : Prop :=
  match ws with
  | [] => True
  | w :: r => wire_ok v last w ∧ log_ok (v + wire_events w) (wire_last w) r
  end.
Fixpoint log_deliveries (last : N) (ws : list PublishedWire) : list (result Delivery EventStoreError) :=
  match ws with
  | [] => []
  | w :: r => wire_deliveries w last ++ log_deliveries (wire_last w) r
  end.
Fixpoint log_end (last : N) (ws : list PublishedWire) : N :=
  match ws with [] => last | w :: r => log_end (wire_last w) r end.
Fixpoint log_commits (v : N) (ws : list PublishedWire) : list StoredCommit :=
  match ws with
  | [] => []
  | w :: r => pub_commit stream v (pw_published w) :: log_commits (v + wire_events w) r
  end.

Definition log_event_ids (ws : list PublishedWire) : list EventId :=
  concat ((λ w, ne_event_id <$> eb_events (wire_batch w)) <$> ws).

(** The commits published one after the other on the subject of the stream *)
Record published_log (ws : list PublishedWire) : Prop := {
  pl_chain : log_ok 0 0 ws;
  pl_operations : NoDup ((λ w, eb_operation_id (wire_batch w)) <$> ws);
  pl_commits : NoDup ((λ w, eb_commit_id (wire_batch w)) <$> ws);
  pl_events : NoDup (log_event_ids ws);
}.

Lemma wire_last_after v last w : wire_ok v last w → last < wire_last w ∧ 0 < wire_events w.
Proof.
  intros Hw. pose proof (wo_first _ _ _ Hw). pose proof (bo_count _ (pb_batch _ _ (wo_batch _ _ _ Hw))).
  unfold wire_last, wire_events, wire_batch. lia.
Qed.

Lemma log_end_after v last ws : log_ok v last ws → last <= log_end last ws.
Proof.
  revert v last; induction ws as [|w ws IH]; intros v last; cbn; [lia|].
  intros [Hw Hl]. apply wire_last_after in Hw as [Hw _]. apply IH in Hl. lia.
Qed.

(** The builder after the commits [seen] *)
Record built (b : HistoryBuilder) (seen : list PublishedWire) (v : N) : Prop := {
  bt_idle : hb_pending b = None;
  bt_version : hb_current_version b = mkStreamVersion v;
  bt_operations : hb_operation_ids b = list_to_set ((λ w, eb_operation_id (wire_batch w)) <$> seen);
  bt_commits : hb_commit_ids b = list_to_set ((λ w, eb_commit_id (wire_batch w)) <$> seen);
  bt_events : hb_event_ids b = list_to_set (log_event_ids seen);
}.

Lemma NoDup_fmap_middle {A B} (f : A → B) l x r : NoDup (f <$> l ++ x :: r) → f x ∉ f <$> l.
Proof.
  rewrite fmap_app. intros (_ & H & _)%NoDup_app Hx. apply (H _ Hx). cbn. left.
Qed.

Lemma built_pub_ok b seen v last w ws :
  built b seen v → wire_ok v last w →
  NoDup ((λ w, eb_operation_id (wire_batch w)) <$> seen ++ w :: ws) →
  NoDup ((λ w, eb_commit_id (wire_batch w)) <$> seen ++ w :: ws) →
  NoDup (log_event_ids (seen ++ w :: ws)) → pub_ok stream b v (pw_published w).
Proof.
  intros [Hi Hv Ho Hc He] [Wb Wr [Wf0 Wf] _ Wt _ _ _] No Nc Ne. split; try done.
  - lia.
  - rewrite Ho, elem_of_list_to_set. by apply (NoDup_fmap_middle (λ w, eb_operation_id (wire_batch w))) in No.
  - rewrite Hc, elem_of_list_to_set. by apply (NoDup_fmap_middle (λ w, eb_commit_id (wire_batch w))) in Nc.
  - intros e Hin. rewrite He, elem_of_list_to_set. intros Hx.
    unfold log_event_ids in Ne. rewrite fmap_app, concat_app in Ne. apply NoDup_app in Ne as (_ & Hd & _).
    apply (Hd _ Hx). cbn. apply elem_of_app. left. apply list_elem_of_fmap. by exists e.
  - intros off n E. destruct (Wt _ _ E) as (? & ? & ? & _). done.
Qed.

Lemma built_step b seen v w :
  built b seen v → 0 < wire_events w →
  built (reading_at stream b v (pw_published w) (length (eb_events (pub_batch (pw_published w)))))
    (seen ++ [w]) (v + wire_events w)
  ∧ hb_history (reading_at stream b v (pw_published w) (length (eb_events (pub_batch (pw_published w)))))
    = history_push_commit (hb_history b) (pub_commit stream v (pw_published w)).
Proof.
  intros [Hi Hv Ho Hc He] Hn. unfold reading_at. unfold wire_events, wire_batch, len in Hn.
  rewrite decide_False by lia. rewrite !decide_True by done. split; [|done].
  split; cbn [hb_pending hb_current_version hb_operation_ids hb_commit_ids hb_event_ids]; [done|done|..].
  - rewrite Ho, fmap_app, list_to_set_app_L. cbn. unfold wire_batch. set_solver.
  - rewrite Hc, fmap_app, list_to_set_app_L. cbn. unfold wire_batch. set_solver.
  - rewrite take_ge by (by rewrite length_record_group). rewrite record_group_event_ids, He.
    unfold log_event_ids. rewrite concat_fmap_snoc, list_to_set_app_L. unfold wire_batch. set_solver.
Qed.

Lemma read_log exhausted rest ws :
  ∀ seen b s v last,
  built b seen v → ws ≠ [] → log_ok v last ws →
  NoDup ((λ w, eb_operation_id (wire_batch w)) <$> seen ++ ws) →
  NoDup ((λ w, eb_commit_id (wire_batch w)) <$> seen ++ ws) → NoDup (log_event_ids (seen ++ ws)) →
  rs_history s = b → rs_last_commit_stream_sequence s = last → rs_next_stream_sequence s = last + 1 →
  ∃ s' v', read_loop config stream stream_subject (log_end last ws) false exhausted
      (log_deliveries last ws ++ rest) s = Ok s'
    ∧ rs_last_seen_sequence s' = log_end last ws ∧ built (rs_history s') (seen ++ ws) v' ∧ v < v'
    ∧ nh_commits (hb_history (rs_history s')) = nh_commits (hb_history b) ++ log_commits v ws
    ∧ nh_events (hb_history (rs_history s'))
      = nh_events (hb_history b) ++ concat (cm_events <$> log_commits v ws)
    ∧ nh_sequences (hb_history (rs_history s'))
      = nh_sequences (hb_history b) ++ concat (cm_sequences <$> log_commits v ws).
Proof.
  induction ws as [|w ws IH]; intros seen b s v last Hb Hne Hl No Nc Ne Hh Hlast Hnext; [done|].
  destruct Hl as [Hw Hl]. pose proof (built_pub_ok _ _ _ _ _ _ Hb Hw No Nc Ne) as Hp.
  destruct (wire_last_after _ _ _ Hw) as [Hlt Hpos]. pose proof (log_end_after _ _ _ Hl) as Hend.
  destruct (built_step b seen v w Hb Hpos) as [Hb' Hhist].
  cbn [log_deliveries log_end log_commits]. rewrite <- app_assoc. pose proof (wo_first _ _ _ Hw) as [Hf _].
  destruct (read_wire_from v last w b (log_end (wire_last w) ws) exhausted
    (log_deliveries (wire_last w) ws ++ rest) (pw_payloads w) Hw Hp) with (k := 0%nat) (s := s)
    as (s1 & H1 & H2 & H3 & H4 & H5); try done.
  { unfold wire_events, wire_batch, len in Hpos. lia. }
  { lia. }
  unfold wire_deliveries. cbn [Nat.add] in H5. rewrite H5. fold (wire_events w) in *.
  change (N.of_nat (length (eb_events (pub_batch (pw_published w))))) with (wire_events w) in *.
  fold (wire_last w) in *. destruct ws as [|w2 ws].
  - cbn [log_end] in *. rewrite N.eqb_refl. exists s1, (v + wire_events w).
    rewrite H1, Hhist. cbn [log_commits fmap list_fmap concat]. rewrite !app_nil_r.
    split_and!; try done. lia.
  - assert (wire_last w < log_end (wire_last w) (w2 :: ws)) as Hlt2.
    { cbn [log_ok log_end] in *. destruct Hl as [Hw2 Hl]. apply wire_last_after in Hw2 as [? _].
      apply log_end_after in Hl. lia. }
    rewrite (proj2 (N.eqb_neq _ _)) by lia.
    replace (seen ++ w :: w2 :: ws) with ((seen ++ [w]) ++ w2 :: ws) in * by (by rewrite <- app_assoc).
    destruct (IH (seen ++ [w]) _ s1 (v + wire_events w) (wire_last w) Hb') as
      (s' & v' & E1 & E2 & E3 & E4 & E5 & E6 & E7); try done; [by apply H4|].
    exists s', v'. rewrite E5, E6, E7, Hhist. cbn [history_push_commit nh_commits nh_events nh_sequences
      fmap list_fmap concat pub_commit cm_events cm_sequences].
    split_and!; try done; [lia|by rewrite <- app_assoc..].
Qed.

(** C33 (roundtrip). What is published is read back: the messages of any
    sequence of direct appends and transactions on a subject - encoded, given
    their atomic batch headers and stored at increasing sequences - are read
    into exactly those commits, with every event as it was recorded, the
    batches as they were submitted, their sequences and their transaction
    provenance; and the executor accepts the events. *)
Theorem published_log_is_read_back ws exhausted rest :
  ws ≠ [] → published_log ws →
  ∃ h, read_history_through config stream stream_subject (log_end 0 ws) false exhausted
      (log_deliveries 0 ws ++ rest) = Ok h
    ∧ nh_commits h = log_commits 0 ws
    ∧ cm_batch <$> nh_commits h = wire_batch <$> ws
    ∧ nh_events h = record_all stream 0 (wire_batch <$> ws)
    ∧ nh_sequences h = concat (pub_sequences ∘ pw_published <$> ws)
    ∧ nh_last_subject_stream_sequence h = log_end 0 ws.
Proof.
  intros Hne [Hl Ho Hc He].
  destruct (read_log exhausted rest ws [] HistoryBuilder_default read_start 0 0)
    as (s & v & Hr & Hs & [Hi Hv _ _ _] & Hpos & E1 & E2 & E3); try done.
  unfold read_history_through. rewrite Hr. cbn [rbind]. rewrite Hs, N.eqb_refl, andb_false_r.
  unfold builder_finish. rewrite Hi, Hv. cbn [negb andb is_some orb].
  rewrite bool_decide_eq_false_2 by (unfold version_zero; intros [= ->]; lia).
  rewrite andb_false_r. eexists. split; [done|].
  cbn [nh_commits nh_events nh_sequences nh_last_subject_stream_sequence].
  rewrite E1, E2, E3. cbn [HistoryBuilder_default hb_history History_default nh_commits nh_events
    nh_sequences app]. clear. split; [done|].
  assert (∀ v, cm_batch <$> log_commits v ws = wire_batch <$> ws) as Hb.
  { induction ws as [|w ws IH]; intros v; [done|]. cbn. by rewrite IH. }
  split_and!; [apply Hb| | |done].
  - clear Hb. generalize 0. induction ws as [|w ws IH]; intros v; [done|]. cbn. by rewrite IH.
  - clear Hb. generalize 0. induction ws as [|w ws IH]; intros v; [done|]. cbn. by rewrite IH.
Qed.
End Log.
