(* ===== verification/NatsAppend.v ===== *)
(** * NatsAppend: a direct append to a NATS event store (append_with_history,
    publish_atomic_batch, publish_atomic_messages and their helpers in
    crates/rostfrei-nats/src/event_store.rs).

    The server answers as it likes: what it replies to each request, and what
    later reads find, are arguments. *)

From S2P Require Export NatsHistoryFacts.

(** ** Third-party interfaces *)

(** A JetStream API error: its code and its text *)
Record ApiError := mkApiError { ae_code : N; ae_text : string }.

(** The codes of [jetstream::ErrorCode] the code names *)
Class ErrorCodes := {
  STREAM_WRONG_LAST_SEQUENCE : N;
  STREAM_WRONG_LAST_SEQUENCE_CONSTANT : N;
  STREAM_STORE_FAILED : N;
  ATOMIC_PUBLISH_DISABLED : N;
  REQUIRED_API_LEVEL : N;
  STREAM_MESSAGE_EXCEEDS_MAXIMUM : N;
}.

Record AtomicPublishAck := mkAtomicPublishAck {
  apa_stream : string;
  apa_sequence : N;
  apa_batch : option string;
  apa_count : option N;
}.

(** [serde_json::from_slice::<Response<AtomicPublishAck>>] *)
Class AckJson := {
  ack_from_slice : list byte → result (AtomicPublishAck + ApiError) string;
}.

(** ** Publishing *)

Inductive AtomicBatchPublishError :=
| PublishExpectation
| PublishStore (error : EventStoreError).

Definition unavailable (message : string) : EventStoreError := store_error Unavailable message.

Section Append.
Context `{SHA : Sha256} `{WJ : Json StoredEventWire} `{CJ : Json ChecksumInput} `{B64 : Base64}.
Context `{HM : HeaderMapApi} `{HN : AtomicHeaderNames} `{EC : ErrorCodes} `{AJ : AckJson}.
Context (config : NatsEventStoreConfig).

Definition classify_atomic_api_error (error : ApiError) : AtomicBatchPublishError :=
  let code := ae_code error in
  if (code =? STREAM_WRONG_LAST_SEQUENCE) || (code =? STREAM_WRONG_LAST_SEQUENCE_CONSTANT)
  then PublishExpectation
  else if (code =? STREAM_STORE_FAILED) && starts_with "maximum bytes exceeded (" (ae_text error)
  then PublishStore (store_error CapacityExhausted "configured event-store byte capacity is exhausted")
  else if (code =? ATOMIC_PUBLISH_DISABLED) || (code =? REQUIRED_API_LEVEL)
  then PublishStore (store_error ConfigurationMismatch
         ("event-store stream does not support atomic publishing: " +:+ ae_text error))
  else if code =? STREAM_MESSAGE_EXCEEDS_MAXIMUM
  then PublishStore
         (invalid "encoded event plus NATS headers exceeds the configured message-size limit")
  else PublishStore (unavailable ("atomic event publish was rejected: " +:+ ae_text error)).

Definition decode_atomic_publish_response (payload : list byte)
  : result AtomicPublishAck AtomicBatchPublishError :=
  let? response := map_err
    (λ error, PublishStore (corrupt ("NATS returned an invalid atomic PubAck: " +:+ error)))
    (ack_from_slice payload) in
  match response with
  | inl ack => Ok ack
  | inr error => Err (classify_atomic_api_error error)
  end.

(** What the store sends for one message *)
Record SentMessage := mkSentMessage {
  sm_subject : string;
  sm_headers : HeaderMap;
  sm_payload : list byte;
}.

(** [publish_atomic_messages] from the message at [index] on: [reply] is what
    the server answers to the request of an index. The messages sent come with
    the result. *)
Fixpoint publish_from (batch_id : string) (correlation_id : option string) (message_count : N)
    (reply : N → result (list byte) string) (index : N) (messages : list AtomicPublishMessage)
  : list SentMessage * result AtomicPublishAck AtomicBatchPublishError :=
  match messages with
  | [] => ([], Err (PublishStore (invalid "cannot publish an empty atomic batch")))
  | atomic :: messages =>
    match checked_add usize_max index 1 with
    | None => ([], Err (PublishStore
                (store_error CapacityExhausted "atomic batch sequence space is exhausted")))
    | Some one_based_sequence =>
      let sent := mkSentMessage (apm_subject atomic)
                    (atomic_headers config batch_id correlation_id message_count index atomic)
                    (apm_payload atomic) in
      match reply index with
      | Err error => ([sent], Err (PublishStore (unavailable ("atomic event publish failed: " +:+ error))))
      | Ok payload =>
        if negb (one_based_sequence =? message_count) then
          if len payload =? 0 then
            let (rest, r) := publish_from batch_id correlation_id message_count reply
                               one_based_sequence messages in
            (sent :: rest, r)
          else
            ([sent],
             match decode_atomic_publish_response payload with
             | Ok _ => Err (PublishStore
                 (corrupt "NATS acknowledged an atomic batch before its final event"))
             | Err error => Err error
             end)
        else if len payload =? 0
        then ([sent], Err (PublishStore (corrupt "NATS omitted the atomic batch PubAck")))
        else ([sent], decode_atomic_publish_response payload)
      end
    end
  end.
Definition publish_atomic_messages (batch_id : string) (correlation_id : option string)
    (messages : list AtomicPublishMessage) (reply : N → result (list byte) string)
  : list SentMessage * result AtomicPublishAck AtomicBatchPublishError :=
  publish_from batch_id correlation_id (len messages) reply 0 messages.

Definition publish_atomic_batch (subject : string) (expected_last_subject_sequence : N)
    (batch_id : string) (correlation_id : option string) (events : list (string * list byte))
    (reply : N → result (list byte) string)
  : list SentMessage * result AtomicPublishAck AtomicBatchPublishError :=
  publish_atomic_messages batch_id correlation_id
    (atomic_batch_messages subject expected_last_subject_sequence events) reply.

(** [new_atomic_batch_id] of a fresh inbox name *)
Definition new_atomic_batch_id (inbox : string) (commit_id : CommitId) : string :=
  hex_of_bytes (sha256 (as_bytes inbox ++ as_bytes (ident_str commit_id))).
Definition new_transaction_batch_id (inbox : string) (operation_id : OperationId) : string :=
  hex_of_bytes (sha256 (as_bytes inbox ++ as_bytes (ident_str operation_id))).

(** ** Recording *)

(** One iteration of [record_batch] *)
Definition nats_record_event (stream : StreamId) (batch : EventBatch) (event_count : N)
    (acc : StreamVersion * list RecordedEvent) (p : N * NewEvent)
  : result (StreamVersion * list RecordedEvent) EventStoreError :=
  let (ordinal, event) := p in
  let? version := ok_or (version_next acc.1)
    (store_error CapacityExhausted "aggregate version space is exhausted") in
  let? ordinal := ok_or (try_from u32_max ordinal) (invalid "event ordinal exceeds the supported range") in
  let? recorded :=
    map_err (λ error, invalid ("invalid event envelope: " +:+ EnvelopeError_display error))
      (new_in_commit stream version (ne_event_id event) (eb_commit_id batch) (eb_operation_id batch)
         (eb_operation_fingerprint batch) ordinal event_count (ne_event_type event)
         (ne_schema_version event) (ne_payload event)) in
  let recorded := match eb_correlation_id batch with
                  | Some c => recorded_with_correlation_id recorded c | None => recorded end in
  let recorded := match eb_causation_id batch with
                  | Some c => recorded_with_causation_id recorded c | None => recorded end in
  let recorded := match eb_actor batch with
                  | Some a => recorded_with_actor recorded a | None => recorded end in
  Ok (version, acc.2 ++ [recorded]).

(** [RecordedBatch::new] *)
Definition RecordedBatch_new (events : list RecordedEvent) : result (list RecordedEvent) EventStoreError :=
  fail! len events =? 0 with invalid "event batch is empty";
  Ok events.

Definition nats_record_batch (stream : StreamId) (current_version : StreamVersion) (batch : EventBatch)
  : result (list RecordedEvent) EventStoreError :=
  let? event_count := ok_or (try_from u32_max (len (eb_events batch)))
    (invalid "event count exceeds the supported range") in
  let? recorded := try_fold (nats_record_event stream batch event_count) (current_version, [])
    (enumerate (eb_events batch)) in
  RecordedBatch_new recorded.2.

Definition nats_validate_derived_identities (stream : StreamId) (batch : EventBatch)
  : result unit EventStoreError :=
  let expected_commit_id := derive_commit_id stream (eb_operation_id batch) in
  fail! negb (bool_decide (eb_commit_id batch = expected_commit_id))
    with invalid "commit identity was not derived from the stream and operation identity";
  let? _ := try_map (λ p,
      let? ordinal := ok_or (try_from u32_max p.1)
        (invalid "event ordinal exceeds the supported range") in
      fail! negb (bool_decide (ne_event_id p.2 = derive_event_id expected_commit_id ordinal))
        with invalid "event identity was not derived from its commit identity and ordinal";
      Ok tt) (enumerate (eb_events batch)) in
  Ok tt.

Definition version_conflict (current : StreamVersion) : EventStoreError :=
  store_error Conflict ("expected version does not match current version "
                        +:+ n_to_string (version_value current)).

(** The version match of [append_with_history] *)
Definition match_expected_version (expected : ExpectedVersion) (current : StreamVersion)
  : result unit EventStoreError :=
  match expected with
  | NoStream => if bool_decide (current = version_zero) then Ok tt else Err (version_conflict current)
  | Exact version => if bool_decide (version = current) then Ok tt else Err (version_conflict current)
  end.

Definition transaction_receipt_writes_stream (receipt : TransactionReceipt) (stream : StreamId) : bool :=
  existsb (λ s, bool_decide (sr_stream_id s = stream) && negb (len (sr_events s) =? 0))
    (tr_streams receipt).

(** ** The append *)

(** What the other operations of the store and the server answer during one
    append, each when it is reached: the receipt of the operation, the inbox
    name, the replies to the published messages, the messages read to verify
    the commit, and the history and receipt of a reconciliation. *)
Record AppendAnswers := mkAppendAnswers {
  aa_receipt : result (option TransactionReceipt) EventStoreError;
  aa_inbox : string;
  aa_reply : N → result (list byte) string;
  aa_lookup : N → result RawMessage EventStoreError;
  aa_race_history : result History EventStoreError;
  aa_race_receipt : result (option TransactionReceipt) EventStoreError;
}.

Definition operation_used_by_transaction : EventStoreError :=
  identity_conflict "operation identity was already used by an event transaction".

(** [resolve_expectation_race] *)
Definition resolve_expectation_race (stream : StreamId) (batch : EventBatch) (a : AppendAnswers)
  : result AppendOutcome EventStoreError :=
  let? history := aa_race_history a in
  let? receipt := aa_race_receipt a in
  fail! is_some_and (λ r, transaction_receipt_writes_stream r stream) receipt
    with operation_used_by_transaction;
  let? existing := resolve_existing history batch in
  match existing with
  | None => Err (store_error Conflict "aggregate changed during append")
  | Some events => Ok (ExactReplay events)
  end.

(** An append that passed every check of [append_with_history] before it is
    published, or the replay it was resolved to *)
Record PreparedAppend := mkPreparedAppend {
  pa_recorded : list RecordedEvent;
  pa_subject : string;
  pa_events : list (string * list byte);
  pa_recorded_count : N;
}.

Definition prepare_append (stream : StreamId) (expected_version : ExpectedVersion) (batch : EventBatch)
    (history : History) (receipt : option TransactionReceipt)
  : result (AppendOutcome + PreparedAppend) EventStoreError :=
  fail! is_some_and (λ r, transaction_receipt_writes_stream r stream) receipt
    with operation_used_by_transaction;
  let? existing := resolve_existing history batch in
  match existing with
  | Some events => Ok (inl (ExactReplay events))
  | None =>
    fail! bool_decide (expected_version = Exact version_zero)
      with invalid "Exact requires a non-zero stream version; use NoStream for an absent stream";
    let? _ := nats_validate_derived_identities stream batch in
    let current_version := nats_current_version (nh_events history) in
    let? _ := match_expected_version expected_version current_version in
    let? recorded := nats_record_batch stream current_version batch in
    let subject := aggregate_subject config (ident_str (aggregate_type stream))
                     (ident_str (aggregate_id stream)) in
    let? payloads := encode_events config stream batch recorded in
    fail! existsb (λ payload, limit_value (nc_max_event_bytes config) <? len payload) payloads
      with invalid ("encoded event exceeds the configured "
                    +:+ n_to_string (limit_value (nc_max_event_bytes config)) +:+ "-byte limit");
    fail! negb (len payloads =? len recorded)
      with corrupt "encoded event count does not match the recorded batch";
    let events := zip ((λ e, ident_str (re_event_id e)) <$> recorded) payloads in
    let? recorded_count := ok_or (try_from u64_max (len recorded))
      (invalid "event batch count cannot be represented") in
    Ok (inr (mkPreparedAppend recorded subject events recorded_count))
  end.

(** The checks on the acknowledgement *)
Definition append_acknowledged (history : History) (p : PreparedAppend) (batch_id : string)
    (ack : AtomicPublishAck) : bool :=
  String.eqb (apa_stream ack) (nc_stream_name config) && negb (apa_sequence ack =? 0)
  && (nh_last_subject_stream_sequence history <? apa_sequence ack)
  && bool_decide (apa_batch ack = Some batch_id) && bool_decide (apa_count ack = Some (pa_recorded_count p)).

(** The messages [append_with_history] sends, and its result *)
Definition append_with_history (stream : StreamId) (expected_version : ExpectedVersion)
    (batch : EventBatch) (history : History) (a : AppendAnswers)
  : list SentMessage * result AppendOutcome EventStoreError :=
  match (let? receipt := aa_receipt a in prepare_append stream expected_version batch history receipt) with
  | Err error => ([], Err error)
  | Ok (inl outcome) => ([], Ok outcome)
  | Ok (inr p) =>
    let batch_id := new_atomic_batch_id (aa_inbox a) (eb_commit_id batch) in
    let (sent, published) := publish_atomic_batch (pa_subject p) (nh_last_subject_stream_sequence history)
      batch_id (id_str <$> eb_correlation_id batch) (pa_events p) (aa_reply a) in
    (sent,
     match published with
     | Err PublishExpectation => resolve_expectation_race stream batch a
     | Err (PublishStore error) =>
       if bool_decide (se_kind error = Unavailable) then
         match resolve_expectation_race stream batch a with
         | Err reconciliation =>
           if bool_decide (se_kind reconciliation = Unavailable)
              || bool_decide (se_kind reconciliation = Conflict)
           then Err error else Err reconciliation
         | Ok outcome => Ok outcome
         end
       else Err error
     | Ok ack =>
       fail! negb (append_acknowledged history p batch_id ack)
         with corrupt "atomic PubAck returned incompatible stream, sequence, or batch metadata";
       let? _ := verify_published_commit config stream history (apa_sequence ack) batch_id
                   (eb_commit_id batch) (pa_recorded p) (aa_lookup a) in
       Ok (Appended (pa_recorded p))
     end)
  end.
End Append.
