(* ===== verification/NatsAppendFacts.v ===== *)
(** * NatsAppendFacts: what a direct append to a NATS event store guarantees,
    whatever the server answers, and that an append that passed its checks reports
    its events appended when the server stores the batch and answers as JetStream
    does. *)

From S2P Require Export NatsAppend NatsRoundtrip.

Section Facts.
Context `{SHA : Sha256} `{WJ : Json StoredEventWire} `{CJ : Json ChecksumInput} `{B64 : Base64}.
Context `{HM : HeaderMapApi} `{HN : AtomicHeaderNames}.
Context (config : NatsEventStoreConfig) (stream : StreamId).

(** ** Extending a history by one commit *)

(** The builder after [k] events of a commit of [n], pushed onto [b] *)
Definition extended (b : HistoryBuilder) (n : N) (k : N) (b' : HistoryBuilder) : Prop :=
  if k =? 0 then b' = b
  else if k =? n then hb_pending b' = None
       ∧ ∃ c, hb_history b' = history_push_commit (hb_history b) c ∧ len (cm_events c) = n
  else hb_history b' = hb_history b
       ∧ ∃ p, hb_pending b' = Some p ∧ len (pc_events p) = k ∧ pc_event_count p = n.

Lemma builder_push_extended b n k b1 d b2 :
  builder_ok stream b1 → decoded_ok stream d → hb_pending b = None → k < n → extended b n k b1 →
  de_event_count (dse_decoded d) = n → builder_push b1 d = Ok b2 → extended b n (k + 1) b2.
Proof.
  intros Hb1 Hd Hi Hk Hx Hn H.
  assert (∃ p, len (pc_events p) = k + 1 ∧ pc_event_count p = n ∧ hb_history b1 = hb_history b
    ∧ (if is_complete p then hb_pending b2 = None ∧ ∃ c, PendingCommit_finish p = Ok c
                             ∧ hb_history b2 = history_push_commit (hb_history b) c
       else hb_history b2 = hb_history b ∧ hb_pending b2 = Some p)) as (p & Hl & Hc & Hh & Hp).
  { unfold builder_push in H. guards.
    match goal with x : (gset OperationId * gset CommitId * PendingCommit)%type |- _ =>
      destruct x as [[ops cids] p] end.
    match goal with H : builder_pending _ _ _ _ = _ |- _ => rename H into Hbp end.
    exists p. assert (len (pc_events p) = k + 1 ∧ pc_event_count p = n ∧ hb_history b1 = hb_history b)
      as (? & ? & Hh).
    { unfold extended in Hx. unfold builder_pending in Hbp. destruct (N.eqb_spec k 0) as [->|Hk0].
      - subst b1. rewrite Hi in Hbp. destruct (_ =? 0); [|done]. guards. simplify_eq.
        match goal with H : PendingCommit_new _ _ _ = Ok _ |- _ =>
          unfold PendingCommit_new in H; apply rbind_Ok in H as (? & _ & [= <-]) end.
        split_and!; done.
      - rewrite (proj2 (N.eqb_neq k n)) in Hx by lia. destruct Hx as (Hh & q & Hq & Hql & Hqn).
        rewrite Hq in Hbp. destruct (_ =? 0); [done|]. guards. simplify_eq.
        match goal with H : PendingCommit_push _ _ _ _ = Ok _ |- _ =>
          unfold PendingCommit_push in H; guards end.
        cbn [pc_events pc_event_count]. rewrite len_app. by split_and!. }
    destruct (is_complete p); guards; cbn [hb_history hb_pending]; rewrite Hh; split_and!; try done.
    by eexists. }
  unfold extended. rewrite (proj2 (N.eqb_neq (k + 1) 0)) by lia. unfold is_complete in Hp.
  rewrite Hl, Hc in Hp. destruct (k + 1 =? n) eqn:E; bool_step.
  - destruct Hp as (Hp & c & Hf & Hhist). split; [done|]. exists c. split; [done|].
    apply PendingCommit_finish_Ok in Hf as (? & ? & _ & _ & -> & _). cbn. lia.
  - destruct Hp as [Hp Hpe]. split; [done|]. exists p. by split_and!.
Qed.

Definition extend_steps (previous : History) (last : N) (batch_id : string) (n : N)
    (lookup : N → result RawMessage EventStoreError) (s : HistoryBuilder * N) (k : nat) :=
  try_fold (λ s _, extend_step config stream (stream_subject config stream) previous last batch_id n lookup s)
    s (replicate k tt).

Lemma extend_steps_ok previous last batch_id n lookup b k j s s' :
  hb_pending b = None → N.of_nat k + j = n → builder_ok stream s.1 → extended b n j s.1 →
  extend_steps previous last batch_id n lookup s k = Ok s' →
  builder_ok stream s'.1 ∧ extended b n n s'.1.
Proof.
  intros Hi. revert j s; induction k as [|k IH]; intros j s Hk Hs Hx; unfold extend_steps; cbn.
  - intros [= <-]. replace n with j at 2 by lia. done.
  - intros H. apply rbind_Ok in H as (s1 & H1 & H). unfold extend_step in H1. guards.
    match goal with H : decode_event _ _ _ _ _ _ _ = Ok _ |- _ => apply decode_event_ok in H as (_ & Hd & _) end.
    match goal with H : builder_push _ _ = Ok _ |- _ => rename H into Hp end.
    pose proof (builder_push_ok _ _ _ _ Hs Hd Hp) as [Hs1 _].
    assert (j < n) as Hj by lia.
    apply (IH (j + 1)) in H; [done|lia|done|]. by eapply (builder_push_extended b n j s.1).
Qed.

(** The messages the lookups answered, one after the other: each is the first one
    after the sequence of the one before. *)
Fixpoint reads (lookup : N → result RawMessage EventStoreError) (last : N) (messages : list RawMessage) : Prop :=
  match messages with
  | [] => True
  | m :: messages => lookup (last + 1) = Ok m ∧ last < rm_sequence m ∧ reads lookup (rm_sequence m) messages
  end.

(** A history read back: [previous], extended by the [n] messages the lookups
    answered, each of them an event of the batch on the subject of the stream *)
Record read_back (previous : History) (last : N) (batch_id : string) (n : N)
    (lookup : N → result RawMessage EventStoreError) (h : History) : Prop := {
  rb_history : extend_history config stream previous last batch_id n lookup = Ok h;
  rb_messages : ∃ messages, len messages = n ∧ reads lookup (nh_last_subject_stream_sequence previous) messages
    ∧ Forall (λ m, rm_subject m = stream_subject config stream ∧ rm_sequence m <= last
        ∧ ∃ d, decode_event config (stream_subject config stream) stream
                 (Some (nh_last_subject_stream_sequence previous)) (rm_sequence m) (rm_headers m) (rm_payload m) = Ok d
          ∧ de_batch_id (dse_decoded d) = batch_id) messages;
}.

Lemma extend_steps_read previous last batch_id n lookup s s' k :
  extend_steps previous last batch_id n lookup s k = Ok s' →
  ∃ messages, length messages = k ∧ reads lookup s.2 messages
    ∧ Forall (λ m, rm_subject m = stream_subject config stream ∧ rm_sequence m <= last
        ∧ ∃ d, decode_event config (stream_subject config stream) stream
                 (Some (nh_last_subject_stream_sequence previous)) (rm_sequence m) (rm_headers m) (rm_payload m) = Ok d
          ∧ de_batch_id (dse_decoded d) = batch_id) messages.
Proof.
  revert s. induction k as [|k IH]; intros s; unfold extend_steps; cbn; [by exists []|].
  intros (s1 & H1 & H)%rbind_Ok. destruct (IH s1 H) as (messages & Hl & Hr & Hf).
  unfold extend_step in H1. guards. subst.
  match goal with H : checked_add _ _ _ = Some _ |- _ => apply checked_add_Some in H as [-> _] end.
  eexists (_ :: messages). split; [done|]. split.
  - cbn [reads]. split; [eassumption|]. split; [lia|exact Hr].
  - constructor; [|done]. split; [done|]. split; [lia|]. by eexists.
Qed.

Lemma extend_history_read previous last batch_id n lookup h :
  extend_history config stream previous last batch_id n lookup = Ok h →
  read_back previous last batch_id n lookup h.
Proof.
  intros H. split; [done|]. unfold extend_history in H. fold (stream_subject config stream) in H.
  apply rbind_Ok in H as (s & Hs & _). apply extend_steps_read in Hs as (messages & Hl & Hr & Hf).
  exists messages. split; [unfold len; lia|]. by split.
Qed.

Lemma extend_history_ok previous last batch_id n lookup h :
  subject_history_ok stream previous →
  extend_history config stream previous last batch_id n lookup = Ok h →
  subject_history_ok stream h ∧ nh_last_subject_stream_sequence h = last
  ∧ ∃ c, nh_commits h = nh_commits previous ++ [c] ∧ nh_events h = nh_events previous ++ cm_events c
    ∧ nh_sequences h = nh_sequences previous ++ cm_sequences c
    ∧ len (cm_events c) = n.
Proof.
  intros Hprev H. unfold extend_history in H. fold (stream_subject config stream) in H. guards.
  match goal with H : try_fold _ _ _ = Ok ?x |- _ => destruct x as [b seq]; rename H into Hf end.
  pose proof (from_history_ok _ _ Hprev) as Hok.
  assert (extended (from_history previous) n 0 (from_history previous)) as Hx by done.
  apply (extend_steps_ok _ _ _ _ _ (from_history previous) _ 0) in Hf as [Hb Hext]; try done; [|lia].
  cbn [fst snd] in *. apply (finish_ok stream) in H as (Hh & -> & _ & Ec & Ee & Es & _); [|done].
  split; [done|]. split; [done|]. unfold extended in Hext.
  rewrite (proj2 (N.eqb_neq n 0)), N.eqb_refl in Hext by done.
  destruct Hext as (_ & c & Hhist & Hlen). exists c. rewrite Ec, Ee, Es, Hhist. done.
Qed.

Lemma verify_published_commit_ok previous last batch_id commit expected lookup :
  subject_history_ok stream previous →
  verify_published_commit config stream previous last batch_id commit expected lookup = Ok tt →
  ∃ h c, extend_history config stream previous last batch_id (len expected) lookup = Ok h
    ∧ subject_history_ok stream h ∧ nh_last_subject_stream_sequence h = last
    ∧ nh_commits h = nh_commits previous ++ [c] ∧ nh_events h = nh_events previous ++ expected
    ∧ cm_events c = expected ∧ eb_commit_id (cm_batch c) = commit.
Proof.
  intros Hprev H. unfold verify_published_commit in H. guards.
  match goal with H : extend_history _ _ _ _ _ _ _ = Ok ?x |- _ => exists x; rename H into Hx end.
  destruct (extend_history_ok _ _ _ _ _ _ Hprev Hx) as (Hh & Hl & c & Hc & He & _ & _).
  exists c. rewrite Hc, last_snoc in *.
  case_bool_decide; [|done]. simplify_eq. rewrite He.
  by split_and!.
Qed.

(** ** Recording *)

Lemma nats_record_event_Ok batch count v acc i e out :
  nats_record_event stream batch count (mkStreamVersion v, acc) (i, e) = Ok out ↔
  v + 1 <= u64_max ∧ i <= u32_max ∧ new_event_ok e ∧ i < count <= MAX_EVENTS_PER_BATCH
  ∧ out = (mkStreamVersion (v + 1), acc ++ [from_new stream (mkStreamVersion (v + 1)) batch i count e]).
Proof.
  assert (∀ r, r = mkRecordedEvent None stream (mkStreamVersion (v + 1)) (ne_event_id e) (eb_commit_id batch)
    (eb_operation_id batch) (eb_operation_fingerprint batch) i count None None (ne_event_type e)
    (ne_schema_version e) (ne_payload e) →
    (let r := match eb_correlation_id batch with Some c => recorded_with_correlation_id r c | None => r end in
     let r := match eb_causation_id batch with Some c => recorded_with_causation_id r c | None => r end in
     match eb_actor batch with Some a => recorded_with_actor r a | None => r end)
    = from_new stream (mkStreamVersion (v + 1)) batch i count e) as Hr.
  { intros r ->. unfold from_new.
    by destruct (eb_correlation_id batch), (eb_causation_id batch), (eb_actor batch). }
  cbn zeta in Hr. unfold nats_record_event; cbn [fst snd]. split.
  - intros H. guards.
    match goal with H : version_next _ = Some _ |- _ => apply version_next_Some in H as [-> Hv]; cbn in Hv end.
    match goal with H : try_from _ _ = Some _ |- _ => apply try_from_Some in H as [-> Hi] end.
    match goal with H : new_in_commit _ _ _ _ _ _ _ _ _ _ _ = Ok ?r |- _ =>
      apply new_in_commit_Ok in H as (Er & _ & Hc & Hn) end.
    cbn [version_value] in *. rewrite (Hr _ Er). unfold new_event_ok. destruct e; cbn in *. split_and!; try done; apply Hc.
  - intros (Hv & Hi & Hn & Hc & ->).
    rewrite (proj2 (version_next_Some (mkStreamVersion v) (mkStreamVersion (v + 1)))) by done.
    cbn [ok_or rbind]. rewrite (proj2 (try_from_Some _ _ i)) by done. cbn [ok_or rbind].
    rewrite new_in_commit_of_new by (done || lia). cbn [map_err rbind]. by rewrite (Hr _ eq_refl).
Qed.

Lemma nats_record_events_Ok batch count i v acc l out :
  try_fold (nats_record_event stream batch count) (mkStreamVersion v, acc)
    (enumerate_from (N.of_nat i) l) = Ok out ↔
  (l = [] ∨ v + len l <= u64_max) ∧ Forall new_event_ok l
  ∧ (l = [] ∨ N.of_nat i + len l <= u32_max + 1 ∧ N.of_nat i + len l <= count ∧ count <= MAX_EVENTS_PER_BATCH)
  ∧ out = (mkStreamVersion (v + len l),
           acc ++ imap (λ j e, from_new stream (mkStreamVersion (v + N.of_nat j + 1)) batch
                                 (N.of_nat (i + j)) count e) l).
Proof.
  revert i v acc; induction l as [|e l IH]; intros i v acc; cbn [enumerate_from try_fold imap].
  - rewrite app_nil_r, len_nil, N.add_0_r. naive_solver.
  - assert (imap ((λ j e0, from_new stream (mkStreamVersion (v + N.of_nat j + 1)) batch
              (N.of_nat (i + j)) count e0) ∘ S) l
      = imap (λ j e0, from_new stream (mkStreamVersion (v + 1 + N.of_nat j + 1)) batch
              (N.of_nat (S i + j)) count e0) l) as Hs.
    { apply imap_ext. intros j x _. cbn. do 2 f_equal; [f_equal|]; lia. }
    rewrite rbind_Ok, len_cons. cbn [imap].
    rewrite Hs, N.add_0_r, Nat.add_0_r. rewrite Forall_cons.
    replace (N.of_nat i + 1) with (N.of_nat (S i)) by lia. split.
    + intros (x & (Hv & Hi & He & Hc & ->)%nats_record_event_Ok & H). apply IH in H as (H1 & H2 & H3 & ->).
      replace (v + 1 + len l) with (v + (len l + 1)) by lia. rewrite <- app_assoc. cbn [app].
      split_and!; try done; right; destruct H1 as [?|], H3 as [?|]; try subst l; unfold len, MAX_EVENTS_PER_BATCH in *; cbn [length] in *; lia.
    + intros (H1 & [He H2] & H3 & ->). destruct H1 as [|H1], H3 as [|H3]; try done.
      eexists. split; [apply nats_record_event_Ok; split_and!; try done; lia|]. apply IH.
      replace (v + 1 + len l) with (v + (len l + 1)) by lia. rewrite <- app_assoc. cbn [app].
      split_and!; try done; right; lia.
Qed.

Lemma nats_record_batch_Ok v batch evs :
  nats_record_batch stream (mkStreamVersion v) batch = Ok evs ↔
  0 < len (eb_events batch) <= MAX_EVENTS_PER_BATCH ∧ v + len (eb_events batch) <= u64_max
  ∧ Forall new_event_ok (eb_events batch) ∧ evs = record_group stream v batch.
Proof.
  unfold nats_record_batch, enumerate. rewrite rbind_Ok. setoid_rewrite ok_or_Ok. setoid_rewrite try_from_Some.
  setoid_rewrite rbind_Ok. setoid_rewrite (nats_record_events_Ok batch _ 0). unfold RecordedBatch_new.
  unfold record_group, MAX_EVENTS_PER_BATCH, u32_max. split.
  - intros (c & [-> Hl] & x & (H1 & H2 & H3 & ->) & H). cbn [snd app] in H. guards.
    destruct (eb_events batch) as [|e l]; [done|]. destruct H1 as [|H1], H3 as [|H3]; try done.
    split_and!; try done; rewrite ?len_cons in *; lia.
  - intros (Hl & Hv & Hn & ->). exists (len (eb_events batch)). split; [split; [done|lia]|].
    eexists. split; [split_and!; [by right|done|right; lia|done]|]. cbn [snd app].
    rewrite (proj2 (N.eqb_neq _ 0)); [done|]. unfold len. rewrite length_imap. unfold len in Hl. lia.
Qed.

(** A group determines its batch. *)
Lemma record_group_inj v b1 b2 :
  eb_events b1 ≠ [] → record_group stream v b1 = record_group stream v b2 → b1 = b2.
Proof.
  intros Hne E.
  assert (length (eb_events b1) = length (eb_events b2)) as Hl
    by (by rewrite <- (length_record_group stream v b1), E, length_record_group).
  assert (eb_events b1 = eb_events b2) as He.
  { apply list_eq. intros i.
    destruct (eb_events b1 !! i) as [n1|] eqn:E1; cycle 1.
    { symmetry. apply lookup_ge_None. apply lookup_ge_None in E1. lia. }
    assert (is_Some (eb_events b2 !! i)) as [n2 E2].
    { apply lookup_lt_is_Some. apply lookup_lt_Some in E1. lia. }
    rewrite E2. f_equal. pose proof (f_equal (λ l, l !! i) E) as Ei. cbn in Ei. unfold record_group in Ei.
    rewrite !list_lookup_imap, E1, E2 in Ei. cbn in Ei. destruct n1, n2. unfold from_new in Ei. cbn in Ei. congruence. }
  destruct (eb_events b1) as [|e l] eqn:E1; [done|]. unfold record_group in E. rewrite <- He, E1 in E. cbn in E.
  injection E as Ha Hc Ho Hf Hco Hca _. destruct b1, b2. cbn in *. congruence.
Qed.
End Facts.

(** ** Appending *)

Section Append.
Context `{SHA : Sha256} `{WJ : Json StoredEventWire} `{CJ : Json ChecksumInput} `{B64 : Base64}.
Context `{HM : HeaderMapApi} `{HN : AtomicHeaderNames} `{EC : ErrorCodes} `{AJ : AckJson}.
Context (config : NatsEventStoreConfig) (stream : StreamId).

(** The messages of an atomic batch as they are sent, from [index] on *)
Definition atomic_sent (batch_id : string) (corr : option string) (total index : N)
    (messages : list AtomicPublishMessage) : list SentMessage :=
  imap (λ j m, mkSentMessage (apm_subject m) (atomic_headers config batch_id corr total (index + N.of_nat j) m)
                 (apm_payload m)) messages.

Lemma atomic_sent_cons batch_id corr total index m messages :
  atomic_sent batch_id corr total index (m :: messages)
  = mkSentMessage (apm_subject m) (atomic_headers config batch_id corr total index m) (apm_payload m)
    :: atomic_sent batch_id corr total (index + 1) messages.
Proof.
  unfold atomic_sent. cbn [imap]. rewrite N.add_0_r. f_equal. apply imap_ext. intros j x _. cbn. do 2 f_equal. lia.
Qed.

(** Only a prefix of the batch is ever sent, all of it where it is
    acknowledged, and the acknowledgement is the reply to the last message. *)
Lemma publish_from_spec batch_id corr total reply index messages sent r :
  index + len messages = total → total < usize_max →
  publish_from config batch_id corr total reply index messages = (sent, r) →
  sent `prefix_of` atomic_sent batch_id corr total index messages
  ∧ ∀ ack, r = Ok ack →
    sent = atomic_sent batch_id corr total index messages
    ∧ ∃ payload, reply (total - 1) = Ok payload ∧ decode_atomic_publish_response payload = Ok ack.
Proof.
  revert index sent r; induction messages as [|m messages IH]; intros index sent r Hl Hu; cbn [publish_from].
  - intros [= <- <-]. split; [apply prefix_nil|done].
  - rewrite len_cons in Hl. rewrite (proj2 (checked_add_Some _ _ _ (index + 1))) by (split; [done|lia]).
    rewrite atomic_sent_cons. set (x := mkSentMessage _ _ _).
    assert ([x] `prefix_of` x :: atomic_sent batch_id corr total (index + 1) messages) as Hx
      by (apply prefix_cons, prefix_nil).
    destruct (reply index) as [payload|e] eqn:Er; [|by intros [= <- <-]].
    destruct (N.eqb_spec (index + 1) total) as [E|Hne]; cbn [negb].
    + destruct messages; [|rewrite len_cons in Hl; lia].
      destruct (len payload =? 0); intros [= <- <-]; [done|]. split; [done|]. intros ack Ha.
      split; [done|]. exists payload. by replace (total - 1) with index by lia.
    + destruct (len payload =? 0).
      * destruct (publish_from _ _ _ _ _ (index + 1) messages) as [rest r'] eqn:Ep. intros [= <- <-].
        apply IH in Ep as [Hp Hok]; [|lia..]. split; [by apply prefix_cons|].
        intros ack Ha. destruct (Hok _ Ha) as [-> ?]. done.
      * intros [= <- <-]. split; [done|]. by destruct (decode_atomic_publish_response payload).
Qed.

Lemma nats_same_batch_eq b1 b2 : nats_same_batch b1 b2 = true ↔ b1 = b2.
Proof.
  unfold nats_same_batch. destruct b1, b2. cbn. rewrite !andb_true_iff, !bool_decide_eq_true.
  split; [intuition congruence|by intros [= -> -> -> -> -> -> ->]].
Qed.

(** An operation is found again only with the content it was recorded with;
    otherwise none of the batch's identities is in the history. *)
Lemma resolve_existing_Ok h batch r :
  resolve_existing h batch = Ok r →
  match r with
  | Some events => ∃ c, c ∈ nh_commits h ∧ cm_transaction c = None ∧ cm_batch c = batch ∧ events = cm_events c
  | None => (∀ c, c ∈ nh_commits h → eb_operation_id (cm_batch c) ≠ eb_operation_id batch
                                  ∧ eb_commit_id (cm_batch c) ≠ eb_commit_id batch)
            ∧ ∀ e n, e ∈ nh_events h → n ∈ eb_events batch → re_event_id e ≠ ne_event_id n
  end.
Proof.
  unfold resolve_existing. destruct (find _ _) as [c|] eqn:Ef.
  - apply find_some in Ef as [Hin%list_elem_of_In _]. destruct (cm_transaction c) eqn:Et; [done|]. cbn [is_some].
    destruct (nats_same_batch (cm_batch c) batch) eqn:Eb; [|done]. intros [= <-].
    apply nats_same_batch_eq in Eb. by exists c.
  - destruct (existsb (λ c, bool_decide (eb_commit_id (cm_batch c) = _)) _) eqn:Hc; [done|].
    destruct (existsb _ (eb_events batch)) eqn:He; [done|]. intros [= <-]. split.
    + intros c Hin%list_elem_of_In. split; intros E.
      * by apply (find_none _ _ Ef c) in Hin as Hx%bool_decide_eq_false.
      * eapply existsb_false in Hc; [|exact Hin]. by apply bool_decide_eq_false in Hc.
    + intros e n Hin%list_elem_of_In Hn%list_elem_of_In E.
      eapply existsb_false in He; [|exact Hn]. eapply existsb_false in He; [|exact Hin].
      by apply bool_decide_eq_false in He.
Qed.

Lemma nats_validate_derived_eq batch :
  nats_validate_derived_identities stream batch = validate_derived_identities stream batch.
Proof.
  unfold nats_validate_derived_identities, validate_derived_identities.
  case_bool_decide as E; cbn [negb]; [by rewrite E|done].
Qed.

(** What [prepare_append] settles before anything is sent *)
Record append_prepared (expected : ExpectedVersion) (batch : EventBatch) (history : History)
    (p : PreparedAppend) : Prop := {
  ap_expected : match expected with
                | NoStream => nh_events history = []
                | Exact v => v = mkStreamVersion (len (nh_events history)) ∧ nh_events history ≠ []
                end;
  ap_batch : 0 < len (eb_events batch) <= MAX_EVENTS_PER_BATCH;
  ap_room : len (nh_events history) + len (eb_events batch) <= u64_max;
  ap_derived : derived stream batch;
  ap_commits : ∀ c, c ∈ nh_commits history → eb_operation_id (cm_batch c) ≠ eb_operation_id batch
                                           ∧ eb_commit_id (cm_batch c) ≠ eb_commit_id batch;
  ap_events : ∀ e n, e ∈ nh_events history → n ∈ eb_events batch → re_event_id e ≠ ne_event_id n;
  ap_recorded : pa_recorded p = record_group stream (len (nh_events history)) batch;
  ap_subject : pa_subject p = stream_subject config stream;
  ap_payloads : ∃ payloads, encode_events config stream batch (pa_recorded p) = Ok payloads
    ∧ pa_events p = zip ((λ e, ident_str (re_event_id e)) <$> pa_recorded p) payloads
    ∧ Forall (λ payload, len payload <= limit_value (nc_max_event_bytes config)) payloads
    ∧ length payloads = length (eb_events batch);
  ap_count : pa_recorded_count p = len (eb_events batch);
}.

Lemma match_expected_Ok expected h :
  subject_history_ok stream h →
  expected ≠ Exact version_zero → match_expected_version expected (nats_current_version (nh_events h)) = Ok tt →
  match expected with
  | NoStream => nh_events h = []
  | Exact v => v = mkStreamVersion (len (nh_events h)) ∧ nh_events h ≠ []
  end.
Proof.
  intros Hh Hz. rewrite (commits_current_version stream) by done. unfold match_expected_version, version_zero.
  destruct expected as [|v]; case_bool_decide as E; try done; intros _.
  - injection E as E. by apply len_0.
  - split; [done|]. intros E0. apply Hz. rewrite E, E0. done.
Qed.

Lemma prepare_append_Ok expected batch history receipt r :
  subject_history_ok stream history →
  prepare_append config stream expected batch history receipt = Ok r →
  match r with
  | inl o => ∃ c, c ∈ nh_commits history ∧ cm_transaction c = None ∧ cm_batch c = batch
                  ∧ o = ExactReplay (cm_events c)
  | inr p => append_prepared expected batch history p
  end.
Proof.
  intros Hh H. unfold prepare_append in H. destruct (is_some_and _ receipt); [done|].
  apply rbind_Ok in H as (ex & Hex & H). apply resolve_existing_Ok in Hex.
  destruct ex as [evs|].
  - injection H as <-. destruct Hex as (c & ? & ? & ? & ->). by exists c.
  - destruct Hex as [Hc He]. case_bool_decide as Hz; [done|].
    apply rbind_Ok in H as ([] & Hd & H). apply rbind_Ok in H as ([] & Hm & H).
    apply (match_expected_Ok _ _ Hh Hz) in Hm. rewrite nats_validate_derived_eq in Hd.
    apply rbind_Ok in H as (recorded & Hr & H). rewrite (commits_current_version stream) in Hr by done.
    apply nats_record_batch_Ok in Hr as (Hlen & Hroom & _ & ->).
    apply validate_derived_Ok in Hd; [|unfold MAX_EVENTS_PER_BATCH in Hlen; unfold u32_max; lia].
    apply rbind_Ok in H as (payloads & Hp & H). destruct (existsb _ payloads) eqn:Hx; [done|].
    destruct (N.eqb_spec (len payloads) (len (record_group stream (len (nh_events history)) batch))) as [El|]; [|done].
    cbn [negb] in H. apply rbind_Ok in H as (n & Hn%ok_or_Ok%try_from_Some & [= <-]).
    unfold len in El, Hn. rewrite length_record_group in El, Hn. apply Nat2N.inj in El.
    split; cbn [pa_recorded pa_subject pa_events pa_recorded_count]; try done.
    + exists payloads. split_and!; try done. apply Forall_forall. intros x Hin%list_elem_of_In.
      eapply existsb_false in Hx; [|exact Hin]. by apply N.ltb_ge in Hx.
    + unfold len. by destruct Hn.
Qed.

Lemma resolve_expectation_race_Ok batch a o :
  resolve_expectation_race stream batch a = Ok o →
  ∃ h c, aa_race_history a = Ok h ∧ c ∈ nh_commits h ∧ cm_transaction c = None ∧ cm_batch c = batch
    ∧ o = ExactReplay (cm_events c).
Proof.
  unfold resolve_expectation_race. intros H. apply rbind_Ok in H as (h & Hh & H).
  apply rbind_Ok in H as (receipt & _ & H). destruct (is_some_and _ receipt); [done|].
  apply rbind_Ok in H as (ex & Hex & H). apply resolve_existing_Ok in Hex. destruct ex as [evs|]; [|done].
  injection H as <-. destruct Hex as (c & ? & ? & ? & ->). by exists h, c.
Qed.

(** The messages a prepared append publishes *)
Definition append_messages (history : History) (batch : EventBatch) (inbox : string) (p : PreparedAppend)
  : list SentMessage :=
  atomic_sent (new_atomic_batch_id inbox (eb_commit_id batch)) (id_str <$> eb_correlation_id batch)
    (len (pa_events p)) 0
    (atomic_batch_messages (stream_subject config stream) (nh_last_subject_stream_sequence history) (pa_events p)).

Lemma append_sent expected batch history p a sent ack :
  append_prepared expected batch history p →
  publish_atomic_batch config (pa_subject p) (nh_last_subject_stream_sequence history)
    (new_atomic_batch_id (aa_inbox a) (eb_commit_id batch)) (id_str <$> eb_correlation_id batch)
    (pa_events p) (aa_reply a) = (sent, Ok ack) →
  sent = append_messages history batch (aa_inbox a) p.
Proof.
  intros [_ Hlen _ _ _ _ Hr -> (payloads & _ & He & _ & Hp) _] H.
  unfold publish_atomic_batch, publish_atomic_messages in H.
  assert (len (atomic_batch_messages (stream_subject config stream) (nh_last_subject_stream_sequence history)
    (pa_events p)) = len (pa_events p)) as El
    by (unfold atomic_batch_messages, enumerate, len; by rewrite length_map, length_enumerate_from).
  rewrite El in H. apply publish_from_spec in H as [_ H]; [by apply (H ack)|by rewrite El|].
  rewrite He, Hr. unfold len in *. rewrite length_zip_with, length_fmap, length_record_group, Hp.
  unfold MAX_EVENTS_PER_BATCH in Hlen. change usize_max with (2 ^ 64 - 1). lia.
Qed.

Lemma append_verified expected batch history p sequence batch_id lookup :
  subject_history_ok stream history → append_prepared expected batch history p →
  nh_last_subject_stream_sequence history < sequence →
  verify_published_commit config stream history sequence batch_id (eb_commit_id batch) (pa_recorded p) lookup = Ok tt →
  ∃ h c, read_back config stream history sequence batch_id (len (pa_recorded p)) lookup h ∧ subject_history_ok stream h
    ∧ nh_last_subject_stream_sequence h = sequence ∧ nh_commits h = nh_commits history ++ [c]
    ∧ cm_batch c = batch ∧ nh_events h = nh_events history ++ pa_recorded p.
Proof.
  intros Hh Hp Hs Hv. apply verify_published_commit_ok in Hv as (h & c & Hx & Hok & Hl & Hc & He & Hce & _); [|done].
  exists h, c. split_and!; try done; [by apply extend_history_read|].
  pose proof (sh_commits _ _ Hok) as Hcs. rewrite Hc in Hcs. apply commits_ok_snoc_inv in Hcs.
  rewrite <- (sh_events _ _ Hh) in Hcs. pose proof (co_events _ _ _ Hcs) as E.
  rewrite Hce, (ap_recorded _ _ _ _ Hp), N.add_0_l in E. symmetry. eapply record_group_inj, E.
  intros E0. pose proof (ap_batch _ _ _ _ Hp) as [Hne _]. by rewrite E0 in Hne.
Qed.

(** C31 (safety). Whatever the server answers, an append that reports its
    events appended has sent exactly its whole batch as one atomic batch,
    conditioned on the last sequence it read; the expected version held, none of
    the batch's identities was in the history, and the stream was read back: the
    messages its lookups answered, one after the other from the end of that history
    to the acknowledged sequence, are the events of this batch on this subject and
    extend the history by one commit of exactly this batch. An append
    that reports a replay found that very batch as a direct commit of a history
    it read, and returns the events stored for it. *)
Theorem appended_commit_is_stored expected batch history a sent outcome :
  subject_history_ok stream history →
  append_with_history config stream expected batch history a = (sent, Ok outcome) →
  match outcome with
  | Appended events =>
    ∃ p, append_prepared expected batch history p ∧ events = pa_recorded p
      ∧ sent = append_messages history batch (aa_inbox a) p
      ∧ ∃ sequence h c,
          read_back config stream history sequence (new_atomic_batch_id (aa_inbox a) (eb_commit_id batch)) (len events)
            (aa_lookup a) h
          ∧ nh_last_subject_stream_sequence history < sequence
          ∧ subject_history_ok stream h ∧ nh_last_subject_stream_sequence h = sequence
          ∧ nh_commits h = nh_commits history ++ [c]
          ∧ cm_batch c = batch ∧ nh_events h = nh_events history ++ events
  | ExactReplay events =>
    ∃ h c, (h = history ∨ aa_race_history a = Ok h) ∧ c ∈ nh_commits h
      ∧ cm_transaction c = None ∧ cm_batch c = batch ∧ events = cm_events c
  end.
Proof.
  intros Hh H. unfold append_with_history in H.
  destruct (rbind _ _) as [[o|p]|e] eqn:Ep; [| |done]; apply rbind_Ok in Ep as (receipt & _ & Ep);
    apply prepare_append_Ok in Ep; try done.
  - injection H as <- <-. destruct Ep as (c & ? & ? & ? & ->). exists history, c. by split_and!; [left|..].
  - destruct (publish_atomic_batch _ _ _ _ _ _ _) as [s published] eqn:Epub. injection H as <- H.
    assert (resolve_expectation_race stream batch a = Ok outcome →
      ∃ h c, aa_race_history a = Ok h ∧ c ∈ nh_commits h ∧ cm_transaction c = None ∧ cm_batch c = batch
        ∧ outcome = ExactReplay (cm_events c)) as Hrace by apply resolve_expectation_race_Ok.
    destruct published as [ack|[|error]]; cycle 1.
    { apply Hrace in H as (h & c & ? & ? & ? & ? & ->). exists h, c. by split_and!; [right|..]. }
    { case_bool_decide; [|done]. destruct (resolve_expectation_race stream batch a) as [o|]; [|by destruct (_ || _)].
      injection H as ->. destruct (Hrace eq_refl) as (h & c & ? & ? & ? & ? & ->). exists h, c. by split_and!; [right|..]. }
    destruct (append_acknowledged _ _ _ _ _) eqn:Ea; [|done]. apply rbind_Ok in H as ([] & Hv & [= <-]).
    exists p. split; [done|]. split; [done|]. split; [by eapply append_sent|].
    assert (nh_last_subject_stream_sequence history < apa_sequence ack) as Hlt
      by (unfold append_acknowledged in Ea; bool_step; lia).
    destruct (append_verified _ _ _ _ _ _ _ Hh Ep Hlt Hv) as (h & c & Hread & Hrest).
    by exists (apa_sequence ack), h, c.
Qed.
End Append.

(** ** An append reaches its end *)

Section Live.
Context `{SHA : Sha256} `{WJ : Json StoredEventWire} `{CJ : Json ChecksumInput} `{B64 : Base64}.
Context `{HM : HeaderMapApi} `{HN : AtomicHeaderNames} `{EC : ErrorCodes} `{AJ : AckJson}.
Context (config : NatsEventStoreConfig) (stream : StreamId).

(** ** Server behaviour *)

(** The server acknowledges nothing before the last message of a batch, and
    that one with [ack]. *)
Record acknowledges (total : N) (reply : N → result (list byte) string) (ack : AtomicPublishAck) : Prop := {
  ak_before : ∀ i, i + 1 < total → reply i = Ok [];
  ak_final : ∃ payload, reply (total - 1) = Ok payload ∧ payload ≠ [] ∧ ack_from_slice payload = Ok (inl ack);
}.

(** The server holds the messages of a batch from the sequence [first] on, as
    the next ones of their subject after [last]. *)
Definition holds (last first : N) (sent : list SentMessage) (lookup : N → result RawMessage EventStoreError)
  : Prop :=
  ∀ (i : nat) m, sent !! i = Some m →
    ∀ from, (if decide (i = 0%nat) then last + 1 else first + N.of_nat i) = from →
    lookup from = Ok (mkRawMessage (first + N.of_nat i) (sm_subject m) (sm_headers m) (sm_payload m)).

(** ** Publishing *)

Lemma publish_from_acknowledged batch_id corr total reply ack index messages :
  acknowledges total reply ack → messages ≠ [] → index + len messages = total → total < usize_max →
  publish_from config batch_id corr total reply index messages
  = (atomic_sent config batch_id corr total index messages, Ok ack).
Proof.
  intros [Hb (payload & Hr & Hne & Hs)]. revert index.
  induction messages as [|m messages IH]; intros index Hm Hl Hu; [done|].
  rewrite len_cons in Hl. cbn [publish_from]. rewrite atomic_sent_cons.
  rewrite (proj2 (checked_add_Some _ _ _ (index + 1))) by (split; [done|lia]).
  destruct (N.eqb_spec (index + 1) total) as [E|Hmore]; cbn [negb].
  - assert (messages = []) as -> by (apply len_0; lia).
    replace index with (total - 1) at 1 by lia. rewrite Hr.
    rewrite (proj2 (N.eqb_neq _ 0)) by (by rewrite len_0).
    unfold decode_atomic_publish_response. by rewrite Hs.
  - rewrite Hb by lia. change (len [] =? 0) with true. cbn iota.
    rewrite IH; [done|intros ->; change (len []) with 0 in Hl; lia|lia|done].
Qed.

(** ** Verifying *)

(** One message of the batch is read back and pushed. *)
Lemma extend_step_wire previous b w last i payload e lookup n :
  wire_ok config stream (len (nh_events previous)) last w →
  pub_transaction (pw_published w) = None →
  pub_ok stream b (len (nh_events previous)) (pw_published w) →
  nh_last_subject_stream_sequence previous = last →
  pw_payloads w !! i = Some payload → eb_events (pub_batch (pw_published w)) !! i = Some e →
  n = len (eb_events (pub_batch (pw_published w))) →
  let first := pub_first (pw_published w) in
  let here := if decide (i = 0%nat) then last else first + N.of_nat i - 1 in
  lookup (here + 1) = Ok (mkRawMessage (first + N.of_nat i) (stream_subject config stream)
                            (wire_headers config stream w last i payload) payload) →
  extend_step config stream (stream_subject config stream) previous
    (first + n - 1) (pub_batch_id (pw_published w)) n lookup
    (reading_at stream b (len (nh_events previous)) (pw_published w) i, here)
  = Ok (reading_at stream b (len (nh_events previous)) (pw_published w) (S i), first + N.of_nat i).
Proof.
  intros Hw Htr Hp Hlast Hi He -> first here Hlk. unfold extend_step; cbn [fst snd].
  pose proof (wo_first _ _ _ _ _ Hw) as [Hf0 Hf]. fold first in Hf0, Hf.
  pose proof (lookup_lt_Some _ _ _ He) as Hlt. unfold len in Hf |- *.
  assert (here + 1 <= first + N.of_nat i) as Hh by (unfold here; case_decide; lia).
  rewrite (proj2 (checked_add_Some _ _ _ (here + 1))) by (split; [done|lia]). cbn [ok_or rbind].
  rewrite Hlk. cbn [rbind rm_subject rm_sequence rm_headers rm_payload]. rewrite String.eqb_refl. cbn [negb orb].
  rewrite (proj2 (N.ltb_ge _ (here + 1))), (proj2 (N.ltb_ge (first + N.of_nat (length _) - 1) _)) by lia. cbn [orb].
  unfold first at 1.
  rewrite (wire_decodes config stream _ last w i payload e) by (done || intros ? [= <-]; done). cbn [rbind].
  assert (de_batch_id (dse_decoded (decoded_at stream (len (nh_events previous)) (pw_published w) i e))
      = pub_batch_id (pw_published w)
    ∧ de_event_count (dse_decoded (decoded_at stream (len (nh_events previous)) (pw_published w) i e))
      = len (eb_events (pub_batch (pw_published w)))) as [-> ->].
  { unfold decoded_at, decoded_from. by destruct (batch_coordinates _ _ _). }
  unfold len. rewrite String.eqb_refl, N.eqb_refl. cbn [negb orb].
  change (N.of_nat (length (nh_events previous))) with (len (nh_events previous)).
  by rewrite (reading_at_step _ _ _ _ _ _ Hp He).
Qed.

Lemma extend_steps_wire previous b w last lookup n :
  wire_ok config stream (len (nh_events previous)) last w →
  pub_transaction (pw_published w) = None →
  pub_ok stream b (len (nh_events previous)) (pw_published w) →
  nh_last_subject_stream_sequence previous = last →
  n = len (eb_events (pub_batch (pw_published w))) →
  (∀ i payload, pw_payloads w !! i = Some payload →
    lookup ((if decide (i = 0%nat) then last else pub_first (pw_published w) + N.of_nat i - 1) + 1)
    = Ok (mkRawMessage (pub_first (pw_published w) + N.of_nat i) (stream_subject config stream)
            (wire_headers config stream w last i payload) payload)) →
  ∀ k, (k <= length (eb_events (pub_batch (pw_published w))))%nat →
  try_fold (λ s _, extend_step config stream (stream_subject config stream) previous
      (pub_first (pw_published w) + n - 1) (pub_batch_id (pw_published w)) n lookup s)
    (b, last) (replicate k tt)
  = Ok (reading_at stream b (len (nh_events previous)) (pw_published w) k,
        if decide (k = 0%nat) then last else pub_first (pw_published w) + N.of_nat k - 1).
Proof.
  intros Hw Htr Hp Hlast Hn Hlk. induction k as [|k IH]; intros Hk; [done|].
  rewrite replicate_S_end, try_fold_app, IH by lia. cbn [rbind try_fold].
  assert (is_Some (eb_events (pub_batch (pw_published w)) !! k)) as [e He] by (apply lookup_lt_is_Some; lia).
  assert (is_Some (pw_payloads w !! k)) as [payload Hi].
  { apply lookup_lt_is_Some. rewrite (wire_payloads_length _ _ _ _ _ Hw). lia. }
  rewrite (extend_step_wire previous b w last k payload e lookup n) by eauto.
  cbn [rbind]. rewrite (decide_False (P := S k = 0%nat)) by done. do 2 f_equal. lia.
Qed.

(** ** The published batch *)

(** The commit of a prepared append, stored from the sequence [first] on *)
Definition append_published (batch : EventBatch) (inbox : string) (first : N) : Published :=
  mkPublished batch (new_atomic_batch_id inbox (eb_commit_id batch)) None first.

Lemma append_pub_ok expected batch history p inbox first :
  subject_history_ok stream history → publishable stream batch →
  append_prepared config stream expected batch history p →
  0 < first → first + len (eb_events batch) <= u64_max →
  pub_ok stream (from_history history) (len (nh_events history)) (append_published batch inbox first).
Proof.
  intros Hh Hb Hp Hf0 Hf. split; cbn [append_published pub_batch pub_first pub_transaction]; try done.
  - cbn [from_history hb_current_version]. by apply (commits_current_version stream).
  - apply Hp.
  - cbn [from_history hb_operation_ids]. rewrite elem_of_list_to_set.
    intros (c & E & Hc)%list_elem_of_fmap. by destruct (ap_commits _ _ _ _ _ _ Hp c Hc).
  - cbn [from_history hb_commit_ids]. rewrite elem_of_list_to_set.
    intros (c & E & Hc)%list_elem_of_fmap. by destruct (ap_commits _ _ _ _ _ _ Hp c Hc).
  - intros e He. cbn [from_history hb_event_ids]. rewrite elem_of_list_to_set.
    intros (r & E & Hr)%list_elem_of_fmap. by destruct (ap_events _ _ _ _ _ _ Hp r e Hr He).
Qed.

Lemma batch_id_length inbox commit : str_len (new_atomic_batch_id inbox commit) = 64.
Proof. unfold new_atomic_batch_id, str_len. by rewrite length_hex_of_bytes, sha256_length. Qed.

Lemma append_wire_ok expected batch history p inbox first payloads :
  publishable stream batch → append_prepared config stream expected batch history p →
  limit_value (nc_max_event_bytes config) <= MAX_SUPPORTED_EVENT_BYTES →
  nh_last_subject_stream_sequence history < first → first + len (eb_events batch) <= u64_max →
  encode_events config stream batch (pa_recorded p) = Ok payloads →
  Forall (λ payload, len payload <= limit_value (nc_max_event_bytes config)) payloads →
  wire_ok config stream (len (nh_events history)) (nh_last_subject_stream_sequence history)
    (mkPublishedWire (append_published batch inbox first) (len (eb_events batch))
       (id_str <$> eb_correlation_id batch) payloads).
Proof.
  intros Hb Hp Hlim Hl Hf Henc Hs. pose proof (ap_recorded _ _ _ _ _ _ Hp) as Hr. rewrite Hr in Henc.
  split; cbn [append_published pw_published pw_total pw_payloads pub_batch pub_first pub_transaction pub_batch_id];
    try done.
  - apply Hp.
  - by rewrite batch_id_length.
  - eapply Forall_impl; [exact Hs|]. cbn. lia.
Qed.

(** The messages sent are those of the commit as it lies on the subject. *)
Lemma append_messages_wire expected batch history p inbox first payloads i payload :
  append_prepared config stream expected batch history p →
  pa_events p = zip ((λ e, ident_str (re_event_id e)) <$> pa_recorded p) payloads →
  length payloads = length (eb_events batch) → payloads !! i = Some payload →
  append_messages config stream history batch inbox p !! i
  = Some (mkSentMessage (stream_subject config stream)
      (wire_headers config stream (mkPublishedWire (append_published batch inbox first) (len (eb_events batch))
         (id_str <$> eb_correlation_id batch) payloads) (nh_last_subject_stream_sequence history) i payload) payload).
Proof.
  intros Hp Hz Hl Hi. unfold append_messages, atomic_sent. rewrite list_lookup_imap.
  assert (is_Some (eb_events batch !! i)) as [e He] by (apply lookup_lt_is_Some; rewrite <- Hl; by eapply lookup_lt_Some).
  assert (pa_events p !! i = Some (ident_str (ne_event_id e), payload)) as Hpe.
  { rewrite Hz, lookup_zip_with, list_lookup_fmap, (ap_recorded _ _ _ _ _ _ Hp).
    rewrite (proj2 (record_group_lookup _ _ _ i _)) by (by exists e). cbn. by rewrite Hi. }
  assert (len (pa_events p) = len (eb_events batch)) as ->.
  { rewrite Hz, (ap_recorded _ _ _ _ _ _ Hp). unfold len.
    rewrite length_zip_with, length_fmap, length_record_group, Hl. f_equal. lia. }
  unfold atomic_batch_messages. change (map ?f ?l) with (f <$> l).
  rewrite list_lookup_fmap, enumerate_lookup, Hpe. cbn [fmap option_fmap option_map].
  unfold wire_headers, wire_message; cbn [apm_subject apm_payload pw_published append_published pub_batch pub_batch_id
    pub_transaction pw_total pw_correlation batch_coordinates fst].
  rewrite He. cbn [fmap option_fmap option_map compose]. by rewrite N.add_0_l.
Qed.

Lemma append_verifies expected batch history p inbox first payloads lookup :
  subject_history_ok stream history → publishable stream batch →
  append_prepared config stream expected batch history p →
  limit_value (nc_max_event_bytes config) <= MAX_SUPPORTED_EVENT_BYTES →
  nh_last_subject_stream_sequence history < first → first + len (eb_events batch) <= u64_max →
  encode_events config stream batch (pa_recorded p) = Ok payloads →
  Forall (λ payload, len payload <= limit_value (nc_max_event_bytes config)) payloads →
  pa_events p = zip ((λ e, ident_str (re_event_id e)) <$> pa_recorded p) payloads →
  length payloads = length (eb_events batch) →
  holds (nh_last_subject_stream_sequence history) first (append_messages config stream history batch inbox p) lookup →
  verify_published_commit config stream history (first + len (eb_events batch) - 1)
    (new_atomic_batch_id inbox (eb_commit_id batch)) (eb_commit_id batch) (pa_recorded p) lookup = Ok tt.
Proof.
  intros Hh Hb Hp Hlim Hl Hf Henc Hs Hz Hlen Hholds.
  pose proof (append_wire_ok expected batch history p inbox first payloads Hb Hp Hlim Hl Hf Henc Hs) as Hw.
  assert (0 < first) as Hf0 by lia.
  pose proof (append_pub_ok expected batch history p inbox first Hh Hb Hp Hf0 Hf) as Hpub.
  pose proof (ap_batch _ _ _ _ _ _ Hp) as [Hne _].
  unfold verify_published_commit, extend_history. rewrite (ap_recorded _ _ _ _ _ _ Hp).
  assert (len (record_group stream (len (nh_events history)) batch) = len (eb_events batch)) as ->
    by (unfold len; by rewrite length_record_group).
  pose proof (extend_steps_wire history (from_history history) _ (nh_last_subject_stream_sequence history) lookup
    (len (eb_events batch)) Hw eq_refl Hpub eq_refl eq_refl) as Hx.
  cbn [pw_published append_published pub_batch pub_first pub_batch_id pw_payloads] in Hx.
  fold (stream_subject config stream).
  replace (N.to_nat (len (eb_events batch))) with (length (eb_events batch)) by (unfold len; lia).
  rewrite Hx; cycle 1.
  { intros i payload Hi.
    apply (Hholds i _ (append_messages_wire expected batch history p inbox first payloads i payload Hp Hz Hlen Hi)).
    case_decide; lia. }
  { done. }
  rewrite decide_False by (unfold len in *; lia). fold (len (eb_events batch)).
  cbn [rbind fst snd]. rewrite (proj2 (N.eqb_neq (len _) 0)), N.eqb_refl by lia. cbn [orb negb].
  unfold reading_at; cbn [append_published pub_batch]. rewrite decide_False by (unfold len in Hne; lia).
  rewrite !decide_True by (unfold len; lia). unfold builder_finish; cbn [hb_pending hb_current_version hb_history is_some orb].
  rewrite bool_decide_eq_false_2 by (unfold version_zero, len in *; intros [= E]; lia).
  cbn [rbind history_push_commit nh_commits nh_events nh_sequences from_history hb_history]. rewrite last_snoc.
  cbn [pub_commit cm_batch cm_events pub_batch append_published]. rewrite bool_decide_eq_true_2 by done. cbn [ok_or rbind].
  by rewrite bool_decide_eq_true_2.
Qed.

Lemma append_publishes expected batch history p a ack :
  append_prepared config stream expected batch history p →
  acknowledges (len (eb_events batch)) (aa_reply a) ack →
  publish_atomic_batch config (pa_subject p) (nh_last_subject_stream_sequence history)
    (new_atomic_batch_id (aa_inbox a) (eb_commit_id batch)) (id_str <$> eb_correlation_id batch)
    (pa_events p) (aa_reply a)
  = (append_messages config stream history batch (aa_inbox a) p, Ok ack).
Proof.
  intros Hp Hack. pose proof (ap_batch _ _ _ _ _ _ Hp) as [Hne Hmax].
  pose proof (ap_payloads _ _ _ _ _ _ Hp) as (payloads & _ & Hz & _ & Hlen).
  assert (len (pa_events p) = len (eb_events batch)) as Hpl.
  { rewrite Hz, (ap_recorded _ _ _ _ _ _ Hp). unfold len.
    rewrite length_zip_with, length_fmap, length_record_group, Hlen. f_equal. lia. }
  unfold publish_atomic_batch, publish_atomic_messages, append_messages.
  rewrite (ap_subject _ _ _ _ _ _ Hp).
  assert (len (atomic_batch_messages (stream_subject config stream) (nh_last_subject_stream_sequence history)
    (pa_events p)) = len (pa_events p)) as El
    by (unfold atomic_batch_messages, enumerate, len; by rewrite length_map, length_enumerate_from).
  rewrite El, Hpl. apply publish_from_acknowledged; [done| | |].
  - intros E. apply len_0 in E. lia.
  - by rewrite El.
  - unfold MAX_EVENTS_PER_BATCH in Hmax. change usize_max with (2 ^ 64 - 1). lia.
Qed.

(** C32 (liveness). An append that passes its checks completes: when the server
    stores the batch as the next messages of the subject, acknowledges its last
    message with the sequence it got, and serves the stored messages, the
    append reports the events of the batch appended, after sending exactly the
    messages of the batch. *)
Theorem acknowledged_append_succeeds expected batch history p a first :
  subject_history_ok stream history → publishable stream batch →
  limit_value (nc_max_event_bytes config) <= MAX_SUPPORTED_EVENT_BYTES →
  (let? receipt := aa_receipt a in prepare_append config stream expected batch history receipt) = Ok (inr p) →
  nh_last_subject_stream_sequence history < first → first + len (eb_events batch) <= u64_max →
  acknowledges (len (eb_events batch)) (aa_reply a)
    (mkAtomicPublishAck (nc_stream_name config) (first + len (eb_events batch) - 1)
       (Some (new_atomic_batch_id (aa_inbox a) (eb_commit_id batch))) (Some (len (eb_events batch)))) →
  holds (nh_last_subject_stream_sequence history) first
    (append_messages config stream history batch (aa_inbox a) p) (aa_lookup a) →
  append_with_history config stream expected batch history a
  = (append_messages config stream history batch (aa_inbox a) p,
     Ok (Appended (record_group stream (len (nh_events history)) batch))).
Proof.
  intros Hh Hb Hlim Hprep Hl Hf Hack Hholds. unfold append_with_history. rewrite Hprep.
  apply rbind_Ok in Hprep as (receipt & _ & Hp). apply prepare_append_Ok in Hp; [|done].
  pose proof (ap_payloads _ _ _ _ _ _ Hp) as (payloads & Henc & Hz & Hs & Hlen).
  pose proof (ap_batch _ _ _ _ _ _ Hp) as [Hne Hmax].
  rewrite (append_publishes expected batch history p) with (ack := mkAtomicPublishAck (nc_stream_name config)
    (first + len (eb_events batch) - 1) (Some (new_atomic_batch_id (aa_inbox a) (eb_commit_id batch)))
    (Some (len (eb_events batch)))) by done.
  assert (append_acknowledged config history p (new_atomic_batch_id (aa_inbox a) (eb_commit_id batch))
    (mkAtomicPublishAck (nc_stream_name config) (first + len (eb_events batch) - 1)
       (Some (new_atomic_batch_id (aa_inbox a) (eb_commit_id batch))) (Some (len (eb_events batch)))) = true) as ->.
  { unfold append_acknowledged; cbn [apa_stream apa_sequence apa_batch apa_count].
    rewrite String.eqb_refl, (proj2 (N.eqb_neq _ 0)), (proj2 (N.ltb_lt _ _)) by lia.
    rewrite (ap_count _ _ _ _ _ _ Hp), !bool_decide_eq_true_2 by done. done. }
  cbn [negb apa_sequence].
  rewrite (append_verifies expected batch history p (aa_inbox a) first payloads) by done.
  cbn [rbind]. by rewrite (ap_recorded _ _ _ _ _ _ Hp).
Qed.
End Live.
