(* ===== verification/NatsReceipt.v ===== *)
(** * NatsReceipt: the permanent receipts of transactions in a NATS event store -
    their wire format, and how a receipt is read back and materialised from the
    histories it refers to (encode_transaction_receipt,
    decode_transaction_receipt, materialize_transaction_receipt and their helpers
    in crates/rostfrei-nats/src/event_store.rs). *)

From S2P Require Export NatsAppendFacts Outcome.

(** ** Wire values *)

Definition TRANSACTION_RECEIPT_SCHEMA_VERSION : N := 1.
Definition EVENT_FREE_RECEIPT_SCHEMA_VERSION : N := 2.
Definition COMPLETED_OUTCOME_SCHEMA_VERSION : N := 3.
Definition SPLIT_OUTCOME_SCHEMA_VERSION : N := 4.
Definition ACTOR_RECEIPT_SCHEMA_VERSION : N := 5.

Record TransactionParticipantWire := mkParticipantWire {
  tpw_stream : StreamIdentityWire;
  tpw_base_stream_version : N;
  tpw_commit_id : option string;
  tpw_event_count : N;
}.

Record TransactionReceiptContentWire := mkReceiptContent {
  trc_manifest : option string;
  trc_security_scope : option string;
  trc_completion : option CommandCompletion;
  trc_event_store_stream : string;
  trc_application : string;
  trc_bounded_context : string;
  trc_operation_id : string;
  trc_operation_fingerprint : string;
  trc_correlation_id : option string;
  trc_causation_id : option string;
  trc_actor : option ActorRef;
  trc_participants : list TransactionParticipantWire;
}.

Record StoredTransactionReceiptWire := mkReceiptWire {
  srw_schema_version : N;
  srw_checksum : string;
  srw_receipt : TransactionReceiptContentWire;
}.

(** [ReceiptChecksumInput]: what [transaction_receipt_checksum] serialises *)
Record ReceiptChecksumInput := mkReceiptChecksumInput {
  rci_schema_version : N;
  rci_receipt : TransactionReceiptContentWire;
}.

Record TransactionGuardWire := mkGuardWire {
  tgw_operation_id : string;
  tgw_guarded_stream : StreamIdentityWire;
}.

Record DecodedTransactionReceipt := mkDecodedReceipt {
  dtr_batch_id : string;
  dtr_batch_sequence : N;
  dtr_stream_sequence : N;
  dtr_content : TransactionReceiptContentWire;
}.

Record MaterializedTransactionReceipt := mkMaterialized {
  mtr_receipt : TransactionReceipt;
  mtr_marker : option OutcomeMarker;
  mtr_batch_id : string;
  mtr_batch_start_stream_sequence : N;
  mtr_transaction_event_count : N;
}.

Inductive TransactionSubjectLayout :=
| OperationLayout
| LegacyPrimary (primary : StreamId).

Section Lookup.
Context `{HM : HeaderMapApi}.

(** A message of a transaction as the server returns it *)
Inductive RawLookup :=
| MessageFound (message : RawMessage)
| NoMessageFound
| LookupFailed (error : string).

(** [classify_required_raw_lookup_error] of a failed lookup *)
Definition required_lookup (missing_message unavailable_message : string) (lookup : RawLookup)
  : result RawMessage EventStoreError :=
  match lookup with
  | MessageFound message => Ok message
  | NoMessageFound => Err (corrupt missing_message)
  | LookupFailed error => Err (unavailable (unavailable_message +:+ ": " +:+ error))
  end.
End Lookup.

Definition stream_identity (stream_id : StreamId) : StreamIdentityWire :=
  mkStreamIdentityWire (ident_str (aggregate_type stream_id)) (ident_str (aggregate_id stream_id)).

Definition stream_id_from_wire (wire : StreamIdentityWire) : result StreamId EventStoreError :=
  let? aggregate_type := map_err
    (λ error, corrupt ("invalid receipt aggregate type: " +:+ IdentityError_display error))
    (ident_new KAggregateType (siw_aggregate_type wire)) in
  let? aggregate_id := map_err
    (λ error, corrupt ("invalid receipt aggregate identity: " +:+ IdentityError_display error))
    (ident_new KAggregateId (siw_aggregate_id wire)) in
  Ok (mkStreamId aggregate_type aggregate_id).

(** A header that must be there with one value *)
Definition require_header `{HeaderMapApi} (headers : HeaderMap) (name value : string)
    (error : EventStoreError) : result unit EventStoreError :=
  let? found := required_single_header headers name in
  fail! negb (String.eqb found value) with error;
  Ok tt.
(** A header that must be as given, there or not *)
Definition require_optional_header `{HeaderMapApi} (headers : HeaderMap) (name : string)
    (value : option string) (error : EventStoreError) : result unit EventStoreError :=
  let? found := optional_single_header headers name in
  fail! negb (bool_decide (found = value)) with error;
  Ok tt.

Section Receipts.
Context `{SHA : Sha256} `{OJ : OutcomeJson} `{B64 : Base64} `{HM : HeaderMapApi} `{HN : AtomicHeaderNames}.
Context `{RJ : Json StoredTransactionReceiptWire} `{RCJ : Json ReceiptChecksumInput}.
Context `{GJ : Json TransactionGuardWire}.
Context (config : NatsEventStoreConfig).

Definition receipt_subject (layout : TransactionSubjectLayout) (operation_id : string) : string :=
  match layout with
  | OperationLayout => transaction_subject config operation_id
  | LegacyPrimary primary => legacy_primary_transaction_subject config primary operation_id
  end.
Definition guard_subject (layout : TransactionSubjectLayout) (operation_id : string) (ordinal : N)
  : string :=
  match layout with
  | OperationLayout => transaction_guard_subject config operation_id ordinal
  | LegacyPrimary primary => legacy_primary_transaction_guard_subject config primary operation_id ordinal
  end.

(** ** Encoding *)

Definition transaction_receipt_checksum (schema_version : N) (receipt : TransactionReceiptContentWire)
  : result string string :=
  let? input := to_vec (mkReceiptChecksumInput schema_version receipt) in
  Ok (hex_of_bytes (sha256 input)).

Definition receipt_schema (content : TransactionReceiptContentWire) : N :=
  if is_some (trc_actor content) then ACTOR_RECEIPT_SCHEMA_VERSION
  else if is_some (trc_manifest content) then SPLIT_OUTCOME_SCHEMA_VERSION
  else if is_some (trc_completion content) then COMPLETED_OUTCOME_SCHEMA_VERSION
  else if existsb (λ p, 0 <? tpw_event_count p) (trc_participants content)
  then TRANSACTION_RECEIPT_SCHEMA_VERSION
  else EVENT_FREE_RECEIPT_SCHEMA_VERSION.

Definition encode_transaction_receipt (content : TransactionReceiptContentWire)
  : result (list byte) EventStoreError :=
  let schema_version := receipt_schema content in
  let? checksum := map_err (λ error, invalid ("failed to checksum transaction receipt: " +:+ error))
    (transaction_receipt_checksum schema_version content) in
  map_err (λ error, invalid ("failed to encode transaction receipt: " +:+ error))
    (to_vec (mkReceiptWire schema_version checksum content)).

(** ** Decoding *)

Definition supported_receipt_schema (version : N) : bool :=
  (version =? TRANSACTION_RECEIPT_SCHEMA_VERSION) || (version =? EVENT_FREE_RECEIPT_SCHEMA_VERSION)
  || (version =? COMPLETED_OUTCOME_SCHEMA_VERSION) || (version =? SPLIT_OUTCOME_SCHEMA_VERSION)
  || (version =? ACTOR_RECEIPT_SCHEMA_VERSION).

(** The schemas whose receipts may be without events *)
Definition outcome_receipt_schema (version : N) : bool :=
  (version =? COMPLETED_OUTCOME_SCHEMA_VERSION) || (version =? SPLIT_OUTCOME_SCHEMA_VERSION)
  || (version =? ACTOR_RECEIPT_SCHEMA_VERSION).

Definition validate_receipt_participant_shape (wire : StoredTransactionReceiptWire) (batch_sequence : N)
  : result unit EventStoreError :=
  let participants := trc_participants (srw_receipt wire) in
  let has_events := existsb (λ p, 0 <? tpw_event_count p) participants in
  fail! (negb (outcome_receipt_schema (srw_schema_version wire))
         && negb (Bool.eqb (srw_schema_version wire =? TRANSACTION_RECEIPT_SCHEMA_VERSION) has_events))
        || existsb (λ p, negb (Bool.eqb (tpw_event_count p =? 0) (is_none (tpw_commit_id p)))) participants
    with corrupt "stored transaction receipt has an invalid participant commit shape";
  let? expected_final_sequence := try_fold (λ item_count p,
      let? event_count := ok_or (try_from usize_max (tpw_event_count p))
        (corrupt "stored transaction receipt batch sequence calculation overflowed") in
      ok_or (checked_add usize_max item_count (N.max event_count 1))
        (corrupt "stored transaction receipt batch sequence calculation overflowed")) 1 participants in
  fail! negb (batch_sequence =? expected_final_sequence) || (MAX_TRANSACTION_ITEMS <? batch_sequence)
    with corrupt "stored transaction receipt batch sequence does not match its participants";
  Ok tt.

(** The checks on the headers: the batch and the place of the receipt in it *)
Definition decode_receipt_headers (headers : HeaderMap) : result (string * N) EventStoreError :=
  let incompatible := corrupt "stored transaction receipt has incompatible atomic headers" in
  let? _ := require_header headers "Content-Type" "application/json" incompatible in
  let? _ := require_optional_header headers "Nats-Batch-Commit" (Some NATS_BATCH_COMMIT_FINAL) incompatible in
  let? _ := require_optional_header headers "Nats-Expected-Last-Subject-Sequence" (Some "0") incompatible in
  let? batch_id := required_single_header headers "Nats-Batch-Id" in
  fail! String.eqb batch_id "" || (64 <? str_len batch_id)
    with corrupt "stored transaction receipt has an invalid atomic batch identity";
  let? text := required_single_header headers "Nats-Batch-Sequence" in
  let? batch_sequence := ok_or (parse_n usize_max text)
    (corrupt "stored transaction receipt has an invalid batch sequence") in
  fail! batch_sequence =? 0
    with corrupt "stored transaction receipt has an invalid batch sequence";
  let expectations := corrupt "stored transaction receipt has incompatible stream expectations" in
  let? _ := require_optional_header headers "Nats-Expected-Stream"
    (if batch_sequence =? 1 then Some (nc_stream_name config) else None) expectations in
  let? _ := require_optional_header headers NATS_EXPECTED_LAST_SUBJECT_SEQUENCE_SUBJECT None expectations in
  Ok (batch_id, batch_sequence).

(** The checks on what the receipt decides, after those on its shape *)
Definition validate_receipt_outcome (wire : StoredTransactionReceiptWire) : result unit EventStoreError :=
  let version := srw_schema_version wire in
  let receipt := srw_receipt wire in
  fail! (negb (version =? ACTOR_RECEIPT_SCHEMA_VERSION)
         && negb (Bool.eqb (version =? SPLIT_OUTCOME_SCHEMA_VERSION) (is_some (trc_manifest receipt))))
        || (is_some (trc_manifest receipt)
            && (negb (nc_split_outcomes config) || is_some (trc_completion receipt)))
    with corrupt "split outcome schema/authority mismatch";
  fail! negb (version =? ACTOR_RECEIPT_SCHEMA_VERSION)
        && negb (Bool.eqb (version =? COMPLETED_OUTCOME_SCHEMA_VERSION) (is_some (trc_completion receipt)))
    with corrupt "completed outcome schema/decision mismatch";
  match trc_completion receipt with
  | None => Ok tt
  | Some completion =>
    let? _ := map_err (λ error, corrupt (EventCodecError_display error)) (completion_validate completion) in
    fail! is_some (completion_rejection completion)
          && existsb (λ p, negb (tpw_event_count p =? 0)) (trc_participants receipt)
      with corrupt "rejected outcome contains domain events";
    Ok tt
  end.

Definition decode_transaction_receipt (stream_sequence : N) (headers : HeaderMap) (payload : list byte)
  : result DecodedTransactionReceipt EventStoreError :=
  fail! MAX_SUPPORTED_EVENT_BYTES <? len payload
    with corrupt "stored transaction receipt exceeds the supported byte limit";
  let? (batch_id, batch_sequence) := decode_receipt_headers headers in
  let? wire := map_err (λ error, corrupt ("stored transaction receipt is invalid JSON: " +:+ error))
    (from_slice (A := StoredTransactionReceiptWire) payload) in
  fail! negb (supported_receipt_schema (srw_schema_version wire))
    with corrupt "stored transaction receipt has an unsupported schema version";
  fail! negb (Bool.eqb (srw_schema_version wire =? ACTOR_RECEIPT_SCHEMA_VERSION)
                (is_some (trc_actor (srw_receipt wire))))
    with corrupt "stored transaction receipt actor/schema mismatch";
  let? checksum := map_err (λ error, corrupt ("stored transaction receipt cannot be checksummed: " +:+ error))
    (transaction_receipt_checksum (srw_schema_version wire) (srw_receipt wire)) in
  fail! negb (String.eqb checksum (srw_checksum wire))
    with corrupt "stored transaction receipt checksum does not match its content";
  fail! negb (String.eqb (trc_event_store_stream (srw_receipt wire)) (nc_stream_name config))
        || negb (String.eqb (trc_application (srw_receipt wire)) (application_str (nc_application config)))
        || negb (String.eqb (trc_bounded_context (srw_receipt wire)) (context_str (nc_bounded_context config)))
    with corrupt "stored transaction receipt belongs to another event store";
  let? _ := validate_receipt_participant_shape wire batch_sequence in
  let? _ := validate_receipt_outcome wire in
  Ok (mkDecodedReceipt batch_id batch_sequence stream_sequence (srw_receipt wire)).

(** [read_transaction_receipt]: [lookup] is the last message of the receipt's
    subject. *)
Definition read_transaction_receipt (lookup : RawLookup) (operation_id : OperationId) (required : bool)
    (layout : TransactionSubjectLayout) : result (option DecodedTransactionReceipt) EventStoreError :=
  let subject := receipt_subject layout (ident_str operation_id) in
  let? message :=
    match lookup with
    | MessageFound message => Ok (Some message)
    | _ =>
      if required then
        rmap Some (required_lookup "transaction receipt is absent from committed history"
                     "failed to locate transaction receipt" lookup)
      else match lookup with
           | LookupFailed error => Err (unavailable ("failed to locate transaction receipt: " +:+ error))
           | _ => Ok None
           end
    end in
  match message with
  | None => Ok None
  | Some message =>
    fail! negb (String.eqb (rm_subject message) subject)
      with corrupt "transaction receipt lookup returned the wrong subject";
    let? decoded := decode_transaction_receipt (rm_sequence message) (rm_headers message) (rm_payload message) in
    fail! negb (String.eqb (trc_operation_id (dtr_content decoded)) (ident_str operation_id))
      with corrupt "transaction receipt belongs to a different operation";
    let? _ := match layout with
              | OperationLayout => Ok tt
              | LegacyPrimary primary =>
                let? receipt_primary := ok_or (head (trc_participants (dtr_content decoded)))
                  (corrupt "legacy transaction receipt has no primary participant") in
                let? stream := stream_id_from_wire (tpw_stream receipt_primary) in
                fail! negb (bool_decide (stream = primary)) || (tpw_event_count receipt_primary =? 0)
                      || is_none (tpw_commit_id receipt_primary)
                  with corrupt "legacy transaction receipt does not match its primary-derived subject";
                Ok tt
              end in
    Ok (Some decoded)
  end.

(** ** Materialising a receipt *)

(** The positions from [start] on, in the batch that starts at [batch_start] *)
Definition sequences_from (batch_start start : N) (sequences : list N) : bool :=
  forallb (λ p, bool_decide (
    ((checked_add usize_max start p.1 ≫= try_from u64_max) ≫= checked_add u64_max batch_start) = Some p.2))
    (enumerate sequences).

(** The version of the first event of a commit; the commits of a history are
    ordered by it, and distinct, so the search finds the one there is. *)
Definition first_version (commit : StoredCommit) : N :=
  from_option (λ e, version_value (re_stream_version e)) 0 (head (cm_events commit)).

(** The identity of the transaction a participant is in *)
Record TransactionIdentity := mkTransactionIdentity {
  ti_operation_id : OperationId;
  ti_operation_fingerprint : ContentFingerprint;
  ti_correlation_id : option CorrelationId;
  ti_causation_id : option CausationId;
  ti_actor : option ActorRef;
}.

Definition commit_has_identity (batch : EventBatch) (t : TransactionIdentity) : bool :=
  bool_decide (eb_operation_id batch = ti_operation_id t)
  && bool_decide (eb_operation_fingerprint batch = ti_operation_fingerprint t)
  && bool_decide (eb_correlation_id batch = ti_correlation_id t)
  && bool_decide (eb_causation_id batch = ti_causation_id t)
  && bool_decide (eb_actor batch = ti_actor t).

Definition materialize_transaction_participant (history : History) (participant : TransactionParticipantWire)
    (base_version : StreamVersion) (t : TransactionIdentity) (batch_id : string)
    (transaction_event_ordinal transaction_event_count batch_start_stream_sequence : N)
  : result (list RecordedEvent) EventStoreError :=
  let? event_count := ok_or (try_from usize_max (tpw_event_count participant))
    (corrupt "transaction receipt event count cannot be represented") in
  if event_count =? 0 then
    fail! is_some (tpw_commit_id participant)
      with corrupt "transaction receipt read-only participant has a commit identity";
    fail! version_value (nats_current_version (nh_events history)) <? version_value base_version
      with corrupt "transaction receipt read-only participant has an invalid base version";
    Ok []
  else
    let? commit_id := ok_or (tpw_commit_id participant)
      (corrupt "transaction receipt write participant has no commit identity") in
    let? transaction_event_end := ok_or (checked_add usize_max transaction_event_ordinal event_count)
      (corrupt "transaction receipt event ordinal overflowed") in
    let? version := ok_or (checked_add u64_max (version_value base_version) 1)
      (corrupt "transaction receipt stream version overflowed") in
    let? last_version := ok_or (checked_add u64_max (version_value base_version) (tpw_event_count participant))
      (corrupt "transaction receipt stream version overflowed") in
    let? stored := ok_or (find (λ c, first_version c =? version) (nh_commits history))
      (corrupt "transaction receipt commit is absent from aggregate history") in
    let? provenance := ok_or (cm_transaction stored)
      (corrupt "transaction receipt commit has no atomic transaction provenance") in
    fail! negb (len (cm_events stored) =? event_count) || negb (len (cm_sequences stored) =? event_count)
          || is_none_or (λ e, negb (version_value (re_stream_version e) =? last_version)) (last (cm_events stored))
          || negb (String.eqb (ident_str (eb_commit_id (cm_batch stored))) commit_id)
          || negb (commit_has_identity (cm_batch stored) t)
          || negb (String.eqb (stp_batch_id provenance) batch_id)
          || negb (stp_start provenance =? transaction_event_ordinal)
          || negb (stp_end provenance =? transaction_event_end)
          || negb (stp_transaction_event_count provenance =? transaction_event_count)
          || negb (sequences_from batch_start_stream_sequence transaction_event_ordinal (cm_sequences stored))
      with corrupt "transaction receipt does not match its aggregate commit provenance";
    Ok (cm_events stored).

Definition global_sequence_at_version (history : History) (version : StreamVersion)
  : result N EventStoreError :=
  if bool_decide (version = version_zero) then Ok 0
  else
    let? index := ok_or (checked_sub (version_value version) 1 ≫= try_from usize_max)
      (corrupt "transaction read guard base version cannot be represented") in
    ok_or (nh_sequences history !! N.to_nat index)
      (corrupt "transaction read guard base version is absent from history").

(** The checks of [verify_transaction_guard] on the headers of the guard *)
Definition verify_guard_headers (headers : HeaderMap) (guarded_stream_id : StreamId) (history : History)
    (base_version : StreamVersion) (batch_id : string) (batch_ordinal : N) : result unit EventStoreError :=
  let incompatible := corrupt "stored transaction read guard has incompatible atomic headers" in
  let? _ := require_header headers "Content-Type" "application/json" incompatible in
  let? _ := require_header headers "Nats-Batch-Id" batch_id incompatible in
  let? _ := require_optional_header headers "Nats-Expected-Stream"
    (if batch_ordinal =? 0 then Some (nc_stream_name config) else None) incompatible in
  let? _ := require_optional_header headers "Nats-Batch-Commit" None incompatible in
  let? expected_batch_sequence := ok_or (checked_add usize_max batch_ordinal 1)
    (corrupt "transaction read guard batch sequence overflowed") in
  let? text := required_single_header headers "Nats-Batch-Sequence" in
  let? batch_sequence := ok_or (parse_n usize_max text)
    (corrupt "stored transaction read guard has an invalid batch sequence") in
  fail! negb (batch_sequence =? expected_batch_sequence)
    with corrupt "stored transaction read guard has the wrong batch sequence";
  let? _ := require_header headers NATS_EXPECTED_LAST_SUBJECT_SEQUENCE_SUBJECT
    (aggregate_subject config (ident_str (aggregate_type guarded_stream_id))
       (ident_str (aggregate_id guarded_stream_id)))
    (corrupt "stored transaction read guard targets the wrong aggregate subject") in
  let? expected_last_subject_sequence := global_sequence_at_version history base_version in
  let? text := required_single_header headers "Nats-Expected-Last-Subject-Sequence" in
  let? guarded_sequence := ok_or (parse_n u64_max text)
    (corrupt "stored transaction read guard has an invalid aggregate sequence") in
  fail! negb (guarded_sequence =? expected_last_subject_sequence)
    with corrupt "stored transaction read guard has the wrong aggregate sequence";
  Ok tt.

(** [verify_transaction_guard]: [messages] is the message at a sequence. *)
Definition verify_transaction_guard (messages : N → RawLookup) (guarded_stream_id : StreamId)
    (history : History) (base_version : StreamVersion) (operation_id : OperationId) (batch_id : string)
    (transaction_event_count guard_ordinal batch_start_stream_sequence : N)
    (layout : TransactionSubjectLayout) : result unit EventStoreError :=
  let? batch_ordinal := ok_or (checked_add usize_max transaction_event_count guard_ordinal)
    (corrupt "transaction read guard batch ordinal overflowed") in
  let? batch_ordinal_u64 := ok_or (try_from u64_max batch_ordinal)
    (corrupt "transaction read guard batch ordinal cannot be represented") in
  let? expected_stream_sequence := ok_or (checked_add u64_max batch_start_stream_sequence batch_ordinal_u64)
    (corrupt "transaction read guard stream sequence overflowed") in
  let? message := required_lookup "transaction read guard is absent from its atomic batch"
    "failed to read transaction read guard" (messages expected_stream_sequence) in
  fail! negb (rm_sequence message =? expected_stream_sequence)
        || negb (String.eqb (rm_subject message) (guard_subject layout (ident_str operation_id) guard_ordinal))
    with corrupt "transaction read guard occupies the wrong atomic batch slot";
  fail! MAX_SUPPORTED_EVENT_BYTES <? len (rm_payload message)
    with corrupt "stored transaction read guard exceeds the supported byte limit";
  let? _ := verify_guard_headers (rm_headers message) guarded_stream_id history base_version batch_id batch_ordinal in
  let? guard := map_err (λ error, corrupt ("stored transaction read guard is invalid JSON: " +:+ error))
    (from_slice (A := TransactionGuardWire) (rm_payload message)) in
  fail! negb (String.eqb (tgw_operation_id guard) (ident_str operation_id))
    with corrupt "stored transaction read guard payload does not match its participant";
  let? stream := stream_id_from_wire (tgw_guarded_stream guard) in
  fail! negb (bool_decide (stream = guarded_stream_id))
    with corrupt "stored transaction read guard payload does not match its participant";
  Ok tt.

(** The locals of the loop over the participants of a receipt *)
Record MaterializeState := mkMaterializeState {
  ms_seen : gset StreamId;
  ms_streams : list TransactionStreamReceipt;
  ms_transaction_event_ordinal : N;
  ms_guard_ordinal : N;
}.

(** The part of a decoded receipt the loop refers to *)
Record ReceiptContext := mkReceiptContext {
  rcx_identity : TransactionIdentity;
  rcx_batch_id : string;
  rcx_batch_start : N;
  rcx_event_count : N;
}.

(** One participant; [histories] is the raw history of a stream. *)
Definition materialize_step (messages : N → RawLookup) (histories : StreamId → result History EventStoreError)
    (layout : TransactionSubjectLayout) (x : ReceiptContext) (s : MaterializeState)
    (participant : TransactionParticipantWire) : result MaterializeState EventStoreError :=
  let? stream_id := stream_id_from_wire (tpw_stream participant) in
  fail! bool_decide (stream_id ∈ ms_seen s) with corrupt "transaction receipt repeats an aggregate stream";
  let base_version := mkStreamVersion (tpw_base_stream_version participant) in
  let? history := histories stream_id in
  let? events := materialize_transaction_participant history participant base_version (rcx_identity x)
    (rcx_batch_id x) (ms_transaction_event_ordinal s) (rcx_event_count x) (rcx_batch_start x) in
  let? guard_ordinal :=
    if len events =? 0 then
      let? _ := verify_transaction_guard messages stream_id history base_version
        (ti_operation_id (rcx_identity x)) (rcx_batch_id x) (rcx_event_count x) (ms_guard_ordinal s)
        (rcx_batch_start x) layout in
      ok_or (checked_add usize_max (ms_guard_ordinal s) 1)
        (corrupt "transaction read guard ordinal overflowed")
    else Ok (ms_guard_ordinal s) in
  let? transaction_event_ordinal :=
    ok_or (checked_add usize_max (ms_transaction_event_ordinal s) (len events))
      (corrupt "transaction receipt event ordinal overflowed") in
  Ok (mkMaterializeState ({[ stream_id ]} ∪ ms_seen s)
        (ms_streams s ++ [mkStreamReceipt stream_id base_version events]) transaction_event_ordinal guard_ordinal).

(** The identity of the transaction and its place in the stream, decoded *)
Definition receipt_context (decoded : DecodedTransactionReceipt) : result ReceiptContext EventStoreError :=
  let content := dtr_content decoded in
  let? preceding := ok_or (checked_sub (dtr_batch_sequence decoded) 1)
    (corrupt "transaction receipt has an invalid batch sequence") in
  let? preceding := ok_or (try_from u64_max preceding)
    (corrupt "transaction receipt batch sequence cannot be represented") in
  let? batch_start := ok_or (checked_sub (dtr_stream_sequence decoded) preceding)
    (corrupt "transaction receipt batch start sequence underflowed") in
  fail! batch_start =? 0 with corrupt "transaction receipt has an invalid batch start sequence";
  let? operation_id := map_err
    (λ error, corrupt ("invalid transaction operation identity: " +:+ IdentityError_display error))
    (ident_new KOperationId (trc_operation_id content)) in
  let? fingerprint := map_err
    (λ error, corrupt ("invalid transaction operation fingerprint: " +:+ IdentityError_display error))
    (from_hex (trc_operation_fingerprint content)) in
  let? correlation_id := map_err
    (λ error, corrupt ("invalid transaction correlation identity: " +:+ ContractError_display error))
    (transpose (CorrelationId_new <$> trc_correlation_id content)) in
  let? causation_id := map_err
    (λ error, corrupt ("invalid transaction causation identity: " +:+ ContractError_display error))
    (transpose (CausationId_new <$> trc_causation_id content)) in
  let? event_count := try_fold (λ count p,
      let? participant_count := ok_or (try_from usize_max (tpw_event_count p))
        (corrupt "transaction receipt event count cannot be represented") in
      ok_or (checked_add usize_max count participant_count)
        (corrupt "transaction receipt event count calculation overflowed")) 0 (trc_participants content) in
  fail! MAX_EVENTS_PER_BATCH <? event_count
    with corrupt "transaction receipt has an invalid transaction event count";
  Ok (mkReceiptContext
        (mkTransactionIdentity operation_id fingerprint correlation_id causation_id (trc_actor content))
        (dtr_batch_id decoded) batch_start event_count).

(** The receipt of the materialised participants *)
Definition assemble_receipt (content : TransactionReceiptContentWire) (t : TransactionIdentity)
    (streams : list TransactionStreamReceipt) : result TransactionReceipt EventStoreError :=
  let? bounded_context := map_err
    (λ error, corrupt ("invalid transaction bounded context: " +:+ ContractError_display error))
    (BoundedContextName_new (trc_bounded_context content)) in
  let receipt := tr_with_bounded_context
    (TransactionReceipt_new (ti_operation_id t) (ti_operation_fingerprint t) streams) bounded_context in
  let receipt := from_option (tr_with_correlation_id receipt) receipt (ti_correlation_id t) in
  let receipt := from_option (tr_with_causation_id receipt) receipt (ti_causation_id t) in
  let receipt := from_option (tr_with_actor receipt) receipt (trc_actor content) in
  let? receipt := match trc_security_scope content with
                  | Some scope =>
                    rmap (tr_with_security_scope receipt)
                      (map_err (λ error, corrupt (IdentityError_display error)) (ident_new KSecurityScope scope))
                  | None => Ok receipt
                  end in
  Ok (from_option (tr_with_completion receipt) receipt (trc_completion content)).

(** [NatsEventStore::outcome_key] *)
Definition nats_outcome_key (authority : CommandAuthority) (operation : OperationId) : OutcomeKey :=
  mkOutcomeKey authority (nc_bounded_context config) operation.

Definition materialize_transaction_receipt (authority : CommandAuthority) (messages : N → RawLookup)
    (histories : StreamId → result History EventStoreError) (decoded : DecodedTransactionReceipt)
    (layout : TransactionSubjectLayout) : result MaterializedTransactionReceipt EventStoreError :=
  let content := dtr_content decoded in
  let? x := receipt_context decoded in
  let? s := try_fold (materialize_step messages histories layout x) (mkMaterializeState ∅ [] 0 0)
    (trc_participants content) in
  fail! negb (ms_transaction_event_ordinal s =? rcx_event_count x)
    with corrupt "transaction receipt has inconsistent transaction coordinates";
  let? receipt := assemble_receipt content (rcx_identity x) (ms_streams s) in
  let? _ := validate_integrity receipt in
  let? marker := transpose ((λ encoded,
      let? bytes := map_err corrupt (base64_decode encoded) in
      restore_manifest (nats_outcome_key authority (tr_operation_id receipt)) bytes receipt)
      <$> trc_manifest content) in
  Ok (mkMaterialized receipt marker (rcx_batch_id x) (rcx_batch_start x) (rcx_event_count x)).

(** The operations that compare a receipt with histories *)

(** [transaction_receipt_covers_commit] *)
Definition transaction_receipt_covers_commit (m : MaterializedTransactionReceipt) (commit : StoredCommit)
  : bool :=
  match cm_transaction commit with
  | None => false
  | Some provenance =>
    let r := mtr_receipt m in
    if negb (String.eqb (stp_batch_id provenance) (mtr_batch_id m))
       || negb (stp_transaction_event_count provenance =? mtr_transaction_event_count m)
       || negb (bool_decide (match transaction_batch_start_sequence commit provenance with
                             | Ok start => Some start | Err _ => None end
                             = Some (mtr_batch_start_stream_sequence m)))
       || negb (commit_has_identity (cm_batch commit)
                  (mkTransactionIdentity (tr_operation_id r) (tr_operation_fingerprint r)
                     (tr_correlation_id r) (tr_causation_id r) (tr_actor r)))
    then false
    else
      match head (cm_events commit) with
      | None => false
      | Some first =>
        match find (λ s, bool_decide (sr_stream_id s = re_stream_id first)) (tr_streams r) with
        | None => false
        | Some stream =>
          sequences_from (mtr_batch_start_stream_sequence m) (stp_start provenance) (cm_sequences commit)
          && is_some_and (λ v, v =? version_value (sr_base_version stream))
               (checked_sub (version_value (re_stream_version first)) 1)
          && bool_decide (sr_events stream = cm_events commit)
        end
      end
  end.
End Receipts.
