(* ===== verification/NatsReceiptFacts.v ===== *)
(** * NatsReceiptFacts: a materialised receipt is evidenced by the store - every
    written participant by its commit, every read participant by its guard. *)

From S2P Require Export NatsReceipt NatsHistoryFacts OutcomeFacts.

Section Facts.
Context `{SHA : Sha256} `{OJ : OutcomeJson} `{B64 : Base64} `{HM : HeaderMapApi} `{HN : AtomicHeaderNames}.
Context `{RJ : Json StoredTransactionReceiptWire} `{RCJ : Json ReceiptChecksumInput}.
Context `{GJ : Json TransactionGuardWire}.
Context (config : NatsEventStoreConfig).

(** ** Evidence *)

(** The context of a materialised receipt *)
Definition materialized_context (m : MaterializedTransactionReceipt) : ReceiptContext :=
  let r := mtr_receipt m in
  mkReceiptContext
    (mkTransactionIdentity (tr_operation_id r) (tr_operation_fingerprint r) (tr_correlation_id r)
       (tr_causation_id r) (tr_actor r))
    (mtr_batch_id m) (mtr_batch_start_stream_sequence m) (mtr_transaction_event_count m).

(** The commit of a written participant: one commit of its stream's history,
    recorded at the base version, whose events are the transaction's from
    [offset] on and lie at their places in the batch. *)
Record commit_evidence (x : ReceiptContext) (h : History) (s : TransactionStreamReceipt) (offset : N)
    (c : StoredCommit) : Prop := {
  ce_commit : c ∈ nh_commits h;
  ce_events : sr_events s = cm_events c;
  ce_recorded : cm_events c
    = record_group (sr_stream_id s) (version_value (sr_base_version s)) (cm_batch c);
  ce_nonempty : cm_events c ≠ [];
  ce_identity : commit_has_identity (cm_batch c) (rcx_identity x) = true;
  ce_sequences : cm_sequences c
    = imap (λ i _, rcx_batch_start x + offset + N.of_nat i) (cm_events c);
  ce_placed : sequences_from (rcx_batch_start x) offset (cm_sequences c) = true;
  ce_provenance : cm_transaction c
    = Some (mkProvenance (rcx_batch_id x) offset (offset + len (cm_events c)) (rcx_event_count x));
}.

(** The guard of a read participant: the message after the events of the batch
    that asserted the last event of the base version on the stream's subject *)
Record guard_evidence (messages : N → RawLookup) (layout : TransactionSubjectLayout) (x : ReceiptContext)
    (h : History) (s : TransactionStreamReceipt) (guard : N) : Prop := {
  ge_events : sr_events s = [];
  ge_base : version_value (sr_base_version s) <= version_value (nats_current_version (nh_events h));
  ge_message : ∃ message sequence text stream,
    messages (rcx_batch_start x + (rcx_event_count x + guard)) = MessageFound message
    ∧ rm_sequence message = rcx_batch_start x + (rcx_event_count x + guard)
    ∧ rm_subject message = guard_subject config layout (ident_str (ti_operation_id (rcx_identity x))) guard
    ∧ required_single_header (rm_headers message) "Nats-Batch-Id" = Ok (rcx_batch_id x)
    ∧ required_single_header (rm_headers message) NATS_EXPECTED_LAST_SUBJECT_SEQUENCE_SUBJECT
      = Ok (aggregate_subject config (ident_str (aggregate_type (sr_stream_id s)))
              (ident_str (aggregate_id (sr_stream_id s))))
    ∧ required_single_header (rm_headers message) "Nats-Expected-Last-Subject-Sequence" = Ok text
    ∧ parse_n u64_max text = Some sequence
    ∧ global_sequence_at_version h (sr_base_version s) = Ok sequence
    ∧ from_slice (rm_payload message) = Ok (mkGuardWire (ident_str (ti_operation_id (rcx_identity x))) stream)
    ∧ stream_id_from_wire stream = Ok (sr_stream_id s);
}.

(** The participants from an event offset and a guard ordinal on: they tile the
    events of the transaction, and its guards follow them in order. *)
Fixpoint evidenced (messages : N → RawLookup) (histories : StreamId → result History EventStoreError)
    (layout : TransactionSubjectLayout) (x : ReceiptContext) (offset guards : N)
    (streams : list TransactionStreamReceipt) : Prop :=
  match streams with
  | [] => offset = rcx_event_count x
  | s :: rest => ∃ h, histories (sr_stream_id s) = Ok h
      ∧ match sr_events s with
        | [] => guard_evidence messages layout x h s guards
            ∧ evidenced messages histories layout x offset (guards + 1) rest
        | _ => (∃ c, commit_evidence x h s offset c)
            ∧ evidenced messages histories layout x (offset + len (sr_events s)) guards rest
        end
  end.

(** ** One participant *)

Lemma sequences_from_imap {A} start offset (l : list A) sequences :
  len l = len sequences → sequences_from start offset sequences = true →
  sequences = imap (λ i _, start + offset + N.of_nat i) l.
Proof.
  intros Hl Hs. unfold len in Hl. apply list_eq. intros i. rewrite list_lookup_imap.
  destruct (sequences !! i) as [q|] eqn:Eq.
  - destruct (lookup_lt_is_Some_2 l i) as [y ->]; [apply lookup_lt_Some in Eq; lia|]. cbn. f_equal.
    unfold sequences_from in Hs. rewrite forallb_forall in Hs.
    specialize (Hs (N.of_nat i, q)). cbn [fst snd] in Hs. rewrite bool_decide_eq_true in Hs.
    assert (In (N.of_nat i, q) (enumerate sequences)) as Hin.
    { apply list_elem_of_In, list_elem_of_lookup. exists i. by rewrite enumerate_lookup, Eq. }
    specialize (Hs Hin). apply bind_Some in Hs as (z & Hz & Hq%checked_add_Some).
    apply bind_Some in Hz as (y' & Hy%checked_add_Some & Hz%try_from_Some). lia.
  - apply lookup_ge_None in Eq. rewrite (proj2 (lookup_ge_None l i)) by lia. done.
Qed.

Lemma commits_ok_elem stream v cs c :
  commits_ok stream v cs → c ∈ cs → ∃ w, commit_ok stream w c.
Proof.
  revert v; induction cs as [|d cs IH]; intros v; cbn; [by intros _ ?%not_elem_of_nil|].
  intros [Hd Hcs] [->|Hc]%elem_of_cons; [eauto|]. by eapply IH.
Qed.

(** A commit found by the version of its first event was recorded there. *)
Lemma found_commit stream h base c :
  subject_history_ok stream h → find (λ c, first_version c =? base + 1) (nh_commits h) = Some c →
  c ∈ nh_commits h ∧ commit_ok stream base c.
Proof.
  intros Hh [Hin%list_elem_of_In Hv%N.eqb_eq]%find_some. split; [done|].
  destruct (commits_ok_elem _ _ _ _ (sh_commits _ _ Hh) Hin) as (w & Hc).
  assert (first_version c = w + 1) as Hw; [|replace base with w by lia; done].
  unfold first_version. rewrite (co_events _ _ _ Hc), head_lookup.
  destruct (co_batch_ok _ _ _ Hc) as [[Hn _] _ _].
  destruct (eb_events (cm_batch c)) as [|n news] eqn:En; [by unfold len in Hn; cbn in Hn|].
  rewrite (proj2 (record_group_lookup stream w (cm_batch c) 0
    (from_new stream (mkStreamVersion (w + N.of_nat 0 + 1)) (cm_batch c) (N.of_nat 0)
       (len (eb_events (cm_batch c))) n))) by (exists n; by rewrite En).
  cbn. lia.
Qed.

Lemma materialized_participant stream h wire base x offset events :
  subject_history_ok stream h →
  materialize_transaction_participant h wire base (rcx_identity x) (rcx_batch_id x) offset
    (rcx_event_count x) (rcx_batch_start x) = Ok events →
  (events = [] ∧ version_value base <= version_value (nats_current_version (nh_events h)))
  ∨ ∃ c, commit_evidence x h (mkStreamReceipt stream base events) offset c.
Proof.
  intros Hh H. unfold materialize_transaction_participant in H.
  apply rbind_Ok in H as (count & Hcount & H). destruct (count =? 0) eqn:Ez.
  - left. guards. split; [done|lia].
  - right. guards.
    match goal with E : checked_add u64_max (version_value base) 1 = Some _ |- _ =>
      apply checked_add_Some in E as [-> _] end.
    match goal with E : checked_add usize_max offset _ = Some _ |- _ =>
      apply checked_add_Some in E as [-> _] end.
    match goal with E : find _ _ = Some ?c |- _ =>
      destruct (found_commit _ _ _ _ Hh E) as [Hin Hc]; exists c end.
    match goal with E : cm_transaction _ = Some ?p |- _ => destruct p; cbn in * end.
    split; cbn [sr_events sr_stream_id sr_base_version]; try done.
    + exact (co_events _ _ _ Hc).
    + intros Hn. rewrite Hn in *. change (len []) with 0 in *. lia.
    + eapply sequences_from_imap; [lia|done].
    + congruence.
Qed.

Lemma require_header_Ok (headers : HeaderMap) name value error u :
  require_header headers name value error = Ok u → required_single_header headers name = Ok value.
Proof. unfold require_header. intros (found & Hf & H)%rbind_Ok. guards. congruence. Qed.

Lemma verified_guard_headers headers stream h base batch_id ordinal u :
  verify_guard_headers config headers stream h base batch_id ordinal = Ok u →
  ∃ text sequence,
    required_single_header headers "Nats-Batch-Id" = Ok batch_id
    ∧ required_single_header headers NATS_EXPECTED_LAST_SUBJECT_SEQUENCE_SUBJECT
      = Ok (aggregate_subject config (ident_str (aggregate_type stream)) (ident_str (aggregate_id stream)))
    ∧ required_single_header headers "Nats-Expected-Last-Subject-Sequence" = Ok text
    ∧ parse_n u64_max text = Some sequence
    ∧ global_sequence_at_version h base = Ok sequence.
Proof.
  unfold verify_guard_headers. intros H. guards.
  repeat match goal with E : require_header _ _ _ _ = Ok _ |- _ => apply require_header_Ok in E end.
  eexists _, _. split_and!; try done. congruence.
Qed.

Lemma verified_guard messages layout stream h base x guard u :
  verify_transaction_guard config messages stream h base (ti_operation_id (rcx_identity x))
    (rcx_batch_id x) (rcx_event_count x) guard (rcx_batch_start x) layout = Ok u →
  version_value base <= version_value (nats_current_version (nh_events h)) →
  guard_evidence messages layout x h (mkStreamReceipt stream base []) guard.
Proof.
  intros H Hb. split; [done..|]. unfold verify_transaction_guard in H. guards.
  repeat match goal with E : checked_add _ _ _ = Some _ |- _ => apply checked_add_Some in E as [-> _] end.
  match goal with E : try_from _ _ = Some _ |- _ => apply try_from_Some in E as [-> _] end.
  match goal with E : verify_guard_headers _ _ _ _ _ _ _ = Ok _ |- _ =>
    destruct (verified_guard_headers _ _ _ _ _ _ _ E) as (text & sequence & ? & ? & ? & ? & ?) end.
  match goal with E : required_lookup _ _ ?l = Ok _ |- _ =>
    destruct l as [message| |] eqn:El; cbn in E; simplify_eq end.
  match goal with E : from_slice _ = Ok ?g |- _ => destruct g; cbn in *; subst end.
  eexists _, sequence, text, _. by split_and!.
Qed.

(** ** All participants *)

Context (messages : N → RawLookup) (histories : StreamId → result History EventStoreError).
Context (layout : TransactionSubjectLayout).

Lemma materialize_step_Ok x st wire st' :
  (∀ stream h, histories stream = Ok h → subject_history_ok stream h) →
  materialize_step config messages histories layout x st wire = Ok st' →
  ∃ s, ms_streams st' = ms_streams st ++ [s]
    ∧ (∀ rest, evidenced messages histories layout x (ms_transaction_event_ordinal st') (ms_guard_ordinal st') rest →
         evidenced messages histories layout x (ms_transaction_event_ordinal st) (ms_guard_ordinal st) (s :: rest)).
Proof.
  intros Hh H. unfold materialize_step in H.
  apply rbind_Ok in H as (stream & Hstream & H). destruct (bool_decide _); [done|].
  apply rbind_Ok in H as (h & Eh & H). apply rbind_Ok in H as (events & Hev & H).
  apply rbind_Ok in H as (guards' & Hg & H). apply rbind_Ok in H as (ordinal & Ho & H).
  apply ok_or_Ok, checked_add_Some in Ho as [-> _]. injection H as <-.
  cbn [ms_streams ms_transaction_event_ordinal ms_guard_ordinal].
  eexists. split; [done|]. intros rest He. cbn [evidenced sr_stream_id sr_events]. exists h.
  split; [done|]. specialize (Hh _ _ Eh).
  destruct (materialized_participant _ _ _ _ _ _ _ Hh Hev) as [[-> Hb]|[c Hc]].
  - rewrite len_nil, N.eqb_refl in Hg. apply rbind_Ok in Hg as ([] & Hv & Hg).
    apply ok_or_Ok, checked_add_Some in Hg as [-> _]. rewrite len_nil, N.add_0_r in He.
    split; [by eapply verified_guard|done].
  - pose proof (ce_nonempty _ _ _ _ _ Hc) as Hne. rewrite <- (ce_events _ _ _ _ _ Hc) in Hne.
    cbn [sr_events] in Hne. rewrite (proj2 (N.eqb_neq _ _)) in Hg by (by intros ?%len_0).
    injection Hg as <-. destruct events; [done|]. split; [by exists c|done].
Qed.

Lemma materialize_loop_Ok x wires st st' :
  (∀ stream h, histories stream = Ok h → subject_history_ok stream h) →
  try_fold (materialize_step config messages histories layout x) st wires = Ok st' →
  ms_transaction_event_ordinal st' = rcx_event_count x →
  ∃ streams, ms_streams st' = ms_streams st ++ streams
    ∧ evidenced messages histories layout x (ms_transaction_event_ordinal st) (ms_guard_ordinal st) streams.
Proof.
  intros Hh. revert st; induction wires as [|wire wires IH]; intros st; cbn [try_fold].
  - intros [= ->] He. exists []. by rewrite app_nil_r.
  - intros (mid & Hs & H)%rbind_Ok He.
    destruct (materialize_step_Ok _ _ _ _ Hh Hs) as (s & Es & Hev).
    destruct (IH _ H He) as (streams & El & Hrest). exists (s :: streams).
    split; [by rewrite El, Es, <- app_assoc|by apply Hev].
Qed.

(** The identity of a context is the one of the assembled receipt. *)
Lemma context_actor decoded x :
  receipt_context decoded = Ok x → ti_actor (rcx_identity x) = trc_actor (dtr_content decoded).
Proof. unfold receipt_context. intros H. by guards. Qed.

Lemma assembled_receipt content t streams r :
  ti_actor t = trc_actor content → assemble_receipt content t streams = Ok r →
  t = mkTransactionIdentity (tr_operation_id r) (tr_operation_fingerprint r) (tr_correlation_id r)
        (tr_causation_id r) (tr_actor r)
  ∧ tr_streams r = streams.
Proof.
  unfold assemble_receipt. intros Ha H. apply rbind_Ok in H as (context & _ & H).
  rewrite <- Ha in H. destruct t as [op fp [?|] [?|] [?|]]; cbn in H;
    (destruct (trc_security_scope content); [apply rbind_Ok in H as (? & Hs & H);
       apply rmap_Ok in Hs as (? & _ & <-)|]); cbn in H; destruct (trc_completion content);
    injection H as <-; done.
Qed.

Lemma restored_binding key manifest integrity m :
  restore_manifest key manifest integrity = Ok m →
  mk_integrity m = integrity ∧ ref_key (mk_reference m) = key.
Proof. unfold restore_manifest. intros H. by guards. Qed.

Lemma transpose_Some {A E} (o : option (result A E)) a : transpose o = Ok (Some a) → o = Some (Ok a).
Proof. destruct o as [[]|]; cbn; congruence. Qed.

Lemma materialized_Ok authority decoded m :
  (∀ stream h, histories stream = Ok h → subject_history_ok stream h) →
  materialize_transaction_receipt config authority messages histories decoded layout = Ok m →
  (integrity_ok (mtr_receipt m)
   ∧ evidenced messages histories layout (materialized_context m) 0 0 (tr_streams (mtr_receipt m))
   ∧ ∀ marker, mtr_marker m = Some marker →
       mk_integrity marker = mtr_receipt m
       ∧ ref_key (mk_reference marker) = nats_outcome_key config authority (tr_operation_id (mtr_receipt m)))
  ∧ receipt_context decoded = Ok (materialized_context m).
Proof.
  intros Hh H. unfold materialize_transaction_receipt in H.
  apply rbind_Ok in H as (x & Hx & H). apply rbind_Ok in H as (st & Hst & H).
  destruct (negb _) eqn:Ec; [done|]. apply negb_false_iff, N.eqb_eq in Ec.
  apply rbind_Ok in H as (r & Hr & H). apply rbind_Ok in H as ([] & Hi%validate_integrity_Ok & H).
  apply rbind_Ok in H as (marker & Hm & [= <-]).
  destruct (materialize_loop_Ok _ _ _ _ Hh Hst Ec) as (streams & Hs & He).
  destruct (assembled_receipt _ _ _ _ (context_actor _ _ Hx) Hr) as [Hid Hstreams].
  assert (materialized_context (mkMaterialized r marker (rcx_batch_id x) (rcx_batch_start x)
    (rcx_event_count x)) = x) as Hctx.
  { unfold materialized_context; cbn [mtr_receipt mtr_batch_id mtr_batch_start_stream_sequence
      mtr_transaction_event_count]. rewrite <- Hid. by destruct x. }
  rewrite Hctx. cbn [mtr_receipt mtr_marker]. split; [split_and!; [done|by rewrite Hstreams, Hs|]|done].
   intros found ->. apply transpose_Some in Hm. destruct (trc_manifest _) as [encoded|]; [|done].
    injection Hm as Hm. apply rbind_Ok in Hm as (bytes & _ & Hm). by eapply restored_binding.
Qed.

(** A transaction receipt read back from the store says only what
    the store holds: when it materialises, its streams are distinct and every
    event carries its coordinates; every written participant is one commit of
    its stream's history, recorded at the base version under the transaction's
    identity and lying at its place of the transaction's batch; every read
    participant has the guard message that asserted its base version, after the
    events, in order; together the written events are all the events of the
    batch; and a marker is bound to this receipt and this operation. *)
Theorem materialized_receipt_is_evidenced authority decoded m :
  (∀ stream h, histories stream = Ok h → subject_history_ok stream h) →
  materialize_transaction_receipt config authority messages histories decoded layout = Ok m →
  integrity_ok (mtr_receipt m)
  ∧ evidenced messages histories layout (materialized_context m) 0 0 (tr_streams (mtr_receipt m))
  ∧ ∀ marker, mtr_marker m = Some marker →
      mk_integrity marker = mtr_receipt m
      ∧ ref_key (mk_reference marker) = nats_outcome_key config authority (tr_operation_id (mtr_receipt m)).
Proof. intros Hh H. apply (materialized_Ok _ _ _ Hh H). Qed.

(** ** The commits of a receipt *)

Lemma evidenced_count x offset guards streams :
  evidenced messages histories layout x offset guards streams → offset <= rcx_event_count x.
Proof.
  revert offset guards; induction streams as [|s rest IH]; intros offset guards; cbn; [lia|].
  intros (h & _ & H). destruct (sr_events s) eqn:Es; [by eapply IH, H|].
  destruct H as [_ H%IH]. lia.
Qed.

Lemma evidenced_elem x offset guards streams s :
  evidenced messages histories layout x offset guards streams → s ∈ streams → sr_events s ≠ [] →
  ∃ h o c, histories (sr_stream_id s) = Ok h ∧ commit_evidence x h s o c ∧ o <= rcx_event_count x.
Proof.
  revert offset guards; induction streams as [|s' rest IH]; intros offset guards; cbn;
    [by intros _ ?%not_elem_of_nil|].
  intros (h & Eh & H) [->|Hin]%elem_of_cons Hne.
  - destruct (sr_events s') eqn:Es; [done|]. destruct H as [[c Hc] H%evidenced_count].
    exists h, offset, c. split_and!; [done..|]. lia.
  - destruct (sr_events s'); destruct H as [_ H]; by eapply IH.
Qed.

Lemma first_event stream v c :
  commit_ok stream v c → ∃ e, head (cm_events c) = Some e ∧ re_stream_id e = stream
    ∧ re_stream_version e = mkStreamVersion (v + 1) ∧ re_commit_id e = eb_commit_id (cm_batch c).
Proof.
  intros Hc. destruct (co_batch_ok _ _ _ Hc) as [[Hn _] _ _].
  destruct (eb_events (cm_batch c)) as [|n news] eqn:En; [by unfold len in Hn; cbn in Hn|].
  rewrite (co_events _ _ _ Hc). unfold record_group. rewrite En. cbn. eexists. split_and!; [done..| |done].
  cbn. do 2 f_equal. lia.
Qed.

(** A commit of a history is known by its events. *)
Lemma commit_of_events stream h c c' :
  subject_history_ok stream h → c ∈ nh_commits h → c' ∈ nh_commits h →
  cm_events c = cm_events c' → c = c'.
Proof.
  intros Hh Hc Hc' He.
  destruct (commits_ok_elem _ _ _ _ (sh_commits _ _ Hh) Hc) as (v & Hv).
  destruct (commits_ok_elem _ _ _ _ (sh_commits _ _ Hh) Hc') as (v' & Hv').
  destruct (first_event _ _ _ Hv) as (e & E & _ & _ & Hi).
  destruct (first_event _ _ _ Hv') as (e' & E' & _ & _ & Hi').
  assert (eb_commit_id (cm_batch c) = eb_commit_id (cm_batch c')) as Heq by congruence.
  pose proof (sh_commit_ids _ _ Hh) as Hnd.
  apply list_elem_of_lookup in Hc as (i & Hi1), Hc' as (j & Hj).
  assert (i = j) as ->; [|congruence].
  apply (NoDup_lookup _ _ _ (eb_commit_id (cm_batch c)) Hnd); rewrite list_lookup_fmap, ?Hi1, ?Hj; cbn; congruence.
Qed.

(** The batch of a commit in evidence starts where the context says. *)
Lemma evidence_batch_start x h s offset c p :
  commit_evidence x h s offset c → rcx_batch_start x ≠ 0 → offset <= u64_max →
  cm_transaction c = Some p → transaction_batch_start_sequence c p = Ok (rcx_batch_start x).
Proof.
  intros Hc Hb Ho Hp. rewrite (ce_provenance _ _ _ _ _ Hc) in Hp. injection Hp as <-.
  unfold transaction_batch_start_sequence. rewrite (ce_sequences _ _ _ _ _ Hc).
  pose proof (ce_nonempty _ _ _ _ _ Hc). destruct (cm_events c); [done|]. cbn [imap head ok_or rbind stp_start].
  rewrite (proj2 (try_from_Some _ _ offset)) by done. cbn [ok_or rbind].
  rewrite (proj2 (checked_sub_Some _ offset (rcx_batch_start x))) by lia. cbn [ok_or rbind].
  by rewrite (proj2 (N.eqb_neq _ _)).
Qed.

Lemma context_bounds decoded x :
  receipt_context decoded = Ok x → rcx_batch_start x ≠ 0 ∧ rcx_event_count x <= MAX_EVENTS_PER_BATCH.
Proof. unfold receipt_context. intros H. by guards. Qed.

Lemma find_stream r s first :
  NoDup (sr_stream_id <$> tr_streams r) → s ∈ tr_streams r → sr_stream_id s = re_stream_id first →
  find (λ s, bool_decide (sr_stream_id s = re_stream_id first)) (tr_streams r) = Some s.
Proof.
  intros Hnd Hel Hs. destruct (find _ _) as [s'|] eqn:Ef.
  - apply find_some in Ef as [Hel'%list_elem_of_In Hid%bool_decide_eq_true].
    apply list_elem_of_lookup in Hel as (i & Hi), Hel' as (j & Hj).
    assert (i = j) as ->; [|congruence].
    apply (NoDup_lookup _ _ _ (sr_stream_id s) Hnd); rewrite list_lookup_fmap, ?Hi, ?Hj; cbn; congruence.
  - apply list_elem_of_In in Hel. pose proof (find_none _ _ Ef _ Hel) as Hn. cbn in Hn.
    by rewrite Hs, bool_decide_eq_true_2 in Hn.
Qed.

Lemma covered_by_evidence m h s o c :
  integrity_ok (mtr_receipt m) → s ∈ tr_streams (mtr_receipt m) →
  commit_evidence (materialized_context m) h s o c → o <= u64_max →
  mtr_batch_start_stream_sequence m ≠ 0 → transaction_receipt_covers_commit m c = true.
Proof.
  intros Hi Hel Hc Hb Ho. unfold transaction_receipt_covers_commit.
  rewrite (ce_provenance _ _ _ _ _ Hc).
  rewrite (evidence_batch_start _ _ _ _ _ _ Hc Ho Hb (ce_provenance _ _ _ _ _ Hc)).
  pose proof (ce_identity _ _ _ _ _ Hc) as Hid. pose proof (ce_placed _ _ _ _ _ Hc) as Hp.
  cbn [materialized_context rcx_identity rcx_batch_id rcx_batch_start rcx_event_count stp_batch_id stp_start
    stp_transaction_event_count] in *.
  rewrite Hid, String.eqb_refl, N.eqb_refl, bool_decide_eq_true_2 by done. cbn [negb orb].
  assert (∃ first, head (cm_events c) = Some first ∧ re_stream_id first = sr_stream_id s
    ∧ version_value (re_stream_version first) = version_value (sr_base_version s) + 1) as (first & Ef & Hs & Hv).
  { rewrite (ce_recorded _ _ _ _ _ Hc). pose proof (ce_nonempty _ _ _ _ _ Hc) as Hne.
    rewrite (ce_recorded _ _ _ _ _ Hc) in Hne. unfold record_group in *.
    destruct (eb_events (cm_batch c)); [done|]. cbn. eexists. split_and!; [done..|]. cbn. lia. }
  rewrite Ef, (find_stream _ s first) by (done || apply Hi). rewrite Hp.
  rewrite (proj2 (checked_sub_Some _ 1 (version_value (sr_base_version s)))) by lia.
  cbn [is_some_and andb]. rewrite N.eqb_refl.
  by rewrite (ce_events _ _ _ _ _ Hc), bool_decide_eq_true_2.
Qed.

(** Which commits a receipt covers: of the history of a stream,
    exactly those whose events are the ones the receipt lists for that stream.
    The check by provenance and position that repairs a lost acknowledgement
    therefore neither misses a commit of the transaction nor takes another one
    for it. *)
Theorem receipt_covers_exactly_its_commits authority decoded m stream h c :
  (∀ stream h, histories stream = Ok h → subject_history_ok stream h) →
  materialize_transaction_receipt config authority messages histories decoded layout = Ok m →
  histories stream = Ok h → c ∈ nh_commits h →
  transaction_receipt_covers_commit m c = true ↔
  ∃ s, s ∈ tr_streams (mtr_receipt m) ∧ sr_stream_id s = stream ∧ sr_events s = cm_events c.
Proof.
  intros Hh H Eh Hin. destruct (materialized_Ok _ _ _ Hh H) as [(Hi & He & _) Hx].
  destruct (context_bounds _ _ Hx) as [Hb Hcount].
  destruct (commits_ok_elem _ _ _ _ (sh_commits _ _ (Hh _ _ Eh)) Hin) as (v & Hc).
  destruct (first_event _ _ _ Hc) as (first & Ef & Hfs & _ & _). split.
  - unfold transaction_receipt_covers_commit. rewrite Ef. destruct (cm_transaction c); [|done].
    destruct (_ || _); [done|]. destruct (find _ _) as [found|] eqn:Efind; [|done].
    apply find_some in Efind as [Hel%list_elem_of_In Hid%bool_decide_eq_true].
    intros [_ Hev%bool_decide_eq_true]%andb_true_iff. exists found. split_and!; [done|congruence|done].
  - intros (s & Hel & Hid & Hev).
    assert (sr_events s ≠ []) as Hne by (intros E; by rewrite <- Hev, E in Ef).
    destruct (evidenced_elem _ _ _ _ _ He Hel Hne) as (h' & o & c' & Eh' & Hce & Ho).
    assert (h' = h) as -> by congruence.
    assert (c' = c) as -> by (eapply (commit_of_events stream); [by apply Hh|apply Hce|done|];
      rewrite <- Hev; symmetry; apply Hce).
    eapply (covered_by_evidence _ h s o); try done. unfold MAX_EVENTS_PER_BATCH, u64_max in *. lia.
Qed.

End Facts.
