(* ===== verification/NatsOutcomes.v ===== *)
(** * NatsOutcomes: the last-value state of completed outcomes in a split NATS
    authority - how details are prepared, read back, recovered and expired
    (crates/rostfrei-nats/src/event_store/outcomes.rs) - and its theorems.

    Each function takes what the server answers to its requests. *)

From S2P Require Export NatsAuthority NatsReceipt.

(** ** Wire values *)

Inductive StateValue :=
| ActiveState (bytes : string)
| ExpiredState (previous : N) (revision : string).

Record StateEnvelope := mkStateEnvelope {
  env_version : N;
  env_binding : string;
  env_state : StateValue;
}.

Record ObservedState := mkObservedState {
  os_sequence : N;
  os_value : StateValue;
}.

Definition revision_to_hex (r : OutcomeRevision) : string := to_hex (revision_fingerprint r).

(** ** The proposal a receipt records *)

Definition proposal_event (e : RecordedEvent) : result NewEvent EventStoreError :=
  map_err (λ error, corrupt (EnvelopeError_display error))
    (NewEvent_new (re_event_id e) (re_event_type e) (re_schema_version e) (re_payload e)).

(** The batch of a participant of the receipt *)
Definition proposal_batch (receipt : TransactionReceipt) (stream : TransactionStreamReceipt)
  : result (option EventBatch) EventStoreError :=
  match head (sr_events stream) with
  | None => Ok None
  | Some first =>
    let? events := try_map proposal_event (sr_events stream) in
    let? batch := map_err (λ error, corrupt (EnvelopeError_display error))
      (EventBatch_new (re_commit_id first) (tr_operation_id receipt) (tr_operation_fingerprint receipt) events) in
    let batch := from_option (batch_with_correlation_id batch) batch (tr_correlation_id receipt) in
    let batch := from_option (batch_with_causation_id batch) batch (tr_causation_id receipt) in
    let batch := from_option (batch_with_actor batch) batch (tr_actor receipt) in
    Ok (Some batch)
  end.

Definition proposal_participant (receipt : TransactionReceipt) (stream : TransactionStreamReceipt)
  : result TransactionParticipant EventStoreError :=
  let? batch := proposal_batch receipt stream in
  Ok (mkParticipant (sr_stream_id stream)
        (if bool_decide (sr_base_version stream = version_zero) then NoStream
         else Exact (sr_base_version stream)) batch).

Definition proposal_from_receipt `{SHA : Sha256} (receipt : TransactionReceipt)
  : result EventTransaction EventStoreError :=
  let? _ := validate_integrity receipt in
  let? participants := try_map (proposal_participant receipt) (tr_streams receipt) in
  let t := EventTransaction_new (tr_operation_id receipt) (tr_operation_fingerprint receipt) participants in
  let t := from_option (tx_with_bounded_context t) t (tr_bounded_context receipt) in
  let t := from_option (tx_with_correlation_id t) t (tr_correlation_id receipt) in
  let t := from_option (tx_with_causation_id t) t (tr_causation_id receipt) in
  let t := from_option (tx_with_security_scope t) t (tr_security_scope receipt) in
  let t := from_option (tx_with_actor t) t (tr_actor receipt) in
  Ok (from_option (tx_with_completion t) t (tr_completion receipt)).

Section Outcomes.
Context `{SHA : Sha256} `{OJ : OutcomeJson} `{B64 : Base64} `{HM : HeaderMapApi} `{HN : AtomicHeaderNames}.
Context `{EC : ErrorCodes} `{AJ : AckJson} `{SJ : Json StateEnvelope}.
Context (s : NatsEventStore).
#[local] Notation config := (ns_config s).

Definition validate_recovered (marker : OutcomeMarker) (details : EncodedOutcomeDetails)
  : result unit EventStoreError :=
  let receipt := from_option (tr_with_completion (mk_integrity marker)) (mk_integrity marker) (ed_completion details) in
  let? proposal := proposal_from_receipt receipt in
  let? (reconstructed, _) := prepare (key_authority (ref_key (mk_reference marker))) proposal receipt in
  fail! negb (bool_decide (reconstructed = marker))
    with corrupt "recovered details/proposal/permanent manifest mismatch";
  Ok tt.

(** ** Reading the state *)

(** The checks on the headers of a state message *)
Definition validate_state_headers (message : RawMessage) : result unit EventStoreError :=
  let invalid_state := corrupt "invalid outcome state coordinates or headers" in
  let? _ := require_header (rm_headers message) "Nats-Expected-Stream" (nc_outcome_state_stream_name config)
    invalid_state in
  let? _ := require_optional_header (rm_headers message) "Nats-Msg-Id" None invalid_state in
  let? _ := require_optional_header (rm_headers message) "Nats-Rollup" None invalid_state in
  require_optional_header (rm_headers message) "KV-Operation" None invalid_state.

(** The evidence for a state at a sequence, created with [expected] *)
Definition validate_state_value (marker : OutcomeMarker) (sequence : N) (expected : string)
    (state : StateValue) : result unit EventStoreError :=
  match state with
  | ActiveState bytes =>
    fail! negb (String.eqb expected "0") with corrupt "Active was not created with raw CAS0";
    let? bytes := map_err corrupt (base64_decode bytes) in
    let? details := details_decode (mk_reference marker) bytes in
    fail! negb (bool_decide (ed_reference details = mk_reference marker))
      with corrupt "detail reference differs";
    Ok tt
  | ExpiredState previous revision =>
    fail! negb (String.eqb revision (revision_to_hex (mk_revision marker)))
      with corrupt "expired state belongs to another winning revision";
    fail! (previous =? 0) || (sequence <=? previous) || negb (String.eqb expected (n_to_string previous))
      with corrupt "expired state has invalid transition evidence";
    Ok tt
  end.

(** [read_state]: [authority] is the result of [verify_authority], [lookup] the
    last message of the state's subject. *)
Definition read_state (marker : OutcomeMarker) (authority : result (option StreamInfo) EventStoreError)
    (lookup : RawLookup) : result ObservedState EventStoreError :=
  let? stream := authority in
  let? _ := ok_or stream (configuration "outcome state requires split authority") in
  let? manifest := reference_encode (mk_reference marker) in
  let subject := outcome_state_subject config manifest in
  let? message := match lookup with
                  | MessageFound message => Ok message
                  | NoMessageFound => Err (corrupt "completed outcome state/lifecycle evidence is missing")
                  | LookupFailed error => Err (unavailable ("outcome state read failed: " +:+ error))
                  end in
  fail! negb (String.eqb (rm_subject message) subject) || (rm_sequence message =? 0)
    with corrupt "invalid outcome state coordinates or headers";
  let? _ := validate_state_headers message in
  let? envelope := map_err corrupt (from_slice (A := StateEnvelope) (rm_payload message)) in
  fail! negb (env_version envelope =? 1) || negb (String.eqb (env_binding envelope) (base64_encode manifest))
    with corrupt "outcome state format/reference binding mismatch";
  let? expected := required_single_header (rm_headers message) "Nats-Expected-Last-Subject-Sequence" in
  let? _ := validate_state_value marker (rm_sequence message) expected (env_state envelope) in
  Ok (mkObservedState (rm_sequence message) (env_state envelope)).

(** ** Writing the state *)

(** The message [publish_state] sends *)
Definition state_message (marker : OutcomeMarker) (value : StateValue) (expected : N)
  : result SentMessage EventStoreError :=
  let? manifest := reference_encode (mk_reference marker) in
  let? payload := map_err invalid (to_vec (mkStateEnvelope 1 (base64_encode manifest) value)) in
  fail! limit_value (nc_max_event_bytes config) <? len payload
    with invalid "outcome state exceeds configured message limit";
  let h := headers_insert "Content-Type" "application/json" headers_new in
  let h := headers_insert NATS_EXPECTED_STREAM (nc_outcome_state_stream_name config) h in
  let h := headers_insert NATS_EXPECTED_LAST_SUBJECT_SEQUENCE (n_to_string expected) h in
  Ok (mkSentMessage (outcome_state_subject config manifest) h payload).

(** The sequence the server acknowledges *)
Definition state_acknowledged (expected : N) (reply : result (list byte) string)
  : result N EventStoreError :=
  let? payload := map_err (λ error, unavailable ("state CAS acknowledgement unknown: " +:+ error)) reply in
  let? ack := map_err (λ e, match e with
                            | PublishExpectation => store_error Conflict "state CAS did not match"
                            | PublishStore error => error
                            end) (decode_atomic_publish_response payload) in
  fail! negb (String.eqb (apa_stream ack) (nc_outcome_state_stream_name config)) || (apa_sequence ack =? 0)
        || (apa_sequence ack <=? expected) || is_some (apa_batch ack)
    with corrupt "invalid state CAS PubAck";
  Ok (apa_sequence ack).

(** [publish_state]: the message sent, if any, and the sequence it got *)
Definition publish_state (marker : OutcomeMarker) (value : StateValue) (expected : N)
    (authority : result (option StreamInfo) EventStoreError) (reply : result (list byte) string)
  : option SentMessage * result N EventStoreError :=
  match (let? _ := authority in state_message marker value expected) with
  | Err error => (None, Err error)
  | Ok message => (Some message, state_acknowledged expected reply)
  end.

(** What the server answers to a state transition: the check before it, its
    acknowledgement, and the check and the message of the read after it *)
Record StateAnswers := mkStateAnswers {
  sta_authority : result (option StreamInfo) EventStoreError;
  sta_reply : result (list byte) string;
  sta_read_authority : result (option StreamInfo) EventStoreError;
  sta_lookup : RawLookup;
}.

(** An acknowledged sequence that is not the one read *)
Definition acknowledged_otherwise (result : result N EventStoreError) (sequence : N) : bool :=
  match result with Ok ack => negb (ack =? sequence) | Err _ => false end.
Definition first_error {A} (result : result A EventStoreError) (error : EventStoreError) : EventStoreError :=
  match result with Ok _ => error | Err e => e end.

Definition prepare_details (marker : OutcomeMarker) (bytes : list byte) (a : StateAnswers)
  : option SentMessage * result unit EventStoreError :=
  let (sent, result) := publish_state marker (ActiveState (base64_encode bytes)) 0 (sta_authority a) (sta_reply a) in
  (sent,
   match read_state marker (sta_read_authority a) (sta_lookup a) with
   | Ok (mkObservedState sequence (ActiveState actual)) =>
     let? actual := map_err corrupt (base64_decode actual) in
     fail! negb (bool_decide (actual = bytes)) || acknowledged_otherwise result sequence
       with corrupt "prepared state differs from exact candidate";
     Ok tt
   | Ok _ => Err (store_error CompletedDetailsExpired "candidate details are permanently expired")
   | Err error => Err (first_error result error)
   end).

(** ** Recovering an outcome *)

(** The details of an observed state, by the configured readers *)
Definition state_details (marker : OutcomeMarker) (state : StateValue)
  : result (OutcomeDetails EncodedOutcomeDetails) EventStoreError :=
  match state with
  | ExpiredState _ _ => Ok Expired
  | ActiveState bytes =>
    match ns_detail_readers s with
    | Some (hot, cold) =>
      let? details := map_err in_outcome_recovery (resolve_details (mk_reference marker) hot cold) in
      let? _ := match details with
                | Available value => map_err in_outcome_recovery (validate_recovered marker value)
                | _ => Ok tt
                end in
      Ok details
    | None =>
      let? bytes := map_err corrupt (base64_decode bytes) in
      let? details := details_decode (mk_reference marker) bytes in
      let? _ := map_err in_outcome_recovery (validate_recovered marker details) in
      Ok (Available details)
    end
  end.

Definition nats_resolve_marker (marker : OutcomeMarker) (observed : result ObservedState EventStoreError)
  : result (CompletedOutcome EncodedOutcomeDetails) EventStoreError :=
  let? observed := map_err in_outcome_recovery observed in
  let? details := state_details marker (os_value observed) in
  map_err (λ _, in_outcome_recovery
                  (corrupt "completed outcome details do not match the immutable winning reference"))
    (CompletedOutcome_new marker details).

(** [recovery_error]: [debug_str] is the [Debug] text of a string, which the
    display of an archive reference contains. *)
Definition nats_recovery_error (debug_str : string → string) (error : OutcomeRecoveryError) : EventStoreError :=
  in_outcome_recovery (store_error
    match error with
    | RecoveryExpired => CompletedDetailsExpired
    | IntegrityMismatch => CorruptHistory
    | _ => CompletedDetailsUnavailable
    end (OutcomeRecoveryError_display debug_str error)).

(** The receipt of an operation without a marker, scoped as the configuration says *)
Definition legacy_scoped (receipt : TransactionReceipt) : result TransactionReceipt EventStoreError :=
  match nc_legacy_security_scope config with
  | Some scope =>
    fail! is_some_and (λ stored, negb (bool_decide (stored = scope))) (tr_security_scope receipt)
      with in_outcome_recovery (configuration "legacy scope mapping contradicts retained scope");
    Ok (tr_with_security_scope receipt scope)
  | None =>
    fail! is_some (tr_security_scope receipt)
      with in_outcome_recovery
             (configuration "policy-enabled legacy replay requires an explicit fixed scope mapping");
    Ok receipt
  end.

(** The outcome of an inline receipt: marker and details are rebuilt from it. *)
Definition inline_outcome (debug_str : string → string) (receipt : TransactionReceipt)
  : result (CompletedOutcome EncodedOutcomeDetails) EventStoreError :=
  fail! is_none (tr_completion receipt)
    with in_outcome_recovery (configuration "legacy acceptance authority is unaudited");
  let? receipt := legacy_scoped receipt in
  let? proposal := map_err in_outcome_recovery (proposal_from_receipt receipt) in
  let? (marker, bytes) := map_err in_outcome_recovery (prepare (ns_authority s) proposal receipt) in
  let? details := map_err in_outcome_recovery (details_decode (mk_reference marker) bytes) in
  map_err (nats_recovery_error debug_str) (CompletedOutcome_new marker (Available details)).

(** [lookup_outcome]: [journal] is the result of [verify_journal], [stored] the
    receipt loaded from it, [authority] the check that permits an execution, and
    [observed] the state of a marker. *)
Definition nats_lookup_outcome (debug_str : string → string) (key : OutcomeKey)
    (journal : result StreamInfo EventStoreError)
    (stored : result (option MaterializedTransactionReceipt) EventStoreError)
    (authority : result (option StreamInfo) EventStoreError)
    (observed : OutcomeMarker → result ObservedState EventStoreError)
  : result (OutcomeLookup EncodedOutcomeDetails) EventStoreError :=
  let? _ := validate_outcome_key s key in
  let? _ := journal in
  let? stored := map_err in_outcome_recovery stored in
  match stored with
  | None =>
    fail! negb (nc_split_outcomes config) || nc_read_only_outcomes config
      with configuration "missing outcome in read-only authority is not permission to execute";
    let? _ := authority in
    Ok Missing
  | Some stored =>
    match mtr_marker stored with
    | Some marker => rmap Completed (nats_resolve_marker marker (observed marker))
    | None => rmap Completed (inline_outcome debug_str (mtr_receipt stored))
    end
  end.

(** ** Expiring details *)

(** What the server answers to an expiry, in the order it is asked *)
Record ExpiryAnswers := mkExpiryAnswers {
  ea_authority : result (option StreamInfo) EventStoreError;
  ea_stored : result (option MaterializedTransactionReceipt) EventStoreError;
  ea_read_authority : result (option StreamInfo) EventStoreError;
  ea_lookup : RawLookup;
  ea_transition : StateAnswers;
  ea_previous : option RawLookup;  (** the old message; [None] when its stream could not be had *)
}.

(** The transition from a valid active state to the expired one: the sequence of
    the state it replaced *)
Definition expire_active (marker : OutcomeMarker) (expected : OutcomeRevision) (sequence : N) (bytes : string)
    (a : StateAnswers) : option SentMessage * result N EventStoreError :=
  match (let? bytes := map_err corrupt (base64_decode bytes) in
         let? details := details_decode (mk_reference marker) bytes in
         validate_recovered marker details) with
  | Err error => (None, Err error)
  | Ok _ =>
    let (sent, result) := publish_state marker (ExpiredState sequence (revision_to_hex expected)) sequence
                            (sta_authority a) (sta_reply a) in
    (sent,
     match read_state marker (sta_read_authority a) (sta_lookup a) with
     | Ok (mkObservedState sequence (ExpiredState previous _)) =>
       fail! acknowledged_otherwise result sequence
         with corrupt "expiry PubAck differs from terminal sequence";
       Ok previous
     | Ok _ => Err (first_error result (unavailable "expiry transition remains unconfirmed"))
     | Err error => Err (first_error result error)
     end)
  end.

(** The marker to expire, after the checks that come first *)
Definition expiry_marker (key : OutcomeKey) (expected : OutcomeRevision) (a : ExpiryAnswers)
  : result OutcomeMarker OutcomeLifecycleError :=
  let? _ := map_err LifecycleStore (validate_outcome_key s key) in
  fail! negb (nc_split_outcomes config) || negb (nc_explicit_detail_expiry config) || nc_read_only_outcomes config
    with LifecycleUnsupported;
  let? _ := map_err LifecycleStore (ea_authority a) in
  let? stored := map_err LifecycleStore (ea_stored a) in
  let? stored := ok_or stored LifecycleMissing in
  let? marker := ok_or (mtr_marker stored) LifecycleUnsupported in
  fail! negb (bool_decide (mk_revision marker = expected)) with RevisionMismatch;
  Ok marker.

(** [expire_details]: the message sent, if any, and the result *)
Definition nats_expire_details (key : OutcomeKey) (expected : OutcomeRevision) (a : ExpiryAnswers)
  : option SentMessage * result OutcomeExpiry OutcomeLifecycleError :=
  match expiry_marker key expected a with
  | Err error => (None, Err error)
  | Ok marker =>
    let (sent, previous) :=
      match read_state marker (ea_read_authority a) (ea_lookup a) with
      | Err error => (None, Err error)
      | Ok (mkObservedState _ (ExpiredState previous _)) => (None, Ok previous)
      | Ok (mkObservedState sequence (ActiveState bytes)) =>
        expire_active marker expected sequence bytes (ea_transition a)
      end in
    (sent,
     let? previous := map_err LifecycleStore previous in
     Ok (mkOutcomeExpiry expected
           (match ea_previous a with Some NoMessageFound => Reclaimed | _ => ReclamationPending end)))
  end.

(** [NativeDetailReader::get] *)
Definition native_detail_reader (stored : result (option MaterializedTransactionReceipt) EventStoreError)
    (observed : OutcomeMarker → result ObservedState EventStoreError) : DetailReader := λ reference,
  map_err (λ e, match se_kind e with
                | Unavailable => ReadUnavailable
                | ConfigurationMismatch => ReadConfigurationMismatch
                | DetailForbidden => ReadForbidden
                | _ => ReadCorrupt
                end)
    (let? _ := validate_outcome_key s (ref_key reference) in
     let? stored := stored in
     let? stored := ok_or stored (corrupt "detail winner missing") in
     let? marker := ok_or (mtr_marker stored) (configuration "inline authority has no split reader") in
     fail! negb (bool_decide (mk_reference marker = reference))
       with corrupt "detail reference is not the winning reference";
     let? state := observed marker in
     match os_value state with
     | ActiveState bytes => rmap Found (map_err corrupt (base64_decode bytes))
     | ExpiredState _ _ => Ok AbsentHere
     end).
End Outcomes.

(** * What the last-value state of a completed outcome guarantees - a proposal is rebuilt from
    its receipt, a prepared marker is recovered, prepared details are durable and an
    expiry is final. *)

(** A batch as its constructors leave it. *)
Definition proposed_batch_ok (b : EventBatch) : Prop := batch_ok b ∧ Forall new_event_ok (eb_events b).
Definition proposed_ok (t : EventTransaction) : Prop :=
  ∀ p b, p ∈ tx_participants t → tp_batch p = Some b → proposed_batch_ok b.

(** The receipt of a proposal, with its decision inline *)
Definition completed_receipt (t : EventTransaction) (r : TransactionReceipt) : TransactionReceipt :=
  from_option (tr_with_completion (without_completion r)) (without_completion r) (tx_completion t).

Section Facts.
Context `{SHA : Sha256} `{OJ : OutcomeJson} `{B64 : Base64} `{HM : HeaderMapApi} `{HN : AtomicHeaderNames}.
Context `{EC : ErrorCodes} `{AJ : AckJson} `{SJ : Json StateEnvelope}.

(** ** The proposal of a receipt *)

Lemma proposal_events_restored news events :
  Forall new_event_ok news → Forall2 same_content news events →
  try_map proposal_event events = Ok news.
Proof.
  intros Hn Hs. apply try_map_Ok. induction Hs as [|n e news events [Hi Ht Hv Hp] _ IH]; [constructor|].
  inversion Hn as [|? ? Hn1 Hn2]; subst. constructor; [|by apply IH].
  unfold proposal_event. rewrite <- Hi, <- Ht, <- Hv, <- Hp. by rewrite Hn1.
Qed.

Lemma proposal_batch_restored r s b :
  stream_receipt_ok r s → same_batch r s b → proposed_batch_ok b → proposal_batch r s = Ok (Some b).
Proof.
  intros [_ _ Hst] [Hop Hfp Hco Hca Ha Hcm Hev] [Hb Hn]. unfold proposal_batch.
  assert (exists first, head (sr_events s) = Some first) as [first Hf].
  { destruct Hb as [[Hc _] _ _]. destruct Hev; [by unfold len in Hc; cbn in Hc|by eexists]. }
  rewrite Hf. rewrite (proposal_events_restored _ _ Hn Hev). cbn [rbind].
  assert (re_commit_id first = eb_commit_id b) as ->.
  { rewrite Hcm. rewrite head_lookup in Hf. by destruct (Hst _ _ Hf). }
  rewrite (proj2 (EventBatch_new_Ok (eb_commit_id b) (tr_operation_id r) (tr_operation_fingerprint r)
    (eb_events b) _)) by (split; [reflexivity|by destruct Hb]).
  cbn [map_err rbind]. rewrite <- Hop, <- Hfp, <- Hco, <- Hca, <- Ha. do 2 f_equal.
  destruct b as [[?|] ? ? ? ? [?|] [?|]]; done.
Qed.

Lemma expected_restored expected base :
  expected_base expected = Ok base →
  (if bool_decide (base = version_zero) then NoStream else Exact base) = expected.
Proof.
  destruct expected as [|v]; cbn [expected_base]; [by intros [= <-]|].
  case_bool_decide; [done|]. intros [= <-]. by rewrite bool_decide_eq_false_2.
Qed.

Lemma proposal_participant_restored r s p :
  stream_receipt_ok r s → same_participant r s p →
  (∀ b, tp_batch p = Some b → proposed_batch_ok b) → proposal_participant r s = Ok p.
Proof.
  intros Hs [Hid Hbase Hev] Hb. unfold proposal_participant. rewrite (expected_restored _ _ Hbase).
  destruct p as [stream expected [b|]]; cbn in *.
  - rewrite (proposal_batch_restored _ _ b) by auto. cbn [rbind]. by rewrite Hid.
  - unfold proposal_batch. rewrite Hev. cbn [head rbind]. by rewrite Hid.
Qed.

(** [proposal_from_receipt] inverts the recording of a proposal. *)
Lemma proposal_restored r t :
  proposal_ok r t → tr_completion r = tx_completion t → proposed_ok t →
  proposal_from_receipt r = Ok t.
Proof.
  intros [_ _ Hint [Hb Hop Hfp Hco Hca Ha Hsc _] Hps] Hc Ht. unfold proposal_from_receipt.
  rewrite (proj2 (validate_integrity_Ok r) Hint). cbn [rbind].
  rewrite (proj2 (try_map_Ok (proposal_participant r) (tr_streams r) (tx_participants t))).
  - cbn [rbind]. rewrite Hb, Hop, Hfp, Hco, Hca, Ha, Hsc, Hc. f_equal.
    destruct t as [[?|] [?|] [?|] [?|] ? ? [?|] [?|] ?]; done.
  - pose proof (io_events _ Hint) as Hs. unfold proposed_ok in Ht. clear -Hps Hs Ht.
    revert Hs Ht. induction Hps as [|s p ss ps Hsp _ IH]; intros Hs Ht; [constructor|].
    inversion Hs; subst. constructor.
    + apply proposal_participant_restored; try done. intros b Eb. apply (Ht p b); [left|done].
    + apply IH; [done|]. intros p' b Hp. apply Ht. by right.
Qed.

(** ** A prepared marker *)

Lemma completed_receipt_completion t r : tr_completion (completed_receipt t r) = tx_completion t.
Proof. unfold completed_receipt. by destruct (tx_completion t). Qed.

Lemma completed_receipt_without t r : without_completion (completed_receipt t r) = without_completion r.
Proof. unfold completed_receipt. by destruct (tx_completion t). Qed.

(** A receipt matches the same proposals whichever completion it carries. *)
Lemma proposal_ok_recompleted authority t r m bytes :
  prepared authority t r m bytes → proposal_ok (completed_receipt t r) t.
Proof.
  intros Hp. pose proof (prepared_completion_ok _ _ _ _ _ Hp) as Hc.
  pose proof (prepared_rejected _ _ _ _ _ Hp) as Hrej.
  destruct Hp as [[Hval Hit [Hnd Hst _] [? ? ? ? ? ? ? _] Hps] (context & _ & Hm & _) _ _ _ _].
  assert (completed_receipt t r = mkReceipt (tr_actor r) (tr_security_scope r) (tx_completion t)
    (tr_bounded_context r) (tr_operation_id r) (tr_operation_fingerprint r) (tr_correlation_id r)
    (tr_causation_id r) (tr_streams r)) as -> by (unfold completed_receipt; by destruct (tx_completion t)).
  split; [done|done|split; [done| |]|split; try done; by right|].
  - eapply Forall_impl; [exact Hst|]. intros s [Hcn Hsp Hev]. split; [done..|].
    intros i e Hi. by destruct (Hev i e Hi).
  - cbn [tr_completion tr_streams]. intros c Ec. split; [by apply Hc|]. intros Hr.
    assert (marker_decision m = Rejected) as Hd.
    { unfold marker_decision. rewrite Hm. cbn. unfold decision_of. rewrite Ec. cbn.
      by destruct (completion_rejection c). }
    specialize (Hrej Hd). apply Forall_forall. intros s Hs.
    apply not_true_iff_false in Hrej. destruct (sr_events s) eqn:Es; [done|]. exfalso. apply Hrej.
    apply existsb_exists. exists s. split; [by apply list_elem_of_In|]. rewrite Es, len_cons.
    apply negb_true_iff, N.eqb_neq. lia.
  - eapply Forall2_impl; [exact Hps|]. intros s p [Hi Hb He]. split; [done..|].
    destruct (tp_batch p); [|done]. by destruct He.
Qed.

(** Preparing again, against the receipt with its decision inline, gives the
    same marker and bytes. *)
Lemma prepared_again authority t r m bytes :
  prepared authority t r m bytes → prepared authority t (completed_receipt t r) m bytes.
Proof.
  intros Hp. pose proof (proposal_ok_recompleted _ _ _ _ _ Hp) as Ho.
  destruct Hp as [_ Hctx Hpr Hev Hi Hrv]. split; try done. by rewrite completed_receipt_without.
Qed.

Lemma marker_authority authority t r m bytes :
  prepared authority t r m bytes → key_authority (ref_key (mk_reference m)) = authority.
Proof. intros [_ (context & _ & -> & _) _ _ _ _]. done. Qed.

(** The details of a prepared marker pass the recovery check. *)
Lemma validate_recovered_prepared authority t r m bytes :
  prepared authority t r m bytes → proposed_ok t →
  validate_recovered m (mkDetails (mk_reference m) (tx_completion t)) = Ok tt.
Proof.
  intros Hp Ht. unfold validate_recovered; cbn [ed_completion].
  rewrite (pr_integrity _ _ _ _ _ Hp). fold (completed_receipt t r).
  rewrite (proposal_restored _ t); [|by eapply proposal_ok_recompleted|
    apply completed_receipt_completion|done].
  cbn [rbind]. rewrite (marker_authority _ _ _ _ _ Hp).
  rewrite (proj2 (prepare_Ok authority t (completed_receipt t r) m bytes)) by (by apply prepared_again).
  cbn [rbind]. by rewrite bool_decide_eq_true_2.
Qed.

(** ** The state of a marker *)

Section State.
Context (s : NatsEventStore).
#[local] Notation config := (ns_config s).

(** What a state proves about its marker: an active one was created as the
    first message and holds bytes the marker's reference admits; an expired one
    names the winning revision and follows the state it replaced. *)
Definition state_evidence (m : OutcomeMarker) (sequence : N) (expected : string) (state : StateValue) : Prop :=
  match state with
  | ActiveState encoded => expected = "0"
      ∧ ∃ bytes d, base64_decode encoded = Ok bytes ∧ details_decode (mk_reference m) bytes = Ok d
  | ExpiredState previous revision => revision = revision_to_hex (mk_revision m)
      ∧ 0 < previous < sequence ∧ expected = n_to_string previous
  end.

(** The message a state was read from *)
Record state_message_ok (m : OutcomeMarker) (message : RawMessage) (o : ObservedState) : Prop := {
  smo_sequence : rm_sequence message = os_sequence o ∧ os_sequence o ≠ 0;
  smo_bound : ∃ manifest, reference_encode (mk_reference m) = Ok manifest
    ∧ rm_subject message = outcome_state_subject config manifest
    ∧ from_slice (rm_payload message) = Ok (mkStateEnvelope 1 (base64_encode manifest) (os_value o));
  smo_evidence : ∃ expected,
    required_single_header (rm_headers message) "Nats-Expected-Last-Subject-Sequence" = Ok expected
    ∧ state_evidence m (os_sequence o) expected (os_value o);
}.

Lemma validate_state_value_Ok m sequence expected state :
  validate_state_value m sequence expected state = Ok tt → state_evidence m sequence expected state.
Proof.
  destruct state; cbn [validate_state_value state_evidence]; intros H; guards; [eauto|].
  split_and!; try done; lia.
Qed.

Lemma read_state_Ok m authority lookup o :
  read_state s m authority lookup = Ok o →
  ∃ message, lookup = MessageFound message ∧ state_message_ok m message o.
Proof.
  unfold read_state. intros H. guards.
  match goal with H : validate_state_value _ _ _ _ = Ok ?u |- _ =>
    destruct u; apply validate_state_value_Ok in H end.
  destruct lookup; simplify_eq. eexists. split; [done|]. split; cbn [os_sequence os_value]; [done| |eauto].
  match goal with E : from_slice _ = Ok ?v |- _ => destruct v; cbn in *; subst end. eauto.
Qed.

Lemma publish_state_sent m value expected authority reply sent result :
  publish_state s m value expected authority reply = (sent, result) →
  ∀ x, sent = Some x → state_message s m value expected = Ok x.
Proof.
  unfold publish_state. destruct authority; cbn [rbind]; [|by intros [= <- _]].
  destruct (state_message s m value expected); by intros [= <- _] ? [= <-].
Qed.

Lemma binding_of_reference m d :
  ed_reference d = mk_reference m →
  CompletedOutcome_new m (Available d) = Ok (mkCompleted m (Available d)).
Proof.
  intros Hd. unfold CompletedOutcome_new, validate_detail_binding, downcast_encoded, downcast_details.
  by rewrite Hd, bool_decide_eq_true_2.
Qed.

(** An observed state of the winner's own bytes gives back its details. *)
Lemma resolve_prepared authority t r m bytes sequence encoded :
  actor_opt_ok (tx_actor t) → proposed_ok t → prepared authority t r m bytes →
  (∀ hot cold, ns_detail_readers s = Some (hot, cold) → hot (mk_reference m) = Ok (Found bytes)) →
  base64_decode encoded = Ok bytes →
  nats_resolve_marker s m (Ok (mkObservedState sequence (ActiveState encoded)))
  = Ok (mkCompleted m (Available (mkDetails (mk_reference m) (tx_completion t)))).
Proof.
  intros Ha Ht Hp Hr Hb. pose proof (prepared_details _ _ _ _ _ Ha Hp) as Hd.
  pose proof (validate_recovered_prepared _ _ _ _ _ Hp Ht) as Hv.
  unfold nats_resolve_marker, state_details; cbn [map_err rbind os_value].
  destruct (ns_detail_readers s) as [[hot cold]|].
  - assert (resolve_details (mk_reference m) hot cold
            = Ok (Available (mkDetails (mk_reference m) (tx_completion t)))) as ->.
    { unfold resolve_details; cbn [resolve_loop]. by rewrite (Hr hot cold eq_refl), Hd. }
    cbn [map_err rbind]. rewrite Hv. cbn [map_err rbind]. by rewrite binding_of_reference.
  - rewrite Hb. cbn [map_err rbind]. rewrite Hd. cbn [rbind]. rewrite Hv. cbn [map_err rbind].
    by rewrite binding_of_reference.
Qed.

(** When [prepare_details] reports success, the details are durable
    and recoverable: what it sent, if anything, is the candidate as the first
    message of the marker's own state subject; the message read back is bound to
    the marker's reference and holds exactly the candidate's bytes; and
    resolving the marker from that message gives the completed decision the
    marker was prepared from - also when the server's acknowledgement was lost. *)
Theorem prepared_details_are_durable authority t r m bytes a sent :
  actor_opt_ok (tx_actor t) → proposed_ok t → prepare authority t r = Ok (m, bytes) →
  (∀ hot cold, ns_detail_readers s = Some (hot, cold) → hot (mk_reference m) = Ok (Found bytes)) →
  prepare_details s m bytes a = (sent, Ok tt) →
  (∀ x, sent = Some x → state_message s m (ActiveState (base64_encode bytes)) 0 = Ok x)
  ∧ ∃ message o, sta_lookup a = MessageFound message ∧ state_message_ok m message o
    ∧ read_state s m (sta_read_authority a) (sta_lookup a) = Ok o
    ∧ nats_resolve_marker s m (Ok o)
      = Ok (mkCompleted m (Available (mkDetails (mk_reference m) (tx_completion t)))).
Proof.
  intros Ha Ht Hp%prepare_Ok Hr. unfold prepare_details.
  destruct (publish_state _ _ _ _ _ _) as [msg result] eqn:Epub. intros [= -> Hres].
  split; [exact (publish_state_sent _ _ _ _ _ _ _ Epub)|].
  destruct (read_state _ _ _ _) as [[sequence [encoded|]]|] eqn:Er; [|done..]. guards.
  destruct (read_state_Ok _ _ _ _ Er) as (message & Hm & Hok).
  exists message, (mkObservedState sequence (ActiveState encoded)). split_and!; [done..|].
  subst. by eapply resolve_prepared.
Qed.

(** ** Expiry *)

(** The state of a marker that expiry leaves: its details are withdrawn for good. *)
Definition withdrawn (m : OutcomeMarker) (lookup : RawLookup) : Prop :=
  ∃ message o previous, lookup = MessageFound message ∧ state_message_ok m message o
    ∧ os_value o = ExpiredState previous (revision_to_hex (mk_revision m))
    ∧ nats_resolve_marker s m (Ok o) = Ok (mkCompleted m Expired).

Lemma read_expired m authority lookup sequence previous revision :
  read_state s m authority lookup = Ok (mkObservedState sequence (ExpiredState previous revision)) →
  withdrawn m lookup.
Proof.
  intros (message & -> & Hok)%read_state_Ok. eexists _, _, previous. split_and!; [done..| |done].
  cbn [os_value]. destruct (smo_evidence _ _ _ Hok) as (? & _ & Hev). cbn in Hev.
  by destruct Hev as (-> & _).
Qed.

(** The transition an expiry makes: from an active state whose details pass the
    recovery check, by compare-and-set on the sequence that state was read at. *)
Definition expiry_transition (m : OutcomeMarker) (a : ExpiryAnswers) (sent : option SentMessage) : Prop :=
  ∃ sequence encoded bytes d,
    read_state s m (ea_read_authority a) (ea_lookup a) = Ok (mkObservedState sequence (ActiveState encoded))
    ∧ base64_decode encoded = Ok bytes ∧ details_decode (mk_reference m) bytes = Ok d
    ∧ validate_recovered m d = Ok tt
    ∧ (∀ x, sent = Some x →
         state_message s m (ExpiredState sequence (revision_to_hex (mk_revision m))) sequence = Ok x)
    ∧ withdrawn m (sta_lookup (ea_transition a)).

Lemma expire_active_Ok m a sequence encoded sent previous :
  read_state s m (ea_read_authority a) (ea_lookup a) = Ok (mkObservedState sequence (ActiveState encoded)) →
  expire_active s m (mk_revision m) sequence encoded (ea_transition a) = (sent, Ok previous) →
  expiry_transition m a sent.
Proof.
  intros Hread. unfold expire_active.
  destruct (rbind _ _) as [[]|] eqn:Ev; [|done].
  destruct (publish_state _ _ _ _ _ _) as [msg result] eqn:Epub. intros [= -> Hres].
  apply rbind_Ok in Ev as (bytes & Eb & Ev). apply rbind_Ok in Ev as (d & Ed & Ev).
  apply map_err_Ok in Eb. exists sequence, encoded, bytes, d. split_and!; try done.
  - exact (publish_state_sent _ _ _ _ _ _ _ Epub).
  - destruct (read_state _ _ _ (sta_lookup _)) as [[next [|replaced revision]]|] eqn:Er; [done| |done].
    by eapply read_expired.
Qed.

(** When [expire_details] succeeds, the details of exactly the
    revision it was asked to expire are withdrawn for good: the authority permits
    explicit expiry, the winner stored for the key has that revision, the state
    last read is an expired state of that winner - resolving the marker from it
    gives expired details - and the only thing sent, if anything, replaces an
    active state of valid details by compare-and-set on its sequence. *)
Theorem expired_details_are_withdrawn key expected a sent x :
  nats_expire_details s key expected a = (sent, Ok x) →
  nc_split_outcomes config = true ∧ nc_explicit_detail_expiry config = true
  ∧ nc_read_only_outcomes config = false ∧ validate_outcome_key s key = Ok tt
  ∧ ∃ stored m, ea_stored a = Ok (Some stored) ∧ mtr_marker stored = Some m
    ∧ mk_revision m = expected
    ∧ ((sent = None ∧ withdrawn m (ea_lookup a)) ∨ expiry_transition m a sent).
Proof.
  unfold nats_expire_details. destruct (expiry_marker _ _ _ _) as [m|] eqn:Em; [|done].
  unfold expiry_marker in Em. guards. simplify_eq. intros Hx.
  match goal with H : validate_outcome_key s key = Ok ?u |- _ => destruct u end.
  split_and!; try done. eexists _, m. split_and!; [done..|].
  destruct (read_state _ _ _ (ea_lookup a)) as [[sequence [encoded|previous revision]]|] eqn:Er; [| |done].
  - destruct (expire_active _ _ _ _ _ _) as [msg [previous|]] eqn:Ex; [|done]. injection Hx as -> _.
    right. by eapply expire_active_Ok.
  - injection Hx as <- _. left. split; [done|]. by eapply read_expired.
Qed.

End State.

End Facts.
