(* ===== verification/NatsTransaction.v ===== *)
(** * NatsTransaction: appending a transaction to a NATS event store
    (append_transaction_with_histories, its race resolution and its callers in
    crates/rostfrei-nats/src/event_store.rs and event_store/outcomes.rs).

    As in NatsAppend, what the server answers is an argument; a transaction sends
    its candidate outcome state, if it has one, and one atomic batch. *)

From S2P Require Export NatsOutcomes.

(** ** Validation *)

(** One iteration of [validate_transaction_shape] *)
Definition shape_participant (actor : option ActorRef) (streams : gset StreamId) (p : TransactionParticipant)
  : result (gset StreamId) EventStoreError :=
  fail! is_some_and (λ batch, negb (bool_decide (eb_actor batch = actor))) (tp_batch p)
    with invalid "participant actor does not match its transaction";
  fail! bool_decide (tp_stream_id p ∈ streams)
    with invalid "an event transaction must not contain duplicate streams";
  Ok ({[ tp_stream_id p ]} ∪ streams).
Definition validate_transaction_shape (t : EventTransaction) : result unit EventStoreError :=
  let? _ := try_fold (shape_participant (tx_actor t)) ∅ (tx_participants t) in
  Ok tt.

Definition exact_zero : EventStoreError :=
  invalid "Exact requires a non-zero stream version; use NoStream for an absent stream".

Definition participant_request (t : EventTransaction) (p : TransactionParticipant) : result unit EventStoreError :=
  fail! bool_decide (tp_expected_version p = Exact version_zero) with exact_zero;
  match tp_batch p with
  | None => Ok tt
  | Some batch =>
    fail! negb (bool_decide (eb_operation_id batch = tx_operation_id t))
          || negb (bool_decide (eb_operation_fingerprint batch = tx_operation_fingerprint t))
          || negb (bool_decide (eb_correlation_id batch = tx_correlation_id t))
          || negb (bool_decide (eb_causation_id batch = tx_causation_id t))
      with invalid "participant commit metadata does not match its transaction";
    Ok tt
  end.
Definition validate_transaction_participant_requests (t : EventTransaction) : result unit EventStoreError :=
  let? _ := try_map (participant_request t) (tx_participants t) in
  Ok tt.

Definition nats_validate_expected_version (expected : ExpectedVersion) (current : StreamVersion)
  : result unit EventStoreError :=
  match expected with
  | NoStream => if bool_decide (current = version_zero) then Ok tt else Err (version_conflict current)
  | Exact version =>
    if bool_decide (version = version_zero) then Err exact_zero
    else if bool_decide (version = current) then Ok tt
    else Err (version_conflict current)
  end.

(** ** Comparing a transaction with a receipt *)

(** The event at one position is the incoming one, recorded in its batch. *)
Definition event_matches_recorded (batch : EventBatch) (incoming : NewEvent) (stored : RecordedEvent) : bool :=
  bool_decide (ne_event_id incoming = re_event_id stored)
  && String.eqb (ne_event_type incoming) (re_event_type stored)
  && (ne_schema_version incoming =? re_schema_version stored)
  && bool_decide (ne_payload incoming = re_payload stored)
  && bool_decide (eb_commit_id batch = re_commit_id stored)
  && bool_decide (eb_operation_id batch = re_operation_id stored)
  && bool_decide (eb_operation_fingerprint batch = re_operation_fingerprint stored)
  && bool_decide (eb_correlation_id batch = re_correlation_id stored)
  && bool_decide (eb_causation_id batch = re_causation_id stored)
  && bool_decide (eb_actor batch = re_actor stored).

Definition batch_matches_recorded (batch : EventBatch) (recorded : list RecordedEvent) : bool :=
  (len (eb_events batch) =? len recorded)
  && forallb (λ p, event_matches_recorded batch p.1 p.2) (zip (eb_events batch) recorded).

Definition transaction_matches_receipt (t : EventTransaction) (r : TransactionReceipt) : bool :=
  is_none_or (λ context, bool_decide (tr_bounded_context r = Some context)) (tx_bounded_context t)
  && bool_decide (tx_operation_id t = tr_operation_id r)
  && bool_decide (tx_operation_fingerprint t = tr_operation_fingerprint r)
  && bool_decide (tx_correlation_id t = tr_correlation_id r)
  && bool_decide (tx_causation_id t = tr_causation_id r)
  && bool_decide (tx_actor t = tr_actor r)
  && bool_decide (tx_completion t = tr_completion r)
  && (len (tx_participants t) =? len (tr_streams r))
  && forallb (λ '(p, stored),
       bool_decide (tp_stream_id p = sr_stream_id stored)
       && match tp_batch p with
          | None => len (sr_events stored) =? 0
          | Some batch => batch_matches_recorded batch (sr_events stored)
          end) (zip (tx_participants t) (tr_streams r)).

Definition content_reused : EventStoreError :=
  identity_conflict "transaction identity was reused with different content".

Definition resolve_transaction_identity_after_participant_conflict (t : EventTransaction)
    (receipt : option TransactionReceipt) : result TransactionAppendOutcome EventStoreError :=
  match receipt with
  | Some receipt =>
    if transaction_matches_receipt t receipt then Ok (TxExactReplay receipt) else Err content_reused
  | None => Err (identity_conflict "operation identity was already used without its transaction receipt")
  end.

(** ** Staging *)

Record StagedTransactionParticipant := mkStagedTransaction {
  sgp_stream_id : StreamId;
  sgp_base_version : StreamVersion;
  sgp_last_subject_stream_sequence : N;
  sgp_batch : option EventBatch;
  sgp_recorded : list RecordedEvent;
}.

(** The histories loaded by one attempt *)
Notation LoadedHistories := (gmap StreamId History).

Definition participant_wire (p : StagedTransactionParticipant)
  : result TransactionParticipantWire EventStoreError :=
  let? event_count := ok_or (try_from u32_max (len (sgp_recorded p)))
    (invalid "transaction participant event count cannot be represented") in
  Ok (mkParticipantWire (stream_identity (sgp_stream_id p)) (version_value (sgp_base_version p))
        ((λ batch, ident_str (eb_commit_id batch)) <$> sgp_batch p) event_count).

Definition transaction_receipt_content (config : NatsEventStoreConfig) (t : EventTransaction)
    (staged : list StagedTransactionParticipant) : result TransactionReceiptContentWire EventStoreError :=
  let? participants := try_map participant_wire staged in
  Ok {| trc_manifest := None;
        trc_security_scope := ident_str <$> tx_security_scope t;
        trc_completion := tx_completion t;
        trc_event_store_stream := nc_stream_name config;
        trc_application := application_str (nc_application config);
        trc_bounded_context := context_str (nc_bounded_context config);
        trc_operation_id := ident_str (tx_operation_id t);
        trc_operation_fingerprint := to_hex (tx_operation_fingerprint t);
        trc_correlation_id := id_str <$> tx_correlation_id t;
        trc_causation_id := id_str <$> tx_causation_id t;
        trc_actor := tx_actor t;
        trc_participants := participants |}.

(** The receipt of the staged participants, without a completion *)
Definition nats_staged_receipt (t : EventTransaction) (staged : list StagedTransactionParticipant)
  : TransactionReceipt :=
  let r := TransactionReceipt_new (tx_operation_id t) (tx_operation_fingerprint t)
    ((λ s, mkStreamReceipt (sgp_stream_id s) (sgp_base_version s) (sgp_recorded s)) <$> staged) in
  let r := from_option (tr_with_bounded_context r) r (tx_bounded_context t) in
  let r := from_option (tr_with_correlation_id r) r (tx_correlation_id t) in
  let r := from_option (tr_with_causation_id r) r (tx_causation_id t) in
  let r := from_option (tr_with_security_scope r) r (tx_security_scope t) in
  from_option (tr_with_actor r) r (tx_actor t).

Definition preserve_original_unavailable {A} (result : result A EventStoreError) (original : EventStoreError)
  : Prelude.result A EventStoreError :=
  map_err (λ error, if bool_decide (se_kind error = Unavailable) then original else error) result.

Section Transaction.
Context `{SHA : Sha256} `{OJ : OutcomeJson} `{B64 : Base64} `{HM : HeaderMapApi} `{HN : AtomicHeaderNames}.
Context `{WJ : Json StoredEventWire} `{CJ : Json ChecksumInput} `{EC : ErrorCodes} `{AJ : AckJson}.
Context `{RJ : Json StoredTransactionReceiptWire} `{RCJ : Json ReceiptChecksumInput}.
Context `{GJ : Json TransactionGuardWire} `{SJ : Json StateEnvelope}.
Context (s : NatsEventStore).
#[local] Notation config := (ns_config s).

(** ** Loading a receipt *)

(** [load_transaction_receipt_from_stream]: [lookup] is the last message of the
    receipt's subject, [messages] the message of a sequence and [histories] the
    raw history of a stream. *)
Definition load_transaction_receipt_from_stream (lookup : RawLookup) (messages : N → RawLookup)
    (histories : StreamId → result History EventStoreError) (operation_id : OperationId) (required : bool)
    (layout : TransactionSubjectLayout) : result (option MaterializedTransactionReceipt) EventStoreError :=
  let? decoded := read_transaction_receipt config lookup operation_id required layout in
  match decoded with
  | None => Ok None
  | Some decoded =>
    rmap Some (materialize_transaction_receipt config (ns_authority s) messages histories decoded layout)
  end.

(** A receipt found for the operation, and what loading its winner again gives *)
Record ReceiptAnswers := mkReceiptAnswers {
  rea_receipt : result (option TransactionReceipt) EventStoreError;
  rea_stored : result (option MaterializedTransactionReceipt) EventStoreError;
}.

Definition matches_checked_receipt (t : EventTransaction) (receipt : TransactionReceipt)
    (marker : option OutcomeMarker) : result bool EventStoreError :=
  match marker with
  | Some marker =>
    if nc_split_outcomes config then
      let? digest := proposal_of t in
      Ok (bool_decide (mk_proposal marker = digest))
    else Ok (transaction_matches_receipt t receipt)
  | None => Ok (transaction_matches_receipt t receipt)
  end.

(** [stored] is the receipt materialised again, which must be there. *)
Definition matches_stored (t : EventTransaction) (receipt : TransactionReceipt)
    (stored : result (option MaterializedTransactionReceipt) EventStoreError) : result bool EventStoreError :=
  if negb (nc_split_outcomes config) then Ok (transaction_matches_receipt t receipt)
  else
    let? stored := stored in
    let? stored := ok_or stored (corrupt "winner missing") in
    matches_checked_receipt t receipt (mtr_marker stored).

Definition resolve_identity_after_conflict (t : EventTransaction) (a : ReceiptAnswers)
  : result TransactionAppendOutcome EventStoreError :=
  let? receipt := rea_receipt a in
  if negb (nc_split_outcomes config) then resolve_transaction_identity_after_participant_conflict t receipt
  else
    let? replay := match receipt with
                   | Some receipt =>
                     let? matched := matches_stored t receipt (rea_stored a) in
                     Ok (if matched then Some receipt else None)
                   | None => Ok None
                   end in
    match replay with
    | Some receipt => Ok (TxExactReplay receipt)
    | None => Err (identity_conflict "operation identity was already used with another proposal")
    end.

(** A receipt found under the operation's identity is a replay or a conflict. *)
Definition resolve_found_receipt (t : EventTransaction) (receipt : TransactionReceipt)
    (stored : result (option MaterializedTransactionReceipt) EventStoreError)
  : result TransactionAppendOutcome EventStoreError :=
  let? matched := matches_stored t receipt stored in
  if matched then Ok (TxExactReplay receipt) else Err content_reused.

(** ** Races *)

(** What a reconciliation reads: the receipt, the histories of the participants,
    and the receipt again on a conflicting identity *)
Record RaceAnswers := mkRaceAnswers {
  rca_first : ReceiptAnswers;
  rca_histories : StreamId → result History EventStoreError;
  rca_conflict : ReceiptAnswers;
}.

(** The first participant, from the given ones, whose history conflicts *)
Fixpoint conflicting_participant (histories : StreamId → result History EventStoreError)
    (participants : list TransactionParticipant) : result bool EventStoreError :=
  match participants with
  | [] => Ok false
  | p :: rest =>
    let? history := histories (tp_stream_id p) in
    let? conflicting := transaction_participant_has_conflicting_identity history p in
    if conflicting then Ok true else conflicting_participant histories rest
  end.

Definition resolve_transaction_race (t : EventTransaction) (a : RaceAnswers)
  : result TransactionAppendOutcome EventStoreError :=
  let? receipt := rea_receipt (rca_first a) in
  match receipt with
  | Some receipt => resolve_found_receipt t receipt (rea_stored (rca_first a))
  | None =>
    let? conflicting := conflicting_participant (rca_histories a) (tx_participants t) in
    if conflicting then resolve_identity_after_conflict t (rca_conflict a)
    else Err (store_error Conflict "an aggregate changed during transaction append")
  end.

(** The reads of a reconciliation that is unavailable itself report the original
    error; guards are not read. *)
Definition reconcile_unavailable_transaction_publish (t : EventTransaction) (original : EventStoreError)
    (a : RaceAnswers) : result TransactionAppendOutcome EventStoreError :=
  let? receipt := preserve_original_unavailable (rea_receipt (rca_first a)) original in
  match receipt with
  | Some receipt => resolve_found_receipt t receipt (rea_stored (rca_first a))
  | None =>
    let? conflicting := conflicting_participant
      (λ stream, preserve_original_unavailable (rca_histories a stream) original)
      (filter (λ p, tp_batch p ≠ None) (tx_participants t)) in
    if conflicting then
      resolve_identity_after_conflict t
        (mkReceiptAnswers (preserve_original_unavailable (rea_receipt (rca_conflict a)) original)
           (rea_stored (rca_conflict a)))
    else Err original
  end.

(** ** Staging the participants *)

(** What the store and the server answer during one transaction, each when it is
    reached: the receipt of the operation, the histories of the participants
    not loaded yet, a conflict found while staging, the state transition of the
    details, the inbox name, the replies to the batch, a reconciliation, and the
    reads that verify the published batch. *)
Record TransactionAnswers := mkTransactionAnswers {
  ta_first : ReceiptAnswers;
  ta_histories : StreamId → result History EventStoreError;
  ta_conflict : ReceiptAnswers;
  ta_state : StateAnswers;
  ta_inbox : string;
  ta_reply : N → result (list byte) string;
  ta_race : RaceAnswers;
  ta_lookup : StreamId → N → result RawMessage EventStoreError;
  ta_published : RawLookup;
  ta_messages : N → RawLookup;
  ta_raw_histories : StreamId → result History EventStoreError;
}.

Definition load_session_history (load : StreamId → result History EventStoreError) (histories : LoadedHistories)
    (stream : StreamId) : result (LoadedHistories * History) EventStoreError :=
  match histories !! stream with
  | Some history => Ok (histories, history)
  | None =>
    let? history := load stream in
    Ok (<[stream := history]> histories, history)
  end.

(** A step that leaves the append early carries the result it leaves with. *)
Definition or_exit {A} (r : result A EventStoreError)
  : result A (result TransactionAppendOutcome EventStoreError) := map_err Err r.

Definition record_participant (stream : StreamId) (base_version : StreamVersion) (batch : option EventBatch)
  : result (list RecordedEvent) EventStoreError :=
  match batch with
  | None => Ok []
  | Some batch =>
    let? _ := nats_validate_derived_identities stream batch in
    nats_record_batch stream base_version batch
  end.

Definition stage_participant (t : EventTransaction) (a : TransactionAnswers)
    (acc : LoadedHistories * list StagedTransactionParticipant) (p : TransactionParticipant)
  : result (LoadedHistories * list StagedTransactionParticipant)
           (result TransactionAppendOutcome EventStoreError) :=
  let? (histories, history) := or_exit (load_session_history (ta_histories a) acc.1 (tp_stream_id p)) in
  let? conflicting := or_exit (transaction_participant_has_conflicting_identity history p) in
  if conflicting then Err (resolve_identity_after_conflict t (ta_conflict a))
  else
    let base_version := nats_current_version (nh_events history) in
    let? _ := or_exit (nats_validate_expected_version (tp_expected_version p) base_version) in
    let? recorded := or_exit (record_participant (tp_stream_id p) base_version (tp_batch p)) in
    Ok (histories, acc.2 ++ [mkStagedTransaction (tp_stream_id p) base_version
                               (nh_last_subject_stream_sequence history) (tp_batch p) recorded]).

(** The checks before anything is loaded: the event count *)
Definition transaction_checks (t : EventTransaction) : result N EventStoreError :=
  fail! is_some_and (λ context, negb (bool_decide (context = nc_bounded_context config))) (tx_bounded_context t)
    with invalid ("transaction context does not match event-store context `"
                  +:+ context_str (nc_bounded_context config) +:+ "`");
  let? _ := validate_transaction_shape t in
  validate_transaction_item_limit t.

(** Up to the staged participants, the histories they were staged on, and the
    event count *)
Definition stage_transaction (t : EventTransaction) (histories : LoadedHistories) (a : TransactionAnswers)
  : result (N * LoadedHistories * list StagedTransactionParticipant)
           (result TransactionAppendOutcome EventStoreError) :=
  let? domain_event_count := or_exit (transaction_checks t) in
  let? receipt := or_exit (rea_receipt (ta_first a)) in
  match receipt with
  | Some receipt => Err (resolve_found_receipt t receipt (rea_stored (ta_first a)))
  | None =>
    let? _ := or_exit (validate_transaction_participant_requests t) in
    let? (histories, staged) := try_fold (stage_participant t a) (histories, []) (tx_participants t) in
    Ok (domain_event_count, histories, staged)
  end.

(** ** The messages *)

Definition exceeds_limit (payload : list byte) : bool :=
  limit_value (nc_max_event_bytes config) <? len payload.
Definition limit_message (what : string) : string :=
  what +:+ " exceeds the configured " +:+ n_to_string (limit_value (nc_max_event_bytes config)) +:+ "-byte limit".

(** The messages of one written participant, appended, and the next offset *)
Definition event_messages (transaction_event_count : N) (acc : list AtomicPublishMessage * N)
    (p : StagedTransactionParticipant) : result (list AtomicPublishMessage * N) EventStoreError :=
  match sgp_batch p with
  | None => Ok acc
  | Some batch =>
    let? payloads := encode_transaction_events config (sgp_stream_id p) batch (sgp_recorded p) acc.2
                       transaction_event_count in
    fail! negb (len payloads =? len (sgp_recorded p))
      with corrupt "encoded transaction event count does not match the recorded batch";
    fail! existsb exceeds_limit payloads with invalid (limit_message "encoded event");
    let? recorded_count := ok_or (try_from u32_max (len (sgp_recorded p)))
      (invalid "participant event count cannot be represented") in
    let? offset := ok_or (checked_add u32_max acc.2 recorded_count)
      (invalid "transaction event ordinal overflowed") in
    Ok (acc.1 ++ atomic_batch_messages (stream_subject config (sgp_stream_id p))
                   (sgp_last_subject_stream_sequence p)
                   (zip ((λ e, ident_str (re_event_id e)) <$> sgp_recorded p) payloads), offset)
  end.

(** The message of one read participant *)
Definition guard_message (operation_id : OperationId) (x : N * StagedTransactionParticipant)
  : result AtomicPublishMessage EventStoreError :=
  let (ordinal, p) := x in
  let? payload := map_err (λ error, invalid ("failed to encode transaction guard: " +:+ error))
    (to_vec (mkGuardWire (ident_str operation_id) (stream_identity (sgp_stream_id p)))) in
  fail! exceeds_limit payload with invalid (limit_message "encoded transaction guard");
  Ok (mkAtomicPublishMessage (transaction_guard_subject config (ident_str operation_id) ordinal) None payload
        (Some (sgp_last_subject_stream_sequence p)) (Some (stream_subject config (sgp_stream_id p)))).

Definition transaction_messages (t : EventTransaction) (staged : list StagedTransactionParticipant)
    (domain_event_count : N) : result (list AtomicPublishMessage) EventStoreError :=
  let? transaction_event_count := ok_or (try_from u32_max domain_event_count)
    (invalid "transaction event count cannot be represented") in
  let? (events, _) := try_fold (event_messages transaction_event_count) ([], 0) staged in
  let? guards := try_map (guard_message (tx_operation_id t))
    (enumerate (filter (λ p, sgp_batch p = None) staged)) in
  Ok (events ++ guards).

(** The message of the receipt *)
Definition receipt_message (operation_id : OperationId) (content : TransactionReceiptContentWire)
  : result AtomicPublishMessage EventStoreError :=
  let? payload := encode_transaction_receipt content in
  fail! exceeds_limit payload with invalid (limit_message "encoded transaction receipt");
  Ok (mkAtomicPublishMessage (transaction_subject config (ident_str operation_id)) None payload (Some 0) None).

(** The content of the receipt, after the details of a split outcome are
    prepared: what that sent comes with it. *)
Definition outcome_content (t : EventTransaction) (staged : list StagedTransactionParticipant)
    (a : TransactionAnswers)
  : option SentMessage * result TransactionReceiptContentWire EventStoreError :=
  match transaction_receipt_content config t staged with
  | Err error => (None, Err error)
  | Ok content =>
    if nc_split_outcomes config && is_some (tx_completion t) then
      match prepare (ns_authority s) t (nats_staged_receipt t staged) with
      | Err error => (None, Err error)
      | Ok (marker, bytes) =>
        let (sent, prepared) := prepare_details s marker bytes (ta_state a) in
        (sent,
         let? _ := prepared in
         let? manifest := encode_manifest marker in
         Ok {| trc_manifest := Some (base64_encode manifest); trc_security_scope := trc_security_scope content;
               trc_completion := None; trc_event_store_stream := trc_event_store_stream content;
               trc_application := trc_application content; trc_bounded_context := trc_bounded_context content;
               trc_operation_id := trc_operation_id content;
               trc_operation_fingerprint := trc_operation_fingerprint content;
               trc_correlation_id := trc_correlation_id content;
               trc_causation_id := trc_causation_id content; trc_actor := trc_actor content;
               trc_participants := trc_participants content |})
      end
    else (None, Ok content)
  end.

(** ** Publishing and verification *)

(** What a transaction sends: the candidate state of its details, and its batch *)
Record TransactionSent := mkTransactionSent {
  txs_state : option SentMessage;
  txs_batch : list SentMessage;
}.

Definition transaction_acknowledged (batch_id : string) (item_count : N) (ack : AtomicPublishAck) : bool :=
  String.eqb (apa_stream ack) (nc_stream_name config) && negb (apa_sequence ack =? 0)
  && bool_decide (apa_batch ack = Some batch_id) && bool_decide (apa_count ack = Some item_count).

(** One written participant of the verification: the histories extended by its
    commit, and the sequence after it *)
Definition verify_participant (batch_id : string) (a : TransactionAnswers) (acc : LoadedHistories * N)
    (p : StagedTransactionParticipant) : result (LoadedHistories * N) EventStoreError :=
  match sgp_batch p with
  | None => Ok acc
  | Some _ =>
    let? event_count := ok_or (try_from u64_max (len (sgp_recorded p)))
      (invalid "participant event count cannot be represented") in
    let? next_sequence := ok_or (checked_add u64_max acc.2 event_count)
      (corrupt "transaction sequence space overflowed") in
    let? last_sequence := ok_or (checked_sub next_sequence 1)
      (corrupt "transaction contains an invalid participant sequence") in
    let? previous := ok_or (acc.1 !! sgp_stream_id p) (corrupt "staged participant history is missing") in
    let? history := extend_history config (sgp_stream_id p) previous last_sequence batch_id
                      (len (sgp_recorded p)) (ta_lookup a (sgp_stream_id p)) in
    Ok (<[sgp_stream_id p := history]> acc.1, next_sequence)
  end.

(** [load_cached_raw_history]: a history in the cache, or the one loaded *)
Definition cached_raw_history (histories : LoadedHistories) (load : StreamId → result History EventStoreError)
    (stream : StreamId) : result History EventStoreError :=
  match histories !! stream with Some history => Ok history | None => load stream end.

Definition verify_transaction (t : EventTransaction) (staged : list StagedTransactionParticipant)
    (histories : LoadedHistories) (domain_event_count : N) (batch_id : string) (item_count : N)
    (ack : AtomicPublishAck) (a : TransactionAnswers) : result TransactionAppendOutcome EventStoreError :=
  let? batch_start := ok_or (checked_sub (apa_sequence ack) item_count ≫= λ n, checked_add u64_max n 1)
    (corrupt "transaction PubAck contains an invalid sequence") in
  let? (histories, _) := try_fold (verify_participant batch_id a) (histories, batch_start) staged in
  let? materialized := load_transaction_receipt_from_stream (ta_published a) (ta_messages a)
    (cached_raw_history histories (ta_raw_histories a)) (tx_operation_id t) true OperationLayout in
  let? m := ok_or materialized (corrupt "published transaction receipt is not visible") in
  fail! negb (String.eqb (mtr_batch_id m) batch_id) || negb (mtr_batch_start_stream_sequence m =? batch_start)
        || negb (mtr_transaction_event_count m =? domain_event_count)
    with corrupt "published transaction receipt contains different batch metadata";
  let? matched := matches_checked_receipt t (mtr_receipt m) (mtr_marker m) in
  fail! negb matched with corrupt "published transaction receipt contains different content";
  Ok (TxAppended (mtr_receipt m)).

(** From the complete list of messages on *)
Definition publish_transaction (t : EventTransaction) (staged : list StagedTransactionParticipant)
    (histories : LoadedHistories) (domain_event_count : N) (messages : list AtomicPublishMessage)
    (a : TransactionAnswers) : list SentMessage * result TransactionAppendOutcome EventStoreError :=
  let item_count := len messages in
  let batch_id := new_transaction_batch_id (ta_inbox a) (tx_operation_id t) in
  let (sent, published) := publish_atomic_messages config batch_id (id_str <$> tx_correlation_id t) messages
                             (ta_reply a) in
  (sent,
   match published with
   | Err PublishExpectation => resolve_transaction_race t (ta_race a)
   | Err (PublishStore error) =>
     if bool_decide (se_kind error = Unavailable)
     then reconcile_unavailable_transaction_publish t error (ta_race a)
     else Err error
   | Ok ack =>
     let? items := ok_or (try_from u64_max item_count) (invalid "transaction item count cannot be represented") in
     fail! negb (transaction_acknowledged batch_id items ack)
       with corrupt "atomic transaction PubAck returned incompatible stream, sequence, or batch metadata";
     map_err (λ error, if is_some (tx_completion t) then in_outcome_recovery error else error)
       (verify_transaction t staged histories domain_event_count batch_id items ack a)
   end).

Definition append_transaction_with_histories (t : EventTransaction) (histories : LoadedHistories)
    (a : TransactionAnswers) : TransactionSent * result TransactionAppendOutcome EventStoreError :=
  match stage_transaction t histories a with
  | Err exit => (mkTransactionSent None [], exit)
  | Ok (domain_event_count, histories, staged) =>
    match transaction_messages t staged domain_event_count with
    | Err error => (mkTransactionSent None [], Err error)
    | Ok messages =>
      let (state, content) := outcome_content t staged a in
      match (let? content := content in receipt_message (tx_operation_id t) content) with
      | Err error => (mkTransactionSent state [], Err error)
      | Ok receipt =>
        let (sent, r) := publish_transaction t staged histories domain_event_count (messages ++ [receipt]) a in
        (mkTransactionSent state sent, r)
      end
    end
  end.

(** ** The callers *)

(** [acceptance_receipt] *)
Definition acceptance_receipt (stored : result (option MaterializedTransactionReceipt) EventStoreError)
  : result (option TransactionReceipt) EventStoreError :=
  let? stored := stored in
  match stored with
  | None => Ok None
  | Some stored =>
    fail! is_some_and (λ m, bool_decide (marker_decision m = Rejected)) (mtr_marker stored)
      with identity_conflict "operation has a completed rejection, not acceptance";
    rmap Some (require_acceptance (mtr_receipt stored))
  end.

(** [append_transaction] of the store: [guard] is the result of
    [require_mutable_namespace]. *)
Definition nats_append_transaction (t : EventTransaction) (guard : result unit EventStoreError)
    (a : TransactionAnswers) : TransactionSent * result TransactionAppendOutcome EventStoreError :=
  match (let? _ := guard in
         fail! is_some (tx_completion t) with invalid "use commit_outcome for completed decisions";
         Ok tt) with
  | Err error => (mkTransactionSent None [], Err error)
  | Ok _ => append_transaction_with_histories t ∅ a
  end.

(** [commit_native]: [writer] is the result of [require_completed_outcome_writer]
    and [lookup] that of [lookup_outcome] after the append. *)
Definition commit_native (t : EventTransaction) (histories : LoadedHistories) (writer : result unit EventStoreError)
    (a : TransactionAnswers) (lookup : result (OutcomeLookup EncodedOutcomeDetails) EventStoreError)
  : TransactionSent * result CompletedCommit EventStoreError :=
  match (fail! negb (nc_split_outcomes config)
           with configuration "native commands require a fresh fenced split authority; inline outcomes are read-only";
         let? _ := validate_completed_transaction t in
         let? _ := validate_completed_scope s t in
         writer) with
  | Err error => (mkTransactionSent None [], Err error)
  | Ok _ =>
    let (sent, r) := append_transaction_with_histories t histories a in
    (sent,
     let? outcome := r in
     let? found := map_err in_outcome_recovery lookup in
     match found with
     | Missing => Err (in_outcome_recovery (corrupt "durable outcome disappeared"))
     | Completed completed =>
       Ok (match outcome with
           | TxAppended _ => CommitAppended completed
           | TxExactReplay _ => CommitExactReplay completed
           end)
     end)
  end.

(** [nats_commit_inline] *)
Definition nats_commit_inline (debug_str : string → string) (t : EventTransaction) (histories : LoadedHistories)
    (writer : result unit EventStoreError) (a : TransactionAnswers)
    (lookup : result (OutcomeLookup EncodedOutcomeDetails) EventStoreError)
  : TransactionSent * result CompletedAppendOutcome EventStoreError :=
  let (sent, r) := commit_native t histories writer a lookup in
  (sent,
   let? commit := r in
   let? inline := map_err (nats_recovery_error debug_str) (to_inline (commit_outcome_of commit)) in
   Ok (if commit_is_exact_replay commit then CompletedExactReplay inline else CompletedAppended inline)).
End Transaction.
