(* ===== verification/NatsTransactionFacts.v ===== *)
(** * NatsTransactionFacts: what a transaction appended to a NATS event store
    guarantees, whatever the server answers. *)

From S2P Require Export NatsTransaction NatsReceiptFacts NatsOutcomes.

(** ** Comparing *)

(** An event as the batch records it, at whatever position *)
Record recorded_event_of (b : EventBatch) (n : NewEvent) (e : RecordedEvent) : Prop := {
  reo_content : same_content n e;
  reo_commit : eb_commit_id b = re_commit_id e;
  reo_operation : eb_operation_id b = re_operation_id e;
  reo_fingerprint : eb_operation_fingerprint b = re_operation_fingerprint e;
  reo_correlation : eb_correlation_id b = re_correlation_id e;
  reo_causation : eb_causation_id b = re_causation_id e;
  reo_actor : eb_actor b = re_actor e;
}.
Definition recorded_of (b : EventBatch) (events : list RecordedEvent) : Prop :=
  Forall2 (recorded_event_of b) (eb_events b) events.

(** A receipt of exactly this transaction, at whatever versions *)
Record receipt_of (t : EventTransaction) (r : TransactionReceipt) : Prop := {
  rt_context : ∀ c, tx_bounded_context t = Some c → tr_bounded_context r = Some c;
  rt_operation : tx_operation_id t = tr_operation_id r;
  rt_fingerprint : tx_operation_fingerprint t = tr_operation_fingerprint r;
  rt_correlation : tx_correlation_id t = tr_correlation_id r;
  rt_causation : tx_causation_id t = tr_causation_id r;
  rt_actor : tx_actor t = tr_actor r;
  rt_completion : tx_completion t = tr_completion r;
  rt_participants : Forall2 (λ p s, tp_stream_id p = sr_stream_id s
    ∧ match tp_batch p with
      | None => sr_events s = []
      | Some b => recorded_of b (sr_events s)
      end) (tx_participants t) (tr_streams r);
}.

Lemma forallb_zip {A B} (f : A * B → bool) l k :
  length l = length k → forallb f (zip l k) = true ↔ Forall2 (λ x y, f (x, y) = true) l k.
Proof.
  revert k; induction l as [|x l IH]; intros [|y k]; cbn; try done.
  intros [= Hl]. rewrite andb_true_iff, IH by done. split; [naive_solver|]. by inversion 1.
Qed.

Lemma event_matches_true b n e : event_matches_recorded b n e = true ↔ recorded_event_of b n e.
Proof.
  unfold event_matches_recorded. rewrite !andb_true_iff, !bool_decide_eq_true, String.eqb_eq, N.eqb_eq.
  split; [|by intros [[] ? ? ? ? ? ?]].
  intros [[[[[[[[[? ?] ?] ?] ?] ?] ?] ?] ?] ?]. by split.
Qed.

Lemma batch_matches_recorded_true b events : batch_matches_recorded b events = true ↔ recorded_of b events.
Proof.
  unfold batch_matches_recorded, recorded_of. rewrite andb_true_iff, N.eqb_eq. unfold len. split.
  - intros [Hl%Nat2N.inj H]. rewrite forallb_zip in H by done. eapply Forall2_impl; [exact H|].
    intros n e. apply event_matches_true.
  - intros H. split; [by rewrite (Forall2_length _ _ _ H)|].
    rewrite forallb_zip by (eapply Forall2_length, H). eapply Forall2_impl; [exact H|].
    intros n e. apply event_matches_true.
Qed.

Lemma transaction_matches_receipt_true t r : transaction_matches_receipt t r = true ↔ receipt_of t r.
Proof.
  unfold transaction_matches_receipt. rewrite !andb_true_iff, !bool_decide_eq_true, N.eqb_eq. unfold len. split.
  - intros [[[[[[[[Hc ?] ?] ?] ?] ?] ?] Hl] Hp]. apply Nat2N.inj in Hl. rewrite forallb_zip in Hp by done.
    split; try done.
    + intros c Ec. rewrite Ec in Hc. by apply bool_decide_eq_true in Hc.
    + eapply Forall2_impl; [exact Hp|]. intros p s. rewrite andb_true_iff, bool_decide_eq_true.
      intros [? He]. split; [done|]. destruct (tp_batch p); [by apply batch_matches_recorded_true|].
      by apply N.eqb_eq, len_0 in He.
  - intros [Hc ? ? ? ? ? ? Hp]. pose proof (Forall2_length _ _ _ Hp) as Hl. split_and!; try done.
    + destruct (tx_bounded_context t); [|done]. cbn. by apply bool_decide_eq_true, Hc.
    + by rewrite Hl.
    + rewrite forallb_zip by done. eapply Forall2_impl; [exact Hp|]. intros p s [? He].
      rewrite andb_true_iff, bool_decide_eq_true. split; [done|].
      destruct (tp_batch p); [by apply batch_matches_recorded_true|]. by rewrite He.
Qed.

(** The events a batch recorded anywhere are a recording of it. *)
Lemma validate_transaction_shape_Ok t :
  validate_transaction_shape t = Ok tt ↔
  NoDup (tp_stream_id <$> tx_participants t)
  ∧ Forall (λ p, ∀ b, tp_batch p = Some b → eb_actor b = tx_actor t) (tx_participants t).
Proof.
  unfold validate_transaction_shape.
  assert (∀ seen p seen', p ∈ tx_participants t → shape_participant (tx_actor t) seen p = Ok seen' ↔
    seen' = {[ tp_stream_id p ]} ∪ seen ∧ tp_stream_id p ∉ seen
    ∧ ∀ b, tp_batch p = Some b → eb_actor b = tx_actor t) as Hstep.
  { intros seen p seen' _. unfold shape_participant. destruct (tp_batch p) as [b|]; cbn [is_some_and].
    - case_bool_decide as Ha; cbn [negb]; [|split; [done|intros (_ & _ & H); by destruct (Ha (H b eq_refl))]].
      case_bool_decide; [split; [done|by intros (_ & ? & _)]|].
      split; [intros [= <-]; split_and!; [done..|by intros ? [= <-]]|by intros (-> & _)].
    - case_bool_decide; [split; [done|by intros (_ & ? & _)]|].
      split; [intros [= <-]; by split_and!|by intros (-> & _)]. }
  pose proof (try_fold_distinct tp_stream_id (shape_participant (tx_actor t))
    (λ p, ∀ b, tp_batch p = Some b → eb_actor b = tx_actor t) _ Hstep ∅) as Hf.
  rewrite rbind_Ok. setoid_rewrite Hf. split.
  - by intros (seen & (_ & ? & _ & ?) & _).
  - intros [? ?]. eexists. split; [|done]. by split_and!.
Qed.

Section Facts.
Context `{SHA : Sha256} `{OJ : OutcomeJson} `{B64 : Base64} `{HM : HeaderMapApi} `{HN : AtomicHeaderNames}.
Context `{WJ : Json StoredEventWire} `{CJ : Json ChecksumInput} `{EC : ErrorCodes} `{AJ : AckJson}.
Context `{RJ : Json StoredTransactionReceiptWire} `{RCJ : Json ReceiptChecksumInput}.
Context `{GJ : Json TransactionGuardWire} `{SJ : Json StateEnvelope}.
Context (s : NatsEventStore).
#[local] Notation config := (ns_config s).

(** ** Staging *)

(** Loaded histories are well formed, each for its stream. *)
Definition histories_ok (histories : LoadedHistories) : Prop :=
  map_Forall (λ stream h, subject_history_ok stream h) histories.

(** A participant as it is staged on the history loaded for it *)
Record staged_on (h : History) (p : TransactionParticipant) (g : StagedTransactionParticipant) : Prop := {
  so_stream : sgp_stream_id g = tp_stream_id p;
  so_batch : sgp_batch g = tp_batch p;
  so_base : sgp_base_version g = mkStreamVersion (len (nh_events h));
  so_expected : expected_base (tp_expected_version p) = Ok (sgp_base_version g);
  so_last : sgp_last_subject_stream_sequence g = nh_last_subject_stream_sequence h;
  so_recorded : match tp_batch p with
                | None => sgp_recorded g = []
                | Some b => sgp_recorded g = record_group (tp_stream_id p) (len (nh_events h)) b
                    ∧ 0 < len (eb_events b) ∧ derived (tp_stream_id p) b
                end;
  so_fresh : ∀ b c, tp_batch p = Some b → c ∈ nh_commits h →
               eb_operation_id (cm_batch c) ≠ eb_operation_id b;
}.

Lemma validate_expected_Ok expected current :
  nats_validate_expected_version expected current = Ok tt → expected_base expected = Ok current.
Proof.
  unfold nats_validate_expected_version, expected_base. destruct expected as [|v]; repeat case_bool_decide; try done.
  all: intros _; cbn; congruence.
Qed.

Lemma unconflicting_participant h p b c :
  transaction_participant_has_conflicting_identity h p = Ok false → tp_batch p = Some b →
  c ∈ nh_commits h → eb_operation_id (cm_batch c) ≠ eb_operation_id b.
Proof.
  unfold transaction_participant_has_conflicting_identity. intros H Hb Hc. rewrite Hb in H.
  destruct (resolve_existing h b) as [r|e] eqn:Er; [|by case_bool_decide].
  apply resolve_existing_Ok in Er. destruct r; [done|]. by apply Er.
Qed.

Lemma stage_participant_Ok t a acc p acc' :
  (∀ stream h, ta_histories a stream = Ok h → subject_history_ok stream h) →
  histories_ok acc.1 → stage_participant s t a acc p = Ok acc' →
  histories_ok acc'.1 ∧ acc.1 ⊆ acc'.1
  ∧ ∃ h g, acc'.1 !! tp_stream_id p = Some h ∧ staged_on h p g ∧ acc'.2 = acc.2 ++ [g].
Proof.
  intros Hload Hacc H. unfold stage_participant in H.
  apply rbind_Ok in H as ([histories h] & Hh%map_err_Ok & H).
  assert (histories_ok histories ∧ acc.1 ⊆ histories ∧ histories !! tp_stream_id p = Some h) as (Hok & Hsub & Hl).
  { unfold load_session_history in Hh. destruct (acc.1 !! tp_stream_id p) as [h'|] eqn:El.
    - by injection Hh as <- <-.
    - apply rbind_Ok in Hh as (h' & Hh%Hload & [= <- <-]). split; [by apply map_Forall_insert_2|].
      split; [by apply insert_subseteq|by rewrite lookup_insert_eq]. }
  apply rbind_Ok in H as (conflicting & Hc%map_err_Ok & H). destruct conflicting; [done|].
  apply rbind_Ok in H as ([] & Hv%map_err_Ok%validate_expected_Ok & H).
  apply rbind_Ok in H as (recorded & Hr%map_err_Ok & [= <-]). cbn [fst snd].
  pose proof (Hok _ _ Hl) as Hhist. rewrite (commits_current_version _ _ Hhist) in *.
  split; [done|]. split; [done|]. exists h. eexists. split; [done|]. split; [|done].
  split; cbn [sgp_stream_id sgp_base_version sgp_last_subject_stream_sequence sgp_batch sgp_recorded]; try done.
  - unfold record_participant in Hr. destruct (tp_batch p) as [b|]; [|by injection Hr as <-].
    apply rbind_Ok in Hr as ([] & Hd & Hr). apply nats_record_batch_Ok in Hr as (Hlen & _ & _ & ->).
    rewrite nats_validate_derived_eq in Hd.
    apply validate_derived_Ok in Hd; [|unfold MAX_EVENTS_PER_BATCH in Hlen; unfold u32_max; lia].
    split_and!; [done|lia|done].
  - intros b c. by apply unconflicting_participant.
Qed.

Lemma stage_loop_Ok t a ps acc acc' :
  (∀ stream h, ta_histories a stream = Ok h → subject_history_ok stream h) →
  histories_ok acc.1 → try_fold (stage_participant s t a) acc ps = Ok acc' →
  histories_ok acc'.1 ∧ acc.1 ⊆ acc'.1
  ∧ ∃ gs, acc'.2 = acc.2 ++ gs
    ∧ Forall2 (λ p g, ∃ h, acc'.1 !! tp_stream_id p = Some h ∧ staged_on h p g) ps gs.
Proof.
  intros Hload. revert acc; induction ps as [|p ps IH]; intros acc Hacc; cbn [try_fold].
  - intros [= <-]. split; [done|]. split; [done|]. exists []. by rewrite app_nil_r.
  - intros (mid & Hs & H)%rbind_Ok.
    destruct (stage_participant_Ok _ _ _ _ _ Hload Hacc Hs) as (Hm & Hsub & h & g & Hl & Hg & Eg).
    destruct (IH _ Hm H) as (Hok & Hsub' & gs & Egs & Hall). split; [done|]. split; [by etransitivity|].
    exists (g :: gs). split; [by rewrite Egs, Eg, <- app_assoc|]. constructor; [|done].
    exists h. split; [by eapply lookup_weaken|done].
Qed.

(** What staging settles before anything is sent *)
Record transaction_staged (t : EventTransaction) (a : TransactionAnswers) (n : N) (histories : LoadedHistories)
    (staged : list StagedTransactionParticipant) : Prop := {
  ts_items : validate_transaction_item_limit t = Ok n;
  ts_streams : NoDup (tp_stream_id <$> tx_participants t);
  ts_unknown : rea_receipt (ta_first a) = Ok None;
  ts_requests : Forall (λ p, participant_request t p = Ok tt) (tx_participants t);
  ts_histories : histories_ok histories;
  ts_participants : Forall2 (λ p g, ∃ h, histories !! tp_stream_id p = Some h ∧ staged_on h p g)
                      (tx_participants t) staged;
}.

Lemma stage_transaction_Ok t histories a n histories' staged :
  (∀ stream h, ta_histories a stream = Ok h → subject_history_ok stream h) → histories_ok histories →
  stage_transaction s t histories a = Ok (n, histories', staged) →
  transaction_staged t a n histories' staged.
Proof.
  intros Hload Hok H. unfold stage_transaction in H. apply rbind_Ok in H as (count & Hc%map_err_Ok & H).
  apply rbind_Ok in H as (receipt & Hr%map_err_Ok & H). destruct receipt; [done|].
  apply rbind_Ok in H as ([] & Hreq%map_err_Ok & H). apply rbind_Ok in H as ([hs gs] & Hf & [= <- <- <-]).
  destruct (stage_loop_Ok _ _ _ (histories, []) (hs, gs) Hload Hok Hf) as (Hhs & _ & gs' & E & Hall). cbn in E, Hhs, Hall. subst gs'.
  unfold transaction_checks in Hc. destruct (is_some_and _ _); [done|].
  apply rbind_Ok in Hc as ([] & Hs%validate_transaction_shape_Ok & Hn). split; try done; [apply Hs|].
  unfold validate_transaction_participant_requests in Hreq.
  apply rbind_Ok in Hreq as (us & Hreq%try_map_Ok & _). clear -Hreq.
  induction Hreq as [|p [] ps us Hp _ IH]; by constructor.
Qed.

(** ** Verification *)

(** The history of a written participant, extended by one commit of as many
    events as were staged *)
Definition extended_by (h h' : History) (g : StagedTransactionParticipant) : Prop :=
  ∃ c, nh_commits h' = nh_commits h ++ [c] ∧ nh_events h' = nh_events h ++ cm_events c
    ∧ len (cm_events c) = len (sgp_recorded g).

(** What the verification leaves of the history a participant was staged on: for
    a written one, what was read back from its stream *)
Definition verified_history (batch_id : string) (a : TransactionAnswers) (h h' : History)
    (g : StagedTransactionParticipant) : Prop :=
  match sgp_batch g with
  | None => h' = h
  | Some _ => extended_by h h' g
      ∧ ∃ last, read_back config (sgp_stream_id g) h last batch_id (len (sgp_recorded g))
                  (ta_lookup a (sgp_stream_id g)) h'
  end.

Lemma verify_loop_Ok batch_id a gs acc acc' :
  histories_ok acc.1 → NoDup (sgp_stream_id <$> gs) →
  try_fold (verify_participant s batch_id a) acc gs = Ok acc' →
  histories_ok acc'.1
  ∧ (∀ stream, stream ∉ sgp_stream_id <$> gs → acc'.1 !! stream = acc.1 !! stream)
  ∧ Forall (λ g, ∀ h, acc.1 !! sgp_stream_id g = Some h →
      ∃ h', acc'.1 !! sgp_stream_id g = Some h' ∧ verified_history batch_id a h h' g) gs.
Proof.
  revert acc; induction gs as [|g gs IH]; intros acc Hacc Hnd; cbn [try_fold].
  - intros [= <-]. split; [done|]. split; [done|constructor].
  - intros (mid & Hs & H)%rbind_Ok. cbn [fmap list_fmap] in Hnd. apply NoDup_cons in Hnd as [Hn Hnd].
    assert (histories_ok mid.1 ∧ (∀ stream, stream ≠ sgp_stream_id g → mid.1 !! stream = acc.1 !! stream)
      ∧ (∀ h, acc.1 !! sgp_stream_id g = Some h →
           ∃ h', mid.1 !! sgp_stream_id g = Some h' ∧ verified_history batch_id a h h' g)) as (Hm & Ho & Hg).
    { clear IH H. unfold verify_participant in Hs. unfold verified_history.
      destruct (sgp_batch g); [|injection Hs as <-; split_and!; [done..|eauto]].
      apply rbind_Ok in Hs as (count & _ & Hs). apply rbind_Ok in Hs as (next & _ & Hs).
      apply rbind_Ok in Hs as (last & _ & Hs). apply rbind_Ok in Hs as (previous & Hp%ok_or_Ok & Hs).
      apply rbind_Ok in Hs as (h' & Hx & [= <-]). cbn [fst].
      destruct (extend_history_ok _ _ _ _ _ _ _ _ (Hacc _ _ Hp) Hx) as (Hh & _ & c & Hc & He & _ & Hl).
      split; [by apply map_Forall_insert_2|]. split; [intros stream Hne; by apply lookup_insert_ne|].
      intros h Hh'. rewrite Hp in Hh'. injection Hh' as <-. exists h'. rewrite lookup_insert_eq.
      split; [done|]. split; [by exists c|]. exists last. by apply extend_history_read. }
    destruct (IH mid Hm Hnd H) as (Hok & Hrest & Hall). split; [done|]. split.
    + intros stream Hx. cbn [fmap list_fmap] in Hx. apply not_elem_of_cons in Hx as [Hx1 Hx2].
      rewrite Hrest, Ho; done.
    + constructor.
      * intros h Hh. rewrite Hrest by done. by apply Hg.
      * apply Forall_forall. intros g' Hin h Hh. rewrite Forall_forall in Hall. apply (Hall _ Hin).
        rewrite Ho; [done|]. intros E. apply Hn. rewrite <- E. by apply list_elem_of_fmap_2.
Qed.

(** A recording of a batch in one group is the group of that batch. *)
Lemma recorded_group_batch stream v b b' :
  recorded_of b (record_group stream v b') → eb_events b' ≠ [] → b' = b.
Proof.
  intros H Hne. unfold recorded_of in H.
  assert (eb_events b' = eb_events b) as He.
  { apply list_eq. intros i. destruct (eb_events b' !! i) as [n|] eqn:En.
    - assert (record_group stream v b' !! i = Some (from_new stream (mkStreamVersion (v + N.of_nat i + 1)) b'
        (N.of_nat i) (len (eb_events b')) n)) as Hr by (apply record_group_lookup; by exists n).
      destruct (Forall2_lookup_r _ _ _ _ _ H Hr) as (n' & -> & [[H1 H2 H3 H4] _ _ _ _ _ _]).
      cbn in H1, H2, H3, H4. destruct n, n'. cbn in *. congruence.
    - symmetry. apply lookup_ge_None. apply lookup_ge_None in En.
      by rewrite (Forall2_length _ _ _ H), length_record_group. }
  destruct (eb_events b') as [|n news] eqn:E; [done|].
  assert (record_group stream v b' !! 0%nat = Some (from_new stream (mkStreamVersion (v + N.of_nat 0 + 1)) b'
    (N.of_nat 0) (len (eb_events b')) n)) as Hr by (apply record_group_lookup; exists n; by rewrite E).
  destruct (Forall2_lookup_r _ _ _ _ _ H Hr) as (n' & _ & [_ H1 H2 H3 H4 H5 H6]).
  cbn in H1, H2, H3, H4, H5, H6. destruct b, b'. cbn in *. congruence.
Qed.

Lemma record_group_base stream v w b :
  eb_events b ≠ [] → record_group stream v b = record_group stream w b → v = w.
Proof.
  unfold record_group. destruct (eb_events b); [done|]. cbn. intros _ [= H _]. lia.
Qed.

(** The commit in evidence for a written participant is the one just published:
    its events are the staged ones, at the staged base. *)
Lemma written_participant_placed t h h' p g b x r o c :
  participant_request t p = Ok tt → staged_on h p g → tp_batch p = Some b →
  subject_history_ok (tp_stream_id p) h → subject_history_ok (tp_stream_id p) h' → extended_by h h' g →
  ti_operation_id (rcx_identity x) = tx_operation_id t → sr_stream_id r = tp_stream_id p →
  recorded_of b (sr_events r) → commit_evidence x h' r o c →
  sr_events r = sgp_recorded g ∧ sr_base_version r = sgp_base_version g.
Proof.
  intros Hreq Hg Hb Hh Hh' (c0 & Hc0 & _ & _) Hop Hs Hrec Hc.
  pose proof (ce_commit _ _ _ _ _ Hc) as Hin. rewrite Hc0 in Hin.
  pose proof (ce_nonempty _ _ _ _ _ Hc) as Hne. pose proof (ce_recorded _ _ _ _ _ Hc) as Hgr.
  apply elem_of_app in Hin as [Hin|Hin%list_elem_of_singleton].
  { exfalso. apply (so_fresh _ _ _ Hg b c Hb Hin). pose proof (ce_identity _ _ _ _ _ Hc) as Hid.
    unfold commit_has_identity in Hid. rewrite !andb_true_iff, !bool_decide_eq_true in Hid.
    destruct Hid as [[[[Hid _] _] _] _]. rewrite Hid, Hop. unfold participant_request in Hreq.
    rewrite Hb in Hreq. by guards. }
  subst c0. pose proof (sh_commits _ _ Hh') as Hcs. rewrite Hc0 in Hcs. apply commits_ok_snoc_inv in Hcs.
  rewrite <- (sh_events _ _ Hh), N.add_0_l in Hcs. pose proof (co_events _ _ _ Hcs) as He.
  assert (eb_events (cm_batch c) ≠ []) as Hnb.
  { intros E. rewrite He in Hne. unfold record_group in Hne. by rewrite E in Hne. }
  rewrite (ce_events _ _ _ _ _ Hc) in Hrec |- *. rewrite Hgr in Hrec. apply recorded_group_batch in Hrec as Hbb; [|done].
  pose proof (so_recorded _ _ _ Hg) as Hr. rewrite Hb in Hr. destruct Hr as [Hr _]. rewrite Hr.
  split; [by rewrite He, Hbb|]. rewrite (so_base _ _ _ Hg). rewrite Hs, He in Hgr.
  apply record_group_base in Hgr; [|done]. destruct (sr_base_version r). cbn in *. by rewrite Hgr.
Qed.

(** The participant of a receipt at the place of a staged one: the same stream
    with the staged events, and for a written one at the staged base *)
Record staged_at (g : StagedTransactionParticipant) (r : TransactionStreamReceipt) : Prop := {
  pl_stream : sr_stream_id r = sgp_stream_id g;
  pl_events : sr_events r = sgp_recorded g;
  pl_base : sgp_batch g ≠ None → sr_base_version r = sgp_base_version g;
}.

Lemma staged_streams t a n histories staged :
  transaction_staged t a n histories staged →
  sgp_stream_id <$> staged = tp_stream_id <$> tx_participants t.
Proof.
  intros Hs. pose proof (ts_participants _ _ _ _ _ Hs) as H. clear Hs.
  induction H as [|p g ps gs (h & _ & Hg) _ IH]; [done|]. cbn. by rewrite (so_stream _ _ _ Hg), IH.
Qed.

Lemma receipt_placed t a n histories staged batch_id start final next messages raw layout x r :
  transaction_staged t a n histories staged →
  try_fold (verify_participant s batch_id a) (histories, start) staged = Ok (final, next) →
  receipt_of t r → ti_operation_id (rcx_identity x) = tx_operation_id t →
  evidenced config messages (cached_raw_history final raw) layout x 0 0 (tr_streams r) →
  Forall2 staged_at staged (tr_streams r).
Proof.
  intros Hs Hf Hr Hx He. pose proof (staged_streams _ _ _ _ _ Hs) as Hids.
  assert (NoDup (sgp_stream_id <$> staged)) as Hnd by (rewrite Hids; apply Hs).
  destruct (verify_loop_Ok _ _ _ (histories, start) (final, next) (ts_histories _ _ _ _ _ Hs) Hnd Hf)
    as (Hfinal & _ & Hver).
  pose proof (ts_participants _ _ _ _ _ Hs) as Hps. pose proof (rt_participants _ _ Hr) as Hrs.
  apply Forall2_same_length_lookup. split.
  { by rewrite <- (Forall2_length _ _ _ Hps), <- (Forall2_length _ _ _ Hrs). }
  intros i g sr Hg Hsr. destruct (Forall2_lookup_r _ _ _ _ _ Hps Hg) as (p & Hp & h & Hh & Hgp).
  destruct (Forall2_lookup_lr _ _ _ _ _ _ Hrs Hp Hsr) as [Hid Hev].
  pose proof (so_recorded _ _ _ Hgp) as Hrec. pose proof (so_batch _ _ _ Hgp) as Hb.
  rewrite Forall_lookup in Hver. specialize (Hver _ _ Hg h).
  rewrite (so_stream _ _ _ Hgp) in Hver. cbn [fst] in Hver, Hfinal. destruct (Hver Hh) as (h' & Hh' & Hv).
  destruct (tp_batch p) as [b|] eqn:Etp; cycle 1.
  { rewrite <- Hrec in Hev. split; [by rewrite (so_stream _ _ _ Hgp)|done|by rewrite Hb]. }
  unfold verified_history in Hv. rewrite Hb in Hv. destruct Hv as [Hv _], Hrec as (Hrec & Hlen & _).
  assert (sr_events sr ≠ []) as Hne.
  { intros E. rewrite E in Hev. apply Forall2_length in Hev. unfold len in Hlen. cbn in Hev. lia. }
  apply list_elem_of_lookup_2 in Hsr. destruct (evidenced_elem _ _ _ _ _ _ _ _ _ He Hsr Hne) as (h2 & o & c & Hc2 & Hc & _).
  unfold cached_raw_history in Hc2. rewrite <- Hid, Hh' in Hc2. injection Hc2 as <-.
  pose proof (ts_requests _ _ _ _ _ Hs) as Hreq. rewrite Forall_lookup in Hreq.
  destruct (written_participant_placed t h h' p g b x sr o c (Hreq _ _ Hp) Hgp Etp
    (ts_histories _ _ _ _ _ Hs _ _ Hh) (Hfinal _ _ Hh') Hv Hx (eq_sym Hid) Hev Hc).
  split; [by rewrite (so_stream _ _ _ Hgp)|done|done].
Qed.

(** ** Replays *)

(** An outcome that was found: a receipt of the operation whose content is that
    of the transaction *)
Definition replayed (t : EventTransaction) (found : ReceiptAnswers) (o : TransactionAppendOutcome) : Prop :=
  ∃ r, o = TxExactReplay r ∧ rea_receipt found = Ok (Some r) ∧ matches_stored s t r (rea_stored found) = Ok true.

Lemma resolve_found_Ok t r found o :
  rea_receipt found = Ok (Some r) → resolve_found_receipt s t r (rea_stored found) = Ok o → replayed t found o.
Proof.
  intros Hr H. unfold resolve_found_receipt in H. apply rbind_Ok in H as ([] & Hm & H); [|done].
  injection H as <-. by exists r.
Qed.

Lemma resolve_identity_Ok t found o : resolve_identity_after_conflict s t found = Ok o → replayed t found o.
Proof.
  unfold resolve_identity_after_conflict. intros ([r|] & Hr & H)%rbind_Ok.
  - destruct (negb _) eqn:Es.
    + unfold resolve_transaction_identity_after_participant_conflict in H.
      destruct (transaction_matches_receipt t r) eqn:Em; [|done]. injection H as <-. exists r.
      split_and!; [done..|]. unfold matches_stored. by rewrite Es, Em.
    + apply rbind_Ok in H as (replay & Hm & H). apply rbind_Ok in Hm as ([] & Hm & [= <-]); [|done].
      injection H as <-. by exists r.
  - by destruct (negb _).
Qed.

Lemma resolve_race_Ok t race o :
  resolve_transaction_race s t race = Ok o → replayed t (rca_first race) o ∨ replayed t (rca_conflict race) o.
Proof.
  unfold resolve_transaction_race. intros ([r|] & Hr & H)%rbind_Ok; [left; by eapply resolve_found_Ok|].
  apply rbind_Ok in H as ([] & _ & H); [|done]. right. by apply resolve_identity_Ok.
Qed.

Lemma reconcile_Ok t error race o :
  reconcile_unavailable_transaction_publish s t error race = Ok o →
  replayed t (rca_first race) o ∨ replayed t (rca_conflict race) o.
Proof.
  unfold reconcile_unavailable_transaction_publish. intros ([r|] & Hr%map_err_Ok & H)%rbind_Ok;
    [left; by eapply resolve_found_Ok|].
  apply rbind_Ok in H as ([] & _ & H); [|done]. right. apply resolve_identity_Ok in H as (r & -> & Hx & Hm).
  cbn in Hx, Hm. apply map_err_Ok in Hx. by exists r.
Qed.

Lemma stage_loop_exit t a ps acc o :
  try_fold (stage_participant s t a) acc ps = Err (Ok o) → replayed t (ta_conflict a) o.
Proof.
  revert acc; induction ps as [|p ps IH]; intros acc; cbn [try_fold]; [done|].
  destruct (stage_participant s t a acc p) as [mid|exit] eqn:E; cbn [rbind]; [by apply IH|]. intros [= ->].
  unfold stage_participant in E. destruct (load_session_history _ _ _) as [[hs h]|]; [|done].
  cbn [or_exit map_err rbind] in E.
  destruct (transaction_participant_has_conflicting_identity h p) as [[]|]; [|..|done]; cbn [or_exit map_err rbind] in E.
  - injection E as E. by apply resolve_identity_Ok.
  - destruct (nats_validate_expected_version _ _); [|done]. cbn [or_exit map_err rbind] in E.
    by destruct (record_participant _ _ _).
Qed.

Lemma stage_transaction_exit t histories a o :
  stage_transaction s t histories a = Err (Ok o) → replayed t (ta_first a) o ∨ replayed t (ta_conflict a) o.
Proof.
  unfold stage_transaction. destruct (transaction_checks s t); [|done]. cbn [or_exit map_err rbind].
  destruct (rea_receipt (ta_first a)) as [[r|]|] eqn:Er; [..|done]; cbn [or_exit map_err rbind].
  - intros [= H]. left. by eapply resolve_found_Ok.
  - destruct (validate_transaction_participant_requests t); [|done]. cbn [or_exit map_err rbind].
    destruct (try_fold _ _ _) as [[]|exit] eqn:Ef; [done|]. intros [= ->]. right. by eapply stage_loop_exit.
Qed.

(** ** Publishing *)

Definition transaction_batch_id (t : EventTransaction) (a : TransactionAnswers) : string :=
  new_transaction_batch_id (ta_inbox a) (tx_operation_id t).

Lemma published_Ok t staged histories n messages a sent o :
  len messages < usize_max → publish_transaction s t staged histories n messages a = (sent, Ok o) →
  replayed t (rca_first (ta_race a)) o ∨ replayed t (rca_conflict (ta_race a)) o
  ∨ (sent = atomic_sent config (transaction_batch_id t a) (id_str <$> tx_correlation_id t) (len messages) 0 messages
     ∧ ∃ ack, transaction_acknowledged s (transaction_batch_id t a) (len messages) ack = true
       ∧ verify_transaction s t staged histories n (transaction_batch_id t a) (len messages) ack a = Ok o).
Proof.
  intros Hl H. unfold publish_transaction, publish_atomic_messages in H. fold (transaction_batch_id t a) in H.
  destruct (publish_from _ _ _ _ _ _ _) as [msgs published] eqn:Ep. injection H as -> Hr.
  apply publish_from_spec in Ep as [_ Hok]; [|lia|done].
  destruct published as [ack|[|error]].
  - right. right. destruct (Hok ack eq_refl) as [-> _]. split; [done|]. exists ack.
    apply rbind_Ok in Hr as (items & Hi%ok_or_Ok%try_from_Some & Hr). destruct Hi as [-> _].
    destruct (transaction_acknowledged _ _ _ _); [|done]. cbn [negb] in Hr. by apply map_err_Ok in Hr.
  - apply resolve_race_Ok in Hr as [?|?]; tauto.
  - case_bool_decide; [|done]. apply reconcile_Ok in Hr as [?|?]; tauto.
Qed.

(** *** The size of the batch *)

Lemma length_batch_messages subject expected events :
  length (atomic_batch_messages subject expected events) = length events.
Proof. unfold atomic_batch_messages, enumerate. by rewrite length_map, length_enumerate_from. Qed.

Lemma event_messages_step count acc p g acc' h :
  staged_on h p g → event_messages s count acc g = Ok acc' → len acc.1 = acc.2 →
  len acc'.1 = acc'.2
  ∧ acc'.2 = acc.2 + match tp_batch p with Some b => len (eb_events b) | None => 0 end.
Proof.
  intros Hg H Hl. unfold event_messages in H. rewrite (so_batch _ _ _ Hg) in H.
  pose proof (so_recorded _ _ _ Hg) as Hr. destruct (tp_batch p) as [b|].
  - destruct Hr as (Hr & _ & _). apply rbind_Ok in H as (payloads & _ & H).
    destruct (N.eqb_spec (len payloads) (len (sgp_recorded g))) as [Ep|]; [|done]. cbn [negb] in H.
    destruct (existsb _ _); [done|]. apply rbind_Ok in H as (count' & Hc%ok_or_Ok%try_from_Some & H).
    apply rbind_Ok in H as (offset & Ho%ok_or_Ok%checked_add_Some & [= <-]). cbn [fst snd].
    destruct Hc as [-> _], Ho as [-> _].
    assert (len (sgp_recorded g) = len (eb_events b)) as El by (rewrite Hr; apply len_record_group).
    split; [|lia]. rewrite len_app, Hl. f_equal. unfold len in *.
    rewrite length_batch_messages, length_zip_with, length_fmap. lia.
  - injection H as <-. split; [done|lia].
Qed.

Lemma event_messages_len (histories : LoadedHistories) count ps gs acc acc' :
  Forall2 (λ p g, ∃ h, histories !! tp_stream_id p = Some h ∧ staged_on h p g) ps gs →
  try_fold (event_messages s count) acc gs = Ok acc' → len acc.1 = acc.2 →
  len acc'.1 = acc.2 + event_total (omap tp_batch ps).
Proof.
  intros Hps. revert acc; induction Hps as [|p g ps gs (h & _ & Hg) _ IH]; intros acc; cbn [try_fold].
  - intros [= <-] ->. cbn. lia.
  - intros (mid & Hs & H)%rbind_Ok Hl. destruct (event_messages_step _ _ _ _ _ _ Hg Hs Hl) as [Hm E].
    rewrite (IH _ H Hm), E.
    change (omap tp_batch (p :: ps)) with
      (match tp_batch p with Some b => b :: omap tp_batch ps | None => omap tp_batch ps end).
    destruct (tp_batch p) as [b|]; [|lia].
    change (event_total (b :: omap tp_batch ps)) with (len (eb_events b) + event_total (omap tp_batch ps)). lia.
Qed.

(** The batch holds the events, the guards and the receipt, no more than the
    item limit. *)
Lemma transaction_messages_len t a n histories staged messages :
  transaction_staged t a n histories staged → transaction_messages s t staged n = Ok messages →
  len messages = n + read_guards (tx_participants t) ∧ len messages + 1 <= MAX_TRANSACTION_ITEMS.
Proof.
  intros Hs H. pose proof (ts_items _ _ _ _ _ Hs) as [Hn Hl]%item_limit_Ok.
  unfold transaction_messages in H. apply rbind_Ok in H as (count & _ & H).
  apply rbind_Ok in H as ([events offset] & Hf & H). apply rbind_Ok in H as (gs & Hg%try_map_Ok%Forall2_length & [= <-]).
  apply (event_messages_len histories count (tx_participants t)) in Hf; [|apply Hs|done]. cbn [fst snd] in Hf.
  unfold enumerate in Hg. rewrite length_enumerate_from in Hg.
  assert (length (filter (λ g, sgp_batch g = None) staged)
          = length (filter (λ p, tp_batch p = None) (tx_participants t))) as Hfl.
  { pose proof (ts_participants _ _ _ _ _ Hs) as Hps. clear -Hps.
    induction Hps as [|p g ps gs (h & _ & Hgp) _ IH]; [done|]. rewrite !filter_cons, (so_batch _ _ _ Hgp).
    case_decide; cbn; by rewrite IH. }
  assert (len (events ++ gs) = n + read_guards (tx_participants t)) as ->; [|lia].
  rewrite len_app, Hf, Hn. unfold read_guards, tx_batches, len. rewrite <- Hg, Hfl. lia.
Qed.

(** ** The append *)

(** Reads of raw histories give well-formed histories. *)
Definition reads_ok (a : TransactionAnswers) : Prop :=
  (∀ stream h, ta_histories a stream = Ok h → subject_history_ok stream h)
  ∧ (∀ stream h, ta_raw_histories a stream = Ok h → subject_history_ok stream h).

(** What was read back of a transaction staged as [staged] on [histories]: the
    written streams, as their lookups answered them, from which and from the
    receipt's lookup the receipt [m] was materialized and evidenced *)
Record transaction_read (t : EventTransaction) (a : TransactionAnswers) (histories : LoadedHistories)
    (staged : list StagedTransactionParticipant) (m : MaterializedTransactionReceipt) (final : LoadedHistories)
  : Prop := {
  trd_streams : Forall (λ g, ∀ h, histories !! sgp_stream_id g = Some h →
    ∃ h', final !! sgp_stream_id g = Some h' ∧ verified_history (transaction_batch_id t a) a h h' g) staged;
  trd_receipt : load_transaction_receipt_from_stream s (ta_published a) (ta_messages a)
    (cached_raw_history final (ta_raw_histories a)) (tx_operation_id t) true OperationLayout = Ok (Some m);
  trd_integrity : integrity_ok (mtr_receipt m);
  trd_batch : mtr_batch_id m = transaction_batch_id t a;
  trd_count : mtr_transaction_event_count m = event_total (tx_batches t);
  trd_evidence : evidenced config (ta_messages a) (cached_raw_history final (ta_raw_histories a)) OperationLayout
    (materialized_context m) 0 0 (tr_streams (mtr_receipt m));
  trd_matches : matches_checked_receipt s t (mtr_receipt m) (mtr_marker m) = Ok true;
  trd_inline : nc_split_outcomes config = false ∨ mtr_marker m = None → receipt_of t (mtr_receipt m);
}.

(** What a reported append means: the staged participants; the one batch sent,
    with its events, its guards and its receipt; and the receipt read back from
    the streams and the receipt's subject, with the transaction's content. *)
Definition transaction_stored (t : EventTransaction) (a : TransactionAnswers) (sent : TransactionSent)
    (r : TransactionReceipt) : Prop :=
  ∃ n histories staged messages receipt m final,
    transaction_staged t a n histories staged
    ∧ transaction_messages s t staged n = Ok messages
    ∧ apm_subject receipt = transaction_subject config (ident_str (tx_operation_id t))
    ∧ apm_expected_last_subject_sequence receipt = Some 0
    ∧ txs_batch sent
      = atomic_sent config (transaction_batch_id t a) (id_str <$> tx_correlation_id t) (len messages + 1) 0
          (messages ++ [receipt])
    ∧ transaction_read t a histories staged m final ∧ r = mtr_receipt m
    ∧ (receipt_of t r → Forall2 staged_at staged (tr_streams r)).

Lemma read_receipt_operation lookup operation required layout decoded :
  read_transaction_receipt config lookup operation required layout = Ok (Some decoded) →
  trc_operation_id (dtr_content decoded) = ident_str operation.
Proof.
  unfold read_transaction_receipt. intros (message & _ & H)%rbind_Ok. destruct message; [|done].
  destruct (negb _); [done|]. apply rbind_Ok in H as (found & _ & H).
  destruct (String.eqb_spec (trc_operation_id (dtr_content found)) (ident_str operation)) as [E|]; [|done].
  cbn [negb] in H. apply rbind_Ok in H as (_ & _ & [= <-]). done.
Qed.

Lemma context_operation decoded x :
  receipt_context decoded = Ok x →
  ident_str (ti_operation_id (rcx_identity x)) = trc_operation_id (dtr_content decoded).
Proof.
  unfold receipt_context. intros H. guards. cbn [rcx_identity ti_operation_id].
  match goal with E : ident_new _ _ = Ok _ |- _ => unfold ident_new in E; by guards end.
Qed.

Lemma checked_inline t r marker :
  matches_checked_receipt s t r marker = Ok true → nc_split_outcomes config = false ∨ marker = None →
  receipt_of t r.
Proof.
  unfold matches_checked_receipt. intros H Hm. apply transaction_matches_receipt_true.
  destruct marker; [|congruence]. destruct (nc_split_outcomes config); [by destruct Hm|]. congruence.
Qed.

(** The verification of an acknowledged batch *)
Lemma verify_transaction_Ok t a n histories staged items ack o :
  reads_ok a → transaction_staged t a n histories staged →
  verify_transaction s t staged histories n (transaction_batch_id t a) items ack a = Ok o →
  ∃ m final, o = TxAppended (mtr_receipt m) ∧ transaction_read t a histories staged m final
    ∧ (receipt_of t (mtr_receipt m) → Forall2 staged_at staged (tr_streams (mtr_receipt m))).
Proof.
  intros [_ Hraw] Hs H. unfold verify_transaction in H. apply rbind_Ok in H as (start & _ & H).
  apply rbind_Ok in H as ([final next] & Hf & H). apply rbind_Ok in H as (loaded & Hload & H).
  apply rbind_Ok in H as (m & ->%ok_or_Ok & H). destruct (_ || _) eqn:Eb; [done|].
  apply rbind_Ok in H as ([] & Hm & H); [|done]. injection H as <-.
  rewrite !orb_false_iff, !negb_false_iff, String.eqb_eq, !N.eqb_eq in Eb. destruct Eb as [[Hb _] Hn].
  pose proof Hload as Hload'. unfold load_transaction_receipt_from_stream in Hload'.
  apply rbind_Ok in Hload' as ([decoded|] & Hread & Hload'); [|done].
  apply rmap_Ok in Hload' as (m' & Hmat & [= ->]).
  assert (NoDup (sgp_stream_id <$> staged)) as Hnd by (rewrite (staged_streams _ _ _ _ _ Hs); apply Hs).
  destruct (verify_loop_Ok _ _ _ (histories, start) (final, next) (ts_histories _ _ _ _ _ Hs) Hnd Hf)
    as (Hok & _ & Hver).
  assert (∀ stream h, cached_raw_history final (ta_raw_histories a) stream = Ok h → subject_history_ok stream h) as Hc.
  { intros stream h. unfold cached_raw_history. destruct (final !! stream) as [h'|] eqn:E; [|apply Hraw].
    intros [= <-]. exact (Hok _ _ E). }
  destruct (materialized_Ok _ _ _ _ _ _ _ Hc Hmat) as [(Hi & He & _) Hctx].
  exists m, final. split_and!; [done| |].
  - pose proof (ts_items _ _ _ _ _ Hs) as [Hitems _]%item_limit_Ok. split; try done; [congruence|].
    intros Hor. by eapply checked_inline.
  - intros Hr. eapply (receipt_placed t a n); try done. apply ident_str_inj.
    by rewrite (context_operation _ _ Hctx), (read_receipt_operation _ _ _ _ _ Hread).
Qed.

(** C30 (safety). Whatever the server answers, a transaction that reports its
    receipt appended has sent exactly one atomic batch - the events of its written
    participants, the guards of its read ones, then its receipt, conditioned on
    the operation having none - staged on the expected versions of distinct
    streams whose histories did not hold the operation; and what it returns was
    read back: every written stream, by the lookups that follow the history it was
    staged on, and the receipt, by the lookup of its subject and of the messages it
    names - an integral receipt of that batch, evidenced commit by commit and guard
    by guard in what was read, that matches the transaction - by its content, and then its
    written streams carry the staged events at the staged versions, or by the
    digest of its proposal where the outcome is split. A transaction that reports a
    replay returns a receipt found under its operation with its content. *)
Theorem appended_transaction_is_stored t histories a sent o :
  reads_ok a → histories_ok histories →
  append_transaction_with_histories s t histories a = (sent, Ok o) →
  match o with
  | TxAppended r => transaction_stored t a sent r
  | TxExactReplay r => ∃ found,
      found ∈ [ta_first a; ta_conflict a; rca_first (ta_race a); rca_conflict (ta_race a)]
      ∧ rea_receipt found = Ok (Some r) ∧ matches_stored s t r (rea_stored found) = Ok true
  end.
Proof.
  intros Ha Hh H. unfold append_transaction_with_histories in H.
  assert (∀ found, found ∈ [ta_first a; ta_conflict a; rca_first (ta_race a); rca_conflict (ta_race a)] →
    replayed t found o →
    match o with
    | TxAppended r => transaction_stored t a sent r
    | TxExactReplay r => ∃ found,
        found ∈ [ta_first a; ta_conflict a; rca_first (ta_race a); rca_conflict (ta_race a)]
        ∧ rea_receipt found = Ok (Some r) ∧ matches_stored s t r (rea_stored found) = Ok true
    end) as Hreplay by (intros found Hin (r & -> & Hr & Hm); by exists found).
  destruct (stage_transaction s t histories a) as [[[n hs] staged]|exit] eqn:Es; cycle 1.
  { injection H as _ ->. apply stage_transaction_exit in Es as [Hr|Hr]; eapply Hreplay; [|exact Hr| |exact Hr]; set_solver. }
  apply stage_transaction_Ok in Es as Hs; [|apply Ha|done].
  destruct (transaction_messages s t staged n) as [messages|] eqn:Em; [|done].
  destruct (outcome_content s t staged a) as [state content]. destruct (rbind content _) as [receipt|] eqn:Er; [|done].
  destruct (publish_transaction _ _ _ _ _ _ _) as [msgs result] eqn:Ep. injection H as <- ->.
  destruct (transaction_messages_len _ _ _ _ _ _ Hs Em) as [_ Hlen].
  assert (len (messages ++ [receipt]) = len messages + 1) as Hl by (by rewrite len_app).
  apply published_Ok in Ep as [Hr|[Hr|[-> (ack & _ & Hv)]]];
    [eapply Hreplay, Hr; set_solver..| |rewrite Hl; unfold MAX_TRANSACTION_ITEMS in Hlen; change usize_max with (2 ^ 64 - 1); lia].
  rewrite Hl in Hv. destruct (verify_transaction_Ok _ _ _ _ _ _ _ _ Ha Hs Hv) as (m & final & -> & Hread & Hpl).
  exists n, hs, staged, messages, receipt, m, final. rewrite Hl. cbn [txs_batch].
  apply rbind_Ok in Er as (c & _ & Er). unfold receipt_message in Er.
  apply rbind_Ok in Er as (payload & _ & Er). destruct (exceeds_limit _ _); [done|]. by injection Er as <-.
Qed.

End Facts.
