(* ===== verification/NatsSamples.v ===== *)
(** * NatsSamples: concrete instances of the interfaces the NATS event store
    relies on, and the witnesses of its theorems. *)

From S2P Require Export NatsRoundtrip NatsAppendFacts NatsAuthority NatsReceiptFacts NatsOutcomes NatsTransactionFacts OutcomeFacts.

(** ** Instances *)

Definition content_fields (c : StoredEventContentWire) : list (list byte) :=
  [field (sec_event_store_stream c); field (sec_application c); field (sec_bounded_context c);
   field (siw_aggregate_type (sec_stream c)); field (siw_aggregate_id (sec_stream c));
   field (sec_stream_version c); field (sec_commit_id c); field (sec_operation_id c);
   field (sec_operation_fingerprint c); field (sec_correlation_id c); field (sec_causation_id c);
   field (sec_actor c); field (sec_commit_event_ordinal c); field (sec_commit_event_count c);
   field (sec_transaction_event_ordinal c); field (sec_transaction_event_count c);
   field (sec_event_id c); field (sec_event_type c); field (sec_event_schema_version c);
   field (sec_payload_base64 c)].
Definition content_unfields (l : list (list byte)) : option StoredEventContentWire :=
  match l with
  | [a; b; c; d; d'; e; f; g; h; i; j; k; m; n; o; p; q; r; s; t] =>
    a ← unfield a; b ← unfield b; c ← unfield c; d ← unfield d; d' ← unfield d'; e ← unfield e;
    f ← unfield f; g ← unfield g; h ← unfield h; i ← unfield i; j ← unfield j; k ← unfield k;
    m ← unfield m; n ← unfield n; o ← unfield o; p ← unfield p; q ← unfield q; r ← unfield r;
    s ← unfield s; t ← unfield t;
    Some (mkEventContent a b c (mkStreamIdentityWire d d') e f g h i j k m n o p q r s t)
  | _ => None
  end.
Lemma content_unfields_fields c : content_unfields (content_fields c) = Some c.
Proof.
  destruct c as [? ? ? [] ? ? ? ? ? ? ? ? ? ? ? ? ? ? ?].
  cbn -[field unfield]. by rewrite !unfield_field.
Qed.

Definition sample_wire_json : Json StoredEventWire.
Proof.
  refine (fields_json
    (λ w, field (sew_schema_version w) :: field (sew_checksum w) :: content_fields (sew_event w))
    (λ l, match l with
          | v :: c :: r => v ← unfield v; c ← unfield c; e ← content_unfields r; Some (mkEventWire v c e)
          | _ => None
          end) _).
  intros [v c e]. cbn -[field unfield content_unfields content_fields].
  rewrite !unfield_field. cbn -[content_unfields content_fields]. by rewrite content_unfields_fields.
Defined.

Definition sample_checksum_json : Json ChecksumInput.
Proof.
  refine (fields_json
    (λ w, field (ci_schema_version w) :: content_fields (ci_event w))
    (λ l, match l with
          | v :: r => v ← unfield v; e ← content_unfields r; Some (mkChecksumInput v e)
          | _ => None
          end) _).
  intros [v e]. cbn -[field unfield content_unfields content_fields].
  rewrite !unfield_field. cbn -[content_unfields content_fields]. by rewrite content_unfields_fields.
Defined.

Definition sample_base64 : Base64.
Proof.
  refine {| base64_encode := string_of_list_byte; base64_decode := λ s, Ok (as_bytes s) |}.
  intros bs. unfold as_bytes. by rewrite list_byte_of_string_of_list_byte.
Defined.

Definition sample_headers : HeaderMapApi.
Proof.
  refine {| HeaderMap := gmap string (list string); headers_new := ∅;
            headers_insert := λ n v h, <[n := [v]]> h;
            headers_get_all := λ h n, default [] (h !! n) |}; intros.
  - by rewrite lookup_empty.
  - by rewrite lookup_insert_eq.
  - by rewrite lookup_insert_ne.
Defined.

Definition sample_header_names : AtomicHeaderNames.
Proof.
  by refine {| NATS_BATCH_COMMIT := "Nats-Batch-Commit"; NATS_BATCH_COMMIT_FINAL := "1";
     NATS_BATCH_ID := "Nats-Batch-Id"; NATS_BATCH_SEQUENCE := "Nats-Batch-Sequence";
     NATS_EXPECTED_LAST_SUBJECT_SEQUENCE := "Nats-Expected-Last-Subject-Sequence";
     NATS_EXPECTED_STREAM := "Nats-Expected-Stream";
     NATS_REQUIRED_API_LEVEL := "Nats-Required-Api-Level" |}.
Defined.

#[local] Existing Instances tail_digest sample_wire_json sample_checksum_json sample_base64
  sample_headers sample_header_names.

(** ** A direct append followed by a transaction *)

Definition sample_config : NatsEventStoreConfig :=
  match for_bounded_context (mkBoundedContext (mkApplicationName "shop") Normal (mkBoundedContextName "orders")) with
  | Ok c => c
  | Err _ => mkNatsConfig None false false false None "" (mkApplicationName "") Normal
               (mkBoundedContextName "") "" "" 0 EventByteLimit_DEFAULT 0 0
  end.

Definition sample_wire (v : N) (o : OperationId) (first : N) (tr : option (N * N)) (total : N)
  : PublishedWire :=
  let p := mkPublished (sample_batch o) "batch" tr first in
  mkPublishedWire p total None
    (match encode_events_inner sample_config sample_stream (sample_batch o)
             (record_group sample_stream v (sample_batch o)) tr with Ok l => l | Err _ => [] end).
Definition sample_log : list PublishedWire :=
  [sample_wire 0 (Ident "first-operation-000000000000000000") 1 None 2; sample_wire 2 (Ident "other-operation-000000000000000000") 6 (Some (1, 3)) 4].

Lemma sample_wire_ok v last o first tr total :
  ident_ok o → v + 2 <= u64_max → last < first → first + 2 <= u64_max →
  (tr = None → total = 2) →
  (∀ off n, tr = Some (off, n) → off + 2 <= n ∧ n <= MAX_EVENTS_PER_BATCH ∧ off < first ∧ n < total) →
  derive_event_id (derive_commit_id sample_stream o) 0 ≠ derive_event_id (derive_commit_id sample_stream o) 1 →
  is_ok (encode_events_inner sample_config sample_stream (sample_batch o)
             (record_group sample_stream v (sample_batch o)) tr) = true →
  forallb (λ payload, len payload <=? MAX_SUPPORTED_EVENT_BYTES) (pw_payloads (sample_wire v o first tr total)) = true →
  wire_ok sample_config sample_stream v last (sample_wire v o first tr total).
Proof.
  intros Ho Hv Hl Hf Hd Ht Hne Hok Hsz. split; cbn [sample_wire pw_published pub_batch pub_first
    pub_transaction pw_total pub_batch_id pw_payloads]; try done.
  - split; try done.
    + split; [by split; vm_compute|by vm_compute|]. cbn. apply NoDup_cons. split; [|apply NoDup_singleton].
      by intros ?%list_elem_of_singleton.
    + split; [done|]. by intros [|[|i]] e; cbn; intros [= <-] || done.
    + by repeat constructor; vm_compute.
  - destruct (encode_events_inner _ _ _ _ _); done.
  - rewrite forallb_forall in Hsz. apply Forall_forall. intros x Hx%list_elem_of_In%Hsz. by apply N.leb_le.
Qed.

Lemma sample_log_ok : published_log sample_config sample_stream sample_log.
Proof.
  split.
  - cbn [log_ok sample_log]. split_and!; [|apply sample_wire_ok|done];
      [apply sample_wire_ok|..]; try (by vm_compute); try done; try (by intros off n [= <- <-]);
      try (intros E; exfalso; revert E; by vm_compute).
  - apply (bool_decide_unpack _). by vm_compute.
  - apply (bool_decide_unpack _). by vm_compute.
  - apply (bool_decide_unpack _). by vm_compute.
Qed.

Definition reader_ended : EventStoreError :=
  store_error Unavailable "history replay ended before its cutoff".

(** ** Witnesses *)

Lemma published_log_is_read_back_witness :
  ∃ h, read_history_through sample_config sample_stream (stream_subject sample_config sample_stream) 7 false
         reader_ended (log_deliveries sample_config sample_stream 0 sample_log ++ []) = Ok h
    ∧ len (nh_events h) = 4 ∧ nh_sequences h = [1; 2; 6; 7].
Proof.
  destruct (published_log_is_read_back sample_config sample_stream sample_log reader_ended []
    ltac:(done) sample_log_ok) as (h & Hr & _ & _ & He & Hs & _).
  exists h. split; [exact Hr|]. rewrite He, Hs. split; by vm_compute.
Defined.

Lemma read_history_sound_witness :
  ∃ h, read_history_through sample_config sample_stream (stream_subject sample_config sample_stream) 7 false
         reader_ended (log_deliveries sample_config sample_stream 0 sample_log) = Ok h
    ∧ validate_history sample_stream (nh_events h) = Ok tt.
Proof.
  destruct (read_history_through sample_config sample_stream (stream_subject sample_config sample_stream) 7 false
         reader_ended (log_deliveries sample_config sample_stream 0 sample_log)) as [h|e] eqn:E.
  - exists h. split; [done|]. apply (read_history_sound sample_config sample_stream _ _ _ _ _ h E).
  - exfalso. assert (is_ok (read_history_through sample_config sample_stream
      (stream_subject sample_config sample_stream) 7 false
         reader_ended (log_deliveries sample_config sample_stream 0 sample_log)) = true) as H by (by vm_compute).
    by rewrite E in H.
Defined.

Definition sample_first : list DecodedStoredEvent :=
  pub_decoded sample_stream 0 (pw_published (sample_wire 0 (Ident "first-operation-000000000000000000") 1 None 2)).
Definition sample_second : list DecodedStoredEvent :=
  pub_decoded sample_stream 2 (pw_published (sample_wire 2 (Ident "other-operation-000000000000000000") 6 (Some (1, 3)) 4)).

Lemma sample_first_ok : Forall (decoded_ok sample_stream) sample_first.
Proof.
  repeat constructor; cbn [sample_first]; try (by vm_compute); try (by split; vm_compute).
Qed.

Lemma resume_is_reread_witness :
  ∃ h1, (let? b := try_fold builder_push (from_history h1) sample_second in builder_finish b 7)
  = (let? b := try_fold builder_push HistoryBuilder_default (sample_first ++ sample_second) in
     builder_finish b 7).
Proof.
  destruct (let? b := try_fold builder_push HistoryBuilder_default sample_first in builder_finish b 2)
    as [h|e] eqn:E.
  - exists h. apply (resume_is_reread sample_stream sample_first sample_second 2 7 h sample_first_ok E).
  - exfalso. assert (is_ok (let? b := try_fold builder_push HistoryBuilder_default sample_first in
      builder_finish b 2) = true) as H by (by vm_compute). by rewrite E in H.
Defined.

(** ** A direct append *)

(** The error codes of the JetStream API *)
Definition sample_error_codes : ErrorCodes :=
  {| STREAM_WRONG_LAST_SEQUENCE := 10071; STREAM_WRONG_LAST_SEQUENCE_CONSTANT := 10164;
     STREAM_STORE_FAILED := 10077; ATOMIC_PUBLISH_DISABLED := 10174; REQUIRED_API_LEVEL := 10185;
     STREAM_MESSAGE_EXCEEDS_MAXIMUM := 10054 |}.
(** Acknowledgements: a sequence, a count and a batch id *)
Definition sample_ack_json : AckJson :=
  {| ack_from_slice := λ payload,
       match payload with
       | sequence :: count :: batch_id => Ok (inl (mkAtomicPublishAck (nc_stream_name sample_config)
           (Byte.to_N sequence) (Some (string_of_list_byte batch_id)) (Some (Byte.to_N count))))
       | _ => Err "unexpected end of input"
       end |}.
#[local] Existing Instances sample_error_codes sample_ack_json.

Definition sample_append_batch : EventBatch := sample_batch (Ident "first-operation-000000000000000000").
Definition sample_batch_id : string := new_atomic_batch_id "_INBOX.1" (eb_commit_id sample_append_batch).
Definition sample_append_prepared : PreparedAppend :=
  match prepare_append sample_config sample_stream NoStream sample_append_batch History_default None with
  | Ok (inr p) => p
  | _ => mkPreparedAppend [] "" [] 0
  end.
Definition sample_sent : list SentMessage :=
  append_messages sample_config sample_stream History_default sample_append_batch "_INBOX.1" sample_append_prepared.
(** The batch is stored from the sequence 4 on. *)
Definition sample_lookup (from : N) : result RawMessage EventStoreError :=
  match sample_sent !! N.to_nat (from - 4) with
  | Some m => Ok (mkRawMessage (4 + (from - 4)) (sm_subject m) (sm_headers m) (sm_payload m))
  | None => Err (unavailable "no message")
  end.
Definition sample_answers : AppendAnswers := {|
  aa_receipt := Ok None; aa_inbox := "_INBOX.1";
  aa_reply := λ i, if i =? 1 then Ok (x05 :: x02 :: as_bytes sample_batch_id) else Ok [];
  aa_lookup := sample_lookup;
  aa_race_history := Err (unavailable ""); aa_race_receipt := Ok None;
|}.

Lemma sample_history_ok : subject_history_ok sample_stream History_default.
Proof. split; try done; by repeat constructor. Qed.

Lemma sample_publishable : publishable sample_stream sample_append_batch.
Proof. destruct sample_log_ok as [[Hw _] _]. exact (wo_batch _ _ _ _ _ Hw). Qed.

Lemma sample_sent_length : length sample_sent = 2%nat.
Proof. by vm_compute. Qed.

Lemma acknowledged_append_succeeds_witness :
  append_with_history sample_config sample_stream NoStream sample_append_batch History_default sample_answers
  = (sample_sent, Ok (Appended (record_group sample_stream 0 sample_append_batch))).
Proof.
  apply (acknowledged_append_succeeds sample_config sample_stream NoStream sample_append_batch History_default
    sample_append_prepared sample_answers 4 sample_history_ok sample_publishable); [done| |done|done| |].
  - by vm_compute.
  - split.
    + intros i Hi. change (len _) with 2 in Hi. cbn. rewrite (proj2 (N.eqb_neq i 1)); [done|lia].
    + exists (x05 :: x02 :: as_bytes sample_batch_id). split_and!; by vm_compute.
  - intros i m Hi from <-. change (sample_sent !! i = Some m) in Hi. cbn [sample_answers aa_lookup].
    pose proof (lookup_lt_Some _ _ _ Hi) as Hl. rewrite sample_sent_length in Hl. unfold sample_lookup.
    assert (N.to_nat ((if decide (i = 0%nat) then nh_last_subject_stream_sequence History_default + 1
      else 4 + N.of_nat i) - 4) = i) as -> by (case_decide; [subst i; done|lia]).
    rewrite Hi. do 2 f_equal. case_decide; [subst i; done|lia].
Defined.

Lemma pair_snd {A B} (x : A * B) b : x.2 = b → x = (x.1, b).
Proof. by destruct x; cbn; intros ->. Qed.

Lemma sample_append_result :
  (append_with_history sample_config sample_stream NoStream sample_append_batch History_default
    sample_answers).2 = Ok (Appended (record_group sample_stream 0 sample_append_batch)).
Proof. vm_compute. reflexivity. Qed.

Lemma appended_commit_is_stored_witness :
  ∃ h c, subject_history_ok sample_stream h ∧ nh_commits h = [c] ∧ cm_batch c = sample_append_batch.
Proof.
  pose proof (appended_commit_is_stored sample_config sample_stream NoStream sample_append_batch History_default
    sample_answers _ _ sample_history_ok (pair_snd _ _ sample_append_result)) as H.
  destruct H as (p & _ & _ & _ & sequence & h & c & _ & _ & Hh & _ & Hc & Hb & _). by exists h, c.
Defined.

(** ** A split authority *)

Definition sample_split_config : NatsEventStoreConfig :=
  match with_fresh_split_outcome_epoch sample_config "epoch-1" with Ok c => c | Err _ => sample_config end.
Definition bind_stream (c : StreamConfig) (key value created : string) : StreamInfo :=
  mkStreamInfo (mkServerConfig (set_metadata c (<[key := value]> (sc_metadata c))) (λ _, false)) created.
Definition sample_journal_stream : GetStream :=
  StreamFound (bind_stream (stream_config sample_split_config) STATE_BINDING "state-1" "journal-1").
Definition sample_state_stream : GetStream :=
  StreamFound (bind_stream (outcome_state_config sample_split_config) JOURNAL_BINDING "journal-1" "state-1").
Definition sample_server : ServerInfo := mkServerInfo (λ _, true) (2 ^ 30).

Lemma sample_connection :
  match connect sample_server sample_split_config sample_journal_stream sample_state_stream with
  | Ok s => is_ok (verify_authority s sample_journal_stream sample_state_stream)
  | Err _ => false
  end = true.
Proof. vm_compute. reflexivity. Qed.

Lemma verified_authority_is_connected_witness :
  ∃ s info, connect sample_server sample_split_config sample_journal_stream sample_state_stream = Ok s
    ∧ sample_journal_stream = StreamFound info
    ∧ stream_accepted (stream_config sample_split_config) (si_config info).
Proof.
  pose proof sample_connection as H.
  destruct (connect sample_server sample_split_config sample_journal_stream sample_state_stream) as [s|] eqn:Ec;
    [|discriminate H].
  destruct (verify_authority s sample_journal_stream sample_state_stream) as [r|] eqn:Ev; [|discriminate H].
  destruct (verified_authority_is_connected _ _ _ _ _ _ _ _ Ec Ev) as (found & info & _ & Hi & _ & Ha & _).
  exists s, info. exact (conj eq_refl (conj Hi Ha)).
Defined.

Lemma authority_unique_witness :
  let parts := [nc_stream_name sample_split_config; nc_subject_prefix sample_split_config;
    default "legacy" (nc_completed_outcome_epoch sample_split_config); "journal-1"; "state-1"] in
  is_ok (nats_authority sample_split_config "journal-1" (Some "state-1")) = true ∧ parts = parts.
Proof.
  intros parts.
  assert (is_ok (nats_authority sample_split_config "journal-1" (Some "state-1")) = true) as H
    by (vm_compute; reflexivity).
  split; [exact H|].
  destruct (nats_authority sample_split_config "journal-1" (Some "state-1")) as [a|] eqn:E; [|discriminate H].
  exact (authority_unique sample_split_config "journal-1" (Some "state-1") sample_split_config "journal-1"
    (Some "state-1") a ltac:(apply (bool_decide_unpack _); vm_compute; exact I)
    ltac:(apply (bool_decide_unpack _); vm_compute; exact I) (λ e, eq_refl) E E).
Defined.

(** ** The state of a completed outcome *)

(** A string is kept as its own bytes, after a tag and a sequence. *)
Definition sample_state_json : Json StateEnvelope.
Proof.
  refine (fields_json
    (λ e, [field (env_version e); as_bytes (env_binding e)]
          ++ match env_state e with
             | ActiveState bytes => [field 0; as_bytes bytes]
             | ExpiredState previous revision => [field (previous + 1); as_bytes revision]
             end)
    (λ l, match l with
          | [v; binding; tag; text] =>
            v ← unfield v; tag ← unfield (A := N) tag;
            Some (mkStateEnvelope v (string_of_list_byte binding)
              (if decide (tag = 0) then ActiveState (string_of_list_byte text)
               else ExpiredState (tag - 1) (string_of_list_byte text)))
          | _ => None
          end) _).
  intros [v binding state].
  assert (∀ x, string_of_list_byte (as_bytes x) = x) as Hs by (intros; apply string_of_list_byte_of_string).
  destruct state; cbn -[field unfield string_of_list_byte as_bytes]; rewrite !unfield_field;
    cbn -[string_of_list_byte as_bytes decide]; rewrite !Hs;
    [by rewrite decide_True|rewrite decide_False by lia; do 3 f_equal; lia].
Defined.
#[local] Existing Instances sample_json sample_state_json.

Definition sample_expiry_config : NatsEventStoreConfig :=
  match with_explicit_detail_expiry sample_split_config true with Ok c => c | Err _ => sample_split_config end.
Definition sample_split_store : NatsEventStore :=
  mkNatsEventStore sample_expiry_config false sample_authority "journal-1" (Some "state-1") None.
Definition sample_stream_info : option StreamInfo :=
  match sample_journal_stream with StreamFound info => Some info | _ => None end.

(** The state message stored at a sequence *)
Definition stored_state (value : StateValue) (expected sequence : N) : RawLookup :=
  match state_message sample_split_store sample_marker value expected with
  | Ok m => MessageFound (mkRawMessage sequence (sm_subject m) (sm_headers m) (sm_payload m))
  | Err _ => NoMessageFound
  end.
Definition sample_active : StateValue := ActiveState (base64_encode sample_detail_bytes).
(** The acknowledgement is lost, the state is stored. *)
Definition state_answers (stored : RawLookup) : StateAnswers :=
  mkStateAnswers (Ok sample_stream_info) (Err "timed out") (Ok sample_stream_info) stored.
Definition sample_prepare_answers : StateAnswers := state_answers (stored_state sample_active 0 1).

Lemma sample_prepare_result :
  (prepare_details sample_split_store sample_marker sample_detail_bytes sample_prepare_answers).2 = Ok tt.
Proof. vm_compute. reflexivity. Qed.

Lemma prepared_details_are_durable_witness :
  ∃ o, read_state sample_split_store sample_marker (Ok sample_stream_info) (stored_state sample_active 0 1) = Ok o
    ∧ nats_resolve_marker sample_split_store sample_marker (Ok o)
      = Ok (mkCompleted sample_marker (Available (mkDetails (mk_reference sample_marker) (Some sample_rejection)))).
Proof.
  assert (proposed_ok sample_guarded) as Ht by (intros p b ->%list_elem_of_singleton Hb; discriminate Hb).
  destruct (prepared_details_are_durable sample_split_store sample_authority sample_guarded sample_guard_receipt
    sample_marker sample_detail_bytes sample_prepare_answers _ ltac:(intros ? Ha; discriminate Ha) Ht
    sample_prepared_ok ltac:(intros ? ? Hr; discriminate Hr) (pair_snd _ _ sample_prepare_result))
    as (_ & message & o & _ & _ & Hr & Hx).
  exists o. exact (conj Hr Hx).
Defined.

Definition sample_expired_state : StateValue := ExpiredState 1 (revision_to_hex (mk_revision sample_marker)).
Definition sample_expiry_answers : ExpiryAnswers := {|
  ea_authority := Ok sample_stream_info;
  ea_stored := Ok (Some (mkMaterialized sample_guard_receipt (Some sample_marker) "batch" 1 0));
  ea_read_authority := Ok sample_stream_info;
  ea_lookup := stored_state sample_active 0 1;
  ea_transition := state_answers (stored_state sample_expired_state 1 2);
  ea_previous := Some NoMessageFound;
|}.

Lemma sample_expiry_result :
  (nats_expire_details sample_split_store (mkOutcomeKey sample_authority sample_context sample_operation)
     (mk_revision sample_marker) sample_expiry_answers).2
  = Ok (mkOutcomeExpiry (mk_revision sample_marker) Reclaimed).
Proof. vm_compute. reflexivity. Qed.

Lemma expired_details_are_withdrawn_witness :
  ∃ stored m, ea_stored sample_expiry_answers = Ok (Some stored) ∧ mtr_marker stored = Some m
    ∧ mk_revision m = mk_revision sample_marker.
Proof.
  destruct (expired_details_are_withdrawn sample_split_store _ _ _ _ _ (pair_snd _ _ sample_expiry_result))
    as (_ & _ & _ & _ & stored & m & Hs & Hm & Hr & _).
  exists stored, m. exact (conj Hs (conj Hm Hr)).
Defined.

(** ** A transaction that writes one stream and reads another *)

Definition sample_guard_json : Json TransactionGuardWire.
Proof.
  refine (fields_json
    (λ g, [as_bytes (tgw_operation_id g); as_bytes (siw_aggregate_type (tgw_guarded_stream g));
           as_bytes (siw_aggregate_id (tgw_guarded_stream g))])
    (λ l, match l with
          | [o; t; i] => Some (mkGuardWire (string_of_list_byte o)
              (mkStreamIdentityWire (string_of_list_byte t) (string_of_list_byte i)))
          | _ => None
          end) _).
  intros [o [t i]]. cbn -[string_of_list_byte as_bytes]. unfold as_bytes.
  by rewrite !string_of_list_byte_of_string.
Defined.
#[local] Existing Instances sample_guard_json.

(** The commit of the written stream, at the messages 5 and 6 of the store *)
Definition sample_tx_commit : StoredCommit :=
  mkStoredCommit sample_append_batch (record_group sample_stream 0 sample_append_batch) [5; 6]
    (Some (mkProvenance "batch" 0 2 2)).
Definition sample_tx_history : History :=
  mkHistory (cm_events sample_tx_commit) [5; 6] [sample_tx_commit] 6.
Definition sample_read_stream : StreamId := mkStreamId (Ident "customer") (Ident "c-1").
Definition sample_histories (stream : StreamId) : result History EventStoreError :=
  if decide (stream = sample_stream) then Ok sample_tx_history else Ok History_default.

Lemma sample_tx_history_ok : subject_history_ok sample_stream sample_tx_history.
Proof.
  destruct sample_publishable as [_ Hb Hd _ _ _ _ _]. split; try done; try (by repeat constructor).
  - split; [|done]. split; try done. exists 5. split_and!; [|done|by intros t [= <-]].
    split; [done|]. by intros [|[|i]] s; cbn; intros [= <-].
  - apply NoDup_singleton.
  - apply NoDup_singleton.
  - apply (bool_decide_unpack _). by vm_compute.
Qed.
Lemma sample_histories_ok stream h : sample_histories stream = Ok h → subject_history_ok stream h.
Proof.
  unfold sample_histories. case_decide; intros [= <-]; [subst; exact sample_tx_history_ok|].
  split; try done; by repeat constructor.
Qed.

(** The guard of the read stream, after the events *)
Definition sample_guard_message : RawMessage :=
  let operation := ident_str (eb_operation_id sample_append_batch) in
  let h := headers_insert "Content-Type" "application/json" headers_new in
  let h := headers_insert "Nats-Batch-Id" "batch" h in
  let h := headers_insert "Nats-Batch-Sequence" "3" h in
  let h := headers_insert NATS_EXPECTED_LAST_SUBJECT_SEQUENCE_SUBJECT
             (aggregate_subject sample_config "customer" "c-1") h in
  let h := headers_insert "Nats-Expected-Last-Subject-Sequence" "0" h in
  mkRawMessage 7 (transaction_guard_subject sample_config operation 0) h
    (match to_vec (mkGuardWire operation (mkStreamIdentityWire "customer" "c-1")) with
     | Ok payload => payload
     | Err _ => []
     end).
Definition sample_messages (sequence : N) : RawLookup :=
  if sequence =? 7 then MessageFound sample_guard_message else NoMessageFound.
Definition sample_decoded_receipt : DecodedTransactionReceipt :=
  mkDecodedReceipt "batch" 4 8
    (mkReceiptContent None None None (nc_stream_name sample_config) "shop" "orders"
       (ident_str (eb_operation_id sample_append_batch)) (to_hex sample_fingerprint) None None None
       [mkParticipantWire (stream_identity sample_stream) 0
          (Some (ident_str (eb_commit_id sample_append_batch))) 2;
        mkParticipantWire (stream_identity sample_read_stream) 0 None 0]).
Definition sample_materialized : MaterializedTransactionReceipt :=
  mkMaterialized
    (tr_with_bounded_context (TransactionReceipt_new (eb_operation_id sample_append_batch) sample_fingerprint
       [mkStreamReceipt sample_stream version_zero (cm_events sample_tx_commit);
        mkStreamReceipt sample_read_stream version_zero []]) sample_context)
    None "batch" 5 2.

Lemma sample_materialized_ok :
  materialize_transaction_receipt sample_config sample_authority sample_messages sample_histories
    sample_decoded_receipt OperationLayout = Ok sample_materialized.
Proof. vm_compute. reflexivity. Qed.

Lemma materialized_receipt_is_evidenced_witness :
  evidenced sample_config sample_messages sample_histories OperationLayout
    (materialized_context sample_materialized) 0 0 (tr_streams (mtr_receipt sample_materialized)).
Proof.
  exact (proj1 (proj2 (materialized_receipt_is_evidenced sample_config sample_messages sample_histories
    OperationLayout sample_authority sample_decoded_receipt sample_materialized sample_histories_ok
    sample_materialized_ok))).
Defined.

Lemma sample_histories_stream : sample_histories sample_stream = Ok sample_tx_history.
Proof. unfold sample_histories. by rewrite decide_True. Qed.

Lemma receipt_covers_exactly_its_commits_witness :
  transaction_receipt_covers_commit sample_materialized sample_tx_commit = true.
Proof.
  apply (receipt_covers_exactly_its_commits sample_config sample_messages sample_histories OperationLayout
    sample_authority sample_decoded_receipt sample_materialized sample_stream sample_tx_history sample_tx_commit
    sample_histories_ok sample_materialized_ok sample_histories_stream (list_elem_of_here _ _)).
  exists (mkStreamReceipt sample_stream version_zero (cm_events sample_tx_commit)).
  exact (conj (list_elem_of_here _ _) (conj eq_refl eq_refl)).
Defined.

(** *** The same transaction, appended *)

Definition participant_fields (p : TransactionParticipantWire) : string * string * N * option string * N :=
  (siw_aggregate_type (tpw_stream p), siw_aggregate_id (tpw_stream p), tpw_base_stream_version p,
   tpw_commit_id p, tpw_event_count p).
Definition participant_unfields (x : string * string * N * option string * N) : TransactionParticipantWire :=
  let '(t, i, base, commit, count) := x in mkParticipantWire (mkStreamIdentityWire t i) base commit count.
Definition receipt_fields (c : TransactionReceiptContentWire) : list (list byte) :=
  [field (trc_manifest c); field (trc_security_scope c); field (trc_completion c);
   field (trc_event_store_stream c); field (trc_application c); field (trc_bounded_context c);
   field (trc_operation_id c); field (trc_operation_fingerprint c); field (trc_correlation_id c);
   field (trc_causation_id c); field (trc_actor c); field (participant_fields <$> trc_participants c)].
Definition receipt_unfields (l : list (list byte)) : option TransactionReceiptContentWire :=
  match l with
  | [a; b; c; d; e; f; g; h; i; j; k; m] =>
    a ← unfield a; b ← unfield b; c ← unfield c; d ← unfield d; e ← unfield e; f ← unfield f;
    g ← unfield g; h ← unfield h; i ← unfield i; j ← unfield j; k ← unfield k; m ← unfield m;
    Some (mkReceiptContent a b c d e f g h i j k (participant_unfields <$> m))
  | _ => None
  end.
Lemma receipt_unfields_fields c : receipt_unfields (receipt_fields c) = Some c.
Proof.
  destruct c as [? ? ? ? ? ? ? ? ? ? ? ps]. cbn -[field unfield]. rewrite !unfield_field. cbn.
  do 2 f_equal. rewrite <- list_fmap_compose. rewrite <- (list_fmap_id ps) at 2. apply list_fmap_ext.
  intros _ [[] ? ? ?] _. done.
Qed.

Definition sample_receipt_json : Json StoredTransactionReceiptWire.
Proof.
  refine (fields_json
    (λ w, field (srw_schema_version w) :: field (srw_checksum w) :: receipt_fields (srw_receipt w))
    (λ l, match l with
          | v :: c :: r => v ← unfield v; c ← unfield c; e ← receipt_unfields r; Some (mkReceiptWire v c e)
          | _ => None
          end) _).
  intros [v c e]. cbn -[field unfield receipt_unfields receipt_fields].
  rewrite !unfield_field. cbn -[receipt_unfields receipt_fields]. by rewrite receipt_unfields_fields.
Defined.
Definition sample_receipt_checksum_json : Json ReceiptChecksumInput.
Proof.
  refine (fields_json
    (λ w, field (rci_schema_version w) :: receipt_fields (rci_receipt w))
    (λ l, match l with
          | v :: r => v ← unfield v; e ← receipt_unfields r; Some (mkReceiptChecksumInput v e)
          | _ => None
          end) _).
  intros [v e]. cbn -[field unfield receipt_unfields receipt_fields].
  rewrite !unfield_field. cbn -[receipt_unfields receipt_fields]. by rewrite receipt_unfields_fields.
Defined.
#[local] Existing Instances sample_receipt_json sample_receipt_checksum_json.

Definition sample_inline_store : NatsEventStore :=
  mkNatsEventStore sample_config false sample_authority "journal-1" None None.
Definition sample_tx : EventTransaction :=
  tx_with_bounded_context
    (EventTransaction_new (eb_operation_id sample_append_batch) sample_fingerprint
       [mkParticipant sample_stream NoStream (Some sample_append_batch);
        mkParticipant sample_read_stream NoStream None]) sample_context.
Definition no_receipt : ReceiptAnswers := mkReceiptAnswers (Ok None) (Ok None).
(** The answers, given the batch and its identity: the batch is stored from the
    sequence 5 on and acknowledged with its last message. *)
Definition tx_answers (batch_id : string) (batch : list SentMessage) : TransactionAnswers :=
  let stored sequence :=
    match batch !! N.to_nat (sequence - 5) with
    | Some m => MessageFound (mkRawMessage sequence (sm_subject m) (sm_headers m) (sm_payload m))
    | None => NoMessageFound
    end in
  {| ta_first := no_receipt; ta_histories := λ _, Ok History_default; ta_conflict := no_receipt;
     ta_state := state_answers NoMessageFound; ta_inbox := "_INBOX.1";
     ta_reply := λ i, if i =? 3 then Ok (x08 :: x04 :: as_bytes batch_id) else Ok [];
     ta_race := mkRaceAnswers no_receipt (λ _, Ok History_default) no_receipt;
     ta_lookup := λ _ from, match stored (N.max from 5) with
                            | MessageFound m => Ok m
                            | _ => Err (unavailable "no message")
                            end;
     ta_published := stored 8; ta_messages := stored; ta_raw_histories := λ _, Ok History_default |}.
Definition sample_tx_batch_id : string :=
  new_transaction_batch_id "_INBOX.1" (tx_operation_id sample_tx).
Definition sample_tx_batch : list SentMessage :=
  txs_batch (append_transaction_with_histories sample_inline_store sample_tx ∅ (tx_answers sample_tx_batch_id [])).1.
Definition sample_tx_answers : TransactionAnswers := tx_answers sample_tx_batch_id sample_tx_batch.

Lemma sample_tx_result :
  (append_transaction_with_histories sample_inline_store sample_tx ∅ sample_tx_answers).2
  = Ok (TxAppended (mtr_receipt sample_materialized)).
Proof. vm_compute. reflexivity. Qed.

Lemma sample_default_ok stream h : (Ok History_default : result History EventStoreError) = Ok h → subject_history_ok stream h.
Proof. intros [= <-]. split; try done; by repeat constructor. Qed.

Lemma appended_transaction_is_stored_witness :
  ∃ sent, transaction_stored sample_inline_store sample_tx sample_tx_answers sent (mtr_receipt sample_materialized).
Proof.
  eexists. exact (appended_transaction_is_stored sample_inline_store sample_tx ∅ sample_tx_answers _ _
    (conj (λ stream h, sample_default_ok stream h) (λ stream h, sample_default_ok stream h))
    (map_Forall_empty _) (pair_snd _ _ sample_tx_result)).
Defined.
