(* ===== verification/Aggregate.v ===== *)
(** * Aggregate: event-sourced aggregates, their live instances and the JSON
    event codec (crates/rostfrei-core/src/aggregate.rs), and the registry of
    aggregate codecs (codecs.rs). *)

From S2P Require Export Store.

(** The [Event] trait of an event type *)
Class Event (E : Type) := {
  event_type : E → string;
  event_schema_version : E → N;
  encode_json : E → result (list byte) EventCodecError;
  decode_json : RecordedEvent → result E EventCodecError;
}.

(** The aggregate types of a program: [M] names them, as their [TypeId]s do.
    The other fields are the [Aggregate] trait; [aggregate_type_of] is the
    method, which a model may override. *)
Class Aggregates (M : Type) := {
  model_eq_dec :: EqDecision M;
  aggregate_state : M → Type;
  aggregate_event : M → Type;
  BOUNDED_CONTEXT : M → string;
  aggregate_type_of : M → string;
  initial : ∀ m, StreamId → aggregate_state m;
  apply : ∀ m, aggregate_state m → aggregate_event m → aggregate_state m;
}.

(** The [EventCodec] trait at one aggregate *)
Record EventCodec `{Aggregates M} (m : M) := mkEventCodec {
  codec_encode : aggregate_event m → EventId → result NewEvent EventCodecError;
  codec_decode : RecordedEvent → result (aggregate_event m) EventCodecError;
}.
Arguments mkEventCodec {M _ m}.
Arguments codec_encode {M _ m}.
Arguments codec_decode {M _ m}.

(** [JsonEventCodec] *)
Definition json_event_encode `{Event E} (event : E) (event_id : EventId)
  : result NewEvent EventCodecError :=
  let? payload := encode_json event in
  map_err (λ error, mkCodecError InvalidEnvelope (EnvelopeError_display error))
    (NewEvent_new event_id (event_type event) (event_schema_version event) payload).
Definition JsonEventCodec `{AG : Aggregates M} (m : M) `{EV : Event (aggregate_event m)} : EventCodec m :=
  mkEventCodec json_event_encode decode_json.

(** ** Live instances *)

Section Instance.
Context `{AG : Aggregates M} {W : Type}.

(** An instance; its observers are closures that change what they share with
    others, here a world [W]. The token stands for the identity of an [Arc<()>]. *)
Record AggregateInstance (m : M) := mkInstance {
  ai_stream_id : StreamId;
  ai_state : aggregate_state m;
  ai_uncommitted : list (aggregate_event m);
  ai_start_observer : option (N → W → W);
  ai_observer : option (N → aggregate_event m → W → W);
  ai_token : option nat;
}.
#[global] Arguments mkInstance {m}.
#[global] Arguments ai_stream_id {m}.
#[global] Arguments ai_state {m}.
#[global] Arguments ai_uncommitted {m}.
#[global] Arguments ai_start_observer {m}.
#[global] Arguments ai_observer {m}.
#[global] Arguments ai_token {m}.

Definition instance_new (m : M) (stream_id : StreamId) : AggregateInstance m :=
  {| ai_stream_id := stream_id; ai_state := initial m stream_id; ai_uncommitted := [];
     ai_start_observer := None; ai_observer := None; ai_token := None |}.

Definition with_state {m} (a : AggregateInstance m) (state : aggregate_state m)
  : AggregateInstance m :=
  mkInstance (ai_stream_id a) state (ai_uncommitted a) (ai_start_observer a) (ai_observer a)
    (ai_token a).

Definition instance_rehydrate (m : M) (stream_id : StreamId) (events : list (aggregate_event m))
  : AggregateInstance m :=
  foldl (λ a event, with_state a (apply m (ai_state a) event)) (instance_new m stream_id) events.

(** [observe_raised_events] *)
Definition observe_raised_events {m} (a : AggregateInstance m) (token : nat)
    (start_observer : N → W → W) (observer : N → aggregate_event m → W → W) : AggregateInstance m :=
  mkInstance (ai_stream_id a) (ai_state a) (ai_uncommitted a) (Some start_observer) (Some observer)
    (Some token).

Definition is_observed_by {m} (a : AggregateInstance m) (token : nat) : bool :=
  is_some_and (Nat.eqb token) (ai_token a).

(** [raise] in its three parts: the start observer, the application, the
    observer. [E::into] happened before. *)
Definition raise_started {m} (a : AggregateInstance m) (w : W) : W :=
  match ai_start_observer a with
  | Some observer => observer (len (ai_uncommitted a)) w
  | None => w
  end.
Definition raise_applied {m} (a : AggregateInstance m) (event : aggregate_event m)
  : AggregateInstance m :=
  mkInstance (ai_stream_id a) (apply m (ai_state a) event) (ai_uncommitted a ++ [event])
    (ai_start_observer a) (ai_observer a) (ai_token a).
Definition raise {m} (a : AggregateInstance m) (event : aggregate_event m) (w : W)
  : AggregateInstance m * W :=
  let ordinal := len (ai_uncommitted a) in
  let w := raise_started a w in
  let a := raise_applied a event in
  (a, match ai_observer a, last (ai_uncommitted a) with
      | Some observer, Some event => observer ordinal event w
      | _, _ => w
      end).

(** Raising a sequence of events *)
Definition raise_all {m} (a : AggregateInstance m) (events : list (aggregate_event m)) (w : W)
  : AggregateInstance m * W :=
  foldl (λ p event, raise p.1 event p.2) (a, w) events.

(** ** Live and replayed state *)

Lemma rehydrate_state m stream_id events :
  ai_state (instance_rehydrate m stream_id events) = foldl (apply m) (initial m stream_id) events.
Proof.
  unfold instance_rehydrate. change (initial m stream_id) with (ai_state (instance_new m stream_id)).
  generalize (instance_new m stream_id) as a.
  induction events as [|e events IH]; intros a; cbn; [done|]. by rewrite IH.
Qed.

Lemma rehydrate_uncommitted m stream_id events :
  ai_uncommitted (instance_rehydrate m stream_id events) = [].
Proof.
  unfold instance_rehydrate. assert (ai_uncommitted (instance_new m stream_id) = []) as H by done.
  revert H. generalize (instance_new m stream_id) as a.
  induction events as [|e events IH]; intros a H; cbn; [done|]. by apply IH.
Qed.

Lemma raise_all_spec {m} (a : AggregateInstance m) events w :
  let a' := (raise_all a events w).1 in
  ai_state a' = foldl (apply m) (ai_state a) events
  ∧ ai_uncommitted a' = ai_uncommitted a ++ events
  ∧ ai_start_observer a' = ai_start_observer a ∧ ai_observer a' = ai_observer a
  ∧ ai_token a' = ai_token a.
Proof.
  revert a w; induction events as [|e events IH]; intros a w; cbn.
  - by rewrite app_nil_r.
  - destruct (IH (raise a e w).1 (raise a e w).2) as (H1 & H2 & H3 & H4 & H5).
    unfold raise_all in *. rewrite <- surjective_pairing in *. cbn in *.
    split_and!; try done. by rewrite H2, <- app_assoc.
Qed.

(** Event sourcing: the state of an instance after raising
    events is the state a later rehydration computes from the history it was
    loaded from followed by those events, and the raised events are exactly its
    uncommitted ones. *)
Theorem live_state_is_replayed m stream_id history raised w :
  let live := (raise_all (instance_rehydrate m stream_id history) raised w).1 in
  ai_state live = ai_state (instance_rehydrate m stream_id (history ++ raised))
  ∧ ai_uncommitted live = raised.
Proof.
  intros live. destruct (raise_all_spec (instance_rehydrate m stream_id history) raised w)
    as (H1 & H2 & _). unfold live. rewrite H1, H2, !rehydrate_state, rehydrate_uncommitted.
  by rewrite foldl_app.
Qed.

End Instance.

(** ** A sample aggregate: a counter of one context *)

Definition sample_counter : Aggregates unit :=
  {| model_eq_dec := _; aggregate_state := λ _, N; aggregate_event := λ _, N;
     BOUNDED_CONTEXT := λ _, "orders"; aggregate_type_of := λ _, "order";
     initial := λ _ _, 0; apply := λ _ state event, state + event |}.
Definition sample_counted : Event N :=
  {| event_type := λ _, "counted"; event_schema_version := λ _, 1;
     encode_json := λ event, Ok (positive_bytes (encode event));
     decode_json := λ e, ok_or (decode (bytes_positive (re_payload e)))
       (mkCodecError MalformedPayload "not a count") |}.

(** * The registry of aggregate codecs shared by the executor, the dispatcher and fixture
    validation (crates/rostfrei-core/src/codecs.rs). *)

Inductive CodecRegistrationError :=
| SharedConfiguration
| RegistrationInvalidType (e : IdentityError)
| CodecDuplicate (aggregate_type : AggregateType)
| ModelConflict (aggregate_type : AggregateType).

Inductive CodecValidationError :=
| Unregistered (aggregate_type : AggregateType)
| InvalidEvent (stream_id : StreamId) (event_type : string) (schema_version : N)
    (source : EventCodecError).

Section Codecs.
Context `{AG : Aggregates M}.

(** [TypedValidator::validate] *)
Definition validate_event {m} (codec : EventCodec m) (stream : StreamId)
    (state : aggregate_state m) (event : RecordedEvent)
  : result (aggregate_state m) CodecValidationError :=
  let? decoded :=
    map_err (InvalidEvent stream (re_event_type event) (re_schema_version event))
      (if bool_decide (re_stream_id event = stream) then codec_decode codec event
       else Err (mkCodecError InvalidEnvelope "event belongs to another stream")) in
  Ok (apply m state decoded).
Definition typed_validate {m} (codec : EventCodec m) (stream : StreamId)
    (events : list RecordedEvent) : result unit CodecValidationError :=
  let? _ := try_fold (validate_event codec stream) (initial m stream) events in
  Ok tt.

(** One entry: the model and its codec, of which the erased validator is a
    function *)
Record Entry := mkEntry { entry_model : M; entry_codec : EventCodec entry_model }.
Definition entry_validate (e : Entry) := typed_validate (entry_codec e).

Record AggregateCodecs := mkCodecs { entries : gmap AggregateType Entry }.
Definition AggregateCodecs_default : AggregateCodecs := mkCodecs ∅.

Definition insert_codec (c : AggregateCodecs) (m : M) (codec : EventCodec m) (replace : bool)
  : result AggregateCodecs CodecRegistrationError :=
  let? type := map_err RegistrationInvalidType (ident_new KAggregateType (aggregate_type_of m)) in
  let? _ :=
    match entries c !! type with
    | Some entry =>
      fail! negb (bool_decide (entry_model entry = m)) with ModelConflict type;
      fail! negb replace with CodecDuplicate type;
      Ok tt
    | None => Ok tt
    end in
  Ok (mkCodecs (<[type := mkEntry m codec]> (entries c))).
Definition register_codec (c : AggregateCodecs) (m : M) (codec : EventCodec m) :=
  insert_codec c m codec false.
Definition register_json (c : AggregateCodecs) (m : M) `{Event (aggregate_event m)} :=
  register_codec c m (JsonEventCodec m).
Definition replace_codec (c : AggregateCodecs) (m : M) (codec : EventCodec m) :=
  insert_codec c m codec true.

(** [downcast_ref] of an entry's codec at the model [m] *)
Definition downcast_codec (m : M) (e : Entry) : option (EventCodec m) :=
  match decide (entry_model e = m) with
  | left E => Some (eq_rect _ EventCodec (entry_codec e) _ E)
  | right _ => None
  end.

(** [resolve]: the registered codec, the JSON codec for an unregistered type *)
Definition resolve (c : AggregateCodecs) (m : M) `{Event (aggregate_event m)}
  : result (EventCodec m) EventCodecError :=
  let? type := map_err (λ e, mkCodecError InvalidEnvelope (IdentityError_display e))
    (ident_new KAggregateType (aggregate_type_of m)) in
  match entries c !! type with
  | None => Ok (JsonEventCodec m)
  | Some entry =>
    ok_or (downcast_codec m entry)
      (mkCodecError InvalidEnvelope "aggregate wire identity belongs to a different Rust model")
  end.

Definition contains_codec (c : AggregateCodecs) (type : AggregateType) : bool :=
  is_some (entries c !! type).

(** [AggregateCodecs::validate_history] *)
Definition codecs_validate_history (c : AggregateCodecs) (stream : StreamId)
    (events : list RecordedEvent) : result unit CodecValidationError :=
  let? entry := ok_or (entries c !! aggregate_type stream) (Unregistered (aggregate_type stream)) in
  entry_validate entry stream events.

(** ** What the registry promises *)

(** Every entry sits at the wire identity of its own model. *)
Definition codecs_ok (c : AggregateCodecs) : Prop :=
  ∀ type e, entries c !! type = Some e → ident_new KAggregateType (aggregate_type_of (entry_model e)) = Ok type.

Lemma ident_new_str k value i : ident_new k value = Ok i → i = Ident value.
Proof. unfold ident_new. intros H. by guards. Qed.

Lemma insert_codec_Ok c m codec replace c' :
  insert_codec c m codec replace = Ok c' ↔
  ∃ type, ident_new KAggregateType (aggregate_type_of m) = Ok type
    ∧ c' = mkCodecs (<[type := mkEntry m codec]> (entries c))
    ∧ (entries c !! type = None ∨ replace = true ∧ ∃ e, entries c !! type = Some e ∧ entry_model e = m).
Proof.
  unfold insert_codec. split.
  - intros H. guards. eexists. split_and!; [done..|].
    destruct (entries c !! _) as [e|]; [|by left]. guards. right. eauto.
  - intros (type & -> & -> & He). cbn [map_err rbind].
    destruct He as [->|(-> & e & -> & ->)]; [done|]. by rewrite bool_decide_eq_true_2.
Qed.

Lemma downcast_codec_same m codec : downcast_codec m (mkEntry m codec) = Some codec.
Proof.
  unfold downcast_codec; cbn. destruct (decide (m = m)) as [E|]; [|done].
  by rewrite (Eqdep_dec.UIP_dec (decide_rel (=)) E eq_refl).
Qed.

(** A codec that was registered or replaced is the one every
    later resolution of its model returns, and no other model's resolution
    changes; registration never overwrites, and no wire identity ever changes
    its model. *)
Theorem codec_registration_spec c m codec replace c' :
  insert_codec c m codec replace = Ok c' → codecs_ok c →
  codecs_ok c'
  ∧ (∀ EV : Event (aggregate_event m), resolve c' m = Ok codec)
  ∧ (∀ m' (EV : Event (aggregate_event m')), aggregate_type_of m' ≠ aggregate_type_of m →
       resolve c' m' = resolve c m')
  ∧ (∀ type e, entries c !! type = Some e →
       ∃ e', entries c' !! type = Some e' ∧ entry_model e' = entry_model e ∧ (replace = false → e' = e)).
Proof.
  intros (type & Ht & -> & Hold)%insert_codec_Ok Hok. cbn [entries]. split_and!.
  - intros type' e He. cbn [entries] in He.
    apply lookup_insert_Some in He as [[<- <-]|[_ He]]; [done|by apply Hok].
  - intros Hev. unfold resolve. rewrite Ht. cbn [map_err rbind entries].
    rewrite lookup_insert_eq, downcast_codec_same. done.
  - intros m' Hev Hne. unfold resolve.
    destruct (ident_new KAggregateType (aggregate_type_of m')) as [type'|] eqn:Ht'; cbn [map_err rbind entries]; [|done].
    rewrite lookup_insert_ne; [done|]. apply ident_new_str in Ht as ->, Ht' as ->. congruence.
  - intros type' e He. destruct (decide (type' = type)) as [->|Hne].
    + rewrite lookup_insert_eq. eexists. split; [done|]. cbn [entry_model].
      destruct Hold as [Hn|(-> & e0 & He0 & <-)]; [congruence|].
      assert (e0 = e) as -> by congruence. done.
    + rewrite lookup_insert_ne by done. eauto.
Qed.

(** History validation by the registry is decoding by the very
    codec resolution returns: it accepts a stream exactly when the type is
    registered and every event belongs to the stream and decodes, and it names
    the first event that does not. *)
Lemma codecs_validate_history_spec c stream events :
  codecs_validate_history c stream events
  = match entries c !! aggregate_type stream with
    | None => Err (Unregistered (aggregate_type stream))
    | Some entry =>
      rmap (λ _, tt) (try_map (λ event,
        map_err (InvalidEvent stream (re_event_type event) (re_schema_version event))
          (if bool_decide (re_stream_id event = stream) then codec_decode (entry_codec entry) event
           else Err (mkCodecError InvalidEnvelope "event belongs to another stream"))) events)
    end.
Proof.
  unfold codecs_validate_history. destruct (entries c !! _) as [entry|]; [|done]. cbn [ok_or rbind].
  unfold entry_validate, typed_validate. generalize (initial (entry_model entry) stream) as state.
  induction events as [|e events IH]; intros state; cbn [try_fold try_map]; [done|].
  unfold validate_event at 1. destruct (map_err _ _) as [decoded|]; cbn [rbind]; [|done].
  rewrite IH. by destruct (try_map _ events).
Qed.

End Codecs.
Arguments AggregateCodecs M {AG}.

(** ** Witness *)

Section Witnesses.
#[local] Existing Instances sample_counter sample_counted.
Definition sample_codec : EventCodec tt := JsonEventCodec tt (EV := sample_counted).

Lemma codec_registration_spec_witness :
  ∃ c', register_codec AggregateCodecs_default tt sample_codec = Ok c' ∧ codecs_ok c'.
Proof.
  destruct (register_codec AggregateCodecs_default tt sample_codec) as [c'|] eqn:E;
    [|exfalso; revert E; by vm_compute].
  exists c'. split; [done|].
  exact (proj1 (codec_registration_spec AggregateCodecs_default tt sample_codec false c' E ltac:(done))).
Defined.
End Witnesses.
