(* ===== verification/DomainEvent.v ===== *)
(** * DomainEvent: the dispatcher of committed domain events to their typed
    handlers (crates/rostfrei-core/src/domain_event.rs). *)

From S2P Require Export Aggregate.

(** A recorded event with its decoded variant *)
Record CommittedDomainEvent (E : Type) := mkCommitted {
  committed_recorded : RecordedEvent;
  committed_event : E;
}.
Arguments mkCommitted {E}.
Arguments committed_recorded {E}.
Arguments committed_event {E}.

Inductive DomainEventHandlerErrorKind :=
| Retryable | PermanentlyUnsupported | InvalidCommittedEvent | OperatorBlocking.
Record DomainEventHandlerError := mkHandlerError {
  handler_error_kind : DomainEventHandlerErrorKind;
  handler_error_message : string;
}.
Inductive DomainEventDispatchOutcome := Handled | Ignored.

Inductive DomainEventRegistrationError :=
| SharedCodecOverride
| InvalidAggregateType
| InvalidHandlerEventType
| RegistrationConflict (aggregate_type event_type : string)
| AggregateConflict (aggregate_type : string).

Record RegistrationKey := mkRegistrationKey { rk_aggregate_type : string; rk_event_type : string }.
#[global] Instance RegistrationKey_eq_dec : EqDecision RegistrationKey.
Proof. solve_decision. Defined.
#[global] Instance RegistrationKey_countable : Countable RegistrationKey.
Proof.
  refine (inj_countable' (λ k, (rk_aggregate_type k, rk_event_type k))
            (λ p, mkRegistrationKey p.1 p.2) _). by intros [].
Defined.

Section DomainEvent.
Context `{AG : Aggregates M} {W : Type} {CT : Type} `{CTD : EqDecision CT}.

(** The [TypeId]s of codec types: the JSON codec, the trait object a registry
    resolves to, which is one type per aggregate, and the program's own codecs *)
Inductive CodecType :=
| JsonEventCodecType
| DynEventCodec (m : M)
| OwnCodec (c : CT).
#[local] Instance CodecType_eq_dec : EqDecision CodecType.
Proof. solve_decision. Defined.

(** The [DomainEventHandler] trait; its effects are changes of a world [W]. *)
Definition DomainEventHandler (E : Type) : Type :=
  CommittedDomainEvent E → W → result unit DomainEventHandlerError * W.

(** The handler with its event type erased *)
Definition ErasedDomainEventHandler : Type :=
  RecordedEvent → W → result DomainEventDispatchOutcome DomainEventHandlerError * W.

(** The classification of a codec failure *)
Definition decode_failure (error : EventCodecError) : DomainEventHandlerError :=
  mkHandlerError
    match codec_kind error with
    | UnknownEventType | UnsupportedSchemaVersion | MalformedPayload | ConversionFailed
    | InvalidEnvelope => InvalidCommittedEvent
    | EncodingFailed => OperatorBlocking
    end (EventCodecError_display error).

(** [TypedDomainEventHandler::handle]; [into_event] is that of [EventVariant]. *)
Definition typed_handle {m : M} {E : Type} (codec : EventCodec m)
    (into_event : aggregate_event m → option E) (handler : DomainEventHandler E)
  : ErasedDomainEventHandler := λ event w,
  match (let? decoded := map_err decode_failure (codec_decode codec event) in
         ok_or (into_event decoded) (mkHandlerError InvalidCommittedEvent
           "event codec decoded a different event variant than the registered handler")) with
  | Err e => (Err e, w)
  | Ok concrete =>
    let (handled, w) := handler (mkCommitted event concrete) w in
    (rmap (λ _, Handled) handled, w)
  end.

Record DomainEventDispatcher := mkDispatcher {
  dd_codecs : AggregateCodecs M;
  dd_shared_codecs : bool;
  dd_handlers : gmap RegistrationKey ErasedDomainEventHandler;
  dd_aggregate_registrations : gmap string (M * CodecType);
}.
Definition DomainEventDispatcher_new : DomainEventDispatcher :=
  mkDispatcher AggregateCodecs_default false ∅ ∅.
Definition dispatcher_with_codecs (codecs : AggregateCodecs M) : DomainEventDispatcher :=
  mkDispatcher codecs true ∅ ∅.

(** The event types [register_resolved] refuses *)
Definition invalid_handler_event_type (event_type : string) : bool :=
  String.eqb event_type "" || (MAX_EVENT_TYPE_LEN <? str_len event_type)
  || negb (String.eqb (trim event_type) event_type) || any_control event_type.

(** [register_resolved]; [codec_type] is the static type of the codec. *)
Definition register_resolved {E} (d : DomainEventDispatcher) (m : M) (codec_type : CodecType)
    (codec : EventCodec m) (into_event : aggregate_event m → option E) (event_type : string)
    (handler : DomainEventHandler E)
  : result DomainEventDispatcher DomainEventRegistrationError :=
  let aggregate_type := aggregate_type_of m in
  let? _ := map_err (λ _, InvalidAggregateType) (ident_new KAggregateType aggregate_type) in
  fail! invalid_handler_event_type event_type with InvalidHandlerEventType;
  let key := mkRegistrationKey aggregate_type event_type in
  fail! is_some (dd_handlers d !! key) with RegistrationConflict aggregate_type event_type;
  fail! is_some_and (λ registered, negb (bool_decide (registered = (m, codec_type))))
          (dd_aggregate_registrations d !! aggregate_type)
    with AggregateConflict aggregate_type;
  Ok {| dd_codecs := dd_codecs d; dd_shared_codecs := dd_shared_codecs d;
        dd_handlers := <[key := typed_handle codec into_event handler]> (dd_handlers d);
        dd_aggregate_registrations :=
          <[aggregate_type := (m, codec_type)]> (dd_aggregate_registrations d) |}.

(** [register]: the JSON codec, or the one the shared registry resolves *)
Definition register {E} (d : DomainEventDispatcher) (m : M) `{EV : Event (aggregate_event m)}
    (into_event : aggregate_event m → option E) (event_type : string)
    (handler : DomainEventHandler E)
  : result DomainEventDispatcher DomainEventRegistrationError :=
  if negb (dd_shared_codecs d)
  then register_resolved d m JsonEventCodecType (JsonEventCodec m) into_event event_type handler
  else
    let? codec := map_err (λ _, AggregateConflict (aggregate_type_of m)) (resolve (dd_codecs d) m) in
    register_resolved d m (DynEventCodec m) codec into_event event_type handler.

(** [register_with_codec] *)
Definition register_with_codec {E} (d : DomainEventDispatcher) (m : M) (codec_type : CodecType)
    (codec : EventCodec m) (into_event : aggregate_event m → option E) (event_type : string)
    (handler : DomainEventHandler E)
  : result DomainEventDispatcher DomainEventRegistrationError :=
  fail! dd_shared_codecs d with SharedCodecOverride;
  register_resolved d m codec_type codec into_event event_type handler.

(** [dispatch] *)
Definition dispatch (d : DomainEventDispatcher) (event : RecordedEvent) (w : W)
  : result DomainEventDispatchOutcome DomainEventHandlerError * W :=
  let key := mkRegistrationKey (ident_str (aggregate_type (re_stream_id event)))
               (re_event_type event) in
  match dd_handlers d !! key with
  | None => (Ok Ignored, w)
  | Some handler => handler event w
  end.

(** One registration, by any of the two public operations *)
Inductive registration : DomainEventDispatcher → DomainEventDispatcher → Prop :=
| reg_register E d m (EV : Event (aggregate_event m)) into event_type (handler : DomainEventHandler E) d' :
    register d m into event_type handler = Ok d' → registration d d'
| reg_with_codec E d m ct codec into event_type (handler : DomainEventHandler E) d' :
    register_with_codec d m ct codec into event_type handler = Ok d' → registration d d'.

(** ** Facts *)

Definition event_key (e : RecordedEvent) : RegistrationKey :=
  mkRegistrationKey (ident_str (aggregate_type (re_stream_id e))) (re_event_type e).

Lemma register_resolved_Ok {E} d m ct codec into et (handler : DomainEventHandler E) d' :
  register_resolved d m ct codec into et handler = Ok d' →
  let key := mkRegistrationKey (aggregate_type_of m) et in
  dd_handlers d !! key = None
  ∧ (∀ r, dd_aggregate_registrations d !! aggregate_type_of m = Some r → r = (m, ct))
  ∧ dd_handlers d' = <[key := typed_handle codec into handler]> (dd_handlers d)
  ∧ dd_aggregate_registrations d' = <[aggregate_type_of m := (m, ct)]> (dd_aggregate_registrations d)
  ∧ dd_codecs d' = dd_codecs d ∧ dd_shared_codecs d' = dd_shared_codecs d.
Proof.
  unfold register_resolved. intros H. guards. split_and!; try done.
  - by destruct (dd_handlers d !! _).
  - intros r Hr. rewrite Hr in *. cbn [is_some_and] in *.
    match goal with H : negb (bool_decide _) = false |- _ => by apply negb_false_iff, bool_decide_eq_true in H end.
Qed.

(** A registration is a resolved one. *)
Lemma registration_resolved d d' :
  registration d d' → ∃ E m ct codec into et (handler : DomainEventHandler E),
    register_resolved d m ct codec into et handler = Ok d'.
Proof.
  destruct 1 as [E d m EV into et handler d' H|E d m ct codec into et handler d' H].
  - unfold register in H. destruct (negb _); [by repeat eexists|]. guards. by repeat eexists.
  - unfold register_with_codec in H. guards. by repeat eexists.
Qed.

Lemma registrations_keep d d' :
  rtc registration d d' →
  dd_handlers d ⊆ dd_handlers d' ∧ dd_aggregate_registrations d ⊆ dd_aggregate_registrations d'.
Proof.
  induction 1 as [|d d1 d2 (E&m&ct&codec&into&et&handler&H)%registration_resolved _ [IH1 IH2]]; [done|].
  apply register_resolved_Ok in H as (Hn & Hr & Hh & Ha & _).
  split; (etrans; [|done]).
  - rewrite Hh. by apply insert_subseteq.
  - rewrite Ha. destruct (dd_aggregate_registrations d !! aggregate_type_of m) as [r|] eqn:Er.
    + rewrite insert_id; [done|]. by rewrite Er, (Hr r).
    + by apply insert_subseteq.
Qed.

Lemma dispatch_registered d event w handler :
  dd_handlers d !! event_key event = Some handler → dispatch d event w = handler event w.
Proof. unfold dispatch, event_key. by intros ->. Qed.

(** From its registration on, a handler receives exactly the
    committed events of its aggregate and event type: such an event is decoded
    by the codec of the registration and given to this handler alone, once; one
    that does not decode to the variant of the handler reaches no handler and
    is classified; no other event is routed differently than before; and
    afterwards nothing else can be registered for the event type, nor another
    model or codec type for the aggregate type. *)
Theorem registered_handler_receives {E} d m ct codec into et (handler : DomainEventHandler E) d1 d2 event w :
  register_resolved d m ct codec into et handler = Ok d1 → rtc registration d1 d2 →
  (event_key event = mkRegistrationKey (aggregate_type_of m) et →
     dispatch d2 event w
     = match codec_decode codec event with
       | Err e => (Err (decode_failure e), w)
       | Ok decoded =>
         match into decoded with
         | None => (Err (mkHandlerError InvalidCommittedEvent
             "event codec decoded a different event variant than the registered handler"), w)
         | Some concrete =>
           let (handled, w') := handler (mkCommitted event concrete) w in
           (rmap (λ _, Handled) handled, w')
         end
       end)
  ∧ (event_key event ≠ mkRegistrationKey (aggregate_type_of m) et →
     dispatch d1 event w = dispatch d event w)
  ∧ (∀ E' m' ct' codec' into' et' (handler' : DomainEventHandler E') d3,
       register_resolved d2 m' ct' codec' into' et' handler' = Ok d3 →
       aggregate_type_of m' = aggregate_type_of m → (m', ct') = (m, ct) ∧ et' ≠ et).
Proof.
  intros (_ & _ & Hh & Ha & _)%register_resolved_Ok [Hk Hak]%registrations_keep. split_and!.
  - intros Hkey. erewrite dispatch_registered.
    2:{ eapply lookup_weaken; [|exact Hk]. rewrite Hkey, Hh. by apply lookup_insert_eq. }
    unfold typed_handle. destruct (codec_decode codec event) as [x|]; cbn; [|done].
    by destruct (into x).
  - intros Hkey. unfold dispatch, event_key in *. by rewrite Hh, lookup_insert_ne.
  - intros E' m' ct' codec' into' et' h' d3 (Hn & Hr & _)%register_resolved_Ok Et. split.
    + symmetry. apply Hr. rewrite Et. eapply lookup_weaken; [|exact Hak].
      rewrite Ha. by apply lookup_insert_eq.
    + intros ->. rewrite Et in Hn. eapply lookup_weaken_None in Hn; [|exact Hk].
      by rewrite Hh, lookup_insert_eq in Hn.
Qed.

End DomainEvent.
Arguments DomainEventDispatcher M {AG} W CT.

(** ** Witness *)

Section Witnesses.
#[local] Existing Instances sample_counter sample_counted.

(** A handler that sums what it is given *)
Definition sample_summing : DomainEventHandler (W := N) N :=
  λ event total, (Ok tt, total + committed_event event).

Lemma registered_handler_receives_witness :
  ∃ d : DomainEventDispatcher unit N unit,
    register_resolved DomainEventDispatcher_new tt JsonEventCodecType sample_codec Some "counted"
      sample_summing = Ok d
    ∧ ∀ event, event_key event = mkRegistrationKey "order" "counted" →
        codec_decode sample_codec event = Ok 5 → dispatch d event 2 = (Ok Handled, 7).
Proof.
  destruct (register_resolved (CT := unit) DomainEventDispatcher_new tt JsonEventCodecType sample_codec
              Some "counted" sample_summing) as [d|] eqn:E; [|exfalso; revert E; by vm_compute].
  exists d. split; [done|]. intros event Hk Hd.
  pose proof (proj1 (registered_handler_receives DomainEventDispatcher_new tt JsonEventCodecType
    sample_codec Some "counted" sample_summing d d event 2 E (rtc_refl _ _)) Hk) as H.
  rewrite Hd in H. exact H.
Defined.
End Witnesses.
