(* ===== verification/Execution.v ===== *)
(** * Execution: one command-handling attempt - loading aggregates, the journal
    of each loaded instance and its finalization (CommandExecution,
    LoadedAggregate and ParticipantTracker of
    crates/rostfrei-core/src/executor.rs) - and what the journal guarantees:
    collected events are exactly the raised ones, and no interrupted, replaced or
    escaped instance is ever persisted. *)

From S2P Require Export Aggregate History.

(** ** Errors *)

Inductive CommandExecutionError :=
| ErrOutcomeRecovery (e : OutcomeRecoveryError)
| ErrRejectedOutcomePersistence (e : EventStoreError)
| ErrRejectionMapping (message : string)
| ErrStore (e : EventStoreError)
| ErrCodec (e : EventCodecError).

Definition invalid_request (message : string) : EventStoreError := store_error InvalidRequest message.

Definition aggregate_outlived_handler : CommandExecutionError :=
  ErrStore (invalid_request "a loaded aggregate escaped its command-handling attempt").
Definition aggregate_tracking_lost : CommandExecutionError :=
  ErrStore (invalid_request "a loaded aggregate replaced its automatically tracked instance").
Definition invalid_event_journal : CommandExecutionError :=
  ErrStore (invalid_request "a loaded aggregate produced an invalid event journal").
Definition interrupted_event_encoding : CommandExecutionError :=
  ErrStore (invalid_request "a loaded aggregate event did not finish encoding").

(** ** Trackers *)

Inductive JournalEntry :=
| Started (ordinal : N)
| JournalCompleted (ordinal : N) (event : result NewEvent CommandExecutionError).

Record ParticipantTracker := mkTracker {
  pt_journal : list JournalEntry;
  pt_finalization : option (result N CommandExecutionError);
}.

(** The trackers of an attempt: a handle and its enlisted participant share
    one by its position. The observer token of the handle is allocated with it. *)
Notation Trackers := (list ParticipantTracker).

Definition push_entry (i : nat) (entry : JournalEntry) (ts : Trackers) : Trackers :=
  alter (λ t, mkTracker (pt_journal t ++ [entry]) (pt_finalization t)) i ts.
Definition finalize (i : nat) (finalization : result N CommandExecutionError) (ts : Trackers)
  : Trackers :=
  alter (λ t, mkTracker (pt_journal t) (Some finalization)) i ts.

(** [take_finalization]: what it returns *)
Definition take_finalization (t : ParticipantTracker) : result N CommandExecutionError :=
  rbind (ok_or (pt_finalization t) aggregate_outlived_handler) (λ finalization, finalization).

Record EnlistedParticipant := mkEnlisted {
  ep_stream_id : StreamId;
  ep_base_version : StreamVersion;
  ep_tracker : nat;
}.

Record CollectedParticipant := mkCollected {
  cp_stream_id : StreamId;
  cp_base_version : StreamVersion;
  cp_events : list NewEvent;
}.

(** One entry of the journal drained by [collect]: [events] and [encoding] are
    its locals. *)
Definition collect_entry (acc : list NewEvent * option N) (entry : JournalEntry)
  : result (list NewEvent * option N) CommandExecutionError :=
  let (events, encoding) := acc in
  match entry with
  | Started ordinal =>
    if is_none encoding && (ordinal =? len events) then Ok (events, Some ordinal)
    else Err invalid_event_journal
  | JournalCompleted ordinal event =>
    let? event := event in
    fail! negb (bool_decide (encoding = Some ordinal)) with invalid_event_journal;
    Ok (events ++ [event], None)
  end.

Definition collect_tracker (t : ParticipantTracker) : result (list NewEvent) CommandExecutionError :=
  let? expected_event_count := take_finalization t in
  let? (events, encoding) := try_fold collect_entry ([], None) (pt_journal t) in
  fail! is_some encoding with interrupted_event_encoding;
  fail! negb (len events =? expected_event_count) with invalid_event_journal;
  Ok events.

(** A tracker nobody allocated cannot occur: positions are handed out by [load]. *)
Definition tracker_at (ts : Trackers) (i : nat) : ParticipantTracker :=
  default (mkTracker [] None) (ts !! i).

(** [EnlistedParticipant::collect] and [discard_events] *)
Definition collect (ts : Trackers) (p : EnlistedParticipant)
  : result CollectedParticipant CommandExecutionError :=
  let? events := collect_tracker (tracker_at ts (ep_tracker p)) in
  Ok (mkCollected (ep_stream_id p) (ep_base_version p) events).
Definition discard_events (ts : Trackers) (p : EnlistedParticipant)
  : result unit CommandExecutionError :=
  let? _ := take_finalization (tracker_at ts (ep_tracker p)) in
  Ok tt.

(** ** Attempts *)

Record SimulatedParticipant := mkSimulated {
  sim_stream_id : StreamId;
  sim_base_version : StreamVersion;
  sim_events : list NewEvent;
  sim_read_guard : bool;
}.

Definition supported_ordinal (ordinal : N) : result N EventStoreError :=
  ok_or (try_from u32_max ordinal)
    (invalid_request "command emitted more events than the supported ordinal range").

Definition required_bounded_context (metadata : CommandExecutionMetadata)
  : result BoundedContextName EventStoreError :=
  ok_or (cem_bounded_context metadata)
    (invalid_request "command execution has no bounded-context identity").

(** The [EventHistory] trait: what one [load] answers *)
Definition EventHistory : Type := StreamId → result (list RecordedEvent) EventStoreError.

Section Execution.
Context `{SHA : Sha256} `{AG : Aggregates M}.

Definition validate_bounded_context (m : M) (metadata : CommandExecutionMetadata)
  : result unit EventStoreError :=
  let? execution_context := required_bounded_context metadata in
  fail! negb (String.eqb (BOUNDED_CONTEXT m) (context_str execution_context))
    with invalid_request
      ("aggregate context `" +:+ BOUNDED_CONTEXT m
       +:+ "` does not match command execution context `"
       +:+ context_str execution_context +:+ "`");
  Ok tt.

Definition stream_id_for (m : M) (aggregate_id : string) : result StreamId EventStoreError :=
  let? type := map_err (λ e, invalid_request (IdentityError_display e))
    (ident_new KAggregateType (aggregate_type_of m)) in
  let? id := map_err (λ e, invalid_request (IdentityError_display e))
    (ident_new KAggregateId aggregate_id) in
  Ok (mkStreamId type id).

Definition validate_aggregate_type (m : M) (stream_id : StreamId) : result unit EventStoreError :=
  fail! negb (String.eqb (ident_str (aggregate_type stream_id)) (aggregate_type_of m))
    with invalid_request
      ("aggregate type " +:+ aggregate_type_of m +:+ " cannot rehydrate stream type "
       +:+ ident_str (aggregate_type stream_id));
  Ok tt.

Record CommandExecution := mkExecution {
  ce_metadata : CommandExecutionMetadata;
  ce_codecs : AggregateCodecs M;
  ce_loaded_streams : gset StreamId;
  ce_participants : list EnlistedParticipant;
}.

(** [CommandExecution::with_codecs]; the history is an argument of [load]. *)
Definition CommandExecution_with_codecs (metadata : CommandExecutionMetadata)
    (codecs : AggregateCodecs M) : CommandExecution :=
  mkExecution metadata codecs ∅ [].

(** A loaded handle: its instance, and the position of the tracker it shares *)
Record LoadedAggregate (m : M) := mkLoaded {
  la_aggregate : AggregateInstance (W := Trackers) m;
  la_base_version : StreamVersion;
  la_participant : nat;
}.
#[global] Arguments mkLoaded {m}.
#[global] Arguments la_aggregate {m}.
#[global] Arguments la_base_version {m}.
#[global] Arguments la_participant {m}.

(** The two observers [load] installs *)
Definition start_observer (tracker : nat) (ordinal : N) (ts : Trackers) : Trackers :=
  push_entry tracker (Started ordinal) ts.
Definition encode_raised {m} (codec : EventCodec m) (commit_id : CommitId) (ordinal : N)
    (event : aggregate_event m) : result NewEvent CommandExecutionError :=
  let? event_id := map_err ErrStore (rmap (derive_event_id commit_id) (supported_ordinal ordinal)) in
  map_err ErrCodec (codec_encode codec event event_id).
Definition completion_observer {m} (codec : EventCodec m) (commit_id : CommitId) (tracker : nat)
    (ordinal : N) (event : aggregate_event m) (ts : Trackers) : Trackers :=
  push_entry tracker (JournalCompleted ordinal (encode_raised codec commit_id ordinal event)) ts.

(** [CommandExecution::load] *)
Definition execution_load (m : M) `{EV : Event (aggregate_event m)} (history : EventHistory)
    (ce : CommandExecution) (ts : Trackers) (id : string)
  : result (LoadedAggregate m * CommandExecution * Trackers) CommandExecutionError :=
  let? _ := map_err ErrStore (validate_bounded_context m (ce_metadata ce)) in
  let? stream_id := map_err ErrStore (stream_id_for m id) in
  fail! bool_decide (stream_id ∈ ce_loaded_streams ce)
    with ErrStore (invalid_request
      "an aggregate stream may be loaded only once per command attempt");
  let? loaded := map_err ErrStore (history stream_id) in
  let? _ := map_err ErrStore (validate_history stream_id loaded) in
  let? codec := map_err ErrCodec (resolve (ce_codecs ce) m) in
  let? events := map_err ErrCodec (try_map (codec_decode codec) loaded) in
  let base_version := history_version loaded in
  let commit_id := derive_commit_id stream_id (cem_operation_id (ce_metadata ce)) in
  let tracker := length ts in
  let aggregate := observe_raised_events (instance_rehydrate m stream_id events) tracker
    (start_observer tracker) (completion_observer codec commit_id tracker) in
  Ok (mkLoaded aggregate base_version tracker,
      mkExecution (ce_metadata ce) (ce_codecs ce) ({[ stream_id ]} ∪ ce_loaded_streams ce)
        (ce_participants ce ++ [mkEnlisted stream_id base_version tracker]),
      ts ++ [mkTracker [] None]).

(** [Drop for LoadedAggregate] *)
Definition drop_loaded {m} (l : LoadedAggregate m) (ts : Trackers) : Trackers :=
  finalize (la_participant l)
    (if is_observed_by (la_aggregate l) (la_participant l)
     then Ok (len (ai_uncommitted (la_aggregate l)))
     else Err aggregate_tracking_lost) ts.

(** [finish], [finish_rejected] and [rejected_simulation_participants] *)
Definition finish (ce : CommandExecution) (ts : Trackers)
  : result (list CollectedParticipant) CommandExecutionError :=
  try_map (collect ts) (ce_participants ce).
Definition finish_rejected (ce : CommandExecution) (ts : Trackers)
  : result (list CollectedParticipant) CommandExecutionError :=
  try_map (λ p, let? _ := discard_events ts p in
                Ok (mkCollected (ep_stream_id p) (ep_base_version p) [])) (ce_participants ce).
Definition rejected_simulation_participants (ce : CommandExecution) (ts : Trackers)
  : result (list SimulatedParticipant) CommandExecutionError :=
  try_map (λ p, let? _ := discard_events ts p in
                Ok (mkSimulated (ep_stream_id p) (ep_base_version p) [] true)) (ce_participants ce).

(** [simulated_participant] *)
Definition simulated_participant (p : CollectedParticipant) : SimulatedParticipant :=
  mkSimulated (cp_stream_id p) (cp_base_version p) (cp_events p) (len (cp_events p) =? 0).

End Execution.
Arguments CommandExecution M {AG}.

(** ** What the journals guarantee *)

Lemma try_map_snoc {A B E} (f : A → result B E) l x :
  try_map f (l ++ [x]) = rbind (try_map f l) (λ ys, rmap (λ y, ys ++ [y]) (f x)).
Proof.
  induction l as [|z l IH]; cbn [app try_map rbind].
  - by destruct (f x).
  - destruct (f z); cbn [rbind]; [|done]. rewrite IH. destruct (try_map f l); cbn [rbind]; [|done].
    by destruct (f x).
Qed.

Lemma try_map_len {A B E} (f : A → result B E) l ys : try_map f l = Ok ys → len ys = len l.
Proof. intros H%try_map_Ok%Forall2_length. unfold len. by rewrite H. Qed.

Section Journaled.
Context `{SHA : Sha256} `{AG : Aggregates M} {m : M}.
Context (codec : EventCodec m) (commit_id : CommitId) (tracker : nat).

(** The events an instance should persist: every raised event encoded with the
    identity of its ordinal *)
Definition encode_all (events : list (aggregate_event m)) : result (list NewEvent) CommandExecutionError :=
  try_map (λ p, encode_raised codec commit_id p.1 p.2) (enumerate events).

(** An instance whose observers are the ones [execution_load] installed *)
Record observed (a : AggregateInstance (W := Trackers) m) : Prop := {
  ob_start : ai_start_observer a = Some (start_observer tracker);
  ob_completion : ai_observer a = Some (completion_observer codec commit_id tracker);
  ob_token : ai_token a = Some tracker;
}.

(** What can happen to an observed instance and the trackers: a completed
    [raise]; a [raise] whose [apply] panicked, leaving any state; a [raise] whose
    encoder panicked; and anything that leaves this tracker alone - other loads,
    other instances, other drops. *)
Inductive handling : AggregateInstance (W := Trackers) m * Trackers →
    AggregateInstance (W := Trackers) m * Trackers → Prop :=
| handling_raise a ts event : handling (a, ts) (raise a event ts)
| handling_apply_panics a ts state : handling (a, ts) (with_state a state, raise_started a ts)
| handling_encode_panics a ts event : handling (a, ts) (raise_applied a event, raise_started a ts)
| handling_elsewhere a ts ts' :
    ts' !! tracker = ts !! tracker → handling (a, ts) (a, ts').

Definition folded (ts : Trackers) : result (list NewEvent * option N) CommandExecutionError :=
  try_fold collect_entry ([], None) (pt_journal (tracker_at ts tracker)).

(** Either the journal is the record of the raised events, or it can never be
    collected again. *)
Definition journal_sound (a : AggregateInstance (W := Trackers) m) (ts : Trackers) : Prop :=
  folded ts = rmap (λ evs, (evs, None)) (encode_all (ai_uncommitted a))
  ∨ is_err (folded ts) = true ∨ ∃ evs k, folded ts = Ok (evs, Some k).

Lemma tracker_at_push ts entry t :
  ts !! tracker = Some t →
  push_entry tracker entry ts !! tracker = Some (mkTracker (pt_journal t ++ [entry]) (pt_finalization t)).
Proof. intros H. unfold push_entry. by rewrite list_lookup_alter_eq, H. Qed.

Lemma folded_push ts entry t :
  ts !! tracker = Some t →
  folded (push_entry tracker entry ts) = rbind (folded ts) (λ acc, collect_entry acc entry).
Proof.
  intros H. unfold folded, tracker_at. rewrite (tracker_at_push _ _ _ H), H. cbn [default from_option id pt_journal].
  unfold id. rewrite try_fold_app. destruct (try_fold _ _ _) as [acc|]; cbn [rbind try_fold]; [|done].
  by destruct (collect_entry acc entry).
Qed.

Lemma encode_all_snoc events event :
  encode_all (events ++ [event])
  = rbind (encode_all events) (λ ys, rmap (λ y, ys ++ [y]) (encode_raised codec commit_id (len events) event)).
Proof.
  unfold encode_all, enumerate. rewrite enumerate_from_app. cbn [enumerate_from].
  rewrite try_map_snoc. cbn [fst snd]. by rewrite N.add_0_l.
Qed.

Lemma encode_all_len events ys : encode_all events = Ok ys → len ys = len events.
Proof.
  intros H%try_map_len. rewrite H. unfold len, enumerate. by rewrite length_enumerate_from.
Qed.

(** The start observer closes an open journal for good, and opens a sound one. *)
Lemma started_sound a ts t :
  observed a → ts !! tracker = Some t → journal_sound a ts →
  raise_started a ts !! tracker ≠ None
  ∧ (is_err (folded (raise_started a ts)) = true
     ∨ ∃ evs, encode_all (ai_uncommitted a) = Ok evs
         ∧ folded (raise_started a ts) = Ok (evs, Some (len (ai_uncommitted a)))).
Proof.
  intros [Ho _ _] Ht Hs. unfold raise_started. rewrite Ho. unfold start_observer.
  split; [by rewrite (tracker_at_push _ _ _ Ht)|].
  rewrite (folded_push _ _ _ Ht). destruct Hs as [->|[He|(evs & k & ->)]]; [..|by left].
  - destruct (encode_all _) as [evs|] eqn:E; cbn [rmap rbind]; [|by left].
    right. exists evs. split; [done|]. cbn [collect_entry is_none is_some negb andb].
    by rewrite (encode_all_len _ _ E), N.eqb_refl.
  - left. by destruct (folded ts).
Qed.

Lemma handling_sound a ts a' ts' t :
  handling (a, ts) (a', ts') → observed a → ts !! tracker = Some t → journal_sound a ts →
  observed a' ∧ is_Some (ts' !! tracker) ∧ journal_sound a' ts'.
Proof.
  intros H Hob Ht Hs. pose proof (started_sound _ _ _ Hob Ht Hs) as [Hn Hst].
  apply not_eq_None_Some in Hn as [t1 Ht1].
  inversion H as [? ? e Heq|? ? state|? ? e|? ? ? Hts]; subst; clear H.
  - split; [by destruct Hob|]. destruct Hob as [Ho Hc Hk]. unfold raise in *. 
    cbn [raise_applied ai_observer ai_uncommitted] in *. rewrite Hc, last_snoc.
    unfold completion_observer. split; [by rewrite (tracker_at_push _ _ _ Ht1)|].
    unfold journal_sound. rewrite (folded_push _ _ _ Ht1). cbn [ai_uncommitted].
    destruct Hst as [He|(evs & Henc & ->)].
    { right; left. by destruct (folded (raise_started a ts)). }
    left. cbn [raise_applied ai_uncommitted]. rewrite encode_all_snoc, Henc. cbn [rbind collect_entry].
    destruct (encode_raised _ _ _ _); cbn [rbind rmap]; [|done].
    by rewrite bool_decide_eq_true_2.
  - split; [by destruct Hob|]. split; [done|]. right. destruct Hst as [|(? & _ & ?)]; eauto.
  - split; [by destruct Hob|]. split; [done|]. right. destruct Hst as [|(? & _ & ?)]; eauto.
  - split; [done|]. rewrite Hts. split; [done|]. unfold journal_sound, folded, tracker_at in *.
    by rewrite Hts.
Qed.

Lemma handlings_sound p p' :
  rtc handling p p' → observed p.1 → is_Some (p.2 !! tracker) → journal_sound p.1 p.2 →
  observed p'.1 ∧ is_Some (p'.2 !! tracker) ∧ journal_sound p'.1 p'.2.
Proof.
  induction 1 as [|[a ts] [a1 ts1] [a2 ts2] H _ IH]; [done|]. cbn in *. intros Hob [t Ht] Hs.
  destruct (handling_sound _ _ _ _ _ H Hob Ht Hs) as (? & ? & ?). by apply IH.
Qed.

(** Uninterrupted raising keeps the first, sound form. *)
Lemma raise_all_folded a ts events :
  observed a → is_Some (ts !! tracker) →
  folded ts = rmap (λ evs, (evs, None)) (encode_all (ai_uncommitted a)) →
  let p := raise_all a events ts in
  observed p.1 ∧ is_Some (p.2 !! tracker)
  ∧ folded p.2 = rmap (λ evs, (evs, None)) (encode_all (ai_uncommitted p.1)).
Proof.
  revert a ts; induction events as [|e events IH]; intros a ts Hob Ht Hf; [done|].
  unfold raise_all in *. cbn [foldl fst snd]. destruct Ht as [t Ht].
  destruct (handling_sound a ts (raise a e ts).1 (raise a e ts).2 t) as (Hob' & Ht' & _);
    [rewrite <- surjective_pairing; constructor|done|done|by left|].
  rewrite (surjective_pairing (raise a e ts)). apply IH; try done.
  destruct Hob as [Ho Hc Hk]. unfold raise. cbn [raise_applied ai_observer ai_uncommitted fst snd].
  rewrite Hc, last_snoc. unfold completion_observer, raise_started. rewrite Ho. unfold start_observer.
  rewrite (folded_push _ _ _ (tracker_at_push _ _ _ Ht)), (folded_push _ _ _ Ht), Hf, encode_all_snoc.
  destruct (encode_all _) as [evs|] eqn:E; cbn [rmap rbind]; [|done].
  cbn [collect_entry is_none is_some negb andb]. rewrite (encode_all_len _ _ E), N.eqb_refl.
  cbn [rbind collect_entry]. destruct (encode_raised _ _ _ _); cbn [rbind rmap]; [|done].
  by rewrite bool_decide_eq_true_2.
Qed.

(** What dropping a handle of this tracker leaves to collect *)
Lemma collect_dropped (a : AggregateInstance (W := Trackers) m) base ts ts' stream ep_base t :
  ts !! tracker = Some t →
  ts' !! tracker = drop_loaded (mkLoaded a base tracker) ts !! tracker →
  collect ts' (mkEnlisted stream ep_base tracker)
  = rmap (mkCollected stream ep_base)
      (let? count := if is_observed_by a tracker then Ok (len (ai_uncommitted a))
                     else Err aggregate_tracking_lost in
       let? (events, encoding) := folded ts in
       fail! is_some encoding with interrupted_event_encoding;
       fail! negb (len events =? count) with invalid_event_journal;
       Ok events).
Proof.
  intros Ht Ht'. unfold drop_loaded, finalize in Ht'. cbn [la_participant la_aggregate] in Ht'.
  rewrite list_lookup_alter_eq, Ht in Ht'. cbn [fmap option_fmap option_map] in Ht'.
  unfold collect, collect_tracker, folded, tracker_at. cbn [ep_tracker ep_stream_id ep_base_version].
  rewrite Ht', Ht. cbn [default from_option pt_journal]. unfold id, take_finalization. cbn [pt_finalization ok_or rbind pt_journal].
  destruct (is_observed_by a tracker); cbn [rbind]; [|done].
  destruct (try_fold _ _ _) as [[events encoding]|]; cbn [rbind]; [|done].
  destruct (is_some encoding); [done|]. by destruct (negb _).
Qed.

Lemma observed_token (a : AggregateInstance (W := Trackers) m) : observed a → is_observed_by a tracker = true.
Proof. intros [_ _ Hk]. unfold is_observed_by. rewrite Hk. cbn. apply Nat.eqb_refl. Qed.

End Journaled.

Section Attempts.
Context `{SHA : Sha256} `{AG : Aggregates M} (m : M) `{EV : Event (aggregate_event m)}.

(** What a successful load is *)
Lemma execution_load_Ok history ce ts id l ce' ts' :
  execution_load m history ce ts id = Ok (l, ce', ts') →
  ∃ stream loaded codec events,
    stream_id_for m id = Ok stream ∧ stream ∉ ce_loaded_streams ce
    ∧ history stream = Ok loaded ∧ validate_history stream loaded = Ok tt
    ∧ resolve (ce_codecs ce) m = Ok codec ∧ try_map (codec_decode codec) loaded = Ok events
    ∧ la_base_version l = history_version loaded ∧ la_participant l = length ts
    ∧ ai_state (la_aggregate l) = foldl (Aggregate.apply m) (initial m stream) events
    ∧ ai_uncommitted (la_aggregate l) = []
    ∧ observed codec (derive_commit_id stream (cem_operation_id (ce_metadata ce))) (length ts)
        (la_aggregate l)
    ∧ ce' = mkExecution (ce_metadata ce) (ce_codecs ce) ({[ stream ]} ∪ ce_loaded_streams ce)
              (ce_participants ce ++ [mkEnlisted stream (history_version loaded) (length ts)])
    ∧ ts' = ts ++ [mkTracker [] None].
Proof.
  unfold execution_load. intros H. guards.
  match goal with H : validate_history _ _ = Ok ?u |- _ => destruct u end.
  match goal with H : (_, _, _) = (_, _, _) |- _ => injection H as <- <- <- | _ => idtac end.
  repeat match goal with H : _ = l |- _ => rewrite <- H | H : _ = ce' |- _ => rewrite <- H
    | H : _ = ts' |- _ => rewrite <- H end.
  do 4 eexists. split_and!; try done; cbn [la_aggregate observe_raised_events ai_state ai_uncommitted].
  - apply rehydrate_state.
  - apply rehydrate_uncommitted.
Qed.

(** A loaded handle starts with an empty, sound journal. *)
Lemma loaded_sound codec commit_id (a : AggregateInstance (W := Trackers) m) ts :
  ai_uncommitted a = [] →
  is_Some ((ts ++ [mkTracker [] None]) !! length ts)
  ∧ folded (length ts) (ts ++ [mkTracker [] None])
    = rmap (λ evs, (evs, None)) (encode_all (m := m) codec commit_id (ai_uncommitted a)).
Proof.
  intros ->. unfold folded, tracker_at. rewrite lookup_app_r, Nat.sub_diag by done. split; [by eexists|done].
Qed.

(** No event is lost, invented or reordered between an aggregate
    and its transaction: whatever happened to the loaded instance - completed
    raises, caught panics while applying or encoding, other loads in between -
    if its participant is collected after the handle was dropped, the collected
    events are exactly its uncommitted events, each encoded with the identity
    of its ordinal in the commit of the stream. *)
Theorem collected_events_are_raised history ce ts id l ce' ts1 stream codec a ts2 ts3 p :
  execution_load m history ce ts id = Ok (l, ce', ts1) →
  stream_id_for m id = Ok stream → resolve (ce_codecs ce) m = Ok codec →
  let commit_id := derive_commit_id stream (cem_operation_id (ce_metadata ce)) in
  rtc (handling (m := m) (la_participant l)) (la_aggregate l, ts1) (a, ts2) →
  ts3 !! la_participant l
  = drop_loaded (mkLoaded a (la_base_version l) (la_participant l)) ts2 !! la_participant l →
  collect ts3 (mkEnlisted stream (la_base_version l) (la_participant l)) = Ok p →
  encode_all codec commit_id (ai_uncommitted a) = Ok (cp_events p)
  ∧ cp_stream_id p = stream ∧ cp_base_version p = la_base_version l.
Proof.
  intros Hl Hs Hc commit_id Hh Hd Hp.
  destruct (execution_load_Ok _ _ _ _ _ _ _ Hl) as (stream' & loaded & codec' & events & Hs' & _ & _ & _
    & Hc' & _ & Hb & Hi & _ & Hun & Hob & _ & Hts).
  assert (stream' = stream) as -> by congruence. assert (codec' = codec) as -> by congruence.
  subst ts1. rewrite Hi in *. destruct (loaded_sound codec commit_id (la_aggregate l) ts Hun) as [Ht Hf].
  destruct (handlings_sound codec commit_id (length ts) _ _ Hh Hob Ht) as (Hob2 & [t Ht2] & Hs2); [by left|].
  cbn [fst snd] in *. rewrite (collect_dropped (length ts) a _ ts2 _ _ _ t Ht2 Hd) in Hp.
  rewrite (observed_token codec commit_id (length ts) a Hob2) in Hp. cbn [rbind] in Hp.
  destruct Hs2 as [Hs2|[He|(evs & k & Hk)]].
  - rewrite Hs2 in Hp. destruct (encode_all _ _ _) as [evs|]; [|done]. cbn [rmap rbind is_some] in Hp.
    guards. subst p. done.
  - by destruct (folded _ ts2).
  - rewrite Hk in Hp. done.
Qed.

(** An uninterrupted attempt collects everything: after
    raising any events and dropping the handle, the participant is the encoding
    of all of them in order, or the first encoding error. *)
Theorem uninterrupted_attempt_collects history ce ts id l ce' ts1 stream codec raised :
  execution_load m history ce ts id = Ok (l, ce', ts1) →
  stream_id_for m id = Ok stream → resolve (ce_codecs ce) m = Ok codec →
  let (a, ts2) := raise_all (la_aggregate l) raised ts1 in
  collect (drop_loaded (mkLoaded a (la_base_version l) (la_participant l)) ts2)
    (mkEnlisted stream (la_base_version l) (la_participant l))
  = rmap (mkCollected stream (la_base_version l))
      (encode_all codec (derive_commit_id stream (cem_operation_id (ce_metadata ce))) raised).
Proof.
  intros Hl Hs Hc.
  destruct (execution_load_Ok _ _ _ _ _ _ _ Hl) as (stream' & loaded & codec' & events & Hs' & _ & _ & _
    & Hc' & _ & Hb & Hi & _ & Hun & Hob & _ & Hts).
  assert (stream' = stream) as -> by congruence. assert (codec' = codec) as -> by congruence.
  subst ts1. rewrite Hi. set (commit_id := derive_commit_id _ _) in *.
  destruct (loaded_sound codec commit_id (la_aggregate l) ts Hun) as [Ht Hf].
  pose proof (raise_all_folded codec commit_id (length ts) _ _ raised Hob Ht Hf) as (Hob2 & [t Ht2] & Hf2).
  destruct (raise_all_spec (la_aggregate l) raised (ts ++ [mkTracker [] None])) as (_ & Hun2 & _).
  rewrite Hun in Hun2. cbn [app] in Hun2.
  destruct (raise_all _ _ _) as [a ts2]; cbn [fst snd] in *.
  rewrite (collect_dropped (length ts) a _ ts2 _ _ _ t Ht2 eq_refl).
  rewrite (observed_token codec commit_id (length ts) a Hob2), Hf2, Hun2. cbn [rbind].
  destruct (encode_all codec commit_id raised) as [evs|] eqn:E; cbn [rmap rbind is_some]; [|done].
  by rewrite (encode_all_len _ _ _ _ E), N.eqb_refl.
Qed.

End Attempts.

(** ** Witnesses *)

Section Witnesses.
#[local] Existing Instances tail_digest sample_counter sample_counted.

Definition sample_metadata : CommandExecutionMetadata :=
  with_correlation_id (with_outcome_evidence (with_bounded_context
    (CommandExecutionMetadata_new sample_operation sample_fingerprint) sample_context) sample_evidence)
    (Identifier "op-1").
Definition sample_load : result (LoadedAggregate tt * CommandExecution unit * Trackers) CommandExecutionError :=
  execution_load tt (EV := sample_counted) (λ _, Ok [])
    (CommandExecution_with_codecs sample_metadata AggregateCodecs_default) [] "o-1".

Lemma sample_load_ok : is_ok sample_load = true.
Proof. by vm_compute. Qed.

Lemma uninterrupted_attempt_collects_witness :
  match sample_load with
  | Ok (l, _, ts) =>
    let (a, ts2) := raise_all (la_aggregate l) [4; 5] ts in
    rmap (λ p, len (cp_events p))
      (collect (drop_loaded (mkLoaded a (la_base_version l) (la_participant l)) ts2)
         (mkEnlisted sample_stream (la_base_version l) (la_participant l))) = Ok 2
  | Err _ => False
  end.
Proof.
  pose proof sample_load_ok as Hok.
  destruct sample_load as [[[l ce'] ts]|] eqn:E; [|done].
  pose proof (uninterrupted_attempt_collects tt (EV := sample_counted) _ _ _ _ l ce' ts sample_stream
    (JsonEventCodec tt (EV := sample_counted)) [4; 5] E ltac:(by vm_compute) eq_refl) as H.
  destruct (raise_all _ _ _) as [a ts2]. rewrite H. by vm_compute.
Defined.

Lemma collected_events_are_raised_witness :
  match sample_load with
  | Ok (l, _, ts) =>
    let (a, ts2) := raise (la_aggregate l) 4 ts in
    ∀ p, collect (drop_loaded (mkLoaded a (la_base_version l) (la_participant l)) ts2)
           (mkEnlisted sample_stream (la_base_version l) (la_participant l)) = Ok p →
      cp_stream_id p = sample_stream
  | Err _ => False
  end.
Proof.
  pose proof sample_load_ok as Hok.
  destruct sample_load as [[[l ce'] ts]|] eqn:E; [|done].
  destruct (raise (la_aggregate l) 4 ts) as [a ts2] eqn:Er. intros p Hp.
  refine (proj1 (proj2 (collected_events_are_raised tt (EV := sample_counted) _ _ _ _ l ce' ts sample_stream
    (JsonEventCodec tt (EV := sample_counted)) a ts2 _ p E ltac:(by vm_compute) eq_refl _ eq_refl Hp))).
  apply rtc_once. rewrite <- Er. constructor.
Defined.

End Witnesses.
