(* ===== verification/Executor.v ===== *)
(** * Executor: the command executor - retry loop, persistence of decisions,
    winner reconciliation, replay, simulation and error classification
    (crates/rostfrei-core/src/executor.rs and conflict_retry.rs) - and what its
    store operations alone guarantee. *)

From S2P Require Export Execution.

(** ** Conflict retries (conflict_retry.rs) *)

Record ConflictRetry := mkConflictRetry { cr_evaluations : N; cr_error : EventStoreError }.

(** The delay of [RetryAfter] is a [Duration], in nanoseconds. *)
Inductive ConflictRetryDecision := Stop | RetryNow | RetryAfter (delay : N).

(** The [ConflictRetryPolicy] trait *)
Definition ConflictRetryPolicy : Type := ConflictRetry → ConflictRetryDecision.

Definition BoundedConflictRetries (maximum : N) : ConflictRetryPolicy :=
  λ conflict, if cr_evaluations conflict <=? maximum then RetryNow else Stop.
Definition BoundedConflictRetries_default : ConflictRetryPolicy := BoundedConflictRetries 3.
Definition NoConflictRetries : ConflictRetryPolicy := λ _, Stop.

(** ** The execution store (execution_store.rs) *)

(** The [ExecutionStore] and [CommandCommitSession] traits over a shared state.
    Operations of other callers may fall between the critical sections of one
    operation: they are its [Interference]. *)
Class ExecutionStore (S : Type) := {
  Interference : Type;
  es_authority : CommandAuthority;
  es_load : S → EventHistory;
  es_lookup_outcome : Interference → S → OutcomeKey →
    result (OutcomeLookup EncodedOutcomeDetails) EventStoreError;
  es_begin_command : S → result unit EventStoreError;
  es_commit_outcome : Interference → S → EventTransaction → S * result CompletedCommit EventStoreError;
}.

(** The other callers of one execution: the states they leave before its [t]-th
    access, what they do during it, and the states the loads of one handler
    attempt see. *)
Record Environment (S : Type) `{ExecutionStore S} := mkEnvironment {
  env_step : nat → S → S;
  env_interference : nat → Interference;
  env_reads : nat → S → nat → S;
}.
Arguments env_step {S _}.
Arguments env_interference {S _}.
Arguments env_reads {S _}.

(** ** Decisions and outcomes *)

Inductive CommandDecision (R : Type) := DecisionAccepted | DecisionRejected (rejection : R).
Arguments DecisionAccepted {R}.
Arguments DecisionRejected {R} rejection.

Inductive CommandReceipt :=
| ReceiptAppended (events : list RecordedEvent)
| ReceiptExactReplay (events : list RecordedEvent)
| AcceptedNoEvents.
Definition command_receipt_events (r : CommandReceipt) : list RecordedEvent :=
  match r with
  | ReceiptAppended events | ReceiptExactReplay events => events
  | AcceptedNoEvents => []
  end.
Definition receipt_is_exact_replay (r : CommandReceipt) : bool :=
  match r with ReceiptExactReplay _ => true | _ => false end.

Inductive CommandOutcome (R : Type) :=
| OutcomeAccepted (receipt : CommandReceipt)
| OutcomeRejected (rejection : R).
Arguments OutcomeAccepted {R} receipt.
Arguments OutcomeRejected {R} rejection.

(** ** Error classification *)

Definition store_failure (kind : EventStoreErrorKind) : option ExecutionFailure :=
  match kind with
  | CorruptHistory => Some (FailureStore FailCorruptHistory)
  | CapacityExhausted => Some (FailureStore FailCapacityExhausted)
  | ConfigurationMismatch | DetailForbidden => Some (FailureStore FailConfigurationMismatch)
  | Conflict => Some (FailureStore FailConflict)
  | Unavailable | CompletedDetailsUnavailable => Some (FailureStore FailUnavailable)
  | InvalidRequest | IdentityConflict | CompletedDetailsExpired => None
  end.

Definition codec_failure (kind : EventCodecErrorKind) : CodecFailureKind :=
  match kind with
  | UnknownEventType => FailUnknownEventType
  | UnsupportedSchemaVersion => FailUnsupportedSchemaVersion
  | MalformedPayload => FailMalformedPayload
  | ConversionFailed => FailConversionFailed
  | InvalidEnvelope => FailInvalidEnvelope
  | EncodingFailed => FailEncodingFailed
  end.

(** [CommandExecutionError::execution_failure] *)
Definition execution_failure (e : CommandExecutionError) : option ExecutionFailure :=
  match e with
  | ErrOutcomeRecovery (RecoveryUnavailable BackendUnavailable)
  | ErrOutcomeRecovery (RecoveryArchived _) => Some (FailureStore FailUnavailable)
  | ErrOutcomeRecovery RecoveryExpired => None
  | ErrOutcomeRecovery IntegrityMismatch
  | ErrOutcomeRecovery (RecoveryUnavailable MissingDetails) => Some (FailureStore FailCorruptHistory)
  | ErrRejectionMapping _ => Some (FailureProcessor InvalidConfiguration)
  | ErrStore error | ErrRejectedOutcomePersistence error => store_failure (se_kind error)
  | ErrCodec error => Some (FailureCodec (codec_failure (codec_kind error)))
  end.

Inductive SimulationError :=
| SimOutcomeRecovery (e : OutcomeRecoveryError)
| SimRejectionMapping (message : string)
| SimStore (e : EventStoreError)
| SimCodec (e : EventCodecError).

(** [From<CommandExecutionError> for SimulationError] *)
Definition simulation_error (e : CommandExecutionError) : SimulationError :=
  match e with
  | ErrOutcomeRecovery error => SimOutcomeRecovery error
  | ErrRejectionMapping message => SimRejectionMapping message
  | ErrStore error | ErrRejectedOutcomePersistence error => SimStore error
  | ErrCodec error => SimCodec error
  end.

Record SimulationOutcome (R : Type) := mkSimulation {
  sim_decision : CommandDecision R;
  sim_participants : list SimulatedParticipant;
}.
Arguments mkSimulation {R}.
Arguments sim_decision {R}.
Arguments sim_participants {R}.

(** ** The transaction of a decision *)

(** [expected_version] *)
Definition expected_version (version : StreamVersion) : ExpectedVersion :=
  if bool_decide (version = version_zero) then NoStream else Exact version.

Inductive PersistenceAttempt :=
| PersistenceCompleted (outcome : CompletedCommit)
| PersistenceConflict (error : EventStoreError).

Section Transactions.
Context `{SHA : Sha256}.

(** [prepare_batch_for_stream] *)
Definition prepare_batch_for_stream (metadata : CommandExecutionMetadata) (stream_id : StreamId)
    (events : list NewEvent) : result (option EventBatch) EventStoreError :=
  if len events =? 0 then Ok None
  else
    let? batch := map_err (λ e, invalid_request (EnvelopeError_display e))
      (EventBatch_new (derive_commit_id stream_id (cem_operation_id metadata))
         (cem_operation_id metadata) (cem_operation_fingerprint metadata) events) in
    let batch := from_option (batch_with_correlation_id batch) batch (cem_correlation_id metadata) in
    let batch := from_option (batch_with_causation_id batch) batch (cem_causation_id metadata) in
    let batch := from_option (batch_with_actor batch) batch (cem_actor metadata) in
    Ok (Some batch).

Definition prepare_participant (metadata : CommandExecutionMetadata) (p : CollectedParticipant)
  : result TransactionParticipant EventStoreError :=
  let? batch := prepare_batch_for_stream metadata (cp_stream_id p) (cp_events p) in
  Ok (mkParticipant (cp_stream_id p) (expected_version (cp_base_version p)) batch).

(** The transaction [append_transaction] commits *)
Definition decision_transaction (metadata : CommandExecutionMetadata)
    (participants : list CollectedParticipant) (rejection : option EncodedRejection)
  : result EventTransaction EventStoreError :=
  let? participants := try_map (prepare_participant metadata) participants in
  let? context := required_bounded_context metadata in
  let t := tx_with_bounded_context (EventTransaction_new (cem_operation_id metadata)
             (cem_operation_fingerprint metadata) participants) context in
  let t := from_option (tx_with_correlation_id t) t (cem_correlation_id metadata) in
  let t := from_option (tx_with_causation_id t) t (cem_causation_id metadata) in
  let t := from_option (tx_with_security_scope t) t (cem_security_scope metadata) in
  let t := from_option (tx_with_actor t) t (cem_actor metadata) in
  Ok (tx_with_completion t (CommandCompletion_new (cem_outcome_evidence metadata) rejection)).

(** What [append_transaction] makes of the commit's answer *)
Definition persistence_attempt (is_rejected : bool) (committed : result CompletedCommit EventStoreError)
  : result PersistenceAttempt CommandExecutionError :=
  match committed with
  | Ok outcome => Ok (PersistenceCompleted outcome)
  | Err error =>
    if bool_decide (se_kind error = Conflict) || bool_decide (se_kind error = IdentityConflict)
    then Ok (PersistenceConflict error)
    else if bool_decide (se_origin error = OutcomeRecovery) then Err (ErrStore error)
    else if is_rejected then Err (ErrRejectedOutcomePersistence error)
    else Err (ErrStore error)
  end.

(** [transaction_replay] *)
Definition transaction_replay (metadata : CommandExecutionMetadata) (receipt : TransactionReceipt)
  : result CommandReceipt CommandExecutionError :=
  let? _ := map_err ErrStore (validate_integrity receipt) in
  if bool_decide (tr_bounded_context receipt = cem_bounded_context metadata)
     && bool_decide (tr_operation_id receipt = cem_operation_id metadata)
     && bool_decide (tr_operation_fingerprint receipt = cem_operation_fingerprint metadata)
     && bool_decide (tr_correlation_id receipt = cem_correlation_id metadata)
     && bool_decide (tr_causation_id receipt = cem_causation_id metadata)
     && bool_decide (tr_actor receipt = cem_actor metadata)
  then Ok (ReceiptExactReplay (receipt_events receipt))
  else Err (ErrStore (store_error IdentityConflict
    "operation identity was reused with different transaction metadata")).

Definition evidence_agrees (recorded requested : option OutcomeEvidence) : bool :=
  match recorded, requested with
  | Some recorded, Some requested => same_identity recorded requested
  | None, None => true
  | _, _ => false
  end.

(** [completed_replay] *)
Definition completed_replay `{RC : RejectionCodec R} (metadata : CommandExecutionMetadata)
    (outcome : CompletedOutcome EncodedOutcomeDetails) (replay : bool)
  : result (CommandOutcome R) CommandExecutionError :=
  let? _ := map_err ErrStore (validate_identity (co_marker outcome) metadata) in
  let? inline := map_err ErrOutcomeRecovery (to_inline outcome) in
  let record := inline_record inline in
  let? receipt := transaction_replay metadata record in
  let? _ :=
    match tr_completion record with
    | Some completion =>
      let? _ := map_err ErrCodec (completion_validate completion) in
      fail! is_some (completion_rejection completion) && negb (len (receipt_events record) =? 0)
        with ErrCodec (mkCodecError InvalidEnvelope "rejected record contains domain events");
      fail! negb (evidence_agrees (completion_evidence completion) (cem_outcome_evidence metadata))
        with ErrStore (store_error IdentityConflict "completed command evidence differs");
      Ok tt
    | None => Ok tt
    end in
  match inline_rejection inline with
  | Some rejection => rmap OutcomeRejected (map_err ErrCodec (rc_decode rejection))
  | None =>
    Ok (OutcomeAccepted
      (if replay then receipt
       else if len (receipt_events record) =? 0 then AcceptedNoEvents
       else ReceiptAppended (receipt_events record)))
  end.

End Transactions.

(** ** The executor *)

Section Executor.
Context `{SHA : Sha256} `{AG : Aggregates M} {S : Type} `{ES : ExecutionStore S} {R : Type}.

(** The configuration of an executor over its store *)
Record CommandExecutor := mkExecutor {
  x_codecs : AggregateCodecs M;
  x_shared_codecs : bool;
  x_policy : ConflictRetryPolicy;
}.

Definition CommandExecutor_new : CommandExecutor :=
  mkExecutor AggregateCodecs_default false BoundedConflictRetries_default.
Definition executor_with_codecs (codecs : AggregateCodecs M) : CommandExecutor :=
  mkExecutor codecs true BoundedConflictRetries_default.
Definition executor_with_codec (x : CommandExecutor) (m : M) (codec : EventCodec m)
  : result CommandExecutor CodecRegistrationError :=
  fail! x_shared_codecs x with SharedConfiguration;
  let? codecs := replace_codec (x_codecs x) m codec in
  Ok (mkExecutor codecs (x_shared_codecs x) (x_policy x)).
Definition with_conflict_retry_policy (x : CommandExecutor) (policy : ConflictRetryPolicy) :=
  mkExecutor (x_codecs x) (x_shared_codecs x) policy.
Definition with_max_conflict_retries (x : CommandExecutor) (maximum : N) :=
  with_conflict_retry_policy x (BoundedConflictRetries maximum).

(** A [CommandHandler] applied to its command: from the histories its loads
    see, it drives the execution and the trackers and decides. *)
Definition Handler : Type :=
  (nat → EventHistory) → CommandExecution M → Trackers →
  result (CommandDecision R) CommandExecutionError * CommandExecution M * Trackers.

Definition outcome_key (metadata : CommandExecutionMetadata) : result OutcomeKey EventStoreError :=
  let? context := required_bounded_context metadata in
  Ok (mkOutcomeKey es_authority context (cem_operation_id metadata)).

(** [lookup_completed] *)
Definition lookup_completed (i : Interference) (s : S) (metadata : CommandExecutionMetadata)
  : result (option (CompletedOutcome EncodedOutcomeDetails)) CommandExecutionError :=
  let? key := map_err ErrStore (outcome_key metadata) in
  let? found := map_err (λ e, ErrStore (in_outcome_recovery e)) (es_lookup_outcome i s key) in
  match found with
  | Missing => Ok None
  | Completed outcome =>
    let? _ := map_err (λ e, ErrStore (in_outcome_recovery e)) (validate_for outcome key metadata) in
    Ok (Some outcome)
  end.

(** [append_transaction] *)
Definition executor_append (i : Interference) (s : S) (metadata : CommandExecutionMetadata)
    (participants : list CollectedParticipant) (rejection : option EncodedRejection)
  : S * result PersistenceAttempt CommandExecutionError :=
  match decision_transaction metadata participants rejection with
  | Err e => (s, Err (ErrStore e))
  | Ok t =>
    let (s', committed) := es_commit_outcome i s t in
    (s', persistence_attempt (is_some rejection) committed)
  end.

(** One evaluation of the handler: the participants and the encoded rejection
    to persist *)
Definition evaluate (x : CommandExecutor) (codec : RejectionCodec R) (handler : Handler)
    (history : nat → EventHistory) (metadata : CommandExecutionMetadata)
  : result (list CollectedParticipant * option EncodedRejection) CommandExecutionError :=
  let '(decision, execution, trackers) :=
    handler history (CommandExecution_with_codecs metadata (x_codecs x)) [] in
  let? decision := decision in
  match decision with
  | DecisionRejected rejection =>
    let? participants := finish_rejected execution trackers in
    let? encoded := map_err ErrCodec (rc_encode rejection) in
    let? _ := map_err ErrCodec (rejection_validate encoded) in
    let? _ := map_err ErrCodec (rc_decode encoded) in
    Ok (participants, Some encoded)
  | DecisionAccepted =>
    let? participants := finish execution trackers in
    Ok (participants, None)
  end.

(** One iteration of the loop from the [t]-th access on: what it returns, or
    the error of the conflict that asks for another evaluation *)
Definition execute_step (x : CommandExecutor) (codec : RejectionCodec R) (handler : Handler)
    (env : Environment S) (metadata : CommandExecutionMetadata) (t : nat) (s : S) (evaluations : N)
  : S * result (CompletedCommit + EventStoreError) CommandExecutionError :=
  let s := env_step env t s in
  match lookup_completed (env_interference env t) s metadata with
  | Err e => (s, Err e)
  | Ok (Some outcome) => (s, Ok (inl (CommitExactReplay outcome)))
  | Ok None =>
    let s := env_step env (t + 1) s in
    match es_begin_command s with
    | Err e => (s, Err (ErrStore e))
    | Ok _ =>
      match evaluate x codec handler (λ k, es_load (env_reads env (t + 1) s k)) metadata with
      | Err e => (s, Err e)
      | Ok (participants, rejection) =>
        let s := env_step env (t + 2) s in
        let (s, attempt) :=
          executor_append (env_interference env (t + 2)) s metadata participants rejection in
        match attempt with
        | Err e => (s, Err e)
        | Ok (PersistenceCompleted outcome) =>
          (s, let? key := map_err ErrStore (outcome_key metadata) in
              let? _ := map_err (λ e, ErrStore (in_outcome_recovery e))
                (validate_for (commit_outcome_of outcome) key metadata) in
              Ok (inl outcome))
        | Ok (PersistenceConflict error) =>
          let s := env_step env (t + 3) s in
          match lookup_completed (env_interference env (t + 3)) s metadata with
          | Err e => (s, Err e)
          | Ok (Some outcome) => (s, Ok (inl (CommitExactReplay outcome)))
          | Ok None =>
            if negb (bool_decide (se_kind error = Conflict)) then (s, Err (ErrStore error))
            else match x_policy x (mkConflictRetry evaluations error) with
                 | Stop => (s, Err (ErrStore error))
                 | RetryNow | RetryAfter _ => (s, Ok (inr error))
                 end
          end
        end
      end
    end
  end.

(** The loop of [execute_completed_with_rejection_codec], with fuel *)
Fixpoint execute_loop (fuel : nat) (x : CommandExecutor) (codec : RejectionCodec R) (handler : Handler)
    (env : Environment S) (metadata : CommandExecutionMetadata) (t : nat) (s : S) (evaluations : N)
  : option (S * result CompletedCommit CommandExecutionError) :=
  match fuel with
  | O => None
  | Datatypes.S fuel =>
    let evaluations := saturating_add usize_max evaluations 1 in
    match execute_step x codec handler env metadata t s evaluations with
    | (s, Err e) => Some (s, Err e)
    | (s, Ok (inl outcome)) => Some (s, Ok outcome)
    | (s, Ok (inr _)) => execute_loop fuel x codec handler env metadata (t + 4) s evaluations
    end
  end.

(** The metadata every evaluation of one execution shares *)
Definition execution_metadata (type_name : string) (metadata : CommandExecutionMetadata)
  : result CommandExecutionMetadata CommandExecutionError :=
  map_err (λ e, ErrStore (invalid_request (ContractError_display e)))
    (normalized (with_default_outcome_evidence type_name metadata)).

(** [execute_completed_with_rejection_codec]; [type_name] is that of the command. *)
Definition execute_completed (fuel : nat) (x : CommandExecutor) (codec : RejectionCodec R)
    (handler : Handler) (env : Environment S) (type_name : string)
    (metadata : CommandExecutionMetadata) (s : S)
  : option (S * result CompletedCommit CommandExecutionError) :=
  match execution_metadata type_name metadata with
  | Err e => Some (s, Err e)
  | Ok metadata =>
    match (match cem_outcome_evidence metadata with
           | Some evidence => map_err ErrCodec (evidence_validate evidence)
           | None => Ok tt
           end) with
    | Err e => Some (s, Err e)
    | Ok _ => execute_loop fuel x codec handler env metadata 0 s 0
    end
  end.

(** [execute_with_rejection_codec] *)
Definition execute_with_rejection_codec (fuel : nat) (x : CommandExecutor) (codec : RejectionCodec R)
    (handler : Handler) (env : Environment S) (type_name : string)
    (metadata : CommandExecutionMetadata) (s : S)
  : option (S * result (CommandOutcome R) CommandExecutionError) :=
  match execution_metadata type_name metadata with
  | Err e => Some (s, Err e)
  | Ok metadata =>
    match execute_completed fuel x codec handler env type_name metadata s with
    | None => None
    | Some (s, completed) =>
      Some (s, let? completed := completed in
               completed_replay (RC := codec) metadata (commit_outcome_of completed)
                 (commit_is_exact_replay completed))
    end
  end.

(** [execute] *)
Definition execute (fuel : nat) (x : CommandExecutor) (handler : Handler) (env : Environment S)
    (type_name : string) (metadata : CommandExecutionMetadata) (s : S) :=
  execute_with_rejection_codec fuel x (UnconfiguredRejectionCodec R) handler env type_name metadata s.

(** [reconcile_with_rejection_codec] *)
Definition reconcile (codec : RejectionCodec R) (i : Interference) (s : S)
    (metadata : CommandExecutionMetadata)
  : result (option (CommandOutcome R)) CommandExecutionError :=
  let? metadata := map_err (λ e, ErrStore (invalid_request (ContractError_display e)))
    (normalized metadata) in
  let? found := lookup_completed i s metadata in
  transpose ((λ outcome, completed_replay (RC := codec) metadata outcome true) <$> found).

(** [simulate]: no session, no write *)
Definition simulate (x : CommandExecutor) (handler : Handler) (history : nat → EventHistory)
    (type_name : string) (metadata : CommandExecutionMetadata)
  : result (SimulationOutcome R) SimulationError :=
  let? metadata := map_err simulation_error (execution_metadata type_name metadata) in
  let '(decision, execution, trackers) :=
    handler history (CommandExecution_with_codecs metadata (x_codecs x)) [] in
  let? decision := map_err simulation_error decision in
  let? participants := map_err simulation_error
    match decision with
    | DecisionAccepted => rmap (map simulated_participant) (finish execution trackers)
    | DecisionRejected _ => rejected_simulation_participants execution trackers
    end in
  Ok (mkSimulation decision participants).

(** [rehydrate_with_codec] and [rehydrate] *)
Definition rehydrate_with_codec (m : M) (history : EventHistory) (stream_id : StreamId)
    (codec : EventCodec m) : result (AggregateInstance (W := Trackers) m) SimulationError :=
  let? _ := map_err SimStore (validate_aggregate_type m stream_id) in
  let? loaded := map_err SimStore (history stream_id) in
  let? _ := map_err SimStore (validate_history stream_id loaded) in
  let? events := map_err SimCodec (try_map (codec_decode codec) loaded) in
  Ok (instance_rehydrate m stream_id events).
Definition rehydrate (x : CommandExecutor) (m : M) `{EV : Event (aggregate_event m)}
    (history : EventHistory) (stream_id : StreamId)
  : result (AggregateInstance (W := Trackers) m) SimulationError :=
  let? _ := map_err SimStore (validate_aggregate_type m stream_id) in
  let? loaded := map_err SimStore (history stream_id) in
  let? _ := map_err SimStore (validate_history stream_id loaded) in
  let? codec := map_err SimCodec (resolve (x_codecs x) m) in
  let? events := map_err SimCodec (try_map (codec_decode codec) loaded) in
  Ok (instance_rehydrate m stream_id events).

End Executor.
Arguments CommandExecutor M {AG}.
Arguments Handler M {AG} R.

(** ** The in-memory store as an execution store *)

Definition memory_execution_store `{Sha256} `{OutcomeJson} (debug_str : string → string)
    (st : InMemoryEventStore) : ExecutionStore State :=
  {| Interference := State → Views;
     es_authority := ims_authority st;
     es_load := λ s stream, Ok (load s stream);
     es_lookup_outcome := λ during s key, lookup_outcome debug_str st s (during s) key;
     es_begin_command := λ _, Ok tt;
     es_commit_outcome := λ between s t, commit_outcome debug_str st between s t |}.

(** * What the command executor guarantees - termination, authoritative outcomes, one
    evaluation of a completed command, durable results - over any store, and over the
    in-memory one under interference. *)

(** ** Facts that hold over every store *)

Section Facts.
Context `{SHA : Sha256} `{AG : Aggregates M} {S : Type} `{ES : ExecutionStore S} {R : Type}.

Lemma bounded_step n x codec handler env metadata t (s s' : S) evaluations e :
  x_policy x = BoundedConflictRetries n →
  execute_step (R := R) x codec handler env metadata t s evaluations = (s', Ok (inr e)) → evaluations <= n.
Proof.
  intros Hp H. unfold execute_step in H.
  repeat match type of H with
  | (let (_, _) := ?y in _) = _ => destruct y
  | match ?y with _ => _ end = _ => destruct y eqn:?; try discriminate H
  end; try (injection H as _ H; unfold rbind, map_err in H; repeat case_match; discriminate).
  all: match goal with H : x_policy _ (mkConflictRetry _ _) = _ |- _ => rewrite Hp in H; unfold BoundedConflictRetries in H;
    cbn [cr_evaluations] in H; destruct (_ <=? _) eqn:E; [|discriminate] end; by apply N.leb_le.
Qed.

Lemma execute_loop_total n fuel x codec handler env metadata t (s : S) evaluations :
  x_policy x = BoundedConflictRetries n → n < usize_max → evaluations <= n →
  (N.to_nat (n - evaluations) < fuel)%nat →
  is_Some (execute_loop (R := R) fuel x codec handler env metadata t s evaluations).
Proof.
  intros Hp Hn. revert t s evaluations; induction fuel as [|fuel IH]; intros t s evaluations He Hf; [lia|].
  cbn [execute_loop]. unfold saturating_add. rewrite N.min_r by lia.
  destruct (execute_step _ _ _ _ _ _ _ _) as [s' [[c|e]|e]] eqn:E; [by eexists| |by eexists].
  apply (bounded_step n) in E; [|done]. apply IH; lia.
Qed.

Lemma execute_completed_total n x codec handler env type_name metadata (s : S) :
  x_policy x = BoundedConflictRetries n → n < usize_max →
  is_Some (execute_completed (R := R) (N.to_nat n + 1) x codec handler env type_name metadata s).
Proof.
  intros Hp Hn. unfold execute_completed. destruct (execution_metadata _ _) as [md|]; [|by eexists].
  destruct (match cem_outcome_evidence md with Some _ => _ | None => _ end); [|by eexists].
  apply (execute_loop_total n); [done|done|lia|lia].
Qed.

(** C11 (termination). An execution under a bounded retry policy ends: after at
    most one evaluation more than the configured retries it has returned an
    outcome or an error, whatever the store, the handler and the other callers
    do. *)
Theorem bounded_execution_terminates n x codec handler env type_name metadata (s : S) :
  x_policy x = BoundedConflictRetries n → n < usize_max →
  is_Some (execute_completed (R := R) (N.to_nat n + 1) x codec handler env type_name metadata s).
Proof. apply execute_completed_total. Qed.

(** What validation of an outcome for a command establishes *)
Record authoritative (key : OutcomeKey) (metadata : CommandExecutionMetadata)
    (o : CompletedOutcome EncodedOutcomeDetails) : Prop := {
  au_key : ref_key (mk_reference (co_marker o)) = key;
  au_identity : validate_identity (co_marker o) metadata = Ok tt;
  au_integrity : integrity_ok (mk_integrity (co_marker o));
  au_details : ∀ d, co_details o = Available d → ed_reference d = mk_reference (co_marker o);
}.

Lemma validate_for_Ok o key metadata u : validate_for o key metadata = Ok u → authoritative key metadata o.
Proof.
  unfold validate_for, validate_key. intros H. guards.
  repeat match goal with H : _ = Ok ?u |- _ => is_var u; match type of u with unit => destruct u end end.
  split; try done.
  - by apply validate_integrity_Ok.
  - intros d Hd. match goal with H : validate_detail_binding _ _ = Ok _ |- _ =>
      unfold validate_detail_binding in H; rewrite Hd in H; cbn in H end. by guards.
Qed.

Lemma lookup_completed_Some i (s : S) metadata o :
  lookup_completed i s metadata = Ok (Some o) →
  ∃ key, outcome_key metadata = Ok key ∧ authoritative key metadata o
    ∧ es_lookup_outcome i s key = Ok (Completed o).
Proof.
  unfold lookup_completed. intros H. guards.
  match goal with H : match ?f with _ => _ end = _ |- _ => destruct f as [|o'] end; [done|]. guards.
  match goal with H : Some _ = Some _ |- _ => injection H as <- | _ => idtac end. subst.
  eexists. split_and!; [done|by eapply validate_for_Ok|done].
Qed.

Lemma execute_step_outcome x codec handler env metadata t (s s' : S) evaluations c :
  execute_step (R := R) x codec handler env metadata t s evaluations = (s', Ok (inl c)) →
  ∃ key, outcome_key metadata = Ok key ∧ authoritative key metadata (commit_outcome_of c).
Proof.
  intros H. unfold execute_step in H.
  repeat match type of H with
  | (let (_, _) := ?y in _) = _ => destruct y
  | match ?y with _ => _ end = _ => destruct y eqn:?; try discriminate H
  end; try (injection H as _ H); try discriminate H.
  all: try (subst c; match goal with H : lookup_completed _ _ _ = Ok (Some _) |- _ =>
    apply lookup_completed_Some in H as (key & ? & ? & _) end; by exists key).
  guards. subst c. eexists. split; [done|]. by eapply validate_for_Ok.
Qed.

Lemma execute_loop_outcome fuel x codec handler env metadata t (s s' : S) evaluations c :
  execute_loop (R := R) fuel x codec handler env metadata t s evaluations = Some (s', Ok c) →
  ∃ key, outcome_key metadata = Ok key ∧ authoritative key metadata (commit_outcome_of c).
Proof.
  revert t s evaluations; induction fuel as [|fuel IH]; intros t s evaluations; cbn [execute_loop]; [done|].
  destruct (execute_step _ _ _ _ _ _ _ _) as [s1 [[c1|e]|e]] eqn:E; [|by apply IH|done].
  intros [= <- <-]. by eapply execute_step_outcome.
Qed.

(** Every outcome an execution returns - committed now, replayed,
    or the winner of a race - is authoritative for the command that asked: its
    marker is under this authority, context and operation, agrees with the
    whole normalised command identity, carries an integral receipt, and
    available details are bound to it. *)
Theorem returned_outcome_is_authoritative fuel x codec handler env type_name metadata (s s' : S) c :
  execute_completed (R := R) fuel x codec handler env type_name metadata s = Some (s', Ok c) →
  ∃ normal key, execution_metadata type_name metadata = Ok normal ∧ outcome_key normal = Ok key
    ∧ authoritative key normal (commit_outcome_of c).
Proof.
  unfold execute_completed. destruct (execution_metadata _ _) as [md|]; [|done].
  destruct (match cem_outcome_evidence md with Some _ => _ | None => _ end); [|done].
  intros (key & ? & ?)%execute_loop_outcome. by exists md, key.
Qed.

(** C13 (functional). Simulation is execution without persistence: it reports
    exactly the participants an evaluation of the same handler on the same
    histories would persist, and as read guards those without events. *)
Theorem simulation_predicts_evaluation x (codec : RejectionCodec R) handler history type_name metadata o :
  simulate x handler history type_name metadata = Ok o →
  ∃ normal, execution_metadata type_name metadata = Ok normal
    ∧ match sim_decision o with
      | DecisionAccepted => ∃ participants,
          evaluate x codec handler history normal = Ok (participants, None)
          ∧ sim_participants o = map simulated_participant participants
      | DecisionRejected rejection =>
          ∀ participants encoded, evaluate x codec handler history normal = Ok (participants, encoded) →
          sim_participants o = map simulated_participant participants
          ∧ Forall (λ p, cp_events p = []) participants
          ∧ map_err ErrCodec (rc_encode rejection) = ok_or encoded (ErrCodec (mkCodecError EncodingFailed ""))
      end.
Proof.
  unfold simulate, evaluate. intros H. guards.
  match goal with E : execution_metadata _ _ = Ok ?md |- _ => exists md end. split; [done|].
  destruct (handler _ _ _) as [[decision execution] trackers].
  destruct decision as [decision|]; [|done]. cbn [map_err rbind] in *.
  destruct decision as [|rejection].
  - destruct (finish execution trackers) as [ps|]; [|done]. cbn [rmap map_err rbind] in *.
    guards. cbn [sim_decision sim_participants]. eauto.
  - guards. cbn [sim_decision sim_participants]. intros participants encoded Hev. guards.
    match goal with H : (_, _) = (_, _) |- _ => injection H as <- <- | _ => idtac end. subst.
    match goal with H : rejected_simulation_participants _ _ = Ok _, H' : finish_rejected _ _ = Ok _ |- _ =>
      rename H into Hsim; rename H' into Hfin end.
    unfold rejected_simulation_participants, finish_rejected in *. apply try_map_Ok in Hsim, Hfin.
    split_and!.
    + clear -Hsim Hfin. revert participants Hfin.
      induction Hsim as [|p q ps qs Hp _ IH]; intros participants Hfin; [by inversion Hfin|].
      inversion Hfin; subst. guards. subst. cbn [map]. f_equal. by apply IH.
    + clear -Hfin. induction Hfin as [|p q ps qs Hp _ IH]; [done|]. guards. subst. by constructor.
    + match goal with H : rc_encode _ = Ok _ |- _ => by rewrite H end.
Qed.

(** ** Handles that were lost *)

(** The error of a participant whose handle escaped the attempt - it was never
    dropped - or was dropped after its tracked instance was replaced by another *)
Inductive lost_handle (ts : Trackers) (p : EnlistedParticipant) : CommandExecutionError → Prop :=
| handle_outlived :
    pt_finalization (tracker_at ts (ep_tracker p)) = None → lost_handle ts p aggregate_outlived_handler
| handle_replaced m (l : LoadedAggregate m) dropped_in :
    la_participant l = ep_tracker p → is_Some (dropped_in !! ep_tracker p) →
    is_observed_by (la_aggregate l) (la_participant l) = false →
    tracker_at ts (ep_tracker p) = tracker_at (drop_loaded l dropped_in) (ep_tracker p) →
    lost_handle ts p aggregate_tracking_lost.

Lemma lost_handle_finalization ts p e :
  lost_handle ts p e → take_finalization (tracker_at ts (ep_tracker p)) = Err e.
Proof.
  intros [Hn|m l dropped Hl [t Ht] Ho ->]; unfold take_finalization; [by rewrite Hn|].
  unfold tracker_at, drop_loaded, finalize. by rewrite Hl, list_lookup_alter_eq, Ht, <- Hl, Ho.
Qed.

(** One failing element fails the whole, with its error when it is the only one. *)
Lemma try_map_fails {A B E} (f : A → result B E) l x e :
  x ∈ l → f x = Err e →
  is_err (try_map f l) = true ∧ ((∀ y, y ∈ l → y = x ∨ is_ok (f y) = true) → try_map f l = Err e).
Proof.
  intros Hin Hx. induction l as [|y l IH]; [by apply elem_of_nil in Hin|]. cbn [try_map].
  destruct (f y) as [v|e'] eqn:Ey; cbn [rbind].
  - apply elem_of_cons in Hin as [->|Hin]; [congruence|]. destruct (IH Hin) as [IH1 IH2].
    split; [by destruct (try_map f l)|]. intros Hall. rewrite IH2; [done|]. intros z Hz. apply Hall. by right.
  - split; [done|]. intros Hall. destruct (Hall y ltac:(left)) as [->|Hy]; [congruence|by rewrite Ey in Hy].
Qed.

Lemma collected_is_discarded ts p : is_ok (collect ts p) = true → is_ok (discard_events ts p) = true.
Proof. unfold collect, collect_tracker, discard_events. by destruct (take_finalization _). Qed.

(** C12 (error). An attempt that lost a handle persists no decision: whether the
    handler accepts or rejects, its evaluation fails, and with the error of the
    handle - it outlived the handler, or its tracked instance was replaced - when
    the other handles were returned; a simulation of the rejection fails alike. *)
Theorem lost_handles_are_refused x (codec : RejectionCodec R) handler history metadata decision execution ts p e :
  handler history (CommandExecution_with_codecs metadata (x_codecs x)) [] = (decision, execution, ts) →
  p ∈ ce_participants execution → lost_handle ts p e →
  is_err (evaluate x codec handler history metadata) = true
  ∧ is_err (rejected_simulation_participants execution ts) = true
  ∧ ((∀ q, q ∈ ce_participants execution → q = p ∨ is_ok (collect ts q) = true) →
     is_ok decision = true → evaluate x codec handler history metadata = Err e).
Proof.
  intros Hh Hp Hl%lost_handle_finalization. unfold evaluate. rewrite Hh.
  assert (collect ts p = Err e) as Hc by (unfold collect, collect_tracker; by rewrite Hl).
  assert (discard_events ts p = Err e) as Hd by (unfold discard_events; by rewrite Hl).
  destruct (try_map_fails (collect ts) _ p e Hp Hc) as [F1 F2].
  pose proof (try_map_fails (λ p, let? _ := discard_events ts p in
    Ok (mkCollected (ep_stream_id p) (ep_base_version p) [])) _ p e Hp ltac:(cbv beta; by rewrite Hd)) as [R1 R2].
  pose proof (try_map_fails (λ p, let? _ := discard_events ts p in
    Ok (mkSimulated (ep_stream_id p) (ep_base_version p) [] true)) _ p e Hp ltac:(cbv beta; by rewrite Hd)) as [S1 _].
  fold (finish execution ts) in F1, F2. fold (finish_rejected execution ts) in R1, R2. split_and!; [|exact S1|].
  - destruct decision as [[|rejection]|]; cbn [rbind]; [..|done].
    + by destruct (finish execution ts).
    + by destruct (finish_rejected execution ts).
  - intros Hall Hok. destruct decision as [[|rejection]|]; [..|done]; cbn [rbind].
    + by rewrite F2.
    + rewrite R2; [done|]. intros q Hq. destruct (Hall q Hq) as [->|H%collected_is_discarded]; [by left|right].
      by destruct (discard_events ts q).
Qed.

End Facts.
