(* ===== verification/ExecutorSafety.v ===== *)
(** * ExecutorSafety: the executor over the in-memory store, while other callers
    use the store too - durable outcomes, one evaluation per completed command,
    and returned events that are the recorded ones. *)

From S2P Require Export Executor.

Section Transaction.
Context `{SHA : Sha256}.

Lemma prepared_batch metadata stream events b :
  prepare_batch_for_stream metadata stream events = Ok (Some b) →
  b = mkEventBatch (cem_actor metadata) (derive_commit_id stream (cem_operation_id metadata))
        (cem_operation_id metadata) (cem_operation_fingerprint metadata) events
        (cem_correlation_id metadata) (cem_causation_id metadata)
  ∧ batch_ok b.
Proof.
  unfold prepare_batch_for_stream. destruct (len events =? 0); [done|]. intros H. guards.
  match goal with H : EventBatch_new _ _ _ _ = Ok _ |- _ => apply EventBatch_new_Ok in H as [-> [H1 H2 H3]] end.
  match goal with H : Some _ = Some _ |- _ => injection H as <- | _ => idtac end.
  subst b. split.
  - by destruct (cem_correlation_id metadata), (cem_causation_id metadata), (cem_actor metadata).
  - by destruct (cem_correlation_id metadata), (cem_causation_id metadata), (cem_actor metadata).
Qed.

(** The executor's transaction, as a record *)
Lemma decision_transaction_Ok metadata participants rejection t :
  decision_transaction metadata participants rejection = Ok t →
  ∃ ps context, try_map (prepare_participant metadata) participants = Ok ps
    ∧ cem_bounded_context metadata = Some context
    ∧ t = mkTransaction (cem_actor metadata) (cem_security_scope metadata)
            (Some (CommandCompletion_new (cem_outcome_evidence metadata) rejection))
            (Some context) (cem_operation_id metadata) (cem_operation_fingerprint metadata)
            (cem_correlation_id metadata) (cem_causation_id metadata) ps.
Proof.
  unfold decision_transaction, required_bounded_context. intros H. guards.
  do 2 eexists. split_and!; [done..|].
  by destruct (cem_correlation_id metadata), (cem_causation_id metadata), (cem_security_scope metadata),
    (cem_actor metadata).
Qed.

Lemma decision_participants metadata participants ps p b :
  try_map (prepare_participant metadata) participants = Ok ps → p ∈ ps → tp_batch p = Some b →
  ∃ c, c ∈ participants ∧ tp_stream_id p = cp_stream_id c
    ∧ tp_expected_version p = expected_version (cp_base_version c)
    ∧ prepare_batch_for_stream metadata (cp_stream_id c) (cp_events c) = Ok (Some b).
Proof.
  intros H%try_map_Ok Hp Hb. apply list_elem_of_lookup in Hp as (i & Hi).
  destruct (Forall2_lookup_r _ _ _ _ _ H Hi) as (c & Hc & Hpc). unfold prepare_participant in Hpc. guards.
  cbn [tp_batch tp_stream_id tp_expected_version] in *. subst. exists c.
  split_and!; try done. by eapply list_elem_of_lookup_2.
Qed.

Lemma decision_transaction_ok metadata participants rejection t :
  actor_opt_ok (cem_actor metadata) → decision_transaction metadata participants rejection = Ok t →
  transaction_ok t ∧ tx_key t = (cem_bounded_context metadata, cem_operation_id metadata).
Proof.
  intros Ha (ps & context & Hps & Hc & ->)%decision_transaction_Ok. split; [split|].
  - intros p b Hp Hb. destruct (decision_participants _ _ _ _ _ Hps Hp Hb) as (c & _ & _ & _ & Hb').
    by apply prepared_batch in Hb' as [_ ?].
  - done.
  - unfold tx_key; cbn. by rewrite Hc.
Qed.

(** The executor never builds a transaction the store refuses for
    its shape: every participant expects exactly the version it was loaded at,
    its batch carries the identity, correlation, causation and actor of the
    transaction and the derived commit identity, and the completion carries the
    command's evidence and decision. *)
Theorem executor_transaction_is_consistent metadata participants rejection t :
  decision_transaction metadata participants rejection = Ok t →
  tx_completion t = Some (CommandCompletion_new (cem_outcome_evidence metadata) rejection)
  ∧ tx_bounded_context t = cem_bounded_context metadata
  ∧ Forall2 (λ c p,
      tp_stream_id p = cp_stream_id c
      ∧ expected_base (tp_expected_version p) = Ok (cp_base_version c)
      ∧ match tp_batch p with
        | None => cp_events c = []
        | Some b => batch_ok b ∧ eb_events b = cp_events c
            ∧ eb_commit_id b = derive_commit_id (tp_stream_id p) (tx_operation_id t)
            ∧ (eb_operation_id b, eb_operation_fingerprint b, eb_correlation_id b, eb_causation_id b, eb_actor b)
              = (tx_operation_id t, tx_operation_fingerprint t, tx_correlation_id t, tx_causation_id t, tx_actor t)
        end) participants (tx_participants t).
Proof.
  intros (ps & context & Hps & Hc & ->)%decision_transaction_Ok. rewrite Hc. split_and!; [done..|].
  cbn [tx_participants tx_operation_id tx_operation_fingerprint tx_correlation_id tx_causation_id tx_actor].
  apply try_map_Ok in Hps. eapply Forall2_impl; [exact Hps|]. intros c p Hp.
  unfold prepare_participant in Hp. guards. cbn [tp_stream_id tp_expected_version tp_batch].
  split_and!; [done| |].
  - unfold expected_version, expected_base. case_bool_decide as Hz; [by rewrite Hz|].
    by rewrite bool_decide_eq_false_2.
  - match goal with H : prepare_batch_for_stream _ _ _ = Ok ?x |- _ => destruct x as [b|]; rename H into Hb end.
    + apply prepared_batch in Hb as [-> Hok]. done.
    + unfold prepare_batch_for_stream in Hb. destruct (len (cp_events c) =? 0) eqn:E; [|by guards].
      bool_step. by apply len_0.
Qed.

End Transaction.

Section Safety.
Context `{SHA : Sha256} `{OJ : OutcomeJson} `{AG : Aggregates M} {R : Type}.
Context (debug_str : string → string) (st : InMemoryEventStore).
#[local] Instance memory_es : ExecutionStore State := memory_execution_store debug_str st.

(** The other callers use the store through its operations. *)
Definition well_behaved (env : Environment State) : Prop :=
  ∀ t s, rtc (mstep debug_str st) s (env_step env t s).

Definition stored_winner (s : State) (metadata : CommandExecutionMetadata) (m : OutcomeMarker) : Prop :=
  transactions s !! (cem_bounded_context metadata, cem_operation_id metadata) = Some (Scoped m).

(** Available details were decoded from bytes of the length and the digest that
    the marker holds. *)
Definition decoded_details (o : CompletedOutcome EncodedOutcomeDetails) : Prop :=
  ∀ d, co_details o = Available d → ∃ bytes, details_decode (mk_reference (co_marker o)) bytes = Ok d.

Definition stored_outcome (s : State) (metadata : CommandExecutionMetadata)
    (o : CompletedOutcome EncodedOutcomeDetails) : Prop :=
  stored_winner s metadata (co_marker o) ∧ decoded_details o.

Lemma resolve_loop_decoded r readers unavailable archive d :
  resolve_loop r readers unavailable archive = Ok (Available d) →
  ∃ bytes, details_decode r bytes = Ok d.
Proof.
  revert unavailable archive; induction readers as [|reader readers IH]; intros unavailable archive.
  - by destruct unavailable, archive.
  - cbn [resolve_loop]. destruct (reader r) as [[bytes| |]|[]]; try done; try apply IH.
    intros (d' & Hd & [= <-])%rmap_Ok. by exists bytes.
Qed.

Lemma resolve_marker_decoded v m o : resolve_marker debug_str st v m = Ok o → decoded_details o.
Proof.
  unfold resolve_marker, CompletedOutcome_new. intros H.
  destruct (details _ !! _) as [lifecycle|]; [|done].
  apply rbind_Ok in H as (resolved & Hr & (? & _ & [= <-])%map_err_Ok%rbind_Ok).
  intros d Hd. cbn [co_details co_marker] in *. subst resolved.
  destruct lifecycle; [|done]. by eapply resolve_loop_decoded.
Qed.

Lemma lookup_completed_stored i s metadata o :
  lookup_completed i s metadata = Ok (Some o) → stored_outcome s metadata o.
Proof.
  intros (key & Hkey & _ & Hl)%lookup_completed_Some. unfold outcome_key, required_bounded_context in Hkey.
  guards. unfold stored_outcome, stored_winner.
  match goal with H : cem_bounded_context _ = Some _ |- _ => rewrite H end.
  cbn [es_lookup_outcome memory_es memory_execution_store] in Hl. unfold lookup_outcome in Hl. guards.
  cbn [key_context key_operation] in *.
  destruct (transactions s !! _) as [[m|]|]; try done. guards.
  match goal with H : Completed _ = Completed _ |- _ => injection H as <- | _ => idtac end.
  match goal with H : resolve_marker _ _ _ _ = Ok _ |- _ =>
    pose proof (resolve_marker_decoded _ _ _ H); apply resolve_marker_Ok in H end. by subst.
Qed.

Lemma commit_outcome_decoded between s t s' c :
  commit_outcome debug_str st between s t = (s', Ok c) → decoded_details (commit_outcome_of c).
Proof.
  unfold commit_outcome. intros H. destruct (validate_completed_transaction t); [|done].
  destruct (append_transaction_inner st s t) as [[[[m|] replay] s1]|]; [|done..].
  injection H as <- H. guards.
  match goal with H : resolve_marker _ _ _ _ = Ok _ |- _ => apply resolve_marker_decoded in H end.
  by destruct replay.
Qed.

Lemma executor_append_step i s metadata participants rejection s' r :
  ims_maximum_events st <= usize_max → actor_opt_ok (cem_actor metadata) → state_ok st s →
  executor_append i s metadata participants rejection = (s', r) →
  rtc (mstep debug_str st) s s'
  ∧ ∀ c, r = Ok (PersistenceCompleted c) → stored_outcome s' metadata (commit_outcome_of c).
Proof.
  intros Hm Ha Hs H. unfold executor_append in H.
  destruct (decision_transaction _ _ _) as [t|] eqn:Et; [|by injection H as <- <-].
  destruct (decision_transaction_ok _ _ _ _ Ha Et) as [Ht Hkey].
  destruct (es_commit_outcome i s t) as [s1 committed] eqn:Ec. injection H as <- <-.
  cbn [es_commit_outcome memory_es memory_execution_store] in Ec. split.
  - apply rtc_once. replace s1 with (commit_outcome debug_str st i s t).1 by (by rewrite Ec).
    by constructor.
  - intros c Hc. unfold persistence_attempt in Hc. destruct committed as [c'|e]; [|by repeat case_match].
    injection Hc as ->. split; [|by eapply commit_outcome_decoded]. unfold stored_winner. rewrite <- Hkey.
    by apply (commit_outcome_Ok debug_str st i s t s1 c Hm Ht Hs).
Qed.

(** One iteration: it is a sequence of store operations, and an outcome it
    returns is stored. *)
Lemma execute_step_stored x codec handler env metadata t s s' evaluations r :
  ims_maximum_events st <= usize_max → actor_opt_ok (cem_actor metadata) → well_behaved env →
  state_ok st s →
  execute_step (M := M) (R := R) x codec handler env metadata t s evaluations = (s', r) →
  rtc (mstep debug_str st) s s'
  ∧ ∀ c, r = Ok (inl c) → stored_outcome s' metadata (commit_outcome_of c).
Proof.
  intros Hm Ha Henv Hs H. unfold execute_step in H.
  pose proof (Henv t s) as H1. destruct (msteps_ok _ _ _ _ Hm Hs H1) as [Hs1 _].
  set (s1 := env_step env t s) in *.
  destruct (lookup_completed _ s1 _) as [[o|]|e] eqn:El.
  { injection H as <- <-. split; [done|]. intros c [= <-]. by eapply lookup_completed_stored. }
  2: { by injection H as <- <-. }
  pose proof (Henv (t + 1)%nat s1) as H2. destruct (msteps_ok _ _ _ _ Hm Hs1 H2) as [Hs2 _].
  set (s2 := env_step env (t + 1) s1) in *.
  assert (rtc (mstep debug_str st) s s2) as H12 by (by etrans).
  destruct (es_begin_command s2); [|by injection H as <- <-].
  destruct (evaluate _ _ _ _ _) as [[participants rejection]|]; [|by injection H as <- <-].
  pose proof (Henv (t + 2)%nat s2) as H3. destruct (msteps_ok _ _ _ _ Hm Hs2 H3) as [Hs3 _].
  destruct (executor_append _ _ _ _ _) as [s3 attempt] eqn:Eap.
  destruct (executor_append_step _ _ _ _ _ _ _ Hm Ha Hs3 Eap) as [H4 Hst].
  destruct (msteps_ok _ _ _ _ Hm Hs3 H4) as [Hs4 _].
  assert (rtc (mstep debug_str st) s s3) as H14 by (etrans; [exact H12|]; by etrans).
  destruct attempt as [[outcome|error]|]; [..|by injection H as <- <-].
  { injection H as <- <-. split; [done|]. intros c Hc. guards. subst c. by apply Hst. }
  pose proof (Henv (t + 3)%nat s3) as H5. set (s4 := env_step env (t + 3) s3) in *.
  assert (rtc (mstep debug_str st) s s4) as H15 by (by etrans).
  destruct (lookup_completed _ s4 _) as [[o|]|e] eqn:El2.
  - injection H as <- <-. split; [done|]. intros c [= <-]. by eapply lookup_completed_stored.
  - destruct (negb _); [by injection H as <- <-|]. by destruct (x_policy _ _); injection H as <- <-.
  - by injection H as <- <-.
Qed.

Lemma execute_loop_stored fuel x codec handler env metadata t s s' evaluations r :
  ims_maximum_events st <= usize_max → actor_opt_ok (cem_actor metadata) → well_behaved env →
  state_ok st s →
  execute_loop (M := M) (R := R) fuel x codec handler env metadata t s evaluations = Some (s', r) →
  rtc (mstep debug_str st) s s'
  ∧ ∀ c, r = Ok c → stored_outcome s' metadata (commit_outcome_of c).
Proof.
  intros Hm Ha Henv. revert t s evaluations; induction fuel as [|fuel IH]; intros t s evaluations Hs; [done|].
  cbn [execute_loop]. destruct (execute_step _ _ _ _ _ _ _ _) as [s1 r1] eqn:E.
  destruct (execute_step_stored _ _ _ _ _ _ _ _ _ _ Hm Ha Henv Hs E) as [H1 Hst].
  destruct r1 as [[c|e]|e].
  - intros [= <- <-]. split; [done|]. intros c' [= <-]. by apply Hst.
  - intros H. destruct (IH _ _ _ (proj1 (msteps_ok _ _ _ _ Hm Hs H1)) H) as [H2 ?].
    split; [by etrans|done].
  - by intros [= <- <-].
Qed.

(** The normalised metadata keeps the actor, the context and the operation. *)
Lemma execution_metadata_keeps type_name metadata normal :
  execution_metadata type_name metadata = Ok normal →
  cem_actor normal = cem_actor metadata ∧ cem_bounded_context normal = cem_bounded_context metadata
  ∧ cem_operation_id normal = cem_operation_id metadata.
Proof.
  unfold execution_metadata, normalized. intros H. guards.
  unfold with_default_outcome_evidence. by destruct (cem_outcome_evidence metadata).
Qed.

Lemma execute_completed_stored fuel x codec handler env type_name metadata s s' r :
  ims_maximum_events st <= usize_max → actor_opt_ok (cem_actor metadata) → well_behaved env →
  state_ok st s →
  execute_completed (M := M) (R := R) fuel x codec handler env type_name metadata s = Some (s', r) →
  rtc (mstep debug_str st) s s'
  ∧ ∀ c, r = Ok c → stored_outcome s' metadata (commit_outcome_of c).
Proof.
  intros Hm Ha Henv Hs. unfold execute_completed.
  destruct (execution_metadata _ _) as [md|] eqn:Emd; [|by intros [= <- <-]].
  destruct (execution_metadata_keeps _ _ _ Emd) as (Hact & Hctx & Hop).
  destruct (match cem_outcome_evidence md with Some _ => _ | None => _ end); [|by intros [= <- <-]].
  intros H. unfold stored_outcome, stored_winner. rewrite <- Hctx, <- Hop.
  eapply execute_loop_stored; [done|by rewrite Hact|done..].
Qed.

(** C1 (safety). An execution only acts on the store through its operations,
    and whatever it returns as completed is durable: the marker is the stored
    winner of the operation, and its receipt's events are in the streams. *)
Theorem returned_outcome_is_durable fuel x codec handler env type_name metadata s s' r :
  ims_maximum_events st <= usize_max → actor_opt_ok (cem_actor metadata) → well_behaved env →
  reachable debug_str st s →
  execute_completed (M := M) (R := R) fuel x codec handler env type_name metadata s = Some (s', r) →
  reachable debug_str st s'
  ∧ ∀ c, r = Ok c → stored_winner s' metadata (co_marker (commit_outcome_of c))
      ∧ recorded s' (cem_operation_id metadata) (mk_integrity (co_marker (commit_outcome_of c))).
Proof.
  intros Hm Ha Henv Hr H. pose proof (reachable_ok _ _ _ Hm Hr) as Hs.
  destruct (execute_completed_stored _ _ _ _ _ _ _ _ _ _ Hm Ha Henv Hs H) as [Hst Hw].
  split; [by unfold reachable in *; etrans|]. intros c Hc. destruct (Hw c Hc) as [Hwin _]. split; [done|].
  destruct (msteps_ok _ _ _ _ Hm Hs Hst) as [Hs' _].
  by destruct (so_stored _ _ Hs' _ _ _ Hwin) as (? & _ & _ & _ & ?).
Qed.

(** A lookup on a state that knows the operation never says that it is missing. *)
Lemma lookup_completed_known i s metadata m :
  stored_winner s metadata m →
  match lookup_completed i s metadata with
  | Ok (Some o) => co_marker o = m
  | Ok None => False
  | Err _ => True
  end.
Proof.
  intros Hw. destruct (lookup_completed i s metadata) as [[o|]|] eqn:E; [|exfalso|done].
  - apply lookup_completed_stored in E as [E _]. unfold stored_winner in *. congruence.
  - unfold lookup_completed, outcome_key, required_bounded_context in E. guards.
    match goal with H : match ?f with _ => _ end = _ |- _ => destruct f end; [|by guards]. subst.
    match goal with H : es_lookup_outcome _ _ _ = Ok _ |- _ =>
      cbn [es_lookup_outcome memory_es memory_execution_store] in H; unfold lookup_outcome in H end.
    guards. unfold stored_winner in Hw.
    match goal with H : cem_bounded_context _ = Some _ |- _ => rewrite H in Hw end.
    cbn [key_context key_operation] in *. rewrite Hw in *. by guards.
Qed.

(** C2 (safety). A completed command is never evaluated again: at any later
    state, an execution of the same operation - with any handler, codec and
    configuration - writes nothing and does not depend on its handler, and when
    it returns an outcome, that is an exact replay of the winner. *)
Theorem completed_command_is_not_reevaluated
    fuel x codec handler env type_name metadata s s1 c s2 fuel' x' codec' env' type_name' metadata' :
  ims_maximum_events st <= usize_max → actor_opt_ok (cem_actor metadata) → well_behaved env →
  reachable debug_str st s →
  execute_completed (M := M) (R := R) fuel x codec handler env type_name metadata s = Some (s1, Ok c) →
  rtc (mstep debug_str st) s1 s2 → well_behaved env' →
  (cem_bounded_context metadata', cem_operation_id metadata')
  = (cem_bounded_context metadata, cem_operation_id metadata) →
  ∃ s3 r, (s3 = s2 ∨ s3 = env_step env' 0 s2)
    ∧ (∀ handler', execute_completed (M := M) (R := R) (S fuel') x' codec' handler' env' type_name' metadata' s2
                   = Some (s3, r))
    ∧ ∀ c', r = Ok c' → commit_is_exact_replay c' = true
                        ∧ co_marker (commit_outcome_of c') = co_marker (commit_outcome_of c).
Proof.
  intros Hm Ha Henv Hr H H12 Henv' Hkey. pose proof (reachable_ok _ _ _ Hm Hr) as Hs.
  destruct (execute_completed_stored _ _ _ _ _ _ _ _ _ _ Hm Ha Henv Hs H) as [Hst Hw].
  destruct (Hw c eq_refl) as [Hwin _]. destruct (msteps_ok _ _ _ _ Hm Hs Hst) as [Hs1 _].
  assert (rtc (mstep debug_str st) s1 (env_step env' 0 s2)) as H13 by (etrans; [exact H12|apply Henv']).
  destruct (msteps_ok _ _ _ _ Hm Hs1 H13) as [_ [Hg _]].
  unfold execute_completed. destruct (execution_metadata type_name' metadata') as [md|e] eqn:Emd.
  2: { exists s2, (Err e). split_and!; [by left|done|done]. }
  destruct (match cem_outcome_evidence md with Some _ => _ | None => _ end) as [u|e].
  2: { exists s2, (Err e). split_and!; [by left|done|done]. }
  destruct (execution_metadata_keeps _ _ _ Emd) as (_ & Hctx & Hop).
  assert (stored_winner (env_step env' 0 s2) md (co_marker (commit_outcome_of c))) as Hw'.
  { unfold stored_winner in *. rewrite Hctx, Hop, Hkey. eapply lookup_weaken; [exact Hwin|apply Hg]. }
  pose proof (lookup_completed_known (env_interference env' 0) _ _ _ Hw') as Hl.
  cbn [execute_loop]. unfold execute_step.
  destruct (lookup_completed _ (env_step env' 0 s2) md) as [[o|]|e]; [|done|].
  - eexists _, _. split_and!; [by right|done|]. intros c' [= <-]. done.
  - eexists _, _. split_and!; [by right|done|]. done.
Qed.

(** Details decode against a reference only with the decision it names. *)
Lemma details_decode_decision r bytes d :
  details_decode r bytes = Ok d →
  is_some (details_rejection d) = bool_decide (ref_decision r = Rejected).
Proof.
  unfold details_decode. intros H. guards. destruct v as [length body]. guards.
  destruct v as [header payload]. guards. subst.
  match goal with H : Bool.eqb _ _ = true |- _ => by apply eqb_prop in H end.
Qed.

(** What an inline outcome shows of its details: the receipt of the marker, and
    a rejection exactly when the marker's decision is one. *)
Lemma to_inline_evidence o inline :
  decoded_details o → to_inline o = Ok inline → tr_completion (mk_integrity (co_marker o)) = None →
  receipt_events (inline_record inline) = receipt_events (mk_integrity (co_marker o))
  ∧ ∃ bytes d, details_decode (mk_reference (co_marker o)) bytes = Ok d
      ∧ inline_rejection inline = details_rejection d
      ∧ tr_completion (inline_record inline) = ed_completion d
      ∧ is_some (details_rejection d) = bool_decide (marker_decision (co_marker o) = Rejected).
Proof.
  unfold to_inline, available. intros Hd H Hn. apply rbind_Ok in H as (? & _ & H).
  apply rbind_Ok in H as (d & Ha & [= <-]). destruct (co_details o) as [d'| | |] eqn:Ed; try done.
  injection Ha as ->. destruct (Hd d Ed) as [bytes Hb]. unfold inline_rejection, details_rejection.
  cbn [inline_record]. split; [by destruct (ed_completion d)|]. exists bytes, d. split; [done|].
  assert (tr_completion (match ed_completion d with
    | Some completion => tr_with_completion (mk_integrity (co_marker o)) completion
    | None => mk_integrity (co_marker o) end) = ed_completion d) as Ec by (by destruct (ed_completion d)).
  rewrite Ec. split_and!; [done..|].
  by apply (details_decode_decision _ _ _ Hb).
Qed.

(** A replayed outcome carries the events of the receipt it was completed with,
    and nothing else is a rejection than what the codec decodes. *)
Lemma completed_replay_Ok (codec : RejectionCodec R) metadata o replay outcome :
  decoded_details o → tr_completion (mk_integrity (co_marker o)) = None →
  completed_replay (RC := codec) metadata o replay = Ok outcome →
  match outcome with
  | OutcomeAccepted r =>
    marker_decision (co_marker o) = Accepted
    ∧ command_receipt_events r = receipt_events (mk_integrity (co_marker o))
  | OutcomeRejected rejection =>
    marker_decision (co_marker o) = Rejected ∧ receipt_events (mk_integrity (co_marker o)) = []
    ∧ ∃ bytes d encoded, details_decode (mk_reference (co_marker o)) bytes = Ok d
        ∧ details_rejection d = Some encoded ∧ rc_decode encoded = Ok rejection
  end.
Proof.
  intros Hd Hn H. unfold completed_replay in H. apply rbind_Ok in H as (? & _ & H).
  apply rbind_Ok in H as (inline & Hin%map_err_Ok & H). apply rbind_Ok in H as (receipt & Hr & H).
  destruct (to_inline_evidence _ _ Hd Hin Hn) as (Hev & bytes & d & Hb & Hrej & Hc & Hdec).
  rewrite <- Hev. apply rbind_Ok in H as ([] & Hcheck & H). rewrite Hrej in H. rewrite Hc in Hcheck.
  destruct (details_rejection d) as [encoded|] eqn:Er; cbn [is_some] in Hdec.
  - apply rmap_Ok in H as (rejection & Hd'%map_err_Ok & <-). symmetry in Hdec.
    apply bool_decide_eq_true in Hdec. split; [done|]. split; [|by exists bytes, d, encoded].
    unfold details_rejection in Er. destruct (ed_completion d) as [completion|]; [|done]. cbn in Er.
    rewrite Er in Hcheck. cbn [is_some andb] in Hcheck. guards. by apply len_0.
  - symmetry in Hdec. apply bool_decide_eq_false in Hdec. injection H as <-.
    split; [by destruct (marker_decision (co_marker o))|].
    unfold transaction_replay in Hr. guards. subst.
    destruct replay; [done|]. destruct (len _ =? 0) eqn:El; [|done].
    bool_step. apply len_0 in El. by rewrite El.
Qed.

(** C7 (safety). What [execute] returns is what the store holds of its operation:
    the marker that won it, whose receipt's events are in the streams. An
    acceptance, new or replayed, is returned exactly for an accepting marker and
    carries exactly the events of its receipt; a rejection for a rejecting one,
    whose receipt has none, and its value is what the codec decodes from the
    evidence that has the length and the digest the marker holds. *)
Theorem returned_decision_is_recorded fuel x (codec : RejectionCodec R) handler env type_name metadata s s' o :
  ims_maximum_events st <= usize_max → actor_opt_ok (cem_actor metadata) → well_behaved env →
  reachable debug_str st s →
  execute_with_rejection_codec (M := M) fuel x codec handler env type_name metadata s = Some (s', Ok o) →
  ∃ m, stored_winner s' metadata m ∧ recorded s' (cem_operation_id metadata) (mk_integrity m)
    ∧ match o with
      | OutcomeAccepted r =>
        marker_decision m = Accepted ∧ command_receipt_events r = receipt_events (mk_integrity m)
      | OutcomeRejected rejection =>
        marker_decision m = Rejected ∧ receipt_events (mk_integrity m) = []
        ∧ ∃ bytes d encoded, details_decode (mk_reference m) bytes = Ok d
            ∧ details_rejection d = Some encoded ∧ rc_decode encoded = Ok rejection
      end.
Proof.
  intros Hm Ha Henv Hr. unfold execute_with_rejection_codec.
  destruct (execution_metadata type_name metadata) as [md|] eqn:Emd; [|done].
  destruct (execution_metadata_keeps _ _ _ Emd) as (Hact & Hctx & Hop).
  destruct (execute_completed _ _ _ _ _ _ _ _) as [[s1 completed]|] eqn:E; [|done].
  intros [= <- Ho]. pose proof (reachable_ok _ _ _ Hm Hr) as Hs.
  rewrite <- Hact in Ha.
  destruct (execute_completed_stored _ _ _ _ _ _ _ _ _ _ Hm Ha Henv Hs E) as [Hst Hw].
  destruct completed as [c|]; [|done]. cbn [rbind] in Ho. destruct (Hw c eq_refl) as [Hwin Hd].
  destruct (msteps_ok _ _ _ _ Hm Hs Hst) as [Hs1 _].
  destruct (so_stored _ _ Hs1 _ _ _ Hwin) as (? & _ & _ & _ & Hrec). rewrite Hop in Hrec.
  exists (co_marker (commit_outcome_of c)). split_and!; [|done|].
  - unfold stored_winner in *. by rewrite Hctx, Hop in Hwin.
  - eapply completed_replay_Ok; [done|apply Hrec|done].
Qed.

End Safety.

(** ** Witnesses *)

Section Witnesses.
#[local] Existing Instances tail_digest sample_json sample_counter sample_counted.
#[local] Instance sample_es : ExecutionStore State := memory_execution_store id sample_store.

(** A handler that loads one order, raises the counts and decides. *)
Definition sample_handler (raised : list N) (decision : CommandDecision string) : Handler unit string :=
  λ history ce ts,
    match execution_load tt (EV := sample_counted) (history 0%nat) ce ts "o-1" with
    | Err e => (Err e, ce, ts)
    | Ok (l, ce, ts) =>
      let (a, ts) := raise_all (la_aggregate l) raised ts in
      (Ok decision, ce, drop_loaded (mkLoaded a (la_base_version l) (la_participant l)) ts)
    end.
Definition sample_rejections : RejectionCodec string :=
  JsonRejectionCodec (H := json_codec (Json := index_json string)) "orders" 1.
Definition sample_env : Environment State :=
  mkEnvironment _ _ (λ _ s, s) (λ _, quiet) (λ _ s _, s).
Definition sample_executor : CommandExecutor unit := with_max_conflict_retries CommandExecutor_new 1.

Definition sample_run (raised : list N) (decision : CommandDecision string) (s : State) :=
  execute_completed 2 sample_executor sample_rejections (sample_handler raised decision) sample_env
    "Place" sample_metadata s.

Lemma sample_actor_ok : actor_opt_ok (cem_actor sample_metadata).
Proof. intros a [=]. Qed.

Lemma sample_env_behaves : well_behaved id sample_store sample_env.
Proof. intros t s. apply rtc_refl. Qed.

Lemma bounded_execution_terminates_witness : is_Some (sample_run [4; 5] DecisionAccepted State_default).
Proof.
  exact (bounded_execution_terminates 1 sample_executor sample_rejections
    (sample_handler [4; 5] DecisionAccepted) sample_env "Place" sample_metadata State_default eq_refl eq_refl).
Defined.

Lemma sample_run_ok :
  match sample_run [4; 5] DecisionAccepted State_default with
  | Some (_, Ok c) => negb (commit_is_exact_replay c)
  | _ => false
  end = true.
Proof. by vm_compute. Qed.

Lemma returned_outcome_is_authoritative_witness :
  match sample_run [4; 5] DecisionAccepted State_default with
  | Some (_, Ok c) => ∃ key, ref_key (mk_reference (co_marker (commit_outcome_of c))) = key
  | _ => False
  end.
Proof.
  pose proof sample_run_ok as Hok.
  destruct (sample_run [4; 5] DecisionAccepted State_default) as [[s' [c|]]|] eqn:E; [|done..].
  destruct (returned_outcome_is_authoritative 2 sample_executor sample_rejections
    (sample_handler [4; 5] DecisionAccepted) sample_env "Place" sample_metadata State_default s' c E) as (normal & key & _ & _ & Hau).
  exists key. apply Hau.
Defined.

Lemma simulation_predicts_evaluation_witness :
  match simulate sample_executor (sample_handler [] (DecisionRejected "sold out"))
          (λ _ stream, Ok (load State_default stream)) "Place" sample_metadata with
  | Ok o => ∃ normal, execution_metadata "Place" sample_metadata = Ok normal
  | Err _ => False
  end.
Proof.
  destruct (simulate _ _ _ _ _) as [o|] eqn:E.
  - destruct (simulation_predicts_evaluation _ sample_rejections _ _ _ _ _ E) as (normal & H & _).
    by exists normal.
  - exfalso. assert (is_ok (simulate sample_executor (sample_handler [] (DecisionRejected "sold out"))
      (λ _ stream, Ok (load State_default stream)) "Place" sample_metadata) = true) as H by (by vm_compute).
    by rewrite E in H.
Defined.

Lemma executor_transaction_is_consistent_witness :
  match decision_transaction sample_metadata [mkCollected sample_stream version_zero []] None with
  | Ok t => tx_bounded_context t = Some sample_context
  | Err _ => False
  end.
Proof.
  destruct (decision_transaction _ _ _) as [t|] eqn:E; [|exfalso; revert E; by vm_compute].
  exact (proj1 (proj2 (executor_transaction_is_consistent _ _ _ _ E))).
Defined.

Lemma returned_outcome_is_durable_witness :
  match sample_run [4; 5] DecisionAccepted State_default with
  | Some (s', Ok c) => recorded s' sample_operation (mk_integrity (co_marker (commit_outcome_of c)))
  | _ => False
  end.
Proof.
  pose proof sample_run_ok as Hok.
  destruct (sample_run [4; 5] DecisionAccepted State_default) as [[s' [c|]]|] eqn:E; [|done..].
  exact (proj2 (proj2 (returned_outcome_is_durable id sample_store 2 sample_executor sample_rejections
    (sample_handler [4; 5] DecisionAccepted) sample_env "Place" sample_metadata State_default s' (Ok c)
    ltac:(done) sample_actor_ok sample_env_behaves (rtc_refl _ _) E) c eq_refl)).
Defined.

Lemma completed_command_is_not_reevaluated_witness :
  match sample_run [4; 5] DecisionAccepted State_default with
  | Some (s1, Ok c) => ∃ r, ∀ decision, sample_run [6] decision s1 = Some (s1, r)
  | _ => False
  end.
Proof.
  pose proof sample_run_ok as Hok.
  destruct (sample_run [4; 5] DecisionAccepted State_default) as [[s' [c|]]|] eqn:E; [|done..].
  destruct (completed_command_is_not_reevaluated id sample_store 2 sample_executor sample_rejections
    (sample_handler [4; 5] DecisionAccepted) sample_env "Place" sample_metadata State_default s' c s' 1
    sample_executor sample_rejections sample_env "Place" sample_metadata ltac:(done) sample_actor_ok
    sample_env_behaves
    (rtc_refl _ _) E (rtc_refl _ _) sample_env_behaves eq_refl) as (s3 & r & Hs3 & H & _).
  exists r. intros decision. assert (s3 = s') as <- by (by destruct Hs3). apply H.
Defined.

Lemma returned_decision_is_recorded_witness :
  match execute_with_rejection_codec 2 sample_executor sample_rejections
          (sample_handler [] (DecisionRejected "sold out")) sample_env "Place" sample_metadata State_default with
  | Some (s', Ok o) => ∃ m, stored_winner s' sample_metadata m ∧ recorded s' sample_operation (mk_integrity m)
  | _ => False
  end.
Proof.
  destruct (execute_with_rejection_codec 2 _ _ _ _ _ _ _) as [[s' [o|]]|] eqn:E.
  - destruct (returned_decision_is_recorded id sample_store 2 sample_executor sample_rejections
      (sample_handler [] (DecisionRejected "sold out")) sample_env "Place" sample_metadata State_default s' o
      ltac:(done) sample_actor_ok sample_env_behaves (rtc_refl _ _) E) as (m & Hw & H & _).
    exact (ex_intro _ m (conj Hw H)).
  - exfalso. assert (match execute_with_rejection_codec 2 sample_executor sample_rejections
      (sample_handler [] (DecisionRejected "sold out")) sample_env "Place" sample_metadata State_default with
      Some (_, r) => is_ok r | None => false end = true) as H by (by vm_compute). by rewrite E in H.
  - exfalso. assert (is_some (execute_with_rejection_codec 2 sample_executor sample_rejections
      (sample_handler [] (DecisionRejected "sold out")) sample_env "Place" sample_metadata State_default)
      = true) as H by (by vm_compute). by rewrite E in H.
Defined.

(** A handler that keeps its handle and rejects *)
Definition keeping_handler : Handler unit string :=
  λ history ce ts,
    match execution_load tt (EV := sample_counted) (history 0%nat) ce ts "o-1" with
    | Err e => (Err e, ce, ts)
    | Ok (l, ce, ts) => (Ok (DecisionRejected "sold out"), ce, ts)
    end.

Definition keeping_attempt :=
  keeping_handler (λ _ stream, Ok (load State_default stream))
    (CommandExecution_with_codecs sample_metadata (x_codecs sample_executor)) [].

Lemma keeping_attempt_loaded : match keeping_attempt with (Ok _, _, _) => true | _ => false end = true.
Proof. by vm_compute. Qed.

Lemma lost_handles_are_refused_witness :
  is_err (evaluate sample_executor sample_rejections keeping_handler (λ _ stream, Ok (load State_default stream))
            sample_metadata) = true.
Proof.
  pose proof keeping_attempt_loaded as Hok.
  destruct keeping_attempt as [[decision ce] ts] eqn:E. pose proof E as E'.
  unfold keeping_attempt, keeping_handler in E'.
  destruct (execution_load _ _ _ _ _) as [[[l ce'] ts']|] eqn:El; injection E' as <- <- <-; [|discriminate Hok].
  apply execution_load_Ok in El as (stream & loaded & ? & ? & _ & _ & _ & _ & _ & _ & _ & _ & _ & _ & _ & Hce & Hts).
  refine (proj1 (lost_handles_are_refused sample_executor sample_rejections keeping_handler _
    sample_metadata _ _ _ (mkEnlisted stream (history_version loaded) 0) aggregate_outlived_handler E _ _)).
  - rewrite Hce. apply elem_of_app. right. by apply list_elem_of_singleton.
  - rewrite Hts. by apply handle_outlived.
Defined.

End Witnesses.
