(* ===== verification/CommandMessage.v ===== *)
(** * CommandMessage: routed and encoded commands, their derived identities,
    and the validation a message undergoes before it is processed
    (crates/rostfrei-runtime/src/command_bus.rs, with the authorization errors of
    command_service.rs). *)

From S2P Require Export Response Executor.

Definition INVALID_COMMAND_CODE : string := "rostfrei.command.invalid".
Definition INVALID_PAYLOAD_CODE : string := "rostfrei.command.invalid-payload".
Definition UNKNOWN_COMMAND_CODE : string := "rostfrei.command.unknown".
Definition OPERATION_CONFLICT_CODE : string := "rostfrei.operation.identity-conflict".

(** ** Errors *)

Inductive AuthorizationError := Unauthenticated | Denied | AuthorizationUnavailable | AuthorizationMisconfigured.

#[global] Instance AuthorizationError_eq_dec : EqDecision AuthorizationError.
Proof. solve_decision. Defined.

Definition AuthorizationError_display (e : AuthorizationError) : string :=
  match e with
  | Unauthenticated => "authentication is required"
  | Denied => "command access denied"
  | AuthorizationUnavailable => "authorization provider unavailable"
  | AuthorizationMisconfigured => "authorization policy misconfigured"
  end.

Inductive CommandProcessorErrorKind :=
| ProcessorAuthorization | ProcessorIdentityConflict | ProcessorDetailsExpired
| ProcessorDetailsUnavailable | ProcessorDetailsBlocked | ProcessorInvalidMessage
| ProcessorUnavailable | ProcessorInvalidConfiguration | ProcessorExecutionFailed.

#[global] Instance CommandProcessorErrorKind_eq_dec : EqDecision CommandProcessorErrorKind.
Proof. solve_decision. Defined.

Record CommandProcessorError := mkProcessorError {
  cpe_authorization : option AuthorizationError;
  cpe_rejected_outcome_persistence_failed : bool;
  cpe_kind : CommandProcessorErrorKind;
  cpe_message : string;
  cpe_execution_failure : option ExecutionFailure;
}.

Definition CommandProcessorError_new (kind : CommandProcessorErrorKind) (message : string)
  : CommandProcessorError :=
  mkProcessorError None false kind message
    (if bool_decide (kind = ProcessorInvalidConfiguration)
     then Some (FailureProcessor InvalidConfiguration) else None).

Definition invalid_message (message : string) : CommandProcessorError :=
  CommandProcessorError_new ProcessorInvalidMessage message.

(** [Display] of the error is its message. *)
Definition CommandProcessorError_display (e : CommandProcessorError) : string := cpe_message e.

Definition authorization_unavailable (e : option AuthorizationError) : bool :=
  bool_decide (e = Some AuthorizationUnavailable).

Definition processor_error_is_retryable (e : CommandProcessorError) : bool :=
  bool_decide (cpe_kind e = ProcessorUnavailable)
  || bool_decide (cpe_kind e = ProcessorDetailsUnavailable)
  || authorization_unavailable (cpe_authorization e).

(** [CommandProcessorError::authorization] *)
Definition processor_authorization (e : AuthorizationError) : CommandProcessorError :=
  let result := CommandProcessorError_new ProcessorAuthorization (AuthorizationError_display e) in
  mkProcessorError (Some e) (cpe_rejected_outcome_persistence_failed result) (cpe_kind result)
    (cpe_message result) (cpe_execution_failure result).

Section ProcessorErrors.
Context (debug_str : string → string).

(** [Display] of [CommandExecutionError] (executor.rs) *)
Definition CommandExecutionError_display (e : CommandExecutionError) : string :=
  match e with
  | ErrOutcomeRecovery error => OutcomeRecoveryError_display debug_str error
  | ErrRejectedOutcomePersistence error =>
    "rejected outcome persistence failed: " +:+ EventStoreError_display error
  | ErrRejectionMapping message => "rejection mapping failed: " +:+ message
  | ErrStore error => EventStoreError_display error
  | ErrCodec error => EventCodecError_display error
  end.

(** [CommandProcessorError::recovery] *)
Definition processor_recovery (e : OutcomeRecoveryError) : CommandProcessorError :=
  let kind :=
    match e with
    | RecoveryExpired => ProcessorDetailsExpired
    | RecoveryArchived _ | RecoveryUnavailable BackendUnavailable => ProcessorDetailsUnavailable
    | IntegrityMismatch | RecoveryUnavailable MissingDetails => ProcessorDetailsBlocked
    end in
  CommandProcessorError_new kind (OutcomeRecoveryError_display debug_str e).

(** The store error of an outcome recovery, and the kind it is reported as *)
Definition recovery_store_error (e : CommandExecutionError) : option EventStoreError :=
  match e with
  | ErrStore source | ErrRejectedOutcomePersistence source =>
    if bool_decide (se_origin source = OutcomeRecovery) then Some source else None
  | _ => None
  end.
Definition recovery_kind (kind : EventStoreErrorKind) : option CommandProcessorErrorKind :=
  match kind with
  | CorruptHistory | DetailForbidden | ConfigurationMismatch => Some ProcessorDetailsBlocked
  | CompletedDetailsExpired => Some ProcessorDetailsExpired
  | CompletedDetailsUnavailable => Some ProcessorDetailsUnavailable
  | _ => None
  end.

(** What [CommandProcessorError::execution] makes of an error that is neither an
    outcome recovery nor an identity conflict *)
Definition processor_technical (e : CommandExecutionError) : CommandProcessorError :=
  match execution_failure e with
  | None =>
    CommandProcessorError_new ProcessorInvalidConfiguration (CommandExecutionError_display e)
  | Some failure =>
    mkProcessorError None
      match e with ErrRejectedOutcomePersistence _ => true | _ => false end
      (if is_retryable failure then ProcessorUnavailable else ProcessorExecutionFailed)
      (CommandExecutionError_display e) (Some failure)
  end.

(** [CommandProcessorError::execution] *)
Definition processor_execution (e : CommandExecutionError) : CommandProcessorError :=
  match e with
  | ErrOutcomeRecovery error => processor_recovery error
  | _ =>
    if (match e with ErrStore error => bool_decide (se_kind error = IdentityConflict) | _ => false end)
    then CommandProcessorError_new ProcessorIdentityConflict (CommandExecutionError_display e)
    else
      match (source ← recovery_store_error e; kind ← recovery_kind (se_kind source);
             Some (source, kind)) with
      | Some (source, kind) => CommandProcessorError_new kind (EventStoreError_display source)
      | None => processor_technical e
      end
  end.

End ProcessorErrors.

Inductive CommandBusErrorKind :=
| BusAuthorization | BusDetailsExpired | BusDetailsUnavailable | BusDetailsBlocked | BusEncoding
| BusPayloadTooLarge | BusInvalidMessage | BusTimeout | BusRejected | BusUnavailable
| BusInvalidConfiguration | BusInvalidResponse | BusExecutionFailed.

#[global] Instance CommandBusErrorKind_eq_dec : EqDecision CommandBusErrorKind.
Proof. solve_decision. Defined.

Record CommandBusError := mkBusError {
  cbe_authorization : option AuthorizationError;
  cbe_kind : CommandBusErrorKind;
  cbe_message : string;
  cbe_execution_failure : option ExecutionFailure;
}.

Definition CommandBusError_new (kind : CommandBusErrorKind) (message : string) : CommandBusError :=
  mkBusError None kind message None.
(** [CommandBusError::encoding] *)
Definition bus_encoding (message : string) : CommandBusError := CommandBusError_new BusEncoding message.

(** [CommandBusError::execution_failed] *)
Definition bus_execution_failed (failure : ExecutionFailure) : CommandBusError :=
  mkBusError None (if is_retryable failure then BusUnavailable else BusExecutionFailed)
    "Technical command execution failure" (Some failure).

Definition bus_kind_of_processor (kind : CommandProcessorErrorKind) : CommandBusErrorKind :=
  match kind with
  | ProcessorAuthorization => BusAuthorization
  | ProcessorDetailsExpired => BusDetailsExpired
  | ProcessorDetailsUnavailable => BusDetailsUnavailable
  | ProcessorDetailsBlocked => BusDetailsBlocked
  | ProcessorIdentityConflict | ProcessorInvalidMessage => BusInvalidMessage
  | ProcessorUnavailable => BusUnavailable
  | ProcessorInvalidConfiguration => BusInvalidConfiguration
  | ProcessorExecutionFailed => BusExecutionFailed
  end.

(** [CommandBusError::from_processor] *)
Definition bus_from_processor (e : CommandProcessorError) : CommandBusError :=
  mkBusError (cpe_authorization e) (bus_kind_of_processor (cpe_kind e))
    (CommandProcessorError_display e) (cpe_execution_failure e).

Definition bus_error_is_retryable (e : CommandBusError) : bool :=
  bool_decide (cbe_kind e = BusTimeout) || bool_decide (cbe_kind e = BusUnavailable)
  || bool_decide (cbe_kind e = BusDetailsUnavailable)
  || authorization_unavailable (cbe_authorization e).

(** [command_message_build_error] *)
Definition command_message_build_error (e : MessageBuildError) : CommandBusError :=
  let kind := match mbe_kind e with PayloadTooLarge => BusPayloadTooLarge | _ => BusEncoding end in
  CommandBusError_new kind (MessageBuildError_display e).

(** ** Routed commands *)

Inductive RoutedCommandError :=
| RoutedCommandName (e : ContractError)
| RoutedSchemaVersion (e : ContractError).

Definition RoutedCommandError_display (e : RoutedCommandError) : string :=
  match e with
  | RoutedCommandName e => "invalid routed command name: " +:+ ContractError_display e
  | RoutedSchemaVersion e => "invalid routed command schema version: " +:+ ContractError_display e
  end.

Section Routed.
Context `{JT : JsonText}.

Record RoutedCommand := mkRoutedCommand {
  rc_command : string;
  rc_schema_version : N;
  rc_payload : JValue;
  rc_events_caused_by_command : bool;
}.

Definition RoutedCommand_new (command : string) (schema_version : N) (payload : JValue)
  : result RoutedCommand RoutedCommandError :=
  let? _ := map_err RoutedCommandName (CommandAddress_new "rostfrei" "routed-command" command) in
  let? _ := map_err RoutedSchemaVersion (SchemaVersion_new schema_version) in
  Ok (mkRoutedCommand command schema_version payload false).

Definition with_events_caused_by_command (c : RoutedCommand) (enabled : bool) : RoutedCommand :=
  mkRoutedCommand (rc_command c) (rc_schema_version c) (rc_payload c) enabled.

(** The document; [events_caused_by_command] is absent when false. *)
Record RoutedCommandWire := mkRoutedCommandWire {
  rcw_command : string;
  rcw_schema_version : N;
  rcw_payload : JValue;
  rcw_events_caused_by_command : bool;
}.

Definition RoutedCommand_serialize (c : RoutedCommand) : RoutedCommandWire :=
  mkRoutedCommandWire (rc_command c) (rc_schema_version c) (rc_payload c)
    (rc_events_caused_by_command c).
Definition RoutedCommand_deserialize (w : RoutedCommandWire) : result RoutedCommand string :=
  map_err RoutedCommandError_display
    (rmap (λ command, with_events_caused_by_command command (rcw_events_caused_by_command w))
       (RoutedCommand_new (rcw_command w) (rcw_schema_version w) (rcw_payload w))).

#[global] Instance routed_command_wire : Wire RoutedCommand RoutedCommandWire :=
  {| to_wire := RoutedCommand_serialize; of_wire := RoutedCommand_deserialize |}.

(** ** Canonical text and fingerprints *)

Definition canonical_json_bytes (value : JValue) : result (list byte) CommandBusError :=
  map_err bus_encoding (write_value value).
Definition canonical_serialize {A} `{!ToValue A} (value : A)
  : result (list byte) CommandBusError :=
  let? value := map_err bus_encoding (to_value value) in
  canonical_json_bytes value.

Context `{SHA : Sha256}.

Definition framed_fingerprint (parts : list (list byte)) : ContentFingerprint := digest (frames parts).

(** The fields a command's fingerprint covers *)
Definition fingerprint_fields (bounded_context command : string) (schema_version : N)
    (payload : list byte) (events_caused_by_command : bool) (actor : option ActorRef)
  : list (list byte) :=
  [as_bytes (if is_some actor then "rostfrei:command-execution:v3" else "rostfrei:command-execution:v2");
   as_bytes bounded_context; as_bytes command; be_bytes 4 schema_version; payload;
   [byte_of (if events_caused_by_command then 1 else 0)]]
  ++ match actor with
     | Some actor => [as_bytes (actor_namespace actor); as_bytes (actor_id actor)]
     | None => []
     end.

Definition command_execution_fingerprint_with_provenance (bounded_context command : string)
    (schema_version : N) (payload : JValue) (events_caused_by_command : bool)
    (actor : option ActorRef) : result ContentFingerprint CommandBusError :=
  let? payload := canonical_json_bytes payload in
  Ok (framed_fingerprint
        (fingerprint_fields bounded_context command schema_version payload events_caused_by_command
           actor)).

Definition command_execution_fingerprint (bounded_context command : string) (schema_version : N)
    (payload : JValue) : result ContentFingerprint CommandBusError :=
  command_execution_fingerprint_with_provenance bounded_context command schema_version payload
    false None.

Definition routed_command_execution_fingerprint (bounded_context : string) (command : RoutedCommand)
    (actor : option ActorRef) : result ContentFingerprint CommandBusError :=
  command_execution_fingerprint_with_provenance bounded_context (rc_command command)
    (rc_schema_version command) (rc_payload command) (rc_events_caused_by_command command) actor.

Definition message_id_frames (address : CommandAddress) (operation_id : MsgOperationId)
    (fingerprint : ContentFingerprint) (correlation_id : CorrelationId)
    (causation_id : option CausationId) : list (list byte) :=
  [as_bytes "rostfrei:command-message:v1"; as_bytes (addr_str address); as_bytes (id_str operation_id);
   fingerprint_bytes fingerprint; as_bytes (id_str correlation_id);
   from_option (λ value, as_bytes (id_str value)) [] causation_id].

Definition command_message_id (address : CommandAddress) (operation_id : MsgOperationId)
    (fingerprint : ContentFingerprint) (correlation_id : CorrelationId)
    (causation_id : option CausationId) : result MessageId CommandBusError :=
  let digest := framed_fingerprint
    (message_id_frames address operation_id fingerprint correlation_id causation_id) in
  map_err (λ e, bus_encoding (ContractError_display e)) (MessageId_new (to_hex digest)).

Definition response_id_frames (command_message_id : MessageId) : list (list byte) :=
  [as_bytes "rostfrei:command-response-message:v1"; as_bytes (id_str command_message_id)].

Definition command_response_message_id (command_message_id : MessageId)
  : result MessageId ContractError :=
  MessageId_new (to_hex (framed_fingerprint (response_id_frames command_message_id))).

Definition failure_source (failure : ExecutionFailure) : string :=
  match failure with
  | FailureStore FailCorruptHistory => "store.corrupt_history"
  | FailureStore FailCapacityExhausted => "store.capacity_exhausted"
  | FailureStore FailConfigurationMismatch => "store.configuration_mismatch"
  | FailureStore FailConflict => "store.conflict"
  | FailureStore FailUnavailable => "store.unavailable"
  | FailureCodec FailUnknownEventType => "codec.unknown_event_type"
  | FailureCodec FailUnsupportedSchemaVersion => "codec.unsupported_schema_version"
  | FailureCodec FailMalformedPayload => "codec.malformed_payload"
  | FailureCodec FailConversionFailed => "codec.conversion_failed"
  | FailureCodec FailInvalidEnvelope => "codec.invalid_envelope"
  | FailureCodec FailEncodingFailed => "codec.encoding_failed"
  | FailureProcessor InvalidConfiguration => "processor.invalid_configuration"
  end.

Definition technical_id_frames (command_message_id : MessageId) (failure : ExecutionFailure)
  : list (list byte) :=
  [as_bytes "rostfrei:command-technical-response-message:v1"; as_bytes (id_str command_message_id);
   as_bytes (failure_source failure)].

Definition command_technical_response_message_id (command_message_id : MessageId)
    (failure : ExecutionFailure) : result MessageId ContractError :=
  MessageId_new (to_hex (framed_fingerprint (technical_id_frames command_message_id failure))).

End Routed.
Arguments RoutedCommand {JT}.
Arguments RoutedCommandWire {JT}.

(** ** Encoded commands *)

Record EncodedCommand := mkEncodedCommand {
  enc_actor : option ActorRef;
  enc_message : OutboundMessage CommandAddress;
  enc_operation_id : MsgOperationId;
  enc_correlation_id : CorrelationId;
  enc_fingerprint : ContentFingerprint;
}.

#[global] Instance EncodedCommand_eq_dec : EqDecision EncodedCommand.
Proof. solve_decision. Defined.

Definition EncodedCommand_new (message : OutboundMessage CommandAddress)
    (operation_id : MsgOperationId) (correlation_id : CorrelationId)
    (fingerprint : ContentFingerprint) : EncodedCommand :=
  mkEncodedCommand None message operation_id correlation_id fingerprint.
Definition enc_with_actor (c : EncodedCommand) (actor : option ActorRef) : EncodedCommand :=
  mkEncodedCommand actor (enc_message c) (enc_operation_id c) (enc_correlation_id c)
    (enc_fingerprint c).

Definition enc_address (c : EncodedCommand) : CommandAddress := om_address (enc_message c).
Definition enc_message_id (c : EncodedCommand) : MessageId := om_message_id (enc_message c).
Definition enc_payload (c : EncodedCommand) : list byte := om_payload (enc_message c).

Record CommandBindingKey := CommandBindingKey_new {
  bk_context : string;
  bk_command : string;
  bk_schema_version : N;
}.

#[global] Instance CommandBindingKey_eq_dec : EqDecision CommandBindingKey.
Proof. solve_decision. Defined.
#[global] Instance CommandBindingKey_countable : Countable CommandBindingKey.
Proof.
  by refine (inj_countable' (λ k, (bk_context k, bk_command k, bk_schema_version k))
    (λ '(a, b, c), CommandBindingKey_new a b c) _); intros [].
Defined.

Section Commands.
Context `{JT : JsonText} `{SHA : Sha256} `{CEJ : JsonCodec (CommandEnvelopeWire RoutedCommandWire)}.

Definition contract_message {A} (r : result A ContractError) : result A CommandProcessorError :=
  map_err (λ e, invalid_message (ContractError_display e)) r.
Definition bus_message {A} (r : result A CommandBusError) : result A CommandProcessorError :=
  map_err (λ e, invalid_message (cbe_message e)) r.

(** [EncodedCommand::from_delivery] *)
Definition EncodedCommand_from_delivery (address : CommandAddress) (message_id : MessageId)
    (payload : list byte) : result EncodedCommand CommandProcessorError :=
  let? envelope : CommandEnvelope RoutedCommand :=
    map_err invalid_message (read_command_envelope payload) in
  let? fingerprint := bus_message
    (routed_command_execution_fingerprint (address_context address) (cmd_payload envelope)
       (cmd_actor envelope)) in
  let? message := map_err (λ e, invalid_message (MessageBuildError_display e))
    (OutboundMessage_new address message_id payload) in
  let message := om_with_correlation_id message (cmd_correlation_id envelope) in
  Ok (enc_with_actor
        (EncodedCommand_new message (cmd_operation_id envelope) (cmd_correlation_id envelope)
           fingerprint)
        (cmd_actor envelope)).

(** The comparison [validate_command] makes of the message with its envelope *)
Definition command_consistent (encoded : EncodedCommand) (envelope : CommandEnvelope RoutedCommand)
    (fingerprint : ContentFingerprint) (expected_message_id : MessageId) : bool :=
  bool_decide (cmd_message_id envelope = enc_message_id encoded)
  && bool_decide (enc_message_id encoded = expected_message_id)
  && bool_decide (cmd_operation_id envelope = enc_operation_id encoded)
  && bool_decide (cmd_correlation_id envelope = enc_correlation_id encoded)
  && is_none_or (λ outer, bool_decide (outer = cmd_correlation_id envelope))
       (om_correlation_id (enc_message encoded))
  && (schema_get (cmd_schema_version envelope) =? rc_schema_version (cmd_payload envelope))
  && String.eqb (address_name (enc_address encoded)) (rc_command (cmd_payload envelope))
  && bool_decide (enc_fingerprint encoded = fingerprint)
  && bool_decide (enc_actor encoded = cmd_actor envelope).

(** The causation recorded with the events of a command *)
Definition recorded_causation (encoded : EncodedCommand) (envelope : CommandEnvelope RoutedCommand)
  : result CausationId CommandProcessorError :=
  if rc_events_caused_by_command (cmd_payload envelope)
  then contract_message (CausationId_new (id_str (enc_message_id encoded)))
  else
    match cmd_causation_id envelope with
    | Some causation_id => Ok causation_id
    | None => contract_message (CausationId_new (id_str (enc_message_id encoded)))
    end.

(** The evidence of a command *)
Definition command_evidence (encoded : EncodedCommand) (envelope : CommandEnvelope RoutedCommand)
  : OutcomeEvidence :=
  {| authority_scope := Some (address_application (enc_address encoded) +:+ ":"
       +:+ default "normal" (subject_segment (address_scope (enc_address encoded))));
     created_at_millis := Some (unix_milliseconds (cmd_created_at envelope));
     fingerprint_version := if is_some (cmd_actor envelope) then 3 else 2;
     command_type := rc_command (cmd_payload envelope);
     command_schema := rc_schema_version (cmd_payload envelope);
     events_caused_by_command := rc_events_caused_by_command (cmd_payload envelope);
     original_causation := id_str <$> cmd_causation_id envelope |}.

Definition validate_command (encoded : EncodedCommand) (processor_context : BoundedContextName)
  : result (CommandEnvelope RoutedCommand * CommandExecutionMetadata * CommandBindingKey)
      CommandProcessorError :=
  let context := address_context (enc_address encoded) in
  fail! negb (String.eqb context (context_str processor_context))
    with invalid_message ("command context `" +:+ context +:+ "` does not match processor context `"
           +:+ context_str processor_context +:+ "`");
  let? envelope : CommandEnvelope RoutedCommand :=
    map_err invalid_message (read_command_envelope (enc_payload encoded)) in
  let routed := cmd_payload envelope in
  let? fingerprint := bus_message
    (routed_command_execution_fingerprint context routed (cmd_actor envelope)) in
  let? expected_message_id := bus_message
    (command_message_id (enc_address encoded) (cmd_operation_id envelope) fingerprint
       (cmd_correlation_id envelope) (cmd_causation_id envelope)) in
  fail! negb (command_consistent encoded envelope fingerprint expected_message_id)
    with invalid_message "command envelope identity, route, or fingerprint is inconsistent";
  let? operation_id := map_err (λ e, invalid_message (IdentityError_display e))
    (ident_new KOperationId (id_str (cmd_operation_id envelope))) in
  let metadata := with_correlation_id
    (with_bounded_context (CommandExecutionMetadata_new operation_id fingerprint) processor_context)
    (cmd_correlation_id envelope) in
  let? causation_id := recorded_causation encoded envelope in
  let metadata := with_causation_id metadata causation_id in
  let metadata := from_option (with_actor metadata) metadata (cmd_actor envelope) in
  let metadata := with_outcome_evidence metadata (command_evidence encoded envelope) in
  Ok (envelope, metadata, CommandBindingKey_new context (rc_command routed) (rc_schema_version routed)).

(** [EncodedCommand::validated_metadata], [validated_execution_metadata] *)
Definition validated_metadata (encoded : EncodedCommand)
  : result CommandExecutionMetadata CommandProcessorError :=
  let? context := contract_message
    (BoundedContextName_new (address_context (enc_address encoded))) in
  rmap (λ r, r.1.2) (validate_command encoded context).

(** [EncodedCommand::validate] *)
Definition validate_encoded (encoded : EncodedCommand) : result unit CommandProcessorError :=
  rmap (λ _, tt) (validated_metadata encoded).

(** [EncodedCommand::response_address] *)
Definition response_address (encoded : EncodedCommand) : result CommandResponseAddress ContractError :=
  derive_command_response_address (enc_address encoded) (enc_operation_id encoded)
    (enc_message_id encoded).

(** ** Responses to a command *)

Inductive InvalidCommandResponse :=
| InvalidResponseMessageId | InvalidCommandAddress | InvalidCommandMessageId | InvalidOperationId
| InvalidResponseSchema | InvalidCorrelationId.

Definition InvalidCommandResponse_display (e : InvalidCommandResponse) : string :=
  match e with
  | InvalidResponseMessageId => "response message ID does not match the command"
  | InvalidCommandAddress => "response command address does not match the command"
  | InvalidCommandMessageId => "response command message ID does not match the command"
  | InvalidOperationId => "response operation ID does not match the command"
  | InvalidResponseSchema => "response schema version is invalid"
  | InvalidCorrelationId => "response correlation ID does not match the command"
  end.

(** The identity of the response with a given outcome *)
Definition outcome_message_id (command_message_id : MessageId) (outcome : CommandResponseOutcome)
  : result MessageId ContractError :=
  match outcome with
  | ResponseExecutionFailed failure => command_technical_response_message_id command_message_id failure
  | _ => command_response_message_id command_message_id
  end.

(** [EncodedCommand::validate_response] *)
Definition validate_response (encoded : EncodedCommand) (response : CommandResponse)
  : result unit InvalidCommandResponse :=
  let? expected_message_id := map_err (λ _, InvalidResponseMessageId)
    (outcome_message_id (enc_message_id encoded) (rsp_outcome response)) in
  fail! negb (bool_decide (rsp_message_id response = expected_message_id))
    with InvalidResponseMessageId;
  fail! negb (bool_decide (rsp_command_address response = enc_address encoded))
    with InvalidCommandAddress;
  fail! negb (bool_decide (rsp_command_message_id response = enc_message_id encoded))
    with InvalidCommandMessageId;
  fail! negb (bool_decide (rsp_operation_id response = enc_operation_id encoded))
    with InvalidOperationId;
  fail! negb (schema_get (rsp_schema_version response)
              =? expected_schema_version (rsp_outcome response))
    with InvalidResponseSchema;
  fail! negb (bool_decide (rsp_correlation_id response = enc_correlation_id encoded))
    with InvalidCorrelationId;
  Ok tt.

Context `{RSJ : !ResponseJson}.

Definition build_response (encoded : EncodedCommand) (outcome : CommandResponseOutcome)
  : result CommandResponse CommandProcessorError :=
  let? message_id := contract_message (outcome_message_id (enc_message_id encoded) outcome) in
  map_err (λ e, CommandProcessorError_new ProcessorInvalidConfiguration (MessageBuildError_display e))
    match outcome with
    | ResponseAccepted =>
      CommandResponse_accepted message_id (enc_message_id encoded) (enc_address encoded)
        (enc_operation_id encoded) (enc_correlation_id encoded)
    | ResponseRejected rejection =>
      CommandResponse_rejected message_id (enc_message_id encoded) (enc_address encoded)
        (enc_operation_id encoded) (enc_correlation_id encoded) rejection
    | ResponseExecutionFailed failure =>
      CommandResponse_execution_failed message_id (enc_message_id encoded) (enc_address encoded)
        (enc_operation_id encoded) (enc_correlation_id encoded) failure
    end.

(** [CommandProcessorError::technical_response] *)
Definition technical_response (e : CommandProcessorError) (encoded : EncodedCommand)
  : result (option CommandResponse) CommandProcessorError :=
  if cpe_rejected_outcome_persistence_failed e then Ok None
  else transpose
    ((λ failure, build_response encoded (ResponseExecutionFailed failure)) <$> cpe_execution_failure e).

(** ** Rejections of the framework *)

Definition framework_rejection (classification : CommandRejectionClassification)
    (code message : string) (details : option JValue) : result CommandRejection CommandProcessorError :=
  let? code := map_err
    (λ e, CommandProcessorError_new ProcessorInvalidConfiguration (ContractError_display e))
    (ApplicationErrorCode_new code) in
  map_err (λ e, CommandProcessorError_new ProcessorInvalidConfiguration (ContractError_display e))
    (CommandRejection_new classification code message details).

Definition operation_conflict : result CommandRejection CommandProcessorError :=
  framework_rejection RejectConflict OPERATION_CONFLICT_CODE
    "The operation ID was already used for different command content or context." None.

(** ** Import of historical rejections *)

Context `{RWJ : JsonCodec CommandRejectionWire}.

(** [JsonRejectionCodec::new(id, version)] at [CommandRejection] *)
Definition CommandRejectionCodec (id : string) (version : N) : RejectionCodec CommandRejection :=
  {| rc_encode := λ r, json_rejection_encode id version (CommandRejection_serialize r);
     rc_decode := λ encoded,
       let? wire := json_rejection_decode id version encoded in
       map_err (mkCodecError MalformedPayload) (CommandRejection_deserialize wire) |}.

Context (debug_str : string → string).

(** [EncodedCommand::legacy_rejection_transaction] *)
Definition legacy_rejection_transaction (encoded : EncodedCommand) (response : CommandResponse)
  : result EventTransaction CommandProcessorError :=
  let? _ := validate_encoded encoded in
  fail! is_some (enc_actor encoded)
    with processor_execution debug_str (ErrStore (store_error InvalidRequest
           "historical rejection import cannot assert actor attribution"));
  let? _ := map_err (λ e, invalid_message (InvalidCommandResponse_display e))
    (validate_response encoded response) in
  match rsp_outcome response with
  | ResponseRejected rejection =>
    let? context := contract_message
      (BoundedContextName_new (address_context (enc_address encoded))) in
    let? validated := validate_command encoded context in
    let metadata := validated.1.2 in
    let? rejection := map_err (λ e, processor_execution debug_str (ErrCodec e))
      (rc_encode (RejectionCodec := CommandRejectionCodec "rostfrei.command-rejection" 1) rejection) in
    let t := tx_with_completion
      (tx_with_bounded_context
         (EventTransaction_new (cem_operation_id metadata) (cem_operation_fingerprint metadata) [])
         context)
      (CommandCompletion_new (cem_outcome_evidence metadata) (Some rejection)) in
    let t := from_option (tx_with_correlation_id t) t (cem_correlation_id metadata) in
    Ok (from_option (tx_with_causation_id t) t (cem_causation_id metadata))
  | _ => Err (invalid_message "legacy import requires a completed business rejection")
  end.

End Commands.
