(* ===== verification/CommandBus.v ===== *)
(** * CommandBus: command submissions, their encoding and their dispatch over an
    adapter (crates/rostfrei-runtime/src/command_bus.rs). *)

From S2P Require Export CommandMessage.

(** ** Submissions *)

(** The [JsonCommandPayload] trait and the command descriptor of a type *)
Class JsonCommandPayload `{JT : JsonText} (C : Type) := {
  payload_context : string;
  payload_local_id : string;
  payload_schema_version : N;
  payload_encode_json : C → result JValue string;
  payload_decode_json : JValue → result C string;
}.
Arguments payload_context {JT} C {_}.
Arguments payload_local_id {JT} C {_}.
Arguments payload_schema_version {JT} C {_}.

Record CommandRequest (C : Type) := mkCommandRequest {
  req_actor : option ActorRef;
  req_operation_id : OperationId;
  req_command : C;
  req_correlation_id : option CorrelationId;
  req_causation_id : option CausationId;
  req_created_at : option MessageTimestamp;
  req_events_caused_by_command : bool;
}.
Arguments mkCommandRequest {C}.
Arguments req_actor {C}.
Arguments req_operation_id {C}.
Arguments req_command {C}.
Arguments req_correlation_id {C}.
Arguments req_causation_id {C}.
Arguments req_created_at {C}.
Arguments req_events_caused_by_command {C}.

Section Requests.
Context {C : Type}.

Definition CommandRequest_new (operation_id : OperationId) (command : C) : CommandRequest C :=
  mkCommandRequest None operation_id command None None None false.
Definition req_with_actor (r : CommandRequest C) (actor : ActorRef) : CommandRequest C :=
  mkCommandRequest (Some actor) (req_operation_id r) (req_command r) (req_correlation_id r)
    (req_causation_id r) (req_created_at r) (req_events_caused_by_command r).
Definition req_with_correlation_id (r : CommandRequest C) (c : CorrelationId) : CommandRequest C :=
  mkCommandRequest (req_actor r) (req_operation_id r) (req_command r) (Some c)
    (req_causation_id r) (req_created_at r) (req_events_caused_by_command r).
Definition req_with_causation_id (r : CommandRequest C) (c : CausationId) : CommandRequest C :=
  mkCommandRequest (req_actor r) (req_operation_id r) (req_command r) (req_correlation_id r)
    (Some c) (req_created_at r) (req_events_caused_by_command r).
Definition req_with_created_at (r : CommandRequest C) (t : MessageTimestamp) : CommandRequest C :=
  mkCommandRequest (req_actor r) (req_operation_id r) (req_command r) (req_correlation_id r)
    (req_causation_id r) (Some t) (req_events_caused_by_command r).
Definition req_with_events_caused_by_command (r : CommandRequest C) : CommandRequest C :=
  mkCommandRequest (req_actor r) (req_operation_id r) (req_command r) (req_correlation_id r)
    (req_causation_id r) (req_created_at r) true.

End Requests.

(** [current_timestamp]: [clock] is the time since the Unix epoch in
    milliseconds, when the system clock is not before it. *)
Definition current_timestamp (clock : option N) : result MessageTimestamp CommandBusError :=
  let? milliseconds := ok_or clock (bus_encoding "system clock is before the Unix epoch") in
  let? milliseconds := ok_or (try_from u64_max milliseconds)
    (bus_encoding "system clock is outside the message timestamp range") in
  map_err (λ e, bus_encoding (ContractError_display e)) (from_unix_milliseconds milliseconds).

Definition contract_encoding {A} (r : result A ContractError) : result A CommandBusError :=
  map_err (λ e, bus_encoding (ContractError_display e)) r.

Section Bus.
Context `{JT : JsonText} `{RSJ : !ResponseJson} `{SHA : Sha256}.
Context `{CEJ : JsonCodec (CommandEnvelopeWire RoutedCommandWire)}
        `{CEV : !ToValue (CommandEnvelopeWire RoutedCommandWire)}.

Record DynamicCommandRequest := mkDynamicRequest {
  dyn_actor : option ActorRef;
  dyn_operation_id : OperationId;
  dyn_command : string;
  dyn_schema_version : N;
  dyn_payload : JValue;
  dyn_correlation_id : option CorrelationId;
  dyn_causation_id : option CausationId;
  dyn_created_at : option MessageTimestamp;
  dyn_events_caused_by_command : bool;
}.

Definition DynamicCommandRequest_new (operation_id : OperationId) (command : string)
    (schema_version : N) (payload : JValue) : result DynamicCommandRequest CommandBusError :=
  let? _ := contract_encoding (CommandAddress_new "rostfrei" "dynamic-command" command) in
  let? _ := contract_encoding (SchemaVersion_new schema_version) in
  Ok (mkDynamicRequest None operation_id command schema_version payload None None None false).

Definition dyn_with_actor (r : DynamicCommandRequest) (actor : ActorRef) : DynamicCommandRequest :=
  mkDynamicRequest (Some actor) (dyn_operation_id r) (dyn_command r) (dyn_schema_version r)
    (dyn_payload r) (dyn_correlation_id r) (dyn_causation_id r) (dyn_created_at r)
    (dyn_events_caused_by_command r).
Definition dyn_with_correlation_id (r : DynamicCommandRequest) (c : CorrelationId) :=
  mkDynamicRequest (dyn_actor r) (dyn_operation_id r) (dyn_command r) (dyn_schema_version r)
    (dyn_payload r) (Some c) (dyn_causation_id r) (dyn_created_at r)
    (dyn_events_caused_by_command r).
Definition dyn_with_causation_id (r : DynamicCommandRequest) (c : CausationId) :=
  mkDynamicRequest (dyn_actor r) (dyn_operation_id r) (dyn_command r) (dyn_schema_version r)
    (dyn_payload r) (dyn_correlation_id r) (Some c) (dyn_created_at r)
    (dyn_events_caused_by_command r).
Definition dyn_with_created_at (r : DynamicCommandRequest) (t : MessageTimestamp) :=
  mkDynamicRequest (dyn_actor r) (dyn_operation_id r) (dyn_command r) (dyn_schema_version r)
    (dyn_payload r) (dyn_correlation_id r) (dyn_causation_id r) (Some t)
    (dyn_events_caused_by_command r).

(** ** Publication and the adapter *)

Record CommandBusReceipt := CommandBusReceipt_new {
  cbr_publication_duplicate : bool;
  cbr_response : CommandResponse;
}.

Record CommandPublication := CommandPublication_new {
  pub_message_id : MessageId;
  pub_duplicate : bool;
}.

(** [CommandMessageAdapter] over a state: what it makes of a command, and the
    publications it tells the observer of *)
Record CommandMessageAdapter (S : Type) := mkAdapter {
  adapter_maximum_payload_len : N;
  adapter_dispatch : S → EncodedCommand →
    S * list CommandPublication * result CommandBusReceipt CommandBusError;
}.
Arguments mkAdapter {S}.
Arguments adapter_maximum_payload_len {S}.
Arguments adapter_dispatch {S}.

Record CommandBus (S : Type) := CommandBus_new {
  bus_context : BoundedContext;
  bus_adapter : CommandMessageAdapter S;
}.
Arguments CommandBus_new {S}.
Arguments bus_context {S}.
Arguments bus_adapter {S}.

(** ** Encoding *)

Section Encoding.
Context {S : Type} (bus : CommandBus S).

Definition maximum_payload_len : N := adapter_maximum_payload_len (bus_adapter bus).

(** [CommandBus::encode_dynamic] *)
Definition encode_dynamic (clock : option N) (request : DynamicCommandRequest)
  : result EncodedCommand CommandBusError :=
  let? address := contract_encoding (bc_command_address (bus_context bus) (dyn_command request)) in
  let? operation_id := contract_encoding
    (MsgOperationId_new (ident_str (dyn_operation_id request))) in
  let? created_at :=
    match dyn_created_at request with
    | Some created_at => Ok created_at
    | None => current_timestamp clock
    end in
  let? routed := map_err (λ e, bus_encoding (RoutedCommandError_display e))
    (RoutedCommand_new (dyn_command request) (dyn_schema_version request) (dyn_payload request)) in
  let routed := with_events_caused_by_command routed (dyn_events_caused_by_command request) in
  let? fingerprint := routed_command_execution_fingerprint
    (context_str (bc_name (bus_context bus))) routed (dyn_actor request) in
  let metadata := CommandExecutionMetadata_new (dyn_operation_id request) fingerprint in
  let metadata := from_option (with_correlation_id metadata) metadata (dyn_correlation_id request) in
  let? correlation_id := contract_encoding (effective_correlation_id metadata) in
  let? message_id := command_message_id address operation_id fingerprint correlation_id
    (dyn_causation_id request) in
  let? schema_version := contract_encoding (SchemaVersion_new (rc_schema_version routed)) in
  let? envelope := map_err command_message_build_error
    (CommandEnvelope_new
       (EnvelopeContext_new message_id schema_version correlation_id (dyn_causation_id request))
       operation_id created_at routed) in
  let? envelope :=
    match dyn_actor request with
    | Some actor => map_err command_message_build_error (CommandEnvelope_with_actor envelope actor)
    | None => Ok envelope
    end in
  let? payload := canonical_serialize (CommandEnvelope_serialize envelope) in
  fail! maximum_payload_len <? len payload
    with CommandBusError_new BusPayloadTooLarge
           ("command payload exceeds its " +:+ n_to_string maximum_payload_len
              +:+ "-byte adapter limit");
  let? message := map_err (λ e, bus_encoding (MessageBuildError_display e))
    (OutboundMessage_new address message_id payload) in
  let message := om_with_correlation_id message correlation_id in
  Ok (enc_with_actor (EncodedCommand_new message operation_id correlation_id fingerprint)
        (dyn_actor request)).

(** [CommandBus::encode] *)
Definition encode_command {C} `{!JsonCommandPayload C} (clock : option N) (request : CommandRequest C)
  : result EncodedCommand CommandBusError :=
  fail! negb (String.eqb (payload_context C) (context_str (bc_name (bus_context bus))))
    with bus_encoding ("command context `" +:+ payload_context C
           +:+ "` does not match command bus context `" +:+ context_str (bc_name (bus_context bus))
           +:+ "`");
  let? payload := map_err bus_encoding (payload_encode_json (req_command request)) in
  encode_dynamic clock
    (mkDynamicRequest (req_actor request) (req_operation_id request) (payload_local_id C)
       (payload_schema_version C) payload (req_correlation_id request) (req_causation_id request)
       (req_created_at request) (req_events_caused_by_command request)).

(** ** Dispatch *)

(** The checks that precede publication *)
Definition admit_encoded (command : EncodedCommand) : result unit CommandBusError :=
  fail! maximum_payload_len <? len (enc_payload command)
    with CommandBusError_new BusPayloadTooLarge "command envelope exceeds the adapter limit";
  let? expected_address := map_err
    (λ e, CommandBusError_new BusInvalidMessage (ContractError_display e))
    (bc_command_address (bus_context bus) (address_name (enc_address command))) in
  fail! negb (bool_decide (enc_address command = expected_address))
    with CommandBusError_new BusInvalidMessage
           "command envelope belongs to another application, context, or traffic scope";
  map_err (λ e, CommandBusError_new BusInvalidMessage (CommandProcessorError_display e))
    (validate_encoded command).

(** What is made of the adapter's answer *)
Definition admit_receipt (command : EncodedCommand) (answer : result CommandBusReceipt CommandBusError)
  : result CommandBusReceipt CommandBusError :=
  let? receipt := answer in
  let? _ := map_err
    (λ e, CommandBusError_new BusInvalidResponse (InvalidCommandResponse_display e))
    (validate_response command (cbr_response receipt)) in
  match rsp_outcome (cbr_response receipt) with
  | ResponseExecutionFailed failure => Err (bus_execution_failed failure)
  | _ => Ok receipt
  end.

(** [CommandBus::dispatch_encoded_observed]; without an observer, the
    publications are dropped. *)
Definition dispatch_encoded (s : S) (command : EncodedCommand)
  : S * list CommandPublication * result CommandBusReceipt CommandBusError :=
  match admit_encoded command with
  | Err e => (s, [], Err e)
  | Ok _ =>
    let '(s, publications, answer) := adapter_dispatch (bus_adapter bus) s command in
    (s, publications, admit_receipt command answer)
  end.

(** [CommandBus::dispatch_dynamic_observed] *)
Definition dispatch_dynamic (clock : option N) (s : S) (request : DynamicCommandRequest)
  : S * list CommandPublication * result CommandBusReceipt CommandBusError :=
  match encode_dynamic clock request with
  | Err e => (s, [], Err e)
  | Ok command => dispatch_encoded s command
  end.

(** [CommandBus::dispatch_observed] *)
Definition dispatch_command {C} `{!JsonCommandPayload C} (clock : option N) (s : S)
    (request : CommandRequest C)
  : S * list CommandPublication * result CommandBusReceipt CommandBusError :=
  match encode_command clock request with
  | Err e => (s, [], Err e)
  | Ok command => dispatch_encoded s command
  end.

End Encoding.
End Bus.
Arguments DynamicCommandRequest {JT}.
Arguments CommandBusReceipt {JT}.
Arguments CommandMessageAdapter {JT} S.
Arguments CommandBus {JT} S.
Arguments mkAdapter {JT S}.
Arguments adapter_maximum_payload_len {JT S}.
Arguments adapter_dispatch {JT S}.
Arguments CommandBus_new {JT S}.
Arguments bus_context {JT S}.
Arguments bus_adapter {JT S}.
