(* ===== verification/CommandBusFacts.v ===== *)
(** * CommandBusFacts: what the derived identities of commands and responses
    separate, that an encoded command passes every later check, and what a
    dispatched receipt promises. *)

From S2P Require Export CommandBus.

(** ** Digests as identifiers *)

Section Identities.
Context `{JT : JsonText} `{SHA : Sha256}.

Lemma framed_id_new k parts :
  identifier_new k (to_hex (framed_fingerprint parts))
  = Ok (Identifier (to_hex (framed_fingerprint parts))).
Proof.
  apply identifier_new_Ok. unfold to_hex, framed_fingerprint, digest. cbn [fingerprint_bytes].
  assert (str_len (hex_of_bytes (sha256 (frames parts))) = 64) as Hl
    by (unfold str_len; by rewrite length_hex_of_bytes, sha256_length).
  split_and!; [done| |by rewrite Hl|apply hex_graphic].
  intros E. rewrite E in Hl. discriminate Hl.
Qed.

Lemma framed_id_inj ps qs :
  Forall framable ps → Forall framable qs → no_collision (frames ps) (frames qs) →
  to_hex (framed_fingerprint ps) = to_hex (framed_fingerprint qs) → ps = qs.
Proof. intros Hp Hq Hnc E%hex_of_bytes_inj%Hnc. by apply frames_inj in E. Qed.

Definition message_of (parts : list (list byte)) : MessageId :=
  Identifier (to_hex (framed_fingerprint parts)).

Lemma command_message_id_Ok address operation fingerprint correlation causation :
  command_message_id address operation fingerprint correlation causation
  = Ok (message_of (message_id_frames address operation fingerprint correlation causation)).
Proof. unfold command_message_id. by rewrite (framed_id_new KMessageId). Qed.

Lemma response_id_Ok m : command_response_message_id m = Ok (message_of (response_id_frames m)).
Proof. unfold command_response_message_id. by rewrite (framed_id_new KMessageId). Qed.

Lemma technical_id_Ok m f :
  command_technical_response_message_id m f = Ok (message_of (technical_id_frames m f)).
Proof. unfold command_technical_response_message_id. by rewrite (framed_id_new KMessageId). Qed.

Lemma message_of_ok parts : identifier_ok (message_of parts).
Proof. unfold identifier_ok, message_of. cbn [id_str]. apply framed_id_new. Qed.

Lemma message_of_inj ps qs :
  Forall framable ps → Forall framable qs → no_collision (frames ps) (frames qs) →
  message_of ps = message_of qs → ps = qs.
Proof. intros Hp Hq Hnc [= E]. by apply framed_id_inj. Qed.

Lemma identifier_framable {k} (x : identifier k) : identifier_ok x → framable (as_bytes (id_str x)).
Proof.
  intros H%identifier_ok_bound. unfold framable, u64_max. rewrite len_as_bytes. lia.
Qed.

Lemma response_id_framable m : identifier_ok m → Forall framable (response_id_frames m).
Proof. intros H. repeat constructor; [done|by apply identifier_framable]. Qed.

Lemma technical_id_framable m f : identifier_ok m → Forall framable (technical_id_frames m f).
Proof.
  intros H. repeat constructor; [done|by apply identifier_framable|by destruct f as [[]|[]|[]]].
Qed.

Lemma failure_source_inj f g : failure_source f = failure_source g → f = g.
Proof. by destruct f as [[]|[]|[]], g as [[]|[]|[]]. Qed.

(** Diagnostics never stand in for decisions: the identity of a
    technical response differs from that of the decided response of every
    command, so publishing a diagnostic cannot suppress, as a duplicate, the
    decision published later; and two diagnostics share an identity only for
    the same command and the same failure - each unless SHA-256 collides. *)
Theorem diagnostic_identity_is_separate (m n : MessageId) (f g : ExecutionFailure) :
  identifier_ok m → identifier_ok n →
  ∃ decided diagnostic other,
    command_response_message_id m = Ok decided
    ∧ command_technical_response_message_id n f = Ok diagnostic
    ∧ command_technical_response_message_id m g = Ok other
    ∧ (no_collision (frames (response_id_frames m)) (frames (technical_id_frames n f)) →
       decided ≠ diagnostic)
    ∧ (no_collision (frames (technical_id_frames n f)) (frames (technical_id_frames m g)) →
       diagnostic = other → n = m ∧ f = g).
Proof.
  intros Hm Hn. eexists _, _, _. split; [apply response_id_Ok|]. split; [apply technical_id_Ok|].
  split; [apply technical_id_Ok|]. split.
  - intros Hnc E. apply message_of_inj in E; [|by apply response_id_framable
      |by apply technical_id_framable|done]. discriminate E.
  - intros Hnc E. apply message_of_inj in E; [|by apply technical_id_framable..|done].
    injection E as E1%as_bytes_inj E2%as_bytes_inj%failure_source_inj.
    split; [|done]. destruct n, m; cbn in E1. by subst.
Qed.

(** ** Fingerprints and message identities *)

Definition actor_framable (actor : option ActorRef) : Prop := optional_ok actor_ok actor.

Lemma fingerprint_fields_framable context command schema payload caused actor :
  framable (as_bytes context) → framable (as_bytes command) → framable payload → actor_framable actor →
  Forall framable (fingerprint_fields context command schema payload caused actor).
Proof.
  intros Hc Hd Hp Ha. unfold fingerprint_fields. apply Forall_app. split.
  - repeat constructor; [by destruct actor|done|done| |done|done].
    unfold framable, len. by rewrite length_be_bytes.
  - destruct actor as [a|]; [|done]. destruct (actor_ok_bounds a (Ha a eq_refl)) as [H1 H2].
    unfold framable, u64_max in *. repeat constructor; rewrite len_as_bytes; lia.
Qed.

Lemma fingerprint_fields_inj c1 d1 s1 p1 e1 a1 c2 d2 s2 p2 e2 a2 :
  s1 <= u32_max → s2 <= u32_max →
  fingerprint_fields c1 d1 s1 p1 e1 a1 = fingerprint_fields c2 d2 s2 p2 e2 a2 →
  c1 = c2 ∧ d1 = d2 ∧ s1 = s2 ∧ p1 = p2 ∧ e1 = e2 ∧ a1 = a2.
Proof.
  intros H1 H2 E. unfold fingerprint_fields in E. cbn [app] in E.
  apply cons_inv in E as [_ E]. apply cons_inv in E as [Ec%as_bytes_inj E].
  apply cons_inv in E as [Ed%as_bytes_inj E]. apply cons_inv in E as [Es E].
  apply cons_inv in E as [Ep E]. apply cons_inv in E as [Ee Ea].
  apply be_bytes_inj in Es; [|unfold u32_max in *; cbn; lia..].
  split_and!; [done..| |].
  - by destruct e1, e2; vm_compute in Ee.
  - destruct a1 as [[n1 i1]|], a2 as [[n2 i2]|]; try discriminate Ea; [|done].
    cbn in Ea. injection Ea as En%as_bytes_inj Ei%as_bytes_inj. by subst.
Qed.

Lemma message_id_frames_inj a1 o1 f1 c1 k1 a2 o2 f2 c2 k2 :
  optional_ok identifier_ok k1 → optional_ok identifier_ok k2 →
  message_id_frames a1 o1 f1 c1 k1 = message_id_frames a2 o2 f2 c2 k2 →
  a1 = a2 ∧ o1 = o2 ∧ f1 = f2 ∧ c1 = c2 ∧ k1 = k2.
Proof.
  intros H1 H2 [= Ea%as_bytes_inj Eo%as_bytes_inj Ef Ec%as_bytes_inj Ek].
  assert (∀ (x : CausationId), identifier_ok x → as_bytes (id_str x) ≠ []) as Hne.
  { intros x (_ & Hx & _)%identifier_new_Ok E. apply Hx. by destruct (id_str x). }
  destruct a1, a2, o1, o2, f1, f2, c1, c2; cbn in Ea, Eo, Ef, Ec. subst. split_and!; [done..|].
  destruct k1 as [x|], k2 as [y|]; cbn in Ek.
  - apply as_bytes_inj in Ek. destruct x, y; cbn in Ek. by subst.
  - by destruct (Hne x (H1 x eq_refl)).
  - symmetry in Ek. by destruct (Hne y (H2 y eq_refl)).
  - done.
Qed.

Lemma message_id_framable a o f c k :
  address_ok a → identifier_ok o → fingerprint_ok f → identifier_ok c → optional_ok identifier_ok k →
  Forall framable (message_id_frames a o f c k).
Proof.
  intros (_ & Ha & _)%address_ok_parts Ho Hf Hc Hk. unfold message_id_frames.
  repeat constructor; [done| |by apply identifier_framable| |by apply identifier_framable|].
  - unfold MAX_ADDRESS_BYTES, framable, u64_max in *. rewrite len_as_bytes. lia.
  - unfold framable, len. by rewrite Hf.
  - destruct k as [x|]; [by apply identifier_framable, Hk|done].
Qed.

(** What a command message says, and the identity derived from it *)
Record Submission := mkSubmission {
  sub_address : CommandAddress;
  sub_operation : MsgOperationId;
  sub_schema : N;
  sub_payload : list byte;
  sub_caused : bool;
  sub_actor : option ActorRef;
  sub_correlation : CorrelationId;
  sub_causation : option CausationId;
}.
Record submission_ok (x : Submission) : Prop := mkSubmissionOk {
  so_address : address_ok (sub_address x);
  so_operation : identifier_ok (sub_operation x);
  so_schema : sub_schema x <= u32_max;
  so_payload : framable (sub_payload x);
  so_actor : actor_framable (sub_actor x);
  so_correlation : identifier_ok (sub_correlation x);
  so_causation : optional_ok identifier_ok (sub_causation x);
}.

(** The fields of its fingerprint: the command is routed by its name. *)
Definition submission_fields (x : Submission) : list (list byte) :=
  fingerprint_fields (address_context (sub_address x)) (address_name (sub_address x)) (sub_schema x)
    (sub_payload x) (sub_caused x) (sub_actor x).
Definition submission_frames (x : Submission) : list (list byte) :=
  message_id_frames (sub_address x) (sub_operation x) (framed_fingerprint (submission_fields x))
    (sub_correlation x) (sub_causation x).

Definition submission_message_id (x : Submission) : result MessageId CommandBusError :=
  command_message_id (sub_address x) (sub_operation x) (framed_fingerprint (submission_fields x))
    (sub_correlation x) (sub_causation x).

Lemma scope_name_framable s : scope_name s = true → framable (as_bytes s).
Proof. intros H%scope_name_len. unfold framable, u64_max. rewrite len_as_bytes. lia. Qed.

Lemma submission_fields_framable x : submission_ok x → Forall framable (submission_fields x).
Proof.
  intros [((_ & Hc & Hn) & _)%address_ok_parts _ _ Hp Ha _ _].
  by apply fingerprint_fields_framable; try apply scope_name_framable.
Qed.

Lemma submission_frames_framable x : submission_ok x → Forall framable (submission_frames x).
Proof.
  intros [Ha Ho _ _ _ Hc Hk]. apply message_id_framable; try done.
  unfold fingerprint_ok, framed_fingerprint, digest. apply sha256_length.
Qed.

(** C28 (safety). A command's message identity is its content: two valid
    submissions with the same derived message identity have the same address,
    operation, schema version, canonical payload, provenance, actor, correlation
    and causation, unless SHA-256 collides on their frames. A redelivery is
    recognised as a duplicate exactly when it is the same submission. *)
Theorem message_identity_is_content (x y : Submission) :
  submission_ok x → submission_ok y →
  no_collision (frames (submission_frames x)) (frames (submission_frames y)) →
  no_collision (frames (submission_fields x)) (frames (submission_fields y)) →
  submission_message_id x = submission_message_id y ↔ x = y.
Proof.
  intros Hx Hy Hm Hf. split; [|by intros ->]. unfold submission_message_id.
  rewrite !command_message_id_Ok. intros [= E].
  apply framed_id_inj in E; [|by apply submission_frames_framable..|done].
  apply message_id_frames_inj in E as (Ea & Eo & Efp & Ec & Ek); [|apply Hx|apply Hy].
  injection Efp as Efp. apply Hf, frames_inj in Efp; [|by apply submission_fields_framable..].
  apply fingerprint_fields_inj in Efp as (_ & _ & Es & Ep & Ee & Eact); [|apply Hx|apply Hy].
  destruct x, y; cbn in *. by subst.
Qed.

End Identities.

(** ** Encoded commands *)

Section Encoded.
Context `{JT : JsonText} `{RSJ : !ResponseJson} `{SHA : Sha256}.
Context `{CEJ : JsonCodec (CommandEnvelopeWire RoutedCommandWire)}
        `{CEV : !ToValue (CommandEnvelopeWire RoutedCommandWire)}.
Context {S : Type} (bus : CommandBus S).

(** A command is read from its canonical text when its payload is one serde_json
    reads back where it stands, two objects deep in the document. *)
Class CommandText := command_text_read : ∀ w v bytes,
  readable 125 (rcw_payload (cew_payload w)) = true →
  to_value w = Ok v → write_value v = Ok bytes → from_slice bytes = Ok w.
Context `{CTX : !CommandText}.

(** A request whose values were built by their types' constructors, with a payload
    that survives its text *)
Record request_ok (r : DynamicCommandRequest) : Prop := mkRequestOk {
  ro_actor : optional_ok actor_ok (dyn_actor r);
  ro_operation : ident_ok (dyn_operation_id r);
  ro_correlation : optional_ok identifier_ok (dyn_correlation_id r);
  ro_causation : optional_ok identifier_ok (dyn_causation_id r);
  ro_created : optional_ok timestamp_ok (dyn_created_at r);
  ro_payload : readable 125 (dyn_payload r) = true;
}.

Lemma current_timestamp_ok clock t : current_timestamp clock = Ok t → timestamp_ok t.
Proof.
  unfold current_timestamp, timestamp_ok. intros H. apply rbind_Ok in H as (ms & _ & H).
  apply rbind_Ok in H as (n & _ & H%map_err_Ok). pose proof H as H'.
  unfold from_unix_milliseconds in H'. guards. exact H.
Qed.

Lemma routed_new_Ok command schema payload r :
  RoutedCommand_new command schema payload = Ok r → r = mkRoutedCommand command schema payload false.
Proof.
  unfold RoutedCommand_new. intros H. apply rbind_Ok in H as (? & _ & H).
  by apply rbind_Ok in H as (? & _ & [= <-]).
Qed.

Lemma routed_wire_roundtrip command schema payload r caused :
  RoutedCommand_new command schema payload = Ok r →
  of_wire (to_wire (with_events_caused_by_command r caused))
  = Ok (with_events_caused_by_command r caused).
Proof.
  intros H. pose proof (routed_new_Ok _ _ _ _ H) as ->. cbn.
  unfold RoutedCommand_deserialize. cbn. by rewrite H.
Qed.

(** Everything [encode_dynamic] established about the command it built *)
Record encoding_of (r : DynamicCommandRequest) (c : EncodedCommand)
    (envelope : CommandEnvelope RoutedCommand) : Prop := mkEncodingOf {
  eo_address : bc_command_address (bus_context bus) (dyn_command r) = Ok (enc_address c);
  eo_operation : id_str (enc_operation_id c) = ident_str (dyn_operation_id r)
                 ∧ identifier_ok (enc_operation_id c);
  eo_envelope : read_command_envelope (enc_payload c) = Ok envelope;
  eo_payload : cmd_payload envelope
    = mkRoutedCommand (dyn_command r) (dyn_schema_version r) (dyn_payload r)
        (dyn_events_caused_by_command r);
  eo_schema : schema_get (cmd_schema_version envelope) = dyn_schema_version r;
  eo_ids : cmd_message_id envelope = enc_message_id c ∧ cmd_operation_id envelope = enc_operation_id c
           ∧ cmd_correlation_id envelope = enc_correlation_id c
           ∧ om_correlation_id (enc_message c) = Some (enc_correlation_id c);
  eo_causation : cmd_causation_id envelope = dyn_causation_id r;
  eo_actor : cmd_actor envelope = dyn_actor r ∧ enc_actor c = dyn_actor r;
  eo_fingerprint : routed_command_execution_fingerprint (context_str (bc_name (bus_context bus)))
    (cmd_payload envelope) (dyn_actor r) = Ok (enc_fingerprint c);
  eo_message_id : command_message_id (enc_address c) (enc_operation_id c) (enc_fingerprint c)
    (enc_correlation_id c) (dyn_causation_id r) = Ok (enc_message_id c);
  eo_correlation : enc_correlation_id c
    = default (Identifier (ident_str (dyn_operation_id r))) (dyn_correlation_id r);
  eo_size : len (enc_payload c) <= maximum_payload_len bus;
}.

Lemma effective_correlation_Ok operation fingerprint explicit c :
  effective_correlation_id
    (from_option (with_correlation_id (CommandExecutionMetadata_new operation fingerprint))
       (CommandExecutionMetadata_new operation fingerprint) explicit) = Ok c →
  optional_ok identifier_ok explicit →
  c = default (Identifier (ident_str operation)) explicit ∧ identifier_ok c.
Proof.
  destruct explicit as [x|]; cbn.
  - intros [= <-] H. split; [done|by apply H].
  - intros H _. apply identifier_new_ok in H as [H E]. split; [|done]. destruct c; cbn in E. by subst.
Qed.

Lemma encode_dynamic_Ok clock r c :
  request_ok r → encode_dynamic bus clock r = Ok c → ∃ envelope, encoding_of r c envelope.
Proof.
  intros [Ha Ho Hc Hk Ht Hpl] H. unfold encode_dynamic in H.
  apply rbind_Ok in H as (address & Haddr%map_err_Ok & H).
  apply rbind_Ok in H as (operation & Hop%map_err_Ok & H).
  apply rbind_Ok in H as (created & Hcr & H).
  apply rbind_Ok in H as (routed & Hr%map_err_Ok & H).
  pose proof (routed_wire_roundtrip _ _ _ _ (dyn_events_caused_by_command r) Hr) as Hwire.
  pose proof (routed_new_Ok _ _ _ _ Hr) as ->. cbn [with_events_caused_by_command rc_command rc_schema_version
    rc_payload rc_events_caused_by_command] in H, Hwire.
  apply rbind_Ok in H as (fp & Hfp & H).
  apply rbind_Ok in H as (correlation & Hcorr%map_err_Ok & H).
  apply effective_correlation_Ok in Hcorr as [Ecorr Hcorr]; [|exact Hc].
  apply rbind_Ok in H as (mid & Hmid & H). apply rbind_Ok in H as (sv & Hsv%map_err_Ok & H).
  apply rbind_Ok in H as (e & He%map_err_Ok & H). apply rbind_Ok in H as (e' & He' & H).
  apply rbind_Ok in H as (payload & Hp & H). destruct (_ <? _) eqn:El in H; [done|]. apply N.ltb_ge in El.
  apply rbind_Ok in H as (message & Hm%map_err_Ok & [= <-]).
  apply identifier_new_ok in Hop as [Hop Eop].
  assert (timestamp_ok created) as Hcreated.
  { destruct (dyn_created_at r) as [t|] eqn:Et; [injection Hcr as <-; by apply Ht|by eapply current_timestamp_ok]. }
  assert (attributed_envelope e (dyn_actor r) = Ok e') as Hat.
  { unfold attributed_envelope. destruct (dyn_actor r); cbn [from_option]; [by apply map_err_Ok in He'|by injection He' as <-]. }
  assert (schema_ok sv ∧ schema_get sv = dyn_schema_version r) as [Hsvo Esv]
    by (apply schema_deserialize_Ok; unfold SchemaVersion_deserialize; by rewrite Hsv).
  unfold canonical_serialize in Hp. apply rbind_Ok in Hp as (v & Hv%map_err_Ok & Hp%map_err_Ok).
  assert (from_slice payload = Ok (CommandEnvelope_serialize e')) as Hread
    by (eapply command_text_read; [|done..]; by rewrite (attributed_envelope_Ok _ _ _ _ _ _ _ He Hat)).
  pose proof Hmid as Hmid'. rewrite command_message_id_Ok in Hmid'. injection Hmid' as Emid.
  assert (identifier_ok mid) as Hmido by (rewrite <- Emid; apply message_of_ok).
  assert (context_valid (EnvelopeContext_new mid sv correlation (dyn_causation_id r))) as Hctx by by split.
  pose proof (read_constructed_envelope _ _ _ _ _ _ _ _ Hctx Hop Hcreated Hwire Ha He Hat Hread) as Henv.
  pose proof (attributed_envelope_Ok _ _ _ _ _ _ _ He Hat) as ->.
  unfold OutboundMessage_new, OutboundMessage_new_with_maximum_payload_bytes in Hm.
  apply rbind_Ok in Hm as (? & _ & [= <-]).
  eexists. split; cbn; try done.
Qed.

(** The causation recorded with the events: the command message itself when the
    submission asks for it or names no cause *)
Definition submitted_causation (r : DynamicCommandRequest) (c : EncodedCommand) : CausationId :=
  if dyn_events_caused_by_command r then CausationId_from_message (enc_message_id c)
  else default (CausationId_from_message (enc_message_id c)) (dyn_causation_id r).

Lemma message_as_causation (m : MessageId) :
  identifier_ok m → CausationId_new (id_str m) = Ok (CausationId_from_message m).
Proof. intros (_ & H)%identifier_new_Ok. by apply identifier_new_Ok. Qed.

Lemma encoding_message_ok r c envelope : encoding_of r c envelope → identifier_ok (enc_message_id c).
Proof. intros H. pose proof (eo_message_id _ _ _ H) as Hm. rewrite command_message_id_Ok in Hm. injection Hm as <-. apply message_of_ok. Qed.

Lemma encoding_causation r c envelope :
  encoding_of r c envelope → recorded_causation c envelope = Ok (submitted_causation r c).
Proof.
  intros H. pose proof (encoding_message_ok _ _ _ H) as Hm. unfold recorded_causation, submitted_causation.
  rewrite (eo_payload _ _ _ H), (eo_causation _ _ _ H), (message_as_causation _ Hm). cbn.
  by destruct (dyn_events_caused_by_command r), (dyn_causation_id r).
Qed.

Lemma encoding_consistent r c envelope :
  encoding_of r c envelope →
  command_consistent c envelope (enc_fingerprint c) (enc_message_id c) = true.
Proof.
  intros H. destruct (eo_ids _ _ _ H) as (E1 & E2 & E3 & E4). destruct (eo_actor _ _ _ H) as [A1 A2].
  unfold command_consistent. rewrite E1, E2, E3, E4, A1, A2, (eo_payload _ _ _ H), (eo_schema _ _ _ H).
  cbn [is_none_or rc_schema_version rc_command]. rewrite !bool_decide_eq_true_2 by done.
  rewrite N.eqb_refl. cbn [andb].
  pose proof (eo_address _ _ _ H) as Ha. apply address_build_parse in Ha as (_ & _ & _ & _ & ->).
  by rewrite String.eqb_refl.
Qed.

Lemma encoding_context r c envelope :
  encoding_of r c envelope →
  address_context (enc_address c) = context_str (bc_name (bus_context bus))
  ∧ BoundedContextName_new (address_context (enc_address c)) = Ok (bc_name (bus_context bus))
  ∧ bc_command_address (bus_context bus) (address_name (enc_address c)) = Ok (enc_address c).
Proof.
  intros H. pose proof (eo_address _ _ _ H) as Ha. pose proof Ha as Hb.
  apply address_build_parse in Hb as (Hp & _ & _ & Ec & En).
  destruct (address_ok_parts _ Hp) as ((_ & Hc & _) & _). rewrite Ec, En. split_and!; [done| |done].
  unfold BoundedContextName_new. rewrite Ec in Hc.
  erewrite (proj2 (validate_scope_name_Ok _ _ _) (conj eq_refl Hc)). cbn. by destruct (bc_name _).
Qed.

(** The metadata a submission is executed under *)
Definition submitted_metadata (r : DynamicCommandRequest) (c : EncodedCommand)
    (envelope : CommandEnvelope RoutedCommand) : CommandExecutionMetadata :=
  mkMetadata (dyn_actor r) None (Some (command_evidence c envelope)) (Some (bc_name (bus_context bus)))
    (dyn_operation_id r) (enc_fingerprint c) (Some (enc_correlation_id c))
    (Some (submitted_causation r c)).

Lemma encoding_validates r c envelope :
  request_ok r → encoding_of r c envelope →
  validate_command c (bc_name (bus_context bus))
  = Ok (envelope, submitted_metadata r c envelope,
        CommandBindingKey_new (context_str (bc_name (bus_context bus))) (dyn_command r)
          (dyn_schema_version r)).
Proof.
  intros Hr H. destruct (eo_ids _ _ _ H) as (E1 & E2 & E3 & E4). destruct (eo_actor _ _ _ H) as [A1 A2].
  destruct (encoding_context _ _ _ H) as (Ec & _). unfold validate_command. rewrite Ec, String.eqb_refl. cbn [negb].
  rewrite (eo_envelope _ _ _ H). cbn [map_err rbind]. rewrite A1, (eo_fingerprint _ _ _ H). cbn [bus_message map_err rbind].
  rewrite E2, E3, (eo_causation _ _ _ H), (eo_message_id _ _ _ H). cbn [bus_message map_err rbind].
  rewrite (encoding_consistent _ _ _ H). cbn [negb]. rewrite (proj1 (eo_operation _ _ _ H)), (ro_operation _ Hr).
  cbn [map_err rbind]. rewrite (encoding_causation _ _ _ H). cbn [rbind]. rewrite (eo_payload _ _ _ H).
  unfold submitted_metadata. by destruct (dyn_actor r).
Qed.

(** C3 (functional). Encoding and validation agree: a command the bus encodes
    passes every check that precedes publication, and the processor of the same
    context reads from it exactly what was submitted - the routed command, the
    operation, the actor, the explicit correlation or else the operation's, the
    recorded causation and the fingerprint of the routed content. *)
Theorem encoded_command_is_admitted clock r c :
  request_ok r → encode_dynamic bus clock r = Ok c →
  admit_encoded bus c = Ok tt
  ∧ ∃ envelope,
      validate_command c (bc_name (bus_context bus))
      = Ok (envelope, submitted_metadata r c envelope,
            CommandBindingKey_new (context_str (bc_name (bus_context bus))) (dyn_command r)
              (dyn_schema_version r))
      ∧ cmd_payload envelope = mkRoutedCommand (dyn_command r) (dyn_schema_version r) (dyn_payload r)
          (dyn_events_caused_by_command r)
      ∧ routed_command_execution_fingerprint (context_str (bc_name (bus_context bus)))
          (cmd_payload envelope) (dyn_actor r) = Ok (enc_fingerprint c)
      ∧ enc_correlation_id c = default (Identifier (ident_str (dyn_operation_id r))) (dyn_correlation_id r).
Proof.
  intros Hr H. destruct (encode_dynamic_Ok _ _ _ Hr H) as (envelope & He).
  pose proof (encoding_validates _ _ _ Hr He) as Hv. split.
  - unfold admit_encoded. rewrite (proj2 (N.ltb_ge _ _) (eo_size _ _ _ He)).
    destruct (encoding_context _ _ _ He) as (Ec & Hn & ->). cbn [map_err rbind].
    rewrite bool_decide_eq_true_2 by done. cbn [negb]. unfold validate_encoded, validated_metadata.
    rewrite Hn. cbn [contract_message map_err rbind]. by rewrite Hv.
  - exists envelope. split_and!; [done|apply He..].
Qed.

(** ** Dispatch *)

Lemma validate_response_Ok c response u :
  validate_response c response = Ok u ↔
  outcome_message_id (enc_message_id c) (rsp_outcome response) = Ok (rsp_message_id response)
  ∧ rsp_command_address response = enc_address c
  ∧ rsp_command_message_id response = enc_message_id c
  ∧ rsp_operation_id response = enc_operation_id c
  ∧ schema_get (rsp_schema_version response) = expected_schema_version (rsp_outcome response)
  ∧ rsp_correlation_id response = enc_correlation_id c.
Proof.
  unfold validate_response. split.
  - intros H. apply rbind_Ok in H as (m & Hm%map_err_Ok & H).
    repeat match type of H with
    | (if negb ?b then _ else _) = _ => let E := fresh "E" in destruct b eqn:E in H; cbn [negb] in H; [|done]
    end.
    apply bool_decide_eq_true in E, E0, E1, E2, E4. apply N.eqb_eq in E3. by subst m.
  - intros (-> & -> & -> & -> & -> & ->). cbn [map_err rbind].
    rewrite !bool_decide_eq_true_2 by done. rewrite N.eqb_refl. by destruct u.
Qed.

(** A returned receipt is the adapter's, and decides the command. *)
Lemma admit_receipt_Ok c answer receipt :
  admit_receipt c answer = Ok receipt →
  answer = Ok receipt ∧ validate_response c (cbr_response receipt) = Ok tt
  ∧ ∀ failure, rsp_outcome (cbr_response receipt) ≠ ResponseExecutionFailed failure.
Proof.
  unfold admit_receipt. intros H. apply rbind_Ok in H as (receipt' & -> & H).
  apply rbind_Ok in H as ([] & Hv%map_err_Ok & H).
  destruct (rsp_outcome (cbr_response receipt')) as [|rej|failure] eqn:Eo; [..|discriminate H];
    injection H as <-; by rewrite Eo.
Qed.

(** What a dispatch returns belongs to the command dispatched: a
    returned receipt is the adapter's answer to a command that passed every
    check, its response carries this command's address, message, operation and
    correlation and the identity derived from them, and it is a decision, never
    a technical diagnostic. A command that fails a check reaches no adapter:
    nothing is published and no state changes. *)
Theorem dispatched_receipt_belongs_to_command (s : S) c :
  match admit_encoded bus c with
  | Err e => dispatch_encoded bus s c = (s, [], Err e)
  | Ok _ =>
    ∃ s' publications answer,
      adapter_dispatch (bus_adapter bus) s c = (s', publications, answer)
      ∧ ∃ r, dispatch_encoded bus s c = (s', publications, r)
      ∧ ∀ receipt, r = Ok receipt →
          answer = Ok receipt
          ∧ rsp_command_address (cbr_response receipt) = enc_address c
          ∧ rsp_command_message_id (cbr_response receipt) = enc_message_id c
          ∧ rsp_operation_id (cbr_response receipt) = enc_operation_id c
          ∧ rsp_correlation_id (cbr_response receipt) = enc_correlation_id c
          ∧ command_response_message_id (enc_message_id c) = Ok (rsp_message_id (cbr_response receipt))
          ∧ ∀ failure, rsp_outcome (cbr_response receipt) ≠ ResponseExecutionFailed failure
  end.
Proof.
  unfold dispatch_encoded. destruct (admit_encoded bus c) as [u|e]; [|done].
  destruct (adapter_dispatch _ _ _) as [[s' publications] answer]. eexists _, _, _. split; [done|].
  eexists. split; [done|]. intros receipt (-> & Hv & Hf)%admit_receipt_Ok.
  apply validate_response_Ok in Hv as (Hm & Ha & Hc & Ho & _ & Hk). split_and!; try done.
  destruct (rsp_outcome (cbr_response receipt)) as [| |failure]; [done..|by destruct (Hf failure)].
Qed.

End Encoded.
