(* ===== verification/CommandProcessor.v ===== *)
(** * CommandProcessor: command bindings and the processing of encoded commands
    over an execution store - the trusted profile and the authorized, audited
    service (crates/rostfrei-runtime/src/command_bus.rs,
    command_bus/processing.rs and command_service.rs). *)

From S2P Require Export CommandBus.

(** * Trusted callers, authorization, processed commands and their admission, and audit
    records (crates/rostfrei-runtime/src/command_service.rs). *)

(** ** Callers and authorization *)

Record PrincipalId := mkPrincipal { principal_str : string }.

Definition PrincipalId_new (value : string) : result PrincipalId IdentityError :=
  let? _ := ident_new KSecurityScope value in
  Ok (mkPrincipal value).

Record TrustedCommandContext := TrustedCommandContext_new {
  caller_principal : PrincipalId;
  caller_scope : SecurityScope;
}.

Inductive CommandAccess := ReadOutcome | Execute.

(** [CommandAuthorizer] over [ValidatedCommand]: what the policy answers *)
Definition CommandAuthorizer : Type :=
  TrustedCommandContext → EncodedCommand → CommandAccess → result unit AuthorizationError.
Definition AllowAllCommands : CommandAuthorizer := λ _ _ _, Ok tt.

(** ** Processed commands *)

Inductive CompletionOrigin := Committed | Replayed.

#[global] Instance downcast_response `{JT : JsonText} : Downcast CommandResponse := λ _, None.

Section Service.
Context `{JT : JsonText} `{SHA : Sha256} `{CEJ : JsonCodec (CommandEnvelopeWire RoutedCommandWire)}.
Context (debug_str : string → string).

Record ProcessedCommand := ProcessedCommand_new {
  pc_origin : CompletionOrigin;
  pc_outcome : CompletedOutcome CommandResponse;
}.

Definition admission_error (message : string) : CommandProcessorError :=
  CommandProcessorError_new ProcessorDetailsBlocked message.

(** Whether a response states the decision the marker records *)
Definition decision_agrees (decision : OutcomeDecision) (outcome : CommandResponseOutcome) : bool :=
  match decision, outcome with
  | Accepted, ResponseAccepted | Rejected, ResponseRejected _ => true
  | _, _ => false
  end.

(** [ProcessedCommand::admit_outcome] *)
Definition admit_outcome (processed : ProcessedCommand) (caller : TrustedCommandContext)
    (command : EncodedCommand) : result CommandResponse CommandProcessorError :=
  let? metadata := validated_metadata command in
  let metadata := with_security_scope metadata (caller_scope caller) in
  let marker := co_marker (pc_outcome processed) in
  let key := ref_key (mk_reference marker) in
  fail! negb (bool_decide (Some (key_context key) = cem_bounded_context metadata))
        || negb (bool_decide (key_operation key = cem_operation_id metadata))
        || is_none (mk_evidence marker)
    with admission_error "service completion has no matching original request identity";
  let? _ := map_err (λ e, admission_error (EventStoreError_display e))
    (validate_identity marker metadata) in
  let? _ := map_err (λ e, admission_error (EventStoreError_display e))
    (validate_integrity (mk_integrity marker)) in
  let? response := map_err (processor_recovery debug_str) (available (co_details (pc_outcome processed))) in
  let? _ := map_err (λ e, admission_error (InvalidCommandResponse_display e))
    (validate_response command response) in
  fail! negb (decision_agrees (marker_decision marker) (rsp_outcome response))
    with admission_error "service response contradicts the permanent decision";
  Ok response.

End Service.
Arguments ProcessedCommand {JT}.

(** ** Audit *)

Inductive AuditPhase := Started | Finished.
Inductive AuditTerminal :=
| AuditCommitted | AuditReplayed | AuditMissing | AuditDenied | AuditFailed | AuditExpired
| AuditUnavailable.

#[global] Instance AuditPhase_eq_dec : EqDecision AuditPhase.
Proof. solve_decision. Defined.
#[global] Instance AuditTerminal_eq_dec : EqDecision AuditTerminal.
Proof. solve_decision. Defined.

Record AuditError := AuditError_new { audit_message : string }.

(** [AttemptId::generate] joins the process, the time and a counter; the text is
    an argument. *)
Record CommandAuditRecord := mkAuditRecord {
  ar_attempt : string;
  ar_phase : AuditPhase;
  ar_terminal : option AuditTerminal;
  ar_command : MessageId;
  ar_original : list byte;
  ar_caller : TrustedCommandContext;
}.

Inductive AuditDelivery :=
| AuditDisabled
| AuditDelivered
| AuditDeliveryFailed (records : list (AuditPhase * AuditError)).

(** [CommandAuditSink] over a state: the state it leaves and its answer, or none
    when it does not answer in time *)
Definition CommandAuditSink (A : Type) : Type := A → CommandAuditRecord → A * option (result unit AuditError).

(** [ServiceReport] *)
Record ServiceReport (T : Type) := ServiceReport_new {
  sr_result : result T CommandProcessorError;
  sr_attempt : string;
  sr_audit : AuditDelivery;
}.
Arguments ServiceReport_new {T}.
Arguments sr_result {T}.
Arguments sr_attempt {T}.
Arguments sr_audit {T}.

(** [InMemoryCommandAuditSink]: its records, oldest first, and its capacity *)
Record InMemoryCommandAuditSink := mkMemorySink {
  sink_records : list CommandAuditRecord;
  sink_maximum : N;
}.
Definition InMemoryCommandAuditSink_new (maximum : N) : InMemoryCommandAuditSink :=
  mkMemorySink [] maximum.
Definition sink_clear (sink : InMemoryCommandAuditSink) : InMemoryCommandAuditSink :=
  mkMemorySink [] (sink_maximum sink).

(** Its [record] *)
Definition sink_record (sink : InMemoryCommandAuditSink) (record : CommandAuditRecord)
  : InMemoryCommandAuditSink * result unit AuditError :=
  if sink_maximum sink =? 0
  then (sink, Err (AuditError_new "audit retention capacity is zero"))
  else
    let records := if sink_maximum sink <=? len (sink_records sink) then tail (sink_records sink)
                   else sink_records sink in
    (mkMemorySink (records ++ [record]) (sink_maximum sink), Ok tt).

(** The sink keeps the latest records, at most its capacity. *)
Lemma sink_record_latest sink record :
  0 < sink_maximum sink → len (sink_records sink) <= sink_maximum sink →
  let sink' := (sink_record sink record).1 in
  len (sink_records sink') <= sink_maximum sink' ∧ last (sink_records sink') = Some record
  ∧ ∃ dropped, dropped ++ sink_records sink' = sink_records sink ++ [record] ∧ len dropped <= 1.
Proof.
  intros Hm Hl. unfold sink_record. rewrite (proj2 (N.eqb_neq _ _)) by lia. cbn [fst sink_records sink_maximum].
  rewrite last_snoc. destruct (sink_maximum sink <=? len (sink_records sink)) eqn:E.
  - apply N.leb_le in E. destruct (sink_records sink) as [|r rs]; [change (len []) with 0 in E; lia|].
    rewrite len_cons in Hl. cbn [tail]. rewrite len_app. change (len [record]) with 1.
    split_and!; [lia|done|]. by exists [r].
  - apply N.leb_gt in E. rewrite len_app. change (len [record]) with 1. split_and!; [lia|done|].
    exists []. split; [done|]. change (len (@nil CommandAuditRecord)) with 0. lia.
Qed.

(** * Command bindings and the processing of encoded commands over an execution store - the
    trusted profile and the authorized, audited service (crates/rostfrei-
    runtime/src/command_bus.rs and command_bus/processing.rs). *)

(** ** Bindings *)

Inductive BindingError :=
| BindingInvalidPayload (reason : string)
| BindingExecution (e : CommandExecutionError).

Inductive CommandBindingRegistrationError :=
| BindingContextMismatch (command_context processor_context : string)
| BindingDuplicate (context command : string) (schema_version : N).

(** [json!({ "reason": reason })] *)
Definition reason_details `{JT : JsonText} (reason : string) : JValue :=
  VObject [("reason", VString reason)].

Section Bindings.
Context `{JT : JsonText} `{SHA : Sha256} `{AG : Aggregates M}.

(** [CommandRejectionMapper] *)
Definition CommandRejectionMapper (R : Type) : Type := R → result CommandRejection string.

(** [JsonDomainRejectionMapper]: the code, the message and the JSON of a domain
    error come from its type. *)
Definition JsonDomainRejectionMapper {R} (code message : string) (encode : R → result JValue string)
    (classification : CommandRejectionClassification) : CommandRejectionMapper R := λ rejection,
  let? details := encode rejection in
  let? code := map_err ContractError_display (ApplicationErrorCode_new code) in
  map_err ContractError_display (CommandRejection_new classification code message (Some details)).

Definition InfallibleCommandRejectionMapper : CommandRejectionMapper Empty_set := λ _,
  Err "an infallible command produced a rejection".

(** What [MappedCommandHandler] makes of its handler's result *)
Definition map_decision {R} (mapper : CommandRejectionMapper R)
    (decision : result (CommandDecision R) CommandExecutionError)
  : result (CommandDecision CommandRejection) CommandExecutionError :=
  match decision with
  | Ok DecisionAccepted => Ok DecisionAccepted
  | Ok (DecisionRejected rejection) =>
    rmap DecisionRejected (map_err ErrRejectionMapping (mapper rejection))
  | Err (ErrStore error) =>
    if bool_decide (se_kind error = InvalidRequest)
    then rmap DecisionRejected (map_err (λ e, ErrRejectionMapping (CommandProcessorError_display e))
           (framework_rejection RejectInvalidRequest INVALID_COMMAND_CODE
              "The command cannot be executed for the requested unit of work."
              (Some (reason_details (se_message error)))))
    else Err (ErrStore error)
  | Err error => Err error
  end.

Definition mapped_handler {R} (handler : Handler M R) (mapper : CommandRejectionMapper R)
  : Handler M CommandRejection := λ history execution trackers,
  let '(decision, execution, trackers) := handler history execution trackers in
  (map_decision mapper decision, execution, trackers).

(** [FixedRejection] *)
Definition fixed_rejection (rejection : CommandRejection) : Handler M CommandRejection :=
  λ _ execution trackers, (Ok (DecisionRejected rejection), execution, trackers).

(** [ErasedCommandBinding]: the type's name, and the handler of the command a
    payload decodes to *)
Record CommandBinding := mkBinding {
  binding_type_name : string;
  binding_handler : JValue → result (Handler M CommandRejection) string;
}.

Definition TypedCommandBinding {C R} `{!JsonCommandPayload C} (type_name : string)
    (handler : C → Handler M R) (mapper : CommandRejectionMapper R) : CommandBinding :=
  mkBinding type_name
    (λ payload, rmap (λ command, mapped_handler (handler command) mapper) (payload_decode_json payload)).

End Bindings.
Arguments CommandBinding {JT} M {AG}.

(** ** Processors *)

Section Processor.
Context `{JT : JsonText} `{RSJ : !ResponseJson} `{SHA : Sha256}.
Context `{CEJ : JsonCodec (CommandEnvelopeWire RoutedCommandWire)} `{RWJ : JsonCodec CommandRejectionWire}.
Context `{AG : Aggregates M} {S : Type} `{ES : ExecutionStore S} {A : Type}.
Context (debug_str : string → string).

Record Configuration := mkConfiguration {
  cfg_shared_codecs : bool;
  cfg_route : option BoundedContext;
  cfg_authorizer : option CommandAuthorizer;
  cfg_rejection_codec : RejectionCodec CommandRejection;
  cfg_retry : ConflictRetryPolicy;
  cfg_audit : option (CommandAuditSink A);
  cfg_timeout : N;
}.

(** [Configuration::trusted] *)
Definition Configuration_trusted : Configuration :=
  mkConfiguration false None None (CommandRejectionCodec "rostfrei.command-rejection" 1)
    (BoundedConflictRetries 3) None nanos_per_second.

Record CommandProcessor := mkProcessor {
  proc_context : BoundedContextName;
  proc_codecs : AggregateCodecs M;
  proc_bindings : gmap CommandBindingKey (CommandBinding M);
  proc_configuration : Configuration;
}.

Definition CommandProcessor_new (context : BoundedContextName) : CommandProcessor :=
  mkProcessor context AggregateCodecs_default ∅ Configuration_trusted.

Definition proc_with_configuration (p : CommandProcessor) (c : Configuration) : CommandProcessor :=
  mkProcessor (proc_context p) (proc_codecs p) (proc_bindings p) c.

Definition cfg_share (c : Configuration) : Configuration :=
  mkConfiguration true (cfg_route c) (cfg_authorizer c) (cfg_rejection_codec c) (cfg_retry c)
    (cfg_audit c) (cfg_timeout c).

Definition with_event_codecs (p : CommandProcessor) (codecs : AggregateCodecs M) : CommandProcessor :=
  mkProcessor (proc_context p) codecs (proc_bindings p) (cfg_share (proc_configuration p)).

(** [CommandProcessor::register_codec] *)
Definition proc_register_codec (p : CommandProcessor) (m : M) (codec : EventCodec m)
  : result CommandProcessor CodecRegistrationError :=
  fail! cfg_shared_codecs (proc_configuration p) with SharedConfiguration;
  let? codecs := register_codec (proc_codecs p) m codec in
  Ok (mkProcessor (proc_context p) codecs (proc_bindings p) (proc_configuration p)).

(** [CommandProcessor::register] *)
Definition proc_register {C R} `{!JsonCommandPayload C} (p : CommandProcessor) (type_name : string)
    (handler : C → Handler M R) (mapper : CommandRejectionMapper R)
  : result CommandProcessor CommandBindingRegistrationError :=
  let context := payload_context C in
  fail! negb (String.eqb context (context_str (proc_context p)))
    with BindingContextMismatch context (context_str (proc_context p));
  let key := CommandBindingKey_new context (payload_local_id C) (payload_schema_version C) in
  fail! is_some (proc_bindings p !! key)
    with BindingDuplicate context (payload_local_id C) (payload_schema_version C);
  Ok (mkProcessor (proc_context p) (proc_codecs p)
        (<[key := TypedCommandBinding type_name handler mapper]> (proc_bindings p))
        (proc_configuration p)).

(** ** The builder *)

Definition configuration_error (message : string) : CommandProcessorError :=
  CommandProcessorError_new ProcessorInvalidConfiguration message.

(** [CommandProcessor::builder]: the processor under construction *)
Definition processor_builder (context : BoundedContext) : CommandProcessor :=
  let p := CommandProcessor_new (bc_name context) in
  let c := proc_configuration p in
  proc_with_configuration p
    (mkConfiguration (cfg_shared_codecs c) (Some context) (cfg_authorizer c) (cfg_rejection_codec c)
       (cfg_retry c) (cfg_audit c) (cfg_timeout c)).
Definition builder_authorizer (p : CommandProcessor) (policy : CommandAuthorizer) :=
  let c := proc_configuration p in
  proc_with_configuration p
    (mkConfiguration (cfg_shared_codecs c) (cfg_route c) (Some policy) (cfg_rejection_codec c)
       (cfg_retry c) (cfg_audit c) (cfg_timeout c)).
Definition builder_event_codecs := with_event_codecs.
Definition builder_rejection_codec (p : CommandProcessor) (codec : RejectionCodec CommandRejection) :=
  let c := proc_configuration p in
  proc_with_configuration p
    (mkConfiguration (cfg_shared_codecs c) (cfg_route c) (cfg_authorizer c) codec
       (cfg_retry c) (cfg_audit c) (cfg_timeout c)).
Definition builder_conflict_retry_policy (p : CommandProcessor) (policy : ConflictRetryPolicy) :=
  let c := proc_configuration p in
  proc_with_configuration p
    (mkConfiguration (cfg_shared_codecs c) (cfg_route c) (cfg_authorizer c) (cfg_rejection_codec c)
       policy (cfg_audit c) (cfg_timeout c)).
Definition builder_audit_sink (p : CommandProcessor) (sink : CommandAuditSink A) :=
  let c := proc_configuration p in
  proc_with_configuration p
    (mkConfiguration (cfg_shared_codecs c) (cfg_route c) (cfg_authorizer c) (cfg_rejection_codec c)
       (cfg_retry c) (Some sink) (cfg_timeout c)).
Definition builder_audit_timeout (p : CommandProcessor) (timeout : N) :=
  let c := proc_configuration p in
  proc_with_configuration p
    (mkConfiguration (cfg_shared_codecs c) (cfg_route c) (cfg_authorizer c) (cfg_rejection_codec c)
       (cfg_retry c) (cfg_audit c) timeout).
Definition builder_build (p : CommandProcessor) : result CommandProcessor CommandProcessorError :=
  fail! is_none (cfg_authorizer (proc_configuration p)) || (cfg_timeout (proc_configuration p) =? 0)
    with configuration_error "an explicit authorizer and a positive audit timeout are required";
  Ok p.

(** ** Lookups and projections *)

Definition require_trusted_profile (p : CommandProcessor) : result unit CommandProcessorError :=
  fail! is_some (cfg_authorizer (proc_configuration p)) || is_some (cfg_route (proc_configuration p))
    with configuration_error "policy-enabled processing requires trusted caller context";
  Ok tt.

Definition validate_service (p : CommandProcessor) (encoded : EncodedCommand)
  : result unit CommandProcessorError :=
  let? _ := validate_command encoded (proc_context p) in
  let? route := ok_or (cfg_route (proc_configuration p))
    (configuration_error "use the processor builder for context-aware processing") in
  fail! negb (String.eqb (address_application (enc_address encoded))
                (application_str (bc_application route)))
        || negb (bool_decide (address_scope (enc_address encoded) = bc_traffic_scope route))
    with invalid_message "command application or traffic scope differs from processor route";
  Ok tt.

(** [project] *)
Definition project (p : CommandProcessor) (encoded : EncodedCommand)
    (outcome : CompletedOutcome EncodedOutcomeDetails)
  : result (CompletedOutcome CommandResponse) CommandProcessorError :=
  completed_try_map (processor_recovery debug_str) outcome (λ details,
    let? response :=
      match details_rejection details with
      | Some rejection =>
        rmap ResponseRejected
          (map_err (λ e, CommandProcessorError_new ProcessorDetailsBlocked (EventCodecError_display e))
             (rc_decode (RejectionCodec := cfg_rejection_codec (proc_configuration p)) rejection))
      | None => Ok ResponseAccepted
      end in
    build_response encoded response).

Definition recovery_failure (e : EventStoreError) : CommandProcessorError :=
  processor_execution debug_str (ErrStore (in_outcome_recovery e)).

(** [lookup_metadata] *)
Definition lookup_metadata (p : CommandProcessor) (i : Interference) (s : S)
    (encoded : EncodedCommand) (metadata : CommandExecutionMetadata)
  : result (OutcomeLookup CommandResponse) CommandProcessorError :=
  let key := mkOutcomeKey es_authority (proc_context p) (cem_operation_id metadata) in
  let? found := map_err recovery_failure (es_lookup_outcome i s key) in
  match found with
  | Missing => Ok Missing
  | Completed outcome =>
    let? _ := map_err recovery_failure (validate_for outcome key metadata) in
    rmap Completed (project p encoded outcome)
  end.

(** [project_commit] *)
Definition project_commit (p : CommandProcessor) (encoded : EncodedCommand) (commit : CompletedCommit)
  : result ProcessedCommand CommandProcessorError :=
  let origin := if commit_is_exact_replay commit then Replayed else Committed in
  rmap (ProcessedCommand_new origin) (project p encoded (commit_outcome_of commit)).

(** ** Execution *)

Definition processor_executor (p : CommandProcessor) : CommandExecutor M :=
  with_conflict_retry_policy (executor_with_codecs (proc_codecs p)) (cfg_retry (proc_configuration p)).

(** The [execute] of a binding *)
Definition binding_execute (fuel : nat) (p : CommandProcessor) (env : Environment S)
    (binding : CommandBinding M) (metadata : CommandExecutionMetadata) (payload : JValue) (s : S)
  : option (S * result CompletedCommit BindingError) :=
  match binding_handler binding payload with
  | Err reason => Some (s, Err (BindingInvalidPayload reason))
  | Ok handler =>
    '(s, commit) ← execute_completed fuel (processor_executor p)
       (cfg_rejection_codec (proc_configuration p)) handler env (binding_type_name binding) metadata s;
    Some (s, map_err BindingExecution commit)
  end.

(** The details of the rejection of an unknown command *)
Definition unknown_command_details (number : N → Number) (encoded : EncodedCommand)
    (routed : RoutedCommand) : JValue :=
  VObject [("command", VString (rc_command routed));
           ("context", VString (address_context (enc_address encoded)));
           ("schema_version", VNumber (number (rc_schema_version routed)))].

(** [serde_json::Number::from] of a 32-bit integer *)
Context (number : N → Number).

(** [execute_missing] executes and records the decision of [rejection] itself
    when there is no handler to ask. *)
Definition execute_rejection (fuel : nat) (p : CommandProcessor) (env : Environment S)
    (encoded : EncodedCommand) (metadata : CommandExecutionMetadata)
    (rejection : result CommandRejection CommandProcessorError) (s : S)
  : option (S * result ProcessedCommand CommandProcessorError) :=
  match rejection with
  | Err e => Some (s, Err e)
  | Ok rejection =>
    '(s, commit) ← execute_completed fuel (processor_executor p)
       (cfg_rejection_codec (proc_configuration p)) (fixed_rejection rejection) env "()" metadata s;
    Some (s, let? commit := map_err (processor_execution debug_str) commit in
             project_commit p encoded commit)
  end.

Definition execute_missing (fuel : nat) (p : CommandProcessor) (env : Environment S)
    (encoded : EncodedCommand) (metadata : CommandExecutionMetadata) (s : S)
  : option (S * result ProcessedCommand CommandProcessorError) :=
  match validate_command encoded (proc_context p) with
  | Err e => Some (s, Err e)
  | Ok (envelope, _, key) =>
    let routed := cmd_payload envelope in
    match proc_bindings p !! key with
    | Some binding =>
      '(s, executed) ← binding_execute fuel p env binding metadata (rc_payload routed) s;
      match executed with
      | Ok commit => Some (s, project_commit p encoded commit)
      | Err (BindingExecution error) => Some (s, Err (processor_execution debug_str error))
      | Err (BindingInvalidPayload reason) =>
        execute_rejection fuel p env encoded metadata
          (framework_rejection RejectInvalidRequest INVALID_PAYLOAD_CODE
             "The command payload is invalid." (Some (reason_details reason))) s
      end
    | None =>
      execute_rejection fuel p env encoded metadata
        (framework_rejection RejectInvalidRequest UNKNOWN_COMMAND_CODE
           "The command name or schema version is not registered."
           (Some (unknown_command_details number encoded routed))) s
    end
  end.

(** ** The trusted profile *)

(** The store accesses of one processing: the state its lookup finds and what
    other callers do meanwhile, then the environment of its execution *)
Record ProcessEnvironment := mkProcessEnvironment {
  pe_before : S → S;
  pe_during : Interference;
  pe_execution : Environment S;
}.

(** [CommandProcessor::reconcile_completed], from the state the lookup finds *)
Definition reconcile_completed (p : CommandProcessor) (i : Interference) (s : S)
    (encoded : EncodedCommand) : result (option CommandResponse) CommandProcessorError :=
  let? _ := require_trusted_profile p in
  let? validated := validate_command encoded (proc_context p) in
  match reconcile (cfg_rejection_codec (proc_configuration p)) i s validated.1.2 with
  | Ok None => Ok None
  | Ok (Some (OutcomeAccepted _)) => rmap Some (build_response encoded ResponseAccepted)
  | Ok (Some (OutcomeRejected rejection)) =>
    rmap Some (build_response encoded (ResponseRejected rejection))
  | Err error =>
    if (match error with ErrStore e => bool_decide (se_kind e = IdentityConflict) | _ => false end)
    then
      let? rejection := operation_conflict in
      rmap Some (build_response encoded (ResponseRejected rejection))
    else Err (processor_execution debug_str error)
  end.

(** What [process] makes of an execution *)
Definition process_answer (encoded : EncodedCommand)
    (processed : result ProcessedCommand CommandProcessorError)
  : result CommandResponse CommandProcessorError :=
  match processed with
  | Ok processed =>
    map_err (processor_recovery debug_str) (available (co_details (pc_outcome processed)))
  | Err error =>
    if bool_decide (cpe_kind error = ProcessorIdentityConflict)
    then let? rejection := operation_conflict in build_response encoded (ResponseRejected rejection)
    else Err error
  end.

(** [CommandProcessor::process] *)
Definition process (fuel : nat) (p : CommandProcessor) (env : ProcessEnvironment)
    (encoded : EncodedCommand) (s : S)
  : option (S * result CommandResponse CommandProcessorError) :=
  let s := pe_before env s in
  match reconcile_completed p (pe_during env) s encoded with
  | Err e => Some (s, Err e)
  | Ok (Some response) => Some (s, Ok response)
  | Ok None =>
    match validate_command encoded (proc_context p) with
    | Err e => Some (s, Err e)
    | Ok (_, metadata, _) =>
      '(s, processed) ← execute_missing fuel p (pe_execution env) encoded metadata s;
      Some (s, process_answer encoded processed)
    end
  end.

(** ** The authorized service *)

(** [authorized_lookup], from the state the lookup finds *)
Definition authorized_lookup (p : CommandProcessor) (i : Interference) (s : S)
    (caller : TrustedCommandContext) (encoded : EncodedCommand)
  : result (OutcomeLookup CommandResponse) CommandProcessorError :=
  let? policy := ok_or (cfg_authorizer (proc_configuration p))
    (configuration_error "no authorization policy") in
  let? _ := map_err processor_authorization (policy caller encoded ReadOutcome) in
  let? validated := validate_command encoded (proc_context p) in
  lookup_metadata p i s encoded (with_security_scope validated.1.2 (caller_scope caller)).

(** [process_authorized] *)
Definition process_authorized (fuel : nat) (p : CommandProcessor) (env : ProcessEnvironment)
    (caller : TrustedCommandContext) (encoded : EncodedCommand) (s : S)
  : option (S * result ProcessedCommand CommandProcessorError) :=
  let s := pe_before env s in
  match authorized_lookup p (pe_during env) s caller encoded with
  | Err e => Some (s, Err e)
  | Ok (Completed outcome) => Some (s, Ok (ProcessedCommand_new Replayed outcome))
  | Ok Missing =>
    match (let? policy := ok_or (cfg_authorizer (proc_configuration p))
             (configuration_error "no authorization policy") in
           let? _ := map_err processor_authorization (policy caller encoded Execute) in
           validate_command encoded (proc_context p)) with
    | Err e => Some (s, Err e)
    | Ok (_, metadata, _) =>
      execute_missing fuel p (pe_execution env) encoded
        (with_security_scope metadata (caller_scope caller)) s
    end
  end.

(** ** Auditing *)

(** [audit]: the sink's state and the failed deliveries *)
Definition audit (p : CommandProcessor) (a : A) (record : CommandAuditRecord)
    (errors : list (AuditPhase * AuditError)) : A * list (AuditPhase * AuditError) :=
  match cfg_audit (proc_configuration p) with
  | None => (a, errors)
  | Some sink =>
    let (a, answer) := sink a record in
    match default (Err (AuditError_new "audit delivery timed out")) answer with
    | Ok _ => (a, errors)
    | Err error => (a, errors ++ [(ar_phase record, error)])
    end
  end.

(** The terminal of a failed operation *)
Definition failed_terminal (e : CommandProcessorError) : AuditTerminal :=
  match cpe_authorization e with
  | Some Denied | Some Unauthenticated => AuditDenied
  | _ => AuditFailed
  end.

Definition availability_terminal (outcome : CompletedOutcome CommandResponse)
    (available : AuditTerminal) : AuditTerminal :=
  match co_details outcome with
  | Available _ => available
  | Expired => AuditExpired
  | _ => AuditUnavailable
  end.

(** [report] of an operation over the store *)
Definition report {T} (p : CommandProcessor) (attempt : string) (caller : TrustedCommandContext)
    (encoded : EncodedCommand) (operation : S → option (S * result T CommandProcessorError))
    (terminal : T → AuditTerminal) (a : A) (s : S) : option (A * S * ServiceReport T) :=
  match validate_service p encoded with
  | Err error => Some (a, s, ServiceReport_new (Err error) attempt AuditDisabled)
  | Ok _ =>
    let record := mkAuditRecord attempt Started None (enc_message_id encoded) (enc_payload encoded) caller in
    let (a, errors) := audit p a record [] in
    '(s, result) ← operation s;
    let terminal := match result with Ok value => terminal value | Err error => failed_terminal error end in
    let record := mkAuditRecord attempt Finished (Some terminal) (enc_message_id encoded)
      (enc_payload encoded) caller in
    let (a, errors) := audit p a record errors in
    let delivery :=
      if is_none (cfg_audit (proc_configuration p)) then AuditDisabled
      else match errors with [] => AuditDelivered | _ => AuditDeliveryFailed errors end in
    Some (a, s, ServiceReport_new result attempt delivery)
  end.

Definition processed_terminal (processed : ProcessedCommand) : AuditTerminal :=
  availability_terminal (pc_outcome processed)
    match pc_origin processed with Committed => AuditCommitted | Replayed => AuditReplayed end.
Definition lookup_terminal (lookup : OutcomeLookup CommandResponse) : AuditTerminal :=
  match lookup with
  | Missing => AuditMissing
  | Completed outcome => availability_terminal outcome AuditReplayed
  end.

(** [CommandProcessingService::process] *)
Definition service_process (fuel : nat) (p : CommandProcessor) (attempt : string)
    (env : ProcessEnvironment) (caller : TrustedCommandContext) (encoded : EncodedCommand)
    (a : A) (s : S) : option (A * S * ServiceReport ProcessedCommand) :=
  report p attempt caller encoded (process_authorized fuel p env caller encoded) processed_terminal a s.

(** [CommandProcessingService::lookup] *)
Definition service_lookup (p : CommandProcessor) (attempt : string) (env : ProcessEnvironment)
    (caller : TrustedCommandContext) (encoded : EncodedCommand) (a : A) (s : S)
  : option (A * S * ServiceReport (OutcomeLookup CommandResponse)) :=
  report p attempt caller encoded
    (λ s, let s := pe_before env s in
          Some (s, authorized_lookup p (pe_during env) s caller encoded))
    lookup_terminal a s.

End Processor.
