(* ===== verification/CommandProcessorFacts.v ===== *)
(** * CommandProcessorFacts: processing terminates, answers only with responses
    of the command it processed, and lets an unauthorized caller neither change
    nor learn anything. *)

From S2P Require Export CommandBusFacts CommandProcessor Executor.

Section Responses.
Context `{JT : JsonText} `{RSJ : !ResponseJson} `{SHA : Sha256}.

Lemma new_response_is_valid (c : EncodedCommand) (m : MessageId) v out r :
  outcome_message_id (enc_message_id c) out = Ok m →
  CommandResponse_new m (enc_message_id c) (enc_address c) (enc_operation_id c) v
    (enc_correlation_id c) out = Ok r →
  validate_response c r = Ok tt ∧ rsp_outcome r = out.
Proof.
  intros Hm (-> & Hv & _)%response_new_Ok. split; [|done]. by apply validate_response_Ok.
Qed.

(** Every response the framework builds for a command is one the command's
    sender accepts. *)
Lemma built_response_is_valid c outcome r :
  build_response c outcome = Ok r → validate_response c r = Ok tt ∧ rsp_outcome r = outcome.
Proof.
  unfold build_response. intros H. apply rbind_Ok in H as (m & Hm%map_err_Ok & H%map_err_Ok).
  destruct outcome; apply rbind_Ok in H as (v & _ & H); by eapply new_response_is_valid.
Qed.

End Responses.

Section Facts.
Context `{JT : JsonText} `{RSJ : !ResponseJson} `{SHA : Sha256}.
Context `{CEJ : JsonCodec (CommandEnvelopeWire RoutedCommandWire)} `{RWJ : JsonCodec CommandRejectionWire}.
Context `{AG : Aggregates M} {S : Type} `{ES : ExecutionStore S} {A : Type}.
Context (debug_str : string → string) (number : N → Number).
Implicit Types (p : CommandProcessor (M := M) (A := A)).

(** A response that states a decision on the command *)
Definition answers (c : EncodedCommand) (r : CommandResponse) : Prop :=
  validate_response c r = Ok tt ∧ ∀ failure, rsp_outcome r ≠ ResponseExecutionFailed failure.

Lemma built_answer c outcome r :
  build_response c outcome = Ok r → (∀ f, outcome ≠ ResponseExecutionFailed f) → answers c r.
Proof. intros [Hv <-]%built_response_is_valid H. by split. Qed.

Lemma conflict_answer c r :
  (let? rejection := operation_conflict in build_response c (ResponseRejected rejection)) = Ok r →
  answers c r.
Proof. intros (x & _ & H)%rbind_Ok. by apply built_answer in H. Qed.

Lemma projected_answer p c o o' r :
  project debug_str p c o = Ok o' → co_details o' = Available r → answers c r.
Proof.
  unfold project, completed_try_map. intros H Ha. apply rbind_Ok in H as (u & _ & H).
  apply rbind_Ok in H as (d & Hd & H%map_err_Ok). unfold CompletedOutcome_new in H.
  apply rbind_Ok in H as (v & _ & [= <-]). cbn in Ha. subst d.
  destruct (co_details o) as [x| | |] in Hd; try discriminate Hd. cbn in Hd.
  apply rmap_Ok in Hd as (r' & Hr & [= <-]). apply rbind_Ok in Hr as (out & Hout & Hr).
  apply built_answer in Hr; [done|]. intros f ->.
  destruct (details_rejection x); [by apply rmap_Ok in Hout as (? & _ & [=])|discriminate Hout].
Qed.

Lemma reconciled_answer p i s c r : reconcile_completed debug_str p i s c = Ok (Some r) → answers c r.
Proof.
  unfold reconcile_completed. intros H. apply rbind_Ok in H as (u & _ & H).
  apply rbind_Ok in H as (v & _ & H).
  destruct (reconcile _ _ _ _) as [[[receipt|rejection]|]|e]; [..|destruct (match e with ErrStore _ => _ | _ => _ end)];
    try discriminate H.
  - apply rmap_Ok in H as (x & Hx & [= <-]). by apply built_answer in Hx.
  - apply rmap_Ok in H as (x & Hx & [= <-]). by apply built_answer in Hx.
  - apply rbind_Ok in H as (rejection & _ & H). apply rmap_Ok in H as (x & Hx & [= <-]).
    by apply built_answer in Hx.
Qed.

(** Every details a processing returns are the projection of an outcome. *)
Definition projects p c (processed : ProcessedCommand) : Prop :=
  ∃ o, project debug_str p c o = Ok (pc_outcome processed).

Lemma committed_projects p c commit processed :
  project_commit debug_str p c commit = Ok processed → projects p c processed.
Proof. unfold project_commit. intros (o & Ho & <-)%rmap_Ok. by eexists. Qed.

Lemma rejected_projects fuel p env c metadata rejection s s' processed :
  execute_rejection debug_str fuel p env c metadata rejection s = Some (s', Ok processed) →
  projects p c processed.
Proof.
  unfold execute_rejection. destruct rejection as [rejection|e]; [|by intros [= <-]].
  destruct (execute_completed _ _ _ _ _ _ _ _) as [[s1 commit]|]; cbn; [|done].
  intros [= <- H]. apply rbind_Ok in H as (commit' & _ & H). by apply committed_projects in H.
Qed.

Lemma executed_projects fuel p env c metadata s s' processed :
  execute_missing debug_str number fuel p env c metadata s = Some (s', Ok processed) →
  projects p c processed.
Proof.
  unfold execute_missing. destruct (validate_command _ _) as [[[envelope md] key]|e]; [|by intros [= <-]].
  destruct (proc_bindings p !! key) as [binding|]; [|apply rejected_projects].
  destruct (binding_execute _ _ _ _ _ _ _) as [[s1 [commit|[reason|e]]]|]; cbn; [..|done].
  - intros [= <- H]. by apply committed_projects in H.
  - apply rejected_projects.
  - intros [= <-].
Qed.

(** C4 (functional). A processing answers for the command it processed: the
    response, whether found completed, decided now or refused as a conflicting
    reuse of the operation, is one the sender's validation accepts - this
    command's address, message, operation, correlation and derived identity -
    and it is a decision, never a technical diagnostic. *)
Theorem processed_response_answers_command fuel p env c s s' r :
  process debug_str number fuel p env c s = Some (s', Ok r) → answers c r.
Proof.
  unfold process. destruct (reconcile_completed _ _ _ _ _) as [[response|]|e] eqn:Er; [..|by intros [= <-]].
  - intros [= <- <-]. by apply reconciled_answer in Er.
  - destruct (validate_command _ _) as [[[envelope md] key]|e]; [|by intros [= <-]].
    destruct (execute_missing _ _ _ _ _ _ _ _) as [[s1 processed]|] eqn:Ex; cbn; [|done].
    intros [= <- H]. destruct processed as [processed|error]; cbn in H.
    + apply map_err_Ok in H. apply executed_projects in Ex as (o & Ho).
      destruct (co_details (pc_outcome processed)) as [x| | |] eqn:Ed; try discriminate H.
      cbn in H. injection H as ->. by eapply projected_answer.
    + destruct (bool_decide _); [by apply conflict_answer|discriminate H].
Qed.

(** ** Termination *)

Section Bounded.
Context (n : N) (p : CommandProcessor (M := M) (A := A)).
Context (Hretry : cfg_retry (proc_configuration p) = BoundedConflictRetries n) (Hn : n < usize_max).

Lemma processor_execution_total handler env type_name metadata (s : S) :
  is_Some (execute_completed (N.to_nat n + 1) (processor_executor p)
    (cfg_rejection_codec (proc_configuration p)) handler env type_name metadata s).
Proof using Hretry Hn. by apply execute_completed_total. Qed.

Lemma execute_rejection_total env c metadata rejection (s : S) :
  is_Some (execute_rejection debug_str (N.to_nat n + 1) p env c metadata rejection s).
Proof using Hretry Hn.
  unfold execute_rejection. destruct rejection as [rejection|]; [|by eexists].
  destruct (processor_execution_total (fixed_rejection rejection) env "()" metadata s) as [[s' r] ->].
  by eexists.
Qed.

Lemma execute_missing_total env c metadata (s : S) :
  is_Some (execute_missing debug_str number (N.to_nat n + 1) p env c metadata s).
Proof using Hretry Hn.
  unfold execute_missing. destruct (validate_command _ _) as [[[envelope md] key]|e]; [|by eexists].
  destruct (proc_bindings p !! key) as [binding|]; [|apply execute_rejection_total].
  unfold binding_execute. destruct (binding_handler _ _) as [handler|reason]; [|apply execute_rejection_total].
  destruct (processor_execution_total handler env (binding_type_name binding) metadata s) as [[s' [commit|e]] ->];
    by eexists.
Qed.

End Bounded.

(** Processing ends: under a bounded retry policy - the
    trusted profile allows three retries - both the trusted processing and the
    authorized service have answered after one evaluation more than the retries,
    whatever the store, the handlers and the other callers do. *)
Theorem processing_terminates n p env c (s : S) attempt caller (a : A) :
  cfg_retry (proc_configuration p) = BoundedConflictRetries n → n < usize_max →
  is_Some (process debug_str number (N.to_nat n + 1) p env c s)
  ∧ is_Some (service_process debug_str number (N.to_nat n + 1) p attempt env caller c a s)
  ∧ is_Some (service_lookup debug_str p attempt env caller c a s).
Proof.
  intros Hp Hn. split_and!.
  - unfold process. destruct (reconcile_completed _ _ _ _ _) as [[response|]|e]; [by eexists| |by eexists].
    destruct (validate_command _ _) as [[[envelope md] key]|e]; [|by eexists].
    destruct (execute_missing_total n p Hp Hn (pe_execution env) c md (pe_before env s)) as [[s1 r] ->].
    by eexists.
  - unfold service_process, report. destruct (validate_service p c); [|by eexists].
    destruct (audit p a _ _) as [a1 errors].
    assert (is_Some (process_authorized debug_str number (N.to_nat n + 1) p env caller c s)) as [[s1 r] ->].
    { unfold process_authorized. destruct (authorized_lookup _ _ _ _ _ _) as [[|o]|e]; [|by eexists..].
      destruct (let? policy := _ in _) as [[[envelope md] key]|e]; [|by eexists].
      by apply execute_missing_total. }
    cbn. destruct (audit p a1 _ _). by eexists.
  - unfold service_lookup, report. destruct (validate_service p c); [|by eexists].
    destruct (audit p a _ _) as [a1 errors]. cbn. destruct (audit p a1 _ _). by eexists.
Qed.

(** ** Authorization *)

Lemma denied_lookup p policy caller c e i (s : S) :
  cfg_authorizer (proc_configuration p) = Some policy → policy caller c ReadOutcome = Err e →
  authorized_lookup debug_str p i s caller c = Err (processor_authorization e).
Proof. intros Hp He. unfold authorized_lookup. rewrite Hp. cbn [ok_or rbind]. by rewrite He. Qed.

(** C6 (safety). A caller the policy does not let read an outcome neither
    changes nor learns anything: processing and lookup leave the store as the
    other callers left it and answer the refusal, the same answer and the same
    audit trail whatever the store holds - so not even whether the command
    completed. *)
Theorem unauthorized_caller_learns_nothing p policy attempt caller c e (a : A) :
  cfg_authorizer (proc_configuration p) = Some policy → policy caller c ReadOutcome = Err e →
  is_ok (validate_service p c) = true →
  ∃ a' delivery, ∀ fuel env (s : S),
    service_process debug_str number fuel p attempt env caller c a s
    = Some (a', pe_before env s, ServiceReport_new (Err (processor_authorization e)) attempt delivery)
    ∧ service_lookup debug_str p attempt env caller c a s
      = Some (a', pe_before env s, ServiceReport_new (Err (processor_authorization e)) attempt delivery).
Proof.
  intros Hp He Hv. unfold service_process, service_lookup, report.
  destruct (validate_service p c) as [u|]; [|done].
  destruct (audit p a _ _) as [a1 errors1] eqn:E1.
  destruct (audit p a1 (mkAuditRecord attempt Finished (Some (failed_terminal (processor_authorization e)))
    (enc_message_id c) (enc_payload c) caller) errors1) as [a2 errors2] eqn:E2.
  eexists _, _. intros fuel env s. unfold process_authorized.
  rewrite !(denied_lookup _ _ _ _ _ _ _ Hp He). cbn [mbind option_bind]. by rewrite E2.
Qed.

(** A caller who may read but not execute never writes: whatever
    such a processing answers, the store is as the other callers left it, and an
    outcome it answers is one completed before, never one it committed. *)
Theorem reader_never_executes p policy attempt caller c e (a : A) :
  cfg_authorizer (proc_configuration p) = Some policy → policy caller c Execute = Err e →
  ∀ fuel env (s : S), ∃ a' s' report,
    service_process debug_str number fuel p attempt env caller c a s = Some (a', s', report)
    ∧ (s' = s ∨ s' = pe_before env s)
    ∧ ∀ processed, sr_result report = Ok processed → pc_origin processed = Replayed.
Proof.
  intros Hp He fuel env s. unfold service_process, report.
  destruct (validate_service p c) as [u|x]; [|by eexists _, _, _; split; [done|]; split; [left|]].
  destruct (audit p a _ _) as [a1 errors1]. unfold process_authorized.
  destruct (authorized_lookup _ _ _ _ _ _) as [[|o]|x].
  - rewrite Hp. cbn [ok_or rbind]. rewrite He. cbn [map_err rbind mbind option_bind].
    destruct (audit p a1 _ _) as [a2 errors2]. by eexists _, _, _; split; [done|]; split; [right|].
  - cbn [mbind option_bind]. destruct (audit p a1 _ _) as [a2 errors2].
    eexists _, _, _. split; [done|]. split; [by right|]. cbn. by intros processed [= <-].
  - cbn [mbind option_bind]. destruct (audit p a1 _ _) as [a2 errors2].
    by eexists _, _, _; split; [done|]; split; [right|].
Qed.

End Facts.
