(* ===== verification/IntegrationBus.v ===== *)
(** * IntegrationBus: the public events published from committed domain events,
    and the commands dispatched for incoming ones
    (crates/rostfrei-runtime/src/integration_event_bus.rs, integration_event.rs).

    An adapter is a function of its state; the system clock is an argument. *)

From S2P Require Export CommandBusFacts DomainEvent.

(** ** Errors *)

Inductive IntegrationEventBusErrorKind :=
| IntegrationInvalidContext | IntegrationEncoding | IntegrationInvalidMessage | IntegrationTimeout
| IntegrationUnavailable | IntegrationInvalidConfiguration | IntegrationRejected.

Record IntegrationEventBusError := IntegrationEventBusError_new {
  ibe_kind : IntegrationEventBusErrorKind;
  ibe_message : string;
}.

(** [IntegrationEventBusError::encoding] *)
Definition integration_encoding (message : string) : IntegrationEventBusError :=
  IntegrationEventBusError_new IntegrationEncoding message.
Definition invalid_integration_message (message : string) : IntegrationEventBusError :=
  IntegrationEventBusError_new IntegrationInvalidMessage message.
Definition contract_integration {A} (r : result A ContractError) : result A IntegrationEventBusError :=
  map_err (λ e, integration_encoding (ContractError_display e)) r.

Definition classify_publication_error (error : IntegrationEventBusError) : DomainEventHandlerError :=
  mkHandlerError
    match ibe_kind error with
    | IntegrationInvalidContext => InvalidCommittedEvent
    | IntegrationTimeout | IntegrationUnavailable => Retryable
    | _ => OperatorBlocking
    end (ibe_message error).

(** ** Integration events *)

(** The constants of the [IntegrationEvent] trait *)
Class IntegrationEventContract (E : Type) := {
  integration_event_name : string;
  integration_schema_version : N;
  integration_bounded_context : option string;
}.
Arguments integration_event_name E {_}.
Arguments integration_schema_version E {_}.
Arguments integration_bounded_context E {_}.

Record CommittedEventContext := mkCommittedContext {
  cec_actor : option ActorRef;
  cec_source_event_id : EventId;
  cec_correlation_id : CorrelationId;
  cec_occurred_at : option MessageTimestamp;
}.

Definition CommittedEventContext_new (recorded : RecordedEvent)
  : result CommittedEventContext IntegrationEventBusError :=
  let? correlation_id := ok_or (re_correlation_id recorded)
    (IntegrationEventBusError_new IntegrationInvalidContext
       "a committed event must have a correlation ID before it can publish an integration event") in
  Ok (mkCommittedContext (re_actor recorded) (re_event_id recorded) correlation_id None).
Definition with_occurred_at (c : CommittedEventContext) (occurred_at : MessageTimestamp)
  : CommittedEventContext :=
  mkCommittedContext (cec_actor c) (cec_source_event_id c) (cec_correlation_id c) (Some occurred_at).

(** [current_timestamp] *)
Definition integration_timestamp (clock : option N)
  : result MessageTimestamp IntegrationEventBusError :=
  let? milliseconds := ok_or clock (integration_encoding "system clock is before the Unix epoch") in
  let? milliseconds := ok_or (try_from u64_max milliseconds)
    (integration_encoding "system clock is outside the message timestamp range") in
  contract_integration (from_unix_milliseconds milliseconds).

(** [EncodedIntegrationMessage] is the message it wraps. *)
Notation EncodedIntegrationMessage := (OutboundMessage IntegrationEventAddress).

Definition EncodedIntegrationMessage_from_delivery (address : IntegrationEventAddress)
    (message_id : MessageId) (payload : list byte) (correlation_id : option CorrelationId)
  : result EncodedIntegrationMessage IntegrationEventBusError :=
  let? message := map_err (λ e, integration_encoding (MessageBuildError_display e))
    (OutboundMessage_new address message_id payload) in
  Ok (from_option (om_with_correlation_id message) message correlation_id).

(** [IntegrationMessageAdapter] over a state *)
Definition IntegrationMessageAdapter (S : Type) : Type :=
  S → EncodedIntegrationMessage → S * result PublishReceipt IntegrationEventBusError.

Record IntegrationEventBus (S : Type) := IntegrationEventBus_new {
  ieb_context : BoundedContext;
  ieb_adapter : IntegrationMessageAdapter S;
}.
Arguments IntegrationEventBus_new {S}.
Arguments ieb_context {S}.
Arguments ieb_adapter {S}.

Record IntegrationEventPublication := IntegrationEventPublication_new {
  iep_message_id : MessageId;
  iep_duplicate : bool;
}.

Section Integration.
Context `{JT : JsonText} `{SHA : Sha256}.

Definition integration_id_frames (address : IntegrationEventAddress) (schema_version : SchemaVersion)
    (source_event_id : EventId) : list (list byte) :=
  [as_bytes "rostfrei:integration-event-message:v1"; as_bytes (addr_str address);
   be_bytes 4 (schema_get schema_version); as_bytes (ident_str source_event_id)].

Definition integration_message_id (address : IntegrationEventAddress) (schema_version : SchemaVersion)
    (source_event_id : EventId) : result MessageId IntegrationEventBusError :=
  contract_integration
    (MessageId_new (to_hex (framed_fingerprint
       (integration_id_frames address schema_version source_event_id)))).

Context {E W : Type} `{IEC : IntegrationEventContract E} `{WT : Wire E W}.
Context `{IEJ : JsonCodec (IntegrationEventEnvelopeWire W)} `{IEV : !ToValue (IntegrationEventEnvelopeWire W)}.

(** The event an envelope names as its cause *)
Definition envelope_source_event (envelope : IntegrationEventEnvelope E)
  : result EventId IntegrationEventBusError :=
  let? causation_id := ok_or (iev_causation_id envelope)
    (invalid_integration_message "integration event causation is missing") in
  map_err (λ e, invalid_integration_message
    ("integration event causation is invalid: " +:+ IdentityError_display e))
    (ident_new KEventId (id_str causation_id)).

(** [EncodedIntegrationMessage::decode] *)
Definition decode_integration (message : EncodedIntegrationMessage)
  : result (IntegrationEventEnvelope E) IntegrationEventBusError :=
  let? envelope : IntegrationEventEnvelope E :=
    map_err integration_encoding (read_integration_envelope (om_payload message)) in
  let? source_event_id := envelope_source_event envelope in
  let? expected_message_id :=
    integration_message_id (om_address message) (iev_schema_version envelope) source_event_id in
  fail! negb (bool_decide (iev_message_id envelope = om_message_id message))
        || negb (bool_decide (om_message_id message = expected_message_id))
        || negb (bool_decide (om_correlation_id message = Some (iev_correlation_id envelope)))
        || negb (String.eqb (address_name (om_address message)) (integration_event_name E))
        || negb (schema_get (iev_schema_version envelope) =? integration_schema_version E)
    with invalid_integration_message
           "integration event envelope identity, route, or schema is inconsistent";
  Ok envelope.

Context {S : Type} (bus : IntegrationEventBus S).

(** [IntegrationEventBus::encode] *)
Definition encode_integration (clock : option N) (committed : CommittedEventContext) (event : E)
  : result EncodedIntegrationMessage IntegrationEventBusError :=
  fail! is_some_and (λ context, negb (String.eqb context (context_str (bc_name (ieb_context bus)))))
          (integration_bounded_context E)
    with IntegrationEventBusError_new IntegrationInvalidConfiguration
           "integration event belongs to another producing bounded context";
  let? address := contract_integration
    (bc_integration_event_address (ieb_context bus) (integration_event_name E)) in
  let? schema_version := contract_integration (SchemaVersion_new (integration_schema_version E)) in
  let? message_id := integration_message_id address schema_version (cec_source_event_id committed) in
  let? causation_id := contract_integration
    (CausationId_new (ident_str (cec_source_event_id committed))) in
  let? occurred_at :=
    match cec_occurred_at committed with
    | Some occurred_at => Ok occurred_at
    | None => integration_timestamp clock
    end in
  let correlation_id := cec_correlation_id committed in
  let? envelope := map_err (λ e, integration_encoding (MessageBuildError_display e))
    (IntegrationEventEnvelope_new
       (EnvelopeContext_new message_id schema_version correlation_id (Some causation_id))
       occurred_at event) in
  let? envelope :=
    match cec_actor committed with
    | Some actor => map_err (λ e, integration_encoding (MessageBuildError_display e))
        (IntegrationEventEnvelope_with_actor envelope actor)
    | None => Ok envelope
    end in
  let? payload := map_err (λ e, integration_encoding (cbe_message e))
    (canonical_serialize (IntegrationEventEnvelope_serialize envelope)) in
  let? message := map_err (λ e, integration_encoding (MessageBuildError_display e))
    (OutboundMessage_new address message_id payload) in
  Ok (om_with_correlation_id message correlation_id).

(** [IntegrationEventBus::publish] *)
Definition publish_integration (clock : option N) (s : S) (committed : CommittedEventContext) (event : E)
  : S * result IntegrationEventPublication IntegrationEventBusError :=
  match encode_integration clock committed event with
  | Err e => (s, Err e)
  | Ok message =>
    let (s, receipt) := ieb_adapter bus s message in
    (s, rmap (λ receipt, IntegrationEventPublication_new (om_message_id message)
                           (publish_duplicate receipt)) receipt)
  end.

(** [IntegrationEventPublisher]: the handler that maps a committed domain event
    and publishes what it is mapped to *)
Definition IntegrationEventPublisher {D} (clock : option N) (mapper : CommittedDomainEvent D → E)
  : DomainEventHandler (W := S) D := λ event s,
  match CommittedEventContext_new (committed_recorded event) with
  | Err error => (Err (classify_publication_error error), s)
  | Ok committed =>
    let (s, published) := publish_integration clock s committed (mapper event) in
    (map_err classify_publication_error (rmap (λ _, tt) published), s)
  end.

(** [register_integration_event] *)
Definition register_integration_event `{AG : Aggregates M} {CT} `{CTD : EqDecision CT} {D}
    (d : DomainEventDispatcher M S CT) (m : M) `{EV : Event (aggregate_event m)}
    (into_event : aggregate_event m → option D) (local_id : string) (clock : option N)
    (mapper : CommittedDomainEvent D → E)
  : result (DomainEventDispatcher M S CT) DomainEventRegistrationError :=
  register d m into_event local_id (IntegrationEventPublisher clock mapper).

End Integration.

(** ** Incoming integration events (integration_event.rs) *)

Section Incoming.
Context `{JT : JsonText} `{RSJ : !ResponseJson} `{SHA : Sha256}.
Context `{CEJ : JsonCodec (CommandEnvelopeWire RoutedCommandWire)}
        `{CEV : !ToValue (CommandEnvelopeWire RoutedCommandWire)}.
Context {S E C X : Type} `{JCP : !JsonCommandPayload C}.

(** [CompletedIntegrationCommand] is the receipt it wraps. *)
Inductive IntegrationEventProcessingError :=
| ProcessingMapper (e : X)
| ProcessingMessageIdentity (message : string)
| ProcessingCommandBus (e : CommandBusError).

Record IntegrationEventProcessor := IntegrationEventProcessor_new {
  iproc_command_bus : CommandBus S;
  iproc_durable_name : DurableName;
  iproc_mapper : E → result C X;
}.

Definition integration_operation_frames (durable_name : DurableName) (source_message_id : MessageId)
  : list (list byte) :=
  [as_bytes "rostfrei:integration-operation:v2"; as_bytes (delivery_str durable_name);
   as_bytes (id_str source_message_id)].

Definition integration_operation_id (durable_name : DurableName) (source_message_id : MessageId)
  : result OperationId IdentityError :=
  ident_new KOperationId
    ("integration:" +:+ to_hex (framed_fingerprint
                                  (integration_operation_frames durable_name source_message_id))).

(** The request an event is dispatched as *)
Definition integration_request (p : IntegrationEventProcessor) (envelope : IntegrationEventEnvelope E)
  : result (CommandRequest C) IntegrationEventProcessingError :=
  let? command := map_err ProcessingMapper (iproc_mapper p (iev_payload envelope)) in
  let? operation_id := map_err (λ e, ProcessingMessageIdentity (IdentityError_display e))
    (integration_operation_id (iproc_durable_name p) (iev_message_id envelope)) in
  let? causation_id := map_err (λ e, ProcessingMessageIdentity (ContractError_display e))
    (CausationId_new (id_str (iev_message_id envelope))) in
  let request := req_with_events_caused_by_command
    (req_with_created_at
       (req_with_causation_id
          (req_with_correlation_id (CommandRequest_new operation_id command)
             (iev_correlation_id envelope))
          causation_id)
       (iev_occurred_at envelope)) in
  Ok (from_option (req_with_actor request) request (iev_actor envelope)).

(** [IntegrationEventProcessor::process] *)
Definition process_integration (p : IntegrationEventProcessor) (clock : option N) (s : S)
    (envelope : IntegrationEventEnvelope E)
  : S * result CommandBusReceipt IntegrationEventProcessingError :=
  match integration_request p envelope with
  | Err e => (s, Err e)
  | Ok request =>
    let '(s, _, receipt) := dispatch_command (iproc_command_bus p) clock s request in
    (s, map_err ProcessingCommandBus receipt)
  end.

(** [quarantine] *)
Definition quarantine (reason : string) : DeliveryDisposition :=
  match QuarantineReason_new reason with Ok reason => Quarantine reason | Err _ => Terminate end.

(** The disposition of a processed delivery *)
Definition integration_disposition (retry_delay : RetryDelay)
    (r : result CommandBusReceipt IntegrationEventProcessingError) : DeliveryDisposition :=
  match r with
  | Ok _ => Acknowledge
  | Err (ProcessingCommandBus error) =>
    if bus_error_is_retryable error then Delivery.RetryAfter retry_delay
    else if is_some (cbe_execution_failure error)
    then quarantine "technical command execution is blocked; repair and redrive required"
    else quarantine "integration command mapping produced an invalid command"
  | Err (ProcessingMapper _) => quarantine "integration command mapping failed"
  | Err (ProcessingMessageIdentity _) =>
    quarantine "integration command mapping produced an invalid command"
  end.

Context {W : Type} `{IEC : IntegrationEventContract E} `{WT : Wire E W}.
Context `{IEJ : JsonCodec (IntegrationEventEnvelopeWire W)}.

(** [IntegrationEventCommandHandler::handle] *)
Definition handle_integration (p : IntegrationEventProcessor) (retry_delay : RetryDelay)
    (clock : option N) (s : S) (delivery : MessageDelivery IntegrationEventAddress)
  : S * DeliveryDisposition :=
  match (let? message := EncodedIntegrationMessage_from_delivery (md_address delivery)
           (md_message_id delivery) (md_payload delivery) (md_correlation_id delivery) in
         decode_integration message) with
  | Err _ => (s, quarantine "invalid integration event envelope")
  | Ok envelope =>
    let (s, processed) := process_integration p clock s envelope in
    (s, integration_disposition retry_delay processed)
  end.

End Incoming.
Arguments IntegrationEventProcessor {JT} S E C X.
Arguments IntegrationEventProcessingError X : clear implicits.
