(* ===== verification/IntegrationFacts.v ===== *)
(** * IntegrationFacts: the identities of public events and of the commands they
    cause, and what acknowledging an incoming one promises. *)

From S2P Require Export IntegrationBus.

(** ** Identities *)

Section Identities.
Context `{JT : JsonText} `{SHA : Sha256}.

Lemma integration_message_id_Ok address schema source :
  integration_message_id address schema source
  = Ok (message_of (integration_id_frames address schema source)).
Proof. unfold integration_message_id. by rewrite (framed_id_new KMessageId). Qed.

Lemma integration_id_framable address schema source :
  address_ok address → ident_ok source → Forall framable (integration_id_frames address schema source).
Proof.
  intros (_ & Ha & _)%address_ok_parts Hs.
  repeat constructor; [done| | |by apply ident_ok_framable].
  - unfold MAX_ADDRESS_BYTES, framable, u64_max in *. rewrite len_as_bytes. lia.
  - unfold framable, len. by rewrite length_be_bytes.
Qed.

Lemma integration_id_frames_inj a1 v1 s1 a2 v2 s2 :
  schema_get v1 <= u32_max → schema_get v2 <= u32_max →
  integration_id_frames a1 v1 s1 = integration_id_frames a2 v2 s2 → a1 = a2 ∧ v1 = v2 ∧ s1 = s2.
Proof.
  intros H1 H2 E. unfold integration_id_frames in E. apply cons_inv in E as [_ E].
  apply cons_inv in E as [Ea%as_bytes_inj E]. apply cons_inv in E as [Ev E].
  apply cons_inv in E as [Es%as_bytes_inj _].
  apply be_bytes_inj in Ev; [|unfold u32_max in *; cbn; lia..].
  destruct a1, a2, v1, v2, s1, s2; cbn in *. by subst.
Qed.

(** The identity a public event is published under, and the operation a
    subscriber's command runs as, name what they are derived from. *)
Lemma delivery_framable {k} (d : delivery_name k) :
  delivery_parse k (delivery_str d) = Ok d → framable (as_bytes (delivery_str d)).
Proof.
  intros [_ (purpose & major & _ & H)]%delivery_parse_build.
  apply rmap_Ok in H as (v & (_ & _ & Hl)%build_delivery_name_Ok & Ed).
  rewrite <- Ed. cbn [delivery_str]. unfold MAX_CONSUMER_NAME_BYTES, framable, u64_max in *.
  rewrite len_as_bytes. lia.
Qed.

Lemma integration_operation_framable durable source :
  delivery_parse KDurable (delivery_str durable) = Ok durable → identifier_ok source →
  Forall framable (integration_operation_frames durable source).
Proof.
  intros Hd Hs. repeat constructor; [done|by apply delivery_framable|by apply identifier_framable].
Qed.

Lemma integration_operation_id_Ok durable source :
  ∃ operation, integration_operation_id durable source = Ok operation ∧ ident_ok operation
    ∧ ident_str operation
      = "integration:" +:+ to_hex (framed_fingerprint (integration_operation_frames durable source)).
Proof.
  set (value := "integration:" +:+ to_hex (framed_fingerprint (integration_operation_frames durable source))).
  assert (ident_ok (Ident value : OperationId)) as H.
  { assert (str_len (hex_of_bytes (sha256 (frames (integration_operation_frames durable source)))) = 64) as Hl
      by (unfold str_len; by rewrite length_hex_of_bytes, sha256_length).
    apply ident_graphic_ok; cbn [ident_str]; unfold value, to_hex, framed_fingerprint, digest;
      cbn [fingerprint_bytes].
    - done.
    - rewrite str_len_app, Hl. by vm_compute.
    - rewrite bytes_all_app. by rewrite hex_graphic. }
  exists (Ident value). split_and!; [exact H|exact H|done].
Qed.

(** Public events and the commands they cause are named by their
    source: two publications share a message identity only for the same address,
    schema version and committed event, and two subscriber operations coincide
    only for the same durable consumer and message - so a redelivered event is
    one operation per subscriber, and different events or subscribers never
    collapse into one - unless SHA-256 collides. *)
Theorem integration_identities_name_their_source a1 v1 s1 a2 v2 s2 d1 m1 d2 m2 :
  address_ok a1 → address_ok a2 → ident_ok s1 → ident_ok s2 →
  schema_get v1 <= u32_max → schema_get v2 <= u32_max →
  delivery_parse KDurable (delivery_str d1) = Ok d1 → delivery_parse KDurable (delivery_str d2) = Ok d2 →
  identifier_ok m1 → identifier_ok m2 →
  no_collision (frames (integration_id_frames a1 v1 s1)) (frames (integration_id_frames a2 v2 s2)) →
  no_collision (frames (integration_operation_frames d1 m1)) (frames (integration_operation_frames d2 m2)) →
  (integration_message_id a1 v1 s1 = integration_message_id a2 v2 s2 ↔ a1 = a2 ∧ v1 = v2 ∧ s1 = s2)
  ∧ (integration_operation_id d1 m1 = integration_operation_id d2 m2 ↔ d1 = d2 ∧ m1 = m2).
Proof.
  intros Ha1 Ha2 Hs1 Hs2 Hv1 Hv2 Hd1 Hd2 Hm1 Hm2 Hc Hd. split; (split; [|intros; destruct_and?; congruence]).
  - rewrite !integration_message_id_Ok. intros [= E].
    apply framed_id_inj in E; [|by apply integration_id_framable..|done].
    by apply integration_id_frames_inj in E.
  - destruct (integration_operation_id_Ok d1 m1) as (o1 & -> & _ & E1).
    destruct (integration_operation_id_Ok d2 m2) as (o2 & -> & _ & E2). intros [= ->].
    rewrite E1 in E2. apply str_app_inv_head in E2.
    apply framed_id_inj in E2; [|by apply integration_operation_framable..|done].
    unfold integration_operation_frames in E2. apply cons_inv in E2 as [_ E2].
    apply cons_inv in E2 as [Ed%as_bytes_inj E2]. apply cons_inv in E2 as [Em%as_bytes_inj _].
    destruct d1, d2, m1, m2; cbn in *. by subst.
Qed.

End Identities.

(** ** Incoming events *)

Section Received.
Context `{JT : JsonText} `{RSJ : !ResponseJson} `{SHA : Sha256}.
Context `{CEJ : JsonCodec (CommandEnvelopeWire RoutedCommandWire)}
        `{CEV : !ToValue (CommandEnvelopeWire RoutedCommandWire)}.
Context {S E C X W : Type} `{JCP : !JsonCommandPayload C}.
Context `{IEC : IntegrationEventContract E} `{WT : Wire E W} `{IEJ : JsonCodec (IntegrationEventEnvelopeWire W)}.
Implicit Types (p : IntegrationEventProcessor S E C X).

Lemma integration_request_dated p envelope request :
  integration_request p envelope = Ok request → req_created_at request = Some (iev_occurred_at envelope).
Proof.
  unfold integration_request. intros H. apply rbind_Ok in H as (c & _ & H).
  apply rbind_Ok in H as (o & _ & H). apply rbind_Ok in H as (k & _ & [= <-]).
  by destruct (iev_actor envelope).
Qed.

(** A dated request is encoded without asking the clock. *)
Lemma encode_dated_command (bus : CommandBus S) clock1 clock2 (request : CommandRequest C) t :
  req_created_at request = Some t → encode_command bus clock1 request = encode_command bus clock2 request.
Proof.
  intros Ht. unfold encode_command, encode_dynamic. destruct (negb _); [done|].
  destruct (map_err bus_encoding _); [|done]. cbn [rbind dyn_created_at]. by rewrite Ht.
Qed.

(** What handling a delivery comes to: a disposition, or a command to dispatch *)
Definition delivered_command p (delay : RetryDelay) (address : IntegrationEventAddress)
    (message_id : MessageId) (payload : list byte) (correlation_id : option CorrelationId)
  : result EncodedCommand DeliveryDisposition :=
  let? envelope := map_err (λ _, quarantine "invalid integration event envelope")
    (let? message := EncodedIntegrationMessage_from_delivery address message_id payload correlation_id in
     decode_integration message) in
  let? request := map_err (λ e, integration_disposition delay (Err e)) (integration_request p envelope) in
  map_err (λ e, integration_disposition delay (Err (ProcessingCommandBus (X := X) e)))
    (encode_command (iproc_command_bus p) None request).

(** Handling, as the dispatch of what the delivery comes to *)
Lemma handle_integration_shape p delay address mid payload correlation :
  ∀ clock s metadata trace info,
    handle_integration p delay clock s
      (mkMessageDelivery address mid payload metadata correlation trace info)
    = match delivered_command p delay address mid payload correlation with
      | Err disposition => (s, disposition)
      | Ok command =>
        let '(s, _, receipt) := dispatch_encoded (iproc_command_bus p) s command in
        (s, integration_disposition delay (map_err (ProcessingCommandBus (X := X)) receipt))
      end.
Proof.
  intros clock s metadata trace info. unfold handle_integration, delivered_command, process_integration.
  cbn [md_address md_message_id md_payload md_correlation_id].
  destruct (rbind (EncodedIntegrationMessage_from_delivery _ _ _ _) _) as [envelope|e]; [|done].
  cbn [map_err rbind]. destruct (integration_request p envelope) as [request|e] eqn:Er; [|done].
  cbn [map_err rbind]. unfold dispatch_command.
  rewrite (encode_dated_command _ clock None _ _ (integration_request_dated _ _ _ Er)).
  destruct (encode_command _ None request) as [command|e]; [|done]. cbn [map_err].
  by destruct (dispatch_encoded _ _ _) as [[? ?] ?].
Qed.

(** A redelivered event is the same command: what handling a
    delivery comes to is determined by its address, identity, payload and
    correlation - not by the clock, the attempt, the metadata or the state of
    the bus - so every redelivery dispatches the very command of the first one,
    with its message identity, or is disposed of the same way without reaching
    the bus. *)
Theorem redelivery_repeats_command p delay address mid payload correlation :
  ∃ comes_to : result EncodedCommand DeliveryDisposition,
  ∀ clock s metadata trace info,
    handle_integration p delay clock s
      (mkMessageDelivery address mid payload metadata correlation trace info)
    = match comes_to with
      | Err disposition => (s, disposition)
      | Ok command =>
        let '(s, _, receipt) := dispatch_encoded (iproc_command_bus p) s command in
        (s, integration_disposition delay (map_err (ProcessingCommandBus (X := X)) receipt))
      end.
Proof. eexists. intros. apply handle_integration_shape. Qed.

(** The operation a delivery's command runs as *)
Lemma delivered_command_Ok p delay address mid payload correlation command :
  delivered_command p delay address mid payload correlation = Ok command →
  ∃ envelope request,
    read_integration_envelope payload = Ok envelope
    ∧ integration_request p envelope = Ok request
    ∧ iev_message_id envelope = mid ∧ correlation = Some (iev_correlation_id envelope)
    ∧ encode_command (iproc_command_bus p) None request = Ok command.
Proof.
  unfold delivered_command. intros H. apply rbind_Ok in H as (envelope & He%map_err_Ok & H).
  apply rbind_Ok in H as (request & Hr%map_err_Ok & H%map_err_Ok).
  apply rbind_Ok in He as (message & Hm & He). exists envelope, request.
  unfold EncodedIntegrationMessage_from_delivery, OutboundMessage_new,
    OutboundMessage_new_with_maximum_payload_bytes in Hm.
  apply rbind_Ok in Hm as (m & Hm%map_err_Ok & [= <-]). apply rbind_Ok in Hm as (? & _ & [= <-]).
  unfold decode_integration in He. apply rbind_Ok in He as (envelope' & Hread%map_err_Ok & He).
  apply rbind_Ok in He as (source & _ & He). apply rbind_Ok in He as (expected & _ & He).
  destruct (_ || _) eqn:Eg in He; [done|]. injection He as ->.
  apply orb_false_iff in Eg as [Eg _]. apply orb_false_iff in Eg as [Eg _].
  apply orb_false_iff in Eg as [Eg Ec%negb_false_iff%bool_decide_eq_true].
  apply orb_false_iff in Eg as [Ei%negb_false_iff%bool_decide_eq_true _].
  destruct correlation; cbn in *; by split_and!.
Qed.

Lemma encode_command_operation (bus : CommandBus S) clock (request : CommandRequest C) c :
  encode_command bus clock request = Ok c →
  id_str (enc_operation_id c) = ident_str (req_operation_id request).
Proof.
  unfold encode_command. destruct (negb _); [done|]. intros H. apply rbind_Ok in H as (v & _ & H).
  unfold encode_dynamic in H. cbn [dyn_operation_id] in H.
  apply rbind_Ok in H as (a & _ & H). apply rbind_Ok in H as (o & Ho%map_err_Ok & H).
  apply rbind_Ok in H as (t & _ & H). apply rbind_Ok in H as (r & _ & H).
  apply rbind_Ok in H as (f & _ & H). apply rbind_Ok in H as (k & _ & H).
  apply rbind_Ok in H as (m & _ & H). apply rbind_Ok in H as (v' & _ & H).
  apply rbind_Ok in H as (e & _ & H). apply rbind_Ok in H as (e' & _ & H).
  apply rbind_Ok in H as (b & _ & H). destruct (_ <? _) in H; [done|].
  apply rbind_Ok in H as (x & _ & [= <-]). cbn. by apply identifier_new_ok in Ho as [_ ->].
Qed.

(** No retry mends an encoding. *)
Lemma encode_error_final (bus : CommandBus S) clock (request : CommandRequest C) e :
  encode_command bus clock request = Err e → bus_error_is_retryable e = false.
Proof.
  assert (∀ m, bus_error_is_retryable (bus_encoding m) = false) as Hm by done.
  assert (∀ x, bus_error_is_retryable (command_message_build_error x) = false) as Hb by by intros [[] ? ?].
  unfold encode_command. destruct (negb _); [by intros [= <-]|]. intros H.
  apply rbind_Err in H as [(? & _ & <-)%map_err_Err|(v & _ & H)]; [done|]. unfold encode_dynamic in H.
  repeat match type of H with
  | rbind _ _ = Err _ => apply rbind_Err in H as [H|(? & _ & H)]
  | (if ?b then _ else _) = Err _ => destruct b; [by injection H as <-|]
  | Ok _ = Err _ => discriminate H
  end; unfold contract_encoding, routed_command_execution_fingerprint,
    command_execution_fingerprint_with_provenance, canonical_serialize, canonical_json_bytes,
    current_timestamp, command_message_id in H;
  repeat match type of H with
  | map_err _ _ = Err _ => apply map_err_Err in H as (? & _ & <-); done
  | rbind _ _ = Err _ => apply rbind_Err in H as [H|(? & _ & H)]
  | ok_or _ _ = Err _ => apply ok_or_Err in H as [_ <-]; done
  | match ?x with _ => _ end = Err _ => destruct x
  | Ok _ = Err _ => discriminate H
  end.
Qed.

Lemma quarantine_not reason d : quarantine reason ≠ Acknowledge ∧ quarantine reason ≠ Delivery.RetryAfter d.
Proof. unfold quarantine. by destruct (QuarantineReason_new reason). Qed.

(** Only a receipt is acknowledged and only a retryable failure retried. *)
Lemma integration_disposition_cases delay (r : result CommandBusReceipt (IntegrationEventProcessingError X)) :
  (integration_disposition delay r = Acknowledge → is_ok r = true)
  ∧ ∀ d, integration_disposition delay r = Delivery.RetryAfter d →
      d = delay ∧ ∃ e, r = Err (ProcessingCommandBus e) ∧ bus_error_is_retryable e = true.
Proof.
  assert (∀ reason (P : Prop) (K : RetryDelay → Prop),
    (quarantine reason = Acknowledge → P) ∧ ∀ d, quarantine reason = Delivery.RetryAfter d → K d) as Hq.
  { intros reason P K. destruct (quarantine_not reason delay) as [Ha _]. split; [by intros Eq%Ha|].
    intros d Eq. by destruct (quarantine_not reason d) as [_ []]. }
  destruct r as [receipt|[e|m|e]]; cbn [integration_disposition]; [by split|by apply Hq..|].
  destruct (bus_error_is_retryable e) eqn:Er; [|by destruct (is_some _); apply Hq].
  split; [done|]. intros d [= <-]. split; [done|]. by exists e.
Qed.

Lemma delivered_operation p delay address mid payload correlation command :
  delivered_command p delay address mid payload correlation = Ok command →
  ∃ operation, integration_operation_id (iproc_durable_name p) mid = Ok operation
    ∧ id_str (enc_operation_id command) = ident_str operation.
Proof.
  intros (envelope & request & _ & Hr & <- & _ & Hc)%delivered_command_Ok.
  apply encode_command_operation in Hc. unfold integration_request in Hr.
  apply rbind_Ok in Hr as (c & _ & Hr). apply rbind_Ok in Hr as (o & Ho%map_err_Ok & Hr).
  apply rbind_Ok in Hr as (k & _ & [= <-]). exists o. split; [done|]. rewrite Hc.
  by destruct (iev_actor envelope).
Qed.

(** A delivery that reaches no command is not acknowledged and not retried. *)
Lemma undelivered_disposition p delay address mid payload correlation disposition :
  delivered_command p delay address mid payload correlation = Err disposition →
  disposition ≠ Acknowledge ∧ ∀ d, disposition ≠ Delivery.RetryAfter d.
Proof.
  unfold delivered_command. intros H.
  apply rbind_Err in H as [(e & _ & <-)%map_err_Err|(envelope & _ & H)].
  { split; [|intros d]; apply (quarantine_not _ delay) || apply quarantine_not. }
  apply rbind_Err in H as [(e & He & <-)%map_err_Err|(request & _ & (e & He & <-)%map_err_Err)].
  - destruct (integration_disposition_cases delay (Err e)) as [Ha Hr]. split; [by intros Eq%Ha|].
    intros d (_ & x & [= ->] & _)%Hr. unfold integration_request in He.
    repeat match type of He with
    | rbind _ _ = Err _ => apply rbind_Err in He as [(? & _ & [=])%map_err_Err|(? & _ & He)]
    end. discriminate He.
  - destruct (integration_disposition_cases delay (Err (ProcessingCommandBus e))) as [Ha Hr].
    split; [by intros Eq%Ha|]. intros d (_ & x & [= <-] & Hx)%Hr.
    by rewrite (encode_error_final _ _ _ _ He) in Hx.
Qed.

(** C27 (safety). Acknowledging an event loses nothing: an incoming event is
    acknowledged only when the command it was mapped to - an operation named by
    the subscriber and the message - was dispatched and its receipt carries the
    decision on that command; and its delivery is retried only when dispatching
    that command failed with a retryable error. *)
Theorem acknowledged_event_is_decided p delay clock s delivery s' disposition :
  handle_integration p delay clock s delivery = (s', disposition) →
  (disposition = Acknowledge ∨ (∃ d, disposition = Delivery.RetryAfter d)) →
  ∃ command operation publications r,
    delivered_command p delay (md_address delivery) (md_message_id delivery) (md_payload delivery)
      (md_correlation_id delivery) = Ok command
    ∧ integration_operation_id (iproc_durable_name p) (md_message_id delivery) = Ok operation
    ∧ id_str (enc_operation_id command) = ident_str operation
    ∧ dispatch_encoded (iproc_command_bus p) s command = (s', publications, r)
    ∧ match r with
      | Ok receipt =>
        disposition = Acknowledge ∧ validate_response command (cbr_response receipt) = Ok tt
        ∧ ∀ failure, rsp_outcome (cbr_response receipt) ≠ ResponseExecutionFailed failure
      | Err error => disposition = Delivery.RetryAfter delay ∧ bus_error_is_retryable error = true
      end.
Proof.
  destruct delivery as [address mid payload metadata correlation trace info].
  rewrite (handle_integration_shape p delay address mid payload correlation).
  cbn [md_address md_message_id md_payload md_correlation_id].
  destruct (delivered_command _ _ _ _ _ _) as [command|d] eqn:Ec.
  2:{ intros [= _ <-] H. destruct (undelivered_disposition _ _ _ _ _ _ _ Ec) as [Ha Hr].
      destruct H as [H|[x H]]; [by destruct Ha|by destruct (Hr x)]. }
  destruct (delivered_operation _ _ _ _ _ _ _ Ec) as (operation & Ho & Eo).
  destruct (dispatch_encoded _ _ _) as [[s1 publications] r] eqn:Ed. intros [= <- <-] H.
  exists command, operation, publications, r. split_and!; [done..|].
  destruct (integration_disposition_cases delay (map_err (ProcessingCommandBus (X := X)) r)) as [Ha Hr].
  destruct r as [receipt|e].
  - split; [done|]. unfold dispatch_encoded in Ed. destruct (admit_encoded _ _); [|done].
    destruct (adapter_dispatch _ _ _) as [[? ?] answer]. injection Ed as _ _ Ed.
    by apply admit_receipt_Ok in Ed as (_ & ? & ?).
  - destruct H as [H|[d H]]; [by apply Ha in H|]. rewrite H.
    apply Hr in H as (-> & x & [= <-] & Hx). done.
Qed.

End Received.
