(* ===== verification/InMemoryMessaging.v ===== *)
(** * InMemoryMessaging: the in-memory adapter of commands and integration
    events, and the rejection codec of a mapped command
    (crates/rostfrei-runtime/src/in_memory_messaging.rs, command_rejection_codec.rs).

    The state is behind a mutex; commands of one message identity are processed
    one at a time behind a gate of their own. A dispatch locks the state twice,
    so it takes the state it finds the second time; the steps of all tasks are
    the relation [messaging_step]. *)

From S2P Require Export CommandProcessor IntegrationBus.

(** ** State *)

Record InMemoryMessagingState := mkMessagingState {
  ms_commands : gset string;
  ms_command_messages : list EncodedCommand;
  ms_integration_events : gmap string EncodedIntegrationMessage;
  ms_integration_messages : list EncodedIntegrationMessage;
}.
Definition InMemoryMessagingState_default : InMemoryMessagingState := mkMessagingState ∅ [] ∅ [].

Definition command_id (c : EncodedCommand) : string := id_str (enc_message_id c).
Definition event_id (m : EncodedIntegrationMessage) : string := id_str (om_message_id m).

(** Whether [dispatch] finds the command published before *)
Definition dispatch_duplicate (st : InMemoryMessagingState) (c : EncodedCommand) : bool :=
  bool_decide (command_id c ∈ ms_commands st).

(** What [dispatch] records of a processed command *)
Definition record_dispatched (duplicate : bool) (c : EncodedCommand) (st : InMemoryMessagingState)
  : InMemoryMessagingState :=
  mkMessagingState ({[command_id c]} ∪ ms_commands st)
    (if duplicate then ms_command_messages st else ms_command_messages st ++ [c])
    (ms_integration_events st) (ms_integration_messages st).

(** What [dispatch_as] records: whether the set held the command, and the state *)
Definition record_processed (c : EncodedCommand) (st : InMemoryMessagingState)
  : bool * InMemoryMessagingState :=
  let duplicate := bool_decide (command_id c ∈ ms_commands st) in
  (duplicate,
   mkMessagingState ({[command_id c]} ∪ ms_commands st)
     (if duplicate then ms_command_messages st else ms_command_messages st ++ [c])
     (ms_integration_events st) (ms_integration_messages st)).

(** [publish] of the [IntegrationMessageAdapter] *)
Definition publish_in_memory : IntegrationMessageAdapter InMemoryMessagingState := λ st message,
  if is_some (ms_integration_events st !! event_id message)
  then (st, Ok (PublishReceipt_new true))
  else
    (mkMessagingState (ms_commands st) (ms_command_messages st)
       (<[event_id message := message]> (ms_integration_events st))
       (ms_integration_messages st ++ [message]),
     Ok (PublishReceipt_new false)).

(** ** Dispatch *)

Section Dispatch.
Context `{JT : JsonText} `{RSJ : !ResponseJson} `{SHA : Sha256}.
Context `{CEJ : JsonCodec (CommandEnvelopeWire RoutedCommandWire)} `{RWJ : JsonCodec CommandRejectionWire}.
Context `{AG : Aggregates M} {S : Type} `{ES : ExecutionStore S} {A : Type}.
Context (debug_str : string → string) (number : N → Number).

(** The adapter processes with the trusted processor or with a service, never
    with both; [maximum_payload_len] is that of the trait. *)
Record InMemoryMessagingAdapter := mkMemoryAdapter {
  ima_processor : option (CommandProcessor (M := M) (A := A));
  ima_service : option (CommandProcessor (M := M) (A := A));
}.
Definition InMemoryMessagingAdapter_new (processor : CommandProcessor) : InMemoryMessagingAdapter :=
  mkMemoryAdapter (Some processor) None.
Definition InMemoryMessagingAdapter_with_service (service : CommandProcessor)
  : InMemoryMessagingAdapter := mkMemoryAdapter None (Some service).

(** [dispatch]: [others] is what the other tasks do to the state while the
    command is processed. The publications are those the observer is told of. *)
Definition memory_dispatch (fuel : nat) (adapter : InMemoryMessagingAdapter)
    (env : ProcessEnvironment (S := S)) (others : InMemoryMessagingState → InMemoryMessagingState)
    (c : EncodedCommand) (st : InMemoryMessagingState) (s : S)
  : option (InMemoryMessagingState * S * list CommandPublication
            * result CommandBusReceipt CommandBusError) :=
  match ima_processor adapter with
  | None => Some (st, s, [], Err (CommandBusError_new BusInvalidConfiguration
              "context-aware service requires dispatch_as"))
  | Some processor =>
    let duplicate := dispatch_duplicate st c in
    let publications := [CommandPublication_new (enc_message_id c) duplicate] in
    '(s, processed) ← process debug_str number fuel processor env c s;
    match processed with
    | Err error => Some (others st, s, publications, Err (bus_from_processor error))
    | Ok response =>
      Some (record_dispatched duplicate c (others st), s, publications,
            Ok (CommandBusReceipt_new duplicate response))
    end
  end.

(** [dispatch_as], with the built-in service *)
Definition memory_dispatch_as (fuel : nat) (adapter : InMemoryMessagingAdapter) (attempt : string)
    (env : ProcessEnvironment (S := S)) (others : InMemoryMessagingState → InMemoryMessagingState)
    (caller : TrustedCommandContext) (c : EncodedCommand) (st : InMemoryMessagingState) (a : A) (s : S)
  : option (InMemoryMessagingState * A * S * result CommandBusReceipt CommandBusError) :=
  match ima_service adapter with
  | None => Some (st, a, s, Err (CommandBusError_new BusInvalidConfiguration
              "context-aware dispatch requires a processing service"))
  | Some service =>
    match validate_encoded c with
    | Err e => Some (st, a, s, Err (bus_from_processor e))
    | Ok _ =>
      '(a, s, processed) ← service_process debug_str number fuel service attempt env caller c a s;
      let st := others st in
      match (let? processed := map_err bus_from_processor (sr_result processed) in
             map_err bus_from_processor (admit_outcome debug_str processed caller c)) with
      | Err e => Some (st, a, s, Err e)
      | Ok response =>
        let '(duplicate, st) := record_processed c st in
        Some (st, a, s, Ok (CommandBusReceipt_new duplicate response))
      end
    end
  end.

End Dispatch.

(** ** All tasks *)

(** The gates held, with what a [dispatch] that holds one found; a
    [dispatch_as] finds nothing before it records. *)
Record Messaging := mkMessaging {
  msg_state : InMemoryMessagingState;
  msg_gates : gmap string (option bool);
}.

Inductive messaging_step : Messaging → Messaging → Prop :=
| step_dispatch st gates c :
    gates !! command_id c = None →
    messaging_step (mkMessaging st gates)
      (mkMessaging st (<[command_id c := Some (dispatch_duplicate st c)]> gates))
| step_dispatched st gates c duplicate :
    gates !! command_id c = Some (Some duplicate) →
    messaging_step (mkMessaging st gates)
      (mkMessaging (record_dispatched duplicate c st) (delete (command_id c) gates))
| step_service st gates c :
    gates !! command_id c = None →
    messaging_step (mkMessaging st gates) (mkMessaging st (<[command_id c := None]> gates))
| step_serviced st gates c :
    gates !! command_id c = Some None →
    messaging_step (mkMessaging st gates)
      (mkMessaging (record_processed c st).2 (delete (command_id c) gates))
| step_failed st gates key :
    messaging_step (mkMessaging st gates) (mkMessaging st (delete key gates))
| step_publish st gates m :
    messaging_step (mkMessaging st gates) (mkMessaging (publish_in_memory st m).1 gates).

Definition messaging_initial : Messaging := mkMessaging InMemoryMessagingState_default ∅.

(** ** What is recorded *)

Record messaging_invariant (x : Messaging) : Prop := mkMessagingInvariant {
  mi_commands : NoDup (command_id <$> ms_command_messages (msg_state x));
  mi_published : ms_commands (msg_state x)
                 = list_to_set (command_id <$> ms_command_messages (msg_state x));
  mi_gates : ∀ key duplicate, msg_gates x !! key = Some (Some duplicate) →
               duplicate = bool_decide (key ∈ ms_commands (msg_state x));
  mi_events : NoDup (event_id <$> ms_integration_messages (msg_state x));
  mi_index : ∀ key m, ms_integration_events (msg_state x) !! key = Some m ↔
               m ∈ ms_integration_messages (msg_state x) ∧ event_id m = key;
}.

Lemma recorded_commands (duplicate : bool) c (messages : list EncodedCommand) (commands : gset string) :
  NoDup (command_id <$> messages) → commands = list_to_set (command_id <$> messages) →
  duplicate = bool_decide (command_id c ∈ commands) →
  NoDup (command_id <$> (if duplicate then messages else messages ++ [c]))
  ∧ {[command_id c]} ∪ commands
    = list_to_set (command_id <$> (if duplicate then messages else messages ++ [c])).
Proof.
  intros Hn -> ->. case_bool_decide as Hin.
  - split; [done|]. set_solver.
  - rewrite fmap_app. rewrite elem_of_list_to_set in Hin. split.
    + apply NoDup_app. split; [done|]. split; [|apply NoDup_singleton]. cbn.
      intros x Hx ->%list_elem_of_singleton. done.
    + rewrite list_to_set_app_L. cbn. set_solver.
Qed.

Lemma publish_invariant st gates m :
  messaging_invariant (mkMessaging st gates) →
  messaging_invariant (mkMessaging (publish_in_memory st m).1 gates).
Proof.
  intros [Hc Hp Hg He Hi]. unfold publish_in_memory.
  destruct (ms_integration_events st !! event_id m) as [m'|] eqn:E; cbn [is_some fst]; [by split|].
  split; cbn in *; try done.
  - rewrite fmap_app. apply NoDup_app. split; [done|]. split; [|apply NoDup_singleton].
    intros x Hx ->%list_elem_of_singleton. apply list_elem_of_fmap in Hx as (m' & Em & Hin).
    assert (ms_integration_events st !! event_id m = Some m') as E' by by apply Hi. congruence.
  - intros key m'. rewrite elem_of_app, list_elem_of_singleton. rewrite lookup_insert_Some, Hi. split.
    + intros [[<- ->]|(Hne & Hin & Ek)]; [by split; [right|]|by split; [left|]].
    + intros [[Hin| ->] Ek]; [|by left]. right. split_and!; [|done|done].
      intros <-. assert (ms_integration_events st !! event_id m = Some m') as E' by (apply Hi; by split). congruence.
Qed.

Lemma messaging_step_invariant x y :
  messaging_step x y → messaging_invariant x → messaging_invariant y.
Proof.
  destruct 1 as [st gates c Hf|st gates c duplicate Hh|st gates c Hf|st gates c Hh|st gates key|st gates m];
    [| | | | |apply publish_invariant]; intros [Hc Hp Hg He Hi]; cbn in *.
  - split; try done. cbn. intros key duplicate. rewrite lookup_insert_Some.
    intros [[<- [= <-]]|[_ ?]]; [done|by apply Hg].
  - destruct (recorded_commands duplicate c _ _ Hc Hp (Hg _ _ Hh)) as [H1 H2].
    split; try done. cbn. intros key d [Hne Hk]%lookup_delete_Some. rewrite (Hg _ _ Hk).
    apply bool_decide_ext. set_solver.
  - split; try done. cbn. intros key duplicate. rewrite lookup_insert_Some.
    intros [[_ [=]]|[_ ?]]; by apply Hg.
  - destruct (recorded_commands _ c _ _ Hc Hp eq_refl) as [H1 H2].
    split; try done. cbn. intros key d [Hne Hk]%lookup_delete_Some. rewrite (Hg _ _ Hk).
    apply bool_decide_ext. set_solver.
  - split; try done. cbn. intros k d [_ Hk]%lookup_delete_Some. by apply Hg.
Qed.

(** C29 (invariant). Every message is recorded once: however dispatches, service
    calls and publications of any messages interleave - a second submission of
    a command running against the processing of the first - the recorded
    commands and events carry distinct identities, the recorded identities are
    exactly those reported as duplicates, and a dispatch in flight still holds
    the answer it read when it began. *)
Theorem messages_are_recorded_once x :
  rtc messaging_step messaging_initial x →
  messaging_invariant x
  ∧ (∀ c, dispatch_duplicate (msg_state x) c = true ↔
       command_id c ∈ command_id <$> ms_command_messages (msg_state x))
  ∧ (∀ m, (publish_in_memory (msg_state x) m).2 = Ok (PublishReceipt_new true) ↔
       event_id m ∈ event_id <$> ms_integration_messages (msg_state x)).
Proof.
  intros H. assert (messaging_invariant x) as Hinv.
  { assert (messaging_invariant messaging_initial) as H0.
    { split; cbn; try done; [constructor|constructor|]. intros key m. rewrite lookup_empty. set_solver. }
    revert H0. induction H as [|a b c Hab _ IH]; [done|]. intros Ha. by eapply IH, messaging_step_invariant. }
  split; [done|]. destruct Hinv as [_ Hp _ _ Hi]. split.
  - intros c. unfold dispatch_duplicate. rewrite bool_decide_eq_true, Hp. apply elem_of_list_to_set.
  - intros m. unfold publish_in_memory. rewrite list_elem_of_fmap.
    destruct (ms_integration_events (msg_state x) !! event_id m) as [m'|] eqn:E; cbn.
    + split; [|done]. intros _. apply Hi in E as [Hin E]. by exists m'.
    + split; [done|]. intros (m' & Em & Hin). by rewrite (proj2 (Hi (event_id m) m') (conj Hin (eq_sym Em))) in E.
Qed.

(** ** A dispatch as its steps *)

Section DispatchSteps.
Context `{JT : JsonText} `{RSJ : !ResponseJson} `{SHA : Sha256}.
Context `{CEJ : JsonCodec (CommandEnvelopeWire RoutedCommandWire)} `{RWJ : JsonCodec CommandRejectionWire}.
Context `{AG : Aggregates M} {S : Type} `{ES : ExecutionStore S} {A : Type}.
Context (debug_str : string → string) (number : N → Number).

(** A dispatch that answers ran as two steps of the system, with the steps of
    the other tasks between them; its receipt reports what the first one read. *)
Lemma memory_dispatch_steps fuel (adapter : InMemoryMessagingAdapter (M := M) (A := A)) env others c
    st gates others_gates (s s' : S) st' publications receipt :
  memory_dispatch debug_str number fuel adapter env others c st s
  = Some (st', s', publications, Ok receipt) →
  gates !! command_id c = None →
  rtc messaging_step
    (mkMessaging st (<[command_id c := Some (dispatch_duplicate st c)]> gates))
    (mkMessaging (others st) others_gates) →
  others_gates !! command_id c = Some (Some (dispatch_duplicate st c)) →
  rtc messaging_step (mkMessaging st gates) (mkMessaging st' (delete (command_id c) others_gates))
  ∧ cbr_publication_duplicate receipt = dispatch_duplicate st c
  ∧ publications = [CommandPublication_new (enc_message_id c) (dispatch_duplicate st c)].
Proof.
  unfold memory_dispatch. destruct (ima_processor adapter) as [p|]; [|done].
  destruct (process _ _ _ _ _ _ _) as [[s1 [response|e]]|]; cbn; [|done..].
  intros [= <- <- <- <-] Hf Hs Hh. split; [|done].
  eapply rtc_l; [by apply step_dispatch|]. eapply rtc_r; [exact Hs|]. by apply step_dispatched.
Qed.

End DispatchSteps.

(** ** Rejection codecs (command_rejection_codec.rs) *)

Section MappedCodec.
Context `{JT : JsonText} {R : Type}.

Record MappedCommandRejectionCodec := MappedCommandRejectionCodec_with_codec {
  mrc_mapper : CommandRejectionMapper R;
  mrc_decoder : CommandRejection → result R string;
  mrc_codec : RejectionCodec CommandRejection;
}.

Definition MappedCommandRejectionCodec_new `{RWJ : JsonCodec CommandRejectionWire}
    (mapper : CommandRejectionMapper R) (decoder : CommandRejection → result R string) :=
  MappedCommandRejectionCodec_with_codec mapper decoder
    (CommandRejectionCodec "rostfrei.command-rejection" 1).

#[global] Instance mapped_rejection_codec (c : MappedCommandRejectionCodec) : RejectionCodec R :=
  {| rc_encode := λ rejection,
       let? mapped := map_err (mkCodecError EncodingFailed) (mrc_mapper c rejection) in
       rc_encode (RejectionCodec := mrc_codec c) mapped;
     rc_decode := λ encoded,
       let? mapped := rc_decode (RejectionCodec := mrc_codec c) encoded in
       map_err (mkCodecError MalformedPayload) (mrc_decoder c mapped) |}.

(** A rejection encoded through the mapping is decoded to itself when the
    decoder inverts the mapper and the wrapped codec reads what it wrote. *)
Lemma mapped_rejection_roundtrip (c : MappedCommandRejectionCodec) rejection encoded :
  (∀ mapped, mrc_mapper c rejection = Ok mapped → mrc_decoder c mapped = Ok rejection) →
  (∀ mapped, rc_encode (RejectionCodec := mrc_codec c) mapped = Ok encoded →
     rc_decode (RejectionCodec := mrc_codec c) encoded = Ok mapped) →
  rc_encode (RejectionCodec := mapped_rejection_codec c) rejection = Ok encoded →
  rc_decode (RejectionCodec := mapped_rejection_codec c) encoded = Ok rejection.
Proof.
  intros Hm Hc H. apply rbind_Ok in H as (mapped & E%map_err_Ok & H). cbn [rc_decode mapped_rejection_codec].
  rewrite (Hc _ H). cbn [rbind]. by rewrite (Hm _ E).
Qed.

End MappedCodec.
