(* ===== verification/QueryBus.v ===== *)
(** * QueryBus: typed and dynamic queries, their dispatch over an adapter, the
    processor of registered queries and its in-memory adapter, with their theorems
    (crates/rostfrei-runtime/src/query_bus.rs).

    Handlers act on a state [H]; the clock and the generated identifier are
    arguments. *)

From S2P Require Export Query CommandMessage.

Definition INVALID_QUERY_CODE : string := "rostfrei.query.invalid".
Definition INVALID_QUERY_PAYLOAD_CODE : string := "rostfrei.query.invalid-payload".
Definition UNKNOWN_QUERY_CODE : string := "rostfrei.query.unknown".

(** ** Errors *)

Inductive QueryBusErrorKind :=
| QueryBusEncoding | QueryBusTimeout | QueryBusRejected | QueryBusUnavailable | QueryBusInvalidResponse.

Record QueryBusError := QueryBusError_new { qbe_kind : QueryBusErrorKind; qbe_message : string }.

(** [QueryBusError::encoding] and [request] *)
Definition query_encoding (message : string) : QueryBusError := QueryBusError_new QueryBusEncoding message.
Definition query_request_error (error : QueryRequestError) : QueryBusError :=
  QueryBusError_new
    match error with
    | QreSerialization => QueryBusEncoding
    | QreTimeout => QueryBusTimeout
    | QreUnavailable => QueryBusUnavailable
    | QreRejected => QueryBusRejected
    | QreResponseTooLarge | QreInvalidResponse => QueryBusInvalidResponse
    end (QueryRequestError_display error).
Definition contract_query {A} (r : result A ContractError) : result A QueryBusError :=
  map_err (λ e, query_encoding (ContractError_display e)) r.

Definition framework_query_error (classification : QueryErrorClassification) (code message : string)
  : QueryErrorPayload :=
  match (let? code := ApplicationErrorCode_new code in
         QueryErrorPayload_new classification code message) with
  | Ok payload => payload
  | Err _ => QueryErrorPayload_internal_error
  end.

Definition next_query_request_id (uuid : string) : result MessageId QueryBusError :=
  contract_query (MessageId_new ("query-" +:+ uuid)).

(** [current_timestamp] *)
Definition query_timestamp (clock : option N) : result MessageTimestamp QueryBusError :=
  let? milliseconds := ok_or clock (query_encoding "system clock is before the Unix epoch") in
  let? milliseconds := ok_or (try_from u64_max milliseconds)
    (query_encoding "system clock is outside the message timestamp range") in
  contract_query (from_unix_milliseconds milliseconds).

(** ** Queries *)

(** The constants of the [QueryDefinition] trait *)
Class QueryDefinition (Q : Type) := {
  query_context : string;
  query_name : string;
  query_schema_version : N;
}.
Arguments query_context Q {_}.
Arguments query_name Q {_}.
Arguments query_schema_version Q {_}.

(** [serde_json::to_value] and [from_value] of a type: the latter reads what
    the former wrote. *)
Class ValueJson `{JT : JsonText} (T : Type) := {
  value_of : T → result JValue string;
  of_value : JValue → result T string;
  value_roundtrip : ∀ x v, value_of x = Ok v → of_value v = Ok x;
}.

(** [rostfrei_runtime::QueryRequest] *)
Record BusQueryRequest (Q : Type) := mkBusQueryRequest {
  bqr_query : Q;
  bqr_message_id : option MessageId;
  bqr_correlation_id : option CorrelationId;
  bqr_causation_id : option CausationId;
  bqr_created_at : option MessageTimestamp;
  bqr_metadata : CallerMetadata;
  bqr_trace_context : option TraceContext;
}.
Arguments mkBusQueryRequest {Q}.
Arguments bqr_query {Q}.
Arguments bqr_message_id {Q}.
Arguments bqr_correlation_id {Q}.
Arguments bqr_causation_id {Q}.
Arguments bqr_created_at {Q}.
Arguments bqr_metadata {Q}.
Arguments bqr_trace_context {Q}.

Section TypedRequests.
Context {Q : Type}.
Definition BusQueryRequest_new (query : Q) : BusQueryRequest Q :=
  mkBusQueryRequest query None None None None CallerMetadata_new None.
Definition bqr_with_message_id (r : BusQueryRequest Q) (m : MessageId) : BusQueryRequest Q :=
  mkBusQueryRequest (bqr_query r) (Some m) (bqr_correlation_id r) (bqr_causation_id r)
    (bqr_created_at r) (bqr_metadata r) (bqr_trace_context r).
Definition bqr_with_correlation_id (r : BusQueryRequest Q) (c : CorrelationId) : BusQueryRequest Q :=
  mkBusQueryRequest (bqr_query r) (bqr_message_id r) (Some c) (bqr_causation_id r)
    (bqr_created_at r) (bqr_metadata r) (bqr_trace_context r).
Definition bqr_with_causation_id (r : BusQueryRequest Q) (c : CausationId) : BusQueryRequest Q :=
  mkBusQueryRequest (bqr_query r) (bqr_message_id r) (bqr_correlation_id r) (Some c)
    (bqr_created_at r) (bqr_metadata r) (bqr_trace_context r).
Definition bqr_with_created_at (r : BusQueryRequest Q) (t : MessageTimestamp) : BusQueryRequest Q :=
  mkBusQueryRequest (bqr_query r) (bqr_message_id r) (bqr_correlation_id r) (bqr_causation_id r)
    (Some t) (bqr_metadata r) (bqr_trace_context r).
Definition bqr_with_metadata (r : BusQueryRequest Q) (m : CallerMetadata) : BusQueryRequest Q :=
  mkBusQueryRequest (bqr_query r) (bqr_message_id r) (bqr_correlation_id r) (bqr_causation_id r)
    (bqr_created_at r) m (bqr_trace_context r).
Definition bqr_with_trace_context (r : BusQueryRequest Q) (t : TraceContext) : BusQueryRequest Q :=
  mkBusQueryRequest (bqr_query r) (bqr_message_id r) (bqr_correlation_id r) (bqr_causation_id r)
    (bqr_created_at r) (bqr_metadata r) (Some t).
End TypedRequests.

(** [RoutedQueryError::Identity] *)
Record RoutedQueryError := RoutedQueryIdentity { rqe_error : ContractError }.
Definition RoutedQueryError_display (e : RoutedQueryError) : string :=
  "invalid routed query identity: " +:+ ContractError_display (rqe_error e).

Section Routed.
Context `{JT : JsonText}.

(** The query, the version and the payload beside a request's other fields *)
Record DynamicQueryRequest := mkDynamicQuery {
  dq_query : string;
  dq_schema_version : N;
  dq_request : BusQueryRequest JValue;
}.

Definition DynamicQueryRequest_new (query : string) (schema_version : N) (payload : JValue)
  : result DynamicQueryRequest QueryBusError :=
  let? _ := contract_query (QueryAddress_new "rostfrei" "dynamic-query" query) in
  let? _ := contract_query (SchemaVersion_new schema_version) in
  Ok (mkDynamicQuery query schema_version (BusQueryRequest_new payload)).

(** The [with_] operations of a dynamic request *)
Definition dq_with (f : BusQueryRequest JValue → BusQueryRequest JValue) (r : DynamicQueryRequest)
  : DynamicQueryRequest := mkDynamicQuery (dq_query r) (dq_schema_version r) (f (dq_request r)).

Record RoutedQuery := mkRoutedQuery {
  rq_bounded_context : string;
  rq_query : string;
  rq_schema_version : N;
  rq_payload : JValue;
}.

Definition RoutedQuery_new (bounded_context query : string) (schema_version : N) (payload : JValue)
  : result RoutedQuery RoutedQueryError :=
  let? _ := map_err RoutedQueryIdentity (QueryAddress_new "rostfrei" bounded_context query) in
  let? _ := map_err RoutedQueryIdentity (SchemaVersion_new schema_version) in
  Ok (mkRoutedQuery bounded_context query schema_version payload).

(** Its document has the same fields; reading one validates it again. *)
Definition RoutedQuery_deserialize (w : RoutedQuery) : result RoutedQuery string :=
  map_err RoutedQueryError_display
    (RoutedQuery_new (rq_bounded_context w) (rq_query w) (rq_schema_version w) (rq_payload w)).

#[global] Instance routed_query_wire : Wire RoutedQuery RoutedQuery :=
  {| to_wire := id; of_wire := RoutedQuery_deserialize |}.
#[global] Instance value_wire : Wire JValue JValue := plain_wire JValue.

Record EncodedQuery := mkEncodedQuery {
  eq_address : QueryAddress;
  eq_request : QueryRequest RoutedQuery;
}.

End Routed.
Arguments DynamicQueryRequest {JT}.
Arguments RoutedQuery {JT}.
Arguments EncodedQuery {JT}.

(** ** The bus *)

Section Bus.
Context `{JT : JsonText}.
Context `{QRJ : JsonCodec (QueryRequestWire RoutedQuery)}.

(** [QueryMessageAdapter] over a state *)
Definition QueryMessageAdapter (S : Type) : Type :=
  S → EncodedQuery → QueryOptions → S * result (QueryResponse JValue) QueryRequestError.

Record QueryBus (S : Type) := QueryBus_new {
  qb_context : BoundedContext;
  qb_adapter : QueryMessageAdapter S;
}.
Arguments QueryBus_new {S}.
Arguments qb_context {S}.
Arguments qb_adapter {S}.

Context {S : Type} (bus : QueryBus S).

(** [QueryBus::encode_dynamic] *)
Definition encode_query (clock : option N) (uuid : string) (dynamic : DynamicQueryRequest)
  : result EncodedQuery QueryBusError :=
  let request := dq_request dynamic in
  let? address := contract_query (bc_query_address (qb_context bus) (dq_query dynamic)) in
  let? created_at := from_option Ok (query_timestamp clock) (bqr_created_at request) in
  let? message_id := from_option Ok (next_query_request_id uuid) (bqr_message_id request) in
  let? correlation_id := from_option Ok (contract_query (CorrelationId_new (id_str message_id)))
    (bqr_correlation_id request) in
  let? schema_version := contract_query (SchemaVersion_new (dq_schema_version dynamic)) in
  let? routed := map_err (λ e, query_encoding (RoutedQueryError_display e))
    (RoutedQuery_new (context_str (bc_name (qb_context bus))) (dq_query dynamic)
       (dq_schema_version dynamic) (bqr_query request)) in
  let? request := map_err (λ e, query_encoding (MessageBuildError_display e))
    (QueryRequest_new
       (EnvelopeContext_new message_id schema_version correlation_id (bqr_causation_id request))
       created_at (bqr_metadata request) (bqr_trace_context request) routed) in
  Ok (mkEncodedQuery address request).

(** Whether a response belongs to a request *)
Definition answers_query (request : QueryRequest RoutedQuery) (response : QueryResponse JValue) : bool :=
  bool_decide (qs_request_id response = qr_message_id request)
  && bool_decide (qs_schema_version response = qr_schema_version request)
  && bool_decide (qs_correlation_id response = qr_correlation_id request).

(** [QueryBus::request_dynamic] *)
Definition request_dynamic (clock : option N) (uuid : string) (s : S) (dynamic : DynamicQueryRequest)
    (options : QueryOptions) : S * result (QueryResponse JValue) QueryBusError :=
  match encode_query clock uuid dynamic with
  | Err e => (s, Err e)
  | Ok encoded =>
    let (s, answer) := qb_adapter bus s encoded options in
    (s, let? response := map_err query_request_error answer in
        fail! negb (answers_query (eq_request encoded) response)
          with QueryBusError_new QueryBusInvalidResponse
                 "query response identity does not match the request";
        Ok response)
  end.

(** [decode_query_response] *)
Definition decode_query_response {R WR} `{!ValueJson R} `{WT : Wire R WR} `{RJ : JsonCodec (QueryResponseWire WR)}
    (response : QueryResponse JValue) : result (QueryResponse R) QueryBusError :=
  let? built :=
    match qs_outcome response with
    | QuerySuccess payload =>
      let? payload := map_err (QueryBusError_new QueryBusInvalidResponse) (of_value payload) in
      Ok (QueryResponse_success (qs_request_id response) (qs_schema_version response)
            (qs_responded_at response) (qs_correlation_id response) (qs_trace_context response) payload)
    | QueryError error =>
      Ok (QueryResponse_error (qs_request_id response) (qs_schema_version response)
            (qs_responded_at response) (qs_correlation_id response) (qs_trace_context response) error)
    end in
  map_err (λ e, QueryBusError_new QueryBusInvalidResponse (MessageBuildError_display e)) built.

(** [QueryBus::request] *)
Definition request_query {Q R WR} `{QD : QueryDefinition Q} `{!ValueJson Q} `{!ValueJson R}
    `{WT : Wire R WR} `{RJ : JsonCodec (QueryResponseWire WR)} (clock : option N) (uuid : string) (s : S)
    (request : BusQueryRequest Q) (options : QueryOptions)
  : S * result (QueryResponse R) QueryBusError :=
  let context := context_str (bc_name (qb_context bus)) in
  if negb (String.eqb (query_context Q) context)
  then (s, Err (query_encoding ("query `" +:+ query_name Q +:+ "` belongs to bounded context `"
              +:+ query_context Q +:+ "`, not `" +:+ context +:+ "`")))
  else
    match map_err query_encoding (value_of (bqr_query request)) with
    | Err e => (s, Err e)
    | Ok payload =>
      let dynamic := mkDynamicQuery (query_name Q) (query_schema_version Q)
        (mkBusQueryRequest payload (bqr_message_id request) (bqr_correlation_id request)
           (bqr_causation_id request) (bqr_created_at request) (bqr_metadata request)
           (bqr_trace_context request)) in
      let (s, response) := request_dynamic clock uuid s dynamic options in
      (s, let? response := response in decode_query_response response)
    end.

End Bus.
Arguments QueryBus {JT} S.
Arguments QueryBus_new {JT S}.
Arguments qb_context {JT S}.
Arguments qb_adapter {JT S}.

(** ** The processor *)

Record QueryBindingKey := QueryBindingKey_new {
  qk_context : string;
  qk_query : string;
  qk_schema_version : N;
}.
#[global] Instance QueryBindingKey_eq_dec : EqDecision QueryBindingKey.
Proof. solve_decision. Defined.
#[global] Instance QueryBindingKey_countable : Countable QueryBindingKey.
Proof.
  by refine (inj_countable' (λ k, (qk_context k, qk_query k, qk_schema_version k))
    (λ '(a, b, c), QueryBindingKey_new a b c) _); intros [].
Defined.

Inductive QueryBindingRegistrationError :=
| InvalidDefinition (message : string)
| DuplicateQuery (bounded_context query : string) (schema_version : N).

Section Processor.
Context `{JT : JsonText} {H : Type}.

(** [QueryHandler] over a state *)
Definition QueryHandler (T R : Type) : Type := H → QueryRequest T → H * result R QueryErrorPayload.

(** A binding with its query type erased *)
Definition ErasedQueryBinding : Type := QueryHandler JValue JValue.

(** A request with the context of another *)
Definition rebuild_request {T U W} `{WT : Wire U W} `{RJ : JsonCodec (QueryRequestWire W)}
    (request : QueryRequest T) (payload : U) : result (QueryRequest U) QueryErrorPayload :=
  map_err (λ _, QueryErrorPayload_internal_error)
    (QueryRequest_new
       (EnvelopeContext_new (qr_message_id request) (qr_schema_version request)
          (qr_correlation_id request) (qr_causation_id request))
       (qr_created_at request) (qr_metadata request) (qr_trace_context request) payload).

(** [TypedQueryBinding::handle] *)
Definition TypedQueryBinding {Q WQ R} `{!ValueJson Q} `{!ValueJson R} `{WT : Wire Q WQ}
    `{RJ : JsonCodec (QueryRequestWire WQ)} (handler : QueryHandler Q R) : ErasedQueryBinding :=
  λ s request,
  match (let? query := map_err (λ _, framework_query_error QueryInvalidRequest
             INVALID_QUERY_PAYLOAD_CODE "The query payload is invalid.")
           (of_value (qr_payload request)) in
         rebuild_request request query) with
  | Err e => (s, Err e)
  | Ok typed_request =>
    let (s, response) := handler s typed_request in
    (s, let? response := response in
        map_err (λ _, QueryErrorPayload_internal_error) (value_of response))
  end.

(** [QueryProcessor] is its bindings. *)
Notation QueryProcessor := (gmap QueryBindingKey ErasedQueryBinding).

(** [QueryProcessor::register] *)
Definition register_query {Q WQ R} `{QD : QueryDefinition Q} `{!ValueJson Q} `{!ValueJson R}
    `{WT : Wire Q WQ} `{RJ : JsonCodec (QueryRequestWire WQ)} (p : QueryProcessor) (handler : QueryHandler Q R)
  : result QueryProcessor QueryBindingRegistrationError :=
  let? _ := map_err (λ e, InvalidDefinition (ContractError_display e))
    (let? _ := QueryAddress_new "rostfrei" (query_context Q) (query_name Q) in
     SchemaVersion_new (query_schema_version Q)) in
  let key := QueryBindingKey_new (query_context Q) (query_name Q) (query_schema_version Q) in
  fail! is_some (p !! key) with DuplicateQuery (query_context Q) (query_name Q) (query_schema_version Q);
  Ok (<[key := TypedQueryBinding handler]> p).

Context `{VRJ : JsonCodec (QueryRequestWire JValue)}.

Definition inconsistent_query (address : QueryAddress) (request : QueryRequest RoutedQuery) : bool :=
  let routed := qr_payload request in
  negb (String.eqb (address_context address) (rq_bounded_context routed))
  || negb (String.eqb (address_name address) (rq_query routed))
  || negb (schema_get (qr_schema_version request) =? rq_schema_version routed).

(** [QueryProcessor::process] *)
Definition process_query (p : QueryProcessor) (address : QueryAddress) (s : H)
    (request : QueryRequest RoutedQuery) : H * result JValue QueryErrorPayload :=
  let routed := qr_payload request in
  if inconsistent_query address request
  then (s, Err (framework_query_error QueryInvalidRequest INVALID_QUERY_CODE
              "The query envelope and route are inconsistent."))
  else
    let key := QueryBindingKey_new (rq_bounded_context routed) (rq_query routed)
      (rq_schema_version routed) in
    match lookup (M := QueryProcessor) (A := ErasedQueryBinding) key p with
    | None => (s, Err (framework_query_error QueryInvalidRequest UNKNOWN_QUERY_CODE
                 "The query name or schema version is not registered."))
    | Some binding =>
      match rebuild_request request (rq_payload routed) with
      | Err e => (s, Err e)
      | Ok payload_request => binding s payload_request
      end
    end.

Context `{VSJ : JsonCodec (QueryResponseWire JValue)}.

(** [InMemoryQueryAdapter::request]; [elapsed] is the state in which processing
    is abandoned, when the timeout elapses first. *)
Definition in_memory_query (p : QueryProcessor) (elapsed : option H) (clock : option N)
  : QueryMessageAdapter H := λ s encoded options,
  let request := eq_request encoded in
  match elapsed with
  | Some s => (s, Err QreTimeout)
  | None =>
    let (s, outcome) := process_query p (eq_address encoded) s request in
    (s, let? responded_at := map_err (λ _, QreInvalidResponse) (query_timestamp clock) in
        let? response := map_err (λ _, QreInvalidResponse)
          match outcome with
          | Ok payload =>
            QueryResponse_success (qr_message_id request) (qr_schema_version request) responded_at
              (qr_correlation_id request) (qr_trace_context request) payload
          | Err error =>
            QueryResponse_error (qr_message_id request) (qr_schema_version request) responded_at
              (qr_correlation_id request) (qr_trace_context request) error
          end in
        let? bytes := map_err (λ _, QreInvalidResponse) (to_vec (QueryResponse_serialize response)) in
        fail! qo_maximum_response_bytes options <? len bytes with QreResponseTooLarge;
        Ok response)
  end.

End Processor.

(** * What registering a query guarantees, and that a query asked over the in-memory adapter
    is answered by the handler registered for it. *)

(** The errors of the framework are never replaced by the fallback. *)
Lemma framework_query_errors_built :
  Forall (λ '(code, message), qe_message (framework_query_error QueryInvalidRequest code message) = message
                              ∧ error_code_str (qe_code (framework_query_error QueryInvalidRequest code message)) = code)
    [(INVALID_QUERY_CODE, "The query envelope and route are inconsistent.");
     (INVALID_QUERY_PAYLOAD_CODE, "The query payload is invalid.");
     (UNKNOWN_QUERY_CODE, "The query name or schema version is not registered.")].
Proof. repeat constructor; by vm_compute. Qed.

Lemma query_request_new_Ok {T W} `{WT : Wire T W} `{QRJ : JsonCodec (QueryRequestWire W)}
    context created metadata trace (payload : T) r :
  QueryRequest_new context created metadata trace payload = Ok r →
  r = mkQueryRequest (ctx_message_id context) (ctx_schema_version context) created
        (ctx_correlation_id context) (ctx_causation_id context) metadata trace payload.
Proof. unfold QueryRequest_new. by intros (? & _ & [= <-])%rbind_Ok. Qed.

Lemma query_response_new_Ok {T W} `{WT : Wire T W} `{QSJ : JsonCodec (QueryResponseWire W)}
    id schema responded correlation trace (outcome : QueryOutcome T) r :
  QueryResponse_new id schema responded correlation trace outcome = Ok r →
  r = mkQueryResponse id schema responded correlation trace outcome.
Proof. unfold QueryResponse_new. by intros (? & _ & [= <-])%rbind_Ok. Qed.

Section Facts.
Context `{JT : JsonText} {H : Type}.
Context `{QRJ : JsonCodec (QueryRequestWire RoutedQuery)} `{VRJ : JsonCodec (QueryRequestWire JValue)}.
Context `{VSJ : JsonCodec (QueryResponseWire JValue)}.

(** ** Encoding *)

(** What an encoded query says *)
Record query_encoded {S} (bus : QueryBus S) (d : DynamicQueryRequest) (encoded : EncodedQuery) : Prop :=
  mkQueryEncoded {
    qen_address : bc_query_address (qb_context bus) (dq_query d) = Ok (eq_address encoded);
    qen_schema : schema_get (qr_schema_version (eq_request encoded)) = dq_schema_version d;
    qen_routed : qr_payload (eq_request encoded)
      = mkRoutedQuery (context_str (bc_name (qb_context bus))) (dq_query d) (dq_schema_version d)
          (bqr_query (dq_request d));
    qen_metadata : qr_metadata (eq_request encoded) = bqr_metadata (dq_request d);
    qen_causation : qr_causation_id (eq_request encoded) = bqr_causation_id (dq_request d);
    qen_trace : qr_trace_context (eq_request encoded) = bqr_trace_context (dq_request d);
  }.

Lemma encode_query_Ok {S} (bus : QueryBus S) clock uuid d encoded :
  encode_query bus clock uuid d = Ok encoded → query_encoded bus d encoded.
Proof.
  unfold encode_query. intros E. apply rbind_Ok in E as (address & Ha%map_err_Ok & E).
  apply rbind_Ok in E as (created & _ & E). apply rbind_Ok in E as (mid & _ & E).
  apply rbind_Ok in E as (correlation & _ & E). apply rbind_Ok in E as (schema & Hs%map_err_Ok & E).
  apply rbind_Ok in E as (routed & Hr%map_err_Ok & E). apply rbind_Ok in E as (request & Hq%map_err_Ok & [= <-]).
  apply query_request_new_Ok in Hq as ->. unfold RoutedQuery_new in Hr.
  apply rbind_Ok in Hr as (? & _ & Hr). apply rbind_Ok in Hr as (? & _ & [= <-]).
  split; try done. cbn. by destruct (schema_deserialize_Ok (dq_schema_version d) schema)
    as [_ ?]; [unfold SchemaVersion_deserialize; by rewrite Hs|].
Qed.

Lemma encoded_consistent {S} (bus : QueryBus S) d encoded :
  query_encoded bus d encoded → inconsistent_query (eq_address encoded) (eq_request encoded) = false.
Proof.
  intros Q. unfold inconsistent_query. rewrite (qen_routed _ _ _ Q), (qen_schema _ _ _ Q). cbn.
  pose proof (qen_address _ _ _ Q) as (_ & _ & _ & -> & ->)%address_build_parse.
  by rewrite !String.eqb_refl, N.eqb_refl.
Qed.

(** ** Registration *)

(** One registration of any query *)
Inductive query_registration : gmap QueryBindingKey (ErasedQueryBinding (H := H)) →
    gmap QueryBindingKey ErasedQueryBinding → Prop :=
| query_registered Q WQ R (QD : QueryDefinition Q) (VQ : ValueJson Q) (VR : ValueJson R)
    (WT : Wire Q WQ) (RJ : JsonCodec (QueryRequestWire WQ)) p (handler : QueryHandler Q R) p' :
    register_query p handler = Ok p' → query_registration p p'.

Lemma register_query_Ok {Q WQ R} `{QD : QueryDefinition Q} `{!ValueJson Q} `{!ValueJson R}
    `{WT : Wire Q WQ} `{RJ : JsonCodec (QueryRequestWire WQ)} p (handler : QueryHandler (H := H) Q R) p' :
  register_query p handler = Ok p' →
  let key := QueryBindingKey_new (query_context Q) (query_name Q) (query_schema_version Q) in
  p !! key = None ∧ p' = <[key := TypedQueryBinding handler]> p.
Proof.
  unfold register_query. intros E. apply rbind_Ok in E as (? & _ & E).
  destruct (p !! _) eqn:Ep; cbn in E; [done|]. by injection E as <-.
Qed.

Lemma query_registrations_keep p p' : rtc query_registration p p' → p ⊆ p'.
Proof.
  induction 1 as [|q q1 q2 [Q WQ R QD VQ VR WT RJ q0 handler q3 E] _ IH]; [done|].
  etrans; [|exact IH]. apply register_query_Ok in E as [Hn ->]. by apply insert_subseteq.
Qed.

(** ** A registered query *)

Section Registered.
Context {Q WQ R WR : Type} `{QD : QueryDefinition Q} `{VQ : !ValueJson Q} `{VR : !ValueJson R}.
Context `{WT : Wire Q WQ} `{RJ : JsonCodec (QueryRequestWire WQ)}.
Context `{WTR : Wire R WR} `{RSJ : JsonCodec (QueryResponseWire WR)}.
Context (handler : QueryHandler (H := H) Q R).

(** The request a handler is given for an encoded one *)
Definition typed_request (request : QueryRequest RoutedQuery) (query : Q) : QueryRequest Q :=
  mkQueryRequest (qr_message_id request) (qr_schema_version request) (qr_created_at request)
    (qr_correlation_id request) (qr_causation_id request) (qr_metadata request)
    (qr_trace_context request) query.

(** What a handler's answer is to the one who asked *)
Definition answered (answer : result R QueryErrorPayload) : QueryOutcome R :=
  match answer with
  | Ok r => if is_ok (value_of r) then QuerySuccess r else QueryError QueryErrorPayload_internal_error
  | Err e => QueryError e
  end.

Lemma rebuild_request_Ok {T U W} `{Wire U W} `{JsonCodec (QueryRequestWire W)} (r : QueryRequest T) (u : U) r' :
  rebuild_request r u = Ok r' →
  r' = mkQueryRequest (qr_message_id r) (qr_schema_version r) (qr_created_at r) (qr_correlation_id r)
         (qr_causation_id r) (qr_metadata r) (qr_trace_context r) u.
Proof. unfold rebuild_request. intros E%map_err_Ok. by apply query_request_new_Ok in E. Qed.

Lemma rebuild_request_Err {T U W} `{Wire U W} `{JsonCodec (QueryRequestWire W)} (r : QueryRequest T) (u : U) e :
  rebuild_request r u = Err e → e = QueryErrorPayload_internal_error.
Proof. unfold rebuild_request. by intros (? & _ & <-)%map_err_Err. Qed.

(** Processing gives the query to its handler, unless the typed request is
    larger than an envelope. *)
Lemma process_registered {S} (bus : QueryBus S) (p : gmap QueryBindingKey ErasedQueryBinding)
    d encoded (query : Q) v s s' r :
  p !! QueryBindingKey_new (query_context Q) (query_name Q) (query_schema_version Q)
  = Some (TypedQueryBinding handler : ErasedQueryBinding) →
  query_encoded bus d encoded → context_str (bc_name (qb_context bus)) = query_context Q →
  dq_query d = query_name Q → dq_schema_version d = query_schema_version Q →
  bqr_query (dq_request d) = v → value_of query = Ok v →
  process_query p (eq_address encoded) s (eq_request encoded) = (s', r) →
  (∃ answer, handler s (typed_request (eq_request encoded) query) = (s', answer)
    ∧ r = let? x := answer in map_err (λ _, QueryErrorPayload_internal_error) (value_of x))
  ∨ (s' = s ∧ r = Err QueryErrorPayload_internal_error).
Proof.
  intros Hp He Hc Hn Hs Hv Hq. unfold process_query. rewrite (encoded_consistent _ _ _ He).
  rewrite (qen_routed _ _ _ He). cbn [rq_bounded_context rq_query rq_schema_version rq_payload].
  rewrite Hc, Hn, Hs, Hv, Hp. destruct (rebuild_request _ v) as [erased|e] eqn:E1.
  2:{ apply rebuild_request_Err in E1 as ->. intros [= <- <-]. by right. }
  apply rebuild_request_Ok in E1 as ->. unfold TypedQueryBinding. cbn [qr_payload].
  rewrite (value_roundtrip _ _ Hq). cbn [map_err rbind].
  destruct (rebuild_request _ query) as [typed|e] eqn:E2.
  2:{ apply rebuild_request_Err in E2 as ->. intros [= <- <-]. by right. }
  apply rebuild_request_Ok in E2 as ->. cbn [qr_message_id qr_schema_version qr_created_at
    qr_correlation_id qr_causation_id qr_metadata qr_trace_context].
  fold (typed_request (eq_request encoded) query).
  destruct (handler s _) as [s1 answer]. intros [= <- <-]. left. by exists answer.
Qed.

Lemma decode_response_Ok (response : QueryResponse JValue) (decoded : QueryResponse R) :
  decode_query_response response = Ok decoded →
  qs_request_id decoded = qs_request_id response
  ∧ match qs_outcome response with
    | QuerySuccess v => ∃ r, of_value v = Ok r ∧ qs_outcome decoded = QuerySuccess r
    | QueryError e => qs_outcome decoded = QueryError e
    end.
Proof.
  unfold decode_query_response. intros E. apply rbind_Ok in E as (built & Hb & E%map_err_Ok).
  destruct (qs_outcome response) as [v|e].
  - apply rbind_Ok in Hb as (r & Hr%map_err_Ok & [= <-]). apply query_response_new_Ok in E as ->.
    split; [done|]. by exists r.
  - injection Hb as <-. by apply query_response_new_Ok in E as ->.
Qed.

(** A query is answered by its handler: over the in-memory
    adapter of a processor the query was registered with - whatever is
    registered afterwards - a response the bus returns is the answer of that
    handler to exactly the query asked, under the metadata, the causation and
    the trace context it was asked with, and is for this request; only a query
    too large to be rebuilt is answered, without evaluating the handler, by the
    internal error; and no response is larger than the options allow. *)
Theorem query_is_answered_by_its_handler p p1 p2 context (request : BusQueryRequest Q)
    clock uuid options s s' (response : QueryResponse R) :
  register_query p handler = Ok p1 → rtc query_registration p1 p2 →
  let bus := QueryBus_new context (in_memory_query p2 None clock) in
  request_query bus clock uuid s request options = (s', Ok response) →
  ∃ asked : QueryRequest RoutedQuery,
    qr_metadata asked = bqr_metadata request ∧ qr_causation_id asked = bqr_causation_id request
    ∧ qr_trace_context asked = bqr_trace_context request
    ∧ qs_request_id response = qr_message_id asked
    ∧ ((∃ answer, handler s (typed_request asked (bqr_query request)) = (s', answer)
          ∧ qs_outcome response = answered answer)
       ∨ (s' = s ∧ qs_outcome response = QueryError QueryErrorPayload_internal_error))
    ∧ ∃ sent bytes, to_vec (QueryResponse_serialize (T := JValue) sent) = Ok bytes
        ∧ len bytes <= qo_maximum_response_bytes options
        ∧ decode_query_response sent = Ok response.
Proof.
  intros [_ ->]%register_query_Ok Hk%query_registrations_keep bus Hr.
  assert (p2 !! QueryBindingKey_new (query_context Q) (query_name Q) (query_schema_version Q)
          = Some (TypedQueryBinding handler)) as Hp
    by (eapply lookup_weaken; [apply lookup_insert_eq|exact Hk]).
  unfold request_query in Hr. destruct (String.eqb _ _) eqn:Ec; cbn [negb] in Hr; [|done].
  apply String.eqb_eq in Ec. destruct (value_of (bqr_query request)) as [v|] eqn:Ev; cbn [map_err] in Hr; [|done].
  unfold request_dynamic in Hr. destruct (encode_query _ _ _ _) as [encoded|e] eqn:Ee; [|done].
  apply encode_query_Ok in Ee. cbn [qb_adapter bus in_memory_query] in Hr.
  destruct (process_query _ _ _ _) as [s1 outcome] eqn:Ep.
  eapply (process_registered bus p2) in Ep; [|exact Hp|exact Ee|done..|exact Ev].
  injection Hr as <- Hr. apply rbind_Ok in Hr as (raw & Hraw & Hd).
  apply rbind_Ok in Hraw as (raw' & Hraw%map_err_Ok & Hg).
  destruct (negb _) in Hg; [done|]. injection Hg as ->.
  apply rbind_Ok in Hraw as (responded & _ & Hraw). apply rbind_Ok in Hraw as (built & Hb%map_err_Ok & Hraw).
  apply rbind_Ok in Hraw as (bytes & Hbytes%map_err_Ok & Hraw).
  destruct (_ <? _) eqn:El in Hraw; [done|]. injection Hraw as ->. apply N.ltb_ge in El.
  exists (eq_request encoded). pose proof Hd as [Hid Hout]%decode_response_Ok.
  split; [apply Ee|]. split; [apply Ee|]. split; [apply Ee|].
  assert (qs_request_id raw = qr_message_id (eq_request encoded)
          ∧ qs_outcome raw = match outcome with Ok x => QuerySuccess x | Err e => QueryError e end) as [Er Eo].
  { destruct outcome; by apply query_response_new_Ok in Hb as ->. }
  split; [by rewrite Hid|]. split; [|by eexists _, _].
  rewrite Eo in Hout. destruct Ep as [(answer & Ha & ->)|[-> ->]]; [left|by right].
  exists answer. split; [exact Ha|]. destruct answer as [x|e]; cbn in *; [|done].
  destruct (value_of x) as [vx|] eqn:Ex; cbn in *; [|done].
  destruct Hout as (r & Hr & ->). rewrite (value_roundtrip _ _ Ex) in Hr. by injection Hr as ->.
Qed.

End Registered.
End Facts.
