(* ===== verification/Materialize.v ===== *)
(** * Materialize: the keys, revisions and codecs of read models, the state of a
    read model with its source positions, and its
    materialization from committed domain events and integration events over a
    compare-and-set store (crates/rostfrei-runtime/src/read_model/mod.rs,
    runtime.rs and integration.rs; the storage trait is read_model.rs of
    rostfrei-core).

    The store acts on a state [S]; between two accesses of one materialization
    other tasks act on it. What the event history answers is an argument. *)

From S2P Require Export IntegrationBus.

(** * Keys, revisions and the versioned JSON codec of application read models
    (crates/rostfrei-core/src/read_model.rs). *)

Inductive ReadModelErrorKind :=
| RMInvalidRequest | RMConflict | RMUnavailable | RMInvalidData | RMIncompatibleSchema
| RMEncodingFailed | RMPayloadTooLarge | RMCapacityExhausted | RMConfigurationMismatch.
Record ReadModelError := mkReadModelError { rme_kind : ReadModelErrorKind; rme_message : string }.

(** ** Keys *)

Record ReadModelKey := mkReadModelKey { rmk_str : string }.

(** Letters, digits and the bytes [- _ / = .] *)
Definition is_key_byte (c : N) : bool :=
  is_alphanumeric c || (c =? 45) || (c =? 95) || (c =? 47) || (c =? 61) || (c =? 46).

Definition ReadModelKey_new (value : string) : result ReadModelKey ReadModelError :=
  fail! String.eqb value "" || (256 <? str_len value)
        || existsb (String.eqb "") (split "." value) || negb (bytes_all is_key_byte value)
    with mkReadModelError RMInvalidRequest "invalid read-model key";
  Ok (mkReadModelKey value).

(** The storage's compare-and-set token, and a value read with it *)
Record ReadModelRevision := mkReadModelRevision { revision_token : string }.
Record ReadModelEntry (T : Type) := mkReadModelEntry {
  entry_value : T;
  entry_revision : ReadModelRevision;
}.

(** ** The JSON codec *)

(** The envelope of a stored value *)
Record JsonSnapshot (T : Type) := mkSnapshot { snapshot_schema_version : N; snapshot_value : T }.
Arguments mkSnapshot {T}.
Arguments snapshot_schema_version {T}.
Arguments snapshot_value {T}.

(** serde_json at the envelope: its encoding, and the reading that ignores the
    value ([IgnoredAny]), which agrees with the full one on the version. *)
Class SnapshotJson (T : Type) := {
  snapshot_json :: Json (JsonSnapshot T);
  envelope_version : list byte → result N string;
  envelope_agrees : ∀ bytes s, from_slice bytes = Ok s → envelope_version bytes = Ok (snapshot_schema_version s);
}.

(** The [ReadModelCodec] trait *)
Record ReadModelCodec (T : Type) := mkReadModelCodec {
  rm_encode : T → result (list byte) ReadModelError;
  rm_decode : list byte → result T ReadModelError;
}.
Arguments mkReadModelCodec {T}.
Arguments rm_encode {T}.
Arguments rm_decode {T}.

Section Codec.
Context `{SnapshotJson T}.

Definition read_model_encode (schema_version : N) (value : T)
  : result (list byte) ReadModelError :=
  map_err (λ _, mkReadModelError RMEncodingFailed "read-model JSON encoding failed")
    (to_vec (mkSnapshot schema_version value)).

Definition read_model_decode (schema_version : N) (bytes : list byte)
  : result T ReadModelError :=
  let? version := map_err (λ _, mkReadModelError RMInvalidData "invalid read-model JSON envelope")
    (envelope_version bytes) in
  fail! negb (version =? schema_version)
    with mkReadModelError RMIncompatibleSchema "unsupported read-model schema version";
  map_err (λ _, mkReadModelError RMInvalidData "invalid read-model JSON value")
    (rmap snapshot_value (from_slice (A := JsonSnapshot T) bytes)).

(** [JsonReadModelCodec]; the version is nonzero. *)
Definition JsonReadModelCodec (schema_version : N) : ReadModelCodec T :=
  mkReadModelCodec (read_model_encode schema_version) (read_model_decode schema_version).

(** A stored value is read back by a codec of the version it
    was written with, and refused as incompatible by every other; conversely a
    value is only ever decoded from an envelope of the configured version, and
    an envelope of another version is incompatible whatever its value. *)
Theorem read_model_roundtrip version version' value bytes :
  rm_encode (JsonReadModelCodec version) value = Ok bytes →
  rm_decode (JsonReadModelCodec version') bytes
  = (if version =? version' then Ok value
     else Err (mkReadModelError RMIncompatibleSchema "unsupported read-model schema version"))
  ∧ (∀ stored x, rm_decode (JsonReadModelCodec version') stored = Ok x →
       from_slice stored = Ok (mkSnapshot version' x))
  ∧ (∀ stored other, envelope_version stored = Ok other → other ≠ version' →
       rm_decode (JsonReadModelCodec version') stored
       = Err (mkReadModelError RMIncompatibleSchema "unsupported read-model schema version")).
Proof.
  cbn [rm_encode rm_decode JsonReadModelCodec]. intros He. split_and!.
  - unfold read_model_encode in He. destruct (to_vec _) as [b|] eqn:E; [|done].
    cbn in He. injection He as ->. apply json_roundtrip in E.
    unfold read_model_decode. rewrite (envelope_agrees _ _ E), E. cbn.
    by destruct (version =? version').
  - unfold read_model_decode. intros stored x Hd.
    destruct (envelope_version stored) as [v|] eqn:Ev; [|done]. cbn in Hd.
    destruct (v =? version') eqn:Evv; [|done]. cbn in Hd. apply N.eqb_eq in Evv as ->.
    destruct (from_slice stored) as [[v y]|] eqn:Es; [|done]. cbn in Hd.
    apply envelope_agrees in Es as Hv. cbn in Hv. congruence.
  - intros stored other Hv Hne. unfold read_model_decode. rewrite Hv. cbn.
    by rewrite (proj2 (N.eqb_neq _ _) Hne).
Qed.

End Codec.

(** ** Samples *)

Example concrete_keys :
  map (λ k, is_ok (ReadModelKey_new k)) ["org-1.member_2/summary=v1"; ""; ".a"; "a."; "a..b"; "a.*"; "a b"]
  = [true; false; false; false; false; false; false].
Proof. by vm_compute. Qed.

Definition sample_snapshot_json : SnapshotJson N.
Proof.
  refine {|
    snapshot_json := fields_json
      (λ s, [field (snapshot_schema_version s); field (snapshot_value s)])
      (λ l, match l with
            | [v; x] => v ← unfield v; x ← unfield x; Some (mkSnapshot v x)
            | _ => None
            end) _;
    envelope_version := λ bytes,
      ok_or (split_fields [] bytes ≫= λ l,
               match l with [v; x] => v ← unfield v; x ← unfield (A := N) x; Some v | _ => None end)
        "malformed" |}.
  Unshelve. 2:{ intros []. cbn. by rewrite !unfield_field. }
  intros bytes s. cbn. destruct (split_fields [] bytes) as [l|]; cbn; [|done].
  destruct l as [|v [|x [|]]]; try done. cbn.
  destruct (unfield v); cbn; [|done]. destruct (unfield x); cbn; [|done]. by intros [= <-].
Defined.

Lemma read_model_roundtrip_witness :
  let H := sample_snapshot_json in
  ∃ bytes, rm_encode (JsonReadModelCodec 1) 42 = Ok bytes
    ∧ rm_decode (JsonReadModelCodec 1) bytes = Ok 42
    ∧ is_err (rm_decode (JsonReadModelCodec (T := N) 2) bytes) = true.
Proof.
  intros H. destruct (rm_encode (JsonReadModelCodec 1) 42) as [bytes|] eqn:E;
    [|exfalso; revert E; by vm_compute].
  exists bytes. split_and!; [done|..].
  - exact (proj1 (read_model_roundtrip 1 1 42 bytes E)).
  - by rewrite (proj1 (read_model_roundtrip 1 2 42 bytes E)).
Defined.

(** * The state of a read model with its source positions, and its materialization from
    committed domain events and integration events over a compare-and-set store
    (crates/rostfrei-runtime/src/read_model/mod.rs, runtime.rs and integration.rs; the
    storage trait is read_model.rs of rostfrei-core). The store acts on a state [S];
    between two accesses of one materialization other tasks act on it. What the event
    history answers is an argument. *)

(** ** Storage *)

#[global] Instance ReadModelKey_eq_dec : EqDecision ReadModelKey.
Proof. solve_decision. Defined.

Arguments mkReadModelEntry {T}.
Arguments entry_value {T}.
Arguments entry_revision {T}.

(** The operations of [ReadModelStore] a runtime uses *)
Class ReadModelStore (S T : Type) := {
  rms_read : S → ReadModelKey → result (option (ReadModelEntry T)) ReadModelError;
  rms_create : S → ReadModelKey → T → S * result ReadModelRevision ReadModelError;
  rms_update : S → ReadModelKey → ReadModelRevision → T → S * result ReadModelRevision ReadModelError;
}.

Record ReadModelState (M : Type) := mkReadModelState {
  format_version : N;
  rms_value : M;
  positions : gmap string N;
}.
Arguments mkReadModelState {M}.
Arguments format_version {M}.
Arguments rms_value {M}.
Arguments positions {M}.

Definition ReadModelState_default {M} (default_value : M) : ReadModelState M :=
  mkReadModelState 1 default_value ∅.

Definition ReadModelState_validate {M} (st : ReadModelState M) : result unit ReadModelError :=
  fail! negb (format_version st =? 1)
        || existsb (λ '(source, position), String.eqb source "" || (position =? 0))
             (map_to_list (positions st))
    with mkReadModelError RMInvalidData "invalid read-model checkpoint envelope";
  Ok tt.

(** ** Errors *)

Inductive ReadModelProcessingError :=
| RmpStorage (e : ReadModelError)
| RmpConfiguration (message : string)
| RmpInvalidEvent (message : string)
| RmpSourceGap (expected actual : N)
| RmpTransformation (message : string).

Definition read_model_error_is_retryable (e : ReadModelProcessingError) : bool :=
  match e with
  | RmpStorage error => match rme_kind error with RMConflict | RMUnavailable => true | _ => false end
  | _ => false
  end.

(** ** Sessions *)

(** [DomainReducer] *)
Record DomainReducer (M : Type) := mkDomainReducer {
  reducer_key : RecordedEvent → result ReadModelKey ReadModelProcessingError;
  reducer_apply : M → RecordedEvent → result M ReadModelProcessingError;
}.
Arguments mkDomainReducer {M}.
Arguments reducer_key {M}.
Arguments reducer_apply {M}.

(** [Change]: what a closure makes of the model *)
Definition Change (M E : Type) : Type := M → E → result M ReadModelProcessingError.

Section Reducers.
Context `{AG : Aggregates A} {M : Type}.

(** [TypedDomainReducer]; [into_event] is that of [EventVariant]. *)
Definition reducer_decode {m : A} {E} (codec : EventCodec m) (into_event : aggregate_event m → option E)
    (event : RecordedEvent) : result E ReadModelProcessingError :=
  let? value := map_err (λ e, RmpInvalidEvent (EventCodecError_display e)) (codec_decode codec event) in
  ok_or (into_event value) (RmpInvalidEvent "domain event variant mismatch").

Definition TypedDomainReducer {m : A} {E} (codec : EventCodec m) (into_event : aggregate_event m → option E)
    (key : E → RecordedEvent → string) (change : Change M E) (rme_display : ReadModelError → string)
  : DomainReducer M :=
  {| reducer_key := λ event,
       let? decoded := reducer_decode codec into_event event in
       map_err (λ e, RmpInvalidEvent (rme_display e)) (ReadModelKey_new (key decoded event));
     reducer_apply := λ model event,
       let? decoded := reducer_decode codec into_event event in
       change model decoded |}.

End Reducers.

(** The aggregate type and the event type of a record *)
Definition reducer_identity (event : RecordedEvent) : string * string :=
  (ident_str (aggregate_type (re_stream_id event)), re_event_type event).

(** [Resources]: the reducers, and whether a history is connected *)
Record Resources (M : Type) := mkResources {
  res_history : bool;
  res_domain : gmap (string * string) (DomainReducer M);
}.
Arguments mkResources {M}.
Arguments res_history {M}.
Arguments res_domain {M}.

Record Session (M : Type) := mkSession {
  ses_context : BoundedContext;
  ses_resources : option (Resources M);
  ses_retries : nat;
}.
Arguments mkSession {M}.
Arguments ses_context {M}.
Arguments ses_resources {M}.
Arguments ses_retries {M}.

(** What happens besides one materialization: what others do to the store before
    its i-th read and before its i-th write, and what the history answers *)
Record Surroundings (S : Type) := mkSurroundings {
  before_read : nat → S → S;
  before_write : nat → S → S;
  history_answer : nat → StreamId → result (list RecordedEvent) EventStoreError;
}.
Arguments mkSurroundings {S}.
Arguments before_read {S}.
Arguments before_write {S}.
Arguments history_answer {S}.

(** [serde_json::to_string] of a tuple of strings, which names a source *)
Class TupleText := {
  tuple_to_string : list string → result string string;
  tuple_to_string_inj : ∀ l l' s, tuple_to_string l = Ok s → tuple_to_string l' = Ok s → l = l';
}.

Section Session.
Context {S M : Type} `{RMS : ReadModelStore S (ReadModelState M)} (default_value : M).

Definition session_resources (session : Session M) : result (Resources M) ReadModelProcessingError :=
  ok_or (ses_resources session) (RmpConfiguration "read model has not been connected").

(** [Mutation]: what an attempt makes of the model and the position applied *)
Definition Mutation : Type := nat → M → N → result M ReadModelProcessingError.

(** One attempt of [mutate]: done, with its answer, or to be repeated *)
Definition mutate_once (env : Surroundings S) (i : nat) (key : ReadModelKey) (source : string)
    (version : N) (mutation : Mutation) (s : S)
  : S * option (result unit ReadModelProcessingError) :=
  let s := before_read env i s in
  match (let? entry := map_err RmpStorage (rms_read s key) in
         let state := from_option entry_value (ReadModelState_default default_value) entry in
         let? _ := map_err RmpStorage (ReadModelState_validate state) in
         let applied := default 0 (positions state !! source) in
         if version <=? applied then Ok (entry, None)
         else
           let? value := mutation i (rms_value state) applied in
           Ok (entry, Some (mkReadModelState (format_version state) value
                              (<[source := version]> (positions state))))) with
  | Err e => (s, Some (Err e))
  | Ok (_, None) => (s, Some (Ok tt))
  | Ok (entry, Some state) =>
    let s := before_write env i s in
    let (s, written) :=
      match entry with
      | Some entry => rms_update s key (entry_revision entry) state
      | None => rms_create s key state
      end in
    match written with
    | Ok _ => (s, Some (Ok tt))
    | Err error => (s, match rme_kind error with
                       | RMConflict => None
                       | _ => Some (Err (RmpStorage error))
                       end)
    end
  end.

Definition contention : ReadModelProcessingError :=
  RmpStorage (mkReadModelError RMConflict "read-model contention; retry delivery later").

(** The attempts of [mutate], counting from [i] *)
Fixpoint mutate_from (env : Surroundings S) (retries i : nat) (key : ReadModelKey) (source : string)
    (version : N) (mutation : Mutation) (s : S) : S * result unit ReadModelProcessingError :=
  match retries with
  | O => (s, Err contention)
  | Datatypes.S retries =>
    match mutate_once env i key source version mutation s with
    | (s, Some answer) => (s, answer)
    | (s, None) => mutate_from env retries (Datatypes.S i) key source version mutation s
    end
  end.

(** [Session::mutate] *)
Definition mutate (session : Session M) (env : Surroundings S) (key : ReadModelKey) (source : string)
    (version : N) (mutation : Mutation) (s : S) : S * result unit ReadModelProcessingError :=
  if version =? 0 then (s, Err (RmpInvalidEvent "source version must be positive"))
  else
    match session_resources session with
    | Err e => (s, Err e)
    | Ok _ => mutate_from env (ses_retries session) 0 key source version mutation s
    end.

(** ** Domain events *)

(** One record of the history that fills a gap *)
Definition fill_record (resources : Resources M) (event : RecordedEvent) (key : ReadModelKey)
    (acc : M * N) (record : RecordedEvent) : result (M * N) ReadModelProcessingError :=
  let '(model, position) := acc in
  let version := version_value (re_stream_version record) in
  let? expected := ok_or (checked_add u64_max position 1) (RmpInvalidEvent "source version overflow") in
  fail! negb (version =? expected) with RmpSourceGap expected version;
  fail! negb (bool_decide (re_stream_id record = re_stream_id event))
        || (version =? version_value (re_stream_version event)) && negb (bool_decide (record = event))
    with RmpInvalidEvent "delivery disagrees with authoritative history";
  let? model :=
    match res_domain resources !! reducer_identity record with
    | None => Ok model
    | Some reducer =>
      let? record_key := reducer_key reducer record in
      if bool_decide (record_key = key) then reducer_apply reducer model record else Ok model
    end in
  Ok (model, expected).

(** The classification of a history that cannot be loaded *)
Definition history_failure (error : EventStoreError) : ReadModelProcessingError :=
  RmpStorage (mkReadModelError
    (if bool_decide (se_kind error = Unavailable) then RMUnavailable else RMInvalidData)
    (EventStoreError_display error)).

(** [DomainMutation::apply] *)
Definition domain_mutation (env : Surroundings S) (resources : Resources M) (reducer : DomainReducer M)
    (event : RecordedEvent) (key : ReadModelKey) : Mutation := λ i model applied,
  let version := version_value (re_stream_version event) in
  if bool_decide (checked_add u64_max applied 1 = Some version) then reducer_apply reducer model event
  else
    fail! negb (res_history resources) with RmpConfiguration "domain history is required";
    let? records := map_err history_failure (history_answer env i (re_stream_id event)) in
    let? filled := try_fold (fill_record resources event key) (model, applied)
      (filter (λ record, applied < version_value (re_stream_version record)
                         ∧ version_value (re_stream_version record) <= version) records) in
    fail! negb (filled.2 =? version) with RmpSourceGap (saturating_add u64_max filled.2 1) version;
    Ok filled.1.

Context `{TT : TupleText}.

Definition domain_source (context : BoundedContext) (stream : StreamId) : result string string :=
  tuple_to_string ["domain"; context_str (bc_name context); ident_str (aggregate_type stream);
                   ident_str (aggregate_id stream)].

(** [Session::domain] *)
Definition session_domain (session : Session M) (env : Surroundings S) (event : RecordedEvent) (s : S)
  : S * result unit ReadModelProcessingError :=
  match (let? resources := session_resources session in
         let? reducer := ok_or (res_domain resources !! reducer_identity event)
           (RmpInvalidEvent "unregistered domain event") in
         let? key := reducer_key reducer event in
         let? source := map_err RmpInvalidEvent (domain_source (ses_context session) (re_stream_id event)) in
         Ok (resources, reducer, key, source)) with
  | Err e => (s, Err e)
  | Ok (resources, reducer, key, source) =>
    mutate session env key source (version_value (re_stream_version event))
      (domain_mutation env resources reducer event key) s
  end.

(** [DomainHandler]; the text of an error is [display]. *)
Definition DomainHandler (display : ReadModelProcessingError → string) (session : Session M)
    (env : Surroundings S) {E} : DomainEventHandler (W := S) E := λ event s,
  let (s, handled) := session_domain session env (committed_recorded event) s in
  (map_err (λ error,
     mkHandlerError
       (if read_model_error_is_retryable error then Retryable
        else match error with
             | RmpInvalidEvent _ => InvalidCommittedEvent
             | _ => OperatorBlocking
             end) (display error)) handled, s).

(** [ReadModelReader::read] *)
Definition reader_read (session : Session M) (s : S) (key : ReadModelKey) : result (option M) ReadModelError :=
  let? _ := ok_or (ses_resources session)
    (mkReadModelError RMConfigurationMismatch "read model not connected") in
  let? entry := rms_read s key in
  match entry with
  | None => Ok None
  | Some entry => let? _ := ReadModelState_validate (entry_value entry) in Ok (Some (rms_value (entry_value entry)))
  end.

End Session.

(** ** Integration events (integration.rs) *)

Inductive Ordering (E : Type) :=
| Broker
| Consecutive (position : E → N)
| Latest (position : E → N).
Arguments Broker {E}.
Arguments Consecutive {E} position.
Arguments Latest {E} position.

Record IntegrationEventOrder (E : Type) := mkOrder { order_source : string; order_ordering : Ordering E }.
Arguments mkOrder {E}.
Arguments order_source {E}.
Arguments order_ordering {E}.

Definition order_broker {E} : IntegrationEventOrder E := mkOrder "" Broker.
Definition order_consecutive {E} (source : string) (position : E → N) : IntegrationEventOrder E :=
  mkOrder source (Consecutive position).
Definition order_latest {E} (source : string) (position : E → N) : IntegrationEventOrder E :=
  mkOrder source (Latest position).
Definition is_broker_ordered {E} (o : IntegrationEventOrder E) : bool :=
  match order_ordering o with Broker => true | _ => false end.

Record IntegrationSource (E : Type) := mkIntegrationSource {
  src_context : BoundedContext;
  src_order : IntegrationEventOrder E;
}.
Arguments mkIntegrationSource {E}.
Arguments src_context {E}.
Arguments src_order {E}.

Record IntegrationHandler (M E : Type) := mkIntegrationHandler {
  ih_session : Session M;
  ih_address : IntegrationEventAddress;
  ih_source : string;
  ih_order : IntegrationEventOrder E;
  ih_key : E → string;
  ih_change : Change M E;
  ih_retry_delay : RetryDelay;
  ih_invalid : QuarantineReason;
  ih_blocked : QuarantineReason;
}.
Arguments mkIntegrationHandler {M E}.
Arguments ih_session {M E}.
Arguments ih_address {M E}.
Arguments ih_source {M E}.
Arguments ih_order {M E}.
Arguments ih_key {M E}.
Arguments ih_change {M E}.
Arguments ih_retry_delay {M E}.
Arguments ih_invalid {M E}.
Arguments ih_blocked {M E}.

(** [ReadModelIntegrationBinding], with the handler's type instead of erased *)
Record ReadModelIntegrationBinding (M E : Type) := mkIntegrationBinding {
  rib_address : IntegrationEventAddress;
  rib_schema_version : N;
  rib_broker_ordered : bool;
  rib_handler : IntegrationHandler M E;
}.
Arguments mkIntegrationBinding {M E}.
Arguments rib_address {M E}.
Arguments rib_handler {M E}.

Definition nanos_per_milli : N := 1000000.

Section Integration.
Context {S M E W : Type} `{RMS : ReadModelStore S (ReadModelState M)} (default_value : M).
Context `{TT : TupleText} `{IEC : IntegrationEventContract E} `{WT : Wire E W}.
Context `{IEJ : JsonCodec (IntegrationEventEnvelopeWire W)} (rme_display : ReadModelError → string).

Definition rm_configuration {A} (r : result A ContractError) : result A ReadModelProcessingError :=
  map_err (λ e, RmpConfiguration (ContractError_display e)) r.

(** [IntegrationSource::default_for] *)
Definition default_source (context : BoundedContext) : result (IntegrationSource E) ReadModelProcessingError :=
  let? context := rm_configuration
    match integration_bounded_context E with
    | None => Ok context
    | Some name => bounded_context_in_scope (bc_application context) (bc_traffic_scope context) name
    end in
  Ok (mkIntegrationSource context order_broker).

(** The name of the positions of an integration input *)
Definition integration_source_text (session : Session M) (input : IntegrationSource E)
  : result string string :=
  if is_broker_ordered (src_order input)
  then tuple_to_string ["integration-broker"; application_str (bc_application (ses_context session))]
  else tuple_to_string ["integration"; context_str (bc_name (src_context input));
                        order_source (src_order input)].

(** [IntegrationHandler::bind] *)
Definition integration_bind (session : Session M) (input : IntegrationSource E) (key : E → string)
    (change : Change M E) : result (ReadModelIntegrationBinding M E) ReadModelProcessingError :=
  let? address := rm_configuration
    (bc_integration_event_address (src_context input) (integration_event_name E)) in
  let? source := map_err RmpConfiguration (integration_source_text session input) in
  let? retry_delay := rm_configuration (RetryDelay_new (100 * nanos_per_milli)) in
  let? invalid := rm_configuration (QuarantineReason_new "invalid read-model integration event") in
  let? blocked := rm_configuration (QuarantineReason_new
    "read model not materialized; repair the cause, then replay or refresh its source") in
  Ok (mkIntegrationBinding address (integration_schema_version E) (is_broker_ordered (src_order input))
        (mkIntegrationHandler session address source (src_order input) key change retry_delay invalid blocked)).

(** [IntegrationMutation::apply] *)
Definition integration_mutation (handler : IntegrationHandler M E) (event : E) (version : N) : Mutation :=
  λ _ model applied,
  fail! match order_ordering (ih_order handler) with
        | Consecutive _ => negb (bool_decide (checked_add u64_max applied 1 = Some version))
        | _ => false
        end with RmpSourceGap (saturating_add u64_max applied 1) version;
  ih_change handler model event.

(** The event a delivery carries, the key it changes and its version *)
Definition integration_input (handler : IntegrationHandler M E)
    (delivery : MessageDelivery IntegrationEventAddress) : result (E * ReadModelKey * N) ReadModelProcessingError :=
  let? envelope : IntegrationEventEnvelope E :=
    map_err (λ _, RmpInvalidEvent "malformed integration envelope")
      (read_integration_envelope (md_payload delivery)) in
  fail! negb (bool_decide (md_address delivery = ih_address handler))
        || negb (schema_get (iev_schema_version envelope) =? integration_schema_version E)
        || negb (bool_decide (iev_message_id envelope = md_message_id delivery))
    with RmpInvalidEvent "integration address, schema or identity mismatch";
  let event := iev_payload envelope in
  let? key := map_err (λ e, RmpInvalidEvent (rme_display e)) (ReadModelKey_new (ih_key handler event)) in
  let version :=
    match order_ordering (ih_order handler) with
    | Broker => di_source_sequence (md_info delivery)
    | Consecutive position | Latest position => position event
    end in
  Ok (event, key, version).

(** [IntegrationHandler::process] *)
Definition integration_process (env : Surroundings S) (handler : IntegrationHandler M E)
    (delivery : MessageDelivery IntegrationEventAddress) (s : S)
  : S * result unit ReadModelProcessingError :=
  match integration_input handler delivery with
  | Err e => (s, Err e)
  | Ok (event, key, version) =>
    mutate default_value (ih_session handler) env key (ih_source handler) version
      (integration_mutation handler event version) s
  end.

(** [IntegrationHandler::handle] *)
Definition integration_handle (env : Surroundings S) (handler : IntegrationHandler M E)
    (delivery : MessageDelivery IntegrationEventAddress) (s : S) : S * DeliveryDisposition :=
  let (s, processed) := integration_process env handler delivery s in
  (s, match processed with
      | Ok _ => Acknowledge
      | Err error =>
        if read_model_error_is_retryable error then Delivery.RetryAfter (ih_retry_delay handler)
        else match error with
             | RmpInvalidEvent _ => Quarantine (ih_invalid handler)
             | _ => Quarantine (ih_blocked handler)
             end
      end).

End Integration.
