(* ===== verification/MaterializeFacts.v ===== *)
(** * MaterializeFacts: a read model holds every event of its sources exactly
    once and in order, whatever is redelivered, retried or processed beside it,
    and never goes back. *)

From S2P Require Export Materialize.

(** ** What the storage promises *)

(** The state after a write of [x] at [key] that may happen only when [allowed]:
    the other keys are as before, and the write happened or was refused; one
    reported as done happened, of one reported as failed either may be true. *)
Definition written {T R E} (c c' : ReadModelKey → option (ReadModelEntry T)) (key : ReadModelKey) (x : T)
    (allowed : Prop) (r : result R E) : Prop :=
  (∀ k, k ≠ key → c' k = c k)
  ∧ (c' key = c key ∧ is_ok r = false ∨ allowed ∧ ∃ revision, c' key = Some (mkReadModelEntry x revision)).

(** The documentation of [ReadModelStore]: a mutation is atomic for its key, an
    update replaces only the value at the supplied revision, and a token, used
    with the key that issued it, identifies a value for good. *)
Class ReadModelStoreLaws (S T : Type) `{RMS : ReadModelStore S T} := {
  contents : S → ReadModelKey → option (ReadModelEntry T);
  later : S → S → Prop;
  later_preorder :: PreOrder later;
  read_current s key o : rms_read s key = Ok o → o = contents s key;
  revision_identifies s s' key e e' :
    later s s' → contents s key = Some e → contents s' key = Some e' →
    entry_revision e = entry_revision e' → e = e';
  create_atomic s key x s' r :
    rms_create s key x = (s', r) →
    later s s' ∧ written (contents s) (contents s') key x (contents s key = None) r;
  update_atomic s key revision x s' r :
    rms_update s key revision x = (s', r) →
    later s s'
    ∧ written (contents s) (contents s') key x
        (∃ e, contents s key = Some e ∧ entry_revision e = revision) r;
}.

Definition source_position {M} (st : ReadModelState M) (source : string) : N := default 0 (positions st !! source).

Lemma position_default {M} (x : M) source : source_position (ReadModelState_default x) source = 0.
Proof. unfold source_position, ReadModelState_default. cbn [positions]. by rewrite lookup_empty. Qed.

Lemma position_advanced {M} (st : ReadModelState M) (value : M) source version source' :
  source_position (mkReadModelState (format_version st) value (<[source := version]> (positions st))) source'
  = if decide (source' = source) then version else source_position st source'.
Proof.
  unfold source_position. cbn [positions]. case_decide; [subst; by rewrite lookup_insert_eq|].
  by rewrite lookup_insert_ne.
Qed.

(** ** One materialization *)

Section Mutate.
Context {S M : Type} `{RML : ReadModelStoreLaws S (ReadModelState M)} (default_value : M).
Context (env : Surroundings S) (key : ReadModelKey) (source : string) (version : N) (mutation : Mutation (M := M)).
Context (Hversion : version ≠ 0).

Definition state_of (entry : option (ReadModelEntry (ReadModelState M))) : ReadModelState M :=
  from_option entry_value (ReadModelState_default default_value) entry.

(** What a write may replace *)
Definition still_current (s : S) (entry : option (ReadModelEntry (ReadModelState M))) : Prop :=
  match entry with
  | Some e => ∃ e', contents s key = Some e' ∧ entry_revision e' = entry_revision e
  | None => contents s key = None
  end.

Lemma mutate_once_cases i s s' answer :
  mutate_once default_value env i key source version mutation s = (s', answer) →
  let s1 := before_read env i s in
  let s2 := before_write env i s1 in
  let st := state_of (contents s1 key) in
  (s' = s1 ∧ answer ≠ None
    ∧ (answer = Some (Ok tt) → ∃ e, contents s1 key = Some e ∧ version <= source_position (entry_value e) source))
  ∨ ∃ value (r : result ReadModelRevision ReadModelError),
      source_position st source < version ∧ mutation i (rms_value st) (source_position st source) = Ok value
      ∧ later s2 s'
      ∧ written (contents s2) (contents s') key
          (mkReadModelState (format_version st) value (<[source := version]> (positions st)))
          (still_current s2 (contents s1 key)) r
      ∧ (answer = Some (Ok tt) → is_ok r = true).
Proof using RML Hversion.
  intros H s1 s2 st. unfold mutate_once in H. fold s1 in H. fold s2 in H.
  destruct (rms_read s1 key) as [entry|e] eqn:Er; cbn [map_err rbind] in H;
    [|injection H as <- <-; by left].
  apply read_current in Er. subst entry. fold (state_of (contents s1 key)) in H. fold st in H.
  destruct (ReadModelState_validate st) as [u|e]; cbn [map_err rbind] in H; [|injection H as <- <-; by left].
  fold (source_position st source) in H. destruct (version <=? source_position st source) eqn:Ev.
  - injection H as <- <-. left. split_and!; [done..|]. intros _. apply N.leb_le in Ev.
    unfold st, state_of in Ev. destruct (contents s1 key) as [e|]; cbn [from_option] in Ev; [by exists e|].
    rewrite position_default in Ev. lia.
  - apply N.leb_gt in Ev. destruct (mutation i _ _) as [value|e] eqn:Em; cbn [rbind] in H;
      [|injection H as <- <-; by left].
    right. unfold still_current. destruct (contents s1 key) as [entry'|] eqn:Ec.
    + destruct (rms_update _ _ _ _) as [s3 r] eqn:Eu. apply update_atomic in Eu as [Hl Hw].
      exists value, r. destruct r as [rev|e]; [injection H as <- <-|destruct (rme_kind e); injection H as <- <-];
        by split_and!.
    + destruct (rms_create _ _ _) as [s3 r] eqn:Eu. apply create_atomic in Eu as [Hl Hw].
      exists value, r. destruct r as [rev|e]; [injection H as <- <-|destruct (rme_kind e); injection H as <- <-];
        by split_and!.
Qed.

(** *** An invariant of the stored values *)

Context (P : ReadModelKey → ReadModelState M → Prop).
Definition stored_invariant (s : S) : Prop := ∀ k e, contents s k = Some e → P k (entry_value e).

(** What every task guarantees and relies on *)
Definition respects (s s' : S) : Prop := later s s' ∧ (stored_invariant s → stored_invariant s').

#[global] Instance respects_preorder : PreOrder respects.
Proof using.
  split; [by split|]. intros s1 s2 s3 [H1 H2] [H3 H4]. split; [by etrans|auto].
Qed.

Context (Hdefault : P key (ReadModelState_default default_value)).
Context (Hmutation : ∀ i st value,
  P key st → source_position st source < version → mutation i (rms_value st) (source_position st source) = Ok value →
  P key (mkReadModelState (format_version st) value (<[source := version]> (positions st)))).
Context (Henv : ∀ i s, respects s (before_read env i s) ∧ respects s (before_write env i s)).


Lemma mutate_once_respects i s s' answer :
  mutate_once default_value env i key source version mutation s = (s', answer) →
  respects s s'
  ∧ (answer = Some (Ok tt) → ∃ e, contents s' key = Some e ∧ version <= source_position (entry_value e) source).
Proof using All.
  intros H. destruct (Henv i s) as [Hr _]. destruct (Henv i (before_read env i s)) as [_ Hw].
  assert (respects s (before_write env i (before_read env i s))) as Hs2 by by etrans.
  apply mutate_once_cases in H as [(-> & _ & H)|(value & r & Hlt & Hm & Hl & [Ho Hk] & Ha)]; [by split|].
  split.
  - split; [etrans; [apply Hs2|done]|]. intros Hinv k e He.
    destruct (decide (k = key)) as [->|Hne]; [|rewrite Ho in He by done; by apply Hs2 in He].
    destruct Hk as [[Hk _]|[_ [rev Hk]]]; rewrite Hk in He; [by apply Hs2 in He|]. injection He as <-.
    cbn [entry_value]. apply Hmutation with (i := i); [|done..].
    unfold state_of. destruct (contents (before_read env i s) key) as [e|] eqn:Ec; [|exact Hdefault].
    by apply (proj2 Hr) in Ec.
  - intros Hok. destruct Hk as [[_ Hk]|[_ [rev Hk]]]; [by rewrite Ha in Hk|].
    eexists. split; [exact Hk|]. cbn [entry_value]. rewrite position_advanced. by rewrite decide_True.
Qed.

Lemma mutate_from_respects retries i s s' answer :
  mutate_from default_value env retries i key source version mutation s = (s', answer) →
  respects s s'
  ∧ (answer = Ok tt → ∃ e, contents s' key = Some e ∧ version <= source_position (entry_value e) source).
Proof using All.
  revert i s. induction retries as [|retries IH]; intros i s; cbn [mutate_from]; [by intros [= <- <-]|].
  destruct (mutate_once _ _ _ _ _ _ _ _) as [s1 [a|]] eqn:E; apply mutate_once_respects in E as [Hr Ha].
  - intros [= <- <-]. split; [done|]. intros ->. by apply Ha.
  - intros [H1 H2]%IH. split; [by etrans|done].
Qed.

End Mutate.

(** ** Positions never go back *)

Section Keeps.
Context {S M : Type} `{RML : ReadModelStoreLaws S (ReadModelState M)} (default_value : M).

(** Nothing is deleted, and no position of any source of any key goes back. *)
Definition keeps (s s' : S) : Prop :=
  later s s' ∧ ∀ k e, contents s k = Some e →
    ∃ e', contents s' k = Some e' ∧ ∀ source, source_position (entry_value e) source <= source_position (entry_value e') source.

#[global] Instance keeps_preorder : PreOrder keeps.
Proof using.
  split; [split; [done|by eauto with lia]|]. intros s1 s2 s3 [L1 H1] [L2 H2]. split; [by etrans|].
  intros k e (e' & He' & H)%H1. apply H2 in He' as (e'' & He'' & H'). exists e''. split; [done|].
  intros source. etrans; [apply H|apply H'].
Qed.

Context (env : Surroundings S).
Context (Henv : ∀ i s, keeps s (before_read env i s) ∧ keeps s (before_write env i s)).

Lemma mutate_once_keeps key source version (mutation : Mutation (M := M)) i s s' answer :
  version ≠ 0 → mutate_once default_value env i key source version mutation s = (s', answer) → keeps s s'.
Proof using Henv.
  intros Hv H. destruct (Henv i s) as [Hr _]. destruct (Henv i (before_read env i s)) as [_ Hw].
  apply mutate_once_cases in H as [(-> & _)|(value & r & Hlt & _ & Hl & [Ho Hk] & _)]; [done| |done].
  etrans; [exact Hr|]. etrans; [exact Hw|]. split; [done|]. intros k e He.
  destruct (decide (k = key)) as [->|Hne]; [|rewrite Ho by done; by eauto with lia].
  destruct Hk as [[-> _]|[Hc [rev Hk]]]; [by eauto with lia|].
  unfold still_current in Hc. destruct (contents (before_read env i s) key) as [e1|] eqn:E1; [|by rewrite Hc in He].
  destruct Hc as (e2 & E2 & Erev). rewrite He in E2. injection E2 as <-.
  assert (e1 = e) as -> by by eapply revision_identifies; [apply Hw|..].
  eexists. split; [exact Hk|]. intros source'. cbn [entry_value]. rewrite position_advanced.
  case_decide; [subst|by apply N.le_refl]. apply N.lt_le_incl. exact Hlt.
Qed.

Lemma mutate_from_keeps key source version (mutation : Mutation (M := M)) retries i s s' answer :
  version ≠ 0 → mutate_from default_value env retries i key source version mutation s = (s', answer) →
  keeps s s'.
Proof using Henv.
  intros Hv. revert i s. induction retries as [|retries IH]; intros i s; cbn [mutate_from]; [by intros [= <- _]|].
  destruct (mutate_once _ _ _ _ _ _ _ _) as [s1 [a|]] eqn:E; apply mutate_once_keeps in E; [|done| |done].
  - by intros [= <- _].
  - intros H%IH. by etrans.
Qed.

Lemma mutate_keeps session key source version (mutation : Mutation (M := M)) s s' answer :
  mutate default_value session env key source version mutation s = (s', answer) → keeps s s'.
Proof using Henv.
  unfold mutate. destruct (version =? 0) eqn:Ev; [by intros [= <- _]|].
  destruct (session_resources session); [|by intros [= <- _]].
  apply mutate_from_keeps. by apply N.eqb_neq.
Qed.

End Keeps.

(** ** Histories and the gaps they fill *)

Section Fill.
Context {S M : Type} `{RMS : ReadModelStore S (ReadModelState M)}.

(** The version of a record is its place in the history. *)
Definition committed_history (history : StreamId → list RecordedEvent) : Prop :=
  ∀ stream i record, history stream !! i = Some record →
    re_stream_id record = stream ∧ version_value (re_stream_version record) = N.of_nat i + 1.

Lemma filter_versions (l : list RecordedEvent) base a v :
  (∀ i record, l !! i = Some record → version_value (re_stream_version record) = N.of_nat (base + i) + 1) →
  filter (λ record, a < version_value (re_stream_version record)
                    ∧ version_value (re_stream_version record) <= v) l
  = drop (N.to_nat a - base) (take (N.to_nat v - base) l).
Proof.
  revert base; induction l as [|r l IH]; intros base H; [by rewrite take_nil, drop_nil|].
  pose proof (H 0%nat r eq_refl) as Hr. rewrite Nat.add_0_r in Hr. rewrite filter_cons, Hr.
  rewrite (IH (Datatypes.S base)) by (intros i record Hi; rewrite (H (Datatypes.S i) record Hi); lia).
  destruct (decide (N.to_nat v <= base)%nat) as [Hv|Hv].
  - rewrite decide_False by lia.
    replace (N.to_nat v - base)%nat with 0%nat by lia. replace (N.to_nat v - Datatypes.S base)%nat with 0%nat by lia.
    by rewrite !take_0, !drop_nil.
  - replace (N.to_nat v - base)%nat with (Datatypes.S (N.to_nat v - Datatypes.S base)) by lia. cbn [take].
    destruct (decide (N.to_nat a <= base)%nat) as [Ha|Ha].
    + rewrite decide_True by lia. replace (N.to_nat a - base)%nat with 0%nat by lia.
      by replace (N.to_nat a - Datatypes.S base)%nat with 0%nat by lia.
    + rewrite decide_False by lia.
      by replace (N.to_nat a - base)%nat with (Datatypes.S (N.to_nat a - Datatypes.S base)) by lia.
Qed.

Context (resources : Resources M).

(** The records a key is materialized from: those of a registered event whose
    reducer gives this key *)
Definition relevant (key : ReadModelKey) (record : RecordedEvent) : bool :=
  match res_domain resources !! reducer_identity record with
  | Some reducer =>
    match reducer_key reducer record with Ok k => bool_decide (k = key) | Err _ => false end
  | None => false
  end.

Definition apply_record (model : M) (record : RecordedEvent) : result M ReadModelProcessingError :=
  match res_domain resources !! reducer_identity record with
  | Some reducer => reducer_apply reducer model record
  | None => Ok model
  end.

Lemma fill_spec event key records model p model' p' :
  try_fold (fill_record resources event key) (model, p) records = Ok (model', p') →
  try_fold apply_record model (filter (λ r, relevant key r = true) records) = Ok model'
  ∧ p' = p + len records.
Proof.
  revert model p; induction records as [|r records IH]; intros model p; cbn [try_fold].
  { intros [= <- <-]. split; [done|]. change (len (@nil RecordedEvent)) with 0. lia. }
  intros H. apply rbind_Ok in H as ([model1 p1] & Hf & H). unfold fill_record in Hf.
  apply rbind_Ok in Hf as (expected & He%ok_or_Ok & Hf).
  destruct (negb _) in Hf; [done|]. destruct (_ || _) in Hf; [done|].
  apply rbind_Ok in Hf as (model2 & Hm & [= <- <-]).
  assert (expected = p + 1) as -> by (unfold checked_add in He; destruct (_ <=? _); [by injection He as <-|discriminate He]).
  apply IH in H as [H ->]. rewrite len_cons. split; [|lia]. rewrite filter_cons.
  case_decide as Hrel; unfold relevant in Hrel; cbn [try_fold].
  - unfold apply_record at 1. destruct (res_domain resources !! _) as [reducer|]; [|done].
    apply rbind_Ok in Hm as (k & Hk & Hm). rewrite Hk in Hrel. rewrite Hrel in Hm. by rewrite Hm.
  - destruct (res_domain resources !! _) as [reducer|]; [|by injection Hm as ->].
    apply rbind_Ok in Hm as (k & Hk & Hm). rewrite Hk in Hrel. case_bool_decide; [done|]. by injection Hm as ->.
Qed.

End Fill.

(** ** What a read model was made of *)

Section Logs.
Context {S M : Type} `{RML : ReadModelStoreLaws S (ReadModelState M)} `{TT : TupleText} (default_value : M).
Context (context : BoundedContext) (resources : Resources M) (history : StreamId → list RecordedEvent).
Context (contiguous : string → Prop).

(** One change of a read model: a committed domain event, or the event of an
    integration source at a version *)
Inductive Applied :=
| AppliedDomain (record : RecordedEvent)
| AppliedIntegration (source : string) (version : N) (change : M → result M ReadModelProcessingError).

Definition apply_entry (model : M) (entry : Applied) : result M ReadModelProcessingError :=
  match entry with
  | AppliedDomain record => apply_record resources model record
  | AppliedIntegration _ _ change => change model
  end.
Definition records_of (stream : StreamId) (log : list Applied) : list RecordedEvent :=
  omap (λ entry, match entry with
                 | AppliedDomain record => if decide (re_stream_id record = stream) then Some record else None
                 | _ => None
                 end) log.
Definition versions_of (source : string) (log : list Applied) : list N :=
  omap (λ entry, match entry with
                 | AppliedIntegration s version _ => if decide (s = source) then Some version else None
                 | _ => None
                 end) log.

Definition is_domain_source (source : string) : Prop := ∃ stream, domain_source context stream = Ok source.

(** The state is what the log's changes make of the default; the log holds, of
    every stream, exactly the records for this key up to the stream's position,
    in order and once; and of every integration source strictly increasing
    versions up to its position - all of them, of a contiguous source. *)
Record materialized (key : ReadModelKey) (st : ReadModelState M) (log : list Applied) : Prop := mkMaterialized {
  ml_value : try_fold apply_entry default_value log = Ok (rms_value st);
  ml_domain : ∀ stream source, domain_source context stream = Ok source →
    records_of stream log
    = filter (λ r, relevant resources key r = true) (take (N.to_nat (source_position st source)) (history stream));
  ml_integration : ∀ source, ¬ is_domain_source source →
    StronglySorted N.lt (0 :: versions_of source log)
    ∧ last (0 :: versions_of source log) = Some (source_position st source);
  ml_contiguous : ∀ source, ¬ is_domain_source source → contiguous source →
    versions_of source log = map N.of_nat (seq 1 (N.to_nat (source_position st source)));
}.

Definition made_of_its_events (key : ReadModelKey) (st : ReadModelState M) : Prop :=
  ∃ log, materialized key st log.

Lemma default_materialized key : made_of_its_events key (ReadModelState_default default_value).
Proof using.
  exists []. split; [done| | |].
  - intros stream source _. by rewrite position_default.
  - intros source _. rewrite position_default. split; [repeat constructor|done].
  - intros source _ _. by rewrite position_default.
Qed.

Lemma domain_source_stream s1 s2 source :
  domain_source context s1 = Ok source → domain_source context s2 = Ok source → s1 = s2.
Proof using.
  unfold domain_source. intros H1 H2. pose proof (tuple_to_string_inj _ _ _ H1 H2) as E.
  injection E as E1%ident_str_inj E2%ident_str_inj. destruct s1, s2; cbn in *. by subst.
Qed.

(** Appending the records of one stream *)
Lemma records_of_domain stream records :
  Forall (λ r, re_stream_id r = stream) records →
  ∀ other, records_of other (map AppliedDomain records) = if decide (other = stream) then records else [].
Proof using.
  intros H other. induction H as [|r records Hr _ IH]; cbn; [by case_decide|].
  unfold records_of in *. rewrite IH, Hr. do 2 case_decide; congruence.
Qed.

Lemma versions_of_domain source records : versions_of source (map AppliedDomain records) = [].
Proof using. by induction records. Qed.

Lemma apply_domain model records :
  try_fold apply_entry model (map AppliedDomain records) = try_fold (apply_record resources) model records.
Proof using.
  revert model; induction records as [|r records IH]; intros model; cbn; [done|].
  destruct (apply_record _ _ _); cbn; [apply IH|done].
Qed.

(** The part of a history between two positions *)
Definition history_segment (stream : StreamId) (a v : N) : list RecordedEvent :=
  drop (N.to_nat a) (take (N.to_nat v) (history stream)).

Lemma take_segment stream a v :
  a <= v → take (N.to_nat v) (history stream) = take (N.to_nat a) (history stream) ++ history_segment stream a v.
Proof using.
  intros H. unfold history_segment. rewrite <- (take_drop (N.to_nat a) (take (N.to_nat v) (history stream))) at 1.
  by rewrite take_take, Nat.min_l by lia.
Qed.

Lemma segment_stream stream a v : committed_history history → Forall (λ r, re_stream_id r = stream) (history_segment stream a v).
Proof using.
  intros H. apply Forall_forall. intros r Hr. unfold history_segment in Hr.
  apply list_elem_of_lookup in Hr as (i & Hr). rewrite lookup_drop in Hr. apply lookup_take_Some in Hr as [Hr _].
  by apply H in Hr as [? _].
Qed.

Lemma materialized_domain key st log stream source v value :
  committed_history history → materialized key st log → domain_source context stream = Ok source →
  source_position st source < v →
  try_fold (apply_record resources) (rms_value st)
    (filter (λ r, relevant resources key r = true) (history_segment stream (source_position st source) v)) = Ok value →
  made_of_its_events key (mkReadModelState (format_version st) value (<[source := v]> (positions st))).
Proof using.
  intros Hh [Hv Hd Hi Hc] Hs Hlt Hf. set (records := filter _ _) in Hf.
  assert (∀ other, records_of other (map AppliedDomain records) = if decide (other = stream) then records else []) as Hrec.
  { apply records_of_domain. apply Forall_forall. intros r [_ Hr]%list_elem_of_filter.
    by eapply (proj1 (Forall_forall _ _) (segment_stream stream _ _ Hh)). }
  exists (log ++ map AppliedDomain records). split.
  - rewrite try_fold_app, Hv. cbn [rbind]. by rewrite apply_domain.
  - intros other source' Hs'. rewrite position_advanced. unfold records_of. rewrite omap_app.
    fold (records_of other log). fold (records_of other (map AppliedDomain records)). rewrite Hrec, (Hd _ _ Hs').
    destruct (decide (other = stream)) as [->|Hne].
    + assert (source' = source) as -> by congruence. rewrite decide_True by done.
      rewrite (take_segment stream (source_position st source) v) by lia. by rewrite filter_app.
    + rewrite decide_False, app_nil_r; [done|]. intros ->. apply Hne. by eapply domain_source_stream.
  - intros other Hn. rewrite position_advanced. unfold versions_of. rewrite omap_app. fold (versions_of other log).
    fold (versions_of other (map AppliedDomain records)). rewrite versions_of_domain, app_nil_r.
    rewrite decide_False by (intros ->; apply Hn; by exists stream). by apply Hi.
  - intros other Hn Hco. rewrite position_advanced. unfold versions_of. rewrite omap_app. fold (versions_of other log).
    fold (versions_of other (map AppliedDomain records)). rewrite versions_of_domain, app_nil_r.
    rewrite decide_False by (intros ->; apply Hn; by exists stream). by apply Hc.
Qed.

Lemma sorted_snoc (l : list N) p v :
  StronglySorted N.lt l → last l = Some p → p < v → StronglySorted N.lt (l ++ [v]).
Proof using.
  induction 1 as [|x l Hs IH Hx]; [done|]. intros Hl Hv. destruct l as [|y l].
  - injection Hl as ->. repeat constructor. done.
  - constructor; [by apply IH|]. apply (proj2 (Forall_app _ (y :: l) [v])). split; [done|]. constructor; [|done].
    apply Forall_inv in Hx. assert (y <= p); [|lia].
    clear IH. apply StronglySorted_inv in Hs as [_ Hy]. change (last (y :: l) = Some p) in Hl.
    apply last_Some_elem_of in Hl. rewrite elem_of_cons in Hl. destruct Hl as [->|Hl]; [lia|].
    apply N.lt_le_incl. by apply (proj1 (Forall_forall _ _) Hy).
Qed.

Lemma materialized_integration key st log source v (change : M → result M ReadModelProcessingError) value :
  materialized key st log → ¬ is_domain_source source → source_position st source < v →
  (contiguous source → v = source_position st source + 1) → change (rms_value st) = Ok value →
  made_of_its_events key (mkReadModelState (format_version st) value (<[source := v]> (positions st))).
Proof using.
  intros [Hv Hd Hi Hc] Hn Hlt Hco Hf. exists (log ++ [AppliedIntegration source v change]).
  assert (∀ other, versions_of other (log ++ [AppliedIntegration source v change])
    = versions_of other log ++ if decide (source = other) then [v] else []) as Hver.
  { intros other. unfold versions_of. rewrite omap_app. cbn. by case_decide. }
  split.
  - rewrite try_fold_app, Hv. cbn. by rewrite Hf.
  - intros stream source' Hs. rewrite position_advanced, decide_False by (intros ->; apply Hn; by exists stream).
    unfold records_of. rewrite omap_app. cbn. rewrite app_nil_r. by apply Hd.
  - intros other Ho. rewrite Hver, position_advanced. destruct (decide (source = other)) as [<-|Hne].
    + rewrite decide_True by done. destruct (Hi _ Ho) as [H1 H2]. rewrite app_comm_cons. split.
      * by eapply sorted_snoc.
      * by rewrite last_snoc.
    + rewrite decide_False by done. rewrite app_nil_r. by apply Hi.
  - intros other Ho Hcc. rewrite Hver, position_advanced. destruct (decide (source = other)) as [<-|Hne].
    + rewrite decide_True by done. rewrite (Hc _ Ho Hcc), (Hco Hcc).
      replace (N.to_nat (source_position st source + 1)) with (N.to_nat (source_position st source) + 1)%nat by lia.
      rewrite seq_app, map_app. cbn. f_equal. f_equal. lia.
    + rewrite decide_False by done. rewrite app_nil_r. by apply Hc.
Qed.

End Logs.

(** ** The theorems *)

Section Theorems.
Context {S M : Type} `{RML : ReadModelStoreLaws S (ReadModelState M)} `{TT : TupleText} (default_value : M).
Context (session : Session M) (resources : Resources M) (history : StreamId → list RecordedEvent).
Context (contiguous : string → Prop).

(** Every stored value of a store is made of its events. *)
Definition read_model_invariant : S → Prop :=
  stored_invariant (made_of_its_events default_value (ses_context session) resources history contiguous).

(** What a task does to the store when it keeps the invariant *)
Definition guarantees : S → S → Prop :=
  respects (made_of_its_events default_value (ses_context session) resources history contiguous).

(** Surroundings in which the others keep the invariant and every loaded history
    is the committed one up to some point *)
Record well_surrounded (env : Surroundings S) : Prop := mkWellSurrounded {
  ws_others : ∀ i s, guarantees s (before_read env i s) ∧ guarantees s (before_write env i s);
  ws_history : ∀ i stream records, history_answer env i stream = Ok records → records `prefix_of` history stream;
}.

(** An attempt at a domain event applies the part of the history it is behind. *)
Lemma domain_mutation_segment env event reducer key i model applied value :
  committed_history history → well_surrounded env →
  history (re_stream_id event) !! N.to_nat (version_value (re_stream_version event) - 1) = Some event →
  res_domain resources !! reducer_identity event = Some reducer → reducer_key reducer event = Ok key →
  applied < version_value (re_stream_version event) →
  domain_mutation env resources reducer event key i model applied = Ok value →
  try_fold (apply_record resources) model
    (filter (λ r, relevant resources key r = true)
       (history_segment history (re_stream_id event) applied (version_value (re_stream_version event)))) = Ok value.
Proof using.
  intros Hh [_ Hhist] Hin Hreg Hkey Hlt. unfold domain_mutation, history_segment.
  set (v := version_value _) in *. set (stream := re_stream_id event) in *.
  case_bool_decide as Hnext.
  - intros Ha. unfold checked_add in Hnext. destruct (_ <=? _); [|done]. injection Hnext as Hnext.
    assert (drop (N.to_nat applied) (take (N.to_nat v) (history stream)) = [event]) as ->.
    { replace (N.to_nat v) with (Datatypes.S (N.to_nat applied)) by lia.
      replace (N.to_nat (v - 1)) with (N.to_nat applied) in Hin by lia.
      rewrite (take_S_r _ _ _ Hin), drop_app_length'; [done|].
      apply lookup_lt_Some in Hin. rewrite length_take. lia. }
    rewrite filter_cons, decide_True by (unfold relevant; rewrite Hreg, Hkey; by apply bool_decide_eq_true).
    cbn. unfold apply_record. by rewrite Hreg, Ha.
  - intros H. destruct (negb _) in H; [done|]. apply rbind_Ok in H as (records & Hr%map_err_Ok & H).
    apply Hhist in Hr as [rest Hr]. apply rbind_Ok in H as ([model' p'] & Hf & H).
    rewrite (filter_versions records 0 applied v), !Nat.sub_0_r in Hf.
    2:{ intros j record Hj. cbn. apply (Hh stream). rewrite Hr. by apply lookup_app_l_Some. }
    apply fill_spec in Hf as [Hf ->]. cbn [fst snd] in H. destruct (_ =? v) eqn:Ev; cbn [negb] in H; [|done].
    injection H as ->. apply N.eqb_eq in Ev. unfold len in Ev. rewrite length_drop, length_take in Ev.
    rewrite Hr, take_app_le by lia. exact Hf.
Qed.

(** C5 (invariant). A read model holds every domain event exactly once: however
    its events are redelivered, reordered, retried after lost acknowledgements
    or conflicts, or processed beside other tasks, every stored value stays what
    its log of changes makes of the default, the log holding of each stream
    exactly the committed records for the key, in order and once, up to the
    stream's position; and an event reported as handled is in it. *)
Theorem domain_events_are_applied_once env event s s' r :
  ses_resources session = Some resources → committed_history history → well_surrounded env →
  history (re_stream_id event) !! N.to_nat (version_value (re_stream_version event) - 1) = Some event →
  session_domain default_value session env event s = (s', r) →
  guarantees s s'
  ∧ (r = Ok tt → ∃ key source entry,
      relevant resources key event = true
      ∧ domain_source (ses_context session) (re_stream_id event) = Ok source
      ∧ contents s' key = Some entry
      ∧ version_value (re_stream_version event) <= source_position (entry_value entry) source).
Proof using.
  intros Hres Hh Hws Hin. unfold session_domain, session_resources. rewrite Hres. cbn [ok_or rbind].
  destruct (res_domain resources !! _) as [reducer|] eqn:Hreg; cbn [ok_or rbind]; [|intros [= <- <-]; by split].
  destruct (reducer_key reducer event) as [key|e] eqn:Hkey; cbn [rbind]; [|intros [= <- <-]; by split].
  destruct (domain_source _ _) as [source|e] eqn:Hsource; cbn [map_err rbind]; [|intros [= <- <-]; by split].
  unfold mutate, session_resources. destruct (_ =? 0) eqn:Ev; [intros [= <- <-]; by split|].
  rewrite Hres. cbn [ok_or]. apply N.eqb_neq in Ev. intros H.
  apply (mutate_from_respects default_value env key source _ _ Ev
    (made_of_its_events default_value (ses_context session) resources history contiguous)) in H as [Hg Hok].
  - split; [exact Hg|]. intros [entry Hentry]%Hok. exists key, source, entry. split_and!; try apply Hentry; [|done].
    unfold relevant. rewrite Hreg, Hkey. by apply bool_decide_eq_true.
  - apply default_materialized.
  - intros i st value [log Hlog] Hlt Hm. eapply materialized_domain; [exact Hh|exact Hlog|exact Hsource|exact Hlt|].
    by eapply domain_mutation_segment.
  - apply Hws.
Qed.

(** Acknowledging an integration event materializes it, once: under
    the same conditions the handler of an integration source keeps every stored
    value made of its log - of every source strictly increasing versions up to
    its position, so a redelivered or outdated version is never applied again,
    and every version from one on, of a source all of whose handlers are
    consecutive - and a delivery is acknowledged only when its version is at or
    below the position stored with the value of its key. *)
Theorem integration_events_are_applied_once {E W} `{IEC : IntegrationEventContract E} `{WT : Wire E W}
    `{IEJ : JsonCodec (IntegrationEventEnvelopeWire W)} rme_display env (handler : IntegrationHandler M E)
    delivery s s' disposition :
  ih_session handler = session → well_surrounded env →
  ¬ is_domain_source (ses_context session) (ih_source handler) →
  (contiguous (ih_source handler) → ∃ f, order_ordering (ih_order handler) = Consecutive f) →
  integration_handle default_value rme_display env handler delivery s = (s', disposition) →
  guarantees s s'
  ∧ (disposition = Acknowledge → ∃ event key version entry,
      integration_input rme_display handler delivery = Ok (event, key, version)
      ∧ contents s' key = Some entry ∧ version <= source_position (entry_value entry) (ih_source handler)).
Proof using.
  intros Hses Hws Hn Hco. unfold integration_handle, integration_process.
  destruct (integration_input _ _ _) as [[[event key] version]|e].
  2:{ intros [= <- <-]. split; [done|]. by destruct (read_model_error_is_retryable e); [|destruct e]. }
  unfold mutate. destruct (version =? 0) eqn:Ev; [intros [= <- <-]; by split|]. rewrite Hses.
  destruct (session_resources session) as [u|e];
    [|intros [= <- <-]; split; [done|by destruct (read_model_error_is_retryable e); [|destruct e]]].
  apply N.eqb_neq in Ev. destruct (mutate_from _ _ _ _ _ _ _ _ _) as [s1 answer] eqn:Hrun. intros [= <- <-].
  apply (mutate_from_respects default_value env key (ih_source handler) version _ Ev
    (made_of_its_events default_value (ses_context session) resources history contiguous)) in Hrun as [Hg Hok].
  - split; [exact Hg|]. destruct answer as [[]|e]; [|by destruct (read_model_error_is_retryable e); [|destruct e]].
    intros _. destruct (Hok eq_refl) as (entry & Hc & Hp). by exists event, key, version, entry.
  - apply default_materialized.
  - intros i st value [log Hlog] Hlt Hm. unfold integration_mutation in Hm.
    eapply (materialized_integration _ _ _ _ _ _ _ _ _ _ (λ m, ih_change handler m event));
      [exact Hlog|exact Hn|exact Hlt| |].
    + intros [f Hf]%Hco. rewrite Hf in Hm. case_bool_decide as Hc; [|done].
      unfold checked_add in Hc. destruct (_ <=? _); [|done]. by injection Hc.
    + destruct (match order_ordering _ with Consecutive _ => _ | _ => _ end) in Hm; [done|exact Hm].
  - apply Hws.
Qed.

(** A read model never goes back: when the others neither delete
    values nor undo positions, no materialization does - every stored value is
    still there, at positions no smaller - although its write rests on a value
    read before the others acted. *)
Theorem materialization_never_goes_back env event s s' r :
  (∀ i s, keeps s (before_read env i s) ∧ keeps s (before_write env i s)) →
  session_domain default_value session env event s = (s', r) → keeps s s'.
Proof using.
  intros Henv. unfold session_domain. destruct (rbind _ _) as [[[[res reducer] key] source]|e]; [|by intros [= <- _]].
  by apply mutate_keeps.
Qed.

End Theorems.
