(* ===== verification/BusSamples.v ===== *)
(** * BusSamples: concrete JSON values and documents of the runtime's messages,
    and the inputs at which the theorems of the bus are applied. *)

From S2P Require Export CommandProcessorFacts ExecutorSafety IntegrationFacts InMemoryMessaging QueryBus.

(** ** Values *)

#[global] Instance sample_text : JsonText :=
  {| Number := N;
     is_f64 := λ _, false;
     to_writer := λ v, Ok match v with
                          | VNull => as_bytes "null"
                          | VBool b => as_bytes (if b then "true" else "false")
                          | VNumber n => as_bytes (n_to_string n)
                          | VString s => as_bytes s
                          | VArray _ | VObject _ => []
                          end |}.

Fixpoint value_tree (v : JValue) : gen_tree (bool + N + string) :=
  match v with
  | VNull => GenNode 0 []
  | VBool b => GenLeaf (inl (inl b))
  | VNumber n => GenLeaf (inl (inr n))
  | VString s => GenLeaf (inr s)
  | VArray l => GenNode 1 (map value_tree l)
  | VObject m => GenNode 2 (map (λ '(k, v), GenNode 3 [GenLeaf (inr k); value_tree v]) m)
  end.
Definition tree_key (t : gen_tree (bool + N + string)) : string :=
  match t with GenNode _ (GenLeaf (inr k) :: _) => k | _ => "" end.
Fixpoint tree_value (t : gen_tree (bool + N + string)) : JValue :=
  match t with
  | GenLeaf (inl (inl b)) => VBool b
  | GenLeaf (inl (inr n)) => VNumber (n : Number)
  | GenLeaf (inr s) => VString s
  | GenNode 1 l => VArray (map tree_value l)
  | GenNode 2 l => VObject (map (λ t, (tree_key t, tree_value t)) l)
  | GenNode 3 [_; t] => tree_value t
  | GenNode _ _ => VNull
  end.

Lemma tree_value_tree v : tree_value (value_tree v) = v.
Proof.
  revert v. fix IH 1. intros [| | | |l|m]; cbn; [done..| |]; f_equal.
  - induction l as [|v l IHl]; cbn; [done|]. by rewrite IH, IHl.
  - induction m as [|[k v] m IHm]; cbn; [done|]. by rewrite IH, IHm.
Qed.

#[global] Instance Value_eq_dec : EqDecision JValue.
Proof.
  intros v w. destruct (decide (value_tree v = value_tree w)) as [E|E].
  - left. by rewrite <- (tree_value_tree v), E, tree_value_tree.
  - right. by intros ->.
Defined.
#[global] Instance Value_countable : Countable JValue.
Proof. exact (inj_countable' value_tree tree_value tree_value_tree). Defined.

(** ** Documents

    A record is written as the fields of its wire form; its value is the string
    of that text, so both read back alike. *)

Lemma string_of_bytes bs : as_bytes (string_of_list_byte bs) = bs.
Proof. apply list_byte_of_string_of_list_byte. Qed.

Definition fields_value {A} (to : A → list (list byte)) : ToValue A :=
  {| to_value := λ x, Ok (VString (string_of_list_byte (join_fields (to x)))) |}.

Lemma fields_value_read {A} (to : A → list (list byte)) from (law : ∀ x, from (to x) = Some x) x v bytes :
  to_value (ToValue := fields_value to) x = Ok v → write_value v = Ok bytes →
  from_slice (JsonCodec := json_codec (Json := fields_json to from law)) bytes = Ok x.
Proof. intros [= <-] [= <-]. rewrite string_of_bytes. cbn. by rewrite split_join; cbn; rewrite law. Qed.

(** A type in a field of its own *)
Definition single `{Countable A} (x : A) : list (list byte) := [field x].
Definition unsingle `{Countable A} (l : list (list byte)) : option A :=
  match l with [x] => unfield x | _ => None end.
Lemma unsingle_single `{Countable A} (x : A) : unsingle (single x) = Some x.
Proof. apply unfield_field. Qed.

(** Command envelopes *)
Definition command_fields (w : CommandEnvelopeWire RoutedCommandWire) : list (list byte) :=
  [field (cew_message_id w); field (cew_operation_id w); field (cew_schema_version w);
   field (cew_created_at w); field (cew_correlation_id w); field (cew_causation_id w);
   field (rcw_command (cew_payload w)); field (rcw_schema_version (cew_payload w));
   field (rcw_payload (cew_payload w)); field (rcw_events_caused_by_command (cew_payload w));
   field (cew_metadata_version w); field (cew_actor w)].
Definition fields_command (l : list (list byte)) : option (CommandEnvelopeWire RoutedCommandWire) :=
  match l with
  | [a; b; c; d; e; f; g; h; i; j; k; m] =>
    a ← unfield a; b ← unfield b; c ← unfield c; d ← unfield d; e ← unfield e; f ← unfield f;
    g ← unfield g; h ← unfield h; i ← unfield i; j ← unfield j; k ← unfield k; m ← unfield m;
    Some (mkCommandEnvelopeWire a b c d e f (mkRoutedCommandWire g h i j) k m)
  | _ => None
  end.
Lemma fields_command_law w : fields_command (command_fields w) = Some w.
Proof. destruct w as [? ? ? ? ? ? [] ? ?]. cbn -[field unfield]. by rewrite !unfield_field. Qed.
#[global] Instance sample_command_json : Json (CommandEnvelopeWire RoutedCommandWire) :=
  fields_json _ _ fields_command_law.
#[global] Instance sample_command_value : ToValue (CommandEnvelopeWire RoutedCommandWire) :=
  fields_value command_fields.
#[global] Instance sample_command_text : CommandText.
Proof. intros w v bytes _. apply fields_value_read. Qed.

(** Rejections and responses *)
#[global] Instance Classification_countable : Countable CommandRejectionClassification.
Proof.
  refine (inj_countable
    (λ c, match c with
          | RejectInvalidRequest => 0 | RejectUnauthorized => 1 | RejectForbidden => 2 | RejectNotFound => 3
          | RejectConflict => 4 | RejectRateLimited => 5 | RejectUnavailable => 6 | RejectInternal => 7
          end%nat)
    (λ n, [RejectInvalidRequest; RejectUnauthorized; RejectForbidden; RejectNotFound; RejectConflict;
           RejectRateLimited; RejectUnavailable; RejectInternal] !! n) _).
  by intros [].
Defined.
Definition failure_codes : list ExecutionFailure :=
  map FailureStore [FailCorruptHistory; FailCapacityExhausted; FailConfigurationMismatch; FailConflict;
                    FailUnavailable]
  ++ map FailureCodec [FailUnknownEventType; FailUnsupportedSchemaVersion; FailMalformedPayload;
                       FailConversionFailed; FailInvalidEnvelope; FailEncodingFailed]
  ++ [FailureProcessor InvalidConfiguration].
#[global] Instance Failure_countable : Countable ExecutionFailure.
Proof.
  refine (inj_countable (λ f, default O (fst <$> list_find (f =.) failure_codes)) (λ n, failure_codes !! n) _).
  by intros [[]|[]|[]].
Defined.

Definition rejection_parts (w : CommandRejectionWire) :=
  (rjw_classification w, rjw_code w, rjw_message w, rjw_details w).
#[global] Instance RejectionWire_eq_dec : EqDecision CommandRejectionWire.
Proof. solve_decision. Defined.
#[global] Instance RejectionWire_countable : Countable CommandRejectionWire.
Proof.
  by refine (inj_countable' rejection_parts (λ '(a, b, c, d), mkCommandRejectionWire a b c d) _); intros [].
Defined.
#[global] Instance sample_rejection_json : Json CommandRejectionWire := index_json CommandRejectionWire.

Definition outcome_parts (o : CommandResponseOutcomeWire) : option (CommandRejectionWire + ExecutionFailure) :=
  match o with
  | WireAccepted => None
  | WireRejected r => Some (inl r)
  | WireExecutionFailed f => Some (inr f)
  end.
Definition parts_outcome (o : option (CommandRejectionWire + ExecutionFailure)) : CommandResponseOutcomeWire :=
  match o with
  | None => WireAccepted
  | Some (inl r) => WireRejected r
  | Some (inr f) => WireExecutionFailed f
  end.
Definition response_fields (w : CommandResponseWire) : list (list byte) :=
  [field (rsw_message_id w); field (rsw_command_message_id w); field (rsw_command_address w);
   field (rsw_operation_id w); field (rsw_schema_version w); field (rsw_correlation_id w);
   field (outcome_parts (rsw_outcome w))].
Definition fields_response (l : list (list byte)) : option CommandResponseWire :=
  match l with
  | [a; b; c; d; e; f; g] =>
    a ← unfield a; b ← unfield b; c ← unfield c; d ← unfield d; e ← unfield e; f ← unfield f;
    g ← unfield g; Some (mkCommandResponseWire a b c d e f (parts_outcome g))
  | _ => None
  end.
Lemma fields_response_law w : fields_response (response_fields w) = Some w.
Proof.
  destruct w as [? ? ? ? ? ? o]. cbn -[field unfield]. rewrite !unfield_field. cbn.
  by destruct o.
Qed.
#[global] Instance sample_response_json : ResponseJson.
Proof.
  pose (j := fields_json _ _ fields_response_law).
  refine {| response_to_vec := to_vec;
            response_from_slice := λ bytes, rmap (λ w, (w, mkExtensions false false)) (from_slice bytes) |}.
  intros w bytes _ H. by rewrite (json_roundtrip _ _ H).
Defined.

(** Integration events: the sample event is a number. *)
#[global] Instance number_wire : Wire N N := plain_wire N.
Definition event_fields (w : IntegrationEventEnvelopeWire N) : list (list byte) :=
  [field (iew_message_id w); field (iew_schema_version w); field (iew_occurred_at w);
   field (iew_correlation_id w); field (iew_causation_id w); field (iew_payload w);
   field (iew_metadata_version w); field (iew_actor w)].
Definition fields_event (l : list (list byte)) : option (IntegrationEventEnvelopeWire N) :=
  match l with
  | [a; b; c; d; e; f; g; h] =>
    a ← unfield a; b ← unfield b; c ← unfield c; d ← unfield d; e ← unfield e; f ← unfield f;
    g ← unfield g; h ← unfield h; Some (mkIntegrationEventEnvelopeWire a b c d e f g h)
  | _ => None
  end.
Lemma fields_event_law w : fields_event (event_fields w) = Some w.
Proof. destruct w. cbn -[field unfield]. by rewrite !unfield_field. Qed.
#[global] Instance sample_event_json : Json (IntegrationEventEnvelopeWire N) :=
  fields_json _ _ fields_event_law.
#[global] Instance sample_event_value : ToValue (IntegrationEventEnvelopeWire N) :=
  fields_value event_fields.

(** ** Inputs *)

#[local] Existing Instances tail_digest sample_json sample_counter.
#[local] Instance processor_store : ExecutionStore State := memory_execution_store id sample_store.

Definition sample_route : BoundedContext :=
  mkBoundedContext (mkApplicationName "shop") Normal sample_context.
Definition silent_adapter : CommandMessageAdapter unit :=
  mkAdapter 1048576 (λ s c, (s, [], Err (bus_encoding "silent"))).
Definition sample_bus : CommandBus unit := CommandBus_new sample_route silent_adapter.
Definition sample_payload : JValue := VObject [("count", VNumber (2 : Number)); ("sku", VString "a-1")].
Definition sample_request : DynamicCommandRequest :=
  mkDynamicRequest (Some (mkActorRef "users" "alice")) sample_operation "place" 1 sample_payload None
    (Some (Identifier "request-7")) (Some (mkMessageTimestamp 5)) false.

Lemma sample_request_ok : request_ok sample_request.
Proof. split; intros ? [= <-] || idtac; by vm_compute. Qed.

Definition sample_command_result : result EncodedCommand CommandBusError :=
  encode_dynamic sample_bus None sample_request.
Lemma sample_command_encodes : is_ok sample_command_result = true.
Proof. by vm_compute. Qed.

(** ** The witnesses *)

Definition sample_reordered : list (string * JValue) :=
  [("sku", VString "a-1"); ("count", VNumber (2 : Number))].
Lemma canonical_text_ignores_member_order_witness :
  write_value sample_payload = write_value (VObject sample_reordered).
Proof.
  apply canonical_text_ignores_member_order, (same_object _ sample_reordered).
  - apply (bool_decide_unpack _). by vm_compute.
  - constructor.
  - repeat constructor.
Defined.

Lemma diagnostic_identity_is_separate_witness :
  ∃ decided diagnostic other,
    command_response_message_id (Identifier "m-1") = Ok decided
    ∧ command_technical_response_message_id (Identifier "m-1") (FailureStore FailUnavailable) = Ok diagnostic
    ∧ command_technical_response_message_id (Identifier "m-1") (FailureStore FailConflict) = Ok other
    ∧ decided ≠ diagnostic ∧ diagnostic ≠ other.
Proof.
  destruct (diagnostic_identity_is_separate (Identifier "m-1") (Identifier "m-1")
    (FailureStore FailUnavailable) (FailureStore FailConflict)) as (a & b & c & Ha & Hb & Hc & Hd & Ho);
    [by vm_compute..|].
  exists a, b, c. split_and!; [done..| |].
  - apply Hd. intros E; exfalso; revert E; by vm_compute.
  - intros Eq. apply Ho in Eq as [_ Eq]; [discriminate Eq|]. intros E; exfalso; revert E; by vm_compute.
Defined.

Definition sample_submission (causation : string) : Submission :=
  mkSubmission (Address "shop.command.orders.place") (Identifier "op-1") 1 (as_bytes "{}") false None
    (Identifier "op-1") (Some (Identifier causation)).
Lemma sample_submission_ok causation :
  identifier_new KCausationId causation = Ok (Identifier causation) → submission_ok (sample_submission causation).
Proof.
  intros H. split; cbn [sample_submission sub_address sub_operation sub_schema sub_payload sub_actor
    sub_correlation sub_causation]; [by vm_compute..|done|by vm_compute|].
  by intros ? [= <-].
Qed.

Lemma message_identity_is_content_witness :
  submission_message_id (sample_submission "c-1") = submission_message_id (sample_submission "c-2")
  ↔ sample_submission "c-1" = sample_submission "c-2".
Proof.
  apply message_identity_is_content; [by apply sample_submission_ok..| |].
  - intros E; exfalso; revert E; by vm_compute.
  - by intros _.
Defined.

Lemma encoded_command_is_admitted_witness :
  match sample_command_result with
  | Ok c => admit_encoded sample_bus c = Ok tt
  | Err _ => False
  end.
Proof.
  pose proof sample_command_encodes as H. destruct sample_command_result as [c|] eqn:E; [|discriminate H].
  exact (proj1 (encoded_command_is_admitted sample_bus None sample_request c sample_request_ok E)).
Defined.

Lemma response_address_identifies_command_witness :
  ∃ r, derive_command_response_address (Address "shop.command.orders.place") (Identifier "op-1")
         (Identifier "m-1") = Ok r ∧ address_context r = "orders".
Proof.
  destruct (response_address_identifies_command (Address "shop.command.orders.place")
    (Address "shop.command.orders.place") (Identifier "op-1") (Identifier "op-1") (Identifier "m-1")
    (Identifier "m-2")) as (r & _ & Hr & _ & _ & _ & _ & Hc & _); [by vm_compute..|].
  exists r. split; [exact Hr|]. rewrite Hc. by vm_compute.
Defined.

(** A processor without bindings decides every command: it rejects it. *)
Definition sample_number (n : N) : Number := n.
Definition trusted_processor : CommandProcessor (M := unit) (A := unit) := CommandProcessor_new sample_context.
Definition sample_surroundings : ProcessEnvironment (S := State) :=
  mkProcessEnvironment (λ s, s) (quiet : Interference) sample_env.

Definition sample_processing (c : EncodedCommand) :=
  process id sample_number 4 trusted_processor sample_surroundings c State_default.
Lemma sample_processing_answers :
  match sample_command_result with
  | Ok c => match sample_processing c with Some (_, Ok _) => true | _ => false end
  | Err _ => false
  end = true.
Proof. by vm_compute. Qed.

Lemma processed_response_answers_command_witness :
  match sample_command_result with
  | Ok c => match sample_processing c with
            | Some (_, Ok r) => rsp_operation_id r = enc_operation_id c
            | _ => False
            end
  | Err _ => False
  end.
Proof.
  pose proof sample_processing_answers as H. destruct sample_command_result as [c|] eqn:Ec; [|discriminate H].
  destruct (sample_processing c) as [[s' [r|]]|] eqn:E; [|discriminate H..].
  destruct (processed_response_answers_command id sample_number 4 trusted_processor sample_surroundings c
              State_default s' r E) as [Hv _].
  apply validate_response_Ok in Hv. apply Hv.
Defined.

Definition sample_caller : TrustedCommandContext :=
  TrustedCommandContext_new (mkPrincipal "alice") (Ident "tenant-1").
Definition reading_policy (read : bool) : CommandAuthorizer := λ _ _ access,
  match access with
  | ReadOutcome => if read then Ok tt else Err Denied
  | Execute => Err Denied
  end.
Definition guarded_processor (read : bool) : CommandProcessor (M := unit) (A := unit) :=
  builder_authorizer (processor_builder sample_route) (reading_policy read).

Lemma sample_command_serviceable :
  match sample_command_result with
  | Ok c => is_ok (validate_service (guarded_processor false) c)
  | Err _ => false
  end = true.
Proof. by vm_compute. Qed.

Lemma processing_terminates_witness :
  match sample_command_result with
  | Ok c => is_Some (process id sample_number 4 trusted_processor sample_surroundings c State_default)
  | Err _ => False
  end.
Proof.
  pose proof sample_command_encodes as H. destruct sample_command_result as [c|] eqn:Ec; [|discriminate H].
  exact (proj1 (processing_terminates id sample_number 3 trusted_processor sample_surroundings c State_default
    "attempt" sample_caller tt eq_refl eq_refl)).
Defined.

Lemma unauthorized_caller_learns_nothing_witness :
  match sample_command_result with
  | Ok c => ∀ s, ∃ report,
      service_process id sample_number 4 (guarded_processor false) "attempt" sample_surroundings sample_caller
        c tt s = Some (tt, s, report)
  | Err _ => False
  end.
Proof.
  pose proof sample_command_serviceable as H. destruct sample_command_result as [c|] eqn:Ec; [|discriminate H].
  destruct (unauthorized_caller_learns_nothing id sample_number (guarded_processor false) (reading_policy false)
    "attempt" sample_caller c Denied tt eq_refl eq_refl H) as ([] & delivery & Hs).
  intros s. eexists. exact (proj1 (Hs 4%nat sample_surroundings s)).
Defined.

Lemma reader_never_executes_witness :
  match sample_command_result with
  | Ok c => ∀ s, ∃ report,
      service_process id sample_number 4 (guarded_processor true) "attempt" sample_surroundings sample_caller
        c tt s = Some (tt, s, report)
  | Err _ => False
  end.
Proof.
  pose proof sample_command_encodes as H. destruct sample_command_result as [c|] eqn:Ec; [|discriminate H].
  intros s. destruct (reader_never_executes id sample_number (guarded_processor true) (reading_policy true)
    "attempt" sample_caller c Denied tt eq_refl eq_refl 4%nat sample_surroundings s)
    as ([] & s' & report & Hs & Hcases & _).
  exists report. rewrite Hs. by destruct Hcases as [->| ->].
Defined.

(** ** Integration events and queries *)

Lemma integration_identities_name_their_source_witness :
  integration_message_id (Address "shop.integration.orders.placed") (mkSchemaVersion 1) (Ident "e-1")
  ≠ integration_message_id (Address "shop.integration.orders.placed") (mkSchemaVersion 1) (Ident "e-2").
Proof.
  intros E. apply (integration_identities_name_their_source (Address "shop.integration.orders.placed")
    (mkSchemaVersion 1) (Ident "e-1") (Address "shop.integration.orders.placed") (mkSchemaVersion 1)
    (Ident "e-2") (DeliveryName "shop--orders--mail--v1") (Identifier "m-1")
    (DeliveryName "shop--orders--mail--v1") (Identifier "m-1")) in E as (_ & _ & E);
    [discriminate E|by vm_compute..|intros Eq; exfalso; revert Eq; by vm_compute|by intros _].
Defined.

#[local] Instance sample_contract : IntegrationEventContract N :=
  {| integration_event_name := "placed"; integration_schema_version := 1; integration_bounded_context := Some "orders" |}.
Definition bus_committed : CommittedEventContext :=
  mkCommittedContext None (Ident "e-1") (Identifier "op-1") (Some (mkMessageTimestamp 5)).
Definition sample_event_bus : IntegrationEventBus unit :=
  IntegrationEventBus_new sample_route (λ s m, (s, Ok (PublishReceipt_new false))).
Definition sample_event_message : result EncodedIntegrationMessage IntegrationEventBusError :=
  encode_integration sample_event_bus None bus_committed 7.
Lemma sample_event_encodes : is_ok sample_event_message = true.
Proof. by vm_compute. Qed.

(** A subscriber of the event: its command is accepted by the adapter. *)
#[local] Instance sample_command_payload : JsonCommandPayload N :=
  {| payload_context := "orders"; payload_local_id := "notify"; payload_schema_version := 1;
     payload_encode_json := λ n, Ok (VNumber (sample_number n));
     payload_decode_json := λ v, match v with VNumber n => Ok n | _ => Err "number expected" end |}.
Definition accepting_adapter : CommandMessageAdapter unit :=
  mkAdapter 1048576 (λ s c, (s, [],
    rmap (CommandBusReceipt_new false)
      (map_err bus_from_processor (build_response c ResponseAccepted)))).
Definition sample_subscriber : IntegrationEventProcessor unit N N string :=
  IntegrationEventProcessor_new (CommandBus_new sample_route accepting_adapter)
    (DeliveryName "shop--orders--mail--v1") Ok.
Definition sample_handling (m : EncodedIntegrationMessage) :=
  handle_integration (WT := number_wire) sample_subscriber (mkRetryDelay 1) None tt
    (mkMessageDelivery (om_address m) (om_message_id m) (om_payload m) CallerMetadata_new
       (om_correlation_id m) None (mkDeliveryInfo 1 0 1 1)).
Lemma sample_event_acknowledged :
  match sample_event_message with
  | Ok m => match sample_handling m with (_, Acknowledge) => true | _ => false end
  | Err _ => false
  end = true.
Proof. by vm_compute. Qed.

Lemma acknowledged_event_is_decided_witness :
  match sample_event_message with
  | Ok m => ∃ operation, integration_operation_id (DeliveryName "shop--orders--mail--v1") (om_message_id m)
                         = Ok operation
  | Err _ => False
  end.
Proof.
  pose proof sample_event_acknowledged as H. destruct sample_event_message as [m|] eqn:E; [|discriminate H].
  destruct (sample_handling m) as [[] disposition] eqn:Eh.
  destruct (acknowledged_event_is_decided (WT := number_wire) sample_subscriber (mkRetryDelay 1) None tt _ tt
    disposition Eh) as (command & operation & publications & r & _ & Ho & _).
  - left. by destruct disposition.
  - exists operation. exact Ho.
Defined.

(** Queries: the sample query and its answer are numbers. *)
#[local] Instance TraceContextWire_eq_dec : EqDecision TraceContextWire.
Proof. solve_decision. Defined.
#[local] Instance TraceContextWire_countable : Countable TraceContextWire.
Proof.
  by refine (inj_countable' (λ t, (wire_trace_parent t, wire_trace_state t)) (λ p, mkTraceContextWire p.1 p.2) _);
    intros [].
Defined.

Definition request_fields `{Countable W} (w : QueryRequestWire W) : list (list byte) :=
  [field (qrw_message_id w); field (qrw_schema_version w); field (qrw_created_at w);
   field (qrw_correlation_id w); field (qrw_causation_id w); field (qrw_metadata w);
   field (qrw_trace_context w); field (qrw_payload w)].
Definition fields_request `{Countable W} (l : list (list byte)) : option (QueryRequestWire W) :=
  match l with
  | [a; b; c; d; e; f; g; h] =>
    a ← unfield a; b ← unfield b; c ← unfield c; d ← unfield d; e ← unfield e; f ← unfield f;
    g ← unfield g; h ← unfield h; Some (mkQueryRequestWire a b c d e f g h)
  | _ => None
  end.
Lemma fields_request_law `{Countable W} (w : QueryRequestWire W) : fields_request (request_fields w) = Some w.
Proof. destruct w. cbn -[field unfield]. by rewrite !unfield_field. Qed.
#[local] Instance sample_request_json `{Countable W} : Json (QueryRequestWire W) :=
  fields_json _ _ fields_request_law.

Definition routed_parts (r : RoutedQuery) := (rq_bounded_context r, rq_query r, rq_schema_version r, rq_payload r).
#[local] Instance RoutedQuery_eq_dec : EqDecision RoutedQuery.
Proof. solve_decision. Defined.
#[local] Instance RoutedQuery_countable : Countable RoutedQuery.
Proof. by refine (inj_countable' routed_parts (λ '(a, b, c, d), mkRoutedQuery a b c d) _); intros []. Defined.

(** A response's outcome: its payload, or the parts of its error *)
Definition query_outcome_parts {W} (o : QueryOutcomeWire W) : W + (nat * string * string) :=
  match o with
  | WireSuccess payload => inl payload
  | WireError e =>
    inr (match qew_classification e with
         | QueryInvalidRequest => 0 | QueryUnauthorized => 1 | QueryForbidden => 2 | QueryNotFound => 3
         | QueryConflict => 4 | QueryRateLimited => 5 | QueryUnavailable => 6 | QueryTimeout => 7
         | QueryInternal => 8
         end%nat, qew_code e, qew_message e)
  end.
Definition parts_query_outcome {W} (p : W + (nat * string * string)) : QueryOutcomeWire W :=
  match p with
  | inl payload => WireSuccess payload
  | inr (n, code, message) =>
    WireError (mkQueryErrorPayloadWire
      (default QueryInternal ([QueryInvalidRequest; QueryUnauthorized; QueryForbidden; QueryNotFound;
         QueryConflict; QueryRateLimited; QueryUnavailable; QueryTimeout; QueryInternal] !! n)) code message)
  end.
Definition answer_fields `{Countable W} (w : QueryResponseWire W) : list (list byte) :=
  [field (qsw_request_id w); field (qsw_schema_version w); field (qsw_responded_at w);
   field (qsw_correlation_id w); field (qsw_trace_context w); field (query_outcome_parts (qsw_outcome w))].
Definition fields_answer `{Countable W} (l : list (list byte)) : option (QueryResponseWire W) :=
  match l with
  | [a; b; c; d; e; f] =>
    a ← unfield a; b ← unfield b; c ← unfield c; d ← unfield d; e ← unfield e; f ← unfield f;
    Some (mkQueryResponseWire a b c d e (parts_query_outcome f))
  | _ => None
  end.
Lemma fields_answer_law `{Countable W} (w : QueryResponseWire W) : fields_answer (answer_fields w) = Some w.
Proof.
  destruct w as [? ? ? ? ? o]. cbn -[field unfield]. rewrite !unfield_field. cbn.
  by destruct o as [|[[] ? ?]].
Qed.
#[local] Instance sample_answer_json `{Countable W} : Json (QueryResponseWire W) :=
  fields_json _ _ fields_answer_law.

#[local] Instance sample_query : QueryDefinition N :=
  {| query_context := "orders"; query_name := "find"; query_schema_version := 1 |}.
#[local] Instance sample_number_value : ValueJson N.
Proof.
  refine {| value_of := λ n, Ok (VNumber (sample_number n));
            of_value := λ v, match v with VNumber n => Ok n | _ => Err "number expected" end |}.
  by intros x v [= <-].
Defined.
Definition doubling : QueryHandler (H := N) N N := λ asked request, (asked + 1, Ok (2 * qr_payload request)).
Definition sample_queries :=
  register_query (WT := number_wire) (RJ := (json_codec (Json := sample_request_json))) ∅ doubling.
Definition sample_asking p :=
  request_query (WT := number_wire) (RJ := (json_codec (Json := sample_answer_json)))
    (QueryBus_new sample_route (in_memory_query p None (Some 5))) (Some 5) "1" 0
    (BusQueryRequest_new 21) QueryOptions_default.
Lemma sample_query_answered :
  match sample_queries with
  | Ok p => match sample_asking p with (_, Ok r) => qs_outcome r = QuerySuccess 42 | _ => False end
  | Err _ => False
  end.
Proof. by vm_compute. Qed.

Lemma query_is_answered_by_its_handler_witness :
  match sample_queries with
  | Ok p => match sample_asking p with
            | (asked, Ok r) => asked = 1 ∨ qs_outcome r = QueryError QueryErrorPayload_internal_error
            | _ => False
            end
  | Err _ => False
  end.
Proof.
  pose proof sample_query_answered as H. destruct sample_queries as [p|] eqn:E; [|destruct H].
  destruct (sample_asking p) as [asked [r|]] eqn:Ea; [|destruct H].
  pose proof (query_is_answered_by_its_handler (WT := number_wire) (RJ := (json_codec (Json := sample_request_json)))
    (WTR := number_wire) (RSJ := (json_codec (Json := sample_answer_json))) doubling ∅ p p sample_route (BusQueryRequest_new 21)
    (Some 5) "1" QueryOptions_default 0 asked r) as Hq.
  destruct (Hq E (rtc_refl _ _) Ea) as (q & _ & _ & _ & _ & [(answer & Ha & _)|[_ Ho]] & _).
  - left. unfold doubling in Ha. injection Ha as Ha _. by symmetry.
  - by right.
Defined.

Lemma messages_are_recorded_once_witness :
  match sample_command_result with
  | Ok c => messaging_invariant (mkMessaging (record_dispatched false c InMemoryMessagingState_default)
              (delete (command_id c) {[command_id c := Some false]}))
  | Err _ => False
  end.
Proof.
  pose proof sample_command_encodes as H. destruct sample_command_result as [c|] eqn:E; [|discriminate H].
  apply messages_are_recorded_once.
  eapply rtc_l; [by apply (step_dispatch _ _ c)|]. apply rtc_once. apply step_dispatched.
  by apply lookup_insert_eq.
Defined.
