(* ===== verification/MaterializeSamples.v ===== *)
(** * MaterializeSamples: a read-model store as the journal of its writes, and
    the theorems of materialization applied over it. *)

From S2P Require Export MaterializeFacts BusSamples.

(** ** A store: the writes so far; the token of a value is the place of its write *)

Section Journal.
Context {T : Type}.
Notation journal := (list (ReadModelKey * T)).

Definition journal_entry (key : ReadModelKey) (write : N * (ReadModelKey * T)) : option (ReadModelEntry T) :=
  if decide (write.2.1 = key) then Some (mkReadModelEntry write.2.2 (mkReadModelRevision (n_to_string write.1))) else None.
Definition journal_contents (s : journal) (key : ReadModelKey) : option (ReadModelEntry T) :=
  last (omap (journal_entry key) (enumerate s)).
Definition refused : ReadModelError := mkReadModelError RMConflict "conflict".
Definition journal_write (s : journal) (key : ReadModelKey) (x : T)
  : journal * result ReadModelRevision ReadModelError :=
  (s ++ [(key, x)], Ok (mkReadModelRevision (n_to_string (len s)))).

#[global] Instance journal_store : ReadModelStore journal T :=
  {| rms_read := λ s key, Ok (journal_contents s key);
     rms_create := λ s key x,
       match journal_contents s key with None => journal_write s key x | Some _ => (s, Err refused) end;
     rms_update := λ s key revision x,
       match journal_contents s key with
       | Some e => if String.eqb (revision_token (entry_revision e)) (revision_token revision)
                   then journal_write s key x else (s, Err refused)
       | None => (s, Err refused)
       end |}.

Lemma journal_contents_Some s key e :
  journal_contents s key = Some e →
  ∃ i x, s !! i = Some (key, x) ∧ e = mkReadModelEntry x (mkReadModelRevision (n_to_string (N.of_nat i))).
Proof.
  unfold journal_contents. intros H%last_Some_elem_of. apply list_elem_of_omap in H as ([j [k x]] & Hj & He).
  unfold journal_entry in He. cbn in He. case_decide as Hk; [|done]. subst k. injection He as <-.
  apply list_elem_of_lookup in Hj as (i & Hj). rewrite enumerate_lookup in Hj.
  apply fmap_Some in Hj as (y & Hy & [= -> <-]). by exists i, x.
Qed.

Lemma journal_write_written s key x (allowed : Prop) :
  allowed → written (journal_contents s) (journal_contents (journal_write s key x).1) key x allowed
    (journal_write s key x).2.
Proof.
  intros Ha. assert (∀ k, journal_contents (s ++ [(key, x)]) k
    = if decide (key = k) then Some (mkReadModelEntry x (mkReadModelRevision (n_to_string (len s))))
      else journal_contents s k) as H.
  { intros k. unfold journal_contents, enumerate. rewrite enumerate_from_app, N.add_0_l, omap_app. cbn.
    unfold journal_entry at 2. cbn. case_decide; [by rewrite last_snoc|by rewrite app_nil_r]. }
  split; cbn [journal_write fst snd].
  - intros k Hk. rewrite H. by rewrite decide_False.
  - right. split; [done|]. eexists. rewrite H. by rewrite decide_True.
Qed.

Lemma journal_refused s key (x : T) (allowed : Prop) :
  written (journal_contents s) (journal_contents s) key x allowed (Err (A := ReadModelRevision) refused).
Proof. split; [done|by left]. Qed.

#[global] Instance journal_laws : ReadModelStoreLaws journal T.
Proof.
  refine {| contents := journal_contents; later := prefix |}.
  - by intros s key o [= <-].
  - intros s s' key e e' [rest ->] (i & x & Hi & ->)%journal_contents_Some (j & y & Hj & ->)%journal_contents_Some E.
    cbn in E. injection E as E%n_to_string_inj%Nat2N.inj. subst j.
    rewrite (lookup_app_l_Some _ _ _ _ Hi) in Hj. by injection Hj as ->.
  - intros s key x s' r H. cbn in H. destruct (journal_contents s key) eqn:Ec; injection H as <- <-.
    + split; [done|apply journal_refused].
    + split; [by eexists|by apply (journal_write_written s key x)].
  - intros s key revision x s' r H. cbn in H. destruct (journal_contents s key) as [e|] eqn:Ec.
    + destruct (String.eqb _ _) eqn:Er; injection H as <- <-.
      * apply String.eqb_eq in Er. split; [by eexists|]. apply (journal_write_written s key x).
        exists e. split; [done|]. destruct (entry_revision e), revision; cbn in Er. by subst.
      * split; [done|apply journal_refused].
    + injection H as <- <-. split; [done|apply journal_refused].
Qed.

End Journal.

(** ** A read model that counts the events of a stream *)

#[local] Instance sample_tuple_text : TupleText.
Proof.
  refine {| tuple_to_string := λ l, Ok (string_of_list_byte (positive_bytes (encode l))) |}.
  intros l l' s [= <-] [= E].
  apply (f_equal as_bytes) in E. rewrite !string_of_bytes in E.
  apply (f_equal bytes_positive) in E. rewrite !bytes_positive_bytes in E. by apply encode_inj.
Defined.

Definition counted_event (version : N) : RecordedEvent :=
  {| re_actor := None; re_stream_id := sample_stream; re_stream_version := mkStreamVersion version;
     re_event_id := Ident "e"; re_commit_id := Ident "c"; re_operation_id := sample_operation;
     re_operation_fingerprint := sample_fingerprint; re_commit_event_ordinal := 0;
     re_commit_event_count := 1; re_correlation_id := None; re_causation_id := None;
     re_event_type := "placed"; re_schema_version := 1; re_payload := [] |}.
Definition counting_reducer : DomainReducer N :=
  mkDomainReducer (λ _, map_err (λ e, RmpInvalidEvent (rme_message e)) (ReadModelKey_new "total"))
    (λ total _, Ok (total + 1)).
Definition counting_resources : Resources N := mkResources true {[("order", "placed") := counting_reducer]}.
Definition counting_session : Session N := mkSession sample_route (Some counting_resources) 8.
Definition counting_history (stream : StreamId) : list RecordedEvent :=
  if decide (stream = sample_stream) then [counted_event 1; counted_event 2] else [].
Definition alone : Surroundings (list (ReadModelKey * ReadModelState N)) :=
  mkSurroundings (λ _ s, s) (λ _ s, s) (λ _ stream, Ok (counting_history stream)).

Lemma counting_history_ok : committed_history counting_history.
Proof.
  intros stream i record. unfold counting_history. case_decide; [subst|done].
  destruct i as [|[|i]]; by intros [= <-].
Qed.
Lemma alone_surrounded contiguous :
  well_surrounded 0 counting_session counting_resources counting_history contiguous alone.
Proof.
  split; [by intros|]. intros i stream records [= <-]. done.
Qed.

(** The second event is delivered first: it fills the gap, and the first one,
    delivered later, changes nothing. *)
Definition after_second := (session_domain 0 counting_session alone (counted_event 2) []).1.
Definition out_of_order := session_domain 0 counting_session alone (counted_event 1) after_second.
Lemma first_event_committed :
  counting_history sample_stream !! N.to_nat (version_value (re_stream_version (counted_event 1)) - 1)
  = Some (counted_event 1).
Proof. by vm_compute. Qed.
Lemma out_of_order_counts :
  match out_of_order with
  | (s, Ok _) => reader_read counting_session s (mkReadModelKey "total") = Ok (Some 2)
  | _ => False
  end.
Proof. by vm_compute. Qed.

Lemma domain_events_are_applied_once_witness :
  ∃ source entry,
    domain_source sample_route sample_stream = Ok source
    ∧ contents out_of_order.1 (mkReadModelKey "total") = Some entry
    ∧ 1 <= source_position (entry_value entry) source.
Proof.
  pose proof out_of_order_counts as H. unfold out_of_order in *.
  destruct (session_domain _ _ _ _ after_second) as [s' [[]|]] eqn:E; [|destruct H]. clear H.
  destruct (domain_events_are_applied_once 0 counting_session counting_resources counting_history (λ _, False)
    alone (counted_event 1) after_second s' (Ok tt) eq_refl counting_history_ok (alone_surrounded _)
    first_event_committed E) as (_ & Hok).
  destruct (Hok eq_refl) as (key & source & entry & Hrel & Hs & Hc & Hp).
  exists source, entry. split_and!; [done| |done].
  unfold relevant in Hrel. cbn in Hrel. apply bool_decide_eq_true in Hrel. by subst key.
Defined.

Lemma materialization_never_goes_back_witness :
  keeps after_second out_of_order.1.
Proof.
  unfold out_of_order. destruct (session_domain _ _ _ _ after_second) as [s' r] eqn:E.
  exact (materialization_never_goes_back 0 counting_session alone (counted_event 1) after_second s' r
    ltac:(intros; split; reflexivity) E).
Defined.

(** ** The sum of the events of an integration source *)

#[local] Existing Instances sample_contract number_wire sample_event_json.
Definition summing_handler : IntegrationHandler N N :=
  mkIntegrationHandler counting_session (Address "shop.integration.orders.placed")
    (default "" (match tuple_to_string ["integration-broker"; "shop"] with Ok s => Some s | Err _ => None end))
    order_broker (λ _, "total") (λ total e, Ok (total + e)) (mkRetryDelay 1) (mkQuarantineReason "invalid")
    (mkQuarantineReason "blocked").
Definition summing_delivery (m : EncodedIntegrationMessage) : MessageDelivery IntegrationEventAddress :=
  mkMessageDelivery (Address "shop.integration.orders.placed") (om_message_id m) (om_payload m)
    CallerMetadata_new (om_correlation_id m) None (mkDeliveryInfo 1 0 4 1).
Definition summing (m : EncodedIntegrationMessage) :=
  integration_handle (WT := number_wire) 0 rme_message alone summing_handler (summing_delivery m) [].
Lemma summing_acknowledges :
  match sample_event_message with
  | Ok m => match (summing m).2 with Acknowledge => true | _ => false end
  | Err _ => false
  end = true.
Proof. by vm_compute. Qed.

Lemma broker_source_apart : ¬ is_domain_source sample_route (ih_source summing_handler).
Proof.
  intros [stream H]. assert (tuple_to_string ["integration-broker"; "shop"] = Ok (ih_source summing_handler)) as H'
    by reflexivity.
  pose proof (tuple_to_string_inj _ _ _ H H') as E. discriminate E.
Qed.

Lemma integration_events_are_applied_once_witness :
  match sample_event_message with
  | Ok m => ∃ key entry, contents (summing m).1 key = Some entry
  | Err _ => False
  end.
Proof.
  pose proof summing_acknowledges as H. destruct sample_event_message as [m|]; [|discriminate H].
  destruct (summing m) as [s' disposition] eqn:E.
  destruct (integration_events_are_applied_once (WT := number_wire) 0 counting_session counting_resources
    counting_history (λ _, False) rme_message alone summing_handler (summing_delivery m) [] s' disposition
    eq_refl (alone_surrounded _) broker_source_apart (False_ind _) E) as (_ & Hok).
  destruct disposition; try discriminate H.
  destruct (Hok eq_refl) as (event & key & version & entry & _ & Hc & _). by exists key, entry.
Defined.
