(* ===== verification/NatsTopology.v ===== *)
(** * NatsTopology: the streams an application's messages are stored in, the
    policy they are provisioned with and the durable consumers that read them
    (crates/rostfrei-nats/src/error.rs, messaging_config.rs up to the connection
    settings, and provisioning.rs).

    What the server answers to a request is an argument. *)

From Stdlib Require Import ZifyBool.
From S2P Require Export NatsAuthority Delivery.

Definition MAX_STREAM_NAME_BYTES : N := 255.
Definition MAX_SUBJECT_FILTER_BYTES : N := 512.
Definition MAX_QUEUE_GROUP_BYTES : N := 255.
Definition DEFAULT_STREAM_MAX_BYTES : Z := 10 * 1024 * 1024 * 1024.
Definition DEFAULT_STREAM_MAX_AGE : N := 720 * nanos_per_hour.
Definition DEFAULT_STREAM_MAX_MESSAGE_BYTES : Z := 2 * 1024 * 1024.
Definition DEFAULT_DUPLICATE_WINDOW : N := 2 * 60 * 1000000000.
Definition SOURCE_STREAM_MESSAGE_OVERHEAD_BYTES : N := 64 * 1024.

(** ** Errors (error.rs) *)

(** [i64] fields *)
Record ServerVersion := ServerVersion_new {
  version_major : Z;
  version_minor : Z;
  version_patch : Z;
}.

Inductive NatsError :=
| NatsConfiguration
| NatsConnection
| NatsMinimumServerVersion (required : ServerVersion)
| NatsSerialization
| NatsPayloadTooLarge (actual maximum : N)
| NatsMessageTooLarge
| NatsPublishTimeout
| NatsPublishExpectation
| NatsIdentityConflict
| NatsStreamNotFound
| NatsConsumerNotFound
| NatsPublish
| NatsConsumer
| NatsAcknowledgement
| NatsInvalidMessage
| NatsQueryTimeout
| NatsQuery
| NatsFlush
| NatsDrain
| NatsDrainTimeout
| NatsProvisioning.

Inductive NatsErrorKind :=
| NKConfiguration | NKConnection | NKMinimumServerVersion | NKSerialization | NKPayloadTooLarge
| NKPublishTimeout | NKPublishExpectation | NKIdentityConflict | NKStreamNotFound | NKConsumerNotFound
| NKPublish | NKConsumer | NKAcknowledgement | NKInvalidMessage | NKQueryTimeout | NKQuery
| NKFlush | NKDrain | NKProvisioning.

Definition nats_error_kind (e : NatsError) : NatsErrorKind :=
  match e with
  | NatsConfiguration => NKConfiguration
  | NatsConnection => NKConnection
  | NatsMinimumServerVersion _ => NKMinimumServerVersion
  | NatsSerialization => NKSerialization
  | NatsPayloadTooLarge _ _ | NatsMessageTooLarge => NKPayloadTooLarge
  | NatsPublishTimeout => NKPublishTimeout
  | NatsPublishExpectation => NKPublishExpectation
  | NatsIdentityConflict => NKIdentityConflict
  | NatsStreamNotFound => NKStreamNotFound
  | NatsConsumerNotFound => NKConsumerNotFound
  | NatsPublish => NKPublish
  | NatsConsumer => NKConsumer
  | NatsAcknowledgement => NKAcknowledgement
  | NatsInvalidMessage => NKInvalidMessage
  | NatsQueryTimeout => NKQueryTimeout
  | NatsQuery => NKQuery
  | NatsFlush => NKFlush
  | NatsDrain | NatsDrainTimeout => NKDrain
  | NatsProvisioning => NKProvisioning
  end.

(** ** Names *)

Record StreamName := mkStreamName { stream_name_str : string }.
#[global] Instance StreamName_eq_dec : EqDecision StreamName.
Proof. solve_decision. Defined.

Definition StreamName_new (value : string) : result StreamName NatsError :=
  fail! String.eqb value "" || (MAX_STREAM_NAME_BYTES <? str_len value) || negb (is_ascii value)
        || negb (bytes_all (λ byte, negb (is_ascii_whitespace byte || is_ascii_control byte
             || ((byte =? 46) || (byte =? 42) || (byte =? 62)))) value)
    with NatsConfiguration;
  Ok (mkStreamName value).

Record SubjectFilter := mkSubjectFilter { filter_str : string }.
#[global] Instance SubjectFilter_eq_dec : EqDecision SubjectFilter.
Proof. solve_decision. Defined.

(** A token that misplaces a wildcard *)
Definition misplaced_wildcard (final_index : N) (indexed : N * string) : bool :=
  let '(index, token) := indexed in
  String.eqb token ">" && negb (index =? final_index)
  || contains ">" token && negb (String.eqb token ">")
  || contains "*" token && negb (String.eqb token "*").

Definition SubjectFilter_new (value : string) : result SubjectFilter NatsError :=
  fail! String.eqb value "" || (MAX_SUBJECT_FILTER_BYTES <? str_len value) || negb (is_ascii value)
        || negb (bytes_all (λ byte, negb (is_ascii_whitespace byte || is_ascii_control byte)) value)
    with NatsConfiguration;
  let tokens := split "." value in
  let? final_index := ok_or (checked_sub (len tokens) 1) NatsConfiguration in
  fail! existsb (λ token, String.eqb token "") tokens
        || existsb (misplaced_wildcard final_index) (enumerate tokens)
    with NatsConfiguration;
  Ok (mkSubjectFilter value).
Definition has_wildcards (f : SubjectFilter) : bool :=
  contains "*" (filter_str f) || contains ">" (filter_str f).

Record QueueGroup := mkQueueGroup { queue_group_str : string }.
Definition QueueGroup_new (value : string) : result QueueGroup NatsError :=
  fail! String.eqb value "" || (MAX_QUEUE_GROUP_BYTES <? str_len value) || negb (is_ascii value)
        || negb (bytes_all (λ byte, is_alphanumeric byte || (byte =? 45) || (byte =? 95)) value)
    with NatsConfiguration;
  Ok (mkQueueGroup value).

Definition ServerVersion_validate (v : ServerVersion) : result unit NatsError :=
  fail! (version_major v <? 1)%Z || (version_minor v <? 0)%Z || (version_patch v <? 0)%Z
    with NatsConfiguration;
  Ok tt.

Definition traffic_subject_prefix (application : string) (t : TrafficScope) : string :=
  match subject_segment t with
  | None => application
  | Some scope => application +:+ "." +:+ scope
  end.
Definition traffic_stream_prefix (application : string) (t : TrafficScope) : string :=
  let application := stream_token application in
  match t with Normal => application | Test => application +:+ "__TEST" end.

(** ** The topology of an application *)

Record MessagingTopology := mkTopology {
  top_application : ApplicationName;
  top_traffic_scope : TrafficScope;
  top_command : StreamName;
  top_command_response : StreamName;
  top_integration_event : StreamName;
  top_quarantine : StreamName;
}.

Definition new_with_command_response_stream_in_scope (application : ApplicationName) (t : TrafficScope)
    (command command_response integration_event quarantine : StreamName)
  : result MessagingTopology NatsError :=
  fail! bool_decide (command = command_response) || bool_decide (command = integration_event)
        || bool_decide (command = quarantine) || bool_decide (command_response = integration_event)
        || bool_decide (command_response = quarantine) || bool_decide (integration_event = quarantine)
    with NatsConfiguration;
  Ok (mkTopology application t command command_response integration_event quarantine).

Definition topology_new_in_scope (application : ApplicationName) (t : TrafficScope)
    (command integration_event quarantine : StreamName) : result MessagingTopology NatsError :=
  let? command_response := StreamName_new
    (traffic_stream_prefix (application_str application) t +:+ "_COMMAND_RESPONSES") in
  new_with_command_response_stream_in_scope application t command command_response integration_event
    quarantine.
Definition topology_new (application : ApplicationName) (command integration_event quarantine : StreamName)
  : result MessagingTopology NatsError :=
  topology_new_in_scope application Normal command integration_event quarantine.

Definition for_application_in_scope (application : ApplicationName) (t : TrafficScope)
  : result MessagingTopology NatsError :=
  let prefix := traffic_stream_prefix (application_str application) t in
  let? command := StreamName_new (prefix +:+ "_COMMANDS") in
  let? command_response := StreamName_new (prefix +:+ "_COMMAND_RESPONSES") in
  let? integration_event := StreamName_new (prefix +:+ "_INTEGRATION_EVENTS") in
  let? quarantine := StreamName_new (prefix +:+ "_QUARANTINE") in
  new_with_command_response_stream_in_scope application t command command_response integration_event
    quarantine.
Definition for_application (application : ApplicationName) : result MessagingTopology NatsError :=
  for_application_in_scope application Normal.

Definition stream_for (t : MessagingTopology) (kind : AddressKind) : option StreamName :=
  match kind with
  | Command => Some (top_command t)
  | CommandResponse => Some (top_command_response t)
  | IntegrationEvent => Some (top_integration_event t)
  | Query => None
  end.

(** ** Stream provisioning (provisioning.rs) *)

Inductive StreamRetention := RetainLimits | RetainWorkQueue | RetainInterest.
Inductive StreamStorage := StoreFile | StoreMemory.

Record StreamProvisioningConfig := mkProvisioning {
  spc_application : ApplicationName;
  spc_traffic_scope : TrafficScope;
  spc_name : StreamName;
  spc_subjects : list SubjectFilter;
  spc_description : option string;
  spc_retention : StreamRetention;
  spc_storage : StreamStorage;
  spc_max_bytes : Z;
  spc_max_age : N;
  spc_maximum_message_bytes : Z;
  spc_duplicate_window : N;
  spc_replicas : N;
}.

Definition subject_in_scope (application : ApplicationName) (t : TrafficScope) (subject : SubjectFilter)
  : bool :=
  let (first, tokens) := next (split "." (filter_str subject)) in
  if negb (bool_decide (first = Some (application_str application))) then false
  else
    let (second, tokens) := next tokens in
    match t with
    | Normal =>
      is_some_and (λ token, negb (String.eqb token "test" || String.eqb token "*" || String.eqb token ">"))
        second
    | Test => bool_decide (second = Some "test") && is_some (next tokens).1
    end.
Definition subjects_belong_to_scope (application : ApplicationName) (t : TrafficScope)
    (subjects : list SubjectFilter) : bool :=
  negb (len subjects =? 0) && forallb (subject_in_scope application t) subjects.

Definition provisioning_validate (c : StreamProvisioningConfig) : result unit NatsError :=
  let description_is_invalid := is_some_and
    (λ description, (1024 <? str_len description) || any_control description) (spc_description c) in
  fail! (len (spc_subjects c) =? 0)
        || negb (subjects_belong_to_scope (spc_application c) (spc_traffic_scope c) (spc_subjects c))
        || description_is_invalid
        || (spc_maximum_message_bytes c <=? 0)%Z
        || (spc_max_bytes c <? spc_maximum_message_bytes c)%Z
        || (spc_max_age c =? 0) || (spc_duplicate_window c =? 0)
        || (spc_max_age c <? spc_duplicate_window c)
        || negb ((1 <=? spc_replicas c) && (spc_replicas c <=? 5))
    with NatsConfiguration;
  Ok tt.

Definition provisioning_new_in_scope (application : ApplicationName) (t : TrafficScope)
    (name : StreamName) (subjects : list SubjectFilter) (retention : StreamRetention)
  : result StreamProvisioningConfig NatsError :=
  let config := mkProvisioning application t name subjects None retention StoreFile
    DEFAULT_STREAM_MAX_BYTES DEFAULT_STREAM_MAX_AGE DEFAULT_STREAM_MAX_MESSAGE_BYTES
    DEFAULT_DUPLICATE_WINDOW 1 in
  let? _ := provisioning_validate config in
  Ok config.
Definition provisioning_new (application : ApplicationName) (name : StreamName)
    (subjects : list SubjectFilter) (retention : StreamRetention)
  : result StreamProvisioningConfig NatsError :=
  provisioning_new_in_scope application Normal name subjects retention.

(** The [with_*] methods; none of them validates. *)
Definition spc_with_description (description : string) (c : StreamProvisioningConfig) :=
  mkProvisioning (spc_application c) (spc_traffic_scope c) (spc_name c) (spc_subjects c) (Some description)
    (spc_retention c) (spc_storage c) (spc_max_bytes c) (spc_max_age c) (spc_maximum_message_bytes c)
    (spc_duplicate_window c) (spc_replicas c).
Definition spc_with_storage (storage : StreamStorage) (c : StreamProvisioningConfig) :=
  mkProvisioning (spc_application c) (spc_traffic_scope c) (spc_name c) (spc_subjects c) (spc_description c)
    (spc_retention c) storage (spc_max_bytes c) (spc_max_age c) (spc_maximum_message_bytes c)
    (spc_duplicate_window c) (spc_replicas c).
Definition spc_with_max_bytes (max_bytes : Z) (c : StreamProvisioningConfig) :=
  mkProvisioning (spc_application c) (spc_traffic_scope c) (spc_name c) (spc_subjects c) (spc_description c)
    (spc_retention c) (spc_storage c) max_bytes (spc_max_age c) (spc_maximum_message_bytes c)
    (spc_duplicate_window c) (spc_replicas c).
Definition spc_with_max_age (max_age : N) (c : StreamProvisioningConfig) :=
  mkProvisioning (spc_application c) (spc_traffic_scope c) (spc_name c) (spc_subjects c) (spc_description c)
    (spc_retention c) (spc_storage c) (spc_max_bytes c) max_age (spc_maximum_message_bytes c)
    (spc_duplicate_window c) (spc_replicas c).
Definition spc_with_maximum_message_bytes (bytes : Z) (c : StreamProvisioningConfig) :=
  mkProvisioning (spc_application c) (spc_traffic_scope c) (spc_name c) (spc_subjects c) (spc_description c)
    (spc_retention c) (spc_storage c) (spc_max_bytes c) (spc_max_age c) bytes
    (spc_duplicate_window c) (spc_replicas c).
Definition spc_with_duplicate_window (window : N) (c : StreamProvisioningConfig) :=
  mkProvisioning (spc_application c) (spc_traffic_scope c) (spc_name c) (spc_subjects c) (spc_description c)
    (spc_retention c) (spc_storage c) (spc_max_bytes c) (spc_max_age c) (spc_maximum_message_bytes c)
    window (spc_replicas c).
Definition spc_with_replicas (replicas : N) (c : StreamProvisioningConfig) :=
  mkProvisioning (spc_application c) (spc_traffic_scope c) (spc_name c) (spc_subjects c) (spc_description c)
    (spc_retention c) (spc_storage c) (spc_max_bytes c) (spc_max_age c) (spc_maximum_message_bytes c)
    (spc_duplicate_window c) replicas.

(** The configuration sent to the server; what it leaves out is default. *)
Definition as_nats_config (c : StreamProvisioningConfig) : result StreamConfig NatsError :=
  let? _ := provisioning_validate c in
  Ok {| sc_name := stream_name_str (spc_name c);
        sc_subjects := filter_str <$> spc_subjects c;
        sc_retention := match spc_retention c with
                        | RetainLimits => Limits
                        | RetainWorkQueue => WorkQueue
                        | RetainInterest => Interest
                        end;
        sc_storage := match spc_storage c with StoreFile => File | StoreMemory => MemoryStorage end;
        sc_discard := DiscardNew; sc_max_age := spc_max_age c;
        sc_max_messages := -1; sc_max_messages_per_subject := -1;
        sc_max_bytes := spc_max_bytes c; sc_max_message_size := spc_maximum_message_bytes c;
        sc_max_consumers := -1; sc_no_ack := false; sc_duplicate_window := spc_duplicate_window c;
        sc_num_replicas := spc_replicas c; sc_deny_delete := false; sc_deny_purge := false;
        sc_allow_rollup := false; sc_allow_atomic_publish := false;
        sc_discard_new_per_subject := false; sc_description := spc_description c;
        sc_metadata := ∅ |}.

(** ** The streams of an application *)

Record ApplicationMessagingConfig := mkMessagingConfig {
  amc_topology : MessagingTopology;
  amc_commands : StreamProvisioningConfig;
  amc_command_responses : StreamProvisioningConfig;
  amc_integration_events : StreamProvisioningConfig;
  amc_quarantine : StreamProvisioningConfig;
}.

Definition application_subject_filter (application : ApplicationName) (t : TrafficScope) (kind : string)
  : result SubjectFilter NatsError :=
  SubjectFilter_new (traffic_subject_prefix (application_str application) t +:+ "." +:+ kind +:+ ".>").

(** One stream of an application *)
Definition application_stream (application : ApplicationName) (t : TrafficScope) (name : StreamName)
    (kind : string) (retention : StreamRetention) : result StreamProvisioningConfig NatsError :=
  let? subject := application_subject_filter application t kind in
  provisioning_new_in_scope application t name [subject] retention.

Definition messaging_new_in_scope (application : ApplicationName) (t : TrafficScope)
  : result ApplicationMessagingConfig NatsError :=
  let? topology := for_application_in_scope application t in
  let? source_bytes := ok_or (Z.of_N <$>
      try_from i32_max (MAX_MESSAGE_PAYLOAD_BYTES + SOURCE_STREAM_MESSAGE_OVERHEAD_BYTES))
    NatsConfiguration in
  let described suffix := spc_with_description (application_str application +:+ suffix) in
  let source := spc_with_maximum_message_bytes source_bytes in
  let? commands :=
    application_stream application t (top_command topology) "command" RetainWorkQueue in
  let? command_responses :=
    application_stream application t (top_command_response topology) "command-response" RetainLimits in
  let? integration_events :=
    application_stream application t (top_integration_event topology) "integration" RetainLimits in
  let? quarantine :=
    application_stream application t (top_quarantine topology) "quarantine" RetainLimits in
  Ok (mkMessagingConfig topology
        (source (described " commands" commands))
        (source (described " command responses" command_responses))
        (source (described " integration events" integration_events))
        (described " quarantined messages" quarantine)).
Definition messaging_new (application : ApplicationName) : result ApplicationMessagingConfig NatsError :=
  messaging_new_in_scope application Normal.

Definition messaging_streams (c : ApplicationMessagingConfig) : list StreamProvisioningConfig :=
  [amc_commands c; amc_command_responses c; amc_integration_events c; amc_quarantine c].

(** [with_replicas] and [with_max_bytes] change every stream and validate it. *)
Definition messaging_with (f : StreamProvisioningConfig → StreamProvisioningConfig)
    (c : ApplicationMessagingConfig) : result ApplicationMessagingConfig NatsError :=
  let c := mkMessagingConfig (amc_topology c) (f (amc_commands c)) (f (amc_command_responses c))
             (f (amc_integration_events c)) (f (amc_quarantine c)) in
  let? _ := try_map provisioning_validate (messaging_streams c) in
  Ok c.
Definition messaging_with_replicas (replicas : N) := messaging_with (spc_with_replicas replicas).
Definition messaging_with_max_bytes (max_bytes : Z) := messaging_with (spc_with_max_bytes max_bytes).

(** [existing] is what [get_stream] answers, [updated] what the server makes of
    the configuration it is sent. *)
Definition provision_stream (existing : GetStream) (updated : StreamConfig → option StreamInfo)
    (c : StreamProvisioningConfig) : result StreamInfo NatsError :=
  let? _ :=
    match existing with
    | StreamFound info =>
      let? subjects := try_map SubjectFilter_new (sc_subjects (vc_config (si_config info))) in
      fail! negb (subjects_belong_to_scope (spc_application c) (spc_traffic_scope c) subjects)
        with NatsConfiguration;
      Ok tt
    | StreamNotFound _ => Ok tt
    | StreamFailed _ => Err NatsProvisioning
    end in
  let? expected := as_nats_config c in
  let? provisioned := ok_or (updated expected) NatsProvisioning in
  fail! negb (len (stream_config_mismatches expected (si_config provisioned)) =? 0) with NatsConfiguration;
  Ok provisioned.

(** The answers are functions of the stream's name, which differ. *)
Definition provision_application_messaging (existing : StreamName → GetStream)
    (updated : StreamConfig → option StreamInfo) (c : ApplicationMessagingConfig)
  : result unit NatsError :=
  rmap (λ _, tt)
    (try_map (λ stream, provision_stream (existing (spc_name stream)) updated stream)
       (messaging_streams c)).

Definition verify_application_stream (existing : GetStream) (c : StreamProvisioningConfig)
  : result unit NatsError :=
  let? info := match existing with StreamFound info => Ok info | _ => Err NatsStreamNotFound end in
  let? expected := as_nats_config c in
  fail! negb (len (stream_config_mismatches expected (si_config info)) =? 0) with NatsConfiguration;
  Ok tt.
Definition verify_application_messaging (existing : StreamName → GetStream)
    (c : ApplicationMessagingConfig) : result unit NatsError :=
  rmap (λ _, tt)
    (try_map (λ stream, verify_application_stream (existing (spc_name stream)) stream)
       (messaging_streams c)).

(** ** Durable consumers *)

Inductive DeliverPolicy :=
| DeliverAll | DeliverLast | DeliverNew | DeliverByStartSequence (start_sequence : N)
| DeliverByStartTime | DeliverLastPerSubject.
Inductive AckPolicy := AckExplicit | AckNone | AckAll.
#[global] Instance DeliverPolicy_eq_dec : EqDecision DeliverPolicy.
Proof. solve_decision. Defined.
#[global] Instance AckPolicy_eq_dec : EqDecision AckPolicy.
Proof. solve_decision. Defined.

(** [consumer::pull::Config]: the fields the code sets; the others are default. *)
Record PullConfig := mkPullConfig {
  pc_durable_name : option string;
  pc_name : option string;
  pc_description : option string;
  pc_deliver_policy : DeliverPolicy;
  pc_ack_policy : AckPolicy;
  pc_ack_wait : N;
  pc_max_deliver : Z;
  pc_filter_subject : string;
  pc_filter_subjects : list string;
  pc_max_ack_pending : Z;
  pc_max_batch : Z;
  pc_max_waiting : Z;
}.

Section Consumers.
Context {A : Type} `{PA : PublishableAddress A}.

Definition durable_consumer_config (c : ConsumerConfig A) : result PullConfig NatsError :=
  let? max_ack_pending := ok_or (try_from i64_max (cc_shared_pending_limit c)) NatsConfiguration in
  let? max_batch := ok_or (try_from i64_max (N.min (cc_shared_pending_limit c) MAX_CONCURRENCY))
    NatsConfiguration in
  Ok {| pc_durable_name := Some (delivery_str (cc_durable_name c));
        pc_name := Some (delivery_str (cc_durable_name c));
        pc_description := Some (delivery_str (cc_name c));
        pc_deliver_policy := DeliverAll; pc_ack_policy := AckExplicit;
        pc_ack_wait := cc_ack_wait c; pc_max_deliver := -1;
        pc_filter_subject := pa_as_str (cc_address c); pc_filter_subjects := [];
        pc_max_ack_pending := Z.of_N max_ack_pending; pc_max_batch := Z.of_N max_batch;
        pc_max_waiting := 0 |}.

(** Whether an address belongs to the topology *)
Definition in_topology (t : MessagingTopology) (address : A) : bool :=
  String.eqb (pa_application address) (application_str (top_application t))
  && bool_decide (pa_traffic_scope address = top_traffic_scope t).

(** The stream a consumer is provisioned on, with its configuration *)
Definition provision_durable_consumer (t : MessagingTopology) (c : ConsumerConfig A)
    (created : StreamName → PullConfig → option PullConfig) : result PullConfig NatsError :=
  fail! negb (in_topology t (cc_address c)) with NatsConfiguration;
  let? stream := ok_or (stream_for t (pa_kind (cc_address c))) NatsConfiguration in
  let? config := durable_consumer_config c in
  ok_or (created stream config) NatsProvisioning.
End Consumers.
