(* ===== verification/NatsPublish.v ===== *)
(** * NatsPublish: publishing messages to JetStream with a confirmed acknowledgement
    (crates/rostfrei-nats/src/publish.rs, except for command responses).

    What the server answers to a request, and whether a deadline expires, are
    arguments. *)

From S2P Require Export NatsTopology NatsWire CommandMessage.

Definition JSON_CONTENT_TYPE : string := "application/json".
Definition CONTENT_TYPE_HEADER : string := "Content-Type".
Definition TRACE_PARENT_HEADER : string := "traceparent".
Definition TRACE_STATE_HEADER : string := "tracestate".
Definition DEFAULT_PUBLISH_TIMEOUT : N := 5 * 1000000000.
Definition DIAGNOSTIC_TRANSITION_HEADER : string := "rostfrei-Control-Response-Transition".

(** ** Third-party interfaces *)

(** Iterating a [HeaderMap]: its names, each once, with their values *)
Class HeaderMapIter `{HM : HeaderMapApi} := {
  headers_iter : HeaderMap → list (string * list string);
  headers_iter_names h : NoDup (headers_iter h).*1;
  headers_iter_values h name values :
    (name, values) ∈ headers_iter h ↔ headers_get_all h name = values ∧ values ≠ [];
}.

(** The headers of a [PublishMessage] built with a message id, an expected
    stream and an expected last sequence of its subject: these go into headers
    of the server's name space, every other header is kept. *)
Class PublishMessageApi `{HM : HeaderMapApi} := {
  publish_headers : string → string → option N → HeaderMap → HeaderMap;
  publish_message_id id stream last h : headers_get_all (publish_headers id stream last h) "Nats-Msg-Id" = [id];
  publish_expected_last id stream last h :
    headers_get_all (publish_headers id stream (Some last) h) "Nats-Expected-Last-Subject-Sequence" = [n_to_string last];
  publish_other id stream last h name : starts_with "nats-" (to_ascii_lowercase name) = false →
    headers_get_all (publish_headers id stream last h) name = headers_get_all h name;
}.

(** [jetstream::ErrorCode] *)
Class PublishErrorCodes := {
  CODE_STREAM_MISMATCH : N;
  CODE_STREAM_NOT_MATCH : N;
  CODE_STREAM_SEQUENCE_NOT_MATCH : N;
  CODE_STREAM_MESSAGE_EXCEEDS_MAXIMUM : N;
}.

Inductive PublishErrorKind :=
| PubTimedOut | PubWrongLastMessageId | PubWrongLastSequence | PubStreamNotFound | PubMaxPayloadExceeded
| PubBrokenPipe | PubMaxAckPending | PubOther.

(** A failed publication: its kind, and the API error it stems from *)
Record PublishFailure := mkPublishFailure {
  pf_kind : PublishErrorKind;
  pf_api_code : option N;
}.

(** [PublishAck] *)
Record BrokerAck := mkBrokerAck {
  ba_stream : string;
  ba_sequence : N;
  ba_duplicate : bool;
}.

Record NatsPublishAck := mkNatsPublishAck {
  npa_stream : StreamName;
  npa_sequence : N;
  npa_duplicate : bool;
}.

(** [messaging_core::PublishErrorKind] *)
Inductive CorePublishErrorKind :=
| PublishTimedOut | PublishRejected | PublishUnavailable | PublishInvalidConfiguration.
Definition core_publish_display (kind : CorePublishErrorKind) : string :=
  match kind with
  | PublishUnavailable => "publisher is unavailable"
  | PublishRejected => "publication was rejected"
  | PublishTimedOut => "publication confirmation timed out"
  | PublishInvalidConfiguration => "publisher configuration is invalid"
  end.

Definition core_publish_error (error : NatsError) : CorePublishErrorKind :=
  match error with
  | NatsConfiguration => PublishInvalidConfiguration
  | NatsPublishTimeout => PublishTimedOut
  | NatsPayloadTooLarge _ _ | NatsMessageTooLarge | NatsPublishExpectation | NatsIdentityConflict
  | NatsInvalidMessage => PublishRejected
  | _ => PublishUnavailable
  end.

Definition is_publish_expectation_error `{PublishErrorCodes} (e : PublishFailure) : bool :=
  bool_decide (pf_api_code e = Some CODE_STREAM_MISMATCH)
  || bool_decide (pf_api_code e = Some CODE_STREAM_NOT_MATCH)
  || bool_decide (pf_api_code e = Some CODE_STREAM_SEQUENCE_NOT_MATCH).
Definition is_message_too_large_error `{PublishErrorCodes} (e : PublishFailure) : bool :=
  bool_decide (pf_api_code e = Some CODE_STREAM_MESSAGE_EXCEEDS_MAXIMUM).

Definition classify_publish_error `{PublishErrorCodes} (e : PublishFailure) : NatsError :=
  match pf_kind e with
  | PubTimedOut => NatsPublishTimeout
  | PubWrongLastMessageId | PubWrongLastSequence => NatsPublishExpectation
  | PubStreamNotFound => NatsStreamNotFound
  | PubMaxPayloadExceeded => NatsMessageTooLarge
  | PubOther =>
    if is_publish_expectation_error e then NatsPublishExpectation
    else if is_message_too_large_error e then NatsMessageTooLarge
    else NatsPublish
  | PubBrokenPipe | PubMaxAckPending => NatsPublish
  end.

Section Publish.
Context `{HM : HeaderMapApi} `{PM : !PublishMessageApi} `{PC : PublishErrorCodes}.

(** A message as it is sent *)
Record WireMessage := mkWireMessage {
  wm_subject : string;
  wm_headers : HeaderMap;
  wm_payload : list byte;
}.

(** ** Headers *)

Definition insert_header (h : HeaderMap) (entry : string * string) : HeaderMap :=
  headers_insert entry.1 entry.2 h.

Definition safe_headers (metadata : CallerMetadata) (trace_context : option TraceContext) : HeaderMap :=
  let h := foldl insert_header headers_new (metadata_iter metadata) in
  match trace_context with
  | None => h
  | Some t => insert_some TRACE_STATE_HEADER (trace_state t) (headers_insert TRACE_PARENT_HEADER (trace_parent t) h)
  end.

Definition single_header (h : HeaderMap) (name : string) : result (option string) NatsError :=
  match headers_get_all h name with
  | [] => Ok None
  | [value] => Ok (Some value)
  | _ => Err NatsInvalidMessage
  end.

(** ** Confirmed publication

    [answer] is what becomes of a message that is sent: nothing within the
    deadline, a failure, or an acknowledgement. *)

Definition Answers := WireMessage → option (result BrokerAck PublishFailure).

Definition confirmed_message (subject : string) (payload : list byte) (message_id : string)
    (expected_stream : StreamName) (h : HeaderMap) : WireMessage :=
  mkWireMessage subject
    (publish_headers message_id (stream_name_str expected_stream) None
       (headers_insert CONTENT_TYPE_HEADER JSON_CONTENT_TYPE h)) payload.

Definition publish_confirmed (answer : Answers) (subject : string) (payload : list byte)
    (message_id : string) (expected_stream : StreamName) (h : HeaderMap) (publish_timeout : N)
  : list WireMessage * result NatsPublishAck NatsError :=
  if publish_timeout =? 0 then ([], Err NatsConfiguration)
  else
    let message := confirmed_message subject payload message_id expected_stream h in
    ([message],
     let? acknowledgement := ok_or (answer message) NatsPublishTimeout in
     let? acknowledgement := map_err classify_publish_error acknowledgement in
     fail! negb (String.eqb (ba_stream acknowledgement) (stream_name_str expected_stream))
           || (ba_sequence acknowledgement =? 0)
       with NatsPublishExpectation;
     Ok (mkNatsPublishAck expected_stream (ba_sequence acknowledgement) (ba_duplicate acknowledgement))).

(** [NatsPublisher::publish_with_ack] *)
Definition publish_with_ack {A} `{PA : PublishableAddress A} (answer : Answers) (t : MessagingTopology)
    (message : OutboundMessage A) (expected_stream : StreamName) (publish_timeout : N)
  : list WireMessage * result NatsPublishAck NatsError :=
  if negb (in_topology t (om_address message)) then ([], Err NatsInvalidMessage)
  else
    let h := insert_some CORRELATION_ID_HEADER (id_str <$> om_correlation_id message)
               (safe_headers (om_metadata message) (om_trace_context message)) in
    publish_confirmed answer (pa_as_str (om_address message)) (om_payload message)
      (id_str (om_message_id message)) expected_stream h publish_timeout.

Definition publish_command_with_ack (answer : Answers) (t : MessagingTopology)
    (message : OutboundMessage CommandAddress) (publish_timeout : N) :=
  publish_with_ack answer t message (top_command t) publish_timeout.
Definition publish_integration_event_with_ack (answer : Answers) (t : MessagingTopology)
    (message : OutboundMessage IntegrationEventAddress) (publish_timeout : N) :=
  publish_with_ack answer t message (top_integration_event t) publish_timeout.

(** The publisher traits of rostfrei-messaging-core *)
Definition receipt_of_ack (published : result NatsPublishAck NatsError)
  : result PublishReceipt CorePublishErrorKind :=
  map_err core_publish_error (rmap (λ ack, PublishReceipt_new (npa_duplicate ack)) published).
Definition core_publish_command (answer : Answers) (t : MessagingTopology) (publish_timeout : N)
    (message : OutboundMessage CommandAddress) : result PublishReceipt CorePublishErrorKind :=
  receipt_of_ack (publish_command_with_ack answer t message publish_timeout).2.
Definition core_publish_integration_event (answer : Answers) (t : MessagingTopology) (publish_timeout : N)
    (message : OutboundMessage IntegrationEventAddress) : result PublishReceipt CorePublishErrorKind :=
  receipt_of_ack (publish_integration_event_with_ack answer t message publish_timeout).2.

Definition with_publish_timeout (publish_timeout : N) : result N NatsError :=
  fail! publish_timeout =? 0 with NatsConfiguration;
  Ok publish_timeout.

End Publish.
