(* ===== verification/NatsResponses.v ===== *)
(** * NatsResponses: command responses as compare-and-set snapshots of their subject
    (crates/rostfrei-nats/src/response_publication.rs and, in publish.rs, the
    publication of responses), and the reader of these snapshots
    (command_response.rs).

    What the server answers to a request, and whether a deadline expires, are
    arguments. A time is a number of nanoseconds. *)

From S2P Require Export NatsPublish.

Definition nanos_per_milli_second : N := 1000000.
Definition DEFAULT_COMMAND_RESPONSE_POLL_INTERVAL : N := 25 * nanos_per_milli_second.
Definition MAX_COMMAND_RESPONSE_POLL_INTERVAL : N := 1000 * nanos_per_milli_second.

(** [PartialEq] of [serde_json::Value] *)
Class ValueEq `{JT : JsonText} := {
  value_eqb : JValue → JValue → bool;
  value_eqb_refl v : value_eqb v v = true;
}.

(** A message as [response_storage] reads it *)
Record StoredMessage `{HM : HeaderMapApi} := mkStoredMessage {
  stm_subject : string;
  stm_sequence : N;
  stm_headers : HeaderMap;
  stm_payload : list byte;
}.
Arguments mkStoredMessage {HM} stm_subject stm_sequence stm_headers stm_payload.

(** ** Transition tokens *)

Record DiagnosticTransitionToken := mkTransitionToken {
  dtt_version : N;
  dtt_stream : string;
  dtt_created : Z;
  dtt_generation : N;
  dtt_predecessor : N;
}.

Definition token_validate (token : DiagnosticTransitionToken) (stream : string) (created : Z)
  : result unit NatsError :=
  fail! negb (dtt_version token =? 1) || negb (String.eqb (dtt_stream token) stream)
        || (dtt_created token <=? 0)%Z || negb (dtt_created token =? created)%Z
        || (dtt_generation token <? dtt_predecessor token)
    with NatsInvalidMessage;
  Ok tt.

Definition is_execution_failed `{JT : JsonText} (o : CommandResponseOutcome) : bool :=
  match o with ResponseExecutionFailed _ => true | _ => false end.

Section Responses.
Context `{JT : JsonText} `{VE : !ValueEq} `{SHA : Sha256} `{RSJ : !ResponseJson}.
Context `{HM : HeaderMapApi} `{PM : !PublishMessageApi} `{PC : PublishErrorCodes}.
Context `{TJ : Json DiagnosticTransitionToken}.

(** [serde_json::to_string] and [from_str] of a token *)
Definition token_to_string (token : DiagnosticTransitionToken) : result string NatsError :=
  map_err (λ _, NatsInvalidMessage) (rmap string_of_list_byte (to_vec token)).
Definition token_from_str (text : string) : result DiagnosticTransitionToken NatsError :=
  map_err (λ _, NatsInvalidMessage) (from_slice (as_bytes text)).

Definition publication_frames (subject : string) (payload token : list byte) : list (list byte) :=
  [as_bytes "rostfrei:diagnostic-publication:v1"; as_bytes subject; payload; token].
Definition publication_id (token : DiagnosticTransitionToken) (subject : string) (payload : list byte)
  : result MessageId NatsError :=
  let? encoded := map_err (λ _, NatsInvalidMessage) (to_vec token) in
  map_err (λ _, NatsInvalidMessage)
    (MessageId_new (to_hex (framed_fingerprint (publication_frames subject payload encoded)))).

(** ** Equality of responses *)

Definition rejection_eqb (a b : CommandRejection) : bool :=
  bool_decide (rej_classification a = rej_classification b)
  && String.eqb (error_code_str (rej_code a)) (error_code_str (rej_code b)) && String.eqb (rej_message a) (rej_message b)
  && match rej_details a, rej_details b with
     | None, None => true
     | Some v, Some w => value_eqb v w
     | _, _ => false
     end.
Definition outcome_eqb (a b : CommandResponseOutcome) : bool :=
  match a, b with
  | ResponseAccepted, ResponseAccepted => true
  | ResponseRejected r, ResponseRejected s => rejection_eqb r s
  | ResponseExecutionFailed f, ResponseExecutionFailed g => bool_decide (f = g)
  | _, _ => false
  end.
Definition response_eqb (a b : CommandResponse) : bool :=
  bool_decide (rsp_message_id a = rsp_message_id b)
  && bool_decide (rsp_command_message_id a = rsp_command_message_id b)
  && bool_decide (rsp_command_address a = rsp_command_address b)
  && bool_decide (rsp_operation_id a = rsp_operation_id b)
  && bool_decide (rsp_schema_version a = rsp_schema_version b)
  && bool_decide (rsp_correlation_id a = rsp_correlation_id b)
  && outcome_eqb (rsp_outcome a) (rsp_outcome b).

(** ** Stored publications *)

Definition validate_technical_logical_identity (response : CommandResponse) : result unit NatsError :=
  match rsp_outcome response with
  | ResponseExecutionFailed failure =>
    let? expected := map_err (λ _, NatsInvalidMessage)
      (command_technical_response_message_id (rsp_command_message_id response) failure) in
    fail! negb (bool_decide (rsp_message_id response = expected)) with NatsIdentityConflict;
    Ok tt
  | _ => Ok tt
  end.

Definition validate_stored_publication (response : CommandResponse) (stored : StoredMessage)
    (stream : string) (created : Z) : result (option DiagnosticTransitionToken) NatsError :=
  let? outer := single_header (stm_headers stored) "Nats-Msg-Id" in
  let? outer := ok_or outer NatsInvalidMessage in
  if negb (is_execution_failed (rsp_outcome response)) then
    fail! negb (String.eqb outer (id_str (rsp_message_id response))) with NatsIdentityConflict;
    Ok None
  else
    let? correlation := single_header (stm_headers stored) CORRELATION_ID_HEADER in
    fail! negb (bool_decide (correlation = Some (id_str (rsp_correlation_id response))))
      with NatsIdentityConflict;
    let? _ := validate_technical_logical_identity response in
    let? encoded := single_header (stm_headers stored) DIAGNOSTIC_TRANSITION_HEADER in
    let? encoded := ok_or encoded NatsInvalidMessage in
    let? token := token_from_str encoded in
    let? _ := token_validate token stream created in
    fail! stm_sequence stored <=? dtt_generation token with NatsIdentityConflict;
    let? text := token_to_string token in
    fail! negb (String.eqb text encoded) with NatsIdentityConflict;
    let? id := publication_id token (stm_subject stored) (stm_payload stored) in
    fail! negb (String.eqb (id_str id) outer) with NatsIdentityConflict;
    Ok (Some token).

Definition decode_existing (stored : StoredMessage) (stream : string) (created : Z)
    (response : CommandResponse) : result CommandResponse NatsError :=
  fail! stm_sequence stored =? 0 with NatsIdentityConflict;
  let? content_type := single_header (stm_headers stored) CONTENT_TYPE_HEADER in
  fail! negb (bool_decide (content_type = Some JSON_CONTENT_TYPE)) with NatsIdentityConflict;
  let? correlation := single_header (stm_headers stored) CORRELATION_ID_HEADER in
  fail! negb (bool_decide (correlation = Some (id_str (rsp_correlation_id response))))
    with NatsIdentityConflict;
  let? previous := map_err (λ _, NatsInvalidMessage) (read_command_response (stm_payload stored)) in
  fail! negb (bool_decide (rsp_command_message_id previous = rsp_command_message_id response))
        || negb (bool_decide (rsp_command_address previous = rsp_command_address response))
        || negb (bool_decide (rsp_operation_id previous = rsp_operation_id response))
        || negb (bool_decide (rsp_correlation_id previous = rsp_correlation_id response))
    with NatsIdentityConflict;
  let? address := map_err (λ _, NatsInvalidMessage)
    (derive_command_response_address (rsp_command_address previous) (rsp_operation_id previous)
       (rsp_command_message_id previous)) in
  fail! negb (String.eqb (stm_subject stored) (addr_str address)) with NatsIdentityConflict;
  let? _ := validate_stored_publication previous stored stream created in
  Ok previous.

(** ** Preparation *)

Record PreparedCommandResponse := mkPreparedResponse {
  pcr_message : OutboundMessage CommandResponseAddress;
  pcr_response : CommandResponse;
  pcr_headers : HeaderMap;
  pcr_stream : StreamName;
  pcr_created : Z;
  pcr_predecessor : N;
  pcr_publication_id : MessageId;
  pcr_transition : option DiagnosticTransitionToken;
  pcr_observed_exact : bool;
}.

(** What preparation reads: when the stream was created and its last sequence,
    and the latest message of the subject; and whether the deadline expires *)
Record PrepareAnswers := mkPrepareAnswers {
  pa_stream : option (Z * N);
  pa_latest : result (option StoredMessage) NatsError;
  pa_expired : bool;
}.

(** The publication identity and transition of what is stored already *)
Definition observe_stored (message : OutboundMessage CommandResponseAddress) (response : CommandResponse)
    (stream : string) (created : Z) (stored : StoredMessage)
  : result (option (MessageId * option DiagnosticTransitionToken)) NatsError :=
  let? previous := decode_existing stored stream created response in
  if bool_decide (stm_payload stored = om_payload message) && response_eqb previous response then
    let? outer := single_header (stm_headers stored) "Nats-Msg-Id" in
    let? outer := ok_or outer NatsInvalidMessage in
    let? id := map_err (λ _, NatsInvalidMessage) (MessageId_new outer) in
    let? transition := validate_stored_publication previous stored stream created in
    Ok (Some (id, transition))
  else
    fail! negb (is_execution_failed (rsp_outcome previous)) with NatsIdentityConflict;
    Ok None.

(** The publication identity and transition of a new publication *)
Definition new_publication (message : OutboundMessage CommandResponseAddress) (response : CommandResponse)
    (stream : string) (created : Z) (generation predecessor : N)
  : result (MessageId * option DiagnosticTransitionToken) NatsError :=
  if is_execution_failed (rsp_outcome response) then
    let token := mkTransitionToken 1 stream created generation predecessor in
    let? _ := token_validate token stream created in
    let? id := publication_id token (addr_str (om_address message)) (om_payload message) in
    Ok (id, Some token)
  else Ok (om_message_id message, None).

Definition prepare_response (answers : PrepareAnswers) (message : OutboundMessage CommandResponseAddress)
    (response : CommandResponse) (stream_name : StreamName) (h : HeaderMap) (operation_timeout : N)
  : result PreparedCommandResponse NatsError :=
  let stream := stream_name_str stream_name in
  fail! operation_timeout =? 0 with NatsConfiguration;
  let? _ := validate_technical_logical_identity response in
  fail! pa_expired answers with NatsPublishTimeout;
  let? info := ok_or (pa_stream answers) NatsStreamNotFound in
  let '(created, last_sequence) := info in
  let? stored := pa_latest answers in
  let predecessor := from_option stm_sequence 0 stored in
  let generation := N.max last_sequence predecessor in
  let? observed :=
    match stored with
    | Some stored => observe_stored message response stream created stored
    | None => Ok None
    end in
  let? publication :=
    match observed with
    | Some publication => Ok publication
    | None => new_publication message response stream created generation predecessor
    end in
  let '(publication_id, transition) := publication in
  let h := headers_insert CONTENT_TYPE_HEADER JSON_CONTENT_TYPE h in
  let? h :=
    match transition with
    | Some token =>
      let? text := token_to_string token in
      Ok (headers_insert DIAGNOSTIC_TRANSITION_HEADER text h)
    | None => Ok h
    end in
  Ok (mkPreparedResponse message response h stream_name created predecessor publication_id transition
        (is_some observed)).

Definition decode_outbound_command_response (message : OutboundMessage CommandResponseAddress)
  : result CommandResponse NatsError :=
  let? response := map_err (λ _, NatsInvalidMessage) (read_command_response (om_payload message)) in
  let? expected := map_err (λ _, NatsInvalidMessage)
    (derive_command_response_address (rsp_command_address response) (rsp_operation_id response)
       (rsp_command_message_id response)) in
  fail! negb (bool_decide (rsp_message_id response = om_message_id message))
        || negb (bool_decide (expected = om_address message)) with NatsInvalidMessage;
  Ok response.

(** [NatsPublisher::prepare_command_response] *)
Definition prepare_command_response (answers : PrepareAnswers) (t : MessagingTopology)
    (message : OutboundMessage CommandResponseAddress) (operation_timeout : N)
  : result PreparedCommandResponse NatsError :=
  fail! negb (in_topology t (om_address message)) with NatsInvalidMessage;
  let? response := decode_outbound_command_response message in
  fail! is_some_and (λ correlation, negb (bool_decide (correlation = rsp_correlation_id response)))
          (om_correlation_id message)
    with NatsInvalidMessage;
  let h := headers_insert CORRELATION_ID_HEADER (id_str (rsp_correlation_id response))
             (safe_headers (om_metadata message) (om_trace_context message)) in
  prepare_response answers message response (top_command_response t) h operation_timeout.

(** ** Publication *)

Definition verify_exact_record (stored : StoredMessage) (p : PreparedCommandResponse)
  : result unit NatsError :=
  let? previous := decode_existing stored (stream_name_str (pcr_stream p)) (pcr_created p)
    (pcr_response p) in
  let superseded :=
    if is_execution_failed (rsp_outcome previous) then NatsPublishExpectation else NatsIdentityConflict in
  fail! negb (bool_decide (stm_payload stored = om_payload (pcr_message p)))
        || negb (response_eqb previous (pcr_response p)) with superseded;
  let? outer := single_header (stm_headers stored) "Nats-Msg-Id" in
  fail! negb (bool_decide (outer = Some (id_str (pcr_publication_id p)))) with superseded;
  Ok tt.

(** How a publication that is sent ends: it is not sent, its acknowledgement is
    a failure, or it is acknowledged *)
Inductive SendAnswer :=
| SendFailed (failure : PublishFailure)
| AckFailed (failure : PublishFailure)
| Acknowledged (ack : BrokerAck).

(** What publication reads, in the order it asks: when the stream was created,
    the fate of the message, the message of an acknowledged sequence, the latest
    message of the subject, and when the stream was created afterwards; and
    whether the deadline expires, before or after the message is sent *)
Record ResponseAnswers := mkResponseAnswers {
  ra_created : option Z;
  ra_sent : WireMessage → SendAnswer;
  ra_sequence : N → result (option StoredMessage) NatsError;
  ra_latest : result (option StoredMessage) NatsError;
  ra_current : option Z;
  ra_expired : option bool;
}.

Definition verify_current_incarnation (answers : ResponseAnswers) (p : PreparedCommandResponse)
  : result unit NatsError :=
  let? current := ok_or (ra_current answers) NatsStreamNotFound in
  fail! negb (current =? pcr_created p)%Z with NatsIdentityConflict;
  Ok tt.

Definition reconcile_response (answers : ResponseAnswers) (p : PreparedCommandResponse)
  : result NatsPublishAck NatsError :=
  let? stored := ra_latest answers in
  let? stored := ok_or stored NatsPublishExpectation in
  let? _ := verify_exact_record stored p in
  let? _ := verify_current_incarnation answers p in
  Ok (mkNatsPublishAck (pcr_stream p) (stm_sequence stored) true).

(** A fresh acknowledgement is checked against the record it names. *)
Definition confirm_fresh (answers : ResponseAnswers) (p : PreparedCommandResponse)
    (expected_stream : StreamName) (ack : BrokerAck) : result NatsPublishAck NatsError :=
  fail! negb (String.eqb (ba_stream ack) (stream_name_str expected_stream)) || (ba_sequence ack =? 0)
        || is_some_and (λ token, ba_sequence ack <=? dtt_generation token) (pcr_transition p)
    with NatsPublishExpectation;
  let? stored := ra_sequence answers (ba_sequence ack) in
  let? stored := ok_or stored NatsPublish in
  fail! negb (stm_sequence stored =? ba_sequence ack) with NatsIdentityConflict;
  let? _ := map_err (λ _, NatsIdentityConflict) (verify_exact_record stored p) in
  let? _ := verify_current_incarnation answers p in
  Ok (mkNatsPublishAck expected_stream (ba_sequence ack) false).

Definition response_message (p : PreparedCommandResponse) (expected_stream : StreamName) : WireMessage :=
  mkWireMessage (addr_str (om_address (pcr_message p)))
    (publish_headers (id_str (pcr_publication_id p)) (stream_name_str expected_stream)
       (Some (pcr_predecessor p)) (pcr_headers p))
    (om_payload (pcr_message p)).

(** The publication within its deadline *)
Definition publish_within (answers : ResponseAnswers) (p : PreparedCommandResponse)
    (expected_stream : StreamName) : list WireMessage * result NatsPublishAck NatsError :=
  match ra_created answers with
  | None => ([], Err NatsStreamNotFound)
  | Some created =>
    if negb (created =? pcr_created p)%Z then ([], Err NatsIdentityConflict)
    else if pcr_observed_exact p then ([], reconcile_response answers p)
    else
      let message := response_message p expected_stream in
      ([message],
       match ra_sent answers message with
       | SendFailed failure => Err (classify_publish_error failure)
       | Acknowledged ack =>
         if ba_duplicate ack then reconcile_response answers p
         else confirm_fresh answers p expected_stream ack
       | AckFailed failure =>
         match classify_publish_error failure with
         | NatsPublishExpectation => reconcile_response answers p
         | error => Err error
         end
       end)
  end.

Definition publish_prepared (answers : ResponseAnswers) (p : PreparedCommandResponse)
    (expected_stream : StreamName) (operation_timeout : N)
  : list WireMessage * result NatsPublishAck NatsError :=
  if operation_timeout =? 0 then ([], Err NatsConfiguration)
  else if negb (bool_decide (pcr_stream p = expected_stream)) then ([], Err NatsInvalidMessage)
  else
    let '(sent, published) := publish_within answers p expected_stream in
    match ra_expired answers with
    | Some after_sending => (if after_sending then sent else [], Err NatsPublishTimeout)
    | None => (sent, published)
    end.

(** [NatsPublisher::publish_prepared_command_response] *)
Definition publish_prepared_command_response (answers : ResponseAnswers) (t : MessagingTopology)
    (p : PreparedCommandResponse) (operation_timeout : N)
  : list WireMessage * result NatsPublishAck NatsError :=
  if negb (in_topology t (om_address (pcr_message p))) then ([], Err NatsInvalidMessage)
  else publish_prepared answers p (top_command_response t) operation_timeout.

(** [publish_command_response_with_ack]: prepare and publish, again only after a
    definite conflict; [rounds] are the answers of the rounds, at most three. *)
Fixpoint publish_command_response_rounds (rounds : list (PrepareAnswers * ResponseAnswers))
    (t : MessagingTopology) (message : OutboundMessage CommandResponseAddress) (publish_timeout : N)
  : list WireMessage * result NatsPublishAck NatsError :=
  match rounds with
  | [] => ([], Err NatsPublishExpectation)
  | (preparing, publishing) :: rounds =>
    match prepare_command_response preparing t message publish_timeout with
    | Err error => ([], Err error)
    | Ok prepared =>
      let '(sent, published) := publish_prepared_command_response publishing t prepared publish_timeout in
      match published with
      | Err NatsPublishExpectation =>
        let '(later, published) := publish_command_response_rounds rounds t message publish_timeout in
        (sent ++ later, published)
      | published => (sent, published)
      end
    end
  end.
Definition publish_command_response_with_ack (rounds : list (PrepareAnswers * ResponseAnswers)) :=
  publish_command_response_rounds (take 3 rounds).

(** ** The reader (command_response.rs) *)

Definition with_poll_interval (poll_interval : N) : result N NatsError :=
  fail! (poll_interval =? 0) || (MAX_COMMAND_RESPONSE_POLL_INTERVAL <? poll_interval)
    with NatsConfiguration;
  Ok poll_interval.
Definition next_poll_interval (current : N) : N := N.min (current * 2) MAX_COMMAND_RESPONSE_POLL_INTERVAL.

Definition validate_read_configuration (address : CommandResponseAddress) (t : MessagingTopology)
    (read_timeout : N) : result unit CommandResponseReadErrorKind :=
  fail! negb (in_topology t address) || (read_timeout =? 0)
        || (MAX_COMMAND_RESPONSE_TIMEOUT <? read_timeout)
    with ReadInvalidConfiguration;
  Ok tt.

Definition read_header (h : HeaderMap) (name : string)
  : result (option string) CommandResponseReadErrorKind :=
  map_err (λ _, ReadInvalidResponse) (single_header h name).

Definition decode_stored_command_response (stored : StoredMessage) (expected : CommandResponseAddress)
    (operation_id : MsgOperationId) (command_message_id : MessageId)
  : result CommandResponse CommandResponseReadErrorKind :=
  fail! negb (String.eqb (stm_subject stored) (addr_str expected)) with ReadIdentityConflict;
  fail! MAX_ENVELOPE_BYTES <? len (stm_payload stored) with ReadInvalidResponse;
  let? content_type := read_header (stm_headers stored) CONTENT_TYPE_HEADER in
  fail! negb (bool_decide (content_type = Some JSON_CONTENT_TYPE)) with ReadInvalidResponse;
  let? response := map_err (λ _, ReadInvalidResponse) (read_command_response (stm_payload stored)) in
  let? outer := read_header (stm_headers stored) "Nats-Msg-Id" in
  let? outer := ok_or outer ReadInvalidResponse in
  let? outer := map_err (λ _, ReadInvalidResponse) (MessageId_new outer) in
  fail! negb (is_execution_failed (rsp_outcome response))
        && negb (bool_decide (rsp_message_id response = outer)) with ReadIdentityConflict;
  fail! negb (bool_decide (rsp_operation_id response = operation_id))
        || negb (bool_decide (rsp_command_message_id response = command_message_id))
    with ReadIdentityConflict;
  let? derived := map_err (λ _, ReadInvalidResponse)
    (derive_command_response_address (rsp_command_address response) (rsp_operation_id response)
       (rsp_command_message_id response)) in
  fail! negb (bool_decide (derived = expected)) with ReadIdentityConflict;
  Ok response.

Definition decode_validated_stored_response (stored : StoredMessage) (stream : string) (created : Z)
    (address : CommandResponseAddress) (operation_id : MsgOperationId) (command_message_id : MessageId)
  : result CommandResponse CommandResponseReadErrorKind :=
  let? response := decode_stored_command_response stored address operation_id command_message_id in
  let? _ := map_err (λ _, ReadIdentityConflict) (validate_stored_publication response stored stream created) in
  Ok response.

(** What a reader sees: when the stream was created, and the latest message of
    the subject at each poll until the deadline expires *)
Record ReadAnswers := mkReadAnswers {
  rda_created : option Z;
  rda_polls : list (result (option StoredMessage) NatsError);
}.

(** [find_command_response] polls once. *)
Definition nats_find_command_response (answers : ReadAnswers) (t : MessagingTopology)
    (address : CommandResponseAddress) (operation_id : MsgOperationId) (command_message_id : MessageId)
    (read_timeout : N) : result (option CommandResponse) CommandResponseReadErrorKind :=
  let? _ := validate_read_configuration address t read_timeout in
  let? created := ok_or (rda_created answers) Response.ReadUnavailable in
  match rda_polls answers with
  | [] => Err ReadTimeout
  | Ok (Some stored) :: _ =>
    rmap Some (decode_validated_stored_response stored (stream_name_str (top_command_response t)) created
      address operation_id command_message_id)
  | Ok None :: _ => Ok None
  | Err _ :: _ => Err Response.ReadUnavailable
  end.

(** The polls of [read_command_response] *)
Fixpoint poll_response (polls : list (result (option StoredMessage) NatsError)) (stream : string)
    (created : Z) (address : CommandResponseAddress) (operation_id : MsgOperationId)
    (command_message_id : MessageId) : result CommandResponse CommandResponseReadErrorKind :=
  match polls with
  | [] => Err ReadTimeout
  | Ok (Some stored) :: _ =>
    decode_validated_stored_response stored stream created address operation_id command_message_id
  | Ok None :: polls => poll_response polls stream created address operation_id command_message_id
  | Err _ :: _ => Err Response.ReadUnavailable
  end.
Definition nats_read_command_response (answers : ReadAnswers) (t : MessagingTopology)
    (address : CommandResponseAddress) (operation_id : MsgOperationId) (command_message_id : MessageId)
    (read_timeout : N) : result CommandResponse CommandResponseReadErrorKind :=
  let? _ := validate_read_configuration address t read_timeout in
  let? created := ok_or (rda_created answers) Response.ReadUnavailable in
  poll_response (rda_polls answers) (stream_name_str (top_command_response t)) created
    address operation_id command_message_id.

Section Redrive.
Context `{CEJ : JsonCodec (CommandEnvelopeWire RoutedCommandWire)}.

(** The rounds of [remove_blocked_diagnostic_for_redrive]: the latest message,
    and whether the server deleted it. The result comes with the sequences
    whose deletion was asked for. *)
Fixpoint remove_blocked (rounds : list (result (option StoredMessage) NatsError * option bool))
    (removed : bool) (stream : string) (created : Z) (address : CommandResponseAddress)
    (command : EncodedCommand) : list N * result bool CommandResponseReadErrorKind :=
  match rounds with
  | [] => ([], Err ReadTimeout)
  | (Err _, _) :: _ => ([], Err Response.ReadUnavailable)
  | (Ok None, _) :: _ => ([], Ok removed)
  | (Ok (Some stored), deleted) :: rounds =>
    match (let? response := decode_validated_stored_response stored stream created address
             (enc_operation_id command) (enc_message_id command) in
           let? _ := map_err (λ _, ReadIdentityConflict) (validate_response command response) in
           Ok response) with
    | Err error => ([], Err error)
    | Ok response =>
      match rsp_outcome response with
      | ResponseExecutionFailed failure =>
        if is_retryable failure then ([], if removed then Ok true else Err ReadIdentityConflict)
        else
          match deleted with
          | None => ([stm_sequence stored], Err Response.ReadUnavailable)
          | Some deleted =>
            let '(sequences, answer) :=
              remove_blocked rounds (removed || deleted) stream created address command in
            (stm_sequence stored :: sequences, answer)
          end
      | _ => ([], Err ReadIdentityConflict)
      end
    end
  end.

Definition remove_blocked_diagnostic_for_redrive (created : option Z)
    (rounds : list (result (option StoredMessage) NatsError * option bool)) (t : MessagingTopology)
    (command : EncodedCommand) (read_timeout : N) : list N * result bool CommandResponseReadErrorKind :=
  match (let? _ := map_err (λ _, ReadIdentityConflict) (validate_encoded command) in
         let? address := map_err (λ _, ReadInvalidConfiguration) (response_address command) in
         let? _ := validate_read_configuration address t read_timeout in
         let? created := ok_or created Response.ReadUnavailable in
         Ok (address, created)) with
  | Err error => ([], Err error)
  | Ok (address, created) =>
    remove_blocked rounds false (stream_name_str (top_command_response t)) created address command
  end.
End Redrive.

End Responses.
