(* ===== verification/NatsConsumer.v ===== *)
(** * NatsConsumer: consuming messages from a durable JetStream consumer
    (crates/rostfrei-nats/src/consumer.rs): the delivery a stored message is read
    as, the handling with its progress signals, the settlement of the message and
    its quarantine record.

    A delivery is one run of [process_message]; what the server answers to its
    signals and publications, and how the handling ends in time, are arguments. *)

From Stdlib Require Import ZifyBool.
From S2P Require Export NatsPublish Query.

Definition MAX_QUARANTINE_RECORD_BYTES : N := 2 * 1024 * 1024.
Definition DEFAULT_QUARANTINE_RETRY_DELAY : N := 1000000000.
Definition MAX_QUARANTINE_PAYLOAD_PREFIX_BYTES : N := 16 * 1024.
Definition MAX_QUARANTINE_PAYLOAD_PREFIX_BASE64_BYTES : N := MAX_QUARANTINE_PAYLOAD_PREFIX_BYTES / 3 * 4.

(** messaging_core::ConsumeErrorKind *)
Inductive ConsumeErrorKind :=
| ConsumeInvalidConfiguration | ConsumeUnavailable | ConsumeDisposition | ConsumeQuarantine | ConsumeEnded.

(** [jetstream::Message] with the information in its reply subject; [delivered]
    is an [i64] *)
Record RawDeliveryInfo := mkRawInfo {
  ri_stream : string;
  ri_consumer : string;
  ri_delivered : Z;
  ri_pending : N;
  ri_stream_sequence : N;
  ri_consumer_sequence : N;
}.
Record JetStreamMessage `{HM : HeaderMapApi} := mkJetStreamMessage {
  jm_info : option RawDeliveryInfo;
  jm_subject : string;
  jm_headers : option HeaderMap;
  jm_payload : list byte;
}.
Arguments mkJetStreamMessage {HM} jm_info jm_subject jm_headers jm_payload.

Inductive AckKind := AckAck | AckNak (delay : option N) | AckTerm.

(** ** Verifying a consumer *)

(** A consumer as the server describes it: the fields the code sets, and of the
    other compared ones, by name, whether they differ from the default *)
Record ServerConsumer := mkServerConsumer {
  svc_name : string;
  svc_deliver_subject : option string;
  svc_config : PullConfig;
  svc_differs : string → bool;
}.

Definition compared_consumer_fields : list string :=
  ["headers_only"; "max_bytes"; "max_expires"; "inactive_threshold"; "num_replicas"; "memory_storage";
   "backoff"; "replay_policy"; "rate_limit"; "priority_policy"; "priority_groups"].

Definition verify_consumer_settings (actual : ServerConsumer) (expected : PullConfig)
  : result unit ConsumeErrorKind :=
  let config := svc_config actual in
  fail! negb (bool_decide (pc_durable_name expected = Some (svc_name actual)))
        || is_some (svc_deliver_subject actual)
        || negb (bool_decide (pc_durable_name config = pc_durable_name expected))
        || negb (bool_decide (pc_deliver_policy config = DeliverAll))
        || negb (bool_decide (pc_ack_policy config = AckExplicit))
        || negb (pc_ack_wait config =? pc_ack_wait expected)
        || negb (pc_max_deliver config =? -1)%Z
        || negb (String.eqb (pc_filter_subject config) (pc_filter_subject expected))
        || negb (bool_decide (pc_filter_subjects config = pc_filter_subjects expected))
        || negb (pc_max_ack_pending config =? pc_max_ack_pending expected)%Z
        || negb (pc_max_batch config =? pc_max_batch expected)%Z
        || existsb (svc_differs actual) compared_consumer_fields
    with ConsumeInvalidConfiguration;
  Ok tt.

Section Verification.
Context {A : Type} `{PA : PublishableAddress A}.

Definition verify_consumer_config (actual : ServerConsumer) (config : ConsumerConfig A)
  : result unit ConsumeErrorKind :=
  let? expected := map_err (λ _, ConsumeInvalidConfiguration) (durable_consumer_config config) in
  verify_consumer_settings actual expected.

(** [NatsConsumerFactory::verify_consumer]; [stored] is the consumer the server
    finds on a stream. *)
Definition factory_verify_consumer (t : MessagingTopology) (stored : StreamName → option ServerConsumer)
    (config : ConsumerConfig A) : result unit ConsumeErrorKind :=
  fail! negb (in_topology t (cc_address config)) with ConsumeInvalidConfiguration;
  let? source_stream := ok_or (stream_for t (pa_kind (cc_address config))) ConsumeInvalidConfiguration in
  let? consumer := ok_or (stored source_stream) ConsumeUnavailable in
  verify_consumer_config consumer config.

Record NatsMessageConsumer := mkNatsConsumer {
  ncs_source_stream : StreamName;
  ncs_quarantine_stream : StreamName;
  ncs_quarantine_publish_timeout : N;
  ncs_config : ConsumerConfig A;
}.

(** [NatsConsumerFactory::create_consumer] *)
Definition create_consumer (t : MessagingTopology) (quarantine_publish_timeout : N)
    (config : ConsumerConfig A) : result NatsMessageConsumer ConsumeErrorKind :=
  fail! negb (in_topology t (cc_address config)) with ConsumeInvalidConfiguration;
  let? _ := ok_or (try_from i64_max (cc_shared_pending_limit config)) ConsumeInvalidConfiguration in
  let? source_stream := ok_or (stream_for t (pa_kind (cc_address config))) ConsumeInvalidConfiguration in
  Ok (mkNatsConsumer source_stream (top_quarantine t) quarantine_publish_timeout config).

(** [run]: verification, then every message of the consumer until one fails or
    the server ends the consumer; [processed] are their results in the order
    they finish. *)
Definition consumer_run (stored : option ServerConsumer) (c : NatsMessageConsumer)
    (processed : list (result unit ConsumeErrorKind)) : result unit ConsumeErrorKind :=
  let? consumer := ok_or stored ConsumeUnavailable in
  let? _ := verify_consumer_config consumer (ncs_config c) in
  let? _ := try_map id processed in
  Err ConsumeEnded.
End Verification.
Arguments NatsMessageConsumer A : clear implicits.

(** [ConsumableAddress] *)
Class ConsumableAddress (A : Type) `{PA : PublishableAddress A} := {
  parse_nats : string → result A NatsError;
  consumable_eq_dec : EqDecision A;
}.
#[global] Existing Instance consumable_eq_dec.
Definition parse_nats_address (k : AddressKind) (value : string) : result (address k) NatsError :=
  map_err (λ _, NatsInvalidMessage) (address_parse k value).
#[global] Instance CommandAddress_consumable : ConsumableAddress CommandAddress :=
  {| parse_nats := parse_nats_address Command |}.
#[global] Instance CommandResponseAddress_consumable : ConsumableAddress CommandResponseAddress :=
  {| parse_nats := parse_nats_address Address.CommandResponse |}.
#[global] Instance IntegrationEventAddress_consumable : ConsumableAddress IntegrationEventAddress :=
  {| parse_nats := parse_nats_address IntegrationEvent |}.

(** ** Quarantine records *)

Record QuarantineRecord := mkQuarantineRecord {
  qrec_message_id : string;
  qrec_address : string;
  qrec_payload_base64 : string;
  qrec_payload_size : option N;
  qrec_payload_sha256 : option string;
  qrec_payload_truncated : bool;
  qrec_metadata : CallerMetadata;
  qrec_trace_context : option TraceContext;
  qrec_correlation_id : option CorrelationId;
  qrec_failure_kind : option QuarantineFailureKind;
  qrec_reason : string;
  qrec_attempt : N;
  qrec_pending : N;
  qrec_source_sequence : N;
  qrec_consumer_sequence : N;
  qrec_source_stream : string;
  qrec_source_consumer : string;
}.

(** The document of a record *)
Record QuarantineRecordWire := mkQuarantineRecordWire {
  qdoc_message_id : string;
  qdoc_address : string;
  qdoc_payload_base64 : string;
  qdoc_payload_size : option N;
  qdoc_payload_sha256 : option string;
  qdoc_payload_truncated : bool;
  qdoc_metadata : gmap string string;
  qdoc_trace_context : option TraceContextWire;
  qdoc_correlation_id : option string;
  qdoc_failure_kind : option QuarantineFailureKind;
  qdoc_reason : string;
  qdoc_attempt : N;
  qdoc_pending : N;
  qdoc_source_sequence : N;
  qdoc_consumer_sequence : N;
  qdoc_source_stream : string;
  qdoc_source_consumer : string;
}.
Definition QuarantineRecord_serialize (r : QuarantineRecord) : QuarantineRecordWire :=
  {| qdoc_message_id := qrec_message_id r; qdoc_address := qrec_address r;
     qdoc_payload_base64 := qrec_payload_base64 r; qdoc_payload_size := qrec_payload_size r;
     qdoc_payload_sha256 := qrec_payload_sha256 r; qdoc_payload_truncated := qrec_payload_truncated r;
     qdoc_metadata := metadata_serialize (qrec_metadata r);
     qdoc_trace_context := TraceContext_serialize <$> qrec_trace_context r;
     qdoc_correlation_id := id_str <$> qrec_correlation_id r;
     qdoc_failure_kind := qrec_failure_kind r; qdoc_reason := qrec_reason r;
     qdoc_attempt := qrec_attempt r; qdoc_pending := qrec_pending r;
     qdoc_source_sequence := qrec_source_sequence r; qdoc_consumer_sequence := qrec_consumer_sequence r;
     qdoc_source_stream := qrec_source_stream r; qdoc_source_consumer := qrec_source_consumer r |}.
Definition QuarantineRecord_deserialize (w : QuarantineRecordWire) : result QuarantineRecord string :=
  let? metadata := metadata_deserialize (qdoc_metadata w) in
  let? trace := of_optional TraceContext_deserialize (qdoc_trace_context w) in
  let? correlation := of_optional CorrelationId_deserialize (qdoc_correlation_id w) in
  Ok (mkQuarantineRecord (qdoc_message_id w) (qdoc_address w) (qdoc_payload_base64 w)
        (qdoc_payload_size w) (qdoc_payload_sha256 w) (qdoc_payload_truncated w) metadata trace correlation
        (qdoc_failure_kind w) (qdoc_reason w) (qdoc_attempt w) (qdoc_pending w) (qdoc_source_sequence w)
        (qdoc_consumer_sequence w) (qdoc_source_stream w) (qdoc_source_consumer w)).

(** [From<QuarantineRecord> for QuarantinedMessage] *)
Definition quarantined_of_record (r : QuarantineRecord) : QuarantinedMessage :=
  {| qm_message_id := qrec_message_id r; qm_address := qrec_address r;
     qm_payload_base64 := qrec_payload_base64 r; qm_payload_size := qrec_payload_size r;
     qm_payload_sha256 := qrec_payload_sha256 r; qm_payload_truncated := qrec_payload_truncated r;
     qm_metadata := qrec_metadata r; qm_trace_context := qrec_trace_context r;
     qm_correlation_id := qrec_correlation_id r; qm_failure_kind := qrec_failure_kind r;
     qm_reason := qrec_reason r; qm_attempt := qrec_attempt r; qm_pending := qrec_pending r;
     qm_source_sequence := qrec_source_sequence r; qm_consumer_sequence := qrec_consumer_sequence r;
     qm_source_stream := qrec_source_stream r; qm_source_consumer := qrec_source_consumer r |}.

Section Consumer.
Context `{SHA : Sha256} `{B64 : Base64} `{QJ : Json QuarantineRecordWire}.
Context `{HM : HeaderMapApi} `{HI : !HeaderMapIter} `{PM : !PublishMessageApi} `{PC : PublishErrorCodes}.

Definition sha256_hex (payload : list byte) : string := hex_of_bytes (sha256 payload).

(** [String::truncate] of ASCII text *)
Definition truncate (size : N) (text : string) : string := String.substring 0 (N.to_nat size) text.

Definition encode_quarantine_record (record : QuarantineRecord) : result (list byte) NatsError :=
  let? payload := map_err (λ _, NatsSerialization) (to_vec (QuarantineRecord_serialize record)) in
  if len payload <=? MAX_QUARANTINE_RECORD_BYTES then Ok payload
  else
    let fallback :=
      mkQuarantineRecord (qrec_message_id record) (qrec_address record)
        (truncate MAX_QUARANTINE_PAYLOAD_PREFIX_BASE64_BYTES (qrec_payload_base64 record))
        (qrec_payload_size record) (qrec_payload_sha256 record) true (qrec_metadata record)
        (qrec_trace_context record) (qrec_correlation_id record) (qrec_failure_kind record)
        (qrec_reason record) (qrec_attempt record) (qrec_pending record) (qrec_source_sequence record)
        (qrec_consumer_sequence record) (qrec_source_stream record) (qrec_source_consumer record) in
    let? payload := map_err (λ _, NatsSerialization) (to_vec (QuarantineRecord_serialize fallback)) in
    fail! MAX_QUARANTINE_RECORD_BYTES <? len payload
      with NatsPayloadTooLarge (len payload) MAX_QUARANTINE_RECORD_BYTES;
    Ok payload.

Definition quarantine_subject (value : string) : result string NatsError :=
  let? address := map_err (λ _, NatsInvalidMessage) (MessageAddress_parse value) in
  let scope := from_option (λ scope, "." +:+ scope) ""
    (subject_segment (MessageAddress_traffic_scope address)) in
  Ok (MessageAddress_application address +:+ scope +:+ ".quarantine."
        +:+ kind_segment (MessageAddress_kind address) +:+ "." +:+ MessageAddress_context address
        +:+ "." +:+ MessageAddress_name address).

Definition quarantine_id_bytes (source_stream source_consumer : string) (source_sequence : N) : list byte :=
  as_bytes source_stream ++ x00 :: as_bytes source_consumer ++ x00 :: be_bytes 8 source_sequence.
Definition quarantine_message_id (record : QuarantineRecord) : string :=
  "quarantine-" +:+ hex_of_bytes (sha256 (quarantine_id_bytes (qrec_source_stream record)
    (qrec_source_consumer record) (qrec_source_sequence record))).

(** ** Reading a message *)

Definition is_control_header (name : string) : bool :=
  let name := to_ascii_lowercase name in
  String.eqb name "content-type" || String.eqb name "reply" || String.eqb name "reply-to"
  || String.eqb name "reply-subject" || String.eqb name TRACE_PARENT_HEADER
  || String.eqb name TRACE_STATE_HEADER || starts_with "nats-" name || starts_with "rostfrei-control-" name.

Definition add_caller_header (metadata : CallerMetadata) (entry : string * list string)
  : result CallerMetadata NatsError :=
  if is_control_header entry.1 then Ok metadata
  else
    match entry.2 with
    | [value] => map_err (λ _, NatsInvalidMessage) (rmap snd (metadata_insert metadata entry.1 value))
    | _ => Err NatsInvalidMessage
    end.
Definition caller_metadata (h : HeaderMap) : result CallerMetadata NatsError :=
  try_fold add_caller_header CallerMetadata_new (headers_iter h).

Definition header_trace_context (h : HeaderMap) : result (option TraceContext) NatsError :=
  let? parent := single_header h TRACE_PARENT_HEADER in
  let? state := single_header h TRACE_STATE_HEADER in
  match parent, state with
  | None, None => Ok None
  | Some parent, state =>
    map_err (λ _, NatsInvalidMessage) (rmap Some (TraceContext_from_parts parent state))
  | None, Some _ => Err NatsInvalidMessage
  end.

Section Delivery.
Context {A : Type} `{PA : PublishableAddress A} `{CA : !ConsumableAddress A}.

Definition decode_delivery (message : JetStreamMessage) (info : DeliveryInfo) (expected_address : A)
  : result (MessageDelivery A) NatsError :=
  let? h := ok_or (jm_headers message) NatsInvalidMessage in
  let? content_type := single_header h CONTENT_TYPE_HEADER in
  fail! negb (bool_decide (content_type = Some JSON_CONTENT_TYPE)) with NatsInvalidMessage;
  let? id := single_header h "Nats-Msg-Id" in
  let? id := ok_or id NatsInvalidMessage in
  let? message_id := map_err (λ _, NatsInvalidMessage) (MessageId_new id) in
  let? metadata := caller_metadata h in
  let? correlation := single_header h CORRELATION_ID_HEADER in
  let? correlation_id := map_err (λ _, NatsInvalidMessage) (transpose (CorrelationId_new <$> correlation)) in
  let? trace_context := header_trace_context h in
  let? address := parse_nats (jm_subject message) in
  fail! negb (bool_decide (address = expected_address)) with NatsInvalidMessage;
  map_err (λ _, NatsInvalidMessage)
    (new_with_transport_context address message_id (jm_payload message) metadata correlation_id
       trace_context info).

Definition quarantine_record (delivery : MessageDelivery A) (source_stream : StreamName)
    (source_consumer reason : string) (failure_kind : QuarantineFailureKind) : QuarantineRecord :=
  let info := md_info delivery in
  mkQuarantineRecord (id_str (md_message_id delivery)) (pa_as_str (md_address delivery))
    (base64_encode (md_payload delivery)) (Some (len (md_payload delivery)))
    (Some (sha256_hex (md_payload delivery))) false (md_metadata _ delivery) (md_trace_context _ delivery)
    (md_correlation_id delivery) (Some failure_kind) reason (di_attempt info) (di_pending info)
    (di_source_sequence info) (di_consumer_sequence info) (stream_name_str source_stream) source_consumer.

(** [.ok().flatten()] *)
Definition ok_flatten {T E} (r : result (option T) E) : option T :=
  match r with Ok o => o | Err _ => None end.
Definition ok_some {T E} (r : result T E) : option T := match r with Ok x => Some x | Err _ => None end.

Definition raw_quarantine_record (message : JetStreamMessage) (info : DeliveryInfo)
    (source_stream : StreamName) (source_consumer reason : string) : QuarantineRecord :=
  let h := jm_headers message in
  let header name := h ≫= (λ h, ok_flatten (single_header h name)) in
  let message_id := from_option id_str "missing-or-invalid"
    (header "Nats-Msg-Id" ≫= (λ value, ok_some (MessageId_new value))) in
  mkQuarantineRecord message_id (jm_subject message)
    (base64_encode (jm_payload message)) (Some (len (jm_payload message)))
    (Some (sha256_hex (jm_payload message))) false
    (default CallerMetadata_new (h ≫= (λ h, ok_some (caller_metadata h))))
    (h ≫= (λ h, ok_flatten (header_trace_context h)))
    (header CORRELATION_ID_HEADER ≫= (λ value, ok_some (CorrelationId_new value)))
    (Some InvalidSourceMessage) reason (di_attempt info) (di_pending info)
    (di_source_sequence info) (di_consumer_sequence info) (stream_name_str source_stream) source_consumer.

(** ** Settling a message

    A run is what it signals and sends, and how it ends. *)

Inductive ConsumeStep :=
| Progressed
| Settled (kind : AckKind)
| QuarantineSent (message : WireMessage).

Record ConsumeAnswers := mkConsumeAnswers {
  ca_settled : AckKind → bool;
  ca_quarantine : Answers;
}.

Notation Run := (list ConsumeStep * result unit ConsumeErrorKind)%type.

Definition apply_ack (answers : ConsumeAnswers) (kind : AckKind) : Run :=
  ([Settled kind], if ca_settled answers kind then Ok tt else Err ConsumeDisposition).

Definition publish_quarantine (answer : Answers) (quarantine_stream : StreamName) (publish_timeout : N)
    (record : QuarantineRecord) : list WireMessage * result NatsPublishAck NatsError :=
  match (let? payload := encode_quarantine_record record in
         let? subject := quarantine_subject (qrec_address record) in
         Ok (payload, subject)) with
  | Err error => ([], Err error)
  | Ok (payload, subject) =>
    publish_confirmed answer subject payload (quarantine_message_id record) quarantine_stream
      (safe_headers CallerMetadata_new (qrec_trace_context record)) publish_timeout
  end.

Definition quarantine_retry_available (attempt maximum_delivery_attempts : N) : bool :=
  attempt <? maximum_delivery_attempts.

Definition quarantine_or_nak (answers : ConsumeAnswers) (quarantine_stream : StreamName)
    (publish_timeout : N) (record : QuarantineRecord) (attempt maximum_delivery_attempts : N) : Run :=
  let '(sent, published) :=
    publish_quarantine (ca_quarantine answers) quarantine_stream publish_timeout record in
  let '(steps, ended) :=
    match published with
    | Err _ =>
      if quarantine_retry_available attempt maximum_delivery_attempts
      then apply_ack answers (AckNak (Some DEFAULT_QUARANTINE_RETRY_DELAY))
      else ([], Err ConsumeQuarantine)
    | Ok _ => apply_ack answers AckTerm
    end in
  ((QuarantineSent <$> sent) ++ steps, ended).

(** ** Handling a delivery *)

(** How a handling ends in time: the answers to the progress signals it sees
    (a failure carries the error reported), then the deadline, with the state
    it leaves, or the handler's own end; [ha_abandoned] is the state left when
    a signal fails. *)
Record HandlingAnswers (S : Type) := mkHandlingAnswers {
  ha_started : bool;
  ha_progress : list (option ConsumeErrorKind);
  ha_abandoned : S;
  ha_elapsed : option S;
  ha_finished : bool;
}.

Definition Handles (S : Type) := S → MessageDelivery A → S * DeliveryDisposition.

(** The progress signals up to the first that fails *)
Fixpoint progress_signals (answers : list (option ConsumeErrorKind))
  : list ConsumeStep * option ConsumeErrorKind :=
  match answers with
  | [] => ([], None)
  | Some error :: _ => ([Progressed], Some error)
  | None :: answers => let '(steps, error) := progress_signals answers in (Progressed :: steps, error)
  end.

(** The disposition; [None] when the deadline expired *)
Definition handle_with_progress {S} (answers : HandlingAnswers S) (handler : Handles S)
    (delivery : MessageDelivery A) (s : S)
  : S * list ConsumeStep * result (option DeliveryDisposition) ConsumeErrorKind :=
  if negb (ha_started _ answers) then (s, [Progressed], Err ConsumeDisposition)
  else
    let '(steps, failed) := progress_signals (ha_progress _ answers) in
    match failed with
    | Some error => (ha_abandoned _ answers, Progressed :: steps, Err error)
    | None =>
      let '(s, disposition) :=
        match ha_elapsed _ answers with
        | Some s => (s, None)
        | None => let '(s, disposition) := handler s delivery in (s, Some disposition)
        end in
      (s, Progressed :: steps ++ [Progressed],
       if ha_finished _ answers then Ok disposition else Err ConsumeDisposition)
    end.

Definition apply_disposition (answers : ConsumeAnswers) (c : NatsMessageConsumer A)
    (delivery : MessageDelivery A) (disposition : option DeliveryDisposition) : Run :=
  let config := ncs_config c in
  let attempt := di_attempt (md_info delivery) in
  let quarantine reason failure_kind :=
    quarantine_or_nak answers (ncs_quarantine_stream c) (ncs_quarantine_publish_timeout c)
      (quarantine_record delivery (ncs_source_stream c) (delivery_str (cc_durable_name config))
         reason failure_kind)
      attempt (cc_maximum_delivery_attempts config) in
  match disposition with
  | Some Acknowledge => apply_ack answers AckAck
  | Some Terminate => apply_ack answers AckTerm
  | Some (Quarantine reason) => quarantine (quarantine_reason reason) HandlerFailure
  | Some (Delivery.RetryAfter _) | None =>
    if attempt <? cc_maximum_delivery_attempts config then
      apply_ack answers (AckNak (Some (match disposition with
                                       | Some (Delivery.RetryAfter delay) => retry_delay delay
                                       | _ => DEFAULT_QUARANTINE_RETRY_DELAY
                                       end)))
    else quarantine "maximum delivery attempts exceeded" DeliveryAttemptsExhausted
  end.

(** A run that leaves the state alone *)
Definition stateless {S} (s : S) (run : Run) : S * list ConsumeStep * result unit ConsumeErrorKind :=
  (s, run.1, run.2).

Definition process_message {S} (answers : ConsumeAnswers) (handling : HandlingAnswers S)
    (c : NatsMessageConsumer A) (handler : Handles S) (message : JetStreamMessage) (s : S)
  : S * list ConsumeStep * result unit ConsumeErrorKind :=
  let config := ncs_config c in
  let durable := delivery_str (cc_durable_name config) in
  let maximum := cc_maximum_delivery_attempts config in
  let quarantine record attempt :=
    quarantine_or_nak answers (ncs_quarantine_stream c) (ncs_quarantine_publish_timeout c) record
      attempt maximum in
  match jm_info message with
  | None => (s, [], Err ConsumeUnavailable)
  | Some raw =>
    if negb (String.eqb (ri_stream raw) (stream_name_str (ncs_source_stream c)))
       || negb (String.eqb (ri_consumer raw) durable)
       || negb (String.eqb (jm_subject message) (pa_as_str (cc_address config)))
    then stateless s (apply_ack answers (AckNak (Some DEFAULT_QUARANTINE_RETRY_DELAY)))
    else
      let attempt := Z.to_N (ri_delivered raw) in
      if negb ((0 <? ri_delivered raw) && (ri_delivered raw <=? Z.of_N u32_max))%Z
      then (s, [], Err ConsumeUnavailable)
      else
        match DeliveryInfo_new attempt (ri_pending raw) (ri_stream_sequence raw)
                (ri_consumer_sequence raw) with
        | Err _ => (s, [], Err ConsumeUnavailable)
        | Ok info =>
          match decode_delivery message info (cc_address config) with
          | Err _ =>
            stateless s (quarantine (raw_quarantine_record message info (ncs_source_stream c) durable
                             "invalid source message") attempt)
          | Ok delivery =>
            if maximum <? attempt then
              stateless s (quarantine (quarantine_record delivery (ncs_source_stream c) durable
                               "maximum delivery attempts exceeded" DeliveryAttemptsExhausted) attempt)
            else
              let '(s, steps, handled) := handle_with_progress handling handler delivery s in
              match handled with
              | Err error => (s, steps, Err error)
              | Ok disposition =>
                let '(settling, ended) := apply_disposition answers c delivery disposition in
                (s, steps ++ settling, ended)
              end
          end
        end
  end.
End Delivery.
End Consumer.
