(* ===== verification/NatsConsumerFacts.v ===== *)
(** * NatsConsumerFacts: what is published is what is delivered, up to the spaces
    around header values, and every delivered message is accounted for. *)

From Stdlib Require Import ZifyBool.
From S2P Require Export NatsConsumer.

Section Facts.
Context `{SHA : Sha256} `{B64 : Base64} `{QJ : Json QuarantineRecordWire}.
Context `{HM : HeaderMapApi} `{HI : !HeaderMapIter} `{PM : !PublishMessageApi} `{PC : PublishErrorCodes}.

(** ** Headers *)

Lemma get_all_insert_cases name other value h :
  headers_get_all (headers_insert name value h) other
  = if decide (name = other) then [value] else headers_get_all h other.
Proof. case_decide; [subst; apply get_all_insert|by apply get_all_insert_other]. Qed.

Lemma headers_insert_some name other value h :
  headers_get_all (insert_some name value h) other
  = match value with
    | Some v => if decide (name = other) then [v] else headers_get_all h other
    | None => headers_get_all h other
    end.
Proof. destruct value; [apply get_all_insert_cases|done]. Qed.

Lemma get_all_insert_entries l h name :
  NoDup l.*1 →
  headers_get_all (foldl insert_header h l) name
  = match (list_to_map l : gmap string string) !! name with
    | Some v => [v]
    | None => headers_get_all h name
    end.
Proof.
  revert h. induction l as [|[k v] l IH]; intros h Hnd; [done|].
  apply NoDup_cons in Hnd as [Hk Hnd]. cbn [foldl]. rewrite IH by done.
  unfold insert_header. cbn [fst snd]. rewrite list_to_map_cons.
  rewrite get_all_insert_cases. case_decide as E.
  - subst. by rewrite not_elem_of_list_to_map_1, lookup_insert_eq.
  - by rewrite lookup_insert_ne.
Qed.

Lemma safe_headers_get metadata trace name :
  headers_get_all (safe_headers metadata trace) name
  = match (if decide (name = TRACE_STATE_HEADER) then trace ≫= trace_state
           else if decide (name = TRACE_PARENT_HEADER) then trace_parent <$> trace else None),
          entries metadata !! name with
    | Some v, _ => [v]
    | None, Some v => [v]
    | None, None => []
    end.
Proof.
  unfold safe_headers.
  assert (∀ n, headers_get_all (foldl insert_header headers_new (metadata_iter metadata)) n
    = match entries metadata !! n with Some v => [v] | None => [] end) as Hm.
  { intros n. unfold metadata_iter. rewrite get_all_insert_entries, get_all_new.
    - assert (list_to_map (btree_iter (entries metadata)) = entries metadata) as ->; [|done].
      rewrite <- (list_to_map_to_list (entries metadata)) at 2. apply list_to_map_proper; [|apply btree_iter_Permutation].
      rewrite btree_iter_Permutation. apply NoDup_fst_map_to_list.
    - rewrite btree_iter_Permutation. apply NoDup_fst_map_to_list. }
  destruct trace as [t|]; cbn [mbind option_bind fmap option_fmap option_map]; [|by repeat case_decide; rewrite Hm].
  rewrite headers_insert_some, get_all_insert_cases, Hm.
  repeat case_decide; subst; try done; by destruct (trace_state t).
Qed.

Lemma control_header_reserved name : is_control_header name = reserved_name (to_ascii_lowercase name).
Proof.
  unfold is_control_header, reserved_name, RESERVED_NAMES. apply eq_true_iff_eq.
  rewrite !orb_true_iff, !String.eqb_eq, bool_decide_eq_true, !elem_of_cons, elem_of_nil.
  unfold TRACE_PARENT_HEADER, TRACE_STATE_HEADER. tauto.
Qed.

Lemma metadata_name_plain m name v :
  metadata_ok m → entries m !! name = Some v → is_control_header name = false.
Proof.
  intros [_ _ Hv] Hn. destruct (Hv _ _ Hn) as [Hname _].
  apply validate_metadata_name_fix in Hname as (Hl & _ & Hr & _). by rewrite control_header_reserved, <- Hl.
Qed.

Lemma metadata_control m name : metadata_ok m → is_control_header name = true → entries m !! name = None.
Proof.
  intros Hm Hc. destruct (entries m !! name) as [v|] eqn:E; [|done].
  by rewrite (metadata_name_plain _ _ _ Hm E) in Hc.
Qed.

(** ** The headers of a published message *)

(** What an outbound message of the library is *)
Record outbound_ok {A} `{PA : PublishableAddress A} `{CA : !ConsumableAddress A} (m : OutboundMessage A) : Prop := {
  oo_address : parse_nats (pa_as_str (om_address m)) = Ok (om_address m);
  oo_message_id : identifier_ok (om_message_id m);
  oo_payload : len (om_payload m) <= MAX_MESSAGE_PAYLOAD_BYTES;
  oo_metadata : metadata_ok (om_metadata m);
  oo_correlation : ∀ c, om_correlation_id m = Some c → identifier_ok c;
  oo_trace : ∀ t, om_trace_context m = Some t → TraceContext_from_parts (trace_parent t) (trace_state t) = Ok t;
}.

Section Message.
Context {A : Type} `{PA : PublishableAddress A} `{CA : !ConsumableAddress A}.

(** The headers [publish_with_ack] sends *)
Definition sent_headers (m : OutboundMessage A) (stream : StreamName) : HeaderMap :=
  wm_headers (confirmed_message (pa_as_str (om_address m)) (om_payload m) (id_str (om_message_id m)) stream
    (insert_some CORRELATION_ID_HEADER (id_str <$> om_correlation_id m)
       (safe_headers (om_metadata m) (om_trace_context m)))).

Lemma sent_header m stream name :
  starts_with "nats-" (to_ascii_lowercase name) = false →
  headers_get_all (sent_headers m stream) name
  = if decide (CONTENT_TYPE_HEADER = name) then [JSON_CONTENT_TYPE]
    else match (if decide (CORRELATION_ID_HEADER = name) then id_str <$> om_correlation_id m else None) with
         | Some v => [v]
         | None => headers_get_all (safe_headers (om_metadata m) (om_trace_context m)) name
         end.
Proof.
  intros Hn. unfold sent_headers, confirmed_message. cbn [wm_headers].
  rewrite publish_other, get_all_insert_cases, headers_insert_some by done.
  repeat case_decide; try done; by destruct (om_correlation_id m).
Qed.

(** Headers that carry a message, whatever else the server's name space holds *)
Record carries (h : HeaderMap) (m : OutboundMessage A) : Prop := {
  ca_message_id : headers_get_all h "Nats-Msg-Id" = [id_str (om_message_id m)];
  ca_header name : starts_with "nats-" (to_ascii_lowercase name) = false →
    headers_get_all h name
    = if decide (CONTENT_TYPE_HEADER = name) then [JSON_CONTENT_TYPE]
      else match (if decide (CORRELATION_ID_HEADER = name) then id_str <$> om_correlation_id m else None) with
           | Some v => [v]
           | None => headers_get_all (safe_headers (om_metadata m) (om_trace_context m)) name
           end;
}.

Lemma sent_entries m h :
  metadata_ok (om_metadata m) → carries h m →
  filter (λ e, is_control_header e.1 = false) (headers_iter h)
  ≡ₚ (λ e, (e.1, [e.2])) <$> map_to_list (entries (om_metadata m)).
Proof.
  intros Hm Hh. apply NoDup_Permutation.
  - apply NoDup_filter. eapply NoDup_fmap_1, headers_iter_names.
  - apply NoDup_fmap_2; [|apply NoDup_map_to_list]. by intros [] [] [= -> ->].
  - intros [name values]. rewrite list_elem_of_filter, headers_iter_values, list_elem_of_fmap. cbn [fst].
    assert (is_control_header name = false → headers_get_all h name
      = match entries (om_metadata m) !! name with Some v => [v] | None => [] end) as Hget.
    { intros Hc. rewrite (ca_header _ _ Hh).
      - rewrite safe_headers_get. repeat case_decide; subst; try by vm_compute in Hc.
      - unfold is_control_header in Hc. rewrite !orb_false_iff in Hc. tauto. }
    split.
    + intros (Hc & <- & Hne). rewrite Hget in * by done.
      destruct (entries (om_metadata m) !! name) as [v|] eqn:E; [|done].
      exists (name, v). by rewrite elem_of_map_to_list.
    + intros ([k v] & [= -> ->] & Hk%elem_of_map_to_list). cbn [fst snd] in *.
      pose proof (metadata_name_plain _ _ _ Hm Hk) as Hc. rewrite Hget, Hk by done. done.
Qed.

(** Control headers are skipped, the others inserted. *)
Lemma caller_headers_fold l m0 l' :
  filter (λ e, is_control_header e.1 = false) l = (λ e, (e.1, [e.2])) <$> l' →
  ∀ m, try_fold (λ m x, rmap snd (metadata_insert m x.1 x.2)) m0 l' = Ok m →
  try_fold add_caller_header m0 l = Ok m.
Proof.
  revert m0 l'. induction l as [|[name values] l IH]; intros m0 l' Hf m Hm; cbn [try_fold].
  - destruct l'; [by injection Hm as ->|]. by rewrite filter_nil in Hf.
  - unfold add_caller_header at 1. cbn [fst snd]. destruct (is_control_header name) eqn:Ec; cbn [rbind].
    + rewrite filter_cons_False in Hf by (cbn; congruence). by eapply IH.
    + rewrite filter_cons_True in Hf by done. destruct l' as [|[k v] l']; [done|].
      injection Hf as -> -> Hf. cbn [try_fold fst snd] in Hm. apply rbind_Ok in Hm as (m1 & Hm1 & Hm).
      rewrite Hm1. cbn [map_err rbind]. by eapply IH.
Qed.

Lemma sent_metadata m h :
  metadata_ok (om_metadata m) → carries h m → caller_metadata h = Ok (om_metadata m).
Proof.
  intros Hm Hh. pose proof (sent_entries m h Hm Hh) as Hp. unfold caller_metadata.
  assert (∃ l', l' ≡ₚ map_to_list (entries (om_metadata m))
    ∧ filter (λ e, is_control_header e.1 = false) (headers_iter h)
      = (λ e, (e.1, [e.2])) <$> l') as (l' & Hl' & Hf).
  { apply Permutation_map_inv in Hp as (l' & E & Hl'). exists l'. split; [by symmetry|done]. }
  eapply caller_headers_fold; [exact Hf|]. by apply try_fold_entries.
Qed.

Lemma single_header_Ok h name v : single_header h name = Ok v ↔ headers_get_all h name = option_list v.
Proof.
  unfold single_header. destruct (headers_get_all h name) as [|a [|b l]], v as [w|]; cbn [option_list]; naive_solver.
Qed.

Lemma sent_trace m h :
  outbound_ok m → carries h m → header_trace_context h = Ok (om_trace_context m).
Proof.
  intros [_ _ _ Hm _ Ht] Hh. unfold header_trace_context.
  assert (∀ name, name = TRACE_PARENT_HEADER ∨ name = TRACE_STATE_HEADER →
    single_header h name
    = Ok (if decide (name = TRACE_STATE_HEADER) then om_trace_context m ≫= trace_state
          else trace_parent <$> om_trace_context m)) as Hget.
  { intros name Hname. apply single_header_Ok. rewrite (ca_header _ _ Hh) by (by destruct Hname as [->| ->]).
    rewrite safe_headers_get, (metadata_control _ _ Hm) by (by destruct Hname as [->| ->]).
    destruct Hname as [->| ->]; cbn; by destruct (om_trace_context m) as [[? [|]]|]. }
  rewrite !Hget by tauto. rewrite (decide_False (P := TRACE_PARENT_HEADER = _)), decide_True by done.
  destruct (om_trace_context m) as [t|]; [|done]. cbn -[TraceContext_from_parts].
  by rewrite (Ht t eq_refl).
Qed.

Lemma carried_delivery raw h m info :
  outbound_ok m → carries h m →
  decode_delivery (mkJetStreamMessage raw (pa_as_str (om_address m)) (Some h) (om_payload m)) info (om_address m)
  = Ok (mkMessageDelivery (om_address m) (om_message_id m) (om_payload m) (om_metadata m)
          (om_correlation_id m) (om_trace_context m) info).
Proof.
  intros Ho Hh. pose proof (sent_trace m h Ho Hh) as Htrace. destruct Ho as [Ha Hid Hp Hm Hc Ht].
  unfold decode_delivery. cbn [jm_headers jm_subject jm_payload ok_or rbind].
  assert (single_header h CONTENT_TYPE_HEADER = Ok (Some JSON_CONTENT_TYPE)) as ->
    by (apply single_header_Ok; by rewrite (ca_header _ _ Hh)).
  cbn [rbind]. rewrite bool_decide_eq_true_2 by done. cbn [negb].
  assert (single_header h "Nats-Msg-Id" = Ok (Some (id_str (om_message_id m)))) as ->
    by (apply single_header_Ok, Hh).
  assert (single_header h CORRELATION_ID_HEADER = Ok (id_str <$> om_correlation_id m)) as ->.
  { apply single_header_Ok. rewrite (ca_header _ _ Hh), safe_headers_get, (metadata_control _ _ Hm) by done.
    cbn. by destruct (om_correlation_id m). }
  cbn [rbind ok_or]. unfold MessageId_new. rewrite Hid. cbn [map_err rbind].
  rewrite (sent_metadata m h Hm Hh). cbn [rbind].
  assert (transpose (CorrelationId_new <$> (id_str <$> om_correlation_id m)) = Ok (om_correlation_id m)) as ->.
  { destruct (om_correlation_id m) as [c|]; [|done]. cbn. unfold CorrelationId_new. by rewrite (Hc c eq_refl). }
  cbn [map_err rbind]. rewrite Htrace, Ha. cbn [rbind]. rewrite bool_decide_eq_true_2 by done. cbn [negb].
  unfold new_with_transport_context. by rewrite (proj2 (N.ltb_ge _ _) Hp).
Qed.

(** ** Messages as a consumer receives them

    A header is a line of text, [name: value], of the NATS protocol: the client
    that reads it takes the white space around the value away, as the
    repository's own reader of stored headers does (response_storage.rs). *)
Record delivered_as (w : WireMessage) (d : JetStreamMessage) : Prop := {
  da_subject : jm_subject d = wm_subject w;
  da_payload : jm_payload d = wm_payload w;
  da_headers : ∃ h, jm_headers d = Some h
    ∧ ∀ name, headers_get_all h name = trim <$> headers_get_all (wm_headers w) name;
}.

(** The message with the white space around its header values taken away *)
Definition trim_identifier {F} (i : identifier F) : identifier F := Identifier (trim (id_str i)).
Definition trimmed (m : OutboundMessage A) : OutboundMessage A :=
  mkOutboundMessage (om_address m) (trim_identifier (om_message_id m)) (om_payload m)
    (mkCallerMetadata (trim <$> entries (om_metadata m))) (trim_identifier <$> om_correlation_id m)
    ((λ t, mkTraceContext (trim (trace_parent t)) (trim <$> trace_state t)) <$> om_trace_context m).

Lemma delivered_carries m stream h :
  (∀ name, headers_get_all h name = trim <$> headers_get_all (sent_headers m stream) name) →
  carries h (trimmed m).
Proof.
  intros Hh. split.
  - rewrite Hh. unfold sent_headers, confirmed_message. cbn [wm_headers]. by rewrite publish_message_id.
  - intros name Hn. rewrite Hh, sent_header, !safe_headers_get by done.
    unfold trimmed, trim_identifier. cbn [om_correlation_id om_metadata om_trace_context entries].
    rewrite lookup_fmap. case_decide; [by vm_compute|].
    destruct (om_correlation_id m), (om_trace_context m) as [[? []]|], (entries (om_metadata m) !! name);
      cbn -[trim]; by repeat case_decide.
Qed.

(** C18 (roundtrip). What is published is what is delivered: a message reported
    as published was sent once, and acknowledged under a sequence of its own
    stream; and every delivery of what was sent is read as that message - address,
    identity, payload, caller metadata, correlation and trace context, with the
    white space around header values taken away as the header text does - whatever
    the order and the control headers the transport adds. *)
Theorem published_message_is_delivered answer t m stream timeout sent published :
  outbound_ok (trimmed m) → publish_with_ack answer t m stream timeout = (sent, published) →
  (∀ w d info, w ∈ sent → delivered_as w d →
     decode_delivery d info (om_address m)
     = Ok (mkMessageDelivery (om_address m) (om_message_id (trimmed m)) (om_payload m) (om_metadata (trimmed m))
             (om_correlation_id (trimmed m)) (om_trace_context (trimmed m)) info))
  ∧ (∀ ack, published = Ok ack → ∃ w broker, sent = [w] ∧ answer w = Some (Ok broker)
       ∧ in_topology t (om_address m) = true
       ∧ ba_stream broker = stream_name_str stream ∧ 0 < ba_sequence broker
       ∧ ack = mkNatsPublishAck stream (ba_sequence broker) (ba_duplicate broker)).
Proof.
  intros Ho. unfold publish_with_ack, publish_confirmed.
  destruct (in_topology t (om_address m)); cbn [negb]; [|intros [= <- <-]; split; [by intros ? ? ? ?%elem_of_nil|done]].
  destruct (timeout =? 0); intros [= <- <-]; [split; [by intros ? ? ? ?%elem_of_nil|done]|]. split.
  - intros w d info ->%list_elem_of_singleton [Hs Hp (h & Hj & Hh)].
    destruct d as [raw subject hs payload]. cbn in Hs, Hp, Hj. subst.
    apply (carried_delivery raw h (trimmed m) info Ho). by eapply delivered_carries.
  - intros ack H. apply rbind_Ok in H as (answered & Ha%ok_or_Ok & H).
    apply rbind_Ok in H as (broker & Hb%map_err_Ok & H). subst answered.
    destruct (_ || _) eqn:E in H; [done|]. apply orb_false_iff in E as [Es%negb_false_iff%String.eqb_eq En%N.eqb_neq].
    injection H as <-. eexists _, broker. split_and!; try done. lia.
Qed.
End Message.
End Facts.

(** * A delivered message is accounted for before it is settled. *)

Section Settlement.
Context `{SHA : Sha256} `{B64 : Base64} `{QJ : Json QuarantineRecordWire}.
Context `{HM : HeaderMapApi} `{HI : !HeaderMapIter} `{PM : !PublishMessageApi} `{PC : PublishErrorCodes}.
Context {A : Type} `{PA : PublishableAddress A} `{CA : !ConsumableAddress A}.

Implicit Types (answers : ConsumeAnswers) (c : NatsMessageConsumer A) (message : JetStreamMessage).

(** ** What a run settles *)

(** Nothing is settled, or one thing is, last; a run that succeeds settled
    the message and the server took it. *)
Definition settles_once answers (steps : list ConsumeStep) (ended : result unit ConsumeErrorKind) : Prop :=
  ∃ before last, steps = before ++ last ∧ (∀ kind, Settled kind ∉ before)
    ∧ (last = [] ∧ ended ≠ Ok tt
       ∨ ∃ kind, last = [Settled kind] ∧ (ended = Ok tt → ca_settled answers kind = true)).

Lemma apply_ack_once answers kind steps ended :
  apply_ack answers kind = (steps, ended) → settles_once answers steps ended.
Proof.
  intros [= <- <-]. exists [], [Settled kind]. split_and!; [done|by intros ? ?%elem_of_nil|].
  right. exists kind. split; [done|]. by destruct (ca_settled answers kind).
Qed.

Lemma settles_once_prefix answers before steps ended :
  (∀ kind, Settled kind ∉ before) → settles_once answers steps ended →
  settles_once answers (before ++ steps) ended.
Proof.
  intros Hb (b & l & -> & Hs & Hl). exists (before ++ b), l. split_and!; [by rewrite app_assoc| |done].
  intros kind [?|?]%elem_of_app; [by eapply Hb|by eapply Hs].
Qed.

Lemma sent_not_settled (sent : list WireMessage) kind : Settled kind ∉ (QuarantineSent <$> sent).
Proof. by intros (w & ? & _)%list_elem_of_fmap. Qed.

(** ** Quarantine publications *)

(** [record] stands for the message delivered as [raw] *)
Definition records_message c message raw (record : QuarantineRecord) : Prop :=
  qrec_address record = jm_subject message
  ∧ qrec_payload_base64 record = base64_encode (jm_payload message)
  ∧ qrec_payload_sha256 record = Some (sha256_hex (jm_payload message))
  ∧ qrec_source_stream record = stream_name_str (ncs_source_stream c)
  ∧ qrec_source_consumer record = delivery_str (cc_durable_name (ncs_config c))
  ∧ qrec_source_sequence record = ri_stream_sequence raw
  ∧ qrec_attempt record = Z.to_N (ri_delivered raw).

(** The quarantine stream stored the record [w] carries *)
Definition quarantine_stored answers c (record : QuarantineRecord) (w : WireMessage) : Prop :=
  encode_quarantine_record record = Ok (wm_payload w)
  ∧ quarantine_subject (qrec_address record) = Ok (wm_subject w)
  ∧ headers_get_all (wm_headers w) "Nats-Msg-Id" = [quarantine_message_id record]
  ∧ ∃ broker, ca_quarantine answers w = Some (Ok broker)
      ∧ ba_stream broker = stream_name_str (ncs_quarantine_stream c) ∧ 0 < ba_sequence broker.

Lemma publish_quarantine_stored answers c timeout record sent ack :
  publish_quarantine (ca_quarantine answers) (ncs_quarantine_stream c) timeout record = (sent, Ok ack) →
  ∃ w, sent = [w] ∧ quarantine_stored answers c record w.
Proof.
  unfold publish_quarantine.
  destruct (encode_quarantine_record record) as [payload|] eqn:Ep; [|done]. cbn [rbind].
  destruct (quarantine_subject (qrec_address record)) as [subject|] eqn:Es; [|done]. cbn [rbind].
  unfold publish_confirmed. destruct (timeout =? 0); [done|]. intros [= <- H]. eexists. split; [done|].
  split_and!; [done..|apply publish_message_id|].
  apply rbind_Ok in H as (answered & Ha%ok_or_Ok & H). apply rbind_Ok in H as (broker & Hb%map_err_Ok & H).
  subst answered. exists broker. split; [done|].
  destruct (_ || _) eqn:E in H; [done|]. apply orb_false_iff in E as [Hs%negb_false_iff%String.eqb_eq Hn%N.eqb_neq].
  split; [done|lia].
Qed.

Lemma quarantine_or_nak_spec answers c record attempt maximum steps ended :
  quarantine_or_nak answers (ncs_quarantine_stream c) (ncs_quarantine_publish_timeout c) record attempt maximum
    = (steps, ended) →
  settles_once answers steps ended
  ∧ Settled AckAck ∉ steps
  ∧ (Settled AckTerm ∈ steps → ∃ w, QuarantineSent w ∈ steps ∧ quarantine_stored answers c record w)
  ∧ (∀ delay, Settled (AckNak delay) ∈ steps → attempt < maximum).
Proof.
  unfold quarantine_or_nak. destruct (publish_quarantine _ _ _ _) as [sent published] eqn:E.
  destruct published as [ack|error].
  - intros [= <- <-]. split.
    { apply settles_once_prefix; [apply sent_not_settled|by eapply apply_ack_once]. }
    apply publish_quarantine_stored in E as (w & -> & Hw). split_and!; cbn.
    + rewrite !elem_of_cons, elem_of_nil. intros [?|[?|[]]]; done.
    + intros _. exists w. split; [by left|done].
    + intros delay. rewrite !elem_of_cons, elem_of_nil. intros [?|[?|[]]]; done.
  - unfold quarantine_retry_available. destruct (attempt <? maximum) eqn:Ea; intros [= <- <-].
    + split.
      { apply settles_once_prefix; [apply sent_not_settled|by eapply apply_ack_once]. }
      split_and!; [| |intros; lia]; rewrite elem_of_app, list_elem_of_singleton;
        (intros [H|H]; [by apply sent_not_settled in H|done]).
    + rewrite app_nil_r. split; [|split_and!; [apply sent_not_settled|by intros ?%sent_not_settled|by intros ? ?%sent_not_settled]].
      exists (QuarantineSent <$> sent), []. split_and!; [by rewrite app_nil_r|apply sent_not_settled|by left].
Qed.

(** ** Decoded deliveries *)

Lemma decode_delivery_Ok message info expected delivery :
  decode_delivery message info expected = Ok delivery →
  md_address delivery = expected ∧ md_payload delivery = jm_payload message ∧ md_info delivery = info.
Proof.
  unfold decode_delivery. intros H.
  apply rbind_Ok in H as (h & _ & H). apply rbind_Ok in H as (ct & _ & H).
  destruct (bool_decide (ct = _)); [|done]. cbn [negb] in H.
  apply rbind_Ok in H as (id & _ & H). apply rbind_Ok in H as (id' & _ & H). apply rbind_Ok in H as (mid & _ & H).
  apply rbind_Ok in H as (meta & _ & H). apply rbind_Ok in H as (co & _ & H). apply rbind_Ok in H as (cid & _ & H).
  apply rbind_Ok in H as (tr & _ & H). apply rbind_Ok in H as (address & _ & H).
  destruct (bool_decide (address = expected)) eqn:Ea; [|done]. apply bool_decide_eq_true in Ea as ->.
  cbn [negb] in H. apply map_err_Ok in H. unfold new_with_transport_context in H.
  destruct (_ <? _); [done|]. injection H as <-. done.
Qed.

Lemma DeliveryInfo_new_Ok attempt pending source consumer info :
  DeliveryInfo_new attempt pending source consumer = Ok info →
  info = mkDeliveryInfo attempt pending source consumer ∧ 0 < attempt.
Proof.
  unfold DeliveryInfo_new. destruct (attempt =? 0) eqn:E; [done|]. destruct (_ || _); [done|].
  intros [= <-]. split; [done|lia].
Qed.

(** ** Handling *)

(** The handling [answers] describe ran the handler to its end, in time *)
Definition handled_in_time {S} (handling : HandlingAnswers S) (handler : Handles (A := A) S) delivery (s s' : S)
    (disposition : DeliveryDisposition) : Prop :=
  ha_started _ handling = true ∧ Forall (eq None) (ha_progress _ handling)
  ∧ ha_elapsed _ handling = None ∧ ha_finished _ handling = true ∧ handler s delivery = (s', disposition).

Lemma progress_signals_spec signals steps failed :
  progress_signals signals = (steps, failed) →
  Forall (eq Progressed) steps ∧ (failed = None → Forall (eq None) signals).
Proof.
  revert steps failed. induction signals as [|[e|] signals IH]; intros steps failed; cbn.
  - intros [= <- <-]. by split.
  - intros [= <- <-]. split; [by repeat constructor|done].
  - destruct (progress_signals signals) as [steps' failed'] eqn:E. intros [= <- <-].
    destruct (IH _ _ eq_refl) as [? ?]. split; [by constructor|]. intros. constructor; auto.
Qed.

Lemma handle_with_progress_spec {S} (handling : HandlingAnswers S) (handler : Handles (A := A) S) delivery (s s' : S)
    steps handled :
  handle_with_progress handling handler delivery s = (s', steps, handled) →
  Forall (eq Progressed) steps
  ∧ (∀ disposition, handled = Ok (Some disposition) → handled_in_time handling handler delivery s s' disposition).
Proof.
  unfold handle_with_progress. destruct (ha_started _ handling) eqn:Es; cbn [negb].
  2: { intros [= <- <- <-]. split; [by repeat constructor|done]. }
  destruct (progress_signals (ha_progress _ handling)) as [signals failed] eqn:Ep.
  apply progress_signals_spec in Ep as [Hp Hf]. destruct failed as [e|].
  { intros [= <- <- <-]. split; [by constructor|done]. }
  destruct (ha_elapsed _ handling) as [se|] eqn:Ee.
  - intros [= <- <- <-]. split; [constructor; [done|apply Forall_app; split; [done|by repeat constructor]]|].
    intros d. by destruct (ha_finished _ handling).
  - destruct (handler s delivery) as [sh d] eqn:Eh.
    intros [= <- <- <-]. split; [constructor; [done|apply Forall_app; split; [done|by repeat constructor]]|].
    intros d'. destruct (ha_finished _ handling) eqn:Efi; [|done]. intros [= <-]. split_and!; auto.
Qed.

Lemma progressed_not_settled steps kind : Forall (eq Progressed) steps → Settled kind ∉ steps.
Proof. intros H Hin. by pose proof (proj1 (Forall_forall _ _) H _ Hin). Qed.

(** ** Settlement *)

Lemma quarantine_record_records c message raw info delivery reason kind :
  jm_subject message = pa_as_str (cc_address (ncs_config c)) →
  info = mkDeliveryInfo (Z.to_N (ri_delivered raw)) (ri_pending raw) (ri_stream_sequence raw) (ri_consumer_sequence raw) →
  decode_delivery message info (cc_address (ncs_config c)) = Ok delivery →
  records_message c message raw
    (quarantine_record delivery (ncs_source_stream c) (delivery_str (cc_durable_name (ncs_config c))) reason kind).
Proof.
  intros Hs Hi (Ha & Hp & Hinfo)%decode_delivery_Ok. unfold records_message, quarantine_record. cbn.
  rewrite Ha, Hp, Hinfo, Hi, Hs. done.
Qed.

Lemma apply_disposition_spec answers c delivery disposition steps ended :
  apply_disposition answers c delivery disposition = (steps, ended) →
  settles_once answers steps ended
  ∧ (Settled AckAck ∈ steps → disposition = Some Acknowledge)
  ∧ (Settled AckTerm ∈ steps → disposition = Some Terminate
     ∨ ∃ reason kind w, QuarantineSent w ∈ steps
        ∧ quarantine_stored answers c
            (quarantine_record delivery (ncs_source_stream c) (delivery_str (cc_durable_name (ncs_config c))) reason kind) w)
  ∧ (∀ delay, Settled (AckNak delay) ∈ steps →
       di_attempt (md_info delivery) < cc_maximum_delivery_attempts (ncs_config c)).
Proof.
  assert (∀ kind steps ended, apply_ack answers kind = (steps, ended) →
    settles_once answers steps ended ∧ ∀ k, Settled k ∈ steps → k = kind) as Hack.
  { intros kind st en H. split; [by eapply apply_ack_once|]. injection H as <- <-.
    by intros k [= ->]%list_elem_of_singleton. }
  assert (∀ reason kind steps ended, quarantine_or_nak answers (ncs_quarantine_stream c)
      (ncs_quarantine_publish_timeout c)
      (quarantine_record delivery (ncs_source_stream c) (delivery_str (cc_durable_name (ncs_config c))) reason kind)
      (di_attempt (md_info delivery)) (cc_maximum_delivery_attempts (ncs_config c)) = (steps, ended) → _) as Hq
    by (intros reason kind st en; apply quarantine_or_nak_spec).
  unfold apply_disposition. destruct disposition as [[|delay|reason|]|].
  1,4: intros [Hs Hk]%Hack; split; [done|]; split_and!; [by intros ?%Hk|by intros ?%Hk; auto|by intros ? ?%Hk].
  all: try destruct (_ <? _) eqn:Ea.
  1,4: intros [Hs Hk]%Hack; split; [done|]; split_and!; [by intros ?%Hk|by intros ?%Hk|intros; lia].
  all: intros (Hs & Hna & Ht & Hn)%Hq; split; [done|]; split_and!; [by intros ?%Hna| |exact Hn].
  all: intros (w & Hw & Hst)%Ht; right; eexists _, _, w; by split.
Qed.

(** The consumer's own message: of its stream, its durable name and its address *)
Definition own_message c message raw : Prop :=
  ri_stream raw = stream_name_str (ncs_source_stream c)
  ∧ ri_consumer raw = delivery_str (cc_durable_name (ncs_config c))
  ∧ jm_subject message = pa_as_str (cc_address (ncs_config c)).

(** What a settlement of the message delivered as [raw] rests on *)
Definition accounted {S} answers (handling : HandlingAnswers S) c (handler : Handles (A := A) S) message (s s' : S)
    (steps : list ConsumeStep) (raw : RawDeliveryInfo) : Prop :=
  (Settled AckAck ∈ steps → ∃ info delivery,
     decode_delivery message info (cc_address (ncs_config c)) = Ok delivery
     ∧ handled_in_time handling handler delivery s s' Acknowledge)
  ∧ (Settled AckTerm ∈ steps →
       (∃ info delivery, decode_delivery message info (cc_address (ncs_config c)) = Ok delivery
          ∧ handled_in_time handling handler delivery s s' Terminate)
       ∨ ∃ record w, records_message c message raw record ∧ QuarantineSent w ∈ steps
          ∧ quarantine_stored answers c record w)
  ∧ (∀ delay, Settled (AckNak delay) ∈ steps → own_message c message raw →
       Z.to_N (ri_delivered raw) < cc_maximum_delivery_attempts (ncs_config c))
  ∧ (s' = s ∨ Z.to_N (ri_delivered raw) <= cc_maximum_delivery_attempts (ncs_config c)).

Lemma quarantined_accounted {S} answers (handling : HandlingAnswers S) c (handler : Handles (A := A) S) message (s : S)
    raw record steps ended :
  records_message c message raw record →
  quarantine_or_nak answers (ncs_quarantine_stream c) (ncs_quarantine_publish_timeout c) record
    (Z.to_N (ri_delivered raw)) (cc_maximum_delivery_attempts (ncs_config c)) = (steps, ended) →
  settles_once answers steps ended ∧ accounted answers handling c handler message s s steps raw.
Proof.
  intros Hr (Hs & Hna & Ht & Hn)%quarantine_or_nak_spec. split; [done|]. split_and!.
  - by intros ?%Hna.
  - intros (w & Hw & Hst)%Ht. right. by exists record, w.
  - intros delay Hd _. by apply (Hn delay).
  - by left.
Qed.

Lemma handled_accounted {S} answers (handling : HandlingAnswers S) c (handler : Handles (A := A) S) message
    (s s' : S) raw info delivery handled steps :
  own_message c message raw →
  info = mkDeliveryInfo (Z.to_N (ri_delivered raw)) (ri_pending raw) (ri_stream_sequence raw) (ri_consumer_sequence raw) →
  decode_delivery message info (cc_address (ncs_config c)) = Ok delivery →
  Z.to_N (ri_delivered raw) <= cc_maximum_delivery_attempts (ncs_config c) →
  handle_with_progress handling handler delivery s = (s', steps, handled) →
  match handled with
  | Err error => settles_once answers steps (Err error) ∧ accounted answers handling c handler message s s' steps raw
  | Ok disposition => ∀ settling ended, apply_disposition answers c delivery disposition = (settling, ended) →
      settles_once answers (steps ++ settling) ended
      ∧ accounted answers handling c handler message s s' (steps ++ settling) raw
  end.
Proof.
  intros (_ & _ & Hsub) Hi Hd Hmax (Hp & Hh)%handle_with_progress_spec.
  pose proof (λ kind, progressed_not_settled steps kind Hp) as Hno.
  destruct handled as [disposition|error].
  - intros settling ended (Hs & Ha & Ht & Hn)%apply_disposition_spec.
    assert (∀ kind, Settled kind ∈ steps ++ settling → Settled kind ∈ settling) as Hin
      by (intros kind [?%Hno|?]%elem_of_app; done).
    split; [by apply settles_once_prefix|]. split_and!; [| | |by right].
    + intros ?%Hin%Ha. subst disposition. eauto.
    + intros [->|(reason & kind & w & Hw & Hst)]%Hin%Ht; [left; eauto|right].
      exists (quarantine_record delivery (ncs_source_stream c) (delivery_str (cc_durable_name (ncs_config c))) reason kind), w.
      split_and!; [by eapply quarantine_record_records|by apply elem_of_app; right|done].
    + intros delay Hk%Hin%Hn _. apply decode_delivery_Ok in Hd as (_ & _ & Hinfo).
      by rewrite Hinfo, Hi in Hk.
  - split; [exists steps, []; split_and!; [by rewrite app_nil_r|done|by left]|].
    split_and!; [by intros ?%Hno|by intros ?%Hno|by intros ? ?%Hno|by right].
Qed.

(** C17 (safety). No message is lost on its way through a consumer. A run settles
    its message at most once, as its last act, and succeeds only if the server
    took the settlement; it acknowledges the message only when the handler read
    it, finished in time and acknowledged it; it terminates the message only when
    the handler said so or the quarantine stream acknowledged a record that carries
    this message's payload, digest and position; and it never asks for its own
    message again once the attempts allowed are used up. *)
Theorem settled_message_is_accounted_for {S} answers (handling : HandlingAnswers S) c
    (handler : Handles (A := A) S) message (s s' : S) steps ended :
  process_message answers handling c handler message s = (s', steps, ended) →
  settles_once answers steps ended
  ∧ match jm_info message with
    | Some raw => accounted answers handling c handler message s s' steps raw
    | None => steps = []
    end.
Proof.
  assert (∀ (s : S) raw error, settles_once answers [] (Err error) ∧ accounted answers handling c handler message s s [] raw) as Hnone.
  { intros s0 raw error. split; [by exists [], []; split_and!; [done|by intros ? ?%elem_of_nil|left]|].
    split_and!; [by intros ?%elem_of_nil|by intros ?%elem_of_nil|by intros ? ?%elem_of_nil|by left]. }
  unfold process_message. destruct (jm_info message) as [raw|].
  2: { intros [= <- <- <-]. split; [|done]. exists [], []. split_and!; [done|by intros ? ?%elem_of_nil|by left]. }
  destruct (negb _ || _ || _) eqn:Eown.
  { intros [= <- <- <-]. split; [by eapply apply_ack_once|]. cbn.
    split_and!; try (rewrite list_elem_of_singleton; done); [|by left].
    intros delay _ (Hs & Hc & Hsub). by rewrite Hs, Hc, Hsub, !String.eqb_refl in Eown. }
  apply orb_false_iff in Eown as [[E1%negb_false_iff%String.eqb_eq E2%negb_false_iff%String.eqb_eq]%orb_false_iff
    E3%negb_false_iff%String.eqb_eq].
  destruct (negb (_ && _)); [intros [= <- <- <-]; apply Hnone|].
  destruct (DeliveryInfo_new _ _ _ _) as [info|] eqn:Ei; [|intros [= <- <- <-]; apply Hnone].
  apply DeliveryInfo_new_Ok in Ei as [Hi _].
  destruct (decode_delivery _ _ _) as [delivery|] eqn:Ed.
  2: { destruct (quarantine_or_nak _ _ _ _ _ _) as [st en] eqn:Eq. intros [= <- <- <-]. cbn.
       eapply quarantined_accounted; [|exact Eq]. by rewrite Hi. }
  destruct (_ <? Z.to_N _) eqn:Emax.
  { destruct (quarantine_or_nak _ _ _ _ _ _) as [st en] eqn:Eq. intros [= <- <- <-]. cbn.
    eapply quarantined_accounted; [|exact Eq]. by eapply quarantine_record_records. }
  destruct (handle_with_progress _ _ _ _) as [[s1 st] handled] eqn:Eh.
  eapply (handled_accounted answers) in Eh; [|done..|lia]. destruct handled as [disposition|error].
  - destruct (apply_disposition _ _ _ _) as [settling en] eqn:Ea. intros [= <- <- <-]. by apply Eh.
  - by intros [= <- <- <-].
Qed.
End Settlement.
