(* ===== verification/NatsRouting.v ===== *)
(** * NatsRouting: every application name has its streams, and every message is
    stored in exactly one of them. *)

From Stdlib Require Import ZifyBool.
From S2P Require Export NatsConsumer.

(** ** Stream names *)

(** The bytes of a stream name of the library *)
Definition is_stream_byte (c : N) : bool := (65 <=? c) && (c <=? 90) || is_digit c || (c =? 95).

Lemma stream_token_bytes s :
  bytes_all is_kebab s = true →
  bytes_all is_stream_byte (stream_token s) = true ∧ str_len (stream_token s) = str_len s.
Proof.
  intros H. split.
  - unfold bytes_all. rewrite stream_token_codes by done. unfold bytes_all in H.
    revert H. induction (str_codes s) as [|c l IH]; [done|]. cbn. rewrite !andb_true_iff. intros [Hc Hl].
    split; [|by apply IH]. revert Hc. unfold is_kebab, is_stream_byte, token_byte, is_lower, is_digit.
    intros Hc. repeat case_match; lia.
  - unfold str_len. rewrite <- !length_str_codes, stream_token_codes by done. by rewrite length_map.
Qed.

Lemma StreamName_new_bytes s :
  s ≠ "" → str_len s <= MAX_STREAM_NAME_BYTES → bytes_all is_stream_byte s = true →
  StreamName_new s = Ok (mkStreamName s).
Proof.
  intros Hn Hl Hb. unfold StreamName_new.
  rewrite (proj2 (String.eqb_neq _ _)) by done. rewrite (proj2 (N.ltb_ge _ _)) by done.
  assert (is_ascii s = true) as ->.
  { eapply bytes_all_impl; [|exact Hb]. unfold is_stream_byte, is_ascii_byte, is_digit. intros. lia. }
  erewrite (bytes_all_impl _ _ s); [done| |exact Hb].
  unfold is_stream_byte, is_digit, is_ascii_whitespace, is_ascii_control. intros. lia.
Qed.

Section Routing.
Variable application : ApplicationName.
Hypothesis valid : scope_name (application_str application) = true.
Implicit Types t : TrafficScope.

Let app : string := application_str application.

Lemma app_clean : app ≠ "" ∧ contains ">" app = false ∧ contains "*" app = false.
Proof.
  pose proof (scope_name_kebab _ valid) as Hk. split_and!;
    [intros E; fold app in valid; by rewrite E in valid|by apply (bytes_all_not_contains is_kebab)..].
Qed.

Lemma application_stream_name t suffix :
  str_len suffix <= 100 → bytes_all is_stream_byte suffix = true →
  StreamName_new (traffic_stream_prefix app t +:+ suffix) = Ok (mkStreamName (traffic_stream_prefix app t +:+ suffix)).
Proof.
  intros Hl Hb. pose proof (scope_name_len _ valid) as Ha.
  destruct (stream_token_bytes app (scope_name_kebab _ valid)) as [Htb Htl]. fold app in Ha.
  apply StreamName_new_bytes.
  - intros E. apply (f_equal str_len) in E. revert E. unfold traffic_stream_prefix.
    destruct app_clean as (Hn & _). rewrite <- str_len_0 in Hn.
    destruct t; rewrite !str_len_app, Htl; change (str_len "") with 0; lia.
  - unfold traffic_stream_prefix, MAX_STREAM_NAME_BYTES. destruct t; rewrite !str_len_app, Htl; [lia|].
    change (str_len "__TEST") with 6. lia.
  - unfold traffic_stream_prefix. destruct t; by rewrite !bytes_all_app, Htb, Hb.
Qed.

(** ** Subjects *)

(** The segments of the subjects of a kind *)
Definition kind_segments t (kind : string) : list string :=
  match t with Normal => [app; kind] | Test => [app; "test"; kind] end.
Definition kind_prefix t (kind : string) : string := traffic_subject_prefix app t +:+ "." +:+ kind.

Lemma split_kind_prefix t kind rest :
  no_match "." kind = true →
  split "." (kind_prefix t kind +:+ "." +:+ rest) = kind_segments t kind ++ split "." rest.
Proof.
  intros Hk. unfold kind_prefix, traffic_subject_prefix.
  destruct t; cbn [subject_segment]; rewrite !str_app_assoc;
    repeat (rewrite split_segment; [|done|by auto with scope]); done.
Qed.

(** The kinds of subjects the streams store *)
Definition stream_kinds : list string := ["command"; "command-response"; "integration"; "quarantine"].

Lemma application_filter t kind :
  kind ∈ stream_kinds →
  application_subject_filter application t kind = Ok (mkSubjectFilter (kind_prefix t kind +:+ ".>")).
Proof.
  intros Hk. unfold application_subject_filter, SubjectFilter_new. fold app.
  change (_ +:+ "." +:+ kind +:+ ".>") with (traffic_subject_prefix app t +:+ "." +:+ kind +:+ ".>").
  assert (traffic_subject_prefix app t +:+ "." +:+ kind +:+ ".>" = kind_prefix t kind +:+ "." +:+ ">") as ->
    by (unfold kind_prefix; by rewrite !str_app_assoc).
  change ".>" with ("." +:+ ">").
  set (value := kind_prefix t kind +:+ "." +:+ ">").
  destruct app_clean as (Hn & Hgt & Hst). pose proof (scope_name_len _ valid) as Ha. fold app in Ha.
  pose proof (scope_name_kebab _ valid) as Hkb. fold app in Hkb.
  set (ok := λ c, is_kebab c || (c =? 46) || (c =? 62)).
  assert (bytes_all ok app = true) as Hok
    by (eapply bytes_all_impl; [|exact Hkb]; unfold ok; by intros c ->).
  assert (bytes_all ok value = true ∧ str_len value <= 100 ∧ str_len value ≠ 0
          ∧ split "." value = kind_segments t kind ++ [">"]) as (Hb & Hl & Hz & Hs).
  { split_and!; [| | |apply split_kind_prefix];
      unfold value, kind_prefix, traffic_subject_prefix, stream_kinds in *;
      repeat (apply elem_of_cons in Hk as [->|Hk]); try (by apply elem_of_nil in Hk); try done;
      destruct t; cbn [subject_segment]; rewrite ?bytes_all_app, ?Hok; try done;
      unfold str_len in *; rewrite !length_str_app; cbn [String.length]; lia. }
  rewrite (proj2 (String.eqb_neq _ _)) by (intros E; by rewrite E in Hz).
  rewrite (proj2 (N.ltb_ge _ _)) by (unfold MAX_SUBJECT_FILTER_BYTES; lia).
  assert (is_ascii value = true) as ->.
  { eapply bytes_all_impl; [|exact Hb]. unfold ok, is_kebab, is_lower, is_digit, is_ascii_byte. intros; lia. }
  erewrite (bytes_all_impl _ _ value); [|..|exact Hb].
  2: { unfold ok, is_kebab, is_lower, is_digit, is_ascii_whitespace, is_ascii_control. intros; lia. }
  cbn [orb negb]. rewrite Hs.
  assert (String.eqb app "" = false ∧ String.eqb app ">" = false ∧ String.eqb app "*" = false) as (E1 & E2 & E3).
  { split_and!; apply String.eqb_neq; [done|intros E; by rewrite E in Hgt|intros E; by rewrite E in Hst]. }
  unfold stream_kinds in Hk.
  repeat (apply elem_of_cons in Hk as [->|Hk]); try (by apply elem_of_nil in Hk);
    destruct t; cbn; by rewrite ?E1, ?E2, ?E3, ?Hgt, ?Hst.
Qed.

(** ** The streams of the application *)

Definition kind_stream_name t (suffix : string) : StreamName :=
  mkStreamName (traffic_stream_prefix app t +:+ suffix).
Definition kind_filter t (kind : string) : SubjectFilter := mkSubjectFilter (kind_prefix t kind +:+ ".>").
Definition application_topology t : MessagingTopology :=
  mkTopology application t (kind_stream_name t "_COMMANDS") (kind_stream_name t "_COMMAND_RESPONSES")
    (kind_stream_name t "_INTEGRATION_EVENTS") (kind_stream_name t "_QUARANTINE").

Lemma suffix_inj t a b : a ≠ b → kind_stream_name t a ≠ kind_stream_name t b.
Proof. intros Hne [= E%str_app_inv_head]. done. Qed.

Lemma for_application_value t : for_application_in_scope application t = Ok (application_topology t).
Proof.
  unfold for_application_in_scope. fold app.
  rewrite !application_stream_name by (by vm_compute || done). cbn [rbind].
  unfold new_with_command_response_stream_in_scope.
  by rewrite !bool_decide_eq_false_2 by by apply suffix_inj.
Qed.

Lemma application_stream_value t name kind retention :
  kind ∈ stream_kinds →
  application_stream application t name kind retention
  = Ok (mkProvisioning application t name [kind_filter t kind] None retention StoreFile
          DEFAULT_STREAM_MAX_BYTES DEFAULT_STREAM_MAX_AGE DEFAULT_STREAM_MAX_MESSAGE_BYTES
          DEFAULT_DUPLICATE_WINDOW 1).
Proof.
  intros Hk. unfold application_stream. rewrite application_filter by done. cbn [rbind].
  unfold provisioning_new_in_scope, provisioning_validate, subjects_belong_to_scope.
  cbn [spc_subjects spc_application spc_traffic_scope forallb]. unfold subject_in_scope at 1. cbn [filter_str].
  change (kind_prefix t kind +:+ ".>") with (kind_prefix t kind +:+ "." +:+ ">").
  assert (no_match "." kind = true) as Hd
    by (unfold stream_kinds in Hk; repeat (apply elem_of_cons in Hk as [->|Hk]); try done; by apply elem_of_nil in Hk).
  rewrite split_kind_prefix by done. unfold stream_kinds in Hk. fold app.
  repeat (apply elem_of_cons in Hk as [->|Hk]); try (by apply elem_of_nil in Hk);
    destruct t; cbn [kind_segments next head tail hd_error tl List.app]; rewrite bool_decide_eq_true_2 by done;
    by vm_compute.
Qed.

Lemma messaging_new_value t :
  ∃ c, messaging_new_in_scope application t = Ok c
  ∧ amc_topology c = application_topology t
  ∧ (λ stream, (spc_name stream, spc_subjects stream)) <$> messaging_streams c
    = (λ ks, (kind_stream_name t ks.2, [kind_filter t ks.1])) <$>
        [("command", "_COMMANDS"); ("command-response", "_COMMAND_RESPONSES");
         ("integration", "_INTEGRATION_EVENTS"); ("quarantine", "_QUARANTINE")].
Proof.
  unfold messaging_new_in_scope. rewrite for_application_value. cbn [rbind].
  change (ok_or (Z.of_N <$> try_from _ _) _) with (@Ok Z NatsError 1114112%Z). cbn [rbind].
  rewrite !application_stream_value by (unfold stream_kinds; set_solver). cbn [rbind]. by eexists.
Qed.
End Routing.

(** ** Subject matching *)

(** What the server does with a filter that ends in the tail wildcard *)
Class SubjectMatching := {
  subject_matches : string → string → bool;
  subject_matches_tail prefix subject :
    contains "*" prefix = false → contains ">" prefix = false →
    Forall (λ token, token ≠ "") (split "." subject) →
    subject_matches (prefix +:+ ".>") subject = true ↔ ∃ rest, subject = prefix +:+ "." +:+ rest;
}.

Lemma concat_cons_app p x l : l ≠ [] → String.concat p (x :: l) = x +:+ p +:+ String.concat p l.
Proof. by destruct l. Qed.

Lemma scope_name_nonempty s : scope_name s = true → s ≠ "".
Proof. intros H ->. done. Qed.

Section Matching.
Context `{SM : SubjectMatching}.
Implicit Types (t : TrafficScope) (stream : StreamProvisioningConfig).

(** Whether a stream stores the messages of a subject *)
Definition stream_stores stream (subject : string) : bool :=
  existsb (λ filter, subject_matches (filter_str filter) subject) (spc_subjects stream).

Lemma kind_filter_matches app t kind subject segments :
  scope_name (application_str app) = true → kind ∈ stream_kinds →
  split "." subject = segments → Forall (λ token, token ≠ "") segments →
  subject_matches (filter_str (kind_filter app t kind)) subject = true
  ↔ ∃ rest, rest ≠ [] ∧ segments = kind_segments app t kind ++ rest.
Proof.
  intros Ha Hk Hs Hf. unfold kind_filter. cbn [filter_str].
  assert (no_match "." kind = true ∧ contains "*" kind = false ∧ contains ">" kind = false
          ∧ bytes_all is_address_byte kind = true) as (Hd & Hst & Hgt & Hb).
  { unfold stream_kinds in Hk. repeat (apply elem_of_cons in Hk as [->|Hk]); try done. by apply elem_of_nil in Hk. }
  assert (bytes_all is_address_byte (application_str app) = true) as Hba.
  { eapply bytes_all_impl; [|by apply scope_name_kebab]. unfold is_address_byte. by intros x ->. }
  destruct (address_bytes_clean (kind_prefix app t kind)) as (H1 & H2 & _).
  { unfold kind_prefix, traffic_subject_prefix. destruct t; cbn [subject_segment]; by rewrite !bytes_all_app, Hba, Hb. }
  rewrite subject_matches_tail by (done || by rewrite Hs). split.
  - intros (rest & ->). rewrite split_kind_prefix in Hs by done. exists (split "." rest).
    split; [apply split_from_nonempty|done].
  - intros (rest & Hr & ->). exists (String.concat "." rest). rewrite <- (concat_split "." subject), Hs by done.
    unfold kind_prefix, traffic_subject_prefix. destruct t; cbn [kind_segments subject_segment List.app];
      rewrite !concat_cons_app by done; by rewrite !str_app_assoc.
Qed.

(** The subjects of a scope, cut into segments *)
Definition scoped_segments (application : string) t (rest : list string) : list string :=
  match t with Normal => application :: rest | Test => application :: "test" :: rest end.

Lemma scoped_segments_match app t kind application t' first rest :
  kind ≠ "test" → first ≠ "test" → rest ≠ [] →
  (∃ tail, tail ≠ [] ∧ scoped_segments application t' (first :: rest) = kind_segments app t kind ++ tail)
  ↔ application = application_str app ∧ t' = t ∧ first = kind.
Proof.
  intros Hk Hf Hr. split.
  - intros (tail & Ht & E). destruct t', t; cbn in E; naive_solver.
  - intros (-> & -> & ->). exists rest. split; [done|]. by destruct t.
Qed.

Lemma stream_stores_segments app t c stream subject application t' first rest :
  scope_name (application_str app) = true →
  messaging_new_in_scope app t = Ok c → stream ∈ messaging_streams c →
  split "." subject = scoped_segments application t' (first :: rest) →
  Forall (λ token, token ≠ "") (application :: first :: rest) → first ≠ "test" → rest ≠ [] →
  stream_stores stream subject = true
  ↔ application = application_str app ∧ t' = t
    ∧ (first, spc_name stream) ∈
        [("command", top_command (amc_topology c)); ("command-response", top_command_response (amc_topology c));
         ("integration", top_integration_event (amc_topology c)); ("quarantine", top_quarantine (amc_topology c))].
Proof.
  intros Ha Hc Hin Hs Hf Ht Hr. destruct (messaging_new_value app Ha t) as (c' & Hc' & Htop & Hst).
  rewrite Hc in Hc'. injection Hc' as <-. rewrite Htop.
  assert ((spc_name stream, spc_subjects stream)
    ∈ (λ stream, (spc_name stream, spc_subjects stream)) <$> messaging_streams c) as Hp by set_solver.
  rewrite Hst in Hp. apply list_elem_of_fmap in Hp as ([kind suffix] & [= Hname Hsub] & Hks).
  assert (∀ s, (kind_stream_name app t suffix = kind_stream_name app t s) ↔ suffix = s) as Hinj
    by (intros s; split; [intros E; destruct (decide (suffix = s)); [done|by apply suffix_inj in E]|by intros ->]).
  unfold stream_stores. rewrite Hsub. cbn [existsb]. rewrite orb_false_r, Hname.
  rewrite (kind_filter_matches app t kind subject _ Ha) by
    (done || (clear -Hks; unfold stream_kinds; set_solver) || (apply Forall_cons in Hf as [? Hf]; destruct t'; cbn [scoped_segments]; [by constructor|by do 2 (constructor; [done|])])).
  rewrite scoped_segments_match by (done || (clear -Hks; set_solver)).
  cbn [fst snd application_topology top_command top_command_response top_integration_event top_quarantine].
  rewrite !elem_of_cons, elem_of_nil, !pair_equal_spec. rewrite !Hinj.
  rewrite !elem_of_cons, elem_of_nil, !pair_equal_spec in Hks.
  destruct Hks as [[-> ->]|[[-> ->]|[[-> ->]|[[-> ->]|[]]]]]; naive_solver.
Qed.

Lemma address_text_scoped k application t context name :
  address_parts_ok application context name →
  split "." (address_text k application t context name)
  = scoped_segments application t [kind_segment k; context; name].
Proof. intros H. rewrite split_address_text by done. by destruct t. Qed.

Lemma stream_of_kind topology k name :
  (kind_segment k, name) ∈
     [("command", top_command topology); ("command-response", top_command_response topology);
      ("integration", top_integration_event topology); ("quarantine", top_quarantine topology)]
  ↔ stream_for topology k = Some name.
Proof.
  rewrite !elem_of_cons, elem_of_nil, !pair_equal_spec. destruct k; cbn [kind_segment stream_for];
    (split; [intros [[Hk Hn]|[[Hk Hn]|[[Hk Hn]|[[Hk Hn]|[]]]]]; try discriminate Hk; by rewrite Hn
            |intros [= ->]; tauto]).
Qed.

(** C19 (functional). Messages are routed by their address and nothing else. Every
    valid application name has, in each traffic scope, its four streams; each of
    them stores a message exactly when its address is of that application and
    scope and of the kind the topology assigns to the stream, so every command,
    response and integration event has one stream and a query none; and the
    quarantine records of these addresses, and only they, go to the quarantine
    stream. *)
Theorem message_is_routed_to_its_stream s app t :
  ApplicationName_new s = Ok app →
  ∃ c, messaging_new_in_scope app t = Ok c
  ∧ ∀ stream, stream ∈ messaging_streams c →
    (∀ k v (a : address k), address_parse k v = Ok a →
       stream_stores stream v = true
       ↔ address_application a = application_str app ∧ address_scope a = t
         ∧ stream_for (amc_topology c) k = Some (spc_name stream))
    ∧ (∀ v m subject, MessageAddress_parse v = Ok m → quarantine_subject v = Ok subject →
       stream_stores stream subject = true
       ↔ MessageAddress_application m = application_str app ∧ MessageAddress_traffic_scope m = t
         ∧ spc_name stream = top_quarantine (amc_topology c)).
Proof.
  intros Happ.
  assert (scope_name (application_str app) = true) as Ha.
  { unfold ApplicationName_new in Happ. apply rmap_Ok in Happ as (v & Hv & <-).
    by apply validate_scope_name_Ok in Hv as [-> ?]. }
  destruct (messaging_new_value app Ha t) as (c & Hc & Htop & _). exists c. split; [done|].
  intros stream Hin. split.
  - intros k v a Hp. unfold address_parse, parse_address in Hp.
    apply rmap_Ok in Hp as (w & (k' & Hk & Hw)%rbind_Ok & <-).
    destruct (bool_decide (k' = k)) eqn:E; [|done]. apply bool_decide_eq_true in E as ->. injection Hw as <-.
    apply parse_address_parts_inv in Hk as (application & t' & context & name & Hparts & -> & _).
    destruct (address_text_segments k application t' context name Hparts) as (E0 & E1 & _).
    destruct Hparts as (H1 & H2 & H3). unfold address_application, address_scope. cbn [addr_str]. rewrite E0, E1.
    rewrite (stream_stores_segments app t c stream _ application t' (kind_segment k) [context; name] Ha Hc Hin
      (address_text_scoped k _ _ _ _ (conj H1 (conj H2 H3)))); [|..|done]; [| |by destruct k].
    2: { repeat constructor; auto using scope_name_nonempty. by destruct k. }
    by rewrite stream_of_kind.
  - intros v m subject Hm Hq. unfold quarantine_subject in Hq. rewrite Hm in Hq. cbn [rbind map_err] in Hq. injection Hq as <-.
    unfold MessageAddress_parse in Hm. apply rbind_Ok in Hm as (k & Hk & Hm).
    apply parse_address_parts_inv in Hk as (application & t' & context & name & Hparts & -> & _).
    pose proof Hparts as (H1 & H2 & H3).
    destruct (address_text_segments k application t' context name Hparts) as (E0 & E1 & E2 & E3).
    assert (MessageAddress_application m = application ∧ MessageAddress_traffic_scope m = t'
      ∧ MessageAddress_context m = context ∧ MessageAddress_name m = name ∧ MessageAddress_kind m = k) as (-> & -> & -> & -> & ->).
    { injection Hm as <-. by destruct k; split_and!. }
    rewrite (stream_stores_segments app t c stream _ application t' "quarantine" [kind_segment k; context; name] Ha Hc Hin);
      [|..|done|done]; [rewrite !elem_of_cons, elem_of_nil, !pair_equal_spec; naive_solver| |].
    + set (record := "quarantine" +:+ "." +:+ kind_segment k +:+ "." +:+ context +:+ "." +:+ name).
      trans (split "." (match t' with
        | Normal => application +:+ "." +:+ record
        | Test => application +:+ "." +:+ "test" +:+ "." +:+ record end)); [by destruct t'|].
      destruct t'; unfold record; rewrite !split_segment, split_last by auto with scope; done.
    + repeat constructor; auto using scope_name_nonempty. by destruct k.
Qed.
End Matching.
