(* ===== verification/NatsResponseLog.v ===== *)
(** * NatsResponseLog: the responses of a command in their subject of the response
    stream, published by any number of publishers: a final response is never
    replaced. *)

From S2P Require Export NatsResponses.

Section Log.
Context `{JT : JsonText} `{VE : !ValueEq} `{SHA : Sha256} `{RSJ : !ResponseJson}.
Context `{HM : HeaderMapApi} `{PM : !PublishMessageApi} `{PC : PublishErrorCodes}.
Context `{TJ : Json DiagnosticTransitionToken} `{CEJ : JsonCodec (CommandEnvelopeWire RoutedCommandWire)}.

(** ** What is stored *)

(** The response a stored message carries *)
Definition stored_response (stored : StoredMessage) : option CommandResponse :=
  match read_command_response (stm_payload stored) with Ok response => Some response | Err _ => None end.
Definition is_diagnostic (stored : StoredMessage) : bool :=
  from_option (λ response, is_execution_failed (rsp_outcome response)) false (stored_response stored).
Definition is_final (stored : StoredMessage) : bool :=
  from_option (λ response, negb (is_execution_failed (rsp_outcome response))) false (stored_response stored).

(** The server stores a message under a sequence; it accepts one that expects a
    last sequence of its subject only over that message. *)
Definition stored_as (sequence : N) (message : WireMessage) : StoredMessage :=
  mkStoredMessage (wm_subject message) sequence (wm_headers message) (wm_payload message).
Definition last_sequence (log : list StoredMessage) : N := from_option stm_sequence 0 (last log).
Definition accepts (log : list StoredMessage) (message : WireMessage) : bool :=
  bool_decide (headers_get_all (wm_headers message) "Nats-Expected-Last-Subject-Sequence"
               = [n_to_string (last_sequence log)]).

(** ** The subject of a command's responses *)

Variable t : MessagingTopology.
Variable subject : string.

(** Its messages, the next sequence of the stream, and what publishers have
    prepared so far *)
Record Subject := mkSubject {
  sb_log : list StoredMessage;
  sb_next : N;
  sb_prepared : list PreparedCommandResponse;
}.

Inductive subject_step : Subject → Subject → Prop :=
(* a publisher prepares a response over the latest message *)
| step_prepare log next prepared answers message timeout p :
    pa_latest answers = Ok (last log) → addr_str (om_address message) = subject →
    prepare_command_response answers t message timeout = Ok p →
    subject_step (mkSubject log next prepared) (mkSubject log next (p :: prepared))
(* what a publisher sends, at any later time, is accepted and stored *)
| step_store log next prepared p answers timeout sent published message :
    p ∈ prepared →
    publish_prepared_command_response answers t p timeout = (sent, published) → message ∈ sent →
    accepts log message = true →
    subject_step (mkSubject log next prepared) (mkSubject (log ++ [stored_as next message]) (next + 1) prepared)
(* other subjects of the stream advance its sequence *)
| step_other log next prepared :
    subject_step (mkSubject log next prepared) (mkSubject log (next + 1) prepared)
(* a redrive deletes the latest message *)
| step_remove log next prepared stored deleted removed created address command sequences answer :
    remove_blocked [(Ok (Some stored), deleted)] removed (stream_name_str (top_command_response t)) created
      address command = (sequences, answer) →
    stm_sequence stored ∈ sequences →
    subject_step (mkSubject (log ++ [stored]) next prepared) (mkSubject log next prepared).

(** ** Invariant *)

(** Nothing was sent over a message that is not a diagnostic. *)
Definition prepared_ok (log : list StoredMessage) (next : N) (p : PreparedCommandResponse) : Prop :=
  pcr_observed_exact p = true
  ∨ (pcr_predecessor p < next ∧ ∀ stored, stored ∈ log → stm_sequence stored = pcr_predecessor p → is_diagnostic stored = true).

(** What a prepared message is published for *)
Definition addressed (payload : list byte) : Prop :=
  ∃ response address, read_command_response payload = Ok response
  ∧ derive_command_response_address (rsp_command_address response) (rsp_operation_id response)
      (rsp_command_message_id response) = Ok address
  ∧ addr_str address = subject.

Record subject_ok (s : Subject) : Prop := {
  sok_next : 0 < sb_next s;
  sok_sequences : ∀ stored, stored ∈ sb_log s → 0 < stm_sequence stored < sb_next s;
  sok_diagnostics : ∀ before stored, sb_log s = before ++ [stored] → Forall (λ m, is_diagnostic m = true) before;
  sok_addressed : Forall (λ m, stm_subject m = subject ∧ addressed (stm_payload m)) (sb_log s);
  sok_prepared : Forall (prepared_ok (sb_log s) (sb_next s)) (sb_prepared s);
  sok_prepared_addressed : Forall (λ p, addr_str (om_address (pcr_message p)) = subject
                                        ∧ addressed (om_payload (pcr_message p))) (sb_prepared s);
}.

(** ** What the operations do *)

Lemma decode_existing_response stored stream created response previous :
  decode_existing stored stream created response = Ok previous → stored_response stored = Some previous.
Proof.
  unfold decode_existing. intros H.
  destruct (stm_sequence stored =? 0); [done|]. apply rbind_Ok in H as (ct & _ & H).
  destruct (negb _) in H; [done|]. apply rbind_Ok in H as (co & _ & H). destruct (negb _) in H; [done|].
  apply rbind_Ok in H as (prev & Hp%map_err_Ok & H). destruct (_ || _) in H; [done|].
  apply rbind_Ok in H as (ad & _ & H). destruct (negb _) in H; [done|]. apply rbind_Ok in H as (tok & _ & H).
  injection H as <-. unfold stored_response. by rewrite Hp.
Qed.

Lemma observe_new_diagnostic message response stream created stored :
  observe_stored message response stream created stored = Ok None → is_diagnostic stored = true.
Proof.
  unfold observe_stored. intros H. apply rbind_Ok in H as (prev & Hp%decode_existing_response & H).
  destruct (_ && _) in H.
  - apply rbind_Ok in H as (? & _ & H). apply rbind_Ok in H as (? & _ & H).
    apply rbind_Ok in H as (? & _ & H). by apply rbind_Ok in H as (? & _ & [=]).
  - unfold is_diagnostic. rewrite Hp. cbn. by destruct (is_execution_failed (rsp_outcome prev)).
Qed.

Lemma prepare_response_spec answers message response stream h timeout p latest :
  pa_latest answers = Ok latest →
  prepare_response answers message response stream h timeout = Ok p →
  pcr_message p = message ∧ pcr_predecessor p = from_option stm_sequence 0 latest
  ∧ (pcr_observed_exact p = true ∨ ∀ stored, latest = Some stored → is_diagnostic stored = true).
Proof.
  intros Hl. unfold prepare_response. intros H. destruct (timeout =? 0); [done|].
  apply rbind_Ok in H as (? & _ & H). destruct (pa_expired answers); [done|].
  apply rbind_Ok in H as ([created last] & _ & H). rewrite Hl in H. cbn [rbind] in H.
  apply rbind_Ok in H as (observed & Ho & H). apply rbind_Ok in H as ([id tr] & _ & H).
  apply rbind_Ok in H as (h' & _ & H). injection H as <-. cbn. split_and!; [done..|].
  destruct observed as [o|]; [by left|right]. intros stored ->. by eapply observe_new_diagnostic.
Qed.

Lemma decode_outbound_addressed message response :
  addr_str (om_address message) = subject →
  decode_outbound_command_response message = Ok response → addressed (om_payload message).
Proof.
  unfold decode_outbound_command_response. intros Hs H.
  apply rbind_Ok in H as (r & Hr%map_err_Ok & H). apply rbind_Ok in H as (expected & He%map_err_Ok & H).
  destruct (_ || _) eqn:E in H; [done|]. apply orb_false_iff in E as [_ E%negb_false_iff%bool_decide_eq_true].
  exists r, expected. split_and!; [done..|]. by rewrite E.
Qed.

Lemma prepare_spec answers message timeout p latest :
  pa_latest answers = Ok latest → addr_str (om_address message) = subject →
  prepare_command_response answers t message timeout = Ok p →
  addr_str (om_address (pcr_message p)) = subject ∧ addressed (om_payload (pcr_message p))
  ∧ pcr_predecessor p = from_option stm_sequence 0 latest
  ∧ (pcr_observed_exact p = true ∨ ∀ stored, latest = Some stored → is_diagnostic stored = true).
Proof.
  intros Hl Hs. unfold prepare_command_response. intros H. destruct (negb _) in H; [done|].
  apply rbind_Ok in H as (response & Hr & H). destruct (is_some_and _ _) in H; [done|].
  eapply prepare_response_spec in H as (-> & Hp & Hd); [|done].
  split_and!; [done|by eapply decode_outbound_addressed|done..].
Qed.

Lemma publish_sent answers p timeout sent published message :
  publish_prepared_command_response answers t p timeout = (sent, published) → message ∈ sent →
  pcr_observed_exact p = false ∧ message = response_message p (top_command_response t).
Proof.
  unfold publish_prepared_command_response, publish_prepared. intros H Hin.
  destruct (negb _) in H; [injection H as <- <-; by apply elem_of_nil in Hin|].
  destruct (timeout =? 0); [injection H as <- <-; by apply elem_of_nil in Hin|].
  destruct (negb _) in H; [injection H as <- <-; by apply elem_of_nil in Hin|].
  destruct (publish_within answers p (top_command_response t)) as [s r] eqn:Ew.
  assert (message ∈ s) as Hs.
  { destruct (ra_expired answers) as [[|]|]; injection H as <- <-; try done. by apply elem_of_nil in Hin. }
  revert Ew. unfold publish_within. destruct (ra_created answers) as [created|];
    [|intros [= <- <-]; by apply elem_of_nil in Hs].
  destruct (negb _); [intros [= <- <-]; by apply elem_of_nil in Hs|].
  destruct (pcr_observed_exact p); intros [= <- <-]; [by apply elem_of_nil in Hs|].
  by apply list_elem_of_singleton in Hs.
Qed.

Lemma accepts_predecessor log p stream :
  accepts log (response_message p stream) = true → last_sequence log = pcr_predecessor p.
Proof.
  unfold accepts, response_message. cbn [wm_headers]. rewrite publish_expected_last.
  intros H%bool_decide_eq_true. injection H as H%n_to_string_inj. done.
Qed.

Lemma removed_diagnostic stored deleted removed stream created address command sequences answer :
  remove_blocked [(Ok (Some stored), deleted)] removed stream created address command = (sequences, answer) →
  stm_sequence stored ∈ sequences → is_diagnostic stored = true.
Proof.
  cbn [remove_blocked]. intros H Hin.
  destruct (rbind _ _) as [response|e] eqn:E in H; [|injection H as <- <-; by apply elem_of_nil in Hin].
  apply rbind_Ok in E as (r & Hr & E). apply rbind_Ok in E as (u & _ & E). injection E as <-.
  unfold decode_validated_stored_response in Hr. apply rbind_Ok in Hr as (r' & Hr & Hv).
  apply rbind_Ok in Hv as (? & _ & Hv). injection Hv as <-.
  assert (stored_response stored = Some r') as Hs.
  { unfold decode_stored_command_response in Hr. destruct (negb _) in Hr; [done|]. destruct (_ <? _) in Hr; [done|].
    apply rbind_Ok in Hr as (? & _ & Hr). destruct (negb _) in Hr; [done|].
    apply rbind_Ok in Hr as (r & Hrd%map_err_Ok & Hr). apply rbind_Ok in Hr as (? & _ & Hr).
    apply rbind_Ok in Hr as (? & _ & Hr). apply rbind_Ok in Hr as (? & _ & Hr). destruct (_ && _) in Hr; [done|].
    destruct (_ || _) in Hr; [done|]. apply rbind_Ok in Hr as (? & _ & Hr). destruct (negb _) in Hr; [done|].
    injection Hr as <-. unfold stored_response. by rewrite Hrd. }
  unfold is_diagnostic. rewrite Hs. cbn. revert H.
  destruct (rsp_outcome r'); cbn; try (intros [= <- <-]; by apply elem_of_nil in Hin). done.
Qed.

(** ** The invariant holds *)

Lemma prepared_ok_later log next log' next' p :
  next <= next' → (∀ stored, stored ∈ log' → stored ∈ log ∨ next <= stm_sequence stored) →
  prepared_ok log next p → prepared_ok log' next' p.
Proof.
  intros Hn Hl [?|[Hp Hd]]; [by left|right]. split; [lia|].
  intros stored [Hin|Hin]%Hl He; [by apply Hd|lia].
Qed.

Lemma subject_step_ok s s' : subject_ok s → subject_step s s' → subject_ok s'.
Proof.
  intros [Hnext Hseq Hdiag Hadr Hprep Hpadr] Hstep.
  destruct Hstep as [log next prepared answers message timeout p Hl Hs Hp
    |log next prepared p answers timeout sent published message Hin Hpub Hm Hacc
    |log next prepared
    |log next prepared stored deleted removed created address command sequences answer Hr Hin];
    cbn [sb_log sb_next sb_prepared] in *.
  - eapply prepare_spec in Hp as (Ha1 & Ha2 & Hpre & Hobs); [|done..].
    split; cbn; auto. constructor; [|done]. destruct Hobs as [?|Hd]; [by left|right].
    rewrite Hpre. destruct (last log) as [stored|] eqn:E; cbn.
    + apply last_Some in E as (before & ->). split; [apply Hseq; set_solver|].
      intros m Hm He. apply elem_of_app in Hm as [Hm|Hm%list_elem_of_singleton]; [|subst m; by apply Hd].
      by eapply Forall_forall in Hm; [|by apply (Hdiag before stored)].
    + split; [done|]. apply last_None in E as ->. by intros ? ?%elem_of_nil.
  - pose proof (proj1 (Forall_forall _ _) Hprep _ Hin) as Hok. pose proof (proj1 (Forall_forall _ _) Hpadr _ Hin) as [Hpa1 Hpa2].
    destruct (publish_sent _ _ _ _ _ _ Hpub Hm) as [Hobs ->]. clear Hm Hpub.
    apply accepts_predecessor in Hacc. destruct Hok as [Hok|[Hlt Hd]]; [congruence|].
    split; cbn [sb_log sb_next sb_prepared]; [lia| | | | |done].
    + intros m [Hm|Hm%list_elem_of_singleton]%elem_of_app; [specialize (Hseq m Hm); lia|subst m; cbn; lia].
    + intros before m [<- _]%app_inj_tail. unfold last_sequence in Hacc.
      destruct (last log) as [l|] eqn:E; cbn in Hacc; [|apply last_None in E as ->; constructor].
      apply last_Some in E as (before' & ->). apply Forall_app. split; [by eapply Hdiag|].
      constructor; [|constructor]. by apply Hd; [set_solver|].
    + apply Forall_app. split; [done|]. by repeat constructor.
    + eapply Forall_impl; [exact Hprep|]. intros q. apply prepared_ok_later; [lia|].
      intros m [Hm|Hm%list_elem_of_singleton]%elem_of_app; [by left|right; subst m; cbn; lia].
  - split; cbn; auto; [lia|intros m Hm; specialize (Hseq m Hm); lia|].
    eapply Forall_impl; [exact Hprep|]. intros q. apply prepared_ok_later; [lia|by left].
  - split; cbn; auto.
    + intros m Hm. apply Hseq. set_solver.
    + intros before m ->. by pose proof (Hdiag _ _ eq_refl) as [Hb _]%Forall_app.
    + by apply Forall_app in Hadr as [? _].
    + eapply Forall_impl; [exact Hprep|]. intros q. apply prepared_ok_later; [lia|].
      intros m Hm. left. set_solver.
Qed.

Definition subject_empty : Subject := mkSubject [] 1 [].
Lemma subject_empty_ok : subject_ok subject_empty.
Proof. split; cbn; auto; try lia; [by intros ? ?%elem_of_nil|by intros [|? ?] ?]. Qed.

Lemma subject_reachable_ok s s' : subject_ok s → rtc subject_step s s' → subject_ok s'.
Proof. intros H Hr. induction Hr; [done|]. by apply IHHr, (subject_step_ok x). Qed.

Lemma final_not_diagnostic stored : is_final stored = true → is_diagnostic stored = false.
Proof. unfold is_final, is_diagnostic. destruct (stored_response stored) as [r|]; [|done]. cbn. by destruct (is_execution_failed _). Qed.

(** A final response stays the latest message. *)
Lemma final_step s s' stored :
  subject_ok s → subject_step s s' → last (sb_log s) = Some stored → is_final stored = true →
  last (sb_log s') = Some stored.
Proof.
  intros Hs Hstep Hl Hf. pose proof (subject_step_ok _ _ Hs Hstep) as Hs'.
  destruct Hstep as [| log next prepared p answers timeout sent published message Hin Hpub Hm Hacc
    | |log next prepared m deleted removed created address command sequences answer Hr Hin]; cbn in *; [done| |done|].
  - exfalso. apply final_not_diagnostic in Hf. apply last_Some in Hl as (before & ->).
    pose proof (proj1 (Forall_app _ _ _) (sok_diagnostics _ Hs' _ _ eq_refl)) as [_ Hd]. cbn in Hd.
    apply Forall_cons in Hd as [Hd _]. cbn in Hd. congruence.
  - exfalso. rewrite last_snoc in Hl. injection Hl as ->.
    apply removed_diagnostic in Hr; [|done]. apply final_not_diagnostic in Hf. congruence.
Qed.

(** C14 (invariant). A final response is final. However many publishers prepare and
    publish responses of a command, in whatever order their messages reach the
    server and whatever redrives delete in between: every message of the subject is
    a response of the very command the subject belongs to, all but the latest report
    that an execution failed, and once the latest is an acceptance or a rejection it
    stays the latest for ever. *)
Theorem final_response_is_final s :
  rtc subject_step subject_empty s →
  (∀ stored, stored ∈ sb_log s → stm_subject stored = subject ∧ addressed (stm_payload stored))
  ∧ (∀ before stored, sb_log s = before ++ [stored] → Forall (λ m, is_diagnostic m = true) before)
  ∧ (∀ s' stored, last (sb_log s) = Some stored → is_final stored = true →
       rtc subject_step s s' → last (sb_log s') = Some stored).
Proof.
  intros Hr. pose proof (subject_reachable_ok _ _ subject_empty_ok Hr) as Hs. split_and!.
  - apply Forall_forall. apply Hs.
  - apply Hs.
  - intros s' stored Hl Hf Hr'. clear Hr. induction Hr' as [|x y z Hxy Hyz IH]; [done|].
    apply IH; [by eapply subject_step_ok|by eapply final_step].
Qed.

(** ** Acknowledged publications *)

(** [stored] is the record of [p] in the incarnation of the stream [p] was
    prepared in. *)
Definition exact_record (answers : ResponseAnswers) (p : PreparedCommandResponse) (stored : StoredMessage) : Prop :=
  stm_payload stored = om_payload (pcr_message p)
  ∧ single_header (stm_headers stored) "Nats-Msg-Id" = Ok (Some (id_str (pcr_publication_id p)))
  ∧ (∃ previous, stored_response stored = Some previous ∧ response_eqb previous (pcr_response p) = true)
  ∧ ra_current answers = Some (pcr_created p).

Lemma verify_exact_spec answers p stored u v :
  verify_exact_record stored p = Ok u → verify_current_incarnation answers p = Ok v → exact_record answers p stored.
Proof.
  unfold verify_exact_record, verify_current_incarnation. intros H Hc.
  apply rbind_Ok in H as (previous & Hp%decode_existing_response & H).
  destruct (_ || _) eqn:E in H; [done|]. apply orb_false_iff in E as [E1%negb_false_iff%bool_decide_eq_true E2%negb_false_iff].
  apply rbind_Ok in H as (outer & Ho & H). destruct (negb _) eqn:Eo in H; [done|].
  apply negb_false_iff, bool_decide_eq_true in Eo. subst outer.
  apply rbind_Ok in Hc as (current & Hcur%ok_or_Ok & Hc). destruct (negb _) eqn:Ec in Hc; [done|].
  apply negb_false_iff, Z.eqb_eq in Ec. subst current. split_and!; [done..| |done]. by exists previous.
Qed.

Lemma reconcile_response_spec answers p ack :
  reconcile_response answers p = Ok ack →
  ∃ stored, ra_latest answers = Ok (Some stored) ∧ stm_sequence stored = npa_sequence ack ∧ exact_record answers p stored.
Proof.
  unfold reconcile_response. intros H. apply rbind_Ok in H as (latest & Hl & H).
  apply rbind_Ok in H as (stored & Hs%ok_or_Ok & H). subst latest.
  apply rbind_Ok in H as (u & Hu & H). apply rbind_Ok in H as (v & Hv & H). injection H as <-.
  exists stored. split_and!; [done..|]. by eapply verify_exact_spec.
Qed.

Lemma confirm_fresh_spec answers p stream broker ack :
  confirm_fresh answers p stream broker = Ok ack →
  ∃ stored, ra_sequence answers (npa_sequence ack) = Ok (Some stored)
    ∧ stm_sequence stored = npa_sequence ack ∧ exact_record answers p stored.
Proof.
  unfold confirm_fresh. intros H. destruct (_ || _) in H; [done|].
  apply rbind_Ok in H as (latest & Hl & H). apply rbind_Ok in H as (stored & Hs%ok_or_Ok & H). subst latest.
  destruct (negb _) eqn:E in H; [done|]. apply negb_false_iff, N.eqb_eq in E.
  apply rbind_Ok in H as (u & Hu%map_err_Ok & H). apply rbind_Ok in H as (v & Hv & H). injection H as <-.
  exists stored. cbn. split_and!; [done..|]. by eapply verify_exact_spec.
Qed.

(** C21 (safety). A published response is retained. A publication that is reported
    acknowledged was prepared in the stream as it is, and the stream retains, under
    the sequence reported, the very payload and publication identity that were
    prepared, whether this call stored them, an earlier call did, or the broker
    only said that they may be there. *)
Theorem published_response_is_retained answers p timeout sent ack :
  publish_prepared_command_response answers t p timeout = (sent, Ok ack) →
  ra_created answers = Some (pcr_created p) ∧ npa_stream ack = pcr_stream p
  ∧ ∃ stored, (ra_latest answers = Ok (Some stored) ∨ ra_sequence answers (npa_sequence ack) = Ok (Some stored))
      ∧ stm_sequence stored = npa_sequence ack ∧ exact_record answers p stored.
Proof.
  unfold publish_prepared_command_response, publish_prepared. intros H.
  destruct (negb _) in H; [done|]. destruct (timeout =? 0); [done|].
  destruct (negb _) eqn:Es in H; [done|]. apply negb_false_iff, bool_decide_eq_true in Es.
  destruct (publish_within _ _ _) as [s r] eqn:Ew. destruct (ra_expired answers); [done|]. injection H as <- ->.
  revert Ew. unfold publish_within. destruct (ra_created answers) as [created|]; [|done].
  destruct (negb _) eqn:Ec; [done|]. apply negb_false_iff, Z.eqb_eq in Ec. subst created.
  assert (∀ r, reconcile_response answers p = Ok r → npa_stream r = pcr_stream p) as Hst.
  { intros r. unfold reconcile_response. intros H. do 4 (apply rbind_Ok in H as (? & _ & H)). by injection H as <-. }
  destruct (pcr_observed_exact p); intros [= <- H].
  { split_and!; [done|by apply Hst|]. apply reconcile_response_spec in H as (m & ? & ? & ?). exists m. auto. }
  set (message := response_message _ _) in *. destruct (ra_sent answers message) as [f|f|broker]; [done| |].
  - destruct (classify_publish_error f); try done.
    split_and!; [done|by apply Hst|]. apply reconcile_response_spec in H as (m & ? & ? & ?). exists m. auto.
  - destruct (ba_duplicate broker).
    + split_and!; [done|by apply Hst|]. apply reconcile_response_spec in H as (m & ? & ? & ?). exists m. auto.
    + assert (npa_stream ack = top_command_response t) as Hn.
      { unfold confirm_fresh in H. destruct (_ || _) in H; [done|]. do 2 (apply rbind_Ok in H as (? & _ & H)).
        destruct (negb _) in H; [done|]. do 2 (apply rbind_Ok in H as (? & _ & H)). by injection H as <-. }
      split_and!; [done|by rewrite Hn|]. apply confirm_fresh_spec in H as (m & ? & ? & ?). exists m. auto.
Qed.
End Log.
