(* ===== verification/NatsCommandHandler.v ===== *)
(** * NatsCommandHandler: commands over NATS - the caller's side, which publishes a
    command and awaits its durable response, and the worker's side, which handles a
    delivered command (crates/rostfrei-nats/src/messaging_adapter.rs) - and when a
    command is acknowledged.

    What the components do to the world they share - the stores, the streams, the
    other processes - is a state every call takes and returns. The gates that let
    a worker handle one delivery of a command at a time are not modelled: a
    handling is one function of that state, whatever the calls do to it. *)

From S2P Require Export NatsResponses CommandProcessor IntegrationBus.

Definition MAXIMUM_PUBLISH_ATTEMPTS : nat := 3.
Definition DELIVERY_RETRY_DELAY : N := 1000000000.

Definition CommandResponseReadErrorKind_display (e : CommandResponseReadErrorKind) : string :=
  match e with
  | ReadTimeout => "command response read timed out"
  | Response.ReadUnavailable => "command response reader is unavailable"
  | ReadInvalidResponse => "command response is invalid"
  | ReadIdentityConflict => "command response identity conflicts with the request"
  | ReadInvalidConfiguration => "command response reader configuration is invalid"
  end.

Definition command_publish_error (e : CorePublishErrorKind) : CommandBusError :=
  CommandBusError_new
    match e with
    | PublishTimedOut => BusTimeout
    | PublishRejected => BusRejected
    | PublishUnavailable => BusUnavailable
    | PublishInvalidConfiguration => BusInvalidConfiguration
    end (core_publish_display e).
Definition integration_publish_error (e : CorePublishErrorKind) : IntegrationEventBusError :=
  IntegrationEventBusError_new
    match e with
    | PublishTimedOut => IntegrationTimeout
    | PublishUnavailable => IntegrationUnavailable
    | PublishInvalidConfiguration => IntegrationInvalidConfiguration
    | PublishRejected => IntegrationRejected
    end (core_publish_display e).

Definition publish_again (e : CorePublishErrorKind) : bool :=
  match e with PublishTimedOut | PublishUnavailable => true | _ => false end.

(** [retry] and [quarantine] *)
Definition retry_delivery : DeliveryDisposition :=
  match RetryDelay_new DELIVERY_RETRY_DELAY with
  | Ok delay => Delivery.RetryAfter delay
  | Err _ => Terminate
  end.
Definition quarantine_delivery (reason : string) : DeliveryDisposition :=
  match QuarantineReason_new reason with
  | Ok reason => Quarantine reason
  | Err _ => Terminate
  end.

Inductive ReconciliationError := ReconcileInvalid | ReconcileUnavailable.

Section CommandTransport.
Context `{JT : JsonText} `{VE : !ValueEq} `{SHA : Sha256} `{RSJ : !ResponseJson}.
Context `{CEJ : JsonCodec (CommandEnvelopeWire RoutedCommandWire)}.
Context `{CEV : !ToValue (CommandEnvelopeWire RoutedCommandWire)}.
Context `{HM : HeaderMapApi}.
Context (debug_str : string → string).
Context {W : Type}.

(** ** The components a handler is made of *)

(** [CommandProcessingService]: [into_result] of the reports *)
Record CommandProcessingService := mkService {
  svc_lookup : W → TrustedCommandContext → EncodedCommand →
    W * result (OutcomeLookup CommandResponse) CommandProcessorError;
  svc_process : W → TrustedCommandContext → EncodedCommand →
    W * result ProcessedCommand CommandProcessorError;
}.

(** [HandlerProcessor]: the trusted profile of a processor, or a service with
    its resolver *)
Inductive HandlerProcessor :=
| TrustedProcessor
    (completed : W → EncodedCommand → W * result (option CommandResponse) CommandProcessorError)
    (processing : W → EncodedCommand → W * result CommandResponse CommandProcessorError)
| AuthorizedProcessor
    (service : CommandProcessingService)
    (resolver : W → MessageDelivery CommandAddress → W * result TrustedCommandContext AuthorizationError).

(** [ServicePrincipalContext] *)
Definition ServicePrincipalContext (context : TrustedCommandContext)
  : W → MessageDelivery CommandAddress → W * result TrustedCommandContext AuthorizationError :=
  λ w _, (w, Ok context).

(** The reader and the publisher of responses; the native publisher prepares a
    response before it publishes it. *)
Record ResponseTransport := mkResponseTransport {
  rt_find : W → CommandResponseAddress → MsgOperationId → MessageId →
    W * result (option CommandResponse) CommandResponseReadErrorKind;
  rt_read : W → CommandResponseAddress → MsgOperationId → MessageId →
    W * result CommandResponse CommandResponseReadErrorKind;
  rt_publish : W → OutboundMessage CommandResponseAddress → W * result PublishReceipt CorePublishErrorKind;
  rt_native : option
    ((W → OutboundMessage CommandResponseAddress → W * result PreparedCommandResponse NatsError)
     * (W → PreparedCommandResponse → W * result NatsPublishAck NatsError));
}.

(** A publication, repeated [more] times at most after a transient failure *)
Fixpoint publish_attempts {A} (publish : W → W * result A CorePublishErrorKind) (more : nat) (w : W)
  : W * result A CorePublishErrorKind :=
  let '(w, published) := publish w in
  match published, more with
  | Err error, S more => if publish_again error then publish_attempts publish more w else (w, Err error)
  | published, _ => (w, published)
  end.

(** [authorized_lookup] *)
Definition caller_lookup (service : CommandProcessingService) (w : W) (caller : TrustedCommandContext)
    (command : EncodedCommand) : W * result (option CommandResponse) CommandProcessorError :=
  let '(w, found) := svc_lookup service w caller command in
  (w, let? found := found in
      match found with
      | Missing => Ok None
      | Completed outcome =>
        rmap Some (admit_outcome debug_str (ProcessedCommand_new Replayed outcome) caller command)
      end).

(** ** The worker *)

Record NatsCommandHandler := mkCommandHandler {
  nch_processor : HandlerProcessor;
  nch_transport : ResponseTransport;
}.

Definition missing_caller : CommandProcessorError := processor_authorization AuthorizationMisconfigured.

Definition handler_reconcile_completed (processor : HandlerProcessor) (w : W)
    (caller : option TrustedCommandContext) (command : EncodedCommand)
  : W * result (option CommandResponse) CommandProcessorError :=
  match processor, caller with
  | TrustedProcessor completed _, _ => completed w command
  | AuthorizedProcessor service _, Some caller => caller_lookup service w caller command
  | AuthorizedProcessor _ _, None => (w, Err missing_caller)
  end.

Definition handler_process (processor : HandlerProcessor) (w : W)
    (caller : option TrustedCommandContext) (command : EncodedCommand)
  : W * result CommandResponse CommandProcessorError :=
  match processor, caller with
  | TrustedProcessor _ processing, _ => processing w command
  | AuthorizedProcessor service _, Some caller =>
    let '(w, processed) := svc_process service w caller command in
    (w, let? processed := processed in admit_outcome debug_str processed caller command)
  | AuthorizedProcessor _ _, None => (w, Err missing_caller)
  end.

(** [NatsCommandHandler::reconcile_response] *)
Definition reconcile_retained (transport : ResponseTransport) (w : W) (command : EncodedCommand)
  : W * result (option CommandResponse) ReconciliationError :=
  match response_address command with
  | Err _ => (w, Err ReconcileInvalid)
  | Ok address =>
    let '(w, found) := rt_find transport w address (enc_operation_id command) (enc_message_id command) in
    (w, match found with
        | Ok (Some response) =>
          let? _ := map_err (λ _, ReconcileInvalid) (validate_response command response) in
          Ok (Some response)
        | Ok None => Ok None
        | Err ReadTimeout | Err Response.ReadUnavailable => Err ReconcileUnavailable
        | Err _ => Err ReconcileInvalid
        end)
  end.

(** [OutboundMessage::json] of a response *)
Definition response_outbound (address : CommandResponseAddress) (response : CommandResponse)
  : result (OutboundMessage CommandResponseAddress) MessageBuildError :=
  let? payload := map_err (λ _, MessageBuildError_serialization)
    (response_to_vec (CommandResponse_serialize response)) in
  OutboundMessage_new address (rsp_message_id response) payload.

(** [NatsCommandHandler::publish_response] *)
Definition handler_publish_response (transport : ResponseTransport) (w : W) (command : EncodedCommand)
    (response : CommandResponse) : W * result PublishReceipt CorePublishErrorKind :=
  match (let? address := map_err (λ _, PublishInvalidConfiguration) (response_address command) in
         map_err (λ _, PublishInvalidConfiguration) (response_outbound address response)) with
  | Err error => (w, Err error)
  | Ok message =>
    let more := (MAXIMUM_PUBLISH_ATTEMPTS - 1)%nat in
    match rt_native transport with
    | None => publish_attempts (λ w, rt_publish transport w message) more w
    | Some (prepare, publish) =>
      let '(w, prepared) := prepare w message in
      match prepared with
      | Err error => (w, Err (core_publish_error error))
      | Ok prepared =>
        publish_attempts (λ w, let '(w, published) := publish w prepared in (w, receipt_of_ack published)) more w
      end
    end
  end.

(** A response that is published settles its command. *)
Definition acknowledge_published (transport : ResponseTransport) (w : W) (command : EncodedCommand)
    (response : CommandResponse) : W * DeliveryDisposition :=
  let '(w, published) := handler_publish_response transport w command response in
  (w, match published with Ok _ => Acknowledge | Err _ => retry_delivery end).

(** The command of a delivery *)
Definition command_of_delivery (delivery : MessageDelivery CommandAddress) : result EncodedCommand string :=
  let? command := map_err (λ _, "invalid command envelope")
    (EncodedCommand_from_delivery (md_address delivery) (md_message_id delivery) (md_payload delivery)) in
  fail! is_some_and (λ correlation, negb (bool_decide (correlation = enc_correlation_id command)))
          (md_correlation_id delivery)
    with "invalid command correlation identity";
  let? _ := map_err (λ _, "invalid original command evidence") (validate_encoded command) in
  Ok command.

(** The caller a command is handled for; [Err] is the disposition of a refusal. *)
Definition resolve_caller (processor : HandlerProcessor) (w : W) (delivery : MessageDelivery CommandAddress)
  : W * result (option TrustedCommandContext) DeliveryDisposition :=
  match processor with
  | TrustedProcessor _ _ => (w, Ok None)
  | AuthorizedProcessor _ resolver =>
    let '(w, resolved) := resolver w delivery in
    (w, match resolved with
        | Ok caller => Ok (Some caller)
        | Err AuthorizationUnavailable => Err retry_delivery
        | Err _ => Err (quarantine_delivery "trusted command context resolution refused delivery")
        end)
  end.

(** A command without a usable retained response is processed. *)
Definition process_and_publish (h : NatsCommandHandler) (w : W) (caller : option TrustedCommandContext)
    (command : EncodedCommand) : W * DeliveryDisposition :=
  let '(w, processed) := handler_process (nch_processor h) w caller command in
  match processed with
  | Ok response => acknowledge_published (nch_transport h) w command response
  | Err error =>
    let failed := if processor_error_is_retryable error then retry_delivery
                  else quarantine_delivery "command processing failed permanently" in
    match technical_response error command with
    | Err _ => (w, retry_delivery)
    | Ok None => (w, failed)
    | Ok (Some response) =>
      let '(w, published) := handler_publish_response (nch_transport h) w command response in
      (w, match published with Ok _ => failed | Err _ => retry_delivery end)
    end
  end.

(** A retained response settles its command when the shared outcome agrees. *)
Definition settle_retained (h : NatsCommandHandler) (w : W) (caller : option TrustedCommandContext)
    (command : EncodedCommand) (response : CommandResponse) : W * DeliveryDisposition :=
  let '(w, completed) := handler_reconcile_completed (nch_processor h) w caller command in
  match completed with
  | Err error =>
    (w, if processor_error_is_retryable error then retry_delivery
        else quarantine_delivery "shared outcome reconciliation is blocked")
  | Ok authoritative =>
    match rsp_outcome response, authoritative with
    | ResponseExecutionFailed _, Some authoritative =>
      acknowledge_published (nch_transport h) w command authoritative
    | ResponseExecutionFailed _, None =>
      (w, quarantine_delivery "technical command execution is blocked; repair and redrive required")
    | _, authoritative =>
      (w, if is_some_and (λ authoritative, response_eqb authoritative response) authoritative then Acknowledge
          else quarantine_delivery
            "retained business response lacks matching shared authority; migration required")
    end
  end.

(** [NatsCommandHandler::handle] *)
Definition nats_handle_command (h : NatsCommandHandler) (w : W) (delivery : MessageDelivery CommandAddress)
  : W * DeliveryDisposition :=
  match command_of_delivery delivery with
  | Err reason => (w, quarantine_delivery reason)
  | Ok command =>
    let '(w, resolved) := resolve_caller (nch_processor h) w delivery in
    match resolved with
    | Err disposition => (w, disposition)
    | Ok caller =>
      let '(w, retained) := reconcile_retained (nch_transport h) w command in
      match retained with
      | Err ReconcileUnavailable => (w, retry_delivery)
      | Err ReconcileInvalid => (w, quarantine_delivery "invalid retained command response")
      | Ok None => process_and_publish h w caller command
      | Ok (Some response) =>
        match rsp_outcome response with
        | ResponseExecutionFailed failure =>
          if is_retryable failure then process_and_publish h w caller command
          else settle_retained h w caller command response
        | _ => settle_retained h w caller command response
        end
      end
    end
  end.

(** ** The caller *)

(** [NatsMessagingAdapter]; a read slice is one [rt_read]. *)
Record NatsMessagingAdapter := mkNatsAdapter {
  nma_outcome_service : option (CommandProcessingService * TrustedCommandContext);
  nma_replay_publication : bool;
  nma_command_publisher : W → OutboundMessage CommandAddress → W * result PublishReceipt CorePublishErrorKind;
  nma_integration_publisher :
    W → OutboundMessage IntegrationEventAddress → W * result PublishReceipt CorePublishErrorKind;
  nma_transport : ResponseTransport;
}.

Definition with_replay_publication (a : NatsMessagingAdapter) : NatsMessagingAdapter :=
  mkNatsAdapter (nma_outcome_service a) true (nma_command_publisher a) (nma_integration_publisher a)
    (nma_transport a).
Definition with_outcome_service (a : NatsMessagingAdapter) (service : CommandProcessingService)
    (caller : TrustedCommandContext) : NatsMessagingAdapter :=
  mkNatsAdapter (Some (service, caller)) (nma_replay_publication a) (nma_command_publisher a)
    (nma_integration_publisher a) (nma_transport a).
Definition adapter_command_handler (a : NatsMessagingAdapter)
    (completed : W → EncodedCommand → W * result (option CommandResponse) CommandProcessorError)
    (processing : W → EncodedCommand → W * result CommandResponse CommandProcessorError) : NatsCommandHandler :=
  mkCommandHandler (TrustedProcessor completed processing) (nma_transport a).
Definition command_handler_with_resolver (a : NatsMessagingAdapter) (service : CommandProcessingService)
    (resolver : W → MessageDelivery CommandAddress → W * result TrustedCommandContext AuthorizationError)
  : NatsCommandHandler :=
  mkCommandHandler (AuthorizedProcessor service resolver) (nma_transport a).

(** [authorized_response] *)
Definition authorized_response (a : NatsMessagingAdapter) (w : W) (command : EncodedCommand)
  : W * result (option CommandResponse) CommandBusError :=
  match nma_outcome_service a with
  | None => (w, Ok None)
  | Some (service, caller) =>
    let '(w, found) := caller_lookup service w caller command in (w, map_err bus_from_processor found)
  end.

(** [publish_command] *)
Definition adapter_publish_command (a : NatsMessagingAdapter) (w : W) (command : EncodedCommand)
  : W * result PublishReceipt CommandBusError :=
  let '(w, published) := publish_attempts (λ w, nma_command_publisher a w (enc_message command))
    (MAXIMUM_PUBLISH_ATTEMPTS - 1) w in
  (w, map_err command_publish_error published).

(** [read_response]: the slices that fit into the response timeout *)
Fixpoint read_slices (a : NatsMessagingAdapter) (slices : nat) (w : W) (address : CommandResponseAddress)
    (command : EncodedCommand) : W * result CommandResponse CommandBusError :=
  match slices with
  | O => (w, Err (CommandBusError_new BusTimeout "timed out waiting for the durable command response"))
  | S slices =>
    let '(w, read) := rt_read (nma_transport a) w address (enc_operation_id command) (enc_message_id command) in
    match read with
    | Ok response => (w, Ok response)
    | Err ReadTimeout | Err Response.ReadUnavailable => read_slices a slices w address command
    | Err error =>
      (w, Err (CommandBusError_new
                 (if bool_decide (error = ReadInvalidConfiguration) then BusInvalidConfiguration else BusInvalidResponse)
                 (CommandResponseReadErrorKind_display error)))
    end
  end.
Definition read_response_with_timeout (a : NatsMessagingAdapter) (slices : nat) (w : W) (command : EncodedCommand)
  : W * result CommandResponse CommandBusError :=
  match response_address command with
  | Err error => (w, Err (CommandBusError_new BusInvalidConfiguration (ContractError_display error)))
  | Ok address => read_slices a slices w address command
  end.

(** What is made of a response that was read when no authority answers *)
Definition receipt_of_response (a : NatsMessagingAdapter) (duplicate : bool) (command : EncodedCommand)
    (response : CommandResponse) : result CommandBusReceipt CommandBusError :=
  fail! is_some (nma_outcome_service a) && negb (is_execution_failed (rsp_outcome response))
    with CommandBusError_new BusDetailsBlocked "transport result has no authorized authoritative winner";
  let? _ := map_err (λ e, CommandBusError_new BusInvalidResponse (InvalidCommandResponse_display e))
    (validate_response command response) in
  match rsp_outcome response with
  | ResponseExecutionFailed failure => Err (bus_execution_failed failure)
  | _ => Ok (CommandBusReceipt_new duplicate response)
  end.

(** After the publication *)
Definition await_response (a : NatsMessagingAdapter) (slices : nat) (w : W) (duplicate : bool)
    (command : EncodedCommand) : W * result CommandBusReceipt CommandBusError :=
  let '(w, winner) := if nma_replay_publication a then authorized_response a w command else (w, Ok None) in
  match winner with
  | Err error => (w, Err error)
  | Ok (Some winner) => (w, Ok (CommandBusReceipt_new duplicate winner))
  | Ok None =>
    let '(w, response) := read_response_with_timeout a slices w command in
    match response with
    | Err error => (w, Err error)
    | Ok response =>
      let '(w, winner) := authorized_response a w command in
      match winner with
      | Err error => (w, Err error)
      | Ok (Some winner) => (w, Ok (CommandBusReceipt_new duplicate winner))
      | Ok None => (w, receipt_of_response a duplicate command response)
      end
    end
  end.

(** [CommandMessageAdapter::dispatch] *)
Definition nats_dispatch (a : NatsMessagingAdapter) (slices : nat) (w : W) (command : EncodedCommand)
  : W * list CommandPublication * result CommandBusReceipt CommandBusError :=
  match validate_encoded command with
  | Err error => (w, [], Err (bus_from_processor error))
  | Ok _ =>
    let '(w, winner) := authorized_response a w command in
    match winner, nma_replay_publication a with
    | Err error, _ => (w, [], Err error)
    | Ok (Some winner), false => (w, [], Ok (CommandBusReceipt_new true winner))
    | Ok _, _ =>
      let '(w, published) := adapter_publish_command a w command in
      match published with
      | Err error => (w, [], Err error)
      | Ok receipt =>
        let publication := CommandPublication_new (enc_message_id command) (publish_duplicate receipt) in
        let '(w, answer) := await_response a slices w (publish_duplicate receipt) command in
        (w, [publication], answer)
      end
    end
  end.

(** The adapter of a command bus; encoded commands are bounded by the payload of
    a message. *)
Definition nats_adapter (a : NatsMessagingAdapter) (slices : nat) : CommandMessageAdapter W :=
  mkAdapter MAX_MESSAGE_PAYLOAD_BYTES (nats_dispatch a slices).

(** [IntegrationMessageAdapter::publish] *)
Definition nats_publish_integration (a : NatsMessagingAdapter) (w : W)
    (message : EncodedIntegrationMessage) : W * result PublishReceipt IntegrationEventBusError :=
  let '(w, published) := publish_attempts (λ w, nma_integration_publisher a w message)
    (MAXIMUM_PUBLISH_ATTEMPTS - 1) w in
  (w, map_err integration_publish_error published).
End CommandTransport.

(** * A delivered command is acknowledged only when its durable answer reached the response
    stream, and a caller only gets answers of its command. *)

Section CommandFacts.
Context `{JT : JsonText} `{VE : !ValueEq} `{SHA : Sha256} `{RSJ : !ResponseJson}.
Context `{CEJ : JsonCodec (CommandEnvelopeWire RoutedCommandWire)}.
Context `{CEV : !ToValue (CommandEnvelopeWire RoutedCommandWire)}.
Context `{HM : HeaderMapApi} `{PM : !PublishMessageApi} `{PC : PublishErrorCodes}.
Context `{TJ : Json DiagnosticTransitionToken}.
Context (debug_str : string → string).
Context {W : Type}.
Implicit Types (h : NatsCommandHandler (W := W)) (transport : ResponseTransport (W := W)).

(** ** The worker *)

(** The authority answered a command: processing it ended with this response, or
    its shared outcome is this response. *)
Definition authority_answers h (caller : option TrustedCommandContext) (w : W) (command : EncodedCommand) (w' : W)
    (response : CommandResponse) : Prop :=
  handler_process debug_str (nch_processor h) w caller command = (w', Ok response)
  ∨ handler_reconcile_completed debug_str (nch_processor h) w caller command = (w', Ok (Some response)).

(** The response was published, in the step from [w] to [w'] *)
Definition response_published transport (w : W) (command : EncodedCommand) (w' : W) (response : CommandResponse) : Prop :=
  ∃ receipt, handler_publish_response transport w command response = (w', Ok receipt).

Definition permanent_failure : DeliveryDisposition := quarantine_delivery "command processing failed permanently".

Lemma quarantine_not_retry reason : quarantine_delivery reason ≠ retry_delivery.
Proof. unfold quarantine_delivery. by destruct (QuarantineReason_new reason). Qed.
Lemma quarantine_not_acknowledge reason : quarantine_delivery reason ≠ Acknowledge.
Proof. unfold quarantine_delivery. by destruct (QuarantineReason_new reason). Qed.

Lemma acknowledge_published_spec transport w command response w' disposition :
  acknowledge_published transport w command response = (w', disposition) →
  disposition = Acknowledge ∧ response_published transport w command w' response ∨ disposition = retry_delivery.
Proof.
  unfold acknowledge_published. destruct (handler_publish_response _ _ _ _) as [w1 [receipt|error]] eqn:E;
    intros [= <- <-]; [left|by right]. split; [done|]. by exists receipt.
Qed.

(** How the handling of a command may end, from [w], where what was [retained] for
    it is known, to [w'] *)
Definition ending_ok h caller (retained : option CommandResponse) (w : W) (command : EncodedCommand) (w' : W)
    (disposition : DeliveryDisposition) : Prop :=
  (disposition = Acknowledge → ∃ response w1, authority_answers h caller w command w1 response
     ∧ (response_published (nch_transport h) w1 command w' response
        ∨ w' = w1 ∧ ∃ r, retained = Some r ∧ response_eqb response r = true))
  ∧ (disposition = permanent_failure →
     ∃ error w1, handler_process debug_str (nch_processor h) w caller command = (w1, Err error)
       ∧ processor_error_is_retryable error = false
       ∧ (technical_response error command = Ok None ∧ w' = w1
          ∨ ∃ response, technical_response error command = Ok (Some response)
            ∧ response_published (nch_transport h) w1 command w' response)).

Lemma retry_ending h caller retained w command w' : ending_ok h caller retained w command w' retry_delivery.
Proof. split; [done|by intros E; symmetry in E; apply quarantine_not_retry in E]. Qed.

Lemma quarantine_ending h caller retained w command w' reason :
  quarantine_delivery reason ≠ permanent_failure →
  ending_ok h caller retained w command w' (quarantine_delivery reason).
Proof. intros Hne. split; [by intros ?%quarantine_not_acknowledge|done]. Qed.

Lemma acknowledged_ending h caller retained w command w1 w' response :
  authority_answers h caller w command w1 response →
  response_published (nch_transport h) w1 command w' response
    ∨ w' = w1 ∧ (∃ r, retained = Some r ∧ response_eqb response r = true) →
  ending_ok h caller retained w command w' Acknowledge.
Proof.
  intros Ha Hp. split; [|by intros E; symmetry in E; apply quarantine_not_acknowledge in E].
  intros _. by exists response, w1.
Qed.

Lemma published_ending h caller retained w command w1 w' response disposition :
  authority_answers h caller w command w1 response →
  acknowledge_published (nch_transport h) w1 command response = (w', disposition) →
  ending_ok h caller retained w command w' disposition.
Proof.
  intros Ha [[-> Hp]| ->]%acknowledge_published_spec; [|apply retry_ending].
  eapply acknowledged_ending; [exact Ha|by left].
Qed.

Lemma process_and_publish_ending h caller retained w command w' disposition :
  process_and_publish debug_str h w caller command = (w', disposition) →
  ending_ok h caller retained w command w' disposition.
Proof.
  unfold process_and_publish. destruct (handler_process _ _ _ _ _) as [w1 [response|error]] eqn:Ep.
  { apply published_ending. by left. }
  assert (∀ w', processor_error_is_retryable error = false →
    (technical_response error command = Ok None ∧ w' = w1
     ∨ ∃ response, technical_response error command = Ok (Some response)
       ∧ response_published (nch_transport h) w1 command w' response) →
    ending_ok h caller retained w command w' permanent_failure) as Hf.
  { intros w2 Hr Ht. split; [by intros ?%quarantine_not_acknowledge|intros _]. by exists error, w1. }
  fold permanent_failure. destruct (technical_response error command) as [[response|]|e] eqn:Et.
  - destruct (handler_publish_response _ _ _ _) as [w2 [receipt|e]] eqn:Eh; intros [= <- <-]; [|apply retry_ending].
    destruct (processor_error_is_retryable error) eqn:Er; [apply retry_ending|].
    apply Hf; [done|right]. exists response. split; [done|]. by exists receipt.
  - intros [= <- <-]. destruct (processor_error_is_retryable error) eqn:Er; [apply retry_ending|].
    apply Hf; [done|by left].
  - intros [= <- <-]. apply retry_ending.
Qed.

Lemma settle_retained_ending h caller w command retained w' disposition :
  settle_retained debug_str h w caller command retained = (w', disposition) →
  ending_ok h caller (Some retained) w command w' disposition.
Proof.
  unfold settle_retained. destruct (handler_reconcile_completed _ _ _ _ _) as [w1 [authoritative|error]] eqn:Ec.
  2: { intros [= <- <-]. destruct (processor_error_is_retryable error); [apply retry_ending|].
       by apply quarantine_ending. }
  assert (∀ reason, (w1, if is_some_and (λ a, response_eqb a retained) authoritative then Acknowledge
      else quarantine_delivery reason) = (w', disposition) →
    quarantine_delivery reason ≠ permanent_failure →
    ending_ok h caller (Some retained) w command w' disposition) as Hf.
  { intros reason [= <- <-] Hne. destruct authoritative as [response|]; [|by apply quarantine_ending].
    cbn. destruct (response_eqb response retained) eqn:Ee; [|by apply quarantine_ending].
    eapply acknowledged_ending; [by right|]. right. split; [done|]. by exists retained. }
  destruct (rsp_outcome retained) as [|rejection|failure]; try by (intros E; eapply Hf; [exact E|done]).
  destruct authoritative as [response|]; [apply published_ending; by right|].
  intros [= <- <-]. by apply quarantine_ending.
Qed.

(** C16 (safety). A worker acknowledges a command only when it is answered where its
    sender looks: after the caller was resolved and what is retained for the command
    was read, processing the command ended with a response, or its shared outcome is
    one, and either the last thing the worker did was to publish that response, or
    it is the response retained. A command is given up as permanently failed only
    after its processing failed for good, and the technical response, if there is
    one, was published last. A delivery that is no consistent command is quarantined
    and touches nothing. *)
Theorem acknowledged_command_is_answered h w delivery w' disposition :
  nats_handle_command debug_str h w delivery = (w', disposition) →
  match command_of_delivery delivery with
  | Ok command => disposition = Acknowledge ∨ disposition = permanent_failure →
    ∃ caller w1 retained w2, resolve_caller (nch_processor h) w delivery = (w1, Ok caller)
      ∧ reconcile_retained (nch_transport h) w1 command = (w2, Ok retained)
      ∧ ending_ok h caller retained w2 command w' disposition
  | Err reason => w' = w ∧ disposition = quarantine_delivery reason
  end.
Proof.
  unfold nats_handle_command. destruct (command_of_delivery delivery) as [command|reason]; [|by intros [= <- <-]].
  assert (∀ reason, quarantine_delivery reason ≠ permanent_failure →
    ¬ (quarantine_delivery reason = Acknowledge ∨ quarantine_delivery reason = permanent_failure)) as Hq.
  { intros reason Hne [?%quarantine_not_acknowledge|?]; done. }
  assert (¬ (retry_delivery = Acknowledge ∨ retry_delivery = permanent_failure)) as Hr.
  { intros [[=]|E]. symmetry in E. by apply quarantine_not_retry in E. }
  destruct (resolve_caller _ _ _) as [w1 resolved] eqn:Er. destruct resolved as [caller|refusal].
  2: { intros [= <- <-]. revert Er. unfold resolve_caller. destruct (nch_processor h) as [|service resolver]; [done|].
       destruct (resolver w delivery) as [w2 [caller|[]]]; intros [= <- <-] [];
         first [by destruct Hr; auto|by edestruct Hq; eauto]. }
  destruct (reconcile_retained _ _ _) as [w2 retained] eqn:Ef.
  destruct retained as [retained|[|]].
  2: { intros [= <- <-] Hd. by apply Hq in Hd. }
  2: { intros [= <- <-] Hd. by apply Hr in Hd. }
  intros H _. exists caller, w1, retained, w2. split_and!; [done..|].
  destruct retained as [response|]; [|by apply process_and_publish_ending].
  destruct (rsp_outcome response) as [| |failure];
    [by apply settle_retained_ending..|destruct (is_retryable failure)];
    [by apply process_and_publish_ending|by apply settle_retained_ending].
Qed.

(** A settled command is not executed again: with a final response,
    or a diagnostic that blocks the command, retained for it, a worker's handling
    of its delivery does not depend on what processing the command would do. *)
Theorem settled_command_is_not_executed transport completed processing processing' w delivery command w' response :
  command_of_delivery delivery = Ok command →
  reconcile_retained transport w command = (w', Ok (Some response)) →
  (∀ failure, rsp_outcome response = ResponseExecutionFailed failure → is_retryable failure = false) →
  nats_handle_command debug_str (mkCommandHandler (TrustedProcessor completed processing) transport) w delivery
  = nats_handle_command debug_str (mkCommandHandler (TrustedProcessor completed processing') transport) w delivery.
Proof.
  intros Hc Hr Hf. unfold nats_handle_command. rewrite Hc. cbn [resolve_caller nch_processor nch_transport]. rewrite Hr.
  destruct (rsp_outcome response) as [| |failure] eqn:Eo; [done..|]. by rewrite (Hf _ eq_refl).
Qed.

(** ** The caller *)

Implicit Types (a : NatsMessagingAdapter (W := W)).

(** Where a response a caller gets comes from, as the last access, which leaves
    [w']: with an outcome service, from the authority, for this caller; without
    one, from the response stream *)
Definition answered_by a (command : EncodedCommand) (w' : W) (response : CommandResponse) : Prop :=
  match nma_outcome_service a with
  | Some (service, caller) => ∃ w, caller_lookup debug_str service w caller command = (w', Ok (Some response))
  | None =>
    validate_response command response = Ok tt ∧ is_execution_failed (rsp_outcome response) = false
    ∧ ∃ address w, response_address command = Ok address
        ∧ rt_read (nma_transport a) w address (enc_operation_id command) (enc_message_id command) = (w', Ok response)
  end.

Lemma authorized_response_spec a w command w' response :
  authorized_response debug_str a w command = (w', Ok (Some response)) → answered_by a command w' response.
Proof.
  unfold authorized_response, answered_by. destruct (nma_outcome_service a) as [[service caller]|]; [|done].
  destruct (caller_lookup _ _ _ _ _) as [w1 found] eqn:E. intros [= <- H%map_err_Ok]. subst found. by exists w.
Qed.

Lemma read_slices_spec a slices w address command w' response :
  read_slices a slices w address command = (w', Ok response) →
  ∃ w, rt_read (nma_transport a) w address (enc_operation_id command) (enc_message_id command) = (w', Ok response).
Proof.
  revert w. induction slices as [|slices IH]; intros w; cbn [read_slices]; [done|].
  destruct (rt_read _ _ _ _ _) as [w1 [read|[]]] eqn:E; try done; try apply IH. intros [= <- <-]. by exists w.
Qed.

Lemma slices_answer_spec a slices w command w' response :
  read_response_with_timeout a slices w command = (w', Ok response) →
  ∃ address w, response_address command = Ok address
    ∧ rt_read (nma_transport a) w address (enc_operation_id command) (enc_message_id command) = (w', Ok response).
Proof.
  unfold read_response_with_timeout. destruct (response_address command) as [address|]; [|done].
  intros (w1 & H)%read_slices_spec. by exists address, w1.
Qed.

Lemma await_response_spec a slices w duplicate command w' receipt :
  await_response debug_str a slices w duplicate command = (w', Ok receipt) →
  answered_by a command w' (cbr_response receipt) ∧ cbr_publication_duplicate receipt = duplicate.
Proof.
  unfold await_response. destruct (if nma_replay_publication a then _ else _) as [w1 winner] eqn:E.
  destruct winner as [[winner|]|error]; [|clear E|done].
  { intros [= <- <-]. split; [|done]. destruct (nma_replay_publication a); [|done]. by eapply authorized_response_spec. }
  destruct (read_response_with_timeout _ _ _ _) as [w2 [response|error]] eqn:Er; [|done].
  apply slices_answer_spec in Er as (address & w3 & Ha & Hr).
  destruct (authorized_response _ _ _ _) as [w5 [[winner|]|error]] eqn:Ea; [| |done].
  { intros [= <- <-]. split; [|done]. by eapply authorized_response_spec. }
  intros [= <- H]. unfold receipt_of_response in H. destruct (_ && _) eqn:Es in H; [done|].
  apply rbind_Ok in H as ([] & Hv%map_err_Ok & H).
  assert (is_execution_failed (rsp_outcome response) = false ∧ receipt = CommandBusReceipt_new duplicate response) as [Hf ->].
  { destruct (rsp_outcome response); try done; by injection H as <-. }
  split; [|done]. unfold answered_by. cbn [cbr_response].
  unfold authorized_response in Ea. destruct (nma_outcome_service a); [by rewrite Hf in Es|]. injection Ea as <-.
  split_and!; [done..|]. by exists address, w3.
Qed.

(** *** What is sent to the command stream

    [log] shows what the command publisher was given, in order: nothing else the
    adapter is made of sends commands. *)
Record logs_publications (log : W → list (OutboundMessage CommandAddress)) a : Prop := {
  lp_publisher : ∀ w message, log (nma_command_publisher a w message).1 = log w ++ [message];
  lp_read : ∀ w address operation_id message_id,
    log (rt_read (nma_transport a) w address operation_id message_id).1 = log w;
  lp_service : ∀ service caller w command, nma_outcome_service a = Some (service, caller) →
    log (svc_lookup service w caller command).1 = log w;
}.

Lemma publish_attempts_log {R} (log : W → list (OutboundMessage CommandAddress)) (publish : W → W * result R CorePublishErrorKind) message more w w' published :
  (∀ w, log (publish w).1 = log w ++ [message]) → publish_attempts publish more w = (w', published) →
  ∃ k, (1 <= k <= S more)%nat ∧ log w' = log w ++ replicate k message.
Proof.
  intros Hlog. revert w. induction more as [|more IH]; intros w; cbn [publish_attempts];
    pose proof (Hlog w) as Hw; destruct (publish w) as [w1 [r|error]]; cbn [fst] in Hw.
  1-3: by (intros [= <- <-]; exists 1%nat; split; [lia|]).
  destruct (publish_again error); [|by (intros [= <- <-]; exists 1%nat; split; [lia|])].
  intros (k & Hk & ->)%IH. exists (S k). split; [lia|]. rewrite Hw, <- app_assoc. done.
Qed.

Lemma authorized_response_log log a w command :
  logs_publications log a → log (authorized_response debug_str a w command).1 = log w.
Proof.
  intros [_ _ Hs]. unfold authorized_response, caller_lookup.
  destruct (nma_outcome_service a) as [[service caller]|]; [|done]. specialize (Hs _ _ w command eq_refl).
  by destruct (svc_lookup service w caller command).
Qed.

Lemma read_response_log log a slices w command :
  logs_publications log a → log (read_response_with_timeout a slices w command).1 = log w.
Proof.
  intros [_ Hr _]. unfold read_response_with_timeout. destruct (response_address command) as [address|]; [|done].
  revert w. induction slices as [|slices IH]; intros w; cbn [read_slices]; [done|].
  specialize (Hr w address (enc_operation_id command) (enc_message_id command)).
  destruct (rt_read _ _ _ _ _) as [w1 [response|[]]]; cbn [fst] in *; by rewrite ?IH.
Qed.

Lemma await_response_log log a slices w duplicate command :
  logs_publications log a → log (await_response debug_str a slices w duplicate command).1 = log w.
Proof.
  intros Hl. unfold await_response.
  assert (log (if nma_replay_publication a then authorized_response debug_str a w command else (w, Ok None)).1 = log w)
    as H1 by (destruct (nma_replay_publication a); [by apply authorized_response_log|done]).
  destruct (if nma_replay_publication a then _ else _) as [w1 [[winner|]|error]]; cbn [fst] in *; [done| |done].
  pose proof (read_response_log log a slices w1 command Hl) as H2.
  destruct (read_response_with_timeout _ _ _ _) as [w2 [response|error]]; cbn [fst] in *; [|congruence].
  pose proof (authorized_response_log log a w2 command Hl) as H3.
  destruct (authorized_response _ _ _ _) as [w3 [[winner|]|error]]; cbn [fst] in *; congruence.
Qed.

(** The publication of a dispatch: at least one attempt with this command *)
Lemma publish_and_await log a slices w command w' publications answer :
  logs_publications log a →
  (let '(w, published) := adapter_publish_command a w command in
   match published with
   | Err error => (w, [], Err error)
   | Ok receipt =>
     let '(w, answer) := await_response debug_str a slices w (publish_duplicate receipt) command in
     (w, [CommandPublication_new (enc_message_id command) (publish_duplicate receipt)], answer)
   end) = (w', publications, answer) →
  (∀ receipt, answer = Ok receipt → answered_by a command w' (cbr_response receipt))
  ∧ (publications = [] ∨ ∃ duplicate, publications = [CommandPublication_new (enc_message_id command) duplicate])
  ∧ ∃ k, (1 <= k <= MAXIMUM_PUBLISH_ATTEMPTS)%nat ∧ log w' = log w ++ replicate k (enc_message command).
Proof.
  intros Hl. unfold adapter_publish_command.
  destruct (publish_attempts _ _ _) as [w1 published] eqn:Ep.
  apply (publish_attempts_log log _ (enc_message command)) in Ep as (k & Hk & Hlog);
    [|intros; apply (lp_publisher _ _ Hl)].
  destruct published as [receipt|error]; cbn [map_err].
  - pose proof (await_response_log log a slices w1 (publish_duplicate receipt) command Hl) as Ha.
    destruct (await_response _ _ _ _ _ _) as [w2 an] eqn:Ew. cbn [fst] in Ha. intros [= <- <- <-].
    split_and!; [|right; by eexists|exists k; split; [done|congruence]].
    intros r ->. by eapply await_response_spec in Ew as [? _].
  - intros [= <- <- <-]. split_and!; [done|by left|by exists k].
Qed.

End CommandFacts.
