(* ===== verification/NatsDomainEvents.v ===== *)
(** * NatsDomainEvents: the ordered consumer of committed domain events
    (crates/rostfrei-nats/src/domain_event_consumer.rs) and the set of fixture
    events it does not dispatch (FixtureEventSet of crates/rostfrei-fixtures).

    An error is its kind; the texts are left out. What the server answers, what
    the event store loads and how a turn of the loop is interrupted are
    arguments; a dispatch changes a state of its handlers. *)

From S2P Require Export NatsReceipt NatsConsumer DomainEvent.

Definition MAX_WAITING_PULLS : Z := 512.

Inductive DomainEventConsumerErrorKind :=
| EventsInvalidConfiguration | EventsUnavailable | EventsInvalidCommittedEvent
| EventsPermanentlyUnsupported | EventsOperatorBlocked | EventsAcknowledgement | EventsEnded.

(** [handler_blocked] *)
Definition handler_blocked (e : DomainEventHandlerError) : DomainEventConsumerErrorKind :=
  match handler_error_kind e with
  | Retryable => EventsUnavailable
  | PermanentlyUnsupported => EventsPermanentlyUnsupported
  | InvalidCommittedEvent => EventsInvalidCommittedEvent
  | OperatorBlocking => EventsOperatorBlocked
  end.

(** [connect]'s classification of an event store that cannot be opened *)
Definition connect_error (e : EventStoreError) : DomainEventConsumerErrorKind :=
  if bool_decide (se_kind e = ConfigurationMismatch) || bool_decide (se_kind e = InvalidRequest)
  then EventsInvalidConfiguration else EventsUnavailable.

(** ** Fixture events *)

(** [FixtureEventSet] *)
Definition FixtureEventSet : Type := gmap EventId (list RecordedEvent).
Definition fixture_contains (fixtures : FixtureEventSet) (event : RecordedEvent) : bool :=
  is_some_and (λ candidates, bool_decide (event ∈ candidates)) (fixtures !! re_event_id event).
Definition fixture_insert (fixtures : FixtureEventSet) (event : RecordedEvent) : FixtureEventSet :=
  let candidates := default [] (fixtures !! re_event_id event) in
  <[re_event_id event := if bool_decide (event ∈ candidates) then candidates else candidates ++ [event]]> fixtures.
(** [into_values] has no order; the map's own is one. *)
Definition fixture_extend (fixtures other : FixtureEventSet) : FixtureEventSet :=
  foldl (foldl fixture_insert) fixtures ((map_to_list other).*2).

(** ** Configuration *)

Record NatsDomainEventConsumerConfig := mkEventsConfig {
  dec_name : ConsumerName;
  dec_durable_name : DurableName;
  dec_ack_wait : N;
  dec_processing_timeout : N;
  dec_retry_delay : RetryDelay;
  dec_start_sequence : option N;
}.

Definition NatsDomainEventConsumerConfig_new (name : ConsumerName) (durable_name : DurableName)
    (ack_wait processing_timeout : N) (retry_delay : RetryDelay)
  : result NatsDomainEventConsumerConfig DomainEventConsumerErrorKind :=
  fail! negb (String.eqb (delivery_application name) (delivery_application durable_name))
        || negb (String.eqb (delivery_context name) (delivery_context durable_name))
        || negb (bool_decide (delivery_scope name = delivery_scope durable_name))
    with EventsInvalidConfiguration;
  fail! (ack_wait =? 0) || (MAX_PROCESSING_TIMEOUT <? ack_wait) || (processing_timeout =? 0)
        || (ack_wait <=? processing_timeout)
    with EventsInvalidConfiguration;
  Ok (mkEventsConfig name durable_name ack_wait processing_timeout retry_delay None).
Definition with_start_sequence (c : NatsDomainEventConsumerConfig) (sequence : N)
  : result NatsDomainEventConsumerConfig DomainEventConsumerErrorKind :=
  fail! sequence =? 0 with EventsInvalidConfiguration;
  Ok (mkEventsConfig (dec_name c) (dec_durable_name c) (dec_ack_wait c) (dec_processing_timeout c)
        (dec_retry_delay c) (Some sequence)).

Definition durable_domain_event_consumer_config (store : NatsEventStoreConfig)
    (c : NatsDomainEventConsumerConfig) : result PullConfig DomainEventConsumerErrorKind :=
  let application := application_str (nc_application store) in
  let context := context_str (nc_bounded_context store) in
  fail! negb (String.eqb (delivery_application (dec_name c)) application)
        || negb (String.eqb (delivery_application (dec_durable_name c)) application)
        || negb (String.eqb (delivery_context (dec_name c)) context)
        || negb (String.eqb (delivery_context (dec_durable_name c)) context)
        || negb (bool_decide (delivery_scope (dec_name c) = nc_traffic_scope store))
        || negb (bool_decide (delivery_scope (dec_durable_name c) = nc_traffic_scope store))
    with EventsInvalidConfiguration;
  Ok {| pc_durable_name := Some (delivery_str (dec_durable_name c));
        pc_name := Some (delivery_str (dec_durable_name c));
        pc_description := Some (delivery_str (dec_name c));
        pc_deliver_policy := from_option DeliverByStartSequence DeliverAll (dec_start_sequence c);
        pc_ack_policy := AckExplicit; pc_ack_wait := dec_ack_wait c; pc_max_deliver := -1;
        pc_filter_subject := aggregate_subject_filter store; pc_filter_subjects := [];
        pc_max_ack_pending := 1; pc_max_batch := 1; pc_max_waiting := MAX_WAITING_PULLS |}.

(** [provision_domain_event_consumer] *)
Definition provision_domain_event_consumer (store : NatsEventStoreConfig) (c : NatsDomainEventConsumerConfig)
    (created : PullConfig → option PullConfig) : result PullConfig DomainEventConsumerErrorKind :=
  let? config := durable_domain_event_consumer_config store c in
  ok_or (created config) EventsUnavailable.

(** Compared fields the configuration leaves at their defaults *)
Definition compared_event_consumer_fields : list string :=
  ["deliver_group"; "replay_policy"; "rate_limit"; "sample_frequency"; "headers_only"; "flow_control";
   "idle_heartbeat"; "max_bytes"; "max_expires"; "inactive_threshold"; "num_replicas"; "memory_storage";
   "backoff"; "priority_policy"; "priority_groups"].

Definition verify_consumer (actual : ServerConsumer) (store : NatsEventStoreConfig)
    (c : NatsDomainEventConsumerConfig) : result unit DomainEventConsumerErrorKind :=
  let? expected := durable_domain_event_consumer_config store c in
  let config := svc_config actual in
  fail! bool_decide (pc_ack_policy config = AckAll) || (pc_max_waiting config =? 1)%Z
    with EventsInvalidConfiguration;
  fail! negb (String.eqb (svc_name actual) (delivery_str (dec_durable_name c)))
        || is_some (svc_deliver_subject actual)
        || negb (bool_decide (pc_name config = pc_name expected))
        || negb (bool_decide (pc_durable_name config = pc_durable_name expected))
        || negb (bool_decide (pc_description config = pc_description expected))
        || negb (bool_decide (pc_deliver_policy config = pc_deliver_policy expected))
        || negb (bool_decide (pc_ack_policy config = AckExplicit))
        || negb (pc_ack_wait config =? pc_ack_wait expected)
        || negb (pc_max_deliver config =? -1)%Z
        || negb (String.eqb (pc_filter_subject config) (pc_filter_subject expected))
        || negb (pc_max_ack_pending config =? pc_max_ack_pending expected)%Z
        || negb (pc_max_batch config =? pc_max_batch expected)%Z
        || negb (pc_max_waiting config =? pc_max_waiting expected)%Z
        || existsb (svc_differs actual) compared_event_consumer_fields
    with EventsInvalidConfiguration;
  Ok tt.

(** ** Buffered events *)

Record BufferedDomainEvent := mkBuffered {
  be_stream_sequence : N;
  be_decoded : DecodedEvent;
}.

Definition transaction_start (e : BufferedDomainEvent) : result N DomainEventConsumerErrorKind :=
  let? ordinal := ok_or (try_from u64_max (de_transaction_event_ordinal (be_decoded e)))
    EventsInvalidCommittedEvent in
  let? start := ok_or (checked_sub (be_stream_sequence e) ordinal) EventsInvalidCommittedEvent in
  fail! start =? 0 with EventsInvalidCommittedEvent;
  Ok start.

(** Two events of one transaction *)
Definition same_transaction (a b : DecodedEvent) : bool :=
  (de_transaction_event_count a =? de_transaction_event_count b)
  && String.eqb (de_batch_id a) (de_batch_id b)
  && bool_decide (de_operation_id a = de_operation_id b)
  && bool_decide (de_operation_fingerprint a = de_operation_fingerprint b)
  && bool_decide (re_correlation_id (de_recorded a) = re_correlation_id (de_recorded b))
  && bool_decide (re_causation_id (de_recorded a) = re_causation_id (de_recorded b)).

Definition validate_first_event (first : BufferedDomainEvent) : result unit DomainEventConsumerErrorKind :=
  fail! negb (de_transaction_event_ordinal (be_decoded first) =? 0)
        || negb (de_event_ordinal (be_decoded first) =? 0) with EventsInvalidCommittedEvent;
  Ok tt.

Definition validate_acknowledged_member (first event : BufferedDomainEvent)
  : result unit DomainEventConsumerErrorKind :=
  let? _ := validate_first_event first in
  let? start := transaction_start event in
  fail! negb (start =? be_stream_sequence first)
        || negb (same_transaction (be_decoded event) (be_decoded first))
        || negb (Bool.eqb (de_is_transactional (be_decoded event)) (de_is_transactional (be_decoded first)))
    with EventsInvalidCommittedEvent;
  Ok tt.

(** The coordinates of an event in its stream continue those of the commit. *)
Definition stream_coordinates_valid (commit : list BufferedDomainEvent) (previous next : DecodedEvent) : bool :=
  if bool_decide (re_stream_id (de_recorded next) = re_stream_id (de_recorded previous)) then
    bool_decide (de_commit_id next = de_commit_id previous)
    && bool_decide (checked_add usize_max (de_event_ordinal previous) 1 = Some (de_event_ordinal next))
    && (de_event_count next =? de_event_count previous)
    && bool_decide (checked_add u64_max (version_value (re_stream_version (de_recorded previous))) 1
                    = Some (version_value (re_stream_version (de_recorded next))))
  else
    bool_decide (checked_add usize_max (de_event_ordinal previous) 1 = Some (de_event_count previous))
    && (de_event_ordinal next =? 0)
    && negb (existsb (λ event, bool_decide (re_stream_id (de_recorded (be_decoded event))
                                            = re_stream_id (de_recorded next))) commit).

Definition validate_next_event (commit : list BufferedDomainEvent) (next : BufferedDomainEvent)
  : result unit DomainEventConsumerErrorKind :=
  let? first := ok_or (head commit) EventsInvalidCommittedEvent in
  let? previous := ok_or (last commit) EventsInvalidCommittedEvent in
  fail! negb (de_transaction_event_ordinal (be_decoded next) =? len commit)
        || negb (same_transaction (be_decoded next) (be_decoded first))
        || negb (stream_coordinates_valid commit (be_decoded previous) (be_decoded next))
        || negb (bool_decide (checked_add u64_max (be_stream_sequence previous) 1
                              = Some (be_stream_sequence next)))
    with EventsInvalidCommittedEvent;
  Ok tt.

Definition validate_complete_transaction (commit : list BufferedDomainEvent)
  : result unit DomainEventConsumerErrorKind :=
  let? first := ok_or (head commit) EventsInvalidCommittedEvent in
  let? final := ok_or (last commit) EventsInvalidCommittedEvent in
  let first := be_decoded first in
  let final := be_decoded final in
  fail! negb (len commit =? de_transaction_event_count first)
        || negb (bool_decide (checked_add usize_max (de_transaction_event_ordinal final) 1
                              = Some (de_transaction_event_count first)))
        || negb (bool_decide (checked_add usize_max (de_event_ordinal final) 1
                              = Some (de_event_count final)))
    with EventsInvalidCommittedEvent;
  Ok tt.

(** [BufferedEventTransaction] *)
Record BufferedEventTransaction := mkBufferedTransaction { bt_events : list BufferedDomainEvent }.
Definition BufferedEventTransaction_new (events : list BufferedDomainEvent)
  : result BufferedEventTransaction DomainEventConsumerErrorKind :=
  let? _ := validate_complete_transaction events in
  Ok (mkBufferedTransaction events).
Definition bt_first (t : BufferedEventTransaction) : option BufferedDomainEvent := head (bt_events t).
Definition bt_len (t : BufferedEventTransaction) : N := len (bt_events t).
Definition bt_is_transactional (t : BufferedEventTransaction) : bool :=
  is_some_and (λ event, de_is_transactional (be_decoded event)) (bt_first t).
Definition bt_recorded_events (t : BufferedEventTransaction) : list RecordedEvent :=
  (λ event, de_recorded (be_decoded event)) <$> bt_events t.

Section Events.
Context `{SHA : Sha256} `{WJ : Json StoredEventWire} `{CJ : Json ChecksumInput} `{B64 : Base64}.
Context `{HM : HeaderMapApi} `{HN : AtomicHeaderNames}.
Context {W : Type}.

(** [NatsDomainEventConsumer]; its dispatcher is what it makes of an event. *)
Record NatsDomainEventConsumer := mkEventConsumer {
  nec_store : NatsEventStoreConfig;
  nec_config : NatsDomainEventConsumerConfig;
  nec_dispatch : RecordedEvent → W → result DomainEventDispatchOutcome DomainEventHandlerError * W;
  nec_fixture_events : option FixtureEventSet;
}.
Implicit Types c : NatsDomainEventConsumer.

(** What processing an event reads: the durable's ack floor, a message by its
    sequence, the first message of the aggregate subjects at or after a sequence,
    and the receipt of an operation *)
Record EventAnswers := mkEventAnswers {
  ean_ack_floor : option N;
  ean_message : N → RawLookup;
  ean_first : N → RawLookup;
  ean_receipt : OperationId → result (option TransactionReceipt) EventStoreError;
}.

(** [raw_message_lookup_error] *)
Definition event_lookup (lookup : RawLookup) : result RawMessage DomainEventConsumerErrorKind :=
  match lookup with
  | MessageFound message => Ok message
  | NoMessageFound => Err EventsInvalidCommittedEvent
  | LookupFailed _ => Err EventsUnavailable
  end.

(** [read_event] *)
Definition read_event c (answers : EventAnswers) (sequence : N)
  : result BufferedDomainEvent DomainEventConsumerErrorKind :=
  let? raw := event_lookup (ean_message answers sequence) in
  let? decoded := map_err (λ _, EventsInvalidCommittedEvent)
    (decode_consumed_event (nec_store c) (rm_subject raw) (rm_headers raw) (rm_payload raw)) in
  Ok (mkBuffered (rm_sequence raw) decoded).

(** [buffer_delivery] *)
Definition buffer_delivery c (message : JetStreamMessage)
  : result BufferedDomainEvent DomainEventConsumerErrorKind :=
  let? info := ok_or (jm_info message) EventsUnavailable in
  fail! negb (String.eqb (ri_stream info) (nc_stream_name (nec_store c)))
        || negb (String.eqb (ri_consumer info) (delivery_str (dec_durable_name (nec_config c))))
        || (ri_stream_sequence info =? 0) || (ri_consumer_sequence info =? 0)
    with EventsInvalidCommittedEvent;
  let? headers := ok_or (jm_headers message) EventsInvalidCommittedEvent in
  let? decoded := map_err (λ _, EventsInvalidCommittedEvent)
    (decode_consumed_event (nec_store c) (jm_subject message) headers (jm_payload message)) in
  Ok (mkBuffered (ri_stream_sequence info) decoded).

(** ** Transactions *)

Definition sequences_between (next finish : N) : list N :=
  (λ i, next + N.of_nat i) <$> seq 0 (N.to_nat (finish - next)).

Definition push_event c (answers : EventAnswers) (events : list BufferedDomainEvent) (sequence : N)
  : result (list BufferedDomainEvent) DomainEventConsumerErrorKind :=
  let? event := read_event c answers sequence in
  let? _ := validate_next_event events event in
  Ok (events ++ [event]).

(** [reconstruct_transaction] *)
Definition reconstruct_transaction c (answers : EventAnswers) (first : BufferedDomainEvent)
  : result BufferedEventTransaction DomainEventConsumerErrorKind :=
  let? _ := validate_first_event first in
  let? count := ok_or (try_from u64_max (de_transaction_event_count (be_decoded first)))
    EventsInvalidCommittedEvent in
  let? finish := ok_or (checked_add u64_max (be_stream_sequence first) count) EventsInvalidCommittedEvent in
  let? next := ok_or (checked_add u64_max (be_stream_sequence first) 1) EventsInvalidCommittedEvent in
  let? events := try_fold (push_event c answers) [first] (sequences_between next finish) in
  BufferedEventTransaction_new events.

(** [validate_transaction_receipt] *)
Definition validate_transaction_receipt (answers : EventAnswers) (t : BufferedEventTransaction)
  : result unit DomainEventConsumerErrorKind :=
  let? first := ok_or (bt_first t) EventsInvalidCommittedEvent in
  fail! existsb (λ event, negb (Bool.eqb (de_is_transactional (be_decoded event))
                                  (de_is_transactional (be_decoded first)))) (bt_events t)
    with EventsInvalidCommittedEvent;
  if negb (de_is_transactional (be_decoded first)) then Ok tt
  else
    let? receipt := map_err (λ e, if bool_decide (se_kind e = Unavailable) then EventsUnavailable
                                  else EventsInvalidCommittedEvent)
      (ean_receipt answers (de_operation_id (be_decoded first))) in
    let? receipt := ok_or receipt EventsInvalidCommittedEvent in
    fail! negb (bool_decide (receipt_events receipt = bt_recorded_events t))
      with EventsInvalidCommittedEvent;
    Ok tt.

(** The dispatches of a transaction, up to the first that fails *)
Fixpoint dispatch_events c (events : list RecordedEvent) (w : W)
  : W * result unit DomainEventHandlerError :=
  match events with
  | [] => (w, Ok tt)
  | event :: events =>
    let (dispatched, w) := nec_dispatch c event w in
    match dispatched with
    | Err error => (w, Err error)
    | Ok (Handled | Ignored) => dispatch_events c events w
    end
  end.

(** [handle_transaction] *)
Definition handle_transaction c (t : BufferedEventTransaction) (w : W)
  : W * result unit DomainEventHandlerError :=
  let events := bt_recorded_events t in
  let fixture_event_count :=
    match nec_fixture_events c with
    | Some fixtures => if bt_is_transactional t then 0 else len (List.filter (fixture_contains fixtures) events)
    | None => 0
    end in
  if negb (fixture_event_count =? 0) then
    if fixture_event_count =? bt_len t then (w, Ok tt)
    else (w, Err (mkHandlerError InvalidCommittedEvent
                    "committed event transaction mixes fixture and application events"))
  else dispatch_events c events w.

(** [process_event]: whether the delivery is to be acknowledged *)
Definition process_event c (answers : EventAnswers) (event : BufferedDomainEvent) (w : W)
  : W * result bool DomainEventConsumerErrorKind :=
  match ean_ack_floor answers with
  | None => (w, Err EventsUnavailable)
  | Some floor =>
    let migrated_floor := default 0 (dec_start_sequence (nec_config c) ≫= (λ sequence, checked_sub sequence 1)) in
    let ack_floor := N.max floor migrated_floor in
    if be_stream_sequence event <=? ack_floor then (w, Ok true)
    else
      match transaction_start event with
      | Err error => (w, Err error)
      | Ok start =>
        if start <=? ack_floor then
          (w, let? first := read_event c answers start in
              let? _ := validate_acknowledged_member first event in
              Ok true)
        else
          match (let? search_start := ok_or (checked_add u64_max ack_floor 1) EventsInvalidCommittedEvent in
                 let? expected := event_lookup (ean_first answers search_start) in
                 if negb (be_stream_sequence event =? rm_sequence expected) then Ok None
                 else
                   let? transaction := reconstruct_transaction c answers event in
                   let? _ := validate_transaction_receipt answers transaction in
                   Ok (Some transaction)) with
          | Err error => (w, Err error)
          | Ok None => (w, Ok false)
          | Ok (Some transaction) =>
            let '(w, handled) := handle_transaction c transaction w in
            (w, rmap (λ _, true) (map_err handler_blocked handled))
          end
      end
  end.

(** ** The loop *)

(** What becomes of a delivery *)
Inductive EventStep := EventAcknowledged | EventDeferred (delay : N).

(** A turn: the pull, whether shutdown was requested after it, the deadline of the
    processing (with the state it leaves), what processing reads, whether shutdown
    was requested after it, whether the server takes the settlement, and whether
    the wait for a retry was not interrupted *)
Record TurnAnswers := mkTurnAnswers {
  tua_pull : option (option JetStreamMessage);
  tua_shutdown : bool;
  tua_elapsed : option W;
  tua_answers : EventAnswers;
  tua_shutdown_after : bool;
  tua_settled : bool;
  tua_waited : bool;
}.

(** How a turn ends: the loop goes on, stops, or fails *)
Inductive TurnEnd := TurnContinues | TurnStops | TurnFails (kind : DomainEventConsumerErrorKind).

Definition settle_turn (turn : TurnAnswers) (next : TurnEnd) : TurnEnd :=
  if tua_settled turn then next else TurnFails EventsAcknowledgement.

Definition consumer_turn c (turn : TurnAnswers) (w : W) : W * list EventStep * TurnEnd :=
  match tua_pull turn with
  | None => (w, [], TurnFails EventsUnavailable)
  | Some None => (w, [], TurnContinues)
  | Some (Some message) =>
    if tua_shutdown turn then (w, [EventDeferred 0], settle_turn turn TurnStops)
    else
      match buffer_delivery c message with
      | Err error => (w, [], TurnFails error)
      | Ok event =>
        let '(w, result) :=
          match tua_elapsed turn with
          | Some w => (w, Err EventsUnavailable)
          | None => process_event c (tua_answers turn) event w
          end in
        let delay := if tua_shutdown_after turn then 0 else retry_delay (dec_retry_delay (nec_config c)) in
        let deferred := (w, [EventDeferred delay],
                         settle_turn turn (if tua_waited turn then TurnContinues else TurnStops)) in
        match result with
        | Ok true => (w, [EventAcknowledged], settle_turn turn TurnContinues)
        | Ok false | Err EventsUnavailable => deferred
        | Err error => (w, [], TurnFails error)
        end
      end
  end.

(** [run_until_shutdown]: the turns until shutdown is requested; [stored] is the
    consumer found when it starts. *)
Fixpoint run_turns c (turns : list TurnAnswers) (w : W) : W * list EventStep * result unit DomainEventConsumerErrorKind :=
  match turns with
  | [] => (w, [], Ok tt)
  | turn :: turns =>
    let '(w, steps, ended) := consumer_turn c turn w in
    match ended with
    | TurnContinues => let '(w, later, ended) := run_turns c turns w in (w, steps ++ later, ended)
    | TurnStops => (w, steps, Ok tt)
    | TurnFails kind => (w, steps, Err kind)
    end
  end.
Definition run_until_shutdown c (requested : bool) (stored : option ServerConsumer) (turns : list TurnAnswers) (w : W)
  : W * list EventStep * result unit DomainEventConsumerErrorKind :=
  if requested then (w, [], Ok tt)
  else
    match (let? consumer := ok_or stored EventsUnavailable in
           verify_consumer consumer (nec_store c) (nec_config c)) with
    | Err kind => (w, [], Err kind)
    | Ok _ => run_turns c turns w
    end.
End Events.
