(* ===== verification/NatsEventFacts.v ===== *)
(** * NatsEventFacts: a committed domain event is acknowledged only after its whole
    transaction was dispatched, whichever workers share the durable consumer and
    however they are interrupted. *)

From Stdlib Require Import ZifyBool.
From S2P Require Export NatsDomainEvents NatsWireFacts.

Section EventFacts.
Context `{SHA : Sha256} `{WJ : Json StoredEventWire} `{CJ : Json ChecksumInput} `{B64 : Base64}.
Context `{HM : HeaderMapApi} `{HN : AtomicHeaderNames}.
Context {W : Type}.

(** ** The dispatches of a transaction *)

Variable dispatch_event : RecordedEvent → W → result DomainEventDispatchOutcome DomainEventHandlerError * W.

(** The dispatcher of every worker, with the events it dispatched without error *)
Definition recorded_dispatch (event : RecordedEvent) (s : W * list RecordedEvent)
  : result DomainEventDispatchOutcome DomainEventHandlerError * (W * list RecordedEvent) :=
  let (dispatched, w) := dispatch_event event s.1 in
  (dispatched, (w, match dispatched with Ok _ => event :: s.2 | Err _ => s.2 end)).

Variable store : NatsEventStoreConfig.
Variable config : NatsDomainEventConsumerConfig.

(** A worker; the fixture events are what its set holds at the time. *)
Definition worker (fixtures : option FixtureEventSet) : NatsDomainEventConsumer (W := W * list RecordedEvent) :=
  mkEventConsumer store config recorded_dispatch fixtures.

Lemma dispatch_events_spec fixtures events s s' r :
  dispatch_events (worker fixtures) events s = (s', r) →
  s.2 ⊆ s'.2 ∧ (r = Ok tt → ∀ e, e ∈ events → e ∈ s'.2).
Proof.
  revert s. induction events as [|e events IH]; intros s; cbn [dispatch_events].
  { intros [= <- <-]. split; [done|]. by intros _ e ?%elem_of_nil. }
  cbn [nec_dispatch worker]. unfold recorded_dispatch. destruct (dispatch_event e s.1) as [[o|error] w].
  2: { intros [= <- <-]. by split. }
  assert (match o with Handled | Ignored => dispatch_events (worker fixtures) events (w, e :: s.2) end
          = dispatch_events (worker fixtures) events (w, e :: s.2)) as -> by by destruct o.
  intros [Hs Hr]%IH. cbn in Hs. split; [set_solver|]. intros Hok x [->|Hx]%elem_of_cons; [set_solver|by apply Hr].
Qed.

Lemma filter_all {A} (p : A → bool) l : len (List.filter p l) = len l → Forall (λ x, p x = true) l.
Proof.
  unfold len. induction l as [|x l IH]; cbn; [constructor|]. pose proof (List.filter_length_le p l).
  destruct (p x) eqn:E; cbn; intros Hl; [constructor; [done|apply IH; lia]|lia].
Qed.

Lemma handle_transaction_spec fixtures t s s' r :
  handle_transaction (worker fixtures) t s = (s', r) →
  s.2 ⊆ s'.2
  ∧ (r = Ok tt → ∀ e, e ∈ bt_recorded_events t →
       e ∈ s'.2 ∨ is_some_and (λ fixtures, fixture_contains fixtures e) fixtures = true).
Proof.
  unfold handle_transaction. cbn [nec_fixture_events worker].
  set (count := match fixtures with Some _ => _ | None => _ end).
  destruct (count =? 0) eqn:E; cbn [negb].
  { intros [Hs Hr]%dispatch_events_spec. split; [done|]. intros Hok e He. left. by apply Hr. }
  destruct (count =? bt_len t) eqn:El; [|by intros [= <- <-]].
  intros [= <- <-]. split; [done|]. intros _ e He. right. unfold count in *. destruct fixtures as [fixtures|]; [|done].
  destruct (bt_is_transactional t); [done|]. apply N.eqb_eq in El.
  assert (len (List.filter (fixture_contains fixtures) (bt_recorded_events t)) = len (bt_recorded_events t)) as Hl.
  { rewrite El. unfold bt_len, bt_recorded_events, len. by rewrite length_fmap. }
  apply filter_all in Hl. by eapply Forall_forall in Hl.
Qed.

(** ** The log *)

(** The messages of the aggregate subjects by their sequence; none changes. *)
Variable log : N → option RawMessage.
Hypothesis log_sequence : ∀ n m, log n = Some m → rm_sequence m = n.

(** The event stored under a sequence *)
Definition logged (n : N) (d : DecodedEvent) : Prop :=
  ∃ m, log n = Some m ∧ decode_consumed_event store (rm_subject m) (rm_headers m) (rm_payload m) = Ok d.

Definition honest_messages (answers : EventAnswers) : Prop :=
  ∀ n m, ean_message answers n = MessageFound m → log n = Some m.

Lemma logged_unique n d d' : logged n d → logged n d' → d = d'.
Proof. intros (m & Hm & Hd) (m' & Hm' & Hd'). rewrite Hm in Hm'. injection Hm' as <-. rewrite Hd in Hd'. by injection Hd'. Qed.

Lemma logged_ordinal n d : logged n d → de_transaction_event_ordinal d < de_transaction_event_count d.
Proof.
  intros (m & _ & Hd). unfold decode_consumed_event in Hd. apply rmap_Ok in Hd as (s & Hd & <-).
  apply decode_event_inner_ok in Hd as (? & ? & ? & ? & Hok). by apply dk_transaction in Hok as [? _].
Qed.

Lemma read_event_logged fixtures answers n e :
  honest_messages answers → read_event (worker fixtures) answers n = Ok e →
  be_stream_sequence e = n ∧ logged n (be_decoded e).
Proof.
  intros Hh. unfold read_event. intros H. apply rbind_Ok in H as (raw & Hr & H).
  apply rbind_Ok in H as (d & Hd%map_err_Ok & H). injection H as <-. cbn.
  destruct (ean_message answers n) as [m| |] eqn:Em; [|done|done]. injection Hr as ->.
  apply Hh in Em. split; [by apply log_sequence|by exists raw].
Qed.

(** ** Reconstruction *)

Lemma pushed_events fixtures answers seqs events events' :
  try_fold (push_event (worker fixtures) answers) events seqs = Ok events' →
  ∃ rest, events' = events ++ rest ∧ Forall2 (λ n e, read_event (worker fixtures) answers n = Ok e) seqs rest.
Proof.
  revert events. induction seqs as [|n seqs IH]; intros events; cbn [try_fold].
  { intros [= <-]. exists []. by rewrite app_nil_r. }
  intros H. apply rbind_Ok in H as (events1 & Hp & H). apply IH in H as (rest & -> & Hf).
  unfold push_event in Hp. apply rbind_Ok in Hp as (e & He & Hp). apply rbind_Ok in Hp as (? & _ & [= <-]).
  exists (e :: rest). split; [by rewrite <- app_assoc|by constructor].
Qed.

Lemma sequences_between_lookup next finish k n :
  sequences_between next finish !! k = Some n → n = next + N.of_nat k ∧ n < finish.
Proof.
  unfold sequences_between. rewrite list_lookup_fmap. intros (i & Hi & ->)%fmap_Some.
  apply lookup_seq in Hi as [-> ?]. split; lia.
Qed.

Lemma length_sequences_between next finish : length (sequences_between next finish) = N.to_nat (finish - next).
Proof. unfold sequences_between. by rewrite length_fmap, length_seq. Qed.

(** A reconstructed transaction is the log from its first event on. *)
Lemma reconstruct_logged fixtures answers first t :
  honest_messages answers → logged (be_stream_sequence first) (be_decoded first) →
  reconstruct_transaction (worker fixtures) answers first = Ok t →
  de_transaction_event_ordinal (be_decoded first) = 0
  ∧ len (bt_events t) = de_transaction_event_count (be_decoded first)
  ∧ ∀ k e, bt_events t !! k = Some e → logged (be_stream_sequence first + N.of_nat k) (be_decoded e).
Proof.
  intros Hh Hl. unfold reconstruct_transaction. intros H.
  apply rbind_Ok in H as (u & Hv & H). apply rbind_Ok in H as (count & _ & H).
  apply rbind_Ok in H as (finish & _ & H). apply rbind_Ok in H as (next & Hn%ok_or_Ok & H).
  apply checked_add_Some in Hn as [-> _]. apply rbind_Ok in H as (events & Hf & H).
  apply pushed_events in Hf as (rest & -> & Hf).
  unfold BufferedEventTransaction_new in H. apply rbind_Ok in H as (u' & Hc & [= <-]). cbn [bt_events].
  split_and!.
  - unfold validate_first_event in Hv. destruct (_ || _) eqn:E in Hv; [done|].
    by apply orb_false_iff in E as [E%negb_false_iff%N.eqb_eq _].
  - unfold validate_complete_transaction in Hc. apply rbind_Ok in Hc as (f & Hfi & Hc).
    cbn in Hfi. injection Hfi as <-. apply rbind_Ok in Hc as (l & _ & Hc).
    destruct (_ || _) eqn:E in Hc; [done|].
    by apply orb_false_iff in E as [[E%negb_false_iff%N.eqb_eq _]%orb_false_iff _].
  - intros [|k] e; cbn; [intros [= <-]; by rewrite N.add_0_r|].
    intros He. eapply Forall2_lookup_r in Hf as (n & Hn & Hr); [|exact He].
    apply sequences_between_lookup in Hn as [-> _]. apply read_event_logged in Hr as [_ Hr]; [|done].
    by replace (be_stream_sequence first + N.of_nat (S k)) with (be_stream_sequence first + 1 + N.of_nat k) by lia.
Qed.

(** ** What is handled *)

(** The events a fixture generated, which no worker dispatches *)
Variable fixture : RecordedEvent → Prop.

(** The position before which a migrated durable starts *)
Definition migrated : N := default 0 (dec_start_sequence config ≫= (λ sequence, checked_sub sequence 1)).

Definition handled (dispatched : list RecordedEvent) (n : N) : Prop :=
  ∃ d, logged n d ∧ (de_recorded d ∈ dispatched ∨ fixture (de_recorded d)).

(** All events of the transaction of the event [d] stored under [n], unless it
    starts before the migrated position *)
Definition transaction_handled (dispatched : list RecordedEvent) (n : N) (d : DecodedEvent) : Prop :=
  n <= migrated
  ∨ ∃ start, start + de_transaction_event_ordinal d = n
      ∧ (start <= migrated ∨ ∀ k, k < de_transaction_event_count d → handled dispatched (start + k)).

Lemma handled_mono dispatched dispatched' n : dispatched ⊆ dispatched' → handled dispatched n → handled dispatched' n.
Proof. intros Hs (d & Hd & [He|He]); exists d; split; auto. Qed.
Lemma transaction_handled_mono dispatched dispatched' n d :
  dispatched ⊆ dispatched' → transaction_handled dispatched n d → transaction_handled dispatched' n d.
Proof.
  intros Hs [?|(start & Ho & [?|Hk])]; [by left|right; exists start; auto..].
  split; [done|]. right. intros k Hlt. by eapply handled_mono, Hk.
Qed.

Lemma transaction_start_spec e start :
  transaction_start e = Ok start →
  start + de_transaction_event_ordinal (be_decoded e) = be_stream_sequence e.
Proof.
  unfold transaction_start. intros H. apply rbind_Ok in H as (o & Ho%ok_or_Ok & H).
  apply rbind_Ok in H as (st & Hs%ok_or_Ok & H). destruct (st =? 0); [done|]. injection H as <-.
  apply try_from_Some in Ho as [-> _]. apply checked_sub_Some in Hs as [-> ?]. lia.
Qed.

(** Which fixture events a worker knows, and what a durable's floor means *)
Definition honest_fixtures (fixtures : option FixtureEventSet) : Prop :=
  ∀ e, is_some_and (λ fixtures, fixture_contains fixtures e) fixtures = true → fixture e.
Definition honest_floor (acknowledged : gset N) (answers : EventAnswers) : Prop :=
  ∀ floor n d, ean_ack_floor answers = Some floor → logged n d → n <= floor → n ∈ acknowledged.

Lemma member_handled dispatched first event start :
  validate_acknowledged_member first event = Ok tt → transaction_start event = Ok start →
  be_stream_sequence first = start → migrated < start →
  transaction_handled dispatched start (be_decoded first) →
  transaction_handled dispatched (be_stream_sequence event) (be_decoded event).
Proof.
  intros Hv Hs Hf Hm Ht. unfold validate_acknowledged_member in Hv. apply rbind_Ok in Hv as ([] & Hfirst & Hv).
  rewrite Hs in Hv. cbn [rbind] in Hv. destruct (_ || _) eqn:E in Hv; [done|].
  apply orb_false_iff in E as [[_ E%negb_false_iff]%orb_false_iff _]. unfold same_transaction in E.
  rewrite !andb_true_iff in E. destruct E as [[[[[E%N.eqb_eq _] _] _] _] _].
  unfold validate_first_event in Hfirst. destruct (_ || _) eqn:E0 in Hfirst; [done|].
  apply orb_false_iff in E0 as [E0%negb_false_iff%N.eqb_eq _].
  destruct Ht as [?|(start' & Ho & Hk)]; [lia|]. rewrite E0, N.add_0_r in Ho. subst start'.
  right. exists start. split; [by apply transaction_start_spec|]. by rewrite E.
Qed.

Lemma transaction_dispatched fixtures answers e t s s' :
  honest_messages answers → honest_fixtures fixtures → logged (be_stream_sequence e) (be_decoded e) →
  reconstruct_transaction (worker fixtures) answers e = Ok t →
  handle_transaction (worker fixtures) t s = (s', Ok tt) →
  transaction_handled s'.2 (be_stream_sequence e) (be_decoded e).
Proof.
  intros Hh Hf Hl Ht Hd. apply reconstruct_logged in Ht as (Ho & Hlen & Hlk); [|done..].
  apply handle_transaction_spec in Hd as [_ Hd]. specialize (Hd eq_refl).
  right. exists (be_stream_sequence e). split; [lia|]. right. intros k Hk.
  destruct (lookup_lt_is_Some_2 (bt_events t) (N.to_nat k)) as [ek Hek].
  { unfold len in Hlen. lia. }
  exists (be_decoded ek). split; [by rewrite <- (N2Nat.id k); apply Hlk|].
  destruct (Hd (de_recorded (be_decoded ek))) as [?|?]; [|by left|right; by apply Hf].
  unfold bt_recorded_events. apply list_elem_of_fmap. exists ek. split; [done|by eapply list_elem_of_lookup_2].
Qed.

Lemma process_event_spec fixtures acknowledged answers e s s' r :
  honest_messages answers → honest_fixtures fixtures → honest_floor acknowledged answers →
  (∀ n d, n ∈ acknowledged → logged n d → transaction_handled s.2 n d) →
  logged (be_stream_sequence e) (be_decoded e) →
  process_event (worker fixtures) answers e s = (s', r) →
  s.2 ⊆ s'.2 ∧ (r = Ok true → transaction_handled s'.2 (be_stream_sequence e) (be_decoded e)).
Proof.
  intros Hh Hf Hfl Hi Hl. unfold process_event. destruct (ean_ack_floor answers) as [floor|] eqn:Efl; [|by intros [= <- <-]].
  cbn [nec_config worker]. fold migrated.
  destruct (_ <=? _) eqn:E1.
  { intros [= <- <-]. split; [done|]. intros _. apply N.leb_le, N.max_le in E1 as [?|?]; [|by left].
    apply Hi; [by eapply Hfl|done]. }
  destruct (transaction_start e) as [start|error] eqn:Es; [|by intros [= <- <-]].
  destruct (start <=? _) eqn:E2.
  { intros [= <- <-]. split; [done|]. intros H. apply rbind_Ok in H as (first & Hr & H).
    apply rbind_Ok in H as ([] & Hv & _). apply read_event_logged in Hr as [Hseq Hlog]; [|done].
    destruct (decide (start <= migrated)) as [?|Hm].
    - right. exists start. split; [by apply transaction_start_spec|by left].
    - eapply member_handled; [done..|lia|]. apply Hi; [|done]. eapply Hfl; [done..|lia]. }
  destruct (rbind (ok_or _ _) _) as [[t|]|error] eqn:Et; [|by intros [= <- <-]..].
  destruct (handle_transaction _ _ _) as [s1 handled'] eqn:Eh. intros [= <- <-].
  pose proof (handle_transaction_spec _ _ _ _ _ Eh) as [Hs _]. split; [done|].
  intros H. apply rmap_Ok in H as (u & Hu%map_err_Ok & _). subst handled'. destruct u.
  apply rbind_Ok in Et as (st & _ & Et). apply rbind_Ok in Et as (ex & _ & Et). destruct (negb _) in Et; [done|].
  apply rbind_Ok in Et as (t' & Hrec & Et). apply rbind_Ok in Et as (? & _ & [= <-]).
  by eapply transaction_dispatched.
Qed.

(** ** The durable and its workers *)

(** What a durable delivers is what the log stores. *)
Definition honest_pull (turn : TurnAnswers (W := W * list RecordedEvent)) : Prop :=
  ∀ message info, tua_pull turn = Some (Some message) → jm_info message = Some info →
    ∃ m, log (ri_stream_sequence info) = Some m ∧ rm_subject m = jm_subject message
      ∧ jm_headers message = Some (rm_headers m) ∧ rm_payload m = jm_payload message.

(** The acknowledged sequences of the durable, and the state of the handlers with
    the events dispatched so far. A turn of any worker; one that is cut off by its
    deadline leaves some state in which nothing dispatched is undone; an
    acknowledgement may or may not reach the server. *)
Inductive work_step : gset N * (W * list RecordedEvent) → gset N * (W * list RecordedEvent) → Prop :=
| worker_turn acknowledged acknowledged' s s' fixtures turn steps ended :
    honest_messages (tua_answers turn) → honest_fixtures fixtures →
    honest_floor acknowledged (tua_answers turn) → honest_pull turn →
    (∀ w, tua_elapsed turn = Some w → s.2 ⊆ w.2) →
    consumer_turn (worker fixtures) turn s = (s', steps, ended) →
    (acknowledged' = acknowledged
     ∨ EventAcknowledged ∈ steps ∧ ∃ message info, tua_pull turn = Some (Some message)
         ∧ jm_info message = Some info ∧ acknowledged' = {[ ri_stream_sequence info ]} ∪ acknowledged) →
    work_step (acknowledged, s) (acknowledged', s').

Definition work_ok (x : gset N * (W * list RecordedEvent)) : Prop :=
  ∀ n d, n ∈ x.1 → logged n d → transaction_handled x.2.2 n d.

Lemma buffer_delivery_logged fixtures turn message e :
  honest_pull turn → tua_pull turn = Some (Some message) →
  buffer_delivery (worker fixtures) message = Ok e →
  logged (be_stream_sequence e) (be_decoded e)
  ∧ ∀ info, jm_info message = Some info → ri_stream_sequence info = be_stream_sequence e.
Proof.
  intros Hp Hm. unfold buffer_delivery. intros H. apply rbind_Ok in H as (info & Hi%ok_or_Ok & H).
  destruct (_ || _) in H; [done|]. apply rbind_Ok in H as (headers & Hh%ok_or_Ok & H).
  apply rbind_Ok in H as (d & Hd%map_err_Ok & H). injection H as <-. cbn.
  destruct (Hp _ _ Hm Hi) as (m & Hlog & Hs & Hhe & Hpay). split.
  - exists m. split; [done|]. rewrite Hh in Hhe. injection Hhe as ->. by rewrite Hs, Hpay.
  - intros info' Hi'. rewrite Hi in Hi'. by injection Hi' as ->.
Qed.

(** What a turn that acknowledges an event has done *)
Definition turn_handles (turn : TurnAnswers (W := W * list RecordedEvent)) (s s' : W * list RecordedEvent)
    (steps : list EventStep) : Prop :=
  s.2 ⊆ s'.2
  ∧ (EventAcknowledged ∈ steps → ∀ message info d, tua_pull turn = Some (Some message) →
       jm_info message = Some info → logged (ri_stream_sequence info) d →
       transaction_handled s'.2 (ri_stream_sequence info) d).

Lemma turn_without_acknowledgement turn s s' steps :
  s.2 ⊆ s'.2 → EventAcknowledged ∉ steps → turn_handles turn s s' steps.
Proof. intros Hs Hn. by split. Qed.

Lemma consumer_turn_spec fixtures acknowledged turn s s' steps ended :
  honest_messages (tua_answers turn) → honest_fixtures fixtures →
  honest_floor acknowledged (tua_answers turn) → honest_pull turn →
  (∀ w, tua_elapsed turn = Some w → s.2 ⊆ w.2) → work_ok (acknowledged, s) →
  consumer_turn (worker fixtures) turn s = (s', steps, ended) → turn_handles turn s s' steps.
Proof.
  intros Hh Hf Hfl Hp He Hok. unfold consumer_turn.
  assert (EventAcknowledged ∉ []) as Hnil by (by intros ?%elem_of_nil).
  assert (∀ delay, EventAcknowledged ∉ [EventDeferred delay]) as Hdef by (by intros delay ?%list_elem_of_singleton).
  destruct (tua_pull turn) as [[message|]|] eqn:Em; [|by intros [= <- <- <-]; apply turn_without_acknowledgement..].
  destruct (tua_shutdown turn); [by intros [= <- <- <-]; apply turn_without_acknowledgement|].
  destruct (buffer_delivery _ _) as [e|] eqn:Eb; [|by intros [= <- <- <-]; apply turn_without_acknowledgement].
  eapply buffer_delivery_logged in Eb as [Hlog Hseq]; [|done..].
  destruct (match tua_elapsed turn with Some _ => _ | None => _ end) as [s1 result] eqn:Er.
  assert (s.2 ⊆ s1.2 ∧ (result = Ok true → transaction_handled s1.2 (be_stream_sequence e) (be_decoded e))) as [Hs Ht].
  { destruct (tua_elapsed turn) as [w|]; [injection Er as <- <-; by split; [apply He|]|].
    eapply process_event_spec in Er; [exact Er|done..]. }
  destruct result as [[|]|[]]; intros [= <- <- <-]; try by apply turn_without_acknowledgement.
  split; [done|]. intros _ message' info d Hm Hi Hd. rewrite Em in Hm. injection Hm as <-. rewrite (Hseq _ Hi) in *.
  rewrite (logged_unique _ _ _ Hd Hlog). by apply Ht.
Qed.

Lemma work_step_ok x y : work_step x y → work_ok x → work_ok y.
Proof.
  intros [acknowledged acknowledged' s s' fixtures turn steps ended Hh Hf Hfl Hp He Hturn Hack] Hok.
  eapply consumer_turn_spec in Hturn as [Hs Ht]; [|done..].
  intros n d Hn Hd. cbn [fst snd] in *.
  assert (n ∈ acknowledged → transaction_handled s'.2 n d) as Hold
    by (intros Hin; eapply transaction_handled_mono; [exact Hs|by apply Hok]).
  destruct Hack as [->|(Hin & message & info & Hm & Hi & ->)]; [by apply Hold|].
  apply elem_of_union in Hn as [->%elem_of_singleton|Hn]; [|by apply Hold]. by eapply Ht.
Qed.

(** C15 (invariant). No domain event is acknowledged before its transaction is
    handled. Whatever workers share the durable, however their turns time out,
    are shut down, lose an acknowledgement or meet a failing server: when an event
    is acknowledged, every event of its transaction, itself included, was
    dispatched without an error or is a fixture's, unless its transaction starts
    before the position the durable was migrated to. *)
Theorem acknowledged_events_are_handled w acknowledged s n d k :
  rtc work_step (∅, (w, [])) (acknowledged, s) →
  n ∈ acknowledged → logged n d → migrated + de_transaction_event_ordinal d < n →
  k < de_transaction_event_count d →
  handled s.2 (n - de_transaction_event_ordinal d + k) ∧ handled s.2 n.
Proof.
  intros Hr Hn Hd Hm Hk.
  assert (work_ok (acknowledged, s)) as Hok.
  { assert (work_ok (∅, (w, []))) as H0 by (intros ? ? ?; set_solver).
    revert H0 Hr. generalize (∅ : gset N, (w, [] : list RecordedEvent)), (acknowledged, s).
    intros x y Hx Hxy. induction Hxy as [|x y z Hxy Hyz IH]; [done|]. by apply IH, (work_step_ok x). }
  destruct (Hok n d Hn Hd) as [?|(start & <- & [?|Hall])]; [lia..|].
  split; [|apply Hall; by eapply logged_ordinal].
  replace (start + de_transaction_event_ordinal d - de_transaction_event_ordinal d) with start by lia. by apply Hall.
Qed.
End EventFacts.
