(* ===== verification/NatsQueries.v ===== *)
(** * NatsQueries: queries over NATS requests and replies - the requester and the
    server (crates/rostfrei-nats/src/query.rs), and that the handler which was
    asked answers.

    What becomes of a request that is sent, the handler's deadline and the clock
    are arguments. *)

From S2P Require Export NatsPublish QueryBus.

Definition REQUEST_ID_HEADER : string := "rostfrei-Control-Request-Id".
Definition DEFAULT_QUERY_HANDLER_TIMEOUT : N := 30 * nanos_per_second.
Definition DEFAULT_QUERY_SERVER_CONCURRENCY : N := 64.

Inductive NatsRequestErrorKind := RequestTimedOut | RequestNoResponders | RequestInvalidSubject
| RequestMaxPayloadExceeded | RequestOther.

Definition map_request_error (kind : NatsRequestErrorKind) : QueryRequestError :=
  match kind with
  | RequestTimedOut => QreTimeout
  | RequestMaxPayloadExceeded | RequestInvalidSubject => QreRejected
  | RequestNoResponders | RequestOther => QreUnavailable
  end.

(** [value.strip_prefix(prefix)] *)
Definition strip_prefix_text (prefix value : string) : option string :=
  if String.prefix prefix value
  then Some (String.substring (String.length prefix) (String.length value - String.length prefix) value)
  else None.

Definition valid_inbox (value : string) : bool :=
  is_some_and (λ suffix, negb (String.eqb suffix "") && (str_len suffix <=? 512)
    && bytes_all (λ byte, is_alphanumeric byte || (byte =? 46) || (byte =? 45) || (byte =? 95)) suffix)
    (strip_prefix_text "_INBOX." value).

(** ** Server configuration *)

Record NatsQueryServerConfig := mkQueryServerConfig {
  qsc_queue_group : option QueueGroup;
  qsc_handler_timeout : N;
  qsc_concurrency : N;
  qsc_maximum_request_bytes : N;
  qsc_maximum_response_bytes : N;
}.
Definition NatsQueryServerConfig_default : NatsQueryServerConfig :=
  mkQueryServerConfig None DEFAULT_QUERY_HANDLER_TIMEOUT DEFAULT_QUERY_SERVER_CONCURRENCY
    MAX_ENVELOPE_BYTES MAX_ENVELOPE_BYTES.
Definition query_server_validate (c : NatsQueryServerConfig) : result unit NatsError :=
  fail! (qsc_handler_timeout c =? 0) || (MAX_PROCESSING_TIMEOUT <? qsc_handler_timeout c)
        || (qsc_concurrency c =? 0) || (MAX_CONCURRENCY <? qsc_concurrency c)
        || (qsc_maximum_request_bytes c =? 0) || (MAX_ENVELOPE_BYTES <? qsc_maximum_request_bytes c)
        || (qsc_maximum_response_bytes c =? 0) || (MAX_ENVELOPE_BYTES <? qsc_maximum_response_bytes c)
    with NatsConfiguration;
  Ok tt.
Definition validated_server (c : NatsQueryServerConfig) : result NatsQueryServerConfig NatsError :=
  let? _ := query_server_validate c in Ok c.
Definition NatsQueryServerConfig_new (handler_timeout concurrency : N) : result NatsQueryServerConfig NatsError :=
  validated_server (mkQueryServerConfig None handler_timeout concurrency MAX_ENVELOPE_BYTES MAX_ENVELOPE_BYTES).
Definition with_queue_group (c : NatsQueryServerConfig) (queue_group : QueueGroup) : NatsQueryServerConfig :=
  mkQueryServerConfig (Some queue_group) (qsc_handler_timeout c) (qsc_concurrency c)
    (qsc_maximum_request_bytes c) (qsc_maximum_response_bytes c).
Definition with_maximum_request_bytes (c : NatsQueryServerConfig) (bytes : N) : result NatsQueryServerConfig NatsError :=
  validated_server (mkQueryServerConfig (qsc_queue_group c) (qsc_handler_timeout c) (qsc_concurrency c)
    bytes (qsc_maximum_response_bytes c)).
Definition with_maximum_response_bytes (c : NatsQueryServerConfig) (bytes : N) : result NatsQueryServerConfig NatsError :=
  validated_server (mkQueryServerConfig (qsc_queue_group c) (qsc_handler_timeout c) (qsc_concurrency c)
    (qsc_maximum_request_bytes c) bytes).

Section Queries.
Context `{JT : JsonText} `{HM : HeaderMapApi}.
Context {T W : Type} `{WT : Wire T W} `{QRJ : Json (QueryRequestWire W)}.
Context {R V : Type} `{WR : Wire R V} `{QSJ : Json (QueryResponseWire V)}.
Context `{VSJ : JsonCodec (QueryResponseWire JValue)}.

(** A core NATS message: a request, with the inbox of its reply, or a reply *)
Record NatsMessage := mkNatsMessage {
  nm_subject : string;
  nm_reply : option string;
  nm_headers : option HeaderMap;
  nm_payload : list byte;
}.

Definition insert_query_controls (h : HeaderMap) (request_id correlation_id : string) : HeaderMap :=
  headers_insert CORRELATION_ID_HEADER correlation_id
    (headers_insert REQUEST_ID_HEADER request_id (headers_insert CONTENT_TYPE_HEADER JSON_CONTENT_TYPE h)).

Definition one_header (h : HeaderMap) (name : string) : result string NatsError :=
  match headers_get_all h name with
  | [value] => Ok value
  | _ => Err NatsInvalidMessage
  end.

Definition validate_response_headers (h : HeaderMap) (request_id : MessageId) (correlation_id : CorrelationId)
  : result unit QueryRequestError :=
  let differs name expected :=
    match one_header h name with Ok value => negb (String.eqb value expected) | Err _ => true end in
  fail! differs CONTENT_TYPE_HEADER JSON_CONTENT_TYPE || differs REQUEST_ID_HEADER (id_str request_id)
        || differs CORRELATION_ID_HEADER (id_str correlation_id)
    with QreInvalidResponse;
  Ok tt.

(** ** The requester *)

Record NatsQueryRequester := mkQueryRequester {
  nqr_application : ApplicationName;
  nqr_traffic_scope : TrafficScope;
}.

(** [request]: what is sent, and the response; [answer] is what
    [send_request] makes of it within the timeout. *)
Definition nats_request (r : NatsQueryRequester) (answer : NatsMessage → result NatsMessage NatsRequestErrorKind)
    (address : QueryAddress) (request : QueryRequest T) (options : QueryOptions)
  : list NatsMessage * result (QueryResponse R) QueryRequestError :=
  if negb (String.eqb (address_application address) (application_str (nqr_application r)))
     || negb (bool_decide (address_scope address = nqr_traffic_scope r))
  then ([], Err QreRejected)
  else
    match to_vec (QueryRequest_serialize request) with
    | Err _ => ([], Err QreSerialization)
    | Ok payload =>
      let request_id := qr_message_id request in
      let correlation_id := qr_correlation_id request in
      let h := insert_query_controls (safe_headers (qr_metadata request) (qr_trace_context request))
                 (id_str request_id) (id_str correlation_id) in
      let message := mkNatsMessage (addr_str address) None (Some h) payload in
      ([message],
       let? response := map_err map_request_error (answer message) in
       fail! qo_maximum_response_bytes options <? len (nm_payload response) with QreResponseTooLarge;
       let? h := ok_or (nm_headers response) QreInvalidResponse in
       let? _ := validate_response_headers h request_id correlation_id in
       let? response := map_err (λ _, QreInvalidResponse) (read_query_response (nm_payload response)) in
       fail! negb (bool_decide (qs_request_id response = request_id))
             || negb (bool_decide (qs_correlation_id response = correlation_id))
             || negb (bool_decide (qs_schema_version response = qr_schema_version request))
         with QreInvalidResponse;
       Ok response)
    end.

(** ** The server *)

Definition adapter_query_error (classification : QueryErrorClassification) (code message : string)
  : result QueryErrorPayload NatsError :=
  let? code := map_err (λ _, NatsConfiguration) (ApplicationErrorCode_new code) in
  map_err (λ _, NatsConfiguration) (QueryErrorPayload_new classification code message).

(** [now_timestamp]: [clock] is the time since the Unix epoch in milliseconds,
    when the system clock is not before it. *)
Definition query_now (clock : option N) : result MessageTimestamp NatsError :=
  let? milliseconds := ok_or clock NatsQuery in
  let? milliseconds := ok_or (try_from u64_max milliseconds) NatsQuery in
  map_err (λ _, NatsQuery) (from_unix_milliseconds milliseconds).

Definition fallback_response (clock : option N) (request_id : MessageId) (schema_version : SchemaVersion)
    (correlation_id : CorrelationId) (trace_context : option TraceContext) : result (list byte) NatsError :=
  let? now := query_now clock in
  let? error := adapter_query_error QueryInternal "query.response_serialization"
    "query response could not be serialized" in
  let? response : QueryResponse JValue := map_err (λ _, NatsSerialization)
    (QueryResponse_error request_id schema_version now correlation_id trace_context error) in
  map_err (λ _, NatsSerialization) (to_vec (QueryResponse_serialize response)).

(** [QueryHandler] over a state *)
Definition NatsQueryHandler (S : Type) : Type := S → QueryRequest T → S * result R QueryErrorPayload.

(** What a request meets: the state left by a handler that is cut off by its
    deadline, the clock at each reading, and whether the reply was published *)
Record RequestAnswers (S : Type) := mkRequestAnswers {
  rqa_elapsed : option S;
  rqa_clock : nat → option N;
  rqa_published : result unit NatsError;
}.

(** The request of a message, with the inbox of its reply *)
Definition query_of_message (config : NatsQueryServerConfig) (message : NatsMessage)
  : result (string * QueryRequest T) NatsError :=
  fail! qsc_maximum_request_bytes config <? len (nm_payload message)
    with NatsPayloadTooLarge (len (nm_payload message)) (qsc_maximum_request_bytes config);
  let? reply := ok_or (nm_reply message) NatsInvalidMessage in
  fail! negb (valid_inbox reply) with NatsInvalidMessage;
  let? h := ok_or (nm_headers message) NatsInvalidMessage in
  let? content_type := one_header h CONTENT_TYPE_HEADER in
  fail! negb (String.eqb content_type JSON_CONTENT_TYPE) with NatsInvalidMessage;
  let? header_request_id := one_header h REQUEST_ID_HEADER in
  let? header_correlation_id := one_header h CORRELATION_ID_HEADER in
  let? request : QueryRequest T := map_err (λ _, NatsInvalidMessage) (read_query_request (nm_payload message)) in
  fail! negb (String.eqb header_request_id (id_str (qr_message_id request)))
        || negb (String.eqb header_correlation_id (id_str (qr_correlation_id request)))
    with NatsInvalidMessage;
  Ok (reply, request).

(** The outcome a response states: the handler's, or that it took too long *)
Definition handled_outcome (handled : option (result R QueryErrorPayload)) : result (QueryOutcome R) NatsError :=
  match handled with
  | Some (Ok payload) => Ok (QuerySuccess payload)
  | Some (Err error) => Ok (QueryError error)
  | None =>
    rmap QueryError (adapter_query_error QueryTimeout "query.handler_timeout" "query handler timed out")
  end.

(** The bytes of the response to a request *)
Definition response_payload (config : NatsQueryServerConfig) (clock : nat → option N) (request : QueryRequest T)
    (handled : option (result R QueryErrorPayload)) : result (list byte) NatsError :=
  let fallback reading := fallback_response (clock reading) (qr_message_id request) (qr_schema_version request)
    (qr_correlation_id request) (qr_trace_context request) in
  let? now := query_now (clock 0%nat) in
  let? outcome := handled_outcome handled in
  let? payload :=
    match QueryResponse_new (qr_message_id request) (qr_schema_version request) now (qr_correlation_id request)
            (qr_trace_context request) outcome with
    | Ok response => map_err (λ _, NatsSerialization) (to_vec (QueryResponse_serialize response))
    | Err _ => fallback 1%nat
    end in
  let? payload := if len payload <=? qsc_maximum_response_bytes config then Ok payload else fallback 2%nat in
  fail! qsc_maximum_response_bytes config <? len payload
    with NatsPayloadTooLarge (len payload) (qsc_maximum_response_bytes config);
  Ok payload.

(** [process_request]: the state, what is published, and how it ends *)
Definition process_request {S} (answers : RequestAnswers S) (config : NatsQueryServerConfig)
    (handler : NatsQueryHandler S) (message : NatsMessage) (s : S)
  : S * list NatsMessage * result unit NatsError :=
  match query_of_message config message with
  | Err error => (s, [], Err error)
  | Ok (reply, request) =>
    let '(s, handled) :=
      match rqa_elapsed _ answers with
      | Some s => (s, None)
      | None => let '(s, handled) := handler s request in (s, Some handled)
      end in
    match response_payload config (rqa_clock _ answers) request handled with
    | Err error => (s, [], Err error)
    | Ok payload =>
      let h := insert_query_controls (safe_headers CallerMetadata_new (qr_trace_context request))
                 (id_str (qr_message_id request)) (id_str (qr_correlation_id request)) in
      (s, [mkNatsMessage reply None (Some h) payload], rqa_published _ answers)
    end
  end.

Inductive QueryServerErrorKind := ServerInvalidConfiguration | ServerUnavailable | ServerEnded.

(** [run]: subscription, then every request until the subscription ends *)
Definition query_server_run (r : NatsQueryRequester) (subscribed : bool) (address : QueryAddress)
  : QueryServerErrorKind :=
  if negb (String.eqb (address_application address) (application_str (nqr_application r)))
     || negb (bool_decide (address_scope address = nqr_traffic_scope r))
  then ServerInvalidConfiguration
  else if subscribed then ServerEnded else ServerUnavailable.
End Queries.

(** * A query over NATS is answered by the handler it was asked of. *)

Section QueryReplies.
Context `{JT : JsonText} `{HM : HeaderMapApi}.
Context {T W : Type} `{WT : Wire T W} `{QRJ : Json (QueryRequestWire W)}.
Context {R V : Type} `{WR : Wire R V} `{QSJ : Json (QueryResponseWire V)}.
Context `{VSJ : JsonCodec (QueryResponseWire JValue)}.

(** What a request of the library is *)
Record query_request_ok (r : QueryRequest T) : Prop := {
  qro_message_id : identifier_ok (qr_message_id r);
  qro_schema : schema_ok (qr_schema_version r);
  qro_created : timestamp_ok (qr_created_at r);
  qro_correlation : identifier_ok (qr_correlation_id r);
  qro_causation : optional_ok identifier_ok (qr_causation_id r);
  qro_metadata : metadata_ok (qr_metadata r);
  qro_trace : ∀ t, qr_trace_context r = Some t → TraceContext_deserialize (TraceContext_serialize t) = Ok t;
  qro_payload : of_wire (to_wire (qr_payload r)) = Ok (qr_payload r);
  qro_size : QueryRequest_validate r = Ok tt;
}.

Lemma query_request_read_back r bytes :
  query_request_ok r → to_vec (QueryRequest_serialize r) = Ok bytes → read_query_request bytes = Ok r.
Proof.
  intros [Hid Hs Hc Hco Hca Hm Ht Hp Hsz] Hb. unfold read_query_request. rewrite (json_roundtrip _ _ Hb). cbn [rbind].
  unfold QueryRequest_deserialize, QueryRequest_serialize.
  cbn [qrw_message_id qrw_schema_version qrw_created_at qrw_correlation_id qrw_causation_id qrw_metadata
    qrw_trace_context qrw_payload].
  unfold MessageId_deserialize, CorrelationId_deserialize, SchemaVersion_deserialize, MessageTimestamp_deserialize.
  rewrite (identifier_deserialize_ok _ Hid), Hs, Hc, (identifier_deserialize_ok _ Hco). cbn [map_err rbind].
  rewrite (of_optional_roundtrip CausationId_deserialize id_str) by (intros x Hx; by apply identifier_deserialize_ok, Hca).
  cbn [rbind]. unfold metadata_deserialize, metadata_serialize. rewrite try_from_entries_self by done. cbn [map_err rbind].
  rewrite of_optional_roundtrip by done. cbn [rbind]. rewrite Hp. cbn [rbind].
  unfold QueryRequest_new. destruct r. cbn in *. by rewrite Hsz.
Qed.

(** ** The answer of a query *)

(** The outcome a handler's run leads to: what it answered to this very request,
    or that it was cut off *)
Definition server_outcome {S} (answers : RequestAnswers S) (handler : NatsQueryHandler (T := T) (R := R) S)
    (request : QueryRequest T) (s s' : S) (outcome : QueryOutcome R) : Prop :=
  match rqa_elapsed _ answers with
  | Some cut => s' = cut ∧ handled_outcome None = Ok outcome
  | None => ∃ handled, handler s request = (s', handled) ∧ handled_outcome (Some handled) = Ok outcome
  end.

(** The adapter's own answer when a response cannot be sent *)
Definition fallback_answer (request : QueryRequest T) (payload : list byte) : Prop :=
  ∃ clock, fallback_response clock (qr_message_id request) (qr_schema_version request)
    (qr_correlation_id request) (qr_trace_context request) = Ok payload.

Lemma response_payload_spec config clock request handled payload :
  response_payload config clock request handled = Ok payload →
  fallback_answer request payload
  ∨ ∃ now outcome (response : QueryResponse R), handled_outcome handled = Ok outcome
      ∧ QueryResponse_new (qr_message_id request) (qr_schema_version request) now (qr_correlation_id request)
          (qr_trace_context request) outcome = Ok response
      ∧ to_vec (QueryResponse_serialize response) = Ok payload.
Proof.
  unfold response_payload. intros H. apply rbind_Ok in H as (now & _ & H). apply rbind_Ok in H as (outcome & Ho & H).
  apply rbind_Ok in H as (bytes & Hb & H). apply rbind_Ok in H as (bytes' & Hb' & H).
  destruct (_ <? _) in H; [done|]. injection H as <-.
  destruct (len bytes <=? _); [injection Hb' as <-|left; by eexists].
  destruct (QueryResponse_new _ _ _ _ _ outcome) as [response|] eqn:Er; [|left; by eexists].
  right. apply map_err_Ok in Hb. by exists now, outcome, response.
Qed.

Lemma read_response_spec payload (response : QueryResponse R) read :
  to_vec (QueryResponse_serialize response) = Ok payload → read_query_response payload = Ok read →
  query_outcome_deserialize (query_outcome_serialize (qs_outcome response)) = Ok (qs_outcome read).
Proof.
  unfold read_query_response. intros Hb. rewrite (json_roundtrip _ _ Hb). cbn [rbind].
  unfold QueryResponse_deserialize. intros H.
  do 5 (apply rbind_Ok in H as (? & _ & H)). apply rbind_Ok in H as (outcome & Ho & H).
  apply map_err_Ok in H. apply query_response_new_Ok in H as ->. exact Ho.
Qed.

Lemma process_request_spec {S} (answers : RequestAnswers S) config (handler : NatsQueryHandler (T := T) (R := R) S)
    message (s s' : S) published ended p request :
  process_request answers config handler message s = (s', published, ended) → p ∈ published →
  read_query_request (nm_payload message) = Ok request →
  fallback_answer request (nm_payload p)
  ∨ ∃ now outcome (response : QueryResponse R), server_outcome answers handler request s s' outcome
      ∧ QueryResponse_new (qr_message_id request) (qr_schema_version request) now (qr_correlation_id request)
          (qr_trace_context request) outcome = Ok response
      ∧ to_vec (QueryResponse_serialize response) = Ok (nm_payload p).
Proof.
  unfold process_request. intros H Hp Hread.
  destruct (query_of_message config message) as [[reply request']|] eqn:Eq;
    [|injection H as <- <- <-; by apply elem_of_nil in Hp].
  assert (request' = request) as ->.
  { unfold query_of_message in Eq. destruct (_ <? _) in Eq; [done|]. apply rbind_Ok in Eq as (? & _ & Eq).
    destruct (negb _) in Eq; [done|]. apply rbind_Ok in Eq as (? & _ & Eq). apply rbind_Ok in Eq as (? & _ & Eq).
    destruct (negb _) in Eq; [done|]. apply rbind_Ok in Eq as (? & _ & Eq). apply rbind_Ok in Eq as (? & _ & Eq).
    apply rbind_Ok in Eq as (r & Hr%map_err_Ok & Eq). destruct (_ || _) in Eq; [done|]. injection Eq as _ <-.
    rewrite Hread in Hr. by injection Hr. }
  destruct (match rqa_elapsed _ answers with Some _ => _ | None => _ end) as [s1 handled] eqn:Eh.
  destruct (response_payload _ _ _ _) as [payload|] eqn:Er; [|injection H as <- <- <-; by apply elem_of_nil in Hp].
  injection H as <- <- <-. apply list_elem_of_singleton in Hp as ->. cbn [nm_payload].
  apply response_payload_spec in Er as [?|(now & outcome & response & Ho & Hn & Hb)]; [by left|right].
  exists now, outcome, response. split_and!; [|done..]. unfold server_outcome.
  destruct (rqa_elapsed _ answers) as [cut|]; [by injection Eh as <- <-|].
  destruct (handler s request) as [s2 answered]. injection Eh as <- <-. by exists answered.
Qed.

(** C22 (functional). A query over NATS is answered by the handler that was asked. A
    request is sent once, under its address; a response the requester accepts that
    a server published while processing it states what the handler answered to
    exactly this request, in the state the processing leaves, or that it was cut
    off at its deadline, or is the server's notice that its response could not be
    sent; and it carries the identity, correlation and schema version of the
    request. *)
Theorem nats_query_is_answered r answer address (request : QueryRequest T) options sent
    (response : QueryResponse R) :
  query_request_ok request →
  nats_request r answer address request options = (sent, Ok response) →
  ∃ message reply, sent = [message] ∧ nm_subject message = addr_str address ∧ answer message = Ok reply
  ∧ qs_request_id response = qr_message_id request ∧ qs_correlation_id response = qr_correlation_id request
  ∧ qs_schema_version response = qr_schema_version request
  ∧ ∀ S (answers : RequestAnswers S) config handler inbox s s' published ended p,
      process_request answers config handler
        (mkNatsMessage (nm_subject message) inbox (nm_headers message) (nm_payload message)) s
      = (s', published, ended) →
      p ∈ published → nm_payload reply = nm_payload p →
      fallback_answer request (nm_payload reply)
      ∨ ∃ outcome, server_outcome answers handler request s s' outcome
          ∧ query_outcome_deserialize (query_outcome_serialize outcome) = Ok (qs_outcome response).
Proof.
  intros Hok. unfold nats_request. destruct (_ || _); [done|].
  destruct (to_vec (QueryRequest_serialize request)) as [payload|] eqn:Ep; [|done].
  set (message := mkNatsMessage _ _ _ _). intros [= <- H].
  apply rbind_Ok in H as (reply & Ha%map_err_Ok & H). destruct (_ <? _) in H; [done|].
  apply rbind_Ok in H as (? & _ & H). apply rbind_Ok in H as (? & _ & H).
  apply rbind_Ok in H as (read & Hr%map_err_Ok & H). destruct (_ || _) eqn:E in H; [done|]. injection H as <-.
  apply orb_false_iff in E as [[E1%negb_false_iff%bool_decide_eq_true E2%negb_false_iff%bool_decide_eq_true]%orb_false_iff
    E3%negb_false_iff%bool_decide_eq_true].
  exists message, reply. split_and!; [done..|].
  intros S answers config handler inbox s s' published ended p Hproc Hp He.
  eapply process_request_spec in Hproc as [?|(now & outcome & sent & Ho & Hn & Hb)];
    [left; by rewrite He|right|done|by apply query_request_read_back].
  exists outcome. split; [done|]. rewrite He in Hr. pose proof (read_response_spec _ _ _ Hb Hr) as Hout.
  by apply query_response_new_Ok in Hn as ->.
Qed.
End QueryReplies.
