(* ===== verification/NatsQuarantine.v ===== *)
(** * NatsQuarantine: inspecting the quarantine stream
    (crates/rostfrei-nats/src/quarantine.rs), and that its pages are complete.

    What the server answers is an argument; so are the texts it has for times. *)

From Stdlib Require Import ZifyBool.
From S2P Require Export NatsConsumer.

Definition PAGE_BYTE_BUDGET : N := 8 * 1024 * 1024.
Definition INVALID_RECORD_PREFIX_BYTES : N := 16 * 1024.
Definition MAX_CURSOR_BYTES : N := 2048.

#[global] Instance QuarantineFilter_eq_dec : EqDecision QuarantineFilter.
Proof. solve_decision. Defined.

(** The URL-safe alphabet without padding *)
Class Base64Url := {
  base64url_encode : list byte → string;
  base64url_decode : string → result (list byte) string;
  base64url_roundtrip bs : base64url_decode (base64url_encode bs) = Ok bs;
}.

(** ** Cursors and identifiers *)

Definition valid_generation (value : string) : bool :=
  (str_len value =? 64) && bytes_all (λ byte, is_digit byte || ((97 <=? byte) && (byte <=? 102))) value.

Record Cursor := mkCursor {
  cur_version : N;
  cur_generation : string;
  cur_next : N;
  cur_last : N;
  cur_filter : QuarantineFilter;
}.

Definition parse_quarantine_id (id : string) : result (string * N) QuarantineReadError :=
  let? parts := ok_or (split_once "." id) QuarantineInvalidId in
  let '(generation, sequence) := parts in
  let? parsed := ok_or (parse_n u64_max sequence) QuarantineInvalidId in
  fail! negb (valid_generation generation) || (parsed =? 0) || negb (String.eqb (n_to_string parsed) sequence)
    with QuarantineInvalidId;
  Ok (generation, parsed).

Definition filter_subject (prefix : string) (filter : QuarantineFilter) : result string QuarantineReadError :=
  if bool_decide (filter = QuarantineFilter_default) then Ok (prefix +:+ ".>")
  else
    let? _ := map_err (λ _, QuarantineInvalidQuery)
      (CommandAddress_new "validation" (default "context" (qf_context filter)) (default "name" (qf_name filter))) in
    Ok (prefix +:+ "." +:+ from_option quarantine_subject_segment "*" (qf_kind filter) +:+ "."
          +:+ default "*" (qf_context filter) +:+ "." +:+ default "*" (qf_name filter)).

(** ** What the server answers *)

(** The quarantine stream: whether it is redirected from elsewhere (a mirror,
    sources or a subject transform), its creation time, and its state *)
Record QuarantineStreamInfo := mkQuarantineStream {
  qsi_subjects : list string;
  qsi_redirected : bool;
  qsi_created : string;
  qsi_first_sequence : N;
  qsi_last_sequence : N;
  qsi_messages : N;
}.
Inductive QuarantineStreamAnswer :=
| QuarantineStreamFound (info : QuarantineStreamInfo)
| QuarantineStreamMissing
| QuarantineStreamFailed.

(** A stored record, with the RFC 3339 text of its time *)
Record StoredRecord := mkStoredRecord {
  srd_sequence : N;
  srd_subject : string;
  srd_payload : list byte;
  srd_time : option string;
}.
Inductive RecordLookup := RecordFound (stored : StoredRecord) | NoRecord | RecordFailed.

Section Quarantine.
Context `{SHA : Sha256} `{B64 : Base64} `{B64U : Base64Url}.
Context `{QJ : Json QuarantineRecordWire} `{CUJ : Json Cursor}.

Definition Cursor_decode (value : string) : result Cursor QuarantineReadError :=
  fail! MAX_CURSOR_BYTES <? str_len value with QuarantineInvalidCursor;
  let? bytes := map_err (λ _, QuarantineInvalidCursor) (base64url_decode value) in
  let? cursor : Cursor := map_err (λ _, QuarantineInvalidCursor) (from_slice bytes) in
  fail! negb (cur_version cursor =? 1) || negb (valid_generation (cur_generation cursor))
    with QuarantineInvalidCursor;
  Ok cursor.
Definition Cursor_encode (cursor : Cursor) : result string QuarantineReadError :=
  map_err (λ _, QuarantineUnavailable) (rmap base64url_encode (to_vec cursor)).

(** ** The reader *)

Variable topology : MessagingTopology.

Definition quarantine_prefix : string :=
  traffic_subject_prefix (application_str (top_application topology)) (top_traffic_scope topology) +:+ ".quarantine".

(** [stream] *)
Definition quarantine_stream (answer : QuarantineStreamAnswer) (continuing : bool)
  : result QuarantineStreamInfo QuarantineReadError :=
  let? info :=
    match answer with
    | QuarantineStreamFound info => Ok info
    | QuarantineStreamMissing => Err (if continuing then QuarantineStaleGeneration else QuarantineUnavailable)
    | QuarantineStreamFailed => Err QuarantineUnavailable
    end in
  fail! negb (bool_decide (qsi_subjects info = [quarantine_prefix +:+ ".>"])) || qsi_redirected info
    with QuarantineInvalidTopology;
  Ok info.

Definition generation_of (info : QuarantineStreamInfo) : string :=
  hex_of_bytes (sha256 (as_bytes quarantine_prefix ++ x00 :: as_bytes (stream_name_str (top_quarantine topology))
                          ++ x00 :: as_bytes (qsi_created info))).

Definition check_generation (answer : QuarantineStreamAnswer) (generation : string)
  : result unit QuarantineReadError :=
  let? info := quarantine_stream answer true in
  fail! negb (String.eqb (generation_of info) generation) with QuarantineStaleGeneration;
  Ok tt.

Definition source_matches (message : QuarantinedMessage) (subject : string) : bool :=
  match MessageAddress_parse (qm_address message) with
  | Err _ => false
  | Ok address =>
    String.eqb (MessageAddress_application address) (application_str (top_application topology))
    && bool_decide (MessageAddress_traffic_scope address = top_traffic_scope topology)
    && negb (bool_decide (MessageAddress_kind address = Query))
    && is_some_and (λ stream, String.eqb (stream_name_str stream) (qm_source_stream message))
         (stream_for topology (MessageAddress_kind address))
    && String.eqb subject
         (quarantine_prefix +:+ "." +:+ kind_segment (MessageAddress_kind address) +:+ "."
            +:+ MessageAddress_context address +:+ "." +:+ MessageAddress_name address)
  end.

(** [serde_json::from_slice::<QuarantineRecord>] *)
Definition read_quarantine_record (payload : list byte) : result QuarantineRecord string :=
  let? wire := from_slice payload in QuarantineRecord_deserialize wire.

Definition record_diagnostics (message : QuarantinedMessage) (subject : string) : list QuarantineDiagnostic :=
  (if source_matches message subject then [] else [InvalidSourceAddress])
  ++ (match base64_decode (qm_payload_base64 message) with Ok _ => [] | Err _ => [InvalidPayloadEncoding] end)
  ++ (if qm_payload_truncated message then [PayloadTruncated] else []).

Definition quarantine_entry (stored : StoredRecord) (generation : string)
  : result QuarantineEntry QuarantineReadError :=
  fail! negb (starts_with (quarantine_prefix +:+ ".") (srd_subject stored)) with QuarantineInvalidTopology;
  let id := generation +:+ "." +:+ n_to_string (srd_sequence stored) in
  let? stored_at := ok_or (srd_time stored) QuarantineUnavailable in
  let invalid diagnostic :=
    let prefix := take (N.to_nat INVALID_RECORD_PREFIX_BYTES) (srd_payload stored) in
    mkQuarantineEntry id stored_at (srd_subject stored) None [diagnostic] (Some (base64_encode prefix))
      (len prefix <? len (srd_payload stored)) in
  if MAX_QUARANTINE_RECORD_BYTES <? len (srd_payload stored) then Ok (invalid RecordTooLarge)
  else
    match read_quarantine_record (srd_payload stored) with
    | Ok record =>
      let message := quarantined_of_record record in
      Ok (mkQuarantineEntry id stored_at (srd_subject stored) (Some message)
            (record_diagnostics message (srd_subject stored)) None false)
    | Err _ => Ok (invalid InvalidRecord)
    end.

(** What reading a page sees: the stream, the first record of a subject filter at
    or after a sequence, and the stream when the generation is checked *)
Record PageAnswers := mkPageAnswers {
  pga_stream : QuarantineStreamAnswer;
  pga_first : string → N → RecordLookup;
  pga_check : QuarantineStreamAnswer;
}.

(** The loop of [list_inner]: [room] is how many items the page may still take.
    It leaves the items, the next sequence and whether the page ends the list. *)
Fixpoint read_page (answers : PageAnswers) (filter generation : string) (room : nat) (next last bytes : N)
    (finished : bool) : result (list QuarantineEntry * N * bool) QuarantineReadError :=
  match room with
  | O => Ok ([], next, finished)
  | S room =>
    if finished || (PAGE_BYTE_BUDGET <=? bytes) then Ok ([], next, finished)
    else
      match pga_first answers filter next with
      | RecordFound stored =>
        if last <? srd_sequence stored then Ok ([], next, true)
        else if srd_sequence stored <? next then Err QuarantineUnavailable
        else
          let? entry := quarantine_entry stored generation in
          let? page := read_page answers filter generation room (saturating_add u64_max (srd_sequence stored) 1)
            last (saturating_add usize_max bytes (len (srd_payload stored))) (srd_sequence stored =? last) in
          let '(items, next, finished) := page in
          Ok (entry :: items, next, finished)
      | NoRecord => Ok ([], next, true)
      | RecordFailed => let? _ := check_generation (pga_check answers) generation in Err QuarantineUnavailable
      end
  end.

(** Where a page starts *)
Definition page_cursor (query : QuarantineQuery) (info : QuarantineStreamInfo)
  : result Cursor QuarantineReadError :=
  let generation := generation_of info in
  let? cursor :=
    match qq_cursor query with
    | None => Ok (mkCursor 1 generation (N.max (qsi_first_sequence info) 1) (qsi_last_sequence info) (qq_filter query))
    | Some value => Cursor_decode value
    end in
  fail! negb (String.eqb (cur_generation cursor) generation) with QuarantineStaleGeneration;
  fail! negb (bool_decide (cur_filter cursor = qq_filter query)) || (cur_next cursor =? 0)
        || (qsi_last_sequence info <? cur_last cursor)
    with QuarantineInvalidCursor;
  Ok cursor.

(** [list_inner] *)
Definition quarantine_list (answers : PageAnswers) (query : QuarantineQuery)
  : result QuarantinePage QuarantineReadError :=
  fail! (qq_limit query =? 0) || (MAX_QUARANTINE_PAGE_SIZE <? qq_limit query) with QuarantineInvalidQuery;
  let? filter := filter_subject quarantine_prefix (qq_filter query) in
  let? info := quarantine_stream (pga_stream answers) (is_some (qq_cursor query)) in
  let generation := generation_of info in
  let? cursor := page_cursor query info in
  let? page := read_page answers filter generation (N.to_nat (qq_limit query)) (cur_next cursor) (cur_last cursor) 0
    (cur_last cursor <? cur_next cursor) in
  let '(items, next, finished) := page in
  let? _ := check_generation (pga_check answers) generation in
  let? next_cursor :=
    if finished then Ok None
    else rmap Some (Cursor_encode (mkCursor (cur_version cursor) (cur_generation cursor) next (cur_last cursor)
                                     (cur_filter cursor))) in
  Ok (mkQuarantinePage items next_cursor (qsi_messages info) (cur_last cursor)).

(** [get_inner]: [message] is the record under the sequence of the id. *)
Definition quarantine_get (stream : QuarantineStreamAnswer) (message : N → RecordLookup)
    (check : QuarantineStreamAnswer) (id : string) : result QuarantineEntry QuarantineReadError :=
  let? parsed := parse_quarantine_id id in
  let '(generation, sequence) := parsed in
  let? info := quarantine_stream stream true in
  fail! negb (String.eqb (generation_of info) generation) with QuarantineStaleGeneration;
  let? _ := check_generation check generation in
  let? stored :=
    match message sequence with
    | RecordFound stored => Ok stored
    | NoRecord => Err QuarantineNotFound
    | RecordFailed => Err QuarantineUnavailable
    end in
  fail! negb (srd_sequence stored =? sequence) with QuarantineUnavailable;
  quarantine_entry stored generation.

(** [list] and [get] within their time *)
Definition quarantine_within {A} (expired : bool) (result : Prelude.result A QuarantineReadError)
  : Prelude.result A QuarantineReadError :=
  if expired then Err QuarantineTimeout else result.
End Quarantine.

(** * Listing the quarantine stream page by page shows every retained record once. *)

Section Listing.
Context `{SHA : Sha256} `{B64 : Base64} `{B64U : Base64Url}.
Context `{QJ : Json QuarantineRecordWire} `{CUJ : Json Cursor}.
Variable topology : MessagingTopology.

(** ** The records of a filter *)

(** The records of [log] at or after a sequence, and the first of them *)
Definition records_from (next : N) (log : list StoredRecord) : list StoredRecord :=
  List.filter (λ r, next <=? srd_sequence r) log.
Definition first_record (next : N) (log : list StoredRecord) : RecordLookup :=
  from_option RecordFound NoRecord (head (records_from next log)).

Definition increasing (log : list StoredRecord) : Prop :=
  ∀ i j r r', log !! i = Some r → log !! j = Some r' → (i < j)%nat → srd_sequence r < srd_sequence r'.

Lemma increasing_cons r log : increasing (r :: log) → increasing log ∧ ∀ r', r' ∈ log → srd_sequence r < srd_sequence r'.
Proof.
  intros H. split; [intros i j a b Ha Hb Hij; by eapply (H (S i) (S j)); [..|lia]|].
  intros r' (i & Hi)%list_elem_of_lookup. eapply (H 0%nat (S i)); [done..|lia].
Qed.

Lemma records_from_all next log : (∀ r, r ∈ log → next <= srd_sequence r) → records_from next log = log.
Proof.
  unfold records_from. induction log as [|r log IH]; intros H; [done|]. cbn.
  rewrite (proj2 (N.leb_le _ _)) by (apply H; by left). f_equal. apply IH. intros r' Hr'. apply H. by right.
Qed.

Lemma records_from_none next log : (∀ r, r ∈ log → srd_sequence r < next) → records_from next log = [].
Proof.
  unfold records_from. induction log as [|r log IH]; intros H; [done|]. cbn.
  rewrite (proj2 (N.leb_gt _ _)) by (apply H; by left). apply IH. intros r' Hr'. apply H. by right.
Qed.

(** After its first record, the records left are those after that record. *)
Lemma records_from_next next log r rest :
  increasing log → records_from next log = r :: rest →
  records_from (srd_sequence r + 1) log = rest ∧ next <= srd_sequence r ∧ r ∈ log.
Proof.
  intros Hi. unfold records_from. induction log as [|x log IH]; cbn; [done|].
  apply increasing_cons in Hi as [Hi Hx]. destruct (next <=? srd_sequence x) eqn:E.
  - intros [= <- <-]. rewrite (proj2 (N.leb_gt _ _)) by lia. split_and!; [|lia|by left].
    fold (records_from (srd_sequence x + 1) log) (records_from next log).
    rewrite !records_from_all; [done| |]; intros r' Hr'; specialize (Hx _ Hr'); lia.
  - intros H. destruct (IH Hi H) as (Hr & Hle & Hin). split_and!; [|done|by right].
    by rewrite (proj2 (N.leb_gt _ _)) by (specialize (Hx _ Hin); lia).
Qed.

Lemma records_from_app next log log' : records_from next (log ++ log') = records_from next log ++ records_from next log'.
Proof. apply List.filter_app. Qed.

(** ** One page *)

Variable log : list StoredRecord.
Variable filter generation : string.
Variable snapshot : N.
Variable shown : StoredRecord → QuarantineEntry.
Hypothesis log_increasing : increasing log.
Hypothesis log_retained : ∀ r, r ∈ log → 0 < srd_sequence r <= snapshot.
Hypothesis log_shown : ∀ r, r ∈ log → quarantine_entry topology r generation = Ok (shown r).
Hypothesis snapshot_fits : snapshot < u64_max.

(** The server answers from the log and what was stored since the snapshot. *)
Definition honest_page (answers : PageAnswers) : Prop :=
  ∃ newer, (∀ r, r ∈ newer → snapshot < srd_sequence r)
  ∧ ∀ next, pga_first answers filter next = first_record next (log ++ newer).

Lemma honest_first answers next :
  honest_page answers →
  match records_from next log with
  | r :: _ => pga_first answers filter next = RecordFound r
  | [] => pga_first answers filter next = NoRecord
          ∨ ∃ r, pga_first answers filter next = RecordFound r ∧ snapshot < srd_sequence r
  end.
Proof.
  intros (newer & Hnew & ->). unfold first_record. rewrite records_from_app.
  destruct (records_from next log) as [|r rest]; [|done]. cbn [app].
  destruct (records_from next newer) as [|r rest] eqn:E; [by left|right]. exists r. split; [done|]. apply Hnew.
  assert (r ∈ records_from next newer) as Hr by (rewrite E; by left).
  apply list_elem_of_In, filter_In in Hr as [Hr _]. by apply list_elem_of_In.
Qed.

Lemma records_from_elem next r : r ∈ records_from next log → r ∈ log.
Proof. intros Hr. apply list_elem_of_In, filter_In in Hr as [Hr _]. by apply list_elem_of_In. Qed.

(** A page takes a prefix of the records that are left, all of them when it ends
    the list, and one at least when it has room. *)
Lemma read_page_spec answers room next bytes finished :
  honest_page answers → (finished = true → records_from next log = []) →
  ∃ taken next' finished',
    read_page topology answers filter generation room next snapshot bytes finished
    = Ok (shown <$> taken, next', finished')
    ∧ records_from next log = taken ++ records_from next' log
    ∧ (finished' = true → records_from next' log = [])
    ∧ ((0 < room)%nat → bytes < PAGE_BYTE_BUDGET → finished' = false → taken ≠ [])
    ∧ (taken = [] ∧ next' = next ∨ next' <= u64_max).
Proof.
  intros Hh. revert next bytes finished. induction room as [|room IH]; intros next bytes finished Hf; cbn [read_page].
  { exists [], next, finished. split_and!; try (done || lia). by left. }
  destruct finished; cbn [orb].
  { exists [], next, true. split_and!; try done; [by rewrite Hf..|by left]. }
  destruct (PAGE_BYTE_BUDGET <=? bytes) eqn:Eb.
  { exists [], next, false. split_and!; try (done || lia). by left. }
  pose proof (honest_first answers next Hh) as Hfirst.
  destruct (records_from next log) as [|r rest] eqn:Er.
  { exists [], next, true. assert (records_from next log = []) as Hn by done. rewrite Hn.
    destruct Hfirst as [->|(r & -> & Hr)]; [|rewrite (proj2 (N.ltb_lt _ _)) by done]; split_and!; try done; by left. }
  rewrite Hfirst. destruct (records_from_next _ _ _ _ log_increasing Er) as (Hrest & Hle & Hin).
  pose proof (log_retained _ Hin) as Hret.
  rewrite (proj2 (N.ltb_ge _ _)) by lia. rewrite (proj2 (N.ltb_ge _ _)) by done.
  rewrite (log_shown _ Hin). cbn [rbind].
  set (next1 := saturating_add u64_max (srd_sequence r) 1).
  assert (records_from next1 log = rest) as Hn1.
  { unfold next1, saturating_add. rewrite N.min_r by lia. done. }
  destruct (IH next1 (saturating_add usize_max bytes (len (srd_payload r))) (srd_sequence r =? snapshot))
    as (taken & next' & finished' & Hpage & Hsplit & Hfin & _ & Hnext).
  { intros E%N.eqb_eq. apply records_from_none. intros r' Hr'. specialize (log_retained _ Hr').
    unfold next1, saturating_add. lia. }
  rewrite Hpage. cbn [rbind]. exists (r :: taken), next', finished'. split_and!; [done| |done|done|].
  - cbn. f_equal. by rewrite <- Hsplit.
  - right. destruct Hnext as [[_ ->]|]; [|done]. unfold next1, saturating_add. lia.
Qed.

(** ** The whole list *)

Lemma generation_valid info : valid_generation (generation_of topology info) = true.
Proof.
  unfold valid_generation, generation_of. apply andb_true_iff. split.
  - unfold str_len. by rewrite length_hex_of_bytes, sha256_length.
  - induction (sha256 _) as [|b bs IH]; [done|]. cbn [hex_of_bytes]. rewrite !bytes_all_cons, IH.
    destruct (nibbles b) as (_ & H1 & H2).
    assert (∀ n, n < 16 → (λ byte, is_digit byte || ((97 <=? byte) && (byte <=? 102))) (N_of_ascii (hex_digit n)) = true) as Hd.
    { intros n Hn. assert (n ∈ [0;1;2;3;4;5;6;7;8;9;10;11;12;13;14;15]) as Hin by (rewrite !elem_of_cons; lia).
      repeat (apply elem_of_cons in Hin as [->|Hin]; [done|]). by apply elem_of_nil in Hin. }
    by rewrite (Hd _ H1), (Hd _ H2).
Qed.

Variable query_filter : QuarantineFilter.
Variable limit : N.
Hypothesis limit_valid : 0 < limit <= MAX_QUARANTINE_PAGE_SIZE.
Hypothesis filter_valid : filter_subject (quarantine_prefix topology) query_filter = Ok filter.

(** A cursor of the list, which its text gives back *)
Definition list_cursor (next : N) : Cursor := mkCursor 1 generation next snapshot query_filter.
Hypothesis cursor_text : ∀ next, next <= u64_max → ∃ text,
  Cursor_encode (list_cursor next) = Ok text ∧ str_len text <= MAX_CURSOR_BYTES.

(** The stream as it is at a page: the one the list began with *)
Definition honest_stream (answer : QuarantineStreamAnswer) (continuing : bool) (info : QuarantineStreamInfo) : Prop :=
  quarantine_stream topology answer continuing = Ok info ∧ generation_of topology info = generation
  ∧ snapshot <= qsi_last_sequence info.
Definition honest_answers (answers : PageAnswers) (continuing : bool) : Prop :=
  honest_page answers ∧ (∃ info, honest_stream (pga_stream answers) continuing info)
  ∧ ∃ info, honest_stream (pga_check answers) true info.

Lemma cursor_decoded next text :
  Cursor_encode (list_cursor next) = Ok text → str_len text <= MAX_CURSOR_BYTES →
  valid_generation generation = true → Cursor_decode text = Ok (list_cursor next).
Proof.
  unfold Cursor_encode. intros He Hl Hg. apply map_err_Ok, rmap_Ok in He as (bytes & Hb & <-).
  unfold Cursor_decode. rewrite (proj2 (N.ltb_ge _ _)) by done.
  rewrite base64url_roundtrip. cbn [map_err rbind]. rewrite (json_roundtrip _ _ Hb). cbn. by rewrite Hg.
Qed.

(** A page read from a cursor *)
Lemma quarantine_list_page answers query cursor info :
  honest_answers answers (is_some (qq_cursor query)) →
  quarantine_stream topology (pga_stream answers) (is_some (qq_cursor query)) = Ok info →
  qq_limit query = limit → qq_filter query = query_filter →
  page_cursor topology query info = Ok cursor → cur_last cursor = snapshot →
  cursor = list_cursor (cur_next cursor) →
  ∃ taken next page, quarantine_list topology answers query = Ok page
    ∧ qp_items page = shown <$> taken
    ∧ records_from (cur_next cursor) log = taken ++ records_from next log
    ∧ (qp_next_cursor page = None ∧ records_from next log = []
       ∨ taken ≠ [] ∧ ∃ text, qp_next_cursor page = Some text ∧ Cursor_encode (list_cursor next) = Ok text
         ∧ str_len text <= MAX_CURSOR_BYTES).
Proof.
  intros (Hp & (i1 & Hs1 & Hg1 & _) & (i2 & Hs2 & Hg2 & _)) Hinfo Hl Hf Hc Hlast Hcur.
  rewrite Hs1 in Hinfo. injection Hinfo as <-.
  destruct (read_page_spec answers (N.to_nat limit) (cur_next cursor) 0 (snapshot <? cur_next cursor) Hp)
    as (taken & next & finished & Hpage & Hsplit & Hfin & Htaken & Hnext).
  { intros E%N.ltb_lt. apply records_from_none. intros r Hr. specialize (log_retained _ Hr). lia. }
  exists taken, next. unfold quarantine_list. rewrite Hl, Hf, filter_valid. cbn [rbind].
  destruct limit_valid as [Hl0 Hl1].
  rewrite (proj2 (N.eqb_neq _ _)) by lia. rewrite (proj2 (N.ltb_ge _ _)) by done. cbn [orb].
  rewrite Hs1. cbn [rbind]. rewrite Hc. cbn [rbind]. rewrite Hg1, Hlast, Hpage. cbn [rbind].
  unfold check_generation. rewrite Hs2. cbn [rbind]. rewrite Hg2, String.eqb_refl. cbn [negb rbind].
  destruct finished.
  - eexists. split_and!; [done..|]. left. split; [done|by apply Hfin].
  - assert (taken ≠ []) as Hne by (apply Htaken; [lia|done|done]).
    destruct (cursor_text next) as (text & Ht & Hlen); [by destruct Hnext as [[? _]|]|]. rewrite Hcur. cbn [cur_version cur_generation cur_last cur_filter list_cursor].
    fold (list_cursor next). rewrite Ht. eexists. cbn [rmap rbind]. split_and!; [done..|]. right.
    split; [done|]. by exists text.
Qed.

(** Pages until the list ends *)
Fixpoint list_pages (pages : list PageAnswers) (query : QuarantineQuery)
  : result (list QuarantineEntry * option string) QuarantineReadError :=
  match pages with
  | [] => Ok ([], qq_cursor query)
  | answers :: pages =>
    let? page := quarantine_list topology answers query in
    match qp_next_cursor page with
    | None => Ok (qp_items page, None)
    | Some cursor =>
      let? later := list_pages pages (mkQuarantineQuery (qq_filter query) (qq_limit query) (Some cursor)) in
      Ok (qp_items page ++ later.1, later.2)
    end
  end.

Lemma list_pages_from pages next text :
  Forall (λ answers, honest_answers answers true) pages → 0 < next →
  Cursor_encode (list_cursor next) = Ok text → str_len text <= MAX_CURSOR_BYTES →
  (length (records_from next log) < length pages)%nat →
  list_pages pages (mkQuarantineQuery query_filter limit (Some text)) = Ok (shown <$> records_from next log, None).
Proof.
  revert next text. induction pages as [|answers pages IH]; intros next text Hh Hn Ht Hl Hlen; cbn in Hlen; [lia|].
  apply Forall_cons in Hh as [Ha Hh]. cbn [list_pages].
  pose proof Ha as (_ & (info & Hi & Hg & Hlast) & _).
  destruct (quarantine_list_page answers (mkQuarantineQuery query_filter limit (Some text)) (list_cursor next) info)
    as (taken & next' & page & -> & Hitems & Hsplit & Hend); try done.
  { unfold page_cursor. cbn [qq_cursor qq_filter].
    rewrite (cursor_decoded _ _ Ht Hl) by (rewrite <- Hg; apply generation_valid). cbn [rbind].
    cbn [list_cursor cur_generation cur_filter cur_next cur_last]. rewrite Hg, String.eqb_refl, bool_decide_eq_true_2 by done.
    rewrite (proj2 (N.eqb_neq _ _)) by lia. by rewrite (proj2 (N.ltb_ge _ _)). }
  cbn [list_cursor cur_next] in Hsplit. cbn [rbind].
  destruct Hend as [[-> He]|(Hne & text' & -> & Ht' & Hl2)].
  - by rewrite Hitems, Hsplit, He, app_nil_r.
  - cbn [qq_filter qq_limit]. rewrite (IH next' text'); [|done| |done|done|].
    + cbn. by rewrite Hitems, Hsplit, fmap_app.
    + destruct (decide (next' = 0)) as [->|]; [|lia]. exfalso. apply Hne.
      rewrite (records_from_all 0 log) in Hsplit by lia.
      assert (length (records_from next log) <= length log)%nat as Hle by apply List.filter_length_le.
      rewrite Hsplit, length_app in Hle. destruct taken; [done|cbn in Hle; lia].
    + rewrite Hsplit, length_app in Hlen. destruct taken; [done|]. cbn in Hlen. lia.
Qed.

(** C23 (functional). Listing the quarantine stream shows every retained record once.
    Reading pages of any valid limit, each from the cursor of the one before, while
    the stream is the one the list began with, ends after at most one page more
    than there are records; the items are exactly the records of the filter that
    the stream retained when the list began, in the order of their sequences,
    whatever is stored in between. *)
Theorem quarantine_list_is_complete first pages info :
  honest_answers first false → Forall (λ answers, honest_answers answers true) pages →
  quarantine_stream topology (pga_stream first) false = Ok info →
  qsi_last_sequence info = snapshot → (∀ r, r ∈ log → qsi_first_sequence info <= srd_sequence r) →
  (length log <= length pages)%nat →
  list_pages (first :: pages) (mkQuarantineQuery query_filter limit None) = Ok (shown <$> log, None).
Proof.
  intros Hf Hp Hi Hlast Hfirst Hlen. cbn [list_pages].
  pose proof Hf as (_ & (info' & Hi' & Hg & _) & _). rewrite Hi in Hi'. injection Hi' as <-.
  set (start := N.max (qsi_first_sequence info) 1).
  destruct (quarantine_list_page first (mkQuarantineQuery query_filter limit None) (list_cursor start) info)
    as (taken & next' & page & -> & Hitems & Hsplit & Hend); try done.
  { unfold page_cursor. cbn [qq_cursor qq_filter rbind]. rewrite Hg, Hlast. fold start. fold (list_cursor start). cbn [list_cursor cur_generation cur_filter cur_next cur_last].
    rewrite String.eqb_refl, bool_decide_eq_true_2 by done.
    rewrite (proj2 (N.eqb_neq _ _)) by (unfold start; lia). by rewrite (proj2 (N.ltb_ge _ _)). }
  cbn [list_cursor cur_next] in Hsplit. cbn [rbind].
  rewrite (records_from_all start log) in Hsplit.
  2: { intros r Hr. specialize (Hfirst _ Hr). specialize (log_retained _ Hr). unfold start. lia. }
  destruct Hend as [[-> He]|(Hne & text & -> & Ht & Hl2)].
  - rewrite He, app_nil_r in Hsplit. by rewrite Hitems, Hsplit.
  - cbn [qq_filter qq_limit].
    rewrite (list_pages_from pages next' text); [|done| |done|done|].
    + cbn. by rewrite Hitems, <- fmap_app, <- Hsplit.
    + destruct (decide (next' = 0)) as [->|]; [|lia]. exfalso. apply Hne.
      rewrite (records_from_all 0 log) in Hsplit by lia. apply (f_equal length) in Hsplit.
      rewrite length_app in Hsplit. destruct taken; [done|cbn in Hsplit; lia].
    + apply (f_equal length) in Hsplit. rewrite length_app in Hsplit. destruct taken; [done|]. cbn in Hsplit. lia.
Qed.
End Listing.
