(* ===== verification/TransportSamples.v ===== *)
(** * TransportSamples: concrete instances of the interfaces the NATS transport
    relies on, and the witnesses of its theorems. *)

From S2P Require Export BusSamples NatsSamples NatsConsumerFacts NatsRouting NatsResponseLog NatsCommandHandler NatsEventFacts NatsQueries NatsQuarantine.

#[local] Existing Instances tail_digest sample_wire_json sample_checksum_json sample_base64
  sample_headers sample_header_names.

(** ** Instances *)

(** Headers in the order of the map; a name without values is no header. *)
Definition sample_iter : HeaderMapIter (HM := sample_headers).
Proof.
  refine (Build_HeaderMapIter sample_headers
    (λ h : gmap string (list string), filter (λ e, e.2 ≠ []) (map_to_list h)) _ _).
  - intros h. eapply NoDup_fmap_fst.
    + intros k v v' [_ H]%list_elem_of_filter [_ H']%list_elem_of_filter.
      apply elem_of_map_to_list in H, H'. congruence.
    + apply NoDup_filter, NoDup_map_to_list.
  - intros h name values. change (headers_get_all h name) with (default [] ((h : gmap _ _) !! name)).
    rewrite list_elem_of_filter, elem_of_map_to_list. cbn [snd].
    destruct ((h : gmap string (list string)) !! name) as [v|]; cbn; split.
    all: try (intros [? [= ->]]; done). all: by intros [<- ?].
Defined.

Definition sample_publish : PublishMessageApi (HM := sample_headers).
Proof.
  refine (Build_PublishMessageApi sample_headers (λ id stream last (h : gmap string (list string)),
    let h := <["Nats-Msg-Id" := [id]]> (<["Nats-Expected-Stream" := [stream]]> h) in
    match last with
    | Some last => <["Nats-Expected-Last-Subject-Sequence" := [n_to_string last]]> h
    | None => h
    end) _ _ _).
  - intros id stream [last|] h; cbn [headers_get_all sample_headers].
    + rewrite lookup_insert_ne by done. by rewrite lookup_insert_eq.
    + by rewrite lookup_insert_eq.
  - intros id stream last h. cbn [headers_get_all sample_headers]. by rewrite lookup_insert_eq.
  - intros id stream last h name Hn. cbn [headers_get_all sample_headers].
    assert (∀ n, starts_with "nats-" (to_ascii_lowercase n) = true → n ≠ name) as Hne by (intros n H ->; congruence).
    destruct last; rewrite !lookup_insert_ne; (done || by apply Hne).
Defined.

Definition sample_publish_codes : PublishErrorCodes :=
  {| CODE_STREAM_MISMATCH := 10060; CODE_STREAM_NOT_MATCH := 10061;
     CODE_STREAM_SEQUENCE_NOT_MATCH := 10071; CODE_STREAM_MESSAGE_EXCEEDS_MAXIMUM := 10054 |}.

Definition sample_value_eq : ValueEq.
Proof.
  refine {| value_eqb := λ v w : JValue, bool_decide (v = w) |}. intros v. by apply bool_decide_eq_true.
Defined.

(** Subjects token by token: [*] stands for one token, a last [>] for the rest. *)
Fixpoint tokens_match (filter subject : list string) : bool :=
  match filter, subject with
  | [], [] => true
  | f :: filter, s :: subject =>
    String.eqb f ">" && bool_decide (filter = [])
    || (String.eqb f "*" || String.eqb f s) && tokens_match filter subject
  | _, _ => false
  end.

Lemma split_dot_app a b : split "." (a +:+ "." +:+ b) = split "." a ++ split "." b.
Proof.
  unfold split. induction a as [|c a IH]; cbn [String.append split_from].
  { by rewrite prefix_char. }
  rewrite !prefix_char. destruct (Ascii.eqb "." c); change (String.length "." - 1)%nat with O.
  - by rewrite <- app_comm_cons, <- IH.
  - change (String "." b) with ("." +:+ b). rewrite IH. pose proof (split_from_nonempty "." 0 a). by destruct (split_from "." 0 a).
Qed.

Lemma tokens_match_exact p s :
  Forall (λ f, f ≠ "*" ∧ f ≠ ">") p → s ≠ [] →
  tokens_match (p ++ [">"]) s = true ↔ ∃ rest, rest ≠ [] ∧ s = p ++ rest.
Proof.
  intros Hp Hs. revert s Hs. induction Hp as [|f p [Hst Hgt] Hp IH]; intros s Hs.
  { cbn. destruct s; [done|]. split; [|done]. intros _. eauto. }
  destruct s as [|x s]; [done|].
  assert (tokens_match ((f :: p) ++ [">"]) (x :: s) = String.eqb f x && tokens_match (p ++ [">"]) s) as ->.
  { cbn [app tokens_match]. apply String.eqb_neq in Hst, Hgt. by rewrite Hst, Hgt. }
  rewrite andb_true_iff, String.eqb_eq. destruct s as [|y s].
  { split; [intros [_ H]; by destruct p as [|? []]|]. intros (rest & Hr & [= _ E]). by destruct p, rest. }
  rewrite IH by done. split.
  - intros (-> & rest & Hr & ->). eauto.
  - intros (rest & Hr & [= -> ->]). eauto.
Qed.

Lemma contains_app_mid w a b c : contains w b = true → contains w (a +:+ b +:+ c) = true.
Proof.
  intros Hb. induction a as [|x a IH]; cbn [String.append contains]; [|by rewrite IH, orb_true_r].
  revert Hb. induction b as [|x b IHb]; cbn [String.append contains]; intros H.
  - destruct w; [by destruct c|done].
  - apply orb_true_iff in H as [H|H]; [|by rewrite IHb, orb_true_r].
    apply prefix_true in H as (r & E). change (String x (b +:+ c)) with (String x b +:+ c).
    by rewrite E, str_app_assoc, prefix_app.
Qed.

Lemma contains_segment w p l f : f ∈ l → contains w f = true → contains w (String.concat p l) = true.
Proof.
  intros (l1 & l2 & ->)%list_elem_of_split Hf. induction l1 as [|x l1 IH].
  - destruct l2 as [|y l2]; cbn [app String.concat]; [|by apply (contains_app_mid _ "")].
    rewrite <- (str_app_nil_r f). by apply (contains_app_mid _ "").
  - rewrite <- app_comm_cons, concat_cons_app by by destruct l1.
    rewrite <- (str_app_nil_r (String.concat p _)), <- str_app_assoc. by apply contains_app_mid.
Qed.

Lemma no_wildcard_tokens prefix :
  contains "*" prefix = false → contains ">" prefix = false →
  Forall (λ f, f ≠ "*" ∧ f ≠ ">") (split "." prefix).
Proof.
  intros Hs Hg. apply Forall_forall. intros f Hf.
  pose proof (λ w, contains_segment w "." _ f Hf) as Hc. rewrite concat_split in Hc by done.
  split; intros ->; [rewrite (Hc "*") in Hs by done|rewrite (Hc ">") in Hg by done]; done.
Qed.

Definition sample_matching : SubjectMatching.
Proof.
  refine {| subject_matches := λ filter subject, tokens_match (split "." filter) (split "." subject) |}.
  intros prefix subject Hs Hg _. change (prefix +:+ ".>") with (prefix +:+ "." +:+ ">").
  rewrite split_dot_app. rewrite tokens_match_exact by (by apply no_wildcard_tokens || apply split_from_nonempty).
  split.
  - intros (rest & Hr & E). exists (String.concat "." rest). rewrite <- (concat_split "." subject), E by done.
    rewrite str_concat_app by (done || apply split_from_nonempty). by rewrite concat_split.
  - intros (rest & ->). exists (split "." rest). split; [apply split_from_nonempty|]. apply split_dot_app.
Defined.

(** The URL-safe text is the bytes themselves. *)
Definition sample_base64_url : Base64Url.
Proof.
  refine {| base64url_encode := string_of_list_byte; base64url_decode := λ s, Ok (as_bytes s) |}.
  intros bs. by rewrite string_of_bytes.
Defined.

(** Documents, field by field; the three values of an enumeration are those of
    an [option bool]. *)
Definition token_fields (x : DiagnosticTransitionToken) : list (list byte) :=
  [field (dtt_version x); field (dtt_stream x); field (dtt_created x); field (dtt_generation x);
   field (dtt_predecessor x)].
Definition fields_token (l : list (list byte)) : option DiagnosticTransitionToken :=
  match l with
  | [a; b; c; d; e] =>
    a ← unfield a; b ← unfield b; c ← unfield c; d ← unfield d; e ← unfield e;
    Some (mkTransitionToken a b c d e)
  | _ => None
  end.
Definition sample_token_json : Json DiagnosticTransitionToken.
Proof. refine (fields_json token_fields fields_token _). intros []. cbn -[field unfield]. by rewrite !unfield_field. Defined.

Definition kind_code (k : QuarantineMessageKind) : option bool :=
  match k with QuarantinedCommand => None | QuarantinedResponse => Some false | QuarantinedIntegration => Some true end.
Definition code_kind (c : option bool) : QuarantineMessageKind :=
  match c with None => QuarantinedCommand | Some false => QuarantinedResponse | Some true => QuarantinedIntegration end.
Definition cursor_fields (x : Cursor) : list (list byte) :=
  [field (cur_version x); field (cur_generation x); field (cur_next x); field (cur_last x);
   field (kind_code <$> qf_kind (cur_filter x)); field (qf_context (cur_filter x)); field (qf_name (cur_filter x))].
Definition fields_cursor (l : list (list byte)) : option Cursor :=
  match l with
  | [a; b; c; d; e; f; g] =>
    a ← unfield a; b ← unfield b; c ← unfield c; d ← unfield d; e ← unfield e; f ← unfield f; g ← unfield g;
    Some (mkCursor a b c d (mkQuarantineFilter (code_kind <$> e) f g))
  | _ => None
  end.
Definition sample_cursor_json : Json Cursor.
Proof.
  refine (fields_json cursor_fields fields_cursor _). intros [? ? ? ? [k ? ?]]. cbn -[field unfield].
  rewrite !unfield_field. by destruct k as [[]|].
Defined.

Definition failure_code (k : QuarantineFailureKind) : option bool :=
  match k with InvalidSourceMessage => None | DeliveryAttemptsExhausted => Some false | HandlerFailure => Some true end.
Definition code_failure (c : option bool) : QuarantineFailureKind :=
  match c with None => InvalidSourceMessage | Some false => DeliveryAttemptsExhausted | Some true => HandlerFailure end.
Definition record_fields (x : QuarantineRecordWire) : list (list byte) :=
  [field (qdoc_message_id x); field (qdoc_address x); field (qdoc_payload_base64 x);
   field (qdoc_payload_size x); field (qdoc_payload_sha256 x); field (qdoc_payload_truncated x);
   field (map_to_list (qdoc_metadata x));
   field ((λ w, (wire_trace_parent w, wire_trace_state w)) <$> qdoc_trace_context x);
   field (qdoc_correlation_id x); field (failure_code <$> qdoc_failure_kind x); field (qdoc_reason x);
   field (qdoc_attempt x); field (qdoc_pending x); field (qdoc_source_sequence x);
   field (qdoc_consumer_sequence x); field (qdoc_source_stream x); field (qdoc_source_consumer x)].
Definition fields_record (l : list (list byte)) : option QuarantineRecordWire :=
  match l with
  | [a; b; c; d; e; f; g; h; i; j; k; m; n; o; p; q; r] =>
    a ← unfield a; b ← unfield b; c ← unfield c; d ← unfield d; e ← unfield e; f ← unfield f;
    g ← unfield g; h ← unfield h; i ← unfield i; j ← unfield j; k ← unfield k; m ← unfield m;
    n ← unfield n; o ← unfield o; p ← unfield p; q ← unfield q; r ← unfield r;
    Some (mkQuarantineRecordWire a b c d e f (list_to_map g)
            ((λ w : string * option string, mkTraceContextWire w.1 w.2) <$> h) i (code_failure <$> j) k m n o p q r)
  | _ => None
  end.
Definition sample_record_json : Json QuarantineRecordWire.
Proof.
  refine (fields_json record_fields fields_record _).
  intros [? ? ? ? ? ? meta trace ? kind ? ? ? ? ? ? ?]. cbn -[field unfield list_to_map map_to_list].
  rewrite !unfield_field. cbn -[list_to_map map_to_list]. rewrite list_to_map_to_list.
  destruct trace as [[]|], kind as [[]|]; done.
Defined.

#[local] Existing Instances sample_iter sample_publish sample_publish_codes sample_value_eq sample_matching
  sample_base64_url sample_token_json sample_cursor_json sample_record_json.

(** ** Publication and delivery *)

Definition transport_topology : MessagingTopology := application_topology (mkApplicationName "shop") Normal.
Definition transport_event : IntegrationEventAddress := Address "shop.integration.orders.placed".
Definition transport_trace : TraceContext :=
  mkTraceContext "00-0af7651916cd43dd8448eb211c80319c-b7ad6b7169203331-01" (Some "vendor=1").
Definition transport_message : OutboundMessage IntegrationEventAddress :=
  mkOutboundMessage transport_event (Identifier "m-1") (as_bytes "{}")
    (mkCallerMetadata {["tenant" := "t-1"]}) (Some (Identifier "c-1")) (Some transport_trace).

(** The server stores what it is sent as its seventh message. *)
Definition seventh_answer (stream : StreamName) : Answers :=
  λ _, Some (Ok (mkBrokerAck (stream_name_str stream) 7 false)).
Definition transport_published :=
  publish_with_ack (seventh_answer (top_integration_event transport_topology)) transport_topology transport_message
    (top_integration_event transport_topology) DEFAULT_PUBLISH_TIMEOUT.
Definition transport_sent : WireMessage :=
  match transport_published.1 with w :: _ => w | [] => mkWireMessage "" headers_new [] end.
Definition transport_raw (delivered : Z) : RawDeliveryInfo :=
  mkRawInfo (stream_name_str (top_integration_event transport_topology)) "shop--orders--billing--v1" delivered 0 7 1.

Lemma transport_message_ok : outbound_ok transport_message.
Proof.
  split; [by vm_compute..| | |].
  - split; [by vm_compute|by vm_compute|]. apply map_Forall_singleton. by vm_compute.
  - by intros ? [= <-].
  - intros ? [= <-]. by vm_compute.
Qed.

(** A sent message as it is received: its values have nothing to trim. *)
Definition received (raw : option RawDeliveryInfo) (w : WireMessage) : JetStreamMessage :=
  mkJetStreamMessage raw (wm_subject w) (Some (wm_headers w)) (wm_payload w).
Definition nothing_to_trim (h : HeaderMap) : bool :=
  forallb (λ entry, forallb (λ v, String.eqb (trim v) v) (snd entry)) (headers_iter h).
Lemma transport_nothing_to_trim : nothing_to_trim (wm_headers transport_sent) = true.
Proof. by vm_compute. Qed.

Lemma received_as raw w : nothing_to_trim (wm_headers w) = true → delivered_as w (received raw w).
Proof.
  unfold nothing_to_trim. intros H. rewrite forallb_forall in H.
  split; [done..|]. exists (wm_headers w). split; [done|]. intros name.
  destruct (headers_get_all (wm_headers w) name) as [|v values] eqn:E; [done|].
  assert ((name, v :: values) ∈ headers_iter (wm_headers w)) as Hin by (apply headers_iter_values; by rewrite E).
  apply list_elem_of_In, H in Hin. cbn [snd] in Hin. rewrite forallb_forall in Hin. symmetry.
  rewrite <- (list_fmap_id (v :: values)) at 2. apply list_fmap_ext. intros k x Hx%list_elem_of_lookup_2%list_elem_of_In.
  by apply String.eqb_eq, Hin.
Qed.

Lemma published_message_is_delivered_witness :
  transport_published.2 = Ok (mkNatsPublishAck (top_integration_event transport_topology) 7 false)
  ∧ ∃ w, transport_published.1 = [w] ∧ ∀ raw info,
      decode_delivery (received raw w) info transport_event
      = Ok (mkMessageDelivery transport_event (Identifier "m-1") (as_bytes "{}")
              (mkCallerMetadata {["tenant" := "t-1"]}) (Some (Identifier "c-1")) (Some transport_trace) info).
Proof.
  assert (trimmed transport_message = transport_message) as Et by (by vm_compute).
  pose proof transport_message_ok as Hok. rewrite <- Et in Hok.
  destruct (published_message_is_delivered _ _ _ _ _ transport_published.1 transport_published.2
              Hok (surjective_pairing _)) as [Hd Ha].
  split; [by vm_compute|]. exists transport_sent. split; [reflexivity|]. intros raw info.
  rewrite Et in Hd. apply (Hd transport_sent); [|apply received_as, transport_nothing_to_trim].
  change transport_published.1 with [transport_sent]. by apply list_elem_of_singleton.
Defined.

(** ** Settlement *)

Definition transport_consumer : NatsMessageConsumer IntegrationEventAddress :=
  mkNatsConsumer (top_integration_event transport_topology) (top_quarantine transport_topology)
    DEFAULT_PUBLISH_TIMEOUT
    (mkConsumerConfig (DeliveryName "shop--orders--billing--v1") (DeliveryName "shop--orders--billing--v1")
       transport_event 30000000000 20000000000 1 1 3).
Definition quarantine_answers : ConsumeAnswers :=
  mkConsumeAnswers (λ _, true) (seventh_answer (top_quarantine transport_topology)).
Definition in_time : HandlingAnswers (list MessageId) := mkHandlingAnswers _ true [] [] None true.
(** A handler that remembers what it handled *)
Definition remembering_handler : Handles (A := IntegrationEventAddress) (list MessageId) :=
  λ s delivery, (md_message_id delivery :: s, Acknowledge).
Definition transport_run (delivered : Z) :=
  process_message quarantine_answers in_time transport_consumer remembering_handler
    (received (Some (transport_raw delivered)) transport_sent) [].

Lemma triple_eta {A B C} (x : A * B * C) : x = (x.1.1, x.1.2, x.2).
Proof. by destruct x as [[]]. Qed.

Lemma settled_message_is_accounted_for_witness :
  (* the first delivery is handled and acknowledged *)
  ((transport_run 1).1.1 = [Identifier "m-1"]
   ∧ ∃ info delivery,
       decode_delivery (received (Some (transport_raw 1)) transport_sent) info transport_event = Ok delivery
       ∧ handled_in_time in_time remembering_handler delivery [] (transport_run 1).1.1 Acknowledge)
  (* one too many is quarantined, unhandled *)
  ∧ (transport_run 4).1.1 = []
  ∧ last (transport_run 4).1.2 = Some (Settled AckTerm).
Proof.
  destruct (settled_message_is_accounted_for quarantine_answers in_time transport_consumer remembering_handler
    (received (Some (transport_raw 1)) transport_sent) [] _ _ _ (triple_eta (transport_run 1))) as (_ & Hack & _).
  split; [split; [by vm_compute|]|split; [by vm_compute|reflexivity]].
  apply Hack. apply last_Some_elem_of. reflexivity.
Defined.

(** ** Routing *)

Lemma message_is_routed_to_its_stream_witness :
  ∃ c, messaging_new_in_scope (mkApplicationName "shop") Normal = Ok c
  ∧ ∀ stream, stream ∈ messaging_streams c →
      (stream_stores stream "shop.command.orders.place" = true ↔ top_command (amc_topology c) = spc_name stream)
      ∧ (stream_stores stream "shop.quarantine.command.orders.place" = true
         ↔ spc_name stream = top_quarantine (amc_topology c)).
Proof.
  destruct (message_is_routed_to_its_stream "shop" (mkApplicationName "shop") Normal ltac:(by vm_compute))
    as (c & Hc & Hs).
  exists c. split; [exact Hc|]. intros stream Hin. destruct (Hs stream Hin) as [Ha Hq]. split.
  - rewrite (Ha Command "shop.command.orders.place" (Address "shop.command.orders.place")) by by vm_compute.
    split; [by intros (_ & _ & [= ?])|intros ?; split_and!; [by vm_compute..|cbn; congruence]].
  - destruct (MessageAddress_parse "shop.command.orders.place") as [m|] eqn:E; [|discriminate E].
    injection E as <-.
    rewrite (Hq "shop.command.orders.place" _ _ eq_refl) by by vm_compute.
    split; [by intros (_ & _ & ?)|intros ?; split_and!; [by vm_compute..|done]].
Defined.

(** ** Responses *)

Definition transport_command : MessageId := Identifier "m-1".
Definition transport_response (id : result MessageId ContractError) (outcome : CommandResponseOutcome)
  : CommandResponse :=
  mkCommandResponse (default transport_command (match id with Ok id => Some id | Err _ => None end))
    transport_command (Address "shop.command.orders.place") (Identifier "op-1")
    (mkSchemaVersion (expected_schema_version outcome)) (Identifier "op-1") outcome.
Definition unavailable_response : CommandResponse :=
  transport_response (command_technical_response_message_id transport_command (FailureStore FailUnavailable))
    (ResponseExecutionFailed (FailureStore FailUnavailable)).
Definition accepted_response : CommandResponse :=
  transport_response (command_response_message_id transport_command) ResponseAccepted.
Definition transport_response_address : CommandResponseAddress :=
  match derive_command_response_address (Address "shop.command.orders.place") (Identifier "op-1") transport_command with
  | Ok address => address
  | Err _ => Address ""
  end.
Definition response_message_of (response : CommandResponse) : OutboundMessage CommandResponseAddress :=
  match response_outbound transport_response_address response with
  | Ok message => message
  | Err _ => mkOutboundMessage transport_response_address transport_command [] CallerMetadata_new None None
  end.

(** A response prepared over the latest message of its subject, and the message
    that publishes it *)
Definition response_stream : StreamName := top_command_response transport_topology.
Definition prepare_over (latest : option StoredMessage) (response : CommandResponse)
  : result PreparedCommandResponse NatsError :=
  prepare_command_response (mkPrepareAnswers (Some (1%Z, 4)) (Ok latest) false) transport_topology
    (response_message_of response) DEFAULT_PUBLISH_TIMEOUT.
Definition prepared_of (response : CommandResponse) (p : result PreparedCommandResponse NatsError)
  : PreparedCommandResponse :=
  match p with
  | Ok p => p
  | Err _ => mkPreparedResponse (response_message_of response) response headers_new response_stream 0 0
               transport_command None false
  end.
(** The server stores it under [next] and says so. *)
Definition stored_answers (next : N) (stored : StoredMessage) : ResponseAnswers :=
  mkResponseAnswers (Some 1%Z)
    (λ w, Acknowledged (mkBrokerAck (stream_name_str response_stream) next false))
    (λ _, Ok (Some stored)) (Ok (Some stored)) (Some 1%Z) None.
Definition publish_at (next : N) (p : PreparedCommandResponse) :=
  publish_prepared_command_response (stored_answers next (stored_as next (response_message p response_stream)))
    transport_topology p DEFAULT_PUBLISH_TIMEOUT.

Definition first_prepared := prepared_of unavailable_response (prepare_over None unavailable_response).
Definition first_stored : StoredMessage := stored_as 5 (response_message first_prepared response_stream).
Definition second_prepared := prepared_of accepted_response (prepare_over (Some first_stored) accepted_response).
Definition second_stored : StoredMessage := stored_as 6 (response_message second_prepared response_stream).

Lemma published_response_is_retained_witness :
  (publish_at 6 second_prepared).2 = Ok (mkNatsPublishAck response_stream 6 false)
  ∧ ∃ stored, stm_sequence stored = 6
      ∧ exact_record (stored_answers 6 second_stored) second_prepared stored.
Proof.
  assert ((publish_at 6 second_prepared).2 = Ok (mkNatsPublishAck response_stream 6 false)) as Hp by by vm_compute.
  split; [exact Hp|].
  destruct (published_response_is_retained transport_topology (stored_answers 6 second_stored) second_prepared
    DEFAULT_PUBLISH_TIMEOUT (publish_at 6 second_prepared).1 (mkNatsPublishAck response_stream 6 false))
    as (_ & _ & stored & _ & Hs & He).
  { rewrite <- Hp. exact (surjective_pairing (publish_at 6 second_prepared)). }
  exists stored. split; [exact Hs|exact He].
Defined.

Notation response_step := (subject_step transport_topology (addr_str transport_response_address)).

Lemma step_publish log next prepared p response :
  prepare_over (last log) response = Ok p →
  addr_str (om_address (response_message_of response)) = addr_str transport_response_address →
  (publish_at next p).1 = [response_message p response_stream] →
  accepts log (response_message p response_stream) = true →
  rtc response_step (mkSubject log next prepared)
    (mkSubject (log ++ [stored_as next (response_message p response_stream)]) (next + 1) (p :: prepared)).
Proof.
  intros Hp Ha Hs Hac.
  eapply rtc_l; [exact (step_prepare _ _ log next prepared
    (mkPrepareAnswers (Some (1%Z, 4)) (Ok (last log)) false) _ _ p eq_refl Ha Hp)|].
  eapply rtc_once, step_store; [by left| | |exact Hac].
  - exact (surjective_pairing (publish_at next p)).
  - rewrite Hs. by apply list_elem_of_singleton.
Qed.

Definition settled_subject : Subject :=
  mkSubject [first_stored; second_stored] 7 [second_prepared; first_prepared].
Lemma settled_subject_reached : rtc response_step subject_empty settled_subject.
Proof.
  do 4 (eapply rtc_l; [apply step_other|]).
  etransitivity.
  - refine (step_publish [] 5 [] first_prepared unavailable_response _ _ _ _).
    + reflexivity.
    + reflexivity.
    + reflexivity.
    + by vm_compute.
  - refine (step_publish [first_stored] 6 [first_prepared] second_prepared accepted_response _ _ _ _).
    + reflexivity.
    + reflexivity.
    + reflexivity.
    + by vm_compute.
Qed.

Lemma final_response_is_final_witness :
  is_diagnostic first_stored = true ∧ is_final second_stored = true
  ∧ ∀ s, rtc response_step settled_subject s → last (sb_log s) = Some second_stored.
Proof.
  split; [by vm_compute|]. split; [by vm_compute|]. intros s Hs.
  destruct (final_response_is_final transport_topology (addr_str transport_response_address) settled_subject
    settled_subject_reached) as (_ & _ & Hf).
  apply (Hf s second_stored); [reflexivity|by vm_compute|exact Hs].
Defined.

(** ** Commands *)

(** The world of a worker and of a caller: the responses published so far *)
Notation Sent := (list (OutboundMessage CommandResponseAddress)).

Definition accepting (c : EncodedCommand) : CommandResponse :=
  mkCommandResponse
    (match command_response_message_id (enc_message_id c) with Ok id => id | Err _ => enc_message_id c end)
    (enc_message_id c) (enc_address c) (enc_operation_id c)
    (mkSchemaVersion (expected_schema_version ResponseAccepted)) (enc_correlation_id c) ResponseAccepted.
Definition recording_transport (read : Sent → result CommandResponse CommandResponseReadErrorKind)
  : ResponseTransport (W := Sent) :=
  mkResponseTransport (λ w _ _ _, (w, Ok None)) (λ w _ _ _, (w, read w))
    (λ w message, (message :: w, Ok (PublishReceipt_new false))) None.
Definition accepting_handler : NatsCommandHandler (W := Sent) :=
  mkCommandHandler (TrustedProcessor (λ w _, (w, Ok None)) (λ w c, (w, Ok (accepting c))))
    (recording_transport (λ _, Err ReadTimeout)).
Definition command_delivery (c : EncodedCommand) : MessageDelivery CommandAddress :=
  mkMessageDelivery (enc_address c) (enc_message_id c) (om_payload (enc_message c)) CallerMetadata_new
    (Some (enc_correlation_id c)) None (mkDeliveryInfo 1 0 5 5).
Definition handled_sample (c : EncodedCommand) :=
  nats_handle_command id accepting_handler [] (command_delivery c).

Lemma sample_command_handled :
  match sample_command_result with
  | Ok c => is_ok (command_of_delivery (command_delivery c))
            && match (handled_sample c).2 with Acknowledge => true | _ => false end && (len (handled_sample c).1 =? 1)
  | Err _ => false
  end = true.
Proof. by vm_compute. Qed.

Lemma acknowledged_command_is_answered_witness :
  match sample_command_result with
  | Ok c => (handled_sample c).2 = Acknowledge
      ∧ ∃ command caller retained w1 w2, command_of_delivery (command_delivery c) = Ok command
        ∧ resolve_caller (nch_processor accepting_handler) [] (command_delivery c) = (w1, Ok caller)
        ∧ reconcile_retained (nch_transport accepting_handler) w1 command = (w2, Ok retained)
        ∧ ending_ok id accepting_handler caller retained w2 command (handled_sample c).1 Acknowledge
  | Err _ => False
  end.
Proof.
  pose proof sample_command_handled as H. destruct sample_command_result as [c|]; [|discriminate H].
  apply andb_true_iff in H as [[Hc Hd]%andb_true_iff _].
  assert ((handled_sample c).2 = Acknowledge) as Ha by by destruct ((handled_sample c).2).
  split; [exact Ha|].
  pose proof (acknowledged_command_is_answered id accepting_handler [] (command_delivery c) (handled_sample c).1
    (handled_sample c).2 (surjective_pairing _)) as Hw.
  destruct (command_of_delivery (command_delivery c)) as [command|]; [|discriminate Hc].
  destruct (Hw (or_introl Ha)) as (caller & w1 & retained & w2 & Hr & Hf & He).
  exists command, caller, retained, w1, w2. rewrite Ha in He. split_and!; done.
Defined.

(** A caller that publishes, and reads the response that was stored meanwhile;
    the world is the log of the commands that were published. *)
Definition calling_adapter (c : EncodedCommand) : NatsMessagingAdapter (W := list (OutboundMessage CommandAddress)) :=
  mkNatsAdapter None false (λ w message, (w ++ [message], Ok (PublishReceipt_new false)))
    (λ w _, (w, Ok (PublishReceipt_new false)))
    (mkResponseTransport (λ w _ _ _, (w, Ok (Some (accepting c)))) (λ w _ _ _, (w, Ok (accepting c)))
       (λ w _, (w, Ok (PublishReceipt_new false))) None).
Lemma calling_adapter_logs c : logs_publications id (calling_adapter c).
Proof. by split. Qed.
Definition dispatched_sample (c : EncodedCommand) := nats_dispatch id (calling_adapter c) 2 [] c.

Lemma sample_command_dispatched :
  match sample_command_result with
  | Ok c => match (dispatched_sample c).2 with Ok _ => true | Err _ => false end
  | Err _ => false
  end = true.
Proof. by vm_compute. Qed.


(** ** Queries: the sample query is a number, its answer twice the number. *)

#[local] Existing Instances sample_request_json sample_answer_json.
Definition transport_query : QueryRequest N :=
  mkQueryRequest (Identifier "q-1") (mkSchemaVersion 1) (mkMessageTimestamp 5) (Identifier "q-1") None
    CallerMetadata_new None 21.
Definition query_answers : RequestAnswers N := mkRequestAnswers N None (λ _, Some 6) (Ok tt).
Definition query_server (message : NatsMessage) : N * list NatsMessage * result unit NatsError :=
  process_request (V := N) query_answers NatsQueryServerConfig_default doubling
    (mkNatsMessage (nm_subject message) (Some "_INBOX.1") (nm_headers message) (nm_payload message)) 0.
Definition query_reply (message : NatsMessage) : result NatsMessage NatsRequestErrorKind :=
  match query_server message with (_, [reply], Ok _) => Ok reply | _ => Err RequestNoResponders end.
Definition queried :=
  nats_request (R := N) (mkQueryRequester (mkApplicationName "shop") Normal) query_reply
    (Address "shop.query.orders.find") transport_query QueryOptions_default.

Lemma transport_query_ok : query_request_ok transport_query.
Proof. split; by vm_compute. Qed.

Lemma transport_query_answered :
  match queried.2 with Ok r => qs_outcome r = QuerySuccess 42 | Err _ => False end.
Proof. by vm_compute. Qed.

Lemma nats_query_is_answered_witness :
  match queried.2 with
  | Ok r => qs_request_id r = Identifier "q-1" ∧ qs_outcome r = QuerySuccess 42
      ∧ ∃ message reply, queried.1 = [message] ∧ query_reply message = Ok reply
        ∧ (fallback_answer transport_query (nm_payload reply)
           ∨ ∃ outcome, server_outcome query_answers doubling transport_query 0 (query_server message).1.1 outcome
               ∧ query_outcome_deserialize (query_outcome_serialize outcome) = Ok (qs_outcome r))
  | Err _ => False
  end.
Proof.
  pose proof transport_query_answered as Ha. destruct queried.2 as [r|] eqn:E; [|destruct Ha].
  destruct (nats_query_is_answered (mkQueryRequester (mkApplicationName "shop") Normal) query_reply
    (Address "shop.query.orders.find") transport_query QueryOptions_default queried.1 r transport_query_ok)
    as (message & reply & Hs & _ & Hr & Hid & _ & _ & Hall).
  { rewrite <- E. exact (surjective_pairing queried). }
  split; [exact Hid|]. split; [exact Ha|]. exists message, reply. split; [exact Hs|]. split; [exact Hr|].
  unfold query_reply in Hr. destruct (query_server message) as [[s published] ended] eqn:Eq.
  destruct published as [|p [|]]; [done| |done]. destruct ended as [[]|]; [|done]. injection Hr as ->.
  apply (Hall N query_answers NatsQueryServerConfig_default doubling (Some "_INBOX.1") 0 s [reply] (Ok tt) reply);
    [|by left|reflexivity]. exact Eq.
Defined.

(** ** Quarantine *)

Lemma length_join_fields fs : length (join_fields fs) = sum_list_with (λ f, S (2 * length f)) fs.
Proof.
  induction fs as [|f fs IH]; [done|]. cbn [join_fields sum_list_with]. rewrite <- IH. clear IH.
  induction f as [|b f IHf]; [done|]. cbn [map concat app length] in *. lia.
Qed.

Lemma length_positive_bytes p : S (length (positive_bytes p)) = Pos.size_nat p.
Proof. induction p as [p IH|p IH|]; cbn; by rewrite ?IH. Qed.

(** A sequence of 64 bits takes 64 marked bytes at most. *)
Lemma length_field_sequence n : n <= u64_max → (length (field n) <= 64)%nat.
Proof.
  intros Hn. pose proof (length_positive_bytes (encode n)) as Hl. fold (field n) in Hl.
  assert (Pos.size_nat (encode n) <= 65)%nat as Hs; [|lia].
  change 65%nat with (Pos.size_nat (2 ^ 64)). unfold u64_max in Hn.
  assert (encode n < 2 ^ 64 ∨ encode n = 2 ^ 64)%positive as [H| ->].
  { destruct n as [|p]; [by left|]. change (encode (N.pos p)) with (Pos.succ p). lia. }
  - by apply Pos.size_nat_monotone.
  - done.
Qed.

(** The record the consumer sent above, and one that is none *)
Definition quarantined_wire : option WireMessage :=
  match (transport_run 4).1.2 with QuarantineSent w :: _ => Some w | _ => None end.
Definition quarantine_time : option string := Some "2024-01-01T00:00:00Z".
Definition quarantine_log : list StoredRecord :=
  [mkStoredRecord 3 (from_option wm_subject "" quarantined_wire) (from_option wm_payload [] quarantined_wire) quarantine_time;
   mkStoredRecord 5 "shop.quarantine.integration.orders.placed" (as_bytes "{}") quarantine_time].
Definition quarantine_info (last : N) : QuarantineStreamInfo :=
  mkQuarantineStream ["shop.quarantine.>"] false "2024-01-01 0:00:00.0 +00:00:00" 2 last 2.
Definition sample_generation : string := generation_of transport_topology (quarantine_info 5).
Definition sample_shown (r : StoredRecord) : QuarantineEntry :=
  match quarantine_entry transport_topology r sample_generation with
  | Ok entry => entry
  | Err _ => mkQuarantineEntry "" "" "" None [] None false
  end.
(** A record is stored after the list began. *)
Definition quarantine_page (newer : list StoredRecord) (last : N) : PageAnswers :=
  mkPageAnswers (QuarantineStreamFound (quarantine_info last))
    (λ _ next, first_record next (quarantine_log ++ newer)) (QuarantineStreamFound (quarantine_info last)).
Definition newer_record : StoredRecord :=
  mkStoredRecord 6 "shop.quarantine.integration.orders.placed" [] quarantine_time.
Definition quarantine_pages : list PageAnswers :=
  [quarantine_page [newer_record] 6; quarantine_page [newer_record] 6].

Lemma length_cursor next :
  length (join_fields (cursor_fields (list_cursor sample_generation 5 QuarantineFilter_default next)))
  = (length (join_fields (cursor_fields (list_cursor sample_generation 5 QuarantineFilter_default 0)))
     + 2 * length (field next))%nat.
Proof.
  rewrite !length_join_fields. unfold cursor_fields.
  cbn [sum_list_with list_cursor cur_version cur_generation cur_next cur_last cur_filter].
  change (length (field 0)) with O. lia.
Qed.

Lemma str_len_of_bytes bs : str_len (string_of_list_byte bs) = N.of_nat (length bs).
Proof. by rewrite <- len_as_bytes, string_of_bytes. Qed.

Lemma quarantine_cursor_text next :
  next <= u64_max → ∃ text,
    Cursor_encode (list_cursor sample_generation 5 QuarantineFilter_default next) = Ok text
    ∧ str_len text <= MAX_CURSOR_BYTES.
Proof.
  intros Hn%length_field_sequence. eexists. split; [reflexivity|]. rewrite str_len_of_bytes, length_cursor.
  assert (length (join_fields (cursor_fields (list_cursor sample_generation 5 QuarantineFilter_default 0))) <= 1100)%nat
    by (apply Nat.leb_le; by vm_compute).
  unfold MAX_CURSOR_BYTES. lia.
Qed.

Lemma quarantine_log_all (P : StoredRecord → Prop) :
  Forall P quarantine_log → ∀ r, r ∈ quarantine_log → P r.
Proof. intros H r. by apply Forall_forall. Qed.

Lemma quarantine_page_honest newer last continuing :
  (∀ r, r ∈ newer → 5 < srd_sequence r) → 5 <= last →
  honest_answers transport_topology quarantine_log "shop.quarantine.>" sample_generation 5
    (quarantine_page newer last) continuing.
Proof.
  intros Hn Hl. split; [by exists newer|].
  split; exists (quarantine_info last); (split; [reflexivity|]); (split; [reflexivity|exact Hl]).
Qed.

Lemma quarantine_list_is_complete_witness :
  list_pages transport_topology (quarantine_page [] 5 :: quarantine_pages)
    (mkQuarantineQuery QuarantineFilter_default 1 None) = Ok (sample_shown <$> quarantine_log, None)
  ∧ qn_diagnostics <$> (sample_shown <$> quarantine_log) = [[]; [InvalidRecord]].
Proof.
  split; [|by vm_compute].
  apply (quarantine_list_is_complete transport_topology quarantine_log "shop.quarantine.>" sample_generation 5
    sample_shown) with (info := quarantine_info 5).
  - intros [|[|i]] [|[|j]] r r'; cbn; intros [= <-] [= <-] Hij; cbn; lia.
  - apply quarantine_log_all. repeat constructor; by vm_compute.
  - apply quarantine_log_all. repeat constructor; by vm_compute.
  - done.
  - done.
  - done.
  - exact quarantine_cursor_text.
  - apply quarantine_page_honest; [by intros r ?%elem_of_nil|done].
  - apply Forall_forall. intros answers Hin. unfold quarantine_pages in Hin.
    repeat (apply elem_of_cons in Hin as [->|Hin]); [..|by apply elem_of_nil in Hin];
      (apply quarantine_page_honest; [by intros r ->%list_elem_of_singleton|done]).
  - reflexivity.
  - done.
  - apply quarantine_log_all. repeat constructor; by vm_compute.
  - done.
Defined.

(** ** Domain events: a direct commit of two events, at the sequences 1 and 2 *)

Definition event_wire : PublishedWire := sample_wire 0 (Ident "first-operation-000000000000000000") 1 None 2.
Definition event_raw (i : nat) : RawMessage :=
  let payload := default [] (pw_payloads event_wire !! i) in
  mkRawMessage (1 + N.of_nat i) (stream_subject sample_config sample_stream)
    (wire_headers sample_config sample_stream event_wire 0 i payload) payload.
Definition event_log (n : N) : option RawMessage :=
  if n =? 1 then Some (event_raw 0) else if n =? 2 then Some (event_raw 1) else None.
Definition found_event (m : option RawMessage) : RawLookup :=
  match m with Some m => MessageFound m | None => NoMessageFound end.

Definition counting_dispatch (e : RecordedEvent) (n : nat)
  : result DomainEventDispatchOutcome DomainEventHandlerError * nat := (Ok Handled, S n).
Definition events_config : NatsDomainEventConsumerConfig :=
  mkEventsConfig (DeliveryName "shop--orders--projection--v1") (DeliveryName "shop--orders--projection--v1")
    30000000000 20000000000 (mkRetryDelay 1000000000) None.
(** The first event is delivered while nothing is acknowledged. *)
Definition events_turn : TurnAnswers (W := nat * list RecordedEvent) :=
  mkTurnAnswers
    (Some (Some (mkJetStreamMessage (Some (mkRawInfo (nc_stream_name sample_config) "shop--orders--projection--v1" 1 1 1 1))
       (rm_subject (event_raw 0)) (Some (rm_headers (event_raw 0))) (rm_payload (event_raw 0)))))
    false None
    (mkEventAnswers (Some 0) (λ n, found_event (event_log n)) (λ _, MessageFound (event_raw 0)) (λ _, Ok None))
    false true true.
Definition events_turned :=
  consumer_turn (worker counting_dispatch sample_config events_config None) events_turn (0%nat, []).

Lemma events_turned_acknowledges :
  events_turned.1.2 = [EventAcknowledged] ∧ events_turned.1.1.1 = 2%nat.
Proof. by split; vm_compute. Qed.

Lemma event_log_sequence n m : event_log n = Some m → rm_sequence m = n.
Proof. unfold event_log. repeat case_match; intros [= <-]; cbn; lia. Qed.

Lemma events_step :
  work_step counting_dispatch sample_config events_config event_log (λ _, False)
    (∅, (0%nat, [])) ({[1]}, events_turned.1.1).
Proof.
  eapply (worker_turn _ _ _ _ _ ∅ {[1]} (0%nat, []) _ None events_turn).
  - intros n m H. cbn in H. unfold found_event in H. destruct (event_log n) as [m'|] eqn:E; [|done].
    by injection H as ->.
  - by intros e.
  - intros floor n d [= <-] (m & Hm & _) Hn. unfold event_log in Hm. repeat case_match; try done; lia.
  - intros message info [= <-] [= <-]. exists (event_raw 0). split_and!; reflexivity.
  - done.
  - exact (triple_eta events_turned).
  - right. rewrite (proj1 events_turned_acknowledges). split; [by left|].
    eexists _, _. split; [reflexivity|]. split; [reflexivity|]. by rewrite union_empty_r_L.
Qed.

Definition first_decoded : result DecodedEvent EventStoreError :=
  decode_consumed_event sample_config (rm_subject (event_raw 0)) (rm_headers (event_raw 0)) (rm_payload (event_raw 0)).
Lemma first_decoded_value :
  match first_decoded with
  | Ok d => (de_transaction_event_ordinal d =? 0) && (de_transaction_event_count d =? 2)
  | Err _ => false
  end = true.
Proof. by vm_compute. Qed.

Lemma acknowledged_events_are_handled_witness :
  handled sample_config event_log (λ _, False) events_turned.1.1.2 2
  ∧ handled sample_config event_log (λ _, False) events_turned.1.1.2 1.
Proof.
  pose proof first_decoded_value as H. destruct first_decoded as [d|] eqn:E; [|discriminate H].
  apply andb_true_iff in H as [Ho%N.eqb_eq Hc%N.eqb_eq].
  destruct (acknowledged_events_are_handled counting_dispatch sample_config events_config event_log event_log_sequence
    (λ _, False) 0%nat {[1]} events_turned.1.1 1 d 1) as [H2 H1].
  - apply rtc_once, events_step.
  - by apply elem_of_singleton.
  - exists (event_raw 0). split; [reflexivity|exact E].
  - rewrite Ho. reflexivity.
  - rewrite Hc. reflexivity.
  - rewrite Ho in H2. exact (conj H2 H1).
Defined.
