(* ===== verification/TracerGraph.v ===== *)
(** * TracerGraph: the documents a behavioral test expects messages with - time
    limits, outcomes and payload subsets (crates/rostfrei-tracer/src/behavioral.rs),
    and the definition of a causal message graph with its validation
    (message_series.rs).

    The definitions a document is read into are built by serde from its wire form;
    the text of JSON documents is not modelled. A number is taken up to its
    equality. *)

From S2P Require Export Series Response.

(** [str::strip_suffix] *)
Fixpoint strip_suffix (suffix s : string) : option string :=
  if String.eqb s suffix then Some EmptyString
  else match s with
       | EmptyString => None
       | String c s => String c <$> strip_suffix suffix s
       end.

(** [serde_json::Value] is compared member by member; numbers are compared by
    their own equality. *)
#[global] Instance json_value_eq_dec {N} `{EqDecision N} : EqDecision (Value N).
Proof.
  refine (fix go (v w : Value N) {struct v} : Decision (v = w) :=
    match v, w with
    | VNull, VNull => left eq_refl
    | VBool b, VBool c => cast_if (decide (b = c))
    | VNumber n, VNumber m => cast_if (decide (n = m))
    | VString s, VString t => cast_if (decide (s = t))
    | VArray l, VArray k => cast_if (@list_eq_dec _ go l k)
    | VObject l, VObject k =>
      cast_if (@list_eq_dec _ (λ p q,
        match p, q with
        | (a, x), (b, y) => cast_if_and (decide (a = b)) (go x y)
        end) l k)
    | _, _ => right _
    end); first [congruence | discriminate].
Defined.

(** [Value::get] of a member *)
Definition value_get {N} (key : string) (v : Value N) : option (Value N) :=
  match v with
  | VObject members => snd <$> List.find (λ m, String.eqb m.1 key) members
  | _ => None
  end.

(** [checked_mul] *)
Definition checked_mul (max a b : N) : option N :=
  if a * b <=? max then Some (a * b) else None.

(** ** Time limits (behavioral.rs) *)

Definition MAX_TEST_TIMEOUT_MILLIS : N := 60000.

(** The duration in nanoseconds *)
Record TestTimeout := mkTestTimeout { as_duration : N }.
#[global] Instance TestTimeout_eq_dec : EqDecision TestTimeout.
Proof. solve_decision. Defined.

Definition from_millis (millis : N) : N := millis * 1000000.
Definition as_millis (t : TestTimeout) : N := as_duration t / 1000000.

Inductive TestTimeoutParseError := TimeoutInvalidFormat | TimeoutOutOfRange.

Definition TestTimeout_display (t : TestTimeout) : string :=
  let millis := as_millis t in
  if millis mod 1000 =? 0 then n_to_string (millis / 1000) +:+ "s"
  else n_to_string millis +:+ "ms".

Definition TestTimeout_from_str (value : string) : result TestTimeout TestTimeoutParseError :=
  let? parts := ok_or (match strip_suffix "ms" value with
                       | Some number => Some (number, 1)
                       | None => (λ number, (number, 1000)) <$> strip_suffix "s" value
                       end) TimeoutInvalidFormat in
  let '(number, multiplier) := parts in
  fail! String.eqb number "" || negb (bytes_all is_digit number) with TimeoutInvalidFormat;
  let? number := ok_or (parse_n u64_max number) TimeoutOutOfRange in
  let? millis := ok_or (checked_mul u64_max number multiplier) TimeoutOutOfRange in
  fail! (millis <? 1) || (MAX_TEST_TIMEOUT_MILLIS <? millis) with TimeoutOutOfRange;
  Ok (mkTestTimeout (from_millis millis)).

(** ** Documents of behavioral tests (behavioral.rs) *)

(** [deserialize_nonempty] and [deserialize_positive_schema_version] *)
Definition deserialize_nonempty (value : string) : result string string :=
  fail! String.eqb (trim value) "" with "value must not be empty";
  Ok value.
Definition deserialize_positive_schema_version (value : N) : result N string :=
  if 0 <? value then Ok value else Err "schema version must be greater than zero".

Record TestAggregate := mkTestAggregate { agg_type : string; agg_id : string }.
#[global] Instance TestAggregate_eq_dec : EqDecision TestAggregate.
Proof. solve_decision. Defined.

Section Documents.
Context `{JT : JsonText}.

Record TestCommand := mkTestCommand {
  tc_name : string;
  tc_schema_version : N;
  tc_context : string;
  tc_payload : JValue;
}.

Record TestRejection := mkTestRejection { tr_code : string; tr_payload : option JValue }.
Inductive TestOutcome := TestAccepted | TestRejected (rejection : TestRejection).

Definition outcome_is_accepted (o : TestOutcome) : bool :=
  match o with TestAccepted => true | TestRejected _ => false end.
Definition outcome_rejection (o : TestOutcome) : option TestRejection :=
  match o with TestAccepted => None | TestRejected rejection => Some rejection end.

(** The hand-written [Serialize] of an outcome *)
Definition TestOutcome_serialize (o : TestOutcome) : JValue :=
  match o with
  | TestAccepted => VString "accepted"
  | TestRejected rejection =>
    VObject [("rejected", VObject (("code", VString (tr_code rejection))
       :: match tr_payload rejection with Some payload => [("payload", payload)] | None => [] end))]
  end.

(** [OutcomeDocument] *)
Inductive OutcomeDocument :=
| DocumentAccepted (value : string)
| DocumentRejected (code : string) (payload : option JValue).

Definition TestOutcome_deserialize (document : OutcomeDocument) : result TestOutcome string :=
  match document with
  | DocumentAccepted value =>
    if String.eqb value "accepted" then Ok TestAccepted
    else Err ("unsupported test outcome `" +:+ value +:+ "`")
  | DocumentRejected code payload =>
    let? code := deserialize_nonempty code in
    Ok (TestRejected (mkTestRejection code payload))
  end.

Section Subset.
Context `{NE : !EqDecision Number}.

#[global] Instance TestRejection_eq_dec : EqDecision TestRejection.
Proof. solve_decision. Defined.
#[global] Instance TestOutcome_eq_dec : EqDecision TestOutcome.
Proof. solve_decision. Defined.

(** Objects are compared as subsets, arrays element by element, scalars exactly. *)
Fixpoint payload_matches_subset (expected actual : JValue) {struct expected} : bool :=
  match expected, actual with
  | VObject expected, VObject actual =>
    forallb (λ '(key, value),
      match value_get key (VObject actual) with
      | Some actual => payload_matches_subset value actual
      | None => false
      end) expected
  | VArray expected, VArray actual =>
    Nat.eqb (length expected) (length actual)
    && (fix all expected actual :=
          match expected, actual with
          | e :: expected, a :: actual => payload_matches_subset e a && all expected actual
          | _, _ => true
          end) expected actual
  | _, _ => bool_decide (expected = actual)
  end.
End Subset.
End Documents.

(** ** Validation issues (message_series.rs) *)

Definition MAXIMUM_EXPECTED_GRAPH_DEPTH : nat := 64.
Definition MAXIMUM_EXPECTED_SIBLINGS : N := 64.

Record MessageSeriesValidationIssue := mkIssue {
  issue_code : string;
  issue_path : string;
  issue_message : string;
}.

Record MessageSeriesDefinitionError := mkDefinitionError {
  definition_issues : list MessageSeriesValidationIssue;
}.

Definition MessageSeriesDefinitionError_display (e : MessageSeriesDefinitionError) : string :=
  "message series definition contains " +:+ n_to_string (len (definition_issues e))
  +:+ " validation issue(s)".

Definition graph_path (base field : string) : string :=
  if String.eqb base "" then "/" +:+ field else base +:+ "/" +:+ field.

(** A position in a path *)
Definition index_text (index : N) : string := n_to_string index.

Definition issue_if (c : bool) (code path message : string) : list MessageSeriesValidationIssue :=
  if c then [mkIssue code path message] else [].

(** [trim().is_empty()] *)
Definition is_blank (s : string) : bool := String.eqb (trim s) "".

(** The iteration of a [HashMap] visits every entry once, in no specified order. *)
Class HashMapOrder := {
  hash_entries : gmap string N → list (string * N);
  hash_entries_all m : hash_entries m ≡ₚ map_to_list m;
}.

Inductive ExpectedMessageKind := KindCommand | KindDomainEvent | KindIntegrationEvent.
#[global] Instance ExpectedMessageKind_eq_dec : EqDecision ExpectedMessageKind.
Proof. solve_decision. Defined.

(** A kind as serde writes it *)
Definition kind_text (k : ExpectedMessageKind) : string :=
  match k with
  | KindCommand => "command"
  | KindDomainEvent => "domain-event"
  | KindIntegrationEvent => "integration-event"
  end.

(** [TopologyNode] *)
Record TopologyNode := mkTopologyNode { tn_key : string; tn_parent_key : option string }.
#[global] Instance TopologyNode_eq_dec : EqDecision TopologyNode.
Proof. solve_decision. Defined.
#[global] Instance TopologyNode_node : MessageSeriesNode TopologyNode :=
  {| NodeMessageId := string; NodeCorrelationId := unit; node_message_id := tn_key;
     node_correlation_id := λ _, tt; node_causation_id := tn_parent_key |}.

Section Graphs.
Context `{JT : JsonText} `{NE : !EqDecision Number}.

(** ** Expected messages *)

Inductive ExpectedMessageNode :=
| ExpectedCommand (key : string) (parent_key : option string) (name : string) (schema_version : N)
    (context : string) (payload : option JValue) (outcome : TestOutcome)
| ExpectedDomainEvent (key : string) (parent_key : option string) (name : string) (schema_version : N)
    (payload : option JValue)
| ExpectedIntegrationEvent (key : string) (parent_key : option string) (name : string)
    (schema_version : N) (payload : option JValue).

#[global] Instance ExpectedMessageNode_eq_dec : EqDecision ExpectedMessageNode.
Proof. solve_decision. Defined.

Definition node_key (n : ExpectedMessageNode) : string :=
  match n with
  | ExpectedCommand key _ _ _ _ _ _ | ExpectedDomainEvent key _ _ _ _
  | ExpectedIntegrationEvent key _ _ _ _ => key
  end.
Definition node_parent_key (n : ExpectedMessageNode) : option string :=
  match n with
  | ExpectedCommand _ parent_key _ _ _ _ _ | ExpectedDomainEvent _ parent_key _ _ _
  | ExpectedIntegrationEvent _ parent_key _ _ _ => parent_key
  end.
Definition node_is_command (n : ExpectedMessageNode) : bool :=
  match n with ExpectedCommand _ _ _ _ _ _ _ => true | _ => false end.
Definition node_kind (n : ExpectedMessageNode) : ExpectedMessageKind :=
  match n with
  | ExpectedCommand _ _ _ _ _ _ _ => KindCommand
  | ExpectedDomainEvent _ _ _ _ _ => KindDomainEvent
  | ExpectedIntegrationEvent _ _ _ _ _ => KindIntegrationEvent
  end.
Definition node_name (n : ExpectedMessageNode) : string :=
  match n with
  | ExpectedCommand _ _ name _ _ _ _ | ExpectedDomainEvent _ _ name _ _
  | ExpectedIntegrationEvent _ _ name _ _ => name
  end.
Definition node_schema_version (n : ExpectedMessageNode) : N :=
  match n with
  | ExpectedCommand _ _ _ schema_version _ _ _ | ExpectedDomainEvent _ _ _ schema_version _
  | ExpectedIntegrationEvent _ _ _ schema_version _ => schema_version
  end.
Definition node_context (n : ExpectedMessageNode) : option string :=
  match n with ExpectedCommand _ _ _ _ context _ _ => Some context | _ => None end.
Definition node_payload (n : ExpectedMessageNode) : option JValue :=
  match n with
  | ExpectedCommand _ _ _ _ _ payload _ | ExpectedDomainEvent _ _ _ _ payload
  | ExpectedIntegrationEvent _ _ _ _ payload => payload
  end.
Definition node_outcome (n : ExpectedMessageNode) : option TestOutcome :=
  match n with ExpectedCommand _ _ _ _ _ _ outcome => Some outcome | _ => None end.

(** [ExpectedCommandFields] *)
Record ExpectedCommandFields := mkCommandFields {
  cf_key : string;
  cf_parent_key : option string;
  cf_name : string;
  cf_schema_version : N;
  cf_context : string;
  cf_payload : JValue;
  cf_outcome : TestOutcome;
}.
Definition to_test_command (f : ExpectedCommandFields) : TestCommand :=
  mkTestCommand (cf_name f) (cf_schema_version f) (cf_context f) (cf_payload f).

Definition as_command (n : ExpectedMessageNode) : option ExpectedCommandFields :=
  match n with
  | ExpectedCommand key parent_key name schema_version context (Some payload) outcome =>
    Some (mkCommandFields key parent_key name schema_version context payload outcome)
  | _ => None
  end.

#[global] Instance ExpectedMessageNode_node : MessageSeriesNode ExpectedMessageNode :=
  {| NodeMessageId := string; NodeCorrelationId := unit; node_message_id := node_key;
     node_correlation_id := λ _, tt; node_causation_id := node_parent_key |}.

(** ** Validation of a graph *)

Definition validate_node_fields (node : ExpectedMessageNode) (node_path : string)
  : list MessageSeriesValidationIssue :=
  issue_if (is_some_and is_blank (node_parent_key node))
    "empty-parent-key" (node_path +:+ "/parentKey") "parent key must not be empty"
  ++ issue_if (is_blank (node_name node))
       "empty-message-name" (node_path +:+ "/name") "message name must not be empty"
  ++ issue_if (node_schema_version node =? 0)
       "invalid-schema-version" (node_path +:+ "/schemaVersion")
       "message schema version must be greater than zero"
  ++ match node with
     | ExpectedCommand _ _ _ _ context _ outcome =>
       issue_if (is_blank context)
         "empty-command-context" (node_path +:+ "/context") "command context must not be empty"
       ++ issue_if (is_some_and (λ rejection, is_blank (tr_code rejection)) (outcome_rejection outcome))
            "empty-rejection-code" (node_path +:+ "/outcome/rejected/code")
            "rejection code must not be empty"
     | _ => []
     end.

(** One turn of the loop of [validate_nodes]; the state is the first index of
    every key, whether a key was repeated, and the issues. *)
Definition validate_node (nodes_path : string)
    (acc : gmap string N * bool * list MessageSeriesValidationIssue) (entry : N * ExpectedMessageNode)
  : gmap string N * bool * list MessageSeriesValidationIssue :=
  let '(first_by_key, duplicate_keys, issues) := acc in
  let '(index, node) := entry in
  let node_path := nodes_path +:+ "/" +:+ index_text index in
  let issues := issues ++ issue_if (is_blank (node_key node))
                            "empty-node-key" (node_path +:+ "/key") "node key must not be empty" in
  let '(first_by_key, duplicate_keys, issues) :=
    match first_by_key !! node_key node with
    | None => (<[node_key node := index]> first_by_key, duplicate_keys, issues)
    | Some first =>
      (first_by_key, true,
       issues ++ [mkIssue "duplicate-node-key" (node_path +:+ "/key")
                    ("node key `" +:+ node_key node +:+ "` duplicates " +:+ nodes_path +:+ "/"
                     +:+ index_text first +:+ "/key")])
    end in
  (first_by_key, duplicate_keys, issues ++ validate_node_fields node node_path).

Definition validate_nodes (nodes : list ExpectedMessageNode) (nodes_path : string)
  : gmap string N * bool * list MessageSeriesValidationIssue :=
  foldl (validate_node nodes_path) (∅, false, []) (enumerate nodes).

Definition validate_parent_keys (nodes : list ExpectedMessageNode) (nodes_path : string)
    (first_by_key : gmap string N) : list MessageSeriesValidationIssue :=
  concat (map (λ '(index, node),
    match node_parent_key node with
    | Some parent_key =>
      issue_if (negb (is_blank parent_key) && is_none (first_by_key !! parent_key))
        "unresolved-parent-key" (nodes_path +:+ "/" +:+ index_text index +:+ "/parentKey")
        ("parent key `" +:+ parent_key +:+ "` does not identify a node in this graph")
    | None => []
    end) (enumerate nodes)).

Definition validate_root (nodes : list ExpectedMessageNode) (nodes_path : string)
  : list MessageSeriesValidationIssue :=
  let roots := filter (λ entry : N * ExpectedMessageNode, node_parent_key entry.2 = None) (enumerate nodes) in
  match roots with
  | [(root_index, root)] =>
    if negb (node_is_command root) then
      [mkIssue "root-not-command" (nodes_path +:+ "/" +:+ index_text root_index +:+ "/kind")
         "message graph root must be a command"]
    else
      match root with
      | ExpectedCommand _ _ _ _ _ None _ =>
        [mkIssue "missing-root-command-payload" (nodes_path +:+ "/" +:+ index_text root_index +:+ "/payload")
           "root command must contain its complete input payload"]
      | _ => []
      end
  | _ =>
    [mkIssue "invalid-root-count" nodes_path
       ("message graph must contain exactly one root; found " +:+ n_to_string (len roots))]
  end.

Definition topology_nodes (nodes : list ExpectedMessageNode) : list TopologyNode :=
  map (λ node, mkTopologyNode (node_key node) (node_parent_key node)) nodes.

Definition validate_cycles (nodes : list ExpectedMessageNode) (nodes_path : string)
    (first_by_key : gmap string N) (duplicate_keys : bool) : list MessageSeriesValidationIssue :=
  if negb duplicate_keys && (Nat.leb (length nodes) MAX_MESSAGE_SERIES_NODES) then
    match series_try_from_nodes (topology_nodes nodes) with
    | Ok topology =>
      concat (map (λ issue,
        match issue with
        | Cycle cycle =>
          match head cycle ≫= (λ node, first_by_key !! tn_key node) with
          | Some first_index =>
            [mkIssue "causation-cycle" (nodes_path +:+ "/" +:+ index_text first_index +:+ "/parentKey")
               ("causation cycle contains node keys: " +:+ String.concat ", " (map tn_key cycle))]
          | None => []
          end
        | _ => []
        end) (default [] (topology_issues topology)))
    | Err _ => []
    end
  else [].

(** The walk from a node to its ancestors in [validate_comparison_bounds]: does
    it pass more than the maximum number of levels? [room] is the number of
    turns left before the depth exceeds the maximum, which ends the walk. *)
Fixpoint walk_too_deep (parent_of : string → option string) (room : nat) (visited : gset string)
    (parent : option string) : bool :=
  match parent with
  | None => false
  | Some parent_key =>
    if bool_decide (parent_key ∈ visited) then false
    else
      match room with
      | O => true
      | S room => walk_too_deep parent_of room ({[parent_key]} ∪ visited) (parent_of parent_key)
      end
  end.

Definition count_child (children : gmap string N) (node : ExpectedMessageNode) : gmap string N :=
  match node_parent_key node with
  | Some parent_key =>
    <[parent_key := saturating_add usize_max (default 0 (children !! parent_key)) 1]> children
  | None => children
  end.

Definition first_parent_key (nodes : list ExpectedMessageNode) (first_by_key : gmap string N) (key : string)
  : option string :=
  match first_by_key !! key with
  | Some index => nodes !! N.to_nat index ≫= node_parent_key
  | None => None
  end.

Context `{HO : HashMapOrder}.

Definition validate_comparison_bounds (nodes : list ExpectedMessageNode) (nodes_path : string)
    (first_by_key : gmap string N) (duplicate_keys : bool) : list MessageSeriesValidationIssue :=
  let children_by_parent := foldl count_child ∅ nodes in
  match List.find (λ child : string * N, MAXIMUM_EXPECTED_SIBLINGS <? child.2)
          (hash_entries children_by_parent) with
  | Some (parent, count) =>
    [mkIssue "too-many-siblings" nodes_path
       ("node `" +:+ parent +:+ "` has " +:+ n_to_string count +:+ " children; at most "
        +:+ n_to_string MAXIMUM_EXPECTED_SIBLINGS +:+ " are supported")]
  | None => []
  end
  ++ if duplicate_keys then []
     else issue_if (existsb (λ node, walk_too_deep (first_parent_key nodes first_by_key)
                                      MAXIMUM_EXPECTED_GRAPH_DEPTH ∅ (node_parent_key node)) nodes)
            "message-graph-too-deep" nodes_path
            ("message graph depth exceeds the supported maximum of "
             +:+ n_to_string (N.of_nat MAXIMUM_EXPECTED_GRAPH_DEPTH)).

Definition validate_graph (nodes : list ExpectedMessageNode) (path : string)
  : list MessageSeriesValidationIssue :=
  let nodes_path := graph_path path "nodes" in
  match nodes with
  | [] => [mkIssue "empty-message-graph" nodes_path "message graph must contain at least one node"]
  | _ =>
    let issues :=
      issue_if (Nat.ltb MAX_MESSAGE_SERIES_NODES (length nodes)) "too-many-nodes" nodes_path
        ("message graph contains more than " +:+ n_to_string (N.of_nat MAX_MESSAGE_SERIES_NODES) +:+ " nodes") in
    let '(first_by_key, duplicate_keys, node_issues) := validate_nodes nodes nodes_path in
    issues ++ node_issues
    ++ validate_parent_keys nodes nodes_path first_by_key
    ++ validate_root nodes nodes_path
    ++ validate_cycles nodes nodes_path first_by_key duplicate_keys
    ++ validate_comparison_bounds nodes nodes_path first_by_key duplicate_keys
  end.

(** ** Graphs and series of graphs *)

Record MessageGraphDefinition := mkGraph {
  graph_within : option TestTimeout;
  graph_settle_for : option TestTimeout;
  graph_nodes : MessageSeries (Node := ExpectedMessageNode);
}.

Definition graph_build (nodes : list ExpectedMessageNode) (within settle_for : option TestTimeout)
    (path : string) : result MessageGraphDefinition MessageSeriesDefinitionError :=
  let issues := validate_graph nodes path in
  fail! negb (bool_decide (issues = [])) with mkDefinitionError issues;
  let? nodes := map_err (λ error, mkDefinitionError
                  [mkIssue "invalid-message-graph" (graph_path path "nodes") (ContractError_display error)])
                  (series_try_from_nodes nodes) in
  Ok (mkGraph within settle_for nodes).

Definition graph_try_from_nodes (nodes : list ExpectedMessageNode) (within settle_for : option TestTimeout)
  : result MessageGraphDefinition MessageSeriesDefinitionError :=
  graph_build nodes within settle_for "".

Definition root_command (g : MessageGraphDefinition) : option ExpectedCommandFields :=
  head (series_roots (graph_nodes g)) ≫= as_command.

Record MessageSeriesDefinition := mkDefinition {
  def_within : TestTimeout;
  def_settle_for : TestTimeout;
  def_graphs : list MessageGraphDefinition;
}.

Definition effective_within (g : MessageGraphDefinition) (d : MessageSeriesDefinition) : TestTimeout :=
  default (def_within d) (graph_within g).
Definition effective_settle_for (g : MessageGraphDefinition) (d : MessageSeriesDefinition) : TestTimeout :=
  default (def_settle_for d) (graph_settle_for g).

Definition empty_series_issue : MessageSeriesValidationIssue :=
  mkIssue "empty-message-series" "/graphs" "message series definition must contain at least one graph".

Definition definition_try_new (within settle_for : TestTimeout) (graphs : list MessageGraphDefinition)
  : result MessageSeriesDefinition MessageSeriesDefinitionError :=
  match graphs with
  | [] => Err (mkDefinitionError [empty_series_issue])
  | _ => Ok (mkDefinition within settle_for graphs)
  end.

(** ** Reading definitions from their wire forms *)

(** [ExpectedOutcomeWire] *)
Inductive ExpectedOutcomeWire :=
| OutcomeWireAccepted (value : string)
| OutcomeWireRejected (code : string) (payload : option JValue).

Inductive ExpectedMessageNodeWire :=
| WireCommand (key : string) (parent_key : option string) (name : string) (schema_version : N)
    (context : string) (payload : option JValue) (outcome : ExpectedOutcomeWire)
| WireDomainEvent (key : string) (parent_key : option string) (name : string) (schema_version : N)
    (payload : option JValue)
| WireIntegrationEvent (key : string) (parent_key : option string) (name : string) (schema_version : N)
    (payload : option JValue).

(** [into_outcome] and [into_node]: the value and the issues it adds *)
Definition into_outcome (wire : ExpectedOutcomeWire) (path : string)
  : TestOutcome * list MessageSeriesValidationIssue :=
  match wire with
  | OutcomeWireAccepted value =>
    if String.eqb value "accepted" then (TestAccepted, [])
    else (TestAccepted, [mkIssue "invalid-outcome" (path +:+ "/outcome")
                           ("unsupported command outcome `" +:+ value +:+ "`")])
  | OutcomeWireRejected code payload => (TestRejected (mkTestRejection code payload), [])
  end.

Definition into_node (wire : ExpectedMessageNodeWire) (path : string)
  : ExpectedMessageNode * list MessageSeriesValidationIssue :=
  match wire with
  | WireCommand key parent_key name schema_version context payload outcome =>
    let '(outcome, issues) := into_outcome outcome path in
    (ExpectedCommand key parent_key name schema_version context payload outcome, issues)
  | WireDomainEvent key parent_key name schema_version payload =>
    (ExpectedDomainEvent key parent_key name schema_version payload, [])
  | WireIntegrationEvent key parent_key name schema_version payload =>
    (ExpectedIntegrationEvent key parent_key name schema_version payload, [])
  end.

Definition node_deserialize (wire : ExpectedMessageNodeWire) : result ExpectedMessageNode string :=
  let '(node, issues) := into_node wire "" in
  match head issues with
  | Some issue => Err (issue_message issue)
  | None => Ok node
  end.

Record MessageGraphDefinitionWire := mkGraphWire {
  gw_within : option TestTimeout;
  gw_settle_for : option TestTimeout;
  gw_nodes : list ExpectedMessageNodeWire;
}.

Definition graph_from_wire (wire : MessageGraphDefinitionWire) (path : string)
  : result MessageGraphDefinition MessageSeriesDefinitionError :=
  let nodes_path := graph_path path "nodes" in
  let nodes := map (λ '(index, node), into_node node (nodes_path +:+ "/" +:+ index_text index))
                 (enumerate (gw_nodes wire)) in
  let issues := concat nodes.*2 in
  match graph_build nodes.*1 (gw_within wire) (gw_settle_for wire) path with
  | Ok graph =>
    fail! negb (bool_decide (issues = [])) with mkDefinitionError issues;
    Ok graph
  | Err error => Err (mkDefinitionError (issues ++ definition_issues error))
  end.

Record MessageSeriesDefinitionWire := mkDefinitionWire {
  dw_within : TestTimeout;
  dw_settle_for : TestTimeout;
  dw_graphs : list MessageGraphDefinitionWire;
}.

Definition definition_from_wire (wire : MessageSeriesDefinitionWire)
  : result MessageSeriesDefinition MessageSeriesDefinitionError :=
  let issues := if bool_decide (dw_graphs wire = []) then [empty_series_issue] else [] in
  let '(graphs, issues) :=
    foldl (λ '(graphs, issues) '(index, graph),
      match graph_from_wire graph ("/graphs/" +:+ index_text index) with
      | Ok graph => (graphs ++ [graph], issues)
      | Err error => (graphs, issues ++ definition_issues error)
      end) ([], issues) (enumerate (dw_graphs wire)) in
  fail! negb (bool_decide (issues = [])) with mkDefinitionError issues;
  Ok (mkDefinition (dw_within wire) (dw_settle_for wire) graphs).
End Graphs.

(** ** What a valid graph is *)

Section Validity.
Context `{JT : JsonText} `{NE : !EqDecision Number} `{HO : HashMapOrder}.

(** A node and its distance to the root *)
Inductive at_depth (nodes : list ExpectedMessageNode) : ExpectedMessageNode → nat → Prop :=
| at_root n : n ∈ nodes → node_parent_key n = None → at_depth nodes n 0
| at_child n p d :
    n ∈ nodes → node_parent_key n = Some (node_key p) → at_depth nodes p d → at_depth nodes n (S d).

Definition node_fields_ok (n : ExpectedMessageNode) : Prop :=
  is_blank (node_key n) = false
  ∧ (∀ parent, node_parent_key n = Some parent → is_blank parent = false)
  ∧ is_blank (node_name n) = false ∧ node_schema_version n ≠ 0
  ∧ (∀ context, node_context n = Some context → is_blank context = false)
  ∧ ∀ outcome rejection, node_outcome n = Some outcome → outcome_rejection outcome = Some rejection →
      is_blank (tr_code rejection) = false.

(** One tree of messages under a command with its input, within the limits of
    the comparison *)
Record graph_ok (nodes : list ExpectedMessageNode) : Prop := mkGraphOk {
  graph_size : (length nodes <= MAX_MESSAGE_SERIES_NODES)%nat;
  graph_keys : NoDup (node_key <$> nodes);
  graph_fields n : n ∈ nodes → node_fields_ok n;
  graph_root : ∃ root, root ∈ nodes ∧ node_parent_key root = None ∧ is_Some (as_command root)
    ∧ ∀ n, n ∈ nodes → node_parent_key n = None → n = root;
  graph_depth n : n ∈ nodes → ∃ d, (d <= MAXIMUM_EXPECTED_GRAPH_DEPTH)%nat ∧ at_depth nodes n d;
  graph_siblings key :
    len (filter (λ n, node_parent_key n = Some key) nodes) <= MAXIMUM_EXPECTED_SIBLINGS;
}.

Lemma issue_if_nil c code path message : issue_if c code path message = [] ↔ c = false.
Proof. by destruct c. Qed.

Lemma is_some_and_false {A} (p : A → bool) o : is_some_and p o = false ↔ ∀ x, o = Some x → p x = false.
Proof. destruct o; cbn; [split; [by intros H ? [= <-]|eauto]|done]. Qed.

Lemma node_fields_nil n path : is_blank (node_key n) = false → validate_node_fields n path = [] ↔ node_fields_ok n.
Proof.
  intros Hk. unfold validate_node_fields, node_fields_ok.
  rewrite !app_nil, !issue_if_nil, N.eqb_neq, is_some_and_false.
  split.
  - intros (Hp & Hn & Hv & Hc). split_and!; [done..| |].
    + intros context E. destruct n; cbn in *; try done. injection E as ->.
      by apply app_nil in Hc as [?%issue_if_nil _].
    + intros o r Eo Er. destruct n; cbn in *; try done. injection Eo as ->.
      apply app_nil in Hc as [_ Hc%issue_if_nil]. by rewrite Er in Hc.
  - intros (_ & Hp & Hn & Hv & Hc & Ho). split_and!; [done..|].
    destruct n; [|done..]. rewrite app_nil, !issue_if_nil. split; [by apply Hc|].
    apply is_some_and_false. intros r Er. by eapply Ho.
Qed.

Lemma validate_node_fold path l : ∀ i m dup issues,
  ∃ m' dup' new,
    foldl (validate_node path) (m, dup, issues) (enumerate_from i l) = (m', dup', issues ++ new)
    ∧ (new = [] ↔ NoDup (node_key <$> l) ∧ (∀ n, n ∈ l → m !! node_key n = None ∧ node_fields_ok n))
    ∧ (new = [] → dup' = dup ∧ ∀ k j, m' !! k = Some j ↔
         m !! k = Some j ∨ ∃ x n, l !! x = Some n ∧ node_key n = k ∧ j = i + N.of_nat x).
Proof.
  induction l as [|n l IH]; intros i m dup issues; cbn [enumerate_from foldl].
  { exists m, dup, []. rewrite app_nil_r. split_and!; [done| |].
    - split; [|done]. intros _. split; [constructor|]. by intros ? ?%elem_of_nil.
    - intros _. split; [done|]. intros k j. split; [by left|]. by intros [?|(x & n & ? & _)]. }
  unfold validate_node at 2. destruct (m !! node_key n) as [first|] eqn:Hm.
  - edestruct (IH (i + 1) m true) as (m' & dup' & new & -> & _ & _). eexists m', dup', _.
    split; [by rewrite <- !app_assoc|]. split.
    + split; [by intros [_ [? _]%app_nil]%app_nil|]. intros [_ H]. destruct (H n) as [? _]; [by left|congruence].
    + by intros [_ [? _]%app_nil]%app_nil.
  - edestruct (IH (i + 1) (<[node_key n := i]> m) dup) as (m' & dup' & new & -> & Hnew & Hmap).
    eexists m', dup', _. split; [by rewrite <- !app_assoc|]. rewrite !app_nil, issue_if_nil. split.
    + rewrite Hnew, fmap_cons, NoDup_cons. split.
      * intros (Hb & Hf%node_fields_nil & Hnd & Hall); [|done]. split_and!; [|done|].
        -- intros (n' & E & Hn')%list_elem_of_fmap. destruct (Hall n' Hn') as [Hl _].
           rewrite <- E, lookup_insert_eq in Hl; done.
        -- intros n' [->|Hn']%elem_of_cons; [done|]. destruct (Hall n' Hn') as [[Hl _]%lookup_insert_None Hok]. done.
      * intros [[Hn Hnd] Hall]. destruct (Hall n) as [_ Hok]; [by left|]. split_and!; [exact (proj1 Hok)| |done|].
        -- apply node_fields_nil; [exact (proj1 Hok)|done].
        -- intros n' Hn'. destruct (Hall n') as [Hl Hok']; [by right|]. split; [|done].
           apply lookup_insert_None. split; [done|]. intros E. apply Hn. rewrite E. by apply list_elem_of_fmap_2.
    + intros (_ & _ & Hn). destruct (Hmap Hn) as [-> Hm']. split; [done|]. intros k j. rewrite Hm'. split.
      * intros [[[<- <-]|[? ?]]%lookup_insert_Some|(x & n' & Hx & <- & ->)]; [right; exists 0%nat, n; split_and!; [done..|lia]|by left|].
        right. exists (S x), n'. split_and!; [done..|lia].
      * intros [Hk|([|x] & n' & Hx & <- & ->)].
        -- left. apply lookup_insert_Some. right. split; [|done]. congruence.
        -- injection Hx as ->. left. apply lookup_insert_Some. left. split; [done|lia].
        -- right. exists x, n'. split_and!; [done..|lia].
Qed.

Lemma validate_nodes_spec nodes path :
  ∃ m dup new, validate_nodes nodes path = (m, dup, new)
    ∧ (new = [] ↔ NoDup (node_key <$> nodes) ∧ ∀ n, n ∈ nodes → node_fields_ok n)
    ∧ (new = [] → dup = false ∧ ∀ k j, m !! k = Some j ↔
         ∃ x n, nodes !! x = Some n ∧ node_key n = k ∧ j = N.of_nat x).
Proof.
  destruct (validate_node_fold path nodes 0 ∅ false []) as (m & dup & new & E & Hnew & Hm).
  exists m, dup, new. split; [exact E|]. split.
  - rewrite Hnew. split; intros [? H]; (split; [done|]); intros n Hn; [by apply H|].
    split; [apply lookup_empty|by apply H].
  - intros Hn. destruct (Hm Hn) as [-> Hk]. split; [done|]. intros k j. rewrite Hk, lookup_empty.
    split; [by intros [?|?]|by right].
Qed.

Lemma elem_of_enumerate {A} (l : list A) i x : (i, x) ∈ enumerate l ↔ ∃ k, l !! k = Some x ∧ i = N.of_nat k.
Proof.
  rewrite list_elem_of_lookup. setoid_rewrite enumerate_lookup. split.
  - intros (k & Hk). destruct (l !! k) as [y|] eqn:E; [|done]. injection Hk as <- <-. by exists k.
  - intros (k & Hk & ->). exists k. by rewrite Hk.
Qed.

Lemma NoDup_enumerate {A} (l : list A) : NoDup (enumerate l).
Proof.
  apply NoDup_alt. intros i j [k x]. rewrite !enumerate_lookup.
  destruct (l !! i), (l !! j); cbn; intros; simplify_eq/=; lia.
Qed.

Lemma unique_singleton {A} (l : list A) x : NoDup l → x ∈ l → (∀ y, y ∈ l → y = x) → l = [x].
Proof.
  intros Hnd Hx Hall. destruct l as [|y [|z l]]; [by apply elem_of_nil in Hx| |].
  - by rewrite (Hall y); [|left].
  - exfalso. apply NoDup_cons in Hnd as [Hy _]. apply Hy. rewrite (Hall y), (Hall z); [left| |left]. by right; left.
Qed.

Lemma concat_map_nil {A B} (f : A → list B) l : concat (map f l) = [] ↔ ∀ x, x ∈ l → f x = [].
Proof.
  induction l as [|x l IH]; cbn; [split; [by intros _ ? ?%elem_of_nil|done]|].
  rewrite app_nil, IH. split.
  - intros [Hx Hl] y [->|Hy]%elem_of_cons; auto.
  - intros H. split; [apply H; left|]. intros y Hy. apply H. by right.
Qed.

Lemma validate_root_nil nodes path :
  NoDup (node_key <$> nodes) →
  validate_root nodes path = [] ↔
  ∃ root, root ∈ nodes ∧ node_parent_key root = None ∧ is_Some (as_command root)
    ∧ ∀ n, n ∈ nodes → node_parent_key n = None → n = root.
Proof.
  intros Hnd. unfold validate_root.
  assert (∀ entry : N * ExpectedMessageNode,
    entry ∈ filter (λ entry, node_parent_key entry.2 = None) (enumerate nodes) ↔
    node_parent_key entry.2 = None ∧ ∃ k, nodes !! k = Some entry.2 ∧ entry.1 = N.of_nat k) as Hin.
  { intros [i n]. by rewrite list_elem_of_filter, elem_of_enumerate. }
  split.
  - destruct (filter _ _) as [|[i root] [|]] eqn:E; [done| |done].
    destruct (proj1 (Hin (i, root))) as (Hroot & k & Hk & _); [left|]. cbn in Hroot, Hk.
    intros Hissues. exists root. split_and!; [by eapply list_elem_of_lookup_2|done| |].
    + destruct root as [? ? ? ? ? [p|] ?| |]; [by eexists|done..].
    + intros n [j Hj]%list_elem_of_lookup Hp.
      assert ((N.of_nat j, n) ∈ [(i, root)]) as [= _ ->]%list_elem_of_singleton; [|done].
      apply Hin. split; [done|]. by exists j.
  - intros (root & [k Hk]%list_elem_of_lookup & Hp & Hc & Hu).
    rewrite (unique_singleton (filter _ _) (N.of_nat k, root)).
    + destruct root as [? ? ? ? ? [p|] ?| |]; by destruct Hc.
    + apply NoDup_filter, NoDup_enumerate.
    + apply Hin. split; [done|]. by exists k.
    + intros [i n] (Hpn & j & Hj & Hi)%Hin. cbn in *. subst i.
      assert (n = root) as -> by (eapply Hu; [by eapply list_elem_of_lookup_2|done]).
      do 2 f_equal. eapply NoDup_lookup; [exact Hnd|..]; rewrite list_lookup_fmap; [by rewrite Hj|by rewrite Hk].
Qed.

Lemma count_child_step m n key :
  default 0 (m !! key) <= usize_max →
  default 0 (count_child m n !! key)
  = N.min usize_max (default 0 (m !! key) + if decide (node_parent_key n = Some key) then 1 else 0).
Proof.
  intros Hm. unfold count_child. destruct (node_parent_key n) as [p|].
  - destruct (decide (p = key)) as [->|Hne].
    + rewrite lookup_insert_eq, decide_True by done. done.
    + rewrite lookup_insert_ne, decide_False by congruence. lia.
  - rewrite decide_False by done. lia.
Qed.

Lemma count_children nodes key : ∀ m,
  default 0 (m !! key) <= usize_max →
  default 0 (foldl count_child m nodes !! key)
  = N.min usize_max (default 0 (m !! key) + len (filter (λ n, node_parent_key n = Some key) nodes)).
Proof.
  induction nodes as [|n nodes IH]; intros m Hm; cbn [foldl].
  - change (len (filter (λ n, node_parent_key n = Some key) [])) with 0. lia.
  - pose proof (count_child_step m n key Hm) as E. rewrite IH, E by lia. rewrite filter_cons.
    destruct (decide (node_parent_key n = Some key)); rewrite ?len_cons; lia.
Qed.

Lemma find_siblings_None nodes :
  List.find (λ child : string * N, MAXIMUM_EXPECTED_SIBLINGS <? child.2)
    (hash_entries (foldl count_child ∅ nodes)) = None ↔
  ∀ key, len (filter (λ n, node_parent_key n = Some key) nodes) <= MAXIMUM_EXPECTED_SIBLINGS.
Proof.
  set (m := foldl count_child ∅ nodes).
  assert (∀ key, default 0 (m !! key) = N.min usize_max (len (filter (λ n, node_parent_key n = Some key) nodes))) as Hm.
  { intros key. unfold m. rewrite count_children; rewrite lookup_empty; done. }
  assert (MAXIMUM_EXPECTED_SIBLINGS < usize_max) as Hmax by done.
  split.
  - intros Hf key. specialize (Hm key). destruct (m !! key) as [c|] eqn:E; cbn in Hm; [|lia].
    assert ((key, c) ∈ hash_entries m) as Hin by (rewrite hash_entries_all; by apply elem_of_map_to_list).
    apply list_elem_of_In in Hin. pose proof (List.find_none _ _ Hf _ Hin) as Hc. cbn [snd] in Hc. apply N.ltb_ge in Hc. lia.
  - intros Hall. destruct (List.find _ _) as [[key c]|] eqn:E; [|done]. exfalso.
    apply List.find_some in E as [Hin Hc]. apply list_elem_of_In in Hin.
    apply (elem_of_Permutation_proper _ _ _ (hash_entries_all m)), elem_of_map_to_list in Hin.
    specialize (Hm key). rewrite Hin in Hm. cbn [default from_option id snd] in Hm, Hc. apply N.ltb_lt in Hc. specialize (Hall key). lia.
Qed.

(** *** Ancestors *)

(** Without a repeated key a parent key names one node. *)
Lemma key_unique nodes n p :
  NoDup (node_key <$> nodes) → n ∈ nodes → p ∈ nodes → node_key n = node_key p → n = p.
Proof.
  intros Hnd [i Hi]%list_elem_of_lookup [j Hj]%list_elem_of_lookup E.
  assert (i = j) as ->; [|congruence].
  eapply NoDup_lookup; [exact Hnd|..]; rewrite list_lookup_fmap; [by rewrite Hi|by rewrite Hj, E].
Qed.

Lemma at_depth_in nodes n d : at_depth nodes n d → n ∈ nodes.
Proof. by destruct 1. Qed.

Lemma at_depth_unique nodes n d e :
  NoDup (node_key <$> nodes) → at_depth nodes n d → at_depth nodes n e → d = e.
Proof.
  intros Hnd H. revert e. induction H as [n Hn Hp|n p d Hn Hp H IH]; intros e He; inversion He; subst; try congruence.
  f_equal. apply IH. rewrite Hp in *. simplify_eq.
  match goal with H1 : at_depth _ ?q _, E : node_key _ = node_key ?q |- _ =>
    by rewrite (key_unique nodes p q Hnd (at_depth_in _ _ _ H) (at_depth_in _ _ _ H1) E) end.
Qed.

(** A set of nodes closed under parents is empty when its nodes have a depth. *)
Lemma no_closed_set nodes (C : ExpectedMessageNode → Prop) n d :
  NoDup (node_key <$> nodes) → (∀ m, C m → m ∈ nodes) →
  (∀ m, C m → ∃ p, C p ∧ node_parent_key m = Some (node_key p)) →
  at_depth nodes n d → ¬ C n.
Proof.
  intros Hnd Hin Hclosed H. induction H as [n Hn Hp|n p d Hn Hp H IH]; intros Hc;
    destruct (Hclosed n Hc) as (q & Hq & E); [congruence|].
  apply IH. rewrite Hp in E. injection E as E.
  by rewrite (key_unique nodes p q Hnd (at_depth_in _ _ _ H) (Hin q Hq) E).
Qed.

Lemma walk_reaches nodes parent_of room : ∀ path n visited,
  NoDup (node_key <$> nodes) →
  (∀ p, p ∈ nodes → parent_of (node_key p) = node_parent_key p) →
  (∀ p k, p ∈ nodes → node_parent_key p = Some k → ∃ q, q ∈ nodes ∧ node_key q = k) →
  (∀ path n, NoDup path → (∀ m, m ∈ path → m ∈ nodes) → caused (path ++ [n]) → n ∉ path) →
  NoDup path → n ∈ nodes → (∀ m, m ∈ path → m ∈ nodes) → caused (path ++ [n]) →
  (∀ k, k ∈ visited → ∃ q, q ∈ path ++ [n] ∧ node_key q = k) →
  walk_too_deep parent_of room visited (node_parent_key n) = false →
  ∃ d, (d <= room)%nat ∧ at_depth nodes n d.
Proof.
  induction room as [|room IH]; intros path n visited Hnd Hof Hres Hac Hpath Hn Hin Hc Hv;
    destruct (node_parent_key n) as [k|] eqn:Hp; cbn; try (intros _; exists 0%nat; split; [lia|by constructor]).
  all: assert (NoDup (path ++ [n])) as Hpath' by (apply NoDup_app; split_and!;
    [done|intros x Hx ->%list_elem_of_singleton; by eapply (Hac path)|apply NoDup_singleton]).
  all: destruct (Hres n k Hn Hp) as (p & Hpn & <-).
  all: assert (caused ((path ++ [n]) ++ [p])) as Hc' by
    (clear -Hc Hp; rewrite <- app_assoc; induction path as [|a [|b path] IHp]; cbn in *; naive_solver).
  all: case_bool_decide as Hk; [intros _; exfalso; destruct (Hv _ Hk) as (q & Hq & E);
    assert (q = p) as -> by (eapply key_unique; [done|set_solver|done|done]);
    eapply (Hac (path ++ [n])); [done|set_solver|done|done]|]; try done.
  rewrite Hof by done. intros Hw. destruct (IH (path ++ [n]) p ({[node_key p]} ∪ visited)) as (d & Hd & H); try done.
  - set_solver.
  - intros k [->%elem_of_singleton|Hkv]%elem_of_union; [exists p; split; [set_solver|done]|].
    destruct (Hv k Hkv) as (q & Hq & E). exists q. split; [set_solver|done].
  - exists (S d). split; [lia|]. by econstructor.
Qed.

Lemma walk_shallow nodes parent_of n d : ∀ room visited,
  (∀ p, p ∈ nodes → parent_of (node_key p) = node_parent_key p) →
  at_depth nodes n d → (d <= room)%nat →
  walk_too_deep parent_of room visited (node_parent_key n) = false.
Proof.
  intros room visited Hof H. revert room visited.
  induction H as [n Hn Hp|n p d Hn Hp H IH]; intros room visited Hd; rewrite Hp; [by destruct room|].
  destruct room as [|room]; [lia|]. cbn. case_bool_decide; [done|].
  rewrite Hof by by eapply at_depth_in. apply IH. lia.
Qed.

(** *** Cycles *)

Definition topology_node (n : ExpectedMessageNode) : TopologyNode :=
  mkTopologyNode (node_key n) (node_parent_key n).

Lemma elem_of_topology nodes t : t ∈ topology_nodes nodes ↔ ∃ n, t = topology_node n ∧ n ∈ nodes.
Proof. apply list_elem_of_fmap. Qed.

Lemma topology_keys nodes : node_message_id <$> topology_nodes nodes = node_key <$> nodes.
Proof. unfold topology_nodes. rewrite <- list_fmap_compose. done. Qed.

Lemma topology_series_ok nodes :
  NoDup (node_key <$> nodes) → (length nodes <= MAX_MESSAGE_SERIES_NODES)%nat →
  series_ok (mkSeries (topology_nodes nodes)).
Proof. intros Hnd Hl. split; cbn; [by rewrite topology_keys|]. by unfold topology_nodes; rewrite length_map. Qed.

Lemma topology_series nodes :
  NoDup (node_key <$> nodes) → (length nodes <= MAX_MESSAGE_SERIES_NODES)%nat →
  series_try_from_nodes (topology_nodes nodes) = Ok (mkSeries (topology_nodes nodes)).
Proof. intros Hnd Hl. exact (series_from_nodes _ (topology_series_ok nodes Hnd Hl)). Qed.

Lemma caused_topology path n : caused (path ++ [n]) → caused (map topology_node path ++ [topology_node n]).
Proof. induction path as [|a [|b path] IH]; cbn in *; [done|naive_solver|]. intros [? ?]. split; [done|]. by apply IH. Qed.

Lemma caused_next `{MSN : MessageSeriesNode Node} (ns : list Node) h n :
  caused (ns ++ [h]) → n ∈ ns → ∃ m, m ∈ ns ++ [h] ∧ node_causation_id n = Some (node_message_id m).
Proof.
  induction ns as [|a [|b ns] IH]; cbn; [by intros _ ?%elem_of_nil|..].
  - intros [E _] ->%list_elem_of_singleton. exists h. split; [set_solver|done].
  - intros [E H] [->|Hn]%elem_of_cons; [exists b; split; [set_solver|done]|].
    destruct (IH H Hn) as (m & Hm & Em). exists m. split; [by right|done].
Qed.

Lemma validate_cycles_found nodes path m :
  NoDup (node_key <$> nodes) → (length nodes <= MAX_MESSAGE_SERIES_NODES)%nat →
  (∀ n, n ∈ nodes → is_Some (m !! node_key n)) →
  validate_cycles nodes path m false = [] →
  ∀ chain n, NoDup chain → (∀ x, x ∈ chain → x ∈ nodes) → caused (chain ++ [n]) → n ∉ chain.
Proof.
  intros Hnd Hl Hm Hv chain n Hc Hin Hcaused Hn.
  pose proof (topology_series_ok nodes Hnd Hl) as Hok.
  destruct (closed_chain_cycle _ Hok (map topology_node chain) (topology_node n)) as (ns & Hns).
  - apply (NoDup_fmap_2_strong topology_node); [|done]. intros x y Hx Hy [= E _]. apply (key_unique nodes); auto.
  - intros t (x & -> & Hx)%list_elem_of_fmap. apply elem_of_topology. exists x. split; [done|auto].
  - by apply caused_topology.
  - by apply list_elem_of_fmap_2.
  - destruct (topology_issues_spec _ Hok) as (issues & E & _ & _ & Hcycle).
    revert Hv. unfold validate_cycles. rewrite (proj2 (Nat.leb_le _ _) Hl). cbn [negb andb].
    rewrite topology_series by done. rewrite E. cbn [default from_option id].
    rewrite concat_map_nil. intros Hv. specialize (Hv _ (proj2 (Hcycle ns) Hns)). revert Hv. cbn.
    pose proof Hns as (h & t & -> & _). cbn.
    assert (h ∈ topology_nodes nodes) as (x & -> & Hx)%elem_of_topology
      by (eapply (causal_cycle_nodes (mkSeries (topology_nodes nodes))); [done|left]).
    destruct (Hm x Hx) as [i Hi]. cbn. by rewrite Hi.
Qed.

Lemma validate_cycles_none nodes path m :
  NoDup (node_key <$> nodes) → (length nodes <= MAX_MESSAGE_SERIES_NODES)%nat →
  (∀ n, n ∈ nodes → ∃ d, at_depth nodes n d) →
  validate_cycles nodes path m false = [].
Proof.
  intros Hnd Hl Hd. unfold validate_cycles. rewrite (proj2 (Nat.leb_le _ _) Hl). cbn [negb andb].
  pose proof (topology_series_ok nodes Hnd Hl) as Hok.
  rewrite topology_series by done.
  destruct (topology_issues_spec _ Hok) as (issues & E & _ & _ & Hcycle). rewrite E.
  apply concat_map_nil. intros [| |ns] Hi; [done..|]. exfalso.
  apply Hcycle in Hi. pose proof Hi as (h & t & Hns & _ & Hcaused & _).
  assert (∀ tn, tn ∈ ns → ∃ x, tn = topology_node x ∧ x ∈ nodes) as Hin.
  { intros tn Htn. apply elem_of_topology. by apply (causal_cycle_nodes _ _ _ Hi Htn). }
  destruct (Hin h) as (x & -> & Hx); [subst ns; left|]. destruct (Hd x Hx) as (d & Hdx).
  apply (no_closed_set nodes (λ y, y ∈ nodes ∧ topology_node y ∈ ns) x d Hnd); [by intros ? []| |done|].
  - intros y [Hy Hyns]. destruct (caused_next _ _ _ Hcaused Hyns) as (tn & Htn & Ep).
    assert (tn ∈ ns) as Htn' by (apply elem_of_app in Htn as [?| ->%list_elem_of_singleton]; [done|subst ns; left]).
    destruct (Hin tn Htn') as (q & -> & Hq). exists q. done.
  - split; [done|]. subst ns. left.
Qed.

(** *** Valid graphs *)

Lemma validate_parent_keys_nil nodes path m :
  (∀ k j, m !! k = Some j ↔ ∃ x n, nodes !! x = Some n ∧ node_key n = k ∧ j = N.of_nat x) →
  validate_parent_keys nodes path m = [] ↔
  ∀ n k, n ∈ nodes → node_parent_key n = Some k → is_blank k = false → ∃ p, p ∈ nodes ∧ node_key p = k.
Proof.
  intros Hm. unfold validate_parent_keys. rewrite concat_map_nil.
  assert (∀ k, (∃ p, p ∈ nodes ∧ node_key p = k) ↔ is_none (m !! k) = false) as Hk.
  { intros k. split.
    - intros (p & [x Hx]%list_elem_of_lookup & <-).
      assert (m !! node_key p = Some (N.of_nat x)) as E by (apply Hm; by exists x, p). by rewrite E.
    - intros Hn. destruct (m !! k) as [j|] eqn:E; [|done]. apply Hm in E as (x & p & Hx & <- & _).
      exists p. split; [by eapply list_elem_of_lookup_2|done]. }
  split.
  - intros H n k [i Hi]%list_elem_of_lookup Hp Hb.
    specialize (H (N.of_nat i, n)). cbn in H. rewrite Hp, issue_if_nil, Hb in H.
    apply Hk, H, elem_of_enumerate. by exists i.
  - intros H [i n] (x & Hx & ->)%elem_of_enumerate. destruct (node_parent_key n) as [k|] eqn:Hp; [|done].
    apply issue_if_nil. destruct (is_blank k) eqn:Hb; [done|]. apply Hk.
    eapply H; [by eapply list_elem_of_lookup_2|done|done].
Qed.

Lemma existsb_nil {A} (f : A → bool) l : existsb f l = false ↔ ∀ x, x ∈ l → f x = false.
Proof.
  induction l as [|x l IH]; cbn; [split; [by intros _ ? ?%elem_of_nil|done]|].
  rewrite orb_false_iff, IH. split.
  - intros [Hx Hl] y [->|Hy]%elem_of_cons; auto.
  - intros H. split; [apply H; left|]. intros y Hy. apply H. by right.
Qed.

Lemma validate_comparison_bounds_nil nodes path m :
  validate_comparison_bounds nodes path m false = [] ↔
  (∀ key, len (filter (λ n, node_parent_key n = Some key) nodes) <= MAXIMUM_EXPECTED_SIBLINGS)
  ∧ ∀ n, n ∈ nodes →
      walk_too_deep (first_parent_key nodes m) MAXIMUM_EXPECTED_GRAPH_DEPTH ∅ (node_parent_key n) = false.
Proof.
  unfold validate_comparison_bounds. rewrite app_nil, issue_if_nil, existsb_nil, <- find_siblings_None.
  destruct (List.find _ _) as [[parent count]|]; split; intros [? H]; try done; by split.
Qed.

Lemma first_parent_spec nodes m n :
  (∀ k j, m !! k = Some j ↔ ∃ x n, nodes !! x = Some n ∧ node_key n = k ∧ j = N.of_nat x) →
  n ∈ nodes → first_parent_key nodes m (node_key n) = node_parent_key n.
Proof.
  intros Hm [x Hx]%list_elem_of_lookup. unfold first_parent_key.
  assert (m !! node_key n = Some (N.of_nat x)) as -> by (apply Hm; by exists x, n).
  by rewrite Nat2N.id, Hx.
Qed.

Lemma blank_parents (nodes : list ExpectedMessageNode) n k :
  (∀ n, n ∈ nodes → node_fields_ok n) → n ∈ nodes → node_parent_key n = Some k → is_blank k = false.
Proof. intros Hf Hn Hp. destruct (Hf n Hn) as (_ & H & _). by apply H. Qed.

Lemma validate_graph_nil nodes path : validate_graph nodes path = [] ↔ graph_ok nodes.
Proof.
  unfold validate_graph. destruct nodes as [|n0 rest].
  { split; [done|]. intros [_ _ _ (root & ?%elem_of_nil & _) _ _]. done. }
  set (nodes := n0 :: rest). set (path' := graph_path path "nodes").
  destruct (validate_nodes_spec nodes path') as (m & dup & new & -> & Hnew & Hm).
  rewrite !app_nil, issue_if_nil, Hnew. split.
  - intros (Hlen & [Hnd Hf] & Hp & Hr & Hc & Hb).
    apply Nat.ltb_ge in Hlen. destruct (Hm (proj2 Hnew (conj Hnd Hf))) as [-> Hk].
    pose proof (proj1 (validate_parent_keys_nil _ path' _ Hk) Hp) as Hparents.
    pose proof (proj1 (validate_root_nil _ path' Hnd) Hr) as Hroot.
    apply validate_comparison_bounds_nil in Hb as [Hs Hw]. constructor; try done.
    intros n Hn. destruct (walk_reaches nodes (first_parent_key nodes m) MAXIMUM_EXPECTED_GRAPH_DEPTH [] n ∅)
      as (d & Hd & H); try done; [|..|by exists d].
    + intros p Hpn. by apply first_parent_spec.
    + intros p k Hpn Hpk. eapply Hparents; [done..|]. by eapply blank_parents.
    + apply (validate_cycles_found nodes path' m Hnd Hlen); [|done]. intros x [i Hi]%list_elem_of_lookup.
      exists (N.of_nat i). apply Hk. by exists i, x.
    + constructor.
    + by intros ? ?%elem_of_nil.
    + by apply Hw.
  - intros [Hlen Hnd Hf Hr Hd Hs]. destruct (Hm (proj2 Hnew (conj Hnd Hf))) as [-> Hk].
    split_and!; [by apply Nat.ltb_ge|done|done| | | |].
    + apply (validate_parent_keys_nil _ _ _ Hk). intros n k Hn Hp _. destruct (Hd n Hn) as (d & _ & H).
      inversion H; [congruence|]. simplify_eq. eexists. split; [by eapply at_depth_in|]. congruence.
    + by apply validate_root_nil.
    + apply validate_cycles_none; [done..|]. intros n Hn. destruct (Hd n Hn) as (d & _ & H). by exists d.
    + apply validate_comparison_bounds_nil. split; [done|]. intros n Hn. destruct (Hd n Hn) as (d & Hle & H).
      eapply walk_shallow; [|done|done]. intros p Hpn. by apply first_parent_spec.
Qed.

(** C37 (type). A graph definition is accepted exactly when its nodes are one tree
    of causes under a single command that carries its input - distinct keys,
    resolved parents, no cycle, at most 64 levels and 64 children of a node, every
    name given - and it then holds these nodes; a rejected one reports why. *)
Theorem graph_definitions_are_command_trees nodes within settle_for path :
  match graph_build nodes within settle_for path with
  | Ok g => graph_ok nodes ∧ g = mkGraph within settle_for (mkSeries nodes)
  | Err e => ¬ graph_ok nodes ∧ definition_issues e ≠ []
  end.
Proof.
  unfold graph_build. case_bool_decide as Hv; cbn [negb].
  - apply validate_graph_nil in Hv. pose proof Hv as [Hlen Hnd _ _ _ _].
    assert (series_ok (mkSeries nodes)) as Hok by (split; [exact Hnd|exact Hlen]).
    pose proof (series_from_nodes _ Hok) as E. cbn [series_nodes] in E. by rewrite E.
  - split; [|done]. intros H. apply Hv. by apply validate_graph_nil.
Qed.

End Validity.
