(* ===== verification/TracerObserved.v ===== *)
(** * TracerObserved: the messages and command outcomes a tracer observes, in the
    order it observes them (crates/rostfrei-tracer/src/message_series.rs).

    A series is kept by insertions, which ignore what was observed before and
    refuse what contradicts it. It is read from a document by checking the messages
    and outcomes the document holds; the theorem says these checks accept exactly
    what insertions build. The conversion of the fields from and to JSON is derived
    in the source; of it only the checks of the field readers are stated. *)

From S2P Require Export TracerGraph.

#[global] Instance ApplicationErrorCode_eq_dec : EqDecision ApplicationErrorCode.
Proof. solve_decision. Defined.

Inductive ObservedMessageSeriesError :=
| InvalidMessage (field : string)
| InvalidOutcome (field : string)
| InvalidMessageSeries (error : ContractError)
| OutcomeIdentityConflict
| DuplicateSerializedMessage
| DuplicateSerializedOutcome
| TooManyMessages
| TooManyOutcomes
| InvalidObservationOrder
| ObservationOrderOverflow.

Definition ObservedMessageSeriesError_display (e : ObservedMessageSeriesError) : string :=
  match e with
  | InvalidMessage field => "observed message " +:+ field +:+ " is invalid"
  | InvalidOutcome field => "observed command outcome " +:+ field +:+ " is invalid"
  | InvalidMessageSeries error => ContractError_display error
  | OutcomeIdentityConflict => "observed command outcome identity conflicts"
  | DuplicateSerializedMessage =>
    "serialized observed message series contains a duplicate message identity"
  | DuplicateSerializedOutcome =>
    "serialized observed message series contains a duplicate command outcome"
  | TooManyMessages => "observed message series contains more than 4096 messages"
  | TooManyOutcomes => "observed message series contains more than 4096 command outcomes"
  | InvalidObservationOrder =>
    "observed message series observation orders must be unique contiguous insertion ordinals"
  | ObservationOrderOverflow => "observed message series observation order overflowed"
  end.

(** ** Checks of the fields of an observation *)

Definition is_valid_observed_identifier (value : string) : bool :=
  negb (String.eqb value "") && (str_len value <=? MAX_IDENTIFIER_BYTES) && bytes_all is_graphic value.

Definition deserialize_observed_identifier (value : string) : result string string :=
  if is_valid_observed_identifier value then Ok value else Err "message identifier is invalid".
Definition deserialize_optional_observed_identifier (value : option string) : result (option string) string :=
  if is_some_and (λ value, negb (is_valid_observed_identifier value)) value
  then Err "message identifier is invalid" else Ok value.
Definition deserialize_nonempty_observed_name (value : string) : result string string :=
  if is_blank value then Err "message name must not be empty" else Ok value.
Definition deserialize_positive_observed_schema_version (value : N) : result N string :=
  if value =? 0 then Err "message schema version must be greater than zero" else Ok value.

Definition validate_observed_name (name : string) : result unit ObservedMessageSeriesError :=
  fail! is_blank name with InvalidMessage "name"; Ok tt.
Definition validate_observed_schema_version (schema_version : N) : result unit ObservedMessageSeriesError :=
  fail! schema_version =? 0 with InvalidMessage "schemaVersion"; Ok tt.
Definition validate_observed_aggregate (aggregate : TestAggregate) : result unit ObservedMessageSeriesError :=
  fail! is_blank (agg_type aggregate) with InvalidMessage "aggregate.type";
  fail! is_blank (agg_id aggregate) with InvalidMessage "aggregate.id";
  Ok tt.

Section Observations.
Context `{JT : JsonText} `{NE : !EqDecision Number}.

#[global] Instance CommandRejection_eq_dec : EqDecision CommandRejection.
Proof. solve_decision. Defined.
#[global] Instance CommandResponseOutcome_eq_dec : EqDecision CommandResponseOutcome.
Proof. solve_decision. Defined.

(** ** Observed messages *)

Inductive ObservedMessageNode :=
| ObservedCommand (message_id correlation_id : string) (causation_id : option string)
    (observation_order : N) (name : string) (schema_version : N) (context : string)
    (payload : option JValue)
| ObservedDomainEvent (message_id correlation_id : string) (causation_id : option string)
    (observation_order : N) (name : string) (schema_version : N) (aggregate : option TestAggregate)
    (payload : option JValue)
| ObservedIntegrationEvent (message_id correlation_id : string) (causation_id : option string)
    (observation_order : N) (name : string) (schema_version : N) (payload : option JValue).

#[global] Instance ObservedMessageNode_eq_dec : EqDecision ObservedMessageNode.
Proof. solve_decision. Defined.

(** The constructors [command], [domain_event] and [integration_event] *)
Definition observed_command (message_id correlation_id : string) (causation_id : option string)
    (name : string) (schema_version : N) (context : string) (payload : option JValue) : ObservedMessageNode :=
  ObservedCommand message_id correlation_id causation_id 0 name schema_version context payload.
Definition observed_domain_event (message_id correlation_id : string) (causation_id : option string)
    (name : string) (schema_version : N) (aggregate : option TestAggregate) (payload : option JValue)
  : ObservedMessageNode :=
  ObservedDomainEvent message_id correlation_id causation_id 0 name schema_version aggregate payload.
Definition observed_integration_event (message_id correlation_id : string) (causation_id : option string)
    (name : string) (schema_version : N) (payload : option JValue) : ObservedMessageNode :=
  ObservedIntegrationEvent message_id correlation_id causation_id 0 name schema_version payload.

Definition observed_message_id (m : ObservedMessageNode) : string :=
  match m with
  | ObservedCommand id _ _ _ _ _ _ _ | ObservedDomainEvent id _ _ _ _ _ _ _
  | ObservedIntegrationEvent id _ _ _ _ _ _ => id
  end.
Definition observed_correlation_id (m : ObservedMessageNode) : string :=
  match m with
  | ObservedCommand _ id _ _ _ _ _ _ | ObservedDomainEvent _ id _ _ _ _ _ _
  | ObservedIntegrationEvent _ id _ _ _ _ _ => id
  end.
Definition observed_causation_id (m : ObservedMessageNode) : option string :=
  match m with
  | ObservedCommand _ _ id _ _ _ _ _ | ObservedDomainEvent _ _ id _ _ _ _ _
  | ObservedIntegrationEvent _ _ id _ _ _ _ => id
  end.
Definition observed_order (m : ObservedMessageNode) : N :=
  match m with
  | ObservedCommand _ _ _ order _ _ _ _ | ObservedDomainEvent _ _ _ order _ _ _ _
  | ObservedIntegrationEvent _ _ _ order _ _ _ => order
  end.
Definition observed_kind (m : ObservedMessageNode) : ExpectedMessageKind :=
  match m with
  | ObservedCommand _ _ _ _ _ _ _ _ => KindCommand
  | ObservedDomainEvent _ _ _ _ _ _ _ _ => KindDomainEvent
  | ObservedIntegrationEvent _ _ _ _ _ _ _ => KindIntegrationEvent
  end.
Definition observed_name (m : ObservedMessageNode) : string :=
  match m with
  | ObservedCommand _ _ _ _ name _ _ _ | ObservedDomainEvent _ _ _ _ name _ _ _
  | ObservedIntegrationEvent _ _ _ _ name _ _ => name
  end.
Definition observed_schema_version (m : ObservedMessageNode) : N :=
  match m with
  | ObservedCommand _ _ _ _ _ version _ _ | ObservedDomainEvent _ _ _ _ _ version _ _
  | ObservedIntegrationEvent _ _ _ _ _ version _ => version
  end.
Definition observed_context (m : ObservedMessageNode) : option string :=
  match m with ObservedCommand _ _ _ _ _ _ context _ => Some context | _ => None end.
Definition observed_aggregate (m : ObservedMessageNode) : option TestAggregate :=
  match m with ObservedDomainEvent _ _ _ _ _ _ aggregate _ => aggregate | _ => None end.
Definition observed_payload (m : ObservedMessageNode) : option JValue :=
  match m with
  | ObservedCommand _ _ _ _ _ _ _ payload | ObservedDomainEvent _ _ _ _ _ _ _ payload
  | ObservedIntegrationEvent _ _ _ _ _ _ payload => payload
  end.
Definition observed_is_command (m : ObservedMessageNode) : bool :=
  match m with ObservedCommand _ _ _ _ _ _ _ _ => true | _ => false end.

Definition set_observed_order (m : ObservedMessageNode) (order : N) : ObservedMessageNode :=
  match m with
  | ObservedCommand id correlation causation _ name version context payload =>
    ObservedCommand id correlation causation order name version context payload
  | ObservedDomainEvent id correlation causation _ name version aggregate payload =>
    ObservedDomainEvent id correlation causation order name version aggregate payload
  | ObservedIntegrationEvent id correlation causation _ name version payload =>
    ObservedIntegrationEvent id correlation causation order name version payload
  end.
Definition same_message_observation (m other : ObservedMessageNode) : bool :=
  bool_decide (set_observed_order m 0 = set_observed_order other 0).

#[global] Instance ObservedMessageNode_node : MessageSeriesNode ObservedMessageNode :=
  {| NodeMessageId := string; NodeCorrelationId := string; node_message_id := observed_message_id;
     node_correlation_id := observed_correlation_id; node_causation_id := observed_causation_id |}.

Definition validate_observed_message (m : ObservedMessageNode) : result unit ObservedMessageSeriesError :=
  fail! negb (is_valid_observed_identifier (observed_message_id m)) with InvalidMessage "messageId";
  fail! negb (is_valid_observed_identifier (observed_correlation_id m)) with InvalidMessage "correlationId";
  fail! is_some_and (λ value, negb (is_valid_observed_identifier value)) (observed_causation_id m)
    with InvalidMessage "causationId";
  match m with
  | ObservedCommand _ _ _ _ name schema_version context _ =>
    let? _ := validate_observed_name name in
    let? _ := validate_observed_schema_version schema_version in
    validate_observed_name context
  | ObservedDomainEvent _ _ _ _ name schema_version aggregate _ =>
    let? _ := validate_observed_name name in
    let? _ := validate_observed_schema_version schema_version in
    match aggregate with Some aggregate => validate_observed_aggregate aggregate | None => Ok tt end
  | ObservedIntegrationEvent _ _ _ _ name schema_version _ =>
    let? _ := validate_observed_name name in
    validate_observed_schema_version schema_version
  end.

(** ** Observed outcomes of commands *)

Record ObservedCommandOutcome := mkObservedOutcome {
  oco_response_message_id : string;
  oco_command_message_id : string;
  oco_correlation_id : string;
  oco_observation_order : N;
  oco_outcome : CommandResponseOutcome;
}.

Definition validate_observed_outcome (o : ObservedCommandOutcome) : result unit ObservedMessageSeriesError :=
  fail! negb (is_valid_observed_identifier (oco_response_message_id o)) with InvalidOutcome "responseMessageId";
  fail! negb (is_valid_observed_identifier (oco_command_message_id o)) with InvalidOutcome "commandMessageId";
  fail! negb (is_valid_observed_identifier (oco_correlation_id o)) with InvalidOutcome "correlationId";
  Ok tt.

Definition observed_outcome_try_new (response_message_id command_message_id correlation_id : string)
    (outcome : CommandResponseOutcome) : result ObservedCommandOutcome ObservedMessageSeriesError :=
  let outcome := mkObservedOutcome response_message_id command_message_id correlation_id 0 outcome in
  let? _ := validate_observed_outcome outcome in
  Ok outcome.

Definition set_outcome_order (o : ObservedCommandOutcome) (order : N) : ObservedCommandOutcome :=
  mkObservedOutcome (oco_response_message_id o) (oco_command_message_id o) (oco_correlation_id o) order
    (oco_outcome o).
Definition same_outcome_observation (o other : ObservedCommandOutcome) : bool :=
  String.eqb (oco_response_message_id o) (oco_response_message_id other)
  && String.eqb (oco_command_message_id o) (oco_command_message_id other)
  && String.eqb (oco_correlation_id o) (oco_correlation_id other)
  && bool_decide (oco_outcome o = oco_outcome other).

(** ** Observed series *)

Record ObservedMessageSeries := mkObserved {
  obs_messages : MessageSeries (Node := ObservedMessageNode);
  obs_command_outcomes : list ObservedCommandOutcome;
  obs_next_order : N;
}.

Definition observed_new : ObservedMessageSeries := mkObserved MessageSeries_new [] 0.

(** [insert_message] and [insert_command_outcome]: the series afterwards, also
    when an error is returned, and the result *)
Definition insert_message (s : ObservedMessageSeries) (message : ObservedMessageNode)
  : ObservedMessageSeries * result MessageSeriesInsertOutcome ObservedMessageSeriesError :=
  match validate_observed_message message with
  | Err error => (s, Err error)
  | Ok _ =>
    match series_get (obs_messages s) (observed_message_id message) with
    | Some existing =>
      if same_message_observation existing message then (s, Ok Duplicate)
      else
        match series_insert (obs_messages s) message with
        | Ok (outcome, messages) =>
          (mkObserved messages (obs_command_outcomes s) (obs_next_order s), Ok outcome)
        | Err error => (s, Err (InvalidMessageSeries error))
        end
    | None =>
      match series_insert (obs_messages s) (set_observed_order message (obs_next_order s)) with
      | Err error => (s, Err (InvalidMessageSeries error))
      | Ok (inserted, messages) =>
        match checked_add u64_max (obs_next_order s) 1 with
        | None => (mkObserved messages (obs_command_outcomes s) (obs_next_order s), Err ObservationOrderOverflow)
        | Some next => (mkObserved messages (obs_command_outcomes s) next, Ok inserted)
        end
      end
    end
  end.

Definition insert_command_outcome (s : ObservedMessageSeries) (outcome : ObservedCommandOutcome)
  : ObservedMessageSeries * result MessageSeriesInsertOutcome ObservedMessageSeriesError :=
  match validate_observed_outcome outcome with
  | Err error => (s, Err error)
  | Ok _ =>
    match List.find (λ existing, String.eqb (oco_command_message_id existing) (oco_command_message_id outcome))
            (obs_command_outcomes s) with
    | Some existing =>
      (s, if same_outcome_observation existing outcome then Ok Duplicate else Err OutcomeIdentityConflict)
    | None =>
      if existsb (λ existing, String.eqb (oco_response_message_id existing) (oco_response_message_id outcome))
           (obs_command_outcomes s)
      then (s, Err OutcomeIdentityConflict)
      else if Nat.eqb (length (obs_command_outcomes s)) MAX_MESSAGE_SERIES_NODES
      then (s, Err TooManyOutcomes)
      else
        match checked_add u64_max (obs_next_order s) 1 with
        | None => (s, Err ObservationOrderOverflow)
        | Some next =>
          (mkObserved (obs_messages s)
             (obs_command_outcomes s ++ [set_outcome_order outcome (obs_next_order s)]) next,
           Ok Inserted)
        end
    end
  end.

(** The insertions of [try_from_parts]; the series is dropped with an error. *)
Definition insert_all {A} (insert : ObservedMessageSeries → A →
    ObservedMessageSeries * result MessageSeriesInsertOutcome ObservedMessageSeriesError)
    (limit : ObservedMessageSeriesError) (s : ObservedMessageSeries) (items : list A)
  : result ObservedMessageSeries ObservedMessageSeriesError :=
  try_fold (λ s '(index, item),
    fail! index =? N.of_nat MAX_MESSAGE_SERIES_NODES with limit;
    let '(s, inserted) := insert s item in
    let? _ := inserted in
    Ok s) s (enumerate items).

Definition observed_try_from_parts (messages : list ObservedMessageNode) (outcomes : list ObservedCommandOutcome)
  : result ObservedMessageSeries ObservedMessageSeriesError :=
  let? s := insert_all insert_message TooManyMessages observed_new messages in
  insert_all insert_command_outcome TooManyOutcomes s outcomes.

Definition command_outcome (s : ObservedMessageSeries) (command_message_id : string)
  : option ObservedCommandOutcome :=
  List.find (λ outcome, String.eqb (oco_command_message_id outcome) command_message_id)
    (obs_command_outcomes s).

Inductive ObservedMessageSeriesOutcomeIssue :=
| MissingCommand (outcome : ObservedCommandOutcome)
| NotACommand (outcome : ObservedCommandOutcome) (message : ObservedMessageNode)
| OutcomeCrossCorrelation (outcome : ObservedCommandOutcome) (message : ObservedMessageNode).

Definition outcome_issue (s : ObservedMessageSeries) (outcome : ObservedCommandOutcome)
  : option ObservedMessageSeriesOutcomeIssue :=
  match series_get (obs_messages s) (oco_command_message_id outcome) with
  | None => Some (MissingCommand outcome)
  | Some message =>
    if negb (observed_is_command message) then Some (NotACommand outcome message)
    else if negb (String.eqb (observed_correlation_id message) (oco_correlation_id outcome))
    then Some (OutcomeCrossCorrelation outcome message)
    else None
  end.
Definition outcome_issues (s : ObservedMessageSeries) : list ObservedMessageSeriesOutcomeIssue :=
  omap (outcome_issue s) (obs_command_outcomes s).

(** ** Reading a series from a document *)

Fixpoint orders_increase_from (previous : option N) (orders : list N) : bool :=
  match orders with
  | [] => true
  | order :: orders =>
    if is_some_and (λ previous, order <=? previous) previous then false
    else orders_increase_from (Some order) orders
  end.
Definition orders_increase (orders : list N) : bool := orders_increase_from None orders.

Definition check_serialized_message (seen : gset string) (message : ObservedMessageNode)
  : result (gset string) ObservedMessageSeriesError :=
  let? _ := validate_observed_message message in
  fail! bool_decide (observed_message_id message ∈ seen) with DuplicateSerializedMessage;
  Ok ({[observed_message_id message]} ∪ seen).

Definition push_serialized_outcome (outcomes : list ObservedCommandOutcome) (outcome : ObservedCommandOutcome)
  : result (list ObservedCommandOutcome) ObservedMessageSeriesError :=
  let? _ := validate_observed_outcome outcome in
  match List.find (λ existing,
          String.eqb (oco_command_message_id existing) (oco_command_message_id outcome)
          || String.eqb (oco_response_message_id existing) (oco_response_message_id outcome)) outcomes with
  | Some existing =>
    if same_outcome_observation existing outcome then Err DuplicateSerializedOutcome
    else Err OutcomeIdentityConflict
  | None => Ok (outcomes ++ [outcome])
  end.

Definition try_from_serialized_parts (messages : list ObservedMessageNode)
    (command_outcomes : list ObservedCommandOutcome)
  : result ObservedMessageSeries ObservedMessageSeriesError :=
  let? _ := try_fold check_serialized_message ∅ messages in
  let? messages := map_err InvalidMessageSeries (series_try_from_nodes messages) in
  let? outcomes := try_fold push_serialized_outcome [] command_outcomes in
  let? total := ok_or (checked_add usize_max (len (series_nodes messages)) (len outcomes))
                  ObservationOrderOverflow in
  let? total := ok_or (try_from u64_max total) ObservationOrderOverflow in
  let message_orders := map observed_order (series_nodes messages) in
  let outcome_orders := map oco_observation_order outcomes in
  let orders : gset N := list_to_set (message_orders ++ outcome_orders) in
  fail! negb (N.of_nat (size orders) =? total) || existsb (λ order, total <=? order) (elements orders)
    with InvalidObservationOrder;
  fail! negb (orders_increase message_orders) || negb (orders_increase outcome_orders)
    with InvalidObservationOrder;
  Ok (mkObserved messages outcomes total).

(** [ObservedMessageSeriesWire], and [deserialize] from the record on that the
    reader of the document gives *)
Record ObservedMessageSeriesWire := mkObservedWire {
  ow_messages : list ObservedMessageNode;
  ow_command_outcomes : list ObservedCommandOutcome;
}.
Definition observed_from_wire (wire : ObservedMessageSeriesWire) : result ObservedMessageSeries string :=
  fail! N.of_nat MAX_MESSAGE_SERIES_NODES <? len (ow_messages wire)
    with ObservedMessageSeriesError_display TooManyMessages;
  fail! N.of_nat MAX_MESSAGE_SERIES_NODES <? len (ow_command_outcomes wire)
    with ObservedMessageSeriesError_display TooManyOutcomes;
  map_err ObservedMessageSeriesError_display
    (try_from_serialized_parts (ow_messages wire) (ow_command_outcomes wire)).

(** ** The invariant of a series *)

Definition all_orders (s : ObservedMessageSeries) : list N :=
  map observed_order (series_nodes (obs_messages s)) ++ map oco_observation_order (obs_command_outcomes s).

Record observed_ok (s : ObservedMessageSeries) : Prop := mkObservedOk {
  observed_series : series_ok (obs_messages s);
  observed_messages_valid m : m ∈ series_nodes (obs_messages s) → validate_observed_message m = Ok tt;
  observed_outcomes_valid o : o ∈ obs_command_outcomes s → validate_observed_outcome o = Ok tt;
  observed_commands : NoDup (oco_command_message_id <$> obs_command_outcomes s);
  observed_responses : NoDup (oco_response_message_id <$> obs_command_outcomes s);
  observed_outcome_limit : (length (obs_command_outcomes s) <= MAX_MESSAGE_SERIES_NODES)%nat;
  observed_message_orders : StronglySorted N.lt (map observed_order (series_nodes (obs_messages s)));
  observed_outcome_orders : StronglySorted N.lt (map oco_observation_order (obs_command_outcomes s));
  observed_orders : all_orders s ≡ₚ map N.of_nat (seq 0 (N.to_nat (obs_next_order s)));
}.

(** One insertion, whatever its result *)
Inductive observed_step (s : ObservedMessageSeries) : ObservedMessageSeries → Prop :=
| message_step message : observed_step s (insert_message s message).1
| outcome_step outcome : observed_step s (insert_command_outcome s outcome).1.

Lemma all_orders_length s : observed_ok s → length (all_orders s) = N.to_nat (obs_next_order s).
Proof. intros Hok. rewrite (observed_orders s Hok), length_map, length_seq. done. Qed.

(** The next order is far from overflowing. *)
Lemma next_order_bound s : observed_ok s → obs_next_order s <= 8192.
Proof.
  intros Hok. pose proof (all_orders_length s Hok) as E. unfold all_orders in E.
  rewrite length_app, !length_map in E. destruct Hok as [[_ Hm] _ _ _ _ Ho _ _ _].
  unfold MAX_MESSAGE_SERIES_NODES in *. lia.
Qed.

Lemma orders_below s order : observed_ok s → order ∈ all_orders s → order < obs_next_order s.
Proof.
  intros Hok Hin. rewrite (observed_orders s Hok) in Hin.
  apply list_elem_of_fmap in Hin as (k & -> & Hk%elem_of_seq). lia.
Qed.

Lemma NoDup_snoc {A} (l : list A) x : NoDup l → x ∉ l → NoDup (l ++ [x]).
Proof. intros Hl Hx. apply NoDup_app. split_and!; [done| |apply NoDup_singleton]. by intros y Hy ->%list_elem_of_singleton. Qed.

Lemma sorted_snoc_lt l (x : N) : StronglySorted N.lt l → (∀ y, y ∈ l → y < x) → StronglySorted N.lt (l ++ [x]).
Proof.
  intros Hs Hx. induction Hs as [|y l Hs IH Hy]; cbn; [by repeat constructor|].
  constructor; [apply IH; intros; apply Hx; by right|].
  apply Forall_app. split; [done|]. constructor; [apply Hx; left|constructor].
Qed.

Lemma next_orders s l1 l2 :
  all_orders s ≡ₚ map N.of_nat (seq 0 (N.to_nat (obs_next_order s))) →
  l1 ++ l2 ≡ₚ obs_next_order s :: all_orders s →
  l1 ++ l2 ≡ₚ map N.of_nat (seq 0 (N.to_nat (obs_next_order s + 1))).
Proof.
  intros Ho ->. rewrite Ho. replace (N.to_nat (obs_next_order s + 1)) with (N.to_nat (obs_next_order s) + 1)%nat by lia.
  rewrite seq_app, map_app. cbn. rewrite N2Nat.id. by rewrite Permutation_app_comm.
Qed.

Lemma set_order_fields m order :
  observed_message_id (set_observed_order m order) = observed_message_id m
  ∧ observed_order (set_observed_order m order) = order
  ∧ validate_observed_message (set_observed_order m order) = validate_observed_message m.
Proof. by destruct m. Qed.

#[local] Notation get_message s id := (series_get (MSN := ObservedMessageNode_node) (obs_messages s) id).

Lemma find_none_forall {A} (p : A → bool) l : List.find p l = None → ∀ x, x ∈ l → p x = false.
Proof. intros H x Hx%list_elem_of_In. by apply (List.find_none _ _ H). Qed.

(** A new message is appended with the next order. *)
Lemma insert_message_new s m :
  observed_ok s → validate_observed_message m = Ok tt →
  get_message s (observed_message_id m) = None →
  length (series_nodes (obs_messages s)) ≠ MAX_MESSAGE_SERIES_NODES →
  insert_message s m =
    (mkObserved (mkSeries (series_nodes (obs_messages s) ++ [set_observed_order m (obs_next_order s)]))
       (obs_command_outcomes s) (obs_next_order s + 1), Ok Inserted).
Proof.
  intros Hok Hv Hg Hl. unfold insert_message, series_insert. rewrite Hv, Hg.
  change (node_message_id (set_observed_order m (obs_next_order s)))
    with (observed_message_id (set_observed_order m (obs_next_order s))).
  rewrite (proj1 (set_order_fields m _)), Hg, (proj2 (Nat.eqb_neq _ _) Hl).
  pose proof (next_order_bound s Hok) as Hn. unfold checked_add.
  rewrite (proj2 (N.leb_le _ _)); [done|]. unfold u64_max. lia.
Qed.

Lemma insert_message_cases s m :
  observed_ok s →
  (insert_message s m).1 = s ∨
  validate_observed_message m = Ok tt ∧ get_message s (observed_message_id m) = None
  ∧ length (series_nodes (obs_messages s)) ≠ MAX_MESSAGE_SERIES_NODES.
Proof.
  intros Hok. unfold insert_message. destruct (validate_observed_message m) as [[]|]; [|by left].
  destruct (get_message s (observed_message_id m)) as [existing|] eqn:E.
  - left. destruct (same_message_observation existing m) eqn:Es; [done|]. unfold series_insert.
    change (node_message_id m) with (observed_message_id m). rewrite E. case_bool_decide as Hx; [|done].
    subst existing. unfold same_message_observation in Es. by rewrite bool_decide_true in Es.
  - destruct (decide (length (series_nodes (obs_messages s)) = MAX_MESSAGE_SERIES_NODES)) as [Hl|Hl]; [|by right].
    left. unfold series_insert.
    change (node_message_id (set_observed_order m (obs_next_order s)))
      with (observed_message_id (set_observed_order m (obs_next_order s))).
    by rewrite (proj1 (set_order_fields m _)), E, (proj2 (Nat.eqb_eq _ _) Hl).
Qed.

(** A new outcome is appended with the next order. *)
Lemma insert_outcome_new s o :
  observed_ok s → validate_observed_outcome o = Ok tt →
  oco_command_message_id o ∉ oco_command_message_id <$> obs_command_outcomes s →
  oco_response_message_id o ∉ oco_response_message_id <$> obs_command_outcomes s →
  length (obs_command_outcomes s) ≠ MAX_MESSAGE_SERIES_NODES →
  insert_command_outcome s o =
    (mkObserved (obs_messages s) (obs_command_outcomes s ++ [set_outcome_order o (obs_next_order s)])
       (obs_next_order s + 1), Ok Inserted).
Proof.
  intros Hok Hv Hc Hr Hl. unfold insert_command_outcome. rewrite Hv.
  destruct (List.find _ _) as [existing|] eqn:Ef.
  { exfalso. apply List.find_some in Ef as [Hin%list_elem_of_In E%String.eqb_eq]. apply Hc. rewrite <- E.
    by apply list_elem_of_fmap_2. }
  rewrite (proj2 (existsb_nil _ _)).
  2: { intros x Hx. apply String.eqb_neq. intros E. apply Hr. rewrite <- E. by apply list_elem_of_fmap_2. }
  rewrite (proj2 (Nat.eqb_neq _ _) Hl). pose proof (next_order_bound s Hok) as Hn. unfold checked_add.
  rewrite (proj2 (N.leb_le _ _)); [done|]. unfold u64_max. lia.
Qed.

Lemma insert_outcome_cases s o :
  (insert_command_outcome s o).1 = s ∨
  validate_observed_outcome o = Ok tt
  ∧ oco_command_message_id o ∉ oco_command_message_id <$> obs_command_outcomes s
  ∧ oco_response_message_id o ∉ oco_response_message_id <$> obs_command_outcomes s
  ∧ length (obs_command_outcomes s) ≠ MAX_MESSAGE_SERIES_NODES.
Proof.
  unfold insert_command_outcome. destruct (validate_observed_outcome o) as [[]|]; [|by left].
  destruct (List.find _ _) as [existing|] eqn:Ef; [by left|].
  destruct (existsb _ _) eqn:Ee; [by left|].
  destruct (Nat.eqb_spec (length (obs_command_outcomes s)) MAX_MESSAGE_SERIES_NODES) as [|Hl]; [by left|].
  right. split_and!; [done|..|done].
  - intros (x & E & Hx%(find_none_forall _ _ Ef))%list_elem_of_fmap. by rewrite E, String.eqb_refl in Hx.
  - intros (x & E & Hx%(proj1 (existsb_nil _ _) Ee))%list_elem_of_fmap. by rewrite E, String.eqb_refl in Hx.
Qed.

Lemma observed_ok_message s m :
  observed_ok s → validate_observed_message m = Ok tt →
  get_message s (observed_message_id m) = None →
  length (series_nodes (obs_messages s)) ≠ MAX_MESSAGE_SERIES_NODES →
  observed_ok (insert_message s m).1.
Proof.
  intros Hok Hv Hg Hl. rewrite (insert_message_new s m) by done.
  destruct (set_order_fields m (obs_next_order s)) as (Ei & Eo & Ev).
  pose proof (orders_below s) as Hbelow. destruct Hok as [[Hnd Hlen] Hm Ho Hc Hr Hol Hmo Hoo Hord] eqn:Eok.
  constructor; cbn [fst obs_messages obs_command_outcomes obs_next_order series_nodes] in *; try done.
  - split; cbn [series_nodes]; [|rewrite length_app; cbn; lia].
    rewrite fmap_app. apply NoDup_snoc; [done|]. apply series_get_None in Hg. intros Hin. apply Hg. by rewrite <- Ei.
  - intros x [Hx| ->%list_elem_of_singleton]%elem_of_app; [by apply Hm|]. by rewrite Ev.
  - rewrite map_app. cbn. rewrite Eo. apply sorted_snoc_lt; [done|]. intros y Hy.
    apply Hbelow; [done|]. apply elem_of_app. by left.
  - unfold all_orders. cbn [obs_messages obs_command_outcomes series_nodes]. rewrite map_app. cbn. rewrite Eo.
    apply next_orders; [done|]. unfold all_orders. rewrite <- app_assoc. cbn. by rewrite Permutation_middle.
Qed.

Lemma observed_ok_outcome s o :
  observed_ok s → validate_observed_outcome o = Ok tt →
  oco_command_message_id o ∉ oco_command_message_id <$> obs_command_outcomes s →
  oco_response_message_id o ∉ oco_response_message_id <$> obs_command_outcomes s →
  length (obs_command_outcomes s) ≠ MAX_MESSAGE_SERIES_NODES →
  observed_ok (mkObserved (obs_messages s) (obs_command_outcomes s ++ [set_outcome_order o (obs_next_order s)])
                 (obs_next_order s + 1)).
Proof.
  intros Hok Hv Hcn Hrn Hl. pose proof (orders_below s) as Hbelow.
  destruct Hok as [Hs Hm Ho Hc Hr Hol Hmo Hoo Hord] eqn:Eok.
  constructor; cbn [obs_messages obs_command_outcomes obs_next_order] in *; try done.
  - intros x [Hx| ->%list_elem_of_singleton]%elem_of_app; [by apply Ho|done].
  - rewrite fmap_app. by apply NoDup_snoc.
  - rewrite fmap_app. by apply NoDup_snoc.
  - rewrite length_app. cbn. lia.
  - rewrite map_app. apply sorted_snoc_lt; [done|]. intros y Hy.
    apply Hbelow; [done|]. apply elem_of_app. by right.
  - unfold all_orders. cbn [obs_messages obs_command_outcomes]. rewrite map_app.
    apply next_orders; [done|]. unfold all_orders. cbn.
    by rewrite app_assoc, (Permutation_app_comm _ [_]).
Qed.

Lemma observed_step_ok s s' : observed_ok s → observed_step s s' → observed_ok s'.
Proof.
  intros Hok [m|o].
  - destruct (insert_message_cases s m Hok) as [->|(Hv & Hg & Hl)]; [done|]. by apply observed_ok_message.
  - destruct (insert_outcome_cases s o) as [->|(Hv & Hc & Hr & Hl)]; [done|].
    rewrite insert_outcome_new by done. by apply observed_ok_outcome.
Qed.

Lemma observed_new_ok : observed_ok observed_new.
Proof.
  constructor; cbn; try done; try constructor; try (by intros ? ?%elem_of_nil); unfold MAX_MESSAGE_SERIES_NODES; cbn; try lia;
    constructor.
Qed.

Lemma observed_reachable_ok s : rtc observed_step observed_new s → observed_ok s.
Proof.
  intros H. eapply (rtc_ind_r (λ s, observed_ok s)); [apply observed_new_ok| |exact H].
  intros x y _ Hstep Hok. by eapply observed_step_ok.
Qed.

(** ** A series is accepted by the reader *)

Lemma check_serialized_all messages : ∀ seen,
  (∀ m, m ∈ messages → validate_observed_message m = Ok tt ∧ observed_message_id m ∉ seen) →
  NoDup (observed_message_id <$> messages) →
  is_ok (try_fold check_serialized_message seen messages) = true.
Proof.
  induction messages as [|m messages IH]; intros seen Hm Hnd; [done|]. cbn.
  destruct (Hm m) as [Hv Hs]; [left|]. unfold check_serialized_message at 1. rewrite Hv. cbn.
  rewrite bool_decide_false by done. cbn. inversion Hnd as [|? ? Hn Hnd']; subst. apply IH; [|done].
  intros x Hx. destruct (Hm x) as [Hvx Hsx]; [by right|]. split; [done|].
  intros [E%elem_of_singleton|]%elem_of_union; [|done]. apply Hn. rewrite <- E. by apply list_elem_of_fmap_2.
Qed.

Lemma push_serialized_all outcomes : ∀ pushed,
  (∀ o, o ∈ outcomes → validate_observed_outcome o = Ok tt) →
  NoDup (oco_command_message_id <$> pushed ++ outcomes) →
  NoDup (oco_response_message_id <$> pushed ++ outcomes) →
  try_fold push_serialized_outcome pushed outcomes = Ok (pushed ++ outcomes).
Proof.
  induction outcomes as [|o outcomes IH]; intros pushed Hv Hc Hr; cbn [try_fold]; [by rewrite app_nil_r|].
  unfold push_serialized_outcome at 1. rewrite Hv by left. cbn [rbind].
  destruct (List.find _ pushed) as [existing|] eqn:E.
  - exfalso. apply List.find_some in E as [Hin%list_elem_of_In [E|E]%orb_prop]; apply String.eqb_eq in E.
    + rewrite fmap_app, fmap_cons in Hc. apply NoDup_app in Hc as (_ & Hd & _).
      apply (Hd (oco_command_message_id existing)); [by apply list_elem_of_fmap_2|]. rewrite E. left.
    + rewrite fmap_app, fmap_cons in Hr. apply NoDup_app in Hr as (_ & Hd & _).
      apply (Hd (oco_response_message_id existing)); [by apply list_elem_of_fmap_2|]. rewrite E. left.
  - cbn [rbind]. rewrite IH; rewrite <- ?app_assoc; cbn; [done| |done|done]. intros x Hx. apply Hv. by right.
Qed.

Lemma orders_increase_from_sorted l : ∀ previous,
  StronglySorted N.lt l → (∀ p x, previous = Some p → x ∈ l → p < x) → orders_increase_from previous l = true.
Proof.
  induction l as [|x l IH]; intros previous Hs Hp; [done|]. cbn. inversion Hs as [|? ? Hl Hx]; subst.
  destruct (is_some_and _ previous) eqn:E.
  - exfalso. destruct previous as [p|]; [|done]. cbn in E. apply N.leb_le in E.
    specialize (Hp p x eq_refl (list_elem_of_here _ _)). lia.
  - apply IH; [done|]. intros p y [= <-] Hy. by eapply Forall_forall in Hx.
Qed.

Lemma orders_increase_sorted l : StronglySorted N.lt l → orders_increase l = true.
Proof. intros Hs. by apply orders_increase_from_sorted. Qed.

Lemma order_set s :
  observed_ok s →
  N.of_nat (size (list_to_set (all_orders s) : gset N)) = obs_next_order s
  ∧ ∀ order, order ∈ elements (list_to_set (all_orders s) : gset N) → order < obs_next_order s.
Proof.
  intros Hok. split.
  - rewrite size_list_to_set, all_orders_length by (done || (rewrite (observed_orders s Hok);
      apply NoDup_fmap; [intros x y; lia|apply NoDup_seq])). lia.
  - intros order Ho%elem_of_elements%elem_of_list_to_set. by apply orders_below.
Qed.

Lemma observed_reads_back s :
  observed_ok s →
  try_from_serialized_parts (series_nodes (obs_messages s)) (obs_command_outcomes s) = Ok s.
Proof.
  intros Hok. pose proof (order_set s Hok) as [Hsize Hbelow]. pose proof (next_order_bound s Hok) as Hnext.
  pose proof (all_orders_length s Hok) as Hlen. pose proof Hok as [[Hnd Hl] Hm Ho Hc Hr Hol Hmo Hoo Hord].
  unfold try_from_serialized_parts.
  assert (is_ok (try_fold check_serialized_message ∅ (series_nodes (obs_messages s))) = true) as Hcheck.
  { apply check_serialized_all; [|exact Hnd]. intros m Hin. split; [by apply Hm|apply not_elem_of_empty]. }
  destruct (try_fold check_serialized_message ∅ _) as [seen|]; [|done]. cbn [rbind].
  rewrite (series_from_nodes _ (conj Hnd Hl)). cbn [map_err rbind].
  rewrite (push_serialized_all _ []) by done. cbn [rbind app].
  assert (len (series_nodes (obs_messages s)) + len (obs_command_outcomes s) = obs_next_order s) as Etotal.
  { unfold all_orders in Hlen. rewrite length_app, !length_map in Hlen. unfold len. lia. }
  unfold checked_add, try_from. rewrite Etotal, !(proj2 (N.leb_le _ _)) by (unfold usize_max, u64_max; lia).
  cbn [ok_or rbind]. rewrite !(proj2 (N.leb_le _ _)) by (unfold usize_max, u64_max; lia). cbn [ok_or rbind].
  fold (all_orders s). rewrite Hsize, N.eqb_refl. cbn [negb orb].
  rewrite (proj2 (existsb_nil _ _)) by (intros x Hx; apply N.leb_gt; by apply Hbelow).
  rewrite !orders_increase_sorted by done. cbn. by destruct s as [[] ? ?].
Qed.

(** ** What the reader accepts was observed *)

Lemma check_serialized_accepts messages seen :
  try_fold check_serialized_message ∅ messages = Ok seen →
  NoDup (observed_message_id <$> messages) ∧ Forall (λ m, validate_observed_message m = Ok tt) messages.
Proof.
  intros (_ & Hnd & _ & Hv)%(try_fold_distinct observed_message_id check_serialized_message
    (λ m, validate_observed_message m = Ok tt)); [done|].
  intros s m s' _. unfold check_serialized_message. destruct (validate_observed_message m) as [[]|]; [|naive_solver].
  cbn [rbind]. case_bool_decide; naive_solver.
Qed.

Lemma push_serialized_accepts outcomes pushed :
  try_fold push_serialized_outcome [] outcomes = Ok pushed →
  pushed = outcomes ∧ (∀ o, o ∈ outcomes → validate_observed_outcome o = Ok tt)
  ∧ NoDup (oco_command_message_id <$> outcomes) ∧ NoDup (oco_response_message_id <$> outcomes).
Proof.
  apply (try_fold_inv (λ pushed outcomes, pushed = outcomes
    ∧ (∀ o, o ∈ outcomes → validate_observed_outcome o = Ok tt)
    ∧ NoDup (oco_command_message_id <$> outcomes) ∧ NoDup (oco_response_message_id <$> outcomes))).
  2: { split_and!; [done|by intros o ?%elem_of_nil|constructor|constructor]. }
  intros s before o rest s' _ (-> & Hv & Hc & Hr). unfold push_serialized_outcome.
  destruct (validate_observed_outcome o) as [[]|] eqn:Ev; [|done]. cbn [rbind].
  destruct (List.find _ _) as [existing|] eqn:Ef; [by destruct (same_outcome_observation existing o)|].
  intros [= <-]. pose proof (find_none_forall _ _ Ef) as Hnew.
  split_and!; [done| |rewrite fmap_app; apply NoDup_snoc; [done|]..].
  - by intros x [Hx| ->%list_elem_of_singleton]%elem_of_app; [apply Hv|].
  - intros (x & E & [Hx _]%Hnew%orb_false_elim)%list_elem_of_fmap. by rewrite E, String.eqb_refl in Hx.
  - intros (x & E & [_ Hx]%Hnew%orb_false_elim)%list_elem_of_fmap. by rewrite E, String.eqb_refl in Hx.
Qed.

Lemma orders_increase_from_correct l : ∀ previous,
  orders_increase_from previous l = true →
  StronglySorted N.lt l ∧ ∀ p x, previous = Some p → x ∈ l → p < x.
Proof.
  induction l as [|x l IH]; intros previous; cbn; [split; [constructor|by intros p x _ ?%elem_of_nil]|].
  destruct (is_some_and _ previous) eqn:E; [done|]. intros [Hs Hx]%IH.
  assert (∀ p, previous = Some p → p < x) as Hp by (intros p ->; by apply N.leb_gt).
  split; [constructor; [done|]; apply Forall_forall; intros y Hy; by apply (Hx x y)|].
  intros p y Ep [->|Hy]%elem_of_cons; [by apply Hp|]. specialize (Hp p Ep). specialize (Hx x y eq_refl Hy). lia.
Qed.

(** Distinct numbers below their count are the numbers up to it. *)
Lemma distinct_below_count (orders : list N) total :
  len orders = total → NoDup orders → (∀ order, order ∈ orders → order < total) →
  orders ≡ₚ map N.of_nat (seq 0 (N.to_nat total)).
Proof.
  intros <- Hnd Hlt. apply NoDup_Permutation_bis.
  - by apply NoDup_ListNoDup.
  - rewrite length_map, length_seq. unfold len. lia.
  - intros order Hin%list_elem_of_In%Hlt. apply in_map_iff. exists (N.to_nat order).
    split; [lia|]. apply in_seq. lia.
Qed.

Lemma accepted_parts_ok messages outcomes s :
  (length messages <= MAX_MESSAGE_SERIES_NODES)%nat → (length outcomes <= MAX_MESSAGE_SERIES_NODES)%nat →
  try_from_serialized_parts messages outcomes = Ok s →
  observed_ok s ∧ series_nodes (obs_messages s) = messages ∧ obs_command_outcomes s = outcomes.
Proof.
  intros Hml Hol (seen & [Hnd Hv]%check_serialized_accepts & H)%rbind_Ok.
  assert (series_ok (mkSeries messages)) as Hs by done.
  pose proof (series_from_nodes _ Hs) as Es. cbn [series_nodes] in Es. rewrite Es in H. clear Es.
  cbn [map_err rbind series_nodes] in H.
  apply rbind_Ok in H as (pushed & (-> & Ho & Hc & Hr)%push_serialized_accepts & H).
  apply rbind_Ok in H as (total & Et%ok_or_Ok%checked_add_Some & H). destruct Et as [Et _].
  apply rbind_Ok in H as (total' & Et'%ok_or_Ok%try_from_Some & H). destruct Et' as [-> _].
  set (orders := map observed_order messages ++ map oco_observation_order outcomes) in H.
  destruct (negb (N.of_nat _ =? total) || _) eqn:E; [done|]. apply orb_false_elim in E as [Esize Ebelow].
  destruct (negb (orders_increase _) || _) eqn:E; [done|]. injection H as <-.
  apply orb_false_elim in E as [[Hmo _]%negb_false_iff%orders_increase_from_correct
    [Hoo _]%negb_false_iff%orders_increase_from_correct].
  apply negb_false_iff, N.eqb_eq in Esize.
  assert (len orders = total) as El by (unfold orders, len in *; rewrite length_app, !length_map; lia).
  split; [|done]. constructor; cbn [obs_messages obs_command_outcomes obs_next_order series_nodes]; try done.
  - by apply Forall_forall.
  - apply distinct_below_count; [exact El| |].
    { apply size_list_to_set_NoDup, Nat2N.inj. etrans; [exact Esize|by rewrite <- El]. }
    intros order Hin. apply N.leb_gt. apply (proj1 (existsb_nil _ _) Ebelow).
    apply elem_of_elements, elem_of_list_to_set, Hin.
Qed.

(** ** A well-formed series is built by insertions *)

Lemma sorted_snoc_inv l (x : N) :
  StronglySorted N.lt (l ++ [x]) → StronglySorted N.lt l ∧ ∀ y, y ∈ l → y < x.
Proof.
  induction l as [|z l IH]; cbn; [by split; [constructor|intros y ?%elem_of_nil]|].
  intros [[Hs Hx]%IH Hz]%StronglySorted_inv. rewrite Forall_app, Forall_singleton in Hz. destruct Hz as [Hz Hzx].
  split; [by constructor|]. by intros y [->|Hy]%elem_of_cons; [|apply Hx].
Qed.

(** The greatest order of a sorted list is the last element's. *)
Lemma greatest_is_last {A} (order : A → N) l n :
  StronglySorted N.lt (map order l) → n ∈ map order l → (∀ x, x ∈ map order l → x <= n) →
  ∃ before last, l = before ++ [last] ∧ order last = n ∧ StronglySorted N.lt (map order before).
Proof.
  destruct l as [|last before] using rev_ind; [by intros _ ?%elem_of_nil|]. clear IHbefore.
  rewrite map_app. cbn. intros [Hs Hlt]%sorted_snoc_inv Hn Hmax. exists before, last.
  split_and!; [done| |done]. apply elem_of_app in Hn as [Hn| ->%list_elem_of_singleton]; [|done].
  specialize (Hlt n Hn). specialize (Hmax (order last)). exfalso.
  assert (order last <= n); [|lia]. apply Hmax, elem_of_app. right. by apply list_elem_of_singleton.
Qed.

Lemma previous_orders l (orders : list N) n :
  l ≡ₚ map N.of_nat (seq 0 (S n)) → l ≡ₚ N.of_nat n :: orders → orders ≡ₚ map N.of_nat (seq 0 n).
Proof.
  intros ->. rewrite seq_S, map_app. cbn. rewrite Permutation_app_comm. cbn. intros H.
  by apply Permutation_cons_inv in H.
Qed.

(** Without its newest message a series is well-formed, and inserting the message
    gives the series again. *)
Lemma newest_message s before m n :
  observed_ok s → obs_next_order s = N.of_nat (S n) →
  series_nodes (obs_messages s) = before ++ [m] → observed_order m = N.of_nat n →
  StronglySorted N.lt (map observed_order before) →
  ∃ s', observed_ok s' ∧ obs_next_order s' = N.of_nat n ∧ observed_step s' s.
Proof.
  intros [[Hnd Hlen] Hm Ho Hc Hr Hol _ Hoo Hord] Hn E Em Hs. destruct s as [[nodes] outcomes next].
  cbn [obs_messages obs_command_outcomes obs_next_order series_nodes] in *. subst nodes next.
  rewrite fmap_app in Hnd. apply NoDup_app in Hnd as (Hnd & Hnew & _). rewrite length_app in Hlen. cbn in Hlen.
  exists (mkObserved (mkSeries before) outcomes (N.of_nat n)).
  assert (observed_ok (mkObserved (mkSeries before) outcomes (N.of_nat n))) as Hok.
  { constructor; cbn [obs_messages obs_command_outcomes obs_next_order series_nodes]; try done.
    - split; [exact Hnd|]. cbn. lia.
    - intros x Hx. apply Hm, elem_of_app. by left.
    - rewrite Nat2N.id in Hord |- *. apply (previous_orders _ _ n Hord).
      unfold all_orders. cbn [obs_messages obs_command_outcomes series_nodes]. rewrite map_app. cbn. rewrite Em.
      rewrite <- app_assoc. cbn. by rewrite <- Permutation_middle. }
  split_and!; [done|done|].
  assert (set_observed_order m (N.of_nat n) = m) as Eset by (rewrite <- Em; by destruct m).
  pose proof (insert_message_new _ m Hok) as Ei. cbn [obs_messages obs_command_outcomes obs_next_order series_nodes] in Ei.
  rewrite Eset in Ei. replace (N.of_nat n + 1) with (N.of_nat (S n)) in Ei by lia.
  change (mkObserved (mkSeries (before ++ [m])) outcomes (N.of_nat (S n)))
    with (mkObserved (mkSeries (before ++ [m])) outcomes (N.of_nat (S n)), @Ok _ ObservedMessageSeriesError Inserted).1.
  rewrite <- Ei; [constructor|apply Hm, elem_of_app; right; by apply list_elem_of_singleton| |lia].
  apply series_get_None. intros Hin. apply (Hnew _ Hin). cbn. left.
Qed.

Lemma newest_outcome s before o n :
  observed_ok s → obs_next_order s = N.of_nat (S n) →
  obs_command_outcomes s = before ++ [o] → oco_observation_order o = N.of_nat n →
  StronglySorted N.lt (map oco_observation_order before) →
  ∃ s', observed_ok s' ∧ obs_next_order s' = N.of_nat n ∧ observed_step s' s.
Proof.
  intros [Hser Hm Ho Hc Hr Hol Hmo _ Hord] Hn E Eo Hs. destruct s as [messages outcomes next].
  cbn [obs_messages obs_command_outcomes obs_next_order] in *. subst outcomes next.
  rewrite fmap_app in Hc, Hr. apply NoDup_app in Hc as (Hc & Hcn & _). apply NoDup_app in Hr as (Hr & Hrn & _).
  rewrite length_app in Hol. cbn in Hol.
  exists (mkObserved messages before (N.of_nat n)).
  assert (observed_ok (mkObserved messages before (N.of_nat n))) as Hok.
  { constructor; cbn [obs_messages obs_command_outcomes obs_next_order]; try done.
    - intros x Hx. apply Ho, elem_of_app. by left.
    - lia.
    - rewrite Nat2N.id in Hord |- *. apply (previous_orders _ _ n Hord).
      unfold all_orders. cbn [obs_messages obs_command_outcomes]. rewrite map_app. cbn. rewrite Eo.
      by rewrite app_assoc, Permutation_app_comm. }
  split_and!; [done|done|].
  assert (set_outcome_order o (N.of_nat n) = o) as Eset by (rewrite <- Eo; by destruct o).
  assert (∀ key : ObservedCommandOutcome → string, (∀ id, id ∈ key <$> before → id ∉ key <$> [o]) → key o ∉ key <$> before)
    as Hfresh by (intros key Hd Hin; apply (Hd _ Hin); left).
  assert (validate_observed_outcome o = Ok tt) as Hv by (apply Ho, elem_of_app; right; by apply list_elem_of_singleton).
  pose proof (insert_outcome_new _ o Hok Hv (Hfresh _ Hcn) (Hfresh _ Hrn)) as Ei.
  cbn [obs_messages obs_command_outcomes obs_next_order] in Ei. rewrite Eset in Ei.
  replace (N.of_nat n + 1) with (N.of_nat (S n)) in Ei by lia.
  change (mkObserved messages (before ++ [o]) (N.of_nat (S n)))
    with (mkObserved messages (before ++ [o]) (N.of_nat (S n)), @Ok _ ObservedMessageSeriesError Inserted).1.
  rewrite <- Ei; [constructor|lia].
Qed.

Lemma observed_ok_reachable n : ∀ s,
  observed_ok s → obs_next_order s = N.of_nat n → rtc observed_step observed_new s.
Proof.
  induction n as [|n IH]; intros s Hok Hn.
  - pose proof (all_orders_length s Hok) as El. rewrite Hn in El. unfold all_orders in El.
    rewrite length_app, !length_map in El. destruct s as [[[]] [] next]; cbn in *; try lia. by subst.
  - assert (N.of_nat n ∈ all_orders s) as Hin.
    { rewrite (observed_orders s Hok), Hn, Nat2N.id. apply list_elem_of_In, in_map, in_seq. lia. }
    assert (∀ order, order ∈ all_orders s → order <= N.of_nat n) as Hmax
      by (intros order Ho%(orders_below s order Hok); lia).
    enough (∃ s', observed_ok s' ∧ obs_next_order s' = N.of_nat n ∧ observed_step s' s) as (s' & Hok' & Hn' & Hstep)
      by (eapply rtc_r; [by apply IH|exact Hstep]).
    unfold all_orders in Hin, Hmax. setoid_rewrite elem_of_app in Hmax. apply elem_of_app in Hin as [Hin|Hin].
    + destruct (greatest_is_last observed_order _ _ (observed_message_orders s Hok) Hin) as (before & m & E & Em & Hs);
        [by intros; apply Hmax; left|]. by eapply newest_message.
    + destruct (greatest_is_last oco_observation_order _ _ (observed_outcome_orders s Hok) Hin)
        as (before & o & E & Eo & Hs); [by intros; apply Hmax; right|]. by eapply newest_outcome.
Qed.

(** C36 (equivalence). The reader of a series accepts exactly what can have been
    observed: the messages and outcomes of a document are accepted if and only if
    some insertions - in any order, repeated, contradicting each other or refused -
    build a series that holds these messages and these outcomes, each in this order
    and with these observation orders; and that series is what is read, ready for
    the next insertion. *)
Theorem accepted_series_were_observed wire s :
  observed_from_wire wire = Ok s ↔
    rtc observed_step observed_new s
    ∧ series_nodes (obs_messages s) = ow_messages wire ∧ obs_command_outcomes s = ow_command_outcomes wire.
Proof.
  unfold observed_from_wire. split.
  - destruct (_ <? len (ow_messages wire)) eqn:Em; [done|]. destruct (_ <? len (ow_command_outcomes wire)) eqn:Eo; [done|].
    apply N.ltb_ge in Em, Eo. intros (Hok & Hm & Ho)%map_err_Ok%accepted_parts_ok; [|unfold len in *; lia..].
    split_and!; [|done|done]. apply (observed_ok_reachable (N.to_nat (obs_next_order s))); [done|lia].
  - intros (Hok%observed_reachable_ok & <- & <-). rewrite observed_reads_back by done.
    destruct Hok as [[_ Hl] _ _ _ _ Hol _ _ _]. by rewrite !(proj2 (N.ltb_ge _ _)) by (unfold len; lia).
Qed.

(** A series built from parts is one built by insertions. *)
Lemma insert_all_steps {A} insert limit (items : list A) s s' :
  (∀ s item, observed_step s (insert s item).1) →
  insert_all insert limit s items = Ok s' → rtc observed_step s s'.
Proof.
  intros Hstep. unfold insert_all. generalize (enumerate items). clear items. intros items.
  revert s. induction items as [|[index item] items IH]; intros s; cbn [try_fold]; [by intros [= ->]|].
  destruct (index =? _); [done|]. pose proof (Hstep s item) as Hs.
  destruct (insert s item) as [s1 [inserted|]]; [|done]. cbn. intros H. by eapply rtc_l; [exact Hs|apply IH].
Qed.

Lemma try_from_parts_steps messages outcomes s :
  observed_try_from_parts messages outcomes = Ok s → rtc observed_step observed_new s.
Proof.
  intros (s1 & H1 & H2)%rbind_Ok.
  etrans; eapply insert_all_steps; [|exact H1| |exact H2]; intros; constructor.
Qed.

End Observations.
