(* ===== verification/TracerCompare.v ===== *)
(** * TracerCompare: the comparison of an expected causal graph with what was
    observed (crates/rostfrei-tracer/src/message_series.rs from
    [MessageSeriesComparisonStatus] on).

    The search for a complete assignment and the greedy fallback share a budget of
    steps. Its recursion is given the depth of a graph and the number of candidates
    as fuel; TracerMatching shows that they are enough. *)

From S2P Require Export TracerObserved.

Definition MAXIMUM_COMPARISON_STEPS : N := 100000.

Inductive MessageSeriesComparisonStatus := ComparisonPassed | ComparisonFailed.
#[global] Instance MessageSeriesComparisonStatus_eq_dec : EqDecision MessageSeriesComparisonStatus.
Proof. solve_decision. Defined.

Record MessageSeriesMatch := mkMatch { match_expected_key : string; match_observed_message_id : string }.

Record MessageSeriesComparisonContext := mkComparisonContext {
  timed_out : bool;
  timeout_observation_order : option N;
  settle_started_at_order : option N;
  settle_completed_at_order : option N;
}.

(** What serde writes for the types of a diagnostic, and [Value::from] of an
    integer *)
Class DocumentJson `{JT : JsonText} `{NE : !EqDecision Number} := {
  expected_to_value : ExpectedMessageNode → result JValue string;
  observed_to_value : ObservedMessageNode → result JValue string;
  response_outcome_to_value : CommandResponseOutcome → result JValue string;
  number_from : N → Number;
}.

Section Compare.
Context `{JT : JsonText} `{NE : !EqDecision Number} `{HO : HashMapOrder} `{DJ : !DocumentJson}.

Record MessageSeriesComparisonDiagnostic := mkDiagnostic {
  diag_code : string;
  diag_path : string;
  diag_message : string;
  diag_expected : option JValue;
  diag_observed : option JValue;
}.

Record MessageSeriesComparison := mkComparison {
  cmp_status : MessageSeriesComparisonStatus;
  cmp_matches : list MessageSeriesMatch;
  cmp_diagnostics : list MessageSeriesComparisonDiagnostic;
}.

(** [json_value] of a serialization *)
Definition json_value (v : result JValue string) : JValue :=
  match v with Ok v => v | Err _ => VNull end.
Definition value_from_u64 (n : N) : JValue := VNumber (number_from n).
Definition optional_string (s : option string) : JValue :=
  match s with Some s => VString s | None => VNull end.

(** ** Agreement of an expected and an observed message *)

Definition payload_mismatch (expected : ExpectedMessageNode) (observed : ObservedMessageNode) : bool :=
  is_some_and (λ expected_payload,
    is_none_or (λ payload, negb (payload_matches_subset expected_payload payload)) (observed_payload observed))
    (node_payload expected).

Definition command_outcomes_match (expected : TestOutcome) (observed : CommandResponseOutcome) : bool :=
  match expected, observed with
  | TestAccepted, ResponseAccepted => true
  | TestRejected expected, ResponseRejected observed =>
    String.eqb (tr_code expected) (error_code_str (rej_code observed))
    && is_none_or (λ payload, is_some_and (payload_matches_subset payload) (rej_details observed))
         (tr_payload expected)
  | _, _ => false
  end.

Definition outcome_mismatch (expected : ExpectedMessageNode) (observed : ObservedMessageNode)
    (series : ObservedMessageSeries) : bool :=
  match node_outcome expected with
  | None => false
  | Some expected_outcome =>
    match command_outcome series (observed_message_id observed) with
    | None => true
    | Some observed_outcome => negb (command_outcomes_match expected_outcome (oco_outcome observed_outcome))
    end
  end.

(** The condition of [node_matches] and of [diagnose_unmatched_expected] *)
Definition content_matches (expected : ExpectedMessageNode) (observed : ObservedMessageNode)
    (series : ObservedMessageSeries) : bool :=
  bool_decide (node_kind expected = observed_kind observed)
  && String.eqb (node_name expected) (observed_name observed)
  && (node_schema_version expected =? observed_schema_version observed)
  && bool_decide (node_context expected = observed_context observed)
  && negb (payload_mismatch expected observed)
  && negb (outcome_mismatch expected observed series).

(** [serde_json::to_string] of the object, [unwrap_or_default] *)
Definition candidate_content_key (observed : ObservedMessageNode) (series : ObservedMessageSeries) : string :=
  match to_writer (VObject
    [("context", optional_string (observed_context observed));
     ("kind", VString (kind_text (observed_kind observed)));
     ("name", VString (observed_name observed));
     ("outcome", match command_outcome series (observed_message_id observed) with
                 | Some outcome => json_value (response_outcome_to_value (oco_outcome outcome))
                 | None => VNull
                 end);
     ("payload", default VNull (observed_payload observed));
     ("schemaVersion", value_from_u64 (observed_schema_version observed))]) with
  | Ok text => string_of_list_byte text
  | Err _ => EmptyString
  end.

(** Tuples are compared component by component. *)
Definition then_cmp (a b : comparison) : comparison :=
  match a with Eq => b | _ => a end.
Definition bool_cmp (a b : bool) : comparison :=
  match a, b with
  | false, true => Lt
  | true, false => Gt
  | _, _ => Eq
  end.
Fixpoint bools_cmp (a b : list bool) : comparison :=
  match a, b with
  | x :: a, y :: b => then_cmp (bool_cmp x y) (bools_cmp a b)
  | [], [] => Eq
  | [], _ => Lt
  | _, [] => Gt
  end.
Definition pair_cmp (a b : string * string) : comparison :=
  then_cmp (String.compare a.1 b.1) (String.compare a.2 b.2).
Definition not_after (c : comparison) : Prop := c ≠ Gt.
#[global] Instance not_after_dec c : Decision (not_after c).
Proof. unfold not_after. apply _. Defined.

(** [sort_by_key] and [sort_by] of a slice: a stable sort *)
Definition sort_by {A} (compare : A → A → comparison) (l : list A) : list A :=
  merge_sort (λ x y, not_after (compare x y)) l.

Definition candidate_key (series : ObservedMessageSeries) (observed : ObservedMessageNode) : string * string :=
  (candidate_content_key observed series, observed_message_id observed).

Definition candidate_rank (expected : ExpectedMessageNode) (observed : ObservedMessageNode)
    (series : ObservedMessageSeries) : list bool * (string * string) :=
  ([negb (bool_decide (node_kind expected = observed_kind observed));
    negb (String.eqb (node_name expected) (observed_name observed));
    negb (node_schema_version expected =? observed_schema_version observed);
    negb (bool_decide (node_context expected = observed_context observed));
    payload_mismatch expected observed;
    outcome_mismatch expected observed series],
   candidate_key series observed).
Definition rank_cmp (a b : list bool * (string * string)) : comparison :=
  then_cmp (bools_cmp a.1 b.1) (pair_cmp a.2 b.2).

(** ** The search for a complete assignment *)

(** The part of [CompleteMatchSearch] that does not change *)
Record CompleteMatchSearch := mkSearch {
  expected_nodes : list ExpectedMessageNode;
  observed_nodes : list ObservedMessageNode;
  expected_roots : list nat;
  observed_roots : list nat;
  expected_children : gmap string (list nat);
  observed_children : gmap string (list nat);
  search_observed : ObservedMessageSeries;
}.
(** The part that does *)
Record SearchState := mkSearchState {
  compatibility : gmap (nat * nat) bool;
  remaining_steps : N;
  exhausted : bool;
}.

Inductive CompleteCausalAssignment :=
| Complete (assignment : gmap string string)
| Incomplete (remaining_steps : N)
| Exhausted.

(** One turn of the loops that sort nodes into roots and children *)
Definition sort_node (parent : option string) (index : nat) (acc : list nat * gmap string (list nat))
  : list nat * gmap string (list nat) :=
  let '(roots, children) := acc in
  match parent with
  | Some key => (roots, <[key := default [] (children !! key) ++ [index]]> children)
  | None => (roots ++ [index], children)
  end.
Definition sort_nodes {A} (parent : A → option string) (nodes : list A) : list nat * gmap string (list nat) :=
  foldl (λ acc '(index, node), sort_node (parent node) index acc) ([], ∅) (imap pair nodes).

(** Indexes are compared by what they stand for. *)
Definition index_cmp {A} (nodes : list A) (compare : A → A → comparison) (i j : nat) : comparison :=
  match nodes !! i, nodes !! j with
  | Some x, Some y => compare x y
  | _, _ => Nat.compare i j
  end.
Definition expected_cmp (a b : ExpectedMessageNode) : comparison := String.compare (node_key a) (node_key b).
Definition observed_cmp (series : ObservedMessageSeries) (a b : ObservedMessageNode) : comparison :=
  pair_cmp (candidate_key series a) (candidate_key series b).

Definition search_new (expected : MessageGraphDefinition) (observed : ObservedMessageSeries) : CompleteMatchSearch :=
  let expected_nodes := series_nodes (graph_nodes expected) in
  let observed_nodes := series_nodes (obs_messages observed) in
  let '(expected_roots, expected_children) := sort_nodes node_parent_key expected_nodes in
  let '(observed_roots, observed_children) := sort_nodes observed_causation_id observed_nodes in
  let observed_order := index_cmp observed_nodes (observed_cmp observed) in
  mkSearch expected_nodes observed_nodes expected_roots (sort_by observed_order observed_roots)
    (sort_by (index_cmp expected_nodes expected_cmp) <$> expected_children)
    (sort_by observed_order <$> observed_children) observed.

Definition state_new : SearchState := mkSearchState ∅ MAXIMUM_COMPARISON_STEPS false.

(** [spend_comparison_step]: the steps left, if there was one *)
Definition spend_comparison_step (remaining : N) : option N := checked_sub remaining 1.

Definition spend_step (st : SearchState) : bool * SearchState :=
  match spend_comparison_step (remaining_steps st) with
  | None => (false, mkSearchState (compatibility st) (remaining_steps st) true)
  | Some remaining => (true, mkSearchState (compatibility st) remaining (exhausted st))
  end.

Definition remember (identity : nat * nat) (matches : bool) (st : SearchState) : SearchState :=
  mkSearchState (<[identity := matches]> (compatibility st)) (remaining_steps st) (exhausted st).

(** What [augment_sibling] changes: the assignment of candidates, the candidates
    visited, and the state of the search *)
Definition Augmenting : Type := gmap nat nat * gset nat * SearchState.

(** The loop of [augment_sibling] over the candidates; [matches] is
    [subtree_matches], and [recurse] the recursive call. *)
Fixpoint scan_candidates (matches : nat → nat → SearchState → bool * SearchState)
    (recurse : nat → Augmenting → bool * Augmenting) (expected_index : nat) (candidates : list nat)
    (acc : Augmenting) : bool * Augmenting :=
  match candidates with
  | [] => (false, acc)
  | observed_index :: candidates =>
    let '(matched, visited, st) := acc in
    let '(spent, st) := spend_step st in
    if negb spent then (false, (matched, visited, st))
    else
      let '(compatible, st) := matches expected_index observed_index st in
      if negb compatible || bool_decide (observed_index ∈ visited)
      then scan_candidates matches recurse expected_index candidates (matched, visited, st)
      else
        let visited := {[observed_index]} ∪ visited in
        let '(can_assign, (matched, visited, st)) :=
          match matched !! observed_index with
          | None => (true, (matched, visited, st))
          | Some previous_expected => recurse previous_expected (matched, visited, st)
          end in
        if can_assign then (true, (<[observed_index := expected_index]> matched, visited, st))
        else scan_candidates matches recurse expected_index candidates (matched, visited, st)
  end.

(** A candidate is visited at most once, so the recursion ends within [fuel]
    levels, one more than there are candidates. *)
Fixpoint augment_sibling (matches : nat → nat → SearchState → bool * SearchState) (observed : list nat)
    (fuel : nat) (expected_index : nat) (acc : Augmenting) : bool * Augmenting :=
  match fuel with
  | O => (false, acc)
  | S fuel => scan_candidates matches (augment_sibling matches observed fuel) expected_index observed acc
  end.

(** The loop of [sibling_assignment], over the expected siblings from the last *)
Fixpoint assign_siblings (matches : nat → nat → SearchState → bool * SearchState) (observed : list nat)
    (expected : list nat) (matched : gmap nat nat) (st : SearchState) : option (gmap nat nat) * SearchState :=
  match expected with
  | [] => (Some matched, st)
  | expected_index :: expected =>
    let '(assigned, (matched, _, st)) :=
      augment_sibling matches observed (S (length observed)) expected_index (matched, ∅, st) in
    if negb assigned then (None, st) else assign_siblings matches observed expected matched st
  end.

Definition sibling_assignment (s : CompleteMatchSearch) (matches : nat → nat → SearchState → bool * SearchState)
    (expected observed : list nat) (st : SearchState) : option (list (nat * nat)) * SearchState :=
  if Nat.ltb (length observed) (length expected) then (None, st)
  else
    match assign_siblings matches observed (rev expected) ∅ st with
    | (None, st) => (None, st)
    | (Some matched, st) =>
      (Some (sort_by (λ p q, index_cmp (expected_nodes s) expected_cmp p.1 q.1)
               (map (λ p, (p.2, p.1)) (map_to_list matched))), st)
    end.

Definition node_matches (s : CompleteMatchSearch) (expected_index observed_index : nat) : bool :=
  match expected_nodes s !! expected_index, observed_nodes s !! observed_index with
  | Some expected, Some observed => content_matches expected observed (search_observed s)
  | _, _ => false
  end.

Definition children_of (children : gmap string (list nat)) (id : string) : list nat :=
  default [] (children !! id).

(** [subtree_matches]; it descends with the expected graph, at most [depth] levels. *)
Fixpoint subtree_matches (s : CompleteMatchSearch) (depth : nat) (expected_index observed_index : nat)
    (st : SearchState) : bool * SearchState :=
  match depth with
  | O => (false, st)
  | S depth =>
    let identity := (expected_index, observed_index) in
    match compatibility st !! identity with
    | Some matches => (matches, st)
    | None =>
      let '(spent, st) := spend_step st in
      if negb spent then (false, st)
      else if negb (node_matches s expected_index observed_index) then (false, remember identity false st)
      else
        match expected_nodes s !! expected_index, observed_nodes s !! observed_index with
        | Some expected_node, Some observed_node =>
          let '(pairs, st) :=
            sibling_assignment s (subtree_matches s depth)
              (children_of (expected_children s) (node_key expected_node))
              (children_of (observed_children s) (observed_message_id observed_node)) st in
          (is_some pairs, remember identity (is_some pairs) st)
        | _, _ => (false, st)
        end
    end
  end.

(** The loop of [materialize] over the pairs of an assignment of siblings *)
Fixpoint materialize_pairs
    (recurse : nat → nat → gmap string string → SearchState → bool * gmap string string * SearchState)
    (pairs : list (nat * nat)) (assignment : gmap string string) (st : SearchState)
  : bool * gmap string string * SearchState :=
  match pairs with
  | [] => (true, assignment, st)
  | (expected, observed) :: pairs =>
    let '(done, assignment, st) := recurse expected observed assignment st in
    if negb done then (false, assignment, st) else materialize_pairs recurse pairs assignment st
  end.

(** [materialize], with the same measure *)
Fixpoint materialize (s : CompleteMatchSearch) (depth : nat) (expected_index observed_index : nat)
    (assignment : gmap string string) (st : SearchState) : bool * gmap string string * SearchState :=
  match depth with
  | O => (false, assignment, st)
  | S depth =>
    match expected_nodes s !! expected_index, observed_nodes s !! observed_index with
    | Some expected_node, Some observed_node =>
      let assignment := <[node_key expected_node := observed_message_id observed_node]> assignment in
      match sibling_assignment s (subtree_matches s depth)
              (children_of (expected_children s) (node_key expected_node))
              (children_of (observed_children s) (observed_message_id observed_node)) st with
      | (None, st) => (false, assignment, st)
      | (Some pairs, st) => materialize_pairs (materialize s depth) pairs assignment st
      end
    | _, _ => (false, assignment, st)
    end
  end.

(** One level more than the maximum distance of a node to its root *)
Definition search_depth : nat := S MAXIMUM_EXPECTED_GRAPH_DEPTH.

Fixpoint assign_roots (s : CompleteMatchSearch) (expected_root : nat) (roots : list nat) (st : SearchState)
  : CompleteCausalAssignment :=
  match roots with
  | [] => Incomplete (remaining_steps st)
  | observed_root :: roots =>
    let '(matches, st) := subtree_matches s search_depth expected_root observed_root st in
    if negb matches then
      if exhausted st then Exhausted else assign_roots s expected_root roots st
    else
      let '(done, assignment, st) := materialize s search_depth expected_root observed_root ∅ st in
      if done then Complete assignment
      else if exhausted st then Exhausted else assign_roots s expected_root roots st
  end.

Definition search_assignment (s : CompleteMatchSearch) : CompleteCausalAssignment :=
  match head (expected_roots s) with
  | None => Incomplete (remaining_steps state_new)
  | Some expected_root => assign_roots s expected_root (observed_roots s) state_new
  end.

Definition find_complete_causal_assignment (expected : MessageGraphDefinition) (observed : ObservedMessageSeries)
  : CompleteCausalAssignment := search_assignment (search_new expected observed).

(** ** Diagnostics *)

Definition diagnostic (code path message : string) (expected observed : option JValue)
  : MessageSeriesComparisonDiagnostic := mkDiagnostic code path message expected observed.

Definition cycle_diagnostic (nodes : list ObservedMessageNode) : MessageSeriesComparisonDiagnostic :=
  let ids := sort_by String.compare (map observed_message_id nodes) in
  diagnostic "causation-cycle" ("observed:" +:+ default "cycle" (head ids))
    "observed causation links contain a cycle" None (Some (VArray (map VString ids))).

Definition topology_diagnostic (issue : MessageSeriesTopologyIssue (Node := ObservedMessageNode))
  : MessageSeriesComparisonDiagnostic :=
  match issue with
  | UnresolvedParent child =>
    diagnostic "unresolved-observed-parent" ("observed:" +:+ observed_message_id child +:+ "/causationId")
      "observed causation identity does not resolve to a message" None
      (VString <$> observed_causation_id child)
  | CrossCorrelation child parent =>
    diagnostic "cross-correlation-link" ("observed:" +:+ observed_message_id child +:+ "/correlationId")
      "observed child and parent have different correlation identities"
      (Some (VString (observed_correlation_id parent))) (Some (VString (observed_correlation_id child)))
  | Cycle nodes => cycle_diagnostic nodes
  end.

Definition outcome_path (outcome : ObservedCommandOutcome) (field : string) : string :=
  "observed-outcome:" +:+ oco_response_message_id outcome +:+ "/" +:+ field.
Definition outcome_diagnostic (issue : ObservedMessageSeriesOutcomeIssue) : MessageSeriesComparisonDiagnostic :=
  match issue with
  | MissingCommand outcome =>
    diagnostic "unresolved-command-outcome" (outcome_path outcome "commandMessageId")
      "command outcome references an unobserved command identity" None
      (Some (VString (oco_command_message_id outcome)))
  | NotACommand outcome message =>
    diagnostic "identity-conflict" (outcome_path outcome "commandMessageId")
      "command outcome identity resolves to a non-command message"
      (Some (VString "command")) (Some (VString (kind_text (observed_kind message))))
  | OutcomeCrossCorrelation outcome message =>
    diagnostic "cross-correlation-link" (outcome_path outcome "correlationId")
      "command outcome and command have different correlation identities"
      (Some (VString (observed_correlation_id message))) (Some (VString (oco_correlation_id outcome)))
  end.

Definition observed_structure_diagnostics (observed : ObservedMessageSeries)
  : list MessageSeriesComparisonDiagnostic :=
  map topology_diagnostic (default [] (topology_issues (obs_messages observed)))
  ++ map outcome_diagnostic (outcome_issues observed).

Definition push_field_mismatch (mismatch : bool) (code path message : string) (expected observed : JValue)
  : list MessageSeriesComparisonDiagnostic :=
  if mismatch then [diagnostic code path message (Some expected) (Some observed)] else [].

Definition diagnose_matched_fields (expected : ExpectedMessageNode) (observed : ObservedMessageNode)
    (series : ObservedMessageSeries) : list MessageSeriesComparisonDiagnostic :=
  let base := "expected:" +:+ node_key expected in
  push_field_mismatch (negb (bool_decide (node_kind expected = observed_kind observed)))
    "kind-mismatch" (base +:+ "/kind") "message kind differs"
    (VString (kind_text (node_kind expected))) (VString (kind_text (observed_kind observed)))
  ++ push_field_mismatch (negb (String.eqb (node_name expected) (observed_name observed)))
       "name-mismatch" (base +:+ "/name") "message name differs"
       (VString (node_name expected)) (VString (observed_name observed))
  ++ push_field_mismatch (negb (node_schema_version expected =? observed_schema_version observed))
       "schema-version-mismatch" (base +:+ "/schemaVersion") "message schema version differs"
       (value_from_u64 (node_schema_version expected)) (value_from_u64 (observed_schema_version observed))
  ++ push_field_mismatch (negb (bool_decide (node_context expected = observed_context observed)))
       "command-context-mismatch" (base +:+ "/context") "command bounded context differs"
       (optional_string (node_context expected)) (optional_string (observed_context observed))
  ++ (if payload_mismatch expected observed then
        [diagnostic "payload-mismatch" (base +:+ "/payload")
           "observed payload does not contain the expected JSON subset"
           (node_payload expected) (observed_payload observed)]
      else [])
  ++ (if outcome_mismatch expected observed series then
        [diagnostic "command-outcome-mismatch" (base +:+ "/outcome")
           "observed command outcome does not match the expectation"
           (TestOutcome_serialize <$> node_outcome expected)
           ((λ outcome, json_value (response_outcome_to_value (oco_outcome outcome)))
              <$> command_outcome series (observed_message_id observed))]
      else []).

(** The candidates of [diagnose_unmatched_expected], unless the steps run out *)
Fixpoint content_candidates (expected : ExpectedMessageNode) (series : ObservedMessageSeries)
    (candidates : list ObservedMessageNode) (remaining : N) : option (list ObservedMessageNode * N) :=
  match candidates with
  | [] => Some ([], remaining)
  | candidate :: candidates =>
    match spend_comparison_step remaining with
    | None => None
    | Some remaining =>
      match content_candidates expected series candidates remaining with
      | None => None
      | Some (found, remaining) =>
        Some (if content_matches expected candidate series then candidate :: found else found, remaining)
      end
    end
  end.

Definition message_id_cmp (a b : ObservedMessageNode) : comparison :=
  String.compare (observed_message_id a) (observed_message_id b).

Definition diagnose_unmatched_expected (expected : ExpectedMessageNode) (observed : ObservedMessageSeries)
    (matched_ids : gset string) (expected_parent_id : option string) (remaining : N)
  : option (list MessageSeriesComparisonDiagnostic * N) :=
  match content_candidates expected observed (series_nodes (obs_messages observed)) remaining with
  | None => None
  | Some (found, remaining) =>
    let content_matches := sort_by message_id_cmp found in
    let conflict :=
      match List.find (λ candidate, negb (bool_decide (observed_message_id candidate ∈ matched_ids)))
              content_matches with
      | Some candidate =>
        [diagnostic "causation-mismatch" ("expected:" +:+ node_key expected +:+ "/parentKey")
           ("expected message `" +:+ node_key expected
            +:+ "` has a content match with the wrong observed causation identity")
           (Some (optional_string expected_parent_id))
           (Some (optional_string (observed_causation_id candidate)))]
      | None =>
        match content_matches with
        | candidate :: _ =>
          [diagnostic "identity-conflict" ("expected:" +:+ node_key expected)
             "one observed identity would have to satisfy multiple expected nodes"
             (Some (json_value (expected_to_value expected)))
             (Some (VString (observed_message_id candidate)))]
        | [] => []
        end
      end in
    Some (conflict
          ++ [diagnostic "missing-expected" ("expected:" +:+ node_key expected)
                ("no observed message satisfies expected node `" +:+ node_key expected +:+ "`")
                (Some (json_value (expected_to_value expected))) None], remaining)
  end.

Definition diagnose_unexpected_observations (observed : ObservedMessageSeries) (matched_ids : gset string)
  : list MessageSeriesComparisonDiagnostic :=
  let unexpected := sort_by message_id_cmp
    (filter (λ message, observed_message_id message ∉ matched_ids) (series_nodes (obs_messages observed))) in
  map (λ message,
    diagnostic "unexpected-observed" ("observed:" +:+ observed_message_id message)
      ("observed message `" +:+ observed_message_id message +:+ "` was not expected")
      None (Some (json_value (observed_to_value message)))) unexpected.

Inductive TimedObservationKind := TimedMessage | TimedCommandOutcome.

Definition diagnose_observation_timing (kind : TimedObservationKind) (id : string) (order : N)
    (context : MessageSeriesComparisonContext) : list MessageSeriesComparisonDiagnostic :=
  let '(path, after_timeout_code, after_timeout_message) :=
    match kind with
    | TimedMessage =>
      ("observed:" +:+ id +:+ "/observationOrder", "message-after-timeout",
       "message arrived after the comparison deadline")
    | TimedCommandOutcome =>
      ("observed-outcome:" +:+ id +:+ "/observationOrder", "command-outcome-after-timeout",
       "command outcome arrived after the comparison deadline")
    end in
  let reached := is_some_and (λ boundary, boundary <=? order) in
  let observed := Some (value_from_u64 order) in
  (if reached (timeout_observation_order context)
   then [diagnostic after_timeout_code path after_timeout_message None observed] else [])
  ++ (if reached (settle_completed_at_order context) then
        match kind with
        | TimedMessage =>
          [diagnostic "message-after-settle" path "message arrived after settling completed" None observed]
        | TimedCommandOutcome =>
          [diagnostic "command-outcome-after-settle" path "command outcome arrived after settling completed"
             None observed]
        end
      else if reached (settle_started_at_order context) then
        match kind with
        | TimedMessage =>
          [diagnostic "message-during-settle" path "message arrived during settling" None observed]
        | TimedCommandOutcome =>
          [diagnostic "command-outcome-during-settle" path "command outcome arrived during settling"
             None observed]
        end
      else []).

Definition diagnose_timing (observed : ObservedMessageSeries) (context : MessageSeriesComparisonContext)
    (missing : list string) : list MessageSeriesComparisonDiagnostic :=
  (if timed_out context && negb (bool_decide (missing = [])) then
     [diagnostic "timeout-before-expectations" "/expected"
        "the comparison deadline elapsed before all expectations matched"
        (Some (VArray (map VString missing))) (value_from_u64 <$> timeout_observation_order context)]
   else [])
  ++ concat (map (λ message, diagnose_observation_timing TimedMessage (observed_message_id message)
                               (observed_order message) context) (series_nodes (obs_messages observed)))
  ++ concat (map (λ outcome, diagnose_observation_timing TimedCommandOutcome
                               (oco_response_message_id outcome) (oco_observation_order outcome) context)
               (obs_command_outcomes observed)).

(** ** The comparison *)

(** [expected_depth]: the walk ends after at most the maximum depth of a graph. *)
Fixpoint expected_depth_from (parent_of : string → option string) (fuel : nat) (parent : option string) : N :=
  match fuel, parent with
  | S fuel, Some parent_key => saturating_add usize_max (expected_depth_from parent_of fuel (parent_of parent_key)) 1
  | _, _ => 0
  end.
Definition expected_depth (expected_by_key : gmap string ExpectedMessageNode) (node : ExpectedMessageNode) : N :=
  expected_depth_from (λ key, match expected_by_key !! key with
                              | Some parent => node_parent_key parent
                              | None => None
                              end) search_depth (node_parent_key node).

(** The candidates of an expected message in the fallback, unless the steps run out *)
Fixpoint causal_candidates (expected : ExpectedMessageNode) (expected_parent_id : option string)
    (matched_ids : gset string) (candidates : list ObservedMessageNode) (remaining : N)
  : list ObservedMessageNode * option N :=
  match candidates with
  | [] => ([], Some remaining)
  | candidate :: candidates =>
    match spend_comparison_step remaining with
    | None => ([], None)
    | Some remaining =>
      let '(found, remaining) := causal_candidates expected expected_parent_id matched_ids candidates remaining in
      let causal_candidate :=
        match node_parent_key expected with
        | None => is_none (observed_causation_id candidate)
        | Some _ => is_some_and (λ parent_id, bool_decide (observed_causation_id candidate = Some parent_id))
                      expected_parent_id
        end in
      (if negb (bool_decide (observed_message_id candidate ∈ matched_ids)) && causal_candidate
       then candidate :: found else found, remaining)
    end
  end.

(** What the comparison accumulates *)
Record Progress := mkProgress {
  pg_matches : gmap string string;
  pg_matched_ids : gset string;
  pg_missing : list string;
  pg_diagnostics : list MessageSeriesComparisonDiagnostic;
}.

(** The loop of the fallback: what it accumulated, and whether the steps ran out *)
Fixpoint fallback (observed : ObservedMessageSeries) (nodes : list ExpectedMessageNode) (p : Progress)
    (remaining : N) : Progress * bool :=
  match nodes with
  | [] => (p, false)
  | expected_node :: nodes =>
    let expected_parent_id := node_parent_key expected_node ≫= λ parent_key, pg_matches p !! parent_key in
    match causal_candidates expected_node expected_parent_id (pg_matched_ids p)
            (series_nodes (obs_messages observed)) remaining with
    | (_, None) => (p, true)
    | (candidates, Some remaining) =>
      match head (sort_by (λ a b, rank_cmp (candidate_rank expected_node a observed)
                                    (candidate_rank expected_node b observed)) candidates) with
      | None =>
        match diagnose_unmatched_expected expected_node observed (pg_matched_ids p) expected_parent_id remaining with
        | None => (p, true)
        | Some (diagnostics, remaining) =>
          fallback observed nodes
            (mkProgress (pg_matches p) (pg_matched_ids p) (pg_missing p ++ [node_key expected_node])
               (pg_diagnostics p ++ diagnostics)) remaining
        end
      | Some candidate =>
        let diagnostics := diagnose_matched_fields expected_node candidate observed in
        fallback observed nodes
          (mkProgress (<[node_key expected_node := observed_message_id candidate]> (pg_matches p))
             ({[observed_message_id candidate]} ∪ pg_matched_ids p)
             (if bool_decide (diagnostics = []) then pg_missing p else pg_missing p ++ [node_key expected_node])
             (pg_diagnostics p ++ diagnostics)) remaining
      end
    end
  end.

Definition depth_cmp (expected_by_key : gmap string ExpectedMessageNode) (a b : ExpectedMessageNode) : comparison :=
  then_cmp (N.compare (expected_depth expected_by_key a) (expected_depth expected_by_key b))
    (String.compare (node_key a) (node_key b)).

Definition work_limit_diagnostic : MessageSeriesComparisonDiagnostic :=
  diagnostic "comparison-work-limit-exceeded" "/expected"
    ("message-series comparison exceeded its deterministic " +:+ n_to_string MAXIMUM_COMPARISON_STEPS
     +:+ "-step work limit") None None.

Definition diagnostic_cmp (a b : MessageSeriesComparisonDiagnostic) : comparison :=
  then_cmp (String.compare (diag_path a) (diag_path b))
    (then_cmp (String.compare (diag_code a) (diag_code b)) (String.compare (diag_message a) (diag_message b))).

Definition compare_message_series (expected : MessageGraphDefinition) (observed : ObservedMessageSeries)
    (context : MessageSeriesComparisonContext) : MessageSeriesComparison :=
  let diagnostics := observed_structure_diagnostics observed in
  let nodes := series_nodes (graph_nodes expected) in
  let expected_by_key : gmap string ExpectedMessageNode :=
    foldl (λ m node, <[node_key node := node]> m) ∅ nodes in
  let expected_nodes := sort_by (depth_cmp expected_by_key) nodes in
  let '(p, comparison_exhausted) :=
    match find_complete_causal_assignment expected observed with
    | Complete complete =>
      (mkProgress complete (list_to_set (map snd (map_to_list complete))) [] diagnostics, false)
    | Incomplete remaining => fallback observed expected_nodes (mkProgress ∅ ∅ [] diagnostics) remaining
    | Exhausted => (mkProgress ∅ ∅ [] diagnostics, true)
    end in
  let diagnostics :=
    pg_diagnostics p
    ++ if comparison_exhausted then [work_limit_diagnostic]
       else diagnose_unexpected_observations observed (pg_matched_ids p)
            ++ diagnose_timing observed context (pg_missing p) in
  mkComparison (if bool_decide (diagnostics = []) then ComparisonPassed else ComparisonFailed)
    (map (λ p, mkMatch p.1 p.2) (btree_iter (pg_matches p)))
    (sort_by diagnostic_cmp diagnostics).
End Compare.
