(* ===== verification/TracerMatching.v ===== *)
(** * TracerMatching: the search of TracerCompare finds an assignment of all expected
    messages whenever there is one, unless its steps run out; and what it means
    that a comparison has nothing to report. *)

From S2P Require Export TracerCompare.

Lemma size_list_to_set_le (l : list nat) : (size (list_to_set l : gset nat) <= length l)%nat.
Proof.
  induction l as [|x l IH]; [done|]. cbn [list_to_set length].
  rewrite size_union_alt, size_singleton.
  assert (size (list_to_set l ∖ {[x]} : gset nat) <= size (list_to_set l : gset nat))%nat by (apply subseteq_size; set_solver).
  lia.
Qed.

Lemma unvisited_less (observed : list nat) (V : gset nat) o :
  o ∈ observed → o ∉ V →
  (size (list_to_set observed ∖ ({[o]} ∪ V) : gset nat) < size (list_to_set observed ∖ V : gset nat))%nat.
Proof. intros Ho Hv. apply subset_size. set_solver. Qed.

(** ** The assignment of siblings: maximum matchings by augmenting paths *)

Section Siblings.
Context (matches : nat → nat → SearchState → bool * SearchState).
Context (R : nat → nat → Prop) (D : nat → Prop) (Inv : SearchState → Prop) (observed : list nat).

(** A state and a later one *)
Definition advances (st st' : SearchState) : Prop :=
  Inv st' ∧ (exhausted st = true → exhausted st' = true).

(** [matches] decides [R] on [D], unless the steps run out. *)
Definition decides : Prop :=
  ∀ e o st b st', D e → Inv st → matches e o st = (b, st') →
    advances st st' ∧ (b = true → R e o) ∧ (b = false → exhausted st' = true ∨ ¬ R e o).

Context (Hmatches : decides).
Context (Hspend : ∀ st, Inv st → advances st (spend_step st).2).

Lemma advances_trans s1 s2 s3 : advances s1 s2 → advances s2 s3 → advances s1 s3.
Proof. unfold advances. naive_solver. Qed.

Lemma spend_step_false st st' : spend_step st = (false, st') → exhausted st' = true.
Proof. unfold spend_step. destruct (spend_comparison_step _); by intros [= <-]. Qed.

Definition injective (M : gmap nat nat) : Prop :=
  ∀ a b x, M !! a = Some x → M !! b = Some x → a = b.
Definition sound (M : gmap nat nat) : Prop :=
  ∀ o x, M !! o = Some x → o ∈ observed ∧ R x o ∧ D x.
Definition assigned (M : gmap nat nat) (x : nat) : Prop := ∃ o, M !! o = Some x.

(** [M'] comes from [M] by an augmenting path from [e] outside of [V]. *)
Record augmented (M M' : gmap nat nat) (V : gset nat) (e : nat) : Prop := mkAugmented {
  aug_agree v : v ∈ V → M' !! v = M !! v;
  aug_new : ∃ o, o ∉ V ∧ M' !! o = Some e;
  aug_inj a b x : M' !! a = Some x → M' !! b = Some x → a = b ∨ x = e ∧ (a ∈ V ∨ b ∈ V);
  aug_range x : assigned M' x ↔ x = e ∨ assigned M x;
  aug_sound : sound M';
}.

(** All candidates of [e] are visited. *)
Definition covered (e : nat) (V : gset nat) : Prop := ∀ o, o ∈ observed → R e o → o ∈ V.
(** The candidates visited since [V] are assigned, and no path goes on from them. *)
Definition closed_visit (M : gmap nat nat) (V V' : gset nat) : Prop :=
  ∀ v, v ∈ V' → v ∉ V → ∃ x, M !! v = Some x ∧ covered x V'.

Definition augment_post (M : gmap nat nat) (V : gset nat) (st : SearchState) (e : nat)
    (b : bool) (M' : gmap nat nat) (V' : gset nat) (st' : SearchState) : Prop :=
  advances st st' ∧ V ⊆ V' ∧ V' ⊆ list_to_set observed
  ∧ (b = true → augmented M M' V e)
  ∧ (b = false → M' = M ∧ (exhausted st' = true ∨ covered e V' ∧ closed_visit M V V')).

Definition augment_pre (M : gmap nat nat) (V : gset nat) (st : SearchState) (e : nat) : Prop :=
  D e ∧ Inv st ∧ sound M ∧ injective M ∧ (∀ o, M !! o = Some e → o ∈ V) ∧ V ⊆ list_to_set observed.

Lemma augmented_through M M1 V V1 o e p :
  injective M → (∀ o, M !! o = Some e → o ∈ V) → V ⊆ V1 → o ∈ V1 → o ∉ V →
  M !! o = Some p → o ∈ observed → R e o → D e →
  augmented M M1 V1 p → augmented M (<[o := e]> M1) V e.
Proof.
  intros Hinj He HV HoV1 HoV HMo Hobs HR HD [Hagree (o1 & Ho1 & HM1) Hi Hr Hs].
  assert (e ≠ p) as Hep by (intros ->; by apply HoV, He).
  assert (∀ b, b ≠ o → M1 !! b = Some e → b ∈ V) as Hold.
  { intros b Hb Hbe. assert (assigned M e) as [o0 Ho0].
    { destruct (proj1 (Hr e)) as [?|?]; [by exists b|done|done]. }
    assert (o0 ∈ V) as Hv by by apply He. assert (M1 !! o0 = Some e) as H0 by (rewrite Hagree; [done|set_solver]).
    destruct (Hi b o0 e Hbe H0) as [->|[? _]]; [done|congruence]. }
  constructor.
  - intros v Hv. rewrite lookup_insert_ne by (intros ->; done). apply Hagree. set_solver.
  - exists o. split; [done|apply lookup_insert_eq].
  - intros a b x Ha Hb. destruct (decide (a = o)) as [->|Hao], (decide (b = o)) as [->|Hbo].
    + by left.
    + rewrite lookup_insert_eq in Ha. injection Ha as <-. rewrite lookup_insert_ne in Hb by done.
      right. split; [done|]. right. by apply Hold.
    + rewrite lookup_insert_eq in Hb. injection Hb as <-. rewrite lookup_insert_ne in Ha by done.
      right. split; [done|]. left. by apply Hold.
    + rewrite lookup_insert_ne in Ha, Hb by done. destruct (Hi a b x Ha Hb) as [->|[-> Hab]]; [by left|].
      exfalso. destruct Hab as [Hv|Hv].
      * rewrite Hagree in Ha by done. by apply Hao, (Hinj a o p).
      * rewrite Hagree in Hb by done. by apply Hbo, (Hinj b o p).
  - intros x. split.
    + intros [a Ha]. destruct (decide (a = o)) as [->|Hao]; [rewrite lookup_insert_eq in Ha; left; congruence|].
      rewrite lookup_insert_ne in Ha by done. right. destruct (proj1 (Hr x)) as [->|?]; [by exists a|by exists o|done].
    + intros [->|Hx]; [exists o; apply lookup_insert_eq|].
      destruct (decide (x = p)) as [->|Hxp].
      * exists o1. rewrite lookup_insert_ne; [done|]. by intros ->.
      * destruct (proj2 (Hr x)) as [a Ha]; [by right|]. exists a. rewrite lookup_insert_ne; [done|].
        intros ->. rewrite Hagree in Ha by done. congruence.
  - intros a x Ha. destruct (decide (a = o)) as [->|Hao].
    + rewrite lookup_insert_eq in Ha. by injection Ha as <-.
    + rewrite lookup_insert_ne in Ha by done. by apply Hs.
Qed.

Lemma augmented_free M V o e :
  sound M → injective M → (∀ o, M !! o = Some e → o ∈ V) → o ∉ V → M !! o = None →
  o ∈ observed → R e o → D e → augmented M (<[o := e]> M) V e.
Proof.
  intros Hs Hinj He HoV HMo Hobs HR HD. constructor.
  - intros v Hv. rewrite lookup_insert_ne; [done|]. by intros ->.
  - exists o. split; [done|apply lookup_insert_eq].
  - intros a b x. rewrite !lookup_insert_Some. intros [[<- <-]|[Ha Hx]] [[<- Hb]|[Hb Hy]]; [by left| | |].
    + right. split; [done|]. right. by apply He.
    + subst x. right. split; [done|]. left. by apply He.
    + left. by apply (Hinj a b x).
  - intros x. split.
    + intros [a [[<- <-]|[_ Ha]]%lookup_insert_Some]; [by left|right; by exists a].
    + intros [->|[a Ha]]; [exists o; apply lookup_insert_eq|]. exists a. rewrite lookup_insert_ne; [done|].
      intros ->. congruence.
  - intros a x [[<- <-]|[_ Ha]]%lookup_insert_Some; [done|]. by apply Hs.
Qed.

(** The recursive call, for [n] candidates that are not visited *)
Definition recurses (recurse : nat → Augmenting → bool * Augmenting) (n : nat) : Prop :=
  ∀ e M V st b M' V' st',
    augment_pre M V st e → (size (list_to_set observed ∖ V : gset nat) < n)%nat →
    recurse e (M, V, st) = (b, (M', V', st')) → augment_post M V st e b M' V' st'.

Lemma closed_visit_step M V Vc o p V2 :
  closed_visit M V Vc → Vc ⊆ V2 → M !! o = Some p → covered p V2 → closed_visit M ({[o]} ∪ Vc) V2 →
  closed_visit M V V2.
Proof.
  intros Hc Hs HM Hp Hcv v Hv HvV. destruct (decide (v = o)) as [->|Hvo]; [by exists p|].
  destruct (decide (v ∈ Vc)) as [Hin|Hout].
  - destruct (Hc v Hin HvV) as (x & Hx & Hcov). exists x. split; [done|]. intros a Ha HR. by apply Hs, Hcov.
  - apply Hcv; set_solver.
Qed.

Lemma scan_spec recurse n e M V :
  recurses recurse n →
  ∀ candidates prefix Vc st0 st b M' V' st',
    observed = prefix ++ candidates →
    D e → sound M → injective M → (∀ o, M !! o = Some e → o ∈ V) → V ⊆ Vc → Vc ⊆ list_to_set observed →
    (size (list_to_set observed ∖ Vc : gset nat) < S n)%nat →
    advances st0 st →
    (exhausted st = true ∨ (∀ o, o ∈ prefix → R e o → o ∈ Vc) ∧ closed_visit M V Vc) →
    scan_candidates matches recurse e candidates (M, Vc, st) = (b, (M', V', st')) →
    augment_post M V st0 e b M' V' st'.
Proof.
  intros Hrec. induction candidates as [|o candidates IH]; intros prefix Vc st0 st b M' V' st' Hobs HD Hs Hi He HV HVc Hsize Hst Hpre;
    cbn [scan_candidates].
  { intros [= <- <- <- <-]. split_and!; [done..|]. intros _. split; [done|].
    destruct Hpre as [?|[Hp Hc]]; [by left|right]. split; [|done]. intros o Ho. apply Hp.
    rewrite Hobs, app_nil_r in Ho. done. }
  destruct (spend_step st) as [spent st1] eqn:Esp.
  assert (advances st st1) as Hst1 by (pose proof (Hspend st (proj1 Hst)) as H; by rewrite Esp in H).
  destruct spent; cbn [negb].
  2: { intros [= <- <- <- <-]. split_and!; [by eapply advances_trans|done..|]. intros _. split; [done|].
       left. by eapply spend_step_false. }
  destruct (matches e o st1) as [compatible st2] eqn:Em.
  destruct (Hmatches e o st1 compatible st2 HD (proj1 Hst1) Em) as (Hst2 & Hyes & Hno).
  assert (advances st0 st2) as Hst02 by (by eapply advances_trans; [|eapply advances_trans]).
  assert (o ∈ observed) as Ho by (rewrite Hobs; set_solver).
  assert (exhausted st = true → exhausted st2 = true) as Hmono by (intros ?; apply Hst2, Hst1; done).
  destruct (negb compatible || bool_decide (o ∈ Vc)) eqn:Eskip.
  { intros Hscan. apply (IH (prefix ++ [o]) Vc st0 st2 b M' V' st'); try done; [by rewrite <- app_assoc|].
    destruct Hpre as [?|[Hp Hc]]; [by left; apply Hmono|].
    apply orb_true_iff in Eskip as [Hneg%negb_true_iff|Hin%bool_decide_eq_true].
    - destruct (Hno Hneg) as [?|Hn]; [by left|right]. split; [|done].
      intros a [Ha| ->%list_elem_of_singleton]%elem_of_app HR; [by apply Hp|done].
    - right. split; [|done]. intros a [Ha| ->%list_elem_of_singleton]%elem_of_app HR; [by apply Hp|done]. }
  apply orb_false_iff in Eskip as [Hcomp%negb_false_iff Hfresh%bool_decide_eq_false].
  specialize (Hyes Hcomp).
  assert (o ∉ V) as HoV by (intros ?; by apply Hfresh, HV).
  destruct (M !! o) as [p|] eqn:EM.
  2: { intros [= <- <- <- <-]. split_and!; [done|set_solver|set_solver| |done].
       intros _. by apply augmented_free. }
  destruct (recurse p (M, {[o]} ∪ Vc, st2)) as [can [[M1 V1] st3]] eqn:Er.
  assert (augment_post M ({[o]} ∪ Vc) st2 p can M1 V1 st3) as (Hst3 & HV1 & HV1' & Hcan & Hcannot).
  { apply (Hrec p M ({[o]} ∪ Vc) st2 can M1 V1 st3); [|pose proof (unvisited_less observed Vc o Ho Hfresh); lia|done].
    split_and!; [by apply (Hs o)|by apply Hst2|done|done| |set_solver].
    intros a Ha. rewrite (Hi a o p Ha EM). set_solver. }
  destruct can.
  - intros [= <- <- <- <-]. split_and!; [by eapply advances_trans|set_solver|done| |done]. intros _.
    apply (augmented_through M M1 V ({[o]} ∪ Vc) o e p); try done; [set_solver..|by apply Hcan].
  - destruct (Hcannot eq_refl) as [-> Hclosed]. intros Hscan.
    apply (IH (prefix ++ [o]) V1 st0 st3 b M' V' st'); try done; [by rewrite <- app_assoc|set_solver| | |].
    + eapply Nat.le_lt_trans; [|exact Hsize]. apply subseteq_size. set_solver.
    + by eapply advances_trans.
    + destruct Hclosed as [?|[Hcov Hcv]]; [by left|]. destruct Hpre as [?|[Hp Hc]]; [left; by apply Hst3, Hmono|].
      right. split; [|by eapply (closed_visit_step M V Vc o p); [|set_solver|..]].
      intros a [Ha| ->%list_elem_of_singleton]%elem_of_app HR; [|set_solver]. apply HV1, elem_of_union_r. by apply Hp.
Qed.

Lemma augment_spec fuel : recurses (augment_sibling matches observed fuel) fuel.
Proof.
  induction fuel as [|fuel IH]; intros e M V st b M' V' st' (HD & Hinv & Hs & Hi & He & HV) Hsize; [lia|].
  cbn [augment_sibling]. apply (scan_spec _ fuel e M V IH observed [] V st st b M' V' st'); try done.
  right. split; [by intros ? ?%elem_of_nil|]. by intros v Hv ?.
Qed.

(** The expected siblings can all be assigned to different candidates. *)
Definition assignable (es : list nat) : Prop :=
  ∃ f : nat → nat, (∀ x, x ∈ es → f x ∈ observed ∧ R x (f x))
    ∧ ∀ x y, x ∈ es → y ∈ es → f x = f y → x = y.

Record matching (M : gmap nat nat) (es : list nat) : Prop := mkMatching {
  matching_sound : sound M;
  matching_inj : injective M;
  matching_all x : assigned M x ↔ x ∈ es;
}.

(** A set of candidates closed under alternating paths that leave [e] leaves no
    room for [e]. *)
Lemma no_room M es e V :
  matching M es → e ∉ es → covered e V → closed_visit M ∅ V → ¬ assignable (e :: es).
Proof.
  intros [Hs Hi Ha] He Hcov Hcl (f & Hf & Hfi).
  set (partner v := default 0%nat (M !! v)).
  assert (∀ v, v ∈ V → M !! v = Some (partner v) ∧ covered (partner v) V) as Hp.
  { intros v Hv. destruct (Hcl v Hv) as (x & Hx & Hc); [set_solver|]. unfold partner. by rewrite Hx. }
  assert (∀ x, x ∈ e :: map partner (elements V) → x ∈ e :: es ∧ covered x V) as Hin.
  { intros x [->|(v & -> & Hv%elem_of_elements)%list_elem_of_fmap]%elem_of_cons; [split; [left|done]|].
    destruct (Hp v Hv) as [HM Hc]. split; [|done]. right. apply Ha. by exists v. }
  assert (NoDup (map f (e :: map partner (elements V)))) as Hnd.
  { apply (NoDup_fmap_2_strong f).
    - intros x y Hx Hy E. by apply Hfi; [apply Hin|apply Hin|].
    - constructor.
      + intros (v & -> & Hv%elem_of_elements)%list_elem_of_fmap. apply He, Ha. exists v. by apply Hp.
      + apply (NoDup_fmap_2_strong partner); [|apply NoDup_elements]. intros v w Hv%elem_of_elements Hw%elem_of_elements E.
        apply (Hi v w (partner v)); [by apply Hp|rewrite E; by apply Hp]. }
  assert (map f (e :: map partner (elements V)) ⊆ elements V) as Hsub.
  { intros o (x & -> & Hx)%list_elem_of_fmap. apply elem_of_elements. destruct (Hin x Hx) as [Hxe Hc].
    destruct (Hf x Hxe). by apply Hc. }
  pose proof (submseteq_length _ _ (NoDup_submseteq _ _ Hnd Hsub)) as Hlen.
  rewrite !length_map in Hlen. cbn in Hlen. rewrite length_map in Hlen. lia.
Qed.

Lemma assignable_sub es es' : es' ⊆ es → assignable es → assignable es'.
Proof. intros Hsub (f & Hf & Hi). exists f. split; [intros x Hx; by apply Hf, Hsub|auto]. Qed.

Lemma augmented_matching M M' es e :
  matching M es → e ∉ es → augmented M M' ∅ e → matching M' (e :: es).
Proof.
  intros [Hs Hi Ha] He [_ _ Hi' Hr Hs']. constructor; [done| |].
  - intros a b x Hx Hy. destruct (Hi' a b x Hx Hy) as [?|[_ [[]%elem_of_empty|[]%elem_of_empty]]]. done.
  - intros x. rewrite Hr, elem_of_cons, Ha. done.
Qed.

Lemma assign_siblings_spec es : ∀ assigned_before M st r st',
  (∀ x, x ∈ es → D x) → NoDup (es ++ assigned_before) → Inv st → matching M assigned_before →
  assign_siblings matches observed es M st = (r, st') →
  advances st st' ∧
  match r with
  | Some M' => matching M' (rev es ++ assigned_before)
  | None => exhausted st' = true ∨ ¬ assignable (es ++ assigned_before)
  end.
Proof.
  induction es as [|e es IH]; intros before M st r st' HD Hnd Hinv HM; cbn [assign_siblings].
  { intros [= <- <-]. split; [by split|done]. }
  destruct (augment_sibling _ _ _ _ _) as [ok [[M1 V1] st1]] eqn:Ea.
  cbn [app] in Hnd. apply NoDup_cons in Hnd as [He Hnd]. rewrite elem_of_app in He.
  assert (augment_post M ∅ st e ok M1 V1 st1) as (Hst1 & _ & _ & Hyes & Hno).
  { eapply augment_spec; [|shelve|exact Ea]. split_and!; [apply HD; left|done|apply HM|apply HM| |set_solver].
    intros o Ho. exfalso. apply He. right. apply (matching_all M before HM). by exists o.
    Unshelve. rewrite difference_empty_L. pose proof (size_list_to_set_le observed). lia. }
  destruct ok; cbn [negb].
  - intros Hrest. destruct (IH (e :: before) M1 st1 r st') as [Hst' Hr]; try done.
    + intros x Hx. apply HD. by right.
    + rewrite <- Permutation_middle. constructor; [by rewrite elem_of_app|done].
    + apply Hst1.
    + apply (augmented_matching M); [done|set_solver|by apply Hyes].
    + split; [by eapply advances_trans|]. destruct r as [M'|].
      * cbn [rev]. by rewrite <- app_assoc.
      * destruct Hr as [?|Hn]; [by left|right]. intros Has. apply Hn. eapply assignable_sub; [|exact Has]. set_solver.
  - intros [= <- <-]. split; [done|]. destruct (Hno eq_refl) as [-> [?|[Hcov Hcl]]]; [by left|right].
    intros Has. eapply (no_room M before e V1); [done|set_solver|done|done|]. eapply assignable_sub; [|exact Has]. set_solver.
Qed.

Lemma too_few_candidates es : NoDup es → (length observed < length es)%nat → ¬ assignable es.
Proof.
  intros Hnd Hl (f & Hf & Hi). assert (NoDup (map f es)) as Hn by (apply (NoDup_fmap_2_strong f); auto).
  assert (map f es ⊆ observed) as Hsub.
  { intros o (x & -> & Hx)%list_elem_of_fmap. by apply Hf. }
  pose proof (submseteq_length _ _ (NoDup_submseteq _ _ Hn Hsub)) as Hlen. rewrite length_map in Hlen. lia.
Qed.
End Siblings.

(** ** Roots and children *)

Lemma elem_of_sort_by {A} (compare : A → A → comparison) l x : x ∈ sort_by compare l ↔ x ∈ l.
Proof. unfold sort_by. by rewrite merge_sort_Permutation. Qed.
Lemma sort_by_Permutation {A} (compare : A → A → comparison) l : sort_by compare l ≡ₚ l.
Proof. apply merge_sort_Permutation. Qed.

Lemma sort_nodes_spec {A} (parent : A → option string) nodes :
  ∃ roots children, sort_nodes parent nodes = (roots, children)
    ∧ NoDup roots ∧ (∀ key, NoDup (children_of children key))
    ∧ (∀ i, i ∈ roots ↔ ∃ n, nodes !! i = Some n ∧ parent n = None)
    ∧ ∀ key i, i ∈ children_of children key ↔ ∃ n, nodes !! i = Some n ∧ parent n = Some key.
Proof.
  induction nodes as [|n nodes (roots & children & E & Hr & Hc & Hroots & Hchildren)] using rev_ind.
  { exists [], ∅. split_and!; [done|constructor| | |].
    - intros key. unfold children_of. rewrite lookup_empty. constructor.
    - intros i. split; [by intros ?%elem_of_nil|]. by intros (n & ? & _).
    - intros key i. unfold children_of. rewrite lookup_empty. split; [by intros ?%elem_of_nil|].
      by intros (n & ? & _). }
  assert (∀ i m, (nodes ++ [n]) !! i = Some m ↔ nodes !! i = Some m ∨ i = length nodes ∧ m = n) as Hlook.
  { intros i m. rewrite lookup_app_Some, list_lookup_singleton_Some. split.
    - intros [?|(? & ? & <-)]; [by left|right]. split; [lia|done].
    - intros [?|[-> ->]]; [by left|right]. split; [lia|]. split; [lia|done]. }
  assert (∀ i m, nodes !! i = Some m → i ≠ length nodes) as Hlt.
  { intros i m Hi ->. apply lookup_lt_Some in Hi. lia. }
  assert (sort_nodes parent (nodes ++ [n]) = sort_node (parent n) (length nodes) (roots, children)) as ->.
  { rewrite <- E. unfold sort_nodes. rewrite imap_app, foldl_app. cbn. by rewrite Nat.add_0_r. }
  unfold sort_node. destruct (parent n) as [key|] eqn:Hp.
  - eexists _, _. split; [done|]. split_and!; [done| | |].
    + intros k. unfold children_of. destruct (decide (k = key)) as [->|Hk].
      * rewrite lookup_insert_eq. apply NoDup_app. split_and!; [apply (Hc key)| |apply NoDup_singleton].
        intros i (m & Hm & _)%Hchildren ->%list_elem_of_singleton. by eapply Hlt.
      * rewrite lookup_insert_ne by done. apply (Hc k).
    + intros i. rewrite Hroots. setoid_rewrite Hlook. split; [naive_solver|]. intros (m & [?|[-> ->]] & ?); [eauto|congruence].
    + intros k i. unfold children_of. destruct (decide (k = key)) as [->|Hk].
      * rewrite lookup_insert_eq. cbn [default from_option id]. rewrite elem_of_app, list_elem_of_singleton.
        fold (children_of children key). rewrite Hchildren. setoid_rewrite Hlook. split; [naive_solver|].
        intros (m & [?|[-> ->]] & ?); [left; eauto|by right].
      * rewrite lookup_insert_ne by done. fold (children_of children k). rewrite Hchildren. setoid_rewrite Hlook.
        split; [naive_solver|]. intros (m & [?|[-> ->]] & ?); [eauto|congruence].
  - eexists _, _. split; [done|]. split_and!; [|done| |].
    + apply NoDup_app. split_and!; [done| |apply NoDup_singleton].
      intros i (m & Hm & _)%Hroots ->%list_elem_of_singleton. by eapply Hlt.
    + intros i. rewrite elem_of_app, list_elem_of_singleton, Hroots. setoid_rewrite Hlook. split; [naive_solver|].
      intros (m & [?|[-> ->]] & ?); [left; eauto|by right].
    + intros k i. rewrite Hchildren. setoid_rewrite Hlook. split; [naive_solver|].
      intros (m & [?|[-> ->]] & ?); [eauto|congruence].
Qed.

Lemma children_of_sorted compare (children : gmap string (list nat)) key :
  children_of (sort_by compare <$> children) key = sort_by compare (children_of children key).
Proof. unfold children_of. rewrite lookup_fmap. by destruct (children !! key). Qed.

Section Search.
Context `{JT : JsonText} `{NE : !EqDecision Number} `{HO : HashMapOrder} `{DJ : !DocumentJson}.

(** *** Pairs of siblings *)

Lemma matching_pairs R D observed M es :
  matching R D observed M es → NoDup es →
  let pairs := map (λ p : nat * nat, (p.2, p.1)) (map_to_list M) in
  pairs.*1 ≡ₚ es ∧ NoDup pairs.*2 ∧ ∀ e o, (e, o) ∈ pairs → o ∈ observed ∧ R e o.
Proof.
  intros [Hs Hi Ha] Hnd pairs.
  assert (∀ e o, (e, o) ∈ pairs ↔ M !! o = Some e) as Hin.
  { intros e o. unfold pairs. rewrite list_elem_of_fmap. split.
    - intros ([a b] & [= -> ->] & H). by apply elem_of_map_to_list in H.
    - intros H. exists (o, e). split; [done|]. by apply elem_of_map_to_list. }
  assert (pairs.*2 = (map_to_list M).*1) as E2 by (unfold pairs; rewrite <- list_fmap_compose; done).
  assert (pairs.*1 = (map_to_list M).*2) as E1 by (unfold pairs; rewrite <- list_fmap_compose; done).
  split_and!.
  - apply NoDup_Permutation; [|done|].
    + rewrite E1. apply (NoDup_fmap_2_strong snd); [|apply NoDup_map_to_list].
      intros [a x] [b y] Hx%elem_of_map_to_list Hy%elem_of_map_to_list E. cbn in E. subst y. by rewrite (Hi a b x).
    + intros x. rewrite <- Ha. split.
      * intros ([e o] & -> & H%Hin)%list_elem_of_fmap. by exists o.
      * intros [o H%Hin]. apply list_elem_of_fmap. by exists (x, o).
  - rewrite E2. apply NoDup_fst_map_to_list.
  - intros e o H%Hin. destruct (Hs o e H) as (? & ? & _). done.
Qed.

Lemma matching_empty R D observed : matching R D observed ∅ [].
Proof.
  constructor.
  - intros o x. by rewrite lookup_empty.
  - intros a b x. by rewrite lookup_empty.
  - intros x. split; [intros [o Ho]; by rewrite lookup_empty in Ho|by intros ?%elem_of_nil].
Qed.

Lemma sibling_assignment_spec s matches R D Inv expected observed st r st' :
  decides matches R D Inv → (∀ st, Inv st → advances Inv st (spend_step st).2) →
  (∀ x, x ∈ expected → D x) → NoDup expected → Inv st →
  sibling_assignment s matches expected observed st = (r, st') →
  advances Inv st st' ∧
  match r with
  | Some pairs => pairs.*1 ≡ₚ expected ∧ NoDup pairs.*2 ∧ ∀ e o, (e, o) ∈ pairs → o ∈ observed ∧ R e o
  | None => exhausted st' = true ∨ ¬ assignable R observed expected
  end.
Proof.
  intros Hm Hsp HD Hnd Hinv. unfold sibling_assignment.
  destruct (Nat.ltb_spec (length observed) (length expected)) as [Hlt|_].
  { intros [= <- <-]. split; [by split|]. right. by apply too_few_candidates. }
  destruct (assign_siblings matches observed (rev expected) ∅ st) as [r1 st1] eqn:E.
  destruct (assign_siblings_spec matches R D Inv observed Hm Hsp (rev expected) [] ∅ st r1 st1) as [Hst Hr];
    try done.
  - intros x Hx. apply HD. by rewrite (Permutation_rev expected).
  - by rewrite app_nil_r, <- Permutation_rev.
  - apply matching_empty.
  - rewrite !app_nil_r in Hr. destruct r1 as [M|]; intros [= <- <-]; (split; [done|]).
    + rewrite rev_involutive in Hr. destruct (matching_pairs R D observed M expected Hr Hnd) as (H1 & H2 & H3).
      set (pairs := map _ (map_to_list M)) in *. set (sorted := sort_by _ pairs).
      assert (sorted ≡ₚ pairs) as Hp by apply sort_by_Permutation.
      split_and!; [by rewrite Hp|by rewrite Hp|]. intros e o H. apply H3. by rewrite <- Hp.
    + destruct Hr as [?|Hn]; [by left|right]. intros Ha. apply Hn. eapply assignable_sub; [|exact Ha].
      intros x. by rewrite <- Permutation_rev.
Qed.

(** *** The search over two forests *)

Record search_ok (s : CompleteMatchSearch) : Prop := mkSearchOk {
  so_expected_keys : NoDup (node_key <$> expected_nodes s);
  so_observed_ids : NoDup (observed_message_id <$> observed_nodes s);
  so_expected_children key : NoDup (children_of (expected_children s) key);
  so_observed_children id : NoDup (children_of (observed_children s) id);
  so_expected_child key i : i ∈ children_of (expected_children s) key ↔
    ∃ n, expected_nodes s !! i = Some n ∧ node_parent_key n = Some key;
  so_observed_child id i : i ∈ children_of (observed_children s) id ↔
    ∃ m, observed_nodes s !! i = Some m ∧ observed_causation_id m = Some id;
  so_expected_root i : i ∈ expected_roots s ↔
    ∃ n, expected_nodes s !! i = Some n ∧ node_parent_key n = None;
  so_observed_root i : i ∈ observed_roots s ↔
    ∃ m, observed_nodes s !! i = Some m ∧ observed_causation_id m = None;
}.

Lemma search_new_ok g obs :
  NoDup (node_key <$> series_nodes (graph_nodes g)) → series_ok (obs_messages obs) → search_ok (search_new g obs).
Proof.
  intros Hkeys [Hids _]. unfold search_new.
  destruct (sort_nodes_spec node_parent_key (series_nodes (graph_nodes g))) as (er & ec & -> & _ & Hec & Her & Hec').
  destruct (sort_nodes_spec observed_causation_id (series_nodes (obs_messages obs))) as (our & oc & -> & _ & Hocn & Hor & Hoc').
  constructor; cbn [expected_nodes observed_nodes expected_roots observed_roots expected_children observed_children].
  - done.
  - exact Hids.
  - intros key. rewrite children_of_sorted, sort_by_Permutation. apply Hec.
  - intros id. rewrite children_of_sorted, sort_by_Permutation. apply Hocn.
  - intros key i. rewrite children_of_sorted, elem_of_sort_by. apply Hec'.
  - intros id i. rewrite children_of_sorted, elem_of_sort_by. apply Hoc'.
  - apply Her.
  - intros i. rewrite elem_of_sort_by. apply Hor.
Qed.

Context (s : CompleteMatchSearch) (Hs : search_ok s).

Definition expected_below (e : nat) : list nat :=
  match expected_nodes s !! e with Some n => children_of (expected_children s) (node_key n) | None => [] end.
Definition observed_below (o : nat) : list nat :=
  match observed_nodes s !! o with Some m => children_of (observed_children s) (observed_message_id m) | None => [] end.

(** The tree below an expected message embeds into the one below an observed
    message: their contents agree, and different children embed below different
    effects. *)
Inductive embeds : nat → nat → Prop :=
| embeds_intro e o (f : nat → nat) :
    node_matches s e o = true →
    (∀ c, c ∈ expected_below e → f c ∈ observed_below o) →
    (∀ c, c ∈ expected_below e → embeds c (f c)) →
    (∀ c d, c ∈ expected_below e → d ∈ expected_below e → f c = f d → c = d) →
    embeds e o.

(** The tree below an expected message has at most [d] levels. *)
Fixpoint levels (d : nat) (e : nat) : Prop :=
  match d with
  | O => False
  | S d => ∀ c, c ∈ expected_below e → levels d c
  end.

Definition remembers (st : SearchState) : Prop :=
  ∀ e o b, compatibility st !! (e, o) = Some b →
    (b = true → embeds e o) ∧ (b = false → exhausted st = true ∨ ¬ embeds e o).

Lemma remembers_same st st' :
  compatibility st' = compatibility st → (exhausted st = true → exhausted st' = true) → remembers st → remembers st'.
Proof. intros Ec He Hr e o b. rewrite Ec. intros H. destruct (Hr e o b H) as [H1 H2]. naive_solver. Qed.

Lemma spend_advances st : remembers st → advances remembers st (spend_step st).2.
Proof.
  intros Hr. assert (exhausted st = true → exhausted (spend_step st).2 = true) as Hmono.
  { unfold spend_step. by destruct (spend_comparison_step _). }
  split; [|done]. eapply remembers_same; [|done|done]. unfold spend_step. by destruct (spend_comparison_step _).
Qed.

Lemma remember_remembers e o b st :
  remembers st → (b = true → embeds e o) → (b = false → exhausted st = true ∨ ¬ embeds e o) →
  remembers (remember (e, o) b st).
Proof.
  intros Hr Hyes Hno e' o' b' H. cbn in H. apply lookup_insert_Some in H as [[[= <- <-] <-]|[_ H]]; [done|].
  destruct (Hr e' o' b' H). done.
Qed.

Lemma embeds_assignable e o :
  embeds e o ↔ node_matches s e o = true ∧ assignable embeds (observed_below o) (expected_below e).
Proof.
  split.
  - intros [e' o' f Hm Hf He Hi]. split; [done|]. exists f. split; [|done]. intros x Hx. split; auto.
  - intros [Hm (f & Hf & Hi)]. apply (embeds_intro e o f); [done| | |done]; intros c Hc; by apply Hf.
Qed.

Lemma pair_unique (pairs : list (nat * nat)) c d x :
  NoDup pairs.*2 → (c, x) ∈ pairs → (d, x) ∈ pairs → c = d.
Proof.
  intros Hnd [i Hi]%list_elem_of_lookup [j Hj]%list_elem_of_lookup.
  assert (i = j) as ->; [|congruence].
  eapply NoDup_lookup; [exact Hnd|..]; rewrite list_lookup_fmap; [by rewrite Hi|by rewrite Hj].
Qed.

Lemma pairs_assignable R (observed : list nat) pairs expected :
  NoDup expected → pairs.*1 ≡ₚ expected → NoDup pairs.*2 →
  (∀ c x, (c, x) ∈ pairs → x ∈ observed ∧ R c x) → assignable R observed expected.
Proof.
  intros Hnd H1 H2 H3. set (m := list_to_map pairs : gmap nat nat).
  assert (∀ c, c ∈ expected → (c, default 0%nat (m !! c)) ∈ pairs) as Hf.
  { intros c Hc. rewrite <- H1 in Hc. apply list_elem_of_fmap in Hc as ([c' x] & -> & Hin). cbn.
    assert (m !! c' = Some x) as ->; [|done]. apply elem_of_list_to_map; [by rewrite H1|done]. }
  exists (λ c, default 0%nat (m !! c)). split; [by intros c Hc; apply H3, Hf|].
  intros c d Hc Hd E. pose proof (Hf c Hc) as Pc. rewrite E in Pc. by eapply pair_unique; [|exact Pc|apply Hf].
Qed.

Lemma expected_below_NoDup e : NoDup (expected_below e).
Proof. unfold expected_below. destruct (expected_nodes s !! e); [apply (so_expected_children s Hs)|constructor]. Qed.

Lemma subtree_step e o n m d st r st' :
  expected_nodes s !! e = Some n → observed_nodes s !! o = Some m →
  decides (subtree_matches s d) embeds (levels d) remembers →
  levels (S d) e → remembers st →
  sibling_assignment s (subtree_matches s d) (children_of (expected_children s) (node_key n))
    (children_of (observed_children s) (observed_message_id m)) st = (r, st') →
  advances remembers st st' ∧
  match r with
  | Some pairs => pairs.*1 ≡ₚ expected_below e ∧ NoDup pairs.*2
                  ∧ ∀ c x, (c, x) ∈ pairs → x ∈ observed_below o ∧ embeds c x
  | None => exhausted st' = true ∨ ¬ assignable embeds (observed_below o) (expected_below e)
  end.
Proof.
  intros He Ho Hd Hl Hr E. pose proof (expected_below_NoDup e) as Hnd.
  unfold expected_below, observed_below in *. cbn [levels] in Hl. unfold expected_below in Hl. rewrite He, Ho in *.
  by eapply (sibling_assignment_spec s _ embeds (levels d) remembers); [|apply spend_advances|..].
Qed.

Lemma subtree_decides d : decides (subtree_matches s d) embeds (levels d) remembers.
Proof.
  induction d as [|d IH]; intros e o st b st' Hl Hr; [done|]. cbn [subtree_matches].
  destruct (compatibility st !! (e, o)) as [known|] eqn:Ek.
  { intros [= <- <-]. destruct (Hr e o known Ek). by split. }
  pose proof (spend_advances st Hr) as Hst1. destruct (spend_step st) as [spent st1] eqn:Esp. cbn [snd] in Hst1.
  destruct spent; cbn [negb].
  2: { intros [= <- <-]. apply spend_step_false in Esp. split; [done|]. by split; [|left]. }
  destruct (node_matches s e o) eqn:Em; cbn [negb].
  2: { assert (¬ embeds e o) as Hn by (intros [? _]%embeds_assignable; congruence).
       intros [= <- <-]. split; [|by split; [|right]].
       split; [|apply Hst1]. apply remember_remembers; [apply Hst1|done|by right]. }
  unfold node_matches in Em. destruct (expected_nodes s !! e) as [n|] eqn:He; [|done].
  destruct (observed_nodes s !! o) as [m|] eqn:Ho; [|done].
  destruct (sibling_assignment _ _ _ _ st1) as [r st2] eqn:Ea.
  destruct (subtree_step e o n m d st1 r st2 He Ho IH Hl (proj1 Hst1) Ea) as [Hst2 Hres].
  assert (node_matches s e o = true) as Hmatch by (unfold node_matches; by rewrite He, Ho).
  assert ((is_some r = true → embeds e o) ∧ (is_some r = false → exhausted st2 = true ∨ ¬ embeds e o)) as [Hyes Hno].
  { rewrite embeds_assignable. destruct r as [pairs|]; cbn; split; try done.
    - intros _. split; [done|]. destruct Hres as (H1 & H2 & H3).
      by apply (pairs_assignable _ _ pairs); [apply expected_below_NoDup|..].
    - intros _. destruct Hres as [?|Hn]; [by left|right]. by intros [_ ?]. }
  intros [= <- <-]. split; [|done]. split; [by apply remember_remembers; [apply Hst2|..]|].
  intros Hx. by apply Hst2, Hst1.
Qed.

(** *** Descendants *)

(** [i] is [k] levels below [e]. *)
Inductive below (e : nat) : nat → nat → Prop :=
| below_here : below e 0 e
| below_child k p c : below e k p → c ∈ expected_below p → below e (S k) c.

Lemma expected_below_child p c :
  c ∈ expected_below p ↔ ∃ n m, expected_nodes s !! p = Some n ∧ expected_nodes s !! c = Some m
    ∧ node_parent_key m = Some (node_key n).
Proof.
  unfold expected_below. destruct (expected_nodes s !! p) as [n|].
  - rewrite (so_expected_child s Hs). naive_solver.
  - split; [by intros ?%elem_of_nil|naive_solver].
Qed.

Lemma observed_below_child o x :
  x ∈ observed_below o ↔ ∃ n m, observed_nodes s !! o = Some n ∧ observed_nodes s !! x = Some m
    ∧ observed_causation_id m = Some (observed_message_id n).
Proof.
  unfold observed_below. destruct (observed_nodes s !! o) as [n|].
  - rewrite (so_observed_child s Hs). naive_solver.
  - split; [by intros ?%elem_of_nil|naive_solver].
Qed.

Lemma expected_index_unique i j n m :
  expected_nodes s !! i = Some n → expected_nodes s !! j = Some m → node_key n = node_key m → i = j.
Proof.
  intros Hi Hj E. eapply NoDup_lookup; [apply (so_expected_keys s Hs)|..]; rewrite list_lookup_fmap;
    [by rewrite Hi|by rewrite Hj, E].
Qed.

Lemma observed_index_unique i j n m :
  observed_nodes s !! i = Some n → observed_nodes s !! j = Some m →
  observed_message_id n = observed_message_id m → i = j.
Proof.
  intros Hi Hj E. eapply NoDup_lookup; [apply (so_observed_ids s Hs)|..]; rewrite list_lookup_fmap;
    [by rewrite Hi|by rewrite Hj, E].
Qed.

Lemma parent_unique p q c : c ∈ expected_below p → c ∈ expected_below q → p = q.
Proof.
  intros (n & m & Hp & Hc & E)%expected_below_child (n' & m' & Hq & Hc' & E')%expected_below_child.
  rewrite Hc in Hc'. injection Hc' as <-. rewrite E in E'. injection E' as E'. by eapply expected_index_unique.
Qed.

Lemma below_up e e' k i : below e k i → below e' k i → e = e'.
Proof.
  revert i. induction k as [|k IH]; intros i H H'; inversion H; inversion H'; subst; [done|].
  match goal with Hp : i ∈ expected_below ?p, Hq : i ∈ expected_below ?q |- _ =>
    assert (p = q) as -> by exact (parent_unique _ _ _ Hp Hq) end.
  by eapply IH.
Qed.

Lemma below_split e k j i : below e (k + j) i → ∃ a, below e k a ∧ below a j i.
Proof.
  revert i. induction j as [|j IH]; intros i H.
  - rewrite Nat.add_0_r in H. exists i. split; [done|constructor].
  - rewrite Nat.add_succ_r in H. inversion H as [|k' p c Hb Hc]; subst.
    destruct (IH p Hb) as (a & H1 & H2). exists a. split; [done|]. by econstructor.
Qed.

Lemma below_trans e a k j i : below e k a → below a j i → below e (j + k) i.
Proof. intros H. induction 1; [done|]. cbn. by econstructor. Qed.

Lemma levels_below d e k i : levels d e → below e k i → ∃ d', d = (k + d')%nat ∧ levels d' i.
Proof.
  intros Hl. induction 1 as [|k p c H (d' & -> & IH) Hc]; [by exists d|].
  destruct d' as [|d']; [done|]. exists d'. split; [lia|]. by apply IH.
Qed.

Lemma no_loop d e k : levels d e → ¬ below e (S k) e.
Proof.
  revert e. induction (lt_wf d) as [d _ IH]. intros e Hl Hb.
  destruct (levels_below d e (S k) e Hl Hb) as (d' & -> & Hl'). eapply (IH d'); [lia|exact Hl'|exact Hb].
Qed.

Lemma siblings_apart d p c c' k k' i :
  levels d p → c ∈ expected_below p → c' ∈ expected_below p → (k <= k')%nat →
  below c k i → below c' k' i → c = c'.
Proof.
  intros Hl Hc Hc' Hk H H'. replace k' with ((k' - k) + k)%nat in H' by lia.
  apply below_split in H' as (a & Ha & Hi). rewrite (below_up _ _ _ _ H Hi) in *. clear H Hi.
  destruct (k' - k)%nat as [|j]; [by inversion Ha|]. exfalso.
  inversion Ha as [|j' q x Hq Hx]; subst. rewrite (parent_unique _ _ _ Hx Hc) in Hq.
  apply (no_loop d p j Hl). rewrite <- Nat.add_1_r. eapply below_trans; [|exact Hq].
  econstructor; [constructor|done].
Qed.

Lemma siblings_disjoint d p c c' k k' i :
  levels d p → c ∈ expected_below p → c' ∈ expected_below p → below c k i → below c' k' i → c = c'.
Proof.
  intros Hl Hc Hc' H H'. destruct (Nat.le_ge_cases k k').
  - by eapply siblings_apart.
  - symmetry. by eapply siblings_apart.
Qed.

(** *** Writing an assignment down *)

(** [A] assigns the tree below [e] to what is below [o]. *)
Inductive placed_below (A : gmap string string) : nat → nat → Prop :=
| placed_intro e o n m (f : nat → nat) :
    expected_nodes s !! e = Some n → observed_nodes s !! o = Some m →
    A !! node_key n = Some (observed_message_id m) → content_matches n m (search_observed s) = true →
    (∀ c, c ∈ expected_below e → f c ∈ observed_below o) →
    (∀ c, c ∈ expected_below e → placed_below A c (f c)) →
    (∀ c d, c ∈ expected_below e → d ∈ expected_below e → f c = f d → c = d) →
    placed_below A e o.

(** A key of the tree below [e] *)
Definition key_below (e : nat) (key : string) : Prop :=
  ∃ k i n, below e k i ∧ expected_nodes s !! i = Some n ∧ node_key n = key.

Lemma key_below_child e c key : c ∈ expected_below e → key_below c key → key_below e key.
Proof.
  intros Hc (k & i & n & Hb & Hi & E). exists (k + 1)%nat, i, n. split; [|done].
  eapply below_trans; [|exact Hb]. econstructor; [constructor|done].
Qed.

Lemma placed_frame A A' e o :
  (∀ key, key_below e key → A' !! key = A !! key) → placed_below A e o → placed_below A' e o.
Proof.
  intros Hf H. revert Hf. induction H as [e o n m f He Ho HA Hc Hf Hp IH Hi]; intros Hframe.
  apply (placed_intro A' e o n m f); try done.
  - rewrite Hframe; [done|]. exists 0%nat, e, n. split; [constructor|done].
  - intros c Hc'. apply IH; [done|]. intros key Hk. apply Hframe. by eapply key_below_child.
Qed.

Lemma key_below_disjoint d p c c' key :
  levels d p → c ∈ expected_below p → c' ∈ expected_below p → key_below c key → key_below c' key → c = c'.
Proof.
  intros Hl Hc Hc' (k & i & n & Hb & Hi & E) (k' & i' & n' & Hb' & Hi' & E').
  assert (i = i') as <- by (eapply expected_index_unique; [exact Hi|exact Hi'|congruence]).
  by eapply siblings_disjoint.
Qed.

Definition materializes (recurse : nat → nat → gmap string string → SearchState →
    bool * gmap string string * SearchState) (d : nat) : Prop :=
  ∀ e o A st b A' st', levels d e → remembers st → embeds e o → recurse e o A st = (b, A', st') →
    advances remembers st st' ∧ (∀ key, ¬ key_below e key → A' !! key = A !! key)
    ∧ (b = true → placed_below A' e o) ∧ (b = false → exhausted st' = true).

Lemma materialize_pairs_spec recurse d p pairs : ∀ A st b A' st',
  materializes recurse d → levels (S d) p → (∀ c, c ∈ pairs.*1 → c ∈ expected_below p) → NoDup pairs.*1 →
  (∀ c x, (c, x) ∈ pairs → embeds c x) → remembers st →
  materialize_pairs recurse pairs A st = (b, A', st') →
  advances remembers st st' ∧ (∀ key, (∀ c, c ∈ pairs.*1 → ¬ key_below c key) → A' !! key = A !! key)
  ∧ (b = true → ∀ c x, (c, x) ∈ pairs → placed_below A' c x) ∧ (b = false → exhausted st' = true).
Proof.
  induction pairs as [|[c x] pairs IH]; intros A st b A' st' Hrec Hl Hin Hnd He Hr; cbn [materialize_pairs].
  { intros [= <- <- <-]. split_and!; [by split|done| |done]. by intros _ ? ? ?%elem_of_nil. }
  destruct (recurse c x A st) as [[ok A1] st1] eqn:E1. cbn [fmap list_fmap fst] in Hnd, Hin.
  apply NoDup_cons in Hnd as [Hc Hnd]. assert (c ∈ expected_below p) as Hcp by (apply Hin; left).
  destruct (Hrec c x A st ok A1 st1) as (Hst1 & Hf1 & Hyes & Hno); [by apply Hl|done|apply He; left|done|].
  destruct ok; cbn [negb].
  - intros Hrest. destruct (IH A1 st1 b A' st') as (Hst' & Hf' & Hyes' & Hno'); try done.
    + intros c' Hc'. apply Hin. by right.
    + intros c' x' H. apply He. by right.
    + apply Hst1.
    + split_and!; [by eapply advances_trans| |intros Hb c' x' [[= -> ->]|H]%elem_of_cons|done].
      * intros key Hk. rewrite Hf', Hf1; [done|apply Hk; left|]. intros c' Hc'. apply Hk. by right.
      * apply (placed_frame A1); [|by apply Hyes]. intros key Hk. apply Hf'. intros c'' Hc'' Hk''.
        apply Hc. assert (c = c'') as ->; [|done]. eapply key_below_disjoint; [exact Hl|done| |done|done]. apply Hin. by right.
      * by apply Hyes'.
  - intros [= <- <- <-]. split_and!; [done| |done|by intros _; apply Hno]. intros key Hk. apply Hf1, Hk. left.
Qed.

Lemma materialize_spec d : materializes (materialize s d) d.
Proof.
  induction d as [|d IH]; intros e o A st b A' st' Hl Hr He; [done|]. cbn [materialize].
  pose proof (proj1 (embeds_assignable e o) He) as [Hm Has]. unfold node_matches in Hm.
  destruct (expected_nodes s !! e) as [n|] eqn:Hn; [|done]. destruct (observed_nodes s !! o) as [m|] eqn:Ho; [|done].
  destruct (sibling_assignment _ _ _ _ st) as [r st1] eqn:Ea.
  destruct (subtree_step e o n m d st r st1 Hn Ho (subtree_decides d) Hl Hr Ea) as [Hst1 Hres].
  assert (key_below e (node_key n)) as Hkey by (exists 0%nat, e, n; split; [constructor|done]).
  assert (∀ key, ¬ key_below e key → <[node_key n := observed_message_id m]> A !! key = A !! key) as Hins.
  { intros key Hk. rewrite lookup_insert_ne; [done|]. by intros <-. }
  destruct r as [pairs|].
  2: { intros [= <- <- <-]. destruct Hres as [?|Hn']; [by split_and!|done]. }
  destruct Hres as (H1 & H2 & H3). pose proof (expected_below_NoDup e) as Hnd.
  intros Hp. apply (materialize_pairs_spec _ d e) in Hp as (Hst' & Hf & Hyes & Hno); try done.
  - split_and!; [by eapply advances_trans| |intros Hb|done].
    + intros key Hk. rewrite Hf; [by apply Hins|]. intros c Hc Hkc. apply Hk. eapply key_below_child; [|done].
      by rewrite <- H1.
    + destruct (pairs_assignable (placed_below A') (observed_below o) pairs (expected_below e)) as (f & Hf' & Hi); try done.
      { intros c x Hcx. split; [exact (proj1 (H3 c x Hcx))|by apply Hyes]. }
      apply (placed_intro A' e o n m f); try done; [|intros c Hc; by apply Hf'..].
      rewrite Hf; [apply lookup_insert_eq|]. intros c Hc (k & i & n' & Hb' & Hi' & E). rewrite H1 in Hc.
      assert (i = e) as -> by by eapply expected_index_unique.
      eapply (no_loop (S d) e k Hl). rewrite <- Nat.add_1_r. eapply below_trans; [|exact Hb']. econstructor; [constructor|done].
  - intros c Hc. by rewrite <- H1.
  - by rewrite H1.
  - intros c x Hcx. exact (proj2 (H3 c x Hcx)).
  - apply Hst1.
Qed.

(** *** Assignments of a whole graph *)

(** Every expected message is assigned an observed one of its content, the root to
    a message without a cause, every other to an effect of what its parent is
    assigned to, and no two to the same. *)
Record embedding (nodes : list ExpectedMessageNode) (obs : ObservedMessageSeries) (A : gmap string string)
  : Prop := mkEmbedding {
  em_keys key : is_Some (A !! key) → ∃ n, n ∈ nodes ∧ node_key n = key;
  em_node n : n ∈ nodes → ∃ m, m ∈ series_nodes (obs_messages obs)
    ∧ A !! node_key n = Some (observed_message_id m) ∧ content_matches n m obs = true
    ∧ match node_parent_key n with
      | None => observed_causation_id m = None
      | Some parent => is_Some (A !! parent) ∧ observed_causation_id m = A !! parent
      end;
  em_inj k1 k2 id : A !! k1 = Some id → A !! k2 = Some id → k1 = k2;
}.

Context (obs : ObservedMessageSeries) (Hobs : observed_nodes s = series_nodes (obs_messages obs))
  (Hseries : search_observed s = obs) (Hgraph : graph_ok (expected_nodes s)).

Lemma placed_unique A i x y : placed_below A i x → placed_below A i y → x = y.
Proof.
  intros H1 H2. destruct H1 as [i x n m f Hi Hx HA _ _ _ _]. destruct H2 as [i y n' m' f' Hi' Hy HA' _ _ _ _].
  rewrite Hi in Hi'. injection Hi' as <-. rewrite HA in HA'. injection HA' as E.
  by eapply observed_index_unique.
Qed.

Lemma placed_same A i j x y n p :
  placed_below A i x → placed_below A j y → expected_nodes s !! i = Some n → expected_nodes s !! j = Some p →
  A !! node_key n = A !! node_key p → x = y.
Proof.
  intros H1 H2 Hi Hj E. destruct H1 as [i x n1 m f Hi1 Hx HA _ _ _ _].
  destruct H2 as [j y n2 m' f' Hj2 Hy HA' _ _ _ _]. simplify_eq. rewrite HA, HA' in E. injection E as E.
  by eapply observed_index_unique.
Qed.

(** Where a placed tree puts a node *)
Definition position_of (A : gmap string string) (o : nat) (n : ExpectedMessageNode) (i x : nat) : Prop :=
  expected_nodes s !! i = Some n ∧ placed_below A i x
  ∧ match node_parent_key n with
    | None => x = o
    | Some _ => ∃ j y, placed_below A j y ∧ i ∈ expected_below j ∧ x ∈ observed_below y
    end.

Lemma placed_positions A r o root n d :
  expected_nodes s !! r = Some root →
  (∀ n, n ∈ expected_nodes s → node_parent_key n = None → n = root) →
  placed_below A r o → at_depth (expected_nodes s) n d → ∃ i x, position_of A o n i x.
Proof.
  intros Hr Hroot Hp. induction 1 as [n Hn Hnp|n p d Hn Hnp H IH].
  - assert (n = root) as -> by auto. exists r, o. unfold position_of. by rewrite Hnp.
  - destruct IH as (j & y & Hj & Hpj & _). apply list_elem_of_lookup in Hn as [i Hi].
    assert (i ∈ expected_below j) as Hij by (apply expected_below_child; by exists p, n).
    pose proof Hpj as Hpj'. destruct Hpj' as [j y p' m f Hj' Hy HA Hc Hf Hpl Hinj].
    exists i, (f i). unfold position_of. rewrite Hnp. split_and!; [done|by apply Hpl|].
    exists j, y. split_and!; [done..|by apply Hf].
Qed.

Lemma observed_below_causation x y m :
  x ∈ observed_below y → observed_nodes s !! x = Some m → is_Some (observed_causation_id m).
Proof. intros (n & m' & _ & Hx & E)%observed_below_child Hm. simplify_eq. by eexists. Qed.

Lemma observed_below_unique x y z : x ∈ observed_below y → x ∈ observed_below z → y = z.
Proof.
  intros (n & m & Hy & Hx & E)%observed_below_child (n' & m' & Hz & Hx' & E')%observed_below_child.
  rewrite Hx in Hx'. injection Hx' as <-. rewrite E in E'. injection E' as E'. by eapply observed_index_unique.
Qed.

Lemma placed_observed A i x : placed_below A i x → ∃ m, observed_nodes s !! x = Some m.
Proof. destruct 1 as [i x n m f _ Hx _ _ _ _ _]. by exists m. Qed.

Lemma placed_injective A r o root mo n1 n2 d1 d2 :
  expected_nodes s !! r = Some root →
  (∀ n, n ∈ expected_nodes s → node_parent_key n = None → n = root) →
  observed_nodes s !! o = Some mo → observed_causation_id mo = None → placed_below A r o →
  at_depth (expected_nodes s) n1 d1 → at_depth (expected_nodes s) n2 d2 →
  A !! node_key n1 = A !! node_key n2 → n1 = n2.
Proof.
  intros Hr Hroot Ho Hmo Hp H1. revert n2 d2.
  induction H1 as [n1 Hn1 Hp1|n1 p1 d1 Hn1 Hp1 H1 IH]; intros n2 d2 H2 E;
    destruct (placed_positions A r o root n2 d2 Hr Hroot Hp H2) as (i2 & x2 & Hi2 & Hx2 & Hpos2).
  - destruct (placed_positions A r o root n1 0 Hr Hroot Hp) as (i1 & x1 & Hi1 & Hx1 & Hpos1); [by constructor|].
    rewrite Hp1 in Hpos1. subst x1. assert (o = x2) as <- by by eapply placed_same.
    destruct (node_parent_key n2) as [k|] eqn:Hp2.
    + destruct Hpos2 as (j & y & _ & _ & Hy). destruct (observed_below_causation _ _ _ Hy Ho). congruence.
    + rewrite (Hroot n1 Hn1 Hp1). symmetry. apply Hroot; [|done]. by eapply at_depth_in.
  - destruct (placed_positions A r o root n1 (S d1) Hr Hroot Hp) as (i1 & x1 & Hi1 & Hx1 & Hpos1); [by econstructor|].
    rewrite Hp1 in Hpos1. destruct Hpos1 as (j1 & y1 & Hj1 & Hij1 & Hxy1).
    assert (x1 = x2) as <- by by eapply placed_same.
    destruct (node_parent_key n2) as [k|] eqn:Hp2.
    2: { subst x1. destruct (observed_below_causation _ _ _ Hxy1 Ho). congruence. }
    destruct Hpos2 as (j2 & y2 & Hj2 & Hij2 & Hxy2). assert (y1 = y2) as <- by by eapply observed_below_unique.
    assert (j1 = j2) as <-.
    { apply expected_below_child in Hij1 as (q1 & m1 & Hq1 & Hm1 & Eq1).
      apply expected_below_child in Hij2 as (q2 & m2 & Hq2 & Hm2 & Eq2).
      destruct (placed_observed _ _ _ Hj1) as [my Hmy]. simplify_eq.
      assert (p1 = q1) as <-.
      { eapply key_unique; [apply (so_expected_keys s Hs)|by eapply at_depth_in|by eapply list_elem_of_lookup_2|congruence]. }
      destruct (graph_depth _ Hgraph q2) as (d & _ & Hd); [by eapply list_elem_of_lookup_2|].
      assert (p1 = q2) as ->; [|by eapply expected_index_unique]. apply (IH q2 d Hd).
      destruct Hj1 as [j1 y1 n1' m1' f1 Ha1 Hb1 HA1 _ _ _ _]. destruct Hj2 as [j2 y1 n2' m2' f2 Ha2 Hb2 HA2 _ _ _ _].
      simplify_eq. by rewrite HA1, HA2. }
    pose proof Hj1 as Hj1'. destruct Hj1' as [j1 y1 q m f Hq Hy HA Hc Hf Hpl Hinj].
    assert (f i1 = x1) as E1 by (eapply placed_unique; [by apply Hpl|done]).
    assert (f i2 = x1) as E2 by (eapply placed_unique; [by apply Hpl|done]).
    assert (i1 = i2) as <- by (apply Hinj; congruence). congruence.
Qed.

Lemma placed_embedding A r o root :
  expected_nodes s !! r = Some root → o ∈ observed_roots s →
  (∀ n, n ∈ expected_nodes s → node_parent_key n = None → n = root) →
  placed_below A r o → (∀ key, ¬ key_below r key → A !! key = None) → embedding (expected_nodes s) obs A.
Proof.
  intros Hr (mo & Ho & Hmo)%(so_observed_root s Hs) Hroot Hp Hdom.
  assert (∀ key, is_Some (A !! key) → ∃ n, n ∈ expected_nodes s ∧ node_key n = key) as Hkeys.
  { intros key HA. destruct (decide (key ∈ node_key <$> expected_nodes s)) as [(n & -> & Hn)%list_elem_of_fmap|Hk]; [by exists n|].
    exfalso. destruct HA as [id HA]. rewrite Hdom in HA; [done|]. intros (k & i & n & _ & Hi & <-).
    apply Hk, list_elem_of_fmap_2. by eapply list_elem_of_lookup_2. }
  constructor; [done| |].
  - intros n Hn. destruct (graph_depth _ Hgraph n Hn) as (d & _ & Hd).
    destruct (placed_positions A r o root n d Hr Hroot Hp Hd) as (i & x & Hi & Hx & Hpos).
    pose proof Hx as Hx'. destruct Hx' as [i x n' m f Hi' Hxm HA Hc _ _ _]. rewrite Hi in Hi'. injection Hi' as <-.
    exists m. split_and!; [rewrite <- Hobs; by eapply list_elem_of_lookup_2|done|by rewrite <- Hseries|].
    destruct (node_parent_key n) as [k|] eqn:Hk; [|subst x; congruence].
    destruct Hpos as (j & y & Hj & (p & n' & Hpj & Hni & Ek)%expected_below_child & (m' & m'' & Hy & Hx2 & Ec)%observed_below_child).
    rewrite Hi in Hni. injection Hni as <-. rewrite Hk in Ek. injection Ek as ->.
    rewrite Hxm in Hx2. injection Hx2 as <-.
    destruct Hj as [j y p' my g Hpj' Hy' HA' _ _ _ _]. rewrite Hpj in Hpj'. injection Hpj' as <-.
    rewrite Hy in Hy'. injection Hy' as <-. rewrite HA'. split; [by eexists|done].
  - intros k1 k2 id H1 H2. destruct (Hkeys k1) as (n1 & Hn1 & <-); [by eexists|].
    destruct (Hkeys k2) as (n2 & Hn2 & <-); [by eexists|].
    destruct (graph_depth _ Hgraph n1 Hn1) as (d1 & _ & Hd1). destruct (graph_depth _ Hgraph n2 Hn2) as (d2 & _ & Hd2).
    f_equal. eapply (placed_injective A r o root mo); try done. congruence.
Qed.

(** The index an assignment gives *)
Definition index_of (A : gmap string string) (i : nat) : nat :=
  match expected_nodes s !! i with
  | Some n => from_option fst 0%nat (list_find (λ m, Some (observed_message_id m) = A !! node_key n) (observed_nodes s))
  | None => 0%nat
  end.

Lemma index_of_spec A i n m :
  expected_nodes s !! i = Some n → m ∈ observed_nodes s → A !! node_key n = Some (observed_message_id m) →
  observed_nodes s !! index_of A i = Some m.
Proof.
  intros Hi Hm HA. unfold index_of. rewrite Hi.
  destruct (list_find_elem_of (λ m, Some (observed_message_id m) = A !! node_key n) (observed_nodes s) m Hm) as [[j m'] Hf];
    [by rewrite HA|].
  rewrite Hf. cbn. apply list_find_Some in Hf as (Hj & E & _). rewrite HA in E. injection E as E.
  apply list_elem_of_lookup in Hm as [j' Hj']. by rewrite (observed_index_unique j j' m' m Hj Hj' E).
Qed.

Lemma embedding_embeds A : embedding (expected_nodes s) obs A →
  ∀ d e n, expected_nodes s !! e = Some n → levels d e → embeds e (index_of A e).
Proof.
  intros [Hk Hn Hi]. induction d as [|d IH]; intros e n He Hl; [done|].
  destruct (Hn n) as (m & Hm & HA & Hc & _); [by eapply list_elem_of_lookup_2|]. rewrite <- Hobs in Hm.
  pose proof (index_of_spec A e n m He Hm HA) as Hx.
  assert (∀ c, c ∈ expected_below e → ∃ nc mc, expected_nodes s !! c = Some nc ∧ observed_nodes s !! index_of A c = Some mc
    ∧ A !! node_key nc = Some (observed_message_id mc) ∧ observed_causation_id mc = Some (observed_message_id m)) as Hchild.
  { intros c (n' & nc & He' & Hnc & Ep)%expected_below_child. rewrite He in He'. injection He' as <-.
    destruct (Hn nc) as (mc & Hmc & HAc & _ & Hcause); [by eapply list_elem_of_lookup_2|]. rewrite <- Hobs in Hmc.
    rewrite Ep, HA in Hcause. exists nc, mc. split_and!; [done|by eapply index_of_spec|done|apply Hcause]. }
  apply (embeds_intro e _ (index_of A)).
  - unfold node_matches. by rewrite He, Hx, Hseries.
  - intros c Hc'. destruct (Hchild c Hc') as (nc & mc & Hnc & Hmc & _ & Hcause).
    apply observed_below_child. by exists m, mc.
  - intros c Hc'. destruct (Hchild c Hc') as (nc & _ & Hnc & _). eapply IH; [done|]. by apply Hl.
  - intros c c' Hc1 Hc2 E. destruct (Hchild c Hc1) as (nc & mc & Hnc & Hmc & HAc & _).
    destruct (Hchild c' Hc2) as (nc' & mc' & Hnc' & Hmc' & HAc' & _). rewrite E, Hmc' in Hmc. injection Hmc as ->.
    eapply expected_index_unique; [done..|]. by eapply Hi.
Qed.

(** *** Levels *)

Lemma graph_levels e n d :
  expected_nodes s !! e = Some n → at_depth (expected_nodes s) n d → levels (search_depth - d) e.
Proof.
  assert (∀ k e n d, expected_nodes s !! e = Some n → at_depth (expected_nodes s) n d →
    (search_depth - d <= k)%nat → levels (search_depth - d) e) as H.
  { intros k. induction k as [|k IH]; intros e' n' d' He Hd Hk.
    - exfalso. destruct (graph_depth _ Hgraph n') as (d2 & Hle & Hd2); [by eapply list_elem_of_lookup_2|].
      rewrite (at_depth_unique _ _ _ _ (graph_keys _ Hgraph) Hd Hd2) in Hk. unfold search_depth in Hk. lia.
    - destruct (search_depth - d')%nat as [|room] eqn:E.
      + exfalso. destruct (graph_depth _ Hgraph n') as (d2 & Hle & Hd2); [by eapply list_elem_of_lookup_2|].
        rewrite (at_depth_unique _ _ _ _ (graph_keys _ Hgraph) Hd Hd2) in E. unfold search_depth in E. lia.
      + cbn [levels]. intros c (p & nc & Hp & Hc & Ep)%expected_below_child. rewrite He in Hp. injection Hp as <-.
        assert (at_depth (expected_nodes s) nc (S d')) as Hdc by (econstructor; [by eapply list_elem_of_lookup_2|done|done]).
        replace room with (search_depth - S d')%nat by lia. apply (IH c nc); [done|done|lia]. }
  intros He Hd. by eapply H.
Qed.

(** The search finds an embedding if there is one, unless its steps run out. *)
Lemma assign_roots_spec r root roots : ∀ st,
  expected_nodes s !! r = Some root → node_parent_key root = None →
  (∀ n, n ∈ expected_nodes s → node_parent_key n = None → n = root) →
  (∀ o, o ∈ roots → o ∈ observed_roots s) → remembers st →
  match assign_roots s r roots st with
  | Complete A => embedding (expected_nodes s) obs A
  | Incomplete _ => ∀ o, o ∈ roots → ¬ embeds r o
  | Exhausted => True
  end.
Proof.
  induction roots as [|o roots IH]; intros st Hr Hp Hroot Hin Hst; cbn [assign_roots].
  { by intros o ?%elem_of_nil. }
  assert (levels search_depth r) as Hl.
  { rewrite <- (Nat.sub_0_r search_depth). eapply graph_levels; [exact Hr|].
    constructor; [by eapply list_elem_of_lookup_2|done]. }
  destruct (subtree_matches s search_depth r o st) as [b st1] eqn:E1.
  destruct (subtree_decides search_depth r o st b st1 Hl Hst E1) as (Hst1 & Hyes & Hno).
  assert (∀ st, remembers st → ¬ embeds r o →
    match assign_roots s r roots st with
    | Complete A => embedding (expected_nodes s) obs A
    | Incomplete _ => ∀ o', o' ∈ o :: roots → ¬ embeds r o'
    | Exhausted => True
    end) as Hnext.
  { intros st' Hst' Hn. specialize (IH st' Hr Hp Hroot (λ x Hx, Hin x (list_elem_of_further _ _ _ Hx)) Hst').
    destruct (assign_roots s r roots st') as [A|n|]; [done| |done].
    intros o' [->|Ho']%elem_of_cons; [done|by apply IH]. }
  destruct b; cbn [negb].
  - destruct (materialize s search_depth r o ∅ st1) as [[ok A] st2] eqn:E2.
    destruct (materialize_spec search_depth r o ∅ st1 ok A st2 Hl (proj1 Hst1) (Hyes eq_refl) E2) as (Hst2 & Hf & Hplaced & Hfail).
    destruct ok; [|by rewrite (Hfail eq_refl)].
    apply (placed_embedding A r o root); [done|apply Hin; left|done|by apply Hplaced|].
    intros key Hk. rewrite Hf by done. apply lookup_empty.
  - destruct (exhausted st1) eqn:Ex; [done|]. apply Hnext; [apply Hst1|].
    destruct (Hno eq_refl) as [?|?]; [congruence|done].
Qed.

Lemma search_assignment_spec :
  match search_assignment s with
  | Complete A => embedding (expected_nodes s) obs A
  | Incomplete _ => ∀ A, ¬ embedding (expected_nodes s) obs A
  | Exhausted => True
  end.
Proof.
  destruct (graph_root _ Hgraph) as (root & Hin & Hp & _ & Hu). unfold search_assignment.
  apply list_elem_of_lookup in Hin as [i Hi].
  assert (i ∈ expected_roots s) as Hir by (apply (so_expected_root s Hs); by exists root).
  destruct (expected_roots s) as [|r rs] eqn:Er; [by apply elem_of_nil in Hir|]. cbn [head].
  destruct (proj1 (so_expected_root s Hs r)) as (n & Hr & Hnp); [rewrite Er; left|].
  assert (n = root) as -> by (apply Hu; [by eapply list_elem_of_lookup_2|done]).
  pose proof (assign_roots_spec r root (observed_roots s) state_new Hr Hp Hu (λ o H, H)) as H.
  assert (remembers state_new) as Hnew by (intros e o b He; cbn in He; by rewrite lookup_empty in He).
  specialize (H Hnew). destruct (assign_roots _ _ _ _) as [A|left|]; [done| |done].
  intros A HA. assert (levels search_depth r) as Hl.
  { rewrite <- (Nat.sub_0_r search_depth). eapply graph_levels; [exact Hr|].
    constructor; [by eapply list_elem_of_lookup_2|done]. }
  eapply H; [|by eapply embedding_embeds].
  destruct (em_node _ _ _ HA root) as (m & Hm & HAm & _ & Hc); [by eapply list_elem_of_lookup_2|]. rewrite Hp in Hc.
  apply (so_observed_root s Hs). exists m. split; [|done]. apply (index_of_spec A r root); [done|by rewrite Hobs|done].
Qed.
End Search.

Lemma map_nil_iff {A B} (f : A → B) l : map f l = [] ↔ l = [].
Proof. by destruct l. Qed.

Lemma list_eq_nil_elem {A} (l : list A) : (∀ x, x ∉ l) → l = [].
Proof. destruct l as [|x l]; [done|]. intros H. destruct (H x). left. Qed.

(** ** What passing means *)

Section Exactness.
Context `{JT : JsonText} `{NE : !EqDecision Number} `{HO : HashMapOrder} `{DJ : !DocumentJson}.

(** Every cause was observed, in the same correlation and before its effects, and
    every outcome is one of an observed command of its correlation. *)
Record well_structured (obs : ObservedMessageSeries) : Prop := mkWellStructured {
  ws_causes m id : m ∈ series_nodes (obs_messages obs) → observed_causation_id m = Some id →
    ∃ p, p ∈ series_nodes (obs_messages obs) ∧ observed_message_id p = id
      ∧ observed_correlation_id m = observed_correlation_id p;
  ws_acyclic ns : ¬ causal_cycle (obs_messages obs) ns;
  ws_outcomes o : o ∈ obs_command_outcomes obs →
    ∃ m, m ∈ series_nodes (obs_messages obs) ∧ observed_message_id m = oco_command_message_id o
      ∧ observed_is_command m = true ∧ observed_correlation_id m = oco_correlation_id o;
}.

(** Everything was observed before the deadline and before settling. *)
Definition on_time (obs : ObservedMessageSeries) (context : MessageSeriesComparisonContext) : Prop :=
  ∀ order boundary, order ∈ all_orders obs →
    Some boundary ∈ [timeout_observation_order context; settle_started_at_order context;
                     settle_completed_at_order context] → order < boundary.

Definition covers (obs : ObservedMessageSeries) (A : gmap string string) : Prop :=
  ∀ m, m ∈ series_nodes (obs_messages obs) → ∃ key, A !! key = Some (observed_message_id m).

(** What a comparison is meant to accept *)
Definition as_expected (g : MessageGraphDefinition) (obs : ObservedMessageSeries)
    (context : MessageSeriesComparisonContext) (A : gmap string string) : Prop :=
  embedding (series_nodes (graph_nodes g)) obs A ∧ covers obs A ∧ well_structured obs ∧ on_time obs context.

Lemma reached_false boundary order :
  is_some_and (λ boundary, boundary <=? order) boundary = false ↔ ∀ b, boundary = Some b → order < b.
Proof. rewrite is_some_and_false. split; intros H b E; [apply N.leb_gt|rewrite N.leb_gt]; auto. Qed.

Lemma observation_timing_nil kind id order context :
  diagnose_observation_timing kind id order context = [] ↔
  ∀ boundary, Some boundary ∈ [timeout_observation_order context; settle_started_at_order context;
                               settle_completed_at_order context] → order < boundary.
Proof.
  assert ((∀ boundary, Some boundary ∈ [timeout_observation_order context; settle_started_at_order context;
                               settle_completed_at_order context] → order < boundary) ↔
    is_some_and (λ boundary, boundary <=? order) (timeout_observation_order context) = false
    ∧ is_some_and (λ boundary, boundary <=? order) (settle_started_at_order context) = false
    ∧ is_some_and (λ boundary, boundary <=? order) (settle_completed_at_order context) = false) as ->.
  { rewrite !reached_false. split.
    - intros H. split_and!; intros b E; apply H; rewrite E; set_solver.
    - intros (H1 & H2 & H3) b. rewrite !elem_of_cons. intros [E|[E|[E|[]%elem_of_nil]]]; eauto. }
  unfold diagnose_observation_timing.
  destruct kind, (is_some_and _ (timeout_observation_order context)), (is_some_and _ (settle_completed_at_order context)),
    (is_some_and _ (settle_started_at_order context)); cbn; split; try done; by intros (? & ? & ?).
Qed.

Lemma timing_nil obs context : diagnose_timing obs context [] = [] ↔ on_time obs context.
Proof.
  unfold diagnose_timing. rewrite bool_decide_true by done. cbn [negb]. rewrite andb_false_r. cbn [app].
  rewrite app_nil, !concat_map_nil. setoid_rewrite observation_timing_nil. unfold on_time, all_orders. split.
  - intros [Hm Ho] order boundary [(m & -> & Hin)%list_elem_of_fmap|(o & -> & Hin)%list_elem_of_fmap]%elem_of_app; eauto.
  - intros H. split; intros x Hx boundary Hb; (eapply H; [|exact Hb]); apply elem_of_app;
      [left; by apply list_elem_of_fmap_2|right; by apply list_elem_of_fmap_2].
Qed.

Lemma omap_nil {A B} (f : A → option B) l : omap f l = [] ↔ ∀ x, x ∈ l → f x = None.
Proof.
  induction l as [|x l IH]; [split; [by intros _ ? ?%elem_of_nil|done]|]. cbn.
  split.
  - destruct (f x) eqn:E; [done|]. intros H y [->|Hy]%elem_of_cons; [done|by apply IH].
  - intros H. rewrite H by left. apply IH. intros y Hy. apply H. by right.
Qed.

Lemma outcome_issue_None obs o :
  series_ok (obs_messages obs) →
  outcome_issue obs o = None ↔
  ∃ m, m ∈ series_nodes (obs_messages obs) ∧ observed_message_id m = oco_command_message_id o
    ∧ observed_is_command m = true ∧ observed_correlation_id m = oco_correlation_id o.
Proof.
  intros Hok. unfold outcome_issue.
  destruct (series_get (MSN := ObservedMessageNode_node) (obs_messages obs) (oco_command_message_id o)) as [m|] eqn:E.
  - apply series_get_Some in E as [Hm Eid].
    assert ((∃ m', m' ∈ series_nodes (obs_messages obs) ∧ observed_message_id m' = oco_command_message_id o
      ∧ observed_is_command m' = true ∧ observed_correlation_id m' = oco_correlation_id o) ↔
      observed_is_command m = true ∧ observed_correlation_id m = oco_correlation_id o) as ->.
    { split; [|intros [? ?]; by exists m]. intros (m' & Hm' & E' & ? & ?).
      assert (m' = m) as ->; [|done]. pose proof (series_get_elem _ _ Hok Hm) as G1.
      pose proof (series_get_elem _ _ Hok Hm') as G2. cbn in G1, G2, Eid. congruence. }
    destruct (observed_is_command m); cbn; [|by split; [|intros []]].
    destruct (String.eqb_spec (observed_correlation_id m) (oco_correlation_id o)); cbn; split; try done. by intros [].
  - apply series_get_None in E. split; [done|]. intros (m & Hm & Eid & _). exfalso. apply E.
    rewrite <- Eid. by apply (list_elem_of_fmap_2 observed_message_id).
Qed.

Lemma structure_nil obs :
  series_ok (obs_messages obs) → observed_structure_diagnostics obs = [] ↔ well_structured obs.
Proof.
  intros Hok. unfold observed_structure_diagnostics, outcome_issues.
  rewrite app_nil, !map_nil_iff, omap_nil. setoid_rewrite outcome_issue_None; [|done].
  destruct (topology_issues_spec (obs_messages obs) Hok) as (issues & -> & Hu & Hc & Hcy). cbn [default from_option id].
  split.
  - intros [-> Ho]. constructor; [|intros ns Hns; by apply Hcy, elem_of_nil in Hns|done].
    intros m id Hm Hid. destruct (series_get (MSN := ObservedMessageNode_node) (obs_messages obs) id) as [p|] eqn:Ep.
    + apply series_get_Some in Ep as [Hp Epid]. exists p. split_and!; [done|done|].
      destruct (decide (observed_correlation_id m = observed_correlation_id p)) as [|Hne]; [done|exfalso].
      apply (not_elem_of_nil (CrossCorrelation m p)), Hc. split_and!; [done..| |done]. cbn in *. congruence.
    + exfalso. apply (not_elem_of_nil (UnresolvedParent m)), Hu. split; [done|]. by exists id.
  - intros [Hcause Hac Ho]. split; [|done]. apply list_eq_nil_elem. intros [child|child p|ns] Hin.
    + apply Hu in Hin as (Hch & id & Hid & Hg). destruct (Hcause child id Hch Hid) as (p & Hp & <- & _).
      pose proof (series_get_elem _ _ Hok Hp) as G. cbn in G. congruence.
    + apply Hc in Hin as (Hch & Hp & Hid & Hne). cbn in *. destruct (Hcause child _ Hch Hid) as (q & Hq & E & Ecorr).
      assert (q = p) as ->; [|congruence]. pose proof (series_get_elem _ _ Hok Hp) as G1.
      pose proof (series_get_elem _ _ Hok Hq) as G2. cbn in G1, G2. congruence.
    + by apply (Hac ns), Hcy.
Qed.

(** *** The fallback *)

(** What the fallback keeps as long as it has no complaint: an assignment of the
    messages it went through *)
Record assigns (nodes : list ExpectedMessageNode) (obs : ObservedMessageSeries) (A : gmap string string)
    (ids : gset string) : Prop := mkAssigns {
  as_embedding : embedding nodes obs A;
  as_ids key id : A !! key = Some id → id ∈ ids;
}.

Lemma causal_candidates_spec e parent ids candidates : ∀ remaining found remaining',
  causal_candidates e parent ids candidates remaining = (found, Some remaining') →
  ∀ m, m ∈ found → m ∈ candidates ∧ observed_message_id m ∉ ids
    ∧ match node_parent_key e with
      | None => observed_causation_id m = None
      | Some _ => is_Some parent ∧ observed_causation_id m = parent
      end.
Proof.
  induction candidates as [|c candidates IH]; intros remaining found remaining'; cbn [causal_candidates].
  { intros [= <- _] m ?%elem_of_nil. done. }
  destruct (spend_comparison_step remaining) as [r|]; [|done].
  destruct (causal_candidates _ _ _ _ r) as [found1 [r1|]] eqn:E; [|done].
  specialize (IH r found1 r1 E). intros [= <- <-] m.
  destruct (negb (bool_decide (observed_message_id c ∈ ids)) && _) eqn:Ec.
  - intros [->|Hm]%elem_of_cons.
    + apply andb_prop in Ec as [Hids%negb_true_iff%bool_decide_eq_false Hc]. split_and!; [left|done|].
      destruct (node_parent_key e).
      * destruct parent as [id|]; [|done]. cbn in Hc. apply bool_decide_eq_true in Hc. by split; [eexists|].
      * by destruct (observed_causation_id c).
    + destruct (IH m Hm) as (? & ? & ?). split_and!; [by right|done|done].
  - intros Hm. destruct (IH m Hm) as (? & ? & ?). split_and!; [by right|done|done].
Qed.

Lemma matched_fields_nil e m obs : diagnose_matched_fields e m obs = [] → content_matches e m obs = true.
Proof.
  unfold diagnose_matched_fields, push_field_mismatch, content_matches.
  destruct (bool_decide (node_kind e = observed_kind m)); [|done].
  destruct (String.eqb (node_name e) (observed_name m)); [|done].
  destruct (node_schema_version e =? observed_schema_version m); [|done].
  destruct (bool_decide (node_context e = observed_context m)); [|done].
  destruct (payload_mismatch e m); [done|]. destruct (outcome_mismatch e m obs); done.
Qed.

Lemma unmatched_not_nil e obs ids parent remaining ds r :
  diagnose_unmatched_expected e obs ids parent remaining = Some (ds, r) → ds ≠ [].
Proof.
  unfold diagnose_unmatched_expected. destruct (content_candidates _ _ _ _) as [[found r']|]; [|done].
  intros [= <- _]. intros [_ ?]%app_nil. done.
Qed.

Lemma assigns_extend before e m obs A ids :
  assigns before obs A ids → node_key e ∉ node_key <$> before → m ∈ series_nodes (obs_messages obs) →
  observed_message_id m ∉ ids → content_matches e m obs = true →
  match node_parent_key e with
  | None => observed_causation_id m = None
  | Some parent => is_Some (A !! parent) ∧ observed_causation_id m = A !! parent
  end →
  assigns (before ++ [e]) obs (<[node_key e := observed_message_id m]> A) ({[observed_message_id m]} ∪ ids).
Proof.
  intros [[Hk Hn Hi] Hids] He Hm Hfresh Hc Hp.
  assert (A !! node_key e = None) as HAe.
  { destruct (A !! node_key e) as [id|] eqn:E; [|done]. destruct (Hk (node_key e)) as (n & Hin & En); [by eexists|].
    exfalso. apply He. rewrite <- En. by apply list_elem_of_fmap_2. }
  assert (∀ key, is_Some (A !! key) → <[node_key e := observed_message_id m]> A !! key = A !! key) as Hold.
  { intros key HA. rewrite lookup_insert_ne; [done|]. intros <-. rewrite HAe in HA. by destruct HA. }
  assert (∀ n x, match node_parent_key n with
    | None => observed_causation_id x = None
    | Some parent => is_Some (A !! parent) ∧ observed_causation_id x = A !! parent
    end → match node_parent_key n with
    | None => observed_causation_id x = None
    | Some parent => is_Some (<[node_key e := observed_message_id m]> A !! parent)
        ∧ observed_causation_id x = <[node_key e := observed_message_id m]> A !! parent
    end) as Hcause.
  { intros n x. destruct (node_parent_key n) as [k|]; [|done]. intros [HA E]. by rewrite (Hold k HA). }
  constructor; [constructor|].
  - intros key [id [[<- _]|[_ HA]]%lookup_insert_Some]; [exists e; split; [set_solver|done]|].
    destruct (Hk key) as (n & Hin & En); [by eexists|]. exists n. split; [set_solver|done].
  - intros n [Hin| ->%list_elem_of_singleton]%elem_of_app.
    + destruct (Hn n Hin) as (x & Hx & HA & Hcx & Hpx). exists x. split_and!; [done| |done|by apply Hcause].
      by rewrite Hold by by eexists.
    + exists m. split_and!; [done|apply lookup_insert_eq|done|by apply Hcause].
  - intros k1 k2 id [[<- <-]|[_ H1]]%lookup_insert_Some [[<- E]|[_ H2]]%lookup_insert_Some; [done| | |by eapply Hi].
    + exfalso. by apply Hfresh, (Hids k2).
    + exfalso. subst id. by apply Hfresh, (Hids k1).
  - intros key id [[_ <-]|[_ H]]%lookup_insert_Some; [set_solver|]. apply elem_of_union_r. by eapply Hids.
Qed.

Lemma fallback_diagnostics obs nodes : ∀ p remaining p',
  fallback obs nodes p remaining = (p', false) → ∃ ds, pg_diagnostics p' = pg_diagnostics p ++ ds.
Proof.
  induction nodes as [|e nodes IH]; intros p remaining p'; cbn [fallback].
  { intros [= <-]. exists []. by rewrite app_nil_r. }
  destruct (causal_candidates _ _ _ _ _) as [found [r|]]; [|done]. destruct (head _) as [m|].
  - intros (ds & E)%IH. cbn in E. eexists. by rewrite E, <- app_assoc.
  - destruct (diagnose_unmatched_expected _ _ _ _ _) as [[ds r']|]; [|done].
    intros (ds' & E)%IH. cbn in E. eexists. by rewrite E, <- app_assoc.
Qed.

(** A fallback without a complaint assigned everything. *)
Lemma fallback_assigns obs nodes : ∀ before p remaining p',
  NoDup (node_key <$> before ++ nodes) → assigns before obs (pg_matches p) (pg_matched_ids p) →
  fallback obs nodes p remaining = (p', false) → pg_diagnostics p' = [] →
  embedding (before ++ nodes) obs (pg_matches p').
Proof.
  induction nodes as [|e nodes IH]; intros before p remaining p' Hnd Has; cbn [fallback].
  { intros [= <-] _. rewrite app_nil_r. apply Has. }
  destruct (causal_candidates _ _ _ _ _) as [found [r|]] eqn:Ef; [|done].
  pose proof (causal_candidates_spec _ _ _ _ _ _ _ Ef) as Hfound.
  destruct (head _) as [m|] eqn:Eh.
  - intros Hrest Hnil. pose proof (fallback_diagnostics _ _ _ _ _ Hrest) as (ds & E). cbn in E.
    rewrite Hnil in E. symmetry in E. apply app_nil in E as [[_ Hfields]%app_nil _].
    rewrite cons_middle, app_assoc in Hnd |- *. apply head_Some_elem_of, elem_of_sort_by in Eh.
    destruct (Hfound m Eh) as (Hm & Hfresh & Hcause).
    eapply (IH _ _ r p'); [done| |exact Hrest|done]. cbn [pg_matches pg_matched_ids].
    apply assigns_extend; try done; [|by apply matched_fields_nil|].
    + rewrite fmap_app in Hnd. apply NoDup_app in Hnd as [Hnd _]. rewrite fmap_app in Hnd.
      apply NoDup_app in Hnd as (_ & Hd & _). intros Hin. apply (Hd _ Hin). left.
    + by destruct (node_parent_key e).
  - destruct (diagnose_unmatched_expected _ _ _ _ _) as [[ds r']|] eqn:Ed; [|done].
    intros Hrest Hnil. pose proof (fallback_diagnostics _ _ _ _ _ Hrest) as (ds' & E). cbn in E.
    rewrite Hnil in E. symmetry in E. apply app_nil in E as [[_ E]%app_nil _].
    by apply unmatched_not_nil in Ed.
Qed.

Lemma embedding_Permutation nodes nodes' obs A :
  nodes ≡ₚ nodes' → embedding nodes obs A → embedding nodes' obs A.
Proof.
  intros Hp [Hk Hn Hi]. constructor; [|intros n Hin; apply Hn; by rewrite Hp|done].
  intros key H. destruct (Hk key H) as (n & Hin & E). exists n. split; [by rewrite <- Hp|done].
Qed.

Lemma empty_assigns obs : assigns [] obs ∅ ∅.
Proof.
  constructor; [constructor|].
  - intros key [? H]. by rewrite lookup_empty in H.
  - by intros n ?%elem_of_nil.
  - intros k1 k2 id H. by rewrite lookup_empty in H.
  - intros key id H. by rewrite lookup_empty in H.
Qed.

(** *** The comparison *)

(** The observed identities an assignment uses *)
Lemma embedding_values nodes obs A :
  NoDup (node_key <$> nodes) → embedding nodes obs A →
  NoDup (map (λ n, default "" (A !! node_key n)) nodes)
  ∧ map (λ n, default "" (A !! node_key n)) nodes ⊆ map observed_message_id (series_nodes (obs_messages obs))
  ∧ ∀ id, id ∈ map (λ n, default "" (A !! node_key n)) nodes ↔ ∃ key, A !! key = Some id.
Proof.
  intros Hnd [Hk Hn Hi]. split_and!.
  - apply (NoDup_fmap_2_strong (λ n, default "" (A !! node_key n))); [|by apply NoDup_fmap_1 in Hnd].
    intros n1 n2 H1 H2 E. destruct (Hn n1 H1) as (m1 & _ & A1 & _). destruct (Hn n2 H2) as (m2 & _ & A2 & _).
    rewrite A1, A2 in E. cbn in E. apply (key_unique nodes); try done. eapply Hi; [exact A1|]. by rewrite A2, E.
  - intros id (n & -> & Hin)%list_elem_of_fmap. destruct (Hn n Hin) as (m & Hm & HA & _). rewrite HA. cbn.
    by apply list_elem_of_fmap_2.
  - intros id. split.
    + intros (n & -> & Hin)%list_elem_of_fmap. destruct (Hn n Hin) as (m & Hm & HA & _). exists (node_key n).
      by rewrite HA.
    + intros [key HA]. destruct (Hk key) as (n & Hin & <-); [by eexists|]. apply list_elem_of_fmap. exists n. by rewrite HA.
Qed.

(** If one assignment covers what was observed, every assignment does. *)
Lemma covers_any nodes obs A B :
  NoDup (node_key <$> nodes) → NoDup (map observed_message_id (series_nodes (obs_messages obs))) →
  embedding nodes obs A → embedding nodes obs B → covers obs B → covers obs A.
Proof.
  intros Hkeys Hids HA HB Hcov.
  destruct (embedding_values nodes obs A Hkeys HA) as (HndA & HsubA & HvA).
  destruct (embedding_values nodes obs B Hkeys HB) as (_ & _ & HvB).
  set (ids := map observed_message_id (series_nodes (obs_messages obs))) in *.
  assert (length ids <= length nodes)%nat as Hlen.
  { rewrite <- (length_map (λ n, default "" (B !! node_key n)) nodes).
    apply submseteq_length, NoDup_submseteq; [done|]. intros id (m & -> & Hm)%list_elem_of_fmap.
    apply HvB. by apply Hcov. }
  assert (map (λ n, default "" (A !! node_key n)) nodes ≡ₚ ids) as Hp.
  { apply submseteq_length_Permutation; [by apply NoDup_submseteq|]. by rewrite length_map. }
  intros m Hm. apply HvA. rewrite Hp. by apply list_elem_of_fmap_2.
Qed.

Lemma unexpected_nil obs A :
  diagnose_unexpected_observations obs (list_to_set (map snd (map_to_list A))) = [] ↔ covers obs A.
Proof.
  assert (∀ id, id ∈ (list_to_set (map snd (map_to_list A)) : gset string) ↔ ∃ key, A !! key = Some id) as Hin.
  { intros id. rewrite elem_of_list_to_set, list_elem_of_fmap. split.
    - intros ([key v] & -> & H%elem_of_map_to_list). by exists key.
    - intros [key H]. exists (key, id). split; [done|]. by apply elem_of_map_to_list. }
  unfold diagnose_unexpected_observations. rewrite map_nil_iff. split.
  - intros H m Hm. apply Hin. destruct (decide (observed_message_id m ∈ (list_to_set (map snd (map_to_list A)) : gset string))) as [|Hn];
      [done|exfalso]. apply (not_elem_of_nil m). rewrite <- H. apply elem_of_sort_by, list_elem_of_filter. done.
  - intros H. apply list_eq_nil_elem. intros m [Hn Hm]%elem_of_sort_by%list_elem_of_filter. by apply Hn, Hin, H.
Qed.

(** The node list a definition was built from *)
Lemma built_graph nodes within settle_for g :
  graph_try_from_nodes nodes within settle_for = Ok g →
  graph_ok nodes ∧ g = mkGraph within settle_for (mkSeries nodes).
Proof.
  unfold graph_try_from_nodes, graph_build. case_bool_decide as Hv; cbn [negb]; [|done].
  apply validate_graph_nil in Hv. pose proof Hv as [Hlen Hnd _ _ _ _].
  assert (series_ok (mkSeries nodes)) as Hok by (split; [exact Hnd|exact Hlen]).
  pose proof (series_from_nodes _ Hok) as E. cbn [series_nodes] in E. rewrite E. by intros [= <-].
Qed.

End Exactness.
