(* ===== verification/TracerSteps.v ===== *)
(** * TracerSteps: the comparison of TracerCompare is exact, and the steps it may
    spend are enough for all but the largest series.

    The steps are counted as credits. Every pair of an expected and an observed
    message that is not remembered yet reserves what its evaluation costs; a call
    keeps the steps that are not reserved. *)

From S2P Require Export TracerMatching.

Definition sum (f : nat → N) (l : list nat) : N := foldr (λ x n, f x + n) 0 l.

(** ** The steps of an assignment of siblings *)

Section Siblings.
Context (matches : nat → nat → SearchState → bool * SearchState).
Context (D : nat → Prop) (observed : list nat).
(** [I k st]: at least [k] steps are left *)
Context (I : N → SearchState → Prop).
Context (Hweaken : ∀ k j st, j <= k → I k st → I j st).
Context (Hspend : ∀ k st, I (k + 1) st → (spend_step st).1 = true ∧ I k (spend_step st).2).
Context (Hmatches : ∀ k e o st, D e → o ∈ observed → I k st → I k (matches e o st).2).

#[local] Ltac weaken H := refine (Hweaken _ _ _ _ H); unfold len in *; cbn [length] in *; nia.

Definition unvisited (V : gset nat) : N := N.of_nat (size (list_to_set observed ∖ V : gset nat)).
Definition ranges (M : gmap nat nat) : Prop := ∀ o e, M !! o = Some e → D e.

(** A turn costs the visits it makes and the candidates it looks at. *)
Definition costs_visits (recurse : nat → Augmenting → bool * Augmenting) : Prop :=
  ∀ k e M V st b M' V' st',
    D e → ranges M → I (len observed + len observed * unvisited V + k) st →
    recurse e (M, V, st) = (b, (M', V', st')) → ranges M' ∧ I (len observed * unvisited V' + k) st'.

Lemma unvisited_visit V o : o ∈ observed → o ∉ V → unvisited ({[o]} ∪ V) + 1 <= unvisited V.
Proof. intros Ho Hv. pose proof (unvisited_less observed V o Ho Hv). unfold unvisited. lia. Qed.

Lemma scan_steps recurse e candidates : costs_visits recurse → D e → candidates ⊆ observed →
  ∀ k M V st b M' V' st',
    ranges M → I (len candidates + len observed * unvisited V + k) st →
    scan_candidates matches recurse e candidates (M, V, st) = (b, (M', V', st')) →
    ranges M' ∧ I (len observed * unvisited V' + k) st'.
Proof.
  intros Hrec HD. induction candidates as [|o candidates IH]; intros Hsub k M V st b M' V' st' HM HI; cbn [scan_candidates].
  { intros [= <- <- <- <-]. split; [done|]. weaken HI. }
  assert (o ∈ observed) as Ho by (apply Hsub; left). assert (candidates ⊆ observed) as Hsub' by set_solver.
  replace (len (o :: candidates) + len observed * unvisited V + k)
    with (len candidates + len observed * unvisited V + k + 1) in HI by (unfold len; cbn [length]; lia).
  apply Hspend in HI as [Hs HI]. destruct (spend_step st) as [spent st1]. cbn [fst snd] in *. subst spent. cbn [negb].
  apply (Hmatches _ e o) in HI; [|done..]. destruct (matches e o st1) as [compatible st2]. cbn [snd] in HI.
  destruct (negb compatible || bool_decide (o ∈ V)) eqn:Eskip; [by apply IH|].
  apply orb_false_iff in Eskip as [_ Hfresh%bool_decide_eq_false].
  pose proof (unvisited_visit V o Ho Hfresh) as Hless.
  assert (I (len observed + len observed * unvisited ({[o]} ∪ V) + (len candidates + k)) st2) as HI'
    by weaken HI.
  destruct (M !! o) as [p|] eqn:EM.
  - destruct (recurse p (M, {[o]} ∪ V, st2)) as [can [[M1 V1] st3]] eqn:Er.
    destruct (Hrec _ _ _ _ _ _ _ _ _ (HM o p EM) HM HI' Er) as [HM1 HI1]. destruct can.
    + intros [= <- <- <- <-]. split; [|weaken HI1].
      intros a x [[_ <-]|[_ Ha]]%lookup_insert_Some; [done|by eapply HM1].
    + apply IH; [done|done|]. weaken HI1.
  - intros [= <- <- <- <-]. split; [|weaken HI'].
    intros a x [[_ <-]|[_ Ha]]%lookup_insert_Some; [done|by eapply HM].
Qed.

Lemma augment_steps fuel : costs_visits (augment_sibling matches observed fuel).
Proof.
  induction fuel as [|fuel IH]; intros k e M V st b M' V' st' HD HM HI; cbn [augment_sibling].
  { intros [= <- <- <- <-]. split; [done|]. weaken HI. }
  by apply scan_steps.
Qed.

Lemma unvisited_all : unvisited ∅ <= len observed.
Proof. unfold unvisited, len. rewrite difference_empty_L. pose proof (size_list_to_set_le observed). lia. Qed.

Definition sibling_cost (expected : list nat) : N := len expected * (len observed + len observed * len observed).

Lemma assign_siblings_steps es : ∀ k M st,
  (∀ e, e ∈ es → D e) → ranges M → I (sibling_cost es + k) st →
  I k (assign_siblings matches observed es M st).2.
Proof.
  induction es as [|e es IH]; intros k M st HD HM HI; cbn [assign_siblings].
  { unfold sibling_cost in HI. weaken HI. }
  destruct (augment_sibling _ _ _ _ _) as [ok [[M1 V1] st1]] eqn:Ea.
  apply (augment_steps _ (sibling_cost es + k)) in Ea as [HM1 HI1]; [|apply HD; left|done|].
  2: { pose proof unvisited_all. unfold sibling_cost in *. weaken HI. }
  assert (I (sibling_cost es + k) st1) as HI2 by (weaken HI1).
  destruct ok; cbn [negb].
  - apply IH; [|done|done]. intros x Hx. apply HD. by right.
  - weaken HI2.
Qed.

Lemma sibling_assignment_steps `{JT : JsonText} s expected k st :
  (∀ e, e ∈ expected → D e) → I (sibling_cost expected + k) st →
  I k (sibling_assignment s matches expected observed st).2.
Proof.
  intros HD HI. unfold sibling_assignment. destruct (Nat.ltb _ _); [weaken HI|].
  assert (I k (assign_siblings matches observed (rev expected) ∅ st).2) as H.
  { apply assign_siblings_steps; [|by intros o e ?%lookup_empty_Some|].
    - intros e He. apply HD. by rewrite (Permutation_rev expected).
    - unfold sibling_cost, len in *. by rewrite length_rev. }
  by destruct (assign_siblings _ _ _ _ _) as [[M|] st'].
Qed.
End Siblings.

(** ** Sums *)

Lemma sum_app f l k : sum f (l ++ k) = sum f l + sum f k.
Proof. induction l as [|x l IH]; cbn; [done|]. unfold sum in *. lia. Qed.
Lemma sum_Permutation f l k : l ≡ₚ k → sum f l = sum f k.
Proof. induction 1; cbn in *; unfold sum in *; lia. Qed.
Lemma sum_le f g l : (∀ x, x ∈ l → f x <= g x) → sum f l <= sum g l.
Proof.
  induction l as [|x l IH]; intros H; cbn; [done|].
  pose proof (H x (list_elem_of_here _ _)). assert (sum f l <= sum g l) by (apply IH; intros y Hy; apply H; by right).
  unfold sum in *. lia.
Qed.
Lemma sum_mul f c l : sum (λ x, c * f x) l = c * sum f l.
Proof. induction l as [|x l IH]; cbn; [lia|]. unfold sum in *. rewrite IH. lia. Qed.
Lemma sum_bind (f : nat → list nat) l : sum (λ x, len (f x)) l = len (l ≫= f).
Proof. induction l as [|x l IH]; cbn; [done|]. unfold sum, len in *. rewrite IH, length_app. lia. Qed.

(** A list without repetitions below a bound *)
Lemma bounded_length (l : list nat) n : NoDup l → (∀ x, x ∈ l → (x < n)%nat) → (length l <= n)%nat.
Proof.
  intros Hnd Hb. rewrite <- (length_seq n 0). apply submseteq_length, NoDup_submseteq; [done|].
  intros x Hx. apply elem_of_seq. split; [lia|by apply Hb].
Qed.

(** ** The reserve *)

Section Steps.
Context `{JT : JsonText} `{NE : !EqDecision Number}.
Context (s : CompleteMatchSearch) (Hs : search_ok s).

Notation n := (length (expected_nodes s)).
Notation m := (length (observed_nodes s)).

Definition pair_cost (p : nat * nat) : N :=
  1 + sibling_cost (observed_below s p.2) (expected_below s p.1).
Definition pairs_cost (l : list (nat * nat)) : N := foldr (λ p k, pair_cost p + k) 0 l.

(** A pair that is neither remembered nor being evaluated *)
Definition pending (B : gset (nat * nat)) (st : SearchState) (p : nat * nat) : Prop :=
  p ∉ B ∧ compatibility st !! p = None.
#[local] Instance pending_dec B st p : Decision (pending B st p).
Proof. unfold pending. apply _. Defined.

Definition all_pairs : list (nat * nat) := seq 0 n ≫= λ i, pair i <$> seq 0 m.
Definition reserve (B : gset (nat * nat)) (st : SearchState) : N := pairs_cost (filter (pending B st) all_pairs).

Definition left_over (B : gset (nat * nat)) (k : N) (st : SearchState) : Prop :=
  exhausted st = false ∧ reserve B st + k <= remaining_steps st.

Lemma left_over_weaken B k j st : j <= k → left_over B k st → left_over B j st.
Proof. intros Hj [He Hl]. split; [done|lia]. Qed.

Lemma left_over_spend B k st :
  left_over B (k + 1) st → (spend_step st).1 = true ∧ left_over B k (spend_step st).2.
Proof.
  intros [He Hl]. unfold spend_step, spend_comparison_step, checked_sub.
  rewrite (proj2 (N.leb_le 1 (remaining_steps st))) by lia. split; [done|]. split; [done|].
  change (reserve B st + k <= remaining_steps st - 1). lia.
Qed.

Lemma all_pairs_in p : p ∈ all_pairs ↔ (p.1 < n)%nat ∧ (p.2 < m)%nat.
Proof.
  destruct p as [i j]. unfold all_pairs. rewrite list_elem_of_bind. setoid_rewrite list_elem_of_fmap.
  setoid_rewrite elem_of_seq. cbn. split; [intros (a & (b & [= -> ->] & ?) & ?); lia|].
  intros ?. exists i. split; [exists j; split; [done|lia]|lia].
Qed.

Lemma all_pairs_NoDup : NoDup all_pairs.
Proof.
  apply NoDup_bind; [|intros i _; apply NoDup_fmap; [by intros ? ? [=]|apply NoDup_seq]|apply NoDup_seq].
  intros i i' p _ _ (j & -> & _)%list_elem_of_fmap (j' & E & _)%list_elem_of_fmap. congruence.
Qed.

Lemma pairs_cost_take p (P Q : nat * nat → Prop) `{!∀ x, Decision (P x)} `{!∀ x, Decision (Q x)} l :
  NoDup l → p ∈ l → P p → (∀ x, Q x ↔ P x ∧ x ≠ p) →
  pairs_cost (filter P l) = pair_cost p + pairs_cost (filter Q l).
Proof.
  intros Hnd Hin HP HQ. induction Hnd as [|x l Hx Hnd IH]; [by apply elem_of_nil in Hin|].
  rewrite !filter_cons. apply elem_of_cons in Hin as [->|Hin].
  - rewrite (decide_True (P := P x)) by done. rewrite (decide_False (P := Q x)) by (rewrite HQ; tauto).
    cbn. f_equal. f_equal. apply filter_agree. intros y Hy. rewrite HQ. split; [|tauto]. intros ?. split; [done|]. by intros ->.
  - assert (x ≠ p) by (intros ->; done). destruct (decide (P x)) as [HPx|HPx].
    + rewrite (decide_True (P := Q x)) by (rewrite HQ; done). cbn. unfold pairs_cost in *. rewrite IH by done. lia.
    + rewrite (decide_False (P := Q x)) by (rewrite HQ; tauto). by apply IH.
Qed.

Lemma reserve_take B p st :
  p ∈ all_pairs → pending B st p → reserve B st = pair_cost p + reserve ({[p]} ∪ B) st.
Proof.
  intros Hin Hp. apply pairs_cost_take; [apply all_pairs_NoDup|done|done|].
  intros x. unfold pending. rewrite not_elem_of_union, not_elem_of_singleton. tauto.
Qed.

Lemma left_over_remember B p b k st : left_over ({[p]} ∪ B) k st → left_over B k (remember p b st).
Proof.
  intros [He Hl]. split; [done|]. cbn [remember remaining_steps]. revert Hl. unfold reserve.
  rewrite (filter_agree (pending B (remember p b st)) (pending ({[p]} ∪ B) st)); [done|]. intros x _. unfold pending.
  cbn [remember compatibility]. rewrite lookup_insert_None, not_elem_of_union, not_elem_of_singleton.
  split; [intros (? & ? & ?); split_and!; congruence|intros ([? ?] & ?); split_and!; congruence].
Qed.

Lemma below_of_child e c k i : c ∈ expected_below s e → below s c k i → below s e (S k) i.
Proof.
  intros Hc H. rewrite <- Nat.add_1_r. eapply below_trans; [|exact H]. econstructor; [constructor|done].
Qed.

(** The pairs of the tree below [e] are not being evaluated. *)
Definition untouched (B : gset (nat * nat)) (e : nat) : Prop := ∀ k i j, below s e k i → (i, j) ∉ B.

(** An evaluation that is not remembered is paid from its reserve. *)
Lemma subtree_steps d : ∀ B k e o st,
  levels s d e → untouched B e → (e < n)%nat → (o < m)%nat → left_over B k st →
  left_over B k (subtree_matches s d e o st).2.
Proof.
  induction d as [|d IH]; intros B k e o st Hl Hu He Ho HI; [done|]. cbn [subtree_matches].
  destruct (compatibility st !! (e, o)) as [known|] eqn:Ek; [done|].
  assert (left_over ({[(e, o)]} ∪ B) (sibling_cost (observed_below s o) (expected_below s e) + k + 1) st) as HI1.
  { destruct HI as [Hx HI]. split; [done|]. rewrite (reserve_take B (e, o)) in HI.
    - unfold pair_cost in HI. cbn [fst snd] in HI. lia.
    - by apply all_pairs_in.
    - split; [|done]. apply (Hu 0%nat). constructor. }
  apply left_over_spend in HI1 as [Hsp HI1]. destruct (spend_step st) as [spent st1]. cbn [fst snd] in Hsp, HI1.
  subst spent. cbn [negb].
  destruct (node_matches s e o); cbn [negb].
  2: { apply left_over_remember. eapply left_over_weaken; [|exact HI1]. lia. }
  destruct (lookup_lt_is_Some_2 _ _ He) as [ne Hn]. destruct (lookup_lt_is_Some_2 _ _ Ho) as [mo Hm].
  rewrite Hn, Hm.
  assert (left_over ({[(e, o)]} ∪ B) k (sibling_assignment s (subtree_matches s d)
    (children_of (expected_children s) (node_key ne))
    (children_of (observed_children s) (observed_message_id mo)) st1).2) as HI2.
  { apply (sibling_assignment_steps _ (λ c, c ∈ expected_below s e) _ _ (left_over_weaken _) (left_over_spend _)).
    - intros k' c x st' Hc Hx. apply IH.
      + by apply Hl.
      + intros k'' i j Hb. pose proof (below_of_child _ _ _ _ Hc Hb) as Hb'.
        rewrite not_elem_of_union, not_elem_of_singleton. split; [|by apply (Hu _ _ _ Hb')].
        intros [= -> ->]. by apply (no_loop s _ _ _ Hl) in Hb'.
      + apply (expected_below_child s Hs) in Hc as (? & ? & _ & Hc & _). by eapply lookup_lt_Some.
      + apply (so_observed_child s Hs) in Hx as (? & Hx & _). by eapply lookup_lt_Some.
    - intros c Hc. unfold expected_below. by rewrite Hn.
    - revert HI1. unfold expected_below, observed_below. by rewrite Hn, Hm. }
  destruct (sibling_assignment _ _ _ _ st1) as [r st2]. cbn [snd] in *. by apply left_over_remember.
Qed.

(** ** The whole search *)

(** The descendants of a node *)
Fixpoint descendants (d : nat) (e : nat) : list nat :=
  match d with
  | O => []
  | S d => expected_below s e ++ (expected_below s e ≫= descendants d)
  end.

Lemma descendants_below d : ∀ e i, i ∈ descendants d e → ∃ k, below s e (S k) i.
Proof.
  induction d as [|d IH]; intros e i; cbn; [by intros ?%elem_of_nil|].
  intros [Hi|(c & Hi & Hc)%list_elem_of_bind]%elem_of_app.
  - exists 0%nat. econstructor; [constructor|done].
  - destruct (IH c i Hi) as [k Hb]. exists (S k). by eapply below_of_child.
Qed.

Lemma descendants_NoDup d : ∀ e, levels s d e → NoDup (descendants d e).
Proof.
  induction d as [|d IH]; intros e Hl; cbn; [constructor|]. apply NoDup_app. split_and!.
  - by apply expected_below_NoDup.
  - intros i Hi (c & Hic & Hc)%list_elem_of_bind. apply descendants_below in Hic as [k Hb].
    inversion Hb as [|? p ? Hp Hip]; subst. rewrite (parent_unique s Hs _ _ _ Hip Hi) in Hp.
    by apply (no_loop s _ _ k Hl), (below_of_child e c).
  - apply NoDup_bind; [| |by apply expected_below_NoDup].
    + intros c c' i Hc Hc' [k Hb]%descendants_below [k' Hb']%descendants_below. by eapply siblings_disjoint.
    + intros c Hc. apply IH. by apply Hl.
Qed.

Lemma descendants_count d e : levels s d e → len (descendants d e) <= N.of_nat n.
Proof.
  intros Hl. assert (length (descendants d e) <= n)%nat; [|unfold len; lia].
  apply bounded_length; [by apply descendants_NoDup|]. intros i [k Hb]%descendants_below.
  inversion Hb as [|? p ? _ Hip]; subst. apply (expected_below_child s Hs) in Hip as (? & ? & _ & Hi & _).
  by eapply lookup_lt_Some.
Qed.

Lemma observed_below_NoDup o : NoDup (observed_below s o).
Proof. unfold observed_below. destruct (observed_nodes s !! o); [apply (so_observed_children s Hs)|constructor]. Qed.

Lemma observed_below_lt o x : x ∈ observed_below s o → (x < m)%nat.
Proof. intros (? & ? & _ & Hx & _)%(observed_below_child s Hs). by eapply lookup_lt_Some. Qed.

Lemma observed_below_count o : len (observed_below s o) <= N.of_nat m.
Proof.
  assert (length (observed_below s o) <= m)%nat; [|unfold len; lia].
  apply bounded_length; [apply observed_below_NoDup|apply observed_below_lt].
Qed.

(** What an assignment of siblings costs at most for each expected one *)
Definition sibling_bound : N := N.of_nat m + N.of_nat m * N.of_nat m.

Lemma sibling_cost_le o es : sibling_cost (observed_below s o) es <= len es * sibling_bound.
Proof. pose proof (observed_below_count o). unfold sibling_cost, sibling_bound. nia. Qed.

Definition materialize_cost (d e : nat) : N := sibling_bound * len (descendants d e).

Lemma materialize_cost_step d e :
  materialize_cost (S d) e = sibling_bound * len (expected_below s e) + sum (materialize_cost d) (expected_below s e).
Proof.
  unfold materialize_cost. cbn [descendants]. rewrite sum_mul, sum_bind. unfold len. rewrite length_app. lia.
Qed.

(** The steps of an assignment below two messages *)
Lemma below_steps d e o ne mo k st :
  expected_nodes s !! e = Some ne → observed_nodes s !! o = Some mo → levels s (S d) e →
  left_over ∅ (sibling_bound * len (expected_below s e) + k) st →
  left_over ∅ k (sibling_assignment s (subtree_matches s d) (children_of (expected_children s) (node_key ne))
    (children_of (observed_children s) (observed_message_id mo)) st).2.
Proof.
  intros Hn Hm Hl HI.
  apply (sibling_assignment_steps _ (λ c, c ∈ expected_below s e) _ _ (left_over_weaken _) (left_over_spend _)).
  - intros k' c x st' Hc Hx. apply subtree_steps; [by apply Hl|by intros ? ? ? _ ?%elem_of_empty| |].
    + apply (expected_below_child s Hs) in Hc as (? & ? & _ & Hc & _). by eapply lookup_lt_Some.
    + apply (so_observed_child s Hs) in Hx as (? & Hx & _). by eapply lookup_lt_Some.
  - intros c Hc. unfold expected_below. by rewrite Hn.
  - pose proof (sibling_cost_le o (expected_below s e)) as Hc. unfold expected_below, observed_below in *.
    rewrite Hn, Hm in *. eapply left_over_weaken; [|exact HI]. lia.
Qed.

Definition pays (recurse : nat → nat → gmap string string → SearchState → bool * gmap string string * SearchState)
    (d : nat) : Prop :=
  ∀ k e o A st, levels s d e → remembers s st → embeds s e o →
    left_over ∅ (materialize_cost d e + k) st → left_over ∅ k (recurse e o A st).2.

Lemma materialize_pairs_steps recurse d pairs : ∀ k A st,
  pays recurse d → materializes s recurse d →
  (∀ c x, (c, x) ∈ pairs → levels s d c ∧ embeds s c x) → remembers s st →
  left_over ∅ (sum (materialize_cost d) pairs.*1 + k) st →
  left_over ∅ k (materialize_pairs recurse pairs A st).2.
Proof.
  induction pairs as [|[c x] pairs IH]; intros k A st Hp Hm Hin Hr HI; cbn [materialize_pairs]; [exact HI|].
  destruct (Hin c x) as [Hl He]; [left|]. change (sum _ _) with (materialize_cost d c + sum (materialize_cost d) pairs.*1) in HI.
  pose proof (Hp (sum (materialize_cost d) pairs.*1 + k) c x A st Hl Hr He) as HI1.
  destruct (recurse c x A st) as [[ok A1] st1] eqn:E. cbn [snd] in HI1.
  destruct (Hm _ _ _ _ _ _ _ Hl Hr He E) as ((Hr1 & _) & _).
  assert (left_over ∅ (sum (materialize_cost d) pairs.*1 + k) st1) as HI2 by (apply HI1; by rewrite N.add_assoc).
  destruct ok; cbn [negb].
  - apply IH; try done. intros c' x' H. apply Hin. by right.
  - eapply left_over_weaken; [|exact HI2]. lia.
Qed.

Lemma materialize_steps d : pays (materialize s d) d.
Proof.
  induction d as [|d IH]; intros k e o A st Hl Hr He HI; [done|]. cbn [materialize].
  destruct (proj1 (embeds_assignable s e o) He) as [Hmatch Has]. unfold node_matches in Hmatch.
  destruct (expected_nodes s !! e) as [ne|] eqn:Hn; [|done]. destruct (observed_nodes s !! o) as [mo|] eqn:Hm; [|done].
  rewrite materialize_cost_step, <- N.add_assoc in HI.
  pose proof (below_steps d e o ne mo _ st Hn Hm Hl HI) as HI1.
  destruct (sibling_assignment _ _ _ _ st) as [r st1] eqn:Ea. cbn [snd] in HI1.
  destruct (subtree_step s Hs e o ne mo d st r st1 Hn Hm (subtree_decides s Hs d) Hl Hr Ea) as [[Hr1 _] Hres].
  destruct r as [pairs|]; cbn [snd]; [|eapply left_over_weaken; [|exact HI1]; lia].
  destruct Hres as (H1 & _ & H3). apply (materialize_pairs_steps _ d); [done|by apply materialize_spec| |done|].
  - intros c x Hcx. destruct (H3 c x Hcx) as [_ Hc]. split; [|done]. apply Hl. rewrite <- H1.
    by apply (list_elem_of_fmap_2 fst _ (c, x)).
  - by rewrite (sum_Permutation _ _ _ H1).
Qed.

(** *** The reserve of all pairs *)

Lemma expected_total : sum (λ e, len (expected_below s e)) (seq 0 n) <= N.of_nat n.
Proof.
  rewrite sum_bind. assert (length (seq 0 n ≫= expected_below s) <= n)%nat; [|unfold len; lia]. apply bounded_length.
  - apply NoDup_bind; [|intros e _; by apply expected_below_NoDup|apply NoDup_seq].
    intros p q c _ _ Hp Hq. by eapply parent_unique.
  - intros c (e & Hc & _)%list_elem_of_bind. apply (expected_below_child s Hs) in Hc as (? & ? & _ & Hc & _).
    by eapply lookup_lt_Some.
Qed.

Lemma observed_total : sum (λ o, len (observed_below s o)) (seq 0 m) <= N.of_nat m.
Proof.
  rewrite sum_bind. assert (length (seq 0 m ≫= observed_below s) <= m)%nat; [|unfold len; lia]. apply bounded_length.
  - apply NoDup_bind; [|intros o _; apply observed_below_NoDup|apply NoDup_seq].
    intros p q c _ _ Hp Hq. by eapply (observed_below_unique s Hs).
  - intros c (o & Hc & _)%list_elem_of_bind. by eapply observed_below_lt.
Qed.

Lemma pairs_cost_app l k : pairs_cost (l ++ k) = pairs_cost l + pairs_cost k.
Proof. induction l as [|p l IH]; cbn; [done|]. unfold pairs_cost in *. lia. Qed.

Lemma row_cost e : pairs_cost (pair e <$> seq 0 m) <= N.of_nat m + len (expected_below s e) * sibling_bound.
Proof.
  pose proof observed_total as Ht. set (k := len (expected_below s e)).
  assert (∀ js, pairs_cost (pair e <$> js) <= len js + k * (N.of_nat m + 1) * sum (λ o, len (observed_below s o)) js) as H.
  { induction js as [|j js IH]; [cbn; lia|]. cbn [fmap list_fmap]. unfold pairs_cost, sum in *. cbn [foldr].
    unfold pair_cost at 1. cbn [fst snd]. unfold sibling_cost. fold k. pose proof (observed_below_count j).
    assert (len (j :: js) = len js + 1) as -> by (unfold len; cbn; lia).
    set (l := len (observed_below s j)) in *.
    assert (k * (l + l * l) <= k * (N.of_nat m + 1) * l) by (rewrite <- N.mul_assoc; apply N.mul_le_mono_l; nia). lia. }
  specialize (H (seq 0 m)). assert (len (seq 0 m) = N.of_nat m) as E by (unfold len; by rewrite length_seq).
  rewrite E in H. unfold sibling_bound. nia.
Qed.

Lemma reserve_total : reserve ∅ state_new <= N.of_nat n * N.of_nat m + N.of_nat n * sibling_bound.
Proof.
  assert (∀ P `{!∀ x, Decision (P x)} l, pairs_cost (filter P l) <= pairs_cost l) as Hf.
  { intros P HP l. induction l as [|p l IH]; [done|]. rewrite filter_cons. unfold pairs_cost in *.
    destruct (decide (P p)); cbn [foldr]; lia. }
  assert (∀ es, pairs_cost (es ≫= λ i, pair i <$> seq 0 m) <=
    len es * N.of_nat m + sum (λ e, len (expected_below s e)) es * sibling_bound) as H.
  { induction es as [|e es IH]; [done|]. cbn [mbind list_bind]. rewrite pairs_cost_app. pose proof (row_cost e).
    unfold sum in *. cbn [foldr]. assert (len (e :: es) = len es + 1) as -> by (unfold len; cbn; lia). lia. }
  specialize (H (seq 0 n)). assert (len (seq 0 n) = N.of_nat n) as E by (unfold len; by rewrite length_seq).
  rewrite E in H. pose proof expected_total.
  pose proof (Hf (pending ∅ state_new) _ all_pairs) as Hle. unfold reserve, all_pairs in *. nia.
Qed.

(** Series of these sizes never exhaust the steps, as up to 36 messages do not. *)
Definition enough_steps (expected observed : N) : Prop :=
  expected * observed * (2 * observed + 3) <= MAXIMUM_COMPARISON_STEPS.

Lemma enough_left e : enough_steps (N.of_nat n) (N.of_nat m) → levels s search_depth e →
  left_over ∅ (materialize_cost search_depth e) state_new.
Proof.
  intros Hle Hl. split; [done|]. pose proof reserve_total. pose proof (descendants_count _ _ Hl) as Hd.
  unfold enough_steps, materialize_cost, sibling_bound in *. change (remaining_steps state_new) with MAXIMUM_COMPARISON_STEPS. nia.
Qed.

Lemma assign_roots_steps r root roots : ∀ st,
  expected_nodes s !! r = Some root → levels s search_depth r → (∀ o, o ∈ roots → o ∈ observed_roots s) →
  remembers s st → left_over ∅ (materialize_cost search_depth r) st → assign_roots s r roots st ≠ Exhausted.
Proof.
  induction roots as [|o roots IH]; intros st Hr Hl Hin Hst HI; cbn [assign_roots]; [done|].
  assert ((o < m)%nat) as Ho.
  { destruct (proj1 (so_observed_root s Hs o)) as (? & Ho & _); [apply Hin; left|]. by eapply lookup_lt_Some. }
  pose proof (subtree_steps search_depth ∅ _ r o st Hl (λ _ _ _ _, not_elem_of_empty _) (lookup_lt_Some _ _ _ Hr) Ho HI) as HI1.
  destruct (subtree_matches s search_depth r o st) as [b st1] eqn:E1. cbn [snd] in HI1.
  destruct (subtree_decides s Hs search_depth r o st b st1 Hl Hst E1) as ([Hst1 _] & Hyes & _). destruct b; cbn [negb].
  - assert (left_over ∅ (materialize_cost search_depth r + 0) st1) as HI2 by (by rewrite N.add_0_r).
    pose proof (materialize_steps search_depth 0 r o ∅ st1 Hl Hst1 (Hyes eq_refl) HI2) as [Hx _].
    destruct (materialize s search_depth r o ∅ st1) as [[ok A] st2] eqn:E2. cbn [snd] in Hx.
    destruct (materialize_spec s Hs _ _ _ _ _ _ _ _ Hl Hst1 (Hyes eq_refl) E2) as (_ & _ & _ & Hfail).
    destruct ok; [done|]. rewrite (Hfail eq_refl) in Hx. done.
  - rewrite (proj1 HI1). apply IH; try done. intros o' Ho'. apply Hin. by right.
Qed.
Lemma search_steps :
  graph_ok (expected_nodes s) → search_assignment s = Exhausted →
  ¬ enough_steps (len (expected_nodes s)) (len (observed_nodes s)).
Proof.
  intros Hg Hx Hle. destruct (graph_root _ Hg) as (root & Hin & Hp & _). unfold search_assignment in Hx.
  apply list_elem_of_lookup in Hin as [i Hi].
  assert (i ∈ expected_roots s) as Hir by (apply (so_expected_root s Hs); by exists root).
  destruct (expected_roots s) as [|r rs] eqn:Er; [by apply elem_of_nil in Hir|]. cbn [head] in Hx.
  destruct (proj1 (so_expected_root s Hs r)) as (ne & Hr & Hnp); [rewrite Er; left|].
  assert (levels s search_depth r) as Hl.
  { rewrite <- (Nat.sub_0_r search_depth). eapply graph_levels; [done..|].
    constructor; [by eapply list_elem_of_lookup_2|done]. }
  revert Hx. apply (assign_roots_steps r ne); [done|done|done| |by apply enough_left].
  intros e o b He. cbn in He. by rewrite lookup_empty in He.
Qed.
End Steps.

(** ** What a comparison accepts *)

Section Exactness.
Context `{JT : JsonText} `{NE : !EqDecision Number} `{HO : HashMapOrder} `{DJ : !DocumentJson}.

(** C24 (equivalence). A comparison passes exactly when it should: when every
    expected message can be assigned an observed message of its content - causes to
    causes, no two to the same - and this leaves nothing observed over, all links
    and outcomes are sound, and everything came in time. The matches it reports
    are such an assignment. Only a search that used up its steps may refuse what
    should pass; it says so, and series of up to 36 messages never use them up. *)
Theorem comparison_is_exact nodes within settle_for g obs context :
  graph_try_from_nodes nodes within settle_for = Ok g → rtc observed_step observed_new obs →
  let c := compare_message_series g obs context in
  (cmp_status c = ComparisonPassed →
     ∃ A, as_expected g obs context A ∧ cmp_matches c = map (λ p, mkMatch p.1 p.2) (btree_iter A))
  ∧ ((∃ A, as_expected g obs context A) →
     cmp_status c = ComparisonPassed
     ∨ work_limit_diagnostic ∈ cmp_diagnostics c ∧ ¬ enough_steps (len nodes) (len (series_nodes (obs_messages obs)))).
Proof.
  intros [Hg ->]%built_graph Hobs%observed_reachable_ok. cbn zeta.
  pose proof (graph_keys _ Hg) as Hkeys. pose proof (observed_series _ Hobs) as [Hids Hlen].
  set (g := mkGraph within settle_for (mkSeries nodes)).
  pose proof (search_new_ok g obs Hkeys (conj Hids Hlen)) as Hs.
  assert (observed_nodes (search_new g obs) = series_nodes (obs_messages obs) ∧ search_observed (search_new g obs) = obs
    ∧ expected_nodes (search_new g obs) = nodes) as (Eo & Es & En).
  { unfold search_new. destruct (sort_nodes _ _), (sort_nodes _ _). done. }
  pose proof (search_assignment_spec (search_new g obs) Hs obs Eo Es) as Hsearch. rewrite En in Hsearch.
  specialize (Hsearch Hg). pose proof (search_steps (search_new g obs) Hs) as Hsteps. rewrite Eo, En in Hsteps.
  specialize (Hsteps Hg). unfold compare_message_series, find_complete_causal_assignment.
  destruct (search_assignment (search_new g obs)) as [A|steps|].
  - cbn [pg_diagnostics pg_matched_ids pg_missing pg_matches cmp_status cmp_matches cmp_diagnostics].
    assert (observed_structure_diagnostics obs
      ++ diagnose_unexpected_observations obs (list_to_set (map snd (map_to_list A)))
      ++ diagnose_timing obs context [] = [] ↔ as_expected g obs context A) as Hiff.
    { rewrite !app_nil, structure_nil, unexpected_nil, timing_nil by by split. unfold as_expected. tauto. }
    case_bool_decide as Hd; split.
    + intros _. exists A. split; [by apply Hiff|done].
    + by left.
    + done.
    + intros (B & HB & Hcov & Hws & Htime). exfalso. apply Hd, Hiff. split_and!; [done| |done|done].
      by apply (covers_any nodes obs A B).
  - destruct (fallback _ _ _ _) as [p ran_out] eqn:Ef. cbn [cmp_status cmp_matches cmp_diagnostics].
    split; [|intros (B & HB & _); exfalso; by apply (Hsearch B)].
    case_bool_decide as Hd; [|done]. intros _. exfalso. apply app_nil in Hd as [Hd Hrest].
    destruct ran_out; [done|]. apply (Hsearch (pg_matches p)).
    eapply embedding_Permutation; [|refine (fallback_assigns obs _ [] (mkProgress ∅ ∅ [] (observed_structure_diagnostics obs)) steps p _
      (empty_assigns obs) Ef Hd)].
    + apply sort_by_Permutation.
    + cbn [app]. by rewrite sort_by_Permutation.
  - cbn. split.
    + rewrite bool_decide_false; [done|]. by intros [_ ?]%app_nil.
    + intros _. right. split; [apply elem_of_sort_by, elem_of_app; right; left|by apply Hsteps].
Qed.
End Exactness.
