(* ===== verification/TracerHub.v ===== *)
(** * TracerHub: the correlations of the tracer (crates/rostfrei-tracer/src/correlation.rs).

    The hub keeps a record per correlation: its bounded log of events, and the
    evidence of what was observed. A record is shared by reference - the table, the
    callers that looked it up and the subscriptions hold it - so the hub has a heap
    of records, and an operation on a record is a function of it and of the budget
    it draws on, one critical section each. The watch channels that wake
    subscribers carry no data that is read and are not part of the state. *)

From S2P Require Export TracerCompare.

(** ** Events, observations and errors *)

Inductive OperationMode := ModeSimulate | ModeTest | ModeDispatch.
#[global] Instance OperationMode_eq_dec : EqDecision OperationMode.
Proof. solve_decision. Defined.

Inductive CorrelationCommandOutcome :=
| CorrelationAccepted | CorrelationRejected | CorrelationFailed | CorrelationIndeterminate.

Section Events.
Context `{JT : JsonText}.

Inductive CorrelationEventKind :=
| CommandEvent (operation_id : string) (message_id causation_id : option string) (duplicate : option bool)
    (context command : string) (schema_version : N)
| DomainEventEvent (message_id : string) (causation_id : option string) (event_type : string)
    (schema_version : N) (aggregate_type aggregate_id : option string) (stream_version : option N)
    (payload : option JValue)
| IntegrationEventEvent (message_id : string) (causation_id : option string) (event_type : string)
    (schema_version : N) (subject : string) (payload : option JValue)
| CommandResultEvent (operation_id : string) (outcome : CorrelationCommandOutcome) (result : option JValue).

Definition event_name (kind : CorrelationEventKind) : string :=
  match kind with
  | CommandEvent _ _ _ _ _ _ _ => "command"
  | DomainEventEvent _ _ _ _ _ _ _ _ => "domain-event"
  | IntegrationEventEvent _ _ _ _ _ _ => "integration-event"
  | CommandResultEvent _ _ _ => "command-result"
  end.

Record CorrelationEvent := mkCorrelationEvent {
  cev_id : N;
  cev_correlation_id : string;
  cev_kind : CorrelationEventKind;
}.

Record DomainEventObservation := mkDomainObservation {
  deo_message_id : string;
  deo_causation_id : option string;
  deo_event_type : string;
  deo_schema_version : N;
  deo_aggregate_type : option string;
  deo_aggregate_id : option string;
  deo_stream_version : option N;
  deo_payload : option JValue;
}.

Record IntegrationEventObservation := mkIntegrationObservation {
  ieo_message_id : string;
  ieo_causation_id : option string;
  ieo_event_type : string;
  ieo_schema_version : N;
  ieo_subject : string;
  ieo_payload : option JValue;
}.

Record CorrelationObservationConflict := mkConflict {
  occ_identity : string;
  occ_message : string;
  occ_existing : option JValue;
  occ_observed : option JValue;
}.
End Events.

Inductive CorrelationError :=
| InvalidId (message : string)
| CorrelationNotFound
| CorrelationCapacityExhausted
| EventTooLarge
| FutureCursor (latest : N)
| ExpiredCursor (oldest : N).

Record CorrelationObservationFailure := mkObservationFailure {
  cof_identity : string;
  cof_message : string;
  cof_count : N;
}.

Definition DEFAULT_MAXIMUM_CORRELATIONS : N := 1024.
Definition DEFAULT_MAXIMUM_EVENTS_PER_CORRELATION : N := 512.
Definition DEFAULT_MAXIMUM_BYTES_PER_CORRELATION : N := 4 * 1024 * 1024.
Definition MAXIMUM_TOTAL_CORRELATION_BYTES : N := 64 * 1024 * 1024.
Definition MAXIMUM_RAW_EVIDENCE_BYTES_PER_CORRELATION : N := 4 * 1024 * 1024.
Definition MAXIMUM_TOTAL_RAW_EVIDENCE_BYTES : N := 64 * 1024 * 1024.
Definition MAXIMUM_RAW_EVIDENCE_BYTES_PER_CAPABILITY : N := MAXIMUM_TOTAL_RAW_EVIDENCE_BYTES / 2.
Definition RAW_EVIDENCE_CONFLICT_RESERVE_BYTES : N := 256 * 1024.
Definition MAXIMUM_RAW_SERIES_BYTES_PER_CORRELATION : N :=
  MAXIMUM_RAW_EVIDENCE_BYTES_PER_CORRELATION - RAW_EVIDENCE_CONFLICT_RESERVE_BYTES.
Definition MAXIMUM_OBSERVATION_CONFLICTS : N := 64.
Definition MAXIMUM_OBSERVATION_CONFLICT_VALUE_BYTES : N := 8 * 1024.
Definition MAXIMUM_OBSERVATION_FAILURE_IDENTITY_CHARS : nat := 256.
Definition MAXIMUM_OBSERVATION_FAILURE_MESSAGE_CHARS : nat := 1024.

(** What serde writes for the types of a record *)
Class CorrelationJson `{JT : JsonText} `{NE : !EqDecision Number} := {
  event_text : CorrelationEvent → result (list byte) string;
  series_text : ObservedMessageSeries → result (list byte) string;
  evidence_text : ObservedMessageSeries → list CorrelationObservationConflict → result (list byte) string;
  observed_outcome_to_value : ObservedCommandOutcome → result JValue string;
}.

Section Hub.
Context `{JT : JsonText} `{NE : !EqDecision Number} `{DJ : !DocumentJson} `{CJ : !CorrelationJson}.

(** ** Bounds *)

Definition serialized_event_len (event : CorrelationEvent) : N :=
  match event_text event with Ok text => len text | Err _ => usize_max end.

Definition serialized_len (text : result (list byte) string) : result N CorrelationError :=
  match text with Ok text => Ok (len text) | Err _ => Err EventTooLarge end.

Definition correlation_byte_budget (maximum_correlations : N) : N :=
  N.min (MAXIMUM_TOTAL_CORRELATION_BYTES / N.max maximum_correlations 1) DEFAULT_MAXIMUM_BYTES_PER_CORRELATION.

Definition without_payload (kind : CorrelationEventKind) : result CorrelationEventKind CorrelationError :=
  match kind with
  | DomainEventEvent id causation type version aggregate_type aggregate_id stream_version _ =>
    Ok (DomainEventEvent id causation type version aggregate_type aggregate_id stream_version None)
  | IntegrationEventEvent id causation type version subject _ =>
    Ok (IntegrationEventEvent id causation type version subject None)
  | CommandResultEvent id outcome _ => Ok (CommandResultEvent id outcome None)
  | CommandEvent _ _ _ _ _ _ _ => Err EventTooLarge
  end.

Definition bounded_event (event : CorrelationEvent) (maximum_bytes : N) : result CorrelationEvent CorrelationError :=
  if serialized_event_len event <=? maximum_bytes then Ok event
  else
    let? kind := without_payload (cev_kind event) in
    let event := mkCorrelationEvent (cev_id event) (cev_correlation_id event) kind in
    if serialized_event_len event <=? maximum_bytes then Ok event else Err EventTooLarge.

Definition validate_correlation_id (value : string) : result unit CorrelationError :=
  if String.eqb value "" || (256 <? str_len value) || any_control value
  then Err (InvalidId "correlation ID must contain 1-256 non-control characters")
  else Ok tt.

(** [fit_raw_evidence]: the oldest conflicts are dropped until the evidence fits. *)
Fixpoint fit_raw_evidence (observed : ObservedMessageSeries) (conflicts : list CorrelationObservationConflict)
    (minimum_conflicts : N) : result (N * list CorrelationObservationConflict) CorrelationError :=
  let? retained_bytes := serialized_len (evidence_text observed conflicts) in
  if retained_bytes <=? MAXIMUM_RAW_EVIDENCE_BYTES_PER_CORRELATION then Ok (retained_bytes, conflicts)
  else if len conflicts <=? minimum_conflicts then Err EventTooLarge
  else
    match conflicts with
    | [] => Err EventTooLarge
    | _ :: conflicts => fit_raw_evidence observed conflicts minimum_conflicts
    end.

Definition bounded_conflict_value (value : result JValue string) : option JValue :=
  match value with
  | Err _ => None
  | Ok value =>
    match serialized_len (to_writer value) with
    | Err _ => None
    | Ok length => if length <=? MAXIMUM_OBSERVATION_CONFLICT_VALUE_BYTES then Some value else None
    end
  end.

Definition observation_conflict (identity : string) (error : ObservedMessageSeriesError)
    (existing observed : result JValue string) : CorrelationObservationConflict :=
  mkConflict identity (ObservedMessageSeriesError_display error) (bounded_conflict_value existing)
    (bounded_conflict_value observed).

Definition observation_error (error : ObservedMessageSeriesError) : CorrelationError :=
  InvalidId (ObservedMessageSeriesError_display error).

Definition bounded_observation_text (value : string) (maximum_chars : nat) : string :=
  of_chars (take maximum_chars (chars value)).

Definition domain_event_aggregate (observation : DomainEventObservation)
  : result (option TestAggregate) CorrelationError :=
  match deo_aggregate_type observation, deo_aggregate_id observation with
  | Some aggregate_type, Some aggregate_id => Ok (Some (mkTestAggregate aggregate_type aggregate_id))
  | None, None => Ok None
  | _, _ => Err (InvalidId "domain event aggregate type and ID must both be present or both be absent")
  end.

(** ** The budget of raw evidence *)

Record RawEvidenceBudget := mkBudget { budget_maximum : N; budget_retained : N }.

Definition RawEvidenceBudget_new (maximum_bytes : N) : RawEvidenceBudget := mkBudget maximum_bytes 0.

Definition budget_replace (b : RawEvidenceBudget) (current replacement : N)
  : result RawEvidenceBudget CorrelationError :=
  let? without_current := ok_or (checked_sub (budget_retained b) current) CorrelationCapacityExhausted in
  let? next := ok_or (checked_add usize_max without_current replacement) CorrelationCapacityExhausted in
  if next <=? budget_maximum b then Ok (mkBudget (budget_maximum b) next) else Err CorrelationCapacityExhausted.

Definition budget_release (b : RawEvidenceBudget) (released : N) : RawEvidenceBudget :=
  mkBudget (budget_maximum b) (budget_retained b - released).

(** ** Records *)

Record CorrelationState := mkCorrelationState {
  cs_next_id : N;
  cs_events : list CorrelationEvent;
  cs_retained_bytes : N;
}.

Record CorrelationEvidenceState := mkEvidence {
  ev_observed : ObservedMessageSeries;
  ev_conflicts : list CorrelationObservationConflict;
  ev_failure : option CorrelationObservationFailure;
  ev_retained_bytes : N;
  ev_revision : N;
}.
Definition CorrelationEvidenceState_default : CorrelationEvidenceState := mkEvidence observed_new [] None 0 0.

Record CorrelationRecord := mkRecord {
  rec_correlation_id : string;
  rec_mode : OperationMode;
  rec_maximum_events : N;
  rec_maximum_bytes : N;
  rec_state : CorrelationState;
  rec_evidence : CorrelationEvidenceState;
  rec_closed : bool;
  rec_subscribers : N;
}.

Definition set_state (r : CorrelationRecord) (state : CorrelationState) : CorrelationRecord :=
  mkRecord (rec_correlation_id r) (rec_mode r) (rec_maximum_events r) (rec_maximum_bytes r) state (rec_evidence r)
    (rec_closed r) (rec_subscribers r).
Definition set_evidence (r : CorrelationRecord) (evidence : CorrelationEvidenceState) : CorrelationRecord :=
  mkRecord (rec_correlation_id r) (rec_mode r) (rec_maximum_events r) (rec_maximum_bytes r) (rec_state r) evidence
    (rec_closed r) (rec_subscribers r).
Definition set_subscribers (r : CorrelationRecord) (subscribers : N) : CorrelationRecord :=
  mkRecord (rec_correlation_id r) (rec_mode r) (rec_maximum_events r) (rec_maximum_bytes r) (rec_state r)
    (rec_evidence r) (rec_closed r) subscribers.

Definition CorrelationRecord_new (correlation_id : string) (mode : OperationMode) (maximum_events maximum_bytes : N)
    (initial : CorrelationEventKind) : result CorrelationRecord CorrelationError :=
  let? event := bounded_event (mkCorrelationEvent 1 correlation_id initial) maximum_bytes in
  Ok (mkRecord correlation_id mode maximum_events maximum_bytes
        (mkCorrelationState 2 [event] (serialized_event_len event)) CorrelationEvidenceState_default false 0).

(** The loop of [append] that drops the oldest events *)
Fixpoint evict (maximum_events maximum_bytes : N) (events : list CorrelationEvent) (retained_bytes : N)
  : list CorrelationEvent * N :=
  if (maximum_events <? len events) || (maximum_bytes <? retained_bytes) then
    match events with
    | [] => ([], retained_bytes)
    | removed :: events => evict maximum_events maximum_bytes events (retained_bytes - serialized_event_len removed)
    end
  else (events, retained_bytes).

(** [append]: the record afterwards, also when an error is returned *)
Definition record_append (r : CorrelationRecord) (kind : CorrelationEventKind)
  : CorrelationRecord * result unit CorrelationError :=
  if rec_closed r then (r, Err CorrelationNotFound)
  else
    let state := rec_state r in
    let id := cs_next_id state in
    let next_id := saturating_add u64_max id 1 in
    match bounded_event (mkCorrelationEvent id (rec_correlation_id r) kind) (rec_maximum_bytes r) with
    | Err error => (set_state r (mkCorrelationState next_id (cs_events state) (cs_retained_bytes state)), Err error)
    | Ok event =>
      let '(events, retained_bytes) :=
        evict (rec_maximum_events r) (rec_maximum_bytes r) (cs_events state ++ [event])
          (saturating_add usize_max (cs_retained_bytes state) (serialized_event_len event)) in
      (set_state r (mkCorrelationState next_id events retained_bytes), Ok tt)
    end.

(** *** Evidence: what it becomes and what is left of the budget *)

Definition replace_evidence (evidence : CorrelationEvidenceState) (budget : RawEvidenceBudget)
    (observed : ObservedMessageSeries) (conflicts : list CorrelationObservationConflict) (retained_bytes : N)
  : result (CorrelationEvidenceState * RawEvidenceBudget) CorrelationError :=
  let? budget := budget_replace budget (ev_retained_bytes evidence) retained_bytes in
  Ok (mkEvidence observed conflicts (ev_failure evidence) retained_bytes
        (saturating_add u64_max (ev_revision evidence) 1), budget).

Definition replace_observed (evidence : CorrelationEvidenceState) (budget : RawEvidenceBudget)
    (observed : ObservedMessageSeries) : result (CorrelationEvidenceState * RawEvidenceBudget) CorrelationError :=
  let? length := serialized_len (series_text observed) in
  fail! MAXIMUM_RAW_SERIES_BYTES_PER_CORRELATION <? length with EventTooLarge;
  let? fitted := fit_raw_evidence observed (ev_conflicts evidence) 0 in
  let '(retained_bytes, conflicts) := fitted in
  replace_evidence evidence budget observed conflicts retained_bytes.

(** [while conflicts.len() > MAXIMUM_OBSERVATION_CONFLICTS { conflicts.pop_front(); }] *)
Fixpoint drop_oldest (conflicts : list CorrelationObservationConflict) : list CorrelationObservationConflict :=
  if MAXIMUM_OBSERVATION_CONFLICTS <? len conflicts then
    match conflicts with
    | [] => []
    | _ :: conflicts => drop_oldest conflicts
    end
  else conflicts.

Definition retain_conflict (evidence : CorrelationEvidenceState) (budget : RawEvidenceBudget)
    (conflict : CorrelationObservationConflict)
  : result (CorrelationEvidenceState * RawEvidenceBudget) CorrelationError :=
  let conflicts := drop_oldest (ev_conflicts evidence ++ [conflict]) in
  let? fitted := fit_raw_evidence (ev_observed evidence) conflicts 1 in
  let '(retained_bytes, conflicts) := fitted in
  replace_evidence evidence budget (ev_observed evidence) conflicts retained_bytes.

(** The end of both insertions: [insertion] is the series after the insertion and its
    result, [existing] what a conflict is recorded with. *)
Definition insert_evidence (evidence : CorrelationEvidenceState) (budget : RawEvidenceBudget)
    (insertion : ObservedMessageSeries * result MessageSeriesInsertOutcome ObservedMessageSeriesError)
    (conflict : ObservedMessageSeriesError → option CorrelationObservationConflict)
  : CorrelationEvidenceState * RawEvidenceBudget * result MessageSeriesInsertOutcome CorrelationError :=
  let '(observed, inserted) := insertion in
  match inserted with
  | Ok Duplicate => (evidence, budget, Ok Duplicate)
  | Ok Inserted =>
    match replace_observed evidence budget observed with
    | Ok (evidence, budget) => (evidence, budget, Ok Inserted)
    | Err error => (evidence, budget, Err error)
    end
  | Err error =>
    match conflict error with
    | None => (evidence, budget, Err (observation_error error))
    | Some conflict =>
      match retain_conflict evidence budget conflict with
      | Ok (evidence, budget) => (evidence, budget, Err (observation_error error))
      | Err capacity => (evidence, budget, Err capacity)
      end
    end
  end.

Definition insert_message_evidence (evidence : CorrelationEvidenceState) (budget : RawEvidenceBudget)
    (message : ObservedMessageNode)
  : CorrelationEvidenceState * RawEvidenceBudget * result MessageSeriesInsertOutcome CorrelationError :=
  let existing := series_get (obs_messages (ev_observed evidence)) (observed_message_id message) in
  insert_evidence evidence budget (insert_message (ev_observed evidence) message)
    (λ error, (λ existing, observation_conflict (observed_message_id message) error
                             (observed_to_value existing) (observed_to_value message)) <$> existing).

Definition insert_command_outcome_evidence (evidence : CorrelationEvidenceState) (budget : RawEvidenceBudget)
    (outcome : ObservedCommandOutcome)
  : CorrelationEvidenceState * RawEvidenceBudget * result MessageSeriesInsertOutcome CorrelationError :=
  let existing := List.find (λ existing,
    String.eqb (oco_command_message_id existing) (oco_command_message_id outcome)
    || String.eqb (oco_response_message_id existing) (oco_response_message_id outcome))
    (obs_command_outcomes (ev_observed evidence)) in
  insert_evidence evidence budget (insert_command_outcome (ev_observed evidence) outcome)
    (λ error, (λ existing,
       observation_conflict
         (if String.eqb (oco_command_message_id existing) (oco_command_message_id outcome)
          then oco_command_message_id outcome else oco_response_message_id outcome) error
         (observed_outcome_to_value existing) (observed_outcome_to_value outcome)) <$> existing).

(** *** Operations on a record and its budget *)

(** [insert_message], [insert_command_outcome] *)
Definition record_insert {A} (insert : CorrelationEvidenceState → RawEvidenceBudget → A →
      CorrelationEvidenceState * RawEvidenceBudget * result MessageSeriesInsertOutcome CorrelationError)
    (item : A) (r : CorrelationRecord) (budget : RawEvidenceBudget)
  : CorrelationRecord * RawEvidenceBudget * result MessageSeriesInsertOutcome CorrelationError :=
  if rec_closed r then (r, budget, Err CorrelationNotFound)
  else
    let '(evidence, budget, inserted) := insert (rec_evidence r) budget item in
    (set_evidence r evidence, budget, inserted).

Definition retain_observation_failure (r : CorrelationRecord) (failure : CorrelationObservationFailure)
  : CorrelationRecord * result unit CorrelationError :=
  if rec_closed r then (r, Err CorrelationNotFound)
  else
    let evidence := rec_evidence r in
    let failure :=
      match ev_failure evidence with
      | Some retained => mkObservationFailure (cof_identity retained) (cof_message retained)
                           (saturating_add u64_max (cof_count retained) 1)
      | None => failure
      end in
    (set_evidence r (mkEvidence (ev_observed evidence) (ev_conflicts evidence) (Some failure)
       (ev_retained_bytes evidence) (saturating_add u64_max (ev_revision evidence) 1)), Ok tt).

(** [evidence_snapshot], [observation_conflicts] and [evidence_revision] *)
Definition evidence_of (r : CorrelationRecord) : result CorrelationEvidenceState CorrelationError :=
  if rec_closed r then Err CorrelationNotFound else Ok (rec_evidence r).

(** [close_locked] with [clear_evidence] *)
Definition close_locked (r : CorrelationRecord) (budget : RawEvidenceBudget) : CorrelationRecord * RawEvidenceBudget :=
  (mkRecord (rec_correlation_id r) (rec_mode r) (rec_maximum_events r) (rec_maximum_bytes r) (rec_state r)
     CorrelationEvidenceState_default true (rec_subscribers r),
   budget_release budget (ev_retained_bytes (rec_evidence r))).

(** *** Subscriptions *)

(** [subscribe_with_mode] once the record is found *)
Definition record_subscribe (r : CorrelationRecord) (after : N) : result CorrelationRecord CorrelationError :=
  fail! rec_closed r with CorrelationNotFound;
  let latest := cs_next_id (rec_state r) - 1 in
  let oldest := match cs_events (rec_state r) with event :: _ => cev_id event | [] => cs_next_id (rec_state r) end in
  fail! latest <? after with FutureCursor latest;
  fail! saturating_add u64_max after 1 <? oldest with ExpiredCursor oldest;
  Ok (set_subscribers r (rec_subscribers r + 1)).

(** [subscribe_evidence] once the record is found: the revision that was seen *)
Definition record_subscribe_evidence (r : CorrelationRecord) : result (CorrelationRecord * N) CorrelationError :=
  fail! rec_closed r with CorrelationNotFound;
  Ok (set_subscribers r (rec_subscribers r + 1), ev_revision (rec_evidence r)).

Definition record_unsubscribe (r : CorrelationRecord) : CorrelationRecord :=
  set_subscribers r (rec_subscribers r - 1).

Definition event_after_or_closed (r : CorrelationRecord) (cursor : N) : option CorrelationEvent * bool * bool :=
  let events := cs_events (rec_state r) in
  let is_lagged := is_some_and (λ event, saturating_add u64_max cursor 1 <? cev_id event) (head events) in
  let event := List.find (λ event, cursor <? cev_id event) events in
  (event, is_none event && rec_closed r, is_lagged).

Inductive SubscriptionStep := Received (event : CorrelationEvent) | Ended | Waiting.

(** One turn of the loop of [next] *)
Definition subscription_next (r : CorrelationRecord) (cursor : N) : SubscriptionStep :=
  let '(event, is_closed, is_lagged) := event_after_or_closed r cursor in
  if is_lagged then Ended
  else
    match event with
    | Some event => Received event
    | None => if is_closed then Ended else Waiting
    end.

(** ** The hub *)

Record CorrelationHub := mkHub {
  hub_records : gmap string nat;
  hub_insertion_order : list string;
  hub_heap : gmap nat CorrelationRecord;
  hub_maximum_correlations : N;
  hub_maximum_events : N;
  hub_maximum_bytes : N;
  hub_control_budget : RawEvidenceBudget;
  hub_dispatch_budget : RawEvidenceBudget;
}.

Definition CorrelationHub_new (maximum_correlations : N) : CorrelationHub :=
  let maximum_correlations := N.max maximum_correlations 1 in
  mkHub ∅ [] ∅ maximum_correlations DEFAULT_MAXIMUM_EVENTS_PER_CORRELATION
    (correlation_byte_budget maximum_correlations)
    (RawEvidenceBudget_new MAXIMUM_RAW_EVIDENCE_BYTES_PER_CAPABILITY)
    (RawEvidenceBudget_new MAXIMUM_RAW_EVIDENCE_BYTES_PER_CAPABILITY).

(** The budget a mode draws on *)
Definition is_dispatch (mode : OperationMode) : bool := match mode with ModeDispatch => true | _ => false end.
Definition hub_budget (h : CorrelationHub) (mode : OperationMode) : RawEvidenceBudget :=
  if is_dispatch mode then hub_dispatch_budget h else hub_control_budget h.

(** A record and its budget are written back. *)
Definition hub_write (h : CorrelationHub) (p : nat) (r : CorrelationRecord) (budget : RawEvidenceBudget)
  : CorrelationHub :=
  mkHub (hub_records h) (hub_insertion_order h) (<[p := r]> (hub_heap h)) (hub_maximum_correlations h)
    (hub_maximum_events h) (hub_maximum_bytes h)
    (if is_dispatch (rec_mode r) then hub_control_budget h else budget)
    (if is_dispatch (rec_mode r) then budget else hub_dispatch_budget h).
Definition hub_table (h : CorrelationHub) (records : gmap string nat) (order : list string) : CorrelationHub :=
  mkHub records order (hub_heap h) (hub_maximum_correlations h) (hub_maximum_events h) (hub_maximum_bytes h)
    (hub_control_budget h) (hub_dispatch_budget h).

(** [register_command]; [p] is the fresh reference. *)
Definition register_command (h : CorrelationHub) (p : nat) (correlation_id : string) (mode : OperationMode)
    (operation_id context command : string) (schema_version : N) : result CorrelationHub CorrelationError :=
  let? _ := validate_correlation_id correlation_id in
  fail! is_some (hub_records h !! correlation_id) with InvalidId "correlation is already registered";
  fail! hub_maximum_correlations h <=? N.of_nat (size (hub_records h)) with CorrelationCapacityExhausted;
  let? record := CorrelationRecord_new correlation_id mode (hub_maximum_events h) (hub_maximum_bytes h)
                   (CommandEvent operation_id None None None context command schema_version) in
  Ok (hub_table (hub_write h p record (hub_budget h mode)) (<[correlation_id := p]> (hub_records h))
        (hub_insertion_order h ++ [correlation_id])).

(** [record] *)
Definition hub_record (h : CorrelationHub) (correlation_id : string) : result nat CorrelationError :=
  let? _ := validate_correlation_id correlation_id in
  ok_or (hub_records h !! correlation_id) CorrelationNotFound.

(** An operation on a record that was found; a reference always points to one. *)
Definition on_record {A} (h : CorrelationHub) (p : nat)
    (f : CorrelationRecord → RawEvidenceBudget → CorrelationRecord * RawEvidenceBudget * result A CorrelationError)
  : CorrelationHub * result A CorrelationError :=
  match hub_heap h !! p with
  | None => (h, Err CorrelationNotFound)
  | Some r =>
    let '(r', budget, answer) := f r (hub_budget h (rec_mode r)) in
    (hub_write h p r' budget, answer)
  end.

(** An operation that leaves the budget alone *)
Definition plain {A} (f : CorrelationRecord → CorrelationRecord * result A CorrelationError)
    (r : CorrelationRecord) (budget : RawEvidenceBudget)
  : CorrelationRecord * RawEvidenceBudget * result A CorrelationError :=
  let '(r, answer) := f r in (r, budget, answer).

Definition check_mode (h : CorrelationHub) (p : nat) (mode : OperationMode) : result unit CorrelationError :=
  if is_some_and (λ r, negb (bool_decide (rec_mode r = mode))) (hub_heap h !! p)
  then Err (InvalidId "correlation does not belong to the observer environment")
  else Ok tt.

(** What other tasks do between two critical sections *)
Definition Interference : Type := nat → CorrelationHub → CorrelationHub.

(** [observe], [observe_message] and their variants for an observer of one mode *)
Definition hub_operation {A} (env : Interference) (h : CorrelationHub) (correlation_id : string)
    (mode : option OperationMode)
    (f : CorrelationRecord → RawEvidenceBudget → CorrelationRecord * RawEvidenceBudget * result A CorrelationError)
  : CorrelationHub * result A CorrelationError :=
  match hub_record h correlation_id with
  | Err error => (h, Err error)
  | Ok p =>
    match from_option (check_mode h p) (Ok tt) mode with
    | Err error => (h, Err error)
    | Ok _ => on_record (env 0%nat h) p f
    end
  end.
Definition observe env h correlation_id mode (kind : CorrelationEventKind) :=
  hub_operation env h correlation_id mode (plain (λ r, record_append r kind)).
Definition observe_message env h correlation_id mode (message : ObservedMessageNode) :=
  hub_operation env h correlation_id mode (record_insert insert_message_evidence message).

(** A message is recorded as evidence first, and logged when it was new. *)
Definition observe_then_log (env : Interference) (h : CorrelationHub) (correlation_id : string)
    (mode : option OperationMode) (ignore_unknown : bool) (message : ObservedMessageNode)
    (kind : CorrelationEventKind) : CorrelationHub * result unit CorrelationError :=
  let '(h, inserted) := observe_message env h correlation_id mode message in
  match inserted with
  | Ok Duplicate => (h, Ok tt)
  | Err CorrelationNotFound => (h, if ignore_unknown then Ok tt else Err CorrelationNotFound)
  | Err error => (h, Err error)
  | Ok Inserted => observe (λ t, env (S t)) (env 1%nat h) correlation_id mode kind
  end.

Definition observe_command env h correlation_id (operation_id message_id : string) (causation_id : option string)
    (duplicate : bool) (context command : string) (schema_version : N) (payload : option JValue)
  : CorrelationHub * result unit CorrelationError :=
  observe_then_log env h correlation_id None false
    (observed_command message_id correlation_id causation_id command schema_version context payload)
    (CommandEvent operation_id (Some message_id) causation_id (Some duplicate) context command schema_version).

Definition observe_command_outcome env h correlation_id (response_message_id command_message_id : string)
    (outcome : CommandResponseOutcome) : CorrelationHub * result unit CorrelationError :=
  match map_err observation_error
          (observed_outcome_try_new response_message_id command_message_id correlation_id outcome) with
  | Err error => (h, Err error)
  | Ok outcome =>
    let '(h, inserted) := hub_operation env h correlation_id None (record_insert insert_command_outcome_evidence outcome) in
    (h, rmap (λ _, tt) inserted)
  end.

Definition command_result env h correlation_id (operation_id : string) (outcome : CorrelationCommandOutcome)
    (result : option JValue) := observe env h correlation_id None (CommandResultEvent operation_id outcome result).

(** *** Observers of one mode; [continuous] tells whether they also feed the
    continuous observation, [policy] what may be logged of a payload. *)

Definition observe_domain_event env h (mode : OperationMode) (continuous : bool) (policy : JValue → option JValue)
    (correlation_id : string) (o : DomainEventObservation) : CorrelationHub * result unit CorrelationError :=
  match domain_event_aggregate o with
  | Err error => (h, Err error)
  | Ok aggregate =>
    observe_then_log env h correlation_id (Some mode) continuous
      (observed_domain_event (deo_message_id o) correlation_id (deo_causation_id o) (deo_event_type o)
         (deo_schema_version o) aggregate (deo_payload o))
      (DomainEventEvent (deo_message_id o) (deo_causation_id o) (deo_event_type o) (deo_schema_version o)
         (deo_aggregate_type o) (deo_aggregate_id o) (deo_stream_version o) (deo_payload o ≫= policy))
  end.

Definition observe_integration_event env h (mode : OperationMode) (continuous : bool)
    (policy : JValue → option JValue) (correlation_id : string) (o : IntegrationEventObservation)
  : CorrelationHub * result unit CorrelationError :=
  observe_then_log env h correlation_id (Some mode) continuous
    (observed_integration_event (ieo_message_id o) correlation_id (ieo_causation_id o) (ieo_event_type o)
       (ieo_schema_version o) (ieo_payload o))
    (IntegrationEventEvent (ieo_message_id o) (ieo_causation_id o) (ieo_event_type o) (ieo_schema_version o)
       (ieo_subject o) (ieo_payload o ≫= policy)).

Definition record_observation_failure env h (mode : OperationMode) (correlation_id identity message : string)
  : CorrelationHub * result unit CorrelationError :=
  hub_operation env h correlation_id (Some mode)
    (plain (λ r, retain_observation_failure r
       (mkObservationFailure (bounded_observation_text identity MAXIMUM_OBSERVATION_FAILURE_IDENTITY_CHARS)
          (bounded_observation_text message MAXIMUM_OBSERVATION_FAILURE_MESSAGE_CHARS) 1))).

(** *** Subscriptions and removal *)

Definition answer_with {A} (f : CorrelationRecord → result (CorrelationRecord * A) CorrelationError)
    (r : CorrelationRecord) : CorrelationRecord * result A CorrelationError :=
  match f r with Ok (r', a) => (r', Ok a) | Err error => (r, Err error) end.

Definition subscribe_with_mode env h (correlation_id : string) (after : N)
  : CorrelationHub * result OperationMode CorrelationError :=
  hub_operation env h correlation_id None
    (plain (answer_with (λ r, rmap (λ r', (r', rec_mode r)) (record_subscribe r after)))).

Definition subscribe_evidence env h (correlation_id : string) : CorrelationHub * result N CorrelationError :=
  hub_operation env h correlation_id None (plain (answer_with record_subscribe_evidence)).

(** [Drop] of both subscriptions *)
Definition unsubscribe (h : CorrelationHub) (p : nat) : CorrelationHub :=
  (on_record h p (plain (λ r, (record_unsubscribe r, Ok tt)))).1.

Definition close_record (h : CorrelationHub) (p : nat) : CorrelationHub :=
  (on_record h p (λ r budget, let '(r, budget) := close_locked r budget in (r, budget, Ok tt))).1.

(** [retain_dispatch_correlations]: the references that leave the table, which are
    closed one by one afterwards *)
Definition is_dispatch_record (h : CorrelationHub) (p : nat) : bool :=
  is_some_and (λ r, is_dispatch (rec_mode r)) (hub_heap h !! p).
Definition retained_records (h : CorrelationHub) : gmap string nat :=
  filter (λ e, is_dispatch_record h e.2 = true) (hub_records h).
Definition removed_records (h : CorrelationHub) : list nat :=
  map snd (map_to_list (filter (λ e, is_dispatch_record h e.2 = false) (hub_records h))).
Definition retain_dispatch_table (h : CorrelationHub) : CorrelationHub :=
  hub_table h (retained_records h)
    (filter (λ id, is_Some (retained_records h !! id)) (hub_insertion_order h)).
Definition retain_dispatch_correlations (env : Interference) (h : CorrelationHub) : CorrelationHub :=
  foldl (λ h '(t, p), close_record (env t h) p) (retain_dispatch_table h) (imap pair (removed_records h)).

Definition has_active_subscribers (h : CorrelationHub) (correlation_id : string) : bool :=
  is_some_and (λ p, is_some_and (λ r, 0 <? rec_subscribers r) (hub_heap h !! p)) (hub_records h !! correlation_id).

Definition remove_if_inactive (h : CorrelationHub) (correlation_id : string) : CorrelationHub * bool :=
  match hub_records h !! correlation_id with
  | None => (h, true)
  | Some p =>
    if is_some_and (λ r, 0 <? rec_subscribers r) (hub_heap h !! p) then (h, false)
    else
      (close_record (hub_table h (delete correlation_id (hub_records h))
         (filter (λ retained, retained ≠ correlation_id) (hub_insertion_order h))) p, true)
  end.
End Hub.
