(* ===== verification/TracerHubFacts.v ===== *)
(** * TracerHubFacts: the correlations of TracerHub stay within their bounds, and a
    subscriber reads every event.

    The hub is a transition system: a step is one critical section, on any record
    some task holds a reference to. *)

From S2P Require Export TracerHub.


Section Facts.
Context `{JT : JsonText} `{NE : !EqDecision Number} `{DJ : !DocumentJson} `{CJ : !CorrelationJson}.

(** ** The steps *)

(** The event an [append] adds, if it succeeds *)
Definition appended (r : CorrelationRecord) (kind : CorrelationEventKind) : option CorrelationEvent :=
  if rec_closed r then None
  else
    match bounded_event (mkCorrelationEvent (cs_next_id (rec_state r)) (rec_correlation_id r) kind) (rec_maximum_bytes r) with
    | Ok event => Some event
    | Err _ => None
    end.

Inductive record_step (r : CorrelationRecord) (b : RawEvidenceBudget) :
  option CorrelationEvent → CorrelationRecord → RawEvidenceBudget → Prop :=
| step_append kind r' answer :
    record_append r kind = (r', answer) → record_step r b (appended r kind) r' b
| step_message m r' b' answer :
    record_insert insert_message_evidence m r b = (r', b', answer) → record_step r b None r' b'
| step_outcome o r' b' answer :
    record_insert insert_command_outcome_evidence o r b = (r', b', answer) → record_step r b None r' b'
| step_failure f r' answer : retain_observation_failure r f = (r', answer) → record_step r b None r' b
| step_subscribe after r' : record_subscribe r after = Ok r' → record_step r b None r' b
| step_watch r' revision : record_subscribe_evidence r = Ok (r', revision) → record_step r b None r' b
| step_unsubscribe : 0 < rec_subscribers r → record_step r b None (record_unsubscribe r) b.

(** The label is the event that was appended, with its record. *)
Inductive hub_step (h : CorrelationHub) : option (nat * CorrelationEvent) → CorrelationHub → Prop :=
| step_register p id mode operation_id context command version h' r :
    hub_heap h !! p = None →
    register_command h p id mode operation_id context command version = Ok h' → hub_heap h' !! p = Some r →
    hub_step h ((p,.) <$> head (cs_events (rec_state r))) h'
| step_record p r event r' b' :
    hub_heap h !! p = Some r → record_step r (hub_budget h (rec_mode r)) event r' b' →
    hub_step h ((p,.) <$> event) (hub_write h p r' b')
| step_retain : hub_step h None (retain_dispatch_table h)
| step_close p : (∀ id, hub_records h !! id ≠ Some p) → hub_step h None (close_record h p)
| step_remove id : hub_step h None (remove_if_inactive h id).1.

Definition hub_evolves (h h' : CorrelationHub) : Prop := rtc (λ h h', ∃ l, hub_step h l h') h h'.
#[local] Instance hub_evolves_preorder : PreOrder hub_evolves.
Proof. split; [intros h; apply rtc_refl|intros h1 h2 h3 H1 H2; unfold hub_evolves in *; by etrans]. Qed.

(** ** Bounds of a record *)

Definition sum_lens (events : list CorrelationEvent) : N := foldr (λ e n, serialized_event_len e + n) 0 events.

Record events_ok (r : CorrelationRecord) : Prop := mkEventsOk {
  eo_some : cs_events (rec_state r) ≠ [];
  eo_count : len (cs_events (rec_state r)) <= rec_maximum_events r;
  eo_bytes : cs_retained_bytes (rec_state r) = sum_lens (cs_events (rec_state r));
  eo_maximum : cs_retained_bytes (rec_state r) <= rec_maximum_bytes r;
}.

Lemma bounded_event_len event maximum e : bounded_event event maximum = Ok e →
  serialized_event_len e <= maximum ∧ cev_id e = cev_id event ∧ cev_correlation_id e = cev_correlation_id event.
Proof.
  unfold bounded_event. destruct (N.leb_spec (serialized_event_len event) maximum); [by intros [= <-]|].
  destruct (without_payload _) as [kind|]; [|done]. cbn. set (event' := mkCorrelationEvent _ _ _).
  destruct (N.leb_spec (serialized_event_len event') maximum); [|done]. by intros [= <-].
Qed.

Lemma sum_lens_app l k : sum_lens (l ++ k) = sum_lens l + sum_lens k.
Proof. induction l as [|e l IH]; cbn; [done|]. unfold sum_lens in *. lia. Qed.

(** What is evicted is the shortest prefix that leaves the log within its bounds. *)
Lemma evict_spec maximum_events maximum_bytes events e retained events' retained' :
  retained = sum_lens (events ++ [e]) → serialized_event_len e <= maximum_bytes →
  evict maximum_events maximum_bytes (events ++ [e]) retained = (events', retained') → 1 <= maximum_events →
  ∃ dropped kept, events = dropped ++ kept ∧ events' = kept ++ [e] ∧ retained' = sum_lens events'
    ∧ len events' <= maximum_events ∧ retained' <= maximum_bytes.
Proof.
  revert retained. induction events as [|d events IH]; intros retained -> He Hev Hmax; cbn [app evict] in Hev.
  - assert ((maximum_events <? len [e]) || (maximum_bytes <? sum_lens [e]) = false) as E.
    { apply orb_false_iff. split; apply N.ltb_ge; unfold len, sum_lens; cbn; lia. }
    cbn [app] in Hev. rewrite E in Hev. injection Hev as <- <-. exists [], []. split_and!; try done; unfold len, sum_lens; cbn; lia.
  - destruct (_ || _) eqn:E.
    + apply IH in Hev as (dropped & kept & -> & -> & -> & H); [|unfold sum_lens; cbn; lia|done|done].
      by exists (d :: dropped), kept.
    + injection Hev as <- <-. apply orb_false_iff in E as [E1%N.ltb_ge E2%N.ltb_ge].
      exists [], (d :: events). by split_and!.
Qed.

(** *** Evidence *)

Record evidence_ok (e : CorrelationEvidenceState) : Prop := mkEvidenceOk {
  ek_observed : rtc observed_step observed_new (ev_observed e);
  ek_conflicts : len (ev_conflicts e) <= MAXIMUM_OBSERVATION_CONFLICTS;
  ek_retained : ev_retained_bytes e <= MAXIMUM_RAW_EVIDENCE_BYTES_PER_CORRELATION;
  ek_bytes : (ev_observed e = observed_new ∧ ev_conflicts e = [] ∧ ev_retained_bytes e = 0)
             ∨ ∃ text, evidence_text (ev_observed e) (ev_conflicts e) = Ok text ∧ ev_retained_bytes e = len text;
}.

Lemma evidence_default_ok : evidence_ok CorrelationEvidenceState_default.
Proof. constructor; cbn; [apply rtc_refl|by vm_compute|by vm_compute|by left]. Qed.

Lemma fit_raw_evidence_spec observed conflicts minimum retained conflicts' :
  fit_raw_evidence observed conflicts minimum = Ok (retained, conflicts') →
  (∃ dropped, conflicts = dropped ++ conflicts') ∧ retained <= MAXIMUM_RAW_EVIDENCE_BYTES_PER_CORRELATION
  ∧ ∃ text, evidence_text observed conflicts' = Ok text ∧ retained = len text.
Proof.
  assert (∀ conflicts, serialized_len (evidence_text observed conflicts) = Ok retained →
    ∃ text, evidence_text observed conflicts = Ok text ∧ retained = len text) as Htext.
  { intros l. unfold serialized_len. destruct (evidence_text observed l) as [text|]; [|done]. intros [= <-]. by exists text. }
  revert Htext. induction conflicts as [|c conflicts IH]; intros Htext; cbn [fit_raw_evidence].
  - intros (n & Hn & Hif)%rbind_Ok. revert Hif.
    destruct (N.leb_spec n MAXIMUM_RAW_EVIDENCE_BYTES_PER_CORRELATION); [|by destruct (_ <=? _)].
    intros [= <- <-]. split_and!; [by exists []|done|by apply Htext].
  - intros (n & Hn & Hif)%rbind_Ok. revert Hif.
    destruct (N.leb_spec n MAXIMUM_RAW_EVIDENCE_BYTES_PER_CORRELATION).
    + intros [= <- <-]. split_and!; [by exists []|done|by apply Htext].
    + destruct (_ <=? _); [done|]. intros Hrest. destruct (IH Htext Hrest) as ((dropped & ->) & ?).
      split; [by exists (c :: dropped)|done].
Qed.

(** What a change of the evidence does to its budget *)
Definition funded (e e' : CorrelationEvidenceState) (b b' : RawEvidenceBudget) : Prop :=
  budget_maximum b' = budget_maximum b
  ∧ (ev_retained_bytes e <= budget_retained b → budget_retained b <= budget_maximum b →
     budget_retained b' + ev_retained_bytes e = budget_retained b + ev_retained_bytes e'
     ∧ budget_retained b' <= budget_maximum b).

Lemma funded_same e b e' : ev_retained_bytes e' = ev_retained_bytes e → funded e e' b b.
Proof. intros E. split; [done|]. rewrite E. done. Qed.

Lemma replace_evidence_spec e b observed conflicts retained e' b' :
  replace_evidence e b observed conflicts retained = Ok (e', b') →
  funded e e' b b' ∧ ev_observed e' = observed ∧ ev_conflicts e' = conflicts ∧ ev_retained_bytes e' = retained.
Proof.
  unfold replace_evidence, budget_replace, checked_sub, checked_add.
  destruct (N.leb_spec (ev_retained_bytes e) (budget_retained b)); [|done]. cbn [ok_or rbind].
  destruct (_ <=? usize_max); [|done]. cbn [ok_or rbind].
  destruct (N.leb_spec (budget_retained b - ev_retained_bytes e + retained) (budget_maximum b)); [|done].
  intros [= <- <-]. split; [|done]. split; [done|]. cbn. lia.
Qed.

Lemma drop_oldest_len conflicts :
  len (drop_oldest conflicts) <= MAXIMUM_OBSERVATION_CONFLICTS ∧ ∃ dropped, conflicts = dropped ++ drop_oldest conflicts.
Proof.
  induction conflicts as [|c conflicts IH]; [split; [by vm_compute|by exists []]|]. cbn [drop_oldest].
  destruct (N.ltb_spec MAXIMUM_OBSERVATION_CONFLICTS (len (c :: conflicts))); [|split; [done|by exists []]].
  destruct IH as (? & dropped & E). split; [done|]. exists (c :: dropped). by rewrite E at 1.
Qed.

Lemma suffix_len {A} (l dropped kept : list A) n : l = dropped ++ kept → len l <= n → len kept <= n.
Proof. intros ->. unfold len. rewrite length_app. lia. Qed.

(** New evidence within its bounds, paid by the budget *)
Lemma replaced_ok e b observed conflicts minimum e' b' :
  evidence_ok e → rtc observed_step observed_new observed → len conflicts <= MAXIMUM_OBSERVATION_CONFLICTS →
  (let? fitted := fit_raw_evidence observed conflicts minimum in
   let '(retained_bytes, conflicts) := fitted in replace_evidence e b observed conflicts retained_bytes) = Ok (e', b') →
  evidence_ok e' ∧ funded e e' b b'.
Proof.
  intros He Hobs Hlen ([retained kept] & Hfit & Hrep)%rbind_Ok.
  apply fit_raw_evidence_spec in Hfit as ([dropped E] & Hmax & Htext).
  apply replace_evidence_spec in Hrep as (Hf & <- & <- & <-). split; [|done].
  constructor; [done|by eapply suffix_len|done|by right].
Qed.

Lemma insert_evidence_ok e b insertion conflict e' b' answer :
  evidence_ok e → rtc observed_step (ev_observed e) insertion.1 →
  insert_evidence e b insertion conflict = (e', b', answer) → evidence_ok e' ∧ funded e e' b b'.
Proof.
  intros He Hins. unfold insert_evidence. destruct insertion as [observed [[]|error]]; cbn [fst] in Hins.
  - destruct (replace_observed e b observed) as [[e1 b1]|] eqn:E; intros [= <- <- <-]; [|by split; [|apply funded_same]].
    unfold replace_observed in E. apply rbind_Ok in E as (n & _ & E). destruct (_ <? n); [done|].
    eapply replaced_ok; [done| |apply He|exact E]. etrans; [apply (ek_observed e He)|done].
  - intros [= <- <- <-]. by split; [|apply funded_same].
  - destruct (conflict error) as [c|]; [|intros [= <- <- <-]; by split; [|apply funded_same]].
    destruct (retain_conflict e b c) as [[e1 b1]|] eqn:E; intros [= <- <- <-]; [|by split; [|apply funded_same]].
    eapply replaced_ok; [done|apply (ek_observed e He)| |exact E]. apply drop_oldest_len.
Qed.

(** ** Bounds of the hub *)

Record record_ok (h : CorrelationHub) (r : CorrelationRecord) : Prop := mkRecordOk {
  ro_maximum_events : rec_maximum_events r = hub_maximum_events h;
  ro_maximum_bytes : rec_maximum_bytes r = hub_maximum_bytes h;
  ro_events : events_ok r;
  ro_evidence : evidence_ok (rec_evidence r);
  ro_closed : rec_closed r = true → rec_evidence r = CorrelationEvidenceState_default;
}.

(** A step of a record keeps what names and bounds it. *)
Record same_record (r r' : CorrelationRecord) : Prop := mkSame {
  sr_id : rec_correlation_id r' = rec_correlation_id r;
  sr_mode : rec_mode r' = rec_mode r;
  sr_maximum_events : rec_maximum_events r' = rec_maximum_events r;
  sr_maximum_bytes : rec_maximum_bytes r' = rec_maximum_bytes r;
  sr_closed : rec_closed r' = rec_closed r;
}.

Lemma record_append_ok r kind r' answer :
  1 <= rec_maximum_events r → rec_maximum_bytes r <= DEFAULT_MAXIMUM_BYTES_PER_CORRELATION → events_ok r →
  record_append r kind = (r', answer) →
  same_record r r' ∧ rec_evidence r' = rec_evidence r ∧ events_ok r'
  ∧ ∃ dropped, cs_events (rec_state r) ++ option_list (appended r kind) = dropped ++ cs_events (rec_state r').
Proof.
  intros Hmax Hbytes Hok. pose proof Hok as [Hs Hc Hb Hm]. unfold record_append, appended.
  destruct (rec_closed r) eqn:Ecl.
  { intros [= <- <-]. split_and!; try done. exists []. by rewrite app_nil_r. }
  destruct (bounded_event _ _) as [event|error] eqn:Ee.
  2: { intros [= <- <-]. split_and!; [done|done|done|]. exists []. by rewrite app_nil_r. }
  apply bounded_event_len in Ee as (He & _ & _).
  destruct (evict _ _ _ _) as [events' retained'] eqn:Ev. intros [= <- <-]. split; [done|]. split; [done|].
  assert (saturating_add usize_max (cs_retained_bytes (rec_state r)) (serialized_event_len event)
    = sum_lens (cs_events (rec_state r) ++ [event])) as Esum.
  { rewrite sum_lens_app, <- Hb. unfold saturating_add. cbn [sum_lens foldr]. rewrite N.add_0_r. apply N.min_r.
    apply (N.le_trans _ (DEFAULT_MAXIMUM_BYTES_PER_CORRELATION + DEFAULT_MAXIMUM_BYTES_PER_CORRELATION)); [lia|by vm_compute]. }
  rewrite Esum in Ev. destruct (evict_spec _ _ _ _ _ _ _ eq_refl He Ev Hmax) as (dropped & kept & E & -> & -> & Hl & Hr).
  split; [constructor; cbn; try done; by destruct kept|].
  exists dropped. cbn. by rewrite E, <- app_assoc.
Qed.

Lemma record_insert_ok {A} (insert : CorrelationEvidenceState → RawEvidenceBudget → A →
    CorrelationEvidenceState * RawEvidenceBudget * result MessageSeriesInsertOutcome CorrelationError)
    item r b r' b' answer :
  (∀ e e' b' answer, evidence_ok e → insert e b item = (e', b', answer) → evidence_ok e' ∧ funded e e' b b') →
  evidence_ok (rec_evidence r) → record_insert insert item r b = (r', b', answer) →
  same_record r r' ∧ rec_state r' = rec_state r ∧ evidence_ok (rec_evidence r')
  ∧ funded (rec_evidence r) (rec_evidence r') b b' ∧ (rec_closed r = true → rec_evidence r' = rec_evidence r).
Proof.
  intros Hins Hok. unfold record_insert. destruct (rec_closed r) eqn:Ecl.
  { intros [= <- <- <-]. split_and!; [done|done|done|by apply funded_same|done]. }
  destruct (insert (rec_evidence r) b item) as [[e' b1] a] eqn:E. intros [= <- <- <-].
  apply Hins in E as [? ?]; [|done]. by split_and!.
Qed.

Lemma message_evidence_ok b m e e' b' answer :
  evidence_ok e → insert_message_evidence e b m = (e', b', answer) → evidence_ok e' ∧ funded e e' b b'.
Proof. intros He. apply insert_evidence_ok; [done|]. apply rtc_once. constructor. Qed.
Lemma outcome_evidence_ok b o e e' b' answer :
  evidence_ok e → insert_command_outcome_evidence e b o = (e', b', answer) → evidence_ok e' ∧ funded e e' b b'.
Proof. intros He. apply insert_evidence_ok; [done|]. apply rtc_once. constructor. Qed.

(** What every step of a record keeps *)
Record stepped (h : CorrelationHub) (r : CorrelationRecord) (b : RawEvidenceBudget) (event : option CorrelationEvent)
    (r' : CorrelationRecord) (b' : RawEvidenceBudget) : Prop := mkStepped {
  sd_same : same_record r r';
  sd_ok : record_ok h r';
  sd_funded : funded (rec_evidence r) (rec_evidence r') b b';
  sd_log : ∃ dropped, cs_events (rec_state r) ++ option_list event = dropped ++ cs_events (rec_state r');
}.

(** Only the evidence or the subscribers change. *)
Lemma stepped_evidence h r b r' b' :
  record_ok h r → same_record r r' → rec_state r' = rec_state r → evidence_ok (rec_evidence r') →
  funded (rec_evidence r) (rec_evidence r') b b' → (rec_closed r = true → rec_evidence r' = rec_evidence r) →
  stepped h r b None r' b'.
Proof.
  intros [Hme Hmb [? ? ? ?] He Hc] Hsame Est He' Hf Hcl. pose proof Hsame as [? ? E1 E2 E3].
  constructor; [done| |done|exists []; by rewrite Est, app_nil_r].
  constructor; [by rewrite E1|by rewrite E2|constructor; rewrite Est, ?E1, ?E2; done|done|].
  rewrite E3. intros Hcr. rewrite Hcl by done. by apply Hc.
Qed.

Lemma record_step_ok h r b event r' b' :
  1 <= hub_maximum_events h → hub_maximum_bytes h <= DEFAULT_MAXIMUM_BYTES_PER_CORRELATION →
  record_ok h r → record_step r b event r' b' → stepped h r b event r' b'.
Proof.
  intros Hme Hmb Hok [kind r1 a H|m r1 b1 a H|o r1 b1 a H|f r1 a H|after r1 H|r1 rev H|H];
    pose proof Hok as [Eme Emb Hev He Hc].
  - rewrite <- Eme in Hme. rewrite <- Emb in Hmb. destruct (record_append_ok r kind r1 a Hme Hmb Hev H) as (Hs & Ee & Hev' & Hl).
    pose proof Hs as [? ? E1 E2 E3]. constructor; [done| |rewrite Ee; by apply funded_same|done].
    constructor; [by rewrite E1|by rewrite E2|done|by rewrite Ee|]. rewrite E3, Ee. done.
  - destruct (record_insert_ok _ _ _ _ _ _ _ (message_evidence_ok b m) He H) as (? & ? & ? & ? & ?). by apply stepped_evidence.
  - destruct (record_insert_ok _ _ _ _ _ _ _ (outcome_evidence_ok b o) He H) as (? & ? & ? & ? & ?). by apply stepped_evidence.
  - unfold retain_observation_failure in H. destruct (rec_closed r) eqn:Ecl; injection H as <- <-.
    { by apply stepped_evidence. }
    apply stepped_evidence; try done; [destruct He; by constructor|by rewrite Ecl].
  - unfold record_subscribe in H. repeat case_match; simplify_eq; by apply stepped_evidence.
  - unfold record_subscribe_evidence in H. repeat case_match; simplify_eq; by apply stepped_evidence.
  - by apply stepped_evidence.
Qed.

(** *** The sum of what the records of a capability retain *)

Definition retains (dispatch : bool) (r : CorrelationRecord) : N :=
  if eqb (is_dispatch (rec_mode r)) dispatch then ev_retained_bytes (rec_evidence r) else 0.
Definition total (dispatch : bool) (records : list (nat * CorrelationRecord)) : N :=
  foldr (λ e n, retains dispatch e.2 + n) 0 records.
Definition retained_in (dispatch : bool) (heap : gmap nat CorrelationRecord) : N := total dispatch (map_to_list heap).

Lemma total_Permutation dispatch l k : l ≡ₚ k → total dispatch l = total dispatch k.
Proof. induction 1; cbn in *; unfold total in *; lia. Qed.

Lemma retained_insert dispatch p r heap :
  heap !! p = None → retained_in dispatch (<[p := r]> heap) = retains dispatch r + retained_in dispatch heap.
Proof. intros Hp. unfold retained_in. by rewrite (total_Permutation _ _ _ (map_to_list_insert heap p r Hp)). Qed.

Lemma retained_update dispatch p r r' heap :
  heap !! p = Some r →
  retained_in dispatch (<[p := r']> heap) + retains dispatch r = retained_in dispatch heap + retains dispatch r'.
Proof.
  intros Hp. rewrite <- (insert_delete_id heap p r Hp) at 2. rewrite <- insert_delete_eq.
  rewrite !retained_insert by apply lookup_delete_eq. lia.
Qed.

Lemma retains_le dispatch p r heap : heap !! p = Some r → retains dispatch r <= retained_in dispatch heap.
Proof.
  intros Hp. rewrite <- (insert_delete_id heap p r Hp). rewrite retained_insert by apply lookup_delete_eq. lia.
Qed.

Definition budget_of (h : CorrelationHub) (dispatch : bool) : RawEvidenceBudget :=
  if dispatch then hub_dispatch_budget h else hub_control_budget h.

Record hub_ok (h : CorrelationHub) : Prop := mkHubOk {
  ho_correlations : 1 <= hub_maximum_correlations h;
  ho_maximum_events : hub_maximum_events h = DEFAULT_MAXIMUM_EVENTS_PER_CORRELATION;
  ho_maximum_bytes : hub_maximum_bytes h = correlation_byte_budget (hub_maximum_correlations h);
  ho_size : N.of_nat (size (hub_records h)) <= hub_maximum_correlations h;
  ho_order : NoDup (hub_insertion_order h);
  ho_order_all id : id ∈ hub_insertion_order h ↔ is_Some (hub_records h !! id);
  ho_table id p : hub_records h !! id = Some p →
    ∃ r, hub_heap h !! p = Some r ∧ rec_correlation_id r = id ∧ rec_closed r = false;
  ho_records p r : hub_heap h !! p = Some r → record_ok h r;
  ho_budget dispatch : budget_retained (budget_of h dispatch) = retained_in dispatch (hub_heap h);
  ho_capability dispatch : budget_retained (budget_of h dispatch) <= MAXIMUM_RAW_EVIDENCE_BYTES_PER_CAPABILITY
    ∧ budget_maximum (budget_of h dispatch) = MAXIMUM_RAW_EVIDENCE_BYTES_PER_CAPABILITY;
}.

Lemma record_ok_hub h h' r :
  hub_maximum_events h' = hub_maximum_events h → hub_maximum_bytes h' = hub_maximum_bytes h → record_ok h r → record_ok h' r.
Proof. intros E1 E2 []. by constructor; rewrite ?E1, ?E2. Qed.

Lemma hub_budget_of h mode : hub_budget h mode = budget_of h (is_dispatch mode).
Proof. done. Qed.

(** A record is replaced and its budget pays for the difference. *)
Lemma hub_write_ok h p r r' b' :
  hub_ok h → hub_heap h !! p = Some r → rec_correlation_id r' = rec_correlation_id r → rec_mode r' = rec_mode r →
  record_ok h r' → funded (rec_evidence r) (rec_evidence r') (hub_budget h (rec_mode r)) b' →
  (rec_closed r' = rec_closed r ∨ ∀ id, hub_records h !! id ≠ Some p) → hub_ok (hub_write h p r' b').
Proof.
  intros [Hc Hme Hmb Hs Hno Ho Ht Hr Hb Hcap] Hp Eid Em Hok [Emax Hf] Hcl.
  assert (∀ dispatch, budget_of (hub_write h p r' b') dispatch
    = if eqb (is_dispatch (rec_mode r)) dispatch then b' else budget_of h dispatch) as Ebud.
  { intros []; unfold budget_of, hub_write; cbn; rewrite Em; by destruct (rec_mode r). }
  rewrite hub_budget_of in Emax, Hf. pose proof (Hb (is_dispatch (rec_mode r))) as Hbr.
  pose proof (Hcap (is_dispatch (rec_mode r))) as [Hcr Emr].
  pose proof (retains_le (is_dispatch (rec_mode r)) p r _ Hp) as Hle. unfold retains in Hle. rewrite eqb_reflx in Hle.
  destruct Hf as [Hf1 Hf2]; [lia|lia|].
  constructor; try done.
  - intros id q Hq. cbn in *. destruct (Ht id q Hq) as (rq & Hrq & Eq & Hcq). destruct (decide (q = p)) as [->|Hqp].
    + rewrite Hp in Hrq. injection Hrq as <-. exists r'. rewrite lookup_insert_eq. split_and!; [done|congruence|].
      destruct Hcl as [->|Hn]; [done|]. by destruct (Hn id).
    + exists rq. by rewrite lookup_insert_ne.
  - intros q rq Hq. cbn in Hq. apply (record_ok_hub h); [done|done|].
    apply lookup_insert_Some in Hq as [[_ <-]|[_ Hq]]; [done|by eapply Hr].
  - intros dispatch. rewrite Ebud. cbn. pose proof (retained_update dispatch p r r' _ Hp) as Hu. unfold retains in Hu.
    rewrite Em in Hu. destruct (eqb _ dispatch) eqn:E; [apply eqb_prop in E; subst dispatch; lia|]. rewrite Hb. lia.
  - intros dispatch. rewrite Ebud. destruct (eqb _ dispatch) eqn:E; [|apply Hcap].
    apply eqb_prop in E as <-. split; [lia|]. by rewrite Emax.
Qed.

Lemma correlation_byte_budget_le n : correlation_byte_budget n <= DEFAULT_MAXIMUM_BYTES_PER_CORRELATION.
Proof. apply N.le_min_r. Qed.

Lemma hub_bounds h : hub_ok h →
  1 <= hub_maximum_events h ∧ hub_maximum_bytes h <= DEFAULT_MAXIMUM_BYTES_PER_CORRELATION.
Proof. intros Hok. rewrite (ho_maximum_events h Hok), (ho_maximum_bytes h Hok). split; [done|apply correlation_byte_budget_le]. Qed.

Lemma hub_record_step h p r event r' b' :
  hub_ok h → hub_heap h !! p = Some r → record_step r (hub_budget h (rec_mode r)) event r' b' →
  stepped h r (hub_budget h (rec_mode r)) event r' b'.
Proof. intros Hok Hp. destruct (hub_bounds h Hok). apply record_step_ok; [done|done|by eapply ho_records]. Qed.

Lemma close_record_ok h p : hub_ok h → (∀ id, hub_records h !! id ≠ Some p) → hub_ok (close_record h p).
Proof.
  intros Hok Hp. unfold close_record, on_record. destruct (hub_heap h !! p) as [r|] eqn:Er; [|done].
  unfold close_locked. cbn [fst]. destruct (ho_records h Hok p r Er) as [? ? [? ? ? ?] He Hc].
  apply (hub_write_ok h p r); try done.
  - constructor; [done|done|by constructor|apply evidence_default_ok|done].
  - split; [done|]. cbn. lia.
  - by right.
Qed.

Lemma hub_table_ok h records order :
  hub_ok h → records ⊆ hub_records h → NoDup order → (∀ id, id ∈ order ↔ is_Some (records !! id)) →
  hub_ok (hub_table h records order).
Proof.
  intros [Hc Hme Hmb Hs Hno Ho Ht Hr Hb Hcap] Hsub Hnd Hall. constructor; try done.
  - cbn. pose proof (map_subseteq_size _ _ Hsub). lia.
  - cbn. intros id p Hp. apply Ht. by eapply lookup_weaken.
  - intros p r Hp. apply (record_ok_hub h); [done|done|by eapply Hr].
Qed.

Lemma retain_dispatch_ok h : hub_ok h → hub_ok (retain_dispatch_table h).
Proof.
  intros Hok. apply hub_table_ok; [done|apply map_filter_subseteq|apply NoDup_filter, Hok|].
  intros id. rewrite list_elem_of_filter, (ho_order_all h Hok). split; [by intros [? _]|]. intros Hid. split; [done|].
  destruct Hid as [p Hp]. exists p. by apply map_lookup_filter_Some in Hp as [? _].
Qed.

Lemma remove_if_inactive_ok h id : hub_ok h → hub_ok (remove_if_inactive h id).1.
Proof.
  intros Hok. unfold remove_if_inactive. destruct (hub_records h !! id) as [p|] eqn:Ep; [|done].
  destruct (is_some_and _ _); [done|]. cbn [fst]. apply close_record_ok.
  - apply hub_table_ok; [done|apply delete_subseteq|apply NoDup_filter, Hok|].
    intros id'. rewrite list_elem_of_filter, (ho_order_all h Hok). destruct (decide (id' = id)) as [->|Hne].
    + rewrite lookup_delete_eq. split; [by intros [? _]|by intros [? ?]].
    + rewrite lookup_delete_ne by done. by split; [intros [_ ?]|].
  - intros id' Hid'. cbn in Hid'. apply lookup_delete_Some in Hid' as [Hne Hid'].
    destruct (ho_table h Hok _ _ Ep) as (r & Hr & E & _). destruct (ho_table h Hok _ _ Hid') as (r' & Hr' & E' & _). congruence.
Qed.

Lemma register_command_ok h p id mode operation_id context command version h' :
  hub_ok h → hub_heap h !! p = None →
  register_command h p id mode operation_id context command version = Ok h' → hub_ok h'.
Proof.
  intros Hok Hp. pose proof (hub_bounds h Hok) as [Hme Hmb]. unfold register_command.
  destruct (validate_correlation_id id) as [|]; [|done]. cbn [rbind].
  destruct (hub_records h !! id) as [q|] eqn:Eid; [done|]. cbn [is_some].
  destruct (N.leb_spec (hub_maximum_correlations h) (N.of_nat (size (hub_records h)))) as [|Hroom]; [done|].
  unfold CorrelationRecord_new. destruct (bounded_event _ _) as [event|] eqn:Ee; [|done]. cbn [rbind]. intros [= <-].
  apply bounded_event_len in Ee as (He & _).
  set (r := mkRecord id mode _ _ _ _ _ _). destruct Hok as [Hc Eme Emb Hs Hno Ho Ht Hr Hb Hcap].
  assert (∀ dispatch, retained_in dispatch (<[p := r]> (hub_heap h)) = retained_in dispatch (hub_heap h)) as Esame.
  { intros dispatch. rewrite retained_insert by done. unfold retains. cbn. by destruct (eqb _ _). }
  assert (∀ dispatch, budget_of (hub_write h p r (hub_budget h mode)) dispatch = budget_of h dispatch) as Ebud.
  { intros []; unfold budget_of, hub_write, hub_budget; cbn; by destruct mode. }
  constructor; cbn [hub_table hub_maximum_correlations hub_maximum_events hub_maximum_bytes hub_records hub_insertion_order hub_heap hub_write]; try done.
  - rewrite map_size_insert_None by done. lia.
  - apply NoDup_app. split_and!; [done| |apply NoDup_singleton]. intros x Hx ->%list_elem_of_singleton.
    apply Ho in Hx. rewrite Eid in Hx. by destruct Hx.
  - intros x. rewrite elem_of_app, list_elem_of_singleton, Ho. destruct (decide (x = id)) as [->|Hne].
    + rewrite lookup_insert_eq. split; [by eexists|by right].
    + rewrite lookup_insert_ne by done. split; [by intros [?|?]|by left].
  - intros x q [[<- <-]|[Hne Hq]]%lookup_insert_Some; [exists r; by rewrite lookup_insert_eq|].
    destruct (Ht x q Hq) as (rq & Hrq & ?). exists rq. rewrite lookup_insert_ne; [done|]. intros ->. congruence.
  - intros q rq [[_ <-]|[_ Hq]]%lookup_insert_Some; [|apply (record_ok_hub h); [done..|by eapply Hr]].
    constructor; cbn; [done|done| |apply evidence_default_ok|done].
    constructor; cbn; [done|unfold len; cbn; lia|by rewrite N.add_0_r|done].
  - intros dispatch. rewrite Esame, <- Hb. apply f_equal, Ebud.
  - intros dispatch. change (budget_of _ dispatch) with (budget_of (hub_write h p r (hub_budget h mode)) dispatch). rewrite Ebud. apply Hcap.
Qed.

Lemma hub_step_ok h l h' : hub_ok h → hub_step h l h' → hub_ok h'.
Proof.
  intros Hok [p id mode o c n v h1 r Hp Hreg _|p r event r' b' Hp Hs| |p Hp|id].
  - by eapply register_command_ok.
  - destruct (hub_record_step _ _ _ _ _ _ Hok Hp Hs) as [[] ? ? _]. apply (hub_write_ok h p r); try done. by left.
  - by apply retain_dispatch_ok.
  - by apply close_record_ok.
  - by apply remove_if_inactive_ok.
Qed.

Lemma hub_new_ok maximum : hub_ok (CorrelationHub_new maximum).
Proof.
  constructor; try done.
  - apply N.le_max_r.
  - apply N.le_0_l.
  - constructor.
  - intros id. cbn. rewrite lookup_empty. split; [by intros ?%elem_of_nil|by intros [? ?]].
  - intros []; by vm_compute.
  - intros []; by vm_compute.
Qed.

Lemma hub_evolves_ok h h' : hub_evolves h h' → hub_ok h → hub_ok h'.
Proof. intros H. induction H as [|x y z [l Hs] _ IH]; [done|]. intros Hx. apply IH. by eapply hub_step_ok. Qed.

(** ** What subscribers read *)

(** The log of a record grows at its end, is dropped from its start, and is numbered
    as long as the numbers do not run out. *)
Record extends_log (r : CorrelationRecord) (event : option CorrelationEvent) (r' : CorrelationRecord) : Prop := mkExtends {
  xl_suffix : ∃ dropped, cs_events (rec_state r) ++ option_list event = dropped ++ cs_events (rec_state r');
  xl_number : cs_next_id (rec_state r') < u64_max →
    cs_next_id (rec_state r) <= cs_next_id (rec_state r')
    ∧ ∀ e, event = Some e → cev_id e = cs_next_id (rec_state r) ∧ cs_next_id (rec_state r') = cs_next_id (rec_state r) + 1;
}.

Lemma extends_same r r' : rec_state r' = rec_state r → extends_log r None r'.
Proof. intros E. constructor; rewrite E; [exists []; by rewrite app_nil_r|]. intros _. split; [done|by intros ? [=]]. Qed.

Lemma record_append_numbers r kind r' answer :
  record_append r kind = (r', answer) → cs_next_id (rec_state r') < u64_max →
  cs_next_id (rec_state r) <= cs_next_id (rec_state r')
  ∧ ∀ e, appended r kind = Some e → cev_id e = cs_next_id (rec_state r) ∧ cs_next_id (rec_state r') = cs_next_id (rec_state r) + 1.
Proof.
  unfold record_append, appended. destruct (rec_closed r); [intros [= <- <-]; by split|].
  destruct (bounded_event _ _) as [event|] eqn:Ee.
  - destruct (evict _ _ _ _). intros [= <- <-]. cbn. unfold saturating_add. intros Hlt. split; [lia|].
    intros e [= <-]. apply bounded_event_len in Ee as (_ & -> & _). cbn. split; [done|lia].
  - intros [= <- <-]. cbn. unfold saturating_add. intros Hlt. split; [lia|done].
Qed.

Lemma record_step_extends h r b event r' b' :
  stepped h r b event r' b' → record_step r b event r' b' → extends_log r event r'.
Proof.
  intros Hs H. constructor; [apply Hs|]. clear Hs. intros Hlt.
  destruct H as [kind r1 a H|m r1 b1 a H|o r1 b1 a H|f r1 a H|after r1 H|r1 rev H|H].
  - by eapply record_append_numbers.
  - unfold record_insert in H. repeat case_match; simplify_eq; by split.
  - unfold record_insert in H. repeat case_match; simplify_eq; by split.
  - unfold retain_observation_failure in H. repeat case_match; simplify_eq; by split.
  - unfold record_subscribe in H. repeat case_match; simplify_eq; by split.
  - unfold record_subscribe_evidence in H. repeat case_match; simplify_eq; by split.
  - by split.
Qed.

(** The event a step appends to record [p] *)
Definition event_of (p : nat) (l : option (nat * CorrelationEvent)) : option CorrelationEvent :=
  match l with Some (q, e) => if decide (q = p) then Some e else None | None => None end.

Lemma event_of_none p q (event : option CorrelationEvent) : q ≠ p → event_of p ((q,.) <$> event) = None.
Proof. intros Hq. destruct event as [e|]; [|done]. cbn. by rewrite decide_False. Qed.
Lemma event_of_some p (event : option CorrelationEvent) : event_of p ((p,.) <$> event) = event.
Proof. destruct event as [e|]; [|done]. cbn. by rewrite decide_True. Qed.

Lemma write_extends h q r r' b' event :
  hub_heap h !! q = Some r → extends_log r event r' →
  ∀ p x, hub_heap h !! p = Some x →
  ∃ x', hub_heap (hub_write h q r' b') !! p = Some x' ∧ extends_log x (event_of p ((q,.) <$> event)) x'.
Proof.
  intros Hq He p x Hp. cbn. destruct (decide (q = p)) as [->|Hne].
  - rewrite Hq in Hp. injection Hp as <-. exists r'. by rewrite lookup_insert_eq, event_of_some.
  - exists x. rewrite lookup_insert_ne, event_of_none by done. split; [done|by apply extends_same].
Qed.

Lemma close_record_extends h q p x :
  hub_heap h !! p = Some x → ∃ x', hub_heap (close_record h q) !! p = Some x' ∧ extends_log x None x'.
Proof.
  intros Hp. unfold close_record, on_record. destruct (hub_heap h !! q) as [r|] eqn:Hq.
  - cbn [fst]. refine (write_extends h q r _ _ None Hq _ p x Hp). by apply extends_same.
  - exists x. split; [done|by apply extends_same].
Qed.

Lemma close_record_new h q p : hub_heap h !! p = None → hub_heap (close_record h q) !! p = None.
Proof.
  intros Hp. unfold close_record, on_record. destruct (hub_heap h !! q) as [r|] eqn:Hq; [|done]. cbn.
  rewrite lookup_insert_ne; [done|]. intros ->. congruence.
Qed.

(** A step extends the log of every record, and a new record has its first event. *)
Lemma hub_step_extends h l h' p :
  hub_ok h → hub_step h l h' →
  (∀ r, hub_heap h !! p = Some r → ∃ r', hub_heap h' !! p = Some r' ∧ extends_log r (event_of p l) r')
  ∧ (hub_heap h !! p = None → match hub_heap h' !! p with
     | None => event_of p l = None
     | Some r' => ∃ e, event_of p l = Some e ∧ cs_events (rec_state r') = [e] ∧ cev_id e = 1 ∧ cs_next_id (rec_state r') = 2
     end).
Proof.
  intros Hok [q id mode o c n v h1 r1 Hq Hreg Hr1|q r event r' b' Hq Hs| |q Hq|id].
  - unfold register_command in Hreg. repeat (apply rbind_Ok in Hreg as (? & _ & Hreg)).
    destruct (is_some _); [done|]. destruct (_ <=? _); [done|]. apply rbind_Ok in Hreg as (rec & Hrec & [= <-]).
    unfold CorrelationRecord_new in Hrec. apply rbind_Ok in Hrec as (e & He & [= <-]).
    apply bounded_event_len in He as (_ & Hid & _). cbn in Hr1. rewrite lookup_insert_eq in Hr1. injection Hr1 as <-.
    cbn. split.
    + intros r Hp. destruct (decide (q = p)) as [->|Hne]; [congruence|]. exists r. rewrite lookup_insert_ne by done.
      split; [done|by apply extends_same].
    + intros Hp. destruct (decide (q = p)) as [->|Hne]; [rewrite lookup_insert_eq; by exists e|].
      by rewrite lookup_insert_ne, Hp.
  - pose proof (hub_record_step _ _ _ _ _ _ Hok Hq Hs) as Hst. split.
    + intros x Hx. eapply write_extends; [done| |done]. by eapply record_step_extends.
    + intros Hp. cbn. destruct (decide (q = p)) as [->|Hne]; [congruence|]. rewrite lookup_insert_ne, Hp by done.
      by apply event_of_none.
  - split; [|intros Hp; cbn; by rewrite Hp]. intros r Hr. exists r. split; [done|by apply extends_same].
  - split; [intros r; apply close_record_extends|]. intros Hp. by rewrite close_record_new.
  - unfold remove_if_inactive. destruct (hub_records h !! id) as [q|]; [|split; [|intros Hp; cbn; by rewrite Hp]].
    2: { intros r Hr. exists r. split; [done|by apply extends_same]. }
    destruct (is_some_and _ _); cbn [fst].
    + split; [|intros Hp; cbn; by rewrite Hp]. intros r Hr. exists r. split; [done|by apply extends_same].
    + split; [intros r Hr; by apply close_record_extends|]. intros Hp. by rewrite close_record_new.
Qed.

(** A subscriber, the events it received so far, and everything that was appended *)
Record Reader := mkReader {
  rd_record : nat;
  rd_after : N;
  rd_cursor : N;
  rd_received : list CorrelationEvent;
}.
Record World := mkWorld {
  w_hub : CorrelationHub;
  w_log : list (nat * CorrelationEvent);
  w_readers : list Reader;
}.
Definition log_of (p : nat) (log : list (nat * CorrelationEvent)) : list CorrelationEvent :=
  omap (λ entry, event_of p (Some entry)) log.

Inductive world_step (w : World) : World → Prop :=
| world_hub l h' : hub_step (w_hub w) l h' → world_step w (mkWorld h' (w_log w ++ option_list l) (w_readers w))
| world_subscribe p r after r' :
    hub_heap (w_hub w) !! p = Some r → record_subscribe r after = Ok r' →
    world_step w (mkWorld (hub_write (w_hub w) p r' (hub_budget (w_hub w) (rec_mode r))) (w_log w)
                    (w_readers w ++ [mkReader p after after []]))
| world_read i rd r e :
    w_readers w !! i = Some rd → hub_heap (w_hub w) !! rd_record rd = Some r →
    subscription_next r (rd_cursor rd) = Received e →
    world_step w (mkWorld (w_hub w) (w_log w)
      (<[i := mkReader (rd_record rd) (rd_after rd) (cev_id e) (rd_received rd ++ [e])]> (w_readers w))).

Definition world_new (maximum : N) : World := mkWorld (CorrelationHub_new maximum) [] [].

(** The numbers of a log *)
Definition ids_increase (events : list CorrelationEvent) : Prop := StronglySorted N.lt (cev_id <$> events).
Definition between (low high : N) (events : list CorrelationEvent) : list CorrelationEvent :=
  filter (λ e, low < cev_id e ∧ cev_id e <= high) events.

Record correlation_log_ok (r : CorrelationRecord) (log : list CorrelationEvent) : Prop := mkLogOk {
  lk_suffix : ∃ dropped, log = dropped ++ cs_events (rec_state r);
  lk_ids : cs_next_id (rec_state r) < u64_max → ids_increase log ∧ ∀ e, e ∈ log → cev_id e < cs_next_id (rec_state r);
}.

Definition reader_ok (w : World) (rd : Reader) : Prop :=
  ∃ r, hub_heap (w_hub w) !! rd_record rd = Some r
    ∧ (cs_next_id (rec_state r) < u64_max →
       rd_after rd <= rd_cursor rd ∧ rd_cursor rd < cs_next_id (rec_state r)
       ∧ rd_received rd = between (rd_after rd) (rd_cursor rd) (log_of (rd_record rd) (w_log w))).

Record world_ok (w : World) : Prop := mkWorldOk {
  wo_hub : hub_ok (w_hub w);
  wo_log p r : hub_heap (w_hub w) !! p = Some r → correlation_log_ok r (log_of p (w_log w));
  wo_new p : hub_heap (w_hub w) !! p = None → log_of p (w_log w) = [];
  wo_next p r : hub_heap (w_hub w) !! p = Some r → 1 <= cs_next_id (rec_state r);
  wo_readers rd : rd ∈ w_readers w → reader_ok w rd;
}.

Lemma log_of_app p log l : log_of p (log ++ option_list l) = log_of p log ++ option_list (event_of p l).
Proof.
  unfold log_of. rewrite omap_app. f_equal. destruct l as [[q e]|]; [|done]. cbn. by destruct (decide (q = p)).
Qed.

Lemma ids_increase_app l e : ids_increase l → (∀ x, x ∈ l → cev_id x < cev_id e) → ids_increase (l ++ [e]).
Proof.
  intros Hl He. unfold ids_increase. rewrite fmap_app. apply StronglySorted_app. split_and!; [|done|by repeat constructor].
  intros x y (x' & -> & Hx)%list_elem_of_fmap (y' & -> & ->%list_elem_of_singleton)%list_elem_of_fmap. by apply He.
Qed.

Lemma extends_log_ok r event r' log :
  correlation_log_ok r log → extends_log r event r' → correlation_log_ok r' (log ++ option_list event).
Proof.
  intros [[d ->] Hids] [[d' E] Hn]. constructor.
  - exists (d ++ d'). rewrite <- !app_assoc. by f_equal.
  - intros Hlt. destruct (Hn Hlt) as [Hle He]. destruct Hids as [Hinc Hbelow]; [lia|].
    destruct event as [e|]; cbn [option_list]; [|rewrite app_nil_r; split; [done|]; intros x Hx; specialize (Hbelow x Hx); lia].
    destruct (He e eq_refl) as [Hid Hnext]. split.
    + apply ids_increase_app; [done|]. intros x Hx. rewrite Hid. by apply Hbelow.
    + intros x [Hx| ->%list_elem_of_singleton]%elem_of_app; [specialize (Hbelow x Hx)|]; lia.
Qed.

Lemma between_app low high l k : between low high (l ++ k) = between low high l ++ between low high k.
Proof. apply filter_app. Qed.

Lemma between_none low high l : (∀ e, e ∈ l → high < cev_id e) → between low high l = [].
Proof.
  intros H. unfold between. destruct (filter _ l) as [|e k] eqn:E; [done|].
  assert (e ∈ filter (λ e, low < cev_id e ∧ cev_id e <= high) l) as [Hb He]%list_elem_of_filter by (rewrite E; left).
  specialize (H e He). lia.
Qed.

(** What is appended has a number above every cursor. *)
Lemma reader_extends w rd event r r' log' :
  rd_after rd <= rd_cursor rd → rd_cursor rd < cs_next_id (rec_state r) → extends_log r event r' →
  cs_next_id (rec_state r') < u64_max →
  rd_received rd = between (rd_after rd) (rd_cursor rd) (log_of (rd_record rd) (w_log w)) →
  log' = log_of (rd_record rd) (w_log w) ++ option_list event →
  rd_received rd = between (rd_after rd) (rd_cursor rd) log'.
Proof.
  intros Ha Hc [_ Hn] Hlt Hrec ->. rewrite between_app, <- Hrec. destruct (Hn Hlt) as [_ He].
  rewrite (between_none _ _ (option_list event)); [by rewrite app_nil_r|].
  intros e Hin. destruct event as [e'|]; cbn in Hin; [|by apply elem_of_nil in Hin].
  apply list_elem_of_singleton in Hin as ->. destruct (He e' eq_refl) as [-> _]. done.
Qed.

Lemma world_hub_ok w l h' : world_ok w → hub_step (w_hub w) l h' → world_ok (mkWorld h' (w_log w ++ option_list l) (w_readers w)).
Proof.
  intros [Hok Hlog Hnew Hnext Hrd] Hs. constructor; cbn [w_hub w_log w_readers].
  - by eapply hub_step_ok.
  - intros p r' Hr'. destruct (hub_step_extends _ _ _ p Hok Hs) as [Hold Hfresh]. rewrite log_of_app.
    destruct (hub_heap (w_hub w) !! p) as [r|] eqn:Hp.
    + destruct (Hold r eq_refl) as (r1 & Hr1 & He). rewrite Hr' in Hr1. injection Hr1 as <-.
      eapply extends_log_ok; [by apply Hlog|done].
    + specialize (Hfresh eq_refl). rewrite Hr' in Hfresh. destruct Hfresh as (e & -> & E & Hid & Hn). rewrite Hnew by done.
      constructor; [exists []; by rewrite E|]. intros _. cbn. split; [repeat constructor|].
      intros x ->%list_elem_of_singleton. rewrite Hid, Hn. lia.
  - intros p Hp. destruct (hub_step_extends _ _ _ p Hok Hs) as [Hold Hfresh]. rewrite log_of_app.
    destruct (hub_heap (w_hub w) !! p) as [r|] eqn:Hp0.
    + destruct (Hold r eq_refl) as (r1 & Hr1 & _). congruence.
    + specialize (Hfresh eq_refl). rewrite Hp in Hfresh. by rewrite Hfresh, Hnew.
  - intros p r' Hr'. destruct (hub_step_extends _ _ _ p Hok Hs) as [Hold Hfresh].
    destruct (hub_heap (w_hub w) !! p) as [r|] eqn:Hp.
    + destruct (Hold r eq_refl) as (r1 & Hr1 & [_ Hn]). rewrite Hr' in Hr1. injection Hr1 as <-.
      pose proof (Hnext p r Hp). destruct (N.lt_ge_cases (cs_next_id (rec_state r')) u64_max) as [Hlt|Hge].
      * destruct (Hn Hlt). lia.
      * eapply N.le_trans; [|exact Hge]. by vm_compute.
    + specialize (Hfresh eq_refl). rewrite Hr' in Hfresh. destruct Hfresh as (e & _ & _ & _ & ->). lia.
  - intros rd Hin. destruct (Hrd rd Hin) as (r & Hr & Hread).
    destruct (hub_step_extends _ _ _ (rd_record rd) Hok Hs) as [Hold _]. destruct (Hold r Hr) as (r' & Hr' & He).
    exists r'. split; [done|]. intros Hlt. destruct (xl_number _ _ _ He Hlt) as [Hle _].
    destruct Hread as (Ha & Hc & Hrec); [lia|]. split_and!; [done|lia|]. cbn [w_log].
    eapply reader_extends; [done|done|exact He|done|done|by rewrite log_of_app].
Qed.

Lemma ids_increase_before l k x y : ids_increase (l ++ k) → x ∈ l → y ∈ k → cev_id x < cev_id y.
Proof.
  unfold ids_increase. rewrite fmap_app. intros (H & _ & _)%StronglySorted_app Hx Hy.
  apply H; by apply list_elem_of_fmap_2.
Qed.

(** Everything before [e] was seen and everything after it has a larger number. *)
Lemma between_next front e post low cursor :
  (∀ x, x ∈ front → cev_id x <= cursor) → cursor < cev_id e → (∀ x, x ∈ post → cev_id e < cev_id x) → low <= cursor →
  between low (cev_id e) (front ++ e :: post) = between low cursor (front ++ e :: post) ++ [e].
Proof.
  intros Hf He Hp Hlow. rewrite (between_app low cursor), (between_none _ cursor (e :: post)), app_nil_r.
  2: { intros x [->|Hx]%elem_of_cons; [done|]. specialize (Hp x Hx). lia. }
  rewrite between_app. f_equal.
  - apply filter_agree. intros x Hx. specialize (Hf x Hx). lia.
  - unfold between. rewrite filter_cons_True by lia. f_equal. by apply between_none.
Qed.

(** The next event a subscriber is given is the first one it has not seen. *)
Lemma received_next r log cursor e :
  correlation_log_ok r log → cs_next_id (rec_state r) < u64_max → subscription_next r cursor = Received e →
  cursor < cev_id e ∧ cev_id e < cs_next_id (rec_state r)
  ∧ ∀ low, low <= cursor → between low (cev_id e) log = between low cursor log ++ [e].
Proof.
  intros [[dropped ->] Hids] Hlt. destruct (Hids Hlt) as [Hinc Hbelow]. unfold subscription_next, event_after_or_closed.
  destruct (is_some_and _ _) eqn:Elag; [done|].
  destruct (List.find _ _) as [e'|] eqn:Ef; [intros [= <-]|by destruct (_ && _)].
  destruct (find_split _ _ _ Ef) as (pre & post & E & Hpre & He%N.ltb_lt). clear Ef. rewrite E in *.
  split_and!; [done|apply Hbelow; rewrite elem_of_app; right; set_solver|]. intros low Hlow.
  rewrite app_assoc in *. apply between_next; [|done| |done].
  - intros x [Hx|Hx]%elem_of_app; [|by apply N.ltb_ge, Hpre].
    destruct (pre ++ e' :: post) as [|first rest] eqn:El; [by destruct pre|]. cbn in Elag. apply N.ltb_ge in Elag.
    rewrite <- app_assoc, El in Hinc. assert (cev_id x < cev_id first) by (eapply ids_increase_before; [exact Hinc|done|left]).
    unfold saturating_add in Elag. lia.
  - intros x Hx. rewrite (cons_middle e') , app_assoc in Hinc. eapply ids_increase_before; [exact Hinc|set_solver|done].
Qed.

Lemma world_step_ok w w' : world_ok w → world_step w w' → world_ok w'.
Proof.
  intros Hok [l h' Hs|p r after r' Hp Hsub|i rd r e Hi Hr Hnext].
  - by apply world_hub_ok.
  - assert (hub_step (w_hub w) None (hub_write (w_hub w) p r' (hub_budget (w_hub w) (rec_mode r)))) as Hs
      by exact (step_record (w_hub w) p r None r' _ Hp (step_subscribe r _ after r' Hsub)).
    pose proof (world_hub_ok _ _ _ Hok Hs) as [H1 H2 H3 H4 H5]. cbn [option_list] in *. rewrite app_nil_r in *.
    constructor; try done. intros rd [Hrd| ->%list_elem_of_singleton]%elem_of_app; [by apply H5|].
    exists r'. cbn [rd_record w_hub hub_heap hub_write rd_after rd_cursor rd_received w_log]. rewrite lookup_insert_eq. split; [done|].
    intros _. pose proof (wo_next w Hok p r Hp). unfold record_subscribe in Hsub. destruct (rec_closed r); [done|].
    destruct (N.ltb_spec (cs_next_id (rec_state r) - 1) after); [done|]. destruct (_ <? _); [done|]. injection Hsub as <-.
    split_and!; [done|cbn; lia|]. symmetry. unfold between. induction (log_of p (w_log w)) as [|x l IH]; [done|].
    rewrite filter_cons_False; [done|lia].
  - destruct Hok as [H1 H2 H3 H4 H5]. constructor; try done. cbn [w_readers]. intros rd' Hrd'.
    apply list_elem_of_lookup in Hrd' as [j [(_ & <- & _)|[_ Hj]]%list_lookup_insert_Some]; [|by apply H5; eapply list_elem_of_lookup_2].
    destruct (H5 rd) as (r0 & Hr0 & Hrd); [by eapply list_elem_of_lookup_2|]. rewrite Hr in Hr0. injection Hr0 as <-.
    exists r. split; [done|]. intros Hlt. destruct (Hrd Hlt) as (Ha & Hc & Hrec).
    destruct (received_next r _ _ _ (H2 _ _ Hr) Hlt Hnext) as (He & Hlast & Hb).
    cbn [rd_record rd_after rd_cursor rd_received w_log]. split_and!; [lia|done|].
    rewrite Hb by done. by rewrite <- Hrec.
Qed.

(** *** The operations of the hub are such steps *)

(** Other tasks take steps of the hub too. *)
Definition evolving (env : Interference) : Prop := ∀ t h, hub_evolves h (env t h).

Lemma on_record_evolves {A} h p
    (f : CorrelationRecord → RawEvidenceBudget → CorrelationRecord * RawEvidenceBudget * result A CorrelationError) :
  (∀ r b r' b' answer, f r b = (r', b', answer) → r' = r ∧ b' = b ∨ ∃ event, record_step r b event r' b') →
  hub_evolves h (on_record h p f).1.
Proof.
  intros Hf. unfold on_record. destruct (hub_heap h !! p) as [r|] eqn:Hp; [|by apply rtc_refl].
  destruct (f r (hub_budget h (rec_mode r))) as [[r' b'] answer] eqn:E. cbn [fst].
  destruct (Hf _ _ _ _ _ E) as [[-> ->]|[event Hs]].
  - assert (hub_write h p r (hub_budget h (rec_mode r)) = h) as ->; [|by apply rtc_refl].
    destruct h; unfold hub_write, hub_budget; cbn in *. rewrite insert_id by done. by destruct (is_dispatch _).
  - apply rtc_once. eexists. by apply (step_record h p r event r' b').
Qed.

Lemma hub_operation_evolves {A} env h id mode
    (f : CorrelationRecord → RawEvidenceBudget → CorrelationRecord * RawEvidenceBudget * result A CorrelationError) :
  evolving env →
  (∀ r b r' b' answer, f r b = (r', b', answer) → r' = r ∧ b' = b ∨ ∃ event, record_step r b event r' b') →
  hub_evolves h (hub_operation env h id mode f).1.
Proof.
  intros Henv Hf. unfold hub_operation. destruct (hub_record h id) as [p|]; [|by apply rtc_refl].
  destruct (from_option _ _ mode); [|by apply rtc_refl]. etrans; [apply (Henv 0%nat)|by apply on_record_evolves].
Qed.

Lemma observe_evolves env h id mode kind : evolving env → hub_evolves h (observe env h id mode kind).1.
Proof.
  intros Henv. apply hub_operation_evolves; [done|]. intros r b r' b' answer. unfold plain.
  destruct (record_append r kind) as [r1 a] eqn:E. intros [= <- <- <-]. right. eexists. by eapply step_append.
Qed.

Lemma observe_then_log_evolves env h id mode ignore m kind :
  evolving env → hub_evolves h (observe_then_log env h id mode ignore m kind).1.
Proof.
  intros Henv. unfold observe_then_log.
  assert (hub_evolves h (observe_message env h id mode m).1) as H.
  { apply hub_operation_evolves; [done|]. intros r b r' b' answer E. right. eexists. by eapply step_message. }
  destruct (observe_message env h id mode m) as [h1 [[]|[]]]; cbn [fst] in *; try done.
  etrans; [exact H|]. etrans; [apply (Henv 1%nat)|]. apply observe_evolves. intros t h'. apply Henv.
Qed.

Lemma observe_command_outcome_evolves env h id response command outcome :
  evolving env → hub_evolves h (observe_command_outcome env h id response command outcome).1.
Proof.
  intros Henv. unfold observe_command_outcome. destruct (map_err _ _) as [o|]; [|by apply rtc_refl].
  assert (hub_evolves h (hub_operation env h id None (record_insert insert_command_outcome_evidence o)).1) as H.
  { apply hub_operation_evolves; [done|]. intros r b r' b' answer E. right. eexists. by eapply step_outcome. }
  by destruct (hub_operation _ _ _ _ _) as [h1 a].
Qed.

Lemma record_observation_failure_evolves env h mode id identity message :
  evolving env → hub_evolves h (record_observation_failure env h mode id identity message).1.
Proof.
  intros Henv. apply hub_operation_evolves; [done|]. intros r b r' b' answer. unfold plain.
  destruct (retain_observation_failure r _) as [r1 a] eqn:E. intros [= <- <- <-]. right. eexists. by eapply step_failure.
Qed.

Lemma subscribe_evolves env h id after : evolving env → hub_evolves h (subscribe_with_mode env h id after).1.
Proof.
  intros Henv. apply hub_operation_evolves; [done|]. intros r b r' b' answer. unfold plain, answer_with.
  destruct (record_subscribe r after) as [r1|] eqn:E; intros [= <- <- <-]; [|by left].
  right. eexists. by eapply step_subscribe.
Qed.

Lemma subscribe_evidence_evolves env h id : evolving env → hub_evolves h (subscribe_evidence env h id).1.
Proof.
  intros Henv. apply hub_operation_evolves; [done|]. intros r b r' b' answer. unfold plain, answer_with.
  destruct (record_subscribe_evidence r) as [[r1 rev]|] eqn:E; intros [= <- <- <-]; [|by left].
  right. eexists. by eapply step_watch.
Qed.

(** A record that left the table never comes back. *)
Definition detached (h : CorrelationHub) (p : nat) : Prop :=
  is_Some (hub_heap h !! p) ∧ ∀ id, hub_records h !! id ≠ Some p.

Lemma close_record_records h p : hub_records (close_record h p) = hub_records h.
Proof. unfold close_record, on_record. by destruct (hub_heap h !! p). Qed.

Lemma detached_step h l h' p : hub_ok h → hub_step h l h' → detached h p → detached h' p.
Proof.
  intros Hok Hs [[r Hr] Hp]. split.
  { destruct (hub_step_extends _ _ _ p Hok Hs) as [Hold _]. destruct (Hold r Hr) as (r' & Hr' & _). by exists r'. }
  intros id'. specialize (Hp id'). destruct Hs as [q id mode o c n v h1 r1 Hq Hreg _|q r1 event r' b' _ _| |q _|id]; try done.
  - unfold register_command in Hreg. repeat (apply rbind_Ok in Hreg as (? & _ & Hreg)).
    destruct (is_some _); [done|]. destruct (_ <=? _); [done|]. apply rbind_Ok in Hreg as (rec & _ & [= <-]).
    cbn. intros [[_ ->]|[_ ?]]%lookup_insert_Some; [congruence|done].
  - cbn. by intros [? _]%map_lookup_filter_Some.
  - by rewrite close_record_records.
  - unfold remove_if_inactive. destruct (hub_records h !! id) as [q|]; [|done]. destruct (is_some_and _ _); [done|].
    cbn [fst]. rewrite close_record_records. cbn. by intros [_ ?]%lookup_delete_Some.
Qed.

Lemma detached_evolves h h' p : hub_evolves h h' → hub_ok h → detached h p → hub_ok h' ∧ detached h' p.
Proof.
  intros H. induction H as [|x y z [l Hs] _ IH]; [done|]. intros Hx Hd. apply IH; [by eapply hub_step_ok|by eapply detached_step].
Qed.

Lemma close_all_evolves env l : ∀ h, evolving env → hub_ok h → (∀ p, p ∈ l.*2 → detached h p) →
  hub_evolves h (foldl (λ h '(t, p), close_record (env t h) p) h l).
Proof.
  induction l as [|[t p] l IH]; intros h Henv Hok Hd; cbn [foldl]; [done|].
  assert (∀ q, detached h q → hub_ok (env t h) ∧ detached (env t h) q) as Hkeep by (intros q; by apply detached_evolves).
  destruct (Hkeep p) as [Hok' [_ Hp]]; [apply Hd; left|].
  assert (hub_step (env t h) None (close_record (env t h) p)) as Hs by (by constructor).
  etrans; [apply (Henv t)|]. etrans; [apply rtc_once; by exists None|]. apply IH; [done|by eapply hub_step_ok|].
  intros q Hq. eapply detached_step; [done|exact Hs|]. apply Hkeep, Hd. by right.
Qed.

Lemma retain_dispatch_evolves env h : evolving env → hub_ok h → hub_evolves h (retain_dispatch_correlations env h).
Proof.
  intros Henv Hok. unfold retain_dispatch_correlations. etrans; [apply rtc_once; exists None; constructor|].
  apply close_all_evolves; [done|by apply retain_dispatch_ok|]. intros p Hp.
  assert (p ∈ removed_records h) as Hin.
  { apply list_elem_of_fmap in Hp as ([t q] & -> & Hq). apply list_elem_of_lookup in Hq as [j Hq].
    rewrite list_lookup_imap in Hq. destruct (removed_records h !! j) as [q'|] eqn:E; [|done]. cbn in Hq. injection Hq as _ <-.
    by eapply list_elem_of_lookup_2. }
  apply list_elem_of_fmap in Hin as ([id q] & -> & Hq%elem_of_map_to_list).
  apply map_lookup_filter_Some in Hq as [Hq Hdis]. cbn in Hdis. destruct (ho_table h Hok _ _ Hq) as (r & Hr & Eid & _).
  split; [by exists r|]. intros id' [Hq' Hd']%map_lookup_filter_Some. cbn in *. congruence.
Qed.

(** ** What the hub promises *)

(** The bytes of the logs that the table holds *)
Definition logged_bytes (h : CorrelationHub) : N :=
  foldr (λ e n, from_option (λ r, cs_retained_bytes (rec_state r)) 0 (hub_heap h !! e.2) + n) 0
    (map_to_list (hub_records h)).

Lemma logged_bytes_le h : hub_ok h → logged_bytes h <= MAXIMUM_TOTAL_CORRELATION_BYTES.
Proof.
  intros Hok. assert (logged_bytes h <= N.of_nat (size (hub_records h)) * hub_maximum_bytes h) as Hle.
  { unfold logged_bytes. rewrite <- length_map_to_list. induction (map_to_list (hub_records h)) as [|[id p] l IH]; [done|].
    cbn [foldr length snd]. destruct (hub_heap h !! p) as [r|] eqn:Er; cbn [from_option]; [|lia].
    destruct (ho_records h Hok p r Er) as [_ Emb [_ _ _ Hmax] _ _]. lia. }
  rewrite (ho_maximum_bytes h Hok) in Hle. pose proof (ho_size h Hok). pose proof (ho_correlations h Hok).
  set (c := hub_maximum_correlations h) in *. unfold correlation_byte_budget in Hle. rewrite (N.max_l c 1) in Hle by done.
  pose proof (N.le_min_l (MAXIMUM_TOTAL_CORRELATION_BYTES / c) DEFAULT_MAXIMUM_BYTES_PER_CORRELATION) as Hmin.
  pose proof (N.Div0.mul_div_le MAXIMUM_TOTAL_CORRELATION_BYTES c).
  etrans; [exact Hle|]. etrans; [apply N.mul_le_mono; [done|exact Hmin]|done].
Qed.

(** C38 (bounds). However its operations interleave, the tracer's hub stays
    within its bounds: at most as many correlations as configured, at most 512
    events and the byte share of each in its log, all logs together at most 64 MiB;
    the evidence of a correlation is a well-formed series with at most 64 conflicts
    in 4 MiB, and what the budget of a capability counts is exactly the evidence
    its open correlations retain, at most 32 MiB. Every operation of an observer,
    with other tasks in between, is a sequence of such steps. *)
Theorem correlations_stay_within_bounds maximum h :
  hub_evolves (CorrelationHub_new maximum) h →
  hub_ok h ∧ logged_bytes h <= MAXIMUM_TOTAL_CORRELATION_BYTES
  ∧ ∀ env, evolving env →
    (∀ mode continuous policy id o, hub_evolves h (observe_domain_event env h mode continuous policy id o).1)
    ∧ (∀ mode continuous policy id o, hub_evolves h (observe_integration_event env h mode continuous policy id o).1)
    ∧ (∀ id op m cause dup ctx name v payload, hub_evolves h (observe_command env h id op m cause dup ctx name v payload).1)
    ∧ (∀ id response command outcome, hub_evolves h (observe_command_outcome env h id response command outcome).1)
    ∧ (∀ id op outcome result, hub_evolves h (command_result env h id op outcome result).1)
    ∧ (∀ mode id identity message, hub_evolves h (record_observation_failure env h mode id identity message).1)
    ∧ (∀ id after, hub_evolves h (subscribe_with_mode env h id after).1)
    ∧ (∀ id, hub_evolves h (subscribe_evidence env h id).1)
    ∧ hub_evolves h (retain_dispatch_correlations env h).
Proof.
  intros Hh. assert (hub_ok h) as Hok by (by apply (hub_evolves_ok _ _ Hh), hub_new_ok).
  split; [done|]. split; [by apply logged_bytes_le|]. intros env Henv. split_and!; intros.
  - unfold observe_domain_event. destruct (domain_event_aggregate o); [by apply observe_then_log_evolves|done].
  - by apply observe_then_log_evolves.
  - by apply observe_then_log_evolves.
  - by apply observe_command_outcome_evolves.
  - by apply observe_evolves.
  - by apply record_observation_failure_evolves.
  - by apply subscribe_evolves.
  - by apply subscribe_evidence_evolves.
  - by apply retain_dispatch_evolves.
Qed.

(** A subscriber that has to wait has seen the whole log. *)
Lemma waiting_saw_all r log cursor :
  correlation_log_ok r log → events_ok r → cs_next_id (rec_state r) < u64_max → subscription_next r cursor = Waiting →
  ∀ e, e ∈ log → cev_id e <= cursor.
Proof.
  intros [[dropped ->] Hids] Hev Hlt. destruct (Hids Hlt) as [Hinc _]. unfold subscription_next, event_after_or_closed.
  destruct (is_some_and _ _) eqn:Elag; [done|]. destruct (List.find _ _) as [e'|] eqn:Ef; [done|]. intros _.
  pose proof (List.find_none _ _ Ef) as Hnone.
  assert (∀ e, e ∈ cs_events (rec_state r) → cev_id e <= cursor) as Hall.
  { intros e He. apply N.ltb_ge, Hnone. by apply list_elem_of_In. }
  intros e [He|He]%elem_of_app; [|by apply Hall]. pose proof (eo_some r Hev).
  destruct (cs_events (rec_state r)) as [|first rest]; [done|].
  assert (cev_id e < cev_id first) by (eapply ids_increase_before; [exact Hinc|done|left]).
  specialize (Hall first (list_elem_of_here _ _)). lia.
Qed.

Lemma split_at_cursor low cursor log : ids_increase log → low <= cursor →
  filter (λ e, low < cev_id e) log = between low cursor log ++ filter (λ e, cursor < cev_id e) log.
Proof.
  intros Hinc Hlow. induction log as [|e log IH]; [done|]. unfold between in *. rewrite !filter_cons.
  unfold ids_increase in Hinc. cbn in Hinc. apply StronglySorted_inv in Hinc as [Hinc He].
  destruct (decide (cursor < cev_id e)) as [Hc|Hc].
  - rewrite decide_True by lia. rewrite decide_False by lia.
    assert (∀ x, x ∈ log → cursor < cev_id x) as Hall.
    { intros x Hx. pose proof (proj1 (Forall_forall _ _) He (cev_id x) (list_elem_of_fmap_2 cev_id _ _ Hx)). cbn in *. lia. }
    fold (between low cursor log). rewrite (between_none low cursor log Hall). cbn. f_equal.
    apply filter_agree. intros x Hx. specialize (Hall x Hx). lia.
  - rewrite IH by done. destruct (decide (low < cev_id e)).
    + by rewrite decide_True by lia.
    + by rewrite decide_False by lia.
Qed.

(** C25 (safety). A subscriber of a correlation misses nothing. What it has received
    is, in order and without gaps, the beginning of everything appended after the
    event it subscribed from, however appends, evictions, removals and other
    subscribers interleave; and when it has to wait it has received all of it. Events
    it can no longer get end the subscription instead. *)
Theorem subscriber_misses_nothing maximum w rd r :
  rtc world_step (world_new maximum) w → rd ∈ w_readers w → hub_heap (w_hub w) !! rd_record rd = Some r →
  cs_next_id (rec_state r) < u64_max →
  ∃ rest, filter (λ e, rd_after rd < cev_id e) (log_of (rd_record rd) (w_log w)) = rd_received rd ++ rest
    ∧ (subscription_next r (rd_cursor rd) = Waiting → rest = [])
    ∧ (∀ e, subscription_next r (rd_cursor rd) = Received e → head rest = Some e).
Proof.
  intros Hw Hrd Hr Hlt. assert (world_ok w) as Hok.
  { revert Hw. apply (rtc_ind_r (λ w, world_ok w)); [|intros x y _ Hs Hx; by eapply world_step_ok].
    constructor; cbn; try done; [apply hub_new_ok|by intros ? ?%elem_of_nil]. }
  destruct (wo_readers w Hok rd Hrd) as (r0 & Hr0 & Hread). rewrite Hr in Hr0. injection Hr0 as <-.
  destruct (Hread Hlt) as (Ha & Hc & Hrec). pose proof (wo_log w Hok _ _ Hr) as Hlog.
  destruct (lk_ids _ _ Hlog Hlt) as [Hinc _]. rewrite (split_at_cursor _ (rd_cursor rd)) by done. rewrite <- Hrec.
  eexists. split; [reflexivity|]. split.
  - intros Hwait. pose proof (ro_events _ _ (ho_records _ (wo_hub w Hok) _ _ Hr)) as Hev.
    pose proof (waiting_saw_all _ _ _ Hlog Hev Hlt Hwait) as Hall.
    destruct (filter _ _) as [|e rest] eqn:E; [done|].
    assert (e ∈ filter (λ e, rd_cursor rd < cev_id e) (log_of (rd_record rd) (w_log w))) as [He Hin]%list_elem_of_filter
      by (rewrite E; left).
    specialize (Hall e Hin). lia.
  - intros e He. destruct (received_next _ _ _ _ Hlog Hlt He) as (Hcur & _ & Hb).
    rewrite (split_at_cursor _ (cev_id e)) by (done || lia). rewrite Hb by done.
    assert (between (rd_cursor rd) (rd_cursor rd) (log_of (rd_record rd) (w_log w)) = []) as ->; [|done].
    unfold between. destruct (filter _ _) as [|x l] eqn:E; [done|].
    assert (x ∈ filter (λ e, rd_cursor rd < cev_id e ∧ cev_id e <= rd_cursor rd) (log_of (rd_record rd) (w_log w))) as [Hx _]%list_elem_of_filter
      by (rewrite E; left). lia.
Qed.
End Facts.
