(* ===== verification/TracerSamples.v ===== *)
(** * TracerSamples: a graph of expected messages, what was observed of it, and the
    inputs at which the theorems of the tracer are applied. *)

From S2P Require Export TracerSteps TracerHubFacts BusSamples.

#[local] Instance sample_order : HashMapOrder := {| hash_entries := map_to_list; hash_entries_all := λ m, reflexivity _ |}.
#[local] Instance sample_number_eq_dec : EqDecision (Number (JsonText := sample_text)) := N.eq_dec.

(** A message is shown by its name. *)
#[local] Instance sample_documents : DocumentJson :=
  {| expected_to_value := λ m, Ok (VString (node_name m));
     observed_to_value := λ m, Ok (VString (observed_name m));
     response_outcome_to_value := λ o, Ok (VBool (match o with ResponseAccepted => true | _ => false end));
     number_from := id |}.

(** An order is placed: its event causes a reservation and a notification. *)
Definition placed_payload : JValue := VObject [("sku", VString "a-1")].
Definition expected_messages : list ExpectedMessageNode :=
  [ExpectedCommand "place" None "PlaceOrder" 1 "orders" (Some placed_payload) TestAccepted;
   ExpectedDomainEvent "placed" (Some "place") "OrderPlaced" 1 (Some placed_payload);
   ExpectedCommand "reserve" (Some "placed") "ReserveStock" 1 "stock" None TestAccepted;
   ExpectedIntegrationEvent "notify" (Some "placed") "OrderPlaced" 1 None].
Definition one_second : TestTimeout := mkTestTimeout 1000.
Definition order_graph : MessageGraphDefinition := mkGraph (Some one_second) None (mkSeries expected_messages).

(** The effects are observed before their causes, one of them twice, and a payload
    may hold more than was asked for. *)
Definition full_payload : JValue := VObject [("count", VNumber (2 : Number)); ("sku", VString "a-1")].
Definition observed_place := ObservedCommand "m-1" "c-1" None 0 "PlaceOrder" 1 "orders" (Some full_payload).
Definition observed_placed :=
  ObservedDomainEvent "m-2" "c-1" (Some "m-1") 0 "OrderPlaced" 1 None (Some full_payload).
Definition observed_reserve := ObservedCommand "m-3" "c-1" (Some "m-2") 0 "ReserveStock" 1 "stock" None.
Definition observed_notify := ObservedIntegrationEvent "m-4" "c-1" (Some "m-2") 0 "OrderPlaced" 1 None.
Definition observed_answer (id command : string) := mkObservedOutcome id command "c-1" 0 ResponseAccepted.
Definition order_observed : result ObservedMessageSeries ObservedMessageSeriesError :=
  observed_try_from_parts [observed_notify; observed_reserve; observed_placed; observed_notify; observed_place]
    [observed_answer "r-3" "m-3"; observed_answer "r-1" "m-1"].

Definition no_deadline : MessageSeriesComparisonContext := mkComparisonContext false None None None.

Definition compared (observed : result ObservedMessageSeries ObservedMessageSeriesError)
    (context : MessageSeriesComparisonContext) : option (MessageSeriesComparisonStatus * list (string * string) * list string) :=
  match observed with
  | Ok s =>
    let c := compare_message_series order_graph s context in
    Some (cmp_status c, map (λ m, (match_expected_key m, match_observed_message_id m)) (cmp_matches c),
          map diag_code (cmp_diagnostics c))
  | Err _ => None
  end.

Example order_graph_built : graph_try_from_nodes expected_messages (Some one_second) None = Ok order_graph.
Proof. by vm_compute. Qed.

Example order_passes : compared order_observed no_deadline =
  Some (ComparisonPassed, [("notify", "m-4"); ("place", "m-1"); ("placed", "m-2"); ("reserve", "m-3")], []).
Proof. by vm_compute. Qed.

(** Without the reservation, and with one message too many after the settlement began *)
Definition order_incomplete :=
  observed_try_from_parts [observed_notify; observed_placed; observed_place] [observed_answer "r-1" "m-1"].
Example order_late : compared order_incomplete (mkComparisonContext true None (Some 2) None) =
  Some (ComparisonFailed, [("notify", "m-4"); ("place", "m-1"); ("placed", "m-2")],
        ["timeout-before-expectations"; "missing-expected"; "command-outcome-during-settle"; "message-during-settle"]).
Proof. by vm_compute. Qed.

(** ** Witnesses *)

Example sizes_that_fit : enough_steps 36 36 ∧ ¬ enough_steps 37 37.
Proof. by split; vm_compute. Qed.

Definition order_series : ObservedMessageSeries :=
  match order_observed with Ok s => s | Err _ => observed_new end.

Lemma order_series_observed : rtc observed_step observed_new order_series.
Proof. apply (try_from_parts_steps _ _ _ (eq_refl : order_observed = Ok order_series)). Qed.

Lemma comparison_is_exact_witness :
  (∃ A, as_expected order_graph order_series no_deadline A)
  ∧ cmp_status (compare_message_series order_graph order_series no_deadline) = ComparisonPassed.
Proof.
  destruct (comparison_is_exact expected_messages (Some one_second) None order_graph order_series no_deadline)
    as [Hpassed _]; [by vm_compute|exact order_series_observed|].
  assert (cmp_status (compare_message_series order_graph order_series no_deadline) = ComparisonPassed) as E by (by vm_compute).
  split; [|exact E]. destruct (Hpassed E) as (A & HA & _). by exists A.
Defined.

Lemma accepted_series_were_observed_witness :
  observed_from_wire (mkObservedWire (series_nodes (obs_messages order_series)) (obs_command_outcomes order_series))
    = Ok order_series.
Proof. apply accepted_series_were_observed. split; [exact order_series_observed|done]. Defined.

(** Outcomes in another order than they were observed in are not accepted. *)
Example reordered_outcomes_are_refused :
  observed_from_wire (mkObservedWire []
    [set_outcome_order (observed_answer "r-1" "m-1") 1; set_outcome_order (observed_answer "r-2" "m-2") 0])
    = Err (ObservedMessageSeriesError_display InvalidObservationOrder).
Proof. by vm_compute. Qed.

(** ** A correlation and its subscriber *)

#[local] Instance sample_correlations : CorrelationJson :=
  {| event_text := λ e, Ok (as_bytes (event_name (cev_kind e)));
     series_text := λ s, Ok [];
     evidence_text := λ s l, Ok (as_bytes "{}");
     observed_outcome_to_value := λ o, Ok VNull |}.

Definition registered (maximum : N) : CorrelationHub :=
  match register_command (CorrelationHub_new maximum) 0 "c-1" ModeTest "o-1" "orders" "PlaceOrder" 1 with
  | Ok h => h
  | Err _ => CorrelationHub_new maximum
  end.

Lemma registered_step maximum r :
  hub_heap (registered maximum) !! 0%nat = Some r →
  register_command (CorrelationHub_new maximum) 0 "c-1" ModeTest "o-1" "orders" "PlaceOrder" 1 = Ok (registered maximum) →
  hub_step (CorrelationHub_new maximum) ((0%nat,.) <$> head (cs_events (rec_state r))) (registered maximum).
Proof. intros Hr Hreg. by apply (step_register _ 0 "c-1" ModeTest "o-1" "orders" "PlaceOrder" 1). Qed.

(** What an observer reports of an event that the command caused, and its log *)
Definition placed_observation : DomainEventObservation :=
  mkDomainObservation "m-2" (Some "m-1") "OrderPlaced" 1 None None None (Some placed_payload).
Definition undisturbed (t : nat) (h : CorrelationHub) : CorrelationHub := h.
Definition observed_hub : CorrelationHub :=
  (observe_domain_event undisturbed (registered 2) ModeTest false (λ _, None) "c-1" placed_observation).1.

Example observation_logged :
  (λ r, (map (λ e, (cev_id e, event_name (cev_kind e))) (cs_events (rec_state r)),
         len (series_nodes (obs_messages (ev_observed (rec_evidence r)))), ev_retained_bytes (rec_evidence r)))
    <$> hub_heap observed_hub !! 0%nat = Some ([(1, "command"); (2, "domain-event")], 1, 2)
  ∧ budget_retained (hub_control_budget observed_hub) = 2.
Proof. by vm_compute. Qed.

Lemma correlations_stay_within_bounds_witness :
  hub_ok observed_hub ∧ logged_bytes observed_hub = 19.
Proof.
  assert (hub_evolves (CorrelationHub_new 2) (registered 2)) as Hreg.
  { apply rtc_once. destruct (hub_heap (registered 2) !! 0%nat) as [r|] eqn:Er; [|by vm_compute in Er].
    eexists. by apply (registered_step 2 r Er). }
  destruct (correlations_stay_within_bounds 2 _ Hreg) as (_ & _ & Hops).
  destruct (Hops undisturbed (λ _ _, rtc_refl _ _)) as (Hdomain & _).
  destruct (correlations_stay_within_bounds 2 observed_hub) as (Hok & _).
  { unfold hub_evolves in *. etrans; [exact Hreg|apply Hdomain]. }
  by split; [|vm_compute].
Defined.

Definition first_event : CorrelationEvent :=
  mkCorrelationEvent 1 "c-1" (CommandEvent "o-1" None None None "orders" "PlaceOrder" 1).
Definition subscribed_record (subscribers : N) : CorrelationRecord :=
  mkRecord "c-1" ModeTest 512 (4 * 1024 * 1024) (mkCorrelationState 2 [first_event] 7)
    CorrelationEvidenceState_default false subscribers.
Definition read_world : World :=
  mkWorld (hub_write (registered 2) 0 (subscribed_record 1) (hub_control_budget (registered 2))) [(0%nat, first_event)]
    [mkReader 0 0 1 [first_event]].

Lemma read_world_reached : rtc world_step (world_new 2) read_world.
Proof.
  assert (hub_heap (registered 2) !! 0%nat = Some (subscribed_record 0)) as Hr by (by vm_compute).
  set (w1 := mkWorld (registered 2) [(0%nat, first_event)] []).
  apply (rtc_l _ _ w1); [exact (world_hub (world_new 2) _ _ (registered_step 2 _ Hr eq_refl))|].
  eapply rtc_l; [exact (world_subscribe w1 0 (subscribed_record 0) 0 (subscribed_record 1) Hr eq_refl)|].
  eapply rtc_l; [refine (world_read _ 0 (mkReader 0 0 0 []) (subscribed_record 1) first_event _ _ _); by vm_compute|].
  apply rtc_refl.
Qed.

Lemma subscriber_misses_nothing_witness :
  ∃ rest, filter (λ e, 0 < cev_id e) (log_of 0 (w_log read_world)) = [first_event] ++ rest ∧ rest = [].
Proof.
  destruct (subscriber_misses_nothing 2 read_world (mkReader 0 0 1 [first_event]) (subscribed_record 1))
    as (rest & E & Hwait & _); [exact read_world_reached|by left|by vm_compute|by vm_compute|].
  exists rest. split; [exact E|]. apply Hwait. by vm_compute.
Defined.
